(* ===== verification/_CoqProject ===== *)
-Q . S2P
Prelude.v
Text.v
AppError.v
Registry.v
Waiters.v
RelPath.v
Archive.v
PathTree.v
Layout.v
ModInfo.v
Outputs.v
RustPath.v
TitleFilter.v
Planner.v
PlannerProps.v
RarHeaders.v
RarProps.v
CacheQuota.v
CacheProps.v
CacheTable.v
CacheTableProps.v
ContentCache.v
ContentCacheProps.v
Merkle.v
MerkleProps.v
RateLimiter.v
OutputTransaction.v
ApplyPlan.v
EntryIndex.v
EntryIndexProps.v
EntryBackfill.v
ArchiveSession.v
ArchiveMutation.v
Leases.v
Multipart.v
Merge.v
Whitelist.v
DomainSecurity.v
PluginNetwork.v
Effects.v
Streaming.v
Download.v
DownloadProps.v
DownloadLock.v
Tabs.v
TabsProps.v
Listing.v
ListingProps.v
BrowserView.v
Bridge.v
BridgeProps.v
PluginExec.v
PluginExecProps.v
PluginSession.v
PluginSessionProps.v
PluginSlots.v
PluginSlotsProps.v
Settings.v
SettingsOps.v
SettingsProps.v
PasswordMatch.v
OpenArchive.v
OpenArchiveProps.v
FsTree.v
Staging.v
StagingProps.v
Diagnose.v
Flatten.v
FlattenProps.v
Downloads.v
PipelineRuns.v
Pipeline.v
WorkDirs.v
Executor.v
ExecutorProps.v
Processing.v
Extract.v
ExtractProps.v
