(* ===== verification/Prelude.v ===== *)
(** * A verification of the core of arclain

    Arclain opens archives of games and mods, plans how their files are to be
    reorganised, repacks them, and keeps downloaded content in a bounded cache.
    This library models the parts of it that decide something, translated from
    the Rust sources under [crates/], and proves what the rest of the program
    relies on.

    ** The parts and how they interact

    - The _application layer_ tracks long-running operations in a registry that
      numbers and broadcasts their events ([app/src/operations/registry.rs]), and
      passes answers to the challenges a worker raises through one-shot wait
      slots ([challenge_waiters.rs]); [respond_to_challenge] of
      [runtime/mod.rs] asks the registry first and only then wakes the waiter.
      [Registry.v] models the registry as one definition per lock section and a
      step relation [step] whose runs are all interleavings of concurrent calls;
      [Waiters.v] models the slots and the composition; [AppError.v] the error
      record, its challenges and the redaction of diagnostics.
    - The _organization engine_ ([core/src/features/organization]) turns an
      archive's listing, a rule's layout and optional metadata into a plan. The
      listing is pruned through a tree ([PathTree.v], [engine/tree.rs]); the
      layout ([Layout.v], [layout.rs] and [mod.rs]) selects output roots and
      resolves their names, reading [modinfo.ini] files on the way ([Outputs.v],
      [engine/outputs.rs]; [ModInfo.v], [conversion/modinfo.rs]); every output is
      filled with moves, generated files and downloads, and the plan is validated
      ([Planner.v], [engine/plan_builder.rs] and [engine/mod.rs], with their
      theorems in [PlannerProps.v]). Titles become folder names through
      [TitleFilter.v] ([utilities/title_filter.rs]), and every path is accepted
      or refused by [RelPath.v] ([utilities/checked_relative_path.rs]).
      [RustPath.v] is what the engine uses of [std::path] on Unix.
    - The _pipeline_ ([core/src/features/pipeline]) runs the steps of a
      configuration over input archives. [Executor.v] is [executor.rs]: hashing an
      input, the collision gate and the record of the run, unpacking into a work
      directory of the temporary root, which is used as it is when it is there,
      the steps, packing or copying, the commit, and the loop over the inputs; its
      theorems are in [ExecutorProps.v], and [WorkDirs.v] has the names of the work
      directories and runs under way together. [Pipeline.v] has the configuration, the names of outputs
      and the preview ([types.rs], [preview.rs], [hashing.rs]); [PipelineRuns.v]
      the table of runs ([db/src/pipeline_runs.rs]). The steps: flattening nested
      archives ([Flatten.v] and [FlattenProps.v], [conversion/flatten.rs]) with
      its diagnostics ([Diagnose.v], [conversion/diagnose.rs]); organizing, which
      makes a plan, fetches its downloads ([Downloads.v],
      [organization/downloads.rs]), builds the new layout beside the work
      directory ([Staging.v], [organization/organizer.rs]; [StagingProps.v]) and
      swaps it in ([ApplyPlan.v], [apply_plan.rs]). The finished artifact takes the
      place of an earlier output in [OutputTransaction.v]
      ([output_transaction.rs] and [utilities/filesystem.rs]). Both are
      transactions in which every filesystem call may fail and, for the output,
      other processes may change the directory between calls. [FsTree.v] has the
      directory trees all of these work on. [Processing.v] is the worker of the
      application layer that drives the executor file by file
      ([runtime/processing_ops.rs]).
    - The _archive import worker_ checks the headers of a RAR file itself before
      it believes a native decoder: [RarHeaders.v] is [rar_headers.rs] in full,
      for RAR4 and RAR5, with its theorems in [RarProps.v].
    - The _content cache_ reserves space, admits commits and evicts by age under
      per-owner and global limits: [CacheQuota.v] is [content_cache/quota.rs]
      over a state of index rows, blobs and sidecar files, in a small monad
      whose filesystem and index calls may fail at any point; theorems in
      [CacheProps.v]. The index is a table of SQLite ([CacheTable.v],
      [db/src/cache/cache_index.rs]; [CacheTableProps.v]), which discharges the
      laws the quota asks of it, and [ContentCache.v] is the cache itself
      ([content_cache/cache.rs]; [ContentCacheProps.v]), with the buffered and
      the streaming way of writing.
    - The _checksum crate_'s Merkle tree ([checksum/src/merkle.rs]) is
      [Merkle.v], with its theorems in [MerkleProps.v].
    - An _open archive_ is a session ([app/src/archive]). Its index is built from
      a backend's listing ([EntryIndex.v], [session.rs]; theorems in
      [EntryIndexProps.v], and of the checksum backfill in [EntryBackfill.v]); the
      session answers listings, selections and snapshots from it and the store
      keeps sessions by id ([ArchiveSession.v], [session.rs] and [store.rs]).
      Adding, deleting and renaming entries goes through a worker that admits a
      request against a revision, calls the backend and lists again
      ([ArchiveMutation.v], [operations/archive_mutation.rs]). The worker that opens
      an archive, with stored passwords ([PasswordMatch.v],
      [utilities/password_matcher.rs]) and challenges, is [OpenArchive.v]
      ([runtime/archive_ops.rs]; [OpenArchiveProps.v]), a step relation over the
      registry, the waiters and the store. The worker that extracts entries with
      7-Zip, asking about files in the way and for passwords, is [Extract.v]
      ([operations/extract.rs]; [ExtractProps.v]), a step relation over the registry
      and the waiters.
    - _Materialized files_ live in directories under leases
      ([Leases.v], [materialization/store.rs]).
    - _Multi-part sets_ are detected and enumerated by name ([Multipart.v],
      [core/src/archive/multipart.rs]) and merged into one archive by a worker
      that talks to the registry ([Merge.v], [operations/merge.rs] and
      [merge_service.rs]); its steps interleave with those of [Registry.v].
    - The _network crate_: the rate limiter ([RateLimiter.v]), the domain
      whitelist ([Whitelist.v]), the analysis of suspicious URLs
      ([DomainSecurity.v]), what a plugin's request passes before each hop
      ([PluginNetwork.v], [plugin_policy.rs] and [client.rs]), and the reading of
      response bodies ([Streaming.v], [client.rs]).
    - A _resumable download_ into the cache ([data/src/features/streaming_download.rs])
      is [Download.v] with its theorems in [DownloadProps.v]; it drives the sink
      of [Streaming.v]. The gate that lets one download per key run at a time is
      [DownloadLock.v]. [Effects.v] is the state and error monad they are written
      in and its pre- and postcondition rules.

    - The _window_ keeps tabs ([Tabs.v], [TabsProps.v], [ui/src/core/tabs]), saved
      at the exit and restored at the launch through two files
      ([app_lifecycle.rs], [persistence.rs] and the session list of
      [app/src/settings.rs]), each with a listing of its archive ([Listing.v], [ListingProps.v],
      [listing.rs], over the navigation of [core/src/archive/navigation.rs]) and a
      sorted view of it ([BrowserView.v]); the bridge applies the operations'
      events to them ([Bridge.v], [BridgeProps.v], [operation_bridge.rs]). The
      model runs a handler of the bridge as one step; the program also runs them on
      callers' tasks and the render thread, so its theorems are about sequences of
      handlers and the examples show races.
    - _Plugins_ are guests. [PluginExec.v] ([PluginExecProps.v]) is the admission
      of their calls and the quarantine ([plugins/src/executor.rs],
      [quarantine.rs], [manager]), as threads over the manager's locks;
      [PluginSession.v] ([PluginSessionProps.v]) the sessions of their user
      interfaces ([app/src/plugins.rs]); [PluginSlots.v] ([PluginSlotsProps.v]) the
      slots of the window that draw them ([facade_sessions.rs]).
    - _Settings_ ([app/src/settings.rs], [runtime/settings_ops.rs]) are a row of a
      database, a vault of secrets and a journal that keeps the two in step for the
      proxy: [Settings.v] has the data and the patches, [SettingsOps.v] every call as
      a computation over stores whose accesses may fail or be the last, and
      [SettingsProps.v] the theorems.

    [Prelude.v] (this file) has the result type and its [let?] notation, the
    machine integers and the shared lemmas on lists and sorting; [Text.v] has
    strings as lists of bytes in UTF-8, with the [str] methods the sources call;
    [Archive.v] has the archive entry.

    ** What is proved

    - Registry: in every interleaving an operation's events are numbered 1, 2,
      3, ... in the order they are sent, nothing follows a terminal event,
      snapshots agree with the stream, cancellation reaches the worker, a
      challenge is answered once, and the history is bounded by evicting the
      oldest. These are invariants of the reachable states, by induction on the
      run.
    - Waiters: a response goes to the last registered task and to no other, and
      no part of an answer reaches events or records.
    - Paths: an accepted relative path cannot leave its base; [resolve_under]
      succeeds exactly on walks that meet no link.
    - Planning: pruning, template expansion, output resolution, content-root
      detection, rule matching, filling and validation are each characterised
      completely; a created plan passes validation, accounts for every selected
      root and carries no file twice.
    - Pipeline: organizing leaves exactly the files of the plan or the directory
      it found, and when even the rollback fails every original entry is still in
      one of the directories that are kept; flattening loses no file but archives
      that were unpacked; a download arrives or is reported; a run that may not
      overwrite changes nothing that was there but its own work directory and
      writes where it was predicted to; under [Smart] a finished run is not
      repeated; every input has one outcome; calling the
      executor file by file is calling it for the batch; runs with different names
      do not disturb each other; a
      commit never puts anything over an entry it did not take, and whatever it
      took is replaced, put back or kept for recovery; commits into one directory
      exclude each other in every interleaving of the lock's registry.
    - RAR: attestation ends on every file, and success means that the file is the
      signature and the bytes of its blocks, from a main header to an end header at
      the last byte, and that the entries are its file blocks, within the limits; the
      variable-length integers round-trip and stay within 64 bits.
    - Cache: no operation, successful or not, leaves a row without the blob it
      had; a granted reservation is within every limit; scoped keys round-trip;
      the table is a finite map, and the cache a map that may lose entries but
      never confuses them or their owners, SHA-256 collisions apart.
    - Merkle: the root is independent of the order of the files and binds them
      up to a collision of the digest among the encodings at hand; every proof
      reaches the root; the serialisation round-trips and refuses all else.
    - Rate limiter: it refines one that keeps every request for ever.
    - Entry index: the rows are the accepted rows of the listing and the folders
      they imply, joining a path of one to a directory leads below it, folder totals are what a rescan would give, ids keep their
      meaning over any number of rebuilds, the backfill is a rebuild.
    - Sessions: listings and selections are characterised completely; opening an
      archive leaves no session behind that no event tells of.
    - Extraction: files in the way are written over only when the policy or the
      user allows it, renamed files land beside them with nothing lost, and the
      operation completes only when all that was selected is extracted.
    - Mutation: in every interleaving a change is made only for a request that
      saw the rows of the file, and a revision names its rows.
    - Leases: reads stay inside the lease's directory, links followed; no step of
      a store over a root of its own touches a directory that is leased; a sweep collects exactly what expired.
    - Multi-part sets and merge: the parts are the run up to the first gap, every
      member leads to the same set, a cancelled or failed merge has deleted
      nothing, and a finished one is reported.
    - Whitelist: it refines the log of the calls made to it, and round-trips.
    - Plugin requests: a request ends, and everything that goes out for it was
      checked at its hop, was paid for from the plugin's budget and has the headers
      it may have; the
      address check is the registry's list of blocks.
    - Downloads: what is committed is one representation, every byte written was
      reserved, a response never writes past its range, one download per key.
    - Window: no call on the tabs panics, they stay well formed and survive a
      restart, and a listing shows the answer to its latest request. While one
      handler of the bridge runs at a time, archive sessions are held by one tab or
      closed, challenges are shown and answered in order, and one pass recovers the
      tracked operations after lost events.
    - Plugins: a disabled plugin is idle, an action applies to the document that
      was shown, and a session of the window has one owner unless the slots lost it.
    - Settings: an update is a compare-and-set on the revision, and what it answers
      is in the stores; the proxy's
      identity and password are one register whatever fails, at whatever point the
      process ends.
    - Where the code does not do what its comments say, that is a theorem too:
      [ApplyPlan.ApplyPlanExample.permission_failure_loses_entry] (an original
      directory is deleted when its mode cannot be put back),
      [TitleFilter.sanitize_title_panics], [ModInfo.sanitize_keeps_delete],
      [ModInfo.sanitize_keeps_space_before_dot],
      [CacheProps.long_key_record_invalid],
      [RateLimiter.RateLimiterExample.retry_after_when_allowed],
      [ArchiveMutation.MutationExample.relist_panic_unnoticed],
      [Leases.LeasesExample.third_instance_clears_live_leases],
      [Multipart.MultipartExample.padded_parts_are_lost],
      [DomainSecurity.homographs_never_reported],
      [DomainSecurity.ipv6_literals_unflagged],
      [DownloadProps.download_sends_once],
      [DownloadLock.DownloadLockExample.shared_result_outlives_owner],
      [TabsProps.TabsExample.replaced_pin_loses_archives],
      [BridgeProps.plain_close_leaks],
      [BridgeProps.BridgeExample.race_hides_the_dialog],
      [BridgeProps.BridgeExample.stale_copy_hides_the_dialog],
      [PluginExecProps.PluginExecExample.disable_deadlocks],
      [PluginSessionProps.PluginSessionExample.document_after_disable],
      [PluginSlotsProps.PluginSlotsExample.lost_plugin_sessions],
      [ContentCacheProps.ContentCacheExample.host_pattern_reaches_plugins],
      [SettingsProps.SettingsExample.rekey_loses_secrets],
      [SettingsProps.SettingsExample.move_onto_itself_empties],
      [PasswordMatch.PasswordMatchExample.restart_changes_the_password],
      [StagingProps.StagingExample.wrapper_named_like_a_file_is_refused],
      [Diagnose.DiagnoseExample.parent_with_a_colon_is_not_found],
      [FlattenProps.FlattenExample.content_under_the_temporary_name],
      [ExecutorProps.ExecutorExample.folder_after_archive_is_skipped],
      [ExecutorProps.ExecutorExample.preview_misses_the_default_zip],
      [ExecutorProps.ExecutorExample.leftover_work_dir_is_used],
      [WorkDirs.WorkDirsExample.same_named_inputs_mix],
      [ExtractProps.ExtractExample.files_behind_links_are_taken],
      [ExtractProps.ExtractExample.full_disk_asks_password] and
      [ExtractProps.ExtractExample.entry_named_like_a_switch].

    ** Modelling choices

    - Strings are lists of bytes, as Rust's are; characters are cut out of them
      by their leading byte. Case mapping and the alphanumeric class of Unicode
      are a parameter ([Text.UnicodeTables]), instantiated by ASCII in examples.
    - [u64] and [usize] are integers of [Z]; wrapping, saturating and checked
      operations are written where the source uses them, and theorems that need
      a value to be in range say so.
    - What comes from other crates is a parameter with the laws the code relies
      on: CRC-32 and the entry-path rule ([RarHeaders.RarExternals]), the digests
      ([Merkle.Digests]), regular expressions and JSON ([Planner.Externals]), the
      cache index and filesystem facts ([CacheQuota.CacheIndex],
      [CacheQuota.CacheExternals]), the JSON of the tabs' files ([Tabs.Json]).
      Every theorem with such a parameter has an
      example that instantiates it.
    - Loops that are not structural take fuel, and a lemma shows that the fuel
      given is enough: the length of the string for expansion and characters,
      the size of the file for attestation (every block moves forward), the
      length of a level for the Merkle tree (a turn halves it), one more than
      the rows for the pages of the index, one more than the directories for the
      move out of a staging directory. The passes of a flattening are bounded
      by the source's own cap.
      A plugin's request takes fuel for the redirects it may follow.
    - A hash map whose order could show is an association list, and the theorems
      do not depend on that order; a sort is stable where the source's is.
    - Locks: a definition is what happens under one lock, so the runs of a
      component are sequences of them. The handlers of [Bridge.v], the methods of
      [ContentCache.v] and the calls of [SettingsOps.v] are one step each; for the
      settings that is their lock.
    - A panic is a value: [None] for the methods of the tabs, a failure of their own
      for the executor and the workers.
    - Filesystems are as rich as the component needs: a set of names for the two
      transactions, trees by path for the steps of the pipeline (links are kept
      as nodes that lead nowhere), a tree with links and other programs at work
      for the leases,
      a directory listing for the multi-part names, one partial file with its
      sidecar and reservation for a download. A call that may fail asks its
      environment, and a download also records every state of the disk it passes
      through, so that a theorem about those states covers a crash at any point.
    - An environment per hop stands for what DNS, servers and other threads do
      between the hops of a plugin's request. A strong entity tag names one
      sequence of bytes: that HTTP promise is the hypothesis
      [DownloadProps.lawful] of the download's theorems, with an example.
    - The order in which a hash map is walked is an argument where a result could
      depend on it ([EntryIndex.apply_crc32_backfill]). The [url] and IDNA crates
      are a class with laws ([DomainSecurity.v]).

    ** What is not modelled

    Rendering, the command line, SQL text, migrations and plugin hosting, the
    native decoders and the processes around them: they are I/O, or behaviour of
    other crates, and enter as what they answer. Of the pipeline, the presets file
    and the worker of a single organize run; of the leases, the extraction that
    fills one ([materialization/mod.rs]) and drag staging; of the plugin sessions,
    the normalization of a guest's document; of the settings, the cache tasks and
    connection probes; of the network client, the host's own requests, the map of
    pending requests and the proxies; of the archive workers,
    reading the text of an entry; the frames of the import protocol. Modification
    times are not part of the directory trees. *)

From stdpp Require Import base tactics option list gmap sorting.
From Stdlib Require Import ZArith Lia.

(** * Automation of the development *)

(** The hint database the components extend with the lemmas that close their
    routine goals. *)
Create HintDb arclain.

(** The library's scope: the [let?] notation lives here. *)
Declare Scope arclain_scope.
Delimit Scope arclain_scope with arclain.

(** * Results *)

(** Rust's [Result<A, E>]. *)
Inductive result (E A : Type) : Type :=
| Ok (a : A)
| Err (e : E).
Arguments Ok {E A} a.
Arguments Err {E A} e.

Definition rbind {E A B : Type} (r : result E A) (k : A -> result E B) : result E B :=
  match r with
  | Ok a => k a
  | Err e => Err e
  end.

(** The [?] operator: [let? x := r in k] returns early with the error of [r]. *)
Notation "'let?' x ':=' r 'in' k" := (rbind r (fun x => k))
  (at level 10, x pattern, k at level 200) : arclain_scope.

(** [Option::ok_or]. *)
Definition ok_or {E A : Type} (o : option A) (e : E) : result E A :=
  match o with
  | Some a => Ok a
  | None => Err e
  end.

Definition is_ok {E A : Type} (r : result E A) : bool :=
  match r with Ok _ => true | Err _ => false end.

Lemma rbind_ok {E A B : Type} (r : result E A) (k : A -> result E B) (b : B) :
  rbind r k = Ok b <-> exists a, r = Ok a /\ k a = Ok b.
Proof.
  destruct r as [a|e]; simpl; split; [eauto|by intros (? & [= <-] & ?)|done|by intros (? & ? & ?)].
Qed.

Lemma ok_or_ok {E A : Type} (o : option A) (e : E) (a : A) :
  ok_or o e = Ok a <-> o = Some a.
Proof. destruct o; simpl; split; congruence. Qed.

(** A fallible left fold: the shape of a [for] loop whose body uses [?]. *)
Fixpoint try_fold {E S A : Type} (f : S -> A -> result E S) (s : S) (l : list A)
  : result E S :=
  match l with
  | [] => Ok s
  | a :: l' => rbind (f s a) (fun s' => try_fold f s' l')
  end.

Lemma try_fold_app {E S A : Type} (f : S -> A -> result E S) s l1 l2 :
  try_fold f s (l1 ++ l2) = rbind (try_fold f s l1) (fun s' => try_fold f s' l2).
Proof.
  revert s; induction l1 as [|a l1 IH]; intros s; simpl; [done|].
  destruct (f s a); simpl; auto.
Qed.

(** The invariant rule of such a loop: [I done s] holds of the elements
    consumed so far and the state reached. *)
Lemma try_fold_invariant {E S A : Type} (f : S -> A -> result E S)
    (I : list A -> S -> Prop) s l s' :
  I [] s ->
  (forall pre a post t t', l = pre ++ a :: post -> I pre t -> f t a = Ok t' ->
     I (pre ++ [a]) t') ->
  try_fold f s l = Ok s' -> I l s'.
Proof.
  intros H0 Hstep.
  assert (forall post pre t, l = pre ++ post -> I pre t ->
            try_fold f t post = Ok s' -> I l s') as Hgen.
  { induction post as [|a post IH]; intros pre t Hl HI Hf; simpl in Hf.
    - rewrite app_nil_r in Hl. naive_solver.
    - apply rbind_ok in Hf as (t' & Ht' & Hrest).
      eapply (IH (pre ++ [a])); [|by eapply Hstep|done].
      by rewrite Hl, <-app_assoc. }
  by apply (Hgen l [] s).
Qed.

(** Splits a successful chain of [let?]s and guards in the hypotheses. *)
Ltac simplify_result :=
  repeat match goal with
  | H : Err _ = Ok _ |- _ => discriminate H
  | H : Ok _ = Err _ |- _ => discriminate H
  | H : Ok _ = Ok _ |- _ => injection H as H; try subst
  | H : Some _ = None |- _ => discriminate H
  | H : None = Some _ |- _ => discriminate H
  | H : rbind ?r _ = Ok _ |- _ =>
      let a := fresh "r" in let Ha := fresh "Hr" in
      apply rbind_ok in H as (a & Ha & H)
  | H : ok_or ?o _ = Ok _ |- _ => apply ok_or_ok in H
  | H : (if ?b then Err _ else _) = Ok _ |- _ =>
      let Hb := fresh "Hg" in destruct b eqn:Hb; [discriminate H|]
  | H : (if ?b then _ else Err _) = Ok _ |- _ =>
      let Hb := fresh "Hg" in destruct b eqn:Hb; [|discriminate H]
  end.

(** * Machine integers *)

(** [u64] and [usize] (on the 64-bit targets the program ships for) are
    integers of [Z] in [0 .. u64_max]; the operations below say what the source
    does at the ends of that range. *)
Definition u64_max : Z := 18446744073709551615.
Definition u64_modulus : Z := 18446744073709551616.

Definition is_u64 (z : Z) : Prop := (0 <= z <= u64_max)%Z.

(** [u64::saturating_add] and [u64::saturating_sub]. *)
Definition saturating_add (a b : Z) : Z := Z.min (a + b) u64_max.
Definition saturating_sub (a b : Z) : Z := Z.max 0 (a - b).

(** [u64::checked_add] and [u64::checked_sub]. *)
Definition checked_add (a b : Z) : option Z :=
  if (a + b <=? u64_max)%Z then Some (a + b)%Z else None.
Definition checked_sub (a b : Z) : option Z :=
  if (b <=? a)%Z then Some (a - b)%Z else None.

(** [u64::wrapping_add], which is also [AtomicU64::fetch_add]. *)
Definition wrapping_add (a b : Z) : Z := ((a + b) mod u64_modulus)%Z.

Lemma saturating_add_u64 a b : is_u64 a -> is_u64 b -> is_u64 (saturating_add a b).
Proof. unfold is_u64, saturating_add, u64_max. lia. Qed.

Lemma saturating_sub_u64 a b : is_u64 a -> is_u64 b -> is_u64 (saturating_sub a b).
Proof. unfold is_u64, saturating_sub, u64_max. lia. Qed.

Lemma saturating_add_le a b c :
  (c <= u64_max)%Z -> (saturating_add a b <= c)%Z -> (c < u64_max)%Z -> (a + b <= c)%Z.
Proof. unfold saturating_add. lia. Qed.

Lemma checked_add_some a b c :
  checked_add a b = Some c -> c = (a + b)%Z /\ (c <= u64_max)%Z.
Proof. unfold checked_add. destruct (a + b <=? u64_max)%Z eqn:E; naive_solver lia. Qed.

Lemma checked_sub_some a b c :
  checked_sub a b = Some c -> c = (a - b)%Z /\ (b <= a)%Z.
Proof. unfold checked_sub. destruct (b <=? a)%Z eqn:E; naive_solver lia. Qed.

Lemma wrapping_add_small a b :
  (0 <= a + b)%Z -> (a + b <= u64_max)%Z -> wrapping_add a b = (a + b)%Z.
Proof. unfold wrapping_add, u64_max, u64_modulus. intros. apply Z.mod_small. lia. Qed.

#[export] Hint Resolve saturating_add_u64 saturating_sub_u64 : arclain.

(** * Lists *)

(** A sort whose equal elements are identical is stdpp's merge sort; what the
    components use of it is that it permutes its input and sorts it. *)
Lemma merge_sort_elem {A : Type} (R : relation A) `{!RelDecision R} (l : list A) x :
  x ∈ merge_sort R l <-> x ∈ l.
Proof. by rewrite (merge_sort_Permutation R l). Qed.

(** [Iterator::filter(..).count()]. *)
Definition count_if {A : Type} (p : A -> bool) (l : list A) : nat :=
  length (List.filter p l).

Lemma count_if_cons {A : Type} (p : A -> bool) x l :
  count_if p (x :: l) = ((if p x then 1 else 0) + count_if p l)%nat.
Proof. unfold count_if. simpl. by destruct (p x). Qed.

Lemma count_if_app {A : Type} (p : A -> bool) l k :
  count_if p (l ++ k) = (count_if p l + count_if p k)%nat.
Proof. induction l as [|x l IH]; simpl; rewrite ?count_if_cons; [done|lia]. Qed.

Lemma count_if_perm {A : Type} (p : A -> bool) l1 l2 :
  l1 ≡ₚ l2 -> count_if p l1 = count_if p l2.
Proof.
  induction 1 as [|x l1 l2 _ IH|x y l|l1 l2 l3 _ IH1 _ IH2];
    rewrite ?count_if_cons; lia.
Qed.

(** Related lists: an element of one has its partner in the other. *)
Lemma Forall2_elem_r {A B : Type} (P : A -> B -> Prop) l k y :
  Forall2 P l k -> y ∈ k -> exists x, x ∈ l /\ P x y.
Proof.
  intros H (i & Hi)%list_elem_of_lookup. destruct (Forall2_lookup_r _ _ _ _ _ H Hi) as (x & Hx & HP).
  exists x. split; [|done]. by eapply list_elem_of_lookup_2.
Qed.

Lemma Forall2_elem_l {A B : Type} (P : A -> B -> Prop) l k x :
  Forall2 P l k -> x ∈ l -> exists y, y ∈ k /\ P x y.
Proof.
  intros H (i & Hi)%list_elem_of_lookup. destruct (Forall2_lookup_l _ _ _ _ _ H Hi) as (y & Hy & HP).
  exists y. split; [|done]. by eapply list_elem_of_lookup_2.
Qed.

(** Sorting commutes with a map that respects the order. *)
Section merge_sort_map.
Context {A B : Type} (R : relation A) (S : relation B)
        `{!RelDecision R, !RelDecision S} (f : A -> B).
Context (Hf : forall x y, R x y <-> S (f x) (f y)).

Lemma list_merge_map l1 l2 :
  list_merge S (map f l1) (map f l2) = map f (list_merge R l1 l2).
Proof.
  revert l2; induction l1 as [|x1 l1 IH1]; intros l2; [by destruct l2|].
  induction l2 as [|x2 l2 IH2]; [done|]. simpl in *.
  destruct (decide (R x1 x2)) as [Hr|Hr], (decide (S (f x1) (f x2))) as [Hs|Hs];
    try (exfalso; rewrite Hf in Hr; done); simpl; f_equal; [apply (IH1 (x2 :: l2))|apply IH2].
Qed.

Lemma merge_list_to_stack_map st l :
  merge_list_to_stack S (map (option_map (map f)) st) (map f l)
  = map (option_map (map f)) (merge_list_to_stack R st l).
Proof.
  revert l; induction st as [|[l'|] st IH]; intros l; simpl; [done| |done].
  f_equal. by rewrite list_merge_map, IH.
Qed.

Lemma merge_stack_map st :
  merge_stack S (map (option_map (map f)) st) = map f (merge_stack R st).
Proof.
  induction st as [|[l'|] st IH]; simpl; [done| |done]. by rewrite IH, list_merge_map.
Qed.

Lemma merge_sort_map l : merge_sort S (map f l) = map f (merge_sort R l).
Proof.
  unfold merge_sort. change [] with (map (option_map (map f)) []) at 1.
  generalize (@nil (option (list A))) as st. induction l as [|x l IH]; intros st; simpl.
  - apply merge_stack_map.
  - change [f x] with (map f [x]). by rewrite merge_list_to_stack_map, IH.
Qed.
End merge_sort_map.

(** [slice::sort_by], which is stable, where equal elements can be told apart:
    an insertion sort by a total preorder. *)
Section stable_sort.
Context {A : Type} (R : relation A) `{!RelDecision R}.

Fixpoint insert_sorted (x : A) (l : list A) : list A :=
  match l with
  | [] => [x]
  | y :: l' => if decide (R x y) then x :: l else y :: insert_sorted x l'
  end.

Definition stable_sort (l : list A) : list A := foldr insert_sorted [] l.

Lemma insert_sorted_perm x l : insert_sorted x l ≡ₚ x :: l.
Proof.
  induction l as [|y l IH]; simpl; [done|]. destruct (decide (R x y)); [done|].
  rewrite IH. constructor.
Qed.

Lemma stable_sort_perm l : stable_sort l ≡ₚ l.
Proof. induction l as [|x l IH]; simpl; [done|]. by rewrite insert_sorted_perm, IH. Qed.

Context `{!Transitive R, !Total R}.

Lemma insert_sorted_sorted x l : StronglySorted R l -> StronglySorted R (insert_sorted x l).
Proof.
  induction 1 as [|y l Hl IH Hy]; simpl; [by repeat constructor|].
  destruct (decide (R x y)) as [Hr|Hr].
  - repeat constructor; [done|done|done|]. eapply Forall_impl; [exact Hy|].
    intros z Hz. by transitivity y.
  - constructor; [done|]. rewrite insert_sorted_perm. constructor; [|done].
    by destruct (total R x y).
Qed.

Lemma stable_sort_sorted l : StronglySorted R (stable_sort l).
Proof. induction l as [|x l IH]; simpl; [constructor|by apply insert_sorted_sorted]. Qed.

(** The elements of a class of mutually comparable ones keep their order. *)
Context (P : A -> bool) (HP : forall x y, P x = true -> P y = true -> R x y).

Lemma stable_sort_stable l : List.filter P (stable_sort l) = List.filter P l.
Proof.
  induction l as [|x l IH]; [done|]. cbn [stable_sort foldr List.filter].
  rewrite <-IH. fold (stable_sort l). clear IH.
  generalize (stable_sort_sorted l). generalize (stable_sort l) as m. intros m Hm.
  induction Hm as [|y m Hm IH Hy]; [simpl; by destruct (P x)|]. cbn [insert_sorted].
  destruct (decide (R x y)) as [Hr|Hr]; [done|]. cbn [List.filter]. rewrite IH.
  destruct (P x) eqn:Ex, (P y) eqn:Ey; try done. by destruct Hr; apply HP.
Qed.
End stable_sort.

Lemma StronglySorted_omap {A B : Type} (R : relation A) (S : relation B) (f : A -> option B) l :
  (forall x y a b, f x = Some a -> f y = Some b -> R x y -> S a b) ->
  StronglySorted R l -> StronglySorted S (omap f l).
Proof.
  intros Hf. induction 1 as [|x l Hl IH Hx]; [constructor|]. cbn. destruct (f x) as [a|] eqn:E; [|done].
  constructor; [done|]. apply Forall_forall. intros b (y & Hy & Hb)%list_elem_of_omap.
  rewrite Forall_forall in Hx. by eapply Hf; [exact E|exact Hb|apply Hx].
Qed.

Lemma StronglySorted_mono {A : Type} (R S : relation A) l :
  (forall x y, R x y -> S x y) -> StronglySorted R l -> StronglySorted S l.
Proof. intros H. induction 1 as [|x l Hl IH Hx]; constructor; [done|]. eapply Forall_impl; [exact Hx|apply H]. Qed.

Lemma StronglySorted_filter {A : Type} (R : relation A) (f : A -> bool) l :
  StronglySorted R l -> StronglySorted R (List.filter f l).
Proof.
  induction 1 as [|x l Hl IH Hx]; [constructor|]. cbn. destruct (f x); [|done]. constructor; [done|].
  rewrite Forall_forall in Hx |- *. intros y Hy%list_elem_of_In%filter_In. apply Hx, list_elem_of_In, Hy.
Qed.

(** It commutes with a map that respects the order, and depends on the order only. *)
Lemma stable_sort_map {A B : Type} (R : relation A) (S : relation B)
    `{!RelDecision R, !RelDecision S} (f : A -> B) l :
  (forall x y, R x y <-> S (f x) (f y)) ->
  stable_sort S (map f l) = map f (stable_sort R l).
Proof.
  intros Hf. induction l as [|x l IH]; [done|]. cbn [map stable_sort foldr]. unfold stable_sort in IH.
  rewrite IH. generalize (foldr (insert_sorted R) [] l) as m. clear -Hf.
  induction m as [|y m IH]; [done|]. cbn [map insert_sorted].
  destruct (decide (R x y)) as [H|H], (decide (S (f x) (f y))) as [H'|H']; cbn [map];
    try (exfalso; rewrite Hf in H; done); [done|by rewrite IH].
Qed.

Lemma stable_sort_ext {A : Type} (R S : relation A) `{!RelDecision R, !RelDecision S} l :
  (forall x y, R x y <-> S x y) -> stable_sort S l = stable_sort R l.
Proof. intros H. pose proof (stable_sort_map R S id l H) as E. by rewrite !map_id in E. Qed.

Lemma perm_heads {A : Type} (x y : A) l1 l2 :
  x :: l1 ≡ₚ y :: l2 -> x = y \/ (y ∈ l1 /\ x ∈ l2).
Proof.
  intros Hp. assert (x ∈ y :: l2) as Hx by (rewrite <-Hp; left).
  assert (y ∈ x :: l1) as Hy by (rewrite Hp; left).
  apply elem_of_cons in Hx as [Hx|Hx]; [by left|]. apply elem_of_cons in Hy as [Hy|Hy]; [by left|auto].
Qed.

(** Sorted permutations of each other are equal when elements of the same rank are. *)
Lemma sorted_perm_eq {A : Type} (R : relation A) l1 l2 :
  StronglySorted R l1 -> StronglySorted R l2 -> l1 ≡ₚ l2 ->
  (forall x y, x ∈ l1 -> y ∈ l1 -> R x y -> R y x -> x = y) -> l1 = l2.
Proof.
  intros H1. revert l2; induction H1 as [|x l1 H1 IH Hx]; intros l2 H2 Hp Heq.
  { by apply Permutation_nil_l in Hp. }
  destruct H2 as [|y l2 H2 Hy]; [by apply Permutation_nil_r in Hp|].
  assert (x = y) as ->.
  { destruct (perm_heads x y l1 l2 Hp) as [->|[Hyl Hxl]]; [done|].
    rewrite Forall_forall in Hx, Hy. apply Heq; [left|by right|by apply Hx|by apply Hy]. }
  f_equal. apply IH; [done| |].
  - by apply Permutation_cons_inv in Hp.
  - intros u v Hu Hv. apply Heq; by right.
Qed.

(** [Ordering::then_with]: the comparison of a key, then the rest on a tie. *)
Definition then_with {A B : Type} `{!EqDecision B} (f : A -> B) (leb : B -> B -> bool)
    (rest : A -> A -> bool) (a b : A) : bool :=
  if bool_decide (f a = f b) then rest a b else leb (f a) (f b).

Section then_with.
Context {A B : Type} `{!EqDecision B} (f : A -> B) (leb : B -> B -> bool) (rest : A -> A -> bool).
Context (leb_total : forall x y, leb x y = true \/ leb y x = true)
        (leb_trans : forall x y z, leb x y = true -> leb y z = true -> leb x z = true)
        (leb_antisymm : forall x y, leb x y = true -> leb y x = true -> x = y).

Lemma then_with_total :
  (forall x y, rest x y = true \/ rest y x = true) ->
  forall x y, then_with f leb rest x y = true \/ then_with f leb rest y x = true.
Proof.
  intros Hr x y. unfold then_with. repeat case_bool_decide; try congruence; auto.
Qed.

Lemma then_with_trans :
  (forall x y z, rest x y = true -> rest y z = true -> rest x z = true) ->
  forall x y z, then_with f leb rest x y = true -> then_with f leb rest y z = true ->
    then_with f leb rest x z = true.
Proof.
  intros Hr x y z. unfold then_with.
  case_bool_decide as E1; case_bool_decide as E2; case_bool_decide as E3;
    try congruence; eauto; intros L1 L2.
  destruct E1. replace (f z) with (f x) in * by congruence. by apply leb_antisymm.
Qed.

Lemma then_with_antisymm x y :
  then_with f leb rest x y = true -> then_with f leb rest y x = true ->
  f x = f y /\ rest x y = true /\ rest y x = true.
Proof.
  unfold then_with. case_bool_decide as E1; case_bool_decide as E2; try congruence; auto.
  intros L1 L2. destruct E1. by apply leb_antisymm.
Qed.
End then_with.

Lemma Zleb_total (x y : Z) : (x <=? y)%Z = true \/ (y <=? x)%Z = true.
Proof. lia. Qed.

(** * Lists within lists *)

Lemma sublist_Forall {A} (P : A -> Prop) (l1 l2 : list A) : sublist l1 l2 -> Forall P l2 -> Forall P l1.
Proof. induction 1; inversion 1; subst; auto. Qed.

Lemma filter_map {A B : Type} (f : A -> B) (p : B -> bool) l :
  List.filter p (map f l) = map f (List.filter (fun a => p (f a)) l).
Proof. induction l as [|a l IH]; [done|]. cbn. rewrite IH. by destruct (p (f a)). Qed.

Lemma sublist_list_filter {A} (p : A -> bool) (l : list A) : sublist (List.filter p l) l.
Proof. induction l as [|a l IH]; cbn; [constructor|]. destruct (p a); by constructor. Qed.

(** Removing an element by its position is removing it by its key. *)
Lemma delete_is_filter {A : Type} (f : A -> Z) (l : list A) i a :
  NoDup (map f l) -> l !! i = Some a -> delete i l = List.filter (fun b => negb (f b =? f a)%Z) l.
Proof.
  revert i; induction l as [|b l IH]; intros i Hn Hi; [done|]. cbn in Hn. apply NoDup_cons in Hn as [Hb Hn].
  destruct i as [|i]; cbn in Hi |- *.
  - injection Hi as ->. rewrite Z.eqb_refl. cbn. symmetry. clear IH Hn.
    induction l as [|c l IH]; [done|]. cbn in Hb |- *. apply not_elem_of_cons in Hb as [Hc Hb].
    destruct (Z.eqb_spec (f c) (f a)); [congruence|]. cbn. by rewrite IH.
  - destruct (Z.eqb_spec (f b) (f a)) as [E|_]; cbn; [|by erewrite <-IH].
    exfalso. apply Hb. rewrite E. apply list_elem_of_fmap. exists a. split; [done|by eapply list_elem_of_lookup_2].
Qed.
