(* ===== verification/Text.v ===== *)
(** Text: the [str] operations of Rust's standard library the program uses.

    A [&str] or [String] is its UTF-8 bytes, a [list ascii]; the separators the
    program cuts on are ASCII, and an ASCII byte never occurs inside the
    encoding of another character, so byte operations are the character
    operations of the source.  Where a character above ASCII matters ([chars],
    [char::is_control], [str::is_char_boundary], [split_whitespace]) the
    encoding is read off the lead byte.  What depends on the Unicode tables
    ([to_uppercase], [to_lowercase], [char::is_alphanumeric]) is the interface
    [UnicodeTables], and the theorems hold for every implementation of it. *)

From stdpp Require Import base tactics option list gmap sorting strings.
From Stdlib Require Import ZArith Lia Ascii.
From S2P Require Import Prelude.

(** A Rust string: its UTF-8 bytes. *)
Abbreviation str := (list ascii).

(** A string literal. *)
Notation "§ s" := (String.list_ascii_of_string s) (at level 1, format "§ s").

Definition code (c : ascii) : N := N_of_ascii c.

Lemma code_inj a b : code a = code b -> a = b.
Proof.
  unfold code. intros H. by rewrite <-(ascii_N_embedding a), H, ascii_N_embedding.
Qed.

Definition ascii_eqb (a b : ascii) : bool := bool_decide (a = b).

Definition str_eqb (a b : str) : bool := bool_decide (a = b).

Lemma str_eqb_eq a b : str_eqb a b = true <-> a = b.
Proof. unfold str_eqb. by rewrite bool_decide_eq_true. Qed.

Lemma str_eqb_refl a : str_eqb a a = true.
Proof. by apply str_eqb_eq. Qed.

(** ** The Unicode tables *)

Class UnicodeTables := {
  to_uppercase : str -> str;
  to_lowercase : str -> str;
  (** of one encoded character *)
  is_alphanumeric : str -> bool;
  (** the [{:?}] rendering of a string, quotes and escapes included *)
  debug_str : str -> str
}.

(** ** ASCII case *)

Definition ascii_upper (c : ascii) : ascii :=
  if ((97 <=? code c) && (code c <=? 122))%N then ascii_of_N (code c - 32) else c.

Definition ascii_lower (c : ascii) : ascii :=
  if ((65 <=? code c) && (code c <=? 90))%N then ascii_of_N (code c + 32) else c.

(** [str::to_ascii_uppercase], [str::to_ascii_lowercase] and
    [str::eq_ignore_ascii_case]. *)
Definition to_ascii_uppercase (s : str) : str := map ascii_upper s.
Definition to_ascii_lowercase (s : str) : str := map ascii_lower s.
Definition eq_ignore_ascii_case (a b : str) : bool :=
  str_eqb (to_ascii_lowercase a) (to_ascii_lowercase b).

Definition is_ascii_alnum (c : ascii) : bool :=
  ((48 <=? code c) && (code c <=? 57)
   || (65 <=? code c) && (code c <=? 90)
   || (97 <=? code c) && (code c <=? 122))%N.

(** The tables restricted to ASCII: an instance the examples run on. *)
Definition ascii_tables : UnicodeTables := {|
  to_uppercase := to_ascii_uppercase;
  to_lowercase := to_ascii_lowercase;
  is_alphanumeric ch := match ch with [c] => is_ascii_alnum c | _ => false end;
  debug_str s := ["034"%char] ++ s ++ ["034"%char]
|}.

(** ** UTF-8 *)

Definition is_continuation (c : ascii) : bool :=
  ((128 <=? code c) && (code c <? 192))%N.

(** [str::is_char_boundary]. *)
Definition is_char_boundary (s : str) (i : nat) : bool :=
  match i with
  | 0 => true
  | _ => match s !! i with
         | Some c => negb (is_continuation c)
         | None => (i =? length s)%nat
         end
  end.

(** The length of the character a lead byte opens. *)
Definition char_width (c : ascii) : nat :=
  if (code c <? 128)%N then 1
  else if (code c <? 224)%N then 2
  else if (code c <? 240)%N then 3
  else 4.

Lemma char_width_pos c : (1 <= char_width c)%nat.
Proof. unfold char_width. repeat case_match; lia. Qed.

Fixpoint chars_fuel (fuel : nat) (s : str) : list str :=
  match fuel, s with
  | S fuel', c :: _ => take (char_width c) s :: chars_fuel fuel' (drop (char_width c) s)
  | _, _ => []
  end.

(** [str::chars], each character as its encoding.  One unit of fuel per byte
    is enough, since a character has at least one byte: [concat_chars]. *)
Definition chars (s : str) : list str := chars_fuel (length s) s.

Lemma concat_chars s : concat (chars s) = s.
Proof.
  unfold chars. generalize (le_n (length s)). generalize (length s) at 2 3 as fuel.
  intros fuel; revert s; induction fuel as [|fuel IH]; intros s Hs.
  - destruct s; [done|simpl in Hs; lia].
  - destruct s as [|c s]; [done|]. cbn [chars_fuel concat].
    rewrite IH; [by rewrite take_drop|].
    rewrite length_drop. pose proof (char_width_pos c). simpl in *. lia.
Qed.

(** [char::is_control] of an encoded character: U+0000..U+001F, U+007F and
    U+0080..U+009F. *)
Definition char_is_control (ch : str) : bool :=
  match ch with
  | [a] => ((code a <? 32) || (code a =? 127))%N
  | [a; b] => ((code a =? 194) && (128 <=? code b) && (code b <? 160))%N
  | _ => false
  end.

(** [char::is_whitespace] of an encoded character: the White_Space property. *)
Definition char_is_whitespace (ch : str) : bool :=
  match map code ch with
  | [a] => ((9 <=? a) && (a <=? 13) || (a =? 32))%N
  | [194; b] => ((b =? 133) || (b =? 160))%N
  | [225; 154; 128] => true
  | [226; 128; b] =>
      ((128 <=? b) && (b <=? 138) || (b =? 168) || (b =? 169) || (b =? 175))%N
  | [226; 129; 159] => true
  | [227; 128; 128] => true
  | _ => false
  end%N.

(** [String::from_utf8] accepts exactly the well-formed sequences. *)
Definition in_range (lo hi : N) (c : ascii) : bool := ((lo <=? code c) && (code c <=? hi))%N.

Definition utf8_char_ok (ch : str) : bool :=
  match ch with
  | [a] => in_range 0 127 a
  | [a; b] => in_range 194 223 a && is_continuation b
  | [a; b; c] =>
      (in_range 224 224 a && in_range 160 191 b
       || in_range 225 236 a && is_continuation b
       || in_range 237 237 a && in_range 128 159 b
       || in_range 238 239 a && is_continuation b) && is_continuation c
  | [a; b; c; d] =>
      (in_range 240 240 a && in_range 144 191 b
       || in_range 241 243 a && is_continuation b
       || in_range 244 244 a && in_range 128 143 b) && is_continuation c && is_continuation d
  | _ => false
  end.

Definition utf8_valid (s : str) : bool := forallb utf8_char_ok (chars s).

Fixpoint drop_whitespace (cs : list str) : list str :=
  match cs with
  | [] => []
  | ch :: cs' => if char_is_whitespace ch then drop_whitespace cs' else cs
  end.

(** [str::trim]. *)
Definition trim (s : str) : str :=
  concat (reverse (drop_whitespace (reverse (drop_whitespace (chars s))))).

(** [str::trim_start_matches] and [trim_end_matches] of a character. *)
Fixpoint trim_start_matches (p : ascii -> bool) (s : str) : str :=
  match s with
  | [] => []
  | c :: s' => if p c then trim_start_matches p s' else s
  end.

Definition trim_end_matches (p : ascii -> bool) (s : str) : str :=
  reverse (trim_start_matches p (reverse s)).

(** ** Cutting and joining *)

(** [str::split] on a predicate of (ASCII) characters: never empty. *)
Fixpoint split_on (p : ascii -> bool) (s : str) : list str :=
  match s with
  | [] => [[]]
  | c :: s' =>
      if p c then [] :: split_on p s'
      else match split_on p s' with
           | w :: ws => (c :: w) :: ws
           | [] => [[c]]
           end
  end.

(** [slice::join]. *)
Fixpoint join (sep : str) (ws : list str) : str :=
  match ws with
  | [] => []
  | [w] => w
  | w :: ws' => w ++ sep ++ join sep ws'
  end.

(** [str::replace] of one character by another. *)
Definition replace_char (a b : ascii) (s : str) : str :=
  map (fun c => if ascii_eqb c a then b else c) s.

(** [str::contains] of a character, or of a predicate. *)
Definition contains_char (p : ascii -> bool) (s : str) : bool := existsb p s.

(** [str::starts_with], [strip_prefix], [strip_suffix], [ends_with]. *)
Fixpoint strip_prefix (p s : str) : option str :=
  match p, s with
  | [], _ => Some s
  | a :: p', b :: s' => if ascii_eqb a b then strip_prefix p' s' else None
  | _ :: _, [] => None
  end.

Definition starts_with (s p : str) : bool :=
  match strip_prefix p s with Some _ => true | None => false end.

Definition strip_suffix (p s : str) : option str :=
  match strip_prefix (reverse p) (reverse s) with
  | Some r => Some (reverse r)
  | None => None
  end.

Definition ends_with (s p : str) : bool :=
  match strip_suffix p s with Some _ => true | None => false end.

(** [str::find]: the index of the first byte that satisfies [p]. *)
Fixpoint find_char (p : ascii -> bool) (s : str) : option nat :=
  match s with
  | [] => None
  | c :: s' => if p c then Some 0 else option_map S (find_char p s')
  end.

(** [str::rfind]: the index of the last one. *)
Fixpoint rfind_char (p : ascii -> bool) (s : str) : option nat :=
  match s with
  | [] => None
  | c :: s' =>
      match rfind_char p s' with
      | Some i => Some (S i)
      | None => if p c then Some 0 else None
      end
  end.

(** [str::split_once]. *)
Definition split_once (p : ascii -> bool) (s : str) : option (str * str) :=
  match find_char p s with
  | Some i => Some (take i s, drop (S i) s)
  | None => None
  end.

(** [str::contains] of a string. *)
Fixpoint contains_str (s p : str) : bool :=
  starts_with s p || match s with [] => false | _ :: s' => contains_str s' p end.

Definition is_slash (c : ascii) : bool := ascii_eqb c "/"%char.
Definition is_backslash (c : ascii) : bool := ascii_eqb c "\"%char.
Definition is_separator (c : ascii) : bool := is_slash c || is_backslash c.

(** [path.replace('\\', "/")], the normalisation every component applies. *)
Definition slashes (s : str) : str := replace_char "\"%char "/"%char s.

(** [str::lines]: the pieces between newlines, without the piece after a final
    newline; a carriage return is taken off where a newline follows it. *)
Definition chomp_cr (s : str) : str :=
  match strip_suffix ["013"%char] s with Some r => r | None => s end.

Definition lines (s : str) : list str :=
  match reverse (split_on (fun c => ascii_eqb c "010"%char) s) with
  | [] :: rest => map chomp_cr (reverse rest)
  | last :: rest => map chomp_cr (reverse rest) ++ [last]
  | [] => []
  end.

(** ** Lemmas *)

Lemma ascii_eqb_eq a b : ascii_eqb a b = true <-> a = b.
Proof. unfold ascii_eqb. by rewrite bool_decide_eq_true. Qed.

Lemma split_on_not_nil p s : split_on p s <> [].
Proof. destruct s as [|c s]; simpl; [done|]. destruct (p c); [done|]. by case_match. Qed.

Lemma split_on_free p s :
  Forall (Forall (fun c => p c = false)) (split_on p s).
Proof.
  induction s as [|c s IH]; simpl; [by repeat constructor|].
  destruct (p c) eqn:Hc; [by constructor|].
  destruct (split_on p s) as [|w ws]; inversion IH; subst; repeat constructor; auto.
Qed.

Lemma join_cons sep w ws :
  ws <> [] -> join sep (w :: ws) = w ++ sep ++ join sep ws.
Proof. by destruct ws. Qed.

Lemma join_split c s : join [c] (split_on (fun d => ascii_eqb d c) s) = s.
Proof.
  induction s as [|d s IH]; simpl; [done|].
  destruct (ascii_eqb d c) eqn:Hd.
  - apply ascii_eqb_eq in Hd as ->. rewrite join_cons by apply split_on_not_nil.
    simpl. by rewrite IH.
  - destruct (split_on _ s) as [|w ws] eqn:Hs; [by destruct (split_on_not_nil _ _ Hs)|].
    rewrite <-IH. by destruct ws.
Qed.

Lemma split_on_none p s :
  Forall (fun c => p c = false) s -> split_on p s = [s].
Proof. induction 1 as [|c s Hc _ IH]; simpl; [done|]. by rewrite Hc, IH. Qed.

Lemma split_on_app p w c s :
  Forall (fun c => p c = false) w -> p c = true ->
  split_on p (w ++ c :: s) = w :: split_on p s.
Proof.
  intros Hw Hc. induction Hw as [|d w Hd _ IH]; simpl.
  - by rewrite Hc.
  - by rewrite Hd, IH.
Qed.

Lemma split_on_cut p c a s : p c = true -> split_on p (a ++ c :: s) = split_on p a ++ split_on p s.
Proof.
  intros Hc. induction a as [|d a IH]; simpl; [by rewrite Hc|]. rewrite IH.
  destruct (p d); [done|]. pose proof (split_on_not_nil p a). by destruct (split_on p a).
Qed.

Lemma split_join p c ws :
  p c = true -> ws <> [] -> Forall (Forall (fun c => p c = false)) ws ->
  split_on p (join [c] ws) = ws.
Proof.
  intros Hc Hne Hws. induction Hws as [|w ws Hw Hws IH]; [done|].
  destruct ws as [|w' ws].
  - simpl. by apply split_on_none.
  - rewrite join_cons by done. cbn [app].
    rewrite split_on_app by done. by rewrite IH.
Qed.

Lemma strip_prefix_spec p s r : strip_prefix p s = Some r <-> s = p ++ r.
Proof.
  revert s; induction p as [|a p IH]; intros s; simpl; [naive_solver|].
  destruct s as [|b s]; [naive_solver|].
  destruct (ascii_eqb a b) eqn:E.
  - apply ascii_eqb_eq in E as ->. rewrite IH. naive_solver.
  - split; [done|]. intros [= -> ->].
    assert (ascii_eqb a a = true) by by apply ascii_eqb_eq. congruence.
Qed.

Lemma starts_with_spec s p : starts_with s p = true <-> exists r, s = p ++ r.
Proof.
  unfold starts_with. destruct (strip_prefix p s) as [r|] eqn:E.
  - apply strip_prefix_spec in E. naive_solver.
  - split; [done|]. intros [r Hr]. apply strip_prefix_spec in Hr. congruence.
Qed.

Lemma strip_suffix_spec p s r : strip_suffix p s = Some r <-> s = r ++ p.
Proof.
  unfold strip_suffix. destruct (strip_prefix (reverse p) (reverse s)) as [q|] eqn:E.
  - apply strip_prefix_spec in E. apply (f_equal reverse) in E.
    rewrite reverse_involutive, reverse_app, reverse_involutive in E. subst s.
    split; [by intros [= <-]|]. intros H. by apply (inj (.++ p)) in H as ->.
  - split; [done|]. intros ->. rewrite reverse_app in E.
    assert (strip_prefix (reverse p) (reverse p ++ reverse r) = Some (reverse r))
      by by apply strip_prefix_spec. congruence.
Qed.

Lemma ends_with_spec s p : ends_with s p = true <-> exists r, s = r ++ p.
Proof.
  unfold ends_with. destruct (strip_suffix p s) as [r|] eqn:E.
  - apply strip_suffix_spec in E. naive_solver.
  - split; [done|]. intros [r Hr]. apply strip_suffix_spec in Hr. congruence.
Qed.

Lemma find_char_spec p s i :
  find_char p s = Some i ->
  exists c, s !! i = Some c /\ p c = true /\ Forall (fun c => p c = false) (take i s).
Proof.
  revert i; induction s as [|c s IH]; intros i; simpl; [done|].
  destruct (p c) eqn:Hc.
  - intros [= <-]. exists c. by repeat constructor.
  - destruct (find_char p s) as [j|] eqn:Hj; simpl; [|done]. intros [= <-].
    destruct (IH j eq_refl) as (d & Hd & Hpd & Hall). exists d. by repeat constructor.
Qed.

Lemma find_char_app p s c t :
  Forall (fun c => p c = false) s -> p c = true -> find_char p (s ++ c :: t) = Some (length s).
Proof.
  intros Hs Hc. induction Hs as [|d s Hd _ IH]; simpl; [by rewrite Hc|]. by rewrite Hd, IH.
Qed.

Lemma find_char_none p s : find_char p s = None <-> Forall (fun c => p c = false) s.
Proof.
  induction s as [|c s IH]; simpl; [by split|].
  destruct (p c) eqn:Hc; [split; [done|inversion 1; congruence]|].
  destruct (find_char p s) as [j|]; simpl.
  - split; [done|]. inversion 1; subst. by apply IH in H3.
  - split; [|done]. intros _. constructor; [done|by apply IH].
Qed.

Lemma rfind_char_none p s : rfind_char p s = None <-> Forall (fun c => p c = false) s.
Proof.
  induction s as [|c s IH]; simpl; [by split|]. rewrite Forall_cons, <-IH.
  destruct (rfind_char p s), (p c); naive_solver.
Qed.

Lemma rfind_char_spec p s i :
  rfind_char p s = Some i <->
  exists l c r, s = l ++ c :: r /\ length l = i /\ p c = true /\ Forall (fun d => p d = false) r.
Proof.
  revert i; induction s as [|c s IH]; intros i; simpl.
  { split; [done|]. intros (l & c & r & H & _). by destruct l. }
  destruct (rfind_char p s) as [j|] eqn:E.
  - split.
    + intros [= <-]. destruct (proj1 (IH j) eq_refl) as (l & d & r & -> & Hl & Hd & Hr).
      exists (c :: l), d, r. simpl. auto.
    + intros (l & d & r & H & Hl & Hd & Hr). destruct l as [|c' l]; simplify_eq/=.
      * apply rfind_char_none in Hr. congruence.
      * f_equal. assert (Some j = Some (length l)) as [= ->]; [|done].
        apply IH. by exists l, d, r.
  - apply rfind_char_none in E. destruct (p c) eqn:Ec.
    + split; [intros [= <-]; by exists [], c, s|].
      intros (l & d & r & H & Hl & Hd & Hr). destruct l as [|c' l]; simplify_eq/=; [done|].
      rewrite Forall_app, Forall_cons in E. naive_solver congruence.
    + split; [done|]. intros (l & d & r & H & Hl & Hd & Hr).
      destruct l as [|c' l]; simplify_eq/=; [congruence|].
      rewrite Forall_app, Forall_cons in E. naive_solver congruence.
Qed.

Lemma contains_char_false p s :
  contains_char p s = false <-> Forall (fun c => p c = false) s.
Proof.
  unfold contains_char. induction s as [|c s IH]; simpl; [by split|].
  rewrite orb_false_iff, IH. split; [intros []; by constructor|inversion 1; by subst].
Qed.

Lemma Forall_join (P : ascii -> Prop) sep ws :
  Forall P sep -> Forall (Forall P) ws -> Forall P (join sep ws).
Proof.
  intros Hsep Hws. induction Hws as [|w ws Hw Hws IH]; simpl; [done|].
  destruct ws; [done|]. by repeat apply Forall_app_2.
Qed.

Lemma slashes_no_backslash s : Forall (fun c => is_backslash c = false) (slashes s).
Proof.
  unfold slashes, replace_char, is_backslash. apply Forall_map, Forall_true.
  intros c. destruct (ascii_eqb c "\"%char) eqn:E; [done|exact E].
Qed.

Lemma slashes_id s : Forall (fun c => is_backslash c = false) s -> slashes s = s.
Proof.
  unfold slashes, replace_char, is_backslash.
  induction 1 as [|c s Hc _ IH]; simpl; [done|]. by rewrite Hc, IH.
Qed.

Lemma slashes_idemp s : slashes (slashes s) = slashes s.
Proof. apply slashes_id, slashes_no_backslash. Qed.

Lemma slashes_app s t : slashes (s ++ t) = slashes s ++ slashes t.
Proof. apply map_app. Qed.

Lemma length_slashes s : length (slashes s) = length s.
Proof. apply length_map. Qed.

#[export] Hint Resolve split_on_not_nil slashes_no_backslash : arclain.

(** ** Byte order

    [str] compares byte by byte; sorted vectors, [BTreeSet] and [BTreeMap] of
    strings follow it. *)

Fixpoint str_leb (a b : str) : bool :=
  match a, b with
  | [], _ => true
  | _ :: _, [] => false
  | x :: a', y :: b' =>
      if (code x <? code y)%N then true
      else if (code y <? code x)%N then false
      else str_leb a' b'
  end.

Definition str_le (a b : str) : Prop := str_leb a b = true.

#[export] Instance str_le_dec : RelDecision str_le.
Proof. intros a b. unfold str_le. apply _. Defined.

#[export] Instance str_le_total : Total str_le.
Proof.
  intros a. unfold str_le. induction a as [|x a IH]; intros b; simpl; [by left|].
  destruct b as [|y b]; simpl; [by right|].
  destruct (code x <? code y)%N eqn:E1; [by left|].
  destruct (code y <? code x)%N eqn:E2; [by right|].
  apply IH.
Qed.

#[export] Instance str_le_trans : Transitive str_le.
Proof.
  intros a. unfold str_le. induction a as [|x a IH]; intros b c; simpl; [done|].
  destruct b as [|y b]; simpl; [done|]. destruct c as [|z c]; simpl; [done|].
  destruct (N.ltb_spec (code x) (code y)), (N.ltb_spec (code y) (code x)),
    (N.ltb_spec (code y) (code z)), (N.ltb_spec (code z) (code y)),
    (N.ltb_spec (code x) (code z)), (N.ltb_spec (code z) (code x));
    try done; try lia; eauto.
Qed.

#[export] Instance str_le_antisymm : AntiSymm (=) str_le.
Proof.
  intros a. unfold str_le. induction a as [|x a IH]; intros [|y b]; simpl; try done.
  destruct (N.ltb_spec (code x) (code y)), (N.ltb_spec (code y) (code x)); try done; try lia.
  intros. f_equal; [apply code_inj; lia|eauto].
Qed.

#[export] Instance str_le_preorder : PreOrder str_le.
Proof.
  split; [|apply _]. intros a. destruct (total str_le a a); done.
Qed.

(** The elements of a [BTreeSet<String>], in iteration order. *)
Definition btree_elements (s : gset str) : list str := merge_sort str_le (elements s).

Lemma elem_of_btree_elements s x : x ∈ btree_elements s <-> x ∈ s.
Proof. unfold btree_elements. by rewrite merge_sort_elem, elem_of_elements. Qed.

Lemma NoDup_btree_elements s : NoDup (btree_elements s).
Proof. unfold btree_elements. rewrite merge_sort_Permutation. apply NoDup_elements. Qed.

(** ** Numbers as text *)

Definition digit (n : N) : ascii := ascii_of_N (48 + n).

Fixpoint decimal_fuel (fuel : nat) (n : N) (acc : str) : str :=
  match fuel with
  | 0 => acc
  | S fuel' =>
      let acc' := digit (n mod 10) :: acc in
      if (n <? 10)%N then acc' else decimal_fuel fuel' (n / 10) acc'
  end.

(** [format!("{n}")] of an unsigned number: as much fuel as the number has
    bits (and one) is more than it has digits. *)
Definition decimal (n : N) : str := decimal_fuel (S (N.size_nat n)) n [].

(** [format!("{n:0width$}")]. *)
Definition padded (width : nat) (n : Z) : str :=
  let ds := decimal (Z.to_N n) in replicate (width - length ds) "0"%char ++ ds.

Definition is_digit (c : ascii) : bool := ((48 <=? code c) && (code c <=? 57))%N.

(** [str::parse::<usize>] after its optional sign: at least one digit, nothing
    but digits, and no overflow of the type. *)
Fixpoint parse_digits (s : str) (acc : Z) : option Z :=
  match s with
  | [] => Some acc
  | c :: s' =>
      if is_digit c then
        let acc' := (acc * 10 + (Z.of_N (code c) - 48))%Z in
        if (acc' <=? u64_max)%Z then parse_digits s' acc' else None
      else None
  end.

Definition parse_usize (s : str) : option Z :=
  match s with
  | [] => None
  | c :: s' =>
      if ascii_eqb c "+"%char then
        match s' with [] => None | _ => parse_digits s' 0 end
      else parse_digits s 0
  end.

(** [str::parse] of the other integer types: the value of a non-empty run of
    digits, and the sign and range of the type. *)
Fixpoint digits_value (s : str) (acc : Z) : option Z :=
  match s with
  | [] => Some acc
  | c :: s' =>
      if is_digit c then digits_value s' (acc * 10 + (Z.of_N (code c) - 48))%Z else None
  end.

Definition parse_digits_in (lo hi : Z) (sign : Z) (s : str) : option Z :=
  match s with
  | [] => None
  | _ =>
      match digits_value s 0 with
      | Some v => if ((lo <=? sign * v) && (sign * v <=? hi))%Z then Some (sign * v)%Z else None
      | None => None
      end
  end.

Definition parse_unsigned (hi : Z) (s : str) : option Z :=
  match s with
  | c :: s' => if ascii_eqb c "+"%char then parse_digits_in 0 hi 1 s' else parse_digits_in 0 hi 1 s
  | [] => None
  end.

Definition parse_u32 : str -> option Z := parse_unsigned 4294967295.

Definition i64_min : Z := -9223372036854775808.
Definition i64_max : Z := 9223372036854775807.

Definition parse_i64 (s : str) : option Z :=
  match s with
  | c :: s' =>
      if ascii_eqb c "+"%char then parse_digits_in i64_min i64_max 1 s'
      else if ascii_eqb c "-"%char then parse_digits_in i64_min i64_max (-1) s'
      else parse_digits_in i64_min i64_max 1 s
  | [] => None
  end.

Section decimals.
Local Open Scope Z_scope.

(** ** Decimal digits read back *)

Lemma digit_code n : (n < 10)%N -> code (digit n) = (48 + n)%N.
Proof. intros H. unfold code, digit. rewrite N_ascii_embedding by lia. done. Qed.

Lemma is_digit_digit n : (n < 10)%N -> is_digit (digit n) = true.
Proof. intros H. unfold is_digit. rewrite digit_code by done.
  apply andb_true_iff. split; apply N.leb_le; lia. Qed.

Lemma parse_digit n rest a :
  (n < 10)%N -> a * 10 + Z.of_N n <= u64_max ->
  parse_digits (digit n :: rest) a = parse_digits rest (a * 10 + Z.of_N n).
Proof.
  intros Hn Hle. cbn [parse_digits]. rewrite is_digit_digit, digit_code by done.
  replace (a * 10 + (Z.of_N (48 + n) - 48)) with (a * 10 + Z.of_N n) by lia.
  by destruct (Z.leb_spec (a * 10 + Z.of_N n) u64_max); [|lia].
Qed.

(** The digits of [n], and what reading them back does. *)
Lemma decimal_fuel_spec f n acc :
  (n < 2 ^ N.of_nat f)%N ->
  exists ds, decimal_fuel (S f) n acc = ds ++ acc /\ ds <> [] /\
    Forall (fun c => is_digit c = true) ds /\
    forall a rest, 0 <= a -> a * 10 ^ Z.of_nat (length ds) + Z.of_N n <= u64_max ->
      parse_digits (ds ++ rest) a = parse_digits rest (a * 10 ^ Z.of_nat (length ds) + Z.of_N n).
Proof.
  revert n acc; induction f as [|f IH]; intros n acc Hn.
  - assert (n = 0)%N as -> by (simpl in Hn; lia). exists [digit 0].
    split_and!; [done|done|by repeat constructor|]. intros a rest Ha Hle.
    change (10 ^ Z.of_nat (length [digit 0])) with 10 in *. by apply parse_digit.
  - remember (S f) as sf. cbn [decimal_fuel]. subst sf.
    assert (n mod 10 < 10)%N as Hm by (apply N.mod_lt; lia).
    destruct (N.ltb_spec n 10) as [Hs|Hs].
    + exists [digit n]. rewrite N.mod_small by done.
      split_and!; [done|done|by repeat constructor; apply is_digit_digit|].
      intros a rest Ha Hle. change (10 ^ Z.of_nat (length [digit n])) with 10 in *.
      by apply parse_digit.
    + destruct (IH (n / 10)%N (digit (n mod 10) :: acc)) as (ds & Heq & Hne & Hd & Hp).
      { apply N.Div0.div_lt_upper_bound. rewrite Nat2N.inj_succ, N.pow_succ_r' in Hn. lia. }
      exists (ds ++ [digit (n mod 10)]). rewrite Heq, <-app_assoc. split_and!; [done| | |].
      * by destruct ds.
      * apply Forall_app. split; [done|]. repeat constructor. by apply is_digit_digit.
      * intros a rest Ha Hle. rewrite length_app in *. simpl length in *.
        rewrite Nat2Z.inj_add, Z.pow_add_r in * by lia.
        change (10 ^ Z.of_nat 1) with 10 in *.
        pose proof (N.div_mod n 10 ltac:(lia)) as Hdm.
        assert (0 <= a * 10 ^ Z.of_nat (length ds)) by (apply Z.mul_nonneg_nonneg; lia).
        replace (a * (10 ^ Z.of_nat (length ds) * 10)) with (a * 10 ^ Z.of_nat (length ds) * 10) in * by ring.
        specialize (Hp a (digit (n mod 10) :: rest) Ha).
        rewrite <-app_assoc. cbn [app]. revert Hp Hle Hdm Hm H. clear.
        generalize (n / 10)%N as q, (n mod 10)%N as m, (a * 10 ^ Z.of_nat (length ds)) as y.
        intros q m y Hp Hle -> Hm Hy. rewrite Hp by lia.
        rewrite parse_digit by lia. f_equal. lia.
Qed.

Lemma size_bound n : (n < 2 ^ N.of_nat (N.size_nat n))%N.
Proof.
  destruct n as [|p]; [done|]. simpl.
  induction p as [p IH|p IH|]; simpl Pos.size_nat; rewrite ?Nat2N.inj_succ, ?N.pow_succ_r'; [lia|lia|done].
Qed.

Lemma decimal_spec n :
  exists c ds, decimal n = c :: ds /\ Forall (fun c => is_digit c = true) (c :: ds) /\
    (Z.of_N n <= u64_max -> parse_usize (decimal n) = Some (Z.of_N n)).
Proof.
  destruct (decimal_fuel_spec (N.size_nat n) n [] (size_bound n)) as (ds & Heq & Hne & Hd & Hp).
  unfold decimal. rewrite Heq, app_nil_r in *. destruct ds as [|c ds]; [done|].
  exists c, ds. split_and!; [done|done|]. intros Hn. unfold parse_usize.
  assert (ascii_eqb c "+"%char = false) as ->.
  { apply not_true_is_false. intros ->%ascii_eqb_eq. apply Forall_cons in Hd as [Hd _]. discriminate Hd. }
  specialize (Hp 0 []). rewrite app_nil_r in Hp. rewrite Hp by lia. done.
Qed.

Lemma decimal_inj a b :
  Z.of_N a <= u64_max -> Z.of_N b <= u64_max -> decimal a = decimal b -> a = b.
Proof.
  intros Ha Hb E. destruct (decimal_spec a) as (_ & _ & _ & _ & Pa), (decimal_spec b) as (_ & _ & _ & _ & Pb).
  rewrite E, Pb in Pa by done. specialize (Pa Ha). simplify_eq. done.
Qed.
End decimals.
