(* ===== verification/AppError.v ===== *)
(** The error envelope of the application facade ([crates/app/src/error.rs]),
    the identifiers it carries ([ids.rs]) and the challenges an operation raises
    ([challenge.rs]).

    Identifiers are transparent [u64]s.  [CorrelationId::generate] reads a
    process-wide counter, so the constructor of an error takes the counter's
    value and the caller threads the counter. *)

From stdpp Require Import base tactics option list gmap strings.
From Stdlib Require Import ZArith Lia Ascii.
From S2P Require Import Prelude Text.

Abbreviation OperationId := Z (only parsing).
Abbreviation ChallengeId := Z (only parsing).
Abbreviation CorrelationId := Z (only parsing).
Abbreviation ArchiveSessionId := Z (only parsing).
Abbreviation EntryId := Z (only parsing).

Inductive ApplicationErrorKind :=
| Backend | Busy | CancelledKind | Conflict | ExternalToolMissing | Internal
| InvalidInput | NotFound | PasswordRequired | PermissionDenied | Persistence
| PluginKind | Unsupported.

Inductive Recoverability := Retry | UserAction | Fatal.

Inductive SuggestedAction :=
| CheckPermissions | ChooseDestination | InstallExternalTool | RetryAction
| SupplyPassword.

#[export] Instance Recoverability_eq_dec : EqDecision Recoverability.
Proof. solve_decision. Defined.

#[export] Instance ApplicationErrorKind_eq_dec : EqDecision ApplicationErrorKind.
Proof. solve_decision. Defined.

Record ApplicationError := {
  kind : ApplicationErrorKind;
  summary : str;
  diagnostic : option str;
  recoverability : Recoverability;
  retryable : bool;
  suggested_action : option SuggestedAction;
  correlation_id : CorrelationId;
  error_operation_id : option OperationId;
  archive_session_id : option ArchiveSessionId;
  entry_id : option EntryId;
  path : option str;
  field : option str
}.

Definition MAX_DIAGNOSTIC_BYTES : nat := 4096.
Definition TRUNCATION_MARKER : str := §"... [truncated]".

(** The loop of [truncate_diagnostic]: back off to a character boundary. *)
Fixpoint floor_char_boundary (text : str) (limit : nat) : nat :=
  match limit with
  | 0 => 0
  | S limit' =>
      if is_char_boundary text limit then limit else floor_char_boundary text limit'
  end.

Definition truncate_diagnostic (text : str) : str :=
  if (length text <=? MAX_DIAGNOSTIC_BYTES)%nat then text
  else
    let budget := (MAX_DIAGNOSTIC_BYTES - length TRUNCATION_MARKER)%nat in
    let limit := floor_char_boundary text (Nat.min budget (length text)) in
    take limit text ++ TRUNCATION_MARKER.

(** [str::split_whitespace]: the maximal runs of characters that are not
    white space. *)
Fixpoint words_of_chars (cs : list str) (current : str) : list str :=
  match cs with
  | [] => match current with [] => [] | _ => [current] end
  | ch :: cs' =>
      if char_is_whitespace ch then
        match current with
        | [] => words_of_chars cs' []
        | _ => current :: words_of_chars cs' []
        end
      else words_of_chars cs' (current ++ ch)
  end.

Definition split_whitespace (s : str) : list str := words_of_chars (chars s) [].

Definition redact_token (token : str) : str :=
  if contains_char is_slash token || contains_char is_backslash token
  then §"<redacted-path>" else token.

Definition redact_path_like_tokens (text : str) : str :=
  join §" " (map redact_token (split_whitespace text)).

(** [ApplicationError::new]; [cid] is the correlation id it mints. *)
Definition new (cid : CorrelationId) (k : ApplicationErrorKind) (text : str)
  : ApplicationError := {|
  kind := k; summary := text; diagnostic := None; recoverability := Fatal;
  retryable := false; suggested_action := None; correlation_id := cid;
  error_operation_id := None; archive_session_id := None; entry_id := None;
  path := None; field := None |}.

Definition with_diagnostic (e : ApplicationError) (text : str) : ApplicationError := {|
  kind := kind e; summary := summary e;
  diagnostic := Some (truncate_diagnostic (redact_path_like_tokens text));
  recoverability := recoverability e; retryable := retryable e;
  suggested_action := suggested_action e; correlation_id := correlation_id e;
  error_operation_id := error_operation_id e; archive_session_id := archive_session_id e;
  entry_id := entry_id e; path := path e; field := field e |}.

Definition with_recoverability (e : ApplicationError) (r : Recoverability)
  : ApplicationError := {|
  kind := kind e; summary := summary e; diagnostic := diagnostic e;
  recoverability := r; retryable := bool_decide (r = Retry);
  suggested_action := suggested_action e; correlation_id := correlation_id e;
  error_operation_id := error_operation_id e; archive_session_id := archive_session_id e;
  entry_id := entry_id e; path := path e; field := field e |}.

Definition with_operation_id (e : ApplicationError) (id : OperationId)
  : ApplicationError := {|
  kind := kind e; summary := summary e; diagnostic := diagnostic e;
  recoverability := recoverability e; retryable := retryable e;
  suggested_action := suggested_action e; correlation_id := correlation_id e;
  error_operation_id := Some id; archive_session_id := archive_session_id e;
  entry_id := entry_id e; path := path e; field := field e |}.

Definition with_suggested_action (e : ApplicationError) (a : SuggestedAction) : ApplicationError := {|
  kind := kind e; summary := summary e; diagnostic := diagnostic e; recoverability :=
  recoverability e; retryable := retryable e; suggested_action := Some a; correlation_id
  := correlation_id e; error_operation_id := error_operation_id e; archive_session_id :=
  archive_session_id e; entry_id := entry_id e; path := path e; field := field e |}.

Definition with_archive_session_id (e : ApplicationError) (id : ArchiveSessionId) : ApplicationError := {|
  kind := kind e; summary := summary e; diagnostic := diagnostic e; recoverability :=
  recoverability e; retryable := retryable e; suggested_action := suggested_action e;
  correlation_id := correlation_id e; error_operation_id := error_operation_id e;
  archive_session_id := Some id; entry_id := entry_id e; path := path e; field := field e |}.

Definition with_entry_id (e : ApplicationError) (id : EntryId) : ApplicationError := {|
  kind := kind e; summary := summary e; diagnostic := diagnostic e; recoverability :=
  recoverability e; retryable := retryable e; suggested_action := suggested_action e;
  correlation_id := correlation_id e; error_operation_id := error_operation_id e;
  archive_session_id := archive_session_id e; entry_id := Some id; path := path e; field
  := field e |}.

Definition with_path (e : ApplicationError) (p : str) : ApplicationError := {|
  kind := kind e; summary := summary e; diagnostic := diagnostic e; recoverability :=
  recoverability e; retryable := retryable e; suggested_action := suggested_action e;
  correlation_id := correlation_id e; error_operation_id := error_operation_id e;
  archive_session_id := archive_session_id e; entry_id := entry_id e; path := Some p;
  field := field e |}.

Definition with_field (e : ApplicationError) (f : str) : ApplicationError := {|
  kind := kind e; summary := summary e; diagnostic := diagnostic e; recoverability :=
  recoverability e; retryable := retryable e; suggested_action := suggested_action e;
  correlation_id := correlation_id e; error_operation_id := error_operation_id e;
  archive_session_id := archive_session_id e; entry_id := entry_id e; path := path e;
  field := Some f |}.

Definition archive_not_found (cid : CorrelationId) (p : str) : ApplicationError :=
  with_path (with_recoverability (new cid NotFound §"no such archive file") Fatal) p.

(** ** Challenges *)

Inductive Challenge :=
| Password (id : ChallengeId) (archive_name : str) (attempt : Z)
| ConfirmOverwrite (id : ChallengeId) (destination : str)
| ConfirmDestructiveAction (id : ChallengeId) (summary : str)
| MissingExternalTool (id : ChallengeId) (tool : str)
| RetryPermission (id : ChallengeId) (path : str).

Definition challenge_id (c : Challenge) : ChallengeId :=
  match c with
  | Password id _ _ | ConfirmOverwrite id _ | ConfirmDestructiveAction id _
  | MissingExternalTool id _ | RetryPermission id _ => id
  end.

(** The [Password] answer carries the secret. *)
Inductive ChallengeResponse :=
| PasswordResponse (id : ChallengeId) (value : str)
| ConfirmOverwriteResponse (id : ChallengeId) (overwrite : bool)
| ConfirmDestructiveActionResponse (id : ChallengeId) (confirmed : bool)
| MissingExternalToolResponse (id : ChallengeId) (retry : bool)
| RetryPermissionResponse (id : ChallengeId) (retry : bool).

Definition response_id (r : ChallengeResponse) : ChallengeId :=
  match r with
  | PasswordResponse id _ | ConfirmOverwriteResponse id _
  | ConfirmDestructiveActionResponse id _ | MissingExternalToolResponse id _
  | RetryPermissionResponse id _ => id
  end.

(** * Properties *)

Lemma floor_char_boundary_le text n : (floor_char_boundary text n <= n)%nat.
Proof. induction n as [|n IH]; simpl; [lia|]. case_match; lia. Qed.

Lemma floor_char_boundary_ok text n :
  is_char_boundary text (floor_char_boundary text n) = true.
Proof.
  induction n as [|n IH]; [done|].
  cbn [floor_char_boundary]. destruct (is_char_boundary text (S n)) eqn:E; auto.
Qed.

Lemma truncate_diagnostic_length text :
  (length (truncate_diagnostic text) <= MAX_DIAGNOSTIC_BYTES)%nat.
Proof.
  unfold truncate_diagnostic. destruct (_ <=? _)%nat eqn:E; [by apply Nat.leb_le in E|].
  rewrite length_app, length_take.
  pose proof (floor_char_boundary_le text
    (Nat.min (MAX_DIAGNOSTIC_BYTES - length TRUNCATION_MARKER) (length text))) as Hle.
  assert (length TRUNCATION_MARKER <= MAX_DIAGNOSTIC_BYTES)%nat
    by (apply Nat.leb_le; reflexivity).
  lia.
Qed.

(** A byte that is neither of the path separators. *)
Definition path_free (c : ascii) : Prop := is_separator c = false.

Lemma redact_token_path_free token : Forall path_free (redact_token token).
Proof.
  unfold redact_token. destruct (_ || _) eqn:E.
  - by repeat constructor.
  - apply orb_false_iff in E as [E1 E2].
    rewrite contains_char_false in E1, E2.
    eapply Forall_impl; [apply Forall_and; split; [exact E1|exact E2]|].
    intros c [H1 H2]. unfold path_free, is_separator. by rewrite H1, H2.
Qed.

Lemma truncate_diagnostic_path_free text :
  Forall path_free text -> Forall path_free (truncate_diagnostic text).
Proof.
  intros H. unfold truncate_diagnostic. case_match; [done|].
  apply Forall_app_2; [by apply Forall_take|by repeat constructor].
Qed.

Lemma redact_path_free text : Forall path_free (redact_path_like_tokens text).
Proof.
  apply Forall_join; [by repeat constructor|].
  apply Forall_map, Forall_true. apply redact_token_path_free.
Qed.

(** A diagnostic attached with
    [with_diagnostic] is at most 4096 bytes long whatever text it was built from,
    holds no path separator, and when it had to be cut the kept part of the
    redacted text ends at a character boundary. *)
Theorem diagnostic_bounded_and_redacted e text :
  exists d, diagnostic (with_diagnostic e text) = Some d /\
    (length d <= MAX_DIAGNOSTIC_BYTES)%nat /\ Forall path_free d /\
    (d = redact_path_like_tokens text \/
     exists k, is_char_boundary (redact_path_like_tokens text) k = true /\
       d = take k (redact_path_like_tokens text) ++ TRUNCATION_MARKER).
Proof.
  eexists. split; [reflexivity|]. split; [apply truncate_diagnostic_length|].
  split; [apply truncate_diagnostic_path_free, redact_path_free|].
  unfold truncate_diagnostic. case_match; [by left|]. right.
  eexists. split; [apply floor_char_boundary_ok|done].
Qed.
