(* ===== verification/Registry.v ===== *)
(** The operation registry ([crates/app/src/operations/registry.rs]) with the
    event types it publishes ([crates/app/src/event.rs]).

    The registry is shared by every task of the application.  Its state is the
    record map behind the [RwLock], the log of events sent on the broadcast
    channel, the process-wide counters that mint ids, and the store of
    cancellation flags: [begin] hands the worker an [Arc] of the flag its record
    holds, so the flag is a location both see.  Each [_section] below is the code
    one lock guard protects; the public operations compose sections the way the
    code does, and the step relation of [Concurrent] interleaves the sections of
    any number of calls. *)

From stdpp Require Import base tactics option list gmap sorting strings.
From Stdlib Require Import ZArith Lia Ascii.
From S2P Require Import Prelude Text AppError.
Local Open Scope Z_scope.

Inductive OperationKind :=
| ArchiveModify | Convert | DragStage | Extract | Materialize | Merge
| OpenArchive | Organize | Pipeline | PluginAction.

#[export] Instance OperationKind_eq_dec : EqDecision OperationKind.
Proof. solve_decision. Defined.

(** What a completed operation carries.  The registry never looks into a
    payload, so the payload types are an interface. *)
Class Payloads := {
  ArchiveSnapshot : Type;
  MaterializationLease : Type;
  PluginUiUpdate : Type
}.

Section Registry.
Context {payloads : Payloads}.

Inductive OperationResult :=
| ResultNone
| ArchiveOpened (snapshot : ArchiveSnapshot)
| Materialized (lease : MaterializationLease)
| PluginUiUpdated (update : PluginUiUpdate)
| Merged (output_path : str).

Inductive OperationState :=
| Accepted
| Started
| Progress (completed_units : Z) (total_units : option Z) (message : option str)
| ChallengeState (challenge : Challenge)
| SnapshotChanged (session_id : ArchiveSessionId) (revision : Z)
| Completed (result : OperationResult)
| Cancelled
| Failed (error : ApplicationError).

Record OperationEvent := {
  operation_id : OperationId;
  sequence : Z;
  event_kind : OperationKind;
  event_state : OperationState
}.

Record OperationSnapshot := {
  snap_operation_id : OperationId;
  snap_kind : OperationKind;
  snap_last_sequence : Z;
  snap_state : OperationState
}.

(** [cancel] is the location of the flag the record shares with its worker. *)
Record OperationRecord := {
  rec_kind : OperationKind;
  last_sequence : Z;
  rec_state : OperationState;
  cancel_flag : nat;
  pending_challenge : option ChallengeId
}.

Definition MAX_TERMINAL_HISTORY : nat := 256.

Record OperationRegistry := {
  events : list OperationEvent;
  records : gmap OperationId OperationRecord;
  flags : list bool;
  next_operation : Z;
  next_correlation : Z
}.

Definition registry_new : OperationRegistry := {|
  events := []; records := ∅; flags := []; next_operation := 1; next_correlation := 1 |}.

Definition set_records (r : OperationRegistry) (m : gmap OperationId OperationRecord)
  : OperationRegistry := {|
  events := events r; records := m; flags := flags r;
  next_operation := next_operation r; next_correlation := next_correlation r |}.

Definition snapshot (id : OperationId) (rec : OperationRecord) : OperationSnapshot := {|
  snap_operation_id := id; snap_kind := rec_kind rec;
  snap_last_sequence := last_sequence rec; snap_state := rec_state rec |}.

Definition is_terminal (s : OperationState) : bool :=
  match s with
  | Completed _ | Cancelled | Failed _ => true
  | _ => false
  end.

(** [NEXT.fetch_add(1)]. *)
Definition next_operation_id (r : OperationRegistry) : OperationId * OperationRegistry :=
  (next_operation r,
   {| events := events r; records := records r; flags := flags r;
      next_operation := wrapping_add (next_operation r) 1;
      next_correlation := next_correlation r |}).

(** [CorrelationId::generate], called by [ApplicationError::new]. *)
Definition generate_correlation (r : OperationRegistry) : CorrelationId * OperationRegistry :=
  (next_correlation r,
   {| events := events r; records := records r; flags := flags r;
      next_operation := next_operation r;
      next_correlation := wrapping_add (next_correlation r) 1 |}).

Definition unknown_operation_error (cid : CorrelationId) (id : OperationId)
  : ApplicationError :=
  with_operation_id
    (with_recoverability (new cid NotFound §"no such operation") Fatal) id.

Definition mismatch_error (cid : CorrelationId) (id : OperationId) : ApplicationError :=
  with_operation_id
    (with_recoverability
       (new cid Conflict
          §"challenge response does not match the operation's pending challenge")
       UserAction) id.

(** The broadcast channel accepts every event; a send with no subscriber is
    ignored by the code. *)
Definition publish (id : OperationId) (k : OperationKind) (seq : Z) (s : OperationState)
    (r : OperationRegistry) : OperationRegistry := {|
  events := events r ++
    [{| operation_id := id; sequence := seq; event_kind := k; event_state := s |}];
  records := records r; flags := flags r;
  next_operation := next_operation r; next_correlation := next_correlation r |}.

(** The guarded part of [begin]: a fresh flag, the record, the first event. *)
Definition begin_section (id : OperationId) (k : OperationKind) (r : OperationRegistry)
  : nat * OperationRegistry :=
  let flag := length (flags r) in
  let rec := {| rec_kind := k; last_sequence := 1; rec_state := Accepted;
                cancel_flag := flag; pending_challenge := None |} in
  let r1 := {| events := events r; records := <[id := rec]> (records r);
               flags := flags r ++ [false];
               next_operation := next_operation r;
               next_correlation := next_correlation r |} in
  (flag, publish id k 1 Accepted r1).

Definition begin (k : OperationKind) (r : OperationRegistry)
  : (OperationId * nat) * OperationRegistry :=
  let '(id, r1) := next_operation_id r in
  let '(flag, r2) := begin_section id k r1 in
  ((id, flag), r2).

Definition challenge_of (s : OperationState) : option ChallengeId :=
  match s with
  | ChallengeState c => Some (challenge_id c)
  | _ => None
  end.

(** The guarded part of [transition].  [Ok true]: the state was applied and the
    call goes on to evict; [Ok false]: the operation was already terminal. *)
Definition transition_section (id : OperationId) (s : OperationState)
    (r : OperationRegistry) : result ApplicationError bool * OperationRegistry :=
  match records r !! id with
  | None =>
      let '(cid, r1) := generate_correlation r in
      (Err (unknown_operation_error cid id), r1)
  | Some rec =>
      if is_terminal (rec_state rec) then (Ok false, r)
      else
        let rec' := {| rec_kind := rec_kind rec;
                       last_sequence := wrapping_add (last_sequence rec) 1;
                       rec_state := s; cancel_flag := cancel_flag rec;
                       pending_challenge := challenge_of s |} in
        (Ok true,
         publish id (rec_kind rec') (last_sequence rec') s
           (set_records r (<[id := rec']> (records r))))
  end.

Definition terminal_record (p : OperationId * OperationRecord) : bool :=
  is_terminal (rec_state p.2).

(** The terminal ids, in ascending order ([sort_by_key(into_raw)]). *)
Definition terminal_ids (m : gmap OperationId OperationRecord) : list OperationId :=
  merge_sort Z.le (map fst (List.filter terminal_record (map_to_list m))).

Definition terminal_count (m : gmap OperationId OperationRecord) : nat :=
  count_if terminal_record (map_to_list m).

Definition remove_all (ids : list OperationId) (m : gmap OperationId OperationRecord)
  : gmap OperationId OperationRecord :=
  fold_left (fun m id => delete id m) ids m.

Definition evict_excess_history (r : OperationRegistry) : OperationRegistry :=
  let count := terminal_count (records r) in
  if (count <=? MAX_TERMINAL_HISTORY)%nat then r
  else
    set_records r
      (remove_all (take (count - MAX_TERMINAL_HISTORY) (terminal_ids (records r)))
         (records r)).

Definition transition (id : OperationId) (s : OperationState) (r : OperationRegistry)
  : result ApplicationError unit * OperationRegistry :=
  match transition_section id s r with
  | (Err e, r1) => (Err e, r1)
  | (Ok false, r1) => (Ok tt, r1)
  | (Ok true, r1) => (Ok tt, evict_excess_history r1)
  end.

Definition operation (id : OperationId) (r : OperationRegistry) : option OperationSnapshot :=
  snapshot id <$> records r !! id.

(** Most recently created first. *)
Definition snapshot_newer (a b : OperationSnapshot) : Prop :=
  snap_operation_id b <= snap_operation_id a.

#[global] Instance snapshot_newer_dec : RelDecision snapshot_newer.
Proof. intros a b. unfold snapshot_newer. apply _. Defined.

Definition recent (limit : nat) (r : OperationRegistry) : list OperationSnapshot :=
  take limit
    (merge_sort snapshot_newer
       (map (fun '(id, rec) => snapshot id rec) (map_to_list (records r)))).

(** The read-locked part of [cancel]: store the flag, read whether the
    operation is already terminal. *)
Definition cancel_section (id : OperationId) (r : OperationRegistry)
  : result ApplicationError bool * OperationRegistry :=
  match records r !! id with
  | None =>
      let '(cid, r1) := generate_correlation r in
      (Err (unknown_operation_error cid id), r1)
  | Some rec =>
      (Ok (is_terminal (rec_state rec)),
       {| events := events r; records := records r;
          flags := <[cancel_flag rec := true]> (flags r);
          next_operation := next_operation r;
          next_correlation := next_correlation r |})
  end.

Definition cancel (id : OperationId) (r : OperationRegistry)
  : result ApplicationError unit * OperationRegistry :=
  match cancel_section id r with
  | (Err e, r1) => (Err e, r1)
  | (Ok true, r1) => (Ok tt, r1)
  | (Ok false, r1) => transition id Cancelled r1
  end.

Definition is_cancelled (id : OperationId) (r : OperationRegistry) : bool :=
  match records r !! id with
  | Some rec => default false (flags r !! cancel_flag rec)
  | None => false
  end.

Definition resolve_challenge (id : OperationId) (c : ChallengeId) (r : OperationRegistry)
  : result ApplicationError unit * OperationRegistry :=
  match records r !! id with
  | None =>
      let '(cid, r1) := generate_correlation r in
      (Err (unknown_operation_error cid id), r1)
  | Some rec =>
      if bool_decide (pending_challenge rec = Some c) then
        (Ok tt,
         set_records r
           (<[id := {| rec_kind := rec_kind rec; last_sequence := last_sequence rec;
                       rec_state := rec_state rec; cancel_flag := cancel_flag rec;
                       pending_challenge := None |}]> (records r)))
      else
        let '(cid, r1) := generate_correlation r in
        (Err (mismatch_error cid id), r1)
  end.

(** * Concurrent calls

    A call that has been made and has sections left to run. *)
Inductive Pending :=
| PBegin (id : OperationId) (k : OperationKind)
| PTransition (id : OperationId) (s : OperationState)
| PEvict
| PCancel (id : OperationId)
| PResolve (id : OperationId) (c : ChallengeId).

(** One section of a pending call: the registry after it, and what is left of
    the call. *)
Definition run_section (p : Pending) (r : OperationRegistry)
  : OperationRegistry * list Pending :=
  match p with
  | PBegin id k => (snd (begin_section id k r), [])
  | PTransition id s =>
      match transition_section id s r with
      | (Ok true, r1) => (r1, [PEvict])
      | (_, r1) => (r1, [])
      end
  | PEvict => (evict_excess_history r, [])
  | PCancel id =>
      match cancel_section id r with
      | (Ok false, r1) => (r1, [PTransition id Cancelled])
      | (_, r1) => (r1, [])
      end
  | PResolve id c => (snd (resolve_challenge id c r), [])
  end.

Inductive step : OperationRegistry * list Pending -> OperationRegistry * list Pending -> Prop :=
| step_call_begin r ps k id r' :
    next_operation_id r = (id, r') -> step (r, ps) (r', PBegin id k :: ps)
| step_call_transition r ps id s : step (r, ps) (r, PTransition id s :: ps)
| step_call_cancel r ps id : step (r, ps) (r, PCancel id :: ps)
| step_call_resolve r ps id c : step (r, ps) (r, PResolve id c :: ps)
| step_run r ps1 p ps2 r' left :
    run_section p r = (r', left) -> step (r, ps1 ++ p :: ps2) (r', ps1 ++ left ++ ps2).

(** [reach n s]: [s] is reached from a new registry by [n] steps of any
    interleaving of any calls. *)
Inductive reach : nat -> OperationRegistry * list Pending -> Prop :=
| reach_new : reach 0 (registry_new, [])
| reach_step n s s' : reach n s -> step s s' -> reach (S n) s'.

End Registry.

(** * Facts *)

Section Facts.
Context {payloads : Payloads}.
Implicit Types (r : OperationRegistry) (m : gmap OperationId OperationRecord)
  (rec : OperationRecord) (ps : list Pending).

#[local] Opaque MAX_TERMINAL_HISTORY.

Definition b2n (b : bool) : nat := if b then 1 else 0.

(** ** Counting terminal records *)

Lemma terminal_count_insert_None m id rec :
  m !! id = None ->
  terminal_count (<[id := rec]> m)
    = (b2n (is_terminal (rec_state rec)) + terminal_count m)%nat.
Proof.
  intros Hm. unfold terminal_count.
  by rewrite (count_if_perm _ _ _ (map_to_list_insert m id rec Hm)), count_if_cons.
Qed.

Lemma terminal_count_delete m id rec :
  m !! id = Some rec ->
  terminal_count m
    = (b2n (is_terminal (rec_state rec)) + terminal_count (delete id m))%nat.
Proof.
  intros Hm. rewrite <-(insert_delete_id m id rec Hm) at 1.
  by rewrite terminal_count_insert_None by apply lookup_delete_eq.
Qed.

Lemma terminal_count_update m id rec rec' :
  m !! id = Some rec ->
  (terminal_count (<[id := rec']> m) + b2n (is_terminal (rec_state rec))
    = terminal_count m + b2n (is_terminal (rec_state rec')))%nat.
Proof.
  intros Hm. rewrite (terminal_count_delete m id rec Hm), <-insert_delete_eq.
  rewrite terminal_count_insert_None by apply lookup_delete_eq. lia.
Qed.

Lemma elem_of_terminal_ids m id :
  id ∈ terminal_ids m <->
  exists rec, m !! id = Some rec /\ is_terminal (rec_state rec) = true.
Proof.
  unfold terminal_ids. rewrite merge_sort_elem, list_elem_of_fmap. split.
  - intros ([id' rec] & -> & Hin). apply list_elem_of_In, filter_In in Hin as [Hin Ht].
    apply list_elem_of_In, elem_of_map_to_list in Hin. eauto.
  - intros (rec & Hm & Ht). exists (id, rec). split; [done|].
    apply list_elem_of_In, filter_In. split; [|done].
    by apply list_elem_of_In, elem_of_map_to_list.
Qed.

Lemma NoDup_terminal_ids m : NoDup (terminal_ids m).
Proof.
  unfold terminal_ids. rewrite merge_sort_Permutation.
  pose proof (NoDup_fst_map_to_list m) as Hnd. revert Hnd.
  generalize (map_to_list m) as l. induction l as [|p l IH]; intros Hnd; simpl; [constructor|].
  apply NoDup_cons in Hnd as [Hp Hnd]. destruct (terminal_record p); simpl; [|by apply IH].
  constructor; [|by apply IH]. intros Hin. apply Hp.
  apply list_elem_of_fmap in Hin as (q & -> & Hq).
  apply list_elem_of_In, filter_In in Hq as [Hq _].
  apply list_elem_of_fmap. exists q. split; [done|]. by apply list_elem_of_In.
Qed.

Lemma length_terminal_ids m : length (terminal_ids m) = terminal_count m.
Proof.
  unfold terminal_ids, terminal_count, count_if.
  by rewrite (Permutation_length (merge_sort_Permutation _ _)), length_map.
Qed.

Lemma remove_all_lookup ids m id :
  remove_all ids m !! id = if bool_decide (id ∈ ids) then None else m !! id.
Proof.
  unfold remove_all. revert m; induction ids as [|i ids IH]; intros m; simpl; [done|].
  rewrite IH. destruct (decide (id = i)) as [->|Hne].
  - rewrite lookup_delete_eq, (bool_decide_eq_true_2 (i ∈ i :: ids)) by by left.
    by case_bool_decide.
  - rewrite lookup_delete_ne by done. apply (f_equal (fun b : bool => if b then _ else _)).
    apply bool_decide_ext. set_solver.
Qed.

Lemma remove_all_terminal_count ids m :
  NoDup ids ->
  (forall id, id ∈ ids -> exists rec, m !! id = Some rec /\ is_terminal (rec_state rec) = true) ->
  (terminal_count (remove_all ids m) + length ids = terminal_count m)%nat.
Proof.
  intros Hnd. unfold remove_all. revert m.
  induction Hnd as [|i ids Hi Hnd IH]; intros m Hall; simpl; [lia|].
  destruct (Hall i) as (rec & Hm & Ht); [set_solver|].
  rewrite (terminal_count_delete m i rec Hm), Ht. simpl.
  rewrite <-(IH (delete i m)); [lia|].
  intros id Hid. rewrite lookup_delete_ne by set_solver. apply Hall. set_solver.
Qed.

(** After an eviction at most [MAX_TERMINAL_HISTORY] terminal records are left. *)
Lemma evict_terminal_count r :
  terminal_count (records (evict_excess_history r))
    = Nat.min (terminal_count (records r)) MAX_TERMINAL_HISTORY.
Proof.
  unfold evict_excess_history. destruct (_ <=? _)%nat eqn:E.
  - apply Nat.leb_le in E. lia.
  - apply Nat.leb_gt in E. cbn [records set_records].
    set (k := (terminal_count (records r) - MAX_TERMINAL_HISTORY)%nat).
    pose proof (length_terminal_ids (records r)) as Hlen.
    assert (length (take k (terminal_ids (records r))) = k) as Hk
      by (rewrite length_take; lia).
    enough (terminal_count (remove_all (take k (terminal_ids (records r))) (records r)) + k
            = terminal_count (records r))%nat by lia.
    rewrite <-Hk at 2. apply remove_all_terminal_count.
    + eapply sublist_NoDup; [apply NoDup_terminal_ids|apply sublist_take].
    + intros id Hid. apply elem_of_terminal_ids. by eapply elem_of_sublist; [|apply sublist_take].
Qed.

Lemma evict_lookup r id :
  records (evict_excess_history r) !! id = records r !! id \/
  (records (evict_excess_history r) !! id = None /\
   exists rec, records r !! id = Some rec /\ is_terminal (rec_state rec) = true).
Proof.
  unfold evict_excess_history. case_match; [by left|]. cbn [records set_records].
  rewrite remove_all_lookup. case_bool_decide as Hid; [|by left]. right. split; [done|].
  apply elem_of_terminal_ids. by eapply elem_of_sublist; [|apply sublist_take].
Qed.

(** ** The events of one operation *)

Definition events_of (id : OperationId) (es : list OperationEvent) : list OperationEvent :=
  filter (fun e => operation_id e = id) es.

Lemma events_of_snoc id es e :
  events_of id (es ++ [e]) =
  if bool_decide (operation_id e = id) then events_of id es ++ [e] else events_of id es.
Proof.
  unfold events_of. rewrite filter_app. case_bool_decide as H.
  - by rewrite filter_cons_True, filter_nil by done.
  - by rewrite filter_cons_False, filter_nil, app_nil_r by done.
Qed.

Lemma length_events_of id es : (length (events_of id es) <= length es)%nat.
Proof. apply length_filter. Qed.

(** Sequence numbers count up from one, and nothing follows a terminal event. *)
Definition trace_ok (es : list OperationEvent) : Prop :=
  forall i e, es !! i = Some e ->
    sequence e = Z.of_nat i + 1 /\
    (is_terminal (event_state e) = true -> S i = length es).

Definition active_trace (es : list OperationEvent) : Prop :=
  forall e, last es = Some e -> is_terminal (event_state e) = false.

Lemma trace_ok_snoc es e :
  trace_ok es -> active_trace es -> sequence e = Z.of_nat (length es) + 1 ->
  trace_ok (es ++ [e]).
Proof.
  intros Hok Hact Hseq i f Hi. rewrite length_app. cbn [length].
  apply lookup_app_Some in Hi as [Hi | [Hge Hi]].
  - destruct (Hok i f Hi) as [Hs Ht]. split; [done|].
    intros Hterm. specialize (Ht Hterm).
    rewrite Hact in Hterm; [done|]. rewrite last_lookup, <-Ht. done.
  - apply list_lookup_singleton_Some in Hi as [Hi <-]. split; [|lia].
    rewrite Hseq. lia.
Qed.

Lemma trace_ok_last es e :
  trace_ok es -> last es = Some e -> sequence e = Z.of_nat (length es).
Proof.
  intros Hok Hl. rewrite last_lookup in Hl. destruct (Hok _ _ Hl) as [-> _].
  destruct es; [done|]. simpl. lia.
Qed.

(** ** The invariant of every interleaving *)

Definition begin_ids (ps : list Pending) : list OperationId :=
  omap (fun p => match p with PBegin id _ => Some id | _ => None end) ps.

Definition is_evict (p : Pending) : bool :=
  match p with PEvict => true | _ => false end.

(** An id no record and no event mentions. *)
Definition unused (r : OperationRegistry) (id : OperationId) : Prop :=
  records r !! id = None /\ events_of id (events r) = [].

(** The record of an operation is its last event; an operation without a record
    was never begun, or was evicted after its terminal event. *)
Definition agrees (r : OperationRegistry) (id : OperationId) : Prop :=
  match records r !! id with
  | Some rec =>
      exists e, last (events_of id (events r)) = Some e /\
        last_sequence rec = sequence e /\ rec_state rec = event_state e /\
        rec_kind rec = event_kind e
  | None =>
      forall e, last (events_of id (events r)) = Some e ->
        is_terminal (event_state e) = true
  end.

Record Inv (n : nat) (s : OperationRegistry * list Pending) : Prop := {
  inv_counter : 1 <= next_operation s.1 <= 1 + Z.of_nat n;
  inv_length : (length (events s.1) <= n)%nat;
  inv_trace : forall id, trace_ok (events_of id (events s.1));
  inv_agrees : forall id, agrees s.1 id;
  inv_pending : forall id rec c, records s.1 !! id = Some rec ->
    pending_challenge rec = Some c -> challenge_of (rec_state rec) = Some c;
  inv_fresh : forall id, next_operation s.1 <= id -> unused s.1 id;
  inv_begin_nodup : NoDup (begin_ids s.2);
  inv_begin : forall id, id ∈ begin_ids s.2 -> id < next_operation s.1 /\ unused s.1 id;
  inv_history : (terminal_count (records s.1)
    <= MAX_TERMINAL_HISTORY + count_if is_evict s.2)%nat;
  inv_flags : forall id rec, records s.1 !! id = Some rec ->
    (cancel_flag rec < length (flags s.1))%nat;
  inv_flags_inj : forall id1 id2 rec1 rec2,
    records s.1 !! id1 = Some rec1 -> records s.1 !! id2 = Some rec2 ->
    cancel_flag rec1 = cancel_flag rec2 -> id1 = id2
}.

(** Rewriting a record without moving its flag keeps the flags private. *)
Lemma flags_update m id rec rec' (fl : list bool) :
  m !! id = Some rec -> cancel_flag rec' = cancel_flag rec ->
  (forall j rc, m !! j = Some rc -> (cancel_flag rc < length fl)%nat) ->
  (forall j1 j2 rc1 rc2, m !! j1 = Some rc1 -> m !! j2 = Some rc2 ->
     cancel_flag rc1 = cancel_flag rc2 -> j1 = j2) ->
  (forall j rc, <[id := rec']> m !! j = Some rc -> (cancel_flag rc < length fl)%nat) /\
  (forall j1 j2 rc1 rc2, <[id := rec']> m !! j1 = Some rc1 ->
     <[id := rec']> m !! j2 = Some rc2 -> cancel_flag rc1 = cancel_flag rc2 -> j1 = j2).
Proof.
  intros Hid Hf Hb Hinj. split.
  - intros j rc. rewrite lookup_insert_Some. intros [[<- <-]|[_ Hj]]; [|eauto].
    rewrite Hf. eauto.
  - intros j1 j2 rc1 rc2. rewrite !lookup_insert_Some.
    intros [[<- <-]|[_ H1]] [[<- <-]|[_ H2]]; rewrite ?Hf; eauto.
Qed.

Lemma begin_ids_app ps1 ps2 : begin_ids (ps1 ++ ps2) = begin_ids ps1 ++ begin_ids ps2.
Proof. apply omap_app. Qed.

(** An operation with a live record has an active trace as long as its last
    event says. *)
Lemma inv_live n r ps id rec :
  Inv n (r, ps) -> records r !! id = Some rec ->
  last_sequence rec = Z.of_nat (length (events_of id (events r))) /\
  (is_terminal (rec_state rec) = false -> active_trace (events_of id (events r))).
Proof.
  intros HI Hid. pose proof (inv_agrees _ _ HI id) as Ha. unfold agrees in Ha. simpl in Ha.
  rewrite Hid in Ha. destruct Ha as (e & Hl & Hs & Hst & _). split.
  - rewrite Hs. by apply trace_ok_last, Hl; apply (inv_trace _ _ HI id).
  - intros Ht f Hf. rewrite Hl in Hf. injection Hf as <-. by rewrite <-Hst.
Qed.

Lemma inv_init : Inv 0 (registry_new, []).
Proof.
  split; cbn [fst snd]; try done; try (simpl; lia).
  - intros id. unfold agrees. simpl. by rewrite lookup_empty.
  - constructor.
  - intros id Hid. by apply elem_of_nil in Hid.
  - unfold terminal_count. cbn [records registry_new]. rewrite map_to_list_empty.
    unfold count_if. simpl. lia.
Qed.

(** Appending one event and writing the record it describes. *)
Lemma append_event r r' id e rec' :
  events r' = events r ++ [e] -> records r' = <[id := rec']> (records r) ->
  operation_id e = id -> active_trace (events_of id (events r)) ->
  sequence e = Z.of_nat (length (events_of id (events r))) + 1 ->
  last_sequence rec' = sequence e -> rec_state rec' = event_state e ->
  rec_kind rec' = event_kind e ->
  (forall j, trace_ok (events_of j (events r))) -> (forall j, agrees r j) ->
  (forall j, trace_ok (events_of j (events r'))) /\ (forall j, agrees r' j) /\
  (forall j, j <> id -> unused r j -> unused r' j).
Proof.
  intros He Hr Hid Hact Hseq Hls Hst Hk Htr Hag. rewrite He.
  assert (forall j, j <> id -> events_of j (events r ++ [e]) = events_of j (events r)) as Hne.
  { intros j Hj. rewrite events_of_snoc, bool_decide_eq_false_2 by congruence. done. }
  assert (events_of id (events r ++ [e]) = events_of id (events r) ++ [e]) as Heq.
  { by rewrite events_of_snoc, bool_decide_eq_true_2. }
  split; [|split].
  - intros j. destruct (decide (j = id)) as [->|Hj]; [|by rewrite Hne].
    rewrite Heq. by apply trace_ok_snoc.
  - intros j. unfold agrees. rewrite Hr, He. destruct (decide (j = id)) as [->|Hj].
    + rewrite lookup_insert_eq, Heq, last_snoc. by exists e.
    + rewrite lookup_insert_ne, Hne by done. apply Hag.
  - intros j Hj [Hu Hv]. unfold unused. rewrite Hr, He, lookup_insert_ne, Hne by done. done.
Qed.

(** What is left of a call never begins another operation. *)
Lemma begin_ids_run ps1 p left ps2 :
  begin_ids left = [] -> NoDup (begin_ids (ps1 ++ p :: ps2)) ->
  NoDup (begin_ids (ps1 ++ left ++ ps2)) /\
  (forall id, id ∈ begin_ids (ps1 ++ left ++ ps2) -> id ∈ begin_ids (ps1 ++ p :: ps2)) /\
  (forall id k, p = PBegin id k -> id ∉ begin_ids (ps1 ++ left ++ ps2)).
Proof.
  intros Hleft. rewrite !begin_ids_app, Hleft. simpl.
  change (begin_ids (p :: ps2)) with
    (match (match p with PBegin id _ => Some id | _ => None end) with
     | Some y => y :: begin_ids ps2 | None => begin_ids ps2 end).
  destruct p as [id k| | | |]; simpl; intros Hnd; try (split; [done|by split]).
  apply NoDup_app in Hnd as (H1 & H2 & H3). apply NoDup_cons in H3 as [H4 H5].
  split; [apply NoDup_app; set_solver|]. split; [set_solver|].
  intros id' k' [= <- _]. set_solver.
Qed.

Lemma inv_frame n r r' ps :
  events r' = events r -> records r' = records r ->
  next_operation r' = next_operation r -> length (flags r') = length (flags r) ->
  Inv n (r, ps) -> Inv n (r', ps).
Proof.
  intros He Hr Hn Hfl [H1 H2 H3 H4 H5 H6 H7 H8 H9 H10 H11]. simpl in *.
  split; simpl; unfold agrees, unused in *; rewrite ?He, ?Hr, ?Hn, ?Hfl; eauto.
Qed.

Lemma inv_weaken n s : Inv n s -> Inv (S n) s.
Proof. intros [H1 H2 H3 H4 H5 H6 H7 H8 H9 H10 H11]. split; eauto; lia. Qed.

Lemma inv_call n r p ps :
  begin_ids [p] = [] -> Inv n (r, ps) -> Inv n (r, p :: ps).
Proof.
  intros Hp [H1 H2 H3 H4 H5 H6 H7 H8 H9 H10 H11]. cbn [fst snd] in *.
  assert (begin_ids (p :: ps) = begin_ids ps) as Hps
    by (change (p :: ps) with ([p] ++ ps); by rewrite begin_ids_app, Hp).
  split; cbn [fst snd]; rewrite ?Hps, ?count_if_cons; eauto. lia.
Qed.

(** A section that leaves the records alone. *)
Lemma inv_run_left n r ps1 p left ps2 :
  begin_ids left = [] -> is_evict p = false ->
  Inv n (r, ps1 ++ p :: ps2) -> Inv n (r, ps1 ++ left ++ ps2).
Proof.
  intros Hleft Hp [H1 H2 H3 H4 H5 H6 H7 H8 H9 H10 H11]. simpl in *.
  destruct (begin_ids_run ps1 p left ps2 Hleft H7) as (Hnd & Hsub & _).
  split; simpl; eauto. rewrite !count_if_app, !count_if_cons, Hp in *. lia.
Qed.

Lemma inv_run_begin n r ps1 id k ps2 :
  Inv n (r, ps1 ++ PBegin id k :: ps2) ->
  Inv (S n) (snd (begin_section id k r), ps1 ++ ps2).
Proof.
  intros [H1 H2 H3 H4 H5 H6 H7 H8 H9 H10 H11]. simpl in *.
  destruct (begin_ids_run ps1 (PBegin id k) [] ps2 eq_refl H7) as (Hnd & Hsub & Hnot).
  specialize (Hnot id k eq_refl). simpl in *.
  destruct (H8 id) as [Hlt [Hu He]]; [rewrite begin_ids_app; set_solver|].
  edestruct (append_event r (snd (begin_section id k r)) id) as (Ht & Ha & Hun);
    [reflexivity|reflexivity|reflexivity|by rewrite He|by rewrite He|reflexivity..|done|done|].
  split; simpl; auto; try lia.
  - rewrite length_app. simpl. lia.
  - intros j rec c. rewrite lookup_insert_Some. intros [[<- <-]|[_ Hj]]; [done|eauto].
  - intros j Hj. apply Hun; [lia|by apply H6].
  - intros j Hj. destruct (H8 j (Hsub j Hj)) as [Hlt' Hu']. split; [done|].
    apply Hun; [set_solver|done].
  - rewrite terminal_count_insert_None by done. simpl.
    rewrite !count_if_app, count_if_cons in *. simpl in *. lia.
  - intros j rec. rewrite length_app, lookup_insert_Some. simpl.
    intros [[<- <-]|[_ Hj]]; simpl; [lia|]. specialize (H10 _ _ Hj). lia.
  - intros j1 j2 rc1 rc2. rewrite !lookup_insert_Some.
    intros [[<- <-]|[_ Hj1]] [[<- <-]|[_ Hj2]]; simpl; try done; [..|by eauto].
    + specialize (H10 _ _ Hj2). lia.
    + specialize (H10 _ _ Hj1). lia.
Qed.

Lemma inv_run_transition n r ps1 id st ps2 rec :
  Z.of_nat (S n) < u64_max ->
  Inv n (r, ps1 ++ PTransition id st :: ps2) ->
  records r !! id = Some rec -> is_terminal (rec_state rec) = false ->
  Inv (S n) (snd (transition_section id st r), ps1 ++ PEvict :: ps2).
Proof.
  intros Hn HI Hid Hterm. destruct (inv_live _ _ _ _ _ HI Hid) as [Hlen Hact].
  destruct HI as [H1 H2 H3 H4 H5 H6 H7 H8 H9 H10 H11]. simpl in *.
  destruct (begin_ids_run ps1 (PTransition id st) [PEvict] ps2 eq_refl H7) as (Hnd & Hsub & _).
  unfold transition_section. rewrite Hid, Hterm. cbn [snd].
  set (rec' := {| rec_kind := _ |}). set (r' := publish _ _ _ _ _).
  assert (last_sequence rec' = last_sequence rec + 1) as Hls.
  { simpl. pose proof (length_events_of id (events r)). apply wrapping_add_small; lia. }
  edestruct (append_event r r' id) as (Ht & Ha & Hun);
    [reflexivity|reflexivity|reflexivity|by apply Hact|rewrite Hls; simpl; lia|reflexivity..
    |done|done|].
  assert (forall j, unused r j -> j <> id) as Hne.
  { intros j [Hj _] ->. congruence. }
  destruct (flags_update _ id rec rec' _ Hid eq_refl H10 H11) as [Hfl1 Hfl2].
  split; simpl; auto; try lia.
  - rewrite length_app. simpl. lia.
  - intros j rc c. rewrite lookup_insert_Some. intros [[<- <-]|[_ Hj]]; [done|eauto].
  - intros j Hj. destruct (H8 j (Hsub j Hj)) as [Hlt' Hu']. split; [done|].
    apply Hun; [by apply Hne|done].
  - pose proof (terminal_count_update (records r) id rec rec' Hid) as Hc.
    rewrite Hterm in Hc. simpl in Hc. rewrite !count_if_app, !count_if_cons in *. simpl in *.
    destruct (is_terminal st); simpl in *; lia.
Qed.

Lemma inv_run_evict n r ps1 ps2 :
  Inv n (r, ps1 ++ PEvict :: ps2) -> Inv n (evict_excess_history r, ps1 ++ ps2).
Proof.
  intros [H1 H2 H3 H4 H5 H6 H7 H8 H9 H10 H11]. simpl in *.
  destruct (begin_ids_run ps1 PEvict [] ps2 eq_refl H7) as (Hnd & Hsub & _). simpl in *.
  assert (events (evict_excess_history r) = events r) as He
    by (unfold evict_excess_history; by case_match).
  assert (next_operation (evict_excess_history r) = next_operation r) as Hn
    by (unfold evict_excess_history; by case_match).
  assert (flags (evict_excess_history r) = flags r) as Hfl
    by (unfold evict_excess_history; by case_match).
  assert (forall j rec, records (evict_excess_history r) !! j = Some rec ->
            records r !! j = Some rec) as Hrec.
  { intros j rec Hj. destruct (evict_lookup r j) as [Heq|[Heq _]]; congruence. }
  assert (forall j, unused r j -> unused (evict_excess_history r) j) as Hun.
  { intros j [Hj He']. split; [|by rewrite He].
    destruct (evict_lookup r j) as [->|[-> _]]; done. }
  split; simpl; rewrite ?He, ?Hn, ?Hfl; eauto.
  - intros j. specialize (H4 j). unfold agrees in *. rewrite He.
    destruct (evict_lookup r j) as [->|[-> (rec & Hr & Ht)]]; [done|].
    rewrite Hr in H4. destruct H4 as (e & Hl & _ & Hst & _). intros f Hf.
    rewrite Hl in Hf. injection Hf as <-. by rewrite <-Hst.
  - intros j Hj. destruct (H8 j (Hsub j Hj)). auto.
  - rewrite evict_terminal_count. lia.
Qed.

Lemma inv_resolve n r id c ps :
  Inv n (r, ps) -> Inv n (snd (resolve_challenge id c r), ps).
Proof.
  intros HI. unfold resolve_challenge. destruct (records r !! id) as [rec|] eqn:Hid;
    [case_bool_decide|]; cbn [snd generate_correlation]; [|by apply (inv_frame n r)..].
  destruct HI as [H1 H2 H3 H4 H5 H6 H7 H8 H9 H10 H11]. simpl in *.
  set (rec' := {| pending_challenge := None |}).
  assert (forall j, unused r j -> unused (set_records r (<[id:=rec']> (records r))) j) as Hun.
  { intros j [Hj He]. split; [|done]. simpl. rewrite lookup_insert_ne by congruence. done. }
  destruct (flags_update _ id rec rec' _ Hid eq_refl H10 H11) as [Hfl1 Hfl2].
  split; simpl; auto.
  - intros j. specialize (H4 j). unfold agrees in *. simpl.
    destruct (decide (j = id)) as [->|Hj].
    + rewrite lookup_insert_eq. by rewrite Hid in H4.
    + by rewrite lookup_insert_ne.
  - intros j rc d. rewrite lookup_insert_Some. intros [[<- <-]|[_ Hj]]; [done|eauto].
  - intros j Hj. destruct (H8 j Hj). auto.
  - pose proof (terminal_count_update (records r) id rec rec' Hid). simpl in *. lia.
Qed.

Lemma inv_cancel_section n r id ps :
  Inv n (r, ps) -> Inv n (snd (cancel_section id r), ps).
Proof.
  intros HI. unfold cancel_section. destruct (records r !! id) as [rec|];
    cbn [snd generate_correlation]; apply (inv_frame n r); try done.
  simpl. apply length_insert.
Qed.

Lemma inv_call_begin n r ps k :
  Z.of_nat (S n) < u64_max -> Inv n (r, ps) ->
  Inv (S n) ((next_operation_id r).2, PBegin (next_operation r) k :: ps).
Proof.
  intros Hn [H1 H2 H3 H4 H5 H6 H7 H8 H9 H10 H11]. cbn [fst snd] in *.
  assert (wrapping_add (next_operation r) 1 = next_operation r + 1) as Hw
    by (apply wrapping_add_small; lia).
  split; simpl; rewrite ?Hw, ?count_if_cons; eauto; try lia.
  - intros j Hj. apply H6. lia.
  - constructor; [|done]. intros Hin. apply H8 in Hin as [Hlt _]. lia.
  - intros j Hj. apply elem_of_cons in Hj as [->|Hj]; [split; [lia|apply H6; lia]|].
    destruct (H8 j Hj). split; [lia|done].
Qed.

Lemma inv_run n r ps1 p ps2 r' left :
  Z.of_nat (S n) < u64_max -> Inv n (r, ps1 ++ p :: ps2) ->
  run_section p r = (r', left) -> Inv (S n) (r', ps1 ++ left ++ ps2).
Proof.
  intros Hn HI. destruct p as [id k|id st| |id|id c]; simpl.
  - intros [= <- <-]. by apply inv_run_begin.
  - destruct (transition_section id st r) as [[b|e] r1] eqn:Ht; [destruct b|];
      intros [= <- <-]; unfold transition_section in Ht;
      destruct (records r !! id) as [rec|] eqn:Hid; try done;
      try (destruct (is_terminal (rec_state rec)) eqn:Hterm; [|done]; injection Ht as <-;
           by apply inv_weaken, inv_run_left with (p := PTransition id st)).
    + destruct (is_terminal (rec_state rec)) eqn:Hterm; [done|].
      pose proof (inv_run_transition n r ps1 id st ps2 rec Hn HI Hid Hterm) as H.
      unfold transition_section in H. rewrite Hid, Hterm in H. by injection Ht as <-.
    + by case_match.
    + injection Ht as _ <-. apply inv_weaken, inv_run_left with (p := PTransition id st); [done..|].
      by apply (inv_frame n r).
  - intros [= <- <-]. by apply inv_weaken, inv_run_evict.
  - pose proof (inv_cancel_section n r id _ HI) as HI'.
    destruct (cancel_section id r) as [[[]|e] r1]; intros [= <- <-];
      by apply inv_weaken, inv_run_left with (p := PCancel id).
  - intros [= <- <-]. apply inv_weaken, inv_run_left with (p := PResolve id c); [done..|].
    by apply inv_resolve.
Qed.

Lemma inv_step n s s' :
  Z.of_nat (S n) < u64_max -> Inv n s -> step s s' -> Inv (S n) s'.
Proof.
  intros Hn HI Hstep. destruct Hstep as [r ps k id r' Hid|r ps id st|r ps id|r ps id c|
    r ps1 p ps2 r' left Hrun].
  - injection Hid as <- <-. by apply inv_call_begin.
  - by apply inv_weaken, inv_call.
  - by apply inv_weaken, inv_call.
  - by apply inv_weaken, inv_call.
  - by eapply inv_run.
Qed.

(** The invariant holds in every state reached before the 64-bit counters could
    run out. *)
Lemma inv_reach n s : reach n s -> Z.of_nat n < u64_max -> Inv n s.
Proof.
  induction 1 as [|n s s' _ IH Hstep]; intros Hn; [apply inv_init|].
  eapply inv_step; [done| |done]. apply IH. lia.
Qed.

End Facts.

(** * Properties *)

Section Properties.
Context {payloads : Payloads}.
Implicit Types (r : OperationRegistry) (ps : list Pending).
#[local] Opaque MAX_TERMINAL_HISTORY.

(** C15: whatever the interleaving of concurrent
    [begin], [transition], [cancel] and [resolve_challenge] calls, the events
    published for one operation carry the sequence numbers 1, 2, 3, ... in the
    order they were sent, so no subscriber sees a later number first. *)
Theorem event_sequences_contiguous n r ps id i e :
  reach n (r, ps) -> Z.of_nat n < u64_max ->
  events_of id (events r) !! i = Some e -> sequence e = Z.of_nat i + 1.
Proof.
  intros Hr Hn He. apply (inv_trace _ _ (inv_reach _ _ Hr Hn) id i e He).
Qed.

(** C16: in every interleaving, once an operation has
    published [Completed], [Cancelled] or [Failed] it never publishes again, even
    after its record has been evicted. *)
Theorem terminal_event_is_last n r ps id i e j f :
  reach n (r, ps) -> Z.of_nat n < u64_max ->
  events_of id (events r) !! i = Some e -> is_terminal (event_state e) = true ->
  events_of id (events r) !! j = Some f -> (j <= i)%nat.
Proof.
  intros Hr Hn He Ht Hf. pose proof (inv_trace _ _ (inv_reach _ _ Hr Hn) id) as Htr.
  destruct (Htr i e He) as [_ Hlast]. apply Hlast in Ht.
  apply lookup_lt_Some in Hf. simpl in *. lia.
Qed.

(** The point-in-time lookup [operation] agrees with
    the event stream: its sequence, state and kind are those of the last event
    published for the operation, and an operation that has published but has no
    snapshot ended in a terminal state. *)
Theorem snapshot_is_last_event n r ps id :
  reach n (r, ps) -> Z.of_nat n < u64_max ->
  match operation id r with
  | Some snap =>
      exists e, last (events_of id (events r)) = Some e /\
        snap_last_sequence snap = sequence e /\ snap_state snap = event_state e /\
        snap_kind snap = event_kind e
  | None =>
      forall e, last (events_of id (events r)) = Some e ->
        is_terminal (event_state e) = true
  end.
Proof.
  intros Hr Hn. pose proof (inv_agrees _ _ (inv_reach _ _ Hr Hn) id) as Ha.
  unfold agrees, operation in *. simpl in *. by destruct (records r !! id).
Qed.

(** The registry never holds more terminal records
    than [MAX_TERMINAL_HISTORY] plus the calls that still have their eviction to
    run; when no eviction is outstanding, at most [MAX_TERMINAL_HISTORY]. *)
Theorem terminal_history_bounded n r ps :
  reach n (r, ps) -> Z.of_nat n < u64_max ->
  (terminal_count (records r) <= MAX_TERMINAL_HISTORY + count_if is_evict ps)%nat /\
  (Forall (fun p => p <> PEvict) ps ->
   (terminal_count (records r) <= MAX_TERMINAL_HISTORY)%nat).
Proof.
  intros Hr Hn. pose proof (inv_history _ _ (inv_reach _ _ Hr Hn)) as Hh. simpl in Hh.
  split; [done|]. intros Hps. enough (count_if is_evict ps = 0%nat) by lia.
  clear -Hps. induction Hps as [|p ps Hp _ IH]; [done|].
  rewrite count_if_cons, IH. by destruct p.
Qed.

(** An eviction leaves every active operation alone,
    keeps [MAX_TERMINAL_HISTORY] terminal records (or all of them when there are
    fewer), and every terminal record it drops is older than every one it
    keeps. *)
Theorem eviction_keeps_newest r :
  (forall id rec, records r !! id = Some rec -> is_terminal (rec_state rec) = false ->
     records (evict_excess_history r) !! id = Some rec) /\
  terminal_count (records (evict_excess_history r))
    = Nat.min (terminal_count (records r)) MAX_TERMINAL_HISTORY /\
  (forall dropped kept rec,
     records (evict_excess_history r) !! dropped = None ->
     is_Some (records r !! dropped) ->
     records (evict_excess_history r) !! kept = Some rec ->
     is_terminal (rec_state rec) = true -> dropped < kept).
Proof.
  split; [|split; [apply evict_terminal_count|]].
  - intros id rec Hid Ht. destruct (evict_lookup r id) as [->|[_ (rec' & Hid' & Ht')]]; [done|].
    congruence.
  - intros a b rec Ha [reca Hra] Hb Ht. revert Ha Hb. unfold evict_excess_history.
    destruct (_ <=? _)%nat; [intros; congruence|]. cbn [records set_records].
    rewrite !remove_all_lookup. case_bool_decide as Hina; [intros _|congruence].
    case_bool_decide as Hinb; [done|]. intros Hb.
    assert (b ∈ terminal_ids (records r)) as Hb' by (apply elem_of_terminal_ids; eauto).
    rewrite <-(take_drop (terminal_count (records r) - MAX_TERMINAL_HISTORY)) in Hb'.
    apply elem_of_app in Hb' as [Hb'|Hb']; [done|].
    assert (a <> b) by (intros ->; done).
    enough (a <= b) by lia.
    assert (StronglySorted Z.le (terminal_ids (records r))) as Hs
      by (apply StronglySorted_merge_sort; apply _).
    rewrite <-(take_drop (terminal_count (records r) - MAX_TERMINAL_HISTORY)) in Hs.
    by eapply StronglySorted_app_1_elem_of.
Qed.

(** In every reachable state, a response is accepted
    exactly when its id is the operation's pending challenge; the operation is
    then in the [Challenge] state of that very id, the accepted response changes
    no state or event, and a second response to the operation is a [Conflict]
    until it raises a new challenge. *)
Theorem challenge_answered_once n r ps id c rec :
  reach n (r, ps) -> Z.of_nat n < u64_max -> records r !! id = Some rec ->
  ((resolve_challenge id c r).1 = Ok tt <-> pending_challenge rec = Some c) /\
  ((resolve_challenge id c r).1 = Ok tt ->
     challenge_of (rec_state rec) = Some c /\
     events (resolve_challenge id c r).2 = events r /\
     operation id (resolve_challenge id c r).2 = operation id r /\
     forall c', exists e,
       (resolve_challenge id c' (resolve_challenge id c r).2).1 = Err e /\ kind e = Conflict).
Proof.
  intros Hr Hn Hid. pose proof (inv_pending _ _ (inv_reach _ _ Hr Hn) id rec c Hid) as Hp.
  unfold resolve_challenge at 1 2 3 4 6. rewrite Hid. case_bool_decide as Hc; simpl.
  - split; [done|]. intros _. split; [by apply Hp|]. split; [done|]. split.
    + unfold operation. simpl. by rewrite lookup_insert_eq, Hid.
    + intros c'. unfold resolve_challenge. simpl. rewrite lookup_insert_eq. simpl. eauto.
  - split; [split; [done|by intros]|done].
Qed.

(** Cancelling a tracked operation succeeds, sets
    the flag its worker polls, leaves the flag of every other tracked operation
    as it was, and leaves the operation with a terminal last event. *)
Theorem cancel_reaches_the_worker n r ps id rec :
  reach n (r, ps) -> Z.of_nat n < u64_max -> records r !! id = Some rec ->
  (cancel id r).1 = Ok tt /\
  flags (cancel id r).2 !! cancel_flag rec = Some true /\
  (forall id' rec', id' <> id -> records r !! id' = Some rec' ->
     flags (cancel id r).2 !! cancel_flag rec' = flags r !! cancel_flag rec') /\
  (exists e, last (events_of id (events (cancel id r).2)) = Some e /\
     is_terminal (event_state e) = true).
Proof.
  intros Hr Hn Hid. pose proof (inv_reach _ _ Hr Hn) as HI.
  assert (flags (cancel id r).2 = <[cancel_flag rec := true]> (flags r)) as Hfl.
  { unfold cancel, cancel_section, transition, transition_section. rewrite Hid. simpl.
    rewrite Hid. destruct (is_terminal (rec_state rec)); [done|].
    unfold evict_excess_history. by case_match. }
  assert (forall id' rec', id' <> id -> records r !! id' = Some rec' ->
     flags (cancel id r).2 !! cancel_flag rec' = flags r !! cancel_flag rec') as Hother.
  { intros id' rec' Hne Hid'. rewrite Hfl. apply list_lookup_insert_ne. intros Heq.
    by apply Hne, (inv_flags_inj _ _ HI id' id rec' rec). }
  assert (flags (cancel id r).2 !! cancel_flag rec = Some true) as Hself.
  { rewrite Hfl. apply list_lookup_insert_eq, (inv_flags _ _ HI id rec Hid). }
  unfold cancel, cancel_section, transition, transition_section in *. rewrite Hid in *.
  simpl in *. rewrite Hid in *. destruct (is_terminal (rec_state rec)) eqn:Ht; simpl in *.
  - repeat (split; [done|]). pose proof (inv_agrees _ _ HI id) as Ha.
    unfold agrees in Ha. simpl in Ha. rewrite Hid in Ha. destruct Ha as (e & Hl & _ & Hst & _).
    exists e. by rewrite <-Hst.
  - repeat (split; [done|]).
    match goal with |- context [evict_excess_history ?x] =>
      assert (events (evict_excess_history x) = events x) as ->
        by (unfold evict_excess_history; by case_match) end.
    simpl. rewrite events_of_snoc, bool_decide_eq_true_2 by done.
    rewrite last_snoc. eauto.
Qed.

End Properties.

(** ** Witnesses

    One run of the registry: an extraction is begun, raises a password challenge,
    and the eviction of that transition is still outstanding. *)

Definition unit_payloads : Payloads :=
  {| ArchiveSnapshot := unit; MaterializationLease := unit; PluginUiUpdate := unit |}.
#[local] Existing Instance unit_payloads.

Definition demo_challenge : OperationState := ChallengeState (Password 7 §"archive.zip" 1).

Definition demo_minted : OperationRegistry := snd (next_operation_id registry_new).
Definition demo_begun : OperationRegistry := snd (begin_section 1 Extract demo_minted).
Definition demo_registry : OperationRegistry :=
  snd (transition_section 1 demo_challenge demo_begun).

(** The same run after a cancellation won the race. *)
Definition demo_flagged : OperationRegistry := snd (cancel_section 1 demo_registry).
Definition demo_cancelled : OperationRegistry :=
  snd (transition_section 1 Cancelled demo_flagged).

Lemma demo_reach : reach 4 (demo_registry, [PEvict]).
Proof.
  eapply reach_step; [|exact (step_run demo_begun [] (PTransition 1 demo_challenge) []
                                demo_registry [PEvict] eq_refl)].
  eapply reach_step; [|exact (step_call_transition demo_begun [] 1 demo_challenge)].
  eapply reach_step; [|exact (step_run demo_minted [] (PBegin 1 Extract) []
                                demo_begun [] eq_refl)].
  eapply reach_step; [apply reach_new|exact (step_call_begin registry_new [] Extract 1
                                               demo_minted eq_refl)].
Qed.

Lemma demo_cancelled_reach : reach 7 (demo_cancelled, [PEvict; PEvict]).
Proof.
  eapply reach_step; [|exact (step_run demo_flagged [] (PTransition 1 Cancelled) [PEvict]
                                demo_cancelled [PEvict] eq_refl)].
  eapply reach_step; [|exact (step_run demo_registry [] (PCancel 1) [PEvict]
                                demo_flagged [PTransition 1 Cancelled] eq_refl)].
  eapply reach_step; [apply demo_reach|exact (step_call_cancel demo_registry [PEvict] 1)].
Qed.

Lemma event_sequences_contiguous_witness :
  exists e, events_of 1 (events demo_registry) !! 1%nat = Some e /\ sequence e = 2.
Proof.
  eexists. split; [reflexivity|].
  exact (event_sequences_contiguous 4 demo_registry [PEvict] 1 1 _ demo_reach eq_refl eq_refl).
Defined.

Lemma terminal_event_is_last_witness :
  exists e, events_of 1 (events demo_cancelled) !! 2%nat = Some e /\
    is_terminal (event_state e) = true /\
    forall j f, events_of 1 (events demo_cancelled) !! j = Some f -> (j <= 2)%nat.
Proof.
  eexists. split; [reflexivity|]. split; [reflexivity|]. intros j f Hf.
  exact (terminal_event_is_last 7 demo_cancelled [PEvict; PEvict] 1 2 _ j f
           demo_cancelled_reach eq_refl eq_refl eq_refl Hf).
Defined.

Lemma snapshot_is_last_event_witness :
  exists e, last (events_of 1 (events demo_registry)) = Some e /\
    2 = sequence e /\ demo_challenge = event_state e /\ Extract = event_kind e.
Proof.
  exact (snapshot_is_last_event 4 demo_registry [PEvict] 1 demo_reach eq_refl).
Defined.

Lemma terminal_history_bounded_witness :
  (terminal_count (records demo_cancelled) <= MAX_TERMINAL_HISTORY + 2)%nat.
Proof.
  exact (proj1 (terminal_history_bounded 7 demo_cancelled [PEvict; PEvict]
                  demo_cancelled_reach eq_refl)).
Defined.

Lemma challenge_answered_once_witness :
  (resolve_challenge 1 7 demo_registry).1 = Ok tt.
Proof.
  by apply (proj1 (challenge_answered_once 4 demo_registry [PEvict] 1 7 _ demo_reach eq_refl
              eq_refl)).
Defined.

Lemma cancel_reaches_the_worker_witness :
  (cancel 1 demo_registry).1 = Ok tt /\ flags (cancel 1 demo_registry).2 !! 0%nat = Some true.
Proof.
  destruct (cancel_reaches_the_worker 4 demo_registry [PEvict] 1 _ demo_reach eq_refl
              eq_refl) as (H1 & H2 & _).
  split; [exact H1|exact H2].
Defined.
