(* ===== verification/Waiters.v ===== *)
(** The delivery of challenge responses
    ([crates/app/src/operations/challenge_waiters.rs]) and the facade call that
    joins it to the registry ([ArclainApp::respond_to_challenge] of
    [crates/app/src/runtime/mod.rs]).

    A oneshot channel is a location: the task that registered holds the receiver,
    the map holds the sender.  Dropping a sender that never sent closes the
    channel. *)

From stdpp Require Import base tactics option list gmap strings.
From Stdlib Require Import ZArith Lia Ascii.
From S2P Require Import Prelude Text AppError Registry.
Local Open Scope Z_scope.

(** What the receiver of a oneshot channel observes. *)
Inductive Channel :=
| Waiting
| Delivered (response : ChallengeResponse)
| SenderDropped.

Record ChallengeWaiters := {
  senders : gmap OperationId nat;
  channels : list Channel
}.

Definition waiters_new : ChallengeWaiters := {| senders := ∅; channels := [] |}.

Definition no_pending_challenge_error (cid : CorrelationId) (id : OperationId)
  : ApplicationError :=
  with_operation_id
    (with_recoverability
       (new cid Conflict §"operation has no pending challenge to respond to") UserAction) id.

(** Dropping the sender the map held for [id], if any. *)
Definition drop_sender (id : OperationId) (w : ChallengeWaiters) : list Channel :=
  match senders w !! id with
  | Some ch => <[ch := SenderDropped]> (channels w)
  | None => channels w
  end.

(** [oneshot::channel()], then [HashMap::insert], which drops the sender it
    replaces. *)
Definition register (id : OperationId) (w : ChallengeWaiters) : nat * ChallengeWaiters :=
  let ch := length (channels w) in
  (ch, {| senders := <[id := ch]> (senders w); channels := drop_sender id w ++ [Waiting] |}).

(** A send to a receiver that is gone is ignored, so the delivery is recorded
    whether or not anyone still reads it. *)
Definition respond (cid : CorrelationId) (id : OperationId) (response : ChallengeResponse)
    (w : ChallengeWaiters) : result ApplicationError unit * ChallengeWaiters :=
  match senders w !! id with
  | None => (Err (no_pending_challenge_error cid id), w)
  | Some ch =>
      (Ok tt, {| senders := delete id (senders w);
                 channels := <[ch := Delivered response]> (channels w) |})
  end.

Definition waiters_cancel (id : OperationId) (w : ChallengeWaiters) : ChallengeWaiters :=
  {| senders := delete id (senders w); channels := drop_sender id w |}.

(** [ArclainApp::respond_to_challenge]: validate against the registry, then
    deliver. *)
Definition respond_to_challenge {payloads : Payloads} (id : OperationId)
    (response : ChallengeResponse) (r : OperationRegistry) (w : ChallengeWaiters)
  : result ApplicationError unit * (OperationRegistry * ChallengeWaiters) :=
  match resolve_challenge id (response_id response) r with
  | (Err e, r1) => (Err e, (r1, w))
  | (Ok _, r1) =>
      match respond (next_correlation r1) id response w with
      | (Err e, w1) => (Err e, (snd (generate_correlation r1), w1))
      | (Ok _, w1) => (Ok tt, (r1, w1))
      end
  end.

(** Every sender in the map belongs to a channel still waiting, and no channel
    has two senders. *)
Definition waiters_ok (w : ChallengeWaiters) : Prop :=
  (forall id ch, senders w !! id = Some ch -> channels w !! ch = Some Waiting) /\
  (forall id1 id2 ch, senders w !! id1 = Some ch -> senders w !! id2 = Some ch -> id1 = id2).

(** * Facts *)

Lemma drop_sender_ne id w ch :
  senders w !! id <> Some ch -> drop_sender id w !! ch = channels w !! ch.
Proof.
  intros Hne. unfold drop_sender. destruct (senders w !! id) as [ch0|]; [|done].
  apply list_lookup_insert_ne. congruence.
Qed.

Lemma length_drop_sender id w : length (drop_sender id w) = length (channels w).
Proof. unfold drop_sender. case_match; [apply length_insert|done]. Qed.

Lemma register_ok id w : waiters_ok w -> waiters_ok (register id w).2.
Proof.
  intros [Hw Hinj]. split; simpl.
  - intros j ch. rewrite lookup_insert_Some. intros [[<- <-]|[Hne Hj]].
    + rewrite lookup_app_r, length_drop_sender, Nat.sub_diag; [done|].
      by rewrite length_drop_sender.
    + pose proof (Hw _ _ Hj) as Hch. rewrite lookup_app_l.
      * rewrite drop_sender_ne; [done|]. intros Hid. by apply Hne, (Hinj id j ch).
      * rewrite length_drop_sender. by eapply lookup_lt_Some.
  - intros j1 j2 ch. rewrite !lookup_insert_Some.
    intros [[<- <-]|[Hn1 Hj1]] [[<- Heq]|[Hn2 Hj2]]; try done; [..|by eauto].
    + apply Hw, lookup_lt_Some in Hj2. lia.
    + subst ch. apply Hw, lookup_lt_Some in Hj1. lia.
Qed.

(** Taking the sender of [id] out of the map and finishing its channel. *)
Lemma take_sender_ok id w chs :
  waiters_ok w ->
  (forall ch, senders w !! id <> Some ch -> chs !! ch = channels w !! ch) ->
  waiters_ok {| senders := delete id (senders w); channels := chs |}.
Proof.
  intros [Hw Hinj] Hch. split; simpl.
  - intros j ch. rewrite lookup_delete_Some. intros [Hne Hj].
    rewrite Hch; [eauto|]. intros Hid. by apply Hne, (Hinj id j ch).
  - intros j1 j2 ch. rewrite !lookup_delete_Some. intros [_ H1] [_ H2]. eauto.
Qed.

Lemma respond_ok cid id resp w : waiters_ok w -> waiters_ok (respond cid id resp w).2.
Proof.
  intros Hw. unfold respond. destruct (senders w !! id) as [ch|] eqn:Hid; [|done].
  apply take_sender_ok; [done|]. intros ch' Hne. apply list_lookup_insert_ne. congruence.
Qed.

Lemma waiters_cancel_ok id w : waiters_ok w -> waiters_ok (waiters_cancel id w).
Proof. intros Hw. apply take_sender_ok; [done|]. apply drop_sender_ne. Qed.

#[export] Hint Resolve register_ok respond_ok waiters_cancel_ok : arclain.

(** * Properties *)

(** A response is delivered to the task that most
    recently registered for the operation and to no other; the slot is consumed,
    so a second response is a [Conflict] and changes nothing, and the wait slots
    stay well-formed throughout. *)
Theorem response_delivered_once cid cid' id resp resp' w :
  waiters_ok w ->
  let '(ch, w1) := register id w in
  let '(res, w2) := respond cid id resp w1 in
  res = Ok tt /\ channels w2 !! ch = Some (Delivered resp) /\
  (forall ch', ch' <> ch -> channels w2 !! ch' = channels w1 !! ch') /\
  respond cid' id resp' w2 = (Err (no_pending_challenge_error cid' id), w2) /\
  waiters_ok w2.
Proof.
  intros Hw. pose proof (register_ok id w Hw) as Hw1.
  pose proof (respond_ok cid id resp _ Hw1) as Hw2. revert Hw2.
  unfold respond at 1 2. simpl. rewrite lookup_insert_eq. simpl. intros Hw2.
  split; [done|]. split.
  { apply list_lookup_insert_eq. rewrite length_app, length_drop_sender. simpl. lia. }
  split; [intros ch' Hne; by rewrite list_lookup_insert_ne by congruence|].
  split; [|done]. unfold respond. simpl. by rewrite lookup_delete_eq.
Qed.

(** Answering a challenge shows nothing of the answer to
    the registry: two responses with the same id leave the same events and the
    same records whatever password they carry, and a response the registry
    rejects reaches no waiting task. *)
Theorem response_never_leaks {payloads : Payloads} id resp resp' r w :
  response_id resp = response_id resp' ->
  (respond_to_challenge id resp r w).2.1 = (respond_to_challenge id resp' r w).2.1 /\
  events (respond_to_challenge id resp r w).2.1 = events r /\
  ((resolve_challenge id (response_id resp) r).1 <> Ok tt ->
   (respond_to_challenge id resp r w).2.2 = w).
Proof.
  intros Hid. unfold respond_to_challenge. rewrite <-Hid.
  assert (events (resolve_challenge id (response_id resp) r).2 = events r) as He.
  { unfold resolve_challenge. destruct (records r !! id); [case_bool_decide|]; done. }
  destruct (resolve_challenge id (response_id resp) r) as [[[]|e] r1]; simpl in *.
  - unfold respond. destruct (senders w !! id); simpl; (split; [done|]); (split; [exact He|by intros []]).
  - by rewrite He.
Qed.

(** ** Witnesses *)

Lemma waiters_new_ok : waiters_ok waiters_new.
Proof. split; simpl; intros *; by rewrite lookup_empty. Qed.

Lemma response_delivered_once_witness :
  channels (respond 1 5 (PasswordResponse 7 §"hunter2") (register 5 waiters_new).2).2 !! 0%nat
    = Some (Delivered (PasswordResponse 7 §"hunter2")).
Proof.
  apply (response_delivered_once 1 2 5 (PasswordResponse 7 §"hunter2")
           (PasswordResponse 7 §"other") waiters_new waiters_new_ok).
Defined.

Lemma response_never_leaks_witness :
  events (respond_to_challenge 1 (PasswordResponse 7 §"hunter2") demo_registry
            (register 1 waiters_new).2).2.1 = events demo_registry.
Proof.
  apply (response_never_leaks (payloads := unit_payloads) 1 (PasswordResponse 7 §"hunter2")
           (PasswordResponse 7 §"other")). reflexivity.
Defined.
