(* ===== verification/RelPath.v ===== *)
(** Portable relative paths ([crates/core/src/utilities/checked_relative_path.rs])
    and the parts of [std::path::Path] (on Unix) the program uses.

    [CheckedRelativePath::new] is the boundary every path of an organization plan
    crosses before it meets the filesystem. *)

From stdpp Require Import base tactics option list gmap strings.
From Stdlib Require Import ZArith Lia Ascii.
From S2P Require Import Prelude Text.
Local Open Scope arclain_scope.

(** One constructor per [bail!] of [new] and [resolve_under]. *)
Inductive PathError :=
| EmptyPath
| NotRelative
| UnsafeComponent (component : str)
| NonPortableComponent (component : str)
| ReservedComponent (component : str)
| InspectFailed
| RootIsSymlink
| RootNotDirectory
| CanonicalizeFailed
| TraversesSymlink (at_path : list str)
| ParentNotDirectory (at_path : list str)
| EscapedRoot.

Definition non_portable_byte (c : ascii) : bool :=
  match c with
  | "<" | ">" | ":" | "\" | "034" | "|" | "?" | "*" => true
  | _ => false
  end%char.

Definition non_portable_char (ch : str) : bool :=
  char_is_control ch || match ch with [c] => non_portable_byte c | _ => false end.

(** The part of a component before its first dot, in ASCII upper case. *)
Definition component_stem (component : str) : str :=
  to_ascii_uppercase
    (match split_on (fun c => ascii_eqb c "."%char) component with
     | stem :: _ => stem
     | [] => component
     end).

(** [1] to [9] and the superscripts one, two and three. *)
Definition device_suffixes : list str :=
  [§"1"; §"2"; §"3"; §"4"; §"5"; §"6"; §"7"; §"8"; §"9";
   ["194"; "185"]; ["194"; "178"]; ["194"; "179"]]%char.

Definition reserved_stem (stem : str) : bool :=
  existsb (str_eqb stem) [§"CON"; §"PRN"; §"AUX"; §"NUL"]
  || match (match strip_prefix §"COM" stem with
            | Some rest => Some rest
            | None => strip_prefix §"LPT" stem
            end) with
     | Some suffix => existsb (str_eqb suffix) device_suffixes
     | None => false
     end.

(** The body of the loop over the components. *)
Definition check_component (component : str) : result PathError unit :=
  if str_eqb component [] || str_eqb component §"." || str_eqb component §".." then
    Err (UnsafeComponent component)
  else if ends_with component §"." || ends_with component §" "
          || existsb non_portable_char (chars component) then
    Err (NonPortableComponent component)
  else if reserved_stem (component_stem component) then
    Err (ReservedComponent component)
  else Ok tt.

Definition checked_components (normalized : str) : list str := split_on is_slash normalized.

(** [CheckedRelativePath::new]: the normalized path, or why it is refused. *)
Definition checked_relative_path (raw : str) : result PathError str :=
  if str_eqb raw [] then Err EmptyPath
  else
    let normalized := slashes raw in
    if starts_with normalized §"/" || contains_str normalized §"//" then Err NotRelative
    else
      let? _ := try_fold (fun _ c => check_component c) tt (checked_components normalized) in
      Ok normalized.

(** ** Resolution under a root

    What the filesystem answers is a parameter: the type of the object at a path
    (a list of components), or [None] for [NotFound], or an error. *)
Inductive FileType := FtDir | FtFile | FtSymlink | FtOther.

#[export] Instance FileType_eq_dec : EqDecision FileType.
Proof. solve_decision. Defined.

Record Filesystem := {
  symlink_metadata : list str -> result unit (option FileType);
  canonicalize : list str -> result unit (list str)
}.

(** The loop of [resolve_under]: [done] is the path resolved so far. *)
Fixpoint resolve_loop (fs : Filesystem) (done : list str) (components : list str)
  : result PathError (list str) :=
  match components with
  | [] => Ok done
  | c :: rest =>
      let resolved := done ++ [c] in
      match symlink_metadata fs resolved with
      | Ok (Some FtSymlink) => Err (TraversesSymlink resolved)
      | Ok (Some t) =>
          if negb (bool_decide (rest = [])) && negb (bool_decide (t = FtDir))
          then Err (ParentNotDirectory resolved)
          else resolve_loop fs resolved rest
      | Ok None => Ok (resolved ++ rest)
      | Err _ => Err InspectFailed
      end
  end.

Definition resolve_under (fs : Filesystem) (path : str) (root : list str)
  : result PathError (list str) :=
  match symlink_metadata fs root with
  | Err _ | Ok None => Err InspectFailed
  | Ok (Some FtSymlink) => Err RootIsSymlink
  | Ok (Some FtDir) =>
      match canonicalize fs root with
      | Err _ => Err CanonicalizeFailed
      | Ok canonical_root =>
          let? resolved := resolve_loop fs canonical_root (checked_components path) in
          if bool_decide (take (length canonical_root) resolved = canonical_root)
          then Ok resolved else Err EscapedRoot
      end
  | Ok (Some _) => Err RootNotDirectory
  end.

(** ** What a path means lexically *)

(** The meaning of a sequence of components applied to a directory: [.] and
    empty components stay, [..] goes up. *)
Definition lexical_step (dir : list str) (c : str) : list str :=
  if str_eqb c [] || str_eqb c §"." then dir
  else if str_eqb c §".." then removelast dir
  else dir ++ [c].

Definition lexical_resolve (dir : list str) (components : list str) : list str :=
  fold_left lexical_step components dir.

(** * Facts *)

Lemma try_fold_unit {E A} (f : A -> result E unit) l :
  try_fold (fun _ a => f a) tt l = Ok tt <-> Forall (fun a => f a = Ok tt) l.
Proof.
  induction l as [|a l IH]; simpl; [by split|].
  rewrite rbind_ok, Forall_cons, <-IH. split.
  - by intros ([] & ? & ?).
  - intros []. by exists tt.
Qed.

Lemma check_component_name c :
  check_component c = Ok tt -> c <> [] /\ c <> §"." /\ c <> §"..".
Proof.
  unfold check_component. intros H. simplify_result.
  apply orb_false_iff in Hg as [Hab Hc]. apply orb_false_iff in Hab as [Ha Hb].
  repeat split; intros ->; by rewrite str_eqb_refl in *.
Qed.

Lemma checked_relative_path_ok raw p :
  checked_relative_path raw = Ok p <->
  raw <> [] /\ p = slashes raw /\ starts_with p §"/" = false /\
  contains_str p §"//" = false /\
  Forall (fun c => check_component c = Ok tt) (checked_components p).
Proof.
  unfold checked_relative_path. split.
  - intros H. simplify_result. destruct r. apply try_fold_unit in Hr.
    apply orb_false_iff in Hg0 as [Ha Hb]. repeat split; auto.
    intros ->. by rewrite str_eqb_refl in Hg.
  - intros (Hne & -> & Ha & Hb & Hc). rewrite Ha, Hb. simpl.
    destruct (str_eqb raw []) eqn:E; [by apply str_eqb_eq in E|].
    apply try_fold_unit in Hc. by rewrite Hc.
Qed.

Lemma lexical_resolve_plain dir cs :
  Forall (fun c => c <> [] /\ c <> §"." /\ c <> §"..") cs ->
  lexical_resolve dir cs = dir ++ cs.
Proof.
  unfold lexical_resolve. intros H; revert dir.
  induction H as [|c cs (H1 & H2 & H3) _ IH]; intros dir; simpl; [by rewrite app_nil_r|].
  rewrite IH. unfold lexical_step.
  destruct (str_eqb c []) eqn:E1; [by apply str_eqb_eq in E1|].
  destruct (str_eqb c §".") eqn:E2; [by apply str_eqb_eq in E2|].
  destruct (str_eqb c §"..") eqn:E3; [by apply str_eqb_eq in E3|].
  simpl. by rewrite <-app_assoc.
Qed.

(** A walk from [dir] along [cs] that meets no symbolic link, enters only
    directories, and stops looking at the first component that does not exist. *)
Inductive safe_walk (fs : Filesystem) : list str -> list str -> Prop :=
| walk_done dir : safe_walk fs dir []
| walk_missing dir c rest :
    symlink_metadata fs (dir ++ [c]) = Ok None -> safe_walk fs dir (c :: rest)
| walk_enter dir c rest t :
    symlink_metadata fs (dir ++ [c]) = Ok (Some t) -> t <> FtSymlink ->
    (rest <> [] -> t = FtDir) -> safe_walk fs (dir ++ [c]) rest ->
    safe_walk fs dir (c :: rest).

Lemma resolve_loop_spec fs dir cs p :
  resolve_loop fs dir cs = Ok p <-> p = dir ++ cs /\ safe_walk fs dir cs.
Proof.
  revert dir p; induction cs as [|c rest IH]; intros dir p; simpl.
  - rewrite app_nil_r. split; [intros [= <-]; split; [done|constructor]|by intros [-> _]].
  - assert (dir ++ c :: rest = (dir ++ [c]) ++ rest) as Happ by by rewrite <-app_assoc.
    destruct (symlink_metadata fs (dir ++ [c])) as [[t|]|e] eqn:Hm.
    + assert ((if negb (bool_decide (rest = [])) && negb (bool_decide (t = FtDir))
               then Err (ParentNotDirectory (dir ++ [c]))
               else resolve_loop fs (dir ++ [c]) rest) = Ok p <->
              p = dir ++ c :: rest /\ (rest <> [] -> t = FtDir) /\
              safe_walk fs (dir ++ [c]) rest) as Hgo.
      { rewrite Happ. pose proof (IH (dir ++ [c]) p) as Hi.
        repeat case_bool_decide; simpl; naive_solver. }
      destruct t; try (split; [|intros [_ Hw]; inversion Hw; congruence]; done);
        (rewrite Hgo; split;
         [intros (-> & Hd & Hw); split; [done|by eapply walk_enter]
         |intros [-> Hw]; inversion Hw; subst; [congruence|];
          match goal with H : symlink_metadata _ _ = Ok (Some ?u) |- _ =>
            rewrite Hm in H; injection H as <- end; done]).
    + rewrite <-app_assoc. simpl. split; [intros [= <-]; split; [done|by constructor]|].
      by intros [-> _].
    + split; [done|]. intros [_ Hw]. inversion Hw; congruence.
Qed.

(** * Properties *)

(** A path [CheckedRelativePath::new] accepts cannot
    lexically leave the directory it is joined to: resolving it from any
    directory yields that directory followed by exactly its components, at least
    one of them; and accepting it again changes nothing. *)
Theorem checked_path_contained raw p dir :
  checked_relative_path raw = Ok p ->
  lexical_resolve dir (checked_components p) = dir ++ checked_components p /\
  checked_components p <> [] /\
  join §"/" (checked_components p) = p /\
  checked_relative_path p = Ok p.
Proof.
  intros H. apply checked_relative_path_ok in H as (Hne & -> & Ha & Hb & Hc).
  split; [|split; [apply split_on_not_nil|split; [apply join_split|]]].
  - apply lexical_resolve_plain. eapply Forall_impl; [exact Hc|]. apply check_component_name.
  - apply checked_relative_path_ok. rewrite slashes_idemp. repeat split; auto.
    destruct raw; [done|by simpl].
Qed.

(** [resolve_under] returns a path exactly when the root
    is a directory with a canonical form and the walk along the checked
    components from there meets no symbolic link and enters only directories; the
    path it returns is the canonical root followed by those components, so the
    final containment check never fires. *)
Theorem resolve_under_spec fs path root p :
  resolve_under fs path root = Ok p <->
  exists canonical_root,
    symlink_metadata fs root = Ok (Some FtDir) /\
    canonicalize fs root = Ok canonical_root /\
    p = canonical_root ++ checked_components path /\
    safe_walk fs canonical_root (checked_components path).
Proof.
  unfold resolve_under. split.
  - intros H. destruct (symlink_metadata fs root) as [[[]|]|e]; try done.
    destruct (canonicalize fs root) as [cr|e]; [|done]. simplify_result.
    apply resolve_loop_spec in Hr as [-> Hw]. by exists cr.
  - intros (cr & Hm & Hc & -> & Hw). rewrite Hm, Hc.
    assert (resolve_loop fs cr (checked_components path) = Ok (cr ++ checked_components path))
      as -> by by apply resolve_loop_spec.
    simpl. by rewrite take_app_length, bool_decide_eq_true_2.
Qed.

(** ** Witnesses *)

Lemma checked_path_contained_witness :
  lexical_resolve [§"srv"] (checked_components §"Game/data/file.bin")
    = [§"srv"; §"Game"; §"data"; §"file.bin"].
Proof.
  apply (checked_path_contained §"Game\data\file.bin"). reflexivity.
Defined.

Example rejects_superscript_device :
  checked_relative_path (§"com" ++ ["194"%char; "178"%char] ++ §".txt")
    = Err (ReservedComponent (§"com" ++ ["194"%char; "178"%char] ++ §".txt")).
Proof. reflexivity. Qed.
