(* ===== verification/Archive.v ===== *)
(** Archive metadata ([crates/core/src/archive/info.rs]). *)

From stdpp Require Import base tactics option list.
From Stdlib Require Import ZArith Ascii.
From S2P Require Import Prelude Text.

(** One entry of an archive listing. *)
Record ArchiveEntry := {
  path : str;
  size : Z;
  packed_size : Z;
  modified : option str;
  is_dir : bool;
  encrypted : bool;
  crc32 : option str
}.

#[export] Instance ArchiveEntry_eq_dec : EqDecision ArchiveEntry.
Proof. solve_decision. Defined.

(** A plain file entry, for the examples. *)
Definition file_entry (p : str) (n : Z) : ArchiveEntry :=
  {| path := p; size := n; packed_size := n; modified := None; is_dir := false;
     encrypted := false; crc32 := None |}.

Definition dir_entry (p : str) : ArchiveEntry :=
  {| path := p; size := 0; packed_size := 0; modified := None; is_dir := true;
     encrypted := false; crc32 := None |}.
