(* ===== verification/PathTree.v ===== *)
(** The path tree behind [prune_entries]
    ([crates/core/src/features/organization/engine/tree.rs] and
    [engine/plan_builder.rs]): the listing of an archive becomes a tree of path
    components, zero-byte files and empty directories are removed bottom up, and
    the rest is flattened in a deterministic order. *)

From stdpp Require Import base tactics option list sorting sets strings.
From Stdlib Require Import ZArith Lia Ascii.
From S2P Require Import Prelude Text Archive.

(** The children are a [HashMap]: an association list whose keys are distinct
    (part of [wf]); its order never shows. *)
Inductive TreeNode :=
  Node (entry : option ArchiveEntry) (children : list (str * TreeNode)) (node_is_dir : bool).

Definition node_entry (t : TreeNode) : option ArchiveEntry := let 'Node e _ _ := t in e.
Definition children (t : TreeNode) : list (str * TreeNode) := let 'Node _ cs _ := t in cs.
Definition node_is_dir (t : TreeNode) : bool := let 'Node _ _ d := t in d.

Definition new_node (is_dir : bool) : TreeNode := Node None [] is_dir.

(** The components of a path, on either separator, without the empty ones. *)
Definition parts (p : str) : list str :=
  List.filter (fun s => negb (str_eqb s [])) (split_on is_separator p).

Fixpoint lookup_child (name : str) (cs : list (str * TreeNode)) : option TreeNode :=
  match cs with
  | [] => None
  | (n, t) :: cs' => if str_eqb n name then Some t else lookup_child name cs'
  end.

Fixpoint set_child (name : str) (t : TreeNode) (cs : list (str * TreeNode))
  : list (str * TreeNode) :=
  match cs with
  | [] => [(name, t)]
  | (n, u) :: cs' => if str_eqb n name then (n, t) :: cs' else (n, u) :: set_child name t cs'
  end.

Fixpoint insert_recursive (ps : list str) (entry : ArchiveEntry) (self : TreeNode) : TreeNode :=
  match ps with
  | [] => Node (Some entry) (children self) (is_dir entry)
  | name :: rest =>
      let child := default (new_node true) (lookup_child name (children self)) in
      Node (node_entry self)
           (set_child name (insert_recursive rest entry child) (children self))
           (node_is_dir self)
  end.

Definition insert_path (self : TreeNode) (p : str) (entry : ArchiveEntry) : TreeNode :=
  insert_recursive (parts p) entry self.

(** Whether the node is kept, and the node with its children pruned. *)
Fixpoint prune (self : TreeNode) : bool * TreeNode :=
  let 'Node entry cs d := self in
  let cs' := flat_map (fun nc => let '(name, child) := nc in
                        let '(keep, child') := prune child in
                        if keep then [(name, child')] else []) cs in
  let keep :=
    if negb d then
      match entry with
      | Some e => negb (size e =? 0)%Z
      | None => true
      end
    else match cs' with [] => false | _ => true end in
  (keep, Node entry cs' d).

Definition name_le {A} (a b : str * A) : Prop := str_le a.1 b.1.

#[export] Instance name_le_dec {A} : RelDecision (@name_le A).
Proof. intros a b. unfold name_le. apply _. Defined.

Fixpoint flatten (self : TreeNode) : list ArchiveEntry :=
  let 'Node entry cs _ := self in
  match entry with
  | Some e => if is_dir e then [] else [e]
  | None => []
  end
  ++ concat (map snd (merge_sort name_le
       (map (fun nc => let '(name, child) := nc in (name, flatten child)) cs))).

Definition build_tree (entries : list ArchiveEntry) : TreeNode :=
  fold_left (fun root entry => insert_path root (path entry) entry) entries (new_node true).

Definition prune_entries (entries : list ArchiveEntry) : list ArchiveEntry :=
  flatten (prune (build_tree entries)).2.

(** * What a tree denotes *)

Fixpoint entry_at (t : TreeNode) (ps : list str) : option ArchiveEntry :=
  match ps with
  | [] => node_entry t
  | c :: ps' => match lookup_child c (children t) with
                | Some t' => entry_at t' ps'
                | None => None
                end
  end.

(** The entry a listing leaves at a sequence of components: the last one. *)
Definition last_at (entries : list ArchiveEntry) (ps : list str) : option ArchiveEntry :=
  last (List.filter (fun e => bool_decide (parts (path e) = ps)) entries).

Definition is_zero_file (o : option ArchiveEntry) : bool :=
  match o with
  | Some e => negb (is_dir e) && (size e =? 0)%Z
  | None => false
  end.

(** The order of the components, a directory before its content. *)
Fixpoint parts_lt (a b : list str) : Prop :=
  match a, b with
  | [], [] => False
  | [], _ :: _ => True
  | _ :: _, [] => False
  | x :: a', y :: b' => (str_le x y /\ x <> y) \/ (x = y /\ parts_lt a' b')
  end.

(** The keys of every node are distinct, and a node is a file only by its entry. *)
Fixpoint wf (t : TreeNode) : Prop :=
  let 'Node entry cs d := t in
  NoDup (map fst cs)
  /\ d = match entry with Some e => is_dir e | None => true end
  /\ (fix all (cs : list (str * TreeNode)) : Prop :=
        match cs with [] => True | (_, c) :: cs' => wf c /\ all cs' end) cs.

(** [flatten] with the components each entry was reached by. *)
Fixpoint flatten_lab (self : TreeNode) : list (list str * ArchiveEntry) :=
  let 'Node entry cs _ := self in
  match entry with
  | Some e => if is_dir e then [] else [([], e)]
  | None => []
  end
  ++ concat (map (fun nl => map (fun pe => (nl.1 :: pe.1, pe.2)) nl.2)
       (merge_sort name_le (map (fun nc => let '(name, child) := nc in (name, flatten_lab child)) cs))).

(** * Facts about the tree *)

Lemma TreeNode_rect' (P : TreeNode -> Prop) :
  (forall e cs d, Forall (fun nc => P nc.2) cs -> P (Node e cs d)) -> forall t, P t.
Proof.
  intros H. fix IH 1. intros [e cs d]. apply H.
  induction cs as [|[n c] cs IHcs]; constructor; [apply IH|apply IHcs].
Qed.

Lemma wf_node e cs d :
  wf (Node e cs d) <->
  NoDup (map fst cs) /\ d = match e with Some e => is_dir e | None => true end /\
  Forall (fun nc => wf nc.2) cs.
Proof.
  simpl. do 2 apply and_iff_compat_l. induction cs as [|[n c] cs IH]; simpl; [by split|].
  by rewrite Forall_cons, IH.
Qed.

Lemma lookup_child_elem name cs t :
  NoDup (map fst cs) -> lookup_child name cs = Some t <-> (name, t) ∈ cs.
Proof.
  induction cs as [|[n u] cs IH]; simpl; intros Hnd; [by rewrite elem_of_nil|].
  apply NoDup_cons in Hnd as [Hn Hnd]. rewrite elem_of_cons.
  destruct (str_eqb n name) eqn:E.
  - apply str_eqb_eq in E as ->. split; [naive_solver|].
    intros [[= ->]|Hin]; [done|]. destruct Hn. apply list_elem_of_fmap. by exists (name, t).
  - rewrite IH by done. split; [naive_solver|]. intros [[= -> ->]|]; [|done].
    by rewrite str_eqb_refl in E.
Qed.

Lemma set_child_keys name t cs :
  map fst (set_child name t cs)
  = map fst cs ++ (if lookup_child name cs then [] else [name]).
Proof.
  induction cs as [|[n u] cs IH]; simpl; [done|].
  destruct (str_eqb n name); simpl; [by rewrite app_nil_r|by rewrite IH].
Qed.

Lemma lookup_set_child name t cs n :
  lookup_child n (set_child name t cs) = if str_eqb name n then Some t else lookup_child n cs.
Proof.
  induction cs as [|[m u] cs IH]; simpl; [done|].
  destruct (str_eqb m name) eqn:Em; simpl.
  - apply str_eqb_eq in Em as ->. by destruct (str_eqb name n).
  - rewrite IH. destruct (str_eqb m n) eqn:En; [|done]. apply str_eqb_eq in En as ->.
    destruct (str_eqb name n) eqn:E; [|done]. apply str_eqb_eq in E as ->.
    by rewrite str_eqb_refl in Em.
Qed.

Lemma lookup_child_none name cs : lookup_child name cs = None <-> name ∉ map fst cs.
Proof.
  induction cs as [|[n u] cs IH]; simpl; [split; [by intros _ H%elem_of_nil|done]|].
  rewrite not_elem_of_cons. destruct (str_eqb n name) eqn:E.
  - apply str_eqb_eq in E as ->. naive_solver.
  - rewrite IH. split; [|naive_solver]. split; [|done]. intros ->. by rewrite str_eqb_refl in E.
Qed.

Lemma set_child_Forall (P : TreeNode -> Prop) name t cs :
  P t -> Forall (fun nc => P nc.2) cs -> Forall (fun nc => P nc.2) (set_child name t cs).
Proof.
  intros Ht. induction 1 as [|[n u] cs Hu Hcs IH]; simpl; [by repeat constructor|].
  destruct (str_eqb n name); by constructor.
Qed.

Lemma wf_children t c cs : wf t -> lookup_child c (children t) = Some cs -> wf cs.
Proof.
  destruct t as [e l d]. rewrite wf_node. intros (Hnd & _ & Hall) H. simpl in H.
  apply lookup_child_elem in H; [|done]. rewrite Forall_forall in Hall. by apply Hall in H.
Qed.

Lemma wf_new_node : wf (new_node true).
Proof. apply wf_node. split; [constructor|done]. Qed.

Lemma insert_recursive_wf ps e t : wf t -> wf (insert_recursive ps e t).
Proof.
  revert t; induction ps as [|c ps IH]; intros [e0 cs d] Hwf;
    pose proof Hwf as Hw; rewrite wf_node in Hw; destruct Hw as (Hnd & Hd & Hall);
    cbn [insert_recursive children node_entry node_is_dir]; rewrite wf_node; [done|].
  split; [|split; [done|]].
  - rewrite set_child_keys. apply NoDup_app. split; [done|].
    destruct (lookup_child c cs) eqn:E; [split; [set_solver|constructor]|].
    apply lookup_child_none in E. split; [set_solver|apply NoDup_singleton].
  - apply set_child_Forall; [|done]. apply IH.
    destruct (lookup_child c cs) eqn:E; simpl; [|apply wf_new_node].
    by eapply (wf_children (Node e0 cs d)).
Qed.

Lemma entry_at_insert ps e t qs :
  entry_at (insert_recursive ps e t) qs = if bool_decide (ps = qs) then Some e else entry_at t qs.
Proof.
  revert t qs; induction ps as [|c ps IH]; intros t [|q qs]; try done.
  simpl. rewrite lookup_set_child. destruct (str_eqb c q) eqn:E.
  - apply str_eqb_eq in E as ->. rewrite IH.
    destruct (bool_decide_reflect (ps = qs)) as [->|Hne]; [by rewrite bool_decide_eq_true_2|].
    rewrite bool_decide_eq_false_2 by congruence.
    destruct (lookup_child q (children t)); simpl; [done|]. by destruct qs.
  - rewrite bool_decide_eq_false_2; [done|]. intros [= -> ->]. by rewrite str_eqb_refl in E.
Qed.

Lemma build_tree_snoc es e :
  build_tree (es ++ [e]) = insert_path (build_tree es) (path e) e.
Proof. unfold build_tree. by rewrite fold_left_app. Qed.

Lemma build_tree_wf es : wf (build_tree es).
Proof.
  induction es as [|e es IH] using rev_ind; [apply wf_new_node|].
  rewrite build_tree_snoc. by apply insert_recursive_wf.
Qed.

Lemma entry_at_build es ps : entry_at (build_tree es) ps = last_at es ps.
Proof.
  induction es as [|e es IH] using rev_ind; [by destruct ps|].
  rewrite build_tree_snoc. unfold insert_path. rewrite entry_at_insert, IH.
  unfold last_at. rewrite List.filter_app. simpl.
  destruct (bool_decide (parts (path e) = ps)); [by rewrite last_snoc|by rewrite app_nil_r].
Qed.

Definition prune_children (cs : list (str * TreeNode)) : list (str * TreeNode) :=
  flat_map (fun nc => if (prune nc.2).1 then [(nc.1, (prune nc.2).2)] else []) cs.

Lemma prune_node e cs d :
  prune (Node e cs d) =
  (if negb d then match e with Some e => negb (size e =? 0)%Z | None => true end
   else match prune_children cs with [] => false | _ => true end,
   Node e (prune_children cs) d).
Proof.
  simpl.
  assert (flat_map (fun nc => let '(name, child) := nc in
            let '(keep, child') := prune child in if keep then [(name, child')] else []) cs
          = prune_children cs) as ->; [|done].
  apply flat_map_ext. intros [n c]. simpl. by destruct (prune c).
Qed.

Lemma prune_children_elem cs n t :
  (n, t) ∈ prune_children cs <->
  exists c, (n, c) ∈ cs /\ (prune c).1 = true /\ t = (prune c).2.
Proof.
  induction cs as [|[m u] cs IH]; simpl.
  { split; [by intros H%elem_of_nil|by intros (? & H%elem_of_nil & _)]. }
  rewrite elem_of_app, IH. setoid_rewrite elem_of_cons. simpl.
  destruct (prune u).1 eqn:E; split.
  - rewrite list_elem_of_singleton. intros [[= -> ->]|]; naive_solver.
  - rewrite list_elem_of_singleton. intros (c & [[= -> ->]|] & ? & ->); naive_solver.
  - intros [H|]; [by apply elem_of_nil in H|naive_solver].
  - intros (c & [[= -> ->]|] & ? & ->); [congruence|]. right. eauto.
Qed.

Lemma prune_children_nodup cs : NoDup (map fst cs) -> NoDup (map fst (prune_children cs)).
Proof.
  induction cs as [|[m u] cs IH]; simpl; [done|]. rewrite NoDup_cons, map_app.
  intros [Hm Hnd]. destruct (prune u).1; simpl; [|auto].
  constructor; [|auto]. intros ([n t] & -> & Hin)%list_elem_of_fmap.
  apply prune_children_elem in Hin as (c & Hin & _). destruct Hm.
  apply list_elem_of_fmap. by exists (n, c).
Qed.

Lemma prune_wf t : wf t -> wf (prune t).2.
Proof.
  induction t as [e cs d IH] using TreeNode_rect'. rewrite prune_node.
  cbn [snd]. rewrite !wf_node. intros (Hnd & Hd & Hall). split; [by apply prune_children_nodup|split; [done|]].
  apply Forall_forall. intros [n t] (c & Hin & _ & ->)%prune_children_elem.
  rewrite Forall_forall in IH, Hall. by apply (IH (n, c) Hin), (Hall (n, c)).
Qed.

(** Whether a proper descendant of the path is reached through no zero-byte file. *)
Definition unblocked (at_ : list str -> option ArchiveEntry) (ps : list str) : Prop :=
  forall q r, ps = q ++ r -> q <> [] -> is_zero_file (at_ q) = false.

Lemma unblocked_cons at_ c ps :
  unblocked at_ (c :: ps) <->
  is_zero_file (at_ [c]) = false /\ unblocked (fun q => at_ (c :: q)) ps.
Proof.
  split.
  - intros H. split; [by apply (H [c] ps)|]. intros q r -> _. by apply (H (c :: q) r).
  - intros [H1 H2] [|q0 q] r Heq Hne; [done|]. simplify_eq/=.
    destruct q as [|q1 q]; [done|]. by apply (H2 (q1 :: q) r).
Qed.

Lemma prune_lookup t c :
  wf t -> lookup_child c (children (prune t).2) =
  match lookup_child c (children t) with
  | Some t' => if (prune t').1 then Some (prune t').2 else None
  | None => None
  end.
Proof.
  destruct t as [e cs d]. rewrite prune_node, wf_node. intros (Hnd & _ & _). simpl.
  apply option_eq. intros t.
  rewrite lookup_child_elem, prune_children_elem by by apply prune_children_nodup.
  setoid_rewrite <-(lookup_child_elem _ _ _ Hnd).
  destruct (lookup_child c cs) as [t'|]; [|by split; [intros (? & ? & _)|]].
  destruct (prune t').1 eqn:E; (split; [intros (c' & [= <-] & Hk & ->)|intros [= <-]]).
  - done.
  - eauto.
  - congruence.
Qed.

Lemma prune_keep_spec t :
  wf t -> (prune t).1 = true <->
  match node_entry t with
  | Some e => if is_dir e then children (prune t).2 <> [] else is_zero_file (Some e) = false
  | None => children (prune t).2 <> []
  end.
Proof.
  destruct t as [e cs d]. rewrite prune_node, wf_node. intros (_ & -> & _). simpl.
  destruct e as [e|]; simpl; [destruct (is_dir e); simpl|].
  - destruct (prune_children cs); naive_solver.
  - by rewrite negb_true_iff.
  - destruct (prune_children cs); naive_solver.
Qed.

(** What pruning leaves: the entry of a file is still there exactly when no
    node on the way to it, itself included, is a zero-byte file. *)
Lemma entry_at_prune t ps e :
  wf t -> is_dir e = false ->
  entry_at (prune t).2 ps = Some e <-> entry_at t ps = Some e /\ unblocked (entry_at t) ps.
Proof.
  intros Hwf He. revert t Hwf. induction ps as [|c ps IH]; intros t Hwf.
  - destruct t as [e0 cs d]. rewrite prune_node. simpl. split; [|naive_solver].
    intros ->. split; [done|]. by intros [|??] r Hq Hne.
  - rewrite unblocked_cons. cbn [entry_at]. rewrite prune_lookup by done.
    destruct (lookup_child c (children t)) as [t'|] eqn:Hc; [|naive_solver].
    pose proof (wf_children _ _ _ Hwf Hc) as Hwf'. pose proof (IH t' Hwf') as IH'.
    pose proof (prune_keep_spec t' Hwf') as Hk.
    destruct (prune t').1 eqn:Hkeep.
    + rewrite IH'. destruct Hk as [Hk _]. specialize (Hk eq_refl).
      assert (is_zero_file (node_entry t') = false).
      { destruct (node_entry t') as [e'|]; [|done]. simpl in *. by destruct (is_dir e'). }
      naive_solver.
    + split; [done|]. intros (Hat & Hz & Hu). destruct Hk as [_ Hk].
      assert (entry_at (prune t').2 ps = Some e) as Hp by by apply IH'.
      enough (false = true) by done. apply Hk.
      destruct ps as [|c2 ps]; [by simpl in Hat; rewrite Hat, He in *|].
      assert (children (prune t').2 <> []) by by intros E; simpl in Hp; rewrite E in Hp.
      destruct (node_entry t') as [e'|]; [|done]. by destruct (is_dir e').
Qed.

(** ** Flattening *)

Definition label (nl : str * list (list str * ArchiveEntry)) : list (list str * ArchiveEntry) :=
  map (fun pe => (nl.1 :: pe.1, pe.2)) nl.2.

Definition sorted_children (cs : list (str * TreeNode)) : list (str * TreeNode) :=
  merge_sort name_le cs.

Definition own_entry (e : option ArchiveEntry) : list ArchiveEntry :=
  match e with Some e => if is_dir e then [] else [e] | None => [] end.

Lemma flatten_node e cs d :
  flatten (Node e cs d) =
  own_entry e ++ concat (map (fun nc => flatten nc.2) (sorted_children cs)).
Proof.
  simpl. f_equal. rewrite (map_ext _ (fun nc => (nc.1, flatten nc.2))) by by intros [].
  rewrite (merge_sort_map name_le name_le); [|done].
  by rewrite map_map.
Qed.

Lemma flatten_lab_node e cs d :
  flatten_lab (Node e cs d) =
  map (pair []) (own_entry e)
  ++ concat (map (fun nc => label (nc.1, flatten_lab nc.2)) (sorted_children cs)).
Proof.
  simpl. f_equal; [destruct e as [e|]; simpl; [by destruct (is_dir e)|done]|].
  rewrite (map_ext (fun nc : str * TreeNode => let '(name, child) := nc in (name, flatten_lab child))
             (fun nc => (nc.1, flatten_lab nc.2))) by by intros [].
  rewrite (merge_sort_map name_le name_le); [|done].
  by rewrite map_map.
Qed.

Lemma flatten_labels t : map snd (flatten_lab t) = flatten t.
Proof.
  induction t as [e cs d IH] using TreeNode_rect'. rewrite flatten_node, flatten_lab_node.
  rewrite map_app, map_map. f_equal; [apply map_id|].
  rewrite concat_map, map_map. f_equal. apply map_ext_in. intros [n c] Hin.
  apply list_elem_of_In in Hin. unfold sorted_children in Hin. apply merge_sort_elem in Hin.
  rewrite Forall_forall in IH. unfold label. simpl. rewrite map_map. simpl.
  by apply (IH (n, c)).
Qed.

Lemma elem_of_flatten_lab t ps e :
  wf t -> (ps, e) ∈ flatten_lab t <-> entry_at t ps = Some e /\ is_dir e = false.
Proof.
  revert ps. induction t as [e0 cs d IH] using TreeNode_rect'. intros ps.
  rewrite wf_node. intros (Hnd & _ & Hwf). rewrite flatten_lab_node, elem_of_app.
  rewrite Forall_forall in IH, Hwf.
  assert ((ps, e) ∈ concat (map (fun nc => label (nc.1, flatten_lab nc.2)) (sorted_children cs)) <->
          exists n qs c, ps = n :: qs /\ (n, c) ∈ cs /\ entry_at c qs = Some e /\ is_dir e = false) as ->.
  { rewrite list_elem_of_In, in_concat. split.
    - intros (l & Hl & Hin). apply in_map_iff in Hl as ([n c] & <- & Hc).
      apply in_map_iff in Hin as ([qs e'] & [= <- <-] & Hin). simpl in *.
      apply list_elem_of_In in Hc, Hin. unfold sorted_children in Hc.
      apply merge_sort_elem in Hc. exists n, qs, c.
      apply (IH (n, c) Hc qs) in Hin; [done|by apply (Hwf (n, c))].
    - intros (n & qs & c & -> & Hc & Hat). exists (label (n, flatten_lab c)).
      split; [apply in_map_iff; exists (n, c); split; [done|]|].
      + apply list_elem_of_In, merge_sort_elem. done.
      + apply in_map_iff. exists (qs, e). split; [done|]. apply list_elem_of_In.
        apply (IH (n, c) Hc qs); [by apply (Hwf (n, c))|done]. }
  assert ((ps, e) ∈ map (pair []) (own_entry e0) <-> ps = [] /\ e0 = Some e /\ is_dir e = false) as ->.
  { rewrite list_elem_of_In, in_map_iff. destruct e0 as [e0|]; simpl.
    - destruct (is_dir e0) eqn:E; simpl; split; try naive_solver.
      intros (-> & [= ->] & ?); congruence.
    - naive_solver. }
  destruct ps as [|c ps]; simpl.
  - split; [intros [(_ & -> & ?)|(? & ? & ? & ? & _)]; done|]. intros [-> ?]. by left.
  - split.
    + intros [(? & _)|(n & qs & t & [= <- <-] & Hin & Hat)]; [done|].
      apply lookup_child_elem in Hin as ->; done.
    + intros [Hat He]. right. destruct (lookup_child c cs) as [t|] eqn:E; [|done].
      apply lookup_child_elem in E; [|done]. eauto 7.
Qed.

Definition lab_lt (a b : list str * ArchiveEntry) : Prop := parts_lt a.1 b.1.

Lemma StronglySorted_concat {A} (R : relation A) (ls : list (list A)) :
  Forall (StronglySorted R) ls ->
  StronglySorted (fun l1 l2 => Forall (fun x => Forall (R x) l2) l1) ls ->
  StronglySorted R (concat ls).
Proof.
  induction 1 as [|l ls Hl Hls IH]; intros Hss; simpl; [constructor|].
  inversion Hss as [|? ? Hss' Hall]; subst. apply StronglySorted_app. split; [|auto].
  intros x y Hx Hy. apply list_elem_of_In, in_concat in Hy as (l2 & Hl2 & Hy).
  apply list_elem_of_In in Hl2, Hy. rewrite Forall_forall in Hall.
  specialize (Hall _ Hl2). rewrite Forall_forall in Hall. specialize (Hall _ Hx).
  rewrite Forall_forall in Hall. auto.
Qed.

Lemma label_sorted n l : StronglySorted lab_lt l -> StronglySorted lab_lt (label (n, l)).
Proof.
  unfold label. simpl. induction 1 as [|a l Hl IH Ha]; simpl; constructor; [done|].
  apply Forall_map. eapply Forall_impl; [exact Ha|]. intros b Hb. right. done.
Qed.

Lemma sorted_children_strict cs :
  NoDup (map fst cs) ->
  StronglySorted (fun a b => str_le a.1 b.1 /\ a.1 <> b.1) (sorted_children cs).
Proof.
  intros Hnd. unfold sorted_children.
  assert (NoDup (map fst (merge_sort name_le cs))) as Hnd'.
  { by rewrite (merge_sort_Permutation name_le cs). }
  assert (StronglySorted name_le (merge_sort name_le cs)) as Hs.
  { apply StronglySorted_merge_sort; [|].
    - intros a b c. unfold name_le. apply transitivity.
    - intros a b. apply (total str_le). }
  induction Hs as [|a l Hs IH Ha]; [constructor|]. simpl in Hnd'.
  apply NoDup_cons in Hnd' as [Hn Hnd']. constructor; [auto|].
  rewrite Forall_forall in Ha |- *. intros b Hb. split; [by apply Ha|].
  intros E. destruct Hn. rewrite E. apply list_elem_of_fmap. eauto.
Qed.

Lemma flatten_lab_sorted t : wf t -> StronglySorted lab_lt (flatten_lab t).
Proof.
  induction t as [e cs d IH] using TreeNode_rect'. rewrite wf_node.
  intros (Hnd & _ & Hwf). rewrite flatten_lab_node. rewrite Forall_forall in IH, Hwf.
  apply StronglySorted_app. split; [|split].
  - intros x y Hx Hy. apply list_elem_of_fmap in Hx as (e' & -> & _).
    apply list_elem_of_In, in_concat in Hy as (l & Hl & Hy).
    apply in_map_iff in Hl as (nc & <- & _). by apply in_map_iff in Hy as (pe & <- & _).
  - destruct e as [e|]; simpl; [destruct (is_dir e)|]; repeat constructor.
  - apply StronglySorted_concat.
    + apply Forall_map, Forall_forall. intros [n c] Hin. apply merge_sort_elem in Hin.
      by apply label_sorted, (IH (n, c)), (Hwf (n, c)).
    + apply sorted_children_strict in Hnd. induction Hnd as [|a l _ IHl Ha]; simpl; [constructor|].
      constructor; [done|]. apply Forall_map. eapply Forall_impl; [exact Ha|].
      intros b Hab. apply Forall_map, Forall_true. intros x. apply Forall_map, Forall_true.
      intros y. by left.
Qed.

Lemma unblocked_ext f g ps : (forall q, f q = g q) -> unblocked f ps <-> unblocked g ps.
Proof. intros H. split; intros Hu q r Hq Hne; [rewrite <-H|rewrite H]; eauto. Qed.

Lemma last_at_parts es ps e : last_at es ps = Some e -> parts (path e) = ps /\ e ∈ es.
Proof.
  unfold last_at. intros H. apply last_Some_elem_of, list_elem_of_In, filter_In in H as [Hin H].
  by rewrite bool_decide_eq_true in H; rewrite list_elem_of_In.
Qed.

Lemma elem_of_pruned entries ps e :
  (ps, e) ∈ flatten_lab (prune (build_tree entries)).2 <->
  last_at entries ps = Some e /\ is_dir e = false /\ unblocked (last_at entries) ps.
Proof.
  rewrite elem_of_flatten_lab by apply prune_wf, build_tree_wf.
  rewrite <-(unblocked_ext (entry_at (build_tree entries)) (last_at entries)) by apply entry_at_build.
  rewrite <-entry_at_build. split; intros H; decompose [and] H.
  - apply entry_at_prune in H0; [naive_solver|apply build_tree_wf|done].
  - split; [|done]. by apply entry_at_prune; [apply build_tree_wf| |].
Qed.

Lemma prune_entries_inv entries :
  (forall e, e ∈ prune_entries entries <->
     last_at entries (parts (path e)) = Some e /\ is_dir e = false /\
     unblocked (last_at entries) (parts (path e))) /\
  StronglySorted parts_lt (map (fun e => parts (path e)) (prune_entries entries)).
Proof.
  unfold prune_entries. rewrite <-flatten_labels. set (l := flatten_lab _).
  assert (forall ps e, (ps, e) ∈ l -> parts (path e) = ps) as Hlab.
  { intros ps e Hin. apply elem_of_pruned in Hin as [Hin _]. by apply last_at_parts in Hin as [-> _]. }
  split.
  - intros e. rewrite <-elem_of_pruned. fold l. rewrite list_elem_of_fmap. split.
    + intros ([ps e'] & -> & Hin). simpl. by rewrite (Hlab _ _ Hin).
    + intros Hin. by exists (parts (path e), e).
  - assert (StronglySorted lab_lt l) as Hs by apply flatten_lab_sorted, prune_wf, build_tree_wf.
    rewrite map_map.
    rewrite (map_ext_in _ fst) by (intros [ps e] Hin; apply Hlab; by apply list_elem_of_In).
    clear Hlab. induction Hs as [|a l' Hs IH Ha]; simpl; constructor; [done|].
    by apply Forall_map.
Qed.

(** * Properties *)

(** [prune_entries] returns exactly the file entries of
    the listing that are the last one of their path (paths compared by their
    components) and that are not, and do not lie below, a zero-byte file; every
    directory entry is dropped; and the result is in strictly increasing order
    of components, so it has no duplicate and does not depend on the iteration
    order of the hash maps. *)
Theorem prune_entries_spec entries :
  (forall e, e ∈ prune_entries entries <->
     last_at entries (parts (path e)) = Some e /\ is_dir e = false /\
     unblocked (last_at entries) (parts (path e))) /\
  StronglySorted parts_lt (map (fun e => parts (path e)) (prune_entries entries)).
Proof. apply prune_entries_inv. Qed.

Example prune_example :
  prune_entries [file_entry §"b/x.txt" 3; file_entry §"a" 0; dir_entry §"c/"; file_entry §"a/y" 5;
                 file_entry §"A\z" 2; file_entry §"b/empty" 0]
  = [file_entry §"A\z" 2; file_entry §"b/x.txt" 3].
Proof. vm_compute. reflexivity. Qed.
