(* ===== verification/Layout.v ===== *)
(** Organization rules as data ([crates/core/src/features/organization]):
    the layout vocabulary of [layout.rs], the rules and the translation of the
    retired vocabulary of [mod.rs], and the metadata record of [metadata.rs]. *)

From stdpp Require Import base tactics option list strings.
From Stdlib Require Import ZArith Ascii.
From S2P Require Import Prelude Text.

(** ** [layout.rs] *)

Inductive OutputSelector :=
| Whole
| PerDirectoryContaining (marker : str).

Record FileVariable := {
  as_name : str;
  file : str;
  key : str
}.

Inductive Source :=
| All
| Matching (glob : str)
| ContentRoot.

Record Placement := {
  from : Source;
  into : str
}.

Inductive GeneratedContent := MetadataDocument.

Record Generated := {
  generated_into : str;
  content : GeneratedContent
}.

Inductive FetchSource := Screenshots.

Record Fetched := {
  fetched_into : str;
  fetch_source : FetchSource;
  fetched_name : str
}.

Record Layout := {
  layout_outputs : OutputSelector;
  file_variables : list FileVariable;
  layout_name : str;
  place : list Placement;
  generate : list Generated;
  fetch : list Fetched
}.

(** [Layout::default]. *)
Definition default_layout : Layout :=
  {| layout_outputs := Whole; file_variables := []; layout_name := []; place := [];
     generate := []; fetch := [] |}.

(** ** [mod.rs] *)

Record RuleTrigger := {
  metadata_source : option str;
  filename_pattern : option str;
  has_file : option str
}.

Record RuleActions := {
  output_name : option str;
  layout : Layout
}.

Record OrganizationRule := {
  rule_id : Z;
  rule_name : str;
  priority : Z;
  is_enabled : bool;
  trigger : RuleTrigger;
  actions : RuleActions
}.

Record MoveAction := {
  pattern : str;
  target : str
}.

(** Every field either vocabulary may carry, as deserialization leaves them. *)
Record RuleActionsDocument := {
  doc_output_name : option str;
  doc_layout : option Layout;
  root_folder_field : option str;
  move_files : list MoveAction;
  use_standard_layout : bool
}.

Definition layout_from_legacy_actions (root_folder : option str) (moves : list MoveAction)
    (standard : bool) : Layout :=
  let name := default §"Game" root_folder in
  if standard then
    {| layout_outputs := Whole;
       file_variables := [];
       layout_name := name;
       place := [{| from := ContentRoot; into := §"Game" |}];
       generate := [{| generated_into := §"metadata.json"; content := MetadataDocument |}];
       fetch := [{| fetched_into := §"screenshots"; fetch_source := Screenshots;
                    fetched_name := §"image_$index.$ext" |}] |}
  else
    {| layout_outputs := Whole;
       file_variables := [];
       layout_name := name;
       place := map (fun action => {| from := Matching (pattern action); into := target action |})
                    moves;
       generate := [{| generated_into := §"metadata.json"; content := MetadataDocument |}];
       fetch := [{| fetched_into := §"Screenshots"; fetch_source := Screenshots;
                    fetched_name := §"image_$index.$ext" |}] |}.

(** What [RuleActions::deserialize] makes of the document it read. *)
Definition actions_of_document (d : RuleActionsDocument) : RuleActions :=
  {| output_name := doc_output_name d;
     layout := match doc_layout d with
               | Some l => l
               | None => layout_from_legacy_actions (root_folder_field d) (move_files d)
                           (use_standard_layout d)
               end |}.

(** ** [metadata.rs] *)

Inductive ScreenshotData :=
| Url (url : str)
| FilePath (p : str)
| Base64 (data : str).

Record GameMetadata := {
  product_id : str;
  source : str;
  title : str;
  description : option str;
  tags : list str;
  release_date : option str;
  creator : option str;
  screenshots : list ScreenshotData;
  metadata_json : str
}.
