(* ===== verification/ModInfo.v ===== *)
(** The [modinfo.ini] parser ([crates/core/src/features/conversion/modinfo.rs]). *)

From stdpp Require Import base tactics option list strings.
From Stdlib Require Import ZArith Lia Ascii.
From S2P Require Import Prelude Text.

Record ModInfo := {
  mi_name : option str;
  addonfor : option str;
  screenshot : option str
}.

Definition empty_info : ModInfo := {| mi_name := None; addonfor := None; screenshot := None |}.

Definition illegal_name_byte (c : ascii) : bool :=
  match c with
  | "<" | ">" | ":" | "034" | "/" | "\" | "|" | "?" | "*" => true
  | _ => (code c <? 32)%N
  end%char.

Definition is_dot (c : ascii) : bool := ascii_eqb c "."%char.

(** Every character the map replaces is ASCII, so mapping bytes maps characters. *)
Definition sanitize_modinfo_name (name : str) : str :=
  let mapped := map (fun c => if illegal_name_byte c then "_"%char else c) name in
  trim_start_matches is_dot (trim_end_matches is_dot (trim mapped)).

Definition take_value (line key : str) : option str :=
  match strip_prefix (key ++ §" = ") line with
  | Some rest => Some (trim rest)
  | None => match strip_prefix (key ++ §"=") line with
            | Some rest => Some (trim rest)
            | None => None
            end
  end.

Definition is_empty (s : str) : bool := str_eqb s [].

(** The body of the loop over the lines. *)
Definition parse_line (info : ModInfo) (raw_line : str) : ModInfo :=
  let line := trim raw_line in
  if is_empty line || starts_with line §"[" || starts_with line §"#" || starts_with line §";"
  then info
  else
    match take_value line §"name" with
    | Some rest =>
        let sanitized := sanitize_modinfo_name rest in
        if is_empty sanitized then info
        else {| mi_name := Some sanitized; addonfor := addonfor info; screenshot := screenshot info |}
    | None =>
    match take_value line §"addonfor" with
    | Some rest =>
        if is_empty rest then info
        else {| mi_name := mi_name info; addonfor := Some rest; screenshot := screenshot info |}
    | None =>
    match take_value line §"screenshot" with
    | Some rest =>
        if is_empty rest then info
        else
          let stripped := default rest (strip_prefix §"./" rest) in
          if is_empty stripped then info
          else {| mi_name := mi_name info; addonfor := addonfor info; screenshot := Some stripped |}
    | None => info
    end end end.

Definition parse_str (contents : str) : ModInfo := fold_left parse_line (lines contents) empty_info.

(** * Facts *)

Lemma trim_start_matches_suffix p s : exists pre, s = pre ++ trim_start_matches p s.
Proof.
  induction s as [|c s [pre IH]]; simpl; [by exists []|].
  destruct (p c); [exists (c :: pre); simpl; by f_equal|by exists []].
Qed.

Lemma trim_start_matches_head p s c r : trim_start_matches p s = c :: r -> p c = false.
Proof.
  induction s as [|d s IH]; simpl; [done|]. destruct (p d) eqn:E; [done|]. by intros [= <- <-].
Qed.

Lemma drop_whitespace_suffix cs : exists pre, cs = pre ++ drop_whitespace cs.
Proof.
  induction cs as [|c cs [pre IH]]; simpl; [by exists []|].
  destruct (char_is_whitespace c); [exists (c :: pre); simpl; by f_equal|by exists []].
Qed.

(** Trimming only removes bytes at both ends. *)
Lemma trim_infix s : exists pre post, s = pre ++ trim s ++ post.
Proof.
  unfold trim. destruct (drop_whitespace_suffix (chars s)) as [a Ha].
  set (cs := drop_whitespace (chars s)) in *.
  destruct (drop_whitespace_suffix (reverse cs)) as [b Hb].
  set (ds := drop_whitespace (reverse cs)) in *.
  exists (concat a), (concat (reverse b)).
  rewrite <-(concat_chars s) at 1. rewrite Ha, concat_app. f_equal.
  rewrite <-(reverse_involutive cs), Hb, reverse_app, concat_app. done.
Qed.

Lemma trim_end_matches_prefix p s : exists post, s = trim_end_matches p s ++ post.
Proof.
  unfold trim_end_matches. destruct (trim_start_matches_suffix p (reverse s)) as [pre H].
  exists (reverse pre). apply (inj reverse). rewrite reverse_app, !reverse_involutive. done.
Qed.

Lemma trim_end_matches_last p s c : last (trim_end_matches p s) = Some c -> p c = false.
Proof.
  unfold trim_end_matches. intros H. rewrite last_reverse in H.
  destruct (trim_start_matches p (reverse s)) as [|d r] eqn:E; [done|]. simplify_eq/=.
  by eapply trim_start_matches_head.
Qed.

Lemma last_suffix {A} (l pre s : list A) c : l = pre ++ s -> last s = Some c -> last l = Some c.
Proof. intros -> H. rewrite last_app. by rewrite H. Qed.

Definition safe_name (n : str) : Prop :=
  Forall (fun c => illegal_name_byte c = false) n /\ head n <> Some "."%char /\
  last n <> Some "."%char.

Lemma sanitize_safe name : safe_name (sanitize_modinfo_name name).
Proof.
  unfold sanitize_modinfo_name, safe_name.
  set (mapped := map _ name). set (t := trim mapped).
  assert (Forall (fun c => illegal_name_byte c = false) mapped) as Hm.
  { apply Forall_map, Forall_true. intros c. destruct (illegal_name_byte c) eqn:E; done. }
  destruct (trim_infix mapped) as (a & b & Hab). fold t in Hab.
  assert (Forall (fun c => illegal_name_byte c = false) t) as Ht.
  { rewrite Hab, !Forall_app in Hm. tauto. }
  destruct (trim_end_matches_prefix is_dot t) as [q Hq].
  destruct (trim_start_matches_suffix is_dot (trim_end_matches is_dot t)) as [w Hw].
  set (e := trim_end_matches is_dot t) in *. set (r := trim_start_matches is_dot e) in *.
  split; [|split].
  - rewrite Hq, Forall_app in Ht. destruct Ht as [He _]. rewrite Hw, Forall_app in He. tauto.
  - intros Hh. destruct r as [|c r'] eqn:Er; [done|]. simplify_eq/=.
    by apply trim_start_matches_head in Er.
  - intros Hl. apply (last_suffix e w r) in Hl; [|done]. by apply trim_end_matches_last in Hl.
Qed.

Lemma parse_line_name info l n :
  mi_name (parse_line info l) = Some n -> mi_name info = Some n \/ (n <> [] /\ safe_name n).
Proof.
  unfold parse_line. destruct (_ || _); [by left|].
  destruct (take_value _ §"name") as [rest|].
  - destruct (is_empty (sanitize_modinfo_name rest)) eqn:E; [by left|]. simpl. intros [= <-].
    right. split; [intros H; by rewrite H in E|apply sanitize_safe].
  - repeat case_match; auto.
Qed.

(** * Properties *)

(** Whatever bytes a [modinfo.ini] holds, the
    name the parser takes from it is non-empty, is one path component (it holds
    neither separator, nor any of the other characters Windows reserves, nor a
    C0 control character) and neither starts nor ends with a dot, so it is
    neither [.] nor [..]. *)
Theorem modinfo_name_is_one_component contents n :
  mi_name (parse_str contents) = Some n ->
  n <> [] /\ safe_name n /\ split_on is_separator n = [n].
Proof.
  intros H. assert (n <> [] /\ safe_name n) as [Hne Hs].
  { revert H. unfold parse_str. generalize (lines contents) as ls.
    induction ls as [|l ls IH] using rev_ind; [done|].
    rewrite fold_left_app. simpl. intros [H|H]%parse_line_name; auto. }
  split; [done|split; [done|]]. apply split_on_none. destruct Hs as [Hs _].
  eapply Forall_impl; [exact Hs|]. intros c Hc. unfold is_separator, is_slash, is_backslash.
  apply orb_false_iff. split; apply not_true_is_false; intros ->%ascii_eqb_eq; discriminate Hc.
Qed.

(** The name of a file that spells one with reserved characters and dots. *)
Lemma modinfo_name_is_one_component_witness :
  let contents := §"[mod]
name= ..Mod: A/B.
addonfor = Base" in
  mi_name (parse_str contents) = Some §"Mod_ A_B" /\ split_on is_separator §"Mod_ A_B" = [§"Mod_ A_B"].
Proof.
  intros contents. split; [reflexivity|].
  apply (modinfo_name_is_one_component contents §"Mod_ A_B"). reflexivity.
Defined.

(** The documentation of [sanitize_modinfo_name] promises that trailing dots and
    whitespace are trimmed; a dot after a space leaves the space. *)
Theorem sanitize_keeps_space_before_dot : sanitize_modinfo_name §"Mod ." = §"Mod ".
Proof. reflexivity. Qed.

(** The documentation of [FileVariable] says control characters become [_];
    the delete character is kept. *)
Theorem sanitize_keeps_delete : sanitize_modinfo_name ["a"; "127"; "b"]%char = ["a"; "127"; "b"]%char.
Proof. reflexivity. Qed.
