(* ===== verification/Outputs.v ===== *)
(** Resolving a layout to its named outputs
    ([crates/core/src/features/organization/engine/outputs.rs]): how many outputs
    an archive produces, where each one's content starts and what it is called. *)

From stdpp Require Import base tactics option list gmap sorting strings.
From Stdlib Require Import ZArith Lia Ascii.
From S2P Require Import Prelude Text Archive Layout ModInfo.
Local Open Scope arclain_scope.

Abbreviation variables := (gmap str str).

(** [root] is a [PathBuf] built from a string, kept as that string. *)
Record ResolvedOutput := {
  root : str;
  name : str;
  vars : variables
}.

Record ResolvedOutputs := {
  outputs : list ResolvedOutput;
  skipped : list (str * str)
}.

(** One constructor per [bail!]. *)
Inductive OutputsError :=
| UnknownModInfoKey (as_name key : str)
| NestedRoots (inner outer : str)
| NoWrapperFolder (count : nat)
| UnnamedAmongSiblings (count : nat)
| SameName (n : str)
| MergeableNames (first second : str).

(** ** Roots *)

(** Every directory strictly above [root], outermost first: the prefixes that
    end before a slash, with the archive's top level [""] in front. *)
Fixpoint slash_prefixes (before : str) (s : str) : list str :=
  match s with
  | [] => []
  | c :: s' =>
      if is_slash c then before :: slash_prefixes (before ++ [c]) s'
      else slash_prefixes (before ++ [c]) s'
  end.

Definition ancestors_of (root : str) : list str :=
  if is_empty root then []
  else [] :: List.filter (fun a => negb (is_empty a)) (slash_prefixes [] root).

Definition refuse_nested_roots (roots : gset str) : result OutputsError unit :=
  try_fold (fun _ root =>
    match List.find (fun a => bool_decide (a ∈ roots)) (ancestors_of root) with
    | Some ancestor => Err (NestedRoots root ancestor)
    | None => Ok tt
    end) tt (btree_elements roots).

(** The root an entry selects, if the entry is a marker. *)
Definition marker_root (marker : str) (entry : ArchiveEntry) : option str :=
  if is_dir entry then None
  else
    let path := slashes (path entry) in
    if str_eqb path marker then Some []
    else match strip_suffix marker path with
         | Some root => strip_suffix §"/" root
         | None => None
         end.

Definition select_roots (selector : OutputSelector) (entries : list ArchiveEntry)
  : result OutputsError (list str) :=
  match selector with
  | Whole => Ok [[]]
  | PerDirectoryContaining marker =>
      let roots :=
        fold_left (fun roots entry =>
          match marker_root marker entry with
          | Some root => {[ root ]} ∪ roots
          | None => roots
          end) entries (∅ : gset str) in
      let? _ := refuse_nested_roots roots in
      Ok (btree_elements roots)
  end.

(** ** File variables *)

Inductive ModInfoKey := KName | KAddonFor | KScreenshot.

Definition parse_key (key : str) : option ModInfoKey :=
  if str_eqb key §"name" then Some KName
  else if str_eqb key §"addonfor" then Some KAddonFor
  else if str_eqb key §"screenshot" then Some KScreenshot
  else None.

Definition take_key (k : ModInfoKey) (info : ModInfo) : option str :=
  match k with
  | KName => mi_name info
  | KAddonFor => addonfor info
  | KScreenshot => screenshot info
  end.

(** [join]: archive paths are joined with a slash. *)
Definition join_path (root relative : str) : str :=
  if is_empty root then relative else root ++ §"/" ++ relative.

Definition read_file_variable (path : str) (variable : FileVariable) (k : ModInfoKey)
    (read_entry : str -> option str) : result str str :=
  match read_entry path with
  | None => Err (§"$" ++ as_name variable ++ §" comes from " ++ path
                 ++ §", which the archive does not hold")
  | Some bytes =>
      if negb (utf8_valid bytes) then
        Err (§"$" ++ as_name variable ++ §" comes from " ++ path ++ §", which is not valid UTF-8")
      else
        ok_or (take_key k (parse_str bytes))
          (§"$" ++ as_name variable ++ §" comes from the " ++ key variable ++ §" of " ++ path
           ++ §", which does not set one")
  end.

(** ** Template expansion *)

Section expand.
Context {UT : UnicodeTables}.

Definition is_word_char (ch : str) : bool := is_alphanumeric ch || str_eqb ch §"_".

(** The longest prefix of word characters, and the rest. *)
Fixpoint span_word (cs : list str) : list str * list str :=
  match cs with
  | [] => ([], [])
  | ch :: cs' =>
      if is_word_char ch then let '(w, r) := span_word cs' in (ch :: w, r) else ([], cs)
  end.

Definition token_of (after : str) : str * str :=
  let '(w, r) := span_word (chars after) in (concat w, concat r).

Definition push_missing (missing : list str) (token : str) : list str :=
  if existsb (str_eqb token) missing then missing else missing ++ [token].

Definition is_dollar (c : ascii) : bool := ascii_eqb c "$"%char.

Fixpoint expand_loop (fuel : nat) (vs : variables) (rest expanded : str) (missing : list str)
  : str * list str :=
  match fuel with
  | 0 => (expanded ++ rest, missing)
  | S fuel' =>
      match find_char is_dollar rest with
      | None => (expanded ++ rest, missing)
      | Some at_ =>
          let expanded := expanded ++ take at_ rest in
          let after := drop (S at_) rest in
          let '(token, rest') := token_of after in
          if is_empty token then expand_loop fuel' vs rest' (expanded ++ §"$") missing
          else match vs !! token with
               | Some value => expand_loop fuel' vs rest' (expanded ++ value) missing
               | None => expand_loop fuel' vs rest' (expanded ++ §"$" ++ token)
                           (push_missing missing token)
               end
      end
  end.

(** Every turn consumes a [$], so the template's length is fuel enough:
    [expand_spec] has no fuel left in it. *)
Definition expand (template : str) (vs : variables) : str * list str :=
  expand_loop (length template) vs template [] [].

(** ** Naming the outputs *)

Inductive Resolution :=
| Named (o : ResolvedOutput)
| Unnameable (reason : str).

Definition resolve_one (name_template : str) (wanted : list (FileVariable * ModInfoKey))
    (rt : str) (base_variables : variables) (read_entry : str -> option str) : Resolution :=
  let '(vs, unresolved) :=
    fold_left (fun acc vk =>
      let '(vs, unresolved) := acc in
      let '(variable, k) := vk in
      match read_file_variable (join_path rt (file variable)) variable k read_entry with
      | Ok value => (<[as_name variable := value]> vs, unresolved)
      | Err reason => (vs, unresolved ++ [reason])
      end) wanted (base_variables, []) in
  let '(nm, missing) := expand name_template vs in
  match unresolved with
  | _ :: _ => Unnameable (join §"; " unresolved)
  | [] =>
      match missing with
      | _ :: _ =>
          Unnameable (§"the name needs " ++ join §", " (map (fun t => §"$" ++ t) missing)
                      ++ §", which nothing set")
      | [] => Named {| root := rt; name := nm; vars := vs |}
      end
  end.

(** The loop that keys every file variable. *)
Definition wanted_variables (l : Layout)
  : result OutputsError (list (FileVariable * ModInfoKey)) :=
  try_fold (fun wanted variable =>
    match parse_key (key variable) with
    | None => Err (UnknownModInfoKey (as_name variable) (key variable))
    | Some k => Ok (wanted ++ [(variable, k)])
    end) [] (file_variables l).

(** The loop that refuses two outputs with one name. *)
Definition claim_names (outs : list ResolvedOutput) : result OutputsError (gmap str str) :=
  try_fold (fun claimed output =>
    match claimed !! to_uppercase (name output) with
    | Some first =>
        if str_eqb first (name output) then Err (SameName (name output))
        else Err (MergeableNames first (name output))
    | None => Ok (<[to_uppercase (name output) := name output]> claimed)
    end) ∅ outs.

Definition resolve_outputs (l : Layout) (entries : list ArchiveEntry)
    (base_variables : variables) (read_entry : str -> option str)
  : result OutputsError ResolvedOutputs :=
  let? wanted := wanted_variables l in
  let? roots := select_roots (layout_outputs l) entries in
  if is_empty (layout_name l) && (1 <? length roots)%nat then Err (NoWrapperFolder (length roots))
  else
    let '(outs, skips) :=
      fold_left (fun acc rt =>
        let '(outs, skips) := acc in
        match resolve_one (layout_name l) wanted rt base_variables read_entry with
        | Named output => (outs ++ [output], skips)
        | Unnameable reason => (outs, skips ++ [(rt, reason)])
        end) roots ([], []) in
    if (1 <? length outs)%nat && existsb (fun o => is_empty (name o)) outs
    then Err (UnnamedAmongSiblings (length outs))
    else
      let? _ := claim_names outs in
      Ok {| outputs := outs; skipped := skips |}.
End expand.

(** * Facts about roots *)

Lemma is_empty_true s : is_empty s = true <-> s = [].
Proof. apply str_eqb_eq. Qed.

Lemma is_empty_false s : is_empty s = false <-> s <> [].
Proof. rewrite <-is_empty_true. by destruct (is_empty s). Qed.

Lemma elem_of_slash_prefixes before s a :
  a ∈ slash_prefixes before s <-> exists u v, s = u ++ "/"%char :: v /\ a = before ++ u.
Proof.
  revert before; induction s as [|c s IH]; intros before; simpl.
  - split; [by intros ?%elem_of_nil|]. by intros ([] & ? & ? & _).
  - assert (is_slash c = true /\ c = "/"%char \/ is_slash c = false /\ c <> "/"%char) as Hc.
    { unfold is_slash, ascii_eqb. case_bool_decide; auto. }
    destruct Hc as [[-> ->]|[-> Hne]]; rewrite ?elem_of_cons, IH; split.
    + intros [->|(u & v & -> & ->)]; [by exists [], s; rewrite app_nil_r|].
      exists ("/"%char :: u), v. split; [done|]. by rewrite <-app_assoc.
    + intros ([|d u] & v & Heq & ->); simplify_eq/=; [left; by rewrite app_nil_r|].
      right. exists u, v. split; [done|]. by rewrite <-app_assoc.
    + intros (u & v & -> & ->). exists (c :: u), v. split; [done|]. by rewrite <-app_assoc.
    + intros ([|d u] & v & Heq & ->); simplify_eq/=.
      exists u, v. split; [done|]. by rewrite <-app_assoc.
Qed.

Lemma elem_of_ancestors a r :
  a ∈ ancestors_of r <-> r <> [] /\ (a = [] \/ exists v, r = a ++ "/"%char :: v).
Proof.
  unfold ancestors_of. destruct (is_empty r) eqn:E.
  - apply is_empty_true in E as ->. split; [by intros ?%elem_of_nil|naive_solver].
  - apply is_empty_false in E. rewrite elem_of_cons, list_elem_of_In, filter_In, <-list_elem_of_In,
      elem_of_slash_prefixes, negb_true_iff, is_empty_false. simpl. split.
    + intros [->|[(u & v & -> & ->) Hne]]; split; eauto.
    + intros [_ [->|(v & ->)]]; [by left|]. destruct a; [by left|right]. split; [eauto|done].
Qed.

Lemma refuse_nested_roots_ok roots u :
  refuse_nested_roots roots = Ok u ->
  forall r a, r ∈ roots -> a ∈ ancestors_of r -> a ∉ roots.
Proof.
  unfold refuse_nested_roots. intros H r a Hr Ha Hin.
  apply elem_of_btree_elements in Hr. apply list_elem_of_split in Hr as (l1 & l2 & Heq).
  rewrite Heq, try_fold_app in H. simplify_result. simpl in H. simplify_result.
  destruct (List.find _ _) eqn:Hf; [done|]. 
  apply List.find_none with (x := a) in Hf; [|by apply list_elem_of_In].
  by rewrite bool_decide_eq_false in Hf.
Qed.

(** No selected root lies inside another, the top level included. *)
Lemma select_roots_antichain sel entries roots r1 r2 :
  select_roots sel entries = Ok roots -> r1 ∈ roots -> r2 ∈ roots ->
  (r1 = [] \/ exists v, r2 = r1 ++ "/"%char :: v) -> r1 = r2.
Proof.
  destruct sel as [|marker]; simpl.
  - intros [= <-] ->%list_elem_of_singleton ->%list_elem_of_singleton _. done.
  - intros H H1 H2 Hanc. simplify_result.
    apply elem_of_btree_elements in H1, H2.
    destruct (decide (r1 = r2)) as [|Hne]; [done|].
    destruct (refuse_nested_roots_ok _ _ Hr r2 r1); [done| |done].
    apply elem_of_ancestors. split; [|done]. intros ->.
    destruct Hanc as [->|(v & Hv)]; [done|]. by destruct r1.
Qed.

Lemma select_roots_sorted sel entries roots :
  select_roots sel entries = Ok roots -> NoDup roots /\ StronglySorted str_le roots.
Proof.
  destruct sel as [|marker]; simpl.
  - intros [= <-]. split; [apply NoDup_singleton|repeat constructor].
  - intros H. simplify_result. split; [apply NoDup_btree_elements|].
    apply StronglySorted_merge_sort; apply _.
Qed.

Lemma elem_of_selected marker entries roots rt :
  select_roots (PerDirectoryContaining marker) entries = Ok roots ->
  rt ∈ roots <-> exists e, e ∈ entries /\ marker_root marker e = Some rt.
Proof.
  simpl. intros H. simplify_result. rewrite elem_of_btree_elements. clear r Hr.
  induction entries as [|e es IH] using rev_ind; simpl.
  - split; [set_solver|]. intros (e & H & _). by apply elem_of_nil in H.
  - rewrite fold_left_app. simpl. setoid_rewrite elem_of_app. setoid_rewrite list_elem_of_singleton.
    destruct (marker_root marker e) as [m|] eqn:E; rewrite ?elem_of_union, IH;
      rewrite ?elem_of_singleton; naive_solver.
Qed.

(** * Facts about templates *)

Section expand_facts.
Context {UT : UnicodeTables}.

(** A template cut into literal text, lone dollars and tokens. *)
Inductive piece := Lit (s : str) | Dollar | Tok (t : str).

Fixpoint tokenize_fuel (fuel : nat) (rest : str) : list piece :=
  match fuel with
  | 0 => [Lit rest]
  | S fuel' =>
      match find_char is_dollar rest with
      | None => [Lit rest]
      | Some at_ =>
          let '(token, rest') := token_of (drop (S at_) rest) in
          Lit (take at_ rest) :: (if is_empty token then Dollar else Tok token)
            :: tokenize_fuel fuel' rest'
      end
  end.

Definition tokenize (template : str) : list piece := tokenize_fuel (length template) template.

Definition render (p : piece) : str :=
  match p with Lit s => s | Dollar => §"$" | Tok t => §"$" ++ t end.

Definition subst_piece (vs : variables) (p : piece) : str :=
  match p with
  | Lit s => s
  | Dollar => §"$"
  | Tok t => match vs !! t with Some v => v | None => §"$" ++ t end
  end.

Definition unresolved_tokens (vs : variables) (ps : list piece) : list str :=
  flat_map (fun p => match p with
                     | Tok t => match vs !! t with Some _ => [] | None => [t] end
                     | _ => []
                     end) ps.

(** The first occurrences, in order. *)
Definition distinct (ts : list str) : list str := fold_left push_missing ts [].

Lemma span_word_spec cs w r :
  span_word cs = (w, r) ->
  cs = w ++ r /\ Forall (fun ch => is_word_char ch = true) w /\
  match r with ch :: _ => is_word_char ch = false | [] => True end.
Proof.
  revert w r; induction cs as [|ch cs IH]; intros w r; simpl; [naive_solver|].
  destruct (is_word_char ch) eqn:E.
  - destruct (span_word cs) as [w' r'] eqn:Es. intros [= <- <-].
    destruct (IH w' r' eq_refl) as (-> & Hw & Hr). by repeat split; try constructor.
  - intros [= <- <-]. by repeat split.
Qed.

Lemma token_of_app after t rest : token_of after = (t, rest) -> after = t ++ rest.
Proof.
  unfold token_of. destruct (span_word (chars after)) as [w r] eqn:E. intros [= <- <-].
  apply span_word_spec in E as (E & _). by rewrite <-concat_app, <-E, concat_chars.
Qed.

(** What a [$] at [at_] cuts the text into. *)
Lemma cut_at_dollar rest at_ t rest' :
  find_char is_dollar rest = Some at_ -> token_of (drop (S at_) rest) = (t, rest') ->
  rest = take at_ rest ++ §"$" ++ t ++ rest' /\ (length rest' < length rest)%nat.
Proof.
  intros Hf Ht. apply find_char_spec in Hf as (c & Hc & Hd & _).
  apply ascii_eqb_eq in Hd as ->. apply token_of_app in Ht.
  assert (rest = take at_ rest ++ "$"%char :: drop (S at_) rest) as Hcut
    by by rewrite take_drop_middle.
  split; [by rewrite Hcut at 1; rewrite Ht|].
  apply (f_equal length) in Hcut. rewrite Ht, length_app in Hcut. simpl in Hcut.
  rewrite length_app in Hcut. lia.
Qed.

Lemma expand_loop_spec fuel vs rest ex miss :
  expand_loop fuel vs rest ex miss =
  (ex ++ concat (map (subst_piece vs) (tokenize_fuel fuel rest)),
   fold_left push_missing (unresolved_tokens vs (tokenize_fuel fuel rest)) miss).
Proof.
  revert rest ex miss; induction fuel as [|fuel IH]; intros rest ex miss; simpl;
    [by rewrite app_nil_r|].
  destruct (find_char is_dollar rest) as [at_|]; simpl; [|by rewrite app_nil_r].
  destruct (token_of (drop (S at_) rest)) as [t rest'].
  destruct (is_empty t) eqn:Et; simpl; [by rewrite IH, <-!app_assoc|].
  destruct (vs !! t) eqn:Ev; simpl; rewrite IH, <-!app_assoc; done.
Qed.

Lemma tokenize_render fuel rest :
  (length rest <= fuel)%nat -> concat (map render (tokenize_fuel fuel rest)) = rest.
Proof.
  revert rest; induction fuel as [|fuel IH]; intros rest Hl; simpl; [by rewrite app_nil_r|].
  destruct (find_char is_dollar rest) as [at_|] eqn:Hf; simpl; [|by rewrite app_nil_r].
  destruct (token_of (drop (S at_) rest)) as [t rest'] eqn:Ht. simpl.
  destruct (cut_at_dollar _ _ _ _ Hf Ht) as [Hcut Hlt]. rewrite IH by lia.
  rewrite Hcut at 2. f_equal. destruct (is_empty t) eqn:Et; [|by simpl; rewrite <-?app_assoc].
  apply is_empty_true in Et as ->. done.
Qed.

(** A token is a non-empty run of word characters; literal text has no [$]. *)
Definition good_piece (p : piece) : Prop :=
  match p with
  | Lit s => Forall (fun c => is_dollar c = false) s
  | Dollar => True
  | Tok t => t <> [] /\ exists w, t = concat w /\ Forall (fun ch => is_word_char ch = true) w
  end.

Lemma tokenize_good fuel rest :
  (length rest <= fuel)%nat -> Forall good_piece (tokenize_fuel fuel rest).
Proof.
  revert rest; induction fuel as [|fuel IH]; intros rest Hl; simpl.
  - destruct rest; [repeat constructor|simpl in Hl; lia].
  - destruct (find_char is_dollar rest) as [at_|] eqn:Hf; simpl.
    + destruct (token_of (drop (S at_) rest)) as [t rest'] eqn:Ht.
      destruct (cut_at_dollar _ _ _ _ Hf Ht) as [_ Hlt].
      repeat constructor; [|destruct (is_empty t) eqn:Et; simpl; [done|]|apply IH; lia].
      * by apply find_char_spec in Hf as (c & _ & _ & Hall).
      * apply is_empty_false in Et. split; [done|]. unfold token_of in Ht.
        destruct (span_word _) as [w r] eqn:Es. simplify_eq.
        apply span_word_spec in Es as (_ & Hw & _). eauto.
    + apply find_char_none in Hf. by repeat constructor.
Qed.

Lemma elem_of_push missing t u : u ∈ push_missing missing t <-> u ∈ missing \/ u = t.
Proof.
  unfold push_missing. destruct (existsb (str_eqb t) missing) eqn:E.
  - apply existsb_exists in E as (v & Hv & ->%str_eqb_eq). apply list_elem_of_In in Hv. naive_solver.
  - rewrite elem_of_app, list_elem_of_singleton. done.
Qed.

Lemma distinct_from ts miss :
  NoDup miss -> NoDup (fold_left push_missing ts miss) /\
  forall u, u ∈ fold_left push_missing ts miss <-> u ∈ miss \/ u ∈ ts.
Proof.
  revert miss; induction ts as [|t ts IH]; intros miss Hnd; simpl.
  - split; [done|]. intros u. rewrite elem_of_nil. tauto.
  - destruct (IH (push_missing miss t)) as [Hn He].
    + unfold push_missing. destruct (existsb (str_eqb t) miss) eqn:E; [done|].
      apply NoDup_app. split; [done|]. split; [|apply NoDup_singleton].
      intros x Hx ->%list_elem_of_singleton. apply not_true_iff_false in E. apply E.
      apply existsb_exists. exists t. split; [by apply list_elem_of_In|apply str_eqb_refl].
    + split; [done|]. intros u. rewrite He, elem_of_push, elem_of_cons. tauto.
Qed.
End expand_facts.

Section resolve_facts.
Context {UT : UnicodeTables}.

Lemma resolve_one_named tpl wanted rt base read o :
  resolve_one tpl wanted rt base read = Named o ->
  root o = rt /\ expand tpl (vars o) = (name o, []).
Proof.
  unfold resolve_one. destruct (fold_left _ _ _) as [vs un].
  destruct (expand tpl vs) as [nm missing] eqn:E. destruct un; [|done].
  destruct missing; [|done]. by intros [= <-].
Qed.

(** The loop over the roots: every root lands on one of the two lists. *)
Lemma resolve_loop_split tpl wanted base read roots outs skips outs0 skips0 :
  fold_left (fun acc rt =>
    let '(outs, skips) := acc in
    match resolve_one tpl wanted rt base read with
    | Named output => (outs ++ [output], skips)
    | Unnameable reason => (outs, skips ++ [(rt, reason)])
    end) roots (outs0, skips0) = (outs, skips) ->
  exists outs1 skips1, outs = outs0 ++ outs1 /\ skips = skips0 ++ skips1 /\
    map root outs1 ++ map fst skips1 ≡ₚ roots /\
    Forall (fun o => expand tpl (vars o) = (name o, [])) outs1.
Proof.
  revert outs0 skips0; induction roots as [|rt roots IH]; intros outs0 skips0; simpl.
  - intros [= <- <-]. exists [], []. by rewrite !app_nil_r.
  - destruct (resolve_one tpl wanted rt base read) as [o|reason] eqn:E; intros H;
      apply IH in H as (o1 & s1 & -> & -> & Hp & Hall).
    + apply resolve_one_named in E as [<- He]. exists (o :: o1), s1.
      rewrite <-app_assoc. simpl. rewrite Hp. by repeat constructor.
    + exists o1, ((rt, reason) :: s1). rewrite <-app_assoc. simpl.
      split_and!; [done|done| |done]. rewrite <-Hp. by rewrite Permutation_middle.
Qed.

Lemma claim_names_nodup outs m :
  claim_names outs = Ok m -> NoDup (map (fun o => to_uppercase (name o)) outs).
Proof.
  unfold claim_names. intros H.
  apply (try_fold_invariant _ (fun pre (m : gmap str str) =>
    NoDup (map (fun o => to_uppercase (name o)) pre) /\
    forall k, k ∈ map (fun o => to_uppercase (name o)) pre <-> is_Some (m !! k))) in H.
  - tauto.
  - split; [constructor|]. intros k. rewrite lookup_empty. simpl.
    split; [by intros ?%elem_of_nil|by intros [? ?]].
  - intros pre o post t t' _ [Hnd Hk] Ht.
    destruct (t !! to_uppercase (name o)) eqn:E; [by destruct (str_eqb _ _)|].
    injection Ht as <-. rewrite map_app. simpl. split.
    + apply NoDup_app. split; [done|]. split; [|apply NoDup_singleton].
      intros x Hx ->%list_elem_of_singleton. apply Hk in Hx. rewrite E in Hx.
      by destruct Hx.
    + intros k. rewrite elem_of_app, list_elem_of_singleton, Hk.
      destruct (decide (k = to_uppercase (name o))) as [->|Hne].
      * rewrite lookup_insert_eq. split; [done|by right].
      * rewrite lookup_insert_ne by done. naive_solver.
Qed.

Lemma resolve_outputs_inv l entries base read res :
  resolve_outputs l entries base read = Ok res ->
  exists roots,
    select_roots (layout_outputs l) entries = Ok roots /\
    map root (outputs res) ++ map fst (skipped res) ≡ₚ roots /\
    NoDup (map (fun o => to_uppercase (name o)) (outputs res)) /\
    Forall (fun o => expand (layout_name l) (vars o) = (name o, [])) (outputs res) /\
    ((1 < length (outputs res))%nat -> Forall (fun o => name o <> []) (outputs res)).
Proof.
  unfold resolve_outputs. intros H.
  apply rbind_ok in H as (wanted & Hw & H). apply rbind_ok in H as (roots & Hroots & H).
  destruct (_ && _); [done|].
  destruct (fold_left _ _ _) as [outs skips] eqn:Hloop.
  apply resolve_loop_split in Hloop as (o1 & s1 & -> & -> & Hp & Hall). simpl in H.
  destruct (_ && _) eqn:Hun; [done|]. apply rbind_ok in H as (m & Hm & [= <-]).
  exists roots. simpl. split_and!; [done|done|by eapply claim_names_nodup|done|].
  intros Hlen. apply Nat.ltb_lt in Hlen. rewrite Hlen in Hun. simpl in Hun.
  apply Forall_forall. intros o Ho Hn. apply not_true_iff_false in Hun. apply Hun.
  apply existsb_exists. exists o. split; [by apply list_elem_of_In|by rewrite Hn].
Qed.

(** * Properties *)

(** Template expansion is one left-to-right substitution.  The
    template is cut into literal text without dollars, lone dollars and tokens
    (a dollar and a non-empty run of word characters) whose concatenation is
    the template; the result replaces each token that has a value by that
    value, never rescanned, and leaves the others standing; and the list
    returned beside it holds exactly the tokens without a value, each once. *)
Theorem expand_spec template vs :
  concat (map render (tokenize template)) = template /\
  Forall good_piece (tokenize template) /\
  expand template vs = (concat (map (subst_piece vs) (tokenize template)),
                        distinct (unresolved_tokens vs (tokenize template))) /\
  NoDup (expand template vs).2 /\
  (forall t, t ∈ (expand template vs).2 <-> Tok t ∈ tokenize template /\ vs !! t = None).
Proof.
  split; [by apply tokenize_render|]. split; [by apply tokenize_good|].
  assert (expand template vs = (concat (map (subst_piece vs) (tokenize template)),
            distinct (unresolved_tokens vs (tokenize template)))) as Heq
    by exact (expand_loop_spec _ vs template [] []).
  split; [done|]. rewrite Heq. simpl.
  destruct (distinct_from (unresolved_tokens vs (tokenize template)) []) as [Hnd He];
    [constructor|]. split; [done|].
  intros t. unfold distinct. rewrite He. rewrite elem_of_nil. unfold unresolved_tokens.
  rewrite list_elem_of_In, in_flat_map. split.
  - intros [[]|(p & Hp & Hin)]. apply list_elem_of_In in Hp. destruct p as [| |u]; [done|done|].
    destruct (vs !! u) eqn:Hu; [done|]. by destruct Hin as [->|[]].
  - intros [Hp Hv]. right. exists (Tok t). split; [by apply list_elem_of_In|].
    rewrite Hv. by left.
Qed.

(** When a layout resolves, every selected root is
    accounted for exactly once, as an output or as a skipped one; the outputs'
    names are pairwise distinct even after upper-casing, are the expansion of
    the name template with no token left unset, and are all non-empty when
    there is more than one output. *)
Theorem resolve_outputs_spec l entries base read res :
  resolve_outputs l entries base read = Ok res ->
  exists roots,
    select_roots (layout_outputs l) entries = Ok roots /\
    map root (outputs res) ++ map fst (skipped res) ≡ₚ roots /\
    NoDup (map (fun o => to_uppercase (name o)) (outputs res)) /\
    Forall (fun o => expand (layout_name l) (vars o) = (name o, [])) (outputs res) /\
    ((1 < length (outputs res))%nat -> Forall (fun o => name o <> []) (outputs res)).
Proof. apply resolve_outputs_inv. Qed.
End resolve_facts.

(** ** Witnesses *)

Module OutputsExample.
#[local] Existing Instance ascii_tables.

Definition pack : Layout :=
  {| layout_outputs := PerDirectoryContaining §"modinfo.ini";
     file_variables := [{| as_name := §"mod"; file := §"modinfo.ini"; key := §"name" |}];
     layout_name := §"Mods/$mod"; place := [{| from := All; into := [] |}];
     generate := []; fetch := [] |}.

Definition entries : list ArchiveEntry :=
  [file_entry §"A/modinfo.ini" 9; file_entry §"A/x.pak" 4; file_entry §"B\modinfo.ini" 9;
   file_entry §"C/modinfo.ini" 9].

Definition read (p : str) : option str :=
  if str_eqb p §"A/modinfo.ini" then Some §"name=Alpha"
  else if str_eqb p §"B/modinfo.ini" then Some §"name = Beta:2"
  else None.

Definition resolved : ResolvedOutputs :=
  {| outputs := [{| root := §"A"; name := §"Mods/Alpha"; vars := {[ §"mod" := §"Alpha" ]} |};
                 {| root := §"B"; name := §"Mods/Beta_2"; vars := {[ §"mod" := §"Beta_2" ]} |}];
     skipped := [(§"C", §"$mod comes from C/modinfo.ini, which the archive does not hold")] |}.

Lemma resolve_outputs_spec_witness :
  resolve_outputs pack entries ∅ read = Ok resolved /\
  exists roots, select_roots (layout_outputs pack) entries = Ok roots /\
    map root (outputs resolved) ++ map fst (skipped resolved) ≡ₚ roots.
Proof.
  assert (resolve_outputs pack entries ∅ read = Ok resolved) as H by (vm_compute; reflexivity).
  split; [exact H|].
  destruct (resolve_outputs_spec pack entries ∅ read resolved H) as (roots & ? & ? & _).
  exists roots. split; assumption.
Defined.
End OutputsExample.
