(* ===== verification/RustPath.v ===== *)
(** [std::path::Path] on Unix, as far as the program uses it: a path is its
    bytes; [components], [parent], [file_name], [extension], [starts_with], the
    order of [Ord for Path], and maps keyed by paths. *)

From stdpp Require Import base tactics option list sorting strings.
From Stdlib Require Import ZArith Lia Ascii.
From S2P Require Import Prelude Text.

Inductive Component :=
| RootDir
| CurDir
| ParentDir
| Normal (s : str).

#[export] Instance Component_eq_dec : EqDecision Component.
Proof. solve_decision. Defined.

Definition has_root (p : str) : bool := starts_with p §"/".

(** An empty or [.] segment names nothing, except a [.] that opens a path. *)
Definition blank (s : str) : bool := str_eqb s [] || str_eqb s §".".

Definition classify (segments : list str) : list Component :=
  map (fun s => if str_eqb s §".." then ParentDir else Normal s)
      (List.filter (fun s => negb (blank s)) segments).

Definition include_cur_dir (p : str) : bool :=
  match split_on is_slash p with s :: _ => str_eqb s §"." | [] => false end.

Definition components (p : str) : list Component :=
  let segments := split_on is_slash p in
  (if has_root p then [RootDir] else if include_cur_dir p then [CurDir] else [])
  ++ classify segments.

Definition drop_blank_end (segments : list str) : list str :=
  (fix go (l : list str) : list str :=
     match l with
     | [] => []
     | s :: l' => match go l' with
                  | [] => if blank s then [] else [s]
                  | r => s :: r
                  end
     end) segments.

(** [Path::parent]: the text before the last component, without the blank
    segments and separators that precede it. *)
Definition parent (p : str) : option str :=
  let start := if has_root p || include_cur_dir p then 1 else 0 in
  match drop_blank_end (split_on is_slash (drop start p)) with
  | [] => if negb (has_root p) && include_cur_dir p then Some [] else None
  | segments => Some (take start p ++ join §"/" (drop_blank_end (removelast segments)))
  end.

Definition file_name (p : str) : option str :=
  match last (components p) with
  | Some (Normal s) => Some s
  | _ => None
  end.

(** [Path::extension]: after the last dot of the file name, unless that dot
    opens it. *)
Definition extension (p : str) : option str :=
  match file_name p with
  | None => None
  | Some f =>
      match rfind_char (fun c => ascii_eqb c "."%char) f with
      | None => None
      | Some 0 => None
      | Some i => Some (drop (S i) f)
      end
  end.

Fixpoint comps_prefix (a b : list Component) : bool :=
  match a, b with
  | [], _ => true
  | x :: a', y :: b' => bool_decide (x = y) && comps_prefix a' b'
  | _ :: _, [] => false
  end.

(** [Path::starts_with]: whole components. *)
Definition path_starts_with (p base : str) : bool := comps_prefix (components base) (components p).

Definition comp_rank (c : Component) : nat :=
  match c with RootDir => 0 | CurDir => 1 | ParentDir => 2 | Normal _ => 3 end.

Definition comp_leb (a b : Component) : bool :=
  match a, b with
  | Normal s, Normal t => str_leb s t
  | _, _ => (comp_rank a <=? comp_rank b)%nat
  end.

Fixpoint comps_leb (a b : list Component) : bool :=
  match a, b with
  | [], _ => true
  | _ :: _, [] => false
  | x :: a', y :: b' => if bool_decide (x = y) then comps_leb a' b' else comp_leb x y
  end.

Definition path_leb (p q : str) : bool := comps_leb (components p) (components q).
Definition path_eqb (p q : str) : bool := bool_decide (components p = components q).

(** A [BTreeMap<PathBuf, V>], in key order.  Keys are equal when their
    components are, and an entry keeps the key it was first inserted with. *)
Fixpoint path_alter {V} (k : str) (f : option V -> V) (m : list (str * V)) : list (str * V) :=
  match m with
  | [] => [(k, f None)]
  | (k', v) :: m' =>
      if path_eqb k k' then (k', f (Some v)) :: m'
      else if path_leb k k' then (k, f None) :: m
      else (k', v) :: path_alter k f m'
  end.

(** [Path::join]. *)
Definition path_join (p n : str) : str :=
  if has_root n then n
  else match p with
       | [] => n
       | _ => if ends_with p §"/" then p ++ n else p ++ §"/" ++ n
       end.

(** The name of a directory entry. *)
Definition plain_name (n : str) : Prop :=
  n <> [] /\ Forall (fun c => is_slash c = false) n /\ n <> §"." /\ n <> §"..".

(** * Facts *)

Lemma components_nil : components [] = [].
Proof. reflexivity. Qed.

Lemma comps_prefix_spec a b : comps_prefix a b = true <-> exists r, b = a ++ r.
Proof.
  revert b; induction a as [|x a IH]; intros b; simpl; [naive_solver|].
  destruct b as [|y b]; [naive_solver|]. rewrite andb_true_iff, bool_decide_eq_true, IH.
  naive_solver.
Qed.

Lemma path_starts_with_nil p : path_starts_with p [] = true.
Proof. reflexivity. Qed.

Lemma drop_blank_end_cons s l :
  drop_blank_end (s :: l) =
  match drop_blank_end l with [] => if blank s then [] else [s] | r => s :: r end.
Proof. reflexivity. Qed.

Lemma drop_blank_end_prefix l : exists post, l = drop_blank_end l ++ post /\ Forall (fun s => blank s = true) post.
Proof.
  induction l as [|s l (post & IH & Hb)]; [by exists []|]. rewrite drop_blank_end_cons.
  destruct (drop_blank_end l) as [|t r] eqn:E; simpl in IH.
  - subst post. destruct (blank s) eqn:Es; [exists (s :: l)|by exists l].
    split; [done|by constructor].
  - exists post. by rewrite IH at 1.
Qed.

Lemma join_prefix_le (sep : str) l1 l2 : (length (join sep l1) <= length (join sep (l1 ++ l2)))%nat.
Proof.
  induction l1 as [|w l1 IH]; [simpl; lia|]. destruct l1 as [|w' l1].
  - simpl. destruct l2; simpl; rewrite ?length_app; lia.
  - change ((w :: w' :: l1) ++ l2) with (w :: ((w' :: l1) ++ l2)).
    rewrite !(join_cons _ w) by done. rewrite !length_app. lia.
Qed.

Lemma split_slash_join s : join §"/" (split_on is_slash s) = s.
Proof. apply join_split. Qed.

(** What is left after dropping the blank end does not end in a blank. *)
Lemma drop_blank_end_last m l x : drop_blank_end m = l ++ [x] -> blank x = false.
Proof.
  revert l. induction m as [|s m IH]; intros l; [by destruct l|].
  rewrite drop_blank_end_cons. destruct (drop_blank_end m) as [|t r] eqn:Em.
  - destruct (blank s) eqn:Es; [by destruct l|].
    destruct l as [|? l]; simpl; [by intros [= <-]|]. intros [= <- H]. by destruct l.
  - destruct l as [|? l]; simpl; [done|]. intros [= <- H]. by eapply IH.
Qed.

Lemma join_snoc_longer sep m x :
  x <> [] -> (length (join sep m) < length (join sep (m ++ [x])))%nat.
Proof.
  intros Hx. assert (0 < length x)%nat by (destruct x; [done|simpl; lia]).
  induction m as [|w m IH]; [simpl; lia|]. destruct m as [|w' m].
  - simpl. rewrite !length_app. lia.
  - change ((w :: w' :: m) ++ [x]) with (w :: ((w' :: m) ++ [x])).
    rewrite !(join_cons _ w) by done. rewrite !length_app. lia.
Qed.

(** Going up shortens the path: loops over [parent] and [pop] end. *)
Lemma parent_shorter p q : parent p = Some q -> (length q < length p)%nat.
Proof.
  unfold parent. set (start := if has_root p || include_cur_dir p then 1 else 0).
  destruct (drop_blank_end (split_on is_slash (drop start p))) as [|s0 ss] eqn:E.
  - destruct (negb _ && include_cur_dir p) eqn:Hc; [|done]. intros [= <-].
    destruct p; [by vm_compute in Hc|simpl; lia].
  - assert (s0 :: ss <> []) as Hne by done.
    destruct (exists_last Hne) as (l & x & Heq). rewrite Heq in *.
    intros Hq. injection Hq as <-.
    destruct (drop_blank_end_prefix (split_on is_slash (drop start p))) as (post & Hsp & _).
    rewrite E in Hsp.
    apply drop_blank_end_last in E. rewrite removelast_last.
    destruct (drop_blank_end_prefix l) as (post' & Hl & _).
    pose proof (join_prefix_le §"/" (drop_blank_end l) post') as H1. rewrite <-Hl in H1.
    assert (x <> []) as Hx by by intros ->.
    pose proof (join_snoc_longer §"/" l x Hx) as H2.
    pose proof (join_prefix_le §"/" (l ++ [x]) post) as H3.
    rewrite <-Hsp, split_slash_join, length_drop in H3.
    rewrite length_app, length_take. clearbody start. simpl in *. lia.
Qed.

(** ** The name and the directory of a joined path *)

Lemma plain_not_blank n : plain_name n -> blank n = false.
Proof.
  intros (Hn & _ & Hd & _). unfold blank. apply orb_false_iff.
  split; apply not_true_is_false; by intros ->%str_eqb_eq.
Qed.

Lemma plain_no_root n : plain_name n -> has_root n = false.
Proof.
  intros (Hn & Hs & _). destruct n as [|c n]; [done|]. apply Forall_cons in Hs as [Hc _].
  apply not_true_is_false. unfold has_root. rewrite starts_with_spec. intros [r E].
  change (§"/") with ["/"%char] in E. injection E as -> _. discriminate Hc.
Qed.

Lemma split_plain n : plain_name n -> split_on is_slash n = [n].
Proof. intros (_ & Hs & _). by apply split_on_none. Qed.

(** Every join but onto the empty path is one separator after some text. *)
Lemma path_join_split p n :
  plain_name n -> p <> [] -> exists q, path_join p n = q ++ "/"%char :: n /\ (p = q \/ p = q ++ §"/").
Proof.
  intros Hn Hp. unfold path_join. rewrite plain_no_root by done. destruct p as [|c p]; [done|].
  destruct (ends_with (c :: p) §"/") eqn:E.
  - apply ends_with_spec in E as [q ->]. exists q. rewrite <-app_assoc. auto.
  - exists (c :: p). auto.
Qed.

Lemma classify_snoc segments n : plain_name n -> classify (segments ++ [n]) = classify segments ++ [Normal n].
Proof.
  intros Hn. unfold classify. rewrite List.filter_app, map_app. cbn [List.filter]. rewrite plain_not_blank by done.
  cbn [negb map]. destruct Hn as (_ & _ & _ & Hd). destruct (str_eqb n §"..") eqn:E; [|done].
  by apply str_eqb_eq in E.
Qed.

Lemma split_slash_snoc q n :
  plain_name n -> split_on is_slash (q ++ "/"%char :: n) = split_on is_slash q ++ [n].
Proof.
  intros Hn. rewrite <-(split_slash_join q) at 1. pose proof (split_on_free is_slash q) as Hf.
  pose proof (split_on_not_nil is_slash q) as Hne. revert Hf Hne.
  generalize (split_on is_slash q) as ws. intros ws Hf Hne.
  replace (join §"/" ws ++ "/"%char :: n) with (join §"/" (ws ++ [n])).
  - apply (split_join is_slash "/"%char); [done|by destruct ws|]. apply Forall_app. split; [done|].
    constructor; [|done]. by destruct Hn as (_ & ? & _).
  - clear Hf. induction ws as [|w ws IH]; [done|]. destruct ws as [|w' ws]; [done|].
    change ((w :: w' :: ws) ++ [n]) with (w :: ((w' :: ws) ++ [n])).
    rewrite !(join_cons _ w) by done. rewrite IH by done. by rewrite <-!app_assoc.
Qed.

Lemma file_name_join p n : plain_name n -> file_name (path_join p n) = Some n.
Proof.
  intros Hn. unfold file_name, components. destruct p as [|c p].
  - unfold path_join. rewrite (plain_no_root n Hn), split_plain by done.
    change [n] with ([] ++ [n]). rewrite classify_snoc by done. by rewrite app_assoc, last_snoc.
  - destruct (path_join_split (c :: p) n Hn ltac:(done)) as (q & -> & _).
    rewrite split_slash_snoc, classify_snoc by done. by rewrite app_assoc, last_snoc.
Qed.

Lemma file_name_plain p n : file_name p = Some n -> plain_name n.
Proof.
  unfold file_name. destruct (last (components p)) as [[| | |s]|] eqn:E; try done. intros [= ->].
  apply last_Some_elem_of in E. unfold components in E. apply elem_of_app in E as [E|E].
  { apply list_elem_of_In in E. destruct (has_root p); [|destruct (include_cur_dir p)]; cbn in E; naive_solver. }
  unfold classify in E. apply list_elem_of_In, in_map_iff in E as (w & Ew & (Hw & Hb)%filter_In).
  destruct (str_eqb w §"..") eqn:Ed; [done|]. injection Ew as ->.
  apply negb_true_iff, orb_false_iff in Hb as [Hb1 Hb2]. split_and!.
  - intros ->. discriminate Hb1.
  - pose proof (split_on_free is_slash p) as Hf. rewrite Forall_forall in Hf. by apply Hf, list_elem_of_In.
  - intros ->. discriminate Hb2.
  - intros ->. discriminate Ed.
Qed.

Lemma drop_blank_end_idem l : drop_blank_end (drop_blank_end l) = drop_blank_end l.
Proof.
  induction l as [|s l IH]; [done|]. rewrite drop_blank_end_cons. destruct (drop_blank_end l) as [|t r] eqn:E.
  - destruct (blank s) eqn:Es; [done|]. by rewrite drop_blank_end_cons, Es.
  - rewrite drop_blank_end_cons, IH. done.
Qed.

Lemma drop_blank_end_snoc l x : blank x = false -> drop_blank_end (l ++ [x]) = l ++ [x].
Proof.
  intros Hx. induction l as [|s l IH]; cbn [app]; rewrite drop_blank_end_cons; [by rewrite Hx|].
  rewrite IH. by destruct l.
Qed.

(** What [parent] makes of text that ends in a plain name. *)
Lemma parent_snoc p start ws n :
  plain_name n -> start = (if has_root p || include_cur_dir p then 1 else 0) ->
  split_on is_slash (drop start p) = ws ++ [n] ->
  parent p = Some (take start p ++ join §"/" (drop_blank_end ws)).
Proof.
  intros Hn -> Hs. unfold parent. rewrite Hs, drop_blank_end_snoc by by apply plain_not_blank.
  destruct (ws ++ [n]) as [|w l] eqn:E; [by destruct ws|]. by rewrite <-E, removelast_last.
Qed.

Lemma ends_slash_join (ws : list str) :
  Forall (Forall (fun c => is_slash c = false)) ws -> drop_blank_end ws = ws ->
  forall pre, ws <> [] -> ends_with (pre ++ join §"/" ws) §"/" = false.
Proof.
  intros Hf Hd pre Hne. destruct ws as [|x l _] using rev_ind; [done|].
  assert (blank x = false) as Hx by by eapply drop_blank_end_last.
  apply Forall_app in Hf as [_ [Hf _]%Forall_cons].
  assert (exists q, pre ++ join §"/" (l ++ [x]) = q ++ x) as [q ->].
  { clear. revert pre. induction l as [|w l IH]; intros pre; [by exists pre|].
    cbn [app]. rewrite join_cons by (by destruct l). destruct (IH (pre ++ w ++ §"/")) as [q Hq].
    exists q. rewrite <-Hq. by rewrite <-!app_assoc. }
  apply not_true_is_false. rewrite ends_with_spec. intros [r E].
  destruct x as [|c x' _] using rev_ind; [done|].
  rewrite app_assoc in E. apply app_inj_tail in E as [_ ->].
  apply Forall_app in Hf as [_ [Hc _]%Forall_cons]. discriminate Hc.
Qed.

(** Words that [parent] can end with. *)
Definition clean_words (ws : list str) : Prop :=
  Forall (Forall (fun c => is_slash c = false)) ws /\ drop_blank_end ws = ws.

Lemma join_snoc_words (ws : list str) n :
  ws <> [] -> join §"/" (ws ++ [n]) = join §"/" ws ++ §"/" ++ n.
Proof.
  induction ws as [|w ws IH]; [done|]. intros _. destruct ws as [|w' ws]; [done|].
  cbn [app] in *. rewrite join_cons by done. rewrite IH by done. rewrite (join_cons _ w) by done.
  by rewrite <-!app_assoc.
Qed.

(** Joined onto a prefix and words, a name becomes one more word. *)
Lemma path_join_words pre ws n :
  plain_name n -> clean_words ws -> ws <> [] -> path_join (pre ++ join §"/" ws) n = pre ++ join §"/" (ws ++ [n]).
Proof.
  intros Hn [Hf Hd] Hne. unfold path_join. rewrite (plain_no_root n Hn), ends_slash_join by done.
  rewrite join_snoc_words by done. rewrite (app_assoc pre).
  destruct (pre ++ join §"/" ws) as [|c l] eqn:E; [|done].
  apply app_eq_nil in E as [-> E]. destruct ws as [|x l _] using rev_ind; [done|].
  pose proof (drop_blank_end_last _ _ _ Hd) as Hx. destruct l as [|w l]; cbn [app] in E; [cbn in E; by subst x|].
  rewrite join_cons in E by (by destruct l). by apply app_eq_nil in E as [_ ?].
Qed.

Lemma split_words (ws : list str) n :
  plain_name n -> clean_words ws -> split_on is_slash (join §"/" (ws ++ [n])) = ws ++ [n].
Proof.
  intros Hn [Hf _]. apply (split_join is_slash "/"%char); [done|by destruct ws|]. apply Forall_app.
  split; [done|]. constructor; [by destruct Hn as (_ & ? & _)|done].
Qed.

Lemma parent_name n : plain_name n -> parent n = Some [].
Proof.
  intros Hn. apply (parent_snoc n 0 [] n); [done| |by apply split_plain].
  rewrite (plain_no_root n Hn). unfold include_cur_dir. rewrite split_plain by done.
  destruct Hn as (_ & _ & Hd & _). destruct (str_eqb n §".") eqn:E; [by apply str_eqb_eq in E|done].
Qed.

(** [parent] of a prefix, words and a name, by how the prefix opens the path. *)
Lemma parent_words pre ws n :
  plain_name n -> clean_words ws ->
  let p := pre ++ join §"/" (ws ++ [n]) in
  pre = take (if has_root p || include_cur_dir p then 1 else 0) p ->
  parent p = Some (pre ++ join §"/" ws).
Proof.
  intros Hn Hw p Hpre. set (start := if has_root p || include_cur_dir p then 1 else 0) in *.
  assert (drop start p = join §"/" (ws ++ [n])) as Hdrop.
  { pose proof (take_drop start p) as H. rewrite <-Hpre in H. by apply app_inv_head in H. }
  rewrite (parent_snoc p start ws n Hn eq_refl); [|by rewrite Hdrop, split_words].
  rewrite <-Hpre. by destruct Hw as [_ ->].
Qed.

Lemma has_root_cons p : has_root p = true <-> exists r, p = "/"%char :: r.
Proof. apply starts_with_spec. Qed.

Lemma include_cur_dir_spec p :
  include_cur_dir p = true <-> p = §"." \/ exists r, p = "."%char :: "/"%char :: r.
Proof.
  unfold include_cur_dir. split.
  - destruct (split_on is_slash p) as [|w ws] eqn:E; [done|]. intros ->%str_eqb_eq.
    rewrite <-(split_slash_join p), E. destruct ws as [|w ws]; [by left|]. right.
    rewrite join_cons by done. eauto.
  - intros [->|[r ->]]; [done|]. change (§".") with ["."%char]. cbn. reflexivity.
Qed.

(** A directory that [parent] names is found again from every path in it. *)
Lemma parent_join p d n : plain_name n -> parent p = Some d -> parent (path_join d n) = Some d.
Proof.
  intros Hn. unfold parent at 1.
  set (start := if has_root p || include_cur_dir p then 1 else 0).
  destruct (drop_blank_end (split_on is_slash (drop start p))) as [|w0 l0] eqn:E.
  { destruct (negb _ && _); [|done]. intros [= <-]. unfold path_join. rewrite (plain_no_root n Hn).
    by apply parent_name. }
  destruct (exists_last (l := w0 :: l0) ltac:(done)) as (rl & x & El). rewrite El in E |- *.
  rewrite removelast_last. intros [= <-].
  assert (exists post, split_on is_slash (drop start p) = drop_blank_end rl ++ post) as [post Hpost].
  { destruct (drop_blank_end_prefix (split_on is_slash (drop start p))) as (p1 & -> & _). rewrite E.
    destruct (drop_blank_end_prefix rl) as (p2 & H2 & _). 
    exists (p2 ++ [x] ++ p1). by rewrite (app_assoc _ p2), <-H2, app_assoc. }
  assert (drop_blank_end (drop_blank_end rl) = drop_blank_end rl) as Hidem by apply drop_blank_end_idem.
  revert Hpost Hidem. generalize (drop_blank_end rl) as ws. clear El E. intros ws Hpost Hidem.
  assert (clean_words ws) as Hws.
  { split; [|done]. pose proof (split_on_free is_slash (drop start p)) as Hf.
    rewrite Hpost in Hf. by apply Forall_app in Hf as [? _]. }
  assert (drop start p = join §"/" (ws ++ post)) as Hdp by (by rewrite <-Hpost, split_slash_join).
  destruct (has_root p) eqn:Hr; cbn [orb] in start.
  - apply has_root_cons in Hr as [r ->]. change (take start _) with (§"/").
    destruct ws as [|w ws].
    { unfold path_join. rewrite (plain_no_root n Hn). by apply (parent_words §"/" [] n). }
    rewrite path_join_words by done. by apply parent_words.
  - destruct (include_cur_dir p) eqn:Hc; cbn in start.
    + assert (take start p = §"." /\ (drop start p = [] \/ exists r, drop start p = "/"%char :: r)) as [-> Hd].
      { apply include_cur_dir_spec in Hc as [->|[r ->]]; split; [done|by left|done|right; by exists r]. }
      destruct ws as [|w ws].
      { unfold path_join. rewrite (plain_no_root n Hn).
        apply (parent_snoc (§"./" ++ n) 1 [[]] n); [done..|by apply (split_slash_snoc [] n)]. }
      assert (w = []) as -> by (destruct Hd as [Hd|[r Hd]]; rewrite Hd in Hpost; by injection Hpost).
      rewrite path_join_words by done. apply parent_words; [done..|]. cbn [app]. by rewrite join_cons by (by destruct ws).
    + change (take start p) with (@nil ascii). destruct ws as [|w ws].
      { unfold path_join. rewrite (plain_no_root n Hn). by apply parent_name. }
      rewrite path_join_words by done. apply parent_words; [done..|].
      assert (has_root ([] ++ join §"/" ((w :: ws) ++ [n])) = false) as ->.
      { apply not_true_is_false. intros [r Hr']%has_root_cons.
        pose proof (split_words (w :: ws) n Hn Hws) as Hs. change (join §"/" ((w :: ws) ++ [n]) = "/"%char :: r) in Hr'. rewrite Hr' in Hs. cbn in Hs.
        injection Hs as <- _. destruct ws as [|w' ws]; [by destruct Hws|].
        cbn [app] in Hdp. rewrite join_cons in Hdp by done. change (p = "/"%char :: join §"/" (w' :: ws ++ post)) in Hdp. by rewrite Hdp in Hr. }
      unfold include_cur_dir in Hc |- *. change ([] ++ ?l) with l. rewrite (split_words (w :: ws)) by done.
      change (drop start p) with p in Hpost. rewrite Hpost in Hc. cbn in Hc |- *. by rewrite Hc.
Qed.

Example parent_examples :
  map parent [§"a/b"; §"a"; §"/"; §"/a"; §"./a"; §"a//b/."; §""; §"."; §"a/./b"]
  = [Some §"a"; Some []; None; Some §"/"; Some §"."; Some §"a"; None; Some []; Some §"a"].
Proof. reflexivity. Qed.

(** ** The order of paths *)

Lemma comp_leb_total a b : comp_leb a b = true \/ comp_leb b a = true.
Proof.
  destruct a, b; simpl; auto. apply (total str_le).
Qed.

Lemma comp_leb_antisymm a b : comp_leb a b = true -> comp_leb b a = true -> a = b.
Proof.
  destruct a, b; simpl; try done. intros H1 H2. f_equal. by apply (anti_symm str_le).
Qed.

Lemma comp_leb_trans a b c : comp_leb a b = true -> comp_leb b c = true -> comp_leb a c = true.
Proof. destruct a, b, c; simpl; try done. apply (transitivity (R := str_le)). Qed.

Lemma comps_leb_total a b : comps_leb a b = true \/ comps_leb b a = true.
Proof.
  revert b; induction a as [|x a IH]; intros [|y b]; simpl; auto.
  destruct (decide (x = y)) as [->|Hne]; [rewrite bool_decide_eq_true_2 by done; apply IH|].
  rewrite !bool_decide_eq_false_2 by congruence. apply comp_leb_total.
Qed.

Lemma comps_leb_trans a b c :
  comps_leb a b = true -> comps_leb b c = true -> comps_leb a c = true.
Proof.
  revert b c; induction a as [|x a IH]; intros [|y b] [|z c]; simpl; try done.
  repeat case_bool_decide; subst; try done; eauto using comp_leb_trans.
  intros H1 H2. exfalso. eauto using comp_leb_antisymm.
Qed.
