(* ===== verification/TitleFilter.v ===== *)
(** Title sanitizing ([crates/core/src/utilities/title_filter.rs]): the filter
    that makes folder names out of titles, and the check that a derived name is
    one plain file-name component. *)

From stdpp Require Import base tactics option list strings.
From Stdlib Require Import ZArith Lia Ascii.
From S2P Require Import Prelude Text RelPath RustPath.

Record FilterSettings := {
  invalid_chars : str;
  replacement : str;
  max_length : nat;
  trim_whitespace : bool
}.

(** [replacements] is a [HashMap]: its pairs in iteration order. *)
Record TitleFilterConfig := {
  filters : FilterSettings;
  replacements : list (str * str)
}.

Definition default_settings : FilterSettings :=
  {| invalid_chars := §"/:*?" ++ ["034"%char] ++ §"<>|\"; replacement := §"_"; max_length := 255;
     trim_whitespace := true |}.

(** [str::replace] of a string: the matches from left to right, without
    overlap; an empty pattern matches at every character boundary. *)
Fixpoint replace_fuel (fuel : nat) (from to s : str) : str :=
  match fuel, s with
  | S fuel', c :: s' =>
      match strip_prefix from s with
      | Some rest => to ++ replace_fuel fuel' from to rest
      | None => c :: replace_fuel fuel' from to s'
      end
  | _, _ => s
  end.

Definition replace (from to s : str) : str :=
  match from with
  | [] => to ++ concat (map (fun ch => ch ++ to) (chars s))
  | _ => replace_fuel (length s) from to s
  end.

(** [String::truncate]: [None] when it panics, at a length that is not on a
    character boundary. *)
Definition truncate (n : nat) (s : str) : option str :=
  if (n <=? length s)%nat then if is_char_boundary s n then Some (take n s) else None
  else Some s.

(** The replacements, the invalid characters and the trimming: the text before
    it is cut to length. *)
Definition filter_title (title : str) (cfg : TitleFilterConfig) : str :=
  let result := fold_left (fun r ft => replace ft.1 ft.2 r) (replacements cfg) title in
  let invalid := chars (invalid_chars (filters cfg)) in
  let result :=
    concat (map (fun c =>
      if existsb (str_eqb c) invalid || char_is_control c
      then match chars (replacement (filters cfg)) with r :: _ => r | [] => §"_" end
      else c) (chars result)) in
  if trim_whitespace (filters cfg) then trim result else result.

(** [None] is the panic of [String::truncate].  The loop that follows it pops
    characters until the end of the string is a character boundary, which it
    always is, so it does nothing. *)
Definition sanitize_title_with_config (title : str) (cfg : TitleFilterConfig) : option str :=
  let result := filter_title title cfg in
  match (if (max_length (filters cfg) <? length result)%nat
         then truncate (max_length (filters cfg)) result else Some result) with
  | None => None
  | Some result => Some (match result with [] => §"untitled" | _ => result end)
  end.

Definition plain_file_component (candidate : str) : option str :=
  let candidate := trim candidate in
  match checked_relative_path candidate with
  | Ok checked => if (length (components checked) =? 1)%nat then Some candidate else None
  | Err _ => None
  end.

(** * Facts *)

Lemma is_char_boundary_end s : is_char_boundary s (length s) = true.
Proof.
  unfold is_char_boundary. destruct (length s) eqn:E; [done|].
  rewrite lookup_ge_None_2 by lia. by apply Nat.eqb_eq.
Qed.

Lemma classify_plain segments :
  Forall (fun c => c <> [] /\ c <> §"." /\ c <> §"..") segments ->
  classify segments = map Normal segments.
Proof.
  induction 1 as [|c cs (H1 & H2 & H3) Hcs IH]; [done|].
  unfold classify in *. cbn [List.filter].
  assert (blank c = false) as ->.
  { unfold blank, str_eqb. by rewrite !bool_decide_eq_false_2. }
  cbn [negb map]. f_equal; [|done]. unfold str_eqb. by rewrite bool_decide_eq_false_2.
Qed.

Lemma components_checked p :
  Forall (fun c => c <> [] /\ c <> §"." /\ c <> §"..") (split_on is_slash p) ->
  components p = map Normal (split_on is_slash p).
Proof.
  intros H. unfold components.
  assert (has_root p = false) as ->.
  { unfold has_root, starts_with. destruct (strip_prefix _ _) as [r|] eqn:E; [|done].
    apply strip_prefix_spec in E as ->. simpl in H. by inversion H as [|? ? [] _]. }
  assert (include_cur_dir p = false) as ->.
  { unfold include_cur_dir. destruct (split_on is_slash p) as [|s ss]; [done|].
    inversion H as [|? ? (_ & Hd & _) _]; subst. unfold str_eqb. by rewrite bool_decide_eq_false_2. }
  by apply classify_plain.
Qed.

(** * Properties *)

(** Whatever the configurable filter let through,
    a name [plain_file_component] accepts is the trimmed candidate, is exactly
    one path component (no separator of either kind) that the portable-path
    check accepts, and joining it to a directory names something directly inside
    that directory. *)
Theorem plain_file_component_spec candidate n dir :
  plain_file_component candidate = Some n ->
  n = trim candidate /\ split_on is_separator n = [n] /\ check_component n = Ok tt /\
  lexical_resolve dir [n] = dir ++ [n].
Proof.
  unfold plain_file_component. intros H.
  destruct (checked_relative_path (trim candidate)) as [p|] eqn:Hc; [|done].
  destruct (Nat.eqb _ _) eqn:Hlen; [|done]. injection H as <-. apply Nat.eqb_eq in Hlen.
  apply checked_relative_path_ok in Hc as (Hne & -> & Ha & Hb & Hall).
  set (t := trim candidate) in *. unfold checked_components in Hall.
  assert (Forall (fun c => c <> [] /\ c <> §"." /\ c <> §"..") (split_on is_slash (slashes t))) as Hn.
  { eapply Forall_impl; [exact Hall|]. apply check_component_name. }
  rewrite components_checked in Hlen by done. rewrite length_map in Hlen.
  destruct (split_on is_slash (slashes t)) as [|s [|]] eqn:Hs; try done.
  pose proof (join_split "/"%char (slashes t)) as Hj. fold is_slash in Hj.
  change (split_on (fun d => ascii_eqb d "/"%char) (slashes t)) with (split_on is_slash (slashes t)) in Hj.
  rewrite Hs in Hj. simpl in Hj. subst s.
  pose proof (split_on_free is_slash (slashes t)) as Hfree. rewrite Hs in Hfree.
  apply Forall_cons in Hfree as [Hfree _].
  assert (Forall (fun c => is_separator c = false) t) as Hsep.
  { apply Forall_forall. intros c Hin. apply not_true_is_false. intros Hcs.
    rewrite Forall_forall in Hfree.
    assert ("/"%char ∈ slashes t) as Hin'; [|by apply Hfree in Hin'].
    unfold is_separator in Hcs. apply orb_true_iff in Hcs.
    apply list_elem_of_fmap. exists c. split; [|done].
    destruct Hcs as [Hcs|Hcs]; apply ascii_eqb_eq in Hcs as ->; reflexivity. }
  assert (slashes t = t) as Ht.
  { apply slashes_id. eapply Forall_impl; [exact Hsep|]. unfold is_separator.
    intros c Hcs. by apply orb_false_iff in Hcs as [_ ?]. }
  rewrite Ht in *. apply Forall_cons in Hall as [Hall _].
  split_and!; [done|by apply split_on_none|done|].
  by apply lexical_resolve_plain.
Qed.

Lemma plain_file_component_spec_witness :
  plain_file_component §"  v1.2 [patched] " = Some §"v1.2 [patched]" /\
  lexical_resolve [§"out"] [§"v1.2 [patched]"] = [§"out"; §"v1.2 [patched]"].
Proof.
  assert (plain_file_component §"  v1.2 [patched] " = Some §"v1.2 [patched]") as H by reflexivity.
  split; [exact H|]. exact (proj2 (proj2 (proj2 (plain_file_component_spec _ _ [§"out"] H)))).
Defined.

(** An [a] followed by eighty-five three-byte characters: 256 bytes, and byte
    255 is inside the last of them. *)
Definition long_title : str := §"a" ++ concat (repeat ["227"; "130"; "162"]%char 85).

(** With the default settings a title one byte over
    the limit whose last character spans the limit makes [sanitize_title] panic:
    [String::truncate] demands a character boundary, and the loop that was meant
    to restore one runs only after it. *)
Theorem sanitize_title_panics :
  utf8_valid long_title = true /\ length long_title = 256 /\
  sanitize_title_with_config long_title {| filters := default_settings; replacements := [] |} = None.
Proof. vm_compute. auto. Qed.

(** That is the only way it fails: when the filtered
    text fits, or the limit falls between two of its characters, a non-empty
    title of at most the limit (or the eight bytes of [untitled]) comes back. *)
Theorem sanitize_title_total title cfg :
  let text := filter_title title cfg in
  let limit := max_length (filters cfg) in
  (length text <= limit)%nat \/ is_char_boundary text limit = true <->
  exists r, sanitize_title_with_config title cfg = Some r /\ r <> [] /\
            (length r <= Nat.max limit 8)%nat.
Proof.
  intros text limit. unfold sanitize_title_with_config. fold text limit.
  destruct (Nat.ltb_spec limit (length text)) as [Hlt|Hle].
  - unfold truncate. destruct (Nat.leb_spec limit (length text)) as [_|]; [|lia].
    destruct (is_char_boundary text limit) eqn:Hb.
    + split; [|by right]. intros _. eexists. split; [done|].
      pose proof (length_take text limit) as Hlen.
      destruct (take limit text); simpl in *; split; try done; lia.
    + split; [intros [?|?]; [lia|done]|by intros (? & ? & _)].
  - split; [|by left]. intros _. eexists. split; [done|].
    destruct text; simpl in *; split; try done; lia.
Qed.
