(* ===== verification/Planner.v ===== *)
(** Plan construction
    ([crates/core/src/features/organization/engine/plan_builder.rs] and
    [engine/mod.rs]): matching rules, filling each output of a layout, validating
    the paths of the plan, and [create_plan], which puts them together. *)

From stdpp Require Import base tactics option list gmap sorting strings.
From Stdlib Require Import ZArith Lia Ascii.
From S2P Require Import Prelude Text RelPath RustPath Archive PathTree Layout ModInfo Outputs TitleFilter.
Local Open Scope arclain_scope.

(** ** What the planner takes from other crates

    The [regex] crate and [serde_json]: compiling and running a pattern,
    reading and writing JSON.  Nothing is assumed of them. *)

Inductive Json :=
| JNull
| JBool (b : bool)
| JNumber (printed : str)
| JString (s : str)
| JArray (items : list Json)
| JObject (fields : list (str * Json)).

(** The groups of one match, by index and by name. *)
Record Captures := {
  group : nat -> option str;
  named_group : str -> option str
}.

Class Externals := {
  Regex : Type;
  regex_new : str -> option Regex;
  is_match : Regex -> str -> bool;
  captures : Regex -> str -> option Captures;
  captures_iter : Regex -> str -> list Captures;
  capture_names : Regex -> list (option str);
  json_from_str : str -> option Json;
  to_string_pretty : GameMetadata -> option str
}.

(** ** The plan ([engine/mod.rs]) *)

Record PendingDownload := {
  download_product_id : option str;
  download_url : str;
  dest_path : str;
  cache_key : str;
  cached : bool
}.

Record PlannedOutput := {
  root_folder : str;
  root_folder_template : str;
  moves : list (str * str);
  generated_files : list (str * str);
  downloads : list PendingDownload;
  resolved_variables : variables;
  reasoning : list str
}.

Record OrganizationPlan := {
  plan_rule_name : str;
  plan_outputs : list PlannedOutput;
  skipped_outputs : list (str * str)
}.

(** The trait [StagedContent], implemented by the plan's outputs here and by the
    facade's transfer objects elsewhere. *)
Class StagedContent (O : Type) := staged_counts : O -> nat * nat * nat.

Definition stages_nothing {O} `{!StagedContent O} (o : O) : bool :=
  bool_decide (staged_counts o = (0, 0, 0)).

Definition plan_stages_nothing {O} `{!StagedContent O} (os : list O) : bool :=
  forallb stages_nothing os.

#[export] Instance PlannedOutput_staged : StagedContent PlannedOutput :=
  fun o => (length (moves o), length (generated_files o), length (downloads o)).

(** One constructor per [bail!], error of a callee, or panic. *)
Inductive PlanError :=
| OutputsFailed (e : OutputsError)
| UnreachablePlacements (index after : nat)
| SameDestination (d : str)
| MergeableDestinations (first second : str)
| TopLevelAmongSiblings (index count : nat)
| InvalidRootFolder (e : PathError)
| InvalidMoveSource (p : str) (e : PathError)
| InvalidMoveDestination (p : str) (e : PathError)
| InvalidGeneratedPath (p : str) (e : PathError)
| InvalidDownloadPath (p : str) (e : PathError)
| DuplicateDestination (p : str)
| TitlePanicked.

Definition map_err {E F A} (f : E -> F) (r : result E A) : result F A :=
  match r with Ok a => Ok a | Err e => Err (f e) end.

(** ** Destinations and globs *)

(** The head of the path is ASCII-case-equal to the prefix and a separator
    follows it. *)
Definition under_directory (path prefix : str) : bool :=
  let head := length prefix in
  (head <? length path)%nat && is_char_boundary path head
  && eq_ignore_ascii_case (take head path) prefix
  && match path !! head with Some c => is_slash c | None => false end.

Definition under_root (path root : str) : bool :=
  let head := length root in
  (head <? length path)%nat && starts_with path root
  && match path !! head with Some c => is_slash c | None => false end.

Definition strip_directory (path prefix : str) : str :=
  if is_empty prefix || negb (under_directory path prefix) then path
  else drop (S (length prefix)) path.

(** The segments that name something, of every part in turn. *)
Definition destination_segments (parts : list str) : list str :=
  flat_map (fun part => List.filter (fun s => negb (is_empty s || str_eqb s §"."))
                          (split_on is_separator part)) parts.

(** The loop of [join_destination] over one part. *)
Definition push_segment (joined segment : str) : str :=
  if is_empty segment || str_eqb segment §"." then joined
  else (if is_empty joined then joined else joined ++ §"/") ++ segment.

Definition join_destination (parts : list str) : str :=
  fold_left (fun joined part => fold_left push_segment (split_on is_separator part) joined) parts [].

(** [rsplit_once('/')], then the segments up to the first wildcard. *)
Fixpoint take_literal (segments : list str) : list str :=
  match segments with
  | [] => []
  | s :: rest =>
      if contains_char (fun c => ascii_eqb c "*"%char) s
         || contains_char (fun c => ascii_eqb c "?"%char) s
      then [] else s :: take_literal rest
  end.

Definition literal_directory_prefix (glob : str) : str :=
  match rfind_char is_slash glob with
  | None => []
  | Some at_ => join §"/" (take_literal (split_on is_slash (take at_ glob)))
  end.

Definition url_extension (url : str) : str := default §"jpg" (extension url).

Section planner.
Context {UT : UnicodeTables} {EX : Externals}.

Definition matches_glob (pattern path : str) : bool :=
  if str_eqb pattern §"**" then true
  else if starts_with pattern §"*." then
    ends_with (to_lowercase path) (to_lowercase (drop 1 pattern))
  else match strip_suffix §"/**" pattern with
       | Some directory => under_directory (slashes path) directory
       | None =>
           if str_eqb pattern path then true
           else match file_name path with
                | Some name => str_eqb name pattern
                | None => false
                end
       end.

(** ** Rules *)

Definition matches_trigger (trigger : RuleTrigger) (archive_name : str)
    (entries : list ArchiveEntry) (game_metadata : option GameMetadata) : bool :=
  let rest :=
    if negb (match filename_pattern trigger with
             | Some pattern =>
                 match regex_new pattern with
                 | Some re => is_match re archive_name
                 | None => false
                 end
             | None => true
             end) then false
    else
      match has_file trigger with
      | Some file_glob => existsb (fun e => contains_str (path e) file_glob) entries
      | None => true
      end in
  match metadata_source trigger with
  | Some source_trigger =>
      match game_metadata with
      | Some metadata => eq_ignore_ascii_case (source metadata) source_trigger
      | None => false
      end
  | None => rest
  end.

Definition higher_priority (a b : OrganizationRule) : Prop := (priority b <= priority a)%Z.

#[global] Instance higher_priority_dec : RelDecision higher_priority.
Proof. intros a b. unfold higher_priority. apply _. Defined.

Definition find_matching_rules (rules : list OrganizationRule) (archive_name : str)
    (entries : list ArchiveEntry) (game_metadata : option GameMetadata)
  : list OrganizationRule :=
  stable_sort higher_priority
    (List.filter (fun rule => is_enabled rule
                    && matches_trigger (trigger rule) archive_name entries game_metadata) rules).

(** ** Content-root detection *)

Record DetectedContentRoot := {
  detected_path : str;
  score : nat;
  evidence : list str
}.

Definition game_indicators : list str :=
  [§"Game.exe"; §"game.exe"; §"nw.exe"; §"index.html"; §"package.json"; §"www"; §"data"; §"js"].

Definition is_indicator (name : str) : bool := existsb (eq_ignore_ascii_case name) game_indicators.

Definition push_or_default (x : str) (v : option (list str)) : list str := default [] v ++ [x].

(** The standard indicators of every directory. *)
Definition named_indicators (entries : list ArchiveEntry) : list (str * list str) :=
  fold_left (fun m entry =>
    match parent (path entry), file_name (path entry) with
    | Some dir, Some fname => if is_indicator fname then path_alter dir (push_or_default fname) m else m
    | _, _ => m
    end) entries [].

(** One executable per directory, the smallest name. *)
Definition executables_of (entries : list ArchiveEntry) : list (str * str) :=
  fold_left (fun m entry =>
    match parent (path entry), file_name (path entry) with
    | Some dir, Some fname =>
        if negb (is_dir entry) && ends_with (to_lowercase fname) §".exe" then
          path_alter dir (fun smallest =>
            match smallest with
            | Some s => if negb (str_leb s fname) then fname else s
            | None => fname
            end) m
        else m
    | _, _ => m
    end) entries [].

(** The chain of directories above a path.  Each is shorter than the last
    ([parent_shorter]), so the path's length bounds it. *)
Fixpoint implied_loop (fuel : nat) (cursor : option str) (m : list (str * unit))
  : list (str * unit) :=
  match fuel, cursor with
  | S fuel', Some dir =>
      if is_empty dir then m
      else implied_loop fuel' (parent dir) (path_alter dir (fun _ => tt) m)
  | _, _ => m
  end.

Definition implied_dirs (entries : list ArchiveEntry) : list (str * unit) :=
  fold_left (fun m entry => implied_loop (S (length (path entry))) (parent (path entry)) m)
    entries [].

(** The evidence of every directory, in three passes. *)
Definition scored_directories (entries : list ArchiveEntry) : list (str * list str) :=
  let scored :=
    fold_left (fun m dn => path_alter dn.1 (fun v => default [] v ++ merge_sort str_le dn.2) m)
      (named_indicators entries) [] in
  let scored :=
    fold_left (fun m de =>
      path_alter de.1 (push_or_default (§"an executable (" ++ de.2 ++ §")")) m)
      (executables_of entries) scored in
  fold_left (fun m du =>
    match parent du.1, file_name du.1 with
    | Some p, Some name =>
        if is_indicator name then path_alter p (push_or_default (§"a " ++ name ++ §"/ folder")) m
        else m
    | _, _ => m
    end) (implied_dirs entries) scored.

Definition better (a b : str * list str) : Prop :=
  (length b.2 < length a.2)%nat \/ (length a.2 = length b.2 /\ path_leb a.1 b.1 = true).

#[global] Instance better_dec : RelDecision better.
Proof. intros a b. unfold better. apply _. Defined.

(** [while !path.starts_with(&common) { if !common.pop() { break } }] *)
Fixpoint pop_until_prefix (fuel : nat) (path common : str) : str :=
  match fuel with
  | 0 => common
  | S fuel' =>
      if path_starts_with path common then common
      else match parent common with
           | Some up => pop_until_prefix fuel' path up
           | None => common
           end
  end.

Definition common_root (entries : list ArchiveEntry) : str :=
  match entries with
  | [] => []
  | first :: rest =>
      fold_left (fun common e => pop_until_prefix (S (length common)) (path e) common) rest
        (default [] (parent (path first)))
  end.

Definition detect_content_root (entries : list ArchiveEntry) : DetectedContentRoot :=
  match merge_sort better (scored_directories entries) with
  | (dir, ev) :: _ =>
      if (2 <=? length ev)%nat
      then {| detected_path := dir; score := length ev; evidence := ev |}
      else {| detected_path := common_root entries; score := 0; evidence := [] |}
  | [] => {| detected_path := common_root entries; score := 0; evidence := [] |}
  end.

Definition describe_content_root (detected : DetectedContentRoot) : str :=
  let folder := if is_empty (detected_path detected) then §"the output's root"
                else detected_path detected in
  match evidence detected with
  | [] => §"nothing scored as a content root, so " ++ folder ++ §" is the payload"
  | ev => §"content root " ++ folder ++ §" scored " ++ decimal (N.of_nat (score detected))
          ++ §" on " ++ join §", " ev
  end.

(** ** The variables every template starts from *)

Fixpoint flatten_json_value (value : Json) (prefix : str) (acc : variables) : variables :=
  match value with
  | JNull => acc
  | JBool b => <[prefix := if b then §"true" else §"false"]> acc
  | JNumber n => <[prefix := n]> acc
  | JString s => <[prefix := s]> acc
  | JArray _ => acc
  | JObject fields =>
      (fix go (fields : list (str * Json)) (acc : variables) : variables :=
         match fields with
         | [] => acc
         | (k, v) :: rest =>
             let new_prefix := if is_empty prefix then k else prefix ++ §"." ++ k in
             go rest (flatten_json_value v new_prefix acc)
         end) fields acc
  end.

Definition version_pattern : str := §"[vV](\d+(\.\d+)+)".
Definition tag_pattern : str := §"\[([^\]]+)\]".

(** The first group of the pattern's first match. *)
Definition first_group (pattern text : str) : option str :=
  match regex_new pattern with
  | Some re => match captures re text with Some caps => group caps 1 | None => None end
  | None => None
  end.

Definition insert_some (k : str) (v : option str) (m : variables) : variables :=
  match v with Some x => <[k := x]> m | None => m end.

Definition metadata_fields (cfg : TitleFilterConfig) (gm : GameMetadata)
  : result PlanError variables :=
  let? filtered := ok_or (sanitize_title_with_config (title gm) cfg) TitlePanicked in
  let m := <[§"filtered_title" := filtered]>
             (<[§"title" := title gm]> (<[§"source" := source gm]>
               (<[§"product_id" := product_id gm]> ∅))) in
  let m := insert_some §"circle" (creator gm) (insert_some §"creator" (creator gm) m) in
  let m := insert_some §"release_date" (release_date gm) m in
  Ok (match json_from_str (metadata_json gm) with
      | Some json => flatten_json_value json [] m
      | None => m
      end).

Definition filename_captures (rule : OrganizationRule) (archive_name : str) (m : variables)
  : variables :=
  match filename_pattern (trigger rule) with
  | Some pattern =>
      match regex_new pattern with
      | Some re =>
          match captures re archive_name with
          | Some caps =>
              fold_left (fun m name =>
                match name with
                | Some name => insert_some name (named_group caps name) m
                | None => m
                end) (capture_names re) m
          | None => m
          end
      | None => m
      end
  | None => m
  end.

Definition content_root_variables (content_root : option str) (m : variables) : variables :=
  match content_root with
  | Some root_path =>
      match file_name root_path with
      | Some folder_name =>
          let m := insert_some §"version" (first_group version_pattern folder_name) m in
          match regex_new tag_pattern with
          | Some re =>
              match omap (fun cap => group cap 1) (captures_iter re folder_name) with
              | [] => m
              | found => <[§"folder_name" := folder_name]>
                           (<[§"root_tags" := join §", " found]> m)
              end
          | None => m
          end
      | None => m
      end
  | None => m
  end.

Definition build_metadata_map (cfg : TitleFilterConfig) (rule : OrganizationRule)
    (archive_name : str) (game_metadata : option GameMetadata) (content_root : option str)
  : result PlanError variables :=
  let? m := match game_metadata with
            | Some gm => metadata_fields cfg gm
            | None => Ok ∅
            end in
  let m := filename_captures rule archive_name m in
  let m := insert_some §"version" (first_group version_pattern archive_name) m in
  Ok (content_root_variables content_root m).

(** ** Filling an output *)

Record ScopedEntry := {
  scoped_source : str;
  relative : ArchiveEntry
}.

Definition with_path (e : ArchiveEntry) (p : str) : ArchiveEntry :=
  {| path := p; size := size e; packed_size := packed_size e; modified := modified e;
     is_dir := is_dir e; encrypted := encrypted e; crc32 := crc32 e |}.

Definition scope_entry (root : str) (entry : ArchiveEntry) : option ScopedEntry :=
  if is_dir entry then None
  else
    let p := slashes (path entry) in
    if is_empty root then Some {| scoped_source := path entry; relative := with_path entry p |}
    else if under_root p root then
      Some {| scoped_source := path entry;
              relative := with_path entry (drop (S (length root)) p) |}
    else None.

Definition scope_entries (root : str) (entries : list ArchiveEntry) : list ScopedEntry :=
  omap (scope_entry (slashes root)) entries.

Fixpoint refuse_unreachable_from (index : nat) (ps : list Placement) : result PlanError unit :=
  match ps with
  | [] => Ok tt
  | p :: rest =>
      match from p with
      | All => if (0 <? length rest)%nat then Err (UnreachablePlacements (S index) (length rest))
               else refuse_unreachable_from (S index) rest
      | _ => refuse_unreachable_from (S index) rest
      end
  end.

Definition refuse_unreachable_placements (ps : list Placement) : result PlanError unit :=
  refuse_unreachable_from 0 ps.

Definition claim_destination (taken : gmap str str) (destination : str)
  : result PlanError (gmap str str) :=
  match taken !! to_uppercase destination with
  | None => Ok (<[to_uppercase destination := destination]> taken)
  | Some first =>
      if str_eqb first destination then Err (SameDestination destination)
      else Err (MergeableDestinations first destination)
  end.

Definition describe_source (f : Source) : str :=
  match f with
  | All => §"everything under the output's root"
  | Matching glob => §"the glob " ++ debug_str glob
  | ContentRoot => §"the content root"
  end.

Definition describe_destination (name into : str) : str :=
  let destination := join_destination [name; into] in
  if is_empty destination then §"the output's root" else destination.

Definition describe_output_folder (name : str) : str :=
  if is_empty name then §"the top level of the result" else debug_str name.

Definition count_files (count : nat) : str :=
  match count with
  | 0 => §"nothing"
  | 1 => §"1 file"
  | many => decimal (N.of_nat many) ++ §" files"
  end.

Definition note_unset (rs : list str) (what template : str) (unset : list str) : list str :=
  match unset with
  | [] => rs
  | _ => rs ++ [§"the " ++ what ++ §" " ++ debug_str template ++ §" needs "
                ++ join §", " (map (fun t => §"$" ++ t) unset) ++ §", which nothing set"]
  end.

Definition metadata_document (metadata : GameMetadata) : option str :=
  if is_empty (trim (metadata_json metadata)) then to_string_pretty metadata
  else Some (metadata_json metadata).

(** Whether a placement matches a file, given the folder it located. *)
Definition placement_matches (f : Source) (located p : str) : bool :=
  match f with
  | All => true
  | Matching glob => matches_glob glob p
  | ContentRoot => is_empty located || under_directory p located
  end.

(** The folder a placement located, and the line that explains it. *)
Definition locate (f : Source) (scoped : list ScopedEntry) : str * list str :=
  match f with
  | All => ([], [])
  | Matching glob => (literal_directory_prefix glob, [])
  | ContentRoot =>
      let detected := detect_content_root (map relative scoped) in
      (slashes (detected_path detected), [describe_content_root detected])
  end.

Definition destination_of (o : ResolvedOutput) (into located p : str) : str :=
  join_destination [name o; into; strip_directory p located].

Record FillState := {
  taken : gmap str str;
  fill_moves : list (str * str);
  fill_reasoning : list str
}.

(** The inner loop: [files] pairs every scoped file with its [claimed] flag;
    the flags, the destinations, the moves and the count come back. *)
Fixpoint place_files (o : ResolvedOutput) (f : Source) (into located : str)
    (files : list (ScopedEntry * bool)) (tk : gmap str str) (mv : list (str * str)) (placed : nat)
  : result PlanError (list (ScopedEntry * bool) * gmap str str * list (str * str) * nat) :=
  match files with
  | [] => Ok ([], tk, mv, placed)
  | (file, claimed) :: rest =>
      let p := path (relative file) in
      if claimed || negb (placement_matches f located p) then
        let? (rest', tk', mv', n) := place_files o f into located rest tk mv placed in
        Ok ((file, claimed) :: rest', tk', mv', n)
      else
        let destination := destination_of o into located p in
        let? tk1 := claim_destination tk destination in
        let? (rest', tk', mv', n) :=
          place_files o f into located rest tk1 (mv ++ [(scoped_source file, destination)])
            (S placed) in
        Ok ((file, true) :: rest', tk', mv', n)
  end.

(** One turn of the loop over the placements. *)
Definition fill_placement (o : ResolvedOutput) (scoped : list ScopedEntry)
    (acc : list (ScopedEntry * bool) * FillState) (placement : Placement)
  : result PlanError (list (ScopedEntry * bool) * FillState) :=
  let '(files, st) := acc in
  let '(located, said) := locate (from placement) scoped in
  let '(target, unset) := expand (into placement) (vars o) in
  let rs := note_unset (fill_reasoning st ++ said) §"destination" (into placement) unset in
  let? (files', tk, mv, placed) :=
    place_files o (from placement) target located files (taken st) (fill_moves st) 0 in
  Ok (files',
      {| taken := tk; fill_moves := mv;
         fill_reasoning := rs ++ [describe_source (from placement) ++ §" placed "
           ++ count_files placed ++ §" into " ++ describe_destination (name o) target] |}).

(** What no placement matched, said with the first three names. *)
Definition left_behind (files : list (ScopedEntry * bool)) : list str :=
  map (fun fc => path (relative fc.1)) (List.filter (fun fc => negb fc.2) files).

Definition describe_left (left : list str) : list str :=
  match left with
  | [] => []
  | _ =>
      let shown := Nat.min (length left) 3 in
      let rest := (length left - shown)%nat in
      [count_files (length left) ++ §" matched no placement and "
       ++ (if (length left =? 1)%nat then §"was" else §"were") ++ §" not carried: "
       ++ join §", " (take shown left)
       ++ (if (0 <? rest)%nat then §", and " ++ decimal (N.of_nat rest) ++ §" more" else [])]
  end.

(** The loop over the generated files. *)
Definition fill_generated (o : ResolvedOutput) (metadata : option GameMetadata)
    (acc : gmap str str * list (str * str) * list str) (g : Generated)
  : result PlanError (gmap str str * list (str * str) * list str) :=
  let '(tk, gen, rs) := acc in
  match content g with
  | MetadataDocument =>
      match metadata ≫= metadata_document with
      | None => Ok (tk, gen, rs)
      | Some document =>
          let '(target, unset) := expand (generated_into g) (vars o) in
          let rs := note_unset rs §"generated file" (generated_into g) unset in
          let destination := join_destination [name o; target] in
          let? tk := claim_destination tk destination in
          Ok (tk, gen ++ [(destination, document)], rs)
      end
  end.

(** [format!("{:03}", n)]. *)
Definition padded3 (n : nat) : str :=
  let d := decimal (N.of_nat n) in repeat "0"%char (3 - length d) ++ d.

Definition screenshot_cache_key (game : GameMetadata) (is_dlsite : bool) (index : nat) : str :=
  if is_dlsite then §"dlsite:" ++ product_id game ++ §":screenshot_" ++ decimal (N.of_nat index)
  else §"screenshot:" ++ product_id game ++ §":" ++ decimal (N.of_nat index).

(** One screenshot of the loop of a fetch. *)
Definition fetch_screenshot (o : ResolvedOutput) (f : Fetched) (game : GameMetadata)
    (is_dlsite : bool) (target : str)
    (acc : gmap str str * list PendingDownload * list str) (shot : nat * ScreenshotData)
  : result PlanError (gmap str str * list PendingDownload * list str) :=
  let '(tk, dls, rs) := acc in
  let '(index, screenshot) := shot in
  match screenshot with
  | Url url =>
      let vs := <[§"ext" := url_extension url]> (<[§"index" := padded3 (S index)]> (vars o)) in
      let '(nm, unset) := expand (fetched_name f) vs in
      let rs := note_unset rs §"fetched file name" (fetched_name f) unset in
      let destination := join_destination [name o; target; nm] in
      let? tk := claim_destination tk destination in
      Ok (tk,
          dls ++ [{| download_product_id := if is_dlsite then Some (product_id game) else None;
                     download_url := url; dest_path := destination;
                     cache_key := screenshot_cache_key game is_dlsite index;
                     cached := false |}],
          rs)
  | FilePath _ | Base64 _ => Ok (tk, dls, rs)
  end.

Definition fill_fetched (o : ResolvedOutput) (metadata : option GameMetadata)
    (acc : gmap str str * list PendingDownload * list str) (f : Fetched)
  : result PlanError (gmap str str * list PendingDownload * list str) :=
  let '(tk, dls, rs) := acc in
  match fetch_source f with
  | Screenshots =>
      match metadata with
      | None => Ok (tk, dls, rs)
      | Some game =>
          let is_dlsite := eq_ignore_ascii_case (source game) §"dlsite" in
          let '(target, unset) := expand (fetched_into f) (vars o) in
          let rs := note_unset rs §"fetch destination" (fetched_into f) unset in
          try_fold (fetch_screenshot o f game is_dlsite target) (tk, dls, rs)
            (imap (fun i s => (i, s)) (screenshots game))
      end
  end.

(** [reasoning.retain(|line| said.insert(line.clone()))]: first occurrences. *)
Definition retain_first (rs : list str) : list str := fold_left push_missing rs [].

Definition fill_output (l : Layout) (o : ResolvedOutput) (entries : list ArchiveEntry)
    (metadata : option GameMetadata) : result PlanError PlannedOutput :=
  let? _ := refuse_unreachable_placements (place l) in
  let scoped := scope_entries (root o) entries in
  let? (files, st) :=
    try_fold (fill_placement o scoped)
      (map (fun f => (f, false)) scoped,
       {| taken := ∅; fill_moves := []; fill_reasoning := [] |}) (place l) in
  let rs := fill_reasoning st ++ describe_left (left_behind files) in
  let? (tk, gen, rs) := try_fold (fill_generated o metadata) (taken st, [], rs) (generate l) in
  let? (tk, dls, rs) := try_fold (fill_fetched o metadata) (tk, [], rs) (fetch l) in
  Ok {| root_folder := name o; root_folder_template := layout_name l;
        moves := fill_moves st; generated_files := gen; downloads := dls;
        resolved_variables := vars o; reasoning := retain_first rs |}.

(** ** Validation and assembly *)

(** Claims a checked destination: [HashSet::insert] of its collision key. *)
Definition validate_destination (wrap : PathError -> PlanError) (seen : gset str) (p : str)
  : result PlanError (gset str) :=
  let? checked := map_err wrap (checked_relative_path p) in
  let k := to_uppercase (slashes checked) in
  if bool_decide (k ∈ seen) then Err (DuplicateDestination checked) else Ok ({[ k ]} ∪ seen).

Definition validate_output (count : nat) (seen : gset str) (io : nat * PlannedOutput)
  : result PlanError (gset str) :=
  let '(index, output) := io in
  let? _ :=
    if is_empty (root_folder output) then
      if (1 <? count)%nat then Err (TopLevelAmongSiblings index count) else Ok tt
    else map_err InvalidRootFolder
           (let? _ := checked_relative_path (root_folder output) in Ok tt) in
  let? seen :=
    try_fold (fun seen sd =>
      let? _ := map_err (InvalidMoveSource sd.1) (checked_relative_path sd.1) in
      validate_destination (InvalidMoveDestination sd.2) seen sd.2) seen (moves output) in
  let? seen :=
    try_fold (fun seen pc => validate_destination (InvalidGeneratedPath pc.1) seen pc.1) seen
      (generated_files output) in
  try_fold (fun seen d => validate_destination (InvalidDownloadPath (dest_path d)) seen (dest_path d))
    seen (downloads output).

Definition validate_paths (plan : OrganizationPlan) : result PlanError unit :=
  let? _ := try_fold (validate_output (length (plan_outputs plan))) ∅
              (imap (fun i o => (i, o)) (plan_outputs plan)) in
  Ok tt.

Definition report_outputs_that_carry_nothing (plan : OrganizationPlan)
    (located : list ResolvedOutput) : OrganizationPlan :=
  let pairs := zip (plan_outputs plan) located in
  {| plan_rule_name := plan_rule_name plan;
     plan_outputs := map fst (List.filter (fun ol => negb (stages_nothing ol.1)) pairs);
     skipped_outputs := skipped_outputs plan ++
       map (fun ol => (slashes (root ol.2),
         §"nothing was placed into " ++ describe_output_folder (root_folder ol.1)
         ++ §", and the layout generates and fetches nothing into it, so the run would produce no such folder"))
         (List.filter (fun ol => stages_nothing ol.1) pairs) |}.

Definition names_a_content_root (l : Layout) : bool :=
  existsb (fun p => match from p with ContentRoot => true | _ => false end) (place l).

Definition is_whole (s : OutputSelector) : bool :=
  match s with Whole => true | _ => false end.

Definition create_plan (cfg : TitleFilterConfig) (rule : OrganizationRule) (input_name : str)
    (entries : list ArchiveEntry) (game_metadata : option GameMetadata)
    (read_entry : str -> option str) : result PlanError OrganizationPlan :=
  let entries := prune_entries entries in
  let l := layout (actions rule) in
  let content_root :=
    if names_a_content_root l && is_whole (layout_outputs l)
    then Some (detected_path (detect_content_root entries)) else None in
  let? base_variables := build_metadata_map cfg rule input_name game_metadata content_root in
  let? resolved := map_err OutputsFailed (resolve_outputs l entries base_variables read_entry) in
  let? outs :=
    try_fold (fun outs o =>
      let? filled := fill_output l o entries game_metadata in Ok (outs ++ [filled]))
      [] (outputs resolved) in
  let plan := {| plan_rule_name := rule_name rule; plan_outputs := outs;
                 skipped_outputs := skipped resolved |} in
  let? _ := validate_paths plan in
  Ok (report_outputs_that_carry_nothing plan (outputs resolved)).
End planner.
