(* ===== verification/PlannerProps.v ===== *)
(** What the planner guarantees: destinations, the partition of the archive
    between the outputs, the placements, the validation and the whole plan. *)

From stdpp Require Import base tactics option list gmap sorting strings.
From Stdlib Require Import ZArith Lia Ascii.
From S2P Require Import Prelude Text RelPath RustPath Archive PathTree Layout ModInfo Outputs TitleFilter Planner.
Local Open Scope arclain_scope.
#[local] Arguments String.list_ascii_of_string : simpl never.

(** * Destinations *)

Lemma push_segment_kept joined s :
  s <> [] -> s <> §"." ->
  push_segment joined s = (if is_empty joined then s else joined ++ §"/" ++ s).
Proof.
  intros H1 H2. unfold push_segment.
  assert (is_empty s = false) as -> by by apply is_empty_false.
  assert (str_eqb s §"." = false) as -> by (unfold str_eqb; by rewrite bool_decide_eq_false_2).
  simpl. destruct (is_empty joined) eqn:E; [by apply is_empty_true in E as ->|].
  by rewrite <-app_assoc.
Qed.

Definition keep_segment (s : str) : bool := negb (is_empty s || str_eqb s §".").

Lemma keep_segment_true s : keep_segment s = true <-> s <> [] /\ s <> §".".
Proof.
  unfold keep_segment. rewrite negb_true_iff, orb_false_iff, is_empty_false.
  unfold str_eqb. by rewrite bool_decide_eq_false.
Qed.

Lemma join_nonempty ws : ws <> [] -> Forall (fun s => keep_segment s = true) ws -> join §"/" ws <> [].
Proof.
  intros Hne Hall. destruct ws as [|w ws]; [done|]. apply Forall_cons in Hall as [Hw _].
  apply keep_segment_true in Hw as [Hw _]. destruct ws; simpl; [done|]. by destruct w.
Qed.

Lemma join_snoc ws w : ws <> [] -> join §"/" (ws ++ [w]) = join §"/" ws ++ §"/" ++ w.
Proof.
  induction ws as [|v ws IH]; [done|]. intros _. destruct ws as [|v' ws]; [done|].
  change ((v :: v' :: ws) ++ [w]) with (v :: ((v' :: ws) ++ [w])).
  rewrite !(join_cons _ v) by done. rewrite IH by done. by rewrite <-!app_assoc.
Qed.

Lemma push_segments ws segs :
  Forall (fun s => keep_segment s = true) ws ->
  fold_left push_segment segs (join §"/" ws) = join §"/" (ws ++ List.filter keep_segment segs).
Proof.
  revert ws; induction segs as [|s segs IH]; intros ws Hws; simpl; [by rewrite app_nil_r|].
  destruct (keep_segment s) eqn:E.
  - assert (push_segment (join §"/" ws) s = join §"/" (ws ++ [s])) as ->.
    { pose proof E as E'. apply keep_segment_true in E' as [H1 H2].
      rewrite push_segment_kept by done. destruct ws as [|w ws]; [done|].
      assert (is_empty (join §"/" (w :: ws)) = false) as ->
        by (apply is_empty_false; by apply join_nonempty).
      by rewrite join_snoc. }
    rewrite IH by (apply Forall_app; split; [done|by constructor]).
    by rewrite <-app_assoc.
  - assert (push_segment (join §"/" ws) s = join §"/" ws) as ->.
    { unfold keep_segment in E. apply negb_false_iff in E. unfold push_segment. by rewrite E. }
    by apply IH.
Qed.

Lemma destination_segments_kept parts :
  Forall (fun s => keep_segment s = true) (destination_segments parts).
Proof.
  unfold destination_segments. apply Forall_forall. intros s Hs.
  apply list_elem_of_In, in_flat_map in Hs as (p & _ & Hs). by apply filter_In in Hs as [_ Hs].
Qed.

Lemma destination_segments_free parts :
  Forall (Forall (fun c => is_separator c = false)) (destination_segments parts).
Proof.
  unfold destination_segments. apply Forall_forall. intros s Hs.
  apply list_elem_of_In, in_flat_map in Hs as (p & _ & Hs). apply filter_In in Hs as [Hs _].
  pose proof (split_on_free is_separator p) as H. rewrite Forall_forall in H.
  by apply H, list_elem_of_In.
Qed.

Lemma join_destination_segments parts :
  join_destination parts = join §"/" (destination_segments parts).
Proof.
  unfold join_destination. change (@nil ascii) with (join §"/" []).
  enough (forall ws, Forall (fun s => keep_segment s = true) ws ->
    fold_left (fun joined part => fold_left push_segment (split_on is_separator part) joined)
      parts (join §"/" ws) = join §"/" (ws ++ destination_segments parts)) as H by by apply (H []).
  induction parts as [|p parts IH]; intros ws Hws; simpl; [by rewrite app_nil_r|].
  rewrite push_segments by done. rewrite IH.
  - by rewrite <-app_assoc.
  - apply Forall_app. split; [done|]. apply Forall_forall. intros s Hs.
    apply list_elem_of_In, filter_In in Hs. tauto.
Qed.

Lemma Forall_not_sep s :
  Forall (fun c => is_separator c = false) s ->
  Forall (fun c => is_slash c = false) s /\ Forall (fun c => is_backslash c = false) s.
Proof.
  intros H. split; (eapply Forall_impl; [exact H|]); intros c Hc;
    by apply orb_false_iff in Hc as [? ?].
Qed.

(** The segments of the parts, in order, that name something. *)
Definition named_segments (parts : list str) : list str :=
  List.filter keep_segment (flat_map (split_on is_separator) parts).

Lemma destination_segments_named parts : destination_segments parts = named_segments parts.
Proof.
  unfold named_segments. induction parts as [|p parts IH]; [done|].
  cbn [flat_map]. rewrite List.filter_app, <-IH. done.
Qed.

(** The destinations the planner builds are in
    normal form: splitting one on either separator gives back, in order, exactly
    the segments of the parts that are neither empty nor [.] (unless there are
    none, and the destination is empty), and joining a destination again
    leaves it alone. *)
Theorem join_destination_normal parts :
  split_on is_separator (join_destination parts)
    = match named_segments parts with [] => [[]] | segs => segs end /\
  join_destination [join_destination parts] = join_destination parts.
Proof.
  rewrite <-destination_segments_named.
  assert (split_on is_separator (join_destination parts)
    = match destination_segments parts with [] => [[]] | segs => segs end) as Hsplit.
  { rewrite join_destination_segments.
    pose proof (destination_segments_free parts) as Hf.
    destruct (destination_segments parts) as [|s segs] eqn:E; [done|].
    by apply split_join. }
  split; [done|].
  - rewrite (join_destination_segments [_]). unfold destination_segments at 1. simpl flat_map.
    rewrite Hsplit, app_nil_r, (join_destination_segments parts).
    pose proof (destination_segments_kept parts) as Hk.
    destruct (destination_segments parts) as [|s segs] eqn:E; [done|]. f_equal.
    clear -Hk. induction Hk as [|x l Hx _ IH]; [done|]. cbn [List.filter].
    unfold keep_segment in Hx. by rewrite Hx, IH.
Qed.

(** * The partition of the archive *)

Lemma under_root_spec p r : under_root p r = true <-> exists v, p = r ++ "/"%char :: v.
Proof.
  unfold under_root. rewrite !andb_true_iff, Nat.ltb_lt, starts_with_spec. split.
  - intros [[Hlt [v ->]] Hc]. rewrite length_app in Hlt. destruct v as [|c v]; [simpl in Hlt; lia|].
    rewrite list_lookup_middle in Hc by done. apply ascii_eqb_eq in Hc as ->. eauto.
  - intros [v ->]. rewrite length_app. simpl. split; [split; [lia|eauto]|].
    by rewrite list_lookup_middle.
Qed.

Lemma app_eq_split {A} (a b c d : list A) :
  a ++ b = c ++ d -> (exists x, c = a ++ x /\ b = x ++ d) \/ (exists x, a = c ++ x /\ d = x ++ b).
Proof.
  revert c; induction a as [|y a IH]; intros [|z c] H; simpl in *.
  - left. by exists [].
  - left. by exists (z :: c).
  - right. by exists (y :: a).
  - injection H as -> H. destruct (IH c H) as [(x & -> & ->)|(x & -> & ->)]; eauto.
Qed.

Lemma under_both_roots p r1 r2 :
  under_root p r1 = true -> under_root p r2 = true ->
  r1 = r2 \/ (exists v, r2 = r1 ++ "/"%char :: v) \/ (exists v, r1 = r2 ++ "/"%char :: v).
Proof.
  intros [v1 H1]%under_root_spec [v2 H2]%under_root_spec. rewrite H1 in H2.
  apply app_eq_split in H2 as [(x & -> & Hx)|(x & -> & Hx)];
    destruct x as [|c x]; rewrite ?app_nil_r; auto; simplify_eq/=; eauto.
Qed.

Lemma marker_root_clean marker e r :
  marker_root marker e = Some r -> Forall (fun c => is_backslash c = false) r.
Proof.
  unfold marker_root. destruct (is_dir e); [done|]. pose proof (slashes_no_backslash (path e)) as Hs.
  destruct (str_eqb _ _); [intros [= <-]; constructor|].
  destruct (strip_suffix marker _) as [r'|] eqn:E; [|done]. apply strip_suffix_spec in E.
  intros H%strip_suffix_spec. rewrite E, H, !Forall_app in Hs. tauto.
Qed.

Lemma selected_root_clean sel entries roots r :
  select_roots sel entries = Ok roots -> r ∈ roots -> slashes r = r.
Proof.
  intros H Hin. apply slashes_id. destruct sel as [|marker].
  - injection H as <-. apply list_elem_of_singleton in Hin as ->. constructor.
  - apply (elem_of_selected _ _ _ r) in H. apply H in Hin as (e & _ & He).
    by eapply marker_root_clean.
Qed.

Lemma scope_entry_some r e f :
  scope_entry r e = Some f ->
  scoped_source f = path e /\ is_dir e = false /\ (r = [] \/ under_root (slashes (path e)) r = true).
Proof.
  unfold scope_entry. destruct (is_dir e); [done|].
  destruct (is_empty r) eqn:Er; [intros [= <-]; apply is_empty_true in Er; auto|].
  destruct (under_root _ _) eqn:E; [|done]. intros [= <-]. auto.
Qed.

Lemma scope_unique sel entries roots r1 r2 e :
  select_roots sel entries = Ok roots -> r1 ∈ roots -> r2 ∈ roots ->
  scope_entry (slashes r1) e <> None -> scope_entry (slashes r2) e <> None -> r1 = r2.
Proof.
  intros Hsel H1 H2 Hs1 Hs2.
  rewrite (selected_root_clean _ _ _ _ Hsel H1) in Hs1.
  rewrite (selected_root_clean _ _ _ _ Hsel H2) in Hs2.
  destruct (scope_entry r1 e) as [f1|] eqn:E1; [|done].
  destruct (scope_entry r2 e) as [f2|] eqn:E2; [|done].
  apply scope_entry_some in E1 as (_ & _ & E1). apply scope_entry_some in E2 as (_ & _ & E2).
  destruct E1 as [->|E1]; [by eapply select_roots_antichain; eauto|].
  destruct E2 as [->|E2]; [symmetry; by eapply select_roots_antichain; eauto|].
  destruct (under_both_roots _ _ _ E1 E2) as [|[Hv|Hv]]; [done| |].
  - by eapply select_roots_antichain; eauto.
  - symmetry. by eapply select_roots_antichain; eauto.
Qed.

(** The outputs of a layout partition the archive: a file
    that is in the scope of two selected roots is in the scope of one root,
    whatever the markers, the separators or the case of the names. *)
Theorem file_in_one_scope sel entries roots r1 r2 e :
  select_roots sel entries = Ok roots -> r1 ∈ roots -> r2 ∈ roots ->
  scope_entry (slashes r1) e <> None -> scope_entry (slashes r2) e <> None -> r1 = r2.
Proof. apply scope_unique. Qed.

Section fill.
Context {UT : UnicodeTables} {EX : Externals}.

(** * Rules *)

#[local] Instance higher_priority_trans : Transitive higher_priority.
Proof. intros a b c. unfold higher_priority. lia. Qed.

#[local] Instance higher_priority_total : Total higher_priority.
Proof. intros a b. unfold higher_priority. lia. Qed.

(** The rules offered for an archive are exactly
    the enabled ones whose trigger matches, by descending priority, and rules
    of one priority keep the order they are stored in. *)
Theorem find_matching_rules_spec rules archive_name entries md :
  let applies rule := is_enabled rule && matches_trigger (trigger rule) archive_name entries md in
  let found := find_matching_rules rules archive_name entries md in
  found ≡ₚ List.filter applies rules /\
  StronglySorted (fun a b => (priority b <= priority a)%Z) found /\
  forall p, List.filter (fun r => (priority r =? p)%Z) found
            = List.filter (fun r => (priority r =? p)%Z) (List.filter applies rules).
Proof.
  intros applies found. unfold found, find_matching_rules. split; [apply stable_sort_perm|].
  split; [apply (stable_sort_sorted higher_priority)|].
  intros p. apply stable_sort_stable; [apply _|apply _|].
  intros x y Hx%Z.eqb_eq Hy%Z.eqb_eq. unfold higher_priority. lia.
Qed.

(** * Placements *)

(** The destinations taken so far are [ds], distinct after upper-casing. *)
Definition holds (tk : gmap str str) (ds : list str) : Prop :=
  NoDup (map to_uppercase ds) /\
  forall k, is_Some (tk !! k) <-> k ∈ map to_uppercase ds.

Lemma holds_empty : holds ∅ [].
Proof.
  split; [constructor|]. intros k. rewrite lookup_empty. simpl.
  split; [by intros [? ?]|by intros ?%elem_of_nil].
Qed.

Lemma claim_destination_holds tk ds d tk' :
  holds tk ds -> claim_destination tk d = Ok tk' -> holds tk' (ds ++ [d]).
Proof.
  unfold claim_destination. intros [Hnd Hk] H.
  destruct (tk !! to_uppercase d) eqn:E; [by destruct (str_eqb _ _)|]. injection H as <-.
  unfold holds. rewrite map_app. simpl. split.
  - apply NoDup_app. split; [done|]. split; [|apply NoDup_singleton].
    intros x Hx ->%list_elem_of_singleton. apply Hk in Hx. rewrite E in Hx. by destruct Hx.
  - intros k. rewrite elem_of_app, list_elem_of_singleton, <-Hk.
    destruct (decide (k = to_uppercase d)) as [->|Hne].
    + rewrite lookup_insert_eq. split; [by right|done].
    + rewrite lookup_insert_ne by done. naive_solver.
Qed.

(** What one placement moves: the unclaimed files it matches, in order. *)
Definition new_moves (o : ResolvedOutput) (f : Source) (target located : str)
    (files : list (ScopedEntry * bool)) : list (str * str) :=
  omap (fun fc => if fc.2 || negb (placement_matches f located (path (relative fc.1))) then None
                  else Some (scoped_source fc.1,
                             destination_of o target located (path (relative fc.1)))) files.

Lemma place_files_spec o f target located files tk mv n files' tk' mv' n' ds :
  holds tk ds ->
  place_files o f target located files tk mv n = Ok (files', tk', mv', n') ->
  files' = map (fun fc => (fc.1, fc.2 || placement_matches f located (path (relative fc.1)))) files /\
  mv' = mv ++ new_moves o f target located files /\
  holds tk' (ds ++ map snd (new_moves o f target located files)).
Proof.
  revert tk mv n files' tk' mv' n' ds.
  induction files as [|[file c] files IH]; intros tk mv n files' tk' mv' n' ds Hh; cbn [place_files].
  - intros [= <- <- <- <-]. simpl. rewrite !app_nil_r. done.
  - unfold new_moves. cbn [omap list_omap fst snd map]. fold (new_moves o f target located files).
    destruct (c || negb _) eqn:Hc.
    + intros H. apply rbind_ok in H as ([[[f1 t1] m1] n1] & Hr & [= <- <- <- <-]).
      destruct (IH _ _ _ _ _ _ _ _ Hh Hr) as (-> & -> & Hh'). split; [|done].
      f_equal. f_equal. destruct c; [done|]. simpl in *. by apply negb_true_iff in Hc.
    + apply orb_false_iff in Hc as [-> Hm]. apply negb_false_iff in Hm. rewrite Hm.
      intros H. apply rbind_ok in H as (tk1 & Hclaim & H).
      apply rbind_ok in H as ([[[f1 t1] m1] n1] & Hr & [= <- <- <- <-]).
      pose proof (claim_destination_holds _ _ _ _ Hh Hclaim) as Hh1.
      destruct (IH _ _ _ _ _ _ _ _ Hh1 Hr) as (-> & -> & Hh'). simpl.
      rewrite <-!app_assoc in *. done.
Qed.

(** The reference: the first placement, in order, that matches a file decides
    where it goes. *)
Definition matches_file (scoped : list ScopedEntry) (f : ScopedEntry) (p : Placement) : bool :=
  placement_matches (from p) (locate (from p) scoped).1 (path (relative f)).

Definition first_match (scoped : list ScopedEntry) (ps : list Placement) (f : ScopedEntry)
  : option Placement := List.find (matches_file scoped f) ps.

Definition move_for (o : ResolvedOutput) (scoped : list ScopedEntry) (f : ScopedEntry)
    (p : Placement) : str * str :=
  (scoped_source f,
   destination_of o (expand (into p) (vars o)).1 (locate (from p) scoped).1 (path (relative f))).

Definition carried (o : ResolvedOutput) (scoped : list ScopedEntry) (ps : list Placement)
    (files : list ScopedEntry) : list (str * str) :=
  omap (fun f => option_map (move_for o scoped f) (first_match scoped ps f)) files.

Lemma find_snoc {A} (q : A -> bool) l x :
  List.find q (l ++ [x]) = match List.find q l with
                           | Some y => Some y
                           | None => if q x then Some x else None
                           end.
Proof. induction l as [|y l IH]; simpl; [done|]. by destruct (q y). Qed.

Lemma existsb_find {A} (q : A -> bool) l :
  existsb q l = match List.find q l with Some _ => true | None => false end.
Proof. induction l as [|y l IH]; simpl; [done|]. by destruct (q y). Qed.

(** One more placement carries the files it is the first to match. *)
Lemma carried_snoc o scoped ps p files :
  carried o scoped (ps ++ [p]) files ≡ₚ
  carried o scoped ps files
  ++ new_moves o (from p) (expand (into p) (vars o)).1 (locate (from p) scoped).1
       (map (fun f => (f, existsb (matches_file scoped f) ps)) files).
Proof.
  induction files as [|f files IH]; [done|]. unfold carried, new_moves in *. simpl.
  unfold first_match at 1 4. rewrite find_snoc, existsb_find.
  change (placement_matches (from p) (locate (from p) scoped).1 (path (relative f)))
    with (matches_file scoped f p).
  destruct (List.find (matches_file scoped f) ps) as [q|] eqn:E; simpl.
  - by rewrite IH.
  - destruct (matches_file scoped f p); simpl; [|done].
    rewrite IH. by rewrite Permutation_middle.
Qed.

Lemma placements_spec o scoped ps files st :
  try_fold (fill_placement o scoped)
    (map (fun f => (f, false)) scoped, {| taken := ∅; fill_moves := []; fill_reasoning := [] |}) ps
  = Ok (files, st) ->
  files = map (fun f => (f, existsb (matches_file scoped f) ps)) scoped /\
  fill_moves st ≡ₚ carried o scoped ps scoped /\
  holds (taken st) (map snd (fill_moves st)).
Proof.
  intros H.
  apply (try_fold_invariant _ (fun pre acc =>
    acc.1 = map (fun f => (f, existsb (matches_file scoped f) pre)) scoped /\
    fill_moves acc.2 ≡ₚ carried o scoped pre scoped /\
    holds (taken acc.2) (map snd (fill_moves acc.2)))) in H; [done| |].
  - simpl. split; [done|]. split; [|apply holds_empty].
    unfold carried. clear. generalize scoped at 1. intros sc.
    induction scoped as [|f l IH]; [done|]. simpl. apply IH.
  - intros pre p post [files0 st0] [files1 st1] _ (Hf & Hm & Hh) Hstep. simpl in *.
    unfold fill_placement in Hstep.
    destruct (locate (from p) scoped) as [located said] eqn:El.
    destruct (expand (into p) (vars o)) as [target unset] eqn:Ee.
    apply rbind_ok in Hstep as ([[[f1 t1] m1] n1] & Hr & [= <- <-]). simpl.
    destruct (place_files_spec _ _ _ _ _ _ _ _ _ _ _ _ _ Hh Hr) as (-> & -> & Hh1).
    subst files0. rewrite map_map, map_app. split; [|split; [|done]].
    + apply map_ext. intros f. simpl. rewrite existsb_app. simpl.
      rewrite orb_false_r. f_equal. f_equal. unfold matches_file. by rewrite El.
    + rewrite carried_snoc, El, Ee. by rewrite Hm.
Qed.

(** Every path an output writes. *)
Definition all_destinations (out : PlannedOutput) : list str :=
  map snd (moves out) ++ map fst (generated_files out) ++ map dest_path (downloads out).

Lemma generated_holds o md gs tk gen rs tk' gen' rs' ds :
  holds tk (ds ++ map fst gen) ->
  try_fold (fill_generated o md) (tk, gen, rs) gs = Ok (tk', gen', rs') ->
  holds tk' (ds ++ map fst gen').
Proof.
  intros H0 H.
  apply (try_fold_invariant _ (fun _ acc => holds acc.1.1 (ds ++ map fst acc.1.2))) in H; [done|done|].
  intros _ g _ [[t1 g1] r1] t' _ Hh Hstep. simpl in *. unfold fill_generated in Hstep.
  destruct (content g). destruct (md ≫= metadata_document) as [document|]; [|by injection Hstep as <-].
  destruct (expand _ _) as [target unset]. apply rbind_ok in Hstep as (t2 & Hc & [= <-]). simpl.
  rewrite map_app, app_assoc. by eapply claim_destination_holds.
Qed.

Lemma screenshots_hold o f game dl target shots tk dls rs acc ds :
  holds tk (ds ++ map dest_path dls) ->
  try_fold (fetch_screenshot o f game dl target) (tk, dls, rs) shots = Ok acc ->
  holds acc.1.1 (ds ++ map dest_path acc.1.2).
Proof.
  intros H0 H.
  apply (try_fold_invariant _ (fun _ acc => holds acc.1.1 (ds ++ map dest_path acc.1.2))) in H;
    [done|done|].
  intros _ [index shot] _ [[t1 d1] r1] t' _ Hh Hstep. simpl in *.
  destruct shot as [url|p|data]; [|by injection Hstep as <-|by injection Hstep as <-].
  destruct (expand _ _) as [nm unset]. apply rbind_ok in Hstep as (t2 & Hc & [= <-]). simpl.
  rewrite map_app, app_assoc. by eapply claim_destination_holds.
Qed.

Lemma fetched_holds o md fs tk dls rs tk' dls' rs' ds :
  holds tk (ds ++ map dest_path dls) ->
  try_fold (fill_fetched o md) (tk, dls, rs) fs = Ok (tk', dls', rs') ->
  holds tk' (ds ++ map dest_path dls').
Proof.
  intros H0 H.
  apply (try_fold_invariant _ (fun _ acc => holds acc.1.1 (ds ++ map dest_path acc.1.2))) in H;
    [done|done|].
  intros _ f _ [[t1 d1] r1] t' _ Hh Hstep. simpl in *. unfold fill_fetched in Hstep.
  destruct (fetch_source f). destruct md as [game|]; [|by injection Hstep as <-].
  destruct (expand _ _) as [target unset]. by eapply screenshots_hold.
Qed.

Lemma fill_output_inv l o es md out :
  fill_output l o es md = Ok out ->
  moves out ≡ₚ carried o (scope_entries (root o) es) (place l) (scope_entries (root o) es) /\
  NoDup (map to_uppercase (all_destinations out)) /\ root_folder out = name o.
Proof.
  unfold fill_output. intros H. apply rbind_ok in H as (_ & _ & H).
  apply rbind_ok in H as ([files st] & Hp & H).
  apply placements_spec in Hp as (_ & Hm & Hh).
  apply rbind_ok in H as ([[tk gen] rs] & Hg & H).
  apply rbind_ok in H as ([[tk2 dls] rs2] & Hd & [= <-]). unfold all_destinations. simpl.
  eapply (generated_holds _ _ _ _ _ _ _ _ _ (map snd (fill_moves st))) in Hg;
    [|simpl; by rewrite app_nil_r].
  eapply (fetched_holds _ _ _ _ _ _ _ _ _ (map snd (fill_moves st) ++ map fst gen)) in Hd;
    [|simpl; by rewrite app_nil_r].
  split; [done|]. split; [|done]. rewrite app_assoc. apply Hd.
Qed.

(** The files carried into an output are, up to order,
    those in its scope that some placement matches, each exactly once and each
    sent where the first placement that matches it says; a file no placement
    matches stays behind; and no two of the paths the output writes (moved,
    generated or fetched) agree after upper-casing. *)
Theorem fill_output_spec l o es md out :
  fill_output l o es md = Ok out ->
  let scoped := scope_entries (root o) es in
  moves out ≡ₚ
    omap (fun f => option_map (move_for o scoped f)
                     (List.find (matches_file scoped f) (place l))) scoped /\
  NoDup (map to_uppercase (all_destinations out)).
Proof. intros H. apply fill_output_inv in H as (Hm & Hn & _). split; [exact Hm|done]. Qed.

(** * Validation *)

Definition key_of (p : str) : str := to_uppercase (slashes p).

(** The validation of a list of destinations: each is a checked path and the
    keys are new and distinct. *)
Lemma validate_destinations_spec {A} (w : A -> PathError -> PlanError) (g : A -> str) l seen seen' :
  try_fold (fun seen x => validate_destination (w x) seen (g x)) seen l = Ok seen' <->
  Forall (fun x => is_ok (checked_relative_path (g x)) = true) l /\
  NoDup (map (fun x => key_of (g x)) l) /\
  Forall (fun x => key_of (g x) ∉ seen) l /\
  seen' = seen ∪ list_to_set (map (fun x => key_of (g x)) l).
Proof.
  revert seen seen'; induction l as [|x l IH]; intros seen seen'; simpl.
  - split; [intros [= <-]; split_and!; [done|constructor|done|set_solver]|].
    intros (_ & _ & _ & ->). f_equal. set_solver.
  - rewrite rbind_ok, !Forall_cons, NoDup_cons. setoid_rewrite IH.
    unfold validate_destination.
    destruct (checked_relative_path (g x)) as [p|e] eqn:Hp; simpl;
      [|split; [by intros (? & ? & _)|by intros ([] & _)]].
    apply checked_relative_path_ok in Hp as (_ & -> & _). rewrite slashes_idemp.
    fold (key_of (g x)). case_bool_decide as Hin.
    + split; [by intros (? & ? & _)|]. intros (_ & _ & [] & _). done.
    + split.
      * intros (s1 & [= <-] & Hok & Hnd & Hnew & ->). split_and!; try done.
        -- intros Hx. apply list_elem_of_fmap in Hx as (y & Hy & Hyl).
           rewrite Forall_forall in Hnew. apply (Hnew y Hyl). set_solver.
        -- eapply Forall_impl; [exact Hnew|]. set_solver.
        -- set_solver.
      * intros ([_ Hok] & [Hnx Hnd] & [_ Hnew] & ->). eexists. split; [done|].
        split_and!; try done; [|set_solver].
        rewrite Forall_forall in Hnew |- *. intros y Hy. rewrite not_elem_of_union, elem_of_singleton.
        split; [|by apply Hnew]. intros E. apply Hnx. rewrite <-E. apply list_elem_of_fmap. eauto.
Qed.

(** The destinations [ds] are portable relative paths with distinct keys, none
    of them in [seen]; [seen'] adds them. *)
Definition claims (seen : gset str) (ds : list str) (seen' : gset str) : Prop :=
  Forall (fun d => is_ok (checked_relative_path d) = true) ds /\
  NoDup (map key_of ds) /\ Forall (fun d => key_of d ∉ seen) ds /\
  seen' = seen ∪ list_to_set (map key_of ds).

Lemma validate_destinations_claims {A} (w : A -> PathError -> PlanError) (g : A -> str) l seen seen' :
  try_fold (fun seen x => validate_destination (w x) seen (g x)) seen l = Ok seen' <->
  claims seen (map g l) seen'.
Proof. rewrite validate_destinations_spec. unfold claims. by rewrite !Forall_map, map_map. Qed.

Lemma claims_app seen ds1 ds2 seen' :
  claims seen (ds1 ++ ds2) seen' <-> exists s1, claims seen ds1 s1 /\ claims s1 ds2 seen'.
Proof.
  rewrite <-(map_id (ds1 ++ ds2)), <-(validate_destinations_claims (fun _ => InvalidRootFolder) id).
  rewrite try_fold_app, rbind_ok. setoid_rewrite (validate_destinations_claims _ id).
  by setoid_rewrite map_id.
Qed.

Lemma validate_moves_spec mvs seen seen' :
  try_fold (fun seen sd =>
    let? _ := map_err (InvalidMoveSource sd.1) (checked_relative_path sd.1) in
    validate_destination (InvalidMoveDestination sd.2) seen sd.2) seen mvs = Ok seen' <->
  Forall (fun sd => is_ok (checked_relative_path sd.1) = true) mvs /\
  claims seen (map snd mvs) seen'.
Proof.
  rewrite <-(validate_destinations_claims (fun sd => InvalidMoveDestination sd.2) snd).
  revert seen; induction mvs as [|sd mvs IH]; intros seen; simpl; [naive_solver|].
  rewrite Forall_cons. split.
  - intros H. apply rbind_ok in H as (s1 & H & Hrest). apply rbind_ok in H as (p & Hp & Hv).
    apply IH in Hrest as [Hall Hrest]. destruct (checked_relative_path sd.1); [|done].
    split; [done|]. apply rbind_ok. by exists s1.
  - intros ([Hok Hall] & H). apply rbind_ok in H as (s1 & Hv & Hrest).
    destruct (checked_relative_path sd.1); [|done]. apply rbind_ok. exists s1.
    split; [exact Hv|]. by apply IH.
Qed.

Definition root_ok (count : nat) (out : PlannedOutput) : Prop :=
  if is_empty (root_folder out) then (count <= 1)%nat
  else is_ok (checked_relative_path (root_folder out)) = true.

Definition sources_ok (out : PlannedOutput) : Prop :=
  Forall (fun sd => is_ok (checked_relative_path sd.1) = true) (moves out).

Lemma validate_output_spec count seen i out seen' :
  validate_output count seen (i, out) = Ok seen' <->
  root_ok count out /\ sources_ok out /\ claims seen (all_destinations out) seen'.
Proof.
  unfold validate_output, root_ok, sources_ok, all_destinations. rewrite !rbind_ok.
  setoid_rewrite rbind_ok. setoid_rewrite rbind_ok.
  setoid_rewrite validate_moves_spec.
  setoid_rewrite (validate_destinations_claims (fun pc => InvalidGeneratedPath pc.1) fst).
  setoid_rewrite (validate_destinations_claims (fun d => InvalidDownloadPath (dest_path d)) dest_path).
  setoid_rewrite claims_app. setoid_rewrite claims_app.
  destruct (is_empty (root_folder out)).
  - destruct (Nat.ltb_spec 1 count); split.
    + by intros (? & ? & _).
    + intros (? & _). lia.
    + intros (? & _ & s1 & (? & ?) & s2 & ? & ?). split; [done|]. eauto 8.
    + intros (_ & ? & s1 & ? & s2 & ? & ?). exists tt. eauto 8.
  - destruct (checked_relative_path (root_folder out)); simpl; split.
    + intros (? & _ & s1 & (? & ?) & s2 & ? & ?). split; [done|]. eauto 8.
    + intros (_ & ? & s1 & ? & s2 & ? & ?). exists tt. eauto 8.
    + by intros (? & ? & _).
    + by intros (? & _).
Qed.

Lemma validate_outputs_spec count outs k seen seen' :
  try_fold (validate_output count) seen (imap (fun i o => (k + i, o)%nat) outs) = Ok seen' <->
  Forall (root_ok count) outs /\ Forall sources_ok outs /\
  claims seen (flat_map all_destinations outs) seen'.
Proof.
  revert k seen; induction outs as [|out outs IH]; intros k seen.
  - simpl. unfold claims. simpl. split.
    + intros [= <-]. split_and!; try done; [constructor|set_solver].
    + intros (_ & _ & _ & _ & _ & ->). f_equal. set_solver.
  - cbn [imap try_fold flat_map]. rewrite rbind_ok, !Forall_cons. setoid_rewrite claims_app.
    setoid_rewrite validate_output_spec.
    assert (imap ((fun i o => ((k + i)%nat, o)) ∘ S) outs = imap (fun i o => ((S k + i)%nat, o)) outs) as ->.
    { apply imap_ext. intros i x _. simpl. by rewrite Nat.add_succ_r. }
    setoid_rewrite IH. split.
    + intros (s1 & (? & ? & ?) & ? & ? & ?). eauto 10.
    + intros ((? & ?) & (? & ?) & s1 & ? & ?). eauto 10.
Qed.

Lemma validate_paths_inv plan :
  validate_paths plan = Ok tt <->
  Forall (root_ok (length (plan_outputs plan))) (plan_outputs plan) /\
  Forall sources_ok (plan_outputs plan) /\
  Forall (fun d => is_ok (checked_relative_path d) = true)
    (flat_map all_destinations (plan_outputs plan)) /\
  NoDup (map key_of (flat_map all_destinations (plan_outputs plan))).
Proof.
  unfold validate_paths. rewrite rbind_ok.
  change (imap (fun i o => (i, o)) (plan_outputs plan))
    with (imap (fun i o => ((0 + i)%nat, o)) (plan_outputs plan)).
  setoid_rewrite validate_outputs_spec. unfold claims. split.
  - intros (s & (? & ? & ? & ? & _) & _). done.
  - intros (? & ? & Hok & ?). eexists. split_and!; try done.
    apply Forall_forall. intros d _. set_solver.
Qed.

(** The execution boundary accepts a plan exactly when
    every source and every path it would write is a portable relative path
    that cannot leave the directory it is joined to, no two written paths,
    pooled over all outputs, agree after upper-casing, every root folder is
    such a path or is empty, and an empty one belongs to a lone output. *)
Theorem validate_paths_spec plan :
  validate_paths plan = Ok tt <->
  Forall (root_ok (length (plan_outputs plan))) (plan_outputs plan) /\
  Forall sources_ok (plan_outputs plan) /\
  Forall (fun d => is_ok (checked_relative_path d) = true)
    (flat_map all_destinations (plan_outputs plan)) /\
  NoDup (map key_of (flat_map all_destinations (plan_outputs plan))).
Proof. apply validate_paths_inv. Qed.

(** * The whole plan *)

Lemma NoDup_flat_map {A B C} (h : A -> C) (g : A -> list B) l :
  NoDup (map h l) -> Forall (fun x => NoDup (g x)) l ->
  (forall x y z, x ∈ l -> y ∈ l -> z ∈ g x -> z ∈ g y -> h x = h y) -> NoDup (flat_map g l).
Proof.
  induction l as [|x l IH]; simpl; intros Hnd Hg Hd; [constructor|].
  apply NoDup_cons in Hnd as [Hx Hnd]. apply Forall_cons in Hg as [Hgx Hg].
  apply NoDup_app. split_and!; [done| |].
  - intros z Hz Hin. apply list_elem_of_In, in_flat_map in Hin as (y & Hy & Hzy).
    apply list_elem_of_In in Hy, Hzy. destruct Hx.
    rewrite (Hd x y z); [by apply list_elem_of_fmap_2|set_solver..].
  - apply IH; [done|done|]. intros a b z Ha Hb. apply Hd; set_solver.
Qed.

Lemma map_filter_sublist {A B} (f : A -> B) (q : A -> bool) l :
  sublist (map f (List.filter q l)) (map f l).
Proof. induction l as [|x l IH]; simpl; [done|]. destruct (q x); by constructor. Qed.

(** The sources of the moves of an output: paths of scoped files, once each. *)
Lemma carried_sources o scoped ps files :
  sublist (map fst (carried o scoped ps files)) (map scoped_source files).
Proof.
  unfold carried. induction files as [|f files IH]; simpl; [done|].
  destruct (first_match scoped ps f); simpl; by constructor.
Qed.

Lemma scoped_sources r es : sublist (map scoped_source (scope_entries r es)) (map path es).
Proof.
  unfold scope_entries. induction es as [|e es IH]; simpl; [done|].
  destruct (scope_entry (slashes r) e) as [f|] eqn:E; simpl; [|by constructor].
  apply scope_entry_some in E as (-> & _). by constructor.
Qed.

Lemma pruned_paths_nodup entries : NoDup (map path (prune_entries entries)).
Proof.
  destruct (prune_entries_inv entries) as [_ Hs].
  induction (prune_entries entries) as [|e es IH]; [constructor|]. simpl in *.
  inversion Hs as [|? ? Hs' Hall]; subst. constructor; [|auto].
  intros ([e'] & Hp & Hin)%list_elem_of_fmap. rewrite Forall_forall in Hall.
  assert (parts_lt (parts (path e)) (parts (path e))) as Hlt.
  { rewrite Hp at 2. apply Hall, list_elem_of_fmap. eauto. }
  clear -Hlt. induction (parts (path e)) as [|x l IH]; [done|]. simpl in Hlt.
  destruct Hlt as [[_ ?]|[_ ?]]; auto.
Qed.

Definition sources (out : PlannedOutput) : list str := map fst (moves out).

Lemma fill_output_sources l o es md out :
  NoDup (map path es) -> fill_output l o es md = Ok out ->
  NoDup (sources out) /\
  forall s, s ∈ sources out -> exists e, e ∈ es /\ path e = s /\ scope_entry (slashes (root o)) e <> None.
Proof.
  intros Hnd H. apply fill_output_inv in H as (Hm & _ & _). unfold sources. split.
  - rewrite Hm. eapply sublist_NoDup; [|apply carried_sources].
    eapply sublist_NoDup; [exact Hnd|apply scoped_sources].
  - intros s Hs. rewrite Hm in Hs.
    eapply elem_of_sublist in Hs; [|apply carried_sources].
    apply list_elem_of_fmap in Hs as (f & -> & Hf).
    unfold scope_entries in Hf. apply list_elem_of_omap in Hf as (e & He & Hsc).
    exists e. split; [done|]. rewrite Hsc.
    apply scope_entry_some in Hsc as (-> & _). done.
Qed.

Lemma fill_all_outputs l es md os outs :
  try_fold (fun outs o => let? filled := fill_output l o es md in Ok (outs ++ [filled])) [] os
    = Ok outs ->
  Forall2 (fun out o => fill_output l o es md = Ok out) outs os.
Proof.
  intros H. apply (try_fold_invariant _ (fun pre acc =>
    Forall2 (fun out o => fill_output l o es md = Ok out) acc pre)) in H; [done|constructor|].
  intros pre o post acc acc' _ Hall Hstep. apply rbind_ok in Hstep as (f & Hf & [= <-]).
  apply Forall2_app; [done|by constructor].
Qed.

(** What a successful [create_plan] went through. *)
Lemma create_plan_inv cfg rule input entries md read plan :
  create_plan cfg rule input entries md read = Ok plan ->
  let l := layout (actions rule) in
  let es := prune_entries entries in
  exists base resolved outs,
    resolve_outputs l es base read = Ok resolved /\
    Forall2 (fun out o => fill_output l o es md = Ok out) outs (outputs resolved) /\
    let full := {| plan_rule_name := rule_name rule; plan_outputs := outs;
                   skipped_outputs := skipped resolved |} in
    validate_paths full = Ok tt /\
    plan = report_outputs_that_carry_nothing full (outputs resolved).
Proof.
  intros H l es. unfold create_plan in H. apply rbind_ok in H as (base & _ & H).
  apply rbind_ok in H as (resolved & Hres & H). apply rbind_ok in H as (outs & Houts & H).
  apply rbind_ok in H as ([] & Hv & [= <-]). exists base, resolved, outs.
  split; [|split; [by apply fill_all_outputs|by split]].
  fold l es in Hres. by destruct (resolve_outputs l es base read); [injection Hres as ->|].
Qed.

(** The outputs kept are those of the pairs that stage something. *)
Definition kept_pairs (outs : list PlannedOutput) (os : list ResolvedOutput)
  : list (PlannedOutput * ResolvedOutput) :=
  List.filter (fun ol => negb (stages_nothing ol.1)) (zip outs os).

Lemma kept_outputs_sublist outs os :
  length outs = length os -> sublist (map fst (kept_pairs outs os)) outs.
Proof.
  intros Hlen. rewrite <-(fst_zip outs os) at 2 by lia. apply map_filter_sublist.
Qed.

Lemma flat_map_sublist {A B} (g : A -> list B) l1 l2 :
  sublist l1 l2 -> sublist (flat_map g l1) (flat_map g l2).
Proof.
  induction 1; simpl; [done|by apply sublist_app|by apply sublist_inserts_l].
Qed.

(** A plan with fewer outputs of a valid plan is valid. *)
Lemma validate_paths_sublist plan outs :
  sublist outs (plan_outputs plan) -> validate_paths plan = Ok tt ->
  forall n sk, validate_paths {| plan_rule_name := n; plan_outputs := outs; skipped_outputs := sk |}
               = Ok tt.
Proof.
  intros Hsub (Hr & Hs & Hd & Hk)%validate_paths_inv n sk. apply validate_paths_inv. simpl.
  pose proof (flat_map_sublist all_destinations _ _ Hsub) as Hsubd. split_and!.
  - apply Forall_forall. intros o Ho. rewrite Forall_forall in Hr.
    eapply elem_of_sublist in Ho; [|done]. apply Hr in Ho. unfold root_ok in *.
    pose proof (sublist_length _ _ Hsub). destruct (is_empty _); [lia|done].
  - by eapply sublist_Forall.
  - by eapply sublist_Forall.
  - eapply sublist_NoDup; [exact Hk|]. by apply fmap_sublist.
Qed.

(** C1: a plan [create_plan] returns passes its own
    validation as it stands, after the outputs that carry nothing were set
    aside, and every output left in it puts something on disk. *)
Theorem created_plan_valid cfg rule input entries md read plan :
  create_plan cfg rule input entries md read = Ok plan ->
  validate_paths plan = Ok tt /\
  Forall (fun o => stages_nothing o = false) (plan_outputs plan).
Proof.
  intros H. apply create_plan_inv in H as (base & resolved & outs & _ & Hf & Hv & ->).
  apply Forall2_length in Hf. split.
  - eapply validate_paths_sublist; [|exact Hv]. by apply kept_outputs_sublist.
  - simpl. apply Forall_map, Forall_forall. intros [out o] Hin.
    apply list_elem_of_In, filter_In in Hin as [_ Hin]. by apply negb_true_iff in Hin.
Qed.

Lemma count_partition {A} (q : A -> bool) l :
  (length (List.filter (fun x => negb (q x)) l) + length (List.filter q l))%nat = length l.
Proof. induction l as [|x l IH]; simpl; [done|]. destruct (q x); simpl; lia. Qed.

(** Nothing the layout selected is lost silently:
    every selected root is an output of the plan or is reported as skipped,
    exactly once. *)
Theorem created_plan_accounts cfg rule input entries md read plan :
  create_plan cfg rule input entries md read = Ok plan ->
  exists roots,
    select_roots (layout_outputs (layout (actions rule))) (prune_entries entries) = Ok roots /\
    (length (plan_outputs plan) + length (skipped_outputs plan))%nat = length roots /\
    Forall (fun s => s ∈ roots) (map fst (skipped_outputs plan)).
Proof.
  intros H. apply create_plan_inv in H as (base & resolved & outs & Hres & Hf & Hv & ->).
  apply Forall2_length in Hf. apply resolve_outputs_inv in Hres as (roots & Hsel & Hp & _).
  exists roots. split; [done|]. simpl. split.
  - apply Permutation_length in Hp. rewrite length_app, !length_map in Hp.
    rewrite length_app, !length_map.
    pose proof (count_partition (fun ol => stages_nothing ol.1) (zip outs (outputs resolved))) as Hc.
    rewrite length_zip in Hc. lia.
  - rewrite map_app, Forall_app, map_map. split.
    + apply Forall_forall. intros s Hs. rewrite <-Hp. set_solver.
    + apply Forall_map, Forall_forall. intros [out o] Hin. simpl.
      apply list_elem_of_In, filter_In in Hin as [Hin _]. apply in_combine_r in Hin.
      assert (root o ∈ roots) as Ho.
      { rewrite <-Hp. apply elem_of_app. left. apply list_elem_of_fmap_2. by apply list_elem_of_In. }
      by rewrite (selected_root_clean _ _ _ _ Hsel Ho).
Qed.

(** What a kept output and the located one it fills are to each other. *)
Lemma kept_pair_facts l es md resolved outs roots p :
  NoDup (map path es) ->
  Forall2 (fun out o => fill_output l o es md = Ok out) outs (outputs resolved) ->
  map root (outputs resolved) ++ map fst (skipped resolved) ≡ₚ roots ->
  p ∈ kept_pairs outs (outputs resolved) ->
  NoDup (sources p.1) /\ root p.2 ∈ roots /\
  forall s, s ∈ sources p.1 -> exists e, e ∈ es /\ path e = s /\
    scope_entry (slashes (root p.2)) e <> None.
Proof.
  intros Hnd Hf Hp. destruct p as [out o]. intros Hin. apply list_elem_of_In, filter_In in Hin as [Hin _].
    pose proof (in_combine_r _ _ _ _ Hin) as Ho.
    apply list_elem_of_In, list_elem_of_lookup_1 in Hin as [i Hi].
    apply lookup_zip_Some in Hi as [Hout Ho'].
    pose proof (Forall2_lookup_lr _ _ _ _ _ _ Hf Hout Ho') as Hfill.
    destruct (fill_output_sources _ _ _ _ _ Hnd Hfill) as [? ?]. split_and!; try done.
    rewrite <-Hp. apply elem_of_app. left. apply list_elem_of_fmap_2. by apply list_elem_of_In.
Qed.

(** C21: a plan never carries one file of the archive
    twice, in one output or across outputs, and every source it names is a file
    of the archive's pruned listing. *)
Theorem created_plan_carries_once cfg rule input entries md read plan :
  create_plan cfg rule input entries md read = Ok plan ->
  NoDup (flat_map sources (plan_outputs plan)) /\
  Forall (fun s => exists e, e ∈ prune_entries entries /\ path e = s /\ is_dir e = false)
    (flat_map sources (plan_outputs plan)).
Proof.
  intros H. apply create_plan_inv in H as (base & resolved & outs & Hres & Hf & Hv & ->).
  pose proof (Forall2_length _ _ _ Hf) as Hlen.
  apply resolve_outputs_inv in Hres as (roots & Hsel & Hp & _).
  pose proof (pruned_paths_nodup entries) as Hnd.
  pose proof (fun p => kept_pair_facts _ _ _ _ _ _ p Hnd Hf Hp) as Hpair.
  simpl. fold (kept_pairs outs (outputs resolved)).
  rewrite flat_map_concat_map, map_map, <-flat_map_concat_map. split.
  - apply (NoDup_flat_map (fun p : PlannedOutput * ResolvedOutput => root p.2)).
    + apply (sublist_NoDup _ (map (fun p : PlannedOutput * ResolvedOutput => root p.2)
                                  (zip outs (outputs resolved)))); [|apply map_filter_sublist].
      rewrite <-(map_map snd root), snd_zip by lia.
      apply select_roots_sorted in Hsel as [Hn _]. rewrite <-Hp in Hn. by apply NoDup_app in Hn as [? _].
    + apply Forall_forall. intros p Hin. by apply Hpair.
    + intros p q s Hin Hiq Hs Hq. destruct (Hpair p Hin) as (_ & Hrp & Hp').
      destruct (Hpair q Hiq) as (_ & Hrq & Hq').
      destruct (Hp' s Hs) as (e & He & <- & Hse). destruct (Hq' _ Hq) as (e2 & He2 & Heq & Hse2).
      assert (e2 = e) as ->.
      { apply list_elem_of_lookup_1 in He as [i Hi]. apply list_elem_of_lookup_1 in He2 as [j Hj].
        assert (i = j) as ->; [|congruence].
        eapply NoDup_lookup; [exact Hnd| |]; rewrite list_lookup_fmap; [by rewrite Hi|].
        rewrite Hj. simpl. by rewrite Heq. }
      by eapply scope_unique.
  - apply Forall_forall. intros s Hs. apply list_elem_of_In, in_flat_map in Hs as (p & Hin & Hs).
    apply list_elem_of_In in Hin, Hs. destruct (Hpair p Hin) as (_ & _ & Hall).
    destruct (Hall s Hs) as (e & He & Hpe & Hsc). exists e. split_and!; try done.
    destruct (scope_entry _ e) as [f|] eqn:E; [|done].
    by apply scope_entry_some in E as (_ & ? & _).
Qed.

(** * Content roots *)

#[local] Instance better_trans : Transitive better.
Proof.
  intros a b c. unfold better, path_leb.
  intros [?|[? ?]] [?|[? ?]]; [left; lia|left; lia|left; lia|right].
  split; [lia|]. by eapply comps_leb_trans.
Qed.

#[local] Instance better_total : Total better.
Proof.
  intros a b. unfold better, path_leb.
  destruct (lt_eq_lt_dec (length a.2) (length b.2)) as [[?|?]|?]; [by right; left| |by left; left].
  destruct (comps_leb_total (components a.1) (components b.1)); [left|right]; right; split; auto.
Qed.

(** content-root detection picks a directory with
    the most evidence, at least two pieces, and on a tie the one first in path
    order; it falls back to the common root, with no evidence claimed, exactly
    when no directory has two. *)
Theorem detect_content_root_best entries :
  let d := detect_content_root entries in
  let scored := scored_directories entries in
  score d = length (evidence d) /\
  ((2 <= score d)%nat /\ (detected_path d, evidence d) ∈ scored /\
   Forall (fun de => (length de.2 < score d)%nat \/
             (length de.2 = score d /\ path_leb (detected_path d) de.1 = true)) scored
   \/
   score d = 0%nat /\ detected_path d = common_root entries /\
   Forall (fun de => (length de.2 < 2)%nat) scored).
Proof.
  intros d scored. unfold d, detect_content_root. fold scored.
  assert (StronglySorted better (merge_sort better scored)) as Hs
    by (apply StronglySorted_merge_sort; apply _).
  pose proof (merge_sort_Permutation better scored) as Hp.
  destruct (merge_sort better scored) as [|[dir ev] rest] eqn:E.
  - apply Permutation_nil in Hp. rewrite Hp. simpl. split; [done|]. by right.
  - inversion Hs as [|? ? _ Hall]; subst.
    assert (Forall (better (dir, ev)) scored) as Hbest.
    { rewrite <-Hp. constructor; [|done]. right. split; [done|]. unfold path_leb.
      destruct (comps_leb_total (components dir) (components dir)); done. }
    destruct (Nat.leb_spec 2 (length ev)); simpl; (split; [done|]); [left|right].
    + split; [done|]. split; [rewrite <-Hp; by left|].
      eapply Forall_impl; [exact Hbest|]. intros de [?|[? ?]]; simpl in *; [by left|by right].
    + split_and!; [done|done|]. eapply Forall_impl; [exact Hbest|].
      intros de [?|[? ?]]; simpl in *; lia.
Qed.
End fill.

(** * Witnesses *)

Module PlannerExample.
#[local] Existing Instance ascii_tables.

(** No pattern compiles and no JSON parses: the weakest externals. *)
#[local] Instance no_externals : Externals := {
  Regex := unit;
  regex_new _ := None;
  is_match _ _ := false;
  captures _ _ := None;
  captures_iter _ _ := [];
  capture_names _ := [];
  json_from_str _ := None;
  to_string_pretty _ := None
}.

Definition cfg : TitleFilterConfig := {| filters := default_settings; replacements := [] |}.

Definition pack_layout : Layout :=
  {| layout_outputs := PerDirectoryContaining §"modinfo.ini";
     file_variables := [{| as_name := §"mod"; file := §"modinfo.ini"; key := §"name" |}];
     layout_name := §"$mod";
     place := [{| from := Matching §"*.txt"; into := §"docs" |};
               {| from := Matching §"data/**"; into := §"files" |}];
     generate := []; fetch := [] |}.

Definition rule : OrganizationRule :=
  {| rule_id := 1; rule_name := §"pack"; priority := 0; is_enabled := true;
     trigger := {| metadata_source := None; filename_pattern := None; has_file := None |};
     actions := {| output_name := None; layout := pack_layout |} |}.

Definition entries : list ArchiveEntry :=
  [file_entry §"A/modinfo.ini" 9; file_entry §"A/data/x.pak" 4; file_entry §"A/read.txt" 2;
   file_entry §"A/data/note.txt" 2; file_entry §"B\modinfo.ini" 9; dir_entry §"A/data";
   file_entry §"C/modinfo.ini" 9].

Definition read (p : str) : option str :=
  if str_eqb p §"A/modinfo.ini" then Some §"name=Alpha"
  else if str_eqb p §"B/modinfo.ini" then Some §"name=Beta"
  else None.

Definition the_plan : result PlanError OrganizationPlan :=
  Eval vm_compute in create_plan cfg rule §"pack.zip" entries None read.

Definition planned : OrganizationPlan :=
  match the_plan with
  | Ok p => p
  | Err _ => {| plan_rule_name := []; plan_outputs := []; skipped_outputs := [] |}
  end.

Lemma planned_ok : create_plan cfg rule §"pack.zip" entries None read = Ok planned.
Proof. vm_compute. reflexivity. Qed.

(** One output carries two documents and one data file; [B] carries nothing
    and [C] cannot be named, and both are reported. *)
Example planned_moves :
  map moves (plan_outputs planned)
    = [[(§"A/data/note.txt", §"Alpha/docs/data/note.txt"); (§"A/read.txt", §"Alpha/docs/read.txt");
        (§"A/data/x.pak", §"Alpha/files/x.pak")]] /\
  map fst (skipped_outputs planned) = [§"C"; §"B"].
Proof. vm_compute. split; reflexivity. Qed.

Lemma created_plan_valid_witness :
  create_plan cfg rule §"pack.zip" entries None read = Ok planned /\
  validate_paths planned = Ok tt.
Proof.
  split; [exact planned_ok|].
  exact (proj1 (created_plan_valid cfg rule §"pack.zip" entries None read planned planned_ok)).
Defined.

Lemma created_plan_accounts_witness :
  exists roots, select_roots (layout_outputs pack_layout) (prune_entries entries) = Ok roots /\
    (length (plan_outputs planned) + length (skipped_outputs planned))%nat = length roots.
Proof.
  destruct (created_plan_accounts cfg rule §"pack.zip" entries None read planned planned_ok)
    as (roots & H1 & H2 & _).
  exists roots. split; [exact H1|exact H2].
Defined.

Lemma created_plan_carries_once_witness : NoDup (flat_map sources (plan_outputs planned)).
Proof.
  exact (proj1 (created_plan_carries_once cfg rule §"pack.zip" entries None read planned planned_ok)).
Defined.

Definition alpha : ResolvedOutput :=
  {| root := §"A"; name := §"Alpha"; vars := {[ §"mod" := §"Alpha" ]} |}.

Definition filled : PlannedOutput :=
  Eval vm_compute in
    match fill_output pack_layout alpha entries None with
    | Ok o => o
    | Err _ => {| root_folder := []; root_folder_template := []; moves := []; generated_files := [];
                  downloads := []; resolved_variables := ∅; reasoning := [] |}
    end.

Lemma fill_output_spec_witness :
  fill_output pack_layout alpha entries None = Ok filled /\
  NoDup (map to_uppercase (all_destinations filled)).
Proof.
  assert (fill_output pack_layout alpha entries None = Ok filled) as H by (vm_compute; reflexivity).
  split; [exact H|]. exact (proj2 (fill_output_spec pack_layout alpha entries None filled H)).
Defined.

Lemma file_in_one_scope_witness :
  select_roots (layout_outputs pack_layout) entries = Ok [§"A"; §"B"; §"C"] /\
  §"A" = slashes §"A".
Proof.
  assert (select_roots (layout_outputs pack_layout) entries = Ok [§"A"; §"B"; §"C"]) as H
    by (vm_compute; reflexivity).
  split; [exact H|].
  refine (file_in_one_scope _ _ _ §"A" (slashes §"A") (file_entry §"A/read.txt" 2) H _ _ _ _);
    first [apply elem_of_cons; left; reflexivity | vm_compute; discriminate].
Defined.
End PlannerExample.
