(* ===== verification/RarHeaders.v ===== *)
(** Attestation of RAR headers
    ([crates/archive-import/src/worker/rar_headers.rs]): a reader of the framing,
    integrity, names and identities of the headers of a RAR4 or RAR5 archive,
    which the entries a native decoder reports are compared against. *)

From stdpp Require Import base tactics option list strings.
From Stdlib Require Import ZArith Lia Ascii.
From S2P Require Import Prelude Text.
Local Open Scope arclain_scope.
Local Open Scope Z_scope.

(** The variants of [ImportError] (protocol.rs) this reader returns; [Io] is a
    read past the end of the file. *)
Inductive ImportError := Unsupported | Encrypted | Corrupt | Limit | Io.

#[export] Instance ImportError_eq_dec : EqDecision ImportError.
Proof. solve_decision. Defined.

Record Header := {
  hname : str;
  hsize : Z;
  hpacked : Z;
  hhost : Z;
  hattributes : Z;
  hdirectory : bool
}.

(** The fields of [unboxer::Limits] the reader consults. *)
Record Limits := {
  max_entries : Z;
  max_index_bytes : Z
}.

(** What the reader takes from other crates: the CRC-32 of [crc32fast] and the
    entry-path rule of [unboxer]. *)
Class RarExternals := {
  crc32 : str -> Z;
  validate_entry_path : str -> bool
}.

Definition byte (c : ascii) : Z := Z.of_N (code c).

(** ** Fixed-width and variable-width integers *)

Definition byte_get (b : str) (i : nat) : result ImportError Z :=
  match b !! i with Some c => Ok (byte c) | None => Err Corrupt end.

Definition u16_at (b : str) (i : nat) : result ImportError Z :=
  let? b0 := byte_get b i in
  let? b1 := byte_get b (i + 1) in
  Ok (b0 + Z.shiftl b1 8).

Definition u32_at (b : str) (i : nat) : result ImportError Z :=
  let? lo := u16_at b i in
  let? hi := u16_at b (i + 2) in
  Ok (lo + Z.shiftl hi 16).

(** The turns of the loop of [var], one per group of seven bits from [shift] on.
    [u64::BITS] is reached at shift 63, where one bit is left. *)
Fixpoint var_loop (turns : nat) (shift : Z) (b : str) (cursor : nat) (value : Z)
  : result ImportError (Z * nat) :=
  match turns with
  | O => Err Corrupt
  | S turns' =>
      let? byt := byte_get b cursor in
      if (shift =? 63) && (1 <? byt) then Err Corrupt
      else
        let value := Z.lor value (Z.shiftl (Z.land byt 127) shift) in
        if Z.land byt 128 =? 0 then Ok (value, S cursor)
        else var_loop turns' (shift + 7) b (S cursor) value
  end.

Definition var (b : str) (cursor : nat) : result ImportError (Z * nat) := var_loop 10 0 b cursor 0.

(** [slice.get(from..to)]. *)
Definition get_range (b : str) (from to : Z) : option str :=
  if (0 <=? from) && (from <=? to) && (to <=? Z.of_nat (length b))
  then Some (take (Z.to_nat (to - from)) (drop (Z.to_nat from) b)) else None.

(** [flags & !mask != 0]: a bit outside the mask is set. *)
Definition has_other_bits (flags mask : Z) : bool := negb (Z.land flags (Z.lnot mask) =? 0).

Definition has_bits (flags mask : Z) : bool := negb (Z.land flags mask =? 0).

(** ** UTF-16 *)

Definition chr (z : Z) : ascii := ascii_of_N (Z.to_N z).

Definition encode_utf8 (c : Z) : str :=
  if c <? 128 then [chr c]
  else if c <? 2048 then [chr (192 + c / 64); chr (128 + c mod 64)]
  else if c <? 65536 then
    [chr (224 + c / 4096); chr (128 + (c / 64) mod 64); chr (128 + c mod 64)]
  else [chr (240 + c / 262144); chr (128 + (c / 4096) mod 64); chr (128 + (c / 64) mod 64);
        chr (128 + c mod 64)].

(** [String::from_utf16]: an unpaired surrogate is an error. *)
Fixpoint from_utf16 (units : list Z) : option str :=
  match units with
  | [] => Some []
  | u :: rest =>
      if (u <? 55296) || (57343 <? u) then option_map (app (encode_utf8 u)) (from_utf16 rest)
      else if 56319 <? u then None
      else match rest with
           | v :: rest' =>
               if (56320 <=? v) && (v <=? 57343) then
                 option_map (app (encode_utf8 (65536 + (u - 55296) * 1024 + (v - 56320))))
                   (from_utf16 rest')
               else None
           | [] => None
           end
  end.

Section attest.
Context {RE : RarExternals}.

(** ** Names *)

Definition is_nul (c : ascii) : bool := ascii_eqb c "000"%char.
Definition is_ascii (c : ascii) : bool := (code c <? 128)%N.

Definition original_name (bytes : str) (ascii_only : bool) : result ImportError str :=
  if (4096 <? length bytes)%nat || contains_char is_nul bytes
     || ascii_only && negb (forallb is_ascii bytes) then Err Unsupported
  else if negb (utf8_valid bytes) then Err Unsupported
  else
    let nm := if ascii_only then slashes bytes else bytes in
    if validate_entry_path nm then Ok nm else Err Unsupported.

Definition encoded_at (encoded : str) (at_ : nat) : result ImportError Z :=
  match encoded !! at_ with Some c => Ok (byte c) | None => Err Unsupported end.

(** The run of code 3: [count] units of the single-byte name. *)
Fixpoint copy_run (count : nat) (single_byte : str) (high : Z) (correction : option Z)
    (units : list Z) : result ImportError (list Z) :=
  match count with
  | O => Ok units
  | S count' =>
      match single_byte !! length units with
      | None => Err Unsupported
      | Some c =>
          let? u := match correction with
                    | Some k => Ok (Z.lor ((byte c + k) mod 256) high)
                    | None => if is_ascii c then Ok (byte c) else Err Unsupported
                    end in
          copy_run count' single_byte high correction (units ++ [u])
      end
  end.

(** One code of the stream: the units and the position after it. *)
Definition decode_code (single_byte encoded : str) (high flags : Z) (position : nat)
    (units : list Z) : result ImportError (list Z * nat) :=
  match Z.shiftr flags 6 with
  | 0 => let? b := encoded_at encoded position in Ok (units ++ [b], S position)
  | 1 => let? b := encoded_at encoded position in Ok (units ++ [Z.lor b high], S position)
  | 2 =>
      let? b0 := encoded_at encoded position in
      let? b1 := encoded_at encoded (position + 1) in
      Ok (units ++ [b0 + Z.shiftl b1 8], (position + 2)%nat)
  | _ =>
      let? len := encoded_at encoded position in
      let? (correction, position) :=
        if has_bits len 128 then
          let? k := encoded_at encoded (position + 1) in Ok (Some k, (position + 2)%nat)
        else Ok (None, S position) in
      let? units := copy_run (Z.to_nat (Z.land len 127) + 2) single_byte high correction units in
      Ok (units, position)
  end.

(** Every turn reads at least one byte, so the length of the stream is fuel
    enough. *)
Fixpoint unicode_loop (fuel : nat) (single_byte encoded : str) (high : Z)
    (position : nat) (flags flag_bits : Z) (units : list Z) : result ImportError (list Z) :=
  match fuel with
  | O => Ok units
  | S fuel' =>
      if (position <? length encoded)%nat then
        if (4096 <? length units)%nat then Err Unsupported
        else
          let? (flags, position, flag_bits) :=
            if flag_bits =? 0 then
              let? f := encoded_at encoded position in Ok (f, S position, 8)
            else Ok (flags, position, flag_bits) in
          let? (units, position) := decode_code single_byte encoded high flags position units in
          unicode_loop fuel' single_byte encoded high position
            (Z.shiftl flags 2 mod 256) (flag_bits - 2) units
      else Ok units
  end.

Definition unicode_name (field : str) : result ImportError str :=
  if (4096 <? length field)%nat then Err Unsupported
  else
    let? nul := ok_or (find_char is_nul field) Unsupported in
    let single_byte := take nul field in
    let encoded := drop (S nul) field in
    let? first := encoded_at encoded 0 in
    let high := Z.shiftl first 8 in
    let? units := unicode_loop (length encoded) single_byte encoded high 1 0 0 [] in
    let? text := ok_or (from_utf16 units) Unsupported in
    let nm := slashes text in
    if validate_entry_path nm then Ok nm else Err Unsupported.

(** ** Records inside a header *)

Definition extended_time_length (bytes : str) : result ImportError nat :=
  let? flags := u16_at bytes 0 in
  Ok (fold_left (fun len time =>
    let mode := Z.shiftr flags ((3 - Z.of_nat time) * 4) in
    if Z.land mode 8 =? 0 then len
    else ((if (time =? 0)%nat then len else len + 4) + Z.to_nat (Z.land mode 3))%nat)
    [0; 1; 2; 3]%nat 2%nat).

(** Every record takes at least one byte: the area's length is fuel enough. *)
Fixpoint extra_records (fuel : nat) (area : str) (cursor : nat) (types : list Z)
  : result ImportError (list Z) :=
  match fuel with
  | O => Ok types
  | S fuel' =>
      if (cursor <? length area)%nat then
        let? (size, cursor) := var area cursor in
        let? end_ := ok_or (checked_add (Z.of_nat cursor) size) Corrupt in
        let? record := ok_or (get_range area (Z.of_nat cursor) end_) Corrupt in
        let? (kind, _) := var record 0 in
        extra_records fuel' area (Z.to_nat end_) (types ++ [kind])
      else Ok types
  end.

Definition extra_record_types (area : str) : result ImportError (list Z) :=
  extra_records (length area) area 0 [].

Definition rar4_packed_size (bytes : str) (flags : Z) : result ImportError Z :=
  let? packed := u32_at bytes 7 in
  if has_bits flags 256 then
    let? high := u32_at bytes 32 in Ok (Z.lor packed (Z.shiftl high 32))
  else Ok packed.

(** ** The walk over the blocks *)

(** [total], [headers], [main] and [ended] of the loop. *)
Record Walk := {
  total : Z;
  headers : list Header;
  main : bool;
  ended : bool
}.

(** [read_exact] of [n] bytes at [offset]. *)
Definition read_at (file : str) (offset n : Z) : result ImportError str :=
  ok_or (get_range file offset (offset + n)) Io.

Definition with_main (w : Walk) : Walk :=
  {| total := total w; headers := headers w; main := true; ended := ended w |}.
Definition with_ended (w : Walk) : Walk :=
  {| total := total w; headers := headers w; main := main w; ended := true |}.
Definition with_header (w : Walk) (h : Header) : Walk :=
  {| total := total w; headers := headers w ++ [h]; main := main w; ended := ended w |}.

(** The main header of a RAR4 archive (type [0x73]). *)
Definition rar4_main (flags : Z) (len : nat) (w : Walk) : result ImportError Walk :=
  if has_bits flags 0x80 then Err Encrypted
  else if main w || negb (bool_decide (headers w = [])) || has_other_bits flags (0x4 + 0x8 + 0x40)
          || negb (len =? 13)%nat then Err Unsupported
  else Ok (with_main w).

(** A sub-block ([0x7a]): only its data size is read. *)
Definition rar4_sub (bytes : str) (flags : Z) (len : nat) (w : Walk) : result ImportError (Walk * Z) :=
  if has_bits flags 0x4 then Err Encrypted
  else if negb (main w) || negb (has_bits flags 0x8000) || (len <? 32)%nat then Err Unsupported
  else let? packed := rar4_packed_size bytes flags in Ok (w, packed).

(** A file header ([0x74]). *)
Definition rar4_file (bytes : str) (flags : Z) (len : nat) (w : Walk) : result ImportError (Walk * Z) :=
  if has_bits flags 0x4 then Err Encrypted
  else if negb (main w)
          || has_other_bits flags (0x8000 + 0x100 + 0x10 + 0xe0 + 0x1000 + 0x200)
          || negb (has_bits flags 0x8000) || (len <? 32)%nat then Err Unsupported
  else
    let? packed := rar4_packed_size bytes flags in
    let? low := u32_at bytes 11 in
    let? name_len := u16_at bytes 26 in
    let? (unpacked, start) :=
      if has_bits flags 0x100 then
        let? high := u32_at bytes 36 in Ok (Z.lor low (Z.shiftl high 32), 40%nat)
      else Ok (low, 32%nat) in
    let name_end := (start + Z.to_nat name_len)%nat in
    if (len <? name_end)%nat then Err Unsupported
    else
      let? trailing := if has_bits flags 0x1000 then extended_time_length (drop name_end bytes)
                       else Ok 0%nat in
      if negb (name_end + trailing =? len)%nat then Err Unsupported
      else
        let? raw_host := byte_get bytes 15 in
        let? host := if (raw_host =? 0) || (raw_host =? 2) then Ok 2
                     else if raw_host =? 3 then Ok 3 else Err Unsupported in
        let? version := byte_get bytes 24 in
        if version <? 20 then Err Unsupported
        else
          let? attributes := u32_at bytes 28 in
          let field := take (name_end - start) (drop start bytes) in
          let? nm := if has_bits flags 0x200 then unicode_name field else original_name field true in
          Ok (with_header w {| hname := nm; hsize := unpacked; hpacked := packed; hhost := host;
                               hattributes := attributes;
                               hdirectory := Z.land flags 0xe0 =? 0xe0 |}, packed).

(** The end header ([0x7b]). *)
Definition rar4_end (flags : Z) (len : nat) (w : Walk) : result ImportError Walk :=
  let data_crc := (if has_bits flags 0x2 then 4 else 0)%nat in
  if negb (main w) || has_other_bits flags (0x4000 + 0x2) || negb (len =? 7 + data_crc)%nat
  then Err Unsupported
  else Ok (with_ended w).

Definition add_total (w : Walk) (n : Z) : Walk :=
  {| total := total w + n; headers := headers w; main := main w; ended := ended w |}.

Definition no_data (r : result ImportError Walk) : result ImportError (Walk * Z) :=
  let? w := r in Ok (w, 0).

(** One RAR4 block: the walk and the offset after it. *)
Definition rar4_block (limits : Limits) (file : str) (offset : Z) (w : Walk)
  : result ImportError (Walk * Z) :=
  let? prefix := read_at file offset 7 in
  let? len := u16_at prefix 5 in
  if len <? 7 then Err Corrupt
  else
    let w := add_total w len in
    if max_index_bytes limits <? total w then Err Limit
    else
      let? rest := read_at file (offset + 7) (len - 7) in
      let bytes := prefix ++ rest in
      let? declared := u16_at bytes 0 in
      if negb (crc32 (drop 2 bytes) mod 65536 =? declared) then Err Corrupt
      else
        let? flags := u16_at bytes 3 in
        let? kind := byte_get bytes 2 in
        let n := Z.to_nat len in
        let? (w, packed) :=
          if kind =? 0x73 then no_data (rar4_main flags n w)
          else if kind =? 0x7a then rar4_sub bytes flags n w
          else if kind =? 0x74 then rar4_file bytes flags n w
          else if kind =? 0x7b then no_data (rar4_end flags n w)
          else Err Unsupported in
        let? offset := ok_or (checked_add offset len) Corrupt in
        let? offset := ok_or (checked_add offset packed) Corrupt in
        Ok (w, offset).

(** The bytes of a RAR5 header size: up to ten, ending at the first without
    the continuation bit. *)
Fixpoint read_vint (turns : nat) (file : str) (offset : Z) (encoded : str) : result ImportError str :=
  match turns with
  | O => Ok encoded
  | S turns' =>
      let? b := read_at file offset 1 in
      let encoded := encoded ++ b in
      match b with
      | [c] => if Z.land (byte c) 128 =? 0 then Ok encoded
               else read_vint turns' file (offset + 1) encoded
      | _ => Err Io
      end
  end.

(** The main archive header (type 1): the cursor after its body. *)
Definition rar5_main (bytes extra_area : str) (flags : Z) (cursor : nat) (w : Walk)
  : result ImportError (Walk * nat) :=
  let? (archive_flags, cursor) := var bytes cursor in
  if main w || has_bits flags 2 || has_other_bits archive_flags (4 + 8 + 16) then Err Unsupported
  else
    let? types := extra_record_types extra_area in
    if forallb (fun r => (r =? 1) || (r =? 2)) types then Ok (with_main w, cursor)
    else Err Unsupported.

(** The check of a file or service header's extra records, in order. *)
Fixpoint rar5_records (service : bool) (types : list Z) : result ImportError unit :=
  match types with
  | [] => Ok tt
  | r :: rest =>
      if r =? 1 then Err Encrypted
      else if service || (r =? 2) || (r =? 3) || (r =? 6) then rar5_records service rest
      else Err Unsupported
  end.

Definition skip_u32 (present : bool) (bytes : str) (cursor : nat) : result ImportError nat :=
  if present then let? _ := u32_at bytes cursor in Ok (cursor + 4)%nat else Ok cursor.

(** A file (2) or service (3) header. *)
Definition rar5_file (service : bool) (bytes extra_area : str) (packed : Z) (cursor : nat) (w : Walk)
  : result ImportError (Walk * nat) :=
  if negb (main w) then Err Corrupt
  else
    let? (file_flags, cursor) := var bytes cursor in
    if has_other_bits file_flags 7 then Err Unsupported
    else
      let? (unpacked, cursor) := var bytes cursor in
      let? (attributes, cursor) := var bytes cursor in
      if 4294967295 <? attributes then Err Unsupported
      else
        let? cursor := skip_u32 (has_bits file_flags 2) bytes cursor in
        let? cursor := skip_u32 (has_bits file_flags 4) bytes cursor in
        let? (_, cursor) := var bytes cursor in
        let? (host, cursor) := var bytes cursor in
        if 1 <? host then Err Unsupported
        else
          let? (name_len, cursor) := var bytes cursor in
          let? end_ := ok_or (checked_add (Z.of_nat cursor) name_len) Limit in
          let? name_bytes := ok_or (get_range bytes (Z.of_nat cursor) end_) Corrupt in
          let? types := extra_record_types extra_area in
          let? _ := rar5_records service types in
          if service then Ok (w, Z.to_nat end_)
          else
            let? nm := original_name name_bytes false in
            Ok (with_header w {| hname := nm; hsize := unpacked; hpacked := packed;
                                 hhost := if host =? 0 then 2 else 3; hattributes := attributes;
                                 hdirectory := has_bits file_flags 1 |}, Z.to_nat end_).

(** The end-of-archive header (5). *)
Definition rar5_end (bytes : str) (flags : Z) (cursor : nat) (w : Walk)
  : result ImportError (Walk * nat) :=
  if negb (main w) || has_bits flags 3 then Err Unsupported
  else
    let? (end_flags, cursor) := var bytes cursor in
    if negb (end_flags =? 0) then Err Unsupported else Ok (with_ended w, cursor).

Definition optional_var (present : bool) (bytes : str) (cursor : nat)
  : result ImportError (Z * nat) :=
  if present then var bytes cursor else Ok (0, cursor).

(** The header proper, once its bytes are read and its checksum agrees: the
    walk and the size of the data that follows. *)
Definition rar5_header (bytes : str) (w : Walk) : result ImportError (Walk * Z) :=
  let? (kind, cursor) := var bytes 0 in
  let? (flags, cursor) := var bytes cursor in
  if has_other_bits flags 7 then Err Unsupported
  else
    let? (extra, cursor) := optional_var (has_bits flags 1) bytes cursor in
    let? (packed, cursor) := optional_var (has_bits flags 2) bytes cursor in
    let body_end := Z.of_nat (length bytes) - extra in
    if (body_end <? 0) || (body_end <? Z.of_nat cursor) then Err Corrupt
    else
      let extra_area := drop (Z.to_nat body_end) bytes in
      let? (w, cursor) :=
        if kind =? 1 then rar5_main bytes extra_area flags cursor w
        else if (kind =? 2) || (kind =? 3) then
          rar5_file (kind =? 3) bytes extra_area packed cursor w
        else if kind =? 4 then Err Encrypted
        else if kind =? 5 then rar5_end bytes flags cursor w
        else Err Unsupported in
      if negb (Z.of_nat cursor =? body_end) then Err Unsupported else Ok (w, packed).

(** One RAR5 block. *)
Definition rar5_block (limits : Limits) (file : str) (offset : Z) (w : Walk)
  : result ImportError (Walk * Z) :=
  let? crc := read_at file offset 4 in
  let? encoded := read_vint 10 file (offset + 4) [] in
  let? (len, cursor) := var encoded 0 in
  if negb (cursor =? length encoded)%nat || (1048576 <? len) then Err Limit
  else
    let framing := Z.of_nat (length encoded) + 4 in
    let? _ := ok_or (checked_add (total w) (len + framing)) Limit in
    let w := add_total w (len + framing) in
    if max_index_bytes limits <? total w then Err Limit
    else
      let? bytes := read_at file (offset + framing) len in
      let? declared := u32_at crc 0 in
      if negb (crc32 (encoded ++ bytes) =? declared) then Err Corrupt
      else
        let? (w, packed) := rar5_header bytes w in
        let? offset := ok_or (checked_add offset (framing + len)) Corrupt in
        let? offset := ok_or (checked_add offset packed) Corrupt in
        Ok (w, offset).

(** The signatures of the two versions. *)
Definition rar5_signature : str := ["R"; "a"; "r"; "!"; "026"; "007"; "001"; "000"]%char.
Definition rar4_signature : str := ["R"; "a"; "r"; "!"; "026"; "007"; "000"]%char.

Definition block (v5 : bool) : Limits -> str -> Z -> Walk -> result ImportError (Walk * Z) :=
  if v5 then rar5_block else rar4_block.

(** The [while offset < size] loop.  Every block is at least five bytes long,
    so the size of the file is fuel enough: [attest_total]. *)
Fixpoint walk_loop (fuel : nat) (v5 : bool) (limits : Limits) (file : str) (offset : Z) (w : Walk)
  : option (result ImportError Walk) :=
  match fuel with
  | O => None
  | S fuel' =>
      if offset <? Z.of_nat (length file) then
        match block v5 limits file offset w with
        | Err e => Some (Err e)
        | Ok (w, offset) =>
            if max_entries limits <? Z.of_nat (length (headers w)) then Some (Err Limit)
            else if (Z.of_nat (length file) <? offset)
                    || ended w && negb (offset =? Z.of_nat (length file)) then Some (Err Corrupt)
            else if ended w then Some (Ok w)
            else walk_loop fuel' v5 limits file offset w
        end
      else Some (Ok w)
  end.

Definition empty_walk : Walk := {| total := 0; headers := []; main := false; ended := false |}.

(** [None] would be a loop that does not end. *)
Definition attest (limits : Limits) (file : str) : option (result ImportError (list Header)) :=
  match read_at file 0 8 with
  | Err e => Some (Err e)
  | Ok signature =>
      let start :=
        if str_eqb signature rar5_signature then Some (true, 8)
        else if str_eqb (take 7 signature) rar4_signature then Some (false, 7)
        else None in
      match start with
      | None => Some (Err Unsupported)
      | Some (v5, offset) =>
          match walk_loop (S (length file)) v5 limits file offset empty_walk with
          | None => None
          | Some (Err e) => Some (Err e)
          | Some (Ok w) => Some (if ended w then Ok (headers w) else Err Corrupt)
          end
      end
  end.
End attest.
