(* ===== verification/RarProps.v ===== *)
(** What the RAR header reader guarantees: variable-length integers, progress and
    termination of the walk, its bounds, and what a successful attestation says
    of the file. *)

From stdpp Require Import base tactics option list strings.
From Stdlib Require Import ZArith Lia Ascii.
From S2P Require Import Prelude Text RarHeaders.
Local Open Scope arclain_scope.
Local Open Scope Z_scope.

(** * Integers *)

Lemma byte_bounds c : 0 <= byte c < 256.
Proof.
  unfold byte, code. pose proof (N_ascii_bounded c). lia.
Qed.

Lemma byte_get_bounds b i v : byte_get b i = Ok v -> 0 <= v < 256 /\ (i < length b)%nat.
Proof.
  unfold byte_get. destruct (b !! i) eqn:E; [|done]. intros [= <-].
  split; [apply byte_bounds|by eapply lookup_lt_Some].
Qed.

Lemma u16_at_bounds b i v : u16_at b i = Ok v -> 0 <= v < 65536 /\ (i + 1 < length b)%nat.
Proof.
  unfold u16_at. intros H. simplify_result.
  apply byte_get_bounds in Hr as [? _], Hr0 as [? ?]. rewrite Z.shiftl_mul_pow2 by lia. lia.
Qed.

Lemma u32_at_bounds b i v : u32_at b i = Ok v -> 0 <= v < 4294967296.
Proof.
  unfold u32_at. intros H. simplify_result.
  apply u16_at_bounds in Hr as [? _], Hr0 as [? ?]. rewrite Z.shiftl_mul_pow2 by lia. lia.
Qed.

(** Bits above a number's own: [|] is [+]. *)
Lemma lor_shiftl v x s : 0 <= s -> 0 <= v < 2 ^ s -> Z.lor v (Z.shiftl x s) = v + x * 2 ^ s.
Proof.
  intros Hs Hv. rewrite <-Z.shiftl_mul_pow2 by done. rewrite <-Z.add_lor_land.
  enough (Z.land v (Z.shiftl x s) = 0) by lia.
  apply Z.bits_inj'. intros n Hn. rewrite Z.land_spec, Z.bits_0.
  destruct (Z.lt_ge_cases n s) as [Hlt|Hge].
  - by rewrite Z.shiftl_spec_low, andb_false_r.
  - rewrite <-(Z.mod_small v (2 ^ s)) by done. by rewrite Z.mod_pow2_bits_high by lia.
Qed.

Lemma land_127 x : Z.land x 127 = x mod 128.
Proof. change 127 with (Z.ones 7). by rewrite Z.land_ones. Qed.

(** A byte's continuation bit. *)
Lemma land_128 c : (Z.land (byte c) 128 =? 0) = (byte c <? 128).
Proof. destruct c as [[] [] [] [] [] [] [] []]; reflexivity. Qed.

(** The step every turn of [var] takes. *)
Lemma var_step value c shift :
  0 <= shift -> 0 <= value < 2 ^ shift ->
  let v := Z.lor value (Z.shiftl (Z.land (byte c) 127) shift) in
  v = value + (byte c mod 128) * 2 ^ shift /\ 0 <= v < 2 ^ (shift + 7).
Proof.
  intros Hs Hv v. assert (v = value + (byte c mod 128) * 2 ^ shift) as Heq.
  { unfold v. rewrite land_127. by apply lor_shiftl. }
  split; [done|]. rewrite Heq, Z.pow_add_r by lia.
  pose proof (Z.mod_pos_bound (byte c) 128). nia.
Qed.

Lemma var_loop_bounds turns shift b cursor value v c' :
  0 <= shift -> shift + 7 * Z.of_nat turns = 70 -> 0 <= value < 2 ^ shift ->
  var_loop turns shift b cursor value = Ok (v, c') ->
  0 <= v < 2 ^ 64 /\ (cursor < c' <= cursor + turns)%nat /\ (c' <= length b)%nat.
Proof.
  revert shift cursor value; induction turns as [|turns IH]; intros shift cursor value Hs Ht Hv;
    cbn [var_loop]; [done|]. intros H. simplify_result.
  pose proof Hr as Hb. apply byte_get_bounds in Hb as [Hb Hlen].
  unfold byte_get in Hr. destruct (b !! cursor) as [c|]; [|done]. injection Hr as <-.
  destruct (var_step value c shift Hs Hv) as [Heq Hbound].
  rewrite land_128 in H. destruct (byte c <? 128) eqn:Hc.
  - injection H as <- <-. split; [|lia]. split; [lia|].
    assert (turns = 0%nat \/ shift <= 56) as [->|Hsmall] by lia.
    + assert (shift = 63) as -> by lia. rewrite Z.eqb_refl in Hg. simpl in Hg.
      rewrite Heq. rewrite Z.mod_small by lia. apply Z.ltb_ge in Hg.
      change (2 ^ 64) with (2 ^ 63 + 1 * 2 ^ 63). nia.
    + eapply Z.lt_le_trans; [apply Hbound|]. apply Z.pow_le_mono_r; lia.
  - apply IH in H; [|lia|lia|done]. lia.
Qed.

Lemma var_bounds b cursor v c' :
  var b cursor = Ok (v, c') ->
  0 <= v < 2 ^ 64 /\ (cursor < c' <= cursor + 10)%nat /\ (c' <= length b)%nat.
Proof. intros H. by eapply (var_loop_bounds 10 0) in H. Qed.

(** The reference encoding: seven bits per byte, least significant first, the
    high bit on every byte but the last. *)
Fixpoint vint (fuel : nat) (n : Z) : str :=
  match fuel with
  | O => []
  | S fuel' => if n <? 128 then [chr n] else chr (128 + n mod 128) :: vint fuel' (n / 128)
  end.

(** What the bytes of such an encoding stand for. *)
Definition vint_value (s : str) : Z :=
  foldr (fun c acc => byte c mod 128 + 128 * acc) 0 s.

Lemma var_loop_value turns shift b cursor value v c' :
  0 <= shift -> shift + 7 * Z.of_nat turns = 70 -> 0 <= value < 2 ^ shift ->
  var_loop turns shift b cursor value = Ok (v, c') ->
  v = value + 2 ^ shift * vint_value (take (c' - cursor) (drop cursor b)).
Proof.
  revert shift cursor value; induction turns as [|turns IH]; intros shift cursor value Hs Ht Hv;
    cbn [var_loop]; [done|]. intros H. simplify_result.
  unfold byte_get in Hr. destruct (b !! cursor) as [c|] eqn:Ec; [|done]. injection Hr as <-.
  destruct (var_step value c shift Hs Hv) as [Heq Hbound].
  rewrite (drop_S _ _ _ Ec). rewrite land_128 in H. destruct (byte c <? 128).
  - injection H as <- <-. replace (S cursor - cursor)%nat with 1%nat by lia.
    rewrite Heq. unfold vint_value. cbn [take foldr]. rewrite take_0. cbn [foldr]. ring.
  - pose proof H as Hc. apply var_loop_bounds in Hc as (_ & Hc & _); [|lia|lia|done].
    apply IH in H; [|lia|lia|done]. replace (c' - cursor)%nat with (S (c' - S cursor)) by lia.
    cbn [take vint_value foldr]. fold (vint_value (take (c' - S cursor) (drop (S cursor) b))).
    rewrite H, Heq, Z.pow_add_r by lia. change (2 ^ 7) with 128. ring.
Qed.

Lemma byte_chr z : 0 <= z < 256 -> byte (chr z) = z.
Proof. intros H. unfold byte, chr, code. rewrite N_ascii_embedding by lia. lia. Qed.

Lemma var_loop_vint fuel shift n pre rest value :
  0 <= shift -> shift + 7 * Z.of_nat fuel = 70 -> 0 <= value < 2 ^ shift -> 0 <= n ->
  (0 < fuel)%nat \/ 0 < n -> n * 2 ^ shift < 2 ^ 64 ->
  var_loop fuel shift (pre ++ vint fuel n ++ rest) (length pre) value
  = Ok (value + n * 2 ^ shift, (length pre + length (vint fuel n))%nat).
Proof.
  revert shift n pre value; induction fuel as [|fuel IH]; intros shift n pre value Hs Hf Hv Hn Hpos Hlt.
  - assert (shift = 70) as -> by lia. change (2 ^ 70) with (64 * 2 ^ 64) in Hlt. nia.
  - cbn [vint var_loop]. set (d := if n <? 128 then n else 128 + n mod 128).
    assert (0 <= d < 256) as Hd.
    { unfold d. pose proof (Z.mod_pos_bound n 128). destruct (Z.ltb_spec n 128); lia. }
    assert (exists tl, (if n <? 128 then [chr n] else chr (128 + n mod 128) :: vint fuel (n / 128))
                       = chr d :: tl /\ tl = if n <? 128 then [] else vint fuel (n / 128)) as (tl & -> & Htl).
    { unfold d. destruct (n <? 128); eauto. }
    unfold byte_get. cbn [app]. rewrite list_lookup_middle by done. cbn [rbind].
    assert ((shift =? 63) && (1 <? byte (chr d)) = false) as ->.
    { rewrite byte_chr by done. destruct (Z.eqb_spec shift 63) as [->|]; [|done]. simpl. apply Z.ltb_ge.
      assert (n <= 1) by (change (2 ^ 64) with (2 * 2 ^ 63) in Hlt; nia).
      unfold d. destruct (Z.ltb_spec n 128); lia. }
    pose proof (var_step value (chr d) shift Hs Hv) as [Heq Hbound].
    rewrite land_128, Heq in *. clear Heq. rewrite byte_chr in * by done. unfold d in *.
    destruct (Z.ltb_spec n 128) as [Hsmall|Hbig].
    + assert (n <? 128 = true) as -> by lia. subst tl. rewrite Z.mod_small by lia.
      simpl. f_equal. f_equal. lia.
    + assert (128 + n mod 128 <? 128 = false) as ->.
      { pose proof (Z.mod_pos_bound n 128). lia. }
      assert ((128 + n mod 128) mod 128 = n mod 128) as Hmod.
      { replace (128 + n mod 128) with (n mod 128 + 1 * 128) by lia.
        by rewrite Z_mod_plus_full, Z.mod_mod by lia. }
      rewrite Hmod in *.
      assert (n = 128 * (n / 128) + n mod 128) as Hdiv by (apply Z.div_mod; lia).
      assert (2 ^ (shift + 7) = 2 ^ shift * 128) as Hpow by by rewrite Z.pow_add_r by lia.
      assert (1 <= n / 128) by (apply Z.div_le_lower_bound; lia).
      assert (n / 128 * 2 ^ (shift + 7) + n mod 128 * 2 ^ shift = n * 2 ^ shift) as Hsum.
      { rewrite Hpow. transitivity ((128 * (n / 128) + n mod 128) * 2 ^ shift); [ring|].
        by rewrite <-Hdiv. }
      assert (0 <= n mod 128 * 2 ^ shift).
      { apply Z.mul_nonneg_nonneg; [apply Z.mod_pos_bound; lia|apply Z.pow_nonneg; lia]. }
      specialize (IH (shift + 7) (n / 128) (pre ++ [chr (128 + n mod 128)])
                     (value + n mod 128 * 2 ^ shift)).
      rewrite length_app, <-app_assoc in IH. simpl in IH.
      rewrite Nat.add_1_r in IH. subst tl.
      rewrite IH; [f_equal; f_equal; [lia|simpl; lia]|lia|lia|lia|lia|right; lia|lia].
Qed.

(** * The blocks *)

Section blocks.
Context {RE : RarExternals}.

(** ** What a block is

    The kinds of headers: the main header, the header of a file, of a sub-block or service
    (which is passed over), and the end header. *)
Inductive BlockKind := KMain | KFile | KOther | KEnd.

#[global] Instance BlockKind_eq_dec : EqDecision BlockKind.
Proof. solve_decision. Defined.

(** [header] is a RAR4 header that [data] bytes follow: its bytes five and six are its own
    length, the third its type, the first two its checksum, and the header of a file or
    sub-block has the size of the data. *)
Definition rar4_framed (header : str) (data : Z) (k : BlockKind) : Prop :=
  u16_at header 5 = Ok (Z.of_nat (length header)) /\
  u16_at header 0 = Ok (crc32 (drop 2 header) mod 65536) /\
  exists kind flags, byte_get header 2 = Ok kind /\ u16_at header 3 = Ok flags /\
    match k with
    | KMain => kind = 0x73 /\ data = 0
    | KOther => kind = 0x7a /\ rar4_packed_size header flags = Ok data
    | KFile => kind = 0x74 /\ rar4_packed_size header flags = Ok data
    | KEnd => kind = 0x7b /\ data = 0
    end.

(** [header] is a RAR5 header that [data] bytes follow: four bytes of checksum, the length
    of the rest, and the rest, which begins with the type, the flags and the
    optional sizes of the extra area and of the data. *)
Definition rar5_framed (header : str) (data : Z) (k : BlockKind) : Prop :=
  exists crc encoded body, header = crc ++ encoded ++ body /\ length crc = 4%nat /\
    var encoded 0 = Ok (Z.of_nat (length body), length encoded) /\
    u32_at crc 0 = Ok (crc32 (encoded ++ body)) /\
    exists kind flags extra c1 c2 c3 c4,
      var body 0 = Ok (kind, c1) /\ var body c1 = Ok (flags, c2) /\
      optional_var (has_bits flags 1) body c2 = Ok (extra, c3) /\
      optional_var (has_bits flags 2) body c3 = Ok (data, c4) /\
      match k with KMain => kind = 1 | KFile => kind = 2 | KOther => kind = 3 | KEnd => kind = 5 end.

Definition framed (v5 : bool) : str -> Z -> BlockKind -> Prop := if v5 then rar5_framed else rar4_framed.

(** A block: its header, its data and its kind. *)
Record Block := mk_block { bheader : str; bdata : str; bkind : BlockKind }.

Definition block_bytes (b : Block) : str := bheader b ++ bdata b.

Definition block_ok (v5 : bool) (b : Block) : Prop := framed v5 (bheader b) (Z.of_nat (length (bdata b))) (bkind b).

(** What a block of a kind does to the walk, its data size given. *)
Inductive handled (packed : Z) : BlockKind -> Walk -> Walk -> Prop :=
| handled_main w : main w = false -> handled packed KMain w (with_main w)
| handled_skip w : main w = true -> handled packed KOther w w
| handled_file w h :
    main w = true -> validate_entry_path (hname h) = true -> hpacked h = packed ->
    handled packed KFile w (with_header w h)
| handled_end w : main w = true -> handled packed KEnd w (with_ended w).

Lemma original_name_valid bytes a nm :
  original_name bytes a = Ok nm -> validate_entry_path nm = true.
Proof. unfold original_name. intros H. simplify_result. done. Qed.

Lemma unicode_name_valid field nm : unicode_name field = Ok nm -> validate_entry_path nm = true.
Proof. unfold unicode_name. intros H. simplify_result. done. Qed.

Lemma rar4_packed_size_nonneg bytes flags packed :
  rar4_packed_size bytes flags = Ok packed -> 0 <= packed.
Proof.
  unfold rar4_packed_size. intros H. simplify_result. apply u32_at_bounds in Hr.
  destruct (has_bits flags 256); simplify_result; [|lia]. apply u32_at_bounds in Hr0.
  apply Z.lor_nonneg. split; [lia|]. apply Z.shiftl_nonneg. lia.
Qed.

Lemma rar4_file_handled bytes flags len w w' packed :
  rar4_file bytes flags len w = Ok (w', packed) ->
  handled packed KFile w w' /\ rar4_packed_size bytes flags = Ok packed.
Proof.
  unfold rar4_file. intros H.
  destruct (has_bits flags 4); [done|]. destruct (main w) eqn:Hm; [|done].
  destruct (_ || _); [done|].
  apply rbind_ok in H as (pk & Hpk & H).
  apply rbind_ok in H as (low & _ & H). apply rbind_ok in H as (nl & _ & H).
  apply rbind_ok in H as ([unpacked start] & _ & H). destruct (Nat.ltb _ _); [done|].
  apply rbind_ok in H as (tr & _ & H). destruct (negb _); [done|].
  apply rbind_ok in H as (rh & _ & H). apply rbind_ok in H as (host & _ & H).
  apply rbind_ok in H as (ver & _ & H). destruct (ver <? 20); [done|].
  apply rbind_ok in H as (attr & _ & H). apply rbind_ok in H as (nm & Hnm & [= <- <-]).
  split; [|done]. apply handled_file; [done| |done]. simpl.
  destruct (has_bits flags 512); [by apply unicode_name_valid in Hnm|by apply original_name_valid in Hnm].
Qed.

Lemma rar4_kind_handled kind bytes flags n w w' packed :
  (if kind =? 0x73 then no_data (rar4_main flags n w)
   else if kind =? 0x7a then rar4_sub bytes flags n w
   else if kind =? 0x74 then rar4_file bytes flags n w
   else if kind =? 0x7b then no_data (rar4_end flags n w)
   else Err Unsupported) = Ok (w', packed) ->
  exists k, handled packed k w w' /\ 0 <= packed /\
    match k with
    | KMain => kind = 0x73 /\ packed = 0
    | KOther => kind = 0x7a /\ rar4_packed_size bytes flags = Ok packed
    | KFile => kind = 0x74 /\ rar4_packed_size bytes flags = Ok packed
    | KEnd => kind = 0x7b /\ packed = 0
    end.
Proof.
  unfold no_data. intros H.
  destruct (Z.eqb_spec kind 0x73) as [Hkind|_].
  { apply rbind_ok in H as (w1 & Hr & [= <- <-]). unfold rar4_main in Hr.
    destruct (has_bits _ _); [done|]. destruct (main w) eqn:Hm; [done|].
    destruct (_ || _); [done|]. injection Hr as <-. exists KMain. by split; [apply handled_main|]. }
  destruct (Z.eqb_spec kind 0x7a) as [Hkind|_].
  { unfold rar4_sub in H. destruct (has_bits _ _); [done|]. destruct (main w) eqn:Hm; [|done].
    destruct (_ || _); [done|]. apply rbind_ok in H as (pk & Hpk & [= <- <-]).
    exists KOther. split; [by apply handled_skip|]. split; [by apply rar4_packed_size_nonneg in Hpk|done]. }
  destruct (Z.eqb_spec kind 0x74) as [Hkind|_].
  { apply rar4_file_handled in H as [Hh Hpk]. exists KFile. split; [done|]. split; [by apply rar4_packed_size_nonneg in Hpk|done]. }
  destruct (Z.eqb_spec kind 0x7b) as [Hkind|_]; [|done]. apply rbind_ok in H as (w1 & Hr & [= <- <-]).
  unfold rar4_end in Hr. destruct (main w) eqn:Hm; [|done]. destruct (_ || _); [done|].
  injection Hr as <-. exists KEnd. by split; [apply handled_end|].
Qed.

Lemma get_range_some b i j r :
  get_range b i j = Some r -> 0 <= i <= j /\ j <= Z.of_nat (length b) /\ Z.of_nat (length r) = j - i.
Proof.
  unfold get_range. destruct (_ && _) eqn:E; [|done]. intros [= <-].
  rewrite !andb_true_iff, !Z.leb_le in E. rewrite length_take, length_drop. lia.
Qed.

Lemma get_range_eq b i j r :
  get_range b i j = Some r -> r = take (Z.to_nat (j - i)) (drop (Z.to_nat i) b).
Proof. unfold get_range. destruct (_ && _); [|done]. by intros [= <-]. Qed.

Lemma byte_get_app a b i v : byte_get a i = Ok v -> byte_get (a ++ b) i = Ok v.
Proof.
  unfold byte_get. destruct (a !! i) eqn:E; [|done]. intros [= <-]. by rewrite (lookup_app_l_Some _ _ _ _ E).
Qed.

Lemma u16_at_app a b i v : u16_at a i = Ok v -> u16_at (a ++ b) i = Ok v.
Proof.
  unfold u16_at. intros H. simplify_result. apply byte_get_app with (b := b) in Hr, Hr0. by rewrite Hr, Hr0.
Qed.

(** What follows one piece of a file is the next. *)
Lemma take_more (l : str) n m : take n l ++ take m (drop n l) = take (n + m) l.
Proof. revert l. induction n as [|n IH]; intros l; [done|]. destruct l as [|c l]; simpl; [by rewrite take_nil|]. by rewrite IH. Qed.

(** A block read at [offset]: [header] is what is there, and [data] bytes follow. *)
Definition block_step (v5 : bool) (limits : Limits) (file : str) (offset : Z) (w w' : Walk)
    (header : str) (data : Z) (k : BlockKind) : Prop :=
  framed v5 header data k /\ handled data k (add_total w (Z.of_nat (length header))) w' /\
  header = take (length header) (drop (Z.to_nat offset) file) /\
  5 <= Z.of_nat (length header) /\ 0 <= data /\ total w + Z.of_nat (length header) <= max_index_bytes limits.

Lemma rar4_block_step limits file offset w w' offset' :
  rar4_block limits file offset w = Ok (w', offset') ->
  exists header data k, block_step false limits file offset w w' header data k /\
                        offset' = offset + Z.of_nat (length header) + data.
Proof.
  unfold rar4_block. intros H. apply rbind_ok in H as (prefix & Hp & H).
  apply rbind_ok in H as (len & Hlen & H). destruct (Z.ltb_spec len 7) as [|H7]; [done|].
  destruct (Z.ltb_spec (max_index_bytes limits) (total (add_total w len))) as [|Hlim]; [done|].
  apply rbind_ok in H as (rest & Hrest & H). apply rbind_ok in H as (decl & Hdecl & H).
  destruct (Z.eqb_spec (crc32 (drop 2 (prefix ++ rest)) mod 65536) decl) as [Hcrc|]; [|done]. apply rbind_ok in H as (flags & Hflags & H).
  apply rbind_ok in H as (kind & Hkind & H). apply rbind_ok in H as ([w1 packed] & Hk & H).
  apply rar4_kind_handled in Hk as (k & Hh & Hnn & Hk).
  apply rbind_ok in H as (o1 & Ho1 & H). apply rbind_ok in H as (o2 & Ho2 & [= <- <-]).
  apply ok_or_ok, checked_add_some in Ho1 as [-> _], Ho2 as [-> _].
  apply ok_or_ok in Hrest, Hp. pose proof (get_range_some _ _ _ _ Hrest) as (?&?&Hl2).
  pose proof (get_range_some _ _ _ _ Hp) as (?&?&Hl1). apply get_range_eq in Hrest, Hp. simpl in Hlim.
  assert (Z.of_nat (length (prefix ++ rest)) = len) as Hl by (rewrite length_app; lia).
  exists (prefix ++ rest), packed, k. rewrite Hl. split; [|done]. unfold block_step, framed, rar4_framed. rewrite Hl.
  split_and!; try done; try lia.
  - by apply u16_at_app.
  - by rewrite Hdecl, Hcrc.
  - by exists kind, flags.
  - rewrite Hrest at 1. rewrite Hp at 1. replace (Z.to_nat (offset + 7 - offset)) with 7%nat by lia.
    replace (Z.to_nat (offset + 7)) with (Z.to_nat offset + 7)%nat by lia. rewrite <-drop_drop, take_more. f_equal. lia.
Qed.

Lemma rar5_header_handled bytes w w' packed :
  rar5_header bytes w = Ok (w', packed) ->
  exists k, handled packed k w w' /\ 0 <= packed /\
    exists kind flags extra c1 c2 c3 c4,
      var bytes 0 = Ok (kind, c1) /\ var bytes c1 = Ok (flags, c2) /\
      optional_var (has_bits flags 1) bytes c2 = Ok (extra, c3) /\
      optional_var (has_bits flags 2) bytes c3 = Ok (packed, c4) /\
      match k with KMain => kind = 1 | KFile => kind = 2 | KOther => kind = 3 | KEnd => kind = 5 end.
Proof.
  unfold rar5_header. intros H. apply rbind_ok in H as ([kind c1] & Hkind & H).
  apply rbind_ok in H as ([flags c2] & Hflags & H). destruct (has_other_bits flags 7); [done|].
  apply rbind_ok in H as ([extra c3] & Hextra & H). apply rbind_ok in H as ([pk c4] & Hpk & H).
  assert (0 <= pk) as Hnn.
  { unfold optional_var in Hpk. destruct (has_bits flags 2); [apply var_bounds in Hpk; lia|].
    by injection Hpk as <- <-. }
  destruct (_ || _); [done|]. apply rbind_ok in H as ([w1 c5] & Hk & H).
  destruct (negb _); [done|]. injection H as <- <-.
  cut (exists k, handled pk k w w1 /\ match k with KMain => kind = 1 | KFile => kind = 2 | KOther => kind = 3 | KEnd => kind = 5 end).
  { intros (k & Hh & Hm). exists k. split; [done|]. split; [done|]. by exists kind, flags, extra, c1, c2, c3, c4. }
  destruct (Z.eqb_spec kind 1) as [->|_].
  { unfold rar5_main in Hk. apply rbind_ok in Hk as ([af c6] & _ & Hk).
    destruct (main w) eqn:Hm; [done|]. destruct (_ || _); [done|].
    apply rbind_ok in Hk as (types & _ & Hk). destruct (forallb _ _); [|done].
    injection Hk as <- <-. exists KMain. by split; [apply handled_main|]. }
  destruct (_ || _) eqn:Hkinds.
  { revert Hk. unfold rar5_file. destruct (main w) eqn:Hm; [|done]. cbn [negb]. intros Hk.
    apply rbind_ok in Hk as ([ff c6] & _ & Hk). destruct (has_other_bits ff 7); [done|].
    apply rbind_ok in Hk as ([un c7] & _ & Hk). apply rbind_ok in Hk as ([at_ c8] & _ & Hk).
    destruct (_ <? at_); [done|]. apply rbind_ok in Hk as (c9 & _ & Hk).
    apply rbind_ok in Hk as (c10 & _ & Hk). apply rbind_ok in Hk as ([cm c11] & _ & Hk).
    apply rbind_ok in Hk as ([host c12] & _ & Hk). destruct (1 <? host); [done|].
    apply rbind_ok in Hk as ([nl c13] & _ & Hk). apply rbind_ok in Hk as (end_ & _ & Hk).
    apply rbind_ok in Hk as (nb & _ & Hk). apply rbind_ok in Hk as (types & _ & Hk).
    apply rbind_ok in Hk as (u & _ & Hk). destruct (Z.eqb_spec kind 3) as [->|H3].
    - injection Hk as <- <-. exists KOther. by split; [apply handled_skip|].
    - apply rbind_ok in Hk as (nm & Hnm & [= <- <-]). exists KFile. split; [|lia]. apply handled_file; [done| |done].
      by apply original_name_valid in Hnm. }
  destruct (kind =? 4); [done|]. destruct (Z.eqb_spec kind 5) as [->|_]; [|done].
  unfold rar5_end in Hk. destruct (main w) eqn:Hm; [|done]. cbn [negb orb] in Hk. destruct (has_bits flags 3); [done|].
  apply rbind_ok in Hk as ([ef c6] & _ & Hk). destruct (negb _); [done|].
  injection Hk as <- <-. exists KEnd. by split; [apply handled_end|].
Qed.

(** The length is read byte by byte. *)
Lemma read_vint_eq turns file offset encoded r :
  0 <= offset -> read_vint turns file offset encoded = Ok r ->
  exists n, r = encoded ++ take n (drop (Z.to_nat offset) file) /\ length r = (length encoded + n)%nat.
Proof.
  revert offset encoded. induction turns as [|turns IH]; intros offset encoded Ho; cbn [read_vint].
  { intros [= <-]. exists 0%nat. rewrite take_0, app_nil_r. split; [done|lia]. }
  intros H. apply rbind_ok in H as (b & Hb & H). apply ok_or_ok in Hb.
  pose proof (get_range_some _ _ _ _ Hb) as (_ & _ & Hl). apply get_range_eq in Hb.
  replace (Z.to_nat (offset + 1 - offset)) with 1%nat in Hb by lia.
  destruct b as [|c [|d b]]; [done| |simpl in Hl; lia]. destruct (_ =? 0).
  { injection H as <-. exists 1%nat. by rewrite <-Hb, length_app. }
  apply IH in H as (n & Hr & Hn); [|lia]. exists (S n). rewrite length_app in Hn. simpl in Hn. split; [|lia].
  rewrite Hr, <-app_assoc. f_equal. rewrite Hb. replace (Z.to_nat (offset + 1)) with (Z.to_nat offset + 1)%nat by lia.
  by rewrite <-drop_drop, take_more.
Qed.

Lemma rar5_block_step limits file offset w w' offset' :
  rar5_block limits file offset w = Ok (w', offset') ->
  exists header data k, block_step true limits file offset w w' header data k /\
                        offset' = offset + Z.of_nat (length header) + data.
Proof.
  unfold rar5_block. intros H. apply rbind_ok in H as (crc & Hc & H).
  apply rbind_ok in H as (encoded & He & H). apply rbind_ok in H as ([len cursor] & Hlen & H).
  destruct (Nat.eqb_spec cursor (length encoded)) as [->|]; [|done].
  destruct (_ || _); [done|].
  apply rbind_ok in H as (t & _ & H).
  destruct (Z.ltb_spec (max_index_bytes limits)
    (total (add_total w (len + (Z.of_nat (length encoded) + 4))))) as [|Hlim]; [done|].
  apply rbind_ok in H as (bytes & Hb & H). apply rbind_ok in H as (decl & Hdecl & H).
  destruct (Z.eqb_spec (crc32 (encoded ++ bytes)) decl) as [Hcrc|]; [|done]. apply rbind_ok in H as ([w1 packed] & Hh & H).
  apply rar5_header_handled in Hh as (k & Hh & Hnn & Hk).
  apply rbind_ok in H as (o1 & Ho1 & H). apply rbind_ok in H as (o2 & Ho2 & [= <- <-]).
  apply ok_or_ok, checked_add_some in Ho1 as [-> _], Ho2 as [-> _].
  apply ok_or_ok in Hb, Hc. pose proof (get_range_some _ _ _ _ Hb) as (?&?&Hl2).
  pose proof (get_range_some _ _ _ _ Hc) as (?&?&Hl1). apply get_range_eq in Hb, Hc.
  apply read_vint_eq in He as (n & He & Hn); [|lia]. simpl in He, Hn. pose proof Hlen as Hpos. apply var_bounds in Hpos. simpl in Hlim.
  assert (Z.of_nat (length (crc ++ encoded ++ bytes)) = len + (Z.of_nat (length encoded) + 4)) as Hl by (rewrite !length_app; lia).
  assert (Z.of_nat (length bytes) = len) as Hbl by lia.
  exists (crc ++ encoded ++ bytes), packed, k. rewrite Hl. split; [|lia]. unfold block_step, framed, rar5_framed. rewrite Hl.
  split_and!; try done; try lia.
  - exists crc, encoded, bytes. rewrite Hbl, Hcrc. split_and!; try done. lia.
  - replace (length (crc ++ encoded ++ bytes)) with (4 + (n + Z.to_nat len))%nat by lia.
    rewrite <-!take_more. rewrite drop_drop. f_equal; [|f_equal].
    + rewrite Hc at 1. f_equal. lia.
    + rewrite He at 1. do 2 f_equal. lia.
    + rewrite Hb at 1. rewrite drop_drop. f_equal; [lia|]. f_equal. lia.
Qed.

Lemma block_step_of v5 limits file offset w w' offset' :
  block v5 limits file offset w = Ok (w', offset') ->
  exists header data k, block_step v5 limits file offset w w' header data k /\
                        offset' = offset + Z.of_nat (length header) + data.
Proof. destruct v5; [apply rar5_block_step|apply rar4_block_step]. Qed.

(** ** The walk *)

Definition sumz (l : list Z) : Z := fold_right Z.add 0 l.

(** The blocks [bs], with the walk from before to after them; the last is an end
    header and no other is. *)
Inductive chain (v5 : bool) (limits : Limits) : Walk -> list Block -> Walk -> Prop :=
| chain_end w b w' :
    block_ok v5 b -> bkind b = KEnd -> handled (Z.of_nat (length (bdata b))) KEnd (add_total w (Z.of_nat (length (bheader b)))) w' ->
    total w + Z.of_nat (length (bheader b)) <= max_index_bytes limits -> chain v5 limits w [b] w'
| chain_cons w b w1 bs w' :
    block_ok v5 b -> bkind b <> KEnd ->
    handled (Z.of_nat (length (bdata b))) (bkind b) (add_total w (Z.of_nat (length (bheader b)))) w1 ->
    chain v5 limits w1 bs w' -> chain v5 limits w (b :: bs) w'.

Definition is_file (b : Block) : bool := bool_decide (bkind b = KFile).

(** Sizes of the data of file blocks, and of the headers. *)
Definition file_data (bs : list Block) : list Z := map (fun b => Z.of_nat (length (bdata b))) (List.filter is_file bs).
Definition header_bytes (bs : list Block) : Z := sumz (map (fun b => Z.of_nat (length (bheader b))) bs).

Definition in_between (b : Block) : Prop := bkind b = KFile \/ bkind b = KOther.

Lemma chain_facts v5 limits w bs w' :
  chain v5 limits w bs w' ->
  Forall (block_ok v5) bs /\ total w' = total w + header_bytes bs /\ total w' <= max_index_bytes limits /\
  (exists hs, headers w' = headers w ++ hs /\ map hpacked hs = file_data bs /\
     Forall (fun h => validate_entry_path (hname h) = true) hs) /\
  (exists first mid last, bs = first ++ mid ++ [last] /\ bkind last = KEnd /\ Forall in_between mid /\
     if main w then first = [] else exists b, first = [b] /\ bkind b = KMain).
Proof.
  unfold file_data, header_bytes.
  induction 1 as [w b w' Hb Hk Hh Hl|w b w1 bs w' Hb Hk Hh _ IH].
  - remember KEnd as k eqn:Ek in Hh. remember (add_total _ _) as wt eqn:Ew. destruct Hh as [| | |wt Hmw]; try done. subst wt. simpl in *.
    unfold is_file. rewrite Hk. simpl. split_and!; try done; try lia.
    + by constructor.
    + exists []. by rewrite app_nil_r.
    + exists [], [], b. by rewrite Hmw.
  - destruct IH as (Hall & Ht & Hm & (hs & Hhs & Hpk & Hv) & (first & mid & last & -> & Hlast & Hmid & Hfirst)).
    simpl. unfold is_file at 1. remember (bkind b) as k eqn:Ek in Hh, Hk. remember (add_total _ _) as wt eqn:Ew.
    destruct Hh as [wt Hmw|wt Hmw|wt h Hmw Hvh Hph|wt Hmw]; subst wt; simpl in *; try done; rewrite <-Ek.
    + rewrite Hmw. rewrite bool_decide_false by done. rewrite Hfirst in *. simpl in *.
      split_and!; [by constructor|lia|done| |]; [by exists hs|]. exists [b], mid, last. split_and!; try done. by exists b.
    + rewrite Hmw in *. rewrite bool_decide_false by done. rewrite Hfirst in *. simpl in *.
      split_and!; [by constructor|lia|done| |]; [by exists hs|]. exists [], (b :: mid), last. split_and!; try done.
      constructor; [by right|done].
    + rewrite Hmw in *. rewrite bool_decide_true by done. rewrite Hfirst in *. simpl in *.
      split_and!; [by constructor|lia|done| |].
      * exists (h :: hs). rewrite Hhs, <-app_assoc. split_and!; [done| |by constructor]. simpl. by rewrite Hph, Hpk.
      * exists [], (b :: mid), last. split_and!; try done. constructor; [by left|done].
Qed.

Lemma handled_ended data k w w' : handled data k w w' -> ended w = false -> ended w' = bool_decide (k = KEnd).
Proof. by destruct 1. Qed.

(** What is left of the file is the block and what is left after it. *)
Lemma block_split (file header : str) offset (data : Z) :
  0 <= offset -> 0 <= data -> header = take (length header) (drop (Z.to_nat offset) file) ->
  offset + Z.of_nat (length header) + data <= Z.of_nat (length file) ->
  exists payload, Z.of_nat (length payload) = data /\
    drop (Z.to_nat offset) file = (header ++ payload) ++ drop (Z.to_nat (offset + Z.of_nat (length header) + data)) file.
Proof.
  intros Ho Hd Hh Hl. set (rest := drop (Z.to_nat offset) file) in *.
  exists (take (Z.to_nat data) (drop (length header) rest)).
  assert (length rest = (length file - Z.to_nat offset)%nat) as Hr by apply length_drop.
  rewrite length_take, length_drop. split; [lia|].
  replace (header ++ take (Z.to_nat data) (drop (length header) rest)) with (take (length header + Z.to_nat data) rest)
    by (by rewrite <-take_more, <-Hh).
  replace (drop (Z.to_nat (offset + Z.of_nat (length header) + data)) file) with (drop (length header + Z.to_nat data) rest).
  - by rewrite take_drop.
  - unfold rest. rewrite drop_drop. f_equal. lia.
Qed.

Lemma walk_loop_chain fuel v5 limits file offset w w' :
  0 <= offset <= Z.of_nat (length file) -> ended w = false ->
  walk_loop fuel v5 limits file offset w = Some (Ok w') -> ended w' = true ->
  exists bs, chain v5 limits w bs w' /\ drop (Z.to_nat offset) file = concat (map block_bytes bs) /\
    Z.of_nat (length (headers w')) <= max_entries limits.
Proof.
  revert offset w; induction fuel as [|fuel IH]; intros offset w Ho Hw; simpl; [done|].
  destruct (Z.ltb_spec offset (Z.of_nat (length file))) as [Hlt|Hge]; [|intros [= <-]; congruence].
  destruct (block v5 limits file offset w) as [[w1 o1]|e] eqn:Hb; [|done].
  apply block_step_of in Hb as (h & d & k & (Hf & Hh & Hhd & H5 & Hd & Ht) & ->).
  destruct (Z.ltb_spec (max_entries limits) (Z.of_nat (length (headers w1)))) as [|Hmax]; [done|].
  destruct (Z.ltb_spec (Z.of_nat (length file)) (offset + Z.of_nat (length h) + d)) as [|Hle]; [done|].
  destruct (block_split file h offset d) as (payload & Hp & Hsplit); [lia|lia|done|done|]. subst d.
  pose proof (handled_ended _ _ _ _ Hh Hw) as He1. cbn [orb]. rewrite He1. case_bool_decide as Hk; cbn [andb].
  - destruct (Z.eqb_spec (offset + Z.of_nat (length h) + Z.of_nat (length payload)) (Z.of_nat (length file))) as [Heq|]; [|done].
    cbn [negb]. intros [= <-] He. subst k. exists [mk_block h payload KEnd]. split; [|split; [|done]].
    + by apply chain_end.
    + rewrite Hsplit, Heq. simpl. by rewrite app_nil_r, drop_ge, app_nil_r by lia.
  - intros H He. apply IH in H as (bs & Hc & Hs & Hm); [|lia|done|done]. exists (mk_block h payload k :: bs).
    split; [by eapply chain_cons|]. split; [|done]. rewrite Hsplit, Hs. done.
Qed.

Lemma walk_loop_total fuel v5 limits file offset w :
  (Z.to_nat (Z.of_nat (length file) - offset) < fuel)%nat ->
  walk_loop fuel v5 limits file offset w <> None.
Proof.
  revert offset w; induction fuel as [|fuel IH]; intros offset w Hf; simpl; [lia|].
  destruct (Z.ltb_spec offset (Z.of_nat (length file))) as [Hlt|]; [|done].
  destruct (block v5 limits file offset w) as [[w1 o1]|e] eqn:Hb; [|done].
  apply block_step_of in Hb as (h & p & k & (_ & _ & _ & H5 & Hp & _) & ->).
  repeat case_match; try done. apply IH. lia.
Qed.

(** * Properties *)

(** The variable-length integers of RAR5 decode to what was
    encoded: for every 64-bit value the reader returns the value and the
    position after its encoding, whatever follows. *)
Theorem var_roundtrip n pre rest :
  0 <= n < 2 ^ 64 ->
  var (pre ++ vint 10 n ++ rest) (length pre) = Ok (n, (length pre + length (vint 10 n))%nat).
Proof.
  intros Hn. unfold var. rewrite var_loop_vint; [f_equal; f_equal; lia|lia|lia|lia|lia|lia|lia].
Qed.

(** Whatever the bytes, a variable-length integer that decodes
    is the value of its groups of seven bits, is a [u64] (no bit is
    lost in the shifts), takes between one and ten bytes,
    and never reads past the end. *)
Theorem var_in_range b cursor v c' :
  var b cursor = Ok (v, c') ->
  v = vint_value (take (c' - cursor) (drop cursor b)) /\
  0 <= v < 2 ^ 64 /\ (cursor < c' <= cursor + 10)%nat /\ (c' <= length b)%nat.
Proof.
  intros H. split; [|by apply var_bounds]. unfold var in H.
  eapply (var_loop_value 10 0) in H; [|lia..]. lia.
Qed.

(** C40: attestation ends on every file, hostile ones included:
    every block read moves the offset forward. *)
Theorem attest_total limits file : attest limits file <> None.
Proof.
  unfold attest. destruct (read_at file 0 8) as [sig|e]; [|done].
  destruct (str_eqb sig rar5_signature).
  - pose proof (walk_loop_total (S (length file)) true limits file 8 empty_walk) as H.
    destruct (walk_loop _ _ _ _ _ _) as [[]|]; [done|done|]. destruct H; [lia|done].
  - destruct (str_eqb _ _); [|done].
    pose proof (walk_loop_total (S (length file)) false limits file 7 empty_walk) as H.
    destruct (walk_loop _ _ _ _ _ _) as [[]|]; [done|done|]. destruct H; [lia|done].
Qed.

Definition signature (v5 : bool) : str := if v5 then rar5_signature else rar4_signature.

Lemma attest_chain limits file hs :
  attest limits file = Some (Ok hs) ->
  exists (v5 : bool) bs w, chain v5 limits empty_walk bs w /\ file = signature v5 ++ concat (map block_bytes bs) /\
    hs = headers w /\ Z.of_nat (length hs) <= max_entries limits.
Proof.
  unfold attest. destruct (read_at file 0 8) as [sig|e] eqn:Hsig; [|done].
  apply ok_or_ok in Hsig. pose proof (get_range_some _ _ _ _ Hsig) as (_ & H8 & _). apply get_range_eq in Hsig.
  rewrite drop_0 in Hsig. change (Z.to_nat (0 + 8 - 0)) with 8%nat in Hsig.
  set (start := if str_eqb sig rar5_signature then _ else _).
  assert (forall v5 o, start = Some (v5, o) -> o = Z.of_nat (length (signature v5)) /\ file = signature v5 ++ drop (Z.to_nat o) file) as Hstart.
  { unfold start. intros v5 o. destruct (str_eqb sig rar5_signature) eqn:E5.
    - apply str_eqb_eq in E5. intros [= <- <-]. split; [done|]. cbn [signature]. rewrite <-E5, Hsig. by rewrite take_drop.
    - destruct (str_eqb (take 7 sig) rar4_signature) eqn:E4; [|done]. apply str_eqb_eq in E4. intros [= <- <-]. split; [done|].
      cbn [signature]. rewrite <-E4, Hsig, take_take. by rewrite take_drop. }
  destruct start as [[v5 o]|]; [|done]. destruct (Hstart v5 o eq_refl) as [Ho Hfile].
  destruct (walk_loop _ _ _ _ _ _) as [[w|]|] eqn:Hw; [|done|done].
  destruct (ended w) eqn:He; [|done]. intros [= <-].
  apply walk_loop_chain in Hw as (bs & Hc & Hs & Hm); [|rewrite Ho; destruct v5; simpl; lia|done|done].
  exists v5, bs, w. split_and!; try done. by rewrite Hfile, Hs at 1.
Qed.

(** C22: a successful attestation accounts for every byte of the
    file: it is the signature followed by blocks, each a header and its data, up to the last byte.
    Each header has its length and the length of its data in its own fields and agrees with
    its checksum; the first is a main header, the last an end header, and between them are files and
    sub-blocks or services only. The headers together respect the index limit. The entries are
    the file blocks, in order, with the sizes of their data; they respect the entry limit,
    and every name passed the path rule. *)
Theorem attest_sound limits file hs :
  attest limits file = Some (Ok hs) ->
  exists (v5 : bool) first mid last,
    let blocks := first :: mid ++ [last] in
    file = signature v5 ++ concat (map block_bytes blocks) /\
    Forall (block_ok v5) blocks /\
    bkind first = KMain /\ Forall in_between mid /\ bkind last = KEnd /\
    header_bytes blocks <= max_index_bytes limits /\
    map hpacked hs = file_data blocks /\
    Z.of_nat (length hs) <= max_entries limits /\
    Forall (fun h => validate_entry_path (hname h) = true) hs.
Proof.
  intros H. apply attest_chain in H as (v5 & bs & w & Hc & -> & -> & Hm).
  apply chain_facts in Hc as (Hall & Ht & Hmax & (hs & Hhs & Hpk & Hval) & (f & mid & last & -> & Hlast & Hmid & Hf)).
  simpl in Hf. destruct Hf as (b & -> & Hb). simpl in Hhs, Ht.
  exists v5, b, mid, last. cbv zeta. rewrite Hhs in *. split_and!; try done. rewrite Ht in Hmax. simpl in *. lia.
Qed.
End blocks.

(** ** Witnesses *)

Module RarExample.
(** A checksum that is always zero and a path rule that accepts everything. *)
#[local] Instance lenient : RarExternals := {|
  crc32 := fun _ => 0; validate_entry_path := fun _ => true
|}.

Definition limits : Limits := {| max_entries := 2; max_index_bytes := 100 |}.

(** A RAR5 archive with one stored file [a] of two bytes. *)
Definition file : str :=
  rar5_signature
  ++ map chr [0; 0; 0; 0; 3; 1; 0; 0]
  ++ map chr [0; 0; 0; 0; 10; 2; 2; 2; 0; 2; 0; 0; 0; 1; 97] ++ §"hi"
  ++ map chr [0; 0; 0; 0; 3; 5; 0; 0].

Definition entry : Header :=
  {| hname := §"a"; hsize := 2; hpacked := 2; hhost := 2; hattributes := 0; hdirectory := false |}.

Lemma attest_sound_witness :
  attest limits file = Some (Ok [entry]) /\
  exists (v5 : bool) blocks, file = signature v5 ++ concat (map block_bytes blocks) /\ map hpacked [entry] = file_data blocks.
Proof.
  assert (attest limits file = Some (Ok [entry])) as H by (vm_compute; reflexivity).
  split; [exact H|]. destruct (attest_sound limits file [entry] H) as (v5 & b & mid & e & Hf & _ & _ & _ & _ & _ & Hd & _).
  exists v5, (b :: mid ++ [e]). split; [exact Hf|exact Hd].
Defined.

(** Bytes after the end header are refused. *)
Example attest_trailing : attest limits (file ++ §"x") = Some (Err Corrupt).
Proof. vm_compute. reflexivity. Qed.

Definition largest : Z := 18446744073709551615.

Lemma var_roundtrip_witness :
  var (§"x" ++ vint 10 largest ++ §"y") (length §"x")
    = Ok (largest, (length §"x" + length (vint 10 largest))%nat).
Proof. apply (var_roundtrip largest §"x" §"y"). unfold largest. lia. Defined.

Lemma var_in_range_witness :
  var (map chr [172; 2]) 0 = Ok (300, 2%nat) /\ 0 <= 300 < 2 ^ 64.
Proof.
  assert (var (map chr [172; 2]) 0 = Ok (300, 2%nat)) as H by (vm_compute; reflexivity).
  split; [exact H|]. exact (proj1 (proj2 (var_in_range _ _ _ _ H))).
Defined.

(** A truncated file is refused. *)
Example attest_truncated : attest limits (take 30 file) = Some (Err Io).
Proof. vm_compute. reflexivity. Qed.
End RarExample.
