(* ===== verification/CacheQuota.v ===== *)
(** The content cache's quotas
    ([crates/data/src/features/content_cache/quota.rs]): owner-scoped keys,
    reservations for downloads in progress, and the eviction that keeps the
    committed content under its limits. *)

From stdpp Require Import base tactics option list gmap sorting strings.
From Stdlib Require Import ZArith Lia Ascii.
From S2P Require Import Prelude Text RustPath.
Local Open Scope arclain_scope.
Local Open Scope Z_scope.

(** ** Owners and keys *)

Inductive CacheOwner := Host | Plugin (plugin_id : str).

#[export] Instance CacheOwner_eq_dec : EqDecision CacheOwner.
Proof. solve_decision. Defined.

Definition SCOPED_KEY_PREFIX : str := "001"%char :: §"arclain-cache:v1:".

Definition scoped_key (o : CacheOwner) (key : str) : str :=
  match o with
  | Host => SCOPED_KEY_PREFIX ++ §"h:0::" ++ key
  | Plugin plugin_id =>
      SCOPED_KEY_PREFIX ++ §"p:" ++ decimal (N.of_nat (length plugin_id)) ++ §":" ++ plugin_id
      ++ §":" ++ key
  end.

Definition is_colon (c : ascii) : bool := ascii_eqb c ":"%char.

(** The part after [p:]. *)
Definition parse_plugin_key (encoded : str) : option (CacheOwner * str) :=
  match find_char is_colon encoded with
  | None => None
  | Some length_end =>
      match parse_usize (take length_end encoded) with
      | None => None
      | Some owner_len =>
          let owner_and_key := drop (S length_end) encoded in
          if (Z.of_nat (length owner_and_key) <=? owner_len)
             || negb (match owner_and_key !! Z.to_nat owner_len with
                      | Some c => is_colon c
                      | None => false
                      end) then None
          else if negb (is_char_boundary owner_and_key (Z.to_nat owner_len)) then None
          else Some (Plugin (take (Z.to_nat owner_len) owner_and_key),
                     drop (S (Z.to_nat owner_len)) owner_and_key)
      end
  end.

Definition parse_scoped_key (key : str) : option (CacheOwner * str) :=
  match strip_prefix SCOPED_KEY_PREFIX key with
  | None => None
  | Some encoded =>
      match strip_prefix §"h:0::" encoded with
      | Some raw_key => Some (Host, raw_key)
      | None => match strip_prefix §"p:" encoded with
                | Some encoded => parse_plugin_key encoded
                | None => None
                end
      end
  end.

Definition from_scoped_key (key : str) : option CacheOwner := option_map fst (parse_scoped_key key).

Definition entry_owner (key : str) : CacheOwner := default Host (from_scoped_key key).

(** ** Limits and records *)

Record CacheLimits := {
  max_object_bytes : Z;
  max_owner_partial_bytes : Z;
  max_owner_partial_objects : Z;
  max_owner_committed_bytes : Z;
  max_owner_committed_objects : Z;
  max_global_bytes : Z;
  max_global_partial_objects : Z;
  max_global_committed_objects : Z;
  min_free_space_bytes : Z;
  partial_ttl : Z
}.

Record ReservationRecord := {
  res_owner : CacheOwner;
  res_scoped_key : str;
  reserved_bytes : Z;
  updated_at_secs : Z
}.

Record PendingCommit := {
  pc_owner : CacheOwner;
  pc_scoped_key : str;
  pc_bytes : Z;
  pc_objects : Z
}.

(** The columns of an index row the quota reads. *)
Record CacheEntry := {
  key : str;
  content_hash : str;
  size_bytes : option Z
}.

Record PhysicalBlob := {
  blob_hash : str;
  blob_size : Z;
  newest_lru_position : nat;
  keys : list str
}.

Inductive CacheCapacityRefusal := FreeSpace | Quota.

Inductive QuotaError :=
| PerObjectQuota
| OwnerPartialObjects
| GlobalPartialObjects
| OwnerPartialBytes
| OwnerCommitted
| GlobalCommitted
| Refused (r : CacheCapacityRefusal)
| IoError.

(** ** The index, as the trait [CacheIndex] (crates/data/src/traits.rs)

    Every operation may fail; [delete] answers with the index after it. *)
Class CacheIndex (I : Type) := {
  entries_lru : I -> option (list CacheEntry);
  entries_lru_page : I -> nat -> nat -> option (list CacheEntry);
  supports_lru_paging : I -> bool;
  delete_key : I -> str -> option I;
  has_content_hash : I -> str -> option bool;
  has_complete_lru_view : I -> bool
}.

(** What the quota relies on of an index: there is a list of rows, least
    recently used first, that the operations that succeed read and update; an
    index that cannot tell may claim a hash is referenced, never the converse. *)
Class LawfulIndex (I : Type) `{!CacheIndex I} := {
  view : I -> list CacheEntry;
  entries_lru_view i l : entries_lru i = Some l -> l = view i;
  entries_lru_page_view i offset limit l :
    entries_lru_page i offset limit = Some l -> l = take limit (drop offset (view i));
  delete_key_view i k i' :
    delete_key i k = Some i' -> view i' = List.filter (fun e => negb (str_eqb (key e) k)) (view i);
  has_content_hash_view i h :
    has_content_hash i h = Some false -> Forall (fun e => content_hash e <> h) (view i)
}.

(** What the quota takes from other crates and the system: the hex form of an
    integrity string ([ssri]), removal of a blob ([cacache]) and of a file, the
    free space, and the JSON of a reservation. *)
Class CacheExternals := {
  sri_to_hex : str -> option (str * str);
  remove_fails : str -> bool;
  unlink_fails : str -> bool;
  free_space : gmap str Z -> option Z;
  decode_record : str -> option ReservationRecord;
  encode_record : ReservationRecord -> str;
  write_fails : str -> bool
}.

(** A file of the [.partial] directory. *)
Record PartialFile := {
  pf_bytes : str;
  pf_modified_secs : Z
}.

(** The state under one cache root: the index, the blobs by their path below
    the root, the partial directory ([None] when it does not exist) by file name,
    and the process-wide registry of commits in flight. *)
Record Cache (I : Type) := {
  index : I;
  blobs : gmap str Z;
  partials : option (gmap str PartialFile);
  next_commit_id : Z;
  by_root : gmap str (gmap Z PendingCommit)
}.
Arguments index {I}. Arguments blobs {I}. Arguments partials {I}.
Arguments next_commit_id {I}. Arguments by_root {I}.

Section quota.
Context {I : Type} {CI : CacheIndex I} {CX : CacheExternals}.
Implicit Types c : Cache I.

(** A computation on the cache: its changes stay when it fails. *)
Definition Q (A : Type) : Type := Cache I -> result QuotaError A * Cache I.

Definition qret {A} (a : A) : Q A := fun c => (Ok a, c).
Definition qfail {A} (e : QuotaError) : Q A := fun c => (Err e, c).
Definition qbind {A B} (m : Q A) (k : A -> Q B) : Q B :=
  fun c => match m c with
           | (Ok a, c') => k a c'
           | (Err e, c') => (Err e, c')
           end.

Definition with_index c (i : I) : Cache I :=
  {| index := i; blobs := blobs c; partials := partials c; next_commit_id := next_commit_id c;
     by_root := by_root c |}.
Definition with_blobs c (b : gmap str Z) : Cache I :=
  {| index := index c; blobs := b; partials := partials c; next_commit_id := next_commit_id c;
     by_root := by_root c |}.
Definition with_partials c (p : option (gmap str PartialFile)) : Cache I :=
  {| index := index c; blobs := blobs c; partials := p; next_commit_id := next_commit_id c;
     by_root := by_root c |}.

(** The [?] on an operation of the index. *)
Definition q_index {A} (f : I -> option A) : Q A :=
  fun c => match f (index c) with Some a => (Ok a, c) | None => (Err IoError, c) end.

Definition q_delete (k : str) : Q unit :=
  fun c => match delete_key (index c) k with
           | Some i => (Ok tt, with_index c i)
           | None => (Err IoError, c)
           end.

Fixpoint q_each {A} (f : A -> Q unit) (l : list A) : Q unit :=
  match l with
  | [] => qret tt
  | x :: l' => qbind (f x) (fun _ => q_each f l')
  end.

(** ** Blobs *)

Definition physical_blob_path (hash : str) : option str :=
  match sri_to_hex hash with
  | Some (algorithm, hex) =>
      if (4 <=? length hex)%nat then
        Some (join §"/" [§"content-v2"; algorithm; take 2 hex; take 2 (drop 2 hex); drop 4 hex])
      else None
  | None => None
  end.

(** The file's length if it is there, the recorded size otherwise. *)
Definition physical_blob_size c (entry : CacheEntry) : Z :=
  match physical_blob_path (content_hash entry) ≫= (fun p => blobs c !! p) with
  | Some n => n
  | None => match size_bytes entry with
            | Some n => if 0 <=? n then n else 0
            | None => 0
            end
  end.

Definition remove_physical_blob (hash : str) : Q unit :=
  fun c =>
    match sri_to_hex hash with
    | None => (Ok tt, c)
    | Some _ =>
        if remove_fails hash then (Err IoError, c)
        else match physical_blob_path hash with
             | Some p => (Ok tt, with_blobs c (delete p (blobs c)))
             | None => (Ok tt, c)
             end
    end.

(** ** The index in pages *)

Definition INDEX_PAGE_SIZE : nat := 1024.

(** [None] would be a loop that does not end, or a failing page.  The fuel is
    a bound on the pages: [load_entries_complete]. *)
Fixpoint load_pages (fuel : nat) (i : I) (entries : list CacheEntry) : option (list CacheEntry) :=
  match fuel with
  | O => None
  | S fuel' =>
      match entries_lru_page i (length entries) INDEX_PAGE_SIZE with
      | None => None
      | Some page =>
          let entries := entries ++ page in
          if (length page <? INDEX_PAGE_SIZE)%nat then Some entries else load_pages fuel' i entries
      end
  end.

Definition load_entries_lru (fuel : nat) (i : I) : option (list CacheEntry) :=
  if supports_lru_paging i then load_pages fuel i [] else entries_lru i.

(** ** Groups of rows that share a blob *)

Definition add_to_group c (groups : list PhysicalBlob) (pe : nat * CacheEntry) : list PhysicalBlob :=
  let '(position, entry) := pe in
  let size := physical_blob_size c entry in
  let fix go (gs : list PhysicalBlob) : list PhysicalBlob :=
    match gs with
    | [] => [{| blob_hash := content_hash entry; blob_size := Z.max size size;
                newest_lru_position := position; keys := [key entry] |}]
    | g :: gs' =>
        if str_eqb (blob_hash g) (content_hash entry) then
          {| blob_hash := blob_hash g; blob_size := Z.max (blob_size g) size;
             newest_lru_position := position; keys := keys g ++ [key entry] |} :: gs'
        else g :: go gs'
    end in
  go groups.

Definition older (a b : PhysicalBlob) : Prop :=
  (newest_lru_position a <= newest_lru_position b)%nat.

#[global] Instance older_dec : RelDecision older.
Proof. intros a b. unfold older. apply _. Defined.

(** The groups of the rows that [keep] admits, least recently used first. *)
Definition groups_lru c (keep : CacheEntry -> bool) (entries : list CacheEntry)
  : list PhysicalBlob :=
  stable_sort older
    (fold_left (add_to_group c)
       (List.filter (fun pe => keep pe.2) (imap (fun i e => (i, e)) entries)) []).

Definition physical_groups_lru c (entries : list CacheEntry) : list PhysicalBlob :=
  groups_lru c (fun _ => true) entries.

Definition total_size (gs : list PhysicalBlob) : Z :=
  fold_left (fun t g => saturating_add t (blob_size g)) gs 0.

Definition total_keys (gs : list PhysicalBlob) : Z :=
  fold_left (fun t g => saturating_add t (Z.of_nat (length (keys g)))) gs 0.

(** ** Eviction *)

(** Delete the rows of a group. *)
Definition delete_keys (g : PhysicalBlob) : Q unit := q_each q_delete (keys g).

(** The loop shared by the two commit-time evictions: drop groups from the
    oldest on until [fits], removing a blob only when no row names it any more.
    The byte and object counts that are left come back. *)
Fixpoint evict_until (fits : Z -> Z -> bool) (gs : list PhysicalBlob) (bytes objects : Z)
  : Q (Z * Z) :=
  match gs with
  | [] => qret (bytes, objects)
  | g :: gs' =>
      qbind (delete_keys g) (fun _ =>
      let bytes := saturating_sub bytes (blob_size g) in
      let objects := saturating_sub objects (Z.of_nat (length (keys g))) in
      qbind (q_index (fun i => has_content_hash i (blob_hash g))) (fun hash_still_referenced =>
      qbind (if hash_still_referenced then qret tt else remove_physical_blob (blob_hash g)) (fun _ =>
      if fits bytes objects then qret (bytes, objects) else evict_until fits gs' bytes objects)))
  end.

Definition sum_sat (l : list Z) : Z := fold_left saturating_add l 0.

(** [ensure_global_committed_capacity]. *)
Definition ensure_global_committed_capacity (limits : CacheLimits) (fuel : nat) (sk : str)
    (incoming_bytes : Z) (pending_commits : list PendingCommit) : Q unit :=
  qbind (q_index (load_entries_lru fuel)) (fun entries =>
  let incoming_objects := if existsb (fun e => str_eqb (key e) sk) entries then 0 else 1 in
  let others := List.filter (fun pc => negb (str_eqb (pc_scoped_key pc) sk)) pending_commits in
  let pending_bytes := sum_sat (map pc_bytes others) in
  let pending_objects := sum_sat (map pc_objects others) in
  let committed_objects :=
    Z.of_nat (count_if (fun e => negb (str_eqb (key e) sk)) entries) in
  fun c =>
    let groups := groups_lru c (fun e => negb (str_eqb (key e) sk)) entries in
    let committed_bytes := total_size groups in
    let within bytes objects :=
      (saturating_add (saturating_add bytes pending_bytes) incoming_bytes <=? max_global_bytes limits)
      && (saturating_add (saturating_add objects pending_objects) incoming_objects
          <=? max_global_committed_objects limits) in
    if within committed_bytes committed_objects then (Ok tt, c)
    else
      qbind (evict_until within groups committed_bytes committed_objects) (fun '(bytes, objects) =>
      if within bytes objects then qret tt else qfail GlobalCommitted) c).

(** [prepare_commit], up to the registration of the admission: the owner's
    share. *)
Definition ensure_owner_committed (limits : CacheLimits) (owner : CacheOwner) (sk : str)
    (incoming_bytes : Z) (pending_commits : list PendingCommit) (entries : list CacheEntry)
  : Q unit :=
  fun c =>
    let mine := List.filter (fun pc => bool_decide (pc_owner pc = owner)
                                       && negb (str_eqb (pc_scoped_key pc) sk)) pending_commits in
    let pending_owner_bytes := sum_sat (map pc_bytes mine) in
    let pending_owner_objects := sum_sat (map pc_objects mine) in
    let incoming_objects := if existsb (fun e => str_eqb (key e) sk) entries then 0 else 1 in
    let owner_groups :=
      groups_lru c (fun e => negb (str_eqb (key e) sk) && bool_decide (entry_owner (key e) = owner))
        entries in
    let owner_bytes := total_size owner_groups in
    let owner_objects := total_keys owner_groups in
    let within bytes objects :=
      (saturating_add (saturating_add bytes pending_owner_bytes) incoming_bytes
         <=? max_owner_committed_bytes limits)
      && (saturating_add (saturating_add objects pending_owner_objects) incoming_objects
          <=? max_owner_committed_objects limits) in
    qbind (if within owner_bytes owner_objects then qret (owner_bytes, owner_objects)
           else evict_until within owner_groups owner_bytes owner_objects) (fun '(bytes, objects) =>
    if within bytes objects then qret tt else qfail OwnerCommitted) c.

Record CommitAdmission := {
  adm_root : str;
  adm_id : Z
}.

(** [root] is the canonical cache root. *)
Definition prepare_commit (limits : CacheLimits) (fuel : nat) (root : str) (owner : CacheOwner)
    (sk : str) (incoming_bytes : Z) : Q CommitAdmission :=
  fun c0 =>
    let pending_commits := map snd (map_to_list (default ∅ (by_root c0 !! root))) in
    (if max_object_bytes limits <? incoming_bytes then qfail PerObjectQuota
     else if max_owner_committed_bytes limits <? incoming_bytes then qfail OwnerCommitted
     else
       qbind (q_index (load_entries_lru fuel)) (fun entries =>
       qbind (ensure_owner_committed limits owner sk incoming_bytes pending_commits entries) (fun _ =>
       qbind (ensure_global_committed_capacity limits fuel sk incoming_bytes pending_commits) (fun _ =>
       fun c =>
         let id := next_commit_id c in
         let incoming_objects := if existsb (fun e => str_eqb (key e) sk) entries then 0 else 1 in
         let commit := {| pc_owner := owner; pc_scoped_key := sk; pc_bytes := incoming_bytes;
                          pc_objects := incoming_objects |} in
         (Ok {| adm_root := root; adm_id := id |},
          {| index := index c; blobs := blobs c; partials := partials c;
             next_commit_id := wrapping_add id 1;
             by_root := <[root := <[id := commit]> (default ∅ (by_root c !! root))]> (by_root c) |}))))) c0.

(** [CommitAdmission::drop]. *)
Definition drop_admission (a : CommitAdmission) (c : Cache I) : Cache I :=
  match by_root c !! adm_root a with
  | None => c
  | Some commits =>
      let commits := delete (adm_id a) commits in
      {| index := index c; blobs := blobs c; partials := partials c;
         next_commit_id := next_commit_id c;
         by_root := if bool_decide (commits = ∅) then delete (adm_root a) (by_root c)
                    else <[adm_root a := commits]> (by_root c) |}
  end.

Definition discard_blob_if_unreferenced (hash : str) : Q unit :=
  qbind (q_index (fun i => has_content_hash i hash)) (fun referenced =>
  if referenced then qret tt else remove_physical_blob hash).

(** ** Reconciliation *)

(** The rows whose blob is there keep it; the others are deleted. *)
Fixpoint reconcile_rows (entries : list CacheEntry) (referenced : gset str) : Q (gset str) :=
  match entries with
  | [] => qret referenced
  | entry :: rest =>
      fun c =>
        match physical_blob_path (content_hash entry) with
        | None => qbind (q_delete (key entry)) (fun _ => reconcile_rows rest referenced) c
        | Some p =>
            match blobs c !! p with
            | Some _ => reconcile_rows rest ({[ p ]} ∪ referenced) c
            | None => qbind (q_delete (key entry)) (fun _ => reconcile_rows rest referenced) c
            end
        end
  end.

Fixpoint unlink_unreferenced (paths : list str) (referenced : gset str) : Q unit :=
  match paths with
  | [] => qret tt
  | p :: rest =>
      if bool_decide (p ∈ referenced) then unlink_unreferenced rest referenced
      else
        fun c => if unlink_fails p then (Err IoError, c)
                 else unlink_unreferenced rest referenced (with_blobs c (delete p (blobs c)))
  end.

Definition reconcile_physical_blobs (fuel : nat) : Q unit :=
  fun c =>
    if negb (has_complete_lru_view (index c)) then (Ok tt, c)
    else
      qbind (q_index (load_entries_lru fuel)) (fun entries =>
      qbind (reconcile_rows entries ∅) (fun referenced =>
      fun c => unlink_unreferenced (map fst (map_to_list (blobs c))) referenced c)) c.

(** ** Reservations *)

Definition global_capacity_fits (limits : CacheLimits) (committed_bytes reserved : Z) : Q bool :=
  fun c =>
    if max_global_bytes limits <? saturating_add committed_bytes reserved then (Ok false, c)
    else match free_space (blobs c) with
         | None => (Err IoError, c)
         | Some available =>
             (Ok (reserved <=? saturating_sub available (min_free_space_bytes limits)), c)
         end.

(** The eviction loop of [ensure_global_capacity]: what is left to report when
    it runs out of groups. *)
Fixpoint evict_for_reservation (limits : CacheLimits) (reserved : Z) (gs : list PhysicalBlob)
    (committed_bytes : Z) : Q unit :=
  match gs with
  | [] =>
      if max_global_bytes limits <? saturating_add committed_bytes reserved
      then qfail (Refused Quota) else qfail (Refused FreeSpace)
  | g :: gs' =>
      qbind (delete_keys g) (fun _ =>
      qbind (remove_physical_blob (blob_hash g)) (fun _ =>
      let committed_bytes := saturating_sub committed_bytes (blob_size g) in
      qbind (global_capacity_fits limits committed_bytes reserved) (fun fits =>
      if fits then qret tt else evict_for_reservation limits reserved gs' committed_bytes)))
  end.

Definition current_groups (fuel : nat) : Q (list PhysicalBlob) :=
  qbind (q_index (load_entries_lru fuel)) (fun entries c => (Ok (physical_groups_lru c entries), c)).

Definition ensure_global_capacity (limits : CacheLimits) (fuel : nat) (reserved : Z) : Q unit :=
  if max_global_bytes limits <? reserved then qfail (Refused Quota)
  else
    qbind (current_groups fuel) (fun groups =>
    qbind (global_capacity_fits limits (total_size groups) reserved) (fun fits =>
    if fits then qret tt
    else
      qbind (reconcile_physical_blobs fuel) (fun _ =>
      qbind (current_groups fuel) (fun groups =>
      qbind (global_capacity_fits limits (total_size groups) reserved) (fun fits =>
      if fits then qret tt
      else evict_for_reservation limits reserved groups (total_size groups)))))).

Definition MAX_RESERVATION_RECORD_BYTES : Z := 16384.
Definition MAX_RESERVATION_KEY_BYTES : nat := 4096.
Definition MAX_OWNER_ID_BYTES : nat := 512.

Definition valid_reservation_record (limits : CacheLimits) (r : ReservationRecord) (now : Z) : bool :=
  if (MAX_RESERVATION_KEY_BYTES <? length (res_scoped_key r))%nat
     || (max_object_bytes limits <? reserved_bytes r)
     || (saturating_add now (partial_ttl limits) <? updated_at_secs r) then false
  else if match res_owner r with
          | Plugin id => (MAX_OWNER_ID_BYTES <? length id)%nat
          | Host => false
          end then false
  else match parse_scoped_key (res_scoped_key r) with
       | Some (owner, _) => bool_decide (owner = res_owner r)
       | None => false
       end.

(** [Path::with_extension] of a file name. *)
Definition with_extension (name ext : str) : str :=
  let stem :=
    match rfind_char (fun a => ascii_eqb a "."%char) name with
    | Some (S i) => take (S i) name
    | _ => name
    end in
  stem ++ §"." ++ ext.

Definition discard_sidecar_group (name : str) : Q unit :=
  q_each (fun ext c =>
    let p := with_extension name ext in
    match partials c with
    | Some files =>
        match files !! p with
        | Some _ => if unlink_fails p then (Err IoError, c)
                    else (Ok tt, with_partials c (Some (delete p files)))
        | None => (Ok tt, c)
        end
    | None => (Ok tt, c)
    end) [§"reservation"; §"partial"; §"meta"].

Definition is_atomic_temp (name : str) : bool :=
  starts_with name §"." && contains_str name §".tmp-".

Definition unlink_partial (name : str) : Q unit :=
  fun c => if unlink_fails name then (Err IoError, c)
           else (Ok tt, with_partials c (option_map (delete name) (partials c))).

(** The first pass: temporary files, and reservation records. *)
Fixpoint scan_records (limits : CacheLimits) (now : Z) (listing : list (str * PartialFile))
    (records : list (str * ReservationRecord)) : Q (list (str * ReservationRecord)) :=
  match listing with
  | [] => qret records
  | (name, f) :: rest =>
      if is_atomic_temp name then
        qbind (if partial_ttl limits <? saturating_sub now (pf_modified_secs f)
               then unlink_partial name else qret tt)
          (fun _ => scan_records limits now rest records)
      else if negb (bool_decide (extension name = Some §"reservation")) then
        scan_records limits now rest records
      else
        let record :=
          if Z.of_nat (length (pf_bytes f)) <=? MAX_RESERVATION_RECORD_BYTES
          then match decode_record (pf_bytes f) with
               | Some r => if valid_reservation_record limits r now then Some r else None
               | None => None
               end
          else None in
        match record with
        | None => qbind (discard_sidecar_group name) (fun _ => scan_records limits now rest records)
        | Some r =>
            if partial_ttl limits <? saturating_sub now (updated_at_secs r)
            then qbind (discard_sidecar_group name) (fun _ => scan_records limits now rest records)
            else scan_records limits now rest (records ++ [(name, r)])
        end
  end.

(** The second pass: partial files no reservation stands for. *)
Fixpoint scan_orphans (limits : CacheLimits) (now : Z) (listing : list (str * PartialFile)) : Q unit :=
  match listing with
  | [] => qret tt
  | (name, f) :: rest =>
      if negb (bool_decide (extension name = Some §"partial")
               || bool_decide (extension name = Some §"meta")) then scan_orphans limits now rest
      else
        fun c =>
          let reservation := with_extension name §"reservation" in
          if bool_decide (is_Some (partials c ≫= (fun files => files !! reservation)))
          then scan_orphans limits now rest c
          else if partial_ttl limits <? saturating_sub now (pf_modified_secs f)
          then qbind (discard_sidecar_group reservation) (fun _ => scan_orphans limits now rest) c
          else scan_orphans limits now rest c
  end.

Definition scan_reservations (limits : CacheLimits) (now : Z)
  : Q (list (str * ReservationRecord)) :=
  fun c =>
    match partials c with
    | None => (Ok [], c)
    | Some files =>
        qbind (scan_records limits now (map_to_list files) []) (fun records c =>
        match partials c with
        | None => (Err IoError, c)
        | Some files => qbind (scan_orphans limits now (map_to_list files)) (fun _ => qret records) c
        end) c
    end.

Definition write_reservation (name : str) (r : ReservationRecord) (now : Z) : Q unit :=
  fun c =>
    if write_fails name then (Err IoError, c)
    else (Ok tt, with_partials c
                   (Some (<[name := {| pf_bytes := encode_record r; pf_modified_secs := now |}]>
                            (default ∅ (partials c))))).

(** The checks of [reserve_at] against the other reservations. *)
Definition admit_reservation (limits : CacheLimits) (owner : CacheOwner) (name : str)
    (target_bytes : Z) (reservations : list (str * ReservationRecord)) : result QuotaError Z :=
  let others := List.filter (fun pr => negb (str_eqb pr.1 name)) reservations in
  let mine := List.filter (fun pr => bool_decide (res_owner pr.2 = owner)) others in
  let is_new := if existsb (fun pr => str_eqb pr.1 name) reservations then 0 else 1 in
  if max_owner_partial_objects limits <? saturating_add (Z.of_nat (length mine)) is_new
  then Err OwnerPartialObjects
  else if max_global_partial_objects limits <? saturating_add (Z.of_nat (length others)) is_new
  then Err GlobalPartialObjects
  else
    let owner_partial := sum_sat (map (fun pr => reserved_bytes pr.2) mine) in
    if max_owner_partial_bytes limits <? saturating_add owner_partial target_bytes
    then Err OwnerPartialBytes
    else Ok (saturating_add (sum_sat (map (fun pr => reserved_bytes pr.2) others)) target_bytes).

Definition q_result {A} (r : result QuotaError A) : Q A :=
  match r with Ok a => qret a | Err e => qfail e end.

Definition reserve_at (limits : CacheLimits) (fuel : nat) (owner : CacheOwner) (sk name : str)
    (target_bytes now : Z) : Q unit :=
  if max_object_bytes limits <? target_bytes then qfail PerObjectQuota
  else
    qbind (scan_reservations limits now) (fun reservations =>
    qbind (q_result (admit_reservation limits owner name target_bytes reservations)) (fun reserved =>
    qbind (ensure_global_capacity limits fuel reserved) (fun _ =>
    write_reservation name
      {| res_owner := owner; res_scoped_key := sk; reserved_bytes := target_bytes;
         updated_at_secs := now |} now))).

(** [release]: a reservation that is gone already is no error. *)
Definition release (name : str) : Q unit :=
  fun c =>
    match partials c ≫= (fun files => files !! name) with
    | None => (Ok tt, c)
    | Some _ => unlink_partial name c
    end.

Definition maintain_at (limits : CacheLimits) (fuel : nat) (now : Z) : Q unit :=
  qbind (scan_reservations limits now) (fun _ => reconcile_physical_blobs fuel).
End quota.
