(* ===== verification/CacheProps.v ===== *)
(** What the cache quotas guarantee: keys cannot be confused between owners,
    reservations stay within their limits, and no eviction or reconciliation
    takes a blob from a row that stays in the index. *)

From stdpp Require Import base tactics option list gmap sorting strings.
From Stdlib Require Import ZArith Lia Ascii.
From S2P Require Import Prelude Text RustPath CacheQuota.
Local Open Scope arclain_scope.
Local Open Scope Z_scope.

(** * Scoped keys *)

Lemma strip_prefix_app p s : strip_prefix p (p ++ s) = Some s.
Proof. by apply strip_prefix_spec. Qed.

Lemma drop_after {A} (s : list A) c t : drop (S (length s)) (s ++ c :: t) = t.
Proof. induction s as [|d s IH]; simpl; [done|exact IH]. Qed.

Lemma parse_plugin_key_spec id k :
  Z.of_nat (length id) <= u64_max ->
  parse_plugin_key (decimal (N.of_nat (length id)) ++ §":" ++ id ++ §":" ++ k) = Some (Plugin id, k).
Proof.
  intros Hlen. destruct (decimal_spec (N.of_nat (length id))) as (c & ds & Hdec & Hdig & Hparse).
  unfold parse_plugin_key. change (§":" ++ id ++ §":" ++ k) with (":"%char :: id ++ ":"%char :: k).
  rewrite find_char_app; [| |done].
  - rewrite take_app_length, Hparse by lia.
    rewrite drop_after, nat_N_Z, Nat2Z.id, length_app. simpl length.
    destruct (Z.leb_spec (Z.of_nat (length id + S (length k))) (Z.of_nat (length id))); [lia|].
    rewrite list_lookup_middle by done. simpl.
    assert (is_char_boundary (id ++ ":"%char :: k) (length id) = true) as ->.
    { unfold is_char_boundary. destruct (length id) as [|m] eqn:E; [done|].
      rewrite <-E, list_lookup_middle by done. done. }
    by rewrite take_app_length, drop_after.
  - rewrite Hdec. eapply Forall_impl; [exact Hdig|]. intros d Hd. apply not_true_is_false.
    intros ->%ascii_eqb_eq. discriminate Hd.
Qed.

Lemma parse_scoped_key_spec o k :
  match o with Host => True | Plugin id => Z.of_nat (length id) <= u64_max end ->
  parse_scoped_key (scoped_key o k) = Some (o, k).
Proof.
  intros H. unfold parse_scoped_key, scoped_key. destruct o as [|id].
  - rewrite strip_prefix_app. by rewrite strip_prefix_app.
  - rewrite strip_prefix_app. cbn [strip_prefix app]. by apply parse_plugin_key_spec.
Qed.

(** * Blobs *)

Section safety.
Context {I : Type} {CI : CacheIndex I} {LI : LawfulIndex I} {CX : CacheExternals}.

(** The integrity strings that are in use, of which no two name one blob. *)
Context (in_use : str -> Prop).
Hypothesis in_use_paths : forall h1 h2 p,
  in_use h1 -> in_use h2 -> physical_blob_path h1 = Some p -> physical_blob_path h2 = Some p -> h1 = h2.

Implicit Types c : Cache I.

Definition uses (es : list CacheEntry) : Prop := forall e, e ∈ es -> in_use (content_hash e).

Definition rows_in_use c : Prop := uses (view (index c)).

(** From [c] to [c']: rows only disappear, and the blob of every row that is
    left is exactly as it was. *)
Definition safe c c' : Prop :=
  (forall e, e ∈ view (index c') -> e ∈ view (index c)) /\
  (forall e p, e ∈ view (index c') -> physical_blob_path (content_hash e) = Some p ->
     blobs c' !! p = blobs c !! p).

Instance safe_refl : Reflexive safe.
Proof. by intros c. Qed.

Instance safe_trans : Transitive safe.
Proof.
  intros c1 c2 c3 [H1 H2] [H3 H4]. split; [auto|].
  intros e p He Hp. rewrite (H4 e p He Hp). exact (H2 e p (H3 e He) Hp).
Qed.

Lemma load_pages_view fuel i acc l :
  acc = take (length acc) (view i) -> load_pages fuel i acc = Some l -> l = view i.
Proof.
  revert acc; induction fuel as [|fuel IH]; intros acc Hacc; simpl; [done|].
  destruct (entries_lru_page i (length acc) INDEX_PAGE_SIZE) as [page|] eqn:E; [|done].
  apply entries_lru_page_view in E.
  assert (acc ++ page = take (length acc + INDEX_PAGE_SIZE) (view i)) as Happ.
  { rewrite E. rewrite Hacc at 1. by rewrite <-take_take_drop. }
  destruct (Nat.ltb_spec (length page) INDEX_PAGE_SIZE) as [Hlt|Hge].
  - intros [= <-]. rewrite Happ. apply take_ge.
    rewrite E, length_take, length_drop in Hlt. lia.
  - apply IH. rewrite Happ at 1. rewrite length_app. f_equal.
    assert (length page = INDEX_PAGE_SIZE) as ->; [|done].
    rewrite E, length_take in *. lia.
Qed.

Lemma load_entries_view fuel i l : load_entries_lru fuel i = Some l -> l = view i.
Proof.
  unfold load_entries_lru. destruct (supports_lru_paging i); [|apply entries_lru_view].
  by apply load_pages_view.
Qed.

Lemma safe_rows c c' : safe c c' -> rows_in_use c -> rows_in_use c'.
Proof. intros [H _] Hc e He. by apply Hc, H. Qed.

Definition preserves {A} (m : Q A) : Prop := forall c r c', rows_in_use c -> m c = (r, c') -> safe c c'.

Lemma preserves_ret {A} (a : A) : preserves (qret a).
Proof. by intros c r c' _ [= <- <-]. Qed.

Lemma preserves_fail {A} e : preserves (@qfail I A e).
Proof. by intros c r c' _ [= <- <-]. Qed.

Lemma preserves_bind {A B} (m : Q A) (k : A -> Q B) :
  preserves m -> (forall a, preserves (k a)) -> preserves (qbind m k).
Proof.
  intros Hm Hk c r c' Hc. unfold qbind. destruct (m c) as [[a|e] c1] eqn:E.
  - intros H. apply Hm in E; [|done]. transitivity c1; [done|]. eapply Hk; [by eapply safe_rows|done].
  - intros [= <- <-]. by eapply Hm.
Qed.

Lemma preserves_index {A} (f : I -> option A) : preserves (q_index f).
Proof. intros c r c' _. unfold q_index. by destruct (f (index c)); intros [= <- <-]. Qed.

(** What follows a look at the index may rely on what it found there. *)
Lemma preserves_look {A B} (f : I -> option A) (P : A -> Prop) (k : A -> Q B) :
  (forall c a, rows_in_use c -> f (index c) = Some a -> P a) -> (forall a, P a -> preserves (k a)) ->
  preserves (qbind (q_index f) k).
Proof.
  intros Hf Hk c r c' Hc. unfold qbind, q_index. destruct (f (index c)) as [a|] eqn:E; [|by intros [= <- <-]].
  apply Hk; [by eapply Hf|done].
Qed.

Lemma preserves_delete k : preserves (q_delete k).
Proof.
  intros c r c' _. unfold q_delete. destruct (delete_key (index c) k) as [i|] eqn:E;
    intros [= <- <-]; [|done].
  apply delete_key_view in E. split; simpl; [|done].
  intros e. rewrite E, list_elem_of_In, filter_In, <-list_elem_of_In. tauto.
Qed.

Lemma preserves_each {A} (f : A -> Q unit) l : (forall x, preserves (f x)) -> preserves (q_each f l).
Proof.
  intros Hf. induction l as [|x l IH]; simpl; [apply preserves_ret|].
  apply preserves_bind; [apply Hf|done].
Qed.

(** Removing the blob of a hash that no row names. *)
Lemma remove_unreferenced h c r c' :
  in_use h -> rows_in_use c -> Forall (fun e => content_hash e <> h) (view (index c)) ->
  remove_physical_blob h c = (r, c') -> safe c c'.
Proof.
  unfold remove_physical_blob. intros Hh Hc Hno.
  destruct (sri_to_hex h) as [hex|]; [|by intros [= <- <-]].
  destruct (remove_fails h); [by intros [= <- <-]|].
  destruct (physical_blob_path h) as [p|] eqn:Hp; intros [= <- <-]; [|done].
  split; simpl; [done|]. intros e q He Hq. rewrite lookup_delete_ne; [done|]. intros <-.
  rewrite Forall_forall in Hno. apply (Hno e He). eapply in_use_paths; [by apply Hc|done|done|done].
Qed.

Lemma preserves_discard h :
  in_use h -> preserves (qbind (q_index (fun i => has_content_hash i h)) (fun referenced =>
    if referenced then qret tt else remove_physical_blob h)).
Proof.
  intros Hh c r c' Hc. unfold qbind, q_index.
  destruct (has_content_hash (index c) h) as [[]|] eqn:E; [by intros [= <- <-]| |by intros [= <- <-]].
  intros H. eapply remove_unreferenced; [done|done| |exact H]. by apply has_content_hash_view.
Qed.

Definition groups_in_use (gs : list PhysicalBlob) : Prop := Forall (fun g => in_use (blob_hash g)) gs.

Lemma groups_lru_in_use c keep es : uses es -> groups_in_use (groups_lru c keep es).
Proof.
  intros Hes. unfold groups_in_use, groups_lru. rewrite stable_sort_perm.
  assert (Forall (fun pe => in_use (content_hash pe.2)) (List.filter (fun pe => keep pe.2) (imap (fun i e => (i, e)) es))) as Hl.
  { apply Forall_forall. intros [i e] He. apply list_elem_of_In, filter_In in He as [He _].
    apply list_elem_of_In, elem_of_lookup_imap in He as (j & e' & [= -> ->] & He). apply Hes. by eapply list_elem_of_lookup_2. }
  revert Hl. generalize (List.filter (fun pe => keep pe.2) (imap (fun i e => (i, e)) es)) as l.
  assert (groups_in_use []) as H0 by constructor. revert H0. generalize (@nil PhysicalBlob) as gs.
  intros gs Hgs l Hl. revert gs Hgs. induction Hl as [|[i e] l He _ IH]; intros gs Hgs; [done|]. cbn [fold_left]. apply IH.
  clear -Hgs He. induction Hgs as [|g gs Hg Hgs IH]; cbn [add_to_group]; [by repeat constructor|].
  destruct (str_eqb _ _); by constructor.
Qed.

Lemma preserves_evict_until fits gs bytes objects : groups_in_use gs -> preserves (evict_until fits gs bytes objects).
Proof.
  intros Hgs. revert bytes objects; induction Hgs as [|g gs Hg Hgs IH]; intros bytes objects; cbn [evict_until];
    [apply preserves_ret|].
  apply preserves_bind; [apply preserves_each, preserves_delete|]. intros _.
  set (k := fun _ : unit => if fits _ _ then _ else _).
  assert (forall u, preserves (k u)) as Hk.
  { intros u. unfold k. destruct (fits _ _); [apply preserves_ret|apply IH]. }
  intros c r c' Hc H. unfold qbind at 1 in H.
  destruct (q_index (fun i => has_content_hash i (blob_hash g)) c) as [[b|e] c1] eqn:Eq.
  - pose proof (fun r c' => preserves_discard (blob_hash g) Hg c r c' Hc) as Hd. unfold qbind in Hd, H. rewrite Eq in Hd.
    destruct ((if b then qret tt else remove_physical_blob (blob_hash g)) c1) as [[u|e] c2] eqn:Er.
    + specialize (Hd _ _ eq_refl). transitivity c2; [done|]. eapply Hk; [by eapply safe_rows|done].
    + injection H as <- <-. by eapply Hd.
  - injection H as <- <-. by eapply preserves_index.
Qed.

Lemma preserves_owner limits owner sk n pending entries :
  uses entries -> preserves (ensure_owner_committed limits owner sk n pending entries).
Proof.
  intros Hes c r c' Hc. unfold ensure_owner_committed. revert Hc.
  match goal with |- _ -> qbind ?m ?k c = _ -> _ => enough (preserves (qbind m k)) as H by apply H end.
  apply preserves_bind.
  - match goal with |- preserves (if ?b then _ else _) =>
      destruct b; [apply preserves_ret|by apply preserves_evict_until, groups_lru_in_use] end.
  - intros [bytes objects]. match goal with |- preserves (if ?b then _ else _) =>
      destruct b; [apply preserves_ret|apply preserves_fail] end.
Qed.

Lemma preserves_global limits fuel sk n pending :
  preserves (ensure_global_committed_capacity limits fuel sk n pending).
Proof.
  apply (preserves_look _ uses); [by intros c es Hc ->%load_entries_view|]. intros entries Hes c r c' Hc. cbv beta zeta.
  match goal with |- (if ?b then _ else _) = _ -> _ => destruct b; [by intros [= <- <-]|] end. revert Hc.
  match goal with |- _ -> qbind ?m ?k c = _ -> _ => enough (preserves (qbind m k)) as Hp by apply Hp end.
  apply preserves_bind; [by apply preserves_evict_until, groups_lru_in_use|].
  intros [bytes objects]. match goal with |- preserves (if ?b then _ else _) =>
    destruct b; [apply preserves_ret|apply preserves_fail] end.
Qed.

Lemma preserves_prepare_commit limits fuel root owner sk n :
  preserves (prepare_commit limits fuel root owner sk n).
Proof.
  intros c r c' Hc. unfold prepare_commit. revert Hc.
  match goal with |- _ -> (if ?b then ?x else ?y) c = _ -> _ =>
    enough (preserves (if b then x else y)) as Hp by apply Hp end.
  case_match; [apply preserves_fail|]. case_match; [apply preserves_fail|].
  apply (preserves_look _ uses); [by intros c1 es Hc1 ->%load_entries_view|]. intros entries Hes.
  apply preserves_bind; [by apply preserves_owner|]. intros _.
  apply preserves_bind; [apply preserves_global|]. intros _.
  intros c1 r1 c2 _ [= <- <-]. by split.
Qed.

(** ** Groups *)

(** Every row of [done] is in the group of its hash, and no hash has two. *)
Definition grouped (done : list CacheEntry) (gs : list PhysicalBlob) : Prop :=
  NoDup (map blob_hash gs) /\
  forall e, e ∈ done -> exists g, g ∈ gs /\ blob_hash g = content_hash e /\ key e ∈ keys g.

Lemma add_to_group_hashes c gs i e :
  map blob_hash (add_to_group c gs (i, e))
  = map blob_hash gs ++ (if existsb (fun g => str_eqb (blob_hash g) (content_hash e)) gs then []
                         else [content_hash e]).
Proof.
  induction gs as [|g gs IH]; [done|]. cbn [add_to_group existsb map app] in *.
  destruct (str_eqb (blob_hash g) (content_hash e)); simpl; [by rewrite app_nil_r|].
  f_equal. exact IH.
Qed.

Lemma add_to_group_elem c gs i e :
  (exists g, g ∈ add_to_group c gs (i, e) /\ blob_hash g = content_hash e /\ key e ∈ keys g) /\
  (forall g, g ∈ gs -> exists g', g' ∈ add_to_group c gs (i, e) /\ blob_hash g' = blob_hash g /\
     forall k, k ∈ keys g -> k ∈ keys g').
Proof.
  induction gs as [|g gs [(g1 & Hg1 & Hh & Hk) IH2]].
  - split; [|by intros g Hg%elem_of_nil]. simpl. eexists. split; [by apply list_elem_of_singleton|].
    simpl. split; [done|]. by apply list_elem_of_singleton.
  - cbn [add_to_group]. destruct (str_eqb (blob_hash g) (content_hash e)) eqn:E.
    + apply str_eqb_eq in E. split.
      * eexists. split; [by left|]. simpl. split; [done|]. apply elem_of_app. right.
        by apply list_elem_of_singleton.
      * intros g' [->|Hg']%elem_of_cons.
        -- eexists. split; [by left|]. simpl. split; [done|]. intros k Hin. apply elem_of_app. by left.
        -- exists g'. split; [by right|done].
    + split.
      * exists g1. split; [by right|done].
      * intros g' [->|Hg']%elem_of_cons; [exists g; split; [by left|done]|].
        destruct (IH2 g' Hg') as (g2 & ? & ? & ?). exists g2. split; [by right|done].
Qed.

Lemma add_to_group_grouped c done_ gs i e :
  grouped done_ gs -> grouped (done_ ++ [e]) (add_to_group c gs (i, e)).
Proof.
  intros [Hnd Hin]. destruct (add_to_group_elem c gs i e) as [Hnew Hold]. split.
  - rewrite add_to_group_hashes. apply NoDup_app. split; [done|].
    destruct (existsb _ gs) eqn:E; [split; [by intros x _ ?%elem_of_nil|constructor]|].
    split; [|apply NoDup_singleton]. intros h Hh ->%list_elem_of_singleton.
    apply list_elem_of_fmap in Hh as (g & Hg & Hgin). apply not_true_iff_false in E. apply E.
    apply existsb_exists. exists g. split; [by apply list_elem_of_In|]. by apply str_eqb_eq.
  - intros e' [He| ->%list_elem_of_singleton]%elem_of_app; [|done].
    destruct (Hin e' He) as (g & Hg & Hh & Hk). destruct (Hold g Hg) as (g' & ? & ? & Hkeys).
    exists g'. split; [done|]. split; [congruence|auto].
Qed.

(** A row is in the keys of whichever group has its hash. *)
Definition covers (gs : list PhysicalBlob) (es : list CacheEntry) : Prop :=
  forall e g, e ∈ es -> g ∈ gs -> blob_hash g = content_hash e -> key e ∈ keys g.

Lemma groups_cover c entries : covers (physical_groups_lru c entries) entries.
Proof.
  assert (forall l gs done_, grouped done_ gs ->
    grouped (done_ ++ map snd l) (fold_left (add_to_group c) l gs)) as Hfold.
  { induction l as [|[i e] l IH]; intros gs done_ Hg; simpl; [by rewrite app_nil_r|].
    rewrite (cons_middle e done_), app_assoc. by apply IH, add_to_group_grouped. }
  intros e g He Hg Hh. unfold physical_groups_lru, groups_lru in Hg.
  rewrite stable_sort_perm in Hg.
  set (l := List.filter _ _) in Hg.
  destruct (Hfold l [] []) as [Hnd Hin]; [by split; [constructor|intros ? ?%elem_of_nil]|].
  assert (e ∈ [] ++ map snd l) as Hel.
  { simpl. unfold l. apply list_elem_of_lookup_1 in He as [i Hi].
    apply list_elem_of_fmap. exists (i, e). split; [done|].
    apply list_elem_of_In, filter_In. split; [|done]. apply list_elem_of_In.
    apply (list_elem_of_lookup_2 _ i). rewrite list_lookup_imap, Hi. done. }
  destruct (Hin e Hel) as (g' & Hg' & Hh' & Hk).
  assert (g = g') as ->; [|done].
  apply list_elem_of_lookup_1 in Hg as [a Ha]. apply list_elem_of_lookup_1 in Hg' as [b Hb].
  assert (a = b) as ->; [|congruence].
  eapply NoDup_lookup; [exact Hnd| |]; rewrite list_lookup_fmap; [by rewrite Ha|].
  rewrite Hb. simpl. by rewrite Hh, Hh'.
Qed.

Lemma covers_mono gs es es' : (forall e, e ∈ es' -> e ∈ es) -> covers gs es -> covers gs es'.
Proof. intros H Hc e g He. apply Hc. auto. Qed.

(** Deleting the rows of a group that covers its hash leaves none of it. *)
Lemma delete_keys_gone ks c u c' :
  q_each q_delete ks c = (Ok u, c') ->
  forall e, e ∈ view (index c') -> e ∈ view (index c) /\ key e ∉ ks.
Proof.
  revert c; induction ks as [|k ks IH]; intros c; simpl.
  - intros [= <- <-] e He. split; [done|by intros ?%elem_of_nil].
  - unfold qbind, q_delete at 1. destruct (delete_key (index c) k) as [i|] eqn:E; [|done].
    intros H e He. destruct (IH _ H e He) as [Hin Hk]. simpl in Hin.
    rewrite (delete_key_view _ _ _ E), list_elem_of_In, filter_In, <-list_elem_of_In in Hin.
    destruct Hin as [Hin Hne]. split; [done|]. rewrite not_elem_of_cons. split; [|done].
    intros Heq. by rewrite Heq, str_eqb_refl in Hne.
Qed.

Lemma preserves_fits limits a b : preserves (global_capacity_fits limits a b).
Proof. intros c r c' _. unfold global_capacity_fits. repeat case_match; by intros [= <- <-]. Qed.

Lemma evict_for_reservation_safe limits reserved gs committed c r c' :
  rows_in_use c -> groups_in_use gs -> covers gs (view (index c)) ->
  evict_for_reservation limits reserved gs committed c = (r, c') -> safe c c'.
Proof.
  intros Hc Hgs. revert committed c Hc; induction Hgs as [|g gs Hg Hgs IH]; intros committed c Hc Hcov; cbn [evict_for_reservation].
  - destruct (_ <? _); by intros [= <- <-].
  - unfold qbind at 1. destruct (delete_keys g c) as [[u|e] c1] eqn:Ed.
    2: { intros [= <- <-]. by eapply (preserves_each q_delete _ preserves_delete). }
    assert (safe c c1) as Hs1 by by eapply (preserves_each q_delete _ preserves_delete).
    unfold qbind at 1. destruct (remove_physical_blob (blob_hash g) c1) as [[u2|e] c2] eqn:Er;
      (assert (safe c1 c2) as Hs2 by
        (eapply remove_unreferenced; [done|by eapply safe_rows| |exact Er]; apply Forall_forall; intros e' He' Hh;
         destruct (delete_keys_gone _ _ _ _ Ed e' He') as [Hin Hk];
         apply Hk, (Hcov e' g); [done|by left|done])).
    2: { intros [= <- <-]. by transitivity c1. }
    unfold qbind. destruct (global_capacity_fits _ _ _ c2) as [[fits|e] c3] eqn:Ef;
      (apply preserves_fits in Ef; [|eapply safe_rows; [exact Hs2|]; by eapply safe_rows]).
    2: { intros [= <- <-]. transitivity c1; [done|]. by transitivity c2. }
    assert (safe c c3) as Hs by (transitivity c1; [done|]; by transitivity c2).
    destruct fits; [by intros [= <- <-]|]. intros H. transitivity c3; [done|].
    eapply IH; [by eapply safe_rows| |exact H]. eapply covers_mono; [apply Hs|].
    intros e g' He Hg'. apply Hcov; [done|by right].
Qed.

Lemma reconcile_rows_spec entries ref c r c' :
  rows_in_use c -> reconcile_rows entries ref c = (r, c') ->
  safe c c' /\ blobs c' = blobs c /\
  forall ref', r = Ok ref' -> ref ⊆ ref' /\
    forall e p, e ∈ entries -> e ∈ view (index c') -> physical_blob_path (content_hash e) = Some p ->
                p ∈ ref'.
Proof.
  revert ref c; induction entries as [|e es IH]; intros ref c Hc; cbn [reconcile_rows].
  - intros [= <- <-]. split_and!; [done|done|]. intros ref' [= <-]. split; [done|].
    by intros e p ?%elem_of_nil.
  - assert (qbind (q_delete (key e)) (fun _ => reconcile_rows es ref) c = (r, c') ->
            safe c c' /\ blobs c' = blobs c /\
            forall ref', r = Ok ref' -> ref ⊆ ref' /\
              forall e' p, e' ∈ e :: es -> e' ∈ view (index c') ->
                physical_blob_path (content_hash e') = Some p -> p ∈ ref') as Hdel.
    { unfold qbind, q_delete. destruct (delete_key (index c) (key e)) as [i|] eqn:Ed.
      - assert (safe c (with_index c i)) as Hs1.
        { apply (preserves_delete (key e) c (Ok tt)); [done|]. unfold q_delete. by rewrite Ed. }
        intros H. apply IH in H as (Hs & Hb & Hr); [|by eapply safe_rows].
        split_and!; [by transitivity (with_index c i)|done|]. intros ref' Href.
        destruct (Hr ref' Href) as [Hsub Hin]. split; [done|].
        intros e' p [->|He']%elem_of_cons Hv; [|by apply Hin]. exfalso.
        destruct Hs as [Hv1 _]. apply Hv1 in Hv. simpl in Hv.
        rewrite (delete_key_view _ _ _ Ed), list_elem_of_In, filter_In, str_eqb_refl in Hv.
        by destruct Hv.
      - intros [= <- <-]. done. }
    destruct (physical_blob_path (content_hash e)) as [p|] eqn:Hp; [|exact Hdel].
    destruct (blobs c !! p); [|exact Hdel]. intros H. apply IH in H as (Hs & Hb & Hr); [|done].
    split_and!; [done|done|]. intros ref' Href. destruct (Hr ref' Href) as [Hsub Hin].
    split; [set_solver|]. intros e' q [->|He']%elem_of_cons Hv Hq; [|by eapply Hin].
    rewrite Hp in Hq. injection Hq as <-. set_solver.
Qed.

Lemma unlink_safe paths ref c r c' :
  (forall e p, e ∈ view (index c) -> physical_blob_path (content_hash e) = Some p -> p ∈ ref) ->
  unlink_unreferenced paths ref c = (r, c') -> safe c c'.
Proof.
  revert c; induction paths as [|p ps IH]; intros c Href; cbn [unlink_unreferenced].
  - by intros [= <- <-].
  - case_bool_decide as Hin; [by apply IH|]. destruct (unlink_fails p); [by intros [= <- <-]|].
    intros H. transitivity (with_blobs c (delete p (blobs c))); [|by eapply IH].
    split; simpl; [done|]. intros e q He Hq. rewrite lookup_delete_ne; [done|]. intros <-.
    by apply Hin, (Href e).
Qed.

Lemma preserves_reconcile fuel : preserves (reconcile_physical_blobs fuel).
Proof.
  intros c r c' Hc. unfold reconcile_physical_blobs. destruct (negb _); [by intros [= <- <-]|].
  unfold qbind, q_index. destruct (load_entries_lru fuel (index c)) as [es|] eqn:El;
    [|by intros [= <- <-]]. apply load_entries_view in El.
  destruct (reconcile_rows es ∅ c) as [[ref|e] c1] eqn:Er; apply reconcile_rows_spec in Er as (Hs & _ & Hr); try done;
    [|by intros [= <- <-]].
  destruct (Hr ref eq_refl) as [_ Href]. intros H. transitivity c1; [done|].
  eapply unlink_safe; [|exact H]. intros e p He. apply Href; [|done]. subst es. by apply Hs.
Qed.

Lemma current_groups_spec fuel c r c' :
  current_groups fuel c = (r, c') ->
  c' = c /\ forall gs, r = Ok gs -> covers gs (view (index c)) /\ (rows_in_use c -> groups_in_use gs).
Proof.
  unfold current_groups, qbind, q_index.
  destruct (load_entries_lru fuel (index c)) as [es|] eqn:El; intros [= <- <-]; [|done].
  split; [done|]. intros gs [= <-]. apply load_entries_view in El as ->. split; [apply groups_cover|apply groups_lru_in_use].
Qed.

Lemma preserves_global_capacity limits fuel reserved :
  preserves (ensure_global_capacity limits fuel reserved).
Proof.
  unfold ensure_global_capacity. destruct (_ <? _); [apply preserves_fail|].
  assert (preserves (current_groups fuel)) as Hcur.
  { intros c r c' _ H. by apply current_groups_spec in H as [-> _]. }
  apply preserves_bind; [done|]. intros gs. apply preserves_bind; [apply preserves_fits|].
  intros [|]; [apply preserves_ret|]. apply preserves_bind; [apply preserves_reconcile|]. intros _.
  intros c r c' Hc. unfold qbind at 1. destruct (current_groups fuel c) as [[gs2|e] c1] eqn:Ec;
    apply current_groups_spec in Ec as [-> Hcov]; [|by intros [= <- <-]].
  unfold qbind. destruct (global_capacity_fits _ _ _ c) as [[[]|e] c2] eqn:Ef;
    (apply preserves_fits in Ef as Hs; [|done]); [by intros [= <- <-]| |by intros [= <- <-]].
  intros H. transitivity c2; [done|]. destruct (Hcov gs2 eq_refl) as [Hcv Hgs].
  eapply evict_for_reservation_safe; [by eapply safe_rows|by apply Hgs| |exact H].
  eapply covers_mono; [apply Hs|]. done.
Qed.

(** The scans touch the partial directory only. *)
Definition store_kept {A} (m : Q A) : Prop :=
  forall c r c', m c = (r, c') -> index c' = index c /\ blobs c' = blobs c.

Lemma store_kept_preserves {A} (m : Q A) : store_kept m -> preserves m.
Proof.
  intros Hm c r c' _ H. apply Hm in H as [Hi Hb]. unfold safe. by rewrite Hi, Hb.
Qed.

Lemma store_kept_ret {A} (a : A) : store_kept (qret a).
Proof. by intros c r c' [= <- <-]. Qed.

Lemma store_kept_bind {A B} (m : Q A) (k : A -> Q B) :
  store_kept m -> (forall a, store_kept (k a)) -> store_kept (qbind m k).
Proof.
  intros Hm Hk c r c'. unfold qbind. destruct (m c) as [[a|e] c1] eqn:E; apply Hm in E as [Hi Hb].
  - intros H. apply Hk in H as [-> ->]. done.
  - by intros [= <- <-].
Qed.

Lemma store_kept_unlink name : store_kept (unlink_partial name).
Proof. intros c r c'. unfold unlink_partial. destruct (unlink_fails name); by intros [= <- <-]. Qed.

Lemma store_kept_discard name : store_kept (discard_sidecar_group name).
Proof.
  unfold discard_sidecar_group. generalize [§"reservation"; §"partial"; §"meta"] as exts.
  induction exts as [|ext exts IH]; [apply store_kept_ret|].
  cbn [q_each]. apply store_kept_bind; [|done]. intros c r c'.
  destruct (partials c) as [files|]; [|by intros [= <- <-]].
  destruct (files !! _); [|by intros [= <- <-]]. destruct (unlink_fails _); by intros [= <- <-].
Qed.

Lemma store_kept_records limits now listing records :
  store_kept (scan_records limits now listing records).
Proof.
  revert records; induction listing as [|[name f] rest IH]; intros records; cbn [scan_records];
    [apply store_kept_ret|].
  destruct (is_atomic_temp name).
  { apply store_kept_bind; [|done]. destruct (_ <? _); [apply store_kept_unlink|apply store_kept_ret]. }
  destruct (negb _); [done|]. case_match.
  - destruct (_ <? _); [|done]. apply store_kept_bind; [apply store_kept_discard|done].
  - apply store_kept_bind; [apply store_kept_discard|done].
Qed.

Lemma store_kept_orphans limits now listing : store_kept (scan_orphans limits now listing).
Proof.
  induction listing as [|[name f] rest IH]; cbn [scan_orphans]; [apply store_kept_ret|].
  destruct (negb _); [done|]. intros c r c'. case_bool_decide; [apply IH|].
  destruct (_ <? _); [|apply IH].
  apply (store_kept_bind (discard_sidecar_group _)); [apply store_kept_discard|done].
Qed.

Lemma store_kept_scan limits now : store_kept (scan_reservations limits now).
Proof.
  intros c r c'. unfold scan_reservations. destruct (partials c) as [files|]; [|by intros [= <- <-]].
  apply (store_kept_bind (scan_records _ _ _ _)); [apply store_kept_records|].
  intros records c1 r1 c2. destruct (partials c1); [|by intros [= <- <-]].
  apply (store_kept_bind (scan_orphans _ _ _)); [apply store_kept_orphans|intros; apply store_kept_ret].
Qed.

Lemma preserves_reserve_at limits fuel owner sk name target now :
  preserves (reserve_at limits fuel owner sk name target now).
Proof.
  unfold reserve_at. destruct (_ <? _); [apply preserves_fail|].
  apply preserves_bind; [apply store_kept_preserves, store_kept_scan|]. intros rs.
  apply preserves_bind; [unfold q_result; case_match; [apply preserves_ret|apply preserves_fail]|].
  intros reserved. apply preserves_bind; [apply preserves_global_capacity|]. intros _.
  intros c r c' _. unfold write_reservation. destruct (write_fails name); intros [= <- <-]; by split.
Qed.

Lemma preserves_maintain_at limits fuel now : preserves (maintain_at limits fuel now).
Proof.
  apply preserves_bind; [apply store_kept_preserves, store_kept_scan|]. intros _.
  apply preserves_reconcile.
Qed.

End safety.

(** No two rows name one blob by different integrity strings. *)
Definition one_name {I : Type} {CI : CacheIndex I} {LI : LawfulIndex I} {CX : CacheExternals} (c : Cache I) : Prop :=
  forall e1 e2 p, e1 ∈ view (index c) -> e2 ∈ view (index c) ->
    physical_blob_path (content_hash e1) = Some p -> physical_blob_path (content_hash e2) = Some p ->
    content_hash e1 = content_hash e2.

(** C26: in a cache no two rows of which name one blob by different integrity strings,
    whatever the limits, the state and the
    failures, and whether it succeeds or is refused half way, none of
    admitting a commit, reserving space or maintenance takes the blob from a
    row it leaves in the index: rows only disappear, and the blob of every row
    that is left is exactly as it was before. *)
Theorem referenced_blobs_survive {I : Type} {CI : CacheIndex I} {LI : LawfulIndex I} {CX : CacheExternals}
    limits fuel root owner sk name n now (c : Cache I) :
  one_name c ->
  safe c (prepare_commit limits fuel root owner sk n c).2 /\
  safe c (reserve_at limits fuel owner sk name n now c).2 /\
  safe c (maintain_at limits fuel now c).2.
Proof.
  intros Hone. set (in_use := fun h => exists e, e ∈ view (index c) /\ content_hash e = h).
  assert (forall h1 h2 p, in_use h1 -> in_use h2 -> physical_blob_path h1 = Some p -> physical_blob_path h2 = Some p -> h1 = h2)
    as Hpaths by (intros ? ? p (e1 & H1 & <-) (e2 & H2 & <-); by apply Hone).
  assert (rows_in_use in_use c) as Hc by (intros e He; by exists e).
  split; [|split].
  - destruct (prepare_commit _ _ _ _ _ _ c) as [r c'] eqn:E. by eapply (preserves_prepare_commit in_use).
  - destruct (reserve_at _ _ _ _ _ _ _ c) as [r c'] eqn:E. by eapply (preserves_reserve_at in_use).
  - destruct (maintain_at _ _ _ c) as [r c'] eqn:E. by eapply (preserves_maintain_at in_use).
Qed.

(** * Reservations *)

Definition sumz (l : list Z) : Z := fold_right Z.add 0 l.

Lemma sum_sat_spec l : Forall (fun z => 0 <= z) l -> sum_sat l = Z.min (sumz l) u64_max.
Proof.
  intros H. unfold sum_sat.
  enough (forall t, 0 <= t <= u64_max -> fold_left saturating_add l t = Z.min (t + sumz l) u64_max) as Hf.
  { rewrite Hf by (unfold u64_max; lia). done. }
  induction H as [|z l Hz Hl IH]; intros t Ht; cbn [fold_left sumz fold_right]; [lia|].
  rewrite IH by (unfold saturating_add; lia).
  assert (0 <= sumz l) by (clear -Hl; induction Hl; simpl; lia).
  unfold saturating_add. fold (sumz l). lia.
Qed.

Section reservations.
Context {I : Type} {CI : CacheIndex I} {CX : CacheExternals}.

(** The byte count of a decoded record is unsigned. *)
Hypothesis decoded_unsigned : forall b r, decode_record b = Some r -> 0 <= reserved_bytes r.

Lemma scan_records_unsigned limits now listing records (c : Cache I) r c' :
  Forall (fun pr => 0 <= reserved_bytes pr.2) records ->
  scan_records limits now listing records c = (Ok r, c') ->
  Forall (fun pr => 0 <= reserved_bytes pr.2) r.
Proof.
  revert records c; induction listing as [|[name f] rest IH]; intros records c Hr; cbn [scan_records].
  - by intros [= <- <-].
  - assert (forall m : Q unit, qbind m (fun _ => scan_records limits now rest records) c = (Ok r, c') ->
              Forall (fun pr => 0 <= reserved_bytes pr.2) r) as Hskip.
    { intros m. unfold qbind. destruct (m c) as [[u|e] c1]; [by apply IH|done]. }
    destruct (is_atomic_temp name); [by apply Hskip|].
    destruct (negb _); [by apply IH|]. case_match eqn:Hrec; [|by apply Hskip].
    destruct (_ <? _); [by apply Hskip|]. apply IH. apply Forall_app. split; [done|].
    repeat constructor. simpl. destruct (_ <=? _); [|done].
    destruct (decode_record (pf_bytes f)) as [r1|] eqn:Hd; [|done].
    destruct (valid_reservation_record _ _ _); [|done]. injection Hrec as <-. by eapply decoded_unsigned.
Qed.

Lemma scan_unsigned limits now (c : Cache I) r c' :
  scan_reservations limits now c = (Ok r, c') -> Forall (fun pr => 0 <= reserved_bytes pr.2) r.
Proof.
  unfold scan_reservations. destruct (partials c) as [files|]; [|by intros [= <- <-]].
  unfold qbind. destruct (scan_records _ _ _ _ c) as [[rs|e] c1] eqn:E; [|done].
  apply scan_records_unsigned in E; [|done]. destruct (partials c1); [|done].
  destruct (scan_orphans _ _ _ c1) as [[u|e] c2]; [|done]. by intros [= <- <-].
Qed.

Definition room (limits : CacheLimits) (reserved : Z) (c : Cache I) : Prop :=
  exists available, free_space (blobs c) = Some available /\
    reserved <= saturating_sub available (min_free_space_bytes limits).

Lemma fits_room limits a reserved (c : Cache I) c' :
  global_capacity_fits limits a reserved c = (Ok true, c') -> room limits reserved c'.
Proof.
  unfold global_capacity_fits. destruct (_ <? _); [done|].
  destruct (free_space (blobs c)) as [av|] eqn:Hf; [|done]. intros [= Hle <-].
  exists av. split; [done|]. by apply Z.leb_le.
Qed.

Lemma evict_room limits reserved gs a (c : Cache I) u c' :
  evict_for_reservation limits reserved gs a c = (Ok u, c') -> room limits reserved c'.
Proof.
  revert a c; induction gs as [|g gs IH]; intros a c; cbn [evict_for_reservation].
  - by destruct (_ <? _).
  - unfold qbind at 1. destruct (delete_keys g c) as [[u1|e] c1]; [|done].
    unfold qbind at 1. destruct (remove_physical_blob _ c1) as [[u2|e] c2]; [|done].
    unfold qbind. destruct (global_capacity_fits _ _ _ c2) as [[[]|e] c3] eqn:Ef; [| |done].
    + intros [= <- <-]. by eapply fits_room.
    + apply IH.
Qed.

Lemma capacity_room limits fuel reserved (c : Cache I) u c' :
  ensure_global_capacity limits fuel reserved c = (Ok u, c') ->
  reserved <= max_global_bytes limits /\ room limits reserved c'.
Proof.
  unfold ensure_global_capacity.
  destruct (Z.ltb_spec (max_global_bytes limits) reserved) as [|Hle]; [done|].
  intros H. split; [done|]. revert H.
  unfold qbind at 1. destruct (current_groups fuel c) as [[gs|e] c1]; [|done].
  unfold qbind at 1. destruct (global_capacity_fits _ _ _ c1) as [[[]|e] c2] eqn:Ef; [| |done].
  { intros [= <- <-]. by eapply fits_room. }
  unfold qbind at 1. destruct (reconcile_physical_blobs fuel c2) as [[u1|e] c3]; [|done].
  unfold qbind at 1. destruct (current_groups fuel c3) as [[gs2|e] c4]; [|done].
  unfold qbind. destruct (global_capacity_fits _ _ _ c4) as [[[]|e] c5] eqn:Ef2; [| |done].
  { intros [= <- <-]. by eapply fits_room. }
  apply evict_room.
Qed.

(** C25: a reservation that is granted fits: the object is
    within the per-object limit; the owner's other live reservations and it are
    within the owner's byte and object limits; all other live reservations and
    it are within the global byte and object limits; the filesystem keeps its
    headroom in the state left behind; and the record is on disk under its
    name.  Saturating sums hide nothing, as the limits are below [u64::MAX]. *)
Theorem reserve_within_limits limits fuel owner sk name target now (c c' : Cache I) :
  0 <= target ->
  max_owner_partial_bytes limits < u64_max -> max_global_bytes limits < u64_max ->
  max_owner_partial_objects limits < u64_max -> max_global_partial_objects limits < u64_max ->
  reserve_at limits fuel owner sk name target now c = (Ok tt, c') ->
  exists reservations c1,
    scan_reservations limits now c = (Ok reservations, c1) /\
    let others := List.filter (fun pr => negb (str_eqb pr.1 name)) reservations in
    let mine := List.filter (fun pr => bool_decide (res_owner pr.2 = owner)) others in
    let is_new := if existsb (fun pr => str_eqb pr.1 name) reservations then 0 else 1 in
    target <= max_object_bytes limits /\
    sumz (map (fun pr => reserved_bytes pr.2) mine) + target <= max_owner_partial_bytes limits /\
    Z.of_nat (length mine) + is_new <= max_owner_partial_objects limits /\
    sumz (map (fun pr => reserved_bytes pr.2) others) + target <= max_global_bytes limits /\
    Z.of_nat (length others) + is_new <= max_global_partial_objects limits /\
    room limits (sumz (map (fun pr => reserved_bytes pr.2) others) + target) c' /\
    (partials c' ≫= (fun files => files !! name))
      = Some {| pf_bytes := encode_record {| res_owner := owner; res_scoped_key := sk;
                                             reserved_bytes := target; updated_at_secs := now |};
                pf_modified_secs := now |}.
Proof.
  intros Ht Hl1 Hl2 Hl3 Hl4. unfold reserve_at.
  destruct (Z.ltb_spec (max_object_bytes limits) target) as [|Hobj]; [done|].
  unfold qbind at 1. destruct (scan_reservations limits now c) as [[rs|e] c1] eqn:Hscan; [|done].
  apply scan_unsigned in Hscan as Hun. intros H. exists rs, c1. split; [done|].
  set (others := List.filter (fun pr => negb (str_eqb pr.1 name)) rs).
  set (mine := List.filter (fun pr => bool_decide (res_owner pr.2 = owner)) others).
  set (is_new := if existsb (fun pr => str_eqb pr.1 name) rs then 0 else 1).
  assert (forall q l, Forall (fun pr : str * ReservationRecord => 0 <= reserved_bytes pr.2) l ->
            Forall (fun pr => 0 <= reserved_bytes pr.2) (List.filter q l)) as Hsub.
  { intros q l Hl. apply Forall_forall. intros x Hx. apply list_elem_of_In, filter_In in Hx as [Hx _].
    rewrite Forall_forall in Hl. by apply Hl, list_elem_of_In. }
  assert (Forall (fun z => 0 <= z) (map (fun pr => reserved_bytes pr.2) others)) as Ho
    by (apply Forall_map, Hsub; done).
  assert (Forall (fun z => 0 <= z) (map (fun pr => reserved_bytes pr.2) mine)) as Hm
    by (apply Forall_map, Hsub, Hsub; done).
  unfold qbind at 1, q_result, admit_reservation in H. fold others in H. fold mine in H.
  fold is_new in H. rewrite !sum_sat_spec in H by done. unfold saturating_add in H.
  destruct (Z.ltb_spec (max_owner_partial_objects limits)
              (Z.min (Z.of_nat (length mine) + is_new) u64_max)) as [|H1]; [done|].
  destruct (Z.ltb_spec (max_global_partial_objects limits)
              (Z.min (Z.of_nat (length others) + is_new) u64_max)) as [|H2]; [done|].
  destruct (Z.ltb_spec (max_owner_partial_bytes limits)
              (Z.min (Z.min (sumz (map (fun pr => reserved_bytes pr.2) mine)) u64_max + target) u64_max))
    as [|H3]; [done|].
  unfold qret, qbind in H.
  destruct (ensure_global_capacity limits fuel _ c1) as [[u|e] c2] eqn:Hcap; [|done].
  apply capacity_room in Hcap as [H4 Hroom].
  unfold write_reservation in H. destruct (write_fails name); [done|]. injection H as <-.
  assert (Z.min (Z.min (sumz (map (fun pr => reserved_bytes pr.2) others)) u64_max + target) u64_max
          = sumz (map (fun pr => reserved_bytes pr.2) others) + target) as Heq by lia.
  rewrite Heq in *.
  split_and!; try lia; [exact Hroom|]. simpl. by rewrite lookup_insert_eq.
Qed.
End reservations.

(** An owner whose id is a string a [usize] can measure. *)
Definition owner_sized (o : CacheOwner) : Prop :=
  match o with Host => True | Plugin id => Z.of_nat (length id) <= u64_max end.

(** An owner and a key are recovered exactly from the
    scoped key that encodes them, whatever colons, digits or prefixes either
    contains; so no plugin can spell a key that is read as the host's or as
    another plugin's. *)
Theorem scoped_key_roundtrip o k :
  owner_sized o ->
  parse_scoped_key (scoped_key o k) = Some (o, k) /\
  forall o' k', owner_sized o' -> scoped_key o' k' = scoped_key o k -> o' = o /\ k' = k.
Proof.
  intros Ho. split; [by apply parse_scoped_key_spec|]. intros o' k' Ho' Heq.
  apply (f_equal parse_scoped_key) in Heq. rewrite !parse_scoped_key_spec in Heq by done.
  by injection Heq as -> ->.
Qed.

(** * Witnesses *)

Module CacheExample.
(** An index in memory: the rows, least recently used first. *)
#[local] Instance list_index : CacheIndex (list CacheEntry) := {
  entries_lru l := Some l;
  entries_lru_page l offset limit := Some (take limit (drop offset l));
  supports_lru_paging _ := true;
  delete_key l k := Some (List.filter (fun e => negb (str_eqb (key e) k)) l);
  has_content_hash l h := Some (existsb (fun e => str_eqb (content_hash e) h) l);
  has_complete_lru_view _ := true
}.

#[local] Instance list_index_lawful : LawfulIndex (list CacheEntry).
Proof.
  refine {| view := fun l => l |}.
  - by intros i l [= <-].
  - by intros i o n l [= <-].
  - by intros i k i' [= <-].
  - intros i h [= H]. apply Forall_forall. intros e He <-. apply not_true_iff_false in H. apply H.
    apply existsb_exists. exists e. split; [by apply list_elem_of_In|apply str_eqb_refl].
Defined.

Definition a_record : ReservationRecord :=
  {| res_owner := Plugin §"p"; res_scoped_key := scoped_key (Plugin §"p") §"k";
     reserved_bytes := 5; updated_at_secs := 100 |}.

(** Hashes are their own hex form, and a record file holds the one record. *)
#[local] Instance externals : CacheExternals := {
  sri_to_hex h := Some (§"sha256", h);
  remove_fails _ := false;
  unlink_fails _ := false;
  free_space _ := Some 1000;
  decode_record b := if str_eqb b §"record" then Some a_record else None;
  encode_record _ := §"record";
  write_fails _ := false
}.

Definition limits : CacheLimits :=
  {| max_object_bytes := 50; max_owner_partial_bytes := 60; max_owner_partial_objects := 2;
     max_owner_committed_bytes := 60; max_owner_committed_objects := 3; max_global_bytes := 120;
     max_global_partial_objects := 4; max_global_committed_objects := 5;
     min_free_space_bytes := 10; partial_ttl := 3600 |}.

(** Two rows of one owner share a blob; a third has its own. *)
Definition rows : list CacheEntry :=
  [{| key := scoped_key (Plugin §"p") §"old"; content_hash := §"abcd01"; size_bytes := None |};
   {| key := scoped_key Host §"kept"; content_hash := §"abcd01"; size_bytes := None |};
   {| key := scoped_key (Plugin §"p") §"new"; content_hash := §"abcd02"; size_bytes := None |}].

Definition blob_path (h : str) : str := default [] (physical_blob_path h).

Definition cache : Cache (list CacheEntry) :=
  {| index := rows;
     blobs := <[blob_path §"abcd01" := 40]> {[ blob_path §"abcd02" := 20 ]};
     partials := Some {[ §"one.reservation" := {| pf_bytes := §"record"; pf_modified_secs := 100 |} ]};
     next_commit_id := 0; by_root := ∅ |}.

Lemma cache_one_name : one_name cache.
Proof.
  intros e1 e2 p H1 H2. unfold view in H1, H2. cbn in H1, H2.
  repeat (apply elem_of_cons in H1 as [-> |H1]); repeat (apply elem_of_cons in H2 as [-> |H2]);
    try (by apply elem_of_nil in H1); try (by apply elem_of_nil in H2); vm_compute; congruence.
Qed.

(** Admitting forty bytes for the plugin evicts its older row; the blob stays,
    as the host still names it. *)
Example eviction :
  let c' := (prepare_commit limits 3 §"root" (Plugin §"p") (scoped_key (Plugin §"p") §"k") 40 cache).2 in
  map content_hash (index c') = [§"abcd01"; §"abcd02"] /\
  blobs c' !! blob_path §"abcd01" = Some 40 /\ blobs c' !! blob_path §"abcd02" = Some 20.
Proof. vm_compute. auto. Qed.

Lemma referenced_blobs_survive_witness :
  safe cache (prepare_commit limits 3 §"root" (Plugin §"p") (scoped_key (Plugin §"p") §"k") 40 cache).2.
Proof.
  exact (proj1 (referenced_blobs_survive limits 3 §"root" (Plugin §"p")
                  (scoped_key (Plugin §"p") §"k") §"two.reservation" 40 100 cache cache_one_name)).
Defined.

Lemma decoded b r : decode_record b = Some r -> 0 <= reserved_bytes r.
Proof.
  cbn [decode_record externals]. destruct (str_eqb b §"record"); [|discriminate].
  intros H. injection H as <-. vm_compute. discriminate.
Qed.

Definition reserved : Cache (list CacheEntry) :=
  (reserve_at limits 3 (Plugin §"p") (scoped_key (Plugin §"p") §"k") §"two.reservation" 7 100 cache).2.

Lemma reserve_within_limits_witness :
  exists reservations c1,
    scan_reservations limits 100 cache = (Ok reservations, c1) /\
    7 <= max_object_bytes limits.
Proof.
  assert (reserve_at limits 3 (Plugin §"p") (scoped_key (Plugin §"p") §"k") §"two.reservation" 7 100 cache
          = (Ok tt, reserved)) as H by (vm_compute; reflexivity).
  destruct (reserve_within_limits decoded limits 3 (Plugin §"p") (scoped_key (Plugin §"p") §"k")
              §"two.reservation" 7 100 cache reserved) as (rs & c1 & Hs & Hobj & _);
    [lia|vm_compute; reflexivity|vm_compute; reflexivity|vm_compute; reflexivity|vm_compute; reflexivity
    |exact H|].
  exists rs, c1. split; [exact Hs|exact Hobj].
Defined.

Lemma scoped_key_roundtrip_witness :
  parse_scoped_key (scoped_key (Plugin §"h:0::") §"p:1:x:y") = Some (Plugin §"h:0::", §"p:1:x:y").
Proof. apply (scoped_key_roundtrip (Plugin §"h:0::") §"p:1:x:y"). vm_compute. discriminate. Defined.
End CacheExample.

(** [reserve_at] does not look at the length of the key it records, and a record
    with a key of more than 4096 bytes is never valid: the next scan discards it
    together with the partial download it stands for. *)
Theorem long_key_record_invalid limits r now :
  (4096 < length (res_scoped_key r))%nat -> valid_reservation_record limits r now = false.
Proof.
  intros H. unfold valid_reservation_record, MAX_RESERVATION_KEY_BYTES.
  apply Nat.ltb_lt in H. by rewrite H.
Qed.
