(* ===== verification/CacheTable.v ===== *)
(** The index of the content cache in the database
    ([crates/db/src/cache/cache_index.rs]), as [CacheService] of
    [crates/core/src/services/cache_service.rs] gives it to the cache: one table with a
    unique key, queried by key, by a range of keys, by a pattern and in the order of last
    use.

    A statement is what SQLite documents of it. The table is the list of its rows;
    [CURRENT_TIMESTAMP] is the argument [now], in seconds. The order in which rows come
    out of an [ORDER BY] whose last column is unique is that of a stable sort. *)

From stdpp Require Import base tactics option list gmap sorting strings.
From Stdlib Require Import ZArith Lia Ascii.
From S2P Require Import Prelude Text RustPath CacheQuota.

#[local] Arguments String.list_ascii_of_string : simpl never.
Local Open Scope arclain_scope.
Local Open Scope Z_scope.

Inductive CacheType := Screenshot | Thumbnail | Metadata | Html | Cover | PluginData | Other.

#[export] Instance CacheType_eq_dec : EqDecision CacheType.
Proof. solve_decision. Defined.

Definition cache_type_as_str (t : CacheType) : str :=
  match t with
  | Screenshot => §"screenshot"
  | Thumbnail => §"thumbnail"
  | Metadata => §"metadata"
  | Html => §"html"
  | Cover => §"cover"
  | PluginData => §"plugin_data"
  | Other => §"other"
  end.

Definition cache_type_from_str (s : str) : CacheType :=
  if str_eqb s §"screenshot" then Screenshot
  else if str_eqb s §"thumbnail" then Thumbnail
  else if str_eqb s §"metadata" then Metadata
  else if str_eqb s §"html" then Html
  else if str_eqb s §"cover" then Cover
  else if str_eqb s §"plugin_data" then PluginData
  else Other.

(** [DbCacheEntry]: a row. *)
Record Row := mk_row {
  row_id : Z;
  row_key : str;
  product_id : option str;
  row_hash : str;
  source_url : option str;
  row_type : str;
  created_at : Z;
  last_accessed : option Z;
  row_size : option Z
}.

Definition to_cache_entry (r : Row) : CacheEntry :=
  {| key := row_key r; content_hash := row_hash r; size_bytes := row_size r |}.

(** The table, and whether a connection can be had. *)
Record Table := mk_table { rows : list Row; connected : bool }.

Definition with_conn {A} (f : list Row -> A) (t : Table) : option A :=
  if connected t then Some (f (rows t)) else None.

Definition key_is (k : str) (r : Row) : bool := str_eqb (row_key r) k.

(** [INTEGER PRIMARY KEY]: one more than the largest. *)
Definition next_row_id (rs : list Row) : Z := 1 + foldr Z.max 0 (map row_id rs).

Definition upsert_cache_entry (now : Z) (k : str) (product : option str) (hash : str) (url : option str)
    (ty : CacheType) (size : option Z) (rs : list Row) : list Row :=
  if existsb (key_is k) rs then
    map (fun r => if key_is k r
                  then mk_row (row_id r) k product hash url (cache_type_as_str ty) (created_at r) (Some now) size else r) rs
  else rs ++ [mk_row (next_row_id rs) k product hash url (cache_type_as_str ty) now None size].

Definition get_cache_entry (k : str) (rs : list Row) : option CacheEntry := option_map to_cache_entry (find (key_is k) rs).

Definition has_cache_entry (k : str) (rs : list Row) : bool := existsb (key_is k) rs.

Definition has_hash (h : str) (rs : list Row) : bool := existsb (fun r => str_eqb (row_hash r) h) rs.

Definition delete_cache_entry (k : str) (rs : list Row) : bool * list Row :=
  (existsb (key_is k) rs, List.filter (fun r => negb (key_is k r)) rs).

Definition touch_cache_entry (now : Z) (k : str) (rs : list Row) : list Row :=
  map (fun r => if key_is k r
                then mk_row (row_id r) (row_key r) (product_id r) (row_hash r) (source_url r) (row_type r) (created_at r)
                       (Some now) (row_size r) else r) rs.

Definition clear_all_entries (rs : list Row) : list Row := [].

Definition get_all_content_hashes (rs : list Row) : list str := remove_dups (map row_hash rs).

(** ** Patterns *)

Definition escape_char : ascii := "!"%char.

(** The loop of [delete_by_pattern] that makes a [LIKE] pattern of one with [*]. *)
Definition sql_char (c : ascii) : str :=
  if ascii_eqb c "!"%char then §"!!"
  else if ascii_eqb c "%"%char then §"!%"
  else if ascii_eqb c "_"%char then §"!_"
  else if ascii_eqb c "*"%char then §"%"
  else [c].
Definition sql_pattern (pattern : str) : str := concat (map sql_char pattern).

(** [LIKE ... ESCAPE] as SQLite documents it: a percent sign stands for any sequence, an
    underscore for one character, the character after the escape for itself, every other
    one for itself, ASCII letters in either case. *)
Inductive like_rel (escape : ascii) : str -> str -> Prop :=
| like_end : like_rel escape [] []
| like_none p k : like_rel escape p k -> like_rel escape ("%"%char :: p) k
| like_some p c k : like_rel escape ("%"%char :: p) k -> like_rel escape ("%"%char :: p) (c :: k)
| like_one p ch k : utf8_char_ok ch = true -> like_rel escape p k -> like_rel escape ("_"%char :: p) (ch ++ k)
| like_escaped p c d k : ascii_lower c = ascii_lower d -> like_rel escape p k -> like_rel escape (escape :: c :: p) (d :: k)
| like_char p c d k : c <> "%"%char -> c <> "_"%char -> c <> escape -> ascii_lower c = ascii_lower d ->
    like_rel escape p k -> like_rel escape (c :: p) (d :: k).

Class Sqlite := {
  like : ascii -> str -> str -> bool;
  like_spec p k : like escape_char p k = true <-> like_rel escape_char p k
}.

Section patterns.
Context `{S : Sqlite}.

Definition delete_by_pattern (pattern : str) (rs : list Row) : Z * list Row :=
  let hit r := like escape_char (sql_pattern pattern) (row_key r) in
  (Z.of_nat (length (List.filter hit rs)), List.filter (fun r => negb (hit r)) rs).
End patterns.

(** ** Ranges of keys *)

Definition code_point (ch : str) : Z :=
  match map (fun c => Z.of_N (code c)) ch with
  | [a] => a
  | [a; b] => (a - 192) * 64 + (b - 128)
  | [a; b; c] => (a - 224) * 4096 + (b - 128) * 64 + (c - 128)
  | [a; b; c; d] => (a - 240) * 262144 + (b - 128) * 4096 + (c - 128) * 64 + (d - 128)
  | _ => 0
  end.

Definition byte (z : Z) : ascii := ascii_of_N (Z.to_N z).

(** [char]'s encoding. *)
Definition encode_char (z : Z) : str :=
  if z <? 128 then [byte z]
  else if z <? 2048 then [byte (192 + z / 64); byte (128 + z mod 64)]
  else if z <? 65536 then [byte (224 + z / 4096); byte (128 + z / 64 mod 64); byte (128 + z mod 64)]
  else [byte (240 + z / 262144); byte (128 + z / 4096 mod 64); byte (128 + z / 64 mod 64); byte (128 + z mod 64)].

Definition next_scalar (z : Z) : option Z :=
  if z =? 0x10ffff then None else if z =? 0xd7ff then Some 0xe000 else Some (z + 1).

(** The loop from the last character down, on the characters in reverse. *)
Fixpoint bump_last (reversed : list str) : option (list str) :=
  match reversed with
  | [] => None
  | ch :: before =>
      match next_scalar (code_point ch) with
      | None => bump_last before
      | Some z => Some (reverse before ++ [encode_char z])
      end
  end.

Definition prefix_exclusive_upper_bound (prefix : str) : option str :=
  option_map (fun cs => concat cs) (bump_last (reverse (chars prefix))).

(** [key >= prefix and key < upper]: text compares byte by byte. *)
Definition in_key_range (lower upper : str) (r : Row) : bool :=
  str_leb lower (row_key r) && negb (str_leb upper (row_key r)).

Definition under_prefix (lower upper : str) (ty : CacheType) (r : Row) : bool :=
  in_key_range lower upper r && str_eqb (row_type r) (cache_type_as_str ty).

Definition count_keys_with_prefix (prefix : str) (ty : CacheType) (rs : list Row) : option Z :=
  upper ← prefix_exclusive_upper_bound prefix;
  Some (Z.of_nat (length (List.filter (under_prefix prefix upper ty) rs))).

(** A stable sort. *)
Fixpoint insert_by {A} (le : A -> A -> bool) (x : A) (l : list A) : list A :=
  match l with
  | [] => [x]
  | y :: l' => if le x y then x :: l else y :: insert_by le x l'
  end.
Definition sort_by {A} (le : A -> A -> bool) (l : list A) : list A := foldr (insert_by le) [] l.

Definition i64_max : Z := 2 ^ 63 - 1.

(** [offset] and [limit] have to fit SQLite's integers. *)
Definition page {A} (offset limit : Z) (l : list A) : option (list A) :=
  if limit =? 0 then Some []
  else if (i64_max <? offset) || (i64_max <? limit) then None
  else Some (take (Z.to_nat limit) (drop (Z.to_nat offset) l)).

Definition list_keys_with_prefix_page (prefix : str) (ty : CacheType) (offset limit : Z) (rs : list Row) : option (list str) :=
  if limit =? 0 then Some []
  else
    upper ← prefix_exclusive_upper_bound prefix;
    page offset limit (map row_key (sort_by (fun a b => str_leb (row_key a) (row_key b)) (List.filter (under_prefix prefix upper ty) rs))).

(** ** The order of last use *)

(** [COALESCE(last_accessed, created_at)], then the id. *)
Definition last_used (r : Row) : Z := default (created_at r) (last_accessed r).
Definition lru_leb (a b : Row) : bool := (last_used a <? last_used b) || (last_used a =? last_used b) && (row_id a <=? row_id b).

Definition list_entries_lru (rs : list Row) : list CacheEntry := map to_cache_entry (sort_by lru_leb rs).

Definition list_entries_lru_page (offset limit : Z) (rs : list Row) : option (list CacheEntry) :=
  page offset limit (list_entries_lru rs).

(** ** What the cache gets *)

#[export] Instance table_index : CacheIndex Table := {|
  entries_lru t := with_conn list_entries_lru t;
  entries_lru_page t offset limit := r ← with_conn (list_entries_lru_page (Z.of_nat offset) (Z.of_nat limit)) t; r;
  supports_lru_paging _ := true;
  delete_key t k := with_conn (fun rs => mk_table (delete_cache_entry k rs).2 true) t;
  has_content_hash t h := with_conn (has_hash h) t;
  has_complete_lru_view _ := true
|}.
