(* ===== verification/CacheTableProps.v ===== *)
(** What the cache's table promises: it is a finite map from keys, it satisfies the laws
    the quota relies on, the range a prefix is turned into holds exactly the keys with that
    prefix, and a pattern deletes exactly what it matches (letters in either case). *)

From stdpp Require Import base tactics option list gmap sorting strings.
From Stdlib Require Import ZArith Lia Ascii.
From S2P Require Import Prelude Text RustPath CacheQuota CacheTable.

#[local] Arguments String.list_ascii_of_string : simpl never.
Local Open Scope arclain_scope.
Local Open Scope Z_scope.

(** * Sorting *)

Section sort.
Context {A : Type} (le : A -> A -> bool).
Hypothesis le_total : forall x y, le x y = true \/ le y x = true.
Hypothesis le_trans : forall x y z, le x y = true -> le y z = true -> le x z = true.

Lemma insert_by_perm x l : insert_by le x l ≡ₚ x :: l.
Proof. induction l as [|y l IH]; cbn; [done|]. destruct (le x y); [done|]. rewrite IH. apply perm_swap. Qed.

Lemma sort_by_perm l : sort_by le l ≡ₚ l.
Proof. induction l as [|x l IH]; cbn; [done|]. by rewrite insert_by_perm, IH. Qed.

Lemma insert_by_sorted x l :
  StronglySorted (fun a b => le a b = true) l -> StronglySorted (fun a b => le a b = true) (insert_by le x l).
Proof.
  induction 1 as [|y l Hl IH Hy]; cbn; [by repeat constructor|]. destruct (le x y) eqn:E.
  - constructor; [by constructor|]. constructor; [done|]. eapply Forall_impl; [exact Hy|]. eauto.
  - constructor; [done|]. rewrite insert_by_perm. constructor; [|done]. destruct (le_total x y); congruence.
Qed.

Lemma sort_by_sorted l : StronglySorted (fun a b => le a b = true) (sort_by le l).
Proof. induction l as [|x l IH]; cbn; [constructor|]. by apply insert_by_sorted. Qed.

Lemma insert_by_filter P x l :
  StronglySorted (fun a b => le a b = true) l ->
  List.filter P (insert_by le x l) = if P x then insert_by le x (List.filter P l) else List.filter P l.
Proof.
  induction 1 as [|y l Hl IH Hy]; cbn; [by destruct (P x)|]. destruct (le x y) eqn:E; cbn.
  - destruct (P x) eqn:Ex; [|done]. destruct (P y) eqn:Ey; cbn; [by rewrite E|].
    assert (Hall : Forall (fun z => le x z = true) (List.filter P l)).
    { apply Forall_forall. intros z Hz. apply list_elem_of_In, filter_In in Hz as [Hz _].
      rewrite Forall_forall in Hy. eapply le_trans; [exact E|]. apply Hy. by apply list_elem_of_In. }
    destruct (List.filter P l) as [|z l']; [done|]. cbn. inv Hall. by rewrite H1.
  - rewrite IH. destruct (P x), (P y); cbn; by rewrite ?E.
Qed.

(** Leaving rows out before or after sorting is the same. *)
Lemma sort_by_filter P l : List.filter P (sort_by le l) = sort_by le (List.filter P l).
Proof.
  induction l as [|x l IH]; [done|]. change (sort_by le (x :: l)) with (insert_by le x (sort_by le l)).
  rewrite insert_by_filter by apply sort_by_sorted. rewrite IH. cbn [List.filter]. by destruct (P x).
Qed.
End sort.

Lemma lru_total a b : lru_leb a b = true \/ lru_leb b a = true.
Proof.
  unfold lru_leb. destruct (Z.ltb_spec (last_used a) (last_used b)), (Z.ltb_spec (last_used b) (last_used a)),
    (Z.eqb_spec (last_used a) (last_used b)), (Z.eqb_spec (last_used b) (last_used a)),
    (Z.leb_spec (row_id a) (row_id b)), (Z.leb_spec (row_id b) (row_id a)); cbn; auto; lia.
Qed.

Lemma lru_trans a b c : lru_leb a b = true -> lru_leb b c = true -> lru_leb a c = true.
Proof.
  unfold lru_leb. destruct (Z.ltb_spec (last_used a) (last_used b)), (Z.ltb_spec (last_used b) (last_used c)),
    (Z.eqb_spec (last_used a) (last_used b)), (Z.eqb_spec (last_used b) (last_used c)),
    (Z.leb_spec (row_id a) (row_id b)), (Z.leb_spec (row_id b) (row_id c)),
    (Z.ltb_spec (last_used a) (last_used c)), (Z.eqb_spec (last_used a) (last_used c)),
    (Z.leb_spec (row_id a) (row_id c)); cbn; auto; lia.
Qed.

Lemma page_spec {A} offset limit (l r : list A) :
  page (Z.of_nat offset) (Z.of_nat limit) l = Some r -> r = take limit (drop offset l).
Proof.
  unfold page. destruct (Z.eqb_spec (Z.of_nat limit) 0) as [E|_].
  - intros [= <-]. by replace limit with 0%nat by lia.
  - destruct (_ || _); [done|]. intros [= <-]. by rewrite !Nat2Z.id.
Qed.

(** The table keeps to what the quota expects of an index. *)
#[export] Instance table_lawful : LawfulIndex Table.
Proof.
  refine {| view t := list_entries_lru (rows t) |}.
  - intros t l. cbn. unfold with_conn. destruct (connected t); [|done]. by intros [= <-].
  - intros t offset limit l. cbn. unfold with_conn. destruct (connected t); [|done]. cbn. apply page_spec.
  - intros t k t'. cbn. unfold with_conn. destruct (connected t); [|done]. intros [= <-]. cbn. unfold list_entries_lru.
    rewrite filter_map. cbn. by rewrite (sort_by_filter lru_leb lru_total lru_trans).
  - intros t h. cbn. unfold with_conn. destruct (connected t); [|done]. intros [= H]. unfold list_entries_lru.
    apply Forall_map. rewrite Forall_forall. intros r Hr Hh. rewrite sort_by_perm in Hr.
    assert (existsb (fun r => str_eqb (row_hash r) h) (rows t) = true); [|unfold has_hash in H; congruence].
    apply existsb_exists. exists r. split; [by apply list_elem_of_In|]. by apply str_eqb_eq.
Defined.

(** * The table as a finite map *)

(** What a row says of its key. *)
Record Content := mk_content {
  c_product : option str;
  c_hash : str;
  c_url : option str;
  c_type : str;
  c_size : option Z
}.
Definition content_of (r : Row) : Content := mk_content (product_id r) (row_hash r) (source_url r) (row_type r) (row_size r).

Definition contents (rs : list Row) : gmap str Content := list_to_map (map (fun r => (row_key r, content_of r)) rs).

Record table_ok (rs : list Row) : Prop := {
  ok_keys : NoDup (map row_key rs);
  ok_ids : NoDup (map row_id rs)
}.

Lemma contents_cons r rs : contents (r :: rs) = <[row_key r := content_of r]> (contents rs).
Proof. done. Qed.

Lemma contents_lookup rs k c :
  NoDup (map row_key rs) -> contents rs !! k = Some c <-> exists r, r ∈ rs /\ row_key r = k /\ content_of r = c.
Proof.
  intros Hnd. unfold contents. rewrite <- elem_of_list_to_map.
  - rewrite list_elem_of_fmap. split; [intros (r & [= -> ->] & Hr); eauto|intros (r & Hr & <- & <-); eauto].
  - rewrite map_map. exact Hnd.
Qed.

Lemma contents_none rs k : contents rs !! k = None <-> k ∉ map row_key rs.
Proof. unfold contents. rewrite <- not_elem_of_list_to_map. by rewrite <- list_fmap_compose. Qed.

Lemma key_is_eq k r : key_is k r = true <-> row_key r = k.
Proof. unfold key_is. apply str_eqb_eq. Qed.

Lemma existsb_key k rs : existsb (key_is k) rs = true <-> k ∈ map row_key rs.
Proof.
  rewrite existsb_exists, list_elem_of_fmap. split.
  - intros (r & Hr & Hk%key_is_eq). exists r. split; [done|by apply list_elem_of_In].
  - intros (r & -> & Hr). exists r. split; [by apply list_elem_of_In|by apply key_is_eq].
Qed.

Lemma foldr_max_bound (l : list Z) x : x ∈ l -> x <= foldr Z.max 0 l.
Proof. induction 1; cbn; lia. Qed.

Lemma next_row_id_fresh rs : next_row_id rs ∉ map row_id rs.
Proof. unfold next_row_id. intros H%foldr_max_bound. lia. Qed.

Section refinement.
Context `{S : Sqlite}.

Inductive TableOp :=
| Upsert (now : Z) (k : str) (product : option str) (hash : str) (url : option str) (ty : CacheType) (size : option Z)
| DeleteKey (k : str)
| DeletePattern (pattern : str)
| Touch (now : Z) (k : str)
| ClearAll.

Definition table_step (rs : list Row) (op : TableOp) : list Row :=
  match op with
  | Upsert now k product hash url ty size => upsert_cache_entry now k product hash url ty size rs
  | DeleteKey k => (delete_cache_entry k rs).2
  | DeletePattern pattern => (delete_by_pattern pattern rs).2
  | Touch now k => touch_cache_entry now k rs
  | ClearAll => clear_all_entries rs
  end.

(** The same on a finite map. *)
Definition map_step (m : gmap str Content) (op : TableOp) : gmap str Content :=
  match op with
  | Upsert _ k product hash url ty size => <[k := mk_content product hash url (cache_type_as_str ty) size]> m
  | DeleteKey k => delete k m
  | DeletePattern pattern => filter (fun p => like escape_char (sql_pattern pattern) p.1 = false) m
  | Touch _ _ => m
  | ClearAll => ∅
  end.

Lemma map_keys_same f rs : (forall r, row_key (f r) = row_key r) -> map row_key (map f rs) = map row_key rs.
Proof. intros H. rewrite map_map. by apply map_ext. Qed.

Lemma map_ids_same f rs : (forall r, row_id (f r) = row_id r) -> map row_id (map f rs) = map row_id rs.
Proof. intros H. rewrite map_map. by apply map_ext. Qed.

Lemma filter_sublist {A} (P : A -> bool) l : List.filter P l `sublist_of` l.
Proof. induction l as [|x l IH]; cbn; [constructor|]. destruct (P x); by constructor. Qed.

Lemma table_ok_filter P rs : table_ok rs -> table_ok (List.filter P rs).
Proof. intros [Hk Hi]. split; [apply (sublist_NoDup _ _ Hk)|apply (sublist_NoDup _ _ Hi)]; apply fmap_sublist, filter_sublist. Qed.

Lemma contents_filter P (Q : str -> Prop) `{!forall k, Decision (Q k)} rs :
  NoDup (map row_key rs) -> (forall r, P r = true <-> Q (row_key r)) ->
  contents (List.filter P rs) = filter (fun p => Q p.1) (contents rs).
Proof.
  intros Hnd HP. apply map_eq. intros k. apply option_eq. intros c.
  rewrite contents_lookup by (apply (sublist_NoDup _ _ Hnd), fmap_sublist, filter_sublist).
  rewrite map_lookup_filter_Some, contents_lookup by done. cbn. split.
  - intros (r & Hr & <- & <-). apply list_elem_of_In, filter_In in Hr as [Hr HPr]. rewrite <- list_elem_of_In in Hr.
    split; [eauto|]. by apply HP.
  - intros [(r & Hr & <- & <-) HQ]. exists r. split; [|done]. apply list_elem_of_In, filter_In. rewrite <- list_elem_of_In.
    split; [done|]. by apply HP.
Qed.

Lemma table_step_ok rs op : table_ok rs -> table_ok (table_step rs op).
Proof.
  intros Hok. destruct op as [now k product hash url ty size|k|pattern|now k|]; cbn [table_step].
  - unfold upsert_cache_entry. destruct (existsb (key_is k) rs) eqn:E.
    + split; [rewrite map_keys_same|rewrite map_ids_same]; try apply Hok; intros r; destruct (key_is k r) eqn:Ek; [|done..].
      cbn. symmetry. by apply key_is_eq.
    + destruct Hok as [Hk Hi]. split; rewrite map_app; cbn; apply NoDup_app; (split; [done|]); (split; [|apply NoDup_singleton]);
        intros x Hx ->%list_elem_of_singleton; [|by apply next_row_id_fresh in Hx].
      apply existsb_key in Hx. congruence.
  - by apply table_ok_filter.
  - by apply table_ok_filter.
  - destruct Hok as [Hk Hi]. unfold touch_cache_entry. split; [rewrite map_keys_same|rewrite map_ids_same]; try done; intros r; by destruct (key_is k r).
  - split; apply NoDup_nil_2.
Qed.

Lemma contents_touch now k rs : contents (touch_cache_entry now k rs) = contents rs.
Proof.
  unfold contents, touch_cache_entry. f_equal. rewrite map_map. apply map_ext. intros r. by destruct (key_is k r).
Qed.

Lemma contents_upsert now k product hash url ty size rs :
  NoDup (map row_key rs) ->
  contents (upsert_cache_entry now k product hash url ty size rs)
  = <[k := mk_content product hash url (cache_type_as_str ty) size]> (contents rs).
Proof.
  intros Hnd. unfold upsert_cache_entry. destruct (existsb (key_is k) rs) eqn:E.
  - clear Hnd. apply existsb_key in E. induction rs as [|r rs IH]; [by apply elem_of_nil in E|]. cbn [map].
    rewrite contents_cons, contents_cons. destruct (key_is k r) eqn:Ek.
    + pose proof (proj1 (key_is_eq k r) Ek) as Hk. cbn. rewrite Hk, insert_insert_eq.
      destruct (decide (k ∈ map row_key rs)) as [Hin|Hout].
      * rewrite IH by done. by rewrite insert_insert_eq.
      * f_equal. f_equal. rewrite <- (map_id rs) at 2. apply map_ext_in. intros x Hx.
        destruct (key_is k x) eqn:Ex; [|done]. exfalso. apply Hout. apply key_is_eq in Ex as <-.
        apply list_elem_of_fmap. exists x. split; [done|by apply list_elem_of_In].
    + rewrite IH; [|cbn in E; apply elem_of_cons in E as [E|E]; [|done]; rewrite (proj2 (key_is_eq k r)) in Ek by done; done].
      apply insert_insert_ne. intros Hk. by rewrite (proj2 (key_is_eq k r)) in Ek.
  - unfold contents. rewrite map_app, list_to_map_app. cbn. rewrite insert_empty. symmetry. apply insert_union_singleton_r.
    apply contents_none. intros H%existsb_key. congruence.
Qed.

Lemma map_step_spec rs op : table_ok rs -> contents (table_step rs op) = map_step (contents rs) op.
Proof.
  intros [Hk _]. destruct op as [now k product hash url ty size|k|pattern|now k|]; cbn [table_step map_step].
  - by apply contents_upsert.
  - unfold delete_cache_entry. cbn [snd]. rewrite (contents_filter _ (fun x => x <> k)) by (done || (intros r; rewrite negb_true_iff, <- not_true_iff_false, key_is_eq; done)).
    apply map_eq. intros x. rewrite map_lookup_filter. destruct (decide (x = k)) as [-> | Hne].
    + rewrite lookup_delete_eq. destruct (contents rs !! k); [|done]. cbn. by rewrite option_guard_False by (cbn; tauto).
    + rewrite lookup_delete_ne by done. destruct (contents rs !! x); [|done]. cbn. by rewrite option_guard_True.
  - unfold delete_by_pattern. cbn [snd].
    rewrite (contents_filter _ (fun k => like escape_char (sql_pattern pattern) k = false)); [done|done|]. intros r. apply negb_true_iff.
  - apply contents_touch.
  - done.
Qed.

Lemma table_run_ok ops rs :
  table_ok rs -> table_ok (foldl table_step rs ops) /\ contents (foldl table_step rs ops) = foldl map_step (contents rs) ops.
Proof.
  revert rs. induction ops as [|op ops IH]; intros rs Hok; cbn [foldl]; [done|].
  destruct (IH _ (table_step_ok rs op Hok)) as [H1 H2]. split; [done|]. by rewrite H2, map_step_spec.
Qed.

Lemma get_cache_entry_spec k rs :
  NoDup (map row_key rs) ->
  get_cache_entry k rs = option_map (fun c => {| key := k; content_hash := c_hash c; size_bytes := c_size c |}) (contents rs !! k).
Proof.
  intros Hnd. unfold get_cache_entry. destruct (find (key_is k) rs) as [r|] eqn:E.
  - apply List.find_some in E as [Hr <-%key_is_eq]. rewrite <- list_elem_of_In in Hr.
    rewrite (proj2 (contents_lookup rs (row_key r) (content_of r) Hnd)) by eauto. done.
  - rewrite (proj2 (contents_none rs k)); [done|]. rewrite list_elem_of_fmap. intros (r & -> & Hr).
    apply (List.find_none _ _ E) in Hr as H || apply list_elem_of_In in Hr. 
    pose proof (List.find_none _ _ E r Hr) as H. by rewrite (proj2 (key_is_eq _ _)) in H.
Qed.

(** After any statements on a new table the keys are unique and the
    table is the finite map that the same statements make: an entry is looked up as in the
    map, a row exists and a content hash is referenced when the map says so, and the
    entries in the order of last use are those of the map, each once. *)
Theorem table_refines_map ops :
  let rs := foldl table_step [] ops in
  let m := foldl map_step ∅ ops in
  NoDup (map row_key rs)
  /\ (forall k, get_cache_entry k rs = option_map (fun c => {| key := k; content_hash := c_hash c; size_bytes := c_size c |}) (m !! k))
  /\ (forall k, has_cache_entry k rs = bool_decide (is_Some (m !! k)))
  /\ (forall h, has_hash h rs = true <-> exists k c, m !! k = Some c /\ c_hash c = h)
  /\ list_entries_lru rs ≡ₚ map (fun p => {| key := p.1; content_hash := c_hash p.2; size_bytes := c_size p.2 |}) (map_to_list m).
Proof.
  cbv zeta. destruct (table_run_ok ops []) as [[Hk Hi] Hm]; [split; apply NoDup_nil_2|].
  change (contents []) with (∅ : gmap str Content) in Hm. rewrite <- Hm. set (rs := foldl table_step [] ops) in *. split_and!.
  - done.
  - intros k. by apply get_cache_entry_spec.
  - intros k. unfold has_cache_entry. destruct (existsb (key_is k) rs) eqn:E; symmetry.
    + apply bool_decide_eq_true. apply existsb_key in E. destruct (contents rs !! k) eqn:Ec; [eauto|].
      by apply contents_none in Ec.
    + apply bool_decide_eq_false. intros [c Hc]. apply contents_lookup in Hc as (r & Hr & <- & _); [|done].
      rewrite (proj2 (existsb_key (row_key r) rs)) in E; [done|]. apply list_elem_of_fmap. eauto.
  - intros h. unfold has_hash. rewrite existsb_exists. split.
    + intros (r & Hr & Hh%str_eqb_eq). exists (row_key r), (content_of r). split; [|done].
      apply contents_lookup; [done|]. exists r. split; [by apply list_elem_of_In|done].
    + intros (k & c & (r & Hr & <- & <-)%contents_lookup & <-); [|done]. exists r.
      split; [by apply list_elem_of_In|by apply str_eqb_eq].
  - unfold list_entries_lru. rewrite sort_by_perm. unfold contents. rewrite map_to_list_to_map.
    + by rewrite map_map.
    + by rewrite <- list_fmap_compose.
Qed.
End refinement.

(** * Patterns *)

(** A pattern with [*] against a key, ASCII letters in either case. *)
Inductive glob : str -> str -> Prop :=
| glob_end : glob [] []
| glob_none p k : glob p k -> glob ("*"%char :: p) k
| glob_some p c k : glob ("*"%char :: p) k -> glob ("*"%char :: p) (c :: k)
| glob_char p c d k : c <> "*"%char -> ascii_lower c = ascii_lower d -> glob p k -> glob (c :: p) (d :: k).

Lemma sql_pattern_cons c p : sql_pattern (c :: p) = sql_char c ++ sql_pattern p.
Proof. done. Qed.

(** What one character of the pattern becomes. *)
Lemma sql_char_cases c :
  (c = "*"%char /\ sql_char c = ["%"%char])
  \/ (c <> "*"%char /\ sql_char c = [escape_char; c])
  \/ (c <> "*"%char /\ c <> "%"%char /\ c <> "_"%char /\ c <> escape_char /\ sql_char c = [c]).
Proof.
  unfold sql_char, escape_char.
  destruct (ascii_eqb c "!"%char) eqn:E1; [apply ascii_eqb_eq in E1 as ->; right; left; done|].
  destruct (ascii_eqb c "%"%char) eqn:E2; [apply ascii_eqb_eq in E2 as ->; right; left; done|].
  destruct (ascii_eqb c "_"%char) eqn:E3; [apply ascii_eqb_eq in E3 as ->; right; left; done|].
  destruct (ascii_eqb c "*"%char) eqn:E4; [apply ascii_eqb_eq in E4 as ->; left; done|].
  right; right. split_and!; try done; intros ->; discriminate.
Qed.

Lemma glob_like p k : glob p k -> like_rel escape_char (sql_pattern p) k.
Proof.
  induction 1 as [|p k H IH|p c k H IH|p c d k Hc Hl H IH].
  - constructor.
  - rewrite sql_pattern_cons. by constructor.
  - rewrite sql_pattern_cons in *. by constructor.
  - rewrite sql_pattern_cons. destruct (sql_char_cases c) as [[-> _]|[[_ ->]|(_ & H1 & H2 & H3 & ->)]]; [done| |].
    + by apply like_escaped.
    + by apply like_char.
Qed.

(** A [%] in front takes any beginning of the key. *)
Lemma like_percent q k :
  like_rel escape_char ("%"%char :: q) k -> exists a b, k = a ++ b /\ like_rel escape_char q b.
Proof.
  intros H. remember ("%"%char :: q) as p eqn:Ep. induction H as [|p k H IH|p c k H IH|p ch k Hc H IH|p c d k Hl H IH|p c d k H1 H2 H3 Hl H IH];
    try discriminate; injection Ep; intros; subst.
  - by exists [], k.
  - destruct (IH eq_refl) as (a & b & -> & Hb). by exists (c :: a), b.
  - congruence.
Qed.

Lemma glob_skip a p k : glob p k -> glob ("*"%char :: p) (a ++ k).
Proof. intros H. induction a as [|c a IH]; cbn; by constructor. Qed.

Lemma like_glob p k : like_rel escape_char (sql_pattern p) k -> glob p k.
Proof.
  revert k. induction p as [|c p IH]; intros k.
  - intros H. inv H. constructor.
  - rewrite sql_pattern_cons. destruct (sql_char_cases c) as [[-> ->]|[[Hc ->]|(Hc & H1 & H2 & H3 & ->)]]; cbn [app].
    + intros (a & b & -> & H)%like_percent. apply glob_skip. by apply IH.
    + intros H. inversion H; subst; try congruence. apply glob_char; auto.
    + intros H. inversion H; subst; try congruence. apply glob_char; auto.
Qed.

Section patterns.
Context `{S : Sqlite}.

Lemma like_is_glob pattern k : like escape_char (sql_pattern pattern) k = true <-> glob pattern k.
Proof. rewrite like_spec. split; [apply like_glob|apply glob_like]. Qed.

Lemma pattern_rows pattern rs r : r ∈ (delete_by_pattern pattern rs).2 <-> r ∈ rs /\ ~ glob pattern (row_key r).
Proof.
  unfold delete_by_pattern. cbn [snd].
  by rewrite !list_elem_of_In, filter_In, negb_true_iff, <- not_true_iff_false, like_is_glob.
Qed.

(** Deleting by a pattern removes exactly the rows whose key
    the pattern matches, [*] standing for any sequence and every other character, the
    wildcards of SQL included, for itself up to the case of ASCII letters; it reports how
    many, and leaves the rest as they were. *)
Theorem pattern_deletes_matches pattern rs :
  (forall r, r ∈ (delete_by_pattern pattern rs).2 <-> r ∈ rs /\ ~ glob pattern (row_key r))
  /\ (delete_by_pattern pattern rs).1 = Z.of_nat (length rs) - Z.of_nat (length (delete_by_pattern pattern rs).2).
Proof.
  split; [intros r; apply pattern_rows|].
  unfold delete_by_pattern. cbn [fst snd]. induction rs as [|r rs IH]; [done|]. cbn.
  destruct (like escape_char (sql_pattern pattern) (row_key r)); cbn [negb length]; lia.
Qed.
End patterns.

(** * Ranges *)

(** The shapes of a well-formed character. *)
Lemma char_ok_inv ch :
  utf8_char_ok ch = true ->
  (exists a, ch = [a] /\ (code a <= 127)%N)
  \/ (exists a b, ch = [a; b] /\ (194 <= code a <= 223)%N /\ (128 <= code b <= 191)%N)
  \/ (exists a b c, ch = [a; b; c] /\ (224 <= code a <= 239)%N /\ (128 <= code b <= 191)%N /\ (128 <= code c <= 191)%N
        /\ (code a = 224%N -> (160 <= code b)%N) /\ (code a = 237%N -> (code b <= 159)%N))
  \/ (exists a b c d, ch = [a; b; c; d] /\ (240 <= code a <= 244)%N /\ (128 <= code b <= 191)%N /\ (128 <= code c <= 191)%N
        /\ (128 <= code d <= 191)%N /\ (code a = 240%N -> (144 <= code b)%N) /\ (code a = 244%N -> (code b <= 143)%N)).
Proof.
  unfold utf8_char_ok, in_range, is_continuation.
  destruct ch as [|a [|b [|c [|d [|]]]]]; try done; intros H;
    repeat (rewrite andb_true_iff in H || rewrite orb_true_iff in H || rewrite N.leb_le in H || rewrite N.ltb_lt in H).
  - left. exists a. split; [done|lia].
  - right; left. exists a, b. split; [done|lia].
  - right; right; left. exists a, b, c. split; [done|]. lia.
  - right; right; right. exists a, b, c, d. split; [done|]. lia.
Qed.

Ltac byte_cases :=
  repeat match goal with |- context [(?x <? ?y)%N] => destruct (N.ltb_spec x y) end.

(** The order of characters is that of their encodings, whatever follows. *)
Lemma char_lt a b x y :
  utf8_char_ok a = true -> utf8_char_ok b = true -> code_point a < code_point b ->
  str_leb (a ++ x) (b ++ y) = true /\ str_leb (b ++ y) (a ++ x) = false.
Proof.
  intros Ha%char_ok_inv Hb%char_ok_inv.
  destruct Ha as [(a1 & -> & ?)|[(a1 & a2 & -> & ?)|[(a1 & a2 & a3 & -> & ?)|(a1 & a2 & a3 & a4 & -> & ?)]]],
    Hb as [(b1 & -> & ?)|[(b1 & b2 & -> & ?)|[(b1 & b2 & b3 & -> & ?)|(b1 & b2 & b3 & b4 & -> & ?)]]];
    unfold code_point; cbn [map]; intros Hlt; cbn [app str_leb]; byte_cases; split; first [done | exfalso; lia].
Qed.

Lemma code_point_inj a b :
  utf8_char_ok a = true -> utf8_char_ok b = true -> code_point a = code_point b -> a = b.
Proof.
  intros Ha%char_ok_inv Hb%char_ok_inv.
  destruct Ha as [(a1 & -> & ?)|[(a1 & a2 & -> & ?)|[(a1 & a2 & a3 & -> & ?)|(a1 & a2 & a3 & a4 & -> & ?)]]],
    Hb as [(b1 & -> & ?)|[(b1 & b2 & -> & ?)|[(b1 & b2 & b3 & -> & ?)|(b1 & b2 & b3 & b4 & -> & ?)]]];
    unfold code_point; cbn [map]; intros Heq; try (exfalso; lia).
  all: repeat f_equal; apply code_inj; lia.
Qed.

Definition scalar (z : Z) : Prop := 0 <= z <= 0x10ffff /\ ~ (0xd800 <= z <= 0xdfff).

Lemma code_point_scalar ch : utf8_char_ok ch = true -> scalar (code_point ch).
Proof.
  intros [(a & -> & ?)|[(a & b & -> & ?)|[(a & b & c & -> & ?)|(a & b & c & d & -> & ?)]]]%char_ok_inv;
    unfold code_point, scalar; cbn [map]; lia.
Qed.

Lemma code_byte z : 0 <= z < 256 -> code (byte z) = Z.to_N z.
Proof. intros H. unfold byte. apply N_ascii_embedding. lia. Qed.

Lemma encode_char_ok z : scalar z -> utf8_char_ok (encode_char z) = true /\ code_point (encode_char z) = z.
Proof.
  unfold scalar. intros [Hr Hs]. unfold encode_char.
  destruct (Z.ltb_spec z 128); [|destruct (Z.ltb_spec z 2048); [|destruct (Z.ltb_spec z 65536)]].
  all: unfold utf8_char_ok, in_range, is_continuation, code_point; cbn [map].
  all: rewrite !code_byte by (Z.to_euclidean_division_equations; lia).
  all: rewrite !Z2N.id by (Z.to_euclidean_division_equations; lia).
  - split; [|done]. apply andb_true_iff. rewrite !N.leb_le. lia.
  - split; [|Z.to_euclidean_division_equations; lia]. rewrite !andb_true_iff, !N.leb_le, !N.ltb_lt.
    Z.to_euclidean_division_equations; lia.
  - split; [|Z.to_euclidean_division_equations; lia].
    rewrite !andb_true_iff, !orb_true_iff, !andb_true_iff, !N.leb_le, !N.ltb_lt. Z.to_euclidean_division_equations; lia.
  - split; [|Z.to_euclidean_division_equations; lia].
    rewrite !andb_true_iff, !orb_true_iff, !andb_true_iff, !N.leb_le, !N.ltb_lt. Z.to_euclidean_division_equations; lia.
Qed.

Lemma next_scalar_spec z z' :
  scalar z -> next_scalar z = Some z' -> scalar z' /\ z < z' /\ forall y, scalar y -> z < y -> z' <= y.
Proof.
  unfold next_scalar, scalar. intros Hz. destruct (Z.eqb_spec z 0x10ffff); [done|].
  destruct (Z.eqb_spec z 0xd7ff); intros [= <-]; split_and!; try lia; intros y Hy; lia.
Qed.

Lemma str_leb_app q x y : str_leb (q ++ x) (q ++ y) = str_leb x y.
Proof. induction q as [|c q IH]; cbn; [done|]. by rewrite N.ltb_irrefl. Qed.

Lemma str_leb_prefix p r : str_leb p (p ++ r) = true.
Proof. rewrite <- (app_nil_r p) at 1. rewrite str_leb_app. by destruct r. Qed.

Lemma char_ok_cons ch : utf8_char_ok ch = true -> exists c s, ch = c :: s.
Proof. destruct ch; [done|]. eauto. Qed.

Definition all_ok (cs : list str) : Prop := Forall (fun ch => utf8_char_ok ch = true) cs.

(** A string between two that begin alike begins so too. *)
Lemma between_prefix q t1 t2 ks :
  all_ok q -> all_ok ks ->
  str_leb (concat q ++ t1) (concat ks) = true -> str_leb (concat q ++ t2) (concat ks) = false ->
  exists ks', ks = q ++ ks' /\ str_leb t1 (concat ks') = true /\ str_leb t2 (concat ks') = false.
Proof.
  intros Hq. revert ks. induction Hq as [|c q Hc Hq IH]; intros ks Hks H1 H2; [by exists ks|].
  cbn [concat] in H1, H2. rewrite <- !app_assoc in *.
  destruct Hks as [|d ks Hd Hks].
  - destruct (char_ok_cons c Hc) as (? & ? & ->). done.
  - cbn [concat] in H1, H2. destruct (Z.lt_total (code_point c) (code_point d)) as [Hlt|[Heq|Hlt]].
    + destruct (char_lt c d (concat q ++ t2) (concat ks) Hc Hd Hlt). congruence.
    + apply code_point_inj in Heq as <-; [|done..]. rewrite str_leb_app in H1, H2.
      destruct (IH ks Hks H1 H2) as (ks' & -> & ?). by exists ks'.
    + destruct (char_lt d c (concat ks) (concat q ++ t1) Hd Hc Hlt). congruence.
Qed.

(** Nothing but the largest characters is above them. *)
Lemma above_largest m ks :
  all_ok m -> all_ok ks -> Forall (fun ch => code_point ch = 0x10ffff) m ->
  str_leb (concat m) (concat ks) = true -> m `prefix_of` ks.
Proof.
  intros Hm Hks Hmax. revert ks Hks. induction Hmax as [|c m Hc Hmax IH]; intros ks Hks H; [apply prefix_nil|].
  inv Hm. destruct Hks as [|d ks Hd Hks].
  - destruct (char_ok_cons c) as (? & ? & ->); done.
  - cbn [concat] in H. destruct (Z.lt_total (code_point c) (code_point d)) as [Hlt|[Heq|Hlt]].
    + pose proof (code_point_scalar d Hd) as [Hr _]. lia.
    + apply code_point_inj in Heq as <-; [|done..]. rewrite str_leb_app in H. apply prefix_cons. by apply IH.
    + destruct (char_lt d c (concat ks) (concat m)); [done..|]. congruence.
Qed.

Lemma bump_last_spec rev cs :
  bump_last rev = Some cs ->
  exists m c before z, rev = m ++ c :: before /\ Forall (fun ch => next_scalar (code_point ch) = None) m
    /\ next_scalar (code_point c) = Some z /\ cs = reverse before ++ [encode_char z].
Proof.
  induction rev as [|ch rev IH]; cbn; [done|]. destruct (next_scalar (code_point ch)) as [z|] eqn:E.
  - intros [= <-]. by exists [], ch, rev, z.
  - intros (m & c & before & z & -> & Hm & Hc & ->)%IH. exists (ch :: m), c, before, z. split_and!; [done| |done|done].
    by constructor.
Qed.

Lemma utf8_all_ok s : utf8_valid s = true -> all_ok (chars s).
Proof. unfold utf8_valid, all_ok. intros H. apply Forall_forall. intros ch Hch. rewrite forallb_forall in H. apply H. by apply list_elem_of_In. Qed.

Lemma concat_prefix (a b : list str) : a `prefix_of` b -> concat a `prefix_of` concat b.
Proof. intros [r ->]. rewrite concat_app. by eexists. Qed.

(** The keys from a prefix up to the bound made of it, in the
    byte order of the database, are exactly the keys that begin with the prefix; the bound
    steps over the surrogates and drops characters that have no successor. *)
Theorem prefix_range_is_prefix prefix upper r :
  utf8_valid prefix = true -> utf8_valid (row_key r) = true ->
  prefix_exclusive_upper_bound prefix = Some upper ->
  in_key_range prefix upper r = true <-> prefix `prefix_of` row_key r.
Proof.
  intros Hp Hk. unfold prefix_exclusive_upper_bound. destruct (bump_last _) as [us|] eqn:Eb; [|done]. intros [= <-].
  apply bump_last_spec in Eb as (m & c & before & z & Hrev & Hmax & Hnext & ->).
  apply (f_equal reverse) in Hrev. rewrite reverse_involutive, reverse_app, reverse_cons, <- app_assoc in Hrev. cbn [app] in Hrev.
  pose proof (utf8_all_ok _ Hp) as Hok. rewrite Hrev in Hok. apply Forall_app in Hok as [Hq [Hc Hm]%Forall_cons].
  assert (Epre : prefix = concat (reverse before) ++ c ++ concat (reverse m)).
  { rewrite <- (concat_chars prefix), Hrev, concat_app. done. }
  destruct (next_scalar_spec _ _ (code_point_scalar c Hc) Hnext) as (Hz & Hlt & Hleast).
  destruct (encode_char_ok z Hz) as [Heok Hecp]. rewrite concat_app. cbn [concat]. rewrite app_nil_r.
  unfold in_key_range. rewrite andb_true_iff, negb_true_iff. split.
  - rewrite Epre, <- (concat_chars (row_key r)). pose proof (utf8_all_ok _ Hk) as Hks. intros [H1 H2].
    destruct (between_prefix _ _ _ _ Hq Hks H1 H2) as (ks' & Hks' & H3 & H4). rewrite Hks' in *.
    apply Forall_app in Hks as [_ Hks]. rewrite concat_app. apply prefix_app.
    destruct Hks as [|d ks Hd Hks]; [destruct (char_ok_cons c Hc) as (? & ? & ->); done|]. cbn [concat] in *.
    destruct (Z.lt_total (code_point c) (code_point d)) as [Hcd|[Heq|Hcd]].
    + specialize (Hleast _ (code_point_scalar d Hd) Hcd). rewrite <- (app_nil_r (encode_char z)) in H4.
      destruct (Z.eq_dec z (code_point d)) as [Hzd|Hne].
      * rewrite <- Hecp in Hzd. apply code_point_inj in Hzd; [|done..]. rewrite Hzd, str_leb_app in H4. by destruct (concat ks).
      * destruct (char_lt (encode_char z) d [] (concat ks)); [done..|lia|]. congruence.
    + apply code_point_inj in Heq as <-; [|done..]. rewrite str_leb_app in H3. apply prefix_app. apply concat_prefix.
      apply above_largest; [done..| |done]. apply Forall_forall. intros ch Hch. rewrite elem_of_reverse in Hch.
      rewrite Forall_forall in Hmax. specialize (Hmax ch Hch). unfold next_scalar in Hmax.
      destruct (Z.eqb_spec (code_point ch) 0x10ffff); [done|]. by destruct (_ =? _).
    + destruct (char_lt d c (concat ks) (concat (reverse m))); [done..|]. congruence.
  - intros [t Ht]. rewrite Ht. split; [apply str_leb_prefix|]. rewrite Epre, <- !app_assoc, str_leb_app.
    rewrite <- (app_nil_r (encode_char z)). apply char_lt; [done..|]. lia.
Qed.

(** * An instance *)

Module CacheTableExample.

Definition like_any (rest : str -> bool) : str -> bool :=
  fix any k := rest k || match k with [] => false | _ :: k' => any k' end.

Fixpoint like_match (e : ascii) (p : str) : str -> bool :=
  match p with
  | [] => fun k => match k with [] => true | _ => false end
  | c :: p' =>
      let rest := like_match e p' in
      if ascii_eqb c e then
        match p' with
        | [] => fun _ => false
        | x :: p'' => let rest := like_match e p'' in
                      fun k => match k with d :: k' => ascii_eqb (ascii_lower x) (ascii_lower d) && rest k' | [] => false end
        end
      else if ascii_eqb c "%"%char then like_any rest
      else if ascii_eqb c "_"%char then
        fun k => match k with [] => false | b :: _ => utf8_char_ok (take (char_width b) k) && rest (drop (char_width b) k) end
      else fun k => match k with d :: k' => ascii_eqb (ascii_lower c) (ascii_lower d) && rest k' | [] => false end
  end.

Lemma like_any_spec rest k : like_any rest k = true <-> exists a b, k = a ++ b /\ rest b = true.
Proof.
  induction k as [|c k IH]; cbn; rewrite orb_true_iff.
  - split; [intros [H|]; [by exists [], []|done]|]. intros (a & b & E & H). symmetry in E. apply app_eq_nil in E as [-> ->]. by left.
  - rewrite IH. split.
    + intros [H|(a & b & -> & H)]; [by exists [], (c :: k)|by exists (c :: a), b].
    + intros (a & b & E & H). destruct a as [|x a]; cbn in E; [subst b; by left|]. injection E as <- ->. right. eauto.
Qed.

Lemma char_ok_width ch : utf8_char_ok ch = true -> exists b s, ch = b :: s /\ char_width b = length ch.
Proof.
  intros [(a & -> & ?)|[(a & b & -> & ?)|[(a & b & c & -> & ?)|(a & b & c & d & -> & ?)]]]%char_ok_inv;
    do 2 eexists; (split; [done|]); unfold char_width; byte_cases; (done || (exfalso; lia)).
Qed.

Lemma like_match_sound n p k : (length p <= n)%nat -> like_match escape_char p k = true -> like_rel escape_char p k.
Proof.
  revert p k. induction n as [|n IH]; intros p k Hn; (destruct p as [|c p]; [cbn; destruct k; [constructor|done]|]); [cbn in Hn; lia|].
  cbn [like_match]. cbn in Hn. destruct (ascii_eqb c escape_char) eqn:E1.
  - apply ascii_eqb_eq in E1 as ->. destruct p as [|x p]; [done|]. destruct k as [|d k]; [done|].
    rewrite andb_true_iff, ascii_eqb_eq. intros [Hx H]. apply like_escaped; [done|]. apply IH; [cbn in Hn; lia|done].
  - destruct (ascii_eqb c "%"%char) eqn:E2; [apply ascii_eqb_eq in E2 as ->|destruct (ascii_eqb c "_"%char) eqn:E3; [apply ascii_eqb_eq in E3 as ->|]].
    + intros (a & b & -> & H)%like_any_spec. apply IH in H; [|lia]. clear -H. induction a as [|x a IH]; cbn; by constructor.
    + destruct k as [|b k]; [done|]. rewrite andb_true_iff. intros [Hc H].
      rewrite <- (take_drop (char_width b) (b :: k)). apply like_one; [done|]. apply IH; [lia|done].
    + destruct k as [|d k]; [done|]. rewrite andb_true_iff, ascii_eqb_eq. intros [Hx H].
      apply like_char; [| | |done|apply IH; [lia|done]]; intros ->; discriminate.
Qed.

Lemma like_match_complete p k : like_rel escape_char p k -> like_match escape_char p k = true.
Proof.
  induction 1 as [|p k H IH|p c k H IH|p ch k Hc H IH|p c d k Hl H IH|p c d k H1 H2 H3 Hl H IH]; [done|..]; cbn [like_match].
  - apply like_any_spec. by exists [], k.
  - cbn [like_match] in IH. apply like_any_spec in IH as (a & b & -> & Hb). apply like_any_spec. by exists (c :: a), b.
  - destruct (char_ok_width ch Hc) as (b & s & -> & Hw). 
    change (utf8_char_ok (take (char_width b) ((b :: s) ++ k)) && like_match escape_char p (drop (char_width b) ((b :: s) ++ k)) = true).
    rewrite Hw, take_app_length, drop_app_length, Hc. done.
  - change (ascii_eqb (ascii_lower c) (ascii_lower d) && like_match escape_char p k = true).
    by rewrite (proj2 (ascii_eqb_eq _ _) Hl).
  - destruct (ascii_eqb c escape_char) eqn:E1; [by apply ascii_eqb_eq in E1|].
    destruct (ascii_eqb c "%"%char) eqn:E2; [by apply ascii_eqb_eq in E2|].
    destruct (ascii_eqb c "_"%char) eqn:E3; [by apply ascii_eqb_eq in E3|].
    rewrite (proj2 (ascii_eqb_eq _ _) Hl). done.
Qed.

#[export] Instance sqlite : Sqlite.
Proof.
  refine {| like := like_match |}. intros p k. split; [by apply (like_match_sound (length p))|apply like_match_complete].
Defined.

Definition row (k : str) : Row := mk_row 1 k None §"sha256-x" None §"cover" 0 None None.

Lemma prefix_range_is_prefix_witness :
  prefix_exclusive_upper_bound §"img:" = Some §"img;"
  /\ (in_key_range §"img:" §"img;" (row §"img:a") = true <-> §"img:" `prefix_of` row_key (row §"img:a")).
Proof.
  split; [reflexivity|]. apply prefix_range_is_prefix; reflexivity.
Defined.

(** Letters of the other case are deleted too. *)
Example pattern_ignores_case :
  map row_key (delete_by_pattern §"img:a*" [row §"img:a1"; row §"img:A2"; row §"img:b_"; row §"img:%"]).2 = [§"img:b_"; §"img:%"].
Proof. reflexivity. Qed.
End CacheTableExample.
