(* ===== verification/ContentCache.v ===== *)
(** The content cache ([crates/data/src/features/content_cache/cache.rs]): storing bytes
    under an owner's key, reading them back within a limit, removing them by key or
    pattern, and the queue of writes. It puts together the index, the blobs and the quota
    of [CacheQuota].

    A method takes the lock of its key and the lock of the root before it changes
    anything, so it is one step here. The integrity string of bytes ([ssri]) and the store
    of blobs ([cacache]) are a class: a blob is named by what is in it, so reading the blob
    of a hash gives the bytes of that hash or fails. *)

From stdpp Require Import base tactics option list gmap strings.
From Stdlib Require Import ZArith Lia Ascii.
From S2P Require Import Prelude Text RustPath CacheQuota CacheTable.

#[local] Arguments String.list_ascii_of_string : simpl never.
Local Open Scope arclain_scope.
Local Open Scope Z_scope.

(** The rest of the trait [CacheIndex]: the methods that change rows answer whether they
    succeeded, with the index after it. *)
Class RowIndex (I : Type) := {
  upsert : Z -> str -> option str -> str -> option str -> CacheType -> option Z -> I -> bool * I;
  get_row : str -> I -> option (option CacheEntry);
  has_row : str -> I -> option bool;
  delete_pattern : str -> I -> option (Z * I);
  touch_row : Z -> str -> I -> I;
  row_hashes : I -> option (list str);
  clear_rows : I -> option I;
  count_prefix : str -> CacheType -> I -> option Z;
  keys_page : str -> CacheType -> Z -> Z -> I -> option (list str)
}.

(** The laws, in terms of the rows [view] gives. *)
Class LawfulRows (I : Type) `{!CacheIndex I, !LawfulIndex I, !RowIndex I} := {
  upsert_view now k product hash url ty size i i' :
    upsert now k product hash url ty size i = (true, i') ->
    forall e, e ∈ view i' <-> e = {| key := k; content_hash := hash; size_bytes := size |} \/ e ∈ view i /\ key e <> k;
  upsert_failed now k product hash url ty size i i' :
    upsert now k product hash url ty size i = (false, i') -> forall e, e ∈ view i' <-> e ∈ view i;
  get_row_some i k e : get_row k i = Some (Some e) -> e ∈ view i /\ key e = k;
  get_row_none i k : get_row k i = Some None -> forall e, e ∈ view i -> key e <> k;
  has_row_view i k b : has_row k i = Some b -> b = true <-> exists e, e ∈ view i /\ key e = k;
  delete_pattern_view i pattern n i' : delete_pattern pattern i = Some (n, i') -> forall e, e ∈ view i' -> e ∈ view i;
  touch_view now k i : forall e, e ∈ view (touch_row now k i) <-> e ∈ view i;
  row_hashes_view i hs : row_hashes i = Some hs -> forall h, h ∈ hs <-> exists e, e ∈ view i /\ content_hash e = h;
  clear_view i i' : clear_rows i = Some i' -> view i' = []
}.

Class Blobs := {
  sri : str -> str;                       (** the integrity string of bytes *)
  bytes_of : str -> str;                  (** the bytes an integrity string stands for *)
  write_blob_fails : str -> bool;
  read_blob_fails : str -> bool
}.

(** Two different contents have different hashes. The integrity string of bytes is the name of
    an algorithm, SHA-256, and the digest in base64; [to_hex] gives the algorithm and the
    digest in hexadecimal, so it gives the same only for the same string. *)
Class LawfulBlobs `{!Blobs, !CacheExternals} := {
  bytes_of_sri d : bytes_of (sri d) = d;
  sri_nonempty d : sri d <> [];
  sri_hex d : exists hex, sri_to_hex (sri d) = Some (§"sha256", hex) /\ (4 <= length hex)%nat;
  sri_hex_inj d d' : sri_to_hex (sri d) = sri_to_hex (sri d') -> sri d = sri d'
}.

Inductive CacheError :=
| QuotaRefused (e : QuotaError)
| TooLargeForIndex
| IndexFailed
| StoreFailed
| OverReadLimit
| QueueFull
| OutsidePrefix.

(** ** Reading within a limit *)

Definition READ_CHUNK : nat := 8192.

(** The loop of [read_to_end_with_limit] over what is left of the blob; a read gives as
    many bytes as there is room for. *)
Fixpoint read_loop (fuel : nat) (limit : nat) (body rest : str) : option str :=
  match fuel with
  | O => None
  | S fuel =>
      let remaining := (limit - length body)%nat in
      if (remaining =? 0)%nat then match rest with [] => Some body | _ => None end
      else
        let n := Nat.min (Nat.min remaining READ_CHUNK) (length rest) in
        if (n =? 0)%nat then Some body
        else read_loop fuel limit (body ++ take n rest) (drop n rest)
  end.

Definition read_to_end_with_limit (limit : nat) (data : str) : option str := read_loop (2 + length data) limit [] data.

Section cache.
Context {I : Type} {CI : CacheIndex I} {RI : RowIndex I} {CX : CacheExternals} {B : Blobs}.
Implicit Types c : Cache I.

Definition of_quota {A} (r : result QuotaError A) : result CacheError A :=
  match r with Ok a => Ok a | Err e => Err (QuotaRefused e) end.

(** [cacache::write_hash_sync]. *)
Definition write_hash (data : str) c : option (str * Cache I) :=
  if write_blob_fails (sri data) then None
  else Some (sri data,
             match physical_blob_path (sri data) with
             | Some p => with_blobs c (<[p := Z.of_nat (length data)]> (blobs c))
             | None => c
             end).

Definition probe_replaced_entry (sk : str) c : option (option CacheEntry) :=
  match has_row sk (index c) with
  | None => None
  | Some true => get_row sk (index c)
  | Some false => Some None
  end.

(** The attempts of the loop around [upsert]. *)
Fixpoint upsert_attempts (n : nat) (now : Z) (sk : str) (product : option str) (hash : str) (url : option str)
    (ty : CacheType) (size : option Z) c : bool * Cache I :=
  match n with
  | O => (false, c)
  | S n =>
      match upsert now sk product hash url ty size (index c) with
      | (true, i) => (true, with_index c i)
      | (false, i) => upsert_attempts n now sk product hash url ty size (with_index c i)
      end
  end.

(** An operation whose error is dropped. *)
Definition ignored {A} (m : Q A) c : Cache I := (m c).2.

(** [put_for_owner_with] from the admission on: [name] is the reservation's file. *)
Definition commit_blob (now : Z) (sk : str) (data : str) (ty : CacheType) (product url : option str) (name : str)
    (a : CommitAdmission) c : result CacheError str * Cache I :=
  match probe_replaced_entry sk c with
  | None => (Err IndexFailed, drop_admission a (ignored (release name) c))
  | Some previous =>
      match write_hash data c with
      | None => (Err StoreFailed, drop_admission a (ignored (release name) c))
      | Some (hash, c) =>
          match upsert_attempts 3 now sk product hash url ty (Some (Z.of_nat (length data))) c with
          | (true, c) =>
              let c := drop_admission a c in
              let c := match previous with
                       | Some e => if negb (str_eqb (content_hash e) hash)
                                   then ignored (discard_blob_if_unreferenced (content_hash e)) c else c
                       | None => c
                       end in
              match release name c with
              | (Ok _, c) => (Ok hash, c)
              | (Err e, c) => (Err (QuotaRefused e), c)
              end
          | (false, c) =>
              (Err IndexFailed,
               drop_admission a (ignored (release name) (ignored (discard_blob_if_unreferenced hash) c)))
          end
      end
  end.

(** [put_for_owner_with]; [reserved] says that [name] was reserved before. *)
Definition put_for_owner_with (limits : CacheLimits) (fuel : nat) (now : Z) (root : str) (owner : CacheOwner) (k data : str)
    (ty : CacheType) (product url : option str) (name : str) (reserved : bool) c : result CacheError str * Cache I :=
  let sk := scoped_key owner k in
  let bytes := Z.of_nat (length data) in
  if i64_max <? bytes then (Err TooLargeForIndex, c)
  else
    match (if reserved then (Ok tt, c) else reserve_at limits fuel owner sk name bytes now c) with
    | (Err e, c) => (Err (QuotaRefused e), c)
    | (Ok _, c) =>
        match prepare_commit limits fuel root owner sk bytes c with
        | (Err e, c) => (Err (QuotaRefused e), ignored (release name) c)
        | (Ok a, c) => commit_blob now sk data ty product url name a c
        end
    end.

(** [upsert_sri_for_owner_unlocked]. *)
Definition upsert_sri_for_owner_unlocked (now : Z) (owner : CacheOwner) (k hash : str) (bytes : Z) (ty : CacheType)
    (product url : option str) c : result CacheError unit * Cache I :=
  if i64_max <? bytes then (Err TooLargeForIndex, c)
  else
    match upsert_attempts 3 now (scoped_key owner k) product hash url ty (Some bytes) c with
    | (true, c) => (Ok tt, c)
    | (false, c) => (Err IndexFailed, c)
    end.

(** [commit_streaming_for_owner_locked] of a writer that [data] went through. *)
Definition commit_streaming_for_owner_locked (now : Z) (owner : CacheOwner) (k data : str) (ty : CacheType)
    (product url : option str) c : result CacheError (str * Z) * Cache I :=
  match probe_replaced_entry (scoped_key owner k) c with
  | None => (Err IndexFailed, c)
  | Some previous =>
      match write_hash data c with
      | None => (Err StoreFailed, c)
      | Some (hash, c) =>
          match upsert_sri_for_owner_unlocked now owner k hash (Z.of_nat (length data)) ty product url c with
          | (Err e, c) => (Err e, ignored (discard_blob_if_unreferenced hash) c)
          | (Ok _, c) =>
              (Ok (hash, Z.of_nat (length data)),
               match previous with
               | Some e => if negb (str_eqb (content_hash e) hash)
                           then ignored (discard_blob_if_unreferenced (content_hash e)) c else c
               | None => c
               end)
          end
      end
  end.

(** ** Reading *)

Definition get_indexed_with_limit (now : Z) (ik : str) (limit : nat) c : result CacheError (option str) * Cache I :=
  match get_row ik (index c) with
  | None => (Err IndexFailed, c)
  | Some None => (Ok None, c)
  | Some (Some e) =>
      if match size_bytes e with Some n => (0 <=? n) && (Z.of_nat limit <? n) | None => false end then (Err OverReadLimit, c)
      else if bool_decide (content_hash e = []) then (Ok None, c)
      else
        match sri_to_hex (content_hash e) with
        | None => (Ok None, c)
        | Some _ =>
            match physical_blob_path (content_hash e) ≫= (fun p => blobs c !! p) with
            | None => (Ok None, c)
            | Some _ =>
                if read_blob_fails (content_hash e) then (Err StoreFailed, c)
                else
                  match read_to_end_with_limit limit (bytes_of (content_hash e)) with
                  | None => (Err OverReadLimit, c)
                  | Some data => (Ok (Some data), with_index c (touch_row now ik (index c)))
                  end
            end
        end
  end.

Definition is_host (owner : CacheOwner) : bool := match owner with Host => true | Plugin _ => false end.

Definition get_with_limit_for_owner (now : Z) (owner : CacheOwner) (k : str) (limit : nat) c
  : result CacheError (option str) * Cache I :=
  match get_indexed_with_limit now (scoped_key owner k) limit c with
  | (Err e, c) => (Err e, c)
  | (Ok (Some data), c) => (Ok (Some data), c)
  | (Ok None, c) =>
      if is_host owner then
        match has_row k (index c) with
        | None => (Err IndexFailed, c)
        | Some true => get_indexed_with_limit now k limit c
        | Some false => (Ok None, c)
        end
      else (Ok None, c)
  end.

Definition has_for_owner (owner : CacheOwner) (k : str) c : option bool :=
  match has_row (scoped_key owner k) (index c) with
  | None => None
  | Some true => Some true
  | Some false => if is_host owner then has_row k (index c) else Some false
  end.

(** ** The keys of one owner *)

Definition count_keys_with_prefix_for_owner (owner : CacheOwner) (prefix : str) (ty : CacheType) c : option Z :=
  count_prefix (scoped_key owner prefix) ty (index c).

(** One key of a page, back in the owner's own terms. *)
Definition raw_key_of (owner : CacheOwner) (prefix sk : str) : result CacheError str :=
  match parse_scoped_key sk with
  | None => Err OutsidePrefix
  | Some (actual_owner, raw_key) =>
      if negb (bool_decide (actual_owner = owner)) || negb (bool_decide (prefix `prefix_of` raw_key)) then Err OutsidePrefix
      else Ok raw_key
  end.

Fixpoint raw_keys_of (owner : CacheOwner) (prefix : str) (sks : list str) : result CacheError (list str) :=
  match sks with
  | [] => Ok []
  | sk :: sks =>
      match raw_key_of owner prefix sk with
      | Err e => Err e
      | Ok k => match raw_keys_of owner prefix sks with Err e => Err e | Ok ks => Ok (k :: ks) end
      end
  end.

Definition list_keys_with_prefix_page_for_owner (owner : CacheOwner) (prefix : str) (ty : CacheType) (offset limit : Z) c
  : result CacheError (list str) :=
  match keys_page (scoped_key owner prefix) ty offset limit (index c) with
  | None => Err IndexFailed
  | Some sks => raw_keys_of owner prefix sks
  end.

(** ** Removing *)

Definition hash_of (ik : str) c : option (list str) :=
  match get_row ik (index c) with
  | None => None
  | Some None => Some []
  | Some (Some e) => Some [content_hash e]
  end.

(** The hashes of the rows that go, when the index can tell what is referenced. *)
Definition removed_hashes (sk k : str) (legacy : bool) c : option (list str) :=
  if has_complete_lru_view (index c) then
    h1 ← hash_of sk c;
    h2 ← (if legacy then hash_of k c else Some []);
    Some (remove_dups (h1 ++ h2))
  else Some [].

(** [delete] and whether there was a row. *)
Definition delete_row (k : str) c : result CacheError bool * Cache I :=
  match has_row k (index c), delete_key (index c) k with
  | Some b, Some i => (Ok b, with_index c i)
  | _, _ => (Err IndexFailed, c)
  end.

Definition remove_for_owner (owner : CacheOwner) (k : str) c : result CacheError bool * Cache I :=
  let sk := scoped_key owner k in
  match (if is_host owner then has_row k (index c) else Some false) with
  | None => (Err IndexFailed, c)
  | Some legacy =>
      match removed_hashes sk k legacy c with
      | None => (Err IndexFailed, c)
      | Some hashes =>
          match delete_row sk c with
          | (Err e, c) => (Err e, c)
          | (Ok removed, c) =>
              match (if legacy then delete_row k c else (Ok false, c)) with
              | (Err e, c) => (Err e, c)
              | (Ok removed', c) =>
                  match q_each discard_blob_if_unreferenced hashes c with
                  | (Err e, c) => (Err (QuotaRefused e), c)
                  | (Ok _, c) => (Ok (removed || removed'), c)
                  end
              end
          end
      end
  end.

Definition delete_matching (pattern : str) c : result CacheError Z * Cache I :=
  match delete_pattern pattern (index c) with
  | None => (Err IndexFailed, c)
  | Some (n, i) => (Ok n, with_index c i)
  end.

Definition remove_by_pattern_for_owner (owner : CacheOwner) (pattern : str) c : result CacheError Z * Cache I :=
  match row_hashes (index c) with
  | None => (Err IndexFailed, c)
  | Some candidates =>
      match delete_matching (scoped_key owner pattern) c with
      | (Err e, c) => (Err e, c)
      | (Ok n, c) =>
          match (if is_host owner then delete_matching pattern c else (Ok 0, c)) with
          | (Err e, c) => (Err e, c)
          | (Ok n', c) =>
              match q_each discard_blob_if_unreferenced (remove_dups candidates) c with
              | (Err e, c) => (Err (QuotaRefused e), c)
              | (Ok _, c) => (Ok (saturating_add n n'), c)
              end
          end
      end
  end.

(** [clear_content]: the rows, then the blobs and the partial files; [fails] when the
    directory cannot be removed. *)
Definition clear_content (fails : bool) c : result CacheError unit * Cache I :=
  match clear_rows (index c) with
  | None => (Err IndexFailed, c)
  | Some i =>
      let c := with_index c i in
      if fails then (Err StoreFailed, c) else (Ok tt, with_partials (with_blobs c ∅) None)
  end.
End cache.

(** ** The queue of writes *)

Record QueueBudget := mk_budget { max_items : Z; max_bytes : Z; items : Z; queued_bytes : Z }.

Definition acquire (n : Z) (b : QueueBudget) : option QueueBudget :=
  if max_items b <=? items b then None
  else if max_bytes b <? saturating_add (queued_bytes b) n then None
  else Some (mk_budget (max_items b) (max_bytes b) (items b + 1) (saturating_add (queued_bytes b) n)).

(** [QueuePermit::drop]. *)
Definition drop_queue_permit (n : Z) (b : QueueBudget) : QueueBudget :=
  mk_budget (max_items b) (max_bytes b) (saturating_sub (items b) 1) (saturating_sub (queued_bytes b) n).

(** ** The index the application gives it *)

(** [CacheService] over the table; a statement fails when there is no connection. *)
#[export] Instance table_rows {SQ : Sqlite} : RowIndex Table := {|
  upsert now k product hash url ty size t :=
    match with_conn (upsert_cache_entry now k product hash url ty size) t with
    | Some rs => (true, mk_table rs true)
    | None => (false, t)
    end;
  get_row k t := with_conn (get_cache_entry k) t;
  has_row k t := with_conn (has_cache_entry k) t;
  delete_pattern pattern t := with_conn (fun rs => ((delete_by_pattern pattern rs).1, mk_table (delete_by_pattern pattern rs).2 true)) t;
  touch_row now k t := match with_conn (touch_cache_entry now k) t with Some rs => mk_table rs true | None => t end;
  row_hashes t := with_conn get_all_content_hashes t;
  clear_rows t := with_conn (fun rs => mk_table (clear_all_entries rs) true) t;
  count_prefix prefix ty t := n ← with_conn (count_keys_with_prefix prefix ty) t; n;
  keys_page prefix ty offset limit t := ks ← with_conn (list_keys_with_prefix_page prefix ty offset limit) t; ks
|}.
