(* ===== verification/ContentCacheProps.v ===== *)
(** What the content cache guarantees: it is a map that may lose entries and never gives
    other bytes than those put under a key; a row in the index always has its blob; an
    owner sees and removes only its own keys; the queue stays within its budget. *)

From stdpp Require Import base tactics option list gmap strings sorting.
From Stdlib Require Import ZArith Lia Ascii.
From S2P Require Import Prelude Text RustPath CacheQuota CacheProps CacheTable CacheTableProps ContentCache.

#[local] Arguments String.list_ascii_of_string : simpl never.
Local Open Scope arclain_scope.
Local Open Scope Z_scope.

(** * The table is a lawful index *)

Lemma elem_list_entries e rs : e ∈ list_entries_lru rs <-> exists r, r ∈ rs /\ e = to_cache_entry r.
Proof.
  unfold list_entries_lru. rewrite list_elem_of_fmap. split; intros (r & H1 & H2).
  - rewrite sort_by_perm in H2. eauto.
  - exists r. by rewrite sort_by_perm.
Qed.

Lemma upsert_entries now k product hash url ty size rs e :
  e ∈ list_entries_lru (upsert_cache_entry now k product hash url ty size rs) <->
  e = {| key := k; content_hash := hash; size_bytes := size |} \/ e ∈ list_entries_lru rs /\ key e <> k.
Proof.
  rewrite !elem_list_entries. unfold upsert_cache_entry. destruct (existsb (key_is k) rs) eqn:E.
  - setoid_rewrite list_elem_of_fmap. split.
    + intros (r & (x & -> & Hx) & ->). destruct (key_is k x) eqn:Ek.
      * left. apply key_is_eq in Ek as <-. done.
      * right. split; [eauto|]. cbn. intros H%key_is_eq. congruence.
    + intros [-> |[(r & Hr & ->) Hne]].
      * apply existsb_exists in E as (x & Hx & Hk). eexists. split; [exists x; split; [reflexivity|by apply list_elem_of_In]|].
        rewrite Hk. apply key_is_eq in Hk as <-. done.
      * exists r. split; [|done]. exists r. split; [|done]. destruct (key_is k r) eqn:Ek; [|done].
        apply key_is_eq in Ek. done.
  - setoid_rewrite elem_of_app. setoid_rewrite list_elem_of_singleton. split.
    + intros (r & [Hr| ->] & ->); [right|by left]. split; [eauto|]. cbn. intros Hk.
      apply not_true_iff_false in E. apply E, existsb_key. rewrite <- Hk. apply list_elem_of_fmap. eauto.
    + intros [-> |[(r & Hr & ->) _]]; [eexists; split; [by right|]; done|eauto].
Qed.

#[export] Instance table_rows_lawful {SQ : Sqlite} : LawfulRows Table.
Proof.
  split.
  - intros now k product hash url ty size t t'. cbn. unfold with_conn. destruct (connected t); [|done].
    intros [= <-] e. apply upsert_entries.
  - intros now k product hash url ty size t t'. cbn. unfold with_conn. by destruct (connected t); intros [= <-].
  - intros t k e. cbn. unfold with_conn, get_cache_entry. destruct (connected t); [|done].
    destruct (find (key_is k) (rows t)) as [r|] eqn:E; intros [= <-]. apply List.find_some in E as [Hr Hk%key_is_eq].
    split; [|done]. apply elem_list_entries. exists r. split; [by apply list_elem_of_In|done].
  - intros t k. cbn. unfold with_conn, get_cache_entry. destruct (connected t); [|done].
    destruct (find (key_is k) (rows t)) as [r|] eqn:E; [done|]. intros _ e He Hk.
    apply elem_list_entries in He as (r & Hr & ->). apply list_elem_of_In in Hr.
    pose proof (List.find_none _ _ E r Hr) as H. cbn in Hk. rewrite (proj2 (key_is_eq k r) Hk) in H. done.
  - intros t k b. cbn. unfold with_conn, has_cache_entry. destruct (connected t); [|done]. intros [= <-].
    rewrite existsb_key, list_elem_of_fmap. split.
    + intros (r & -> & Hr). exists (to_cache_entry r). split; [|done]. apply elem_list_entries. eauto.
    + intros (e & (r & Hr & ->)%elem_list_entries & <-). eauto.
  - intros t pattern n t'. cbn. unfold with_conn. destruct (connected t); [|done]. intros [= <- <-] e.
    change (e ∈ list_entries_lru (delete_by_pattern pattern (rows t)).2 -> e ∈ list_entries_lru (rows t)). rewrite !elem_list_entries.
    intros (r & Hr & ->). apply (proj1 (pattern_rows _ _ _)) in Hr as [Hr _]. eauto.
  - intros now k t. cbn. unfold with_conn. destruct (connected t); [|done]. intros e.
    change (e ∈ list_entries_lru (touch_cache_entry now k (rows t)) <-> e ∈ list_entries_lru (rows t)). rewrite !elem_list_entries.
    unfold touch_cache_entry. setoid_rewrite list_elem_of_fmap. split.
    + intros (r & (x & -> & Hx) & ->). exists x. split; [done|]. by destruct (key_is k x).
    + intros (r & Hr & ->). eexists. split; [eauto|]. by destruct (key_is k r).
  - intros t hs. cbn. unfold with_conn. destruct (connected t); [|done]. intros [= <-] h. unfold get_all_content_hashes.
    rewrite elem_of_remove_dups, list_elem_of_fmap. split.
    + intros (r & -> & Hr). exists (to_cache_entry r). split; [|done]. apply elem_list_entries. eauto.
    + intros (e & (r & Hr & ->)%elem_list_entries & <-). eauto.
  - intros t t'. cbn. unfold with_conn. destruct (connected t); [|done]. by intros [= <-].
Qed.

(** * Rows and blobs *)

Section cache.
Context {I : Type} {CI : CacheIndex I} {LI : LawfulIndex I} {RI : RowIndex I} {LR : LawfulRows I}.
Context {CX : CacheExternals} {B : Blobs} {LB : LawfulBlobs}.

Implicit Types c : Cache I.

(** The integrity strings the cache writes: no two of them name one blob. *)
Definition computed (h : str) : Prop := exists d, h = sri d.

Lemma computed_hex h : computed h -> exists hex, sri_to_hex h = Some (§"sha256", hex) /\ (4 <= length hex)%nat.
Proof. intros [d ->]. apply sri_hex. Qed.

Lemma computed_path h : computed h -> is_Some (physical_blob_path h).
Proof. intros (hex & E & Hl)%computed_hex. unfold physical_blob_path. rewrite E, (proj2 (Nat.leb_le _ _) Hl). by eexists. Qed.

Lemma sri_path d : is_Some (physical_blob_path (sri d)).
Proof. apply computed_path. by exists d. Qed.

(** The pieces of a digest in a path are the digest. *)
Lemma hex_pieces (a b : str) :
  (4 <= length a)%nat -> (4 <= length b)%nat ->
  take 2 a ++ "/"%char :: take 2 (drop 2 a) ++ "/"%char :: drop 4 a
  = take 2 b ++ "/"%char :: take 2 (drop 2 b) ++ "/"%char :: drop 4 b -> a = b.
Proof.
  destruct a as [|a1 [|a2 [|a3 [|a4 a]]]], b as [|b1 [|b2 [|b3 [|b4 b]]]]; cbn [length]; try lia. intros _ _ E.
  cbn in E. rewrite ?drop_0 in E. by injection E as -> -> -> -> ->.
Qed.

Lemma computed_paths h1 h2 p :
  computed h1 -> computed h2 -> physical_blob_path h1 = Some p -> physical_blob_path h2 = Some p -> h1 = h2.
Proof.
  intros H1 H2. destruct (computed_hex _ H1) as (x1 & E1 & L1), (computed_hex _ H2) as (x2 & E2 & L2).
  unfold physical_blob_path. rewrite E1, E2, (proj2 (Nat.leb_le _ _) L1), (proj2 (Nat.leb_le _ _) L2). intros [= <-] [= E].
  apply hex_pieces in E as ->; [|done..]. destruct H1 as [d1 ->], H2 as [d2 ->]. apply sri_hex_inj. congruence.
Qed.

(** Every row has an integrity string the cache computed. *)
Definition written c : Prop := rows_in_use computed c.

(** Every row of the index has its blob, as long as the bytes its hash stands for. *)
Definition intact c : Prop :=
  forall e p, e ∈ view (index c) -> physical_blob_path (content_hash e) = Some p ->
    blobs c !! p = Some (Z.of_nat (length (bytes_of (content_hash e)))).

(** The key [k] of the index stands for the bytes [d]. *)
Definition holds c (k d : str) : Prop := exists e, e ∈ view (index c) /\ key e = k /\ bytes_of (content_hash e) = d.

(** Rows only disappear, and every row that is left still has its blob. *)
Definition keeps c c' : Prop :=
  written c -> (forall e, e ∈ view (index c') -> e ∈ view (index c)) /\ (intact c -> intact c').

Lemma keeps_written c c' : keeps c c' -> written c -> written c'.
Proof. intros H Hw e He. apply Hw. by apply (H Hw). Qed.

#[local] Instance keeps_refl : Reflexive keeps.
Proof. by intros c. Qed.

#[local] Instance keeps_trans : Transitive keeps.
Proof.
  intros c1 c2 c3 H1 H2 Hw. destruct (H1 Hw), (H2 (keeps_written _ _ H1 Hw)). split; auto.
Qed.

Lemma safe_keeps c c' : safe c c' -> keeps c c'.
Proof. intros [H1 H2] _. split; [done|]. intros Hi e p He Hp. rewrite (H2 e p He Hp). by apply Hi; [apply H1|]. Qed.

Lemma same_keeps c c' : index c' = index c -> blobs c' = blobs c -> keeps c c'.
Proof. intros Hi Hb. apply safe_keeps. unfold safe. by rewrite Hi, Hb. Qed.

Lemma fewer_keeps c i : (forall e, e ∈ view i -> e ∈ view (index c)) -> keeps c (with_index c i).
Proof. intros H. apply safe_keeps. split; [done|]. by intros e p. Qed.

Lemma preserves_keeps {A} (m : Q A) c r c' : preserves computed m -> m c = (r, c') -> keeps c c'.
Proof. intros H E Hw. eapply safe_keeps; [|done]. by eapply H. Qed.

Lemma ignored_keeps {A} (m : Q A) c : preserves computed m -> keeps c (ignored m c).
Proof. intros H. unfold ignored. destruct (m c) as [r c'] eqn:E. by eapply preserves_keeps. Qed.

Lemma store_kept_release name : store_kept (@release I CX name).
Proof.
  intros c r c'. unfold release. destruct (partials c ≫= _); [apply store_kept_unlink|by intros [= <- <-]].
Qed.

Lemma preserves_release name : preserves computed (@release I CX name).
Proof. apply store_kept_preserves, store_kept_release. Qed.

Lemma preserves_discard_blob h : computed h -> preserves computed (@discard_blob_if_unreferenced I CI CX h).
Proof. apply preserves_discard, computed_paths. Qed.

Lemma drop_admission_same a c : index (drop_admission a c) = index c /\ blobs (drop_admission a c) = blobs c.
Proof. unfold drop_admission. by destruct (by_root c !! adm_root a). Qed.

Lemma drop_admission_keeps a c : keeps c (drop_admission a c).
Proof. apply same_keeps; apply drop_admission_same. Qed.

(** A blob is discarded without touching the index. *)
Lemma discard_same_index h c : index (ignored (discard_blob_if_unreferenced h) c) = index c.
Proof.
  unfold ignored, discard_blob_if_unreferenced, qbind, q_index.
  destruct (has_content_hash (index c) h) as [[]|]; [done| |done].
  unfold remove_physical_blob. destruct (sri_to_hex h); [|done]. destruct (remove_fails h); [done|].
  by destruct (physical_blob_path h).
Qed.

(** * Putting *)

(** The row a put writes. *)
Definition new_row (sk data : str) : CacheEntry :=
  {| key := sk; content_hash := sri data; size_bytes := Some (Z.of_nat (length data)) |}.

(** From [c] to [c'] the only row that may be new is that of [data] under [sk]. *)
Definition adds (sk data : str) c c' : Prop :=
  written c -> (forall e, e ∈ view (index c') -> e ∈ view (index c) \/ e = new_row sk data) /\ (intact c -> intact c').

Lemma keeps_adds sk data c c' : keeps c c' -> adds sk data c c'.
Proof. intros H Hw. destruct (H Hw) as [H1 H2]. split; auto. Qed.

Lemma adds_written sk data c c' : adds sk data c c' -> written c -> written c'.
Proof. intros H Hw e He. destruct (H Hw) as [H1 _]. destruct (H1 e He) as [He' | ->]; [by apply Hw|by exists data]. Qed.

Lemma adds_keeps sk data c1 c2 c3 : adds sk data c1 c2 -> keeps c2 c3 -> adds sk data c1 c3.
Proof. intros H K Hw. destruct (H Hw) as [H1 H2], (K (adds_written _ _ _ _ H Hw)) as [H3 H4]. split; auto. Qed.

Lemma keeps_then_adds sk data c1 c2 c3 : keeps c1 c2 -> adds sk data c2 c3 -> adds sk data c1 c3.
Proof.
  intros K H Hw. destruct (K Hw) as [H1 H2], (H (keeps_written _ _ K Hw)) as [H3 H4]. split; [|auto]. intros e [He|He]%H3; auto.
Qed.

Lemma sri_length data : Z.of_nat (length (bytes_of (sri data))) = Z.of_nat (length data).
Proof. by rewrite bytes_of_sri. Qed.

Lemma write_hash_keeps data c h c' :
  write_hash data c = Some (h, c') ->
  h = sri data /\ index c' = index c /\ keeps c c'
  /\ exists p, physical_blob_path (sri data) = Some p /\ blobs c' !! p = Some (Z.of_nat (length data)).
Proof.
  unfold write_hash. destruct (write_blob_fails (sri data)); [done|]. destruct (sri_path data) as [p Hp]. rewrite Hp.
  intros [= <- <-]. split_and!; [done|done| |].
  - intros Hw. split; [done|]. intros Hi e q He Hq. cbn. destruct (decide (p = q)) as [<- |Hne].
    + rewrite lookup_insert_eq. rewrite (computed_paths _ _ _ (Hw e He) (ex_intro _ data eq_refl) Hq Hp). by rewrite sri_length.
    + rewrite lookup_insert_ne by done. by apply Hi.
  - exists p. split; [done|]. cbn. by rewrite lookup_insert_eq.
Qed.

Lemma upsert_attempts_adds n now sk product data url ty c ok c' p :
  physical_blob_path (sri data) = Some p -> blobs c !! p = Some (Z.of_nat (length data)) ->
  upsert_attempts n now sk product (sri data) url ty (Some (Z.of_nat (length data))) c = (ok, c') ->
  adds sk data c c' /\ blobs c' = blobs c
  /\ if ok then new_row sk data ∈ view (index c') /\ forall e, e ∈ view (index c') -> key e = sk -> e = new_row sk data
     else forall e, e ∈ view (index c') -> e ∈ view (index c).
Proof.
  intros Hp. revert c. induction n as [|n IH]; intros c Hb; cbn [upsert_attempts].
  - intros [= <- <-]. by split; [apply keeps_adds|].
  - destruct (upsert _ _ _ _ _ _ _ (index c)) as [[] i] eqn:E.
    + intros [= <- <-]. pose proof (upsert_view _ _ _ _ _ _ _ _ _ E) as Hv. cbn. (split; [|split]); [|done|].
      * intros _. split; [intros e He; apply Hv in He as [-> |[He _]]; auto|]. intros Hi e q He Hq. cbn.
        apply Hv in He as [-> |[He _]]; [|by apply Hi]. cbn in Hq. rewrite Hq in Hp. injection Hp as ->. cbn.
        by rewrite sri_length.
      * split; [apply Hv; by left|]. intros e He. by apply Hv in He as [-> |[_ Hne]].
    + intros H. pose proof (upsert_failed _ _ _ _ _ _ _ _ _ E) as Hv. apply IH in H as (Ha & Hb' & H); [|done].
      split_and!; [|done|].
      * eapply keeps_then_adds; [|exact Ha]. apply fewer_keeps. intros e. apply Hv.
      * destruct ok; [done|]. intros e He. apply Hv. by apply H.
Qed.

Lemma probe_computed sk c e : written c -> probe_replaced_entry sk c = Some (Some e) -> computed (content_hash e).
Proof.
  intros Hw. unfold probe_replaced_entry. destruct (has_row sk (index c)) as [[]|]; [|done|done].
  intros H. apply get_row_some in H as [He _]. by apply Hw.
Qed.

(** The blob of the row that was replaced goes, when no row names it. *)
Lemma discard_previous_keeps sk c0 previous hash c :
  written c0 -> probe_replaced_entry sk c0 = Some previous ->
  let c' := match previous with
            | Some e => if negb (str_eqb (content_hash e) hash) then ignored (discard_blob_if_unreferenced (content_hash e)) c else c
            | None => c
            end in
  keeps c c' /\ index c' = index c.
Proof.
  intros Hw Hp. destruct previous as [e|]; [|done]. cbv zeta. destruct (negb _); [|done].
  split; [by eapply ignored_keeps, preserves_discard_blob, probe_computed|apply discard_same_index].
Qed.

(** What a put that answers [Ok] leaves: the row of its key is the one for its bytes. *)
Record stored (sk data : str) c : Prop := {
  stored_row : new_row sk data ∈ view (index c);
  stored_only e : e ∈ view (index c) -> key e = sk -> e = new_row sk data
}.

Lemma stored_same sk data c c' : index c' = index c -> stored sk data c -> stored sk data c'.
Proof. intros Hi [H1 H2]. by split; rewrite Hi. Qed.

Lemma commit_blob_spec now sk data ty product url name a c r c' :
  written c -> commit_blob now sk data ty product url name a c = (r, c') ->
  adds sk data c c' /\ forall h, r = Ok h -> h = sri data /\ stored sk data c'.
Proof.
  intros Hw. unfold commit_blob. destruct (probe_replaced_entry sk c) as [previous|] eqn:Epr.
  2: { intros [= <- <-]. split; [|done]. apply keeps_adds. etrans; [|apply drop_admission_keeps]. apply ignored_keeps, preserves_release. }
  destruct (write_hash data c) as [[h c1]|] eqn:Ew.
  2: { intros [= <- <-]. split; [|done]. apply keeps_adds. etrans; [|apply drop_admission_keeps]. apply ignored_keeps, preserves_release. }
  apply write_hash_keeps in Ew as (-> & _ & Hk1 & p & Hp & Hb).
  destruct (upsert_attempts _ _ _ _ _ _ _ _ c1) as [ok c2] eqn:Eu. eapply upsert_attempts_adds in Eu as (Ha & _ & Hok); [|exact Hp|done].
  pose proof (keeps_then_adds _ _ _ _ _ Hk1 Ha) as Hadd. destruct ok.
  - set (c3 := drop_admission a c2). assert (Hi3 : index c3 = index c2) by apply drop_admission_same.
    destruct (discard_previous_keeps sk c previous (sri data) c3 Hw Epr) as [Hk4 Hi4].
    match goal with |- match release name ?x with _ => _ end = _ -> _ => set (c4 := x) in * end.
    assert (Hst : stored sk data c4) by (split; rewrite Hi4, Hi3; apply Hok).
    assert (Hadd4 : adds sk data c c4) by (eapply adds_keeps; [|exact Hk4]; eapply adds_keeps; [exact Hadd|apply drop_admission_keeps]).
    destruct (release name c4) as [[u|e] c5] eqn:Er; intros [= <- <-];
      (split; [eapply adds_keeps; [exact Hadd4|]; eapply preserves_keeps; [apply preserves_release|exact Er]|]); [|done].
    intros h [= <-]. split; [done|]. eapply stored_same; [|exact Hst]. by apply store_kept_release in Er as [-> _].
  - intros [= <- <-]. split; [|done]. eapply adds_keeps; [exact Hadd|]. etrans; [|apply drop_admission_keeps].
    etrans; [|apply ignored_keeps, preserves_release]. apply ignored_keeps, preserves_discard_blob. by exists data.
Qed.

Lemma put_spec limits fuel now root owner k data ty product url name reserved c r c' :
  written c -> put_for_owner_with limits fuel now root owner k data ty product url name reserved c = (r, c') ->
  adds (scoped_key owner k) data c c' /\ forall h, r = Ok h -> h = sri data /\ stored (scoped_key owner k) data c'.
Proof.
  intros Hw. unfold put_for_owner_with. set (sk := scoped_key owner k).
  destruct (_ <? _); [intros [= <- <-]; split; [by apply keeps_adds|done]|].
  match goal with |- match ?m with _ => _ end = _ -> _ => destruct m as [[u|e] c1] eqn:E1 end;
    (assert (Hk1 : keeps c c1) by (destruct reserved; [by simplify_eq|eapply preserves_keeps; [apply preserves_reserve_at, computed_paths|exact E1]])).
  2: { intros [= <- <-]. split; [by apply keeps_adds|done]. }
  destruct (prepare_commit _ _ _ _ _ _ c1) as [[a|e] c2] eqn:E2;
    (assert (Hk2 : keeps c c2) by (etrans; [exact Hk1|]; eapply preserves_keeps; [apply preserves_prepare_commit, computed_paths|exact E2])).
  - intros [Ha Hr]%commit_blob_spec; [|by eapply keeps_written]. split; [by eapply keeps_then_adds|done].
  - intros [= <- <-]. split; [|done]. apply keeps_adds. etrans; [exact Hk2|]. apply ignored_keeps, preserves_release.
Qed.

Lemma commit_streaming_spec now owner k data ty product url c r c' :
  written c -> commit_streaming_for_owner_locked now owner k data ty product url c = (r, c') ->
  adds (scoped_key owner k) data c c' /\
  forall h n, r = Ok (h, n) -> h = sri data /\ n = Z.of_nat (length data) /\ stored (scoped_key owner k) data c'.
Proof.
  intros Hw. unfold commit_streaming_for_owner_locked, upsert_sri_for_owner_unlocked. set (sk := scoped_key owner k).
  destruct (probe_replaced_entry sk c) as [previous|] eqn:Epr; [|intros [= <- <-]; split; [by apply keeps_adds|done]].
  destruct (write_hash data c) as [[h c1]|] eqn:Ew; [|intros [= <- <-]; split; [by apply keeps_adds|done]].
  apply write_hash_keeps in Ew as (-> & _ & Hk1 & p & Hp & Hb).
  assert (keeps c1 (ignored (discard_blob_if_unreferenced (sri data)) c1)) as Hd
    by (apply ignored_keeps, preserves_discard_blob; by exists data).
  destruct (_ <? _); [intros [= <- <-]; split; [|done]; apply keeps_adds; by etrans|].
  destruct (upsert_attempts _ _ _ _ _ _ _ _ c1) as [ok c2] eqn:Eu. eapply upsert_attempts_adds in Eu as (Ha & _ & Hok); [|exact Hp|done].
  pose proof (keeps_then_adds _ _ _ _ _ Hk1 Ha) as Hadd. destruct ok; intros [= <- <-].
  - destruct (discard_previous_keeps sk c previous (sri data) c2 Hw Epr) as [Hk Hi].
    split; [by eapply adds_keeps|]. intros h n [= <- <-]. split; [done|]. split; [done|]. split; rewrite Hi; apply Hok.
  - split; [|done]. eapply adds_keeps; [exact Hadd|]. apply ignored_keeps, preserves_discard_blob. by exists data.
Qed.

(** * Reading *)

Lemma read_loop_spec fuel limit body rest :
  (S (length rest) < fuel)%nat -> (length body <= limit)%nat ->
  read_loop fuel limit body rest = if (length body + length rest <=? limit)%nat then Some (body ++ rest) else None.
Proof.
  revert body rest. induction fuel as [|fuel IH]; intros body rest Hf Hb; [lia|]. cbn [read_loop].
  destruct (Nat.eqb_spec (limit - length body) 0).
  - destruct rest as [|x rest]; cbn [length]; [rewrite app_nil_r|]; case Nat.leb_spec; (done || lia).
  - destruct (Nat.eqb_spec (Nat.min (Nat.min (limit - length body) READ_CHUNK) (length rest)) 0) as [E|E].
    + assert (0 < READ_CHUNK)%nat by (apply Nat.ltb_lt; reflexivity). assert (length rest = 0%nat) as ->%nil_length_inv by lia. cbn [length]. rewrite app_nil_r.
      case Nat.leb_spec; (done || lia).
    + set (m := Nat.min (Nat.min (limit - length body) READ_CHUNK) (length rest)) in *.
      rewrite IH by (rewrite ?length_app, ?length_take, ?length_drop; lia).
      rewrite length_app, length_take, length_drop, <- app_assoc, take_drop.
      replace (length body + Nat.min m (length rest) + (length rest - m))%nat with (length body + length rest)%nat by lia. done.
Qed.

Lemma read_to_end_spec limit data :
  read_to_end_with_limit limit data = if (length data <=? limit)%nat then Some data else None.
Proof. unfold read_to_end_with_limit. rewrite read_loop_spec by (cbn; lia). done. Qed.

Lemma get_indexed_spec now ik limit c r c' :
  get_indexed_with_limit now ik limit c = (r, c') ->
  keeps c c' /\ forall d, r = Ok (Some d) -> holds c ik d /\ (length d <= limit)%nat.
Proof.
  unfold get_indexed_with_limit. destruct (get_row ik (index c)) as [[e|]|] eqn:E; [|by intros [= <- <-]..].
  apply get_row_some in E as [He Hk]. case_match; [by intros [= <- <-]|]. case_bool_decide; [by intros [= <- <-]|].
  destruct (sri_to_hex (content_hash e)); [|by intros [= <- <-]]. destruct (physical_blob_path _ ≫= _); [|by intros [= <- <-]].
  destruct (read_blob_fails _); [by intros [= <- <-]|]. rewrite read_to_end_spec.
  destruct (Nat.leb_spec (length (bytes_of (content_hash e))) limit); [|by intros [= <- <-]]. intros [= <- <-]. split.
  - apply fewer_keeps. intros x. apply touch_view.
  - intros d [= <-]. split; [|done]. by exists e.
Qed.

Lemma get_spec now owner k limit c r c' :
  written c -> get_with_limit_for_owner now owner k limit c = (r, c') ->
  keeps c c' /\ forall d, r = Ok (Some d) -> (holds c (scoped_key owner k) d \/ owner = Host /\ holds c k d) /\ (length d <= limit)%nat.
Proof.
  intros Hw. unfold get_with_limit_for_owner. destruct (get_indexed_with_limit now (scoped_key owner k) limit c) as [[[d|]|e] c1] eqn:E1;
    apply get_indexed_spec in E1 as [Hk1 H1].
  - intros [= <- <-]. split; [done|]. intros d' [= <-]. destruct (H1 d eq_refl). auto.
  - destruct (is_host owner) eqn:Eo; [|by intros [= <- <-]].
    destruct (has_row k (index c1)) as [[]|]; [|by intros [= <- <-]..]. intros [Hk2 H2]%get_indexed_spec.
    split; [by etrans|]. intros d Hd. destruct (H2 d Hd) as [(e & He & Hk & Hd') Hl]. split; [|done]. right.
    split; [by destruct owner|]. exists e. split; [by apply (Hk1 Hw)|done].
  - intros [= <- <-]. done.
Qed.

(** * Removing *)

Lemma delete_row_spec k c r c' :
  delete_row k c = (r, c') -> keeps c c' /\ (is_ok r = true -> forall e, e ∈ view (index c') -> key e <> k).
Proof.
  unfold delete_row. destruct (has_row k (index c)); [|by intros [= <- <-]].
  destruct (delete_key (index c) k) as [i|] eqn:E; intros [= <- <-]; [|done]. apply delete_key_view in E.
  assert (H : forall e, e ∈ view i <-> e ∈ view (index c) /\ key e <> k).
  { intros e. rewrite E, !list_elem_of_In, filter_In, negb_true_iff, <- not_true_iff_false, str_eqb_eq. done. }
  split; [apply fewer_keeps|intros _]; intros e He; by apply H in He as [? ?].
Qed.

Lemma discard_all_keeps hs c r c' : Forall computed hs -> q_each discard_blob_if_unreferenced hs c = (r, c') -> keeps c c'.
Proof.
  intros Hhs. apply preserves_keeps. induction Hhs as [|h hs Hh _ IH]; cbn [q_each]; [apply preserves_ret|].
  apply preserves_bind; [by apply preserves_discard_blob|done].
Qed.

Lemma hash_of_computed ik c hs : written c -> hash_of ik c = Some hs -> Forall computed hs.
Proof.
  intros Hw. unfold hash_of. destruct (get_row ik (index c)) as [[e|]|] eqn:E; intros [= <-]; [|constructor].
  apply get_row_some in E as [He _]. constructor; [by apply Hw|constructor].
Qed.

Lemma removed_hashes_computed sk k legacy c hs : written c -> removed_hashes sk k legacy c = Some hs -> Forall computed hs.
Proof.
  intros Hw. unfold removed_hashes. destruct (has_complete_lru_view _); [|intros [= <-]; constructor].
  destruct (hash_of sk c) as [h1|] eqn:E1; [|done]. cbn. destruct (if legacy then hash_of k c else Some []) as [h2|] eqn:E2; [|done].
  intros [= <-]. apply hash_of_computed in E1; [|done].
  assert (Forall computed h2) as H2 by (destruct legacy; [by eapply hash_of_computed|injection E2 as <-; constructor]).
  apply Forall_forall. intros h Hh. rewrite elem_of_remove_dups in Hh. rewrite Forall_forall in E1, H2. apply elem_of_app in Hh as [?|?]; auto.
Qed.

Lemma remove_spec owner k c r c' :
  written c -> remove_for_owner owner k c = (r, c') ->
  keeps c c' /\ (is_ok r = true -> forall e, e ∈ view (index c') -> key e <> scoped_key owner k /\ (owner = Host -> key e <> k)).
Proof.
  intros Hw. unfold remove_for_owner. set (sk := scoped_key owner k).
  match goal with |- match ?m with _ => _ end = _ -> _ => destruct m as [legacy|] eqn:El; [|by intros [= <- <-]] end.
  destruct (removed_hashes sk k legacy c) as [hashes|] eqn:Eh; [|by intros [= <- <-]]. apply removed_hashes_computed in Eh; [|done].
  destruct (delete_row sk c) as [[b|e] c1] eqn:E1; apply delete_row_spec in E1 as [Hk1 H1]; [|by intros [= <- <-]].
  match goal with |- match ?m with _ => _ end = _ -> _ => destruct m as [[b'|e] c2] eqn:E2 end;
    (assert (Hk2 : keeps c1 c2) by (destruct legacy; [by apply delete_row_spec in E2 as [? _]|by injection E2 as _ <-])).
  2: { intros [= <- <-]. split; [by etrans|done]. }
  pose proof (keeps_written _ _ Hk1 Hw) as Hw1. pose proof (keeps_written _ _ Hk2 Hw1) as Hw2.
  destruct (q_each _ hashes c2) as [[u|e] c3] eqn:E3; (apply discard_all_keeps in E3 as Hk3; [|done]); intros [= <- <-];
    (split; [etrans; [exact Hk1|etrans; [exact Hk2|exact Hk3]]|]); [|done]. intros _ e He. apply (Hk3 Hw2) in He.
  split; [by apply (H1 eq_refl), (Hk2 Hw1)|]. intros -> Hk. destruct legacy.
  - apply delete_row_spec in E2 as [_ H2]. by apply (H2 eq_refl e He).
  - cbn in El. apply (has_row_view (index c) k) in El. assert (false = true); [|done]. apply El. exists e. split; [|done].
    by apply (Hk1 Hw), (Hk2 Hw1).
Qed.

Lemma delete_matching_keeps pattern c r c' : delete_matching pattern c = (r, c') -> keeps c c'.
Proof.
  unfold delete_matching. destruct (delete_pattern pattern (index c)) as [[n i]|] eqn:E; intros [= <- <-]; [|done].
  apply fewer_keeps. by eapply delete_pattern_view.
Qed.

Lemma remove_by_pattern_keeps owner pattern c r c' : written c -> remove_by_pattern_for_owner owner pattern c = (r, c') -> keeps c c'.
Proof.
  intros Hw. unfold remove_by_pattern_for_owner. destruct (row_hashes (index c)) as [hs|] eqn:Eh; [|by intros [= <- <-]].
  assert (Forall computed (remove_dups hs)) as Hhs.
  { apply Forall_forall. intros h Hh. rewrite elem_of_remove_dups in Hh. apply (row_hashes_view _ _ Eh) in Hh as (e & He & <-). by apply Hw. }
  destruct (delete_matching (scoped_key owner pattern) c) as [[n|e] c1] eqn:E1; apply delete_matching_keeps in E1; [|by intros [= <- <-]].
  match goal with |- match ?m with _ => _ end = _ -> _ => destruct m as [[n'|e] c2] eqn:E2 end;
    (assert (Hk2 : keeps c1 c2) by (destruct (is_host owner); [by apply delete_matching_keeps in E2|by injection E2 as _ <-])).
  2: { intros [= <- <-]. by etrans. }
  destruct (q_each _ _ c2) as [[u|e] c3] eqn:E3; (apply discard_all_keeps in E3; [|done]); intros [= <- <-];
    (etrans; [exact E1|etrans; [exact Hk2|exact E3]]).
Qed.

Lemma clear_spec fails c r c' :
  clear_content fails c = (r, c') -> keeps c c' /\ (is_ok r = true -> view (index c') = []).
Proof.
  unfold clear_content. destruct (clear_rows (index c)) as [i|] eqn:E; [|by intros [= <- <-]]. apply clear_view in E.
  assert (forall c', index c' = i -> keeps c c') as H.
  { intros x Hx _. split; [intros e|intros _ e p]; rewrite Hx, E; intros He; by apply elem_of_nil in He. }
  destruct fails; intros [= <- <-]; (split; [by apply H|done]).
Qed.

(** * The cache as a map that may lose entries *)

(** The calls on one root, those of the quota's own maintenance included. *)
Inductive CacheOp :=
| OpPut (limits : CacheLimits) (fuel : nat) (now : Z) (root : str) (owner : CacheOwner) (k data : str) (ty : CacheType)
    (product url : option str) (name : str) (reserved : bool)
| OpCommit (now : Z) (owner : CacheOwner) (k data : str) (ty : CacheType) (product url : option str)
| OpGet (now : Z) (owner : CacheOwner) (k : str) (limit : nat)
| OpRemove (owner : CacheOwner) (k : str)
| OpRemovePattern (owner : CacheOwner) (pattern : str)
| OpClear (fails : bool)
| OpReserve (limits : CacheLimits) (fuel : nat) (owner : CacheOwner) (sk name : str) (target now : Z)
| OpMaintain (limits : CacheLimits) (fuel : nat) (now : Z).

(** The cache after a call, and whether it answered [Ok]. *)
Definition cache_step (op : CacheOp) c : bool * Cache I :=
  match op with
  | OpPut limits fuel now root owner k data ty product url name reserved =>
      let '(r, c') := put_for_owner_with limits fuel now root owner k data ty product url name reserved c in (is_ok r, c')
  | OpCommit now owner k data ty product url =>
      let '(r, c') := commit_streaming_for_owner_locked now owner k data ty product url c in (is_ok r, c')
  | OpGet now owner k limit => let '(r, c') := get_with_limit_for_owner now owner k limit c in (is_ok r, c')
  | OpRemove owner k => let '(r, c') := remove_for_owner owner k c in (is_ok r, c')
  | OpRemovePattern owner pattern => let '(r, c') := remove_by_pattern_for_owner owner pattern c in (is_ok r, c')
  | OpClear fails => let '(r, c') := clear_content fails c in (is_ok r, c')
  | OpReserve limits fuel owner sk name target now => let '(r, c') := reserve_at limits fuel owner sk name target now c in (is_ok r, c')
  | OpMaintain limits fuel now => let '(r, c') := maintain_at limits fuel now c in (is_ok r, c')
  end.

(** What a key may stand for after a call: a put that succeeded replaces, one that failed
    may have replaced, removing and clearing that succeeded forget. *)
Definition spec_step (op : CacheOp) (ok : bool) (m : str -> str -> Prop) (x d : str) : Prop :=
  match op with
  | OpPut _ _ _ _ owner k data _ _ _ _ _ | OpCommit _ owner k data _ _ _ =>
      if ok then x = scoped_key owner k /\ d = data \/ x <> scoped_key owner k /\ m x d
      else x = scoped_key owner k /\ d = data \/ m x d
  | OpRemove owner k => m x d /\ (ok = true -> x <> scoped_key owner k /\ (owner = Host -> x <> k))
  | OpClear _ => m x d /\ ok = false
  | _ => m x d
  end.

Lemma adds_holds sk data c c' x d : written c -> adds sk data c c' -> holds c' x d -> x = sk /\ d = data \/ holds c x d.
Proof.
  intros Hw Ha. destruct (Ha Hw) as [H _]. intros (e & He & <- & <-). destruct (H e He) as [He' | ->]; [right; by exists e|left]. cbn. by rewrite bytes_of_sri.
Qed.

Lemma keeps_holds c c' x d : written c -> keeps c c' -> holds c' x d -> holds c x d.
Proof. intros Hw K (e & He & Hk). destruct (K Hw) as [H _]. exists e. auto. Qed.

(** A write that replaces the row of its key, or may have. *)
Lemma adds_refines sk data c c' (ok : bool) (m : str -> str -> Prop) :
  written c -> (forall x d, holds c x d -> m x d) -> adds sk data c c' -> (ok = true -> stored sk data c') ->
  forall x d, holds c' x d ->
    if ok then x = sk /\ d = data \/ x <> sk /\ m x d else x = sk /\ d = data \/ m x d.
Proof.
  intros Hw Hm Ha Hst x d Hx. pose proof (adds_holds _ _ _ _ _ _ Hw Ha Hx) as Hc. destruct ok.
  - destruct Hx as (e & He & <- & <-). destruct (decide (key e = sk)) as [Hk|Hk].
    + left. split; [done|]. rewrite (stored_only _ _ _ (Hst eq_refl) e He Hk). cbn. apply bytes_of_sri.
    + right. split; [done|]. destruct Hc as [[? _]|Hc]; [done|auto].
  - destruct Hc as [?|Hc]; auto.
Qed.

Lemma cache_step_refines op c (m : str -> str -> Prop) :
  written c -> intact c -> (forall x d, holds c x d -> m x d) ->
  written (cache_step op c).2 /\ intact (cache_step op c).2 /\
  forall x d, holds (cache_step op c).2 x d -> spec_step op (cache_step op c).1 m x d.
Proof.
  intros Hw Hi Hm.
  assert (forall c', keeps c c' -> written c' /\ intact c' /\ forall x d, holds c' x d -> m x d) as Hkeeps.
  { intros c' Hk. split; [by eapply keeps_written|]. split; [by apply (Hk Hw)|]. intros x d Hx. by eapply Hm, keeps_holds. }
  destruct op as [limits fuel now root owner k data ty product url name reserved|now owner k data ty product url|now owner k limit|owner k
    |owner pattern|fails|limits fuel owner sk name target now|limits fuel now]; cbn [cache_step].
  - destruct (put_for_owner_with _ _ _ _ _ _ _ _ _ _ _ _ c) as [r c'] eqn:E. apply put_spec in E as [Ha Hr]; [|done].
    split; [by eapply adds_written|]. split; [by apply (Ha Hw)|]. eapply adds_refines; try done.
    destruct r as [h|e]; [|done]. intros _. by destruct (Hr h eq_refl).
  - destruct (commit_streaming_for_owner_locked _ _ _ _ _ _ _ c) as [r c'] eqn:E. apply commit_streaming_spec in E as [Ha Hr]; [|done].
    split; [by eapply adds_written|]. split; [by apply (Ha Hw)|]. eapply adds_refines; try done.
    destruct r as [[h n]|e]; [|done]. intros _. by destruct (Hr h n eq_refl) as (_ & _ & ?).
  - destruct (get_with_limit_for_owner now owner k limit c) as [r c'] eqn:E. apply get_spec in E as [Hk _]; [|done]. by apply Hkeeps.
  - destruct (remove_for_owner owner k c) as [r c'] eqn:E. apply remove_spec in E as [Hk Hr]; [|done].
    destruct (Hkeeps _ Hk) as (H1 & H2 & H3). split_and!; try done.
    intros x d Hx. split; [by apply H3|]. intros Hok. destruct Hx as (e & He & <- & _). by apply Hr.
  - destruct (remove_by_pattern_for_owner owner pattern c) as [r c'] eqn:E. apply remove_by_pattern_keeps in E as Hk; [|done]. by apply Hkeeps.
  - destruct (clear_content fails c) as [r c'] eqn:E. apply clear_spec in E as [Hk Hr]. destruct (Hkeeps _ Hk) as (H1 & H2 & H3).
    split_and!; try done. intros x d Hx. split; [by apply H3|]. cbn. destruct (is_ok r) eqn:Eo; [|done]. destruct Hx as (e & He & _).
    cbn [snd] in He. rewrite Hr in He by done. by apply elem_of_nil in He.
  - destruct (reserve_at limits fuel owner sk name target now c) as [r c'] eqn:E. apply Hkeeps.
    eapply preserves_keeps; [apply preserves_reserve_at, computed_paths|exact E].
  - destruct (maintain_at limits fuel now c) as [r c'] eqn:E. apply Hkeeps.
    eapply preserves_keeps; [apply preserves_maintain_at, computed_paths|exact E].
Qed.

(** A run of the cache beside what the keys may stand for. *)
Definition observe (s : Cache I * (str -> str -> Prop)) (op : CacheOp) : Cache I * (str -> str -> Prop) :=
  ((cache_step op s.1).2, spec_step op (cache_step op s.1).1 s.2).

Lemma observe_refines ops s :
  written s.1 -> intact s.1 -> (forall x d, holds s.1 x d -> s.2 x d) ->
  let s' := foldl observe s ops in written s'.1 /\ intact s'.1 /\ forall x d, holds s'.1 x d -> s'.2 x d.
Proof.
  revert s. induction ops as [|op ops IH]; intros s Hw Hi Hm; [done|]. cbn [foldl].
  apply IH; apply (cache_step_refines op s.1 s.2 Hw Hi Hm).
Qed.

(** C12: whatever calls are made on a cache whose index starts empty, buffered and
    streaming writes among them, one after the other,
    in whatever state its directory is, and however they fail, every row has its blob, and
    the cache is a map that may lose entries but never invents or confuses them: a read
    gives the bytes of the last successful write under the owner's key, or of a later write
    that failed half way, and gives nothing for a key that was removed or cleared since;
    a read of the host may also give what the bare key stands for, in the same sense. Different bytes are taken to have
    different SHA-256 digests. *)
Theorem cache_is_lossy_map c0 ops now owner k limit d :
  view (index c0) = [] ->
  let s := foldl observe (c0, fun _ _ => False) ops in
  intact s.1
  /\ ((get_with_limit_for_owner now owner k limit s.1).1 = Ok (Some d) ->
      (s.2 (scoped_key owner k) d \/ owner = Host /\ s.2 k d) /\ (length d <= limit)%nat).
Proof.
  intros H0 s. assert (Hnone : forall e, e ∈ view (index c0) -> False) by (intros e; rewrite H0; apply elem_of_nil).
  destruct (observe_refines ops (c0, fun _ _ => False)) as (Hw & Hi & Hs).
  { intros e He. by apply Hnone in He. }
  { intros e p He _. by apply Hnone in He. }
  { intros x y (e & He & _). by apply Hnone in He. }
  split; [exact Hi|]. destruct (get_with_limit_for_owner now owner k limit s.1) as [r c'] eqn:E.
  apply get_spec in E as [_ Hg]; [|exact Hw]. cbn. intros ->. destruct (Hg d eq_refl) as [[H|[-> H]] Hl]; auto.
Qed.

(** A put that answers gives the hash of its bytes, and a read that
    follows it, while the index and the disk can be read, gives exactly these bytes, or
    refuses when they are more than the limit of the read. *)
Theorem put_then_get limits fuel now root owner k data ty product url name reserved c h c' now' limit :
  written c -> intact c ->
  put_for_owner_with limits fuel now root owner k data ty product url name reserved c = (Ok h, c') ->
  get_row (scoped_key owner k) (index c') <> None -> read_blob_fails (sri data) = false ->
  h = sri data
  /\ (get_with_limit_for_owner now' owner k limit c').1 = if (length data <=? limit)%nat then Ok (Some data) else Err OverReadLimit.
Proof.
  intros Hw Hi Hput Hget Hread. apply put_spec in Hput as [Ha Hr]; [|done]. destruct (Hr h eq_refl) as [Hh Hst]. split; [done|].
  unfold get_with_limit_for_owner, get_indexed_with_limit.
  destruct (get_row (scoped_key owner k) (index c')) as [[e|]|] eqn:E; [| |done].
  2: { exfalso. by apply (get_row_none _ _ E _ (stored_row _ _ _ Hst)). }
  apply get_row_some in E as [He Hk]. pose proof (stored_only _ _ _ Hst e He Hk) as ->. cbn [new_row content_hash size_bytes].
  rewrite (proj2 (Z.leb_le 0 _)) by lia. cbn [andb].
  destruct (Nat.leb_spec (length data) limit) as [Hl|Hl].
  - destruct (Z.ltb_spec (Z.of_nat limit) (Z.of_nat (length data))); [lia|].
    rewrite bool_decide_eq_false_2 by apply sri_nonempty. destruct (sri_path data) as [p Hp].
    assert (exists x, sri_to_hex (sri data) = Some x) as [x ->] by (unfold physical_blob_path in Hp; destruct (sri_to_hex _); eauto; done).
    destruct (Ha Hw) as [_ Hb]. assert (physical_blob_path (sri data) ≫= (fun p => blobs c' !! p) = Some (Z.of_nat (length (bytes_of (sri data)))))
      as -> by (rewrite Hp; exact (Hb Hi _ p He Hp)).
    rewrite Hread, bytes_of_sri, read_to_end_spec.
    by rewrite (proj2 (Nat.leb_le _ _) Hl).
  - destruct (Z.ltb_spec (Z.of_nat limit) (Z.of_nat (length data))); [done|lia].
Qed.
End cache.

(** * The keys of an owner *)

Lemma scoped_key_app owner k t : scoped_key owner (k ++ t) = scoped_key owner k ++ t.
Proof. unfold scoped_key. destruct owner; by rewrite <- !app_assoc. Qed.

Lemma raw_key_of_spec owner prefix t :
  owner_sized owner -> raw_key_of owner prefix (scoped_key owner prefix ++ t) = Ok (prefix ++ t).
Proof.
  intros Ho. unfold raw_key_of. rewrite <- scoped_key_app, parse_scoped_key_spec by done.
  rewrite bool_decide_eq_true_2 by done. rewrite bool_decide_eq_true_2; [done|]. by eexists.
Qed.

Lemma raw_keys_of_spec owner prefix sks :
  owner_sized owner -> Forall (fun sk => scoped_key owner prefix `prefix_of` sk) sks ->
  exists ks, raw_keys_of owner prefix sks = Ok ks /\ map (scoped_key owner) ks = sks /\ Forall (fun k => prefix `prefix_of` k) ks.
Proof.
  intros Ho. induction 1 as [|sk sks [t ->] _ (ks & IH & Hm & Hf)]; cbn [raw_keys_of]; [by exists []|].
  rewrite raw_key_of_spec, IH by done. eexists. split; [done|]. split; [cbn; by rewrite Hm, scoped_key_app|].
  constructor; [by eexists|done].
Qed.

Lemma raw_keys_ok owner prefix sks ks :
  raw_keys_of owner prefix sks = Ok ks <-> Forall2 (fun sk k => raw_key_of owner prefix sk = Ok k) sks ks.
Proof.
  revert ks. induction sks as [|sk sks IH]; intros ks; cbn [raw_keys_of].
  - split; [intros [= <-]; constructor|]. by intros ->%Forall2_nil_inv_l.
  - destruct (raw_key_of owner prefix sk) as [k|e] eqn:E.
    + destruct (raw_keys_of owner prefix sks) as [ks'|e]; split.
      * intros [= <-]. constructor; [done|]. by apply IH.
      * intros (k' & ks2 & Hk & H%IH & ->)%Forall2_cons_inv_l. congruence.
      * done.
      * intros (k' & ks2 & Hk & H%IH & ->)%Forall2_cons_inv_l. congruence.
    + split; [done|]. intros (k' & ks2 & Hk & H & ->)%Forall2_cons_inv_l. congruence.
Qed.

(** Taking a window of the scoped keys is taking it of the raw ones. *)
Lemma raw_keys_window owner prefix sks ks n m :
  raw_keys_of owner prefix sks = Ok ks -> raw_keys_of owner prefix (take n (drop m sks)) = Ok (take n (drop m ks)).
Proof. rewrite !raw_keys_ok. intros H. by apply Forall2_take, Forall2_drop. Qed.

(** What a pattern begins with before its first star is what the key begins with. *)
Lemma glob_literal p rest k :
  "*"%char ∉ p -> glob (p ++ rest) k -> exists q t, k = q ++ t /\ map ascii_lower q = map ascii_lower p.
Proof.
  revert k. induction p as [|c p IH]; intros k Hs H; [by exists [], k|]. cbn [app] in H. rewrite not_elem_of_cons in Hs. destruct Hs as [Hc Hs].
  inversion H; subst; try congruence. destruct (IH k0) as (q & t & -> & E); [done..|]. exists (d :: q), t. split; [done|]. cbn. by f_equal.
Qed.

Lemma lower_digits s : Forall (fun d => is_digit d = true) s -> map ascii_lower s = s.
Proof.
  induction 1 as [|d s Hd _ IH]; [done|]. cbn [map]. rewrite IH. f_equal. unfold is_digit, ascii_lower in *.
  destruct d as [[] [] [] [] [] [] [] []]; (done || discriminate Hd).
Qed.

(** Two strings of digits up to a colon. *)
Lemma digits_colon a b x y :
  Forall (fun d => is_digit d = true) a -> Forall (fun d => is_digit d = true) b -> a ++ ":"%char :: x = b ++ ":"%char :: y -> a = b /\ x = y.
Proof.
  intros Ha. revert b. induction Ha as [|d a Hd Ha IH]; intros [|d' b] Hb E; cbn in E.
  - by injection E as ->.
  - injection E as <- _. apply Forall_cons in Hb as [Hb _]. discriminate Hb.
  - injection E as -> _. discriminate Hd.
  - injection E as -> E. apply Forall_cons in Hb as [_ Hb]. by destruct (IH b Hb E) as [-> ->].
Qed.

Lemma digits_no_star s : Forall (fun d => is_digit d = true) s -> "*"%char ∉ s.
Proof. intros H Hs. rewrite Forall_forall in H. discriminate (H _ Hs). Qed.

Lemma digits_of_decimal n : Forall (fun d => is_digit d = true) (decimal n).
Proof. destruct (decimal_spec n) as (c & ds & E & H & _). rewrite E. exact H. Qed.

Lemma lower_plugin_scope id rest :
  map ascii_lower (scoped_key (Plugin id) rest)
  = SCOPED_KEY_PREFIX ++ §"p:" ++ decimal (N.of_nat (length id)) ++ ":"%char :: map ascii_lower id ++ ":"%char :: map ascii_lower rest.
Proof. unfold scoped_key. rewrite !map_app, (lower_digits (decimal _)) by apply digits_of_decimal. done. Qed.

(** A plugin of that id, up to the case of ASCII letters. *)
Definition same_plugin (id : str) (o : CacheOwner) : Prop := exists id', o = Plugin id' /\ map ascii_lower id' = map ascii_lower id.

(** A pattern in a plugin's scope matches keys of plugins of that id only, up to case. *)
Lemma glob_scoped id pattern o k :
  "*"%char ∉ id -> owner_sized (Plugin id) -> owner_sized o -> glob (scoped_key (Plugin id) pattern) (scoped_key o k) ->
  same_plugin id o.
Proof.
  intros Hid Hn Ho Hg. rewrite <- (app_nil_l pattern), scoped_key_app in Hg.
  apply glob_literal in Hg as (q & t & E & Hq).
  2: { unfold scoped_key. rewrite !not_elem_of_app. pose proof (digits_no_star _ (digits_of_decimal (N.of_nat (length id)))).
       split_and!; try done; apply (bool_decide_unpack _); by vm_compute. }
  apply (f_equal (map ascii_lower)) in E. rewrite map_app, Hq, lower_plugin_scope in E. cbn [map] in E. rewrite <- !app_assoc in E.
  destruct o as [|id'].
  - unfold scoped_key in E. rewrite map_app in E. change (map ascii_lower SCOPED_KEY_PREFIX) with SCOPED_KEY_PREFIX in E.
    apply app_inv_head in E. rewrite map_app in E. discriminate E.
  - rewrite lower_plugin_scope in E. do 2 apply app_inv_head in E. cbn [app] in E.
    rewrite <- app_assoc in E. cbn [app] in E.
    apply digits_colon in E as [Hd E]; [|apply digits_of_decimal..]. apply decimal_inj in Hd; [|cbn in Ho, Hn; lia..].
    exists id'. split; [done|]. apply app_inj_1 in E as [E _]; [done|]. rewrite !length_map. lia.
Qed.

Section table.
Context {SQ : Sqlite} {CX : CacheExternals} {B : Blobs}.
Implicit Types c : Cache Table.

(** The keys of [owner] that begin with [prefix] in rows of a type. *)
Definition owned_keys (owner : CacheOwner) (prefix : str) (ty : CacheType) (rs : list Row) : list str :=
  map row_key (List.filter (fun r => bool_decide (scoped_key owner prefix `prefix_of` row_key r)
                                     && str_eqb (row_type r) (cache_type_as_str ty)) rs).

Lemma under_prefix_owned owner prefix ty upper rs :
  utf8_valid (scoped_key owner prefix) = true -> Forall (fun r => utf8_valid (row_key r) = true) rs ->
  prefix_exclusive_upper_bound (scoped_key owner prefix) = Some upper ->
  map row_key (List.filter (under_prefix (scoped_key owner prefix) upper ty) rs) = owned_keys owner prefix ty rs.
Proof.
  intros Hp Hrs Hu. unfold owned_keys. f_equal. apply List.filter_ext_in. intros r Hr. unfold under_prefix. f_equal.
  rewrite Forall_forall in Hrs. apply eq_bool_prop_intro. rewrite bool_decide_spec.
  rewrite Is_true_true. apply prefix_range_is_prefix; [done|by apply Hrs, list_elem_of_In|done].
Qed.

Lemma bump_last_total l ch : ch ∈ l -> next_scalar (code_point ch) <> None -> exists cs, bump_last l = Some cs.
Proof.
  intros H Hn. induction l as [|x l IH]; [by apply elem_of_nil in H|]. cbn. destruct (next_scalar (code_point x)) eqn:E; [eauto|].
  apply elem_of_cons in H as [->|H]; [done|auto].
Qed.

(** A scoped key begins with a character that has a successor. *)
Lemma scoped_upper_bound owner prefix : exists upper, prefix_exclusive_upper_bound (scoped_key owner prefix) = Some upper.
Proof.
  unfold prefix_exclusive_upper_bound. destruct (bump_last_total (reverse (chars (scoped_key owner prefix))) ["001"%char]) as [cs ->]; [|done|eauto].
  rewrite elem_of_reverse. destruct owner; apply elem_of_cons; by left.
Qed.

Lemma sorted_map {A C : Type} (f : A -> C) (R : relation C) l : StronglySorted (fun a b => R (f a) (f b)) l -> StronglySorted R (map f l).
Proof. induction 1; cbn; constructor; [done|]. by apply Forall_map. Qed.

Lemma sorted_unmap {A C : Type} (f : A -> C) (R : relation C) (T : relation A) l :
  (forall a b, R (f a) (f b) -> T a b) -> StronglySorted R (map f l) -> StronglySorted T l.
Proof.
  intros HT. induction l as [|x l IH]; cbn; [constructor|]. intros [Hl Hx]%StronglySorted_inv. constructor; [auto|].
  rewrite Forall_map in Hx. eapply Forall_impl; [exact Hx|]. intros y. apply HT.
Qed.

(** A page of an owner's keys is never refused because of a key
    of somebody else's: the pages of any size are the windows of one list, the owner's
    keys that begin with the prefix, each as often as there are rows, in byte order, with
    the prefix of the scope taken off; and counting gives the length of that list. *)
Theorem owner_pages_partition owner prefix ty c :
  owner_sized owner -> utf8_valid (scoped_key owner prefix) = true ->
  Forall (fun r => utf8_valid (row_key r) = true) (rows (index c)) -> connected (index c) = true ->
  exists all,
    map (scoped_key owner) all ≡ₚ owned_keys owner prefix ty (rows (index c))
    /\ StronglySorted (fun a b => str_leb a b = true) all
    /\ Forall (fun k => prefix `prefix_of` k) all
    /\ count_keys_with_prefix_for_owner owner prefix ty c = Some (Z.of_nat (length all))
    /\ forall offset limit, 0 <= offset <= i64_max -> 0 <= limit <= i64_max ->
         list_keys_with_prefix_page_for_owner owner prefix ty offset limit c = Ok (take (Z.to_nat limit) (drop (Z.to_nat offset) all)).
Proof.
  intros Ho Hp Hrs Hc. destruct (scoped_upper_bound owner prefix) as [upper Hu].
  set (hits := List.filter (under_prefix (scoped_key owner prefix) upper ty) (rows (index c))).
  set (le := fun a b => str_leb (row_key a) (row_key b)).
  set (sks := map row_key (sort_by le hits)).
  assert (Hperm : sks ≡ₚ owned_keys owner prefix ty (rows (index c))).
  { unfold sks. rewrite sort_by_perm. rewrite <- (under_prefix_owned owner prefix ty upper) by done. done. }
  destruct (raw_keys_of_spec owner prefix sks Ho) as (all & Hraw & Hmap & Hpre).
  { rewrite Hperm. apply Forall_map. rewrite Forall_forall. intros r Hr%list_elem_of_In. apply filter_In in Hr as [_ Hr].
    apply andb_true_iff in Hr as [Hr _]. by apply bool_decide_eq_true in Hr. }
  exists all. split_and!.
  - by rewrite Hmap.
  - assert (Hs : StronglySorted (fun a b => str_leb a b = true) (map (scoped_key owner) all)).
    { rewrite Hmap. apply (sorted_map row_key (fun a b => str_leb a b = true)). apply sort_by_sorted; intros; [apply (str_le_total _ _)|].
      by eapply (str_le_trans _ _ _). }
    eapply sorted_unmap; [|exact Hs]. intros a b. cbv beta.
    change (str_leb (scoped_key owner ([] ++ a)) (scoped_key owner ([] ++ b)) = true -> str_leb a b = true).
    by rewrite !scoped_key_app, str_leb_app.
  - done.
  - unfold count_keys_with_prefix_for_owner. cbn. unfold with_conn, count_keys_with_prefix. rewrite Hc, Hu. cbn. fold hits. do 2 f_equal.
    apply (f_equal length) in Hmap. rewrite length_map in Hmap. rewrite Hmap. unfold sks. by rewrite length_map, sort_by_perm.
  - intros offset limit Ho1 Hl1. unfold list_keys_with_prefix_page_for_owner. cbn [keys_page table_rows]. unfold with_conn. rewrite Hc. cbn.
    unfold list_keys_with_prefix_page, page. destruct (Z.eqb_spec limit 0) as [->|]; [by rewrite take_0|].
    rewrite Hu. cbn [mbind option_bind]. destruct (Z.ltb_spec i64_max offset), (Z.ltb_spec i64_max limit); try lia. cbn [orb].
    fold hits. fold le. fold sks. change (raw_keys_of owner prefix (take (Z.to_nat limit) (drop (Z.to_nat offset) sks)) = Ok (take (Z.to_nat limit) (drop (Z.to_nat offset) all))).
    by apply raw_keys_window.
Qed.

Lemma discard_each_same hs c : index (q_each discard_blob_if_unreferenced hs c).2 = index c.
Proof.
  revert c. induction hs as [|h hs IH]; intros c; [done|]. cbn [q_each]. unfold qbind. 
  pose proof (discard_same_index h c) as H. unfold ignored in H.
  destruct (discard_blob_if_unreferenced h c) as [[u|e] c1]; cbn in H; [by rewrite IH|done].
Qed.

(** A pattern removal by a plugin, whatever the pattern and
    however it ends, leaves every row of the host and of every plugin whose id is not the
    same up to the case of ASCII letters. *)
Theorem pattern_stays_with_owner id pattern c r c' row o k :
  "*"%char ∉ id -> owner_sized (Plugin id) -> owner_sized o ->
  remove_by_pattern_for_owner (Plugin id) pattern c = (r, c') ->
  row ∈ rows (index c) -> row_key row = scoped_key o k ->
  ~ same_plugin id o ->
  row ∈ rows (index c').
Proof.
  intros Hid Hn Ho H Hrow Hk Hne. unfold remove_by_pattern_for_owner in H.
  destruct (row_hashes (index c)) as [hs|]; [|by injection H as _ <-].
  assert (Hkeep : row ∈ (delete_by_pattern (scoped_key (Plugin id) pattern) (rows (index c))).2).
  { apply pattern_rows. split; [done|]. rewrite Hk. intros Hg. apply Hne. by eapply glob_scoped. }
  unfold delete_matching in H. cbn [delete_pattern table_rows] in H. unfold with_conn in H.
  destruct (connected (index c)); [|by injection H as _ <-]. cbn [is_host] in H.
  match type of H with context [q_each _ ?l ?c1] => pose proof (discard_each_same l c1) as Hs; destruct (q_each discard_blob_if_unreferenced l c1) as [[u|e] c2] end;
    injection H as _ <-; cbn in Hs; rewrite Hs; exact Hkeep.
Qed.
End table.

(** * The queue of writes *)

Inductive QueueOp :=
| Enqueue (bytes : Z)      (** [acquire]; refused when the budget says so *)
| Dequeue (i : nat).       (** the permit of the [i]th write in the queue is dropped *)

(** The budget beside the writes that are in the queue. *)
Definition queue_step (s : QueueBudget * list Z) (op : QueueOp) : QueueBudget * list Z :=
  match op with
  | Enqueue n => match acquire n s.1 with Some b => (b, s.2 ++ [n]) | None => s end
  | Dequeue i => match s.2 !! i with Some n => (drop_queue_permit n s.1, delete i s.2) | None => s end
  end.

Record queue_ok (limit_items limit_bytes : Z) (s : QueueBudget * list Z) : Prop := {
  qo_max : max_items s.1 = limit_items /\ max_bytes s.1 = limit_bytes;
  qo_sizes : Forall (fun n => 0 <= n) s.2;
  qo_items : items s.1 = Z.of_nat (length s.2) /\ items s.1 <= limit_items;
  qo_bytes : queued_bytes s.1 = sumz s.2 /\ queued_bytes s.1 <= limit_bytes
}.

Lemma sumz_app l k : sumz (l ++ k) = sumz l + sumz k.
Proof. induction l as [|x l IH]; cbn; [done|]. unfold sumz in *. lia. Qed.

Lemma sumz_nonneg l : Forall (fun n => 0 <= n) l -> 0 <= sumz l.
Proof. induction 1 as [|x l Hx _ IH]; cbn; [done|]. unfold sumz in *. lia. Qed.

Lemma sumz_delete l i x : l !! i = Some x -> sumz l = x + sumz (delete i l).
Proof.
  intros H. transitivity (sumz (take i l ++ x :: drop (S i) l)); [by rewrite take_drop_middle|].
  rewrite delete_take_drop, !sumz_app. change (sumz (x :: drop (S i) l)) with (x + sumz (drop (S i) l)). lia.
Qed.

Lemma queue_step_ok li lb s op :
  lb < u64_max -> match op with Enqueue n => 0 <= n | Dequeue _ => True end ->
  queue_ok li lb s -> queue_ok li lb (queue_step s op).
Proof.
  destruct s as [b ws]. intros Hlb Hop [[Hm1 Hm2] Hs [Hi1 Hi2] [Hb1 Hb2]]. cbn [fst snd] in *. pose proof (sumz_nonneg _ Hs).
  destruct op as [n|i]; cbn [queue_step fst snd].
  - unfold acquire. destruct (Z.leb_spec (max_items b) (items b)) as [|H1]; [by split|].
    destruct (Z.ltb_spec (max_bytes b) (saturating_add (queued_bytes b) n)) as [|H2]; [by split|].
    unfold saturating_add in *. split; cbn; rewrite ?length_app, ?sumz_app; cbn; [done|apply Forall_app; auto|lia|unfold sumz in *; cbn; lia].
  - destruct (ws !! i) as [n|] eqn:E; [|by split]. pose proof (sumz_delete _ _ _ E). pose proof (length_delete ws i (mk_is_Some _ _ E)).
    pose proof (lookup_lt_Some _ _ _ E). assert (Forall (fun n => 0 <= n) (delete i ws)) as Hs' by (by apply Forall_delete).
    pose proof (sumz_nonneg _ Hs'). pose proof (Forall_lookup_1 _ _ _ _ Hs E). cbv beta in *.
    unfold drop_queue_permit, saturating_sub. split; cbn [items queued_bytes max_items max_bytes fst snd]; [done|done|lia|lia].
Qed.

(** Whatever writes are queued, refused and finished in whatever
    order, the counters are those of the writes in the queue and never above the budget,
    and when the queue is empty both are back at zero. *)
Theorem queue_within_budget limit_items limit_bytes ops :
  0 <= limit_items -> 0 <= limit_bytes < u64_max ->
  Forall (fun op => match op with Enqueue n => 0 <= n | Dequeue _ => True end) ops ->
  let s := foldl queue_step (mk_budget limit_items limit_bytes 0 0, []) ops in
  items s.1 = Z.of_nat (length s.2) /\ queued_bytes s.1 = sumz s.2
  /\ Z.of_nat (length s.2) <= limit_items /\ sumz s.2 <= limit_bytes
  /\ (s.2 = [] -> items s.1 = 0 /\ queued_bytes s.1 = 0).
Proof.
  intros Hi Hb Hops s. assert (Hok : queue_ok limit_items limit_bytes s).
  { unfold s. assert (H0 : queue_ok limit_items limit_bytes (mk_budget limit_items limit_bytes 0 0, [])) by (split; cbn; [done|constructor|lia..]).
    revert H0. generalize (mk_budget limit_items limit_bytes 0 0, @nil Z) as s0.
    induction Hops as [|op ops Hop _ IH]; intros s0 H0; [done|]. cbn [foldl]. apply IH. apply queue_step_ok; [lia|done|done]. }
  destruct Hok as [_ _ [H1 H2] [H3 H4]]. split_and!; try lia. intros E. rewrite H1, H3, E. done.
Qed.

(** * Witnesses *)

Module ContentCacheExample.
Import CacheTableExample.

#[local] Existing Instance CacheExample.externals.

(** The hash of bytes is the bytes themselves after a mark. *)
#[local] Instance blobs_inst : Blobs := {|
  sri d := §"sha-" ++ d;
  bytes_of h := drop 4 h;
  write_blob_fails _ := false;
  read_blob_fails _ := false
|}.

#[local] Instance blobs_lawful : LawfulBlobs.
Proof.
  split; [done|done| |by intros d d' [= ->]]. intros d. exists (sri d). split; [reflexivity|]. change (length (sri d)) with (4 + length d)%nat. lia.
Qed.

Definition empty : Cache Table :=
  {| index := mk_table [] true; blobs := ∅; partials := None; next_commit_id := 0; by_root := ∅ |}.

Definition put (owner : CacheOwner) (k data : str) : CacheOp :=
  OpPut CacheExample.limits 3 100 §"root" owner k data PluginData None None §"b.reservation" false.

(** A plugin replaces what it stored, and removes another key of its own. *)
Definition calls : list CacheOp :=
  [put (Plugin §"p") §"a" §"one"; put (Plugin §"q") §"a" §"other"; put (Plugin §"p") §"a" §"two";
   OpCommit 100 Host §"a" §"host" PluginData None None; put (Plugin §"p") §"b" §"gone"; OpRemove (Plugin §"p") §"b"; OpMaintain CacheExample.limits 3 100].

Definition after : Cache Table := (foldl observe (empty, fun _ _ => False) calls).1.

Example reads_back :
  (get_with_limit_for_owner 200 (Plugin §"p") §"a" 10 after).1 = Ok (Some §"two")
  /\ (get_with_limit_for_owner 200 (Plugin §"q") §"a" 10 after).1 = Ok (Some §"other")
  /\ (get_with_limit_for_owner 200 Host §"a" 10 after).1 = Ok (Some §"host")
  /\ (get_with_limit_for_owner 200 (Plugin §"p") §"a" 2 after).1 = Err OverReadLimit
  /\ (get_with_limit_for_owner 200 (Plugin §"p") §"b" 10 after).1 = Ok None.
Proof. vm_compute. auto. Qed.

Lemma cache_is_lossy_map_witness :
  intact after /\ (foldl observe (empty, fun _ _ => False) calls).2 (scoped_key (Plugin §"p") §"a") §"two".
Proof.
  destruct (cache_is_lossy_map empty calls 200 (Plugin §"p") §"a" 10 §"two") as [H1 H2]; [reflexivity|].
  split; [exact H1|]. destruct H2 as [[H|[E _]] _]; [vm_compute; reflexivity|exact H|discriminate E].
Defined.

Definition put_result := put_for_owner_with CacheExample.limits 3 100 §"root" (Plugin §"p") §"a" §"bytes" PluginData None None §"b.reservation" false empty.

Lemma put_then_get_witness :
  (get_with_limit_for_owner 200 (Plugin §"p") §"a" 8 put_result.2).1 = Ok (Some §"bytes").
Proof.
  refine (proj2 (put_then_get CacheExample.limits 3 100 §"root" (Plugin §"p") §"a" §"bytes" PluginData None None
    §"b.reservation" false empty (sri §"bytes") put_result.2 200 8 _ _ _ _ _)).
  - intros e He. exfalso. vm_compute in He. by apply elem_of_nil in He.
  - intros e p He. exfalso. vm_compute in He. by apply elem_of_nil in He.
  - vm_compute. reflexivity.
  - vm_compute. discriminate.
  - reflexivity.
Defined.

Lemma owner_pages_partition_witness :
  exists all, count_keys_with_prefix_for_owner (Plugin §"p") §"a" PluginData after = Some (Z.of_nat (length all))
    /\ list_keys_with_prefix_page_for_owner (Plugin §"p") §"a" PluginData 0 5 after = Ok (take 5 (drop 0 all)).
Proof.
  destruct (owner_pages_partition (Plugin §"p") §"a" PluginData after) as (all & _ & _ & _ & Hc & Hl).
  - vm_compute. discriminate.
  - reflexivity.
  - apply Forall_forall. intros r Hr. vm_compute in Hr.
    repeat (apply elem_of_cons in Hr as [-> |Hr]; [vm_compute; reflexivity|]). by apply elem_of_nil in Hr.
  - vm_compute. reflexivity.
  - exists all. split; [exact Hc|]. apply (Hl 0 5); vm_compute; split; discriminate.
Defined.

Definition host_row : Row := mk_row 1 (scoped_key Host §"kept") None §"sha-x" None §"cover" 0 None None.
Definition plugin_row : Row := mk_row 2 (scoped_key (Plugin §"p") §"k") None §"sha-y" None §"cover" 0 None None.
Definition two : Cache Table :=
  {| index := mk_table [host_row; plugin_row] true; blobs := ∅; partials := None; next_commit_id := 0; by_root := ∅ |}.

Lemma pattern_stays_with_owner_witness :
  host_row ∈ rows (index (remove_by_pattern_for_owner (Plugin §"p") §"*" two).2)
  /\ map row_key (rows (index (remove_by_pattern_for_owner (Plugin §"p") §"*" two).2)) = [scoped_key Host §"kept"].
Proof.
  split; [|vm_compute; reflexivity].
  destruct (remove_by_pattern_for_owner (Plugin §"p") §"*" two) as [r c'] eqn:E.
  apply (pattern_stays_with_owner §"p" §"*" two r c' host_row Host §"kept").
  - apply (bool_decide_unpack _). by vm_compute.
  - vm_compute. discriminate.
  - exact I.
  - exact E.
  - left.
  - reflexivity.
  - intros (id' & H & _). discriminate H.
Defined.

(** The host's own pattern is applied to the bare keys as well, where the rows of every
    plugin are: a star removes them all. *)
Example host_pattern_reaches_plugins :
  rows (index (remove_by_pattern_for_owner Host §"*" two).2) = []
  /\ (remove_by_pattern_for_owner Host §"*" two).1 = Ok 2.
Proof. vm_compute. auto. Qed.

Lemma queue_within_budget_witness :
  let s := foldl queue_step (mk_budget 2 10 0 0, []) [Enqueue 4; Enqueue 7; Enqueue 6; Dequeue 0; Enqueue 4] in
  s.2 = [6; 4] /\ items s.1 = 2 /\ queued_bytes s.1 = 10.
Proof.
  split; [reflexivity|]. destruct (queue_within_budget 2 10 [Enqueue 4; Enqueue 7; Enqueue 6; Dequeue 0; Enqueue 4]) as (H1 & H2 & _).
  - lia.
  - vm_compute. split; [discriminate|reflexivity].
  - repeat constructor; discriminate.
  - split; [exact H1|exact H2].
Defined.
End ContentCacheExample.
