(* ===== verification/Merkle.v ===== *)
(** The Merkle tree of a folder's checksums ([crates/checksum/src/merkle.rs],
    with the data of [algorithm.rs] and [hasher.rs]): path normalisation, the
    versioned encodings of leaves and inner nodes, construction, inclusion
    proofs and the root-only serialisation. *)

From stdpp Require Import base tactics option list strings sorting.
From Stdlib Require Import ZArith Lia Ascii.
From S2P Require Import Prelude Text.
Local Open Scope Z_scope.

#[local] Arguments String.list_ascii_of_string : simpl never.

(** ** Algorithms and hashes *)

Inductive Algorithm := Crc32 | XxHash | Sha256.

#[export] Instance Algorithm_eq_dec : EqDecision Algorithm.
Proof. solve_decision. Defined.

Definition output_size (a : Algorithm) : nat :=
  match a with Crc32 => 4 | XxHash => 8 | Sha256 => 32 end.

Record Hash := mk_hash { algorithm : Algorithm; bytes : str }.

#[export] Instance Hash_eq_dec : EqDecision Hash.
Proof. solve_decision. Defined.

Record FileHashResult := {
  relative_path : str;
  hash : Hash;
  size : Z
}.

(** The three digests come from other crates ([crc32fast], [xxhash_rust] and
    [sha2]). *)
Class Digests := {
  crc32_digest : str -> Z;
  xxh3_64 : str -> Z;
  sha256_digest : str -> str
}.

(** What the code relies on: a SHA-256 digest is thirty-two bytes. *)
Class DigestLaws (D : Digests) : Prop := {
  sha256_length : forall s, length (sha256_digest s) = 32%nat
}.

(** ** Fixed-width little-endian integers *)

Definition byte_of (z : Z) : ascii := ascii_of_N (Z.to_N (z mod 256)).

(** [to_le_bytes] of an [n]-byte integer. *)
Fixpoint to_le_bytes (n : nat) (z : Z) : str :=
  match n with
  | O => []
  | S n' => byte_of z :: to_le_bytes n' (z / 256)
  end.

Fixpoint from_le_bytes (s : str) : Z :=
  match s with
  | [] => 0
  | c :: s' => Z.of_N (code c) + 256 * from_le_bytes s'
  end.

(** ** Normalised paths *)

Inductive PathNamespace := Empty | Current | Relative | Rooted | Unc | DriveRelative | DriveRooted.

#[export] Instance PathNamespace_eq_dec : EqDecision PathNamespace.
Proof. solve_decision. Defined.

Definition namespace_tag (n : PathNamespace) : Z :=
  match n with
  | Empty => 0 | Current => 1 | Relative => 2 | Rooted => 3
  | Unc => 4 | DriveRelative => 5 | DriveRooted => 6
  end.

Record NormalizedPath := mk_path { namespace : PathNamespace; value : str }.

#[export] Instance NormalizedPath_eq_dec : EqDecision NormalizedPath.
Proof. solve_decision. Defined.

(** One turn of the loop of [normalize_components]. *)
Definition push_component (components : list str) (component : str) : list str :=
  if str_eqb component [] || str_eqb component §"." then components
  else if str_eqb component §".." then
    match last components with
    | Some previous =>
        if str_eqb previous §".." then components ++ [component] else removelast components
    | None => components ++ [component]
    end
  else components ++ [component].

Definition normalize_components (path : str) : str :=
  join §"/" (foldl push_component [] (split_on is_slash path)).

Definition normalize_unc_path (path : str) : str :=
  let components :=
    List.filter (fun c => negb (str_eqb c []) && negb (str_eqb c §".")) (split_on is_slash path) in
  let authority_length := Nat.min (length components) 2 in
  let authority := join §"/" (take authority_length components) in
  let tail := normalize_components (join §"/" (drop authority_length components)) in
  match str_eqb authority [], str_eqb tail [] with
  | true, _ => §"//"
  | false, true => §"//" ++ authority
  | false, false => §"//" ++ authority ++ §"/" ++ tail
  end.

Definition is_ascii_alphabetic (c : ascii) : bool :=
  (((65 <=? code c) && (code c <=? 90)) || ((97 <=? code c) && (code c <=? 122)))%N.

Definition has_drive_prefix (path : str) : bool :=
  match path with
  | b0 :: b1 :: _ => is_ascii_alphabetic b0 && ascii_eqb b1 ":"%char
  | _ => false
  end.

Definition normalize_drive_path (portable : str) : NormalizedPath :=
  let drive := take 2 portable in
  let remainder := drop 2 portable in
  let rooted := starts_with remainder §"/" in
  let normalized := normalize_components (trim_start_matches is_slash remainder) in
  if rooted then
    mk_path DriveRooted
      (if str_eqb normalized [] then drive ++ §"/" else drive ++ §"/" ++ normalized)
  else mk_path DriveRelative (drive ++ normalized).

Definition normalize_relative_path (path : str) : NormalizedPath :=
  if str_eqb path [] then mk_path Empty [] else
  let portable := slashes path in
  if has_drive_prefix portable then normalize_drive_path portable else
  if starts_with portable §"//" then
    mk_path Unc (normalize_unc_path (trim_start_matches is_slash portable))
  else if starts_with portable §"/" then
    let normalized := normalize_components (trim_start_matches is_slash portable) in
    mk_path Rooted (if str_eqb normalized [] then §"/" else §"/" ++ normalized)
  else
    let normalized := normalize_components portable in
    if str_eqb normalized [] then mk_path Current §"." else mk_path Relative normalized.

(** ** Encodings *)

Definition MERKLE_ENCODING_VERSION : Z := 2.
Definition LEAF_DOMAIN : str := §"arclain-merkle-leaf".
Definition NODE_DOMAIN : str := §"arclain-merkle-node".

Definition algorithm_tag (a : Algorithm) : Z :=
  match a with Crc32 => 0 | XxHash => 1 | Sha256 => 2 end.

Definition append_length_prefixed (encoded field : str) : str :=
  encoded ++ to_le_bytes 8 (Z.of_nat (length field)) ++ field.

Definition leaf_encoding (p : NormalizedPath) (file : FileHashResult) (a : Algorithm) : str :=
  let encoded := append_length_prefixed [] LEAF_DOMAIN in
  let encoded := encoded ++ [byte_of MERKLE_ENCODING_VERSION] in
  let encoded := encoded ++ [byte_of (algorithm_tag a)] in
  let encoded := encoded ++ [byte_of (namespace_tag (namespace p))] in
  let encoded := append_length_prefixed encoded (value p) in
  let encoded := encoded ++ to_le_bytes 8 (size file) in
  let encoded := encoded ++ [byte_of (algorithm_tag (algorithm (hash file)))] in
  append_length_prefixed encoded (bytes (hash file)).

Definition node_encoding (left right : Hash) (a : Algorithm) : str :=
  let encoded := append_length_prefixed [] NODE_DOMAIN in
  let encoded := encoded ++ [byte_of MERKLE_ENCODING_VERSION] in
  let encoded := encoded ++ [byte_of (algorithm_tag a)] in
  let encoded := encoded ++ [byte_of (algorithm_tag (algorithm left))] in
  let encoded := append_length_prefixed encoded (bytes left) in
  let encoded := encoded ++ [byte_of (algorithm_tag (algorithm right))] in
  append_length_prefixed encoded (bytes right).

(** ** The tree *)

Record MerkleTree := {
  root : Hash;
  nodes : list (list Hash);
  content_hashes : list Hash;
  file_paths : list str;
  file_count : Z;
  tree_algorithm : Algorithm
}.

Definition empty (a : Algorithm) : MerkleTree := {|
  root := mk_hash a []; nodes := []; content_hashes := []; file_paths := [];
  file_count := 0; tree_algorithm := a
|}.

(** An entry of the sorted index: the file an index names, with its path. *)
Definition entry := (FileHashResult * NormalizedPath)%type.

(** The comparison of [from_file_hashes]: path, namespace, size, algorithm and
    content hash, each only when the ones before it agree. *)
Definition entry_leb : entry -> entry -> bool :=
  then_with (fun e => value e.2) str_leb
 (then_with (fun e => namespace_tag (namespace e.2)) Z.leb
 (then_with (fun e => size e.1) Z.leb
 (then_with (fun e => algorithm_tag (algorithm (hash e.1))) Z.leb
  (fun a b => str_leb (bytes (hash a.1)) (bytes (hash b.1)))))).

Definition entry_le (a b : entry) : Prop := entry_leb a b = true.

#[export] Instance entry_le_dec : RelDecision entry_le.
Proof. intros a b. unfold entry_le. apply _. Defined.

Definition sorted_entries (files : list FileHashResult) : list entry :=
  stable_sort entry_le (map (fun f => (f, normalize_relative_path (relative_path f))) files).

Section tree.
Context {D : Digests}.

Definition hash_encoded (encoded : str) (a : Algorithm) : Hash :=
  mk_hash a
    match a with
    | Crc32 => to_le_bytes 4 (crc32_digest encoded)
    | XxHash => to_le_bytes 8 (xxh3_64 encoded)
    | Sha256 => sha256_digest encoded
    end.

Definition hash_leaf (p : NormalizedPath) (file : FileHashResult) (a : Algorithm) : Hash :=
  hash_encoded (leaf_encoding p file a) a.

Definition combine_hashes (left right : Hash) (a : Algorithm) : Hash :=
  hash_encoded (node_encoding left right a) a.

(** [chunks(2)], the odd node of the end combined with itself. *)
Fixpoint build_next_level (current : list Hash) (a : Algorithm) : list Hash :=
  match current with
  | [] => []
  | [l] => [combine_hashes l l a]
  | l :: r :: rest => combine_hashes l r a :: build_next_level rest a
  end.

(** The [while] loop: the levels from [level] on, while there is more than one
    node. A turn halves the level, so its length is fuel enough. *)
Fixpoint build_levels (fuel : nat) (level : list Hash) (a : Algorithm) : list (list Hash) :=
  match fuel with
  | O => [level]
  | S fuel' =>
      if (1 <? length level)%nat then level :: build_levels fuel' (build_next_level level a) a
      else [level]
  end.

Definition from_file_hashes (files : list FileHashResult) (a : Algorithm) : MerkleTree :=
  match files with
  | [] => empty a
  | _ =>
      let entries := sorted_entries files in
      let leaves := map (fun e => hash_leaf e.2 e.1 a) entries in
      let levels := build_levels (length leaves) leaves a in
      {| root := default (mk_hash a []) (last levels ≫= head);
         nodes := levels;
         content_hashes := map (fun e => hash e.1) entries;
         file_paths := map (fun e => value e.2) entries;
         file_count := Z.of_nat (length entries);
         tree_algorithm := a |}
  end.

End tree.

Definition root_hash (t : MerkleTree) : Hash := root t.
Definition depth (t : MerkleTree) : nat := length (nodes t).
Definition get_file_hash (t : MerkleTree) (index : nat) : option Hash := content_hashes t !! index.

Definition verify_file (t : MerkleTree) (file_index : nat) (h : Hash) : bool :=
  match get_file_hash t file_index with
  | Some stored => bool_decide (stored = h)
  | None => false
  end.

(** The loop of [get_proof] over the levels below the root. *)
Fixpoint proof_loop (levels : list (list Hash)) (index : nat) : list Hash :=
  match levels with
  | [] => []
  | level :: above =>
      let sibling_index := if Nat.even index then S index else pred index in
      match level !! sibling_index with
      | Some sibling => [sibling]
      | None => match level !! index with Some self_hash => [self_hash] | None => [] end
      end ++ proof_loop above (Nat.div2 index)
  end.

Definition get_proof (t : MerkleTree) (file_index : nat) : option (list Hash) :=
  if ((length (content_hashes t) <=? file_index) || (length (nodes t) =? 0))%nat then None
  else Some (proof_loop (removelast (nodes t)) file_index).

(** ** Serialisation *)

(** [as u32] keeps the low thirty-two bits, as [to_le_bytes] does. *)
Definition to_bytes (t : MerkleTree) : str :=
  [byte_of (algorithm_tag (tree_algorithm t))]
    ++ to_le_bytes 4 (file_count t)
    ++ to_le_bytes 4 (Z.of_nat (length (bytes (root t))))
    ++ bytes (root t).

Definition HEADER_LENGTH : nat := 9.

Definition algorithm_of_tag (tag : Z) : option Algorithm :=
  if tag =? 0 then Some Crc32 else if tag =? 1 then Some XxHash
  else if tag =? 2 then Some Sha256 else None.

Definition from_bytes (bs : str) : option MerkleTree :=
  if (length bs <? HEADER_LENGTH)%nat then None else
  let header := take HEADER_LENGTH bs in
  a ← algorithm_of_tag (from_le_bytes (take 1 header));
  let count := from_le_bytes (take 4 (drop 1 header)) in
  let hash_len := from_le_bytes (take 4 (drop 5 header)) in
  let expected_hash_len := if count =? 0 then 0 else Z.of_nat (output_size a) in
  if negb (hash_len =? expected_hash_len) then None else
  hash_end ← checked_add (Z.of_nat HEADER_LENGTH) hash_len;
  if negb (hash_end =? Z.of_nat (length bs)) then None else
  Some {| root := mk_hash a (drop HEADER_LENGTH bs);
          nodes := []; content_hashes := []; file_paths := [];
          file_count := count; tree_algorithm := a |}.
