(* ===== verification/MerkleProps.v ===== *)
(** What the Merkle tree promises: its root does not depend on the order of the
    files, binds every file's path, size and content hash up to a collision
    among the encodings of the trees at hand, is reached by every inclusion
    proof, and survives serialisation. *)

From stdpp Require Import base tactics option list strings sorting sets.
From Stdlib Require Import ZArith Lia Ascii.
From S2P Require Import Prelude Text Merkle.
Local Open Scope Z_scope.

#[local] Arguments String.list_ascii_of_string : simpl never.

(** ** Bytes *)

Lemma code_byte_of z : Z.of_N (code (byte_of z)) = z mod 256.
Proof.
  unfold code, byte_of. pose proof (Z.mod_pos_bound z 256).
  rewrite N_ascii_embedding; lia.
Qed.

Lemma byte_of_inj x y : 0 <= x < 256 -> 0 <= y < 256 -> byte_of x = byte_of y -> x = y.
Proof.
  intros Hx Hy H. apply (f_equal (fun c => Z.of_N (code c))) in H.
  rewrite !code_byte_of, !Z.mod_small in H; lia.
Qed.

Lemma byte_of_code c : byte_of (Z.of_N (code c)) = c.
Proof.
  apply code_inj. apply N2Z.inj. rewrite code_byte_of. apply Z.mod_small.
  unfold code. pose proof (N_ascii_bounded c). lia.
Qed.

Lemma length_to_le_bytes n z : length (to_le_bytes n z) = n.
Proof. revert z; induction n as [|n IH]; intros z; simpl; [done|by rewrite IH]. Qed.

Lemma from_le_bytes_range s : 0 <= from_le_bytes s < 256 ^ Z.of_nat (length s).
Proof.
  induction s as [|c s IH]; cbn [from_le_bytes length]; [lia|].
  rewrite Nat2Z.inj_succ, Z.pow_succ_r by lia.
  unfold code. pose proof (N_ascii_bounded c). lia.
Qed.

Lemma from_to_le_bytes n z : 0 <= z < 256 ^ Z.of_nat n -> from_le_bytes (to_le_bytes n z) = z.
Proof.
  revert z; induction n as [|n IH]; intros z Hz; cbn [to_le_bytes from_le_bytes]; [simpl in *; lia|].
  rewrite Nat2Z.inj_succ, Z.pow_succ_r in Hz by lia.
  rewrite code_byte_of, IH by (split; [apply Z.div_pos|apply Z.div_lt_upper_bound]; lia).
  pose proof (Z.div_mod z 256). lia.
Qed.

Lemma to_from_le_bytes s : to_le_bytes (length s) (from_le_bytes s) = s.
Proof.
  induction s as [|c s IH]; cbn [to_le_bytes from_le_bytes length]; [done|].
  assert (0 <= Z.of_N (code c) < 256) as Hc by (unfold code; pose proof (N_ascii_bounded c); lia).
  f_equal.
  - rewrite <-(byte_of_code c) at 2. unfold byte_of. f_equal. f_equal.
    by rewrite (Z.mul_comm 256), Z.mod_add by lia.
  - rewrite (Z.mul_comm 256), Z.div_add, Z.div_small, Z.add_0_l by lia. done.
Qed.

Lemma to_le_bytes_inj n x y :
  0 <= x < 256 ^ Z.of_nat n -> 0 <= y < 256 ^ Z.of_nat n ->
  to_le_bytes n x = to_le_bytes n y -> x = y.
Proof. intros Hx Hy H. apply (f_equal from_le_bytes) in H. by rewrite !from_to_le_bytes in H. Qed.

Lemma u64_range z : is_u64 z -> 0 <= z < 256 ^ Z.of_nat 8.
Proof. unfold is_u64, u64_max. change (256 ^ Z.of_nat 8) with 18446744073709551616. lia. Qed.

Lemma algorithm_tag_inj a b : algorithm_tag a = algorithm_tag b -> a = b.
Proof. by destruct a, b. Qed.

Lemma namespace_tag_inj a b : namespace_tag a = namespace_tag b -> a = b.
Proof. by destruct a, b. Qed.

Lemma byte_of_algorithm a b :
  byte_of (algorithm_tag a) = byte_of (algorithm_tag b) -> a = b.
Proof. intros H. apply algorithm_tag_inj, byte_of_inj; [by destruct a|by destruct b|done]. Qed.

Lemma byte_of_namespace a b :
  byte_of (namespace_tag a) = byte_of (namespace_tag b) -> a = b.
Proof. intros H. apply namespace_tag_inj, byte_of_inj; [by destruct a|by destruct b|done]. Qed.

(** ** The encodings are injective *)

(** A field whose length a [u64] can hold. *)
Definition fits (field : str) : Prop := Z.of_nat (length field) <= u64_max.

Lemma cons_inj {A : Type} (x y : A) s t : x :: s = y :: t -> x = y /\ s = t.
Proof. by intros [= -> ->]. Qed.

Lemma field_inj f1 f2 r1 r2 :
  fits f1 -> fits f2 ->
  append_length_prefixed [] f1 ++ r1 = append_length_prefixed [] f2 ++ r2 ->
  f1 = f2 /\ r1 = r2.
Proof.
  unfold append_length_prefixed. intros H1 H2 H. rewrite !app_nil_l, <-!app_assoc in H.
  apply app_inj_1 in H as [Hlen H]; [|by rewrite !length_to_le_bytes].
  apply to_le_bytes_inj in Hlen; [|apply u64_range; unfold is_u64, fits in *; lia..].
  apply app_inj_1 in H; [done|lia].
Qed.

Lemma append_field e f : append_length_prefixed e f = e ++ append_length_prefixed [] f.
Proof. done. Qed.

Lemma node_encoding_inj l r l' r' a :
  fits (bytes l) -> fits (bytes r) -> fits (bytes l') -> fits (bytes r') ->
  node_encoding l r a = node_encoding l' r' a -> l = l' /\ r = r'.
Proof.
  intros Fl Fr Fl' Fr' H. unfold node_encoding in H.
  rewrite !(append_field (_ ++ _)), <-!app_assoc in H. do 3 apply app_inv_head in H.
  apply cons_inj in H as [Hl H]. apply byte_of_algorithm in Hl.
  apply field_inj in H as [Hlb H]; [|done..].
  apply cons_inj in H as [Hr H]. apply byte_of_algorithm in Hr.
  rewrite <-(app_nil_r (append_length_prefixed [] (bytes r))),
          <-(app_nil_r (append_length_prefixed [] (bytes r'))) in H.
  apply field_inj in H as [Hrb _]; [|done..].
  destruct l, r, l', r'; simpl in *; by subst.
Qed.

(** What a leaf commits to. *)
Definition identity (e : entry) : NormalizedPath * Z * Hash := (e.2, size e.1, hash e.1).

(** The widths the program's types and memory give an entry. *)
Definition entry_fits (e : entry) : Prop :=
  is_u64 (size e.1) /\ fits (value e.2) /\ fits (bytes (hash e.1)).

Lemma leaf_encoding_inj (e1 e2 : entry) a :
  entry_fits e1 -> entry_fits e2 ->
  leaf_encoding e1.2 e1.1 a = leaf_encoding e2.2 e2.1 a -> identity e1 = identity e2.
Proof.
  intros (Hs1 & Hv1 & Hb1) (Hs2 & Hv2 & Hb2) H. unfold leaf_encoding in H.
  rewrite !(append_field (_ ++ _)), <-!app_assoc in H. do 3 apply app_inv_head in H.
  apply cons_inj in H as [Hn H]. apply byte_of_namespace in Hn.
  apply field_inj in H as [Hv H]; [|done..].
  apply app_inj_1 in H as [Hs H]; [|by rewrite !length_to_le_bytes].
  apply to_le_bytes_inj in Hs; [|by apply u64_range..].
  apply cons_inj in H as [Ha H]. apply byte_of_algorithm in Ha.
  rewrite <-(app_nil_r (append_length_prefixed [] (bytes (hash e1.1)))),
          <-(app_nil_r (append_length_prefixed [] (bytes (hash e2.1)))) in H.
  apply field_inj in H as [Hb _]; [|done..].
  unfold identity. destruct e1 as [[? [? ?] ?] [? ?]], e2 as [[? [? ?] ?] [? ?]]; simpl in *.
  by subst.
Qed.

(** ** The order of the entries *)

Create HintDb order.

(** [entry_leb] compares what the leaf commits to and nothing else. *)
Definition identity_leb : NormalizedPath * Z * Hash -> NormalizedPath * Z * Hash -> bool :=
  then_with (fun i => value i.1.1) str_leb
 (then_with (fun i => namespace_tag (namespace i.1.1)) Z.leb
 (then_with (fun i => i.1.2) Z.leb
 (then_with (fun i => algorithm_tag (algorithm i.2)) Z.leb
  (fun i j => str_leb (bytes i.2) (bytes j.2))))).

Definition identity_le i j : Prop := identity_leb i j = true.

Lemma entry_le_identity a b : entry_le a b <-> identity_le (identity a) (identity b).
Proof. done. Qed.

Lemma Zleb_trans x y z : (x <=? y) = true -> (y <=? z) = true -> (x <=? z) = true.
Proof. lia. Qed.
Lemma Zleb_antisymm x y : (x <=? y) = true -> (y <=? x) = true -> x = y.
Proof. lia. Qed.

Lemma str_leb_total x y : str_leb x y = true \/ str_leb y x = true.
Proof. apply (total str_le). Qed.
Lemma str_leb_trans x y z : str_leb x y = true -> str_leb y z = true -> str_leb x z = true.
Proof. apply (transitivity (R := str_le)). Qed.
Lemma str_leb_antisymm x y : str_leb x y = true -> str_leb y x = true -> x = y.
Proof. apply (anti_symm str_le). Qed.

#[local] Hint Resolve Zleb_total Zleb_trans Zleb_antisymm : order.
#[local] Hint Resolve str_leb_total str_leb_trans str_leb_antisymm : order.

#[local] Instance entry_le_total : Total entry_le.
Proof.
  intros a b. unfold entry_le, entry_leb.
  repeat (apply then_with_total; [auto with order|clear a b; intros a b]). auto with order.
Qed.

#[local] Instance entry_le_trans : Transitive entry_le.
Proof.
  intros a b c. unfold entry_le, entry_leb.
  do 4 (apply then_with_trans; [exact Zleb_trans || exact str_leb_trans
    |exact Zleb_antisymm || exact str_leb_antisymm|clear a b c; intros a b c]).
  apply str_leb_trans.
Qed.

#[local] Instance identity_le_antisymm : AntiSymm (=) identity_le.
Proof.
  intros [[[n v] s] [al bs]] [[[n' v'] s'] [al' bs']] H1 H2.
  unfold identity_le, identity_leb in *.
  repeat match goal with
  | H1 : then_with _ ?leb _ _ _ = true, H2 : then_with _ _ _ _ _ = true |- _ =>
      pose proof (then_with_antisymm _ leb _ ltac:(auto with order) _ _ H1 H2) as (? & ? & ?); clear H1 H2
  end; simpl in *.
  assert (bs = bs') by auto with order.
  assert (al = al') by (by apply algorithm_tag_inj).
  assert (n = n') by (by apply namespace_tag_inj). by subst.
Qed.

Lemma sorted_entries_perm files :
  sorted_entries files ≡ₚ map (fun f => (f, normalize_relative_path (relative_path f))) files.
Proof. apply stable_sort_perm. Qed.

(** What a file is to the tree. *)
Definition file_identity (f : FileHashResult) : NormalizedPath * Z * Hash :=
  (normalize_relative_path (relative_path f), size f, hash f).

(** Files of the same identities, in whatever order, have one sequence of
    commitments. *)
Lemma sorted_identities files files' :
  map file_identity files ≡ₚ map file_identity files' -> map identity (sorted_entries files) = map identity (sorted_entries files').
Proof.
  intros Hp. apply (StronglySorted_unique identity_le).
  - eapply StronglySorted_fmap; [|apply (stable_sort_sorted entry_le)]. done.
  - eapply StronglySorted_fmap; [|apply (stable_sort_sorted entry_le)]. done.
  - by rewrite !sorted_entries_perm, !map_map.
Qed.

Lemma map_respects {B : Type} (g : entry -> B) l l' :
  (forall e e', identity e = identity e' -> g e = g e') ->
  map identity l = map identity l' -> map g l = map g l'.
Proof.
  intros Hg. revert l'; induction l as [|e l IH]; intros [|e' l'] H; try discriminate H; [done|].
  cbn [map] in *. apply cons_inj in H as [He H]. by rewrite (Hg _ _ He), (IH _ H).
Qed.

Lemma lookup_map {A B : Type} (f : A -> B) l i x : l !! i = Some x -> map f l !! i = Some (f x).
Proof. revert i; induction l as [|y l IH]; intros [|i] H; simpl in *; [done..|congruence|auto]. Qed.

(** ** Levels *)

(** Induction over a list two elements at a time. *)
Lemma pair_ind {A : Type} (P : list A -> Prop) :
  P [] -> (forall x, P [x]) -> (forall x y l, P l -> P (x :: y :: l)) -> forall l, P l.
Proof.
  intros H0 H1 H2 l. cut (P l /\ forall x, P (x :: l)); [tauto|].
  induction l as [|y l [IH1 IH2]]; auto.
Qed.

(** The encodings a level's parents are the hashes of. *)
Fixpoint node_encodings (current : list Hash) (a : Algorithm) : list str :=
  match current with
  | [] => []
  | [l] => [node_encoding l l a]
  | l :: r :: rest => node_encoding l r a :: node_encodings rest a
  end.

Definition hash_fits (h : Hash) : Prop := fits (bytes h).

Lemma node_encodings_inj a l l' :
  length l = length l' -> Forall hash_fits l -> Forall hash_fits l' ->
  node_encodings l a = node_encodings l' a -> l = l'.
Proof.
  revert l'; induction l as [|x|x y l IH] using pair_ind; intros l' Hlen Hf Hf' H;
    destruct l' as [|x' [|y' l']]; try discriminate Hlen; [done| |];
    cbn [node_encodings] in H; apply cons_inj in H as [He H].
  - rewrite !Forall_singleton in *. by apply node_encoding_inj in He as [-> _].
  - rewrite !Forall_cons in *. destruct Hf as (? & ? & ?), Hf' as (? & ? & ?).
    apply node_encoding_inj in He as [-> ->]; [|done..].
    rewrite (IH l'); [done|by injection Hlen|done..].
Qed.

Section levels.
Context {D : Digests} {DL : DigestLaws D}.
Implicit Types (a : Algorithm) (l : list Hash).

Lemma hash_encoded_fits s a : hash_fits (hash_encoded s a).
Proof.
  unfold hash_fits, fits, u64_max. destruct a; cbn [bytes hash_encoded];
    rewrite ?length_to_le_bytes, ?sha256_length; lia.
Qed.

Lemma build_next_level_encodings l a :
  build_next_level l a = map (fun s => hash_encoded s a) (node_encodings l a).
Proof. induction l as [|x|x y l IH] using pair_ind; [done..|]. simpl. by rewrite IH. Qed.

Lemma length_build_next_level l a :
  length (build_next_level l a) = Nat.div2 (S (length l)).
Proof. induction l as [|x|x y l IH] using pair_ind; [done..|]. simpl in *. by rewrite IH. Qed.

Lemma build_levels_not_nil fuel l a : build_levels fuel l a <> [].
Proof. destruct fuel; simpl; [done|]. by destruct (1 <? length l)%nat. Qed.

Lemma build_levels_head fuel l a : head (build_levels fuel l a) = Some l.
Proof. destruct fuel; simpl; [done|]. by destruct (1 <? length l)%nat. Qed.

Lemma last_cons_not_nil {A : Type} (x : A) (l : list A) : l <> [] -> last (x :: l) = last l.
Proof. by destruct l. Qed.

Lemma removelast_cons_not_nil {A : Type} (x : A) (l : list A) : l <> [] -> removelast (x :: l) = x :: removelast l.
Proof. by destruct l. Qed.

(** The fuel of [from_file_hashes] is enough: the loop ends at one node. *)
Lemma build_levels_root fuel l a :
  l <> [] -> (length l <= fuel)%nat -> exists r, last (build_levels fuel l a) = Some [r].
Proof.
  revert l; induction fuel as [|fuel IH]; intros l Hl Hf; [destruct l; simpl in *; [done|lia]|].
  cbn [build_levels]. destruct (Nat.ltb_spec 1 (length l)) as [H|H].
  - rewrite last_cons_not_nil by apply build_levels_not_nil. apply IH.
    + intros E. apply (f_equal length) in E. rewrite length_build_next_level in E.
      destruct l as [|? [|? ?]]; simpl in *; lia || done.
    + rewrite length_build_next_level. destruct l as [|x [|y l]]; [simpl in *; lia..|].
      cbn [length] in *. change (S (Nat.div2 (S (length l))) <= fuel)%nat.
      pose proof (Nat.div2_decr (S (length l)) (length l) ltac:(lia)). lia.
  - destruct l as [|r [|? ?]]; simpl in *; [done|by exists r|lia].
Qed.

(** Equal hashes come from equal encodings, or two of them collide. *)
Definition collides a (E E' : list str) : Prop :=
  exists x y, x ∈ E /\ y ∈ E' /\ x <> y /\ hash_encoded x a = hash_encoded y a.

Lemma collides_mono a E1 E2 F1 F2 :
  E1 ⊆ F1 -> E2 ⊆ F2 -> collides a E1 E2 -> collides a F1 F2.
Proof. intros H1 H2 (x & y & ? & ? & ?). exists x, y. auto. Qed.

Lemma equal_hashes a E E' :
  map (fun s => hash_encoded s a) E = map (fun s => hash_encoded s a) E' ->
  E = E' \/ collides a E E'.
Proof.
  revert E'; induction E as [|x E IH]; intros [|y E'] H; try discriminate H; [by left|].
  cbn [map] in H. apply cons_inj in H as [Hh H].
  destruct (decide (x = y)) as [->|Hne].
  - destruct (IH _ H) as [->|Hc]; [by left|right].
    eapply collides_mono; [| |exact Hc]; set_solver.
  - right. exists x, y. split_and!; [left|left|done|done].
Qed.

Definition inner_encodings (levels : list (list Hash)) a : list str :=
  concat (map (fun level => node_encodings level a) (removelast levels)).

Lemma levels_bind fuel l l' a :
  length l = length l' -> Forall hash_fits l -> Forall hash_fits l' ->
  last (build_levels fuel l a) = last (build_levels fuel l' a) ->
  l = l' \/ collides a (inner_encodings (build_levels fuel l a) a)
                       (inner_encodings (build_levels fuel l' a) a).
Proof.
  revert l l'; induction fuel as [|fuel IH]; intros l l' Hlen Hf Hf' H; cbn [build_levels] in *;
    [left; by injection H|]. rewrite <-Hlen in *.
  destruct (1 <? length l)%nat; [|left; by injection H].
  rewrite !last_cons_not_nil in H by apply build_levels_not_nil.
  unfold inner_encodings. rewrite !removelast_cons_not_nil by apply build_levels_not_nil.
  cbn [map concat].
  apply IH in H as [H|Hc].
  - rewrite !build_next_level_encodings in H. apply equal_hashes in H as [H|Hc].
    + left. by eapply node_encodings_inj.
    + right. eapply collides_mono; [| |exact Hc]; set_solver.
  - right. eapply collides_mono; [| |exact Hc]; unfold inner_encodings; set_solver.
  - by rewrite !length_build_next_level, Hlen.
  - rewrite build_next_level_encodings. apply Forall_map, Forall_true. intros s. apply hash_encoded_fits.
  - rewrite build_next_level_encodings. apply Forall_map, Forall_true. intros s. apply hash_encoded_fits.
Qed.
End levels.

(** ** Inclusion proofs *)

Section proofs.
Context {D : Digests}.
Implicit Types (a : Algorithm) (l : list Hash).

(** What a verifier does with a proof: fold the siblings into the leaf, the
    parity of the position saying on which side. *)
Fixpoint recompute a (index : nat) (h : Hash) (proof : list Hash) : Hash :=
  match proof with
  | [] => h
  | s :: proof' =>
      recompute a (Nat.div2 index)
        (if Nat.even index then combine_hashes h s a else combine_hashes s h a) proof'
  end.

Definition sibling_index (index : nat) : nat :=
  if Nat.even index then S index else pred index.

Definition sibling l (index : nat) : list Hash :=
  match l !! sibling_index index with
  | Some s => [s]
  | None => match l !! index with Some h => [h] | None => [] end
  end.

Lemma proof_loop_cons l above i :
  proof_loop (l :: above) i = sibling l i ++ proof_loop above (Nat.div2 i).
Proof. done. Qed.

Lemma sibling_index_SS i : sibling_index (S (S i)) = S (S (sibling_index i)).
Proof. unfold sibling_index. cbn [Nat.even]. destruct (Nat.even i) eqn:E; [done|]. by destruct i. Qed.

Lemma next_level_lookup l a i h :
  l !! i = Some h ->
  exists s, sibling l i = [s] /\
    build_next_level l a !! Nat.div2 i
    = Some (if Nat.even i then combine_hashes h s a else combine_hashes s h a).
Proof.
  revert i; induction l as [|x|x y l IH] using pair_ind; intros i Hi; [done| |].
  - destruct i; [|done]. injection Hi as ->. by exists h.
  - destruct i as [|[|i]]; [injection Hi as ->; by exists y|injection Hi as ->; by exists x|].
    destruct (IH i Hi) as (s & Hs & Hn). exists s. split; [|exact Hn].
    unfold sibling in *. by rewrite sibling_index_SS.
Qed.

Lemma lookup_root l i h r : l !! i = Some h -> last [l] = Some [r] -> h = r.
Proof. intros Hi Hl. injection Hl as ->. destruct i; [by injection Hi|done]. Qed.

Lemma proof_reaches_root_inv fuel l a i h r :
  l !! i = Some h -> last (build_levels fuel l a) = Some [r] ->
  recompute a i h (proof_loop (removelast (build_levels fuel l a)) i) = r /\
  length (proof_loop (removelast (build_levels fuel l a)) i)
    = pred (length (build_levels fuel l a)).
Proof.
  revert l i h; induction fuel as [|fuel IH]; intros l i h Hi Hr;
    cbn [build_levels] in *; [by split; [eapply lookup_root|]|].
  destruct (1 <? length l)%nat; [|by split; [eapply lookup_root|]].
  rewrite last_cons_not_nil in Hr by apply build_levels_not_nil.
  rewrite removelast_cons_not_nil, proof_loop_cons by apply build_levels_not_nil.
  destruct (next_level_lookup l a i h Hi) as (s & -> & Hn). cbn [app recompute length].
  destruct (IH _ _ _ Hn Hr) as [-> ->].
  split; [done|]. destruct (build_levels fuel _ a) eqn:E; [by apply build_levels_not_nil in E|done].
Qed.
End proofs.

(** ** The tree *)

Section tree_props.
Context {D : Digests} {DL : DigestLaws D}.
Implicit Types (files : list FileHashResult) (a : Algorithm).

Definition leaves_of files a : list Hash :=
  map (fun e => hash_leaf e.2 e.1 a) (sorted_entries files).

(** Every encoding a tree hashes: its leaves' and its inner nodes'. *)
Definition tree_encodings files a : list str :=
  map (fun e => leaf_encoding e.2 e.1 a) (sorted_entries files)
    ++ inner_encodings (nodes (from_file_hashes files a)) a.

Lemma length_sorted_entries files : length (sorted_entries files) = length files.
Proof. by rewrite sorted_entries_perm, length_map. Qed.

Lemma length_leaves_of files a : length (leaves_of files a) = length files.
Proof. unfold leaves_of. by rewrite length_map, length_sorted_entries. Qed.

Lemma leaves_of_not_nil files a : files <> [] -> leaves_of files a <> [].
Proof.
  intros Hf E. apply (f_equal length) in E. rewrite length_leaves_of in E. by destruct files.
Qed.

Lemma nodes_of files a :
  files <> [] ->
  nodes (from_file_hashes files a) = build_levels (length files) (leaves_of files a) a.
Proof. intros Hf. rewrite <-(length_leaves_of files a). by destruct files. Qed.

Lemma last_nodes files a :
  files <> [] ->
  last (nodes (from_file_hashes files a)) = Some [root (from_file_hashes files a)].
Proof.
  intros Hf. destruct (build_levels_root (length files) (leaves_of files a) a) as (r & Hr);
    [by apply leaves_of_not_nil|by rewrite length_leaves_of|].
  rewrite <-nodes_of in Hr by done. rewrite Hr. do 2 f_equal.
  destruct files as [|f fs]; [done|]. cbn in *. by rewrite Hr.
Qed.

Lemma hash_leaf_respects a (e e' : entry) :
  identity e = identity e' -> hash_leaf e.2 e.1 a = hash_leaf e'.2 e'.1 a.
Proof. unfold identity, hash_leaf, leaf_encoding. intros [= -> -> ->]. done. Qed.

Lemma from_file_hashes_eq files a :
  files <> [] ->
  from_file_hashes files a =
    let levels := build_levels (length (leaves_of files a)) (leaves_of files a) a in
    {| root := default (mk_hash a []) (last levels ≫= head);
       nodes := levels;
       content_hashes := map (fun e => hash e.1) (sorted_entries files);
       file_paths := map (fun e => value e.2) (sorted_entries files);
       file_count := Z.of_nat (length (sorted_entries files));
       tree_algorithm := a |}.
Proof. by destruct files. Qed.

(** The whole tree, root, levels, content hashes and paths, is the
    same for any two listings of the same files: their order, the spelling of
    their paths and repeated paths make no difference. *)
Theorem root_ignores_file_order files files' a :
  map file_identity files ≡ₚ map file_identity files' ->
  from_file_hashes files a = from_file_hashes files' a.
Proof.
  intros Hp. pose proof (sorted_identities _ _ Hp) as Hid.
  assert (length files = length files') as Hlen
    by (apply Permutation_length in Hp; by rewrite !length_map in Hp).
  destruct files as [|f fs], files' as [|f' fs']; try discriminate Hlen; [done|].
  rewrite !from_file_hashes_eq by done.
  assert (leaves_of (f :: fs) a = leaves_of (f' :: fs') a) as ->
    by (apply map_respects; [apply hash_leaf_respects|exact Hid]).
  f_equal; [| |by rewrite !length_sorted_entries, Hlen];
    (apply map_respects; [|exact Hid]); unfold identity; congruence.
Qed.

(** The widths a file's fields have. *)
Definition file_fits (f : FileHashResult) : Prop :=
  is_u64 (size f) /\ fits (value (normalize_relative_path (relative_path f))) /\
  fits (bytes (hash f)).

Lemma sorted_entries_identities files :
  map identity (sorted_entries files) ≡ₚ map file_identity files.
Proof. by rewrite sorted_entries_perm, map_map. Qed.

Lemma sorted_entries_fit files :
  Forall file_fits files -> Forall entry_fits (sorted_entries files).
Proof. intros H. rewrite sorted_entries_perm. by apply Forall_map. Qed.

Lemma leaf_encodings_inj es es' a :
  Forall entry_fits es -> Forall entry_fits es' ->
  map (fun e : entry => leaf_encoding e.2 e.1 a) es = map (fun e : entry => leaf_encoding e.2 e.1 a) es' ->
  map identity es = map identity es'.
Proof.
  revert es'; induction es as [|e es IH]; intros [|e' es'] H H' E; try discriminate E; [done|].
  rewrite Forall_cons in H, H'. destruct H as [He H], H' as [He' H'].
  cbn [map] in *. apply cons_inj in E as [Ee E].
  by rewrite (leaf_encoding_inj _ _ _ He He' Ee), (IH _ H H' E).
Qed.

Lemma leaves_of_fit files a : Forall hash_fits (leaves_of files a).
Proof. apply Forall_map, Forall_true. intros e. apply hash_encoded_fits. Qed.

(** C23: Two trees of as many files, with paths and sizes that fit the fields they are encoded
    in, and with one root commit to the same files, path for path, size for size and content hash for content
    hash, or two different encodings that the two trees hash collide. *)
Theorem root_binds_files files files' a :
  Forall file_fits files -> Forall file_fits files' -> length files = length files' ->
  root_hash (from_file_hashes files a) = root_hash (from_file_hashes files' a) ->
  map file_identity files ≡ₚ map file_identity files' \/
  collides a (tree_encodings files a) (tree_encodings files' a).
Proof.
  intros Hf Hf' Hlen Hroot. destruct (decide (files = [])) as [->|Hne];
    [by destruct files'; [left|]|].
  assert (files' <> []) as Hne' by (by intros ->; destruct files).
  pose proof (last_nodes files a Hne) as Hl. pose proof (last_nodes files' a Hne') as Hl'.
  unfold root_hash in Hroot. rewrite Hroot, <-Hl' in Hl.
  rewrite !nodes_of, Hlen in Hl by done. unfold tree_encodings. rewrite !nodes_of by done.
  rewrite Hlen. apply levels_bind in Hl as [Hl|Hc];
    [|right; eapply collides_mono; [| |exact Hc]; set_solver
     |by rewrite !length_leaves_of|apply leaves_of_fit..].
  unfold leaves_of, hash_leaf in Hl.
  rewrite <-!(map_map (fun e : entry => leaf_encoding e.2 e.1 a) (fun s => hash_encoded s a)) in Hl.
  apply equal_hashes in Hl as [Hl|Hc];
    [|right; eapply collides_mono; [| |exact Hc]; set_solver].
  left. rewrite <-!sorted_entries_identities.
  by rewrite (leaf_encodings_inj _ _ a (sorted_entries_fit _ Hf) (sorted_entries_fit _ Hf') Hl).
Qed.

(** The tree has an inclusion proof for every file it
    holds, one sibling per level below the root, and folding it into the
    file's leaf gives the root. *)
Theorem proof_reaches_root files a i e :
  sorted_entries files !! i = Some e ->
  exists proof,
    get_proof (from_file_hashes files a) i = Some proof /\
    S (length proof) = depth (from_file_hashes files a) /\
    recompute a i (hash_leaf e.2 e.1 a) proof = root_hash (from_file_hashes files a).
Proof.
  intros Hi. assert (files <> []) as Hne by (by intros ->).
  pose proof (last_nodes files a Hne) as Hl. rewrite nodes_of in Hl by done.
  destruct (proof_reaches_root_inv _ (leaves_of files a) a i (hash_leaf e.2 e.1 a) _
    (lookup_map _ _ _ _ Hi) Hl) as [Hr Hn].
  pose proof (lookup_lt_Some _ _ _ Hi) as Hlt.
  exists (proof_loop (removelast (nodes (from_file_hashes files a))) i).
  unfold get_proof, depth. rewrite nodes_of by done.
  assert (content_hashes (from_file_hashes files a) = map (fun e => hash e.1) (sorted_entries files))
    as -> by (by rewrite from_file_hashes_eq).
  rewrite length_map. destruct (build_levels _ _ a) as [|lv lvs] eqn:E;
    [by apply build_levels_not_nil in E|].
  rewrite (proj2 (Nat.leb_gt _ _) Hlt). cbn [length Nat.eqb orb] in *.
  split_and!; [done|by rewrite Hn|exact Hr].
Qed.
End tree_props.

(** ** Serialisation *)

(** What the bytes keep of a tree. *)
Definition root_only (t : MerkleTree) : MerkleTree := {|
  root := root t; nodes := []; content_hashes := []; file_paths := [];
  file_count := file_count t; tree_algorithm := tree_algorithm t
|}.

(** A tree whose root is as long as its algorithm's output, empty for no file. *)
Definition root_sized (t : MerkleTree) : Prop :=
  0 <= file_count t < 2 ^ 32 /\ algorithm (root t) = tree_algorithm t /\
  length (bytes (root t)) = if file_count t =? 0 then 0%nat else output_size (tree_algorithm t).

Lemma algorithm_of_tag_spec a : algorithm_of_tag (algorithm_tag a) = Some a.
Proof. by destruct a. Qed.

Lemma algorithm_of_tag_inv z a : algorithm_of_tag z = Some a -> z = algorithm_tag a.
Proof.
  unfold algorithm_of_tag. destruct (Z.eqb_spec z 0) as [->|]; [by intros [= <-]|].
  destruct (Z.eqb_spec z 1) as [->|]; [by intros [= <-]|].
  by destruct (Z.eqb_spec z 2) as [->|]; [intros [= <-]|].
Qed.

(** The fields of the header of [x] followed by two four-byte integers. *)
Lemma header_fields (x : ascii) (u v r : str) :
  length u = 4%nat -> length v = 4%nat ->
  let h := take HEADER_LENGTH ([x] ++ u ++ v ++ r) in
  take 1 h = [x] /\ take 4 (drop 1 h) = u /\ take 4 (drop 5 h) = v /\
  drop HEADER_LENGTH ([x] ++ u ++ v ++ r) = r.
Proof.
  intros Hu Hv. destruct u as [|? [|? [|? [|? [|? ?]]]]]; try discriminate Hu.
  destruct v as [|? [|? [|? [|? [|? ?]]]]]; try discriminate Hv. done.
Qed.

(** Any string of at least nine bytes has those fields. *)
Lemma header_split (bs : str) :
  (HEADER_LENGTH <= length bs)%nat ->
  exists x u v r, bs = [x] ++ u ++ v ++ r /\ length u = 4%nat /\ length v = 4%nat.
Proof.
  intros H. unfold HEADER_LENGTH in H. destruct bs as [|x bs]; simpl in H; [lia|].
  exists x, (take 4 bs), (take 4 (drop 4 bs)), (drop 4 (drop 4 bs)).
  rewrite !take_drop. rewrite !length_take, length_drop. split; [done|lia].
Qed.

Lemma algorithm_byte a : from_le_bytes [byte_of (algorithm_tag a)] = algorithm_tag a.
Proof. by destruct a. Qed.

Lemma bytes_roundtrip_inv t :
  root_sized t -> from_bytes (to_bytes t) = Some (root_only t).
Proof.
  intros (Hc & Ha & Hlen). unfold from_bytes, to_bytes.
  set (u := to_le_bytes 4 (file_count t)).
  set (v := to_le_bytes 4 (Z.of_nat (length (bytes (root t))))).
  assert (length u = 4%nat) as Hu by apply length_to_le_bytes.
  assert (length v = 4%nat) as Hv by apply length_to_le_bytes.
  destruct (header_fields (byte_of (algorithm_tag (tree_algorithm t))) u v (bytes (root t)) Hu Hv)
    as (-> & -> & -> & ->).
  assert (length (bytes (root t)) <= 32)%nat as Hle
    by (rewrite Hlen; destruct (_ =? _); [|destruct (tree_algorithm t)]; simpl; lia).
  rewrite !length_app, Hu, Hv. cbn [length].
  replace (_ <? HEADER_LENGTH)%nat with false by (symmetry; apply Nat.ltb_ge; unfold HEADER_LENGTH; lia).
  rewrite algorithm_byte, algorithm_of_tag_spec. cbn [mbind option_bind].
  unfold u, v. rewrite !from_to_le_bytes by (change (256 ^ Z.of_nat 4) with (2 ^ 32); lia).
  replace (if file_count t =? 0 then 0 else _) with (Z.of_nat (length (bytes (root t))))
    by (rewrite Hlen; by destruct (file_count t =? 0)).
  rewrite Z.eqb_refl. clear Hlen. cbn [negb]. unfold checked_add, u64_max, HEADER_LENGTH.
  rewrite (proj2 (Z.leb_le _ _)) by lia. cbn [mbind option_bind].
  rewrite (proj2 (Z.eqb_eq _ _)) by lia. cbn [negb].
  unfold root_only. rewrite <-Ha at 1. by destruct (root t).
Qed.

Lemma from_bytes_inv bs t :
  from_bytes bs = Some t -> root_sized t /\ root_only t = t /\ to_bytes t = bs.
Proof.
  unfold from_bytes. destruct (Nat.ltb_spec (length bs) HEADER_LENGTH) as [|Hlen]; [done|].
  destruct (header_split bs Hlen) as (x & u & v & r & -> & Hu & Hv).
  destruct (header_fields x u v r Hu Hv) as (-> & -> & -> & ->).
  destruct (algorithm_of_tag _) as [a|] eqn:Ea; [|done]. cbn [mbind option_bind].
  apply algorithm_of_tag_inv in Ea.
  destruct (Z.eqb_spec (from_le_bytes v) (if from_le_bytes u =? 0 then 0 else Z.of_nat (output_size a)))
    as [Hv'|]; [|done]. cbn [negb].
  destruct (checked_add _ _) as [e|] eqn:Ec; [|done]. cbn [mbind option_bind].
  apply checked_add_some in Ec as [-> _].
  destruct (Z.eqb_spec (Z.of_nat HEADER_LENGTH + from_le_bytes v) (Z.of_nat (length ([x] ++ u ++ v ++ r))))
    as [He|]; [|done]. intros [= <-].
  rewrite !length_app, Hu, Hv in He. cbn [length] in He. unfold HEADER_LENGTH in He.
  assert (from_le_bytes v = Z.of_nat (length r)) as Hr by lia.
  pose proof (from_le_bytes_range u) as Hru. rewrite Hu in Hru.
  split_and!; [|done|].
  - split; [exact Hru|split; [done|]]. cbn. rewrite Hr in Hv'.
    destruct (from_le_bytes u =? 0); [|destruct a]; cbn in *; lia.
  - unfold to_bytes. cbn [root bytes file_count tree_algorithm]. rewrite <-Ea, <-Hr.
    rewrite <-Hu, to_from_le_bytes. rewrite Hu, <-Hv, to_from_le_bytes.
    cbn [from_le_bytes]. by rewrite Z.add_0_r, byte_of_code.
Qed.

Section serialisation.
Context {D : Digests} {DL : DigestLaws D}.

Lemma hash_encoded_size s a : length (bytes (hash_encoded s a)) = output_size a.
Proof. destruct a; cbn [hash_encoded bytes]; rewrite ?length_to_le_bytes, ?sha256_length; done. Qed.

Lemma last_levels_hashed fuel (l : list Hash) a r :
  (forall h, h ∈ l -> exists s, h = hash_encoded s a) ->
  last (build_levels fuel l a) = Some [r] -> exists s, r = hash_encoded s a.
Proof.
  revert l; induction fuel as [|fuel IH]; intros l Hl H; cbn [build_levels] in H;
    [injection H as ->; apply Hl; left|].
  destruct (1 <? length l)%nat; [|injection H as ->; apply Hl; left].
  rewrite last_cons_not_nil in H by apply build_levels_not_nil. eapply IH; [|exact H].
  intros h. rewrite build_next_level_encodings. intros (s & -> & _)%list_elem_of_fmap. by exists s.
Qed.

Lemma built_root_sized files a :
  (Z.of_nat (length files) < 2 ^ 32) -> root_sized (from_file_hashes files a).
Proof.
  intros Hn. destruct (decide (files = [])) as [->|Hne]; [done|].
  pose proof (last_nodes files a Hne) as Hl. rewrite nodes_of in Hl by done.
  apply last_levels_hashed in Hl as (s & Hs).
  2:{ intros h (e & -> & _)%list_elem_of_fmap. unfold hash_leaf. eauto. }
  unfold root_sized. rewrite Hs. rewrite hash_encoded_size, from_file_hashes_eq by done.
  cbn [file_count tree_algorithm algorithm hash_encoded].
  rewrite length_sorted_entries. split_and!; [lia|lia|done|].
  destruct files; [done|]. by replace (_ =? 0) with false by (simpl; lia).
Qed.

(** A built tree of fewer than 2^32 files is read back from
    its bytes as its root, count and algorithm; and whatever [from_bytes]
    accepts is the serialisation of what it returns, with a root as long as
    the algorithm's output, so truncated, padded or mis-sized input is refused. *)
Theorem bytes_roundtrip files a :
  Z.of_nat (length files) < 2 ^ 32 ->
  from_bytes (to_bytes (from_file_hashes files a)) = Some (root_only (from_file_hashes files a)) /\
  forall bs t, from_bytes bs = Some t -> root_sized t /\ root_only t = t /\ to_bytes t = bs.
Proof.
  intros Hn. split; [by apply bytes_roundtrip_inv, built_root_sized|]. intros bs t. apply from_bytes_inv.
Qed.
End serialisation.

(** ** Examples *)

Module MerkleExample.

(** Digests that keep low bytes: enough to run the definitions. *)
#[local] Instance low_bytes : Digests := {|
  crc32_digest s := from_le_bytes s mod 4294967291;
  xxh3_64 s := from_le_bytes s mod 18446744073709551557;
  sha256_digest s := to_le_bytes 32 (from_le_bytes s mod 2 ^ 255)
|}.

#[local] Instance low_bytes_laws : DigestLaws low_bytes.
Proof. split. intros s. apply length_to_le_bytes. Qed.

Definition file (p : str) (n : Z) : FileHashResult := {|
  relative_path := p; hash := mk_hash Crc32 (to_le_bytes 4 (17 * n)); size := n
|}.

Definition listing : list FileHashResult :=
  [file §"b.txt" 2; file §"folder\sub/.././a.txt" 1; file §"//server/share/../c.txt" 3].

Definition reordered : list FileHashResult :=
  [file §"\\server\share\..\c.txt" 3; file §"folder/a.txt" 1; file §"./b.txt" 2].

Lemma listing_fits : Forall file_fits listing /\ Forall file_fits reordered.
Proof.
  split; repeat constructor; unfold fits, u64_max; vm_compute; congruence.
Qed.

Lemma listing_paths :
  file_paths (from_file_hashes listing XxHash)
  = [§"//server/share/../c.txt"; §"b.txt"; §"folder/a.txt"].
Proof. vm_compute. reflexivity. Qed.

Lemma root_ignores_file_order_witness :
  from_file_hashes listing XxHash = from_file_hashes reordered XxHash.
Proof.
  apply root_ignores_file_order. change (map file_identity reordered)
    with (rev (map file_identity [file §"b.txt" 2; file §"folder/a.txt" 1; file §"//server/share/../c.txt" 3])).
  apply Permutation_rev.
Defined.

Lemma root_binds_files_witness :
  map file_identity listing ≡ₚ map file_identity reordered \/
  collides XxHash (tree_encodings listing XxHash) (tree_encodings reordered XxHash).
Proof.
  apply (root_binds_files listing reordered XxHash);
    [apply listing_fits|apply listing_fits|reflexivity|vm_compute; reflexivity].
Defined.

Lemma proof_reaches_root_witness :
  exists proof,
    get_proof (from_file_hashes listing Crc32) 2 = Some proof /\
    S (length proof) = depth (from_file_hashes listing Crc32) /\
    recompute Crc32 2
      (hash_leaf (mk_path Relative §"folder/a.txt") (file §"folder\sub/.././a.txt" 1) Crc32) proof
    = root_hash (from_file_hashes listing Crc32).
Proof.
  apply (proof_reaches_root listing Crc32 2
    (file §"folder\sub/.././a.txt" 1, mk_path Relative §"folder/a.txt")).
  vm_compute. reflexivity.
Defined.

Lemma bytes_roundtrip_witness :
  from_bytes (to_bytes (from_file_hashes listing Sha256))
  = Some (root_only (from_file_hashes listing Sha256)).
Proof. apply (bytes_roundtrip listing Sha256). reflexivity. Defined.

(** Why [root_binds_files] asks for as many files: the odd node of a level is
    combined with itself, so repeating the last file keeps the root. *)
Lemma root_needs_file_count :
  root_hash (from_file_hashes (listing ++ [file §"folder/a.txt" 1]) Sha256)
  = root_hash (from_file_hashes listing Sha256).
Proof. vm_compute. reflexivity. Qed.

End MerkleExample.
