(* ===== verification/RateLimiter.v ===== *)
(** The request rate limiter of the network crate
    ([crates/network/src/features/rate_limiting/limiter.rs]): per-scope queues
    of request times, pruned lazily and swept once per window, refining a
    limiter that keeps every request for ever and counts the ones in the
    window. *)

From stdpp Require Import base tactics option list strings gmap sorting.
From Stdlib Require Import ZArith Lia Ascii.
From S2P Require Import Prelude Text.
Local Open Scope Z_scope.

(** ** The limiter *)

(** An [Instant] and a [Duration] are nanoseconds of a monotonic clock. *)
Definition RATE_LIMIT_WINDOW : Z := 60000000000.

Record RequestHistory := mk_history {
  by_scope : gmap str (list Z);
  last_sweep : Z
}.

Record RateLimiter := mk_limiter {
  limits : gmap str Z;
  default_limit : Z;
  history : RequestHistory;
  window : Z
}.

Fixpoint prune_expired (queue : list Z) (window_start : Z) : list Z :=
  match queue with
  | [] => []
  | timestamp :: rest =>
      if timestamp <=? window_start then prune_expired rest window_start else queue
  end.

Definition sweep_expired (h : RequestHistory) (window_start : Z) : RequestHistory :=
  mk_history
    (filter (fun kv => kv.2 <> []) ((fun queue => prune_expired queue window_start) <$> by_scope h))
    (last_sweep h).

(** [duration_since] is zero when the clock reads earlier. *)
Definition sweep_if_due (h : RequestHistory) (now w : Z) : RequestHistory :=
  if Z.max 0 (now - last_sweep h) >=? w then
    mk_history (by_scope (sweep_expired h (now - w))) now
  else h.

Definition set_history (l : RateLimiter) (h : RequestHistory) : RateLimiter :=
  mk_limiter (limits l) (default_limit l) h (window l).

Definition set_queue (h : RequestHistory) (scope : str) (queue : list Z) : RequestHistory :=
  mk_history (<[scope := queue]> (by_scope h)) (last_sweep h).

Section limiter.
Context {UT : UnicodeTables}.

(** [RateLimiter::new] at the time the clock reads. *)
Definition limiter_new (default_rpm now : Z) : RateLimiter :=
  mk_limiter ∅ default_rpm (mk_history ∅ now) RATE_LIMIT_WINDOW.

Definition set_limit (l : RateLimiter) (domain : str) (requests_per_minute : Z) : RateLimiter :=
  mk_limiter (<[to_lowercase domain := requests_per_minute]> (limits l))
    (default_limit l) (history l) (window l).

Definition get_limit (l : RateLimiter) (domain : str) : Z :=
  default (default_limit l) (limits l !! to_lowercase domain).

(** The lookup [check] and [remaining] share: prune the scope's queue, count it
    and drop it when it is empty. *)
Definition request_count (h : RequestHistory) (scope : str) (window_start : Z)
  : RequestHistory * nat :=
  match by_scope h !! scope with
  | Some queue =>
      let queue := prune_expired queue window_start in
      (match queue with
       | [] => mk_history (delete scope (by_scope h)) (last_sweep h)
       | _ => set_queue h scope queue
       end, length queue)
  | None => (h, 0%nat)
  end.

Definition check (l : RateLimiter) (domain : str) (now : Z) : RateLimiter * bool :=
  let domain_lower := to_lowercase domain in
  let limit := get_limit l domain_lower in
  let window_start := now - window l in
  let h := sweep_if_due (history l) now (window l) in
  let '(h, count) := request_count h domain_lower window_start in
  (set_history l h, Z.of_nat count <? limit).

Definition record (l : RateLimiter) (domain : str) (now : Z) : RateLimiter :=
  let domain_lower := to_lowercase domain in
  let h := sweep_if_due (history l) now (window l) in
  set_history l (set_queue h domain_lower (default [] (by_scope h !! domain_lower) ++ [now])).

Definition try_acquire (l : RateLimiter) (domain : str) (now : Z) : RateLimiter * bool :=
  let domain_lower := to_lowercase domain in
  let limit := get_limit l domain_lower in
  let window_start := now - window l in
  let h := sweep_if_due (history l) now (window l) in
  if limit =? 0 then (set_history l h, false) else
  let queue := prune_expired (default [] (by_scope h !! domain_lower)) window_start in
  if Z.of_nat (length queue) <? limit then
    (set_history l (set_queue h domain_lower (queue ++ [now])), true)
  else (set_history l (set_queue h domain_lower queue), false).

(** [split_once] at the NUL that separates a plugin from its domain. *)
Definition plugin_scope (scope : str) : str :=
  match find_char (fun c => ascii_eqb c "000"%char) scope with
  | Some i => take i scope ++ ["000"%char] ++ to_ascii_lowercase (drop (S i) scope)
  | None => scope
  end.

Definition try_acquire_with_limit (l : RateLimiter) (scope : str) (limit now : Z)
  : RateLimiter * bool :=
  if limit =? 0 then (l, false) else
  let scope := plugin_scope scope in
  let window_start := now - window l in
  let h := sweep_if_due (history l) now (window l) in
  let queue := prune_expired (default [] (by_scope h !! scope)) window_start in
  if limit <=? Z.of_nat (length queue) then (set_history l (set_queue h scope queue), false)
  else (set_history l (set_queue h scope (queue ++ [now])), true).

(** [as u32] keeps the low thirty-two bits of the count. *)
Definition remaining (l : RateLimiter) (domain : str) (now : Z) : RateLimiter * Z :=
  let domain_lower := to_lowercase domain in
  let limit := get_limit l domain_lower in
  let window_start := now - window l in
  let h := sweep_if_due (history l) now (window l) in
  let '(h, count) := request_count h domain_lower window_start in
  (set_history l h, saturating_sub limit (Z.of_nat count mod 2 ^ 32)).

Definition retry_after (l : RateLimiter) (domain : str) (now : Z) : option Z :=
  match by_scope (history l) !! to_lowercase domain with
  | Some (oldest :: _) =>
      let expires := oldest + window l in
      if now <? expires then Some (expires - now) else None
  | _ => None
  end.

(** ** Runs *)

Inductive Request :=
| SetLimit (domain : str) (requests_per_minute : Z)
| CheckRequest (domain : str)
| Record_ (domain : str)
| TryAcquire (domain : str)
| TryAcquireWithLimit (scope : str) (limit : Z)
| Remaining (domain : str).

Inductive Reply := Unit | Allowed (b : bool) | Left_ (n : Z).

Definition limiter_step (l : RateLimiter) (now : Z) (r : Request) : RateLimiter * Reply :=
  match r with
  | SetLimit d n => (set_limit l d n, Unit)
  | CheckRequest d => let '(l, b) := check l d now in (l, Allowed b)
  | Record_ d => (record l d now, Unit)
  | TryAcquire d => let '(l, b) := try_acquire l d now in (l, Allowed b)
  | TryAcquireWithLimit s n => let '(l, b) := try_acquire_with_limit l s n now in (l, Allowed b)
  | Remaining d => let '(l, n) := remaining l d now in (l, Left_ n)
  end.

(** A run is the requests in the order the history's lock serves them, each
    with the time it reads under the lock. *)
Fixpoint limiter_run (l : RateLimiter) (trace : list (Z * Request)) : list Reply :=
  match trace with
  | [] => []
  | (now, r) :: trace' => let '(l, reply) := limiter_step l now r in reply :: limiter_run l trace'
  end.

(** ** The abstract limiter: a log of every request, and the count of those in
    the window that ends now *)

Record Log := mk_log {
  log_limits : gmap str Z;
  log_default : Z;
  granted : list (str * Z)
}.

Definition times_of (log : list (str * Z)) (scope : str) : list Z :=
  omap (fun e => if str_eqb e.1 scope then Some e.2 else None) log.

Definition in_window (log : list (str * Z)) (scope : str) (now : Z) : Z :=
  Z.of_nat (count_if (fun t => now - RATE_LIMIT_WINDOW <? t) (times_of log scope)).

Definition log_limit (g : Log) (scope : str) : Z :=
  default (log_default g) (log_limits g !! to_lowercase scope).

Definition grant (g : Log) (scope : str) (now : Z) : Log :=
  mk_log (log_limits g) (log_default g) (granted g ++ [(scope, now)]).

Definition acquire (g : Log) (scope : str) (limit now : Z) : Log * Reply :=
  if in_window (granted g) scope now <? limit then (grant g scope now, Allowed true)
  else (g, Allowed false).

Definition log_step (g : Log) (now : Z) (r : Request) : Log * Reply :=
  match r with
  | SetLimit d n =>
      (mk_log (<[to_lowercase d := n]> (log_limits g)) (log_default g) (granted g), Unit)
  | CheckRequest d =>
      let s := to_lowercase d in (g, Allowed (in_window (granted g) s now <? log_limit g s))
  | Record_ d => (grant g (to_lowercase d) now, Unit)
  | TryAcquire d => let s := to_lowercase d in acquire g s (log_limit g s) now
  | TryAcquireWithLimit s n => acquire g (plugin_scope s) n now
  | Remaining d =>
      let s := to_lowercase d in
      (g, Left_ (saturating_sub (log_limit g s) (in_window (granted g) s now mod 2 ^ 32)))
  end.

Fixpoint log_run (g : Log) (trace : list (Z * Request)) : list Reply :=
  match trace with
  | [] => []
  | (now, r) :: trace' => let '(g, reply) := log_step g now r in reply :: log_run g trace'
  end.

End limiter.

(** ** One queue tracks one scope of the log *)

(** The queue is what is left of the scope's times once some that are out of the
    window have been dropped from the front. *)
Definition tracks (now : Z) (times queue : list Z) : Prop :=
  StronglySorted Z.le times /\ Forall (fun t => t <= now) times /\
  exists dropped, times = dropped ++ queue /\
    Forall (fun t => t <= now - RATE_LIMIT_WINDOW) dropped.

Lemma tracks_nil now : tracks now [] [].
Proof. split_and!; [constructor|constructor|by exists []]. Qed.

Lemma tracks_later now now' times queue :
  now <= now' -> tracks now times queue -> tracks now' times queue.
Proof.
  intros Hle (Hs & Hn & dropped & -> & Hd). split_and!; [done| |exists dropped; split; [done|]];
    (eapply Forall_impl; [eassumption|]); simpl; lia.
Qed.

Lemma tracks_push now times queue : tracks now times queue -> tracks now (times ++ [now]) (queue ++ [now]).
Proof.
  intros (Hs & Hn & dropped & Ht & Hd). split_and!.
  - apply StronglySorted_app. split_and!; [|done|repeat constructor].
    intros x y Hx ->%list_elem_of_singleton. rewrite Forall_forall in Hn. by apply Hn.
  - apply Forall_app. split; [done|]. constructor; [lia|constructor].
  - exists dropped. split; [by rewrite Ht, app_assoc|done].
Qed.

Lemma prune_expired_split queue start :
  exists dropped, queue = dropped ++ prune_expired queue start /\ Forall (fun t => t <= start) dropped.
Proof.
  induction queue as [|t queue (d & Hd & Hall)]; simpl; [by exists []|].
  destruct (Z.leb_spec t start); [|by exists []].
  exists (t :: d). split; [by rewrite Hd at 1|by constructor].
Qed.

Lemma tracks_prune now times queue :
  tracks now times queue -> tracks now times (prune_expired queue (now - RATE_LIMIT_WINDOW)).
Proof.
  intros (Hs & Hn & dropped & Ht & Hd).
  destruct (prune_expired_split queue (now - RATE_LIMIT_WINDOW)) as (d & Hq & Hall).
  split_and!; [done|done|]. exists (dropped ++ d). split; [|by apply Forall_app].
  by rewrite <-app_assoc, <-Hq.
Qed.

Lemma count_expired start l :
  Forall (fun t => t <= start) l -> count_if (fun t => start <? t) l = 0%nat.
Proof. induction 1; rewrite ?count_if_cons; [done|]. replace (start <? x) with false; lia. Qed.

Lemma count_live start l :
  StronglySorted Z.le l -> count_if (fun t => start <? t) l = length (prune_expired l start).
Proof.
  induction 1 as [|t l Hs IH Hall]; [done|]. rewrite count_if_cons. cbn [prune_expired].
  destruct (Z.leb_spec t start) as [Ht|Ht]; [replace (start <? t) with false by lia; simpl; lia|].
  replace (start <? t) with true by lia. cbn [length]. f_equal. rewrite IH. clear IH.
  destruct l as [|u l]; [done|]. cbn [prune_expired]. apply Forall_inv in Hall.
  by replace (u <=? start) with false by lia.
Qed.

(** What is left of a pruned queue are the requests in the window. *)
Lemma tracks_count now times queue :
  tracks now times queue ->
  length (prune_expired queue (now - RATE_LIMIT_WINDOW))
  = count_if (fun t => now - RATE_LIMIT_WINDOW <? t) times.
Proof.
  intros (Hs & _ & dropped & -> & Hd). rewrite count_if_app, count_expired by done.
  symmetry. by eapply count_live, StronglySorted_app_1_r.
Qed.

(** ** The whole history tracks the log *)

Definition history_tracks (now : Z) (log : list (str * Z)) (h : RequestHistory) : Prop :=
  forall scope, tracks now (times_of log scope) (default [] (by_scope h !! scope)).

Lemma history_tracks_later now now' log h :
  now <= now' -> history_tracks now log h -> history_tracks now' log h.
Proof. intros Hle H scope. by eapply tracks_later. Qed.

Lemma sweep_lookup h start scope :
  default [] (by_scope (sweep_expired h start) !! scope)
  = prune_expired (default [] (by_scope h !! scope)) start.
Proof.
  cbn [sweep_expired by_scope]. rewrite map_lookup_filter, lookup_fmap.
  destruct (by_scope h !! scope) as [q|]; [|done]. simpl.
  destruct (decide (prune_expired q start <> [])) as [H|H]; simplify_option_eq; try done.
  all: by destruct (prune_expired q start); [|destruct H].
Qed.

Lemma sweep_tracks now log h :
  history_tracks now log h -> history_tracks now log (sweep_if_due h now RATE_LIMIT_WINDOW).
Proof.
  intros H scope. unfold sweep_if_due. destruct (_ >=? _); [|apply H].
  cbn [by_scope]. rewrite sweep_lookup. by apply tracks_prune.
Qed.

Lemma set_queue_tracks now log h scope queue :
  history_tracks now log h -> tracks now (times_of log scope) queue ->
  history_tracks now log (set_queue h scope queue).
Proof.
  intros H Hq s. cbn [set_queue by_scope].
  destruct (decide (s = scope)) as [->|Hne]; [by rewrite lookup_insert_eq|].
  by rewrite lookup_insert_ne.
Qed.

Lemma times_of_app log log' scope : times_of (log ++ log') scope = times_of log scope ++ times_of log' scope.
Proof. apply omap_app. Qed.

Lemma push_tracks now log h scope queue :
  history_tracks now log h -> tracks now (times_of log scope) queue ->
  history_tracks now (log ++ [(scope, now)]) (set_queue h scope (queue ++ [now])).
Proof.
  intros H Hq s. cbn [set_queue by_scope]. rewrite times_of_app. unfold times_of at 2. simpl.
  destruct (decide (s = scope)) as [->|Hne].
  - rewrite lookup_insert_eq, str_eqb_refl. by apply tracks_push.
  - rewrite lookup_insert_ne by done. destruct (str_eqb scope s) eqn:E; [by apply str_eqb_eq in E|].
    rewrite app_nil_r. apply H.
Qed.

Lemma request_count_tracks now log h scope :
  history_tracks now log h ->
  let '(h', n) := request_count h scope (now - RATE_LIMIT_WINDOW) in
  history_tracks now log h' /\ Z.of_nat n = in_window log scope now.
Proof.
  intros H. unfold request_count, in_window. rewrite <-(tracks_count _ _ _ (H scope)).
  pose proof (tracks_prune _ _ _ (H scope)) as Hp.
  destruct (by_scope h !! scope) as [q|] eqn:E; [|done]. simpl in *.
  split; [|done]. destruct (prune_expired q _) as [|t q'] eqn:Eq; [|by apply set_queue_tracks].
  intros s. cbn [by_scope]. destruct (decide (s = scope)) as [->|Hne].
  - by rewrite lookup_delete_eq.
  - by rewrite lookup_delete_ne.
Qed.

(** ** Refinement *)

Section refinement.
Context {UT : UnicodeTables}.

Definition refines (now : Z) (g : Log) (l : RateLimiter) : Prop :=
  limits l = log_limits g /\ default_limit l = log_default g /\
  window l = RATE_LIMIT_WINDOW /\ history_tracks now (granted g) (history l).

Lemma get_limit_refines now g l d : refines now g l -> get_limit l d = log_limit g d.
Proof. intros (H1 & H2 & _). unfold get_limit, log_limit. by rewrite H1, H2. Qed.

Lemma refines_history now g l h :
  refines now g l -> history_tracks now (granted g) h -> refines now g (set_history l h).
Proof. intros (? & ? & ? & _) Hh. by split_and!. Qed.

Lemma refines_grant now g l h scope :
  refines now g l -> history_tracks now (granted g ++ [(scope, now)]) h ->
  refines now (grant g scope now) (set_history l h).
Proof. intros (? & ? & ? & _) Hh. by split_and!. Qed.

(** The swept history and the scope's pruned queue, as [try_acquire] and
    [try_acquire_with_limit] read them. *)
Lemma refines_swept now g l scope :
  refines now g l ->
  let h := sweep_if_due (history l) now (window l) in
  let queue := prune_expired (default [] (by_scope h !! scope)) (now - window l) in
  history_tracks now (granted g) h /\
  tracks now (times_of (granted g) scope) queue /\
  Z.of_nat (length queue) = in_window (granted g) scope now.
Proof.
  intros (_ & _ & -> & Ht). simpl. pose proof (sweep_tracks _ _ _ Ht) as Hs.
  split_and!; [done|by apply tracks_prune|]. unfold in_window. f_equal. by apply tracks_count.
Qed.

Lemma acquire_refines now g l scope limit l' b :
  refines now g l ->
  (let h := sweep_if_due (history l) now (window l) in
   let queue := prune_expired (default [] (by_scope h !! scope)) (now - window l) in
   if Z.of_nat (length queue) <? limit then
     (set_history l (set_queue h scope (queue ++ [now])), true)
   else (set_history l (set_queue h scope queue), false)) = (l', b) ->
  let '(g', r) := acquire g scope limit now in refines now g' l' /\ r = Allowed b.
Proof.
  intros Hr. destruct (refines_swept now g l scope Hr) as (Hh & Hq & Hn). simpl in *.
  rewrite Hn. unfold acquire. destruct (_ <? limit); intros [= <- <-]; (split; [|done]).
  - apply refines_grant; [done|by apply push_tracks].
  - apply refines_history; [done|by apply set_queue_tracks].
Qed.

Lemma in_window_nonneg log scope now : 0 <= in_window log scope now.
Proof. unfold in_window. lia. Qed.

Lemma limiter_step_refines now g l r :
  refines now g l ->
  let '(l', reply) := limiter_step l now r in
  let '(g', reply') := log_step g now r in
  refines now g' l' /\ reply = reply'.
Proof.
  intros Hr. pose proof Hr as (H1 & H2 & Hw & Ht). pose proof (sweep_tracks _ _ _ Ht) as Hs.
  destruct r as [d n|d|d|d|s n|d]; cbn [limiter_step log_step].
  - split; [|done]. unfold set_limit. split_and!; cbn; [by rewrite H1|done..].
  - unfold check. rewrite (get_limit_refines now g), Hw by done.
    pose proof (request_count_tracks _ _ _ (to_lowercase d) Hs) as Hc.
    destruct (request_count _ _ _) as [h' c]. destruct Hc as [Hh Hc].
    rewrite Hc. split; [by apply refines_history|done].
  - split; [|done]. unfold record. rewrite Hw. apply refines_grant; [done|].
    apply push_tracks; [done|apply Hs].
  - unfold try_acquire. rewrite (get_limit_refines now g) by done.
    destruct (Z.eqb_spec (log_limit g (to_lowercase d)) 0) as [H0|H0].
    + unfold acquire. rewrite H0. pose proof (in_window_nonneg (granted g) (to_lowercase d) now).
      replace (_ <? 0) with false by lia. rewrite Hw. split; [by apply refines_history|done].
    + destruct (if _ : bool then _ else _) as [l' b] eqn:E.
      pose proof (acquire_refines _ _ _ _ _ _ _ Hr E) as Ha.
      destruct (acquire _ _ _ _). by destruct Ha as [? ->].
  - unfold try_acquire_with_limit. destruct (Z.eqb_spec n 0) as [->|H0].
    + unfold acquire. pose proof (in_window_nonneg (granted g) (plugin_scope s) now).
      replace (_ <? 0) with false by lia. done.
    + destruct (if _ : bool then _ else _) as [l' b] eqn:E.
      pose proof (acquire_refines now g l (plugin_scope s) n l' b Hr) as Ha.
      destruct (acquire _ _ _ _). cut (refines now l0 l' /\ r = Allowed b); [by intros [? ->]|].
      apply Ha. rewrite <-E. cbv zeta. rewrite Z.ltb_antisym. by destruct (_ <=? _).
  - unfold remaining. rewrite (get_limit_refines now g), Hw by done.
    pose proof (request_count_tracks _ _ _ (to_lowercase d) Hs) as Hc.
    destruct (request_count _ _ _) as [h' c]. destruct Hc as [Hh Hc].
    rewrite Hc. split; [by apply refines_history|done].
Qed.

(** The times of a run never go back. *)
Fixpoint clock_ok (now : Z) (trace : list (Z * Request)) : Prop :=
  match trace with
  | [] => True
  | (t, _) :: trace' => now <= t /\ clock_ok t trace'
  end.

Lemma limiter_run_refines now g l trace :
  refines now g l -> clock_ok now trace -> limiter_run l trace = log_run g trace.
Proof.
  revert now g l; induction trace as [|[t r] trace IH]; intros now g l Hr Hc; [done|].
  destruct Hc as [Hle Hc]. cbn [limiter_run log_run].
  assert (refines t g l) as Hr'.
  { destruct Hr as (? & ? & ? & ?). split_and!; [done..|]. by eapply history_tracks_later. }
  pose proof (limiter_step_refines t g l r Hr') as Hs.
  destruct (limiter_step l t r), (log_step g t r). destruct Hs as [Hs ->]. f_equal. by eapply IH.
Qed.

(** C18: On every run whose clock does not go back, the
    limiter answers what one that never forgets would answer: a request is
    let through exactly when fewer than the scope's limit were let through or
    recorded in the minute that ends now. Pruning, dropping empty queues and
    sweeping once per window are not observable. *)
Theorem limiter_refines_log default_rpm now trace :
  clock_ok now trace ->
  limiter_run (limiter_new default_rpm now) trace = log_run (mk_log ∅ default_rpm []) trace.
Proof.
  intros Hc. apply (limiter_run_refines now); [|done].
  split_and!; [done..|]. intros scope. cbn. rewrite lookup_empty. apply tracks_nil.
Qed.
End refinement.

Module RateLimiterExample.

#[local] Existing Instance ascii_tables.

Definition second : Z := 1000000000.

Definition trace : list (Z * Request) :=
  [(0, SetLimit §"DLsite.com" 2); (1 * second, TryAcquire §"dlsite.com");
   (30 * second, TryAcquire §"DLSITE.com"); (60 * second, TryAcquire §"dlsite.com");
   (60 * second, Remaining §"other.org"); (61 * second, TryAcquire §"dlsite.com");
   (61 * second, CheckRequest §"dlsite.com")].

Lemma limiter_refines_log_witness :
  limiter_run (limiter_new 60 0) trace = log_run (mk_log ∅ 60 []) trace /\
  log_run (mk_log ∅ 60 []) trace
  = [Unit; Allowed true; Allowed true; Allowed false; Left_ 60; Allowed true; Allowed false].
Proof.
  split; [|vm_compute; reflexivity].
  apply (limiter_refines_log 60 0 trace). repeat split; vm_compute; congruence.
Defined.

(** [retry_after] is not conditional on being limited: after one request out of
    sixty it already names the rest of the window. *)
Lemma retry_after_when_allowed :
  let l := record (limiter_new 60 0) §"example.com" 0 in
  (check l §"example.com" second).2 = true /\
  retry_after l §"example.com" second = Some (59 * second).
Proof. vm_compute. split; reflexivity. Qed.

End RateLimiterExample.
