(* ===== verification/OutputTransaction.v ===== *)
(** The transaction that puts a finished pipeline artifact in place
    ([crates/core/src/features/pipeline/output_transaction.rs], with
    [utilities/filesystem.rs]): verification of the staged artifact, the commit
    with its rollback, and the lock that serialises commits into one directory. *)

From stdpp Require Import base tactics option list strings gmap sets.
From Stdlib Require Import ZArith Lia Ascii.
From S2P Require Import Prelude Text RustPath.
Local Open Scope arclain_scope.

(** ** What is on disk *)

(** A node of the filesystem; [mode] is a directory's permission bits. *)
Inductive Node :=
| RegularFile (content : str)
| Directory (mode : Z) (entries : list (str * Node))
| Symlink
| SpecialNode.

#[export] Instance Node_eq_dec : EqDecision Node.
Proof.
  refine (
    fix go x y : Decision (x = y) :=
    let _ : EqDecision Node := @go in
    match x, y with
    | RegularFile a, RegularFile b => cast_if (decide (a = b))
    | Directory m es, Directory m' es' => cast_if_and (decide (m = m')) (decide (es = es'))
    | Symlink, Symlink => left eq_refl
    | SpecialNode, SpecialNode => left eq_refl
    | _, _ => right _
    end); abstract congruence.
Defined.

(** The entries of one directory. *)
Notation Dir := (gmap str Node).

Inductive OutputArtifact := Archive | Folder.

(** The errors of the transaction, one per [bail!] or failed call. *)
Inductive CommitError :=
| MetadataUnreadable
| NotARegularFile
| EmptyArchive
| NotADirectory
| IrregularEntry (name : str)
| DestinationUnreadable
| DestinationExists
| BackupFailed
| Finalized_previous_restored
| Finalized_nothing_changed
| NotCommitted_recovery_kept.

(** ** Opening a transaction *)

Inductive NewError := NoParent | NoFinalComponent | ParentNotCreated | NoTransactionRoot | NotCanonical.

Record StagedOutput := mk_staged {
  destination : str;
  lock_key : str;
  staged_artifact : str;
  replace_existing : bool
}.

(** What the calls of [StagedOutput::new] return: whether [create_dir_all] works,
    the path [tempdir_in] makes in a directory, and [canonicalize]. *)
Record NewCalls := {
  create_dir_all : str -> bool;
  tempdir_in : str -> option str;
  canonicalize : str -> option str
}.

Definition staged_new (calls : NewCalls) (dest : str) (replace : bool) : result NewError StagedOutput :=
  let? up := ok_or (parent dest) NoParent in
  let up := if str_eqb up [] then §"." else up in
  let? _ := ok_or (file_name dest) NoFinalComponent in
  if negb (create_dir_all calls up) then Err ParentNotCreated else
  let? root := ok_or (tempdir_in calls up) NoTransactionRoot in
  let? canonical_parent := ok_or (canonicalize calls up) NotCanonical in
  Ok (mk_staged dest canonical_parent (root ++ §"/artifact") replace).

(** ** Verification of the artifact *)

(** One entry of [verify_regular_tree_entries], which calls itself on the
    directories. *)
Fixpoint verify_entry (name : str) (node : Node) : result CommitError unit :=
  match node with
  | Directory _ entries =>
      (fix verify_regular_tree_entries (entries : list (str * Node)) : result CommitError unit :=
         match entries with
         | [] => Ok tt
         | (n, child) :: rest =>
             rbind (verify_entry n child) (fun _ => verify_regular_tree_entries rest)
         end) entries
  | RegularFile _ => Ok tt
  | Symlink | SpecialNode => Err (IrregularEntry name)
  end.

Definition verify_regular_tree (root : Node) : result CommitError unit :=
  match root with
  | Directory _ _ => verify_entry [] root
  | _ => Err NotADirectory
  end.

(** [StagedOutput::verify] of what is at the artifact's path. *)
Definition verify (artifact : OutputArtifact) (staged : option Node) : result CommitError unit :=
  match staged with
  | None => Err MetadataUnreadable
  | Some node =>
      match artifact with
      | Archive =>
          match node with
          | RegularFile content =>
              if (length content =? 0)%nat then Err EmptyArchive else Ok tt
          | _ => Err NotARegularFile
          end
      | Folder => verify_regular_tree node
      end
  end.

(** ** The commit *)

(** What the transaction can see and change: the entries of the destination's
    parent directory besides its own root, and the two entries of the root.
    [root_kept]: [None] while the root is in place, then whether it was kept
    ([Some true]) or closed ([Some false]). [log] is the record of what was done
    to the parent directory, oldest first: by the others before the [n]th call,
    or by this transaction. *)
Inductive Event := Others (call : nat) | Took (name : str) (node : Node) | Put (name : str) (node : Node).

Record Stage := mk_stage {
  parent_dir : Dir;
  artifact : option Node;
  previous : option Node;
  root_kept : option bool;
  log : list Event;
  calls : nat
}.

Section commit.
(** Every filesystem call may fail, and before it the other processes may have
    done anything to the parent directory. The root's name is fresh, so it is
    this transaction's alone. *)
Context (fails : nat -> bool) (others : nat -> Dir -> Dir).

(** What a failed removal leaves of the root's two entries. *)
Context (debris : nat -> option Node * option Node).

(** The time of a call: what the others did is done. *)
Definition tick (s : Stage) : Stage :=
  mk_stage (others (calls s) (parent_dir s)) (artifact s) (previous s) (root_kept s) (log s ++ [Others (calls s)])
    (S (calls s)).

(** [path_exists]: [None] when the metadata cannot be read. *)
Definition path_exists (name : str) (s : Stage) : option bool * Stage :=
  let s' := tick s in
  (if fails (calls s) then None else Some (bool_decide (is_Some (parent_dir s' !! name))), s').

(** [fs::rename] of the destination into the root, where nothing is in the way. *)
Definition rename_existing (name : str) (s : Stage) : bool * Stage :=
  let s' := tick s in
  if fails (calls s) then (false, s') else
  match parent_dir s' !! name, previous s' with
  | Some node, None =>
      (true, mk_stage (delete name (parent_dir s')) (artifact s') (Some node) (root_kept s')
               (log s' ++ [Took name node]) (calls s'))
  | _, _ => (false, s')
  end.

(** [rename_no_replace] of an entry of the root to the destination: it fails
    when the destination exists. *)
Definition rename_no_replace (name : str) (from : option Node) (s : Stage)
  : option Dir * Stage :=
  let s' := tick s in
  if fails (calls s) then (None, s') else
  match from, parent_dir s' !! name with
  | Some node, None => (Some (<[name := node]> (parent_dir s')), s')
  | _, _ => (None, s')
  end.

Definition promote (name : str) (s : Stage) : bool * Stage :=
  let '(moved, s') := rename_no_replace name (artifact s) s in
  match moved, artifact s with
  | Some d, Some node =>
      (true, mk_stage d None (previous s') (root_kept s') (log s' ++ [Put name node]) (calls s'))
  | _, _ => (false, s')
  end.

Definition restore_previous (name : str) (s : Stage) : bool * Stage :=
  let '(moved, s') := rename_no_replace name (previous s) s in
  match moved, previous s with
  | Some d, Some node =>
      (true, mk_stage d (artifact s') None (root_kept s') (log s' ++ [Put name node]) (calls s'))
  | _, _ => (false, s')
  end.

(** [TempDir::keep] and [TempDir::close]. A root that cannot be removed is
    reported and changes no outcome. *)
Definition keep_root (s : Stage) : Stage :=
  mk_stage (parent_dir s) (artifact s) (previous s) (Some true) (log s) (calls s).

Definition close_root (s : Stage) : Stage :=
  let s' := tick s in
  if fails (calls s) then
    mk_stage (parent_dir s') (debris (calls s)).1 (debris (calls s)).2 None (log s') (calls s')
  else mk_stage (parent_dir s') None None (Some false) (log s') (calls s').

(** The closure [commit_with_hooks] runs under the lock; [before_promote] does
    nothing outside tests. *)
Definition commit_closure (name : str) (replace : bool) (s : Stage)
  : result CommitError unit * Stage :=
  match path_exists name s with
  | (None, s1) => (Err DestinationUnreadable, s1)
  | (Some destination_exists, s1) =>
      if destination_exists && negb replace then (Err DestinationExists, s1)
      else
        let '(backed_up, s2) :=
          if destination_exists then rename_existing name s1 else (true, s1) in
        if negb backed_up then (Err BackupFailed, s2)
        else
          match promote name s2 with
          | (true, s3) => (Ok tt, s3)
          | (false, s3) =>
              if destination_exists then
                match restore_previous name s3 with
                | (true, s4) => (Err Finalized_previous_restored, s4)
                | (false, s4) => (Err NotCommitted_recovery_kept, keep_root s4)
                end
              else (Err Finalized_nothing_changed, s3)
          end
  end.

Definition commit (name : str) (replace : bool) (s : Stage)
  : result CommitError unit * Stage :=
  let '(outcome, s') := commit_closure name replace s in
  match root_kept s' with
  | Some _ => (outcome, s')
  | None => (outcome, close_root s')
  end.
End commit.

(** ** What a commit can do *)

Definition own (log : list Event) : list Event :=
  List.filter (fun e => match e with Others _ => false | _ => true end) log.

(** The history of the parent directory told by the log; [None] when the
    transaction took what was not there or put something over an entry. *)
Section replay.
Context (others : nat -> Dir -> Dir).

Definition replay_event (d : option Dir) (e : Event) : option Dir :=
  d ← d;
  match e with
  | Others k => Some (others k d)
  | Took name node => if decide (d !! name = Some node) then Some (delete name d) else None
  | Put name node => if decide (d !! name = None) then Some (<[name := node]> d) else None
  end.

Definition replay (d : Dir) (log : list Event) : option Dir := foldl replay_event (Some d) log.

Lemma replay_app d l l' : replay d (l ++ l') = foldl replay_event (replay d l) l'.
Proof. unfold replay. by rewrite foldl_app. Qed.
End replay.

Lemma own_app l l' : own (l ++ l') = own l ++ own l'.
Proof. apply List.filter_app. Qed.

Section commit_props.
Context (fails : nat -> bool) (others : nat -> Dir -> Dir)
        (debris : nat -> option Node * option Node).

(** [moved s s' es]: the step from [s] to [s'] is told by its log, of which [es]
    are the transaction's own events. *)
Definition moved (s s' : Stage) (es : list Event) : Prop :=
  exists l, log s' = log s ++ l /\ own l = es /\
    foldl (replay_event others) (Some (parent_dir s)) l = Some (parent_dir s').

Lemma moved_refl s : moved s s [].
Proof. exists []. by rewrite app_nil_r. Qed.

Lemma moved_trans s1 s2 s3 es es' :
  moved s1 s2 es -> moved s2 s3 es' -> moved s1 s3 (es ++ es').
Proof.
  intros (l & Hl & Ho & Hr) (l' & Hl' & Ho' & Hr'). exists (l ++ l').
  rewrite Hl', Hl, app_assoc, own_app, Ho, Ho', foldl_app, Hr. done.
Qed.

Lemma moved_tick s : moved s (tick others s) [].
Proof. exists [Others (calls s)]. done. Qed.

Lemma path_exists_moved name s r s' :
  path_exists fails others name s = (r, s') ->
  moved s s' [] /\ artifact s' = artifact s /\ previous s' = previous s /\ root_kept s' = root_kept s.
Proof. unfold path_exists. intros [= _ <-]. split; [apply moved_tick|done]. Qed.

Lemma rename_existing_moved name s b s' :
  previous s = None -> rename_existing fails others name s = (b, s') ->
  artifact s' = artifact s /\ root_kept s' = root_kept s /\
  (if b then exists node, moved s s' [Took name node] /\ previous s' = Some node
   else moved s s' [] /\ previous s' = None).
Proof.
  unfold rename_existing. intros Hp. destruct (fails (calls s)).
  { intros [= <- <-]. split_and!; [done|done|apply moved_tick|done]. }
  cbn [tick parent_dir previous artifact root_kept calls log]. rewrite Hp.
  destruct (others (calls s) (parent_dir s) !! name) as [node|] eqn:E; intros [= <- <-].
  - split_and!; [done..|]. exists node. split; [|done].
    exists [Others (calls s); Took name node]. split; [by rewrite <-app_assoc|]. split; [done|].
    simpl. by rewrite decide_True.
  - split_and!; [done|done|apply moved_tick|done].
Qed.

Lemma rename_no_replace_some name from s d s' :
  rename_no_replace fails others name from s = (Some d, s') ->
  s' = tick others s /\ exists node, from = Some node /\ parent_dir s' !! name = None /\
    d = <[name := node]> (parent_dir s').
Proof.
  unfold rename_no_replace. destruct (fails (calls s)); [done|].
  destruct from as [node|]; [|done].
  destruct (parent_dir (tick others s) !! name) eqn:E; [done|]. intros [= <- <-]. eauto.
Qed.

Lemma rename_no_replace_none name from s s' :
  rename_no_replace fails others name from s = (None, s') -> s' = tick others s.
Proof.
  unfold rename_no_replace. destruct (fails (calls s)); [congruence|].
  destruct from, (parent_dir (tick others s) !! name); congruence.
Qed.

Lemma moved_put s name node :
  parent_dir (tick others s) !! name = None ->
  exists l, log (tick others s) ++ [Put name node] = log s ++ l /\ own l = [Put name node] /\
    foldl (replay_event others) (Some (parent_dir s)) l
    = Some (<[name := node]> (parent_dir (tick others s))).
Proof.
  intros H. exists [Others (calls s); Put name node]. cbn [tick log]. rewrite <-app_assoc.
  split_and!; [done..|]. simpl in *. by rewrite decide_True.
Qed.

Lemma promote_moved name s b s' :
  promote fails others name s = (b, s') ->
  previous s' = previous s /\ root_kept s' = root_kept s /\
  (if b then exists node, artifact s = Some node /\ moved s s' [Put name node]
   else moved s s' [] /\ artifact s' = artifact s).
Proof.
  unfold promote. destruct (rename_no_replace _ _ _ _ _) as [[d|] s1] eqn:E.
  - apply rename_no_replace_some in E as (-> & node & Ha & Hf & ->). rewrite Ha.
    intros [= <- <-]. split_and!; [done..|]. exists node. split; [done|]. by apply moved_put.
  - apply rename_no_replace_none in E as ->. intros [= <- <-].
    split_and!; [done|done|apply moved_tick|done].
Qed.

Lemma restore_previous_moved name s b s' :
  restore_previous fails others name s = (b, s') ->
  artifact s' = artifact s /\ root_kept s' = root_kept s /\
  (if b then exists node, previous s = Some node /\ moved s s' [Put name node]
   else moved s s' [] /\ previous s' = previous s).
Proof.
  unfold restore_previous. destruct (rename_no_replace _ _ _ _ _) as [[d|] s1] eqn:E.
  - apply rename_no_replace_some in E as (-> & node & Ha & Hf & ->). rewrite Ha.
    intros [= <- <-]. split_and!; [done..|]. exists node. split; [done|]. by apply moved_put.
  - apply rename_no_replace_none in E as ->. intros [= <- <-].
    split_and!; [done|done|apply moved_tick|done].
Qed.

(** What the transaction itself does to the parent directory, outcome by
    outcome. *)
Inductive accounted (name : str) (replace : bool) (art : Node)
  : result CommitError unit -> list Event -> Stage -> Prop :=
| committed_new s : accounted name replace art (Ok tt) [Put name art] s
| committed_over p s :
    replace = true ->
    accounted name replace art (Ok tt) [Took name p; Put name art] s
| refused e s :
    e <> NotCommitted_recovery_kept -> e <> Finalized_previous_restored ->
    accounted name replace art (Err e) [] s
| restored p s :
    replace = true ->
    accounted name replace art (Err Finalized_previous_restored) [Took name p; Put name p] s
| recoverable p s :
    replace = true -> root_kept s = Some true -> previous s = Some p -> artifact s = Some art ->
    accounted name replace art (Err NotCommitted_recovery_kept) [Took name p] s.

Lemma commit_closure_accounted name replace s art r s' :
  previous s = None -> root_kept s = None -> artifact s = Some art ->
  commit_closure fails others name replace s = (r, s') ->
  exists es, moved s s' es /\ accounted name replace art r es s' /\
    (root_kept s' = None \/ (root_kept s' = Some true /\ r = Err NotCommitted_recovery_kept)).
Proof.
  intros Hp Hk Ha. unfold commit_closure.
  destruct (path_exists _ _ _ _) as [o s1] eqn:E1.
  apply path_exists_moved in E1 as (M1 & A1 & P1 & K1).
  rewrite Ha in A1. rewrite Hp in P1. rewrite Hk in K1.
  destruct o as [ex|]; [|intros [= <- <-]; exists []; split_and!; [done|by constructor|by left]].
  destruct (ex && negb replace) eqn:Eg;
    [intros [= <- <-]; exists []; split_and!; [done|by constructor|by left]|].
  destruct ex.
  - destruct replace; [|done].
    destruct (rename_existing _ _ _ _) as [b s2] eqn:E2.
    apply rename_existing_moved in E2 as (A2 & K2 & H2); [|done].
    destruct b; simpl.
    2:{ intros [= <- <-]. destruct H2 as [M2 _]. exists []. split_and!; [by apply (moved_trans _ _ _ [] [] M1)|by constructor|left; congruence]. }
    destruct H2 as (p & M2 & P2). pose proof (moved_trans _ _ _ _ _ M1 M2) as M12.
    destruct (promote _ _ _ _) as [b s3] eqn:E3. apply promote_moved in E3 as (P3 & K3 & H3).
    destruct b.
    + intros [= <- <-]. destruct H3 as (a & Hart & M3). assert (a = art) as -> by congruence.
      exists [Took name p; Put name art]. split_and!;
        [exact (moved_trans _ _ _ _ _ M12 M3)|by constructor|left; congruence].
    + destruct H3 as [M3 A3]. pose proof (moved_trans _ _ _ _ _ M12 M3) as M13.
      destruct (restore_previous _ _ _ _) as [b s4] eqn:E4.
      apply restore_previous_moved in E4 as (A4 & K4 & H4). destruct b; intros [= <- <-].
      * destruct H4 as (p' & Hp' & M4). assert (p' = p) as -> by congruence.
        exists [Took name p; Put name p]. split_and!;
          [exact (moved_trans _ _ _ _ _ M13 M4)|by constructor|left; congruence].
      * destruct H4 as [M4 P4]. exists [Took name p]. split_and!;
          [exact (moved_trans _ _ _ _ _ M13 M4)|constructor; simpl; congruence|by right].
  - destruct (promote _ _ _ _) as [b s3] eqn:E3. apply promote_moved in E3 as (P3 & K3 & H3).
    destruct b; intros [= <- <-].
    + destruct H3 as (a & Hart & M3). assert (a = art) as -> by congruence.
      exists [Put name art]. split_and!; [exact (moved_trans _ _ _ _ _ M1 M3)|by constructor|left; congruence].
    + destruct H3 as [M3 A3]. exists []. split_and!;
        [exact (moved_trans _ _ _ _ _ M1 M3)|by constructor|left; congruence].
Qed.

Lemma close_root_moved s : moved s (close_root fails others debris s) [].
Proof. unfold close_root. destruct (fails (calls s)); exists [Others (calls s)]; done. Qed.

Lemma accounted_stage name rep art r es s s' :
  r <> Err NotCommitted_recovery_kept -> accounted name rep art r es s -> accounted name rep art r es s'.
Proof. intros Hr. inversion 1; subst; try done; by constructor. Qed.

(** C9: whatever calls fail and whatever other processes do
    to the directory meanwhile, the log of a commit tells the directory's history
    without this transaction ever putting something over an entry or taking one
    it did not find; and what it did itself is one of: the artifact put on a free
    name; a previous output taken, with leave to replace, and the artifact put in
    its place; nothing, with an error; the previous output taken and put back,
    with an error; or the previous output taken and kept together with the
    artifact in a recovery directory the error names. *)
Theorem commit_loses_nothing name replace s art r s' :
  previous s = None -> root_kept s = None -> log s = [] -> artifact s = Some art ->
  commit fails others debris name replace s = (r, s') ->
  replay others (parent_dir s) (log s') = Some (parent_dir s') /\
  accounted name replace art r (own (log s')) s'.
Proof.
  intros Hp Hk Hlog Ha. unfold commit.
  destruct (commit_closure _ _ _ _ _) as [outcome s1] eqn:E.
  apply (commit_closure_accounted _ _ s art) in E as (es & M & Hacc & Hkept); [|done..].
  assert (forall s2, moved s s2 es -> accounted name replace art outcome es s2 ->
    replay others (parent_dir s) (log s2) = Some (parent_dir s2) /\
    accounted name replace art outcome (own (log s2)) s2) as Hdone.
  { intros s2 (l & Hl & Ho & Hr). rewrite Hlog in Hl. simpl in Hl. by rewrite Hl, Ho. }
  destruct Hkept as [Hn|[Hkept ->]]; rewrite ?Hn, ?Hkept; intros [= <- <-]; [|by apply Hdone].
  apply Hdone.
  - pose proof (moved_trans _ _ _ _ _ M (close_root_moved s1)) as M'. by rewrite app_nil_r in M'.
  - eapply accounted_stage; [|exact Hacc]. intros ->. inversion Hacc; subst; congruence.
Qed.
End commit_props.

(** ** The lock of a directory *)

(** [DESTINATION_LOCKS]: the weak reference a key names, as the id of its mutex,
    and the tasks that own a [DestinationLock], with how far each has come:
    created, its mutex locked, unlocked again, and past [Drop::drop], after
    which only the field [mutex] is left to be dropped. *)
Inductive Phase := Created | Guarded | Unguarded | Unregistered.

#[export] Instance Phase_eq_dec : EqDecision Phase.
Proof. solve_decision. Defined.

Record DestinationLock := mk_lock { key : str; mutex : nat; phase : Phase }.

Record Locks := mk_locks {
  registry : gmap str nat;
  owners : gmap nat DestinationLock;
  next_mutex : nat
}.

(** [Arc::strong_count]: an owner counts until its field is dropped. *)
Definition strong_count (s : Locks) (m : nat) : nat :=
  size (filter (fun kv : nat * DestinationLock => mutex kv.2 = m) (owners s)).

(** [DestinationLock::acquire], under the registry's lock. *)
Definition acquire (task : nat) (k : str) (s : Locks) : Locks :=
  match registry s !! k with
  | Some m =>
      if (0 <? strong_count s m)%nat then
        mk_locks (registry s) (<[task := mk_lock k m Created]> (owners s)) (next_mutex s)
      else
        mk_locks (<[k := next_mutex s]> (registry s))
          (<[task := mk_lock k (next_mutex s) Created]> (owners s)) (S (next_mutex s))
  | None =>
      mk_locks (<[k := next_mutex s]> (registry s))
        (<[task := mk_lock k (next_mutex s) Created]> (owners s)) (S (next_mutex s))
  end.

Definition set_phase (task : nat) (l : DestinationLock) (p : Phase) (s : Locks) : Locks :=
  mk_locks (registry s) (<[task := mk_lock (key l) (mutex l) p]> (owners s)) (next_mutex s).

(** [Drop::drop], under the registry's lock. *)
Definition drop_lock (task : nat) (l : DestinationLock) (s : Locks) : Locks :=
  let is_current_entry := bool_decide (registry s !! key l = Some (mutex l)) in
  let registry' :=
    if is_current_entry && (strong_count s (mutex l) =? 1)%nat then delete (key l) (registry s)
    else registry s in
  mk_locks registry' (<[task := mk_lock (key l) (mutex l) Unregistered]> (owners s)) (next_mutex s).

(** The guard of [commit_with_hooks] is dropped before its lock, and the lock's
    field after [Drop::drop]; tasks interleave between these. *)
Inductive lock_step : Locks -> Locks -> Prop :=
| step_acquire s task k : owners s !! task = None -> lock_step s (acquire task k s)
| step_guard s task l :
    owners s !! task = Some l -> phase l = Created ->
    (forall task' l', owners s !! task' = Some l' -> phase l' = Guarded -> mutex l' <> mutex l) ->
    lock_step s (set_phase task l Guarded s)
| step_unguard s task l :
    owners s !! task = Some l -> phase l = Guarded -> lock_step s (set_phase task l Unguarded s)
| step_drop s task l :
    owners s !! task = Some l -> phase l = Unguarded -> lock_step s (drop_lock task l s)
| step_drop_field s task l :
    owners s !! task = Some l -> phase l = Unregistered ->
    lock_step s (mk_locks (registry s) (delete task (owners s)) (next_mutex s)).

Definition no_locks : Locks := mk_locks ∅ ∅ 0.

Inductive lock_reach : Locks -> Prop :=
| reach_none : lock_reach no_locks
| reach_next s s' : lock_reach s -> lock_step s s' -> lock_reach s'.

Lemma strong_count_pos s task l :
  owners s !! task = Some l -> (0 < strong_count s (mutex l))%nat.
Proof.
  intros Hl. unfold strong_count. apply Nat.neq_0_lt_0. rewrite map_size_non_empty_iff.
  intros He. assert (filter (fun kv : nat * DestinationLock => mutex kv.2 = mutex l) (owners s) !! task = Some l)
    as Hf by (by apply map_lookup_filter_Some).
  rewrite He in Hf. by rewrite lookup_empty in Hf.
Qed.

Lemma strong_count_two s t t' l l' :
  t <> t' -> owners s !! t = Some l -> owners s !! t' = Some l' -> mutex l = mutex l' ->
  (1 < strong_count s (mutex l))%nat.
Proof.
  intros Hne Hl Hl' Hm. unfold strong_count.
  set (f := filter (fun kv : nat * DestinationLock => mutex kv.2 = mutex l) (owners s)).
  assert (f !! t = Some l) as Ht by (by apply map_lookup_filter_Some).
  assert (f !! t' = Some l') as Ht' by (by apply map_lookup_filter_Some).
  assert (size (delete t f) <> 0%nat) as Hd.
  { rewrite map_size_non_empty_iff. intros He.
    assert (delete t f !! t' = Some l') as Hx by (by rewrite lookup_delete_ne).
    rewrite He in Hx. by rewrite lookup_empty in Hx. }
  rewrite map_size_delete_Some in Hd by eauto. lia.
Qed.

(** The owners that have not left the registry share the mutex it names. *)
Definition locks_ok (s : Locks) : Prop :=
  (forall t l, owners s !! t = Some l -> phase l <> Unregistered -> registry s !! key l = Some (mutex l)) /\
  (forall t t' l l', owners s !! t = Some l -> owners s !! t' = Some l' ->
     phase l = Guarded -> phase l' = Guarded -> mutex l = mutex l' -> t = t') /\
  (forall t l, owners s !! t = Some l -> (mutex l < next_mutex s)%nat).

(** Follows one owner through the insertion of another. *)
Ltac owner_cases H :=
  apply lookup_insert_Some in H as [[<- <-]|[? H]].

Lemma acquire_fresh s task k :
  locks_ok s -> owners s !! task = None ->
  (forall m, registry s !! k = Some m -> strong_count s m = 0%nat) ->
  locks_ok (mk_locks (<[k := next_mutex s]> (registry s))
    (<[task := mk_lock k (next_mutex s) Created]> (owners s)) (S (next_mutex s))).
Proof.
  intros (Hreg & Hex & Hlt) Hnone Hdead. split_and!; cbn [registry owners next_mutex].
  - intros t l Hl Hp. owner_cases Hl; [by rewrite lookup_insert_eq|].
    destruct (decide (key l = k)) as [<-|Hk]; [|rewrite lookup_insert_ne by done; by eapply Hreg].
    pose proof (strong_count_pos s t l Hl) as Hs. rewrite (Hdead _ (Hreg t l Hl Hp)) in Hs. lia.
  - intros t t' l l' Hl Hl' Hp Hp' Hm. owner_cases Hl; [done|]. owner_cases Hl'; [done|].
    by eapply Hex.
  - intros t l Hl. owner_cases Hl; [simpl; lia|]. specialize (Hlt t l Hl). lia.
Qed.

Lemma locks_ok_acquire s task k :
  locks_ok s -> owners s !! task = None -> locks_ok (acquire task k s).
Proof.
  intros Hok Hnone. unfold acquire. destruct (registry s !! k) as [m|] eqn:Ek;
    [|apply acquire_fresh; [done|done|congruence]].
  destruct (Nat.ltb_spec 0 (strong_count s m)) as [Hs|Hs];
    [|apply acquire_fresh; [done|done|intros m' Hm'; assert (m' = m) by congruence; subst; lia]].
  destruct Hok as (Hreg & Hex & Hlt). split_and!; cbn [registry owners next_mutex].
  - intros t l Hl Hp. owner_cases Hl; [done|by eapply Hreg].
  - intros t t' l l' Hl Hl' Hp Hp' Hm. owner_cases Hl; [done|]. owner_cases Hl'; [done|]. by eapply Hex.
  - intros t l Hl. owner_cases Hl; [|by eapply Hlt]. cbn [mutex].
    unfold strong_count in Hs. apply Nat.neq_0_lt_0, map_size_non_empty_iff, map_choose in Hs
      as (t & l & Hf). apply map_lookup_filter_Some in Hf as [Hf <-]. by eapply Hlt.
Qed.

Lemma locks_ok_guard s task l :
  locks_ok s -> owners s !! task = Some l -> phase l = Created ->
  (forall task' l', owners s !! task' = Some l' -> phase l' = Guarded -> mutex l' <> mutex l) ->
  locks_ok (set_phase task l Guarded s).
Proof.
  intros (Hreg & Hex & Hlt) Hl Hp Hfree. split_and!; cbn [set_phase registry owners next_mutex].
  - intros t l' Hl' Hp'. owner_cases Hl'; [|by eapply Hreg]. cbn. eapply Hreg; [exact Hl|]. by rewrite Hp.
  - intros t t' l1 l2 H1 H2 Hp1 Hp2 Hm. owner_cases H1; owner_cases H2; [done|..].
    + by destruct (Hfree _ _ H2 Hp2).
    + by destruct (Hfree _ _ H1 Hp1).
    + by eapply Hex.
  - intros t l' Hl'. owner_cases Hl'; [exact (Hlt _ _ Hl)|by eapply Hlt].
Qed.

(** A task that gives up its guard or its entry guards nothing. *)
Lemma locks_ok_release s task l p reg :
  locks_ok s -> owners s !! task = Some l -> p <> Guarded ->
  (forall t l', owners s !! t = Some l' -> t <> task -> phase l' <> Unregistered ->
     reg !! key l' = Some (mutex l')) ->
  (p <> Unregistered -> reg !! key l = Some (mutex l)) ->
  locks_ok (mk_locks reg (<[task := mk_lock (key l) (mutex l) p]> (owners s)) (next_mutex s)).
Proof.
  intros (Hreg & Hex & Hlt) Hl Hp Hothers Hown. split_and!; cbn [registry owners next_mutex].
  - intros t l' Hl' Hp'. owner_cases Hl'; [by apply Hown|]. by eapply Hothers.
  - intros t t' l1 l2 H1 H2 Hp1 Hp2 Hm. owner_cases H1; [done|]. owner_cases H2; [done|]. by eapply Hex.
  - intros t l' Hl'. owner_cases Hl'; [exact (Hlt _ _ Hl)|by eapply Hlt].
Qed.

Lemma locks_ok_step s s' : locks_ok s -> lock_step s s' -> locks_ok s'.
Proof.
  intros Hok Hstep. pose proof Hok as (Hreg & Hex & Hlt).
  destruct Hstep as [s task k Hnone|s task l Hl Hp Hfree|s task l Hl Hp|s task l Hl Hp|s task l Hl Hp].
  - by apply locks_ok_acquire.
  - by apply locks_ok_guard.
  - apply locks_ok_release; [done|done|done|by eauto|]. intros _. eapply Hreg; [exact Hl|]. by rewrite Hp.
  - unfold drop_lock. apply locks_ok_release; [done|done|done| |done].
    intros t l' Hl' Hne Hp'. pose proof (Hreg t l' Hl' Hp') as Hk.
    case_bool_decide as Hcur; [|exact Hk]. cbn [andb].
    destruct (Nat.eqb_spec (strong_count s (mutex l)) 1) as [Hone|]; [|exact Hk].
    destruct (decide (key l' = key l)) as [Heq|]; [|by rewrite lookup_delete_ne].
    assert (mutex l = mutex l') as Hm by congruence.
    pose proof (strong_count_two s task t l l' ltac:(done) Hl Hl' Hm). lia.
  - split_and!; cbn [registry owners next_mutex].
    + intros t l' [_ Hl']%lookup_delete_Some. by eapply Hreg.
    + intros t t' l1 l2 [_ H1]%lookup_delete_Some [_ H2]%lookup_delete_Some. by eapply Hex.
    + intros t l' [_ Hl']%lookup_delete_Some. by eapply Hlt.
Qed.

Lemma locks_ok_reach s : lock_reach s -> locks_ok s.
Proof.
  induction 1 as [|s s' _ IH Hs]; [|by eapply locks_ok_step].
  split_and!; intros *; cbn [no_locks owners]; rewrite lookup_empty; done.
Qed.

(** In every interleaving of tasks that acquire, lock,
    unlock and drop the lock of a directory, with references dropped late and
    entries removed early or left dead, two tasks are never inside a commit into
    one directory at once. *)
Theorem commits_exclusive s t t' l l' :
  lock_reach s -> owners s !! t = Some l -> owners s !! t' = Some l' ->
  phase l = Guarded -> phase l' = Guarded -> key l = key l' -> t = t'.
Proof.
  intros Hr Hl Hl' Hp Hp' Hk. apply locks_ok_reach in Hr as (Hreg & Hex & _).
  eapply Hex; [exact Hl|exact Hl'|done|done|].
  pose proof (Hreg t l Hl ltac:(by rewrite Hp)). pose proof (Hreg t' l' Hl' ltac:(by rewrite Hp')).
  congruence.
Qed.

(** A verified folder has no link and no special node at any depth. *)
Inductive regular : Node -> Prop :=
| regular_file content : regular (RegularFile content)
| regular_directory mode entries :
    Forall (fun e => regular e.2) entries -> regular (Directory mode entries).

Lemma verify_entry_regular name node : verify_entry name node = Ok tt -> regular node.
Proof.
  revert name node. fix IH 2. intros name [content|mode entries| |] H; [constructor| |done|done].
  constructor. simpl in H. induction entries as [|[n child] rest IHr]; [constructor|].
  destruct (verify_entry n child) as [[]|e] eqn:E; [|discriminate H]. simpl in H.
  constructor; [|by apply IHr]. exact (IH n child E).
Qed.

Lemma verify_folder_regular node :
  verify Folder (Some node) = Ok tt -> exists mode entries, node = Directory mode entries /\ regular node.
Proof.
  destruct node as [|mode entries| |]; [done| |done|done]. intros H.
  exists mode, entries. split; [done|exact (verify_entry_regular [] _ H)].
Qed.

Module TransactionExample.

Definition old : Node := RegularFile §"old".
Definition fresh : Node := RegularFile §"fresh".
Definition arrival : Node := Directory 493 [].
Definition name : str := §"game.zip".
Definition start : Stage := mk_stage {[ name := old ]} (Some fresh) None None [] 0.

(** Another process makes the destination again as soon as it is free. *)
Definition intruder (k : nat) (d : Dir) : Dir :=
  match d !! name with None => <[name := arrival]> d | Some _ => d end.

Lemma commit_loses_nothing_witness :
  let '(r, s') := commit (fun _ => false) intruder (fun _ => (None, None)) name true start in
  (replay intruder {[ name := old ]} (log s') = Some (parent_dir s') /\
   accounted name true fresh r (own (log s')) s') /\
  r = Err NotCommitted_recovery_kept /\ previous s' = Some old /\ artifact s' = Some fresh.
Proof.
  destruct (commit (fun _ => false) intruder (fun _ => (None, None)) name true start) as [r s'] eqn:E.
  split; [|vm_compute in E; injection E as <- <-; done].
  apply (commit_loses_nothing (fun _ => false) intruder (fun _ => (None, None)) name true start fresh r s');
    [reflexivity|reflexivity|reflexivity|reflexivity|exact E].
Defined.

Definition one_inside : Locks :=
  acquire 1 §"/out" (set_phase 0 (mk_lock §"/out" 0 Created) Guarded (acquire 0 §"/out" no_locks)).

Lemma one_inside_reach : lock_reach one_inside.
Proof.
  eapply reach_next; [eapply reach_next; [eapply reach_next; [apply reach_none|]|]|].
  - apply (step_acquire no_locks 0 §"/out"). reflexivity.
  - apply (step_guard _ 0 (mk_lock §"/out" 0 Created)); [reflexivity|reflexivity|].
    intros t l Hl.
    change (owners (acquire 0 §"/out" no_locks)) with ({[ 0%nat := mk_lock §"/out" 0 Created ]} : gmap nat _) in Hl.
    by apply lookup_singleton_Some in Hl as [_ <-].
  - apply step_acquire. reflexivity.
Qed.

Lemma commits_exclusive_witness :
  owners one_inside !! 1%nat = Some (mk_lock §"/out" 0 Created) /\ 0%nat = 0%nat.
Proof.
  split; [vm_compute; reflexivity|].
  apply (commits_exclusive one_inside 0 0 (mk_lock §"/out" 0 Guarded) (mk_lock §"/out" 0 Guarded));
    [exact one_inside_reach|vm_compute; reflexivity..].
Defined.

End TransactionExample.
