(* ===== verification/ApplyPlan.v ===== *)
(** Applying a plan to an extracted work directory
    ([crates/core/src/features/pipeline/apply_plan.rs]): the new layout is staged
    beside the work directory, then the top-level entries are swapped, through a
    backup, with a rollback when anything fails. *)

From stdpp Require Import base tactics option list strings gmap sets sorting.
From Stdlib Require Import ZArith Lia Ascii.
From S2P Require Import Prelude Text RelPath Layout Outputs TitleFilter Planner OutputTransaction.
Local Open Scope arclain_scope.

(** ** The three directories *)

Inductive Place := Work | Staging | Backup.

#[export] Instance Place_eq_dec : EqDecision Place.
Proof. solve_decision. Defined.

(** The top-level entries of each, and the number of filesystem calls so far.
    They are siblings in a directory of the run's own. *)
Record Swap := mk_swap { work : Dir; staging : Dir; backup : Dir; io_calls : nat }.

Definition dir (p : Place) (s : Swap) : Dir :=
  match p with Work => work s | Staging => staging s | Backup => backup s end.

Definition set_dir (p : Place) (d : Dir) (s : Swap) : Swap :=
  match p with
  | Work => mk_swap d (staging s) (backup s) (io_calls s)
  | Staging => mk_swap (work s) d (backup s) (io_calls s)
  | Backup => mk_swap (work s) (staging s) d (io_calls s)
  end.

Definition next_call (s : Swap) : Swap := mk_swap (work s) (staging s) (backup s) (S (io_calls s)).

Inductive SwapError :=
| InvalidPlan (e : PlanError)
| StagingFailed
| StagedNothing
| BadEntryName (e : PathError)
| Unresolved (name : str)
| InspectFailed (name : str)
| WouldReplace (name : str)
| MoveFailed (name : str)
| PermissionsNotRestored (name : str)
| MetadataFailed.

(** How a filesystem call ends, when it could have been done at all. *)
Inductive Outcome := Done | Denied | Broken.

Section swap.
(** The [n]th call, and whether the [n]th restoration of permissions works. *)
Context (io : nat -> Outcome) (restores : nat -> bool).

(** One call that only looks. *)
Definition inspects (s : Swap) : bool :=
  match io (io_calls s) with Done => true | _ => false end.

(** [fs::rename] of an entry from one directory to the other. *)
Definition fs_rename (name : str) (from to : Place) (s : Swap) : Outcome * Swap :=
  let s' := next_call s in
  match io (io_calls s) with
  | Done =>
      match dir from s !! name with
      | Some node =>
          (Done, set_dir to (<[name := node]> (dir to s)) (set_dir from (delete name (dir from s)) s'))
      | None => (Broken, s')
      end
  | refusal => (refusal, s')
  end.

(** [set_mode(mode | 0o200)] on the way there, the original mode on the way back. *)
Definition with_mode (m : Z) (node : Node) : Node :=
  match node with Directory _ entries => Directory m entries | other => other end.

Definition rename_read_only_directory (name : str) (from to : Place) (s : Swap)
  : result SwapError unit * Swap :=
  let s1 := next_call s in
  if negb (inspects s) then (Err (MoveFailed name), s1) else
  match dir from s1 !! name with
  | Some (Directory original entries) =>
      let s2 := next_call s1 in
      if negb (inspects s1) then (Err (MoveFailed name), s2) else
      let writable := Directory (Z.lor original 128) entries in
      let s3 := set_dir from (<[name := writable]> (dir from s2)) s2 in
      let '(moved, s4) := fs_rename name from to s3 in
      let restore_at := match moved with Done => to | _ => from end in
      let restored := restores (io_calls s4) in
      let s5 :=
        if restored then
          set_dir restore_at (alter (with_mode original) name (dir restore_at s4)) (next_call s4)
        else next_call s4 in
      match moved with
      | Done => if restored then (Ok tt, s5) else (Err (PermissionsNotRestored name), s5)
      | _ => (Err (MoveFailed name), s5)
      end
  | _ => (Err (MoveFailed name), s1)
  end.

Definition rename_noclobber (name : str) (from to : Place) (s : Swap)
  : result SwapError unit * Swap :=
  let s1 := next_call s in
  if negb (inspects s) then (Err (InspectFailed name), s1)
  else if bool_decide (is_Some (dir to s1 !! name)) then (Err (WouldReplace name), s1)
  else
    match fs_rename name from to s1 with
    | (Done, s2) => (Ok tt, s2)
    | (Denied, s2) => rename_read_only_directory name from to s2
    | (Broken, s2) => (Err (MoveFailed name), s2)
    end.

(** [resolve_under] of a top-level name: it refuses a link. *)
Definition resolve_entry (name : str) (p : Place) (s : Swap) : bool * Swap :=
  (inspects s && negb (bool_decide (dir p s !! name = Some Symlink)), next_call s).

(** The loops over [original_entries] and [staged_entries], with the list of
    what was moved: what is on it can be rolled back. *)
Fixpoint move_all (from to : Place) (names : list str) (moved : list str) (s : Swap)
  : option SwapError * list str * Swap :=
  match names with
  | [] => (None, moved, s)
  | name :: rest =>
      let '(ok, s1) := resolve_entry name from s in
      if negb ok then (Some (Unresolved name), moved, s1) else
      let '(ok, s2) := resolve_entry name to s1 in
      if negb ok then (Some (Unresolved name), moved, s2) else
      match rename_noclobber name from to s2 with
      | (Ok _, s3) => move_all from to rest (moved ++ [name]) s3
      | (Err e, s3) => (Some e, moved, s3)
      end
  end.

(** One loop of [rollback_layout_swap], over the reversed list. *)
Fixpoint revert_all (from to : Place) (names : list str) (s : Swap) : list SwapError * Swap :=
  match names with
  | [] => ([], s)
  | name :: rest =>
      let '(r, s1) := rename_noclobber name from to s in
      let '(failures, s2) := revert_all from to rest s1 in
      (match r with Ok _ => failures | Err e => e :: failures end, s2)
  end.

Definition rollback_layout_swap (promoted backed_up : list str) (s : Swap) : list SwapError * Swap :=
  let '(f1, s1) := revert_all Work Staging (rev promoted) s in
  let '(f2, s2) := revert_all Backup Work (rev backed_up) s1 in
  (f1 ++ f2, s2).

(** [apply_deferred_plan_metadata] (organizer.rs) sets times and permissions of
    what was promoted: whether it works, and the work directory after it. *)
Context (deferred : Dir -> bool * Dir).

(** The closure of the swap. *)
Definition swap_layout (original_entries staged_entries : list str) (s : Swap)
  : option SwapError * list str * list str * Swap :=
  match move_all Work Backup original_entries [] s with
  | (Some e, backed_up, s1) => (Some e, [], backed_up, s1)
  | (None, backed_up, s1) =>
      match move_all Staging Work staged_entries [] s1 with
      | (Some e, promoted, s2) => (Some e, promoted, backed_up, s2)
      | (None, promoted, s2) =>
          let '(ok, d) := deferred (work s2) in
          (if ok then None else Some MetadataFailed, promoted, backed_up, set_dir Work d s2)
      end
  end.

(** ** The transaction *)

(** What is left: the work directory, and the two others where they still
    exist. [kept]: they were kept as recovery data. *)
Record Final := mk_final {
  final_work : Dir;
  final_staging : option Dir;
  final_backup : option Dir;
  kept : bool
}.

Inductive Verdict :=
| Committed
| CommittedWithCleanupWarnings
| RolledBack (e : SwapError)
| RolledBackUncleaned (e : SwapError)
| RollbackFailed (e : SwapError) (failures : list SwapError).

(** What a failed removal leaves of a directory. *)
Context (debris : nat -> Dir).

(** [TempDir::close]. *)
Definition close_dir (s : Swap) : bool * option Dir * Swap :=
  (inspects s, if inspects s then None else Some (debris (io_calls s)), next_call s).

Definition finish_failed (e : SwapError) (promoted backed_up : list str) (s : Swap)
  : Verdict * Final :=
  match rollback_layout_swap promoted backed_up s with
  | ([], s1) =>
      let '(ok_backup, b, s2) := close_dir s1 in
      let '(ok_staging, st, s3) := close_dir s2 in
      (if ok_backup && ok_staging then RolledBack e else RolledBackUncleaned e,
       mk_final (work s3) st b false)
  | (failures, s1) =>
      (RollbackFailed e failures, mk_final (work s1) (Some (staging s1)) (Some (backup s1)) true)
  end.

Definition finish_committed (s : Swap) : Verdict * Final :=
  let '(ok, st, s1) := close_dir s in
  if negb ok then
    (CommittedWithCleanupWarnings, mk_final (work s1) st (Some (backup s1)) true)
  else
    let '(ok, b, s2) := close_dir s1 in
    (if ok then Committed else CommittedWithCleanupWarnings, mk_final (work s2) st b false).

(** [checked_top_level_entries]: the names in order, each a checked path. A name
    with a backslash in it would become a path of two components; the model is of
    directories without such names. *)
Definition checked_top_level_entries (d : Dir) : result SwapError (list str) :=
  try_fold (fun names name =>
    match checked_relative_path name with
    | Ok checked => Ok (names ++ [checked])
    | Err e => Err (BadEntryName e)
    end) [] (btree_elements (dom d)).

(** Giving up before the swap: the staging directory is closed. *)
Definition abandon (e : SwapError) (work_dir : Dir) : Verdict * Final :=
  let '(ok, st, s) := close_dir (mk_swap work_dir ∅ ∅ 0) in
  (if ok then RolledBack e else RolledBackUncleaned e, mk_final (work s) st None false).

(** [apply_plan_transaction_with_hooks]. [staged] is the staging directory the
    copies, generated files and checks before the swap build, or their failure;
    nothing of the work directory has been touched by then. *)
Definition apply_plan_transaction {UT : UnicodeTables} (plan : OrganizationPlan)
    (staged : option Dir) (work_dir : Dir) : Verdict * Final :=
  match validate_paths plan with
  | Err e => (RolledBack (InvalidPlan e), mk_final work_dir None None false)
  | Ok _ =>
      match staged with
      | None => abandon StagingFailed work_dir
      | Some layout =>
          match checked_top_level_entries work_dir, checked_top_level_entries layout with
          | Ok original_entries, Ok staged_entries =>
              if bool_decide (staged_entries = []) then abandon StagedNothing work_dir
              else
                match swap_layout original_entries staged_entries (mk_swap work_dir layout ∅ 0) with
                | (Some e, promoted, backed_up, s) => finish_failed e promoted backed_up s
                | (None, _, _, s) => finish_committed s
                end
          | Err e, _ | _, Err e => abandon e work_dir
          end
      end
  end.
End swap.

(** ** One move *)

Section moves.
Context (io : nat -> Outcome) (restores : nat -> bool).
Context (restores_ok : forall n, restores n = true).

Definition same_dirs (s s' : Swap) : Prop :=
  work s' = work s /\ staging s' = staging s /\ backup s' = backup s.

Lemma same_dirs_dir s s' p : same_dirs s s' -> dir p s' = dir p s.
Proof. intros (? & ? & ?). by destruct p. Qed.

Lemma same_dirs_trans s s' s'' : same_dirs s s' -> same_dirs s' s'' -> same_dirs s s''.
Proof. unfold same_dirs. intros (-> & -> & ->). done. Qed.

(** [relocated name from to s s']: the entry went from one directory to the
    other, as it was, and nothing else changed. *)
Definition relocated (name : str) (from to : Place) (s s' : Swap) : Prop :=
  exists node, dir from s !! name = Some node /\ dir to s !! name = None /\
    dir from s' = delete name (dir from s) /\ dir to s' = <[name := node]> (dir to s) /\
    forall p, p <> from -> p <> to -> dir p s' = dir p s.

Lemma dir_set_eq p d s : dir p (set_dir p d s) = d.
Proof. by destruct p. Qed.

Lemma dir_set_ne p q d s : p <> q -> dir p (set_dir q d s) = dir p s.
Proof. by destruct p, q. Qed.

Lemma dir_next p s : dir p (next_call s) = dir p s.
Proof. by destruct p. Qed.

Lemma same_dirs_next s : same_dirs s (next_call s).
Proof. done. Qed.

Lemma relocated_same name from to s s0 s' :
  same_dirs s s0 -> relocated name from to s0 s' -> relocated name from to s s'.
Proof.
  intros H (node & H1 & H2 & H3 & H4 & H5). exists node.
  rewrite !(same_dirs_dir s s0) in * by done. split_and!; [done..|].
  intros p Hp Hq. by rewrite (H5 p Hp Hq), (same_dirs_dir s s0).
Qed.

Lemma fs_rename_spec name from to s o s' :
  from <> to -> dir to s !! name = None -> fs_rename io name from to s = (o, s') ->
  (o = Done /\ relocated name from to s s') \/ (o <> Done /\ same_dirs s s').
Proof.
  intros Hne Hto. unfold fs_rename. destruct (io (io_calls s)); [|intros [= <- <-]; by right..].
  destruct (dir from s !! name) as [node|] eqn:E; intros [= <- <-]; [left|by right].
  split; [done|]. exists node. split_and!; [done|done| | |].
  - by rewrite dir_set_ne, dir_set_eq.
  - by rewrite dir_set_eq.
  - intros p Hp Hq. by rewrite !dir_set_ne, dir_next.
Qed.

Lemma set_dir_id p d s : d = dir p s -> same_dirs s (set_dir p d s).
Proof. intros ->. by destruct p. Qed.

Lemma rename_read_only_spec name from to s r s' :
  from <> to -> dir to s !! name = None ->
  rename_read_only_directory io restores name from to s = (r, s') ->
  (r = Ok tt /\ relocated name from to s s') \/ (is_ok r = false /\ same_dirs s s').
Proof.
  intros Hne Hto. unfold rename_read_only_directory.
  destruct (inspects io s); cbn [negb]; [|intros [= <- <-]; by right].
  rewrite dir_next.
  destruct (dir from s !! name) as [[|original entries| |]|] eqn:Ef;
    try (intros [= <- <-]; by right).
  destruct (inspects io (next_call s)); cbn [negb]; [|intros [= <- <-]; by right].
  rewrite !dir_next.
  set (s3 := set_dir from _ _). destruct (fs_rename io name from to s3) as [o s4] eqn:E.
  assert (dir to s3 = dir to s) as Hto3 by (unfold s3; by rewrite dir_set_ne, !dir_next).
  assert (dir from s3 = <[name := Directory (Z.lor original 128) entries]> (dir from s)) as Hfrom3
    by (unfold s3; by rewrite dir_set_eq).
  assert (forall p, p <> from -> dir p s3 = dir p s) as Hp3
    by (intros p Hp; unfold s3; by rewrite dir_set_ne, !dir_next).
  apply fs_rename_spec in E; [|done|by rewrite Hto3]. rewrite restores_ok.
  destruct E as [[-> (node & H1 & H2 & H3 & H4 & H5)]|[Ho Hsame]].
  - intros [= <- <-]. left. split; [done|]. exists (Directory original entries).
    rewrite Hfrom3, lookup_insert_eq in H1. injection H1 as <-.
    split_and!; [done|done| | |].
    + rewrite dir_set_ne, dir_next, H3, Hfrom3 by done. by rewrite delete_insert_eq.
    + rewrite dir_set_eq, H4, Hto3. apply map_eq. intros n.
      destruct (decide (n = name)) as [->|]; [by rewrite lookup_alter_eq, !lookup_insert_eq|].
      by rewrite lookup_alter_ne, !lookup_insert_ne.
    + intros p Hp Hq. by rewrite dir_set_ne, dir_next, H5, Hp3.
  - assert (match o with Done => to | _ => from end = from) as Hat by (by destruct o).
    rewrite Hat. intros Hr.
    assert (same_dirs s (set_dir from (alter (with_mode original) name (dir from s4)) (next_call s4))) as Hs.
    { assert (alter (with_mode original) name (dir from s4) = dir from s) as ->.
      { rewrite (same_dirs_dir s3 s4) by done. rewrite Hfrom3. apply map_eq. intros n.
        destruct (decide (n = name)) as [->|]; [by rewrite lookup_alter_eq, lookup_insert_eq, Ef|].
        by rewrite lookup_alter_ne, lookup_insert_ne. }
      destruct Hsame as (Hw & Hst & Hb). unfold s3 in *.
      destruct from; unfold same_dirs; cbn in *; rewrite ?Hw, ?Hst, ?Hb; done. }
    right. destruct o; [done|..]; injection Hr as <- <-; done.
Qed.

Lemma rename_noclobber_spec name from to s r s' :
  from <> to -> rename_noclobber io restores name from to s = (r, s') ->
  (r = Ok tt /\ relocated name from to s s') \/ (is_ok r = false /\ same_dirs s s').
Proof.
  intros Hne. unfold rename_noclobber.
  destruct (inspects io s); cbn [negb]; [|intros [= <- <-]; by right].
  rewrite dir_next. case_bool_decide as Hex; [intros [= <- <-]; by right|].
  assert (dir to (next_call s) !! name = None) as Hto
    by (rewrite dir_next; by destruct (dir to s !! name); [destruct Hex|]).
  destruct (fs_rename io name from to (next_call s)) as [o s2] eqn:E.
  apply fs_rename_spec in E as [[-> Hr]|[Ho Hsame]]; [| |done|done].
  - intros [= <- <-]. left. split; [done|]. by eapply relocated_same.
  - assert (same_dirs s s2) as Hs by (by eapply same_dirs_trans).
    destruct o; [done| |intros [= <- <-]; by right]. intros Hr.
    apply rename_read_only_spec in Hr as [[-> Hr]|[? ?]]; [| |done|].
    + left. split; [done|]. by eapply relocated_same.
    + right. split; [done|]. by eapply same_dirs_trans.
    + rewrite (same_dirs_dir s s2) by done. by rewrite dir_next in Hto.
Qed.
End moves.

(** ** The loops *)

Lemma elem_of_rev {A : Type} (x : A) l : x ∈ rev l <-> x ∈ l.
Proof. by rewrite !list_elem_of_In, <-in_rev. Qed.

Section loops.
Context (io : nat -> Outcome) (restores : nat -> bool).
Context (restores_ok : forall n, restores n = true).

(** The named entries, and no others, went from one directory to the other. *)
Definition shifted (names : list str) (from to : Place) (s s' : Swap) : Prop :=
  (forall n, n ∈ names -> exists node, dir from s !! n = Some node /\ dir to s !! n = None /\
     dir from s' !! n = None /\ dir to s' !! n = Some node) /\
  (forall n, n ∉ names -> dir from s' !! n = dir from s !! n /\ dir to s' !! n = dir to s !! n) /\
  (forall p, p <> from -> p <> to -> dir p s' = dir p s).

Lemma shifted_nil from to s : shifted [] from to s s.
Proof. split_and!; [by intros n ?%elem_of_nil|done|done]. Qed.

Lemma shifted_same names from to s0 s s' :
  same_dirs s s' -> shifted names from to s0 s -> shifted names from to s0 s'.
Proof.
  intros Hs (H1 & H2 & H3). split_and!; intros *; rewrite !(same_dirs_dir s s') by done; auto.
Qed.

Lemma shifted_snoc names name from to s0 s s' :
  shifted names from to s0 s -> relocated name from to s s' ->
  shifted (names ++ [name]) from to s0 s'.
Proof.
  intros (H1 & H2 & H3) (node & R1 & R2 & R3 & R4 & R5).
  assert (name ∉ names) as Hnew.
  { intros Hin. destruct (H1 _ Hin) as (? & ? & ? & Hnone & ?). congruence. }
  split_and!.
  - intros n. rewrite elem_of_app, list_elem_of_singleton. intros Hn. rewrite R3, R4.
    destruct (decide (n = name)) as [->|Hne].
    + exists node. destruct (H2 _ Hnew) as [Hf Ht].
      rewrite lookup_delete_eq, lookup_insert_eq. split_and!; [congruence..|done|done].
    + destruct Hn as [Hn|]; [|done]. destruct (H1 _ Hn) as (x & ? & ? & ? & ?). exists x.
      by rewrite lookup_delete_ne, lookup_insert_ne.
  - intros n. rewrite elem_of_app, list_elem_of_singleton. intros Hn. rewrite R3, R4.
    rewrite lookup_delete_ne, lookup_insert_ne by set_solver. apply H2. set_solver.
  - intros p Hp Hq. by rewrite R5, H3.
Qed.

Lemma move_all_spec names from to s0 moved s e moved' s' :
  from <> to -> shifted moved from to s0 s ->
  move_all io restores from to names moved s = (e, moved', s') ->
  shifted moved' from to s0 s' /\ (e = None -> moved' = moved ++ names).
Proof.
  intros Hne. revert moved s; induction names as [|name names IH]; intros moved s Hs; cbn [move_all].
  { intros [= <- <- <-]. split; [done|]. by rewrite app_nil_r. }
  unfold resolve_entry. destruct (negb _); [intros [= <- <- <-]; split; [by eapply shifted_same|done]|].
  destruct (negb _); [intros [= <- <- <-]; split; [by eapply shifted_same|done]|].
  destruct (rename_noclobber _ _ _ _ _ _) as [r s3] eqn:E.
  apply rename_noclobber_spec in E as [[-> Hr]|[Hr Hsame]]; [| |done|done].
  - intros H. apply IH in H as [H Hall].
    + split; [done|]. intros Hn. by rewrite (Hall Hn), <-app_assoc.
    + eapply shifted_snoc; [|exact Hr]. by eapply shifted_same.
  - destruct r; [done|]. intros [= <- <- <-]. split; [|done].
    eapply shifted_same; [exact Hsame|]. by eapply shifted_same.
Qed.

Lemma revert_all_spec names from to s0 moved s failures s' :
  from <> to -> shifted moved from to s0 s ->
  revert_all io restores from to names s = (failures, s') ->
  exists more, shifted (moved ++ more) from to s0 s' /\ more ⊆ names /\
    (failures = [] -> more = names).
Proof.
  intros Hne. revert moved s failures s';
    induction names as [|name names IH]; intros moved s failures s' Hs; cbn [revert_all].
  { intros [= <- <-]. exists []. by rewrite app_nil_r. }
  destruct (rename_noclobber _ _ _ _ _ _) as [r s1] eqn:E.
  destruct (revert_all _ _ _ _ _ s1) as [fs s2] eqn:E2. intros [= <- <-].
  apply rename_noclobber_spec in E as [[-> Hr]|[Hr Hsame]]; [| |done|done].
  - apply (IH (moved ++ [name])) in E2 as (more & H1 & H2 & H3); [|by eapply shifted_snoc].
    exists (name :: more). rewrite <-app_assoc in H1. split_and!; [exact H1|set_solver|].
    intros Hf. by rewrite (H3 Hf).
  - apply (IH moved) in E2 as (more & H1 & H2 & H3); [|by eapply shifted_same].
    exists more. split_and!; [done|set_solver|]. by destruct r.
Qed.

(** ** The rollback *)

(** What a failed swap of the layout [W] left behind: the entries of [W] not
    backed up are where they were, the others are in the backup, and every other
    entry of the work directory is on the list of promoted ones. *)
Definition recorded (W : Dir) (promoted backed_up : list str) (s : Swap) : Prop :=
  (forall n, n ∈ backed_up -> backup s !! n = W !! n /\ is_Some (W !! n)) /\
  (forall n, n ∉ promoted -> work s !! n = if decide (n ∈ backed_up) then None else W !! n) /\
  (forall n, n ∈ promoted -> n ∈ backed_up \/ W !! n = None).

Lemma rollback_spec W promoted backed_up s failures s' :
  recorded W promoted backed_up s ->
  rollback_layout_swap io restores promoted backed_up s = (failures, s') ->
  (failures = [] -> work s' = W) /\
  (forall n node, W !! n = Some node -> work s' !! n = Some node \/ backup s' !! n = Some node).
Proof.
  intros (Hb & Hw & Hp). unfold rollback_layout_swap.
  destruct (revert_all _ _ Work Staging _ _) as [f1 s1] eqn:E1.
  destruct (revert_all _ _ Backup Work _ _) as [f2 s2] eqn:E2. intros [= <- <-].
  apply (revert_all_spec _ _ _ s []) in E1 as (m1 & S1 & Hm1 & F1); [|done|apply shifted_nil].
  apply (revert_all_spec _ _ _ s1 []) in E2 as (m2 & S2 & Hm2 & F2); [|done|apply shifted_nil].
  cbn [app] in *. destruct S1 as (S1a & S1b & S1c), S2 as (S2a & S2b & _).
  pose proof (S1c Backup ltac:(done) ltac:(done)) as Hback. cbn [dir] in *.
  assert (forall n, n ∉ backed_up -> n ∉ m2) as Hout
    by (intros n Hn Hin; apply Hm2 in Hin; by rewrite elem_of_rev in Hin).
  split.
  - intros [H1 H2]%app_eq_nil. specialize (F1 H1). specialize (F2 H2). subst m1 m2.
    apply map_eq. intros n. destruct (decide (n ∈ backed_up)) as [Hin|Hin].
    + destruct (S2a n) as (node & Hnode & _ & _ & ->); [by apply elem_of_rev|].
      rewrite Hback in Hnode. destruct (Hb n Hin) as [? _]. congruence.
    + destruct (S2b n (Hout n Hin)) as [_ ->].
      destruct (decide (n ∈ promoted)) as [Hpin|Hpin].
      * destruct (S1a n) as (? & _ & _ & -> & _); [by apply elem_of_rev|].
        by destruct (Hp n Hpin) as [?| ->].
      * destruct (S1b n) as [-> _]; [by rewrite elem_of_rev|].
        rewrite (Hw n Hpin). by rewrite decide_False.
  - intros n node HW. destruct (decide (n ∈ backed_up)) as [Hin|Hin].
    + destruct (Hb n Hin) as [Hbn _]. rewrite HW, <-Hback in Hbn.
      destruct (decide (n ∈ m2)) as [Hm|Hm].
      * left. destruct (S2a n Hm) as (x & Hx & _ & _ & ->). congruence.
      * right. destruct (S2b n Hm) as [-> _]. congruence.
    + left. destruct (S2b n (Hout n Hin)) as [_ ->].
      assert (n ∉ promoted) as Hpn by (intros Hpn; destruct (Hp n Hpn); congruence).
      destruct (S1b n) as [-> _]; [|by rewrite (Hw n Hpn), decide_False].
      intros Hm. apply Hm1 in Hm. by rewrite elem_of_rev in Hm.
Qed.
End loops.

(** ** The transaction as a whole *)

Section transaction.
Context {UT : UnicodeTables} (io : nat -> Outcome) (restores : nat -> bool)
        (deferred : Dir -> bool * Dir) (debris : nat -> Dir).
Context (restores_ok : forall n, restores n = true).
Context (deferred_dom : forall d, dom (deferred d).2 = dom d).

(** A list of names that is all of a directory. *)
Definition lists (names : list str) (d : Dir) : Prop := forall n, n ∈ names <-> is_Some (d !! n).

Lemma lists_none names d n : lists names d -> n ∉ names -> d !! n = None.
Proof. intros H Hn. destruct (d !! n) eqn:E; [|done]. destruct Hn. apply H. by eexists. Qed.

Lemma deferred_none d n : (deferred d).2 !! n = None <-> d !! n = None.
Proof. by rewrite <-!not_elem_of_dom, deferred_dom. Qed.

(** When all of [W] is in the backup, only promoted entries are in the work
    directory. *)
Lemma recorded_promoted W names promoted s :
  lists names W -> backup s = W -> (forall n, n ∉ promoted -> work s !! n = None) ->
  recorded W promoted names s.
Proof.
  intros Hl Hb Hw. split_and!.
  - intros n Hn. rewrite Hb. split; [done|]. by apply Hl.
  - intros n Hn. rewrite (Hw n Hn). case_decide as Hin; [done|]. symmetry. by eapply lists_none.
  - intros n _. destruct (decide (n ∈ names)); [by left|right; by eapply lists_none].
Qed.

Lemma swap_layout_spec W L originals staged e promoted backed_up s :
  lists originals W -> lists staged L ->
  swap_layout io restores deferred originals staged (mk_swap W L ∅ 0) = (e, promoted, backed_up, s) ->
  recorded W promoted backed_up s /\
  (e = None -> deferred L = (true, work s) /\ backup s = W).
Proof.
  intros HW HL. unfold swap_layout.
  destruct (move_all _ _ Work Backup _ _ _) as [[e1 b] s1] eqn:E1.
  apply (move_all_spec _ _ restores_ok _ _ _ (mk_swap W L ∅ 0)) in E1 as [(Sa & Sb & Sc) Hall];
    [|done|apply shifted_nil]. cbn [dir work backup] in *.
  destruct e1 as [e1|].
  { intros [= <- <- <- <-]. split; [|done]. split_and!.
    - intros n Hn. destruct (Sa n Hn) as (node & H1 & _ & _ & H2). by rewrite H2, H1.
    - intros n _. case_decide as Hin; [|by apply Sb]. by destruct (Sa n Hin) as (? & _ & _ & -> & _).
    - by intros n ?%elem_of_nil. }
  specialize (Hall eq_refl). cbn [app] in Hall. subst b.
  assert (work s1 = ∅) as Hw1.
  { apply map_eq. intros n. rewrite lookup_empty. destruct (decide (n ∈ originals)) as [Hn|Hn].
    - by destruct (Sa n Hn) as (? & _ & _ & -> & _).
    - destruct (Sb n Hn) as [-> _]. by eapply lists_none. }
  assert (backup s1 = W) as Hb1.
  { apply map_eq. intros n. destruct (decide (n ∈ originals)) as [Hn|Hn].
    - destruct (Sa n Hn) as (? & -> & _ & _ & ->). done.
    - destruct (Sb n Hn) as [_ ->]. rewrite lookup_empty. symmetry. by eapply lists_none. }
  pose proof (Sc Staging ltac:(done) ltac:(done)) as Hst1. cbn [dir staging] in Hst1.
  destruct (move_all _ _ Staging Work _ _ _) as [[e2 p] s2] eqn:E2.
  apply (move_all_spec _ _ restores_ok _ _ _ s1) in E2 as [(Pa & Pb & Pc) Hall2];
    [|done|apply shifted_nil]. cbn [dir] in *.
  pose proof (Pc Backup ltac:(done) ltac:(done)) as Hb2. cbn [dir] in Hb2. rewrite Hb1 in Hb2.
  assert (forall n, n ∉ p -> work s2 !! n = None) as Hw2.
  { intros n Hn. destruct (Pb n Hn) as [_ ->]. by rewrite Hw1, lookup_empty. }
  destruct e2 as [e2|]; [intros [= <- <- <- <-]; split; [by apply recorded_promoted|done]|].
  specialize (Hall2 eq_refl). cbn [app] in Hall2. subst p.
  assert (work s2 = L) as HwL.
  { apply map_eq. intros n. destruct (decide (n ∈ staged)) as [Hn|Hn].
    - destruct (Pa n Hn) as (? & Hx & _ & _ & ->). by rewrite Hst1 in Hx.
    - rewrite (Hw2 n Hn). symmetry. by eapply lists_none. }
  destruct (deferred (work s2)) as [ok d] eqn:Ed. intros [= <- <- <- <-]. split.
  - apply recorded_promoted; [done|done|]. intros n Hn. cbn.
    change d with (ok, d).2. rewrite <-Ed. by apply deferred_none, Hw2.
  - destruct ok; [|done]. intros _. cbn. by rewrite <-HwL, Ed.
Qed.

(** No top-level name with a backslash. *)
Definition plain_names (d : Dir) : Prop := forall n, is_Some (d !! n) -> slashes n = n.

Lemma checked_entries_list d names :
  plain_names d -> checked_top_level_entries d = Ok names -> lists names d.
Proof.
  intros Hplain. unfold checked_top_level_entries. intros H.
  assert (names = btree_elements (dom d)) as ->.
  { refine (try_fold_invariant _ (fun seen acc => acc = seen) _ _ _ _ _ H); [done|].
    intros pre n post t t' Heq -> Hn. destruct (checked_relative_path n) as [c|] eqn:Ec; [|done].
    injection Hn as <-. apply checked_relative_path_ok in Ec as (_ & -> & _).
    rewrite Hplain; [done|]. apply elem_of_dom, elem_of_btree_elements. rewrite Heq. set_solver. }
  intros n. by rewrite elem_of_btree_elements, elem_of_dom.
Qed.

(** Whatever filesystem calls fail, and as long as
    permissions that were lifted for a move can be put back, applying a plan is
    all or nothing. Committed, the work directory is the staged layout with its
    metadata applied; rolled back, it is exactly what it was; and when the
    rollback itself fails, both transaction directories are kept and every
    original entry is in the work directory or in the backup, as it was. *)
Theorem apply_all_or_nothing plan staged work_dir v f :
  plain_names work_dir -> (forall layout, staged = Some layout -> plain_names layout) ->
  apply_plan_transaction io restores deferred debris plan staged work_dir = (v, f) ->
  match v with
  | Committed | CommittedWithCleanupWarnings =>
      exists layout, staged = Some layout /\ layout <> ∅ /\ deferred layout = (true, final_work f)
  | RolledBack _ | RolledBackUncleaned _ => final_work f = work_dir
  | RollbackFailed _ _ =>
      exists st b, final_staging f = Some st /\ final_backup f = Some b /\ kept f = true /\
        forall n node, work_dir !! n = Some node -> final_work f !! n = Some node \/ b !! n = Some node
  end.
Proof.
  intros Hplain Hplain'. unfold apply_plan_transaction, abandon, close_dir.
  destruct (validate_paths plan); [|by intros [= <- <-]].
  destruct staged as [layout|]; [|intros [= <- <-]; by destruct (inspects _ _)].
  destruct (checked_top_level_entries work_dir) as [originals|] eqn:EW;
    [|intros [= <- <-]; by destruct (inspects _ _)].
  destruct (checked_top_level_entries layout) as [names|] eqn:EL;
    [|intros [= <- <-]; by destruct (inspects _ _)].
  apply checked_entries_list in EW; [|done]. apply checked_entries_list in EL; [|by apply Hplain'].
  case_bool_decide as Hne; [intros [= <- <-]; by destruct (inspects _ _)|].
  destruct (swap_layout _ _ _ _ _ _) as [[[e p] b] s] eqn:E.
  apply (swap_layout_spec work_dir layout) in E as [Hrec Hok]; [|done|done].
  destruct e as [e|].
  - unfold finish_failed, close_dir. destruct (rollback_layout_swap _ _ _ _ _) as [fs s1] eqn:Er.
    apply (rollback_spec _ _ restores_ok work_dir) in Er as [Hback Hkept]; [|done].
    destruct fs as [|x fs]; intros [= <- <-]; cbn.
    + specialize (Hback eq_refl). by destruct (inspects io s1 && _).
    + eauto 10.
  - destruct (Hok eq_refl) as [Hd _]. unfold finish_committed, close_dir.
    assert (layout <> ∅) as Hlay.
    { intros ->. destruct names as [|n names]; [done|].
      destruct (proj1 (EL n) ltac:(left)) as [? Hx]. by rewrite lookup_empty in Hx. }
    destruct (inspects io s); cbn; [|intros [= <- <-]; eauto].
    destruct (inspects io (next_call s)); intros [= <- <-]; eauto.
Qed.
End transaction.

Module ApplyPlanExample.

#[local] Existing Instance ascii_tables.

Definition old_dir : Node := Directory 365 [(§"readme.txt", RegularFile §"hello")].
Definition work_dir : Dir := {[ §"Old" := old_dir ]}.
Definition layout : Dir := {[ §"Game" := Directory 493 [(§"readme.txt", RegularFile §"hello")] ]}.
Definition output : PlannedOutput := {|
  root_folder := §"Game"; root_folder_template := §"Game";
  moves := [(§"Old/readme.txt", §"Game/readme.txt")];
  generated_files := []; downloads := []; resolved_variables := ∅; reasoning := []
|}.
Definition plan : OrganizationPlan :=
  {| plan_rule_name := §"rule"; plan_outputs := [output]; skipped_outputs := [] |}.

(** The read-only directory needs its permissions lifted (the fourth call is
    denied), and the promotion fails: rolled back, modes included. *)
Definition denied (n : nat) : Outcome :=
  match n with 3 => Denied | 11 => Broken | _ => Done end.

Lemma apply_all_or_nothing_witness :
  let '(v, f) := apply_plan_transaction denied (fun _ => true) (fun d => (true, d)) (fun _ => ∅)
                   plan (Some layout) work_dir in
  v = RolledBack (MoveFailed §"Game") /\ final_work f = work_dir.
Proof.
  destruct (apply_plan_transaction denied (fun _ => true) (fun d => (true, d)) (fun _ => ∅)
              plan (Some layout) work_dir) as [v f] eqn:E.
  assert (v = RolledBack (MoveFailed §"Game")) as Hv by (vm_compute in E; by injection E as <- _).
  split; [exact Hv|]. subst v.
  apply (apply_all_or_nothing denied (fun _ => true) (fun d => (true, d)) (fun _ => ∅)
           (fun _ => eq_refl) (fun _ => eq_refl) plan (Some layout) work_dir (RolledBack (MoveFailed §"Game")) f);
    [ | |exact E].
  - intros n [x Hn]. unfold work_dir in Hn. apply lookup_singleton_Some in Hn as [<- _]. reflexivity.
  - intros l [= <-] n [x Hn]. unfold layout in Hn. apply lookup_singleton_Some in Hn as [<- _]. reflexivity.
Defined.

Lemma committed_example :
  let '(v, f) := apply_plan_transaction (fun _ => Done) (fun _ => true) (fun d => (true, d))
                   (fun _ => ∅) plan (Some layout) work_dir in
  v = Committed /\ final_work f !! §"Game" = layout !! §"Game" /\ final_backup f = None.
Proof. vm_compute. split_and!; reflexivity. Qed.

(** The condition on permissions is needed.
    When the directory was moved into the backup but its mode cannot be put back,
    the move is reported as failed, so it is not on the list of entries to
    restore; the rollback then has nothing to do, counts as complete, and the
    backup is removed with the directory in it. *)
Theorem permission_failure_loses_entry :
  let '(v, f) := apply_plan_transaction denied (fun _ => false) (fun d => (true, d)) (fun _ => ∅)
                   plan (Some layout) work_dir in
  work_dir !! §"Old" = Some old_dir /\
  v = RolledBack (PermissionsNotRestored §"Old") /\
  final_work f = ∅ /\ final_staging f = None /\ final_backup f = None.
Proof. vm_compute. split_and!; reflexivity. Qed.

End ApplyPlanExample.
