(* ===== verification/EntryIndex.v ===== *)
(** The entry index of an open archive ([crates/app/src/archive/session.rs] and
    the path type of [archive/mod.rs]): how a backend's flat listing becomes rows
    with stable ids, folders with totals and ordered children, and the queries
    that are answered from it.

    [build] is cut where the source's loops are: [scan_entry] reads the listing,
    [file_step] and [dir_step] make the rows of files and folders, and the
    children are sorted at the end.  A [HashMap] is a [gmap]; the one query whose
    result can depend on the order such a map is walked in,
    [apply_crc32_backfill], takes that order as an argument.  The checksum of
    [crc32fast] is the parameter [Crc32Fast]. *)

From stdpp Require Import base tactics option list gmap sorting strings.
From Stdlib Require Import ZArith Lia Ascii.
From S2P Require Import Prelude Text Archive.

Open Scope arclain_scope.

(** * Archive paths ([archive/mod.rs]) *)

Definition is_ascii_alphabetic (c : ascii) : bool :=
  in_range 65 90 c || in_range 97 122 c.

(** A leading slash or a drive letter. *)
Definition is_absolute (normalized : str) : bool :=
  if starts_with normalized §"/" then true
  else match normalized with
       | drive :: colon :: _ => ascii_eqb colon ":"%char && is_ascii_alphabetic drive
       | _ => false
       end.

(** [ArchivePath::root]. *)
Definition root : str := [].

(** [ArchivePath::parse]: the error is the reason of the refusal, the only part in
    which the three refusals differ. *)
Definition archive_path_parse (raw : str) : result str str :=
  if contains_char (fun c => ascii_eqb c "000"%char) raw then
    Err §"archive path must not contain NUL bytes"
  else
    let normalized := slashes raw in
    if is_absolute normalized then Err §"archive path must be relative"
    else if existsb (fun segment => str_eqb segment §"..") (split_on is_slash normalized) then
      Err §"archive path must not contain parent traversal segments"
    else Ok normalized.

Inductive EntryKind := Directory | File | Symlink.

#[export] Instance EntryKind_eq_dec : EqDecision EntryKind.
Proof. solve_decision. Defined.

#[export] Instance EntryKind_countable : Countable EntryKind.
Proof.
  refine (inj_countable'
    (fun k => match k with Directory => 0 | File => 1 | Symlink => 2 end)
    (fun n => match n with 0 => Directory | 1 => File | _ => Symlink end) _).
  by intros [].
Defined.

(** One row of an open archive. *)
Record ArchiveEntryDto := mk_dto {
  dto_id : N;
  dto_path : str;
  dto_name : str;
  dto_kind : EntryKind;
  dto_compressed_size : option Z;
  dto_uncompressed_size : Z;
  dto_modified_at_unix_ms : option Z;
  dto_encrypted : bool;
  dto_crc32 : option str
}.

#[export] Instance ArchiveEntryDto_eq_dec : EqDecision ArchiveEntryDto.
Proof. solve_decision. Defined.

Definition with_crc32 (d : ArchiveEntryDto) (c : option str) : ArchiveEntryDto :=
  mk_dto (dto_id d) (dto_path d) (dto_name d) (dto_kind d) (dto_compressed_size d)
    (dto_uncompressed_size d) (dto_modified_at_unix_ms d) (dto_encrypted d) c.

(** * Ids *)

Notation EntryKey := (EntryKind * str * N)%type.

Record EntryIdAssigner := mk_assigner {
  assigned : gmap EntryKey N;
  next : N
}.

Definition default_assigner : EntryIdAssigner := mk_assigner ∅ 0.

Definition assign (a : EntryIdAssigner) (key : EntryKey) : N * EntryIdAssigner :=
  match assigned a !! key with
  | Some i => (i, a)
  | None =>
      let n := (next a + 1)%N in
      (n, mk_assigner (<[key := n]> (assigned a)) n)
  end.

(** * Dates *)

(** Days since the Unix epoch; the divisions are Rust's, which truncate. *)
Definition days_from_civil (year month day : Z) : Z :=
  let y := (if month <=? 2 then year - 1 else year)%Z in
  let era := Z.quot (if 0 <=? y then y else y - 399)%Z 400 in
  let yoe := (y - era * 400)%Z in
  let mp := Z.rem (month + 9) 12 in
  let doy := (Z.quot (153 * mp + 2) 5 + day - 1)%Z in
  let doe := (yoe * 365 + Z.quot yoe 4 - Z.quot yoe 100 + doy)%Z in
  (era * 146097 + doe - 719468)%Z.

Definition is_space (c : ascii) : bool := ascii_eqb c " "%char.
Definition is_dash (c : ascii) : bool := ascii_eqb c "-"%char.
Definition is_colon (c : ascii) : bool := ascii_eqb c ":"%char.

(** The three fields are taken off the iterator one by one, so text that is not
    a number in an early field is refused before a missing later one; either way
    the answer is [None]. *)
Definition parse_modified_to_unix_ms (value : str) : option Z :=
  match split_once is_space value with
  | None => None
  | Some (date_part, time_part) =>
      match split_on is_dash date_part, split_on is_colon time_part with
      | [year; month; day], [hour; minute; second] =>
          match parse_i64 year, parse_u32 month, parse_u32 day with
          | Some year, Some month, Some day =>
              if (negb ((1 <=? month) && (month <=? 12))
                  || negb ((1 <=? day) && (day <=? 31)))%Z then None
              else
                match parse_i64 hour, parse_i64 minute, parse_i64 second with
                | Some hour, Some minute, Some second =>
                    if ((24 <=? hour) || (60 <=? minute) || (60 <=? second))%Z then None
                    else
                      let days := days_from_civil year month day in
                      let seconds := (days * 86400 + hour * 3600 + minute * 60 + second)%Z in
                      Some (seconds * 1000)%Z
                | _, _, _ => None
                end
          | _, _, _ => None
          end
      | _, _ => None
      end
  end.

(** * Paths of entries *)

Definition normalize (raw : str) : str := trim_end_matches is_slash (slashes raw).

Fixpoint ancestors_loop (fuel : nat) (current : str) : list str :=
  match fuel with
  | 0 => []
  | S fuel' =>
      match rfind_char is_slash current with
      | Some pos => take pos current :: ancestors_loop fuel' (take pos current)
      | None => []
      end
  end.

(** Every proper ancestor, the shallowest first; a turn makes the path shorter. *)
Definition ancestors (path : str) : list str := reverse (ancestors_loop (length path) path).

Definition parent_of (path : str) : str :=
  match rfind_char is_slash path with
  | Some pos => take pos path
  | None => []
  end.

Definition basename (path : str) : str :=
  match rfind_char is_slash path with
  | Some pos => drop (S pos) path
  | None => path
  end.

(** * Folder totals *)

(** The hasher of [crc32fast]: the checksum of the bytes it was fed. *)
Class Crc32Fast := { crc32fast : str -> Z }.

Definition hex_digit (n : Z) : ascii :=
  ascii_of_N (Z.to_N (if n <? 10 then 48 + n else 55 + n))%Z.

(** [{:08X}] of a [u32]. *)
Definition hex8 (n : Z) : str :=
  map (fun i => hex_digit (Z.land (Z.shiftr n (4 * i)) 15)%Z) [7; 6; 5; 4; 3; 2; 1; 0]%Z.

Record FolderTotals := mk_totals {
  total_uncompressed : Z;
  total_compressed : Z;
  crc_pairs : list (str * str)
}.

Definition default_totals : FolderTotals := mk_totals 0 0 [].

(** The order of [sort_by(|a, b| a.0.cmp(&b.0))]. *)
Definition fst_le {B : Type} (a b : str * B) : Prop := str_le a.1 b.1.

#[export] Instance fst_le_dec {B} : RelDecision (@fst_le B).
Proof. intros a b. unfold fst_le. apply _. Defined.

Section index.
Context `{UT : UnicodeTables} `{CF : Crc32Fast}.

Definition crc_line (pair : str * str) : str :=
  pair.1 ++ §":" ++ pair.2 ++ ["010"%char].

Definition finalize_crc (t : FolderTotals) : option str :=
  match crc_pairs t with
  | [] => None
  | pairs => Some (hex8 (crc32fast (concat (map crc_line (stable_sort fst_le pairs)))))
  end.

(** * Building the index *)

Record RawEntry := mk_raw {
  raw_uncompressed_size : Z;
  raw_compressed_size : Z;
  raw_modified : option str;
  raw_encrypted : bool;
  raw_crc32 : option str
}.

Definition implied_raw : RawEntry := mk_raw 0 0 None false None.

Record EntryIndex := mk_index {
  by_id : gmap N ArchiveEntryDto;
  sorted_file_ids : list N;
  children : gmap str (list N);
  entry_count : Z;
  total_uncompressed_size : Z
}.

(** The first loop: files in listing order, explicit folders by path (the first
    of several is kept), refused and root paths skipped. *)
Definition scan_entry (acc : list (str * RawEntry) * gmap str RawEntry) (entry : ArchiveEntry)
  : list (str * RawEntry) * gmap str RawEntry :=
  let '(files, dirs) := acc in
  let canonical := normalize (path entry) in
  if negb (is_ok (archive_path_parse canonical)) then acc
  else match canonical with
       | [] => acc
       | _ =>
           let raw := mk_raw (size entry) (packed_size entry) (modified entry)
                        (encrypted entry) (crc32 entry) in
           if is_dir entry then
             (files, match dirs !! canonical with Some _ => dirs | None => <[canonical := raw]> dirs end)
           else (files ++ [(canonical, raw)], dirs)
       end.

(** The second: every ancestor of a file or of an explicit folder is a folder. *)
Definition implied_dirs (files : list (str * RawEntry)) (dirs : gmap str RawEntry) : gset str :=
  list_to_set (concat (map (fun f => ancestors f.1) files))
  ∪ list_to_set (concat (map ancestors (elements (dom dirs)))).

Definition synthesize (implied : gset str) (dirs : gmap str RawEntry) : gmap str RawEntry :=
  dirs ∪ gset_to_gmap implied_raw implied.

(** What the file and folder loops carry. *)
Record BuildState := mk_build {
  b_assigner : EntryIdAssigner;
  b_by_id : gmap N ArchiveEntryDto;
  b_children : gmap str (list N);
  b_entry_count : Z;
  b_total : Z;
  b_sorted_file_ids : list N;
  b_folder_totals : gmap str FolderTotals;
  b_ordinals : gmap str N
}.

Definition path_or_root (p : str) : str :=
  match archive_path_parse p with Ok q => q | Err _ => root end.

(** [children.entry(parent).or_default().push(id)]. *)
Definition push_child (parent : str) (i : N) (m : gmap str (list N)) : gmap str (list N) :=
  <[parent := default [] (m !! parent) ++ [i]]> m.

(** A file adds itself to one of its ancestors. *)
Definition add_to_folder (file_path : str) (raw : RawEntry) (m : gmap str FolderTotals)
    (ancestor : str) : gmap str FolderTotals :=
  let totals := default default_totals (m !! ancestor) in
  <[ancestor := mk_totals
      (saturating_add (total_uncompressed totals) (raw_uncompressed_size raw))
      (saturating_add (total_compressed totals) (raw_compressed_size raw))
      (match raw_crc32 raw with
       | Some crc => crc_pairs totals ++ [(file_path, to_uppercase crc)]
       | None => crc_pairs totals
       end)]> m.

Definition file_step (s : BuildState) (file : str * RawEntry) : BuildState :=
  let '(path, raw) := file in
  let ordinal := default 0%N (b_ordinals s !! path) in
  let '(id, assigner) := assign (b_assigner s) (File, path, ordinal) in
  let parent := path_or_root (parent_of path) in
  let dto := mk_dto id (path_or_root path) (basename path) File
               (Some (raw_compressed_size raw)) (raw_uncompressed_size raw)
               (raw_modified raw ≫= parse_modified_to_unix_ms)
               (raw_encrypted raw) (raw_crc32 raw) in
  mk_build assigner
    (<[id := dto]> (b_by_id s))
    (push_child parent id (b_children s))
    (b_entry_count s + 1)
    (saturating_add (b_total s) (raw_uncompressed_size raw))
    (b_sorted_file_ids s ++ [id])
    (foldl (add_to_folder path raw) (b_folder_totals s) (ancestors path))
    (<[path := (ordinal + 1)%N]> (b_ordinals s)).

Definition dir_step (s : BuildState) (dir : str * RawEntry) : BuildState :=
  let '(path, raw) := dir in
  let totals := default default_totals (b_folder_totals s !! path) in
  let '(id, assigner) := assign (b_assigner s) (Directory, path, 0%N) in
  let parent := path_or_root (parent_of path) in
  let dto := mk_dto id (path_or_root path) (basename path) Directory
               (Some (total_compressed totals)) (total_uncompressed totals)
               (raw_modified raw ≫= parse_modified_to_unix_ms)
               (raw_encrypted raw) (finalize_crc totals) in
  mk_build assigner
    (<[id := dto]> (b_by_id s))
    (push_child parent id (b_children s))
    (b_entry_count s + 1)
    (b_total s)
    (b_sorted_file_ids s)
    (delete path (b_folder_totals s))
    (b_ordinals s).

(** The rows of a [BTreeMap<String, RawEntry>], in its order. *)
Definition btree_rows (dirs : gmap str RawEntry) : list (str * RawEntry) :=
  map (fun p => (p, default implied_raw (dirs !! p))) (btree_elements (dom dirs)).

(** [by_id[a].name.to_lowercase()]; every child is a row, so the panic of a
    missing one is not reached. *)
Definition name_key (rows : gmap N ArchiveEntryDto) (i : N) : str :=
  match rows !! i with Some d => to_lowercase (dto_name d) | None => [] end.

Definition name_le (rows : gmap N ArchiveEntryDto) (a b : N) : Prop :=
  str_le (name_key rows a) (name_key rows b).

#[export] Instance name_le_dec rows : RelDecision (name_le rows).
Proof. intros a b. unfold name_le. apply _. Defined.

Definition build_files (entries : list ArchiveEntry) : list (str * RawEntry) :=
  stable_sort fst_le (foldl scan_entry ([], ∅) entries).1.

Definition build_dirs (entries : list ArchiveEntry) : list (str * RawEntry) :=
  let '(files, dirs) := foldl scan_entry ([], ∅) entries in
  btree_rows (synthesize (implied_dirs files dirs) dirs).

Definition build (entries : list ArchiveEntry) (assigner : EntryIdAssigner)
  : EntryIndex * EntryIdAssigner :=
  let s0 := mk_build assigner ∅ ∅ 0 0 [] ∅ ∅ in
  let s1 := foldl file_step s0 (build_files entries) in
  let s := foldl dir_step s1 (build_dirs entries) in
  (mk_index (b_by_id s) (b_sorted_file_ids s)
     (stable_sort (name_le (b_by_id s)) <$> b_children s)
     (b_entry_count s) (b_total s),
   b_assigner s).

(** * Queries *)

Definition children_of (ix : EntryIndex) (directory : str) : list N :=
  default [] (children ix !! directory).

Definition get (ix : EntryIndex) (i : N) : option ArchiveEntryDto := by_id ix !! i.

(** The rows in some order: [by_id.values()]. *)
Definition values (ix : EntryIndex) : list ArchiveEntryDto := (map_to_list (by_id ix)).*2.

Definition is_directory (d : ArchiveEntryDto) : bool := bool_decide (dto_kind d = Directory).

Definition organization_entry (d : ArchiveEntryDto) : ArchiveEntry := {|
  path := dto_path d;
  size := dto_uncompressed_size d;
  packed_size := default 0%Z (dto_compressed_size d);
  modified := None;
  is_dir := is_directory d;
  encrypted := dto_encrypted d;
  crc32 := dto_crc32 d
|}.

Definition bool_leb (a b : bool) : bool := negb a || b.

Definition organization_le (a b : ArchiveEntry) : Prop :=
  then_with path str_leb (fun a b => bool_leb (is_dir a) (is_dir b)) a b = true.

#[export] Instance organization_le_dec : RelDecision organization_le.
Proof. intros a b. unfold organization_le. apply _. Defined.

Definition organization_entries (ix : EntryIndex) : list ArchiveEntry :=
  stable_sort organization_le (map organization_entry (values ix)).

Definition file_paths (ix : EntryIndex) : list str :=
  map dto_path (omap (get ix) (sorted_file_ids ix)).

Definition file_count (ix : EntryIndex) : nat := length (sorted_file_ids ix).

Definition file_paths_page (ix : EntryIndex) (offset limit : nat) : list str :=
  map dto_path (omap (get ix) (take limit (drop offset (sorted_file_ids ix)))).

(** The walk of [all_entries]: the stack has its top first.  Every row is pushed
    at most once, so the fuel given is one turn for each row and one to see that
    the stack is empty. *)
Fixpoint walk (fuel : nat) (ix : EntryIndex) (stack : list N) : option (list ArchiveEntryDto) :=
  match stack with
  | [] => Some []
  | i :: stack' =>
      match fuel with
      | 0 => None
      | S fuel' =>
          match get ix i with
          | None => walk fuel' ix stack'
          | Some dto =>
              (dto ::.)
                <$> walk fuel' ix
                      ((if is_directory dto then children_of ix (dto_path dto) else []) ++ stack')
          end
      end
  end.

Definition all_entries (ix : EntryIndex) : option (list ArchiveEntryDto) :=
  walk (base.size (by_id ix)) ix (children_of ix root).

(** ** Backfilled checksums *)

Definition needs_crc (p : str) (d : ArchiveEntryDto) : bool :=
  negb (is_directory d) && str_eqb (dto_path d) p && dto_encrypted d
  && match dto_crc32 d with None => true | Some _ => false end.

(** One computed sum, against every row. *)
Definition patch_rows (acc : nat * gmap N ArchiveEntryDto) (computed : str * str)
  : nat * gmap N ArchiveEntryDto :=
  let '(patched, rows) := acc in
  ((patched + length (List.filter (needs_crc computed.1) (map_to_list rows).*2))%nat,
   (fun d => if needs_crc computed.1 d then with_crc32 d (Some computed.2) else d) <$> rows).

Definition add_crc_pair (file_path crc : str) (m : gmap str FolderTotals) (ancestor : str)
  : gmap str FolderTotals :=
  let totals := default default_totals (m !! ancestor) in
  <[ancestor := mk_totals (total_uncompressed totals) (total_compressed totals)
      (crc_pairs totals ++ [(file_path, to_uppercase crc)])]> m.

Definition collect_crc (m : gmap str FolderTotals) (d : ArchiveEntryDto) : gmap str FolderTotals :=
  if is_directory d then m
  else match dto_crc32 d with
       | None => m
       | Some crc => foldl (add_crc_pair (dto_path d) crc) m (ancestors (dto_path d))
       end.

(** [order] is the order in which [by_id.values()] yields the rows.  Folder paths
    are distinct, so the [remove] of one folder's totals does not take those of
    another. *)
Definition apply_crc32_backfill (order : list N) (ix : EntryIndex) (computed : list (str * str))
  : nat * EntryIndex :=
  let '(patched, rows) := foldl patch_rows (0%nat, by_id ix) computed in
  if (patched =? 0)%nat then (0%nat, ix)
  else
    let folder_crcs := foldl collect_crc ∅ (omap (fun i => rows !! i) order) in
    let rows' :=
      (fun d =>
         if is_directory d then with_crc32 d ((folder_crcs !! dto_path d) ≫= finalize_crc) else d)
        <$> rows in
    (patched, mk_index rows' (sorted_file_ids ix) (children ix) (entry_count ix)
                (total_uncompressed_size ix)).
End index.
