(* ===== verification/EntryIndexProps.v ===== *)
(** Theorems about the entry index ([EntryIndex.v]).

    The first section is about paths; the second about ids; the third shows that
    the loops of [build] keep [rows_inv], which ties every map of the index to one
    list of rows; what callers rely on follows from it. *)

From stdpp Require Import base tactics option list gmap sorting strings.
From Stdlib Require Import ZArith Lia Ascii.
From S2P Require Import Prelude Text Archive EntryIndex.

Open Scope arclain_scope.

#[local] Arguments String.list_ascii_of_string : simpl never.

(** * Paths *)

Notation "a '/:' r" := (a ++ "/"%char :: r) (at level 60, right associativity).

Lemma is_slash_true c : is_slash c = true <-> c = "/"%char.
Proof. apply ascii_eqb_eq. Qed.

Definition slash_free (s : str) : Prop := Forall (fun c => is_slash c = false) s.

(** The last slash of a path, as [rfind] sees it. *)
Lemma rfind_slash p i :
  rfind_char is_slash p = Some i <-> exists l r, p = l /: r /\ length l = i /\ slash_free r.
Proof.
  rewrite rfind_char_spec. split.
  - intros (l & c & r & -> & Hl & Hc & Hr). apply is_slash_true in Hc as ->. eauto.
  - intros (l & r & -> & Hl & Hr). exists l, "/"%char, r. auto.
Qed.

(** Two cuts of a string at the same separator: one is inside the other. *)
Lemma two_cuts (a b r s : str) :
  a /: r = b /: s ->
  a = b \/ (exists x, b = a /: x) \/ (exists x, a = b /: x /\ s = x /: r).
Proof.
  revert b; induction a as [|c a IH]; intros [|d b] H; simplify_eq/=; [by left| | |].
  - right; left. by exists b.
  - right; right. by exists a.
  - destruct (IH b) as [->|[[x ->]|(x & -> & ->)]]; [done|by left| |].
    + right; left. by exists x.
    + right; right. by exists x.
Qed.

Lemma elem_of_ancestors_loop fuel p a :
  (length p <= fuel)%nat -> a ∈ ancestors_loop fuel p <-> exists r, p = a /: r.
Proof.
  revert p; induction fuel as [|fuel IH]; intros p Hf.
  { destruct p; [|simpl in Hf; lia]. rewrite elem_of_nil. split; [done|].
    intros [r H]. by destruct a. }
  cbn [ancestors_loop]. destruct (rfind_char is_slash p) as [i|] eqn:E.
  - apply rfind_slash in E as (l & r & -> & <- & Hr). rewrite take_app_length.
    rewrite length_app in Hf. simpl in Hf.
    rewrite elem_of_cons, IH by lia. split.
    + intros [->|[s ->]]; [eauto|]. exists (s /: r). by rewrite <-app_assoc.
    + intros [s H]. destruct (two_cuts l a r s) as [->|[[x ->]|(x & -> & ->)]]; [done|auto| |].
      * rewrite <-app_assoc in H. apply app_inv_head in H. simplify_eq/=.
        exfalso. unfold slash_free in Hr. rewrite Forall_app, Forall_cons in Hr. naive_solver.
      * right. by exists x.
  - apply rfind_char_none in E. rewrite elem_of_nil. split; [done|].
    intros [s ->]. rewrite Forall_app, Forall_cons in E. naive_solver.
Qed.

Lemma elem_of_folders_above p a : a ∈ ancestors p <-> exists r, p = a /: r.
Proof. unfold ancestors. rewrite elem_of_reverse. by apply elem_of_ancestors_loop. Qed.

Lemma NoDup_ancestors p : NoDup (ancestors p).
Proof.
  unfold ancestors. rewrite reverse_Permutation. generalize (length p) at 1 as fuel. intros fuel.
  revert p; induction fuel as [|fuel IH]; intros p; [constructor|]. cbn [ancestors_loop].
  destruct (rfind_char is_slash p) as [i|] eqn:E; [|constructor].
  apply rfind_slash in E as (l & r & -> & <- & Hr). rewrite take_app_length.
  constructor; [|apply IH]. clear -l.
  assert (forall m q a, a ∈ ancestors_loop m q -> (length a < length q)%nat) as Hlen.
  { induction m as [|m IHm]; intros q a; [by rewrite elem_of_nil|]. cbn [ancestors_loop].
    destruct (rfind_char is_slash q) as [i|] eqn:E; [|by rewrite elem_of_nil].
    apply rfind_slash in E as (l' & r & -> & <- & Hr).
    rewrite take_app_length, elem_of_cons, length_app. simpl.
    intros [->|Ha]; [lia|]. apply IHm in Ha. lia. }
  intros H. apply Hlen in H. lia.
Qed.

(** A path is its parent, a slash and its name, or just its name. *)
Lemma parent_basename p :
  (p = parent_of p /: basename p /\ slash_free (basename p))
  \/ (parent_of p = [] /\ basename p = p /\ slash_free p).
Proof.
  unfold parent_of, basename. destruct (rfind_char is_slash p) as [i|] eqn:E.
  - left. apply rfind_slash in E as (l & r & -> & <- & Hr).
    rewrite take_app_length.
    replace (drop (S (length l)) (l /: r)) with r; [done|].
    rewrite <-(drop_app_length (l ++ ["/"%char]) r) at 1. rewrite length_app, Nat.add_1_r.
    by rewrite <-app_assoc.
  - right. apply rfind_char_none in E. auto.
Qed.

(** ** Accepted paths *)

(** A path that is its own normal form: what every row of an index has. *)
Definition valid_path (p : str) : Prop := archive_path_parse p = Ok p /\ p <> [].

Lemma parse_ok_spec p q :
  archive_path_parse p = Ok q <->
  q = slashes p /\ "000"%char ∉ p /\ is_absolute (slashes p) = false
  /\ §".." ∉ split_on is_slash (slashes p).
Proof.
  unfold archive_path_parse. destruct (contains_char _ p) eqn:E1.
  { split; [done|]. intros (_ & H & _). destruct H. unfold contains_char in E1.
    apply existsb_exists in E1 as (c & Hc & Ec). apply ascii_eqb_eq in Ec as ->.
    by apply list_elem_of_In. }
  assert ("000"%char ∉ p) as Hnul.
  { intros H. apply contains_char_false in E1. rewrite Forall_forall in E1.
    specialize (E1 _ H). done. }
  destruct (is_absolute (slashes p)) eqn:E2; [split; [done|naive_solver]|].
  destruct (existsb _ _) eqn:E3.
  - split; [done|]. intros (_ & _ & _ & H). destruct H.
    apply existsb_exists in E3 as (w & Hw & Ew). apply str_eqb_eq in Ew as ->.
    by apply list_elem_of_In.
  - split; [|naive_solver]. intros [= <-]. split_and!; try done. intros H.
    apply Bool.not_true_iff_false in E3. apply E3. apply existsb_exists.
    exists §"..". split; [by apply list_elem_of_In|apply str_eqb_refl].
Qed.

Lemma valid_path_ancestor p a r : valid_path p -> p = a /: r -> valid_path a.
Proof.
  intros [Hp Hne] ->. apply parse_ok_spec in Hp as (Hs & Hnul & Habs & Hdots).
  rewrite <-Hs in *. rewrite slashes_app in Hs.
  apply app_inj_1 in Hs as [Hs _]; [|by rewrite length_slashes].
  assert (a <> []) as Ha by (intros ->; simpl in Habs; done).
  split; [|done]. apply parse_ok_spec. rewrite <-Hs. split_and!; [done| | |].
  - intros H. apply Hnul. apply elem_of_app. by left.
  - assert (forall c d b s, is_absolute (c :: d :: b) = is_absolute (c :: d :: s)) as H2.
    { intros c d b s. unfold is_absolute, starts_with. change §"/" with ["/"%char].
      cbn [strip_prefix]. by destruct (ascii_eqb "/" c). }
    destruct a as [|c [|d a]]; [done| |by rewrite (H2 c d a ((a /: r)))].
    clear -Habs. unfold is_absolute, starts_with in *. change §"/" with ["/"%char] in *.
    cbn [strip_prefix app] in *. by destruct (ascii_eqb "/" c).
  - rewrite split_on_cut in Hdots by done. intros H. apply Hdots. apply elem_of_app. by left.
Qed.

Lemma valid_path_in_ancestors p a : valid_path p -> a ∈ ancestors p -> valid_path a.
Proof. rewrite elem_of_folders_above. intros Hp [r Hr]. by eapply valid_path_ancestor. Qed.

Lemma path_or_root_valid p : valid_path p -> path_or_root p = p.
Proof. intros [H _]. unfold path_or_root. by rewrite H. Qed.

(** The parent of an accepted path is the root or an accepted ancestor of it. *)
Lemma parent_valid p :
  valid_path p ->
  path_or_root (parent_of p) = parent_of p
  /\ (parent_of p = [] \/ valid_path (parent_of p) /\ parent_of p ∈ ancestors p).
Proof.
  intros Hp. destruct (parent_basename p) as [[E _]|(E & _ & _)].
  - assert (valid_path (parent_of p)) by by eapply valid_path_ancestor.
    split; [by apply path_or_root_valid|right]. split; [done|]. apply elem_of_folders_above. eauto.
  - rewrite E. split; [done|by left].
Qed.

(** What the scan lets through. *)
Lemma normalize_slashes p : slashes (normalize p) = normalize p.
Proof.
  unfold normalize, trim_end_matches. apply slashes_id. rewrite Forall_forall. intros c Hc.
  rewrite elem_of_reverse in Hc.
  assert (c ∈ reverse (slashes p)) as Hin.
  { revert Hc. generalize (reverse (slashes p)) as s. induction s as [|d s IH]; [done|].
    cbn [trim_start_matches].
    destruct (is_slash d); [|done]. intros H. apply elem_of_cons. right. by apply IH. }
  rewrite elem_of_reverse in Hin.
  pose proof (slashes_no_backslash p) as Hb. rewrite Forall_forall in Hb. by apply Hb.
Qed.

Lemma normalize_valid p :
  is_ok (archive_path_parse (normalize p)) = true -> normalize p <> [] -> valid_path (normalize p).
Proof.
  intros H Hne. split; [|done]. destruct (archive_path_parse (normalize p)) as [q|] eqn:E; [|done].
  apply parse_ok_spec in E as (-> & _). by rewrite normalize_slashes.
Qed.

(** A drive letter at the front. *)
Definition has_drive (p : str) : Prop :=
  match p with c :: d :: _ => d = ":"%char /\ (in_range 65 90 c || in_range 97 122 c) = true | _ => False end.

#[export] Instance has_drive_dec p : Decision (has_drive p).
Proof. destruct p as [|c [|d p]]; simpl; apply _. Defined.

(** What a path of a listing may be: said of its characters and segments. *)
Definition acceptable (p : str) : Prop :=
  "000"%char ∉ p /\ head p <> Some "/"%char /\ ~ has_drive p /\ §".." ∉ split_on is_slash p.

#[export] Instance acceptable_dec p : Decision (acceptable p).
Proof. unfold acceptable. apply _. Defined.

Lemma is_absolute_false p : is_absolute p = false <-> head p <> Some "/"%char /\ ~ has_drive p.
Proof.
  unfold is_absolute, starts_with. change §"/" with ["/"%char].
  destruct p as [|c p]; [split; [intros _; split; [done|by intros []]|done]|]. cbn [strip_prefix head].
  destruct (ascii_eqb "/" c) eqn:E.
  { apply ascii_eqb_eq in E as <-. split; [by destruct p|]. by intros [H _]. }
  assert (c <> "/"%char) by (intros ->; by vm_compute in E).
  destruct p as [|d p]; [split; [intros _; split; [congruence|by intros []]|done]|]. unfold is_ascii_alphabetic. cbn [has_drive].
  destruct (ascii_eqb d ":") eqn:Ed; cbn [andb].
  - apply ascii_eqb_eq in Ed as ->. destruct (in_range 65 90 c || in_range 97 122 c); split; try done.
    + by intros [_ []].
    + intros _. split; [congruence|]. by intros [_ ?].
  - split; [|done]. intros _. split; [congruence|]. intros [-> _]. by vm_compute in Ed.
Qed.

Lemma acceptable_ok p : bool_decide (acceptable (normalize p)) = is_ok (archive_path_parse (normalize p)).
Proof.
  assert (acceptable (normalize p) <-> exists q, archive_path_parse (normalize p) = Ok q) as H.
  { unfold acceptable. setoid_rewrite parse_ok_spec. setoid_rewrite normalize_slashes. setoid_rewrite is_absolute_false.
    split; [intros (?&?&?&?); by eexists|by intros (q & _ & ? & [? ?] & ?)]. }
  case_bool_decide as Ha.
  - by apply H in Ha as [q ->].
  - destruct (archive_path_parse _) as [q|] eqn:E; [|done]. destruct Ha. apply H. by exists q.
Qed.

Lemma valid_acceptable p : valid_path p -> acceptable p.
Proof. intros [(Hs & ? & Ha & ?)%parse_ok_spec _]. rewrite <-Hs in *. apply is_absolute_false in Ha as [??]. by split_and!. Qed.

(** Where the segments of a path lead from a directory. *)
Fixpoint walk_segments (here segments : list str) : list str :=
  match segments with
  | [] => here
  | s :: rest =>
      walk_segments (if str_eqb s [] || str_eqb s §"." then here
                     else if str_eqb s §".." then removelast here else here ++ [s]) rest
  end.

(** A path that leads nowhere but below the directory it is joined to. *)
Definition safe_to_join (p : str) : Prop :=
  p <> [] /\ acceptable p /\ forall base, base `prefix_of` walk_segments base (split_on is_slash p).

Lemma walk_segments_below segments base : §".." ∉ segments -> base `prefix_of` walk_segments base segments.
Proof.
  revert base. induction segments as [|s rest IH]; intros base H; cbn [walk_segments]; [done|].
  apply not_elem_of_cons in H as [Hs Hr]. destruct (_ || _); [by apply IH|].
  destruct (str_eqb s §"..") eqn:E; [by apply str_eqb_eq in E|].
  etransitivity; [|by apply IH]. by exists [s].
Qed.

Lemma valid_safe p : valid_path p -> safe_to_join p.
Proof.
  intros Hp. split; [apply Hp|]. apply valid_acceptable in Hp. split; [done|]. intros base. by apply walk_segments_below, Hp.
Qed.

(** * Ids *)

(** Different keys have different ids, all of them already counted. *)
Definition assigner_ok (a : EntryIdAssigner) : Prop :=
  (forall k1 k2 i, assigned a !! k1 = Some i -> assigned a !! k2 = Some i -> k1 = k2)
  /\ (forall k i, assigned a !! k = Some i -> (1 <= i <= next a)%N).

Lemma default_assigner_ok : assigner_ok default_assigner.
Proof. split; intros *; simpl; by rewrite lookup_empty. Qed.

Lemma assign_spec a k i a' :
  assigner_ok a -> assign a k = (i, a') ->
  assigner_ok a' /\ assigned a ⊆ assigned a' /\ assigned a' !! k = Some i.
Proof.
  intros [Hinj Hle] H. unfold assign in H. destruct (assigned a !! k) as [j|] eqn:E; simplify_eq/=.
  { done. }
  split_and!; [split| |].
  - intros k1 k2 j. simpl. rewrite !lookup_insert_Some. intros [[<- Hj]|[_ H1]] [[<- Hj2]|[_ H2]];
      [done| | |by eapply Hinj].
    + apply Hle in H2. lia.
    + apply Hle in H1. lia.
  - intros k1 j. simpl. rewrite lookup_insert_Some. intros [[<- <-]|[_ H1]]; [lia|].
    apply Hle in H1. lia.
  - by apply insert_subseteq.
  - apply lookup_insert_eq.
Qed.

(** * The loops of [build] *)

Notation Row := (EntryKey * ArchiveEntryDto)%type.

Definition row_ids (rows : list Row) : list N := map (fun r => dto_id r.2) rows.

Lemma elem_of_row_ids i rows : i ∈ row_ids rows <-> exists r, r ∈ rows /\ dto_id r.2 = i.
Proof.
  unfold row_ids. rewrite list_elem_of_In, in_map_iff. setoid_rewrite list_elem_of_In. naive_solver.
Qed.

Lemma row_ids_app r1 r2 : row_ids (r1 ++ r2) = row_ids r1 ++ row_ids r2.
Proof. apply map_app. Qed.

(** A row under its key. *)
Definition row_ok (a : EntryIdAssigner) (r : Row) : Prop :=
  assigned a !! r.1 = Some (dto_id r.2) /\ r.1.1 = (dto_kind r.2, dto_path r.2)
  /\ valid_path (dto_path r.2) /\ dto_name r.2 = basename (dto_path r.2).

(** The collision ordinals of the file rows at a path, in row order. *)
Definition ordinals_of (p : str) (rows : list Row) : list N :=
  (fun r => r.1.2) <$> filter (fun r => r.1.1 = (File, p)) rows.

(** [0, 1, ..., n - 1]. *)
Definition seqN (from n : N) : list N := map (fun i => (from + N.of_nat i)%N) (seq 0 (N.to_nat n)).

Lemma elem_of_seqN from n i : i ∈ seqN from n <-> (from <= i < from + n)%N.
Proof.
  unfold seqN. rewrite list_elem_of_In, in_map_iff. setoid_rewrite in_seq. split.
  - intros (j & <- & Hj). lia.
  - intros H. exists (N.to_nat (i - from)). lia.
Qed.

Lemma seqN_S from n : seqN from (n + 1) = seqN from n ++ [(from + n)%N].
Proof.
  unfold seqN. replace (N.to_nat (n + 1)) with (S (N.to_nat n)) by lia.
  rewrite seq_S, map_app. cbn. do 2 f_equal. lia.
Qed.

Section loops.
Context `{UT : UnicodeTables} `{CF : Crc32Fast}.

(** The state of the loops after the rows so far. *)
Record rows_inv (s : BuildState) (rows : list Row) : Prop := {
  ri_assigner : assigner_ok (b_assigner s);
  ri_rows : Forall (row_ok (b_assigner s)) rows;
  ri_keys : NoDup rows.*1;
  ri_by_id i d : b_by_id s !! i = Some d <-> exists k, (k, d) ∈ rows /\ dto_id d = i;
  ri_children p :
    default [] (b_children s !! p) = row_ids (filter (fun r => parent_of (dto_path r.2) = p) rows);
  ri_count : b_entry_count s = Z.of_nat (length rows);
  ri_files : b_sorted_file_ids s = row_ids (filter (fun r => dto_kind r.2 = File) rows);
  ri_ordinals p : ordinals_of p rows = seqN 0 (default 0%N (b_ordinals s !! p))
}.

Lemma ordinal_lt s rows p o :
  rows_inv s rows -> (File, p, o) ∈ rows.*1 -> (o < default 0 (b_ordinals s !! p))%N.
Proof.
  intros H ([[[k q] o'] d] & E & Hin)%list_elem_of_fmap. cbn in E. simplify_eq.
  assert (o' ∈ ordinals_of q rows) as Ho.
  { unfold ordinals_of. apply list_elem_of_fmap. exists (File, q, o', d). split; [done|].
    by apply list_elem_of_filter. }
  rewrite (ri_ordinals _ _ H) in Ho. apply elem_of_seqN in Ho. lia.
Qed.

Lemma ordinals_of_snoc p rows k d :
  ordinals_of p (rows ++ [(k, d)])
  = ordinals_of p rows ++ (if decide (k.1 = (File, p)) then [k.2] else []).
Proof.
  unfold ordinals_of. rewrite filter_app, fmap_app, filter_cons, filter_nil. cbn.
  by repeat case_decide.
Qed.

Lemma row_ids_NoDup a rows :
  assigner_ok a -> Forall (row_ok a) rows -> NoDup rows.*1 -> NoDup (row_ids rows).
Proof.
  intros [Hinj _] Hok. induction Hok as [|r rows Hr Hok IH]; [constructor|].
  cbn [fmap list_fmap]. intros [Hn Hnd]%NoDup_cons. change (NoDup (dto_id r.2 :: row_ids rows)).
  constructor; [|by apply IH]. rewrite elem_of_row_ids. intros (r' & Hin & Eid).
  rewrite Forall_forall in Hok. destruct (Hok _ Hin) as (Ha & _). destruct Hr as (Hb & _).
  apply Hn. apply list_elem_of_fmap. exists r'. split; [|done].
  eapply Hinj; [exact Hb|]. by rewrite Ha, Eid.
Qed.

Lemma row_ok_mono a a' r : assigned a ⊆ assigned a' -> row_ok a r -> row_ok a' r.
Proof. intros Hle (H & ?). split; [by eapply lookup_weaken|done]. Qed.

Lemma push_child_lookup parent i m p :
  default [] (push_child parent i m !! p)
  = default [] (m !! p) ++ (if decide (parent = p) then [i] else []).
Proof.
  unfold push_child. destruct (decide (parent = p)) as [->|Hne].
  - by rewrite lookup_insert_eq.
  - rewrite lookup_insert_ne by done. by rewrite app_nil_r.
Qed.

(** One more row, whatever loop it comes from. *)
Lemma rows_inv_snoc s rows s' key d :
  rows_inv s rows -> key ∉ rows.*1 -> assign (b_assigner s) key = (dto_id d, b_assigner s') ->
  row_ok (b_assigner s') (key, d) ->
  b_by_id s' = <[dto_id d := d]> (b_by_id s) ->
  b_children s' = push_child (parent_of (dto_path d)) (dto_id d) (b_children s) ->
  b_entry_count s' = (b_entry_count s + 1)%Z ->
  b_sorted_file_ids s'
    = b_sorted_file_ids s ++ (if decide (dto_kind d = File) then [dto_id d] else []) ->
  (forall p, default 0%N (b_ordinals s' !! p)
     = (default 0 (b_ordinals s !! p) + (if decide (key.1 = (File, p)) then 1 else 0))%N
     /\ (key.1 = (File, p) -> key.2 = default 0%N (b_ordinals s !! p))) ->
  rows_inv s' (rows ++ [(key, d)]).
Proof.
  intros [Ha Hr Hk Hb Hc Hn Hf Ho] Hkey Hassign Hrow Eb Ec En Ef Eo.
  destruct (assign_spec _ _ _ _ Ha Hassign) as (Ha' & Hle & Hlk).
  assert (Forall (row_ok (b_assigner s')) (rows ++ [(key, d)])) as Hr'.
  { apply Forall_app. split; [|by constructor]. eapply Forall_impl; [exact Hr|].
    intros r. by apply row_ok_mono. }
  assert (NoDup (rows ++ [(key, d)]).*1) as Hk'.
  { rewrite fmap_app. apply NoDup_app. split_and!; [done| |apply NoDup_singleton].
    intros k Hin. simpl. by intros ->%list_elem_of_singleton. }
  assert (dto_id d ∉ row_ids rows) as Hfresh.
  { pose proof (row_ids_NoDup _ _ Ha' Hr' Hk') as Hnd.
    rewrite row_ids_app in Hnd. apply NoDup_app in Hnd as (_ & Hd & _). intros Hin.
    apply (Hd _ Hin). simpl. by apply list_elem_of_singleton. }
  split; try done.
  - intros i d'. rewrite Eb, lookup_insert_Some, Hb. setoid_rewrite elem_of_app.
    setoid_rewrite list_elem_of_singleton. split.
    + intros [[<- <-]|[Hne (k & Hin & Hi)]]; [by eauto|]. exists k. auto.
    + intros (k & [Hin|[= -> ->]] & <-); [|by left]. right. split; [|by eauto].
      intros Heq. apply Hfresh. rewrite Heq. apply elem_of_row_ids. by exists (k, d').
  - intros p. rewrite Ec, push_child_lookup, Hc, filter_app, row_ids_app. f_equal.
    rewrite filter_cons, filter_nil. simpl. by repeat case_decide.
  - rewrite En, Hn, length_app. simpl. lia.
  - rewrite Ef, Hf, filter_app, row_ids_app. f_equal.
    rewrite filter_cons, filter_nil. simpl. by repeat case_decide.
  - intros p. rewrite ordinals_of_snoc, Ho. destruct (Eo p) as [-> Ek].
    repeat case_decide; try contradiction; rewrite ?seqN_S, ?Ek, ?app_nil_r, ?N.add_0_r; done.
Qed.

(** The row of a file and that of a folder with the totals found for it. *)
Definition file_dto (i : N) (f : str * RawEntry) : ArchiveEntryDto :=
  mk_dto i f.1 (basename f.1) File (Some (raw_compressed_size f.2)) (raw_uncompressed_size f.2)
    (raw_modified f.2 ≫= parse_modified_to_unix_ms) (raw_encrypted f.2) (raw_crc32 f.2).

Definition dir_dto (i : N) (totals : FolderTotals) (f : str * RawEntry) : ArchiveEntryDto :=
  mk_dto i f.1 (basename f.1) Directory (Some (total_compressed totals)) (total_uncompressed totals)
    (raw_modified f.2 ≫= parse_modified_to_unix_ms) (raw_encrypted f.2) (finalize_crc totals).

Lemma file_step_inv s rows f :
  valid_path f.1 -> rows_inv s rows ->
  assigned (b_assigner s) ⊆ assigned (b_assigner (file_step s f))
  /\ exists key i, key.1.1 = File /\ rows_inv (file_step s f) (rows ++ [(key, file_dto i f)]).
Proof.
  destruct f as [p raw]. intros Hv Hinv. cbn [fst] in Hv. unfold file_step.
  set (o := default 0%N (b_ordinals s !! p)).
  destruct (assign (b_assigner s) (File, p, o)) as [i a'] eqn:E.
  destruct (assign_spec _ _ _ _ (ri_assigner _ _ Hinv) E) as (Ha & Hle & Hlk). cbn [b_assigner].
  split; [done|]. exists (File, p, o), i. split; [done|].
  apply (rows_inv_snoc s _ _ _ (file_dto i (p, raw))); try done; cbn [b_by_id b_children b_ordinals].
  - intros Hin%(ordinal_lt _ _ _ _ Hinv). subst o. lia.
  - unfold file_dto. by rewrite path_or_root_valid.
  - by rewrite (proj1 (parent_valid p Hv)).
  - intros q. case_decide as Hq; simplify_eq/=.
    + by rewrite lookup_insert_eq.
    + rewrite lookup_insert_ne by congruence. split; [lia|congruence].
Qed.

Lemma file_loop s rows files :
  Forall (fun f => valid_path f.1) files -> rows_inv s rows ->
  assigned (b_assigner s) ⊆ assigned (b_assigner (foldl file_step s files))
  /\ exists new, rows_inv (foldl file_step s files) (rows ++ new)
     /\ Forall2 (fun f r => r.1.1.1 = File /\ r.2 = file_dto (dto_id r.2) f) files new.
Proof.
  intros Hv. revert s rows; induction Hv as [|f files Hf Hv IH]; intros s rows Hinv.
  { split; [done|]. exists []. by rewrite app_nil_r. }
  destruct (file_step_inv s rows f Hf Hinv) as (Hle & key & i & Hk & Hinv').
  destruct (IH _ _ Hinv') as (Hle' & new & Hnew & H2). cbn [foldl].
  split; [by etrans|]. exists ((key, file_dto i f) :: new).
  rewrite <-app_assoc in Hnew. split; [done|]. by constructor.
Qed.

Lemma dir_step_inv s rows f :
  valid_path f.1 -> (Directory, f.1, 0%N) ∉ rows.*1 -> rows_inv s rows ->
  assigned (b_assigner s) ⊆ assigned (b_assigner (dir_step s f))
  /\ b_folder_totals (dir_step s f) = delete f.1 (b_folder_totals s)
  /\ exists i, rows_inv (dir_step s f)
       (rows ++ [((Directory, f.1, 0%N),
                  dir_dto i (default default_totals (b_folder_totals s !! f.1)) f)]).
Proof.
  destruct f as [p raw]. intros Hv Hnew Hinv. cbn [fst] in *. unfold dir_step.
  destruct (assign (b_assigner s) (Directory, p, 0%N)) as [i a'] eqn:E.
  destruct (assign_spec _ _ _ _ (ri_assigner _ _ Hinv) E) as (Ha & Hle & Hlk). cbn [b_assigner].
  split; [done|]. split; [done|]. exists i.
  apply (rows_inv_snoc s _ _ _ (dir_dto i _ (p, raw))); try done; cbn [b_by_id b_children b_ordinals].
  - unfold dir_dto. by rewrite path_or_root_valid.
  - by rewrite (proj1 (parent_valid p Hv)).
  - by rewrite app_nil_r.
  - intros q. case_decide as Hq; [done|]. split; [lia|done].
Qed.

Lemma dir_loop (t : gmap str FolderTotals) s rows dirs :
  Forall (fun f => valid_path f.1) dirs -> NoDup dirs.*1 ->
  (forall p, p ∈ dirs.*1 -> (Directory, p, 0%N) ∉ rows.*1 /\ b_folder_totals s !! p = t !! p) ->
  rows_inv s rows ->
  assigned (b_assigner s) ⊆ assigned (b_assigner (foldl dir_step s dirs))
  /\ exists new, rows_inv (foldl dir_step s dirs) (rows ++ new)
     /\ Forall2 (fun f r => r.1 = (Directory, f.1, 0%N) /\
          r.2 = dir_dto (dto_id r.2) (default default_totals (t !! f.1)) f) dirs new.
Proof.
  intros Hv. revert s rows; induction Hv as [|f dirs Hf Hv IH]; intros s rows Hnd Hfresh Hinv.
  { split; [done|]. exists []. by rewrite app_nil_r. }
  cbn [fmap list_fmap] in Hnd, Hfresh. apply NoDup_cons in Hnd as [Hn Hnd].
  destruct (Hfresh f.1) as [Hf1 Hf2]; [left|].
  destruct (dir_step_inv s rows f Hf Hf1 Hinv) as (Hle & Ht & i & Hinv').
  pose proof (fun H => IH _ _ Hnd H Hinv') as IH'.
  destruct IH' as (Hle' & new & Hnew & H2).
  { intros p Hp. rewrite fmap_app, elem_of_app. simpl. rewrite list_elem_of_singleton.
    destruct (Hfresh p) as [Hp1 Hp2]; [by right|]. split.
    - intros [H|[= ->]]; done.
    - rewrite Ht, lookup_delete_ne; [done|]. congruence. }
  cbn [foldl]. split; [by etrans|]. eexists (_ :: new). rewrite <-app_assoc in Hnew.
  split; [exact Hnew|]. constructor; [|done]. by rewrite Hf2.
Qed.
End loops.

(** * The scan *)

Definition raw_of (e : ArchiveEntry) : RawEntry :=
  mk_raw (size e) (packed_size e) (modified e) (encrypted e) (crc32 e).

(** The listing's rows that are kept: an acceptable path below the root. *)
Definition listed (e : ArchiveEntry) : option (str * RawEntry) :=
  if bool_decide (acceptable (normalize (path e))) && negb (str_eqb (normalize (path e)) [])
  then Some (normalize (path e), raw_of e) else None.

Definition listed_file (e : ArchiveEntry) : option (str * RawEntry) :=
  if is_dir e then None else listed e.
Definition listed_dir (e : ArchiveEntry) : option (str * RawEntry) :=
  if is_dir e then listed e else None.

Lemma listed_valid e f : listed e = Some f -> valid_path f.1.
Proof.
  unfold listed. rewrite acceptable_ok. destruct (is_ok _) eqn:E; [|done].
  destruct (str_eqb (normalize (path e)) []) eqn:E2; [done|]. intros [= <-]. cbn [fst].
  apply normalize_valid; [done|]. intros H. rewrite H in E2. done.
Qed.

Lemma scan_entry_eq files dirs e :
  scan_entry (files, dirs) e =
  (files ++ match listed_file e with Some f => [f] | None => [] end,
   match listed_dir e with
   | Some f => match dirs !! f.1 with Some _ => dirs | None => <[f.1 := f.2]> dirs end
   | None => dirs
   end).
Proof.
  unfold scan_entry, listed_file, listed_dir, listed. rewrite acceptable_ok.
  destruct (is_ok _); cbn [negb andb]; [|destruct (is_dir e); by rewrite app_nil_r].
  destruct (normalize (path e)) as [|c p]; [destruct (is_dir e); by rewrite app_nil_r|].
  destruct (is_dir e); cbn -[lookup]; by rewrite ?app_nil_r.
Qed.

Lemma scan_spec es files dirs :
  (foldl scan_entry (files, dirs) es).1 = files ++ omap listed_file es
  /\ (forall p, (foldl scan_entry (files, dirs) es).2 !! p
        = match dirs !! p with
          | Some r => Some r
          | None => snd <$> head (List.filter (fun f => str_eqb f.1 p) (omap listed_dir es))
          end).
Proof.
  revert files dirs; induction es as [|e es IH]; intros files dirs; cbn [foldl].
  { split; [by rewrite app_nil_r|]. intros p. cbn. by destruct (dirs !! p). }
  rewrite scan_entry_eq. destruct (IH (files ++ match listed_file e with Some f => [f] | None => [] end)
    (match listed_dir e with
     | Some f => match dirs !! f.1 with Some _ => dirs | None => <[f.1 := f.2]> dirs end
     | None => dirs end)) as [H1 H2].
  split.
  - rewrite H1, <-app_assoc. f_equal. cbn. by destruct (listed_file e).
  - intros p. rewrite H2. clear H1 H2. cbn. destruct (listed_dir e) as [[q r]|]; [|done]. cbn.
    destruct (str_eqb q p) eqn:E.
    + apply str_eqb_eq in E as ->. destruct (dirs !! p) as [r'|] eqn:E'; [by rewrite E'|].
      by rewrite lookup_insert_eq.
    + assert (q <> p) by (intros ->; by rewrite str_eqb_refl in E).
      destruct (dirs !! q); [done|]. by rewrite lookup_insert_ne.
Qed.

(** Where a folder is due: it is listed, or something listed is below it. *)
Definition folder_due (es : list ArchiveEntry) (p : str) : Prop :=
  (exists e f, e ∈ es /\ listed_dir e = Some f /\ f.1 = p)
  \/ (exists e f, e ∈ es /\ listed e = Some f /\ p ∈ ancestors f.1).

Lemma listed_split e f : listed e = Some f -> listed_file e = Some f \/ listed_dir e = Some f.
Proof. unfold listed_file, listed_dir. destruct (is_dir e); auto. Qed.

Section scan.
Context `{UT : UnicodeTables}.

Lemma build_files_perm es : build_files es ≡ₚ omap listed_file es.
Proof.
  unfold build_files. rewrite stable_sort_perm. by destruct (scan_spec es [] ∅) as [-> _].
Qed.

Lemma build_files_valid es : Forall (fun f => valid_path f.1) (build_files es).
Proof.
  rewrite build_files_perm. apply Forall_forall. intros f (e & _ & He)%list_elem_of_omap.
  unfold listed_file in He. destruct (is_dir e); [done|]. by eapply listed_valid.
Qed.

Lemma scan_dirs_dom es p :
  p ∈ dom (foldl scan_entry ([], ∅) es).2 <-> exists e f, e ∈ es /\ listed_dir e = Some f /\ f.1 = p.
Proof.
  rewrite elem_of_dom. destruct (scan_spec es [] ∅) as [_ ->]. rewrite lookup_empty. split.
  - intros [r Hr]. destruct (List.filter _ _) as [|f l] eqn:E; [done|].
    assert (f ∈ f :: l) as Hf by left. rewrite <-E in Hf.
    apply list_elem_of_In, filter_In in Hf as [Hf Hp]. apply str_eqb_eq in Hp.
    apply list_elem_of_In, list_elem_of_omap in Hf as (e & He & Hl). eauto.
  - intros (e & f & He & Hl & <-).
    assert (f ∈ List.filter (fun g => str_eqb g.1 f.1) (omap listed_dir es)) as H.
    { apply list_elem_of_In, filter_In. split; [|apply str_eqb_refl].
      apply list_elem_of_In, list_elem_of_omap. eauto. }
    destruct (List.filter _ _) as [|g l]; [by apply elem_of_nil in H|]. by eexists.
Qed.

Lemma btree_rows_fst dirs : (btree_rows dirs).*1 = btree_elements (dom dirs).
Proof.
  unfold btree_rows. induction (btree_elements (dom dirs)) as [|x l IH]; [done|]. cbn. by rewrite IH.
Qed.

Lemma build_dirs_paths es p : p ∈ (build_dirs es).*1 <-> folder_due es p.
Proof.
  unfold build_dirs. destruct (foldl scan_entry ([], ∅) es) as [files dirs] eqn:E.
  pose proof (scan_dirs_dom es) as Hd. destruct (scan_spec es [] ∅) as [Hf _]. rewrite E in Hd, Hf.
  cbn [fst snd app] in *.
  rewrite btree_rows_fst, elem_of_btree_elements. unfold synthesize, implied_dirs, folder_due.
  rewrite dom_union, elem_of_union, Hd, dom_gset_to_gmap, elem_of_union, !elem_of_list_to_set.
  assert (p ∈ concat (map (fun f => ancestors f.1) files) <->
    exists e f, e ∈ es /\ listed_file e = Some f /\ p ∈ ancestors f.1) as ->.
  { rewrite list_elem_of_In, in_concat. setoid_rewrite in_map_iff. subst files. split.
    - intros (l & (f & <- & Hin) & Hp). apply list_elem_of_In, list_elem_of_omap in Hin as (e & ? & ?).
      exists e, f. split_and!; [done..|]. by apply list_elem_of_In.
    - intros (e & f & He & Hl & Hp). exists (ancestors f.1). split; [|by apply list_elem_of_In].
      exists f. split; [done|]. apply list_elem_of_In, list_elem_of_omap. eauto. }
  assert (p ∈ concat (map ancestors (elements (dom dirs))) <->
    exists e f, e ∈ es /\ listed_dir e = Some f /\ p ∈ ancestors f.1) as ->.
  { rewrite list_elem_of_In, in_concat. setoid_rewrite in_map_iff. split.
    - intros (l & (q & <- & Hin) & Hp). apply list_elem_of_In, elem_of_elements, Hd in Hin
        as (e & f & He & Hl & <-). exists e, f. split_and!; [done..|]. by apply list_elem_of_In.
    - intros (e & f & He & Hl & Hp). exists (ancestors f.1). split; [|by apply list_elem_of_In].
      exists f.1. split; [done|]. apply list_elem_of_In, elem_of_elements, Hd. eauto. }
  split; (intros [H|H]; [by left|right]).
  - destruct H as [(e & f & He & Hl & Hp)|(e & f & He & Hl & Hp)]; exists e, f; split_and!; try done;
      unfold listed_file, listed_dir in Hl; by destruct (is_dir e).
  - destruct H as (e & f & He & Hl & Hp). destruct (listed_split e f Hl); [left|right]; eauto.
Qed.

Lemma build_dirs_NoDup es : NoDup (build_dirs es).*1.
Proof.
  unfold build_dirs. destruct (foldl scan_entry ([], ∅) es) as [files dirs].
  rewrite btree_rows_fst. apply NoDup_btree_elements.
Qed.

Lemma folder_due_valid es p : folder_due es p -> valid_path p.
Proof.
  intros [(e & f & _ & Hl & <-)|(e & f & _ & Hl & Hp)].
  - unfold listed_dir in Hl. destruct (is_dir e); [|done]. by eapply listed_valid.
  - eapply valid_path_in_ancestors; [|exact Hp]. by eapply listed_valid.
Qed.

Lemma build_dirs_valid es : Forall (fun f => valid_path f.1) (build_dirs es).
Proof.
  apply Forall_forall. intros f Hf. apply (folder_due_valid es), build_dirs_paths.
  apply list_elem_of_fmap. eauto.
Qed.
End scan.

(** * Folder totals: one pass over the files, or a rescan for every folder *)

Section totals.
Context `{UT : UnicodeTables} `{CF : Crc32Fast}.

Definition add_file (t : FolderTotals) (f : str * RawEntry) : FolderTotals :=
  mk_totals (saturating_add (total_uncompressed t) (raw_uncompressed_size f.2))
    (saturating_add (total_compressed t) (raw_compressed_size f.2))
    (match raw_crc32 f.2 with
     | Some crc => crc_pairs t ++ [(f.1, to_uppercase crc)]
     | None => crc_pairs t
     end).

Definition is_below (a p : str) : bool := starts_with p (a ++ §"/").

Lemma is_below_ancestor a p : is_below a p = true <-> a ∈ ancestors p.
Proof.
  unfold is_below. rewrite starts_with_spec, elem_of_folders_above. change §"/" with ["/"%char].
  by setoid_rewrite <-app_assoc.
Qed.

Lemma add_to_folder_foldl p raw m l a :
  NoDup l ->
  default default_totals (foldl (add_to_folder p raw) m l !! a)
  = (if decide (a ∈ l) then add_file (default default_totals (m !! a)) (p, raw)
     else default default_totals (m !! a)).
Proof.
  intros Hnd. revert m; induction Hnd as [|b l Hb Hnd IH]; intros m; cbn [foldl].
  { case_decide as H; [by apply elem_of_nil in H|done]. }
  rewrite IH. clear IH. destruct (decide (a = b)) as [->|Hne].
  - case_decide as H; [done|]. case_decide as H'; [|destruct H'; left].
    unfold add_to_folder. by rewrite lookup_insert_eq.
  - replace (add_to_folder p raw m b !! a) with (m !! a)
      by (unfold add_to_folder; by rewrite lookup_insert_ne).
    repeat case_decide; set_solver.
Qed.

Lemma file_loop_totals s files a :
  default default_totals (b_folder_totals (foldl file_step s files) !! a)
  = foldl add_file (default default_totals (b_folder_totals s !! a))
      (List.filter (fun f => is_below a f.1) files).
Proof.
  revert s; induction files as [|f files IH]; intros s; cbn [foldl List.filter]; [done|].
  rewrite IH. clear IH. destruct f as [p raw]. cbn [fst]. unfold file_step at 1.
  destruct (assign _ _) as [i a']. cbn [b_folder_totals].
  rewrite add_to_folder_foldl by apply NoDup_ancestors.
  destruct (is_below a p) eqn:E.
  - apply is_below_ancestor in E. by case_decide.
  - case_decide as H; [|done]. apply is_below_ancestor in H. congruence.
Qed.

Definition folder_of (a : str) (files : list (str * RawEntry)) : FolderTotals :=
  foldl add_file default_totals (List.filter (fun f => is_below a f.1) files).

Definition sumZ (l : list Z) : Z := foldr Z.add 0%Z l.

Lemma foldl_saturating {A : Type} (g : A -> Z) l t :
  Forall (fun x => 0 <= g x)%Z l -> (0 <= t <= u64_max)%Z ->
  foldl (fun t x => saturating_add t (g x)) t l = Z.min (t + sumZ (map g l)) u64_max.
Proof.
  intros Hl. revert t; induction Hl as [|x l Hx Hl IH]; intros t Ht; cbn; [lia|].
  assert (0 <= sumZ (map g l))%Z.
  { clear -Hl. induction Hl; cbn in *; unfold sumZ in *; lia. }
  rewrite IH; unfold saturating_add, u64_max in *; unfold sumZ in *; lia.
Qed.

(** What [add_file] keeps, field by field. *)
Lemma foldl_add_file t fs :
  foldl add_file t fs =
  mk_totals (foldl (fun t f => saturating_add t (raw_uncompressed_size f.2)) (total_uncompressed t) fs)
    (foldl (fun t f => saturating_add t (raw_compressed_size f.2)) (total_compressed t) fs)
    (crc_pairs t ++ omap (fun f => (fun c => (f.1, to_uppercase c)) <$> raw_crc32 f.2) fs).
Proof.
  revert t; induction fs as [|f fs IH]; intros t; cbn; [rewrite app_nil_r; by destruct t|].
  rewrite IH. cbn. f_equal. destruct (raw_crc32 f.2); cbn; [by rewrite <-app_assoc|done].
Qed.
End totals.

(** * The built index *)

(** The maps of an index, tied to one list of rows. *)
Record index_of `{UT : UnicodeTables} (ix : EntryIndex) (a : EntryIdAssigner) (rows : list Row)
  : Prop := {
  ix_assigner : assigner_ok a;
  ix_rows : Forall (row_ok a) rows;
  ix_keys : NoDup rows.*1;
  ix_by_id i d : by_id ix !! i = Some d <-> exists k, (k, d) ∈ rows /\ dto_id d = i;
  ix_children p : children_of ix p =
    stable_sort (name_le (by_id ix)) (row_ids (filter (fun r => parent_of (dto_path r.2) = p) rows));
  ix_count : entry_count ix = Z.of_nat (length rows);
  ix_files : sorted_file_ids ix = row_ids (filter (fun r => dto_kind r.2 = File) rows);
  ix_ordinals p : exists n, ordinals_of p rows = seqN 0 n
}.

Section built.
Context `{UT : UnicodeTables} `{CF : Crc32Fast}.

(** The rows of the files and of the folders of a listing, in the order [build]
    makes them. *)
Definition file_rows_of (es : list ArchiveEntry) (rows : list Row) : Prop :=
  Forall2 (fun f r => r.1.1.1 = File /\ r.2 = file_dto (dto_id r.2) f) (build_files es) rows.

Definition dir_rows_of (es : list ArchiveEntry) (rows : list Row) : Prop :=
  Forall2 (fun f r => r.1 = (Directory, f.1, 0%N)
    /\ r.2 = dir_dto (dto_id r.2) (folder_of f.1 (build_files es)) f) (build_dirs es) rows.

Lemma build_rows es a ix a' :
  assigner_ok a -> build es a = (ix, a') ->
  assigned a ⊆ assigned a'
  /\ exists frows drows, index_of ix a' (frows ++ drows) /\ file_rows_of es frows /\ dir_rows_of es drows.
Proof.
  intros Ha Hb. unfold build in Hb. set (s0 := mk_build a ∅ ∅ 0 0 [] ∅ ∅) in Hb.
  assert (rows_inv s0 []) as H0.
  { split; try done.
    - constructor.
    - intros i d. cbn. rewrite lookup_empty. split; [done|]. intros (k & H & _). by apply elem_of_nil in H. }
  destruct (file_loop s0 [] (build_files es) (build_files_valid es) H0) as (Hle1 & frows & H1 & Hf).
  cbn [app] in H1. set (s1 := foldl file_step s0 (build_files es)) in *.
  destruct (dir_loop (b_folder_totals s1) s1 frows (build_dirs es) (build_dirs_valid es)
    (build_dirs_NoDup es)) as (Hle2 & drows & H2 & Hd).
  { intros p _. split; [|done]. intros (r & Hr & Hin)%list_elem_of_fmap.
    destruct (Forall2_elem_r _ _ _ _ Hf Hin) as (f & _ & Hk & _). by rewrite <-Hr in Hk. }
  { done. }
  injection Hb as <- <-. split; [by etrans|]. exists frows, drows. split_and!; [|done|].
  - destruct H2. split; try done; [|by eauto]. intros p. unfold children_of. cbn.
    rewrite lookup_fmap. destruct (ri_children0 p). by destruct (b_children _ !! p).
  - eapply Forall2_impl; [exact Hd|]. intros f r [Hk Hr]. split; [done|].
    rewrite Hr at 1. f_equal. subst s1. by rewrite file_loop_totals.
Qed.
End built.

(** * What an index says of its listing *)

Section properties.
Context `{UT : UnicodeTables} `{CF : Crc32Fast}.

Lemma get_row ix a rows r : index_of ix a rows -> r ∈ rows -> get ix (dto_id r.2) = Some r.2.
Proof. intros H Hr. apply (ix_by_id _ _ _ H). exists r.1. by destruct r. Qed.

Lemma omap_get_rows ix a rows l :
  index_of ix a rows -> l ⊆ rows -> omap (get ix) (row_ids l) = map snd l.
Proof.
  intros H. induction l as [|r l IH]; intros Hl; [done|].
  change (match get ix (dto_id r.2) with
          | Some d => d :: omap (get ix) (row_ids l)
          | None => omap (get ix) (row_ids l)
          end = r.2 :: map snd l).
  rewrite (get_row ix a rows r); [|done|apply Hl; left]. f_equal. apply IH.
  intros x Hx. apply Hl. by right.
Qed.

(** The rows of the files, in path order. *)
Definition file_rows (ix : EntryIndex) : list ArchiveEntryDto := omap (get ix) (sorted_file_ids ix).

Lemma filter_all {A : Type} (P : A -> Prop) `{!forall x, Decision (P x)} l :
  Forall P l -> filter P l = l.
Proof. induction 1 as [|x l Hx Hl IH]; [done|]. by rewrite filter_cons_True, IH. Qed.

Lemma filter_none {A : Type} (P : A -> Prop) `{!forall x, Decision (P x)} l :
  Forall (fun x => ~ P x) l -> filter P l = [].
Proof. induction 1 as [|x l Hx Hl IH]; [done|]. by rewrite filter_cons_False. Qed.

Lemma file_rows_kind es frows : file_rows_of es frows -> Forall (fun r => dto_kind r.2 = File) frows.
Proof.
  intros H. apply Forall_forall. intros r Hr. destruct (Forall2_elem_r _ _ _ _ H Hr) as (f & _ & _ & ->).
  done.
Qed.

Lemma dir_rows_kind es drows : dir_rows_of es drows -> Forall (fun r => dto_kind r.2 = Directory) drows.
Proof.
  intros H. apply Forall_forall. intros r Hr. destruct (Forall2_elem_r _ _ _ _ H Hr) as (f & _ & _ & ->).
  done.
Qed.

Lemma file_rows_eq es ix a frows drows :
  index_of ix a (frows ++ drows) -> file_rows_of es frows -> dir_rows_of es drows ->
  file_rows ix = map snd frows.
Proof.
  intros H Hf Hd. unfold file_rows. rewrite (ix_files _ _ _ H), filter_app.
  rewrite (filter_all _ frows) by by eapply file_rows_kind.
  rewrite (filter_none _ drows), app_nil_r.
  - eapply omap_get_rows; [done|]. set_solver.
  - eapply Forall_impl; [by eapply dir_rows_kind|]. by intros r ->.
Qed.

Lemma values_rows ix a rows d : index_of ix a rows -> d ∈ values ix <-> exists k, (k, d) ∈ rows.
Proof.
  intros H. unfold values. rewrite list_elem_of_fmap. split.
  - intros ([i d'] & -> & Hin). apply elem_of_map_to_list, (ix_by_id _ _ _ H) in Hin as (k & Hk & _).
    by exists k.
  - intros [k Hk]. exists (dto_id d, d). split; [done|].
    apply elem_of_map_to_list, (ix_by_id _ _ _ H). eauto.
Qed.

Lemma values_perm ix a rows : index_of ix a rows -> values ix ≡ₚ rows.*2.
Proof.
  intros H. pose proof (row_ids_NoDup _ _ (ix_assigner _ _ _ H) (ix_rows _ _ _ H) (ix_keys _ _ _ H)) as Hnd.
  assert (NoDup rows.*2) as Hnd2.
  { apply (NoDup_fmap_1 dto_id). unfold row_ids in Hnd. by rewrite <-list_fmap_compose. }
  apply NoDup_Permutation; [|done|].
  - unfold values. apply (NoDup_fmap_1 dto_id). rewrite <-list_fmap_compose.
    erewrite (list_fmap_ext _ fst); [apply NoDup_fst_map_to_list|].
    intros i [j d] Hj. apply list_elem_of_lookup_2, elem_of_map_to_list, (ix_by_id _ _ _ H) in Hj.
    cbn. by destruct Hj as (k & _ & <-).
  - intros d. rewrite (values_rows ix a rows d H), list_elem_of_fmap. split.
    + intros [k Hk]. by exists (k, d).
    + intros ([k d'] & -> & Hk). by exists k.
Qed.

Lemma values_split es a ix a' :
  assigner_ok a -> build es a = (ix, a') ->
  exists folders, (forall p, p ∈ map dto_path folders <-> folder_due es p)
    /\ NoDup (map dto_path folders) /\ Forall (fun d => dto_kind d = Directory) folders
    /\ values ix ≡ₚ file_rows ix ++ folders.
Proof.
  intros Ha Hb. destruct (build_rows es a ix a' Ha Hb) as (_ & frows & drows & Hix & Hf & Hd).
  pose proof (file_rows_eq _ _ _ _ _ Hix Hf Hd) as Ef.
  pose proof (values_perm _ _ _ Hix) as Hperm. rewrite fmap_app in Hperm.
  assert (map dto_path (map snd drows) = (build_dirs es).*1) as Ep.
  { clear -Hd. induction Hd as [|f r fs rs [Hk Hr] _ IH]; [done|]. cbn. rewrite IH. f_equal.
    by rewrite Hr. }
  exists (map snd drows). rewrite Ep, Ef. split_and!; [apply build_dirs_paths|apply build_dirs_NoDup| |done].
  apply Forall_fmap. by eapply dir_rows_kind.
Qed.

(** C20: Every accepted row of a listing is a row of the index and
    nothing else is: the file rows, in path order, carry the accepted files with
    their sizes, dates, flags and checksums (duplicates as distinct rows), there is
    exactly one folder row for every folder that is listed or implied, and the count is
    the number of rows. A path is accepted exactly if it is not empty once its slashes are
    normalised and has no NUL, no leading slash, no drive letter and no segment of two dots;
    so joining the path of a row to any directory, segment by segment, leads below it. *)
Theorem index_complete es a ix a' :
  assigner_ok a -> build es a = (ix, a') ->
  (exists files, files ≡ₚ omap listed_file es /\ StronglySorted fst_le files
     /\ Forall2 (fun f d => d = file_dto (dto_id d) f) files (file_rows ix))
  /\ (exists folders, (forall p, p ∈ map dto_path folders <-> folder_due es p)
     /\ NoDup (map dto_path folders) /\ Forall (fun d => dto_kind d = Directory) folders
     /\ values ix ≡ₚ file_rows ix ++ folders)
  /\ Forall (fun d => safe_to_join (dto_path d)) (values ix)
  /\ entry_count ix = Z.of_nat (length (values ix)).
Proof.
  intros Ha Hb. destruct (build_rows es a ix a' Ha Hb) as (_ & frows & drows & Hix & Hf & Hd).
  pose proof (file_rows_eq _ _ _ _ _ Hix Hf Hd) as Ef.
  pose proof (values_perm _ _ _ Hix) as Hperm. rewrite fmap_app in Hperm. split_and!.
  - exists (build_files es). split_and!; [apply build_files_perm| |].
    + unfold build_files. apply stable_sort_sorted.
      * intros x y z. unfold fst_le. apply str_le_trans.
      * intros x y. unfold fst_le. apply total. apply _.
    + rewrite Ef. apply Forall2_fmap_r. eapply Forall2_impl; [exact Hf|]. by intros f r [_ H].
  - by eapply values_split.
  - apply Forall_forall. intros d [k Hk]%(values_rows _ _ _ _ Hix).
    pose proof (ix_rows _ _ _ Hix) as Hok. rewrite Forall_forall in Hok. apply valid_safe. by destruct (Hok _ Hk) as (_ & _ & H & _).
  - rewrite Hperm, (ix_count _ _ _ Hix), <-fmap_app. by rewrite length_fmap.
Qed.

(** ** Folder rows *)

Definition folder_crc (below : list ArchiveEntryDto) : option str :=
  finalize_crc (mk_totals 0 0
    (omap (fun f => (fun c => (dto_path f, to_uppercase c)) <$> dto_crc32 f) below)).

Lemma filter_file_dtos (P : str -> bool) fs ds :
  Forall2 (fun f d => d = file_dto (dto_id d) f) fs ds ->
  Forall2 (fun f d => d = file_dto (dto_id d) f)
    (List.filter (fun f => P f.1) fs) (List.filter (fun d => P (dto_path d)) ds).
Proof.
  induction 1 as [|f d fs ds Hd _ IH]; cbn; [constructor|].
  assert (dto_path d = f.1) as -> by by rewrite Hd. destruct (P f.1); [by constructor|done].
Qed.

Lemma map_file_dtos {B : Type} (g : str * RawEntry -> B) (h : ArchiveEntryDto -> B) fs ds :
  Forall2 (fun f d => d = file_dto (dto_id d) f) fs ds ->
  (forall i f, h (file_dto i f) = g f) -> map g fs = map h ds.
Proof.
  intros H Hgh. induction H as [|f d fs ds Hd _ IH]; [done|]. cbn. by rewrite IH, Hd, Hgh.
Qed.

Lemma omap_file_dtos {B : Type} (g : str * RawEntry -> option B) (h : ArchiveEntryDto -> option B) fs ds :
  Forall2 (fun f d => d = file_dto (dto_id d) f) fs ds ->
  (forall i f, h (file_dto i f) = g f) -> omap g fs = omap h ds.
Proof.
  intros H Hgh. induction H as [|f d fs ds Hd _ IH]; [done|]. cbn. by rewrite IH, Hd, Hgh.
Qed.

Lemma listed_nonneg es :
  Forall (fun e => 0 <= size e /\ 0 <= packed_size e)%Z es ->
  Forall (fun f => 0 <= raw_uncompressed_size f.2 /\ 0 <= raw_compressed_size f.2)%Z (build_files es).
Proof.
  intros H. rewrite build_files_perm, !Forall_forall in *. intros f (e & He & Hl)%list_elem_of_omap.
  unfold listed_file, listed in Hl. destruct (is_dir e); [done|]. destruct (_ && _); [|done].
  injection Hl as <-. by apply H.
Qed.

Lemma folder_row es a ix a' d :
  assigner_ok a -> build es a = (ix, a') -> d ∈ values ix -> dto_kind d = Directory ->
  exists f, f ∈ build_dirs es /\ d = dir_dto (dto_id d) (folder_of (dto_path d) (build_files es)) f.
Proof.
  intros Ha Hb Hd Hk. destruct (build_rows es a ix a' Ha Hb) as (_ & frows & drows & Hix & Hf & Hdr).
  apply (values_rows _ _ _ _ Hix) in Hd as [k Hin]. apply elem_of_app in Hin as [Hin|Hin].
  - pose proof (file_rows_kind _ _ Hf) as H. rewrite Forall_forall in H.
    apply H in Hin. cbn in Hin. congruence.
  - destruct (Forall2_elem_r _ _ _ _ Hdr Hin) as (f & Hfin & _ & E). cbn [snd] in E.
    exists f. split; [done|]. rewrite E at 1. f_equal. by rewrite E at 1.
Qed.

(** C33: The one pass in which every file adds itself to its
    ancestors gives each folder what a rescan of all the files below it would: the
    sums of their sizes, capped at the largest [u64], and the checksum of their
    paths and checksums in path order. *)
Theorem folder_is_rescan es a ix a' d :
  assigner_ok a -> Forall (fun e => 0 <= size e /\ 0 <= packed_size e)%Z es ->
  build es a = (ix, a') -> d ∈ values ix -> dto_kind d = Directory ->
  let below := List.filter (fun f => is_below (dto_path d) (dto_path f)) (file_rows ix) in
  dto_uncompressed_size d = Z.min (sumZ (map dto_uncompressed_size below)) u64_max
  /\ dto_compressed_size d
     = Some (Z.min (sumZ (map (fun f => default 0%Z (dto_compressed_size f)) below)) u64_max)
  /\ dto_crc32 d = folder_crc below.
Proof.
  intros Ha Hsz Hb Hd Hk below. destruct (folder_row es a ix a' d Ha Hb Hd Hk) as (f & _ & E).
  destruct (build_rows es a ix a' Ha Hb) as (_ & frows & drows & Hix & Hf & Hdr).
  set (fs := List.filter (fun f => is_below (dto_path d) f.1) (build_files es)).
  assert (Forall2 (fun f d => d = file_dto (dto_id d) f) fs below) as H2.
  { subst fs below. apply (filter_file_dtos (is_below (dto_path d))).
    rewrite (file_rows_eq _ _ _ _ _ Hix Hf Hdr). apply Forall2_fmap_r.
    eapply Forall2_impl; [exact Hf|]. by intros g r [_ H]. }
  assert (Forall (fun f => 0 <= raw_uncompressed_size f.2 /\ 0 <= raw_compressed_size f.2)%Z fs) as Hnn.
  { pose proof (listed_nonneg es Hsz) as H. rewrite Forall_forall in *. intros g Hg. apply H.
    apply list_elem_of_In, filter_In in Hg as [Hg _]. by apply list_elem_of_In. }
  unfold folder_of in E. fold fs in E. rewrite foldl_add_file in E. cbn [total_uncompressed
    total_compressed crc_pairs default_totals app] in E.
  assert (0 <= 0 <= u64_max)%Z as H0 by (unfold u64_max; lia).
  rewrite (foldl_saturating (fun f => raw_uncompressed_size f.2)) in E;
    [|by eapply Forall_impl; [exact Hnn|]; naive_solver|done].
  rewrite (foldl_saturating (fun f => raw_compressed_size f.2)) in E;
    [|by eapply Forall_impl; [exact Hnn|]; naive_solver|done].
  unfold folder_crc.
  rewrite <-(map_file_dtos (fun f => raw_uncompressed_size f.2) _ _ _ H2) by done.
  rewrite <-(map_file_dtos (fun f => raw_compressed_size f.2) _ _ _ H2) by done.
  rewrite <-(omap_file_dtos (fun f => (fun c => (f.1, to_uppercase c)) <$> raw_crc32 f.2) _ _ _ H2) by done.
  rewrite E at 1 2 3. done.
Qed.

(** ** Stable ids *)

Definition files_at (p : str) (ix : EntryIndex) : list ArchiveEntryDto :=
  List.filter (fun d => str_eqb (dto_path d) p) (file_rows ix).

Lemma files_at_rows es ix a frows drows p :
  index_of ix a (frows ++ drows) -> file_rows_of es frows -> dir_rows_of es drows ->
  files_at p ix = map snd (filter (fun r => r.1.1 = (File, p)) (frows ++ drows)).
Proof.
  intros Hix Hf Hd. unfold files_at. rewrite (file_rows_eq _ _ _ _ _ Hix Hf Hd), filter_app.
  rewrite (filter_none _ drows), app_nil_r.
  - pose proof (ix_rows _ _ _ Hix) as Hok. apply Forall_app in Hok as [Hok _].
    pose proof (file_rows_kind _ _ Hf) as Hk. clear -Hok Hk.
    induction frows as [|r rows IH]; [done|]. apply Forall_cons in Hok as [Hr Hok].
    apply Forall_cons in Hk as [Hkr Hk]. cbn [map List.filter]. rewrite filter_cons, IH by done.
    destruct Hr as (_ & Hr & _). rewrite Hr, Hkr. destruct (str_eqb (dto_path r.2) p) eqn:E.
    + apply str_eqb_eq in E as <-. by case_decide.
    + case_decide as H; [|done]. simplify_eq. by rewrite str_eqb_refl in E.
  - apply Forall_forall. intros r Hr. destruct (Forall2_elem_r _ _ _ _ Hd Hr) as (f & _ & -> & _).
    by intros [=].
Qed.

(** The n-th row of a path has ordinal n. *)
Lemma nth_file_key ix a rows p n r :
  index_of ix a rows -> filter (fun r => r.1.1 = (File, p)) rows !! n = Some r ->
  r.1 = (File, p, N.of_nat n).
Proof.
  intros Hix Hn. assert (r.1.1 = (File, p)) as Hk.
  { apply list_elem_of_lookup_2, list_elem_of_filter in Hn. by destruct Hn. }
  destruct (ix_ordinals _ _ _ Hix p) as [m Hm].
  assert (ordinals_of p rows !! n = Some r.1.2) as Ho.
  { unfold ordinals_of. by rewrite list_lookup_fmap, Hn. }
  rewrite Hm in Ho. unfold seqN in Ho. rewrite list_lookup_fmap in Ho.
  apply fmap_Some in Ho as (j & Hj & E). apply lookup_seq in Hj as [-> _].
  destruct r as [[kp o] d]. cbn in *. subst. by rewrite N.add_0_l.
Qed.

Lemma rebuild_grows ess a :
  assigner_ok a ->
  assigner_ok (foldl (fun a es => (build es a).2) a ess)
  /\ assigned a ⊆ assigned (foldl (fun a es => (build es a).2) a ess).
Proof.
  revert a; induction ess as [|es ess IH]; intros a Ha; [done|]. cbn [foldl].
  destruct (build es a) as [ix a'] eqn:E. destruct (build_rows es a ix a' Ha E) as (Hle & f & d & H & _).
  destruct (IH a' (ix_assigner _ _ _ H)) as [Hok Hle']. split; [done|]. by etrans.
Qed.

Lemma dir_row_key es frows drows k d :
  file_rows_of es frows -> dir_rows_of es drows -> (k, d) ∈ frows ++ drows ->
  dto_kind d = Directory -> k = (Directory, dto_path d, 0%N).
Proof.
  intros Hf Hd Hin Hk. apply elem_of_app in Hin as [Hin|Hin].
  - pose proof (file_rows_kind _ _ Hf) as H. rewrite Forall_forall in H. apply H in Hin.
    cbn in Hin. congruence.
  - destruct (Forall2_elem_r _ _ _ _ Hd Hin) as (g & _ & K & E). cbn in K, E. by rewrite K, E.
Qed.

(** However often an archive is listed again in between, an id
    never comes to mean another kind of entry or another path, a folder keeps its
    id, and so does the n-th file of every path. *)
Theorem ids_stable es1 between es2 a ix1 a1 ix2 a2 :
  assigner_ok a -> build es1 a = (ix1, a1) ->
  build es2 (foldl (fun a es => (build es a).2) a1 between) = (ix2, a2) ->
  (forall d1 d2, d1 ∈ values ix1 -> d2 ∈ values ix2 -> dto_id d1 = dto_id d2 ->
     dto_kind d1 = dto_kind d2 /\ dto_path d1 = dto_path d2)
  /\ (forall d1 d2, d1 ∈ values ix1 -> d2 ∈ values ix2 -> dto_kind d1 = Directory ->
     dto_kind d2 = Directory -> dto_path d1 = dto_path d2 -> dto_id d1 = dto_id d2)
  /\ (forall p n d1 d2, files_at p ix1 !! n = Some d1 -> files_at p ix2 !! n = Some d2 ->
     dto_id d1 = dto_id d2).
Proof.
  intros Ha H1 H2. destruct (build_rows _ _ _ _ Ha H1) as (_ & f1 & r1 & Hix1 & Hf1 & Hd1).
  destruct (rebuild_grows between a1 (ix_assigner _ _ _ Hix1)) as [Hok Hle].
  destruct (build_rows _ _ _ _ Hok H2) as (Hle2 & f2 & r2 & Hix2 & Hf2 & Hd2).
  assert (assigned a1 ⊆ assigned a2) as Hle12 by by etrans.
  pose proof (ix_rows _ _ _ Hix1) as Hok1. pose proof (ix_rows _ _ _ Hix2) as Hok2.
  rewrite Forall_forall in Hok1, Hok2. destruct (ix_assigner _ _ _ Hix2) as [Hinj _].
  assert (forall k d1 d2, (k, d1) ∈ f1 ++ r1 -> (k, d2) ∈ f2 ++ r2 -> dto_id d1 = dto_id d2) as Hsame.
  { intros k d1 d2 Hin1 Hin2. destruct (Hok1 _ Hin1) as (L1 & _). destruct (Hok2 _ Hin2) as (L2 & _).
    cbn in L1, L2. eapply lookup_weaken in L1; [|exact Hle12]. congruence. }
  split_and!.
  - intros d1 d2 [k1 Hin1]%(values_rows _ _ _ _ Hix1) [k2 Hin2]%(values_rows _ _ _ _ Hix2) E.
    destruct (Hok1 _ Hin1) as (L1 & K1 & _). destruct (Hok2 _ Hin2) as (L2 & K2 & _). cbn in *.
    eapply lookup_weaken in L1; [|exact Hle12]. rewrite <-E in L2.
    specialize (Hinj _ _ _ L1 L2) as ->. rewrite K1 in K2. by simplify_eq.
  - intros d1 d2 [k1 Hin1]%(values_rows _ _ _ _ Hix1) [k2 Hin2]%(values_rows _ _ _ _ Hix2) E1 E2 E.
    enough (k1 = k2) as -> by by eapply Hsame.
    rewrite (dir_row_key _ _ _ _ _ Hf1 Hd1 Hin1 E1), (dir_row_key _ _ _ _ _ Hf2 Hd2 Hin2 E2). by rewrite E.
  - intros p n d1 d2. rewrite (files_at_rows _ _ _ _ _ _ Hix1 Hf1 Hd1), (files_at_rows _ _ _ _ _ _ Hix2 Hf2 Hd2).
    intros ([k1 d1'] & -> & L1)%list_lookup_fmap_Some ([k2 d2'] & -> & L2)%list_lookup_fmap_Some.
    pose proof (nth_file_key _ _ _ _ _ _ Hix1 L1) as K1.
    pose proof (nth_file_key _ _ _ _ _ _ Hix2 L2) as K2. cbn in K1, K2. subst k1 k2.
    apply list_elem_of_lookup_2, list_elem_of_filter in L1 as [_ L1].
    apply list_elem_of_lookup_2, list_elem_of_filter in L2 as [_ L2]. by eapply Hsame.
Qed.
End properties.

(** * The walk over the tree *)

Section tree_walk.
Context `{UT : UnicodeTables} `{CF : Crc32Fast}.
Context (ix : EntryIndex).

(** What the walk needs of an index; a built one has it ([built_tree]). *)
Record tree_ok : Prop := {
  tree_id i d : get ix i = Some d -> dto_id d = i;
  tree_nonempty i d : get ix i = Some d -> dto_path d <> [];
  tree_parent i d : get ix i = Some d -> parent_of (dto_path d) <> [] ->
    exists j p, get ix j = Some p /\ dto_kind p = Directory /\ dto_path p = parent_of (dto_path d);
  tree_folder i j d e : get ix i = Some d -> get ix j = Some e -> dto_kind d = Directory ->
    dto_kind e = Directory -> dto_path d = dto_path e -> i = j;
  tree_children p i : i ∈ children_of ix p <-> exists d, get ix i = Some d /\ parent_of (dto_path d) = p;
  tree_children_nodup p : NoDup (children_of ix p);
  tree_ordered p : StronglySorted (name_le (by_id ix)) (children_of ix p)
}.
Context (Hok : tree_ok).

(** The folder of a row is the root or has been visited. *)
Definition opened (v : list ArchiveEntryDto) (d : ArchiveEntryDto) : Prop :=
  parent_of (dto_path d) = []
  \/ exists p, p ∈ v /\ dto_kind p = Directory /\ dto_path p = parent_of (dto_path d).

Record walk_inv (v : list ArchiveEntryDto) (stack : list N) : Prop := {
  wi_nodup : NoDup (map dto_id v ++ stack);
  wi_rows i : i ∈ map dto_id v ++ stack -> is_Some (get ix i);
  wi_visited d : d ∈ v -> get ix (dto_id d) = Some d;
  wi_closed i d : get ix i = Some d -> opened v d -> i ∈ map dto_id v ++ stack;
  wi_stack i d : i ∈ stack -> get ix i = Some d -> opened v d;
  wi_order j d : v !! j = Some d -> opened (take j v) d
}.

Lemma opened_mono v w d : opened v d -> opened (v ++ w) d.
Proof. intros [H|(p & Hp & H)]; [by left|right]. exists p. split; [|done]. apply elem_of_app. by left. Qed.

Lemma walk_inv_step v i stack d :
  walk_inv v (i :: stack) -> get ix i = Some d ->
  walk_inv (v ++ [d]) ((if is_directory d then children_of ix (dto_path d) else []) ++ stack).
Proof.
  intros [Hnd Hrows Hvis Hclosed Hstack Horder] Hg. pose proof (tree_id Hok _ _ Hg) as Hid.
  assert (forall e, opened (v ++ [d]) e <->
    opened v e \/ dto_kind d = Directory /\ dto_path d = parent_of (dto_path e)) as Hopen.
  { intros e. unfold opened. setoid_rewrite elem_of_app. setoid_rewrite list_elem_of_singleton. naive_solver. }
  set (kids := if is_directory d then children_of ix (dto_path d) else []).
  assert (forall k, k ∈ kids <-> exists e, get ix k = Some e /\ dto_kind d = Directory
    /\ dto_path d = parent_of (dto_path e)) as Hkids.
  { intros k. subst kids. unfold is_directory. case_bool_decide as Hd.
    - rewrite (tree_children Hok). naive_solver.
    - rewrite elem_of_nil. naive_solver. }
  assert (map dto_id (v ++ [d]) ++ kids ++ stack ≡ₚ kids ++ (map dto_id v ++ i :: stack)) as Hperm.
  { rewrite map_app. cbn. rewrite Hid, <-app_assoc. cbn. rewrite (Permutation_app_swap_app kids).
    f_equiv. by rewrite Permutation_middle. }
  assert (forall k, k ∈ kids -> k ∉ map dto_id v ++ i :: stack) as Hnew.
  { intros k (e & He & Hdir & Hpath)%Hkids Hin. pose proof (tree_nonempty Hok _ _ Hg) as Hne.
    assert (opened v e) as [H|(p & Hp & Hpd & Hpp)].
    { apply elem_of_app in Hin as [Hin|Hin]; [|by eapply Hstack].
      apply list_elem_of_In, in_map_iff in Hin as (e' & Ek & Hin). apply list_elem_of_In in Hin.
      assert (e' = e) as -> by (apply Hvis in Hin; congruence).
      apply list_elem_of_lookup in Hin as [j Hj]. specialize (Horder _ _ Hj) as Ho.
      rewrite <-(take_drop j v). by apply opened_mono. }
    - congruence.
    - assert (dto_id p = i) as Hpi by (eapply (tree_folder Hok); eauto; congruence).
      apply NoDup_app in Hnd as (_ & Hdis & _). apply (Hdis i); [|left].
      rewrite <-Hpi. apply list_elem_of_In, in_map, list_elem_of_In. done. }
  split.
  - rewrite Hperm. apply NoDup_app. split_and!; [|by apply Hnew|done].
    subst kids. destruct (is_directory d); [apply (tree_children_nodup Hok)|constructor].
  - intros k. rewrite Hperm, elem_of_app. intros [(e & He & _)%Hkids|H]; [by eexists|by apply Hrows].
  - intros e [He|He%list_elem_of_singleton]%elem_of_app; [by apply Hvis|]. subst e. by rewrite Hid.
  - intros k e He [Ho|Ho]%Hopen; rewrite Hperm; apply elem_of_app.
    + right. by eapply Hclosed.
    + left. apply Hkids. eauto.
  - intros k e [Hk|Hk]%elem_of_app He.
    + apply Hkids in Hk as (e' & He' & Hk). apply Hopen. right. by simplify_eq.
    + apply Hopen. left. eapply Hstack; [by right|done].
  - intros j e Hj. destruct (decide (j < length v)%nat) as [Hlt|Hge].
    + rewrite lookup_app_l in Hj by done. rewrite take_app_le by lia. by apply Horder.
    + rewrite lookup_app_r in Hj by lia.
      apply list_lookup_singleton_Some in Hj as [Hj <-].
      rewrite take_app_ge, (proj2 (Nat.sub_0_le _ _)), take_0, app_nil_r by lia.
      eapply Hstack; [left|done].
Qed.

Lemma walk_visits fuel v stack :
  walk_inv v stack -> (length v + fuel = base.size (by_id ix))%nat ->
  exists l, walk fuel ix stack = Some l /\ walk_inv (v ++ l) [].
Proof.
  revert v stack; induction fuel as [|fuel IH]; intros v stack Hinv Hf.
  - destruct stack as [|i stack]; [exists []; by rewrite app_nil_r|]. exfalso.
    assert (NoDup (map dto_id v ++ i :: stack)) as Hnd by apply Hinv.
    pose proof (wi_rows _ _ Hinv) as Hrows.
    assert (length (map dto_id v ++ i :: stack) <= base.size (by_id ix))%nat as Hle.
    { rewrite <-size_dom. change (base.size (dom (by_id ix))) with (length (elements (dom (by_id ix)))).
      apply submseteq_length, NoDup_submseteq; [done|].
      intros k Hk. apply elem_of_elements, elem_of_dom. by apply Hrows. }
    rewrite length_app, length_map in Hle. cbn in Hle. lia.
  - destruct stack as [|i stack]; [exists []; by rewrite app_nil_r|].
    destruct (wi_rows _ _ Hinv i) as [d Hd]; [apply elem_of_app; right; left|].
    pose proof (walk_inv_step _ _ _ _ Hinv Hd) as Hinv'.
    destruct (IH _ _ Hinv') as (l & Hl & Hfin); [rewrite length_app; cbn; lia|].
    exists (d :: l). cbn [walk]. rewrite Hd, Hl. split; [done|]. by rewrite <-app_assoc in Hfin.
Qed.

(** With an empty stack every row has been visited: its folder has, being higher. *)
Lemma walk_inv_all v i d : walk_inv v [] -> get ix i = Some d -> d ∈ v.
Proof.
  intros Hinv. remember (length (dto_path d)) as n eqn:Hn. revert i d Hn.
  induction n as [n IH] using lt_wf_ind. intros i d Hn Hd.
  assert (opened v d) as Ho.
  { destruct (decide (parent_of (dto_path d) = [])) as [H|H]; [by left|right].
    destruct (tree_parent Hok _ _ Hd H) as (j & p & Hp & Hk & Hpp). exists p. split; [|done].
    eapply (IH (length (dto_path p))); [|done|exact Hp]. subst n. rewrite Hpp.
    destruct (parent_basename (dto_path d)) as [[E _]|(E & _)]; [|done].
    rewrite E at 2. rewrite length_app. cbn. lia. }
  apply (wi_closed _ _ Hinv _ _ Hd) in Ho. rewrite app_nil_r in Ho.
  apply list_elem_of_In, in_map_iff in Ho as (e & Ei & He). apply list_elem_of_In in He.
  pose proof (wi_visited _ _ Hinv _ He) as H. rewrite Ei in H. by simplify_eq.
Qed.

Lemma walk_start : walk_inv [] (children_of ix root).
Proof.
  split; cbn; try done.
  - apply (tree_children_nodup Hok).
  - intros i (d & Hd & _)%(tree_children Hok). by eexists.
  - intros d H. by apply elem_of_nil in H.
  - intros i d Hd [H|(p & H & _)]; [|by apply elem_of_nil in H]. apply (tree_children Hok). eauto.
  - intros i d (e & He & Hp)%(tree_children Hok) Hd. left. by simplify_eq.
Qed.

Lemma all_entries_visits :
  exists l, all_entries ix = Some l /\ walk_inv l [] /\ l ≡ₚ values ix.
Proof.
  destruct (walk_visits (base.size (by_id ix)) [] _ walk_start) as (l & Hl & Hinv); [done|].
  exists l. split_and!; [done..|]. cbn in Hinv. apply NoDup_Permutation.
  - apply (NoDup_fmap_1 dto_id). pose proof (wi_nodup _ _ Hinv) as H. by rewrite app_nil_r in H.
  - unfold values. apply (NoDup_fmap_1 dto_id). rewrite <-list_fmap_compose.
    erewrite (list_fmap_ext _ fst); [apply NoDup_fst_map_to_list|].
    intros k [j d] Hj. apply list_elem_of_lookup_2, elem_of_map_to_list in Hj. by apply (tree_id Hok).
  - intros d. unfold values. rewrite list_elem_of_fmap. split.
    + intros Hd. exists (dto_id d, d). split; [done|]. apply elem_of_map_to_list. by apply (wi_visited _ _ Hinv).
    + intros ([i e] & -> & Hi). apply elem_of_map_to_list in Hi. by eapply walk_inv_all.
Qed.
End tree_walk.

Section tree.
Context `{UT : UnicodeTables} `{CF : Crc32Fast}.

Lemma built_tree es a ix a' : assigner_ok a -> build es a = (ix, a') -> tree_ok ix.
Proof.
  intros Ha Hb. destruct (build_rows es a ix a' Ha Hb) as (_ & frows & drows & Hix & Hf & Hd).
  pose proof (ix_rows _ _ _ Hix) as Hok. rewrite Forall_forall in Hok.
  assert (forall i d, get ix i = Some d -> exists k, (k, d) ∈ frows ++ drows /\ dto_id d = i) as Hget.
  { intros i d. apply (ix_by_id _ _ _ Hix). }
  assert (forall p, folder_due es p -> exists j d, get ix j = Some d /\ dto_kind d = Directory /\ dto_path d = p)
    as Hdue.
  { intros p ([q r] & -> & Hin)%build_dirs_paths%list_elem_of_fmap.
    destruct (Forall2_elem_l _ _ _ _ Hd Hin) as ([k d] & Hin' & Hk & E). cbn in Hk, E.
    exists (dto_id d), d. split; [|rewrite E; done]. apply (ix_by_id _ _ _ Hix). exists k.
    split; [|done]. apply elem_of_app. by right. }
  split.
  - intros i d (k & _ & H)%Hget. done.
  - intros i d (k & Hin & _)%Hget. by destruct (Hok _ Hin) as (_ & _ & [_ H] & _).
  - intros i d (k & Hin & _)%Hget Hne. destruct (Hok _ Hin) as (_ & _ & Hv & _). cbn in Hv.
    destruct (parent_valid _ Hv) as (_ & [?|[_ Hp]]); [done|]. apply Hdue.
    apply elem_of_app in Hin as [Hin|Hin].
    + destruct (Forall2_elem_r _ _ _ _ Hf Hin) as (f & Hfin & _ & E). cbn in E. rewrite E in Hp. cbn in Hp.
      rewrite build_files_perm in Hfin. apply list_elem_of_omap in Hfin as (e & He & Hl).
      right. exists e, f. split_and!; [done| |by rewrite E].
      unfold listed_file in Hl. by destruct (is_dir e).
    + destruct (Forall2_elem_r _ _ _ _ Hd Hin) as (f & Hfin & _ & E). cbn in E. rewrite E in Hp. cbn in Hp.
      assert (folder_due es f.1) as [(e & g & He & Hl & Hg)|(e & g & He & Hl & Hg)].
      { apply build_dirs_paths, list_elem_of_fmap. eauto. }
      * right. exists e, g. split_and!; [done| |by rewrite Hg, E].
        unfold listed_dir in Hl. by destruct (is_dir e).
      * right. exists e, g. split_and!; [done..|]. rewrite E. cbn.
        apply elem_of_folders_above. apply elem_of_folders_above in Hg as [s ->], Hp as [t Ht].
        exists (t /: s). rewrite Ht at 1. by rewrite <-app_assoc.
  - intros i j d e Hi Hj Kd Ke Hp. apply Hget in Hi as (k1 & H1 & <-). apply Hget in Hj as (k2 & H2 & <-).
    destruct (Hok _ H1) as (L1 & _), (Hok _ H2) as (L2 & _). cbn in L1, L2.
    rewrite (dir_row_key _ _ _ _ _ Hf Hd H1 Kd) in L1. rewrite (dir_row_key _ _ _ _ _ Hf Hd H2 Ke) in L2.
    congruence.
  - intros p i. rewrite (ix_children _ _ _ Hix), stable_sort_perm, elem_of_row_ids.
    setoid_rewrite list_elem_of_filter. split.
    + intros (r & [Hp Hin] & <-). exists r.2. split; [|done]. by eapply get_row.
    + intros (d & (k & Hin & Hi)%Hget & Hp). by exists (k, d).
  - intros p. rewrite (ix_children _ _ _ Hix), stable_sort_perm.
    eapply row_ids_NoDup; [apply Hix| |].
    + apply Forall_forall. intros r [_ Hr]%list_elem_of_filter. by apply Hok.
    + eapply sublist_NoDup; [apply Hix|]. apply fmap_sublist, sublist_filter.
  - intros p. rewrite (ix_children _ _ _ Hix). apply stable_sort_sorted.
    + intros i j k. unfold name_le. apply (str_le_trans _ _ _).
    + intros i j. unfold name_le. apply (str_le_total _ _).
Qed.

(** The walk over the whole tree ends, and yields every
    row of the index exactly once (so as many as [entry_count] says), each after
    the folder it is in. *)
Theorem all_entries_complete es a ix a' :
  assigner_ok a -> build es a = (ix, a') ->
  exists l, all_entries ix = Some l /\ l ≡ₚ values ix /\ Z.of_nat (length l) = entry_count ix
  /\ forall i d, l !! i = Some d -> parent_of (dto_path d) <> [] ->
       exists j p, (j < i)%nat /\ l !! j = Some p /\ dto_kind p = Directory
         /\ dto_path p = parent_of (dto_path d).
Proof.
  intros Ha Hb. destruct (all_entries_visits ix (built_tree es a ix a' Ha Hb)) as (l & Hl & Hinv & Hperm).
  exists l. split_and!; [done..| |].
  - destruct (build_rows es a ix a' Ha Hb) as (_ & frows & drows & Hix & _).
    rewrite (ix_count _ _ _ Hix), Hperm, (values_perm _ _ _ Hix), length_fmap. done.
  - intros i d Hd Hne. destruct (wi_order _ _ _ Hinv _ _ Hd) as [?|(p & Hp & Hk & Hpp)]; [done|].
    apply list_elem_of_lookup in Hp as [j Hj]. apply lookup_take_Some in Hj as [Hj Hlt]. by exists j, p.
Qed.
End tree.

(** * Dates *)

Definition leap (y : Z) : bool := ((y mod 4 =? 0) && (negb (y mod 100 =? 0) || (y mod 400 =? 0)))%Z.

Definition days_in_month (y m : Z) : Z :=
  if (m =? 2)%Z then (if leap y then 29 else 28)
  else if ((m =? 4) || (m =? 6) || (m =? 9) || (m =? 11))%Z then 30 else 31.

(** The day after, in the Gregorian calendar. *)
Definition next_day (y m d : Z) : Z * Z * Z :=
  if (d <? days_in_month y m)%Z then (y, m, d + 1)%Z
  else if (m <? 12)%Z then (y, m + 1, 1)%Z else (y + 1, 1, 1)%Z.

(** The day number with the divisions rounded down. *)
Lemma days_from_civil_floor y m d :
  (1 <= m <= 12)%Z ->
  days_from_civil y m d =
  (let y' := if m <=? 2 then y - 1 else y in
   y' / 400 * 146097 + (y' mod 400 * 365 + y' mod 400 / 4 - y' mod 400 / 100
     + ((153 * ((m + 9) mod 12) + 2) / 5 + d - 1)) - 719468)%Z.
Proof.
  intros Hm. unfold days_from_civil. cbn zeta. set (y' := if (m <=? 2)%Z then (y - 1)%Z else y).
  assert (Z.quot (if 0 <=? y' then y' else y' - 399) 400 = y' / 400)%Z as ->.
  { destruct (Z.leb_spec 0 y').
    - by apply Z.quot_div_nonneg.
    - replace (y' - 399)%Z with (- (399 - y'))%Z by lia. rewrite Z.quot_opp_l by lia.
      rewrite Z.quot_div_nonneg by lia. pose proof (Z.div_mod y' 400). pose proof (Z.div_mod (399 - y') 400).
      pose proof (Z.mod_pos_bound y' 400). pose proof (Z.mod_pos_bound (399 - y') 400). lia. }
  pose proof (Z.mod_pos_bound y' 400 ltac:(lia)) as Hb.
  assert (y' - y' / 400 * 400 = y' mod 400)%Z as -> by (rewrite Z.mod_eq by lia; lia).
  rewrite (Z.rem_mod_nonneg (m + 9)) by lia. pose proof (Z.mod_pos_bound (m + 9) 12 ltac:(lia)).
  rewrite !Z.quot_div_nonneg by lia. lia.
Qed.

(** Evaluates what depends on a concrete month only. *)
Ltac eval_month :=
  unfold days_in_month; cbv zeta;
  repeat match goal with
  | |- context [(?a <=? 2)%Z] => let v := eval vm_compute in (a <=? 2)%Z in change (a <=? 2)%Z with v; cbv iota
  | |- context [((153 * ((?a + 9) mod 12) + 2) / 5)%Z] =>
      let v := eval vm_compute in ((153 * ((a + 9) mod 12) + 2) / 5)%Z in
      change ((153 * ((a + 9) mod 12) + 2) / 5)%Z with v
  | |- context [(Zpos ?a =? Zpos ?b)%Z] =>
      let v := eval vm_compute in (Zpos a =? Zpos b)%Z in change (Zpos a =? Zpos b)%Z with v
  end; cbv iota; cbn [orb].

(** A month has the days the calendar gives it, counted from March. *)
Lemma month_start y m :
  (1 <= m <= 11)%Z -> days_from_civil y (m + 1) 1 = (days_from_civil y m 1 + days_in_month y m)%Z.
Proof.
  intros Hm.
  assert (m = 1 \/ m = 2 \/ m = 3 \/ m = 4 \/ m = 5 \/ m = 6 \/ m = 7 \/ m = 8 \/ m = 9 \/ m = 10 \/ m = 11)%Z
    as Hc by lia. clear Hm.
  destruct Hc as [->|[->|[->|[->|[->|[->|[->|[->|[->|[->| ->]]]]]]]]]];
    rewrite !days_from_civil_floor by lia; eval_month; try lia.
  (* February: the year before ends in it *)
  pose proof (Z.mod_pos_bound y 400 ltac:(lia)) as Hr. pose proof (Z.div_mod y 400 ltac:(lia)) as Hy.
  set (q := (y / 400)%Z) in *. set (r := (y mod 400)%Z) in *.
  assert (y mod 4 = r mod 4 /\ y mod 100 = r mod 100)%Z as [E4 E100].
  { rewrite Hy. split; [replace (400 * q + r)%Z with (r + (100 * q) * 4)%Z by lia
                       |replace (400 * q + r)%Z with (r + (4 * q) * 100)%Z by lia]; by rewrite Z.mod_add. }
  unfold leap. rewrite E4, E100. fold r. destruct (Z.eq_dec r 0) as [E0|E0].
  - rewrite E0. assert ((y - 1) / 400 = q - 1 /\ (y - 1) mod 400 = 399)%Z as [-> ->].
    { split; [symmetry; apply (Z.div_unique _ _ _ 399); lia|symmetry; apply (Z.mod_unique _ _ (q - 1)); lia]. }
    change (if (_ && _)%bool then 29 else 28)%Z with 29%Z. change (399 / 4)%Z with 99%Z. change (399 / 100)%Z with 3%Z.
    change (0 / 4)%Z with 0%Z. change (0 / 100)%Z with 0%Z. lia.
  - assert ((y - 1) / 400 = q /\ (y - 1) mod 400 = r - 1)%Z as [-> ->].
    { split; [symmetry; apply (Z.div_unique _ _ _ (r - 1)); lia|symmetry; apply (Z.mod_unique _ _ q); lia]. }
    destruct (Z.eqb_spec (r mod 4) 0), (Z.eqb_spec (r mod 100) 0), (Z.eqb_spec r 0); cbn [andb orb negb]; try done;
      Z.div_mod_to_equations; lia.
Qed.

Lemma year_start y : days_from_civil (y + 1) 1 1 = (days_from_civil y 12 1 + 31)%Z.
Proof.
  rewrite !days_from_civil_floor by lia. eval_month. replace (y + 1 - 1)%Z with y by lia. lia.
Qed.

Lemma day_linear y m d : days_from_civil y m d = (days_from_civil y m 1 + d - 1)%Z.
Proof. unfold days_from_civil. lia. Qed.

(** The day numbers of the dates of listings count the days of
    the Gregorian calendar from 1 January 1970 on: that day is number 0, and the day
    after any date of the calendar has the next number. *)
Theorem civil_days_count y m d :
  (1 <= m <= 12)%Z -> (1 <= d <= days_in_month y m)%Z ->
  days_from_civil 1970 1 1 = 0%Z
  /\ (let '(y', m', d') := next_day y m d in days_from_civil y' m' d' = (days_from_civil y m d + 1)%Z).
Proof.
  intros Hm Hd. split; [reflexivity|]. unfold next_day.
  destruct (Z.ltb_spec d (days_in_month y m)) as [Hlt|Hge].
  - rewrite (day_linear y m (d + 1)), (day_linear y m d). lia.
  - rewrite (day_linear y m d). destruct (Z.ltb_spec m 12) as [H12|H12].
    + rewrite month_start by lia. lia.
    + assert (m = 12)%Z as -> by lia. rewrite year_start.
      assert (days_in_month y 12 = 31)%Z as E by reflexivity. rewrite E in *. lia.
Qed.

(** * A small archive *)

Module EntryIndexExample.

#[export] Existing Instance ascii_tables.
#[export] Instance length_crc : Crc32Fast := {| crc32fast := fun s => Z.of_nat (length s) |}.

Definition readme : ArchiveEntry :=
  {| path := §"mods\readme.txt"; size := 3; packed_size := 2; modified := Some §"1970-01-02 00:00:01";
     is_dir := false; encrypted := false; crc32 := Some §"0a" |}.
Definition secret : ArchiveEntry :=
  {| path := §"mods/data/secret.bin"; size := 40; packed_size := 30; modified := None;
     is_dir := false; encrypted := true; crc32 := None |}.
Definition listing : list ArchiveEntry :=
  [readme; secret; dir_entry §"docs/"; file_entry §"../evil" 9; file_entry §"C:/boot" 9].

Definition ix : EntryIndex := (build listing default_assigner).1.
Definition after : EntryIdAssigner := (build listing default_assigner).2.

Definition mods : ArchiveEntryDto := default (file_dto 0 ([], implied_raw)) (get ix 4).

Lemma built : build listing default_assigner = (ix, after).
Proof. unfold ix, after. by destruct (build listing default_assigner). Qed.

Example example_paths : map dto_path (values ix) ≡ₚ
  [§"docs"; §"mods"; §"mods/data"; §"mods/data/secret.bin"; §"mods/readme.txt"].
Proof. apply (bool_decide_unpack _). vm_compute. exact I. Qed.

Lemma civil_days_count_witness : days_from_civil 2000 3 1 = (days_from_civil 2000 2 29 + 1)%Z.
Proof. exact (proj2 (civil_days_count 2000 2 29 ltac:(lia) ltac:(vm_compute; split; discriminate))). Defined.

(** A date with a negative hour is read, though no backend writes one. *)
Example negative_hour : parse_modified_to_unix_ms §"1970-01-01 -1:00:00" = Some (-3600000)%Z.
Proof. reflexivity. Qed.

Lemma index_complete_witness : entry_count ix = Z.of_nat (length (values ix)) /\ entry_count ix = 5%Z.
Proof.
  split; [|reflexivity].
  exact (proj2 (proj2 (proj2 (index_complete listing default_assigner ix after default_assigner_ok built)))).
Defined.

Lemma folder_is_rescan_witness :
  dto_path mods = §"mods" /\ dto_uncompressed_size mods = 43%Z /\ dto_crc32 mods = folder_crc
    (List.filter (fun f => is_below (dto_path mods) (dto_path f)) (file_rows ix)).
Proof.
  split; [reflexivity|]. split; [reflexivity|].
  refine (proj2 (proj2 (folder_is_rescan listing default_assigner ix after mods default_assigner_ok _ built _ _))).
  - repeat constructor; cbn; lia.
  - apply (bool_decide_unpack _). vm_compute. exact I.
  - reflexivity.
Defined.

Definition relisted : EntryIndex := (build listing (build [readme] after).2).1.
Definition mods_again : ArchiveEntryDto := default (file_dto 0 ([], implied_raw)) (get relisted 4).

Lemma ids_stable_witness : dto_path mods_again = §"mods" /\ dto_id mods = dto_id mods_again.
Proof.
  split; [reflexivity|].
  refine (proj1 (proj2 (ids_stable listing [[readme]] listing default_assigner ix after _ _
    default_assigner_ok built (surjective_pairing _))) mods mods_again _ _ _ _ _);
    [apply (bool_decide_unpack _); vm_compute; exact I..|reflexivity|reflexivity|reflexivity].
Defined.

Lemma all_entries_complete_witness :
  exists l, all_entries ix = Some l /\ map dto_path l =
    [§"docs"; §"mods"; §"mods/data"; §"mods/data/secret.bin"; §"mods/readme.txt"].
Proof.
  destruct (all_entries_complete listing default_assigner ix after default_assigner_ok built) as (l & H & _).
  exists l. split; [exact H|]. vm_compute in H. injection H as <-. reflexivity.
Defined.
End EntryIndexExample.
