(* ===== verification/EntryBackfill.v ===== *)
(** Checksums computed after the listing ([apply_crc32_backfill] of
    [crates/app/src/archive/session.rs]): patching an index is the same as
    building one from the patched listing, when no path is listed twice. *)

From stdpp Require Import base tactics option list gmap sorting strings.
From Stdlib Require Import ZArith Lia Ascii.
From S2P Require Import Prelude Text Archive EntryIndex EntryIndexProps.

Open Scope arclain_scope.

#[local] Arguments String.list_ascii_of_string : simpl never.

Section backfill.
Context `{UT : UnicodeTables} `{CF : Crc32Fast}.
Context (computed : list (str * str)).

(** The sum a path gets: the first computed for it. *)
Definition sum_for (p : str) : option str :=
  snd <$> head (List.filter (fun c => str_eqb p c.1) computed).

Definition patch_crc (directory enc : bool) (p : str) (crc : option str) : option str :=
  if negb directory && enc then match crc with Some c => Some c | None => sum_for p end else crc.

Definition patch_dto (d : ArchiveEntryDto) : ArchiveEntryDto :=
  with_crc32 d (patch_crc (is_directory d) (dto_encrypted d) (dto_path d) (dto_crc32 d)).

(** The listing, had the backend reported the sums itself. *)
Definition patch_entry (e : ArchiveEntry) : ArchiveEntry := {|
  path := path e; size := size e; packed_size := packed_size e; modified := modified e;
  is_dir := is_dir e; encrypted := encrypted e;
  crc32 := patch_crc (is_dir e) (encrypted e) (normalize (path e)) (crc32 e)
|}.

Definition patch_file (f : str * RawEntry) : str * RawEntry :=
  (f.1, mk_raw (raw_uncompressed_size f.2) (raw_compressed_size f.2) (raw_modified f.2)
          (raw_encrypted f.2) (patch_crc false (raw_encrypted f.2) f.1 (raw_crc32 f.2))).

Lemma listed_file_patch e : listed_file (patch_entry e) = patch_file <$> listed_file e.
Proof.
  unfold listed_file, listed. cbn [patch_entry is_dir path]. destruct (is_dir e) eqn:E; [done|].
  destruct (_ && _); [|done]. cbn. unfold patch_file, raw_of, patch_entry. cbn. by rewrite E.
Qed.

Lemma listed_dir_patch e : listed_dir (patch_entry e) = listed_dir e.
Proof.
  unfold listed_dir, listed. cbn [patch_entry is_dir path]. destruct (is_dir e) eqn:E; [|done].
  destruct (_ && _); [|done]. do 2 f_equal. unfold raw_of, patch_entry, patch_crc. cbn. by rewrite E.
Qed.

Lemma build_files_patch es : build_files (map patch_entry es) = map patch_file (build_files es).
Proof.
  unfold build_files. destruct (scan_spec es [] ∅) as [-> _].
  destruct (scan_spec (map patch_entry es) [] ∅) as [-> _]. cbn [app].
  replace (omap listed_file (map patch_entry es)) with (map patch_file (omap listed_file es)).
  { by apply stable_sort_map. }
  induction es as [|e es IH]; [done|]. cbn. rewrite listed_file_patch.
  destruct (listed_file e); cbn; by rewrite IH.
Qed.

Lemma scan_patch es :
  foldl scan_entry ([], ∅) (map patch_entry es)
  = (map patch_file (foldl scan_entry ([], ∅) es).1, (foldl scan_entry ([], ∅) es).2).
Proof.
  assert (forall files dirs, foldl scan_entry (map patch_file files, dirs) (map patch_entry es)
    = (map patch_file (foldl scan_entry (files, dirs) es).1, (foldl scan_entry (files, dirs) es).2)) as H.
  { induction es as [|e es IH]; intros files dirs; [done|]. cbn [map foldl].
    rewrite !scan_entry_eq, listed_dir_patch, listed_file_patch.
    rewrite <-IH, map_app. by destruct (listed_file e). }
  apply (H []).
Qed.

Lemma build_dirs_patch es : build_dirs (map patch_entry es) = build_dirs es.
Proof.
  unfold build_dirs. rewrite scan_patch. destruct (foldl scan_entry ([], ∅) es) as [files dirs].
  cbn [fst snd]. do 2 f_equal. unfold implied_dirs. rewrite map_map. done.
Qed.

(** ** Rebuilding *)

(** Two runs of the loops that differ in checksums only. *)
Definition same_but (G : ArchiveEntryDto -> ArchiveEntryDto) (s t : BuildState) : Prop :=
  b_assigner t = b_assigner s /\ b_by_id t = G <$> b_by_id s /\ b_children t = b_children s
  /\ b_entry_count t = b_entry_count s /\ b_total t = b_total s
  /\ b_sorted_file_ids t = b_sorted_file_ids s /\ b_ordinals t = b_ordinals s.

Lemma files_patch s t files :
  Forall (fun f => valid_path f.1) files -> same_but patch_dto s t ->
  same_but patch_dto (foldl file_step s files) (foldl file_step t (map patch_file files)).
Proof.
  intros Hv. revert s t; induction Hv as [|[p raw] files Hf Hv IH]; intros s t Hst; [done|].
  cbn [map foldl]. apply IH. clear IH. destruct Hst as (E1 & E2 & E3 & E4 & E5 & E6 & E7).
  cbn [fst] in Hf. unfold file_step, patch_file. cbn [fst snd]. rewrite E1, E7.
  destruct (assign _ _) as [i a]. unfold same_but. cbn. rewrite E2, E3, E4, E5, E6.
  split_and!; try done. rewrite fmap_insert. f_equal. unfold patch_dto. cbn.
  by rewrite path_or_root_valid.
Qed.

(** The checksum of a folder row, recomputed over some files. *)
Definition refold (files : list (str * RawEntry)) (d : ArchiveEntryDto) : ArchiveEntryDto :=
  if is_directory d then with_crc32 d (finalize_crc (folder_of (dto_path d) files)) else patch_dto d.

Lemma folder_of_patch p files :
  total_uncompressed (folder_of p (map patch_file files)) = total_uncompressed (folder_of p files)
  /\ total_compressed (folder_of p (map patch_file files)) = total_compressed (folder_of p files).
Proof.
  unfold folder_of. rewrite !foldl_add_file. cbn [total_uncompressed total_compressed].
  generalize (total_uncompressed default_totals) as t, (total_compressed default_totals) as u.
  induction files as [|f files IH]; intros t u; [done|]. cbn. destruct (is_below p f.1); cbn; apply IH.
Qed.

Lemma dirs_patch files s t dirs :
  Forall (fun f => valid_path f.1) dirs -> NoDup dirs.*1 ->
  (forall p, p ∈ dirs.*1 -> default default_totals (b_folder_totals s !! p) = folder_of p files
     /\ default default_totals (b_folder_totals t !! p) = folder_of p (map patch_file files)) ->
  same_but (refold (map patch_file files)) s t ->
  same_but (refold (map patch_file files)) (foldl dir_step s dirs) (foldl dir_step t dirs).
Proof.
  intros Hv. revert s t; induction Hv as [|[p raw] dirs Hf Hv IH]; intros s t Hnd Ht Hst; [done|].
  cbn [foldl]. cbn in Hnd, Ht, Hf. apply NoDup_cons in Hnd as [Hn Hnd].
  apply IH; [done| |]; clear IH.
  { intros q Hq. unfold dir_step. destruct (assign _ _) as [i a], (assign (b_assigner t) _) as [j b].
    cbn [b_folder_totals]. rewrite !lookup_delete_ne by congruence. apply Ht. by right. }
  destruct Hst as (E1 & E2 & E3 & E4 & E5 & E6 & E7). destruct (Ht p) as [Hs Ht']; [left|].
  unfold dir_step. rewrite Hs, Ht', E1. destruct (assign _ _) as [i a].
  unfold same_but. cbn. rewrite E2, E3, E4, E5, E6, E7. split_and!; try done.
  rewrite fmap_insert. f_equal. unfold refold, is_directory, with_crc32. cbn.
  rewrite path_or_root_valid by done. destruct (folder_of_patch p files) as [-> ->]. done.
Qed.

Lemma name_le_refold files rows i j :
  name_le rows i j <-> name_le (refold files <$> rows) i j.
Proof.
  unfold name_le. assert (forall k, name_key (refold files <$> rows) k = name_key rows k) as H.
  { intros k. unfold name_key. rewrite lookup_fmap. destruct (rows !! k) as [d|]; [|done]. cbn.
    unfold refold. by destruct (is_directory d). }
  by rewrite !H.
Qed.

Lemma file_loop_files s files :
  (forall i d, b_by_id s !! i = Some d -> is_directory d = false) ->
  forall i d, b_by_id (foldl file_step s files) !! i = Some d -> is_directory d = false.
Proof.
  revert s; induction files as [|[p raw] files IH]; intros s Hs; [done|]. cbn [foldl]. apply IH.
  intros i d. unfold file_step. destruct (assign _ _) as [j a]. cbn.
  intros [[_ <-]|[_ H]]%lookup_insert_Some; [done|by eapply Hs].
Qed.

(** Building from the patched listing only changes checksums. *)
Lemma build_patch es a ix a' :
  build es a = (ix, a') ->
  build (map patch_entry es) a =
    (mk_index (refold (map patch_file (build_files es)) <$> by_id ix) (sorted_file_ids ix)
       (children ix) (entry_count ix) (total_uncompressed_size ix), a').
Proof.
  intros Hb. unfold build in *. rewrite build_files_patch, build_dirs_patch.
  set (s0 := mk_build a ∅ ∅ 0 0 [] ∅ ∅) in *. set (files := build_files es) in *.
  assert (same_but patch_dto (foldl file_step s0 files) (foldl file_step s0 (map patch_file files))) as H1.
  { apply files_patch; [apply build_files_valid|]. unfold same_but. cbn.
    by split_and!. }
  assert (same_but (refold (map patch_file files)) (foldl dir_step (foldl file_step s0 files) (build_dirs es))
    (foldl dir_step (foldl file_step s0 (map patch_file files)) (build_dirs es)))
    as (E1 & E2 & E3 & E4 & E5 & E6 & E7).
  { apply dirs_patch; [apply build_dirs_valid|apply build_dirs_NoDup| |].
    - intros p _. split; by rewrite file_loop_totals.
    - destruct H1 as (E1 & E2 & E3 & E4 & E5 & E6 & E7). unfold same_but. split_and!; try done.
      rewrite E2. apply map_fmap_ext. intros i d Hd. unfold refold.
      by rewrite (file_loop_files s0 files ltac:(done) i d Hd). }
  injection Hb as <- <-. cbn. rewrite E1, E2, E3, E4, E5, E6. f_equal. f_equal.
  apply map_fmap_ext. intros p l _. apply stable_sort_ext. intros i j. apply name_le_refold.
Qed.

(** ** Patching *)

(** Is the sum of a row filled in? *)
Definition patched (d : ArchiveEntryDto) : bool := bool_decide (patch_dto d <> d).

Lemma if_same {A : Type} (b : bool) (x : A) : (if b then x else x) = x.
Proof. by destruct b. Qed.

Lemma with_crc32_id d : with_crc32 d (dto_crc32 d) = d.
Proof. by destruct d. Qed.
End backfill.

Section patching.
Context `{UT : UnicodeTables} `{CF : Crc32Fast}.

Lemma patch_dto_cons c computed d :
  patch_dto (c :: computed) d
  = patch_dto computed (if needs_crc c.1 d then with_crc32 d (Some c.2) else d).
Proof.
  unfold patch_dto, needs_crc, patch_crc, sum_for. cbn. destruct d as [i p n k cs us m enc crc]; cbn.
  unfold is_directory; cbn. destruct (bool_decide (k = Directory)) eqn:Hk; cbn; [by rewrite Hk|].
  destruct (str_eqb p c.1), enc, crc; cbn; by rewrite Hk.
Qed.

Lemma patched_cons c computed d :
  patched (c :: computed) d
  = needs_crc c.1 d || patched computed (if needs_crc c.1 d then with_crc32 d (Some c.2) else d).
Proof.
  unfold patched. rewrite patch_dto_cons. destruct (needs_crc c.1 d) eqn:E; [|done]. cbn.
  apply bool_decide_eq_true. intros H. apply (f_equal dto_crc32) in H. revert H.
  unfold needs_crc in E. destruct (dto_crc32 d) eqn:Ec; [by rewrite andb_false_r in E|].
  unfold patch_dto, patch_crc. cbn. by rewrite if_same.
Qed.

(** A row that has its sum is left alone. *)
Lemma patch_dto_some computed d c : dto_crc32 d = Some c -> patch_dto computed d = d.
Proof.
  intros H. unfold patch_dto, patch_crc. rewrite H, if_same, <-H. apply with_crc32_id.
Qed.

Lemma patch_dto_nil d : patch_dto [] d = d.
Proof.
  unfold patch_dto, patch_crc, sum_for. cbn. destruct (dto_crc32 d) as [c|] eqn:E;
    rewrite if_same, <-E; apply with_crc32_id.
Qed.

Lemma count_patched c computed l :
  length (List.filter (patched (c :: computed)) l)
  = (length (List.filter (needs_crc c.1) l)
     + length (List.filter (patched computed)
         (map (fun d => if needs_crc c.1 d then with_crc32 d (Some c.2) else d) l)))%nat.
Proof.
  induction l as [|d l IH]; [done|]. cbn. rewrite patched_cons. destruct (needs_crc c.1 d) eqn:E; cbn.
  - unfold patched at 2. rewrite (patch_dto_some _ _ c.2) by done.
    rewrite bool_decide_eq_false_2 by (by intros []). cbn. lia.
  - destruct (patched computed d); cbn; lia.
Qed.

Lemma foldl_patch_rows computed n rows :
  foldl patch_rows (n, rows) computed
  = ((n + length (List.filter (patched computed) (map_to_list rows).*2))%nat,
     patch_dto computed <$> rows).
Proof.
  revert n rows; induction computed as [|c computed IH]; intros n rows; cbn [foldl].
  - f_equal.
    + replace (List.filter (patched []) _) with (@nil ArchiveEntryDto); [cbn; lia|].
      induction ((map_to_list rows).*2) as [|d l IH]; [done|]. cbn. unfold patched at 1.
      by rewrite patch_dto_nil, bool_decide_eq_false_2 by (by intros []).
    + rewrite <-(map_fmap_id rows) at 1. apply map_fmap_ext. intros i d _. by rewrite patch_dto_nil.
  - cbn [patch_rows]. rewrite IH. clear IH. f_equal.
    + rewrite count_patched, map_to_list_fmap, <-list_fmap_compose.
      rewrite Nat.add_assoc. f_equal. f_equal. f_equal. rewrite <-list_fmap_compose. done.
    + rewrite <-map_fmap_compose. apply map_fmap_ext. intros i d _. cbn. by rewrite patch_dto_cons.
Qed.
(** ** The folders after a patch *)

Definition pair_below (a : str) (d : ArchiveEntryDto) : option (str * str) :=
  if negb (is_directory d) && is_below a (dto_path d)
  then (fun c => (dto_path d, to_uppercase c)) <$> dto_crc32 d else None.

Lemma add_crc_pair_foldl p crc m l a :
  NoDup l ->
  crc_pairs (default default_totals (foldl (add_crc_pair p crc) m l !! a))
  = crc_pairs (default default_totals (m !! a))
    ++ (if decide (a ∈ l) then [(p, to_uppercase crc)] else []).
Proof.
  intros Hnd. revert m; induction Hnd as [|b l Hb Hnd IH]; intros m; cbn [foldl].
  { case_decide as H; [by apply elem_of_nil in H|by rewrite app_nil_r]. }
  rewrite IH. clear IH. unfold add_crc_pair. destruct (decide (a = b)) as [->|Hne].
  - rewrite lookup_insert_eq. cbn. case_decide; [done|].
    case_decide as H'; [by rewrite app_nil_r|destruct H'; left].
  - rewrite lookup_insert_ne by done. f_equal. repeat case_decide; set_solver.
Qed.

Lemma collect_pairs ds m a :
  crc_pairs (default default_totals (foldl collect_crc m ds !! a))
  = crc_pairs (default default_totals (m !! a)) ++ omap (pair_below a) ds.
Proof.
  revert m; induction ds as [|d ds IH]; intros m; cbn [foldl]; [by rewrite app_nil_r|].
  rewrite IH. clear IH. cbn [omap list_omap]. unfold collect_crc, pair_below at 2.
  destruct (is_directory d); [done|]. cbn [negb andb]. destruct (dto_crc32 d) as [c|]; cbn.
  - rewrite add_crc_pair_foldl by apply NoDup_ancestors. rewrite <-app_assoc. f_equal.
    destruct (is_below a (dto_path d)) eqn:E.
    + apply is_below_ancestor in E. by case_decide.
    + case_decide as H; [|done]. apply is_below_ancestor in H. congruence.
  - by rewrite if_same.
Qed.

Lemma finalize_default (o : option FolderTotals) :
  o ≫= finalize_crc = finalize_crc (default default_totals o).
Proof. by destruct o. Qed.

Lemma finalize_perm t u :
  crc_pairs t ≡ₚ crc_pairs u -> NoDup (crc_pairs t).*1 -> finalize_crc t = finalize_crc u.
Proof.
  intros Hp Hnd. unfold finalize_crc.
  assert (stable_sort fst_le (crc_pairs t) = stable_sort fst_le (crc_pairs u)) as E.
  { assert (Transitive (@fst_le str)) by (intros x y z; unfold fst_le; apply str_le_trans).
    assert (Total (@fst_le str)) by (intros x y; unfold fst_le; apply total; apply _).
    apply (sorted_perm_eq fst_le); [by apply stable_sort_sorted..|by rewrite !stable_sort_perm|].
    intros x y. rewrite !stable_sort_perm. unfold fst_le. intros Hx Hy Hxy Hyx.
    assert (x.1 = y.1) as Hfst by by apply (anti_symm str_le).
    apply list_elem_of_lookup in Hx as [i Hi], Hy as [j Hj].
    assert (i = j) as ->; [|congruence].
    eapply (NoDup_lookup (crc_pairs t).*1); [done|rewrite list_lookup_fmap, Hi; done|].
    rewrite list_lookup_fmap, Hj. cbn. by rewrite Hfst. }
  destruct (crc_pairs t) as [|x l] eqn:Et, (crc_pairs u) as [|y k] eqn:Eu.
  - done.
  - by apply Permutation_nil_cons in Hp.
  - symmetry in Hp. by apply Permutation_nil_cons in Hp.
  - by rewrite E.
Qed.
End patching.

Section equivalence.
Context `{UT : UnicodeTables} `{CF : Crc32Fast}.
Context (computed : list (str * str)).

Notation related := (Forall2 (fun f d => d = file_dto (dto_id d) f)).

Lemma patch_related files rows :
  related files rows -> related (map (patch_file computed) files) (map (patch_dto computed) rows).
Proof.
  induction 1 as [|f d files rows Hd _ IH]; [constructor|]. cbn. constructor; [|done].
  rewrite Hd at 1. unfold patch_dto, file_dto, patch_file, is_directory. cbn. by rewrite Hd.
Qed.

Lemma pairs_related p files rows :
  related files rows ->
  omap (pair_below p) rows
  = omap (fun f => (fun c => (f.1, to_uppercase c)) <$> raw_crc32 f.2)
      (List.filter (fun f => is_below p f.1) files).
Proof.
  induction 1 as [|f d files rows Hd _ IH]; [done|]. cbn. rewrite Hd at 1.
  unfold pair_below at 1, is_directory. cbn. destruct (is_below p f.1); cbn; rewrite IH; done.
Qed.

Lemma pairs_paths p (files : list (str * RawEntry)) :
  (omap (fun f => (fun c => (f.1, to_uppercase c)) <$> raw_crc32 f.2)
     (List.filter (fun f => is_below p f.1) files)).*1 `sublist_of` files.*1.
Proof.
  induction files as [|f files IH]; [done|]. cbn. destruct (is_below p f.1); cbn; [|by constructor].
  destruct (raw_crc32 f.2); cbn; by constructor.
Qed.

Lemma related_paths files rows : related files rows -> files.*1 = map dto_path rows.
Proof. induction 1 as [|f d files rows Hd _ IH]; [done|]. cbn. by rewrite IH, Hd. Qed.

Lemma patch_directory d : is_directory d = true -> patch_dto computed d = d.
Proof. intros H. unfold patch_dto, patch_crc. rewrite H. cbn. apply with_crc32_id. Qed.

Lemma built_related es a ix a' :
  assigner_ok a -> build es a = (ix, a') -> related (build_files es) (file_rows ix).
Proof.
  intros Ha Hb. destruct (build_rows es a ix a' Ha Hb) as (_ & frows & drows & Hix & Hf & Hd).
  rewrite (file_rows_eq _ _ _ _ _ Hix Hf Hd). apply Forall2_fmap_r.
  eapply Forall2_impl; [exact Hf|]. by intros f r [_ H].
Qed.

(** The sums the patched index collects for a folder are those of the patched files. *)
Lemma collected_folder es a ix a' order p :
  assigner_ok a -> build es a = (ix, a') -> order ≡ₚ map dto_id (values ix) ->
  NoDup (map dto_path (file_rows ix)) ->
  (foldl collect_crc ∅ (omap (fun i => (patch_dto computed <$> by_id ix) !! i) order) !! p) ≫= finalize_crc
  = finalize_crc (folder_of p (map (patch_file computed) (build_files es))).
Proof.
  intros Ha Hb Hord Hnd. destruct (values_split es a ix a' Ha Hb) as (folders & _ & _ & Hdirs & Hval).
  destruct (build_rows es a ix a' Ha Hb) as (_ & frows & drows & Hix & Hf & Hd).
  pose proof (built_related es a ix a' Ha Hb) as Hrel. rewrite finalize_default. symmetry. apply finalize_perm.
  - rewrite collect_pairs, lookup_empty. cbn [default app crc_pairs default_totals].
    unfold folder_of. rewrite foldl_add_file. cbn [crc_pairs default_totals app].
    rewrite <-(pairs_related p _ _ (patch_related _ _ Hrel)).
    rewrite Hord.
    assert (omap (fun i => (patch_dto computed <$> by_id ix) !! i) (map dto_id (values ix))
      = map (patch_dto computed) (values ix)) as ->.
    { assert (Forall (fun d => by_id ix !! dto_id d = Some d) (values ix)) as H.
      { apply Forall_forall. intros d [k Hk]%(values_rows _ _ _ _ Hix). apply (ix_by_id _ _ _ Hix). eauto. }
      clear -H. induction H as [|d l H _ IH]; [done|]. cbn. rewrite lookup_fmap, H. cbn. by rewrite IH. }
    rewrite Hval, map_app, omap_app.
    replace (omap (pair_below p) (map (patch_dto computed) folders)) with (@nil (str * str));
      [by rewrite app_nil_r|].
    clear -Hdirs. induction Hdirs as [|d l Hk _ IH]; [done|]. cbn.
    rewrite patch_directory by (unfold is_directory; by apply bool_decide_eq_true).
    unfold pair_below at 1, is_directory. by rewrite bool_decide_eq_true_2.
  - unfold folder_of. rewrite foldl_add_file. cbn [crc_pairs default_totals app].
    eapply sublist_NoDup; [|apply pairs_paths].
    replace ((map (patch_file computed) (build_files es)).*1) with ((build_files es).*1);
      [by rewrite (related_paths _ _ Hrel)|].
    generalize (build_files es) as l. intros l. induction l as [|f l IH]; [done|]. cbn. by rewrite IH.
Qed.

(** Nothing to fill in: the patched listing is the listing. *)
Lemma unpatched_files files rows :
  related files rows -> List.filter (patched computed) rows = [] ->
  map (patch_file computed) files = files.
Proof.
  induction 1 as [|f d files rows Hd _ IH]; [done|]. cbn. destruct (patched computed d) eqn:E; [done|].
  intros H. rewrite IH by done. f_equal. unfold patched in E. apply bool_decide_eq_false in E.
  assert (patch_dto computed d = d) as Hp by (by destruct (decide (patch_dto computed d = d))).
  rewrite Hd in Hp. apply (f_equal dto_crc32) in Hp. destruct f as [p r]. unfold patch_file. cbn in *.
  unfold is_directory in Hp. cbn [dto_kind file_dto] in Hp.
  change (bool_decide (File = Directory)) with false in Hp. rewrite Hp. by destruct r.
Qed.

Lemma rebuild_unpatched es a ix a' :
  assigner_ok a -> build es a = (ix, a') -> (forall d, d ∈ values ix -> patched computed d = false) ->
  refold computed (map (patch_file computed) (build_files es)) <$> by_id ix = by_id ix.
Proof.
  intros Ha Hb Hun. destruct (values_split es a ix a' Ha Hb) as (folders & _ & _ & _ & Hval).
  rewrite (unpatched_files _ _ (built_related es a ix a' Ha Hb)).
  - rewrite <-(map_fmap_id (by_id ix)) at 2. apply map_fmap_ext. intros i d Hi.
    assert (d ∈ values ix) as Hd.
    { unfold values. apply list_elem_of_fmap. exists (i, d). split; [done|]. by apply elem_of_map_to_list. }
    unfold refold. destruct (is_directory d) eqn:Ed.
    + unfold is_directory in Ed. apply bool_decide_eq_true in Ed.
      destruct (folder_row es a ix a' d Ha Hb Hd Ed) as (f & _ & E). cbn.
      rewrite <-(with_crc32_id d) at 3. f_equal. by rewrite E at 2.
    + specialize (Hun d Hd). unfold patched in Hun. apply bool_decide_eq_false in Hun.
      by destruct (decide (patch_dto computed d = d)).
  - destruct (List.filter _ _) as [|d l] eqn:E; [done|]. exfalso.
    assert (d ∈ d :: l) as Hd by left. rewrite <-E in Hd.
    apply list_elem_of_In, filter_In in Hd as [Hd Ep]. rewrite Hun in Ep; [done|].
    rewrite Hval. apply elem_of_app. left. by apply list_elem_of_In.
Qed.

(** Filling in computed checksums gives, in whatever order
    the rows are walked, the very index that a build from the patched listing gives,
    folder checksums included, and reports how many rows changed, provided that no
    path is listed twice. *)
Theorem backfill_is_rebuild es a ix a' order n ix' :
  assigner_ok a -> build es a = (ix, a') -> order ≡ₚ map dto_id (values ix) ->
  NoDup (map dto_path (file_rows ix)) ->
  apply_crc32_backfill order ix computed = (n, ix') ->
  build (map (patch_entry computed) es) a = (ix', a')
  /\ n = length (List.filter (patched computed) (values ix)).
Proof.
  intros Ha Hb Hord Hnd Hp. rewrite (build_patch computed es a ix a' Hb).
  unfold apply_crc32_backfill in Hp. rewrite foldl_patch_rows in Hp. cbn [Nat.add] in Hp.
  fold (values ix) in Hp. destruct (Nat.eqb_spec (length (List.filter (patched computed) (values ix))) 0) as [E|E].
  - injection Hp as <- <-. rewrite E. split; [|done]. apply nil_length_inv in E.
    assert (forall d, d ∈ values ix -> patched computed d = false) as Hun.
    { intros d Hin. destruct (patched computed d) eqn:Ep; [|done].
      assert (d ∈ List.filter (patched computed) (values ix)) as H.
      { apply list_elem_of_In, filter_In. split; [by apply list_elem_of_In|done]. }
      rewrite E in H. by apply elem_of_nil in H. }
    rewrite (rebuild_unpatched es a ix a' Ha Hb Hun). by destruct ix.
  - injection Hp as <- <-. split; [|done]. do 2 f_equal. rewrite <-map_fmap_compose.
    apply map_fmap_ext. intros i d Hi. cbn. unfold refold.
    assert (is_directory (patch_dto computed d) = is_directory d) as -> by done.
    destruct (is_directory d) eqn:Ed; [|done]. rewrite patch_directory by done. f_equal.
    symmetry. by eapply collected_folder.
Qed.
End equivalence.

(** * The small archive, with the sum of its encrypted file computed *)

Module EntryBackfillExample.
Import EntryIndexExample.

Definition computed : list (str * str) := [(§"mods/data/secret.bin", §"ff"); (§"mods/readme.txt", §"00")].
Definition patched_ix : EntryIndex := (apply_crc32_backfill (map dto_id (values ix)) ix computed).2.

Lemma backfill_is_rebuild_witness :
  build (map (patch_entry computed) listing) default_assigner = (patched_ix, after)
  /\ 1%nat = length (List.filter (patched computed) (values ix)).
Proof.
  refine (backfill_is_rebuild computed listing default_assigner ix after (map dto_id (values ix)) 1 patched_ix
    default_assigner_ok built _ _ _).
  - reflexivity.
  - apply (bool_decide_unpack _). vm_compute. exact I.
  - vm_compute. reflexivity.
Defined.

(** A path listed twice, as a malformed archive may: the folder's checksum after a
    backfill depends on the order in which the hash map yields the two rows. *)
Definition twice : list ArchiveEntry :=
  [ {| path := §"d/x"; size := 1; packed_size := 1; modified := None; is_dir := false;
       encrypted := false; crc32 := Some §"a" |};
    {| path := §"d/x"; size := 1; packed_size := 1; modified := None; is_dir := false;
       encrypted := true; crc32 := None |} ].
Definition twice_ix : EntryIndex := (build twice default_assigner).1.
#[local] Instance first_crc : Crc32Fast :=
  {| crc32fast := fun s => match drop 4 s with c :: _ => Z.of_N (code c) | [] => 0%Z end |}.

Example duplicate_paths_order :
  let sum order := dto_crc32 <$> get (apply_crc32_backfill order twice_ix [(§"d/x", §"b")]).2 3 in
  sum [1; 2; 3]%N <> sum [2; 1; 3]%N.
Proof. vm_compute. discriminate. Qed.
End EntryBackfillExample.
