(* ===== verification/ArchiveSession.v ===== *)
(** One open archive ([crates/app/src/archive/session.rs]) and the store of them
    ([archive/store.rs]): the queries a frontend asks, the revision that says
    whether an answer is current, and the ids of sessions.

    The entry index is [EntryIndex.v]; this file is what is answered from it.  The
    archive handle and the locks are not state the queries see; what the locks are
    for is in [ArchiveMutation.v]. *)

From stdpp Require Import base tactics option list gmap sorting strings.
From Stdlib Require Import ZArith Lia Ascii.
From S2P Require Import Prelude Text Archive EntryIndex EntryIndexProps EntryBackfill.

Open Scope arclain_scope.

#[local] Arguments String.list_ascii_of_string : simpl never.

(** * Sort keys *)

Inductive EntrySortKey :=
| KeyCompressed | KeyCrc32 | KeyEncrypted | KeyKind | KeyModified | KeyName | KeyRatio | KeySize.

Inductive SortDirection := Ascending | Descending.

#[export] Instance SortDirection_eq_dec : EqDecision SortDirection.
Proof. solve_decision. Defined.

Definition u32_max : Z := 4294967295.

Record ListEntriesRequest := mk_request {
  directory : str;
  sort_key : EntrySortKey;
  sort_direction : SortDirection;
  name_filter : option str;
  offset : nat;
  limit : nat
}.

(** [Option]'s derived order: [None] first. *)
Definition option_leb (a b : option Z) : bool :=
  match a, b with
  | None, _ => true
  | Some _, None => false
  | Some x, Some y => (x <=? y)%Z
  end.

Section session.
Context `{UT : UnicodeTables} `{CF : Crc32Fast}.

(** What follows the last dot, or the whole name. *)
Definition after_last_dot (name : str) : str :=
  match rfind_char (fun c => ascii_eqb c "."%char) name with
  | Some pos => drop (S pos) name
  | None => name
  end.

Definition kind_sort_key (d : ArchiveEntryDto) : str :=
  match dto_kind d with
  | Directory => §"directory"
  | File | Symlink => to_lowercase (after_last_dot (dto_name d))
  end.

Definition crc32_sort_key (d : ArchiveEntryDto) : str :=
  to_uppercase (default [] (dto_crc32 d)).

Definition saturating_mul (a b : Z) : Z := Z.min (a * b) u64_max.

Definition ratio_sort_key (d : ArchiveEntryDto) : Z :=
  if (dto_uncompressed_size d =? 0)%Z then 0
  else (saturating_mul (default 0 (dto_compressed_size d)) 100 / dto_uncompressed_size d)%Z.

Definition bool_u8 (b : bool) : Z := if b then 1%Z else 0%Z.

(** The comparison of [sort_by_key]. *)
Definition key_leb (k : EntrySortKey) (a b : ArchiveEntryDto) : bool :=
  match k with
  | KeyCompressed => option_leb (dto_compressed_size a) (dto_compressed_size b)
  | KeyCrc32 => str_leb (crc32_sort_key a) (crc32_sort_key b)
  | KeyEncrypted => (bool_u8 (dto_encrypted a) <=? bool_u8 (dto_encrypted b))%Z
  | KeyKind => str_leb (kind_sort_key a) (kind_sort_key b)
  | KeyModified => option_leb (dto_modified_at_unix_ms a) (dto_modified_at_unix_ms b)
  | KeyName => str_leb (to_lowercase (dto_name a)) (to_lowercase (dto_name b))
  | KeyRatio => (ratio_sort_key a <=? ratio_sort_key b)%Z
  | KeySize => (dto_uncompressed_size a <=? dto_uncompressed_size b)%Z
  end.

Definition key_le (k : EntrySortKey) (a b : ArchiveEntryDto) : Prop := key_leb k a b = true.

#[export] Instance key_le_dec k : RelDecision (key_le k).
Proof. intros a b. unfold key_le. apply _. Defined.

(** * The session *)

Context {Json : Type}.

Record SessionEncryption := mk_encryption {
  enc_encrypted : bool;
  enc_headers : bool;
  enc_method : option str
}.

Record ArchiveSession := mk_session {
  session_id : Z;
  source_path : str;
  metadata : option Json;
  archive_type : str;
  encryption : SessionEncryption;
  revision : Z;
  entry_index : EntryIndex;
  id_assigner : EntryIdAssigner;
  desynced : bool
}.

Definition new_session (sid : Z) (src kind : str) (entries : list ArchiveEntry)
    (enc : SessionEncryption) : ArchiveSession :=
  let '(ix, a) := build entries default_assigner in
  mk_session sid src None kind enc 1 ix a false.

Definition set_source_path (p : str) (s : ArchiveSession) : ArchiveSession :=
  mk_session (session_id s) p (metadata s) (archive_type s) (encryption s) (revision s)
    (entry_index s) (id_assigner s) (desynced s).

Definition set_metadata (m : option Json) (s : ArchiveSession) : ArchiveSession :=
  mk_session (session_id s) (source_path s) m (archive_type s) (encryption s) (revision s)
    (entry_index s) (id_assigner s) (desynced s).

(** [fetch_add(1)] on the revision. *)
Definition bump (s : ArchiveSession) : ArchiveSession :=
  mk_session (session_id s) (source_path s) (metadata s) (archive_type s) (encryption s)
    (wrapping_add (revision s) 1) (entry_index s) (id_assigner s) (desynced s).

Definition set_desynced (s : ArchiveSession) : ArchiveSession :=
  mk_session (session_id s) (source_path s) (metadata s) (archive_type s) (encryption s)
    (revision s) (entry_index s) (id_assigner s) true.

Definition mark_desynced (s : ArchiveSession) : ArchiveSession := bump (set_desynced s).

(** The write of the index, before the revision moves. *)
Definition write_index (ix : EntryIndex) (a : EntryIdAssigner) (s : ArchiveSession) : ArchiveSession :=
  mk_session (session_id s) (source_path s) (metadata s) (archive_type s) (encryption s)
    (revision s) ix a (desynced s).

Definition reindex_write (entries : list ArchiveEntry) (s : ArchiveSession) : ArchiveSession :=
  let '(ix, a) := build entries (id_assigner s) in write_index ix a s.

Definition reindex (entries : list ArchiveEntry) (s : ArchiveSession) : Z * ArchiveSession :=
  let s' := bump (reindex_write entries s) in (revision s', s').

Definition entry (s : ArchiveSession) (i : N) : option ArchiveEntryDto := get (entry_index s) i.

Record ArchiveSnapshot := mk_snapshot {
  snap_session_id : Z;
  snap_revision : Z;
  snap_source_path : str;
  snap_archive_type : str;
  snap_entry_count : Z;
  snap_total_uncompressed_size : Z;
  snap_encryption : SessionEncryption;
  snap_comment : option str;
  snap_metadata : option Json
}.

Definition snapshot (s : ArchiveSession) : ArchiveSnapshot :=
  mk_snapshot (session_id s) (revision s) (source_path s) (archive_type s)
    (entry_count (entry_index s)) (total_uncompressed_size (entry_index s)) (encryption s)
    None (metadata s).

(** ** Listing a folder *)

Definition filter_needle (r : ListEntriesRequest) : option str :=
  match trim <$> name_filter r with
  | Some [] | None => None
  | Some f => Some (to_lowercase f)
  end.

Definition name_matches (needle : option str) (d : ArchiveEntryDto) : bool :=
  match needle with
  | None => true
  | Some n => contains_str (to_lowercase (dto_name d)) n
  end.

Definition matching (ix : EntryIndex) (r : ListEntriesRequest) : list ArchiveEntryDto :=
  List.filter (name_matches (filter_needle r)) (omap (get ix) (children_of ix (directory r))).

Definition ordered (ix : EntryIndex) (r : ListEntriesRequest) : list ArchiveEntryDto :=
  let sorted := stable_sort (key_le (sort_key r)) (matching ix r) in
  if decide (sort_direction r = Descending) then reverse sorted else sorted.

Record EntryPage := mk_page {
  page_session_id : Z;
  page_revision : Z;
  page_directory : str;
  page_total : nat;
  page_entries : list ArchiveEntryDto
}.

Definition list_entries (s : ArchiveSession) (r : ListEntriesRequest) : EntryPage :=
  let all := ordered (entry_index s) r in
  mk_page (session_id s) (revision s) (directory r) (length all) (take (limit r) (drop (offset r) all)).

(** [ListEntriesRequest::whole_directory]. *)
Definition whole_directory (d : str) : ListEntriesRequest :=
  mk_request d KeyName Ascending None 0 (Z.to_nat u32_max).

(** ** Resolving a selection *)

Definition add_new (p : str) (paths : list str) : list str :=
  if bool_decide (p ∈ paths) then paths else paths ++ [p].

(** The paths so far are also the set of those seen. *)
Definition resolve_one (ix : EntryIndex) (paths : list str) (i : N) : result N (list str) :=
  match get ix i with
  | None => Err i
  | Some d =>
      Ok match dto_kind d with
         | File | Symlink => add_new (dto_path d) paths
         | Directory =>
             let prefix := dto_path d ++ §"/" in
             foldl (fun acc c =>
               if bool_decide (dto_kind c = File) && starts_with (dto_path c) prefix
               then add_new (dto_path c) acc else acc) paths (values ix)
         end
  end.

Definition resolve_extractable_paths (ix : EntryIndex) (ids : list N) : result N (list str) :=
  try_fold (resolve_one ix) [] ids.

(** ** Checksums that could be computed *)

Definition backfill_target (headers_encrypted : bool) (d : ArchiveEntryDto) : bool :=
  negb (is_directory d) && (dto_encrypted d || headers_encrypted)
  && match dto_crc32 d with None => true | Some _ => false end.

Definition encrypted_crc_backfill_targets (s : ArchiveSession) : Z * list str * bool :=
  let rows := values (entry_index s) in
  (revision s,
   merge_sort str_le (map dto_path (List.filter (backfill_target (enc_headers (encryption s))) rows)),
   existsb dto_encrypted rows).

(** The patch under the index's write lock; the revision moves after it. *)
Definition backfill_write (order : list N) (expected : Z) (computed : list (str * str))
    (s : ArchiveSession) : option (nat * ArchiveSession) :=
  if negb (revision s =? expected)%Z then None
  else
    let '(n, ix) := apply_crc32_backfill order (entry_index s) computed in
    Some (n, write_index ix (id_assigner s) s).

Definition session_crc32_backfill (order : list N) (expected : Z) (computed : list (str * str))
    (s : ArchiveSession) : option (nat * Z) * ArchiveSession :=
  match backfill_write order expected computed s with
  | None => (None, s)
  | Some (n, s') =>
      if (n =? 0)%nat then (Some (0%nat, expected), s')
      else let s'' := bump s' in (Some (n, revision s''), s'')
  end.

Definition inventory (s : ArchiveSession) : Z * Z * option (list ArchiveEntryDto) :=
  (session_id s, revision s, all_entries (entry_index s)).

(** * The store of sessions ([archive/store.rs]) *)

Record ArchiveSessionStore := mk_store {
  sessions : gmap Z ArchiveSession;
  next_id : Z
}.

Definition empty_store : ArchiveSessionStore := mk_store ∅ 1.

(** An id is taken before the index is built, which happens outside the lock and
    may fail; the insertion is a later step. *)
Definition take_id (st : ArchiveSessionStore) : Z * ArchiveSessionStore :=
  (next_id st, mk_store (sessions st) (wrapping_add (next_id st) 1)).

Definition insert_session (sid : Z) (s : ArchiveSession) (st : ArchiveSessionStore)
  : ArchiveSessionStore :=
  mk_store (<[sid := s]> (sessions st)) (next_id st).

Definition open (src kind : str) (entries : list ArchiveEntry) (enc : SessionEncryption)
    (index_fails : bool) (st : ArchiveSessionStore)
  : result Z ArchiveSession * ArchiveSessionStore :=
  let '(sid, st') := take_id st in
  if index_fails then (Err sid, st')
  else let s := new_session sid src kind entries enc in (Ok s, insert_session sid s st').

Definition get_sync (st : ArchiveSessionStore) (sid : Z) : option ArchiveSession := sessions st !! sid.

Definition close (sid : Z) (st : ArchiveSessionStore) : bool * ArchiveSessionStore :=
  match sessions st !! sid with
  | Some _ => (true, mk_store (delete sid (sessions st)) (next_id st))
  | None => (false, st)
  end.
End session.

(** * Listing *)

Section listing.
Context `{UT : UnicodeTables} `{CF : Crc32Fast}.

Lemma option_leb_total a b : option_leb a b = true \/ option_leb b a = true.
Proof. destruct a as [x|], b as [y|]; cbn; auto. destruct (Z.leb_spec x y); [auto|right; lia]. Qed.

Lemma option_leb_trans a b c : option_leb a b = true -> option_leb b c = true -> option_leb a c = true.
Proof. destruct a, b, c; cbn; try done. rewrite !Z.leb_le. lia. Qed.

#[export] Instance key_le_total k : Total (key_le k).
Proof.
  intros a b. unfold key_le. destruct k; cbn [key_leb];
    first [apply option_leb_total|apply Zleb_total|apply (str_le_total _ _)].
Qed.

#[export] Instance key_le_trans k : Transitive (key_le k).
Proof.
  intros a b c. unfold key_le. destruct k; cbn [key_leb];
    first [apply option_leb_trans|apply (str_le_trans _ _ _)|rewrite !Z.leb_le; lia].
Qed.

Lemma StronglySorted_app_snoc {A : Type} (R : relation A) l x :
  StronglySorted R l -> Forall (fun y => R y x) l -> StronglySorted R (l ++ [x]).
Proof.
  induction 1 as [|y l Hl IH Hy]; intros Hx; cbn; [by repeat constructor|].
  apply Forall_cons in Hx as [Hyx Hx]. constructor; [by apply IH|].
  apply Forall_app. split; [done|by constructor].
Qed.

Lemma StronglySorted_reverse {A : Type} (R : relation A) l :
  StronglySorted R l -> StronglySorted (flip R) (reverse l).
Proof.
  induction 1 as [|x l Hl IH Hx]; [constructor|]. rewrite reverse_cons.
  apply StronglySorted_app_snoc; [done|]. by rewrite reverse_Permutation.
Qed.

(** The pages of one request, from the first on. *)
Definition page_at (r : ListEntriesRequest) (k : nat) : ListEntriesRequest :=
  mk_request (directory r) (sort_key r) (sort_direction r) (name_filter r) (k * limit r) (limit r).

Lemma windows_tile {A : Type} (l : list A) w n :
  concat (map (fun k => take w (drop (k * w) l)) (seq 0 n)) = take (n * w) l.
Proof.
  induction n as [|n IH]; [done|]. rewrite seq_S, map_app, concat_app, IH. cbn.
  rewrite app_nil_r. rewrite <-(take_drop (n * w) l) at 3.
  replace (w + n * w)%nat with (n * w + w)%nat by lia.
  destruct (decide (length l <= n * w)%nat) as [H|H].
  - rewrite (drop_ge l) by lia. rewrite take_nil, !app_nil_r. symmetry. apply take_ge.
    rewrite length_take. lia.
  - rewrite take_app_ge by (rewrite length_take; lia). f_equal. f_equal. rewrite length_take. lia.
Qed.

(** The children of a folder are in name order. *)
Lemma children_by_name ix p :
  tree_ok ix -> StronglySorted (key_le KeyName) (omap (get ix) (children_of ix p)).
Proof.
  intros Hok. eapply StronglySorted_omap; [|apply (tree_ordered _ Hok)].
  intros i j d e Hd He. unfold get in Hd, He. unfold name_le, name_key. by rewrite Hd, He.
Qed.

Lemma elem_of_matching ix r d :
  tree_ok ix ->
  d ∈ matching ix r <-> get ix (dto_id d) = Some d /\ parent_of (dto_path d) = directory r
    /\ name_matches (filter_needle r) d = true.
Proof.
  intros Hok. unfold matching. rewrite list_elem_of_In, filter_In, <-list_elem_of_In, list_elem_of_omap.
  setoid_rewrite (tree_children _ Hok). split.
  - intros [(i & (e & He & Hp) & Hi) Hm]. simplify_eq. pose proof (tree_id _ Hok _ _ He) as Hid. by subst i.
  - intros (Hg & Hp & Hm). split; [|done]. exists (dto_id d). split; [|done]. by exists d.
Qed.

Lemma NoDup_matching ix r : tree_ok ix -> NoDup (matching ix r).
Proof.
  intros Hok. unfold matching. apply NoDup_ListNoDup, List.NoDup_filter, NoDup_ListNoDup.
  pose proof (tree_children_nodup _ Hok (directory r)) as Hnd.
  induction Hnd as [|i l Hi Hnd IH]; [constructor|]. cbn. destruct (get ix i) as [d|] eqn:E; [|done].
  constructor; [|done]. intros (j & Hj & Hg)%list_elem_of_omap.
  apply (tree_id _ Hok) in E. apply (tree_id _ Hok) in Hg. congruence.
Qed.

(** C17: Listing a folder of an archive whose index is well formed, as every built index is
    ([built_tree]), gives, of the
    rows in that folder whose name contains the filter, each once, the window that
    was asked for, in the order of the key and direction, with rows of the same key
    in name order (reversed when descending); the total counts them all, and the
    pages of a request put together are its whole listing. *)
Theorem list_entries_spec {Json : Type} (s : ArchiveSession (Json := Json)) r :
  tree_ok (entry_index s) ->
  let all := ordered (entry_index s) r in
  (forall d, d ∈ all <-> entry s (dto_id d) = Some d /\ parent_of (dto_path d) = directory r
     /\ name_matches (filter_needle r) d = true)
  /\ NoDup all
  /\ (sort_direction r = Ascending -> StronglySorted (key_le (sort_key r)) all)
  /\ (sort_direction r = Descending -> StronglySorted (flip (key_le (sort_key r))) all)
  /\ (forall d, let tied e := key_leb (sort_key r) d e && key_leb (sort_key r) e d in
       List.filter tied all
       = (if decide (sort_direction r = Descending) then reverse else id)
           (List.filter tied (matching (entry_index s) r)))
  /\ StronglySorted (key_le KeyName) (matching (entry_index s) r)
  /\ page_total (list_entries s r) = length all
  /\ page_entries (list_entries s r) = take (limit r) (drop (offset r) all)
  /\ (forall n, (length all <= n * limit r)%nat ->
       concat (map (fun k => page_entries (list_entries s (page_at r k))) (seq 0 n)) = all).
Proof.
  intros Hok all.
  set (sorted := stable_sort (key_le (sort_key r)) (matching (entry_index s) r)).
  assert (StronglySorted (key_le (sort_key r)) sorted) as Hs by (apply stable_sort_sorted; apply _).
  assert (all ≡ₚ matching (entry_index s) r) as Hperm.
  { subst all. unfold ordered. destruct (decide _).
    - by rewrite reverse_Permutation, stable_sort_perm.
    - by rewrite stable_sort_perm. }
  split_and!; try done.
  - intros d. rewrite Hperm. by apply elem_of_matching.
  - rewrite Hperm. by apply NoDup_matching.
  - intros Hd. subst all. unfold ordered. rewrite decide_False by congruence. done.
  - intros Hd. subst all. unfold ordered. rewrite decide_True by done. by apply StronglySorted_reverse.
  - intros d. cbn zeta. set (tied := fun e => _). subst all. unfold ordered.
    assert (List.filter tied sorted = List.filter tied (matching (entry_index s) r)) as Hst.
    { apply stable_sort_stable; [apply _..|]. intros x y [Hx1 Hx2]%andb_prop [Hy1 Hy2]%andb_prop.
      eapply key_le_trans; [exact Hx2|exact Hy1]. }
    destruct (decide _); [|exact Hst]. rewrite <-Hst. fold sorted.
    unfold reverse. rewrite <-!rev_alt. apply List.filter_rev.
  - by apply StronglySorted_filter, children_by_name.
  - intros n Hn. transitivity (take (n * limit r) all); [|by apply take_ge]. by rewrite <-windows_tile.
Qed.
End listing.

(** * Selections *)

Section selection.
Context `{UT : UnicodeTables} `{CF : Crc32Fast}.

Lemma elem_of_add_new p q l : p ∈ add_new q l <-> p ∈ l \/ p = q.
Proof. unfold add_new. case_bool_decide; set_solver. Qed.

Lemma NoDup_add_new q l : NoDup l -> NoDup (add_new q l).
Proof.
  intros H. unfold add_new. case_bool_decide; [done|]. apply NoDup_app. split_and!; [done| |apply NoDup_singleton].
  intros x Hx ->%list_elem_of_singleton. done.
Qed.

(** What one id of a selection stands for. *)
Definition stands_for (ix : EntryIndex) (i : N) (p : str) : Prop :=
  exists d, get ix i = Some d /\
    match dto_kind d with
    | File | Symlink => p = dto_path d
    | Directory => exists c, c ∈ values ix /\ dto_kind c = File /\ dto_path c = p /\ is_below (dto_path d) p = true
    end.

Lemma descendants_fold prefix rows acc p :
  let step acc c :=
    if bool_decide (dto_kind c = File) && starts_with (dto_path c) prefix
    then add_new (dto_path c) acc else acc in
  (p ∈ foldl step acc rows <->
     p ∈ acc \/ exists c, c ∈ rows /\ dto_kind c = File /\ dto_path c = p /\ starts_with p prefix = true)
  /\ (NoDup acc -> NoDup (foldl step acc rows)).
Proof.
  cbn zeta. revert acc; induction rows as [|c rows IH]; intros acc; cbn [foldl].
  { split; [|done]. set_solver. }
  set (acc' := if bool_decide (dto_kind c = File) && starts_with (dto_path c) prefix
               then add_new (dto_path c) acc else acc).
  destruct (IH acc') as [H1 H2]. rewrite H1. subst acc'. clear IH H1. split.
  - setoid_rewrite elem_of_cons. case_bool_decide as Hk; cbn [andb]; [|naive_solver].
    destruct (starts_with (dto_path c) prefix) eqn:E; rewrite ?elem_of_add_new; naive_solver congruence.
  - intros Hnd. apply H2. destruct (_ && _); [by apply NoDup_add_new|done].
Qed.

Lemma resolve_one_spec ix paths i paths' :
  resolve_one ix paths i = Ok paths' ->
  (forall p, p ∈ paths' <-> p ∈ paths \/ stands_for ix i p) /\ (NoDup paths -> NoDup paths').
Proof.
  unfold resolve_one, stands_for. destruct (get ix i) as [d|]; [|done]. intros [= <-]. destruct (dto_kind d) eqn:E.
  - split; [|apply (descendants_fold (dto_path d ++ §"/") (values ix) paths [])].
    intros p. rewrite (proj1 (descendants_fold (dto_path d ++ §"/") (values ix) paths p)). f_equiv.
    split; [|intros (d' & [= <-] & H); by rewrite E in H]. intros (c & H). exists d. rewrite E. eauto.
  - split; [|apply NoDup_add_new]. intros p. rewrite elem_of_add_new. f_equiv.
    split; [intros ->; exists d; by rewrite E|]. intros (d' & [= <-] & H). by rewrite E in H.
  - split; [|apply NoDup_add_new]. intros p. rewrite elem_of_add_new. f_equiv.
    split; [intros ->; exists d; by rewrite E|]. intros (d' & [= <-] & H). by rewrite E in H.
Qed.

Lemma resolve_ok ix acc ids paths :
  try_fold (resolve_one ix) acc ids = Ok paths ->
  (forall p, p ∈ paths <-> p ∈ acc \/ exists i, i ∈ ids /\ stands_for ix i p) /\ (NoDup acc -> NoDup paths).
Proof.
  revert acc; induction ids as [|i ids IH]; intros acc; cbn [try_fold].
  - intros [= <-]. split; [|done]. set_solver.
  - intros (acc' & H1 & H2)%rbind_ok. destruct (resolve_one_spec _ _ _ _ H1) as [Hp Hn].
    destruct (IH _ H2) as [Hp' Hn']. split; [|auto]. intros p. rewrite Hp', Hp. set_solver.
Qed.

Lemma resolve_err ix acc ids i :
  try_fold (resolve_one ix) acc ids = Err i <->
  exists pre post, ids = pre ++ i :: post /\ get ix i = None /\ Forall (fun j => is_Some (get ix j)) pre.
Proof.
  revert acc; induction ids as [|j ids IH]; intros acc; cbn [try_fold].
  { split; [done|]. intros (pre & post & H & _). by destruct pre. }
  unfold resolve_one at 1. destruct (get ix j) as [d|] eqn:E; cbn [rbind].
  - rewrite IH. split.
    + intros (pre & post & -> & Hi & Hpre). exists (j :: pre), post. split_and!; [done..|]. by constructor.
    + intros (pre & post & H & Hi & Hpre). destruct pre as [|k pre]; simplify_eq/=.
      apply Forall_cons in Hpre as [_ Hpre]. eauto.
  - split.
    + intros [= <-]. by exists [], ids.
    + intros (pre & post & H & Hi & Hpre). destruct pre as [|k pre]; simplify_eq/=; [done|].
      apply Forall_cons in Hpre as [[? Hk] _]. congruence.
Qed.

(** A selection of ids resolves exactly when every id is in the
    index, to each file it names once: a file by its own path, a folder by every
    file below it; otherwise the answer is the first unknown id. No path it resolves
    to is absolute, has a parent step or a NUL. *)
Theorem selection_spec es a ix a' ids :
  assigner_ok a -> build es a = (ix, a') ->
  match resolve_extractable_paths ix ids with
  | Ok paths =>
      NoDup paths /\ (forall p, p ∈ paths <-> exists i, i ∈ ids /\ stands_for ix i p)
      /\ Forall valid_path paths /\ Forall (fun i => is_Some (get ix i)) ids
  | Err i =>
      exists pre post, ids = pre ++ i :: post /\ get ix i = None /\ Forall (fun j => is_Some (get ix j)) pre
  end.
Proof.
  intros Ha Hb. unfold resolve_extractable_paths. destruct (try_fold (resolve_one ix) [] ids) as [paths|i] eqn:E.
  2:{ by apply (resolve_err ix [] ids i). }
  destruct (resolve_ok _ _ _ _ E) as [Hp Hn]. assert (forall p, p ∈ paths <-> exists i, i ∈ ids /\ stands_for ix i p) as Hp'.
  { intros p. rewrite Hp. set_solver. }
  split_and!; [by apply Hn; constructor|done| |].
  - destruct (build_rows es a ix a' Ha Hb) as (_ & frows & drows & Hix & _).
    pose proof (ix_rows _ _ _ Hix) as Hok. rewrite Forall_forall in Hok.
    assert (forall d, d ∈ values ix -> valid_path (dto_path d)) as Hv.
    { intros d [k Hk]%(values_rows _ _ _ _ Hix). by destruct (Hok _ Hk) as (_ & _ & H & _). }
    apply Forall_forall. intros p (i & _ & d & Hd & Hk)%Hp'.
    assert (d ∈ values ix) as Hdv.
    { unfold values. apply list_elem_of_fmap. exists (i, d). split; [done|]. by apply elem_of_map_to_list. }
    destruct (dto_kind d); [|subst p; by apply Hv..]. destruct Hk as (c & Hc & _ & <- & _). by apply Hv.
  - apply Forall_forall. intros i Hi. destruct (get ix i) eqn:Eg; [by eexists|].
    apply list_elem_of_split in Hi as (pre & post & ->). exfalso. clear -E Eg.
    revert E. generalize (@nil str) as acc. induction pre as [|j pre IH]; intros acc; cbn [app try_fold].
    + unfold resolve_one at 1. by rewrite Eg.
    + intros (acc' & _ & H)%rbind_ok. by eapply IH.
Qed.
End selection.

Module ArchiveSessionExample.
Import EntryIndexExample.

Definition enc : SessionEncryption := mk_encryption true false None.
Definition sess : ArchiveSession (Json := unit) := new_session 7 §"/tmp/a.zip" §"zip" listing enc.
Definition by_size : ListEntriesRequest := mk_request §"mods" KeySize Descending (Some §" A ") 0 1.

Example two_rows : map dto_path (ordered (entry_index sess) by_size) = [§"mods/data"; §"mods/readme.txt"].
Proof. vm_compute. reflexivity. Qed.

Lemma tree : tree_ok (entry_index sess).
Proof. exact (built_tree listing default_assigner ix after default_assigner_ok built). Qed.

Lemma list_entries_spec_witness :
  page_total (list_entries sess by_size) = 2%nat
  /\ concat (map (fun k => page_entries (list_entries sess (page_at by_size k))) (seq 0 2))
     = ordered (entry_index sess) by_size.
Proof.
  destruct (list_entries_spec sess by_size tree) as (_ & _ & _ & _ & _ & _ & Ht & _ & Hp). split.
  - rewrite Ht. vm_compute. reflexivity.
  - apply Hp. vm_compute. lia.
Defined.

Lemma selection_spec_witness :
  match resolve_extractable_paths ix [4%N; 2%N] with
  | Ok paths => NoDup paths /\ Forall valid_path paths
  | Err _ => False
  end.
Proof.
  pose proof (selection_spec listing default_assigner ix after [4%N; 2%N] default_assigner_ok built) as H.
  destruct (resolve_extractable_paths ix [4%N; 2%N]) as [paths|i] eqn:E.
  - destruct H as (H1 & _ & H3 & _). split; [exact H1|exact H3].
  - vm_compute in E. discriminate E.
Defined.
End ArchiveSessionExample.
