(* ===== verification/ArchiveMutation.v ===== *)
(** Changing an open archive ([crates/app/src/operations/archive_mutation.rs]):
    add, delete and replace as operations that check the revision their caller has
    seen, change the file through the backend, list it again and rebuild the index.

    [run_archive_mutation] is cut at the points where another task can run: what a
    worker does under the session's mutation lock is a step, and the runs of
    [mutation_step] are all interleavings of any number of mutation workers and
    checksum backfills on one session. The archive file is a value of an abstract
    type; a backend call may succeed, fail or panic, with the file changed or not. *)

From stdpp Require Import base tactics option list gmap sorting strings relations.
From Stdlib Require Import ZArith Lia Ascii.
From S2P Require Import Prelude Text AppError Archive EntryIndex EntryIndexProps EntryBackfill ArchiveSession.

Open Scope arclain_scope.

#[local] Arguments String.list_ascii_of_string : simpl never.

Inductive ArchiveMutationRequest :=
| AddFiles (session expected : Z) (destination : str) (source_paths : list str)
| DeleteEntries (session expected : Z) (entry_ids : list N)
| ReplaceText (session expected : Z) (entry_id : N) (content : str).

Definition request_session_id (r : ArchiveMutationRequest) : Z :=
  match r with AddFiles s _ _ _ | DeleteEntries s _ _ | ReplaceText s _ _ _ => s end.

Definition expected_revision (r : ArchiveMutationRequest) : Z :=
  match r with AddFiles _ e _ _ | DeleteEntries _ e _ | ReplaceText _ e _ _ => e end.

Definition is_structurally_empty (r : ArchiveMutationRequest) : bool :=
  match r with
  | AddFiles _ _ _ source_paths => bool_decide (source_paths = [])
  | DeleteEntries _ _ entry_ids => bool_decide (entry_ids = [])
  | ReplaceText _ _ _ _ => false
  end.

Definition action_label (r : ArchiveMutationRequest) : str :=
  match r with
  | AddFiles _ _ _ _ => §"add files to the archive"
  | DeleteEntries _ _ _ => §"delete entries from the archive"
  | ReplaceText _ _ _ _ => §"replace the file's content in the archive"
  end.

Inductive ResolvedMutation :=
| AddResolved (source_paths : list str)
| Delete (paths : list str)
| ReplaceResolved (path_in_archive content : str).

(** The errors an operation fails with, by the function that makes them. *)
Inductive MutationError :=
| UnknownSession (session : Z)
| UnknownEntry (session : Z) (entry_id : N)
| CannotReplaceDirectory (session : Z) (entry_id : N)
| NonRootDestination
| UnsupportedMutation (action : str)
| RevisionConflict (session expected actual : Z)
| DesyncedSession (session : Z)
| MutationBackend (action : str)
| RelistAfterMutationFailed (session : Z)
| InternalJoin.

(** What each of them is for the caller. [text] is the rendering of the backend's
    error or of the failed task. *)
Definition mutation_application_error (cid : CorrelationId) (text : str) (e : MutationError) : ApplicationError :=
  match e with
  | UnknownSession session =>
      with_archive_session_id (with_recoverability (new cid NotFound §"no such archive session") Fatal) session
  | UnknownEntry session id =>
      with_entry_id (with_archive_session_id (with_recoverability (new cid NotFound
        §"one of the requested entries does not exist in this archive session") Fatal) session) (Z.of_N id)
  | CannotReplaceDirectory session id =>
      with_field (with_entry_id (with_archive_session_id (with_recoverability (new cid InvalidInput
        §"cannot replace the text content of a directory entry") Fatal) session) (Z.of_N id)) §"entry_id"
  | NonRootDestination =>
      with_field (with_recoverability (new cid Unsupported
        §"adding files into a specific archive folder is not supported yet -- only the archive root is")
        Fatal) §"destination"
  | UnsupportedMutation action =>
      with_recoverability (new cid Unsupported (§"this archive's backend cannot " ++ action)) Fatal
  | RevisionConflict session expected actual =>
      with_archive_session_id (with_recoverability (with_diagnostic (new cid Conflict
        §"the archive changed since this mutation was prepared")
        (§"expected revision " ++ decimal (Z.to_N expected) ++ §", current revision "
         ++ decimal (Z.to_N actual))) Retry) session
  | DesyncedSession session =>
      with_archive_session_id (with_recoverability (new cid Conflict
        §"this archive session's index could not be kept in sync with a previous change -- close and reopen the archive to continue")
        Fatal) session
  | MutationBackend action =>
      with_recoverability (with_diagnostic (new cid Backend (§"failed to " ++ action)) text) Retry
  | RelistAfterMutationFailed session =>
      with_archive_session_id (with_recoverability (with_diagnostic (new cid Backend
        §"the archive was modified but its updated contents could not be confirmed -- close and reopen this archive to continue safely")
        text) Fatal) session
  | InternalJoin => with_diagnostic (new cid Internal §"archive mutation worker failed") text
  end.

Record BackendCapabilities := {
  can_add_files : bool;
  can_delete_files : bool;
  can_modify_files : bool
}.

Definition check_capability (r : ArchiveMutationRequest) (c : BackendCapabilities)
  : result MutationError unit :=
  let supported :=
    match r with
    | AddFiles _ _ _ _ => can_add_files c
    | DeleteEntries _ _ _ => can_delete_files c
    | ReplaceText _ _ _ _ => can_modify_files c
    end in
  if supported then Ok tt else Err (UnsupportedMutation (action_label r)).

Section mutation.
Context `{UT : UnicodeTables} `{CF : Crc32Fast} {Json : Type}.
Notation ArchiveSession := (ArchiveSession (Json := Json)).

Definition resolve_mutation (s : ArchiveSession) (r : ArchiveMutationRequest)
  : result MutationError (option ResolvedMutation) :=
  match r with
  | AddFiles _ _ destination source_paths =>
      if negb (str_eqb destination root) then Err NonRootDestination
      else Ok (Some (AddResolved source_paths))
  | DeleteEntries sid _ entry_ids =>
      match resolve_extractable_paths (entry_index s) entry_ids with
      | Err bad_id => Err (UnknownEntry sid bad_id)
      | Ok [] => Ok None
      | Ok paths => Ok (Some (Delete paths))
      end
  | ReplaceText sid _ entry_id content =>
      match entry s entry_id with
      | None => Err (UnknownEntry sid entry_id)
      | Some dto =>
          if bool_decide (dto_kind dto = Directory) then Err (CannotReplaceDirectory sid entry_id)
          else Ok (Some (ReplaceResolved (dto_path dto) content))
      end
  end.

(** The checks between taking the lock and the backend call. *)
Definition admit_request (s : ArchiveSession) (caps : BackendCapabilities) (r : ArchiveMutationRequest)
  : result MutationError (option ResolvedMutation) :=
  if desynced s then Err (DesyncedSession (request_session_id r))
  else if negb (expected_revision r =? revision s)%Z then
    Err (RevisionConflict (request_session_id r) (expected_revision r) (revision s))
  else
    let? _ := check_capability r caps in
    resolve_mutation s r.

(** * Workers *)

Inductive Outcome := Completed | Failed (e : MutationError) | Stopped.

(** Where a worker is.  [MWait] is up to the lock; [MLocked] holds it; [MReady] has
    passed the checks; [MChanged] has changed the file; [MWritten] has written the
    new index and has the revision yet to move. *)
Inductive Worker :=
| MWait (r : ArchiveMutationRequest)
| MLocked (r : ArchiveMutationRequest)
| MReady (r : ArchiveMutationRequest) (m : ResolvedMutation)
| MChanged (r : ArchiveMutationRequest)
| MWritten (r : ArchiveMutationRequest)
| MDesyncing (r : ArchiveMutationRequest)
| BWait (expected : Z) (computed : list (str * str))
| BLocked (expected : Z) (computed : list (str * str))
| BWritten
| Ended (o : Outcome).

Definition holds_lock (w : Worker) : bool :=
  match w with
  | MLocked _ | MReady _ _ | MChanged _ | MWritten _ | MDesyncing _ | BLocked _ _ | BWritten => true
  | MWait _ | BWait _ _ | Ended _ => false
  end.

Context {Content : Type} (listing : Content -> list ArchiveEntry) (caps : BackendCapabilities).

(** A change of the file that was carried out: for which request, resolved against
    which session, over which content. *)
Record Change := mk_change {
  ch_request : ArchiveMutationRequest;
  ch_session : ArchiveSession;
  ch_resolved : ResolvedMutation;
  ch_before : Content
}.

Record World := mk_world {
  session : ArchiveSession;
  content : Content;
  holder : option nat;
  workers : gmap nat Worker;
  changes : list Change;
  (** has a blocking call of a worker panicked, or failed with the file changed? *)
  disturbed : bool
}.

Definition put (w : nat) (k : Worker) (x : World) : World :=
  mk_world (session x) (content x) (holder x) (<[w := k]> (workers x)) (changes x) (disturbed x).

Definition set_session (s : ArchiveSession) (x : World) : World :=
  mk_world s (content x) (holder x) (workers x) (changes x) (disturbed x).

Definition take_lock (w : nat) (x : World) : World :=
  mk_world (session x) (content x) (Some w) (workers x) (changes x) (disturbed x).

(** The guard is dropped when the worker returns. *)
Definition finish (w : nat) (o : Outcome) (x : World) : World :=
  mk_world (session x) (content x) None (<[w := Ended o]> (workers x)) (changes x) (disturbed x).

Definition apply_change (r : ArchiveMutationRequest) (m : ResolvedMutation) (c : Content) (x : World)
  : World :=
  mk_world (session x) c (holder x) (workers x)
    (changes x ++ [mk_change r (session x) m (content x)]) (disturbed x).

Definition set_disturbed (x : World) : World :=
  mk_world (session x) (content x) (holder x) (workers x) (changes x) true.

Inductive mutation_step : World -> World -> Prop :=
| m_spawn x w r : workers x !! w = None -> mutation_step x (put w (MWait r) x)
| m_unknown x w r : workers x !! w = Some (MWait r) ->
    mutation_step x (put w (Ended (Failed (UnknownSession (request_session_id r)))) x)
| m_cancel_waiting x w r : workers x !! w = Some (MWait r) ->
    mutation_step x (put w (Ended Stopped) x)
| m_empty x w r : workers x !! w = Some (MWait r) -> is_structurally_empty r = true ->
    mutation_step x (put w (Ended Completed) x)
| m_lock x w r : workers x !! w = Some (MWait r) -> is_structurally_empty r = false ->
    holder x = None -> mutation_step x (put w (MLocked r) (take_lock w x))
| m_cancel_locked x w r : workers x !! w = Some (MLocked r) ->
    mutation_step x (finish w Stopped x)
| m_refused x w r e : workers x !! w = Some (MLocked r) -> admit_request (session x) caps r = Err e ->
    mutation_step x (finish w (Failed e) x)
| m_nothing x w r : workers x !! w = Some (MLocked r) -> admit_request (session x) caps r = Ok None ->
    mutation_step x (finish w Completed x)
| m_admitted x w r m : workers x !! w = Some (MLocked r) ->
    admit_request (session x) caps r = Ok (Some m) -> mutation_step x (put w (MReady r m) x)
| m_cancel_ready x w r m : workers x !! w = Some (MReady r m) -> mutation_step x (finish w Stopped x)
(* the backend's call: it succeeds, or fails and leaves the file as it was, or ends
   in the middle of its change by an error or a panic *)
| m_perform x w r m c : workers x !! w = Some (MReady r m) ->
    mutation_step x (put w (MChanged r) (apply_change r m c x))
| m_perform_fails x w r m : workers x !! w = Some (MReady r m) ->
    mutation_step x (finish w (Failed (MutationBackend (action_label r))) x)
| m_perform_breaks x w r m c e : workers x !! w = Some (MReady r m) ->
    e = MutationBackend (action_label r) \/ e = InternalJoin ->
    mutation_step x (set_disturbed (finish w (Failed e) (apply_change r m c x)))
(* the listing after it, and the rebuild *)
| m_relist x w r : workers x !! w = Some (MChanged r) ->
    mutation_step x (put w (MWritten r) (set_session (reindex_write (listing (content x)) (session x)) x))
| m_relist_bump x w r : workers x !! w = Some (MWritten r) ->
    mutation_step x (finish w Completed (set_session (bump (session x)) x))
| m_relist_fails x w r : workers x !! w = Some (MChanged r) ->
    mutation_step x (put w (MDesyncing r) (set_session (set_desynced (session x)) x))
| m_desync_bump x w r : workers x !! w = Some (MDesyncing r) ->
    mutation_step x (finish w (Failed (RelistAfterMutationFailed (request_session_id r)))
      (set_session (bump (session x)) x))
| m_relist_panics x w r : workers x !! w = Some (MChanged r) ->
    mutation_step x (set_disturbed (finish w (Failed InternalJoin) x))
(* the checksum backfill, which takes the same lock *)
| b_spawn x w expected computed : workers x !! w = None ->
    mutation_step x (put w (BWait expected computed) x)
| b_lock x w expected computed : workers x !! w = Some (BWait expected computed) -> holder x = None ->
    mutation_step x (put w (BLocked expected computed) (take_lock w x))
| b_stale x w expected computed order : workers x !! w = Some (BLocked expected computed) ->
    backfill_write order expected computed (session x) = None -> mutation_step x (finish w Stopped x)
| b_nothing x w expected computed order s : workers x !! w = Some (BLocked expected computed) ->
    order ≡ₚ map dto_id (values (entry_index (session x))) ->
    backfill_write order expected computed (session x) = Some (0%nat, s) ->
    mutation_step x (finish w Completed (set_session s x))
| b_write x w expected computed order n s : workers x !! w = Some (BLocked expected computed) ->
    order ≡ₚ map dto_id (values (entry_index (session x))) ->
    backfill_write order expected computed (session x) = Some (S n, s) ->
    mutation_step x (put w BWritten (set_session s x))
| b_bump x w : workers x !! w = Some BWritten ->
    mutation_step x (finish w Completed (set_session (bump (session x)) x))
(* a plugin renames the archive or reports metadata *)
| m_rename x p : mutation_step x (set_session (set_source_path p (session x)) x)
| m_metadata x m : mutation_step x (set_session (set_metadata m (session x)) x).

(** An archive just opened from its file. *)
Definition opened (sid : Z) (src kind : str) (enc : SessionEncryption) (c : Content) : World :=
  mk_world (new_session sid src kind (listing c) enc) c None ∅ [] false.

Inductive reachable (x0 : World) : World -> Prop :=
| reach_start : reachable x0 x0
| reach_step x y : reachable x0 x -> mutation_step x y -> reachable x0 y.
End mutation.

(** * What the revision check is worth *)

Section sync.
Context `{UT : UnicodeTables} `{CF : Crc32Fast} {Json Content : Type}.
Context (listing : Content -> list ArchiveEntry) (caps : BackendCapabilities).
Notation ArchiveSession := (ArchiveSession (Json := Json)).
Notation World := (World (Json := Json) (Content := Content)).
Notation mutation_step := (mutation_step (Json := Json) (Content := Content) listing caps).

(** Equal but for checksums. *)
Definition same_rows (ix iy : EntryIndex) : Prop :=
  (fun d => with_crc32 d None) <$> by_id ix = (fun d => with_crc32 d None) <$> by_id iy
  /\ sorted_file_ids ix = sorted_file_ids iy /\ children ix = children iy
  /\ entry_count ix = entry_count iy /\ total_uncompressed_size ix = total_uncompressed_size iy.

Lemma same_rows_refl ix : same_rows ix ix.
Proof. done. Qed.

Lemma same_rows_trans ix iy iz : same_rows ix iy -> same_rows iy iz -> same_rows ix iz.
Proof. unfold same_rows. intuition congruence. Qed.

(** The index is that of the file's listing, up to checksums computed since. *)
Definition in_sync (ix : EntryIndex) (c : Content) : Prop :=
  exists a, assigner_ok a /\ same_rows (build (listing c) a).1 ix.

Lemma backfill_same_rows order ix computed :
  same_rows ix (apply_crc32_backfill order ix computed).2.
Proof.
  unfold apply_crc32_backfill. rewrite foldl_patch_rows. cbn [Nat.add].
  destruct (_ =? 0)%nat; [done|]. unfold same_rows. cbn. split_and!; try done.
  rewrite <-!map_fmap_compose. apply map_fmap_ext. intros i d _. cbn.
  by destruct (is_directory (patch_dto computed d)).
Qed.

Lemma backfill_write_spec order expected computed (s s' : ArchiveSession) n :
  backfill_write order expected computed s = Some (n, s') ->
  revision s = expected /\ revision s' = revision s /\ desynced s' = desynced s
  /\ id_assigner s' = id_assigner s /\ same_rows (entry_index s) (entry_index s')
  /\ (n = 0%nat -> entry_index s' = entry_index s).
Proof.
  unfold backfill_write. destruct (Z.eqb_spec (revision s) expected) as [E|]; [|done]. cbn [negb].
  destruct (apply_crc32_backfill order (entry_index s) computed) as [m ix] eqn:Eb.
  pose proof (backfill_same_rows order (entry_index s) computed) as Hs. rewrite Eb in Hs.
  intros [= <- <-]. split_and!; try done. intros ->. cbn.
  unfold apply_crc32_backfill in Eb. destruct (foldl patch_rows _ _) as [k rows].
  destruct (Nat.eqb_spec k 0) as [->|Hne]; [by injection Eb as <-|]. by injection Eb as -> _.
Qed.

(** A change that was resolved against the very rows its caller had seen, while
    they were the rows of the file. *)
Definition informed_change (ch : Change (Json := Json) (Content := Content)) : Prop :=
  expected_revision (ch_request ch) = revision (ch_session ch)
  /\ resolve_mutation (ch_session ch) (ch_request ch) = Ok (Some (ch_resolved ch))
  /\ is_ok (check_capability (ch_request ch) caps) = true
  /\ in_sync (entry_index (ch_session ch)) (ch_before ch).

Definition changed (w : Worker) : Prop := match w with MChanged _ => True | _ => False end.

Record mutation_inv (x : World) : Prop := {
  mi_lock w : holder x = Some w <-> exists k, workers x !! w = Some k /\ holds_lock k = true;
  mi_assigner : assigner_ok (id_assigner (session x));
  mi_sync : disturbed x = false -> desynced (session x) = true
    \/ (exists w k, workers x !! w = Some k /\ changed k) \/ in_sync (entry_index (session x)) (content x);
  mi_ready w r m : workers x !! w = Some (MReady r m) ->
    admit_request (session x) caps r = Ok (Some m);
  mi_changes : disturbed x = false -> Forall informed_change (changes x)
}.

Lemma admit_ok (s : ArchiveSession) r m :
  admit_request s caps r = Ok (Some m) ->
  desynced s = false /\ expected_revision r = revision s
  /\ is_ok (check_capability r caps) = true /\ resolve_mutation s r = Ok (Some m).
Proof.
  unfold admit_request. destruct (desynced s); [done|].
  destruct (Z.eqb_spec (expected_revision r) (revision s)); [|done]. cbn [negb].
  intros (u & Hu & Hr)%rbind_ok. by rewrite Hu.
Qed.

(** The checks see the revision, the flag and the rows, which only a lock holder
    changes. *)
Lemma admit_same (s t : ArchiveSession) r :
  desynced t = desynced s -> revision t = revision s -> entry_index t = entry_index s ->
  admit_request t caps r = admit_request s caps r.
Proof.
  intros E1 E2 E3. unfold admit_request. rewrite E1, E2. destruct (desynced s); [done|].
  destruct (negb _); [done|]. f_equal. unfold resolve_mutation. destruct r; [done|..]; unfold entry; by rewrite E3.
Qed.

Lemma opened_inv sid src kind enc c : mutation_inv (opened listing sid src kind enc c).
Proof.
  unfold opened, new_session. destruct (build (listing c) default_assigner) as [ix a] eqn:E.
  destruct (build_rows _ _ _ _ default_assigner_ok E) as (_ & f & d & Hix & _).
  split; cbn; try done.
  - intros w. rewrite lookup_empty. naive_solver.
  - apply Hix.
  - intros _. right; right. exists default_assigner. split; [apply default_assigner_ok|]. by rewrite E.
Qed.

Definition opt_holds (o : option Worker) : bool := match o with Some k => holds_lock k | None => false end.

Definition unchanged_view (s t : ArchiveSession) : Prop :=
  desynced t = desynced s /\ revision t = revision s /\ entry_index t = entry_index s.

(** One worker moves. *)
Lemma inv_move x y w k :
  mutation_inv x -> workers y = <[w := k]> (workers x) ->
  (holder y = holder x /\ holds_lock k = opt_holds (workers x !! w)
   \/ holder x = None /\ holder y = Some w /\ holds_lock k = true
   \/ holder x = Some w /\ holder y = None /\ holds_lock k = false) ->
  assigner_ok (id_assigner (session y)) ->
  (unchanged_view (session x) (session y) \/ opt_holds (workers x !! w) = true) ->
  (forall r m, k = MReady r m -> admit_request (session y) caps r = Ok (Some m)) ->
  (disturbed y = false -> desynced (session y) = true
     \/ (exists w' k', workers y !! w' = Some k' /\ changed k') \/ in_sync (entry_index (session y)) (content y)) ->
  (disturbed y = false -> Forall informed_change (changes y)) ->
  mutation_inv y.
Proof.
  intros [Hlock Hasg _ Hready _] Hw Hh Ha Hview Hk Hsync Hch.
  assert (forall v, v <> w -> workers y !! v = workers x !! v) as Hother.
  { intros v Hv. by rewrite Hw, lookup_insert_ne. }
  assert (workers y !! w = Some k) as Hself by by rewrite Hw, lookup_insert_eq.
  assert (holder x = Some w <-> opt_holds (workers x !! w) = true) as Hhw.
  { rewrite Hlock. unfold opt_holds. destruct (workers x !! w); naive_solver. }
  split; try done.
  - intros v. destruct (decide (v = w)) as [->|Hne].
    + rewrite Hself. destruct Hh as [[-> Hh]|[(E & -> & Hh)|(E & -> & Hh)]].
      * rewrite Hhw, <-Hh. naive_solver.
      * naive_solver.
      * split; [done|]. intros (k' & [= <-] & H). congruence.
    + rewrite Hother by done. rewrite <-Hlock. destruct Hh as [[-> _]|[(E & -> & _)|(E & -> & _)]]; [done|..].
      * rewrite E. naive_solver.
      * rewrite E. naive_solver.
  - intros v r m Hv. destruct (decide (v = w)) as [->|Hne].
    + rewrite Hself in Hv. apply Hk. congruence.
    + rewrite Hother in Hv by done. destruct Hview as [(V1 & V2 & V3)|Hview].
      * rewrite (admit_same (session x)) by done. by eapply Hready.
      * exfalso. apply Hhw in Hview. assert (holder x = Some v) as E; [|congruence].
        apply Hlock. eauto.
Qed.

(** The waiting part of a worker changes nothing. *)
Lemma inv_put x w k :
  mutation_inv x -> holds_lock k = opt_holds (workers x !! w) ->
  (forall r m, k = MReady r m -> admit_request (session x) caps r = Ok (Some m)) ->
  (forall k0, workers x !! w = Some k0 -> ~ changed k0) -> mutation_inv (put w k x).
Proof.
  intros Hinv Hh Hk Hc. eapply (inv_move x _ w k); try done; try apply Hinv; [by left|by left|].
  intros Hp. cbn in *. destruct (mi_sync _ Hinv Hp) as [?|[(v & k' & Hv & Hck)|?]]; [by left| |by right; right].
  right; left. exists v, k'. split; [|done]. rewrite lookup_insert_ne; [done|].
  intros ->. by eapply Hc.
Qed.

Lemma inv_finish x w k o :
  mutation_inv x -> workers x !! w = Some k -> holds_lock k = true -> ~ changed k ->
  mutation_inv (finish w o x).
Proof.
  intros Hinv Hk Hh Hc. eapply (inv_move x _ w (Ended o)); try done; try apply Hinv.
  - right; right. split_and!; try done. apply (mi_lock _ Hinv). eauto.
  - by left.
  - intros Hp. cbn in *. destruct (mi_sync _ Hinv Hp) as [?|[(v & k' & Hv & Hck)|?]]; [by left| |by right; right].
    right; left. exists v, k'. split; [|done]. rewrite lookup_insert_ne; [done|]. intros ->. by simplify_eq.
Qed.

Lemma locked_holder x w k : mutation_inv x -> workers x !! w = Some k -> holds_lock k = true -> holder x = Some w.
Proof. intros H ? ?. apply (mi_lock _ H). eauto. Qed.

(** While one worker has changed the file and not yet listed it, it is the only
    one in that state. *)
Lemma holder_unique x w k v k' :
  mutation_inv x -> workers x !! w = Some k -> holds_lock k = true ->
  workers x !! v = Some k' -> holds_lock k' = true -> v = w.
Proof.
  intros H H1 H2 H3 H4. pose proof (locked_holder _ _ _ H H1 H2). pose proof (locked_holder _ _ _ H H3 H4). congruence.
Qed.

(** What the holder knows of the file. *)
Lemma holder_sync x w k :
  mutation_inv x -> workers x !! w = Some k -> holds_lock k = true -> ~ changed k -> disturbed x = false ->
  desynced (session x) = true \/ in_sync (entry_index (session x)) (content x).
Proof.
  intros H Hw Hh Hc Hp. destruct (mi_sync _ H Hp) as [?|[(v & k' & Hv & Hck)|?]]; auto. exfalso.
  assert (v = w) as -> by (eapply holder_unique; eauto; by destruct k'). by simplify_eq.
Qed.

(** A lock holder that does not leave [MChanged] behind replaces the session. *)
Lemma inv_holder x w k0 k s h :
  mutation_inv x -> workers x !! w = Some k0 -> holds_lock k0 = true ->
  (h = holder x /\ holds_lock k = true \/ h = None /\ holds_lock k = false) ->
  assigner_ok (id_assigner s) -> (forall r m, k <> MReady r m) ->
  (disturbed x = false -> desynced s = true \/ in_sync (entry_index s) (content x)) ->
  mutation_inv (mk_world s (content x) h (<[w := k]> (workers x)) (changes x) (disturbed x)).
Proof.
  intros Hinv Hw Hh Hhold Ha Hr Hs. eapply (inv_move x _ w k); try done; cbn.
  - destruct Hhold as [[-> Hk]|[-> Hk]]; [left; rewrite Hw; naive_solver|].
    right; right. split_and!; try done. by eapply locked_holder.
  - right. by rewrite Hw.
  - intros r m ->. by destruct (Hr r m).
  - intros Hp. destruct (Hs Hp); auto.
  - apply Hinv.
Qed.

Lemma reindex_write_ok es (s : ArchiveSession) c :
  assigner_ok (id_assigner s) -> es = listing c ->
  assigner_ok (id_assigner (reindex_write es s)) /\ in_sync (entry_index (reindex_write es s)) c.
Proof.
  intros Ha ->. unfold reindex_write. destruct (build (listing c) (id_assigner s)) as [ix a] eqn:E.
  destruct (build_rows _ _ _ _ Ha E) as (_ & f & d & Hix & _). cbn. split; [apply Hix|].
  exists (id_assigner s). by rewrite E.
Qed.

Lemma same_view_inv x s :
  mutation_inv x -> unchanged_view (session x) s -> id_assigner s = id_assigner (session x) ->
  mutation_inv (set_session s x).
Proof.
  intros [Hl Ha Hs Hr Hc] (V1 & V2 & V3) Ea. split; cbn; try done.
  - by rewrite Ea.
  - by rewrite V1, V3.
  - intros w r m Hw. rewrite (admit_same (session x)) by done. by eapply Hr.
Qed.

Lemma mutation_step_inv x y : mutation_inv x -> mutation_step x y -> mutation_inv y.
Proof.
  intros Hinv Hstep. pose proof (mi_assigner _ Hinv) as Ha.
  destruct Hstep;
    try (match goal with H : workers ?x !! _ = None |- _ => apply inv_put; [done|by rewrite H|done|congruence] end);
    try (match goal with H : workers ?x !! _ = Some (MWait _) |- mutation_inv (put _ (Ended _) _) =>
           apply inv_put; [done|by rewrite H|done|intros k0 Hk0; rewrite H in Hk0; injection Hk0 as <-; intros []] end);
    try (match goal with H : workers ?x !! _ = Some _ |- mutation_inv (finish _ _ x) =>
           eapply inv_finish; [done|exact H|done|intros []] end).
  - eapply (inv_move x _ w (MLocked r)); try done; try apply Hinv; [by right; left|by left|].
    intros Hp. cbn. destruct (mi_sync _ Hinv Hp) as [?|[(v & k' & Hv & Hck)|?]]; auto.
    exfalso. assert (holder x = Some v) by (eapply locked_holder; eauto; by destruct k'). congruence.
  - apply inv_put; [done|by rewrite H|congruence|]. intros k0 Hk0. rewrite H in Hk0. injection Hk0 as <-. intros [].
  - pose proof (mi_ready _ Hinv _ _ _ H) as Hadm. destruct (admit_ok _ _ _ Hadm) as (D & E & C & R).
    eapply (inv_move x _ w (MChanged r)); try done; cbn.
    + left. by rewrite H.
    + by left.
    + intros _. right; left. exists w, (MChanged r). by rewrite lookup_insert_eq.
    + intros Hp. apply Forall_app. split; [by apply Hinv|]. constructor; [|constructor].
      split_and!; try done. cbn.
      destruct (holder_sync _ _ _ Hinv H) as [?|?]; [done|intros []|done|congruence|done].
  - eapply (inv_move x _ w (Ended (Failed e))); try done; cbn.
    + right; right. split_and!; try done. by eapply locked_holder.
    + by left.
  - destruct (reindex_write_ok (listing (content x)) (session x) (content x) Ha eq_refl) as [Ha' Hs'].
    eapply (inv_holder x w _ (MWritten r)); eauto.
  - eapply (inv_holder x w _ (Ended Completed)); eauto.
    intros Hp. apply (holder_sync _ _ _ Hinv H); [done|intros []|done].
  - eapply (inv_holder x w _ (MDesyncing r)); eauto.
  - eapply (inv_holder x w _ (Ended _)); eauto.
    intros Hp. apply (holder_sync _ _ _ Hinv H); [done|intros []|done].
  - eapply (inv_move x _ w (Ended (Failed InternalJoin))); try done; cbn.
    + right; right. split_and!; try done. by eapply locked_holder.
    + by left.
  - eapply (inv_move x _ w (BLocked expected computed)); try done; try apply Hinv; [by right; left|by left|].
    intros Hp. cbn. destruct (mi_sync _ Hinv Hp) as [?|[(v & k' & Hv & Hck)|?]]; auto.
    exfalso. assert (holder x = Some v) by (eapply locked_holder; eauto; by destruct k'). congruence.
  - destruct (backfill_write_spec _ _ _ _ _ _ H1) as (_ & _ & D & A & _ & I).
    eapply (inv_holder x w _ (Ended Completed) s None); eauto; [by rewrite A|].
    rewrite D, I by done. intros Hp. apply (holder_sync _ _ _ Hinv H); [done|intros []|done].
  - destruct (backfill_write_spec _ _ _ _ _ _ H1) as (_ & _ & D & A & Sm & _).
    eapply (inv_holder x w _ BWritten s (holder x)); eauto; [by rewrite A|].
    rewrite D. intros Hp. destruct (holder_sync _ _ _ Hinv H) as [?|(a & Haok & Hsm)]; [done|intros []|done|by left|].
    right. exists a. split; [done|]. by eapply same_rows_trans.
  - eapply (inv_holder x w _ (Ended Completed)); eauto.
    intros Hp. apply (holder_sync _ _ _ Hinv H); [done|intros []|done].
  - by apply same_view_inv.
  - by apply same_view_inv.
Qed.

Lemma reachable_inv sid src kind enc c x :
  reachable listing caps (opened listing sid src kind enc c) x -> mutation_inv x.
Proof. induction 1; [apply opened_inv|by eapply mutation_step_inv]. Qed.

(** A session that lost track of its file is never changed again. *)
Lemma desynced_step x y :
  mutation_inv x -> mutation_step x y -> desynced (session x) = true ->
  desynced (session y) = true /\ changes y = changes x.
Proof.
  intros Hinv Hstep Hd. destruct Hstep; try done; cbn;
    try (match goal with H : workers _ !! _ = Some (MReady _ _) |- _ =>
      destruct (admit_ok _ _ _ (mi_ready _ Hinv _ _ _ H)) as (E & _); congruence end);
    try (match goal with H : backfill_write _ _ _ _ = Some _ |- _ =>
      destruct (backfill_write_spec _ _ _ _ _ _ H) as (_ & _ & -> & _) end); try done.
Qed.

(** C14: In every interleaving of mutations and backfills on a
    session, as long as no blocking call has panicked or failed half-way through a
    change, each change made to the file
    was one its backend can do, for a request that named the current revision,
    resolved against rows that were those of the file; when no one holds the lock
    the rows are those of the file or the session is marked; and a marked session
    stays marked and its file is not changed through it again. *)
Theorem changes_were_seen sid src kind enc c x :
  reachable listing caps (opened listing sid src kind enc c) x ->
  (disturbed x = false ->
     Forall informed_change (changes x)
     /\ (holder x = None -> desynced (session x) = true \/ in_sync (entry_index (session x)) (content x)))
  /\ (desynced (session x) = true -> forall y, rtc mutation_step x y ->
       desynced (session y) = true /\ changes y = changes x).
Proof.
  intros Hr. pose proof (reachable_inv _ _ _ _ _ _ Hr) as Hinv. split.
  - intros Hp. split; [by apply Hinv|]. intros Hh.
    destruct (mi_sync _ Hinv Hp) as [?|[(v & k' & Hv & Hck)|?]]; auto.
    assert (holder x = Some v) by (eapply locked_holder; eauto; by destruct k'). congruence.
  - intros Hd y Hxy. clear Hr. induction Hxy as [x|x y z Hxy Hyz IH]; [done|].
    destruct (desynced_step _ _ Hinv Hxy Hd) as [Hd' E].
    destruct IH as [Hz Ez]; [by eapply mutation_step_inv|done|]. split; [done|congruence].
Qed.

(** ** Revisions *)

(** An index has been written whose revision is yet to move. *)
Definition write_pending (x : World) : Prop :=
  exists w k, workers x !! w = Some k /\ match k with MWritten _ | BWritten => True | _ => False end.

Lemma revision_step x y :
  mutation_step x y ->
  (revision (session y) = revision (session x)
   /\ (write_pending x -> write_pending y)
   /\ (entry_index (session y) = entry_index (session x) \/ write_pending y))
  \/ revision (session y) = wrapping_add (revision (session x)) 1.
Proof.
  assert (forall (x y : World) w k, workers y = <[w := k]> (workers x) ->
    (forall k0, workers x !! w = Some k0 -> match k0 with MWritten _ | BWritten => False | _ => True end) ->
    write_pending x -> write_pending y) as Hkeep.
  { intros x0 y0 w k Hw Hk0 (v & kv & Hv & Hkv). exists v, kv. split; [|done].
    rewrite Hw, lookup_insert_ne; [done|]. intros ->. specialize (Hk0 _ Hv). by destruct kv. }
  intros Hstep. destruct Hstep; cbn;
    try (right; reflexivity);
    try (match goal with H : backfill_write _ _ _ _ = Some _ |- _ =>
      destruct (backfill_write_spec _ _ _ _ _ _ H) as (_ & -> & _ & _ & _ & Hix) end);
    left;
    try (match goal with H : workers _ !! _ = _ |- _ =>
      split_and!; [done|eapply Hkeep; [reflexivity|intros k0 Hk0; rewrite H in Hk0; by simplify_eq]|by auto] end);
    try done.
  - split_and!; [done| |].
    + eapply Hkeep; [reflexivity|]. intros k0 Hk0. by simplify_eq.
    + right. exists w, (MWritten r). cbn. by rewrite lookup_insert_eq.
  - split_and!; [done| |].
    + eapply Hkeep; [reflexivity|]. intros k0 Hk0. by simplify_eq.
    + right. exists w, BWritten. cbn. by rewrite lookup_insert_eq.
  - split_and!; [done|done|by left].
  - split_and!; [done|done|by left].
Qed.

Lemma revision_run n x y :
  nsteps mutation_step n x y -> (0 <= revision (session x))%Z ->
  (revision (session x) + Z.of_nat n <= u64_max)%Z ->
  (revision (session x) <= revision (session y) <= revision (session x) + Z.of_nat n)%Z
  /\ (revision (session y) = revision (session x) ->
       (entry_index (session y) = entry_index (session x) \/ write_pending y)
       /\ (write_pending x -> write_pending y)).
Proof.
  induction 1 as [x|n x x' y Hxy Hn IH]; intros H0 Hle; [split; [lia|by auto]|].
  destruct (revision_step _ _ Hxy) as [(E & Hp & Hi)|E].
  - rewrite E in IH. destruct IH as [Hb Heq]; [lia..|]. split; [lia|]. intros Hy.
    destruct (Heq Hy) as [Hy1 Hy2]. split; [|by auto]. destruct Hi as [<-|Hi]; [done|right; auto].
  - rewrite wrapping_add_small in E by lia. rewrite E in IH. destruct IH as [Hb _]; [lia..|].
    split; lia.
Qed.

(** Two looks at a session, however far apart, that find
    the same revision find the same rows, unless one falls between the write of a
    new index and the move of its revision (and then the later look has the newer
    rows under the older number, never the reverse); revisions only grow. *)
Theorem revision_names_rows x n y :
  nsteps mutation_step n x y -> (revision (session x) + Z.of_nat n <= u64_max)%Z ->
  (0 <= revision (session x))%Z ->
  (revision (session x) <= revision (session y))%Z
  /\ (revision (session y) = revision (session x) -> ~ write_pending y ->
       entry_index (session y) = entry_index (session x)).
Proof.
  intros Hn Hle H0. destruct (revision_run _ _ _ Hn H0 Hle) as [Hb Heq]. split; [lia|].
  intros E Hnp. by destruct (Heq E) as [[?|?] _].
Qed.
End sync.

(** * A deletion, and one whose listing panics *)

Module MutationExample.
Import EntryIndexExample.

Definition all_caps : BackendCapabilities := {| can_add_files := true; can_delete_files := true; can_modify_files := true |}.
Definition no_enc : SessionEncryption := mk_encryption false false None.
Definition files : list ArchiveEntry := [file_entry §"a" 1; file_entry §"b" 2].

Notation World := (World (Json := unit) (Content := list ArchiveEntry)).
Notation step := (mutation_step (Json := unit) (fun c : list ArchiveEntry => c) all_caps).

Definition start : World := opened (fun c => c) 1 §"/x.zip" §"zip" no_enc files.
Definition delete_a : ArchiveMutationRequest := DeleteEntries 1 1 [1%N].

Definition waiting : World := put 0 (MWait delete_a) start.
Definition locked : World := put 0 (MLocked delete_a) (take_lock 0 waiting).
Definition ready : World := put 0 (MReady delete_a (Delete [§"a"])) locked.
Definition deleted : World :=
  put 0 (MChanged delete_a) (apply_change delete_a (Delete [§"a"]) [file_entry §"b" 2] ready).
Definition written : World :=
  put 0 (MWritten delete_a) (set_session (reindex_write [file_entry §"b" 2] (session deleted)) deleted).
Definition done : World := finish 0 Completed (set_session (bump (session written)) written).
Definition lost : World := set_disturbed (finish 0 (Failed InternalJoin) deleted).

Lemma reach_deleted : reachable (fun c => c) all_caps start deleted.
Proof.
  apply (reach_step _ _ _ ready); [apply (reach_step _ _ _ locked); [apply (reach_step _ _ _ waiting);
    [apply (reach_step _ _ _ start); [constructor|]|]|]|].
  - by apply m_spawn.
  - by apply (m_lock _ _ _ 0 delete_a).
  - apply (m_admitted _ _ _ 0 delete_a); [done|]. vm_compute. reflexivity.
  - by apply (m_perform _ _ ready 0 delete_a (Delete [§"a"]) [file_entry §"b" 2]).
Qed.

Lemma reach_done : reachable (fun c => c) all_caps start done.
Proof.
  apply (reach_step _ _ _ written); [apply (reach_step _ _ _ deleted); [apply reach_deleted|]|].
  - by apply (m_relist (fun c => c) all_caps deleted 0 delete_a).
  - by apply (m_relist_bump _ _ _ 0 delete_a).
Qed.

Lemma changes_were_seen_witness :
  length (changes done) = 1%nat
  /\ Forall (informed_change (fun c => c) all_caps) (changes done)
  /\ (desynced (session done) = true \/ in_sync (fun c => c) (entry_index (session done)) (content done)).
Proof.
  split; [reflexivity|].
  destruct (proj1 (changes_were_seen (fun c => c) all_caps 1 §"/x.zip" §"zip" no_enc files done reach_done) eq_refl)
    as [H1 H2].
  split; [exact H1|exact (H2 eq_refl)].
Defined.

Lemma revision_names_rows_witness :
  (revision (session locked) <= revision (session deleted))%Z
  /\ entry_index (session deleted) = entry_index (session locked).
Proof.
  destruct (revision_names_rows (fun c => c) all_caps locked 2 deleted) as [H1 H2].
  - econstructor; [|econstructor; [|constructor]].
    + apply (m_admitted _ _ _ 0 delete_a); [done|]. vm_compute. reflexivity.
    + by apply (m_perform _ _ ready 0 delete_a (Delete [§"a"]) [file_entry §"b" 2]).
  - vm_compute. discriminate.
  - vm_compute. discriminate.
  - split; [exact H1|]. apply H2; [reflexivity|].
    intros (w & k & Hw & Hk).
    unfold deleted, ready, locked, waiting, start, opened, put, take_lock, apply_change in Hw. cbn [workers] in Hw.
    repeat (apply lookup_insert_Some in Hw as [[_ <-]|[_ Hw]]; [exact Hk|]).
    by rewrite lookup_empty in Hw.
Defined.

(** When the listing after a successful change panics,
    the session is not marked: the lock is free, the revision is the old one, the
    file no longer has the deleted entry, and a request that rewrites that entry at
    the old revision passes every check and would create it again. *)
Theorem relist_panic_unnoticed :
  reachable (fun c => c) all_caps start lost
  /\ holder lost = None /\ desynced (session lost) = false
  /\ revision (session lost) = revision (session start)
  /\ map path (content lost) = [§"b"]
  /\ admit_request (session lost) all_caps (ReplaceText 1 1 1%N §"new") = Ok (Some (ReplaceResolved §"a" §"new")).
Proof.
  split_and!; try (vm_compute; reflexivity).
  apply (reach_step _ _ _ deleted); [apply reach_deleted|]. by apply (m_relist_panics _ _ _ 0 delete_a).
Qed.
End MutationExample.
