(* ===== verification/Leases.v ===== *)
(** Leases of extracted files ([crates/app/src/materialization/store.rs]): a
    directory per lease, reserved, committed, renewed, read in bounded pieces, and
    removed on release, expiry or shutdown.

    The filesystem is a map from absolute paths (lists of components) to files,
    directories and symbolic links, with [std::fs::canonicalize] written out. A
    removal may leave any part of what it should remove behind, and other programs
    change files between any two steps. What happens under the store's lock is one
    step; the directory removals, which happen after the lock is dropped, are steps
    of their own. *)

From stdpp Require Import base tactics option list gmap sorting strings relations.
From Stdlib Require Import ZArith Lia Ascii.
From S2P Require Import Prelude Text AppError.

Open Scope arclain_scope.

#[local] Arguments String.list_ascii_of_string : simpl never.

(** * The filesystem *)

Notation Path := (list str).

Inductive Node :=
| FileNode (bytes : str)
| DirNode
| LinkNode (target : Path).

#[export] Instance Node_eq_dec : EqDecision Node.
Proof. solve_decision. Defined.

(** The root directory [/] is there without an entry of its own. *)
Notation FS := (gmap (list str) Node).

(** Resolution of a path, component by component, following at most [links] more
    symbolic links. *)
Fixpoint resolve (links : nat) (fs : FS) : Path -> Path -> option Path :=
  fix walk (done rest : Path) {struct rest} : option Path :=
    match rest with
    | [] => Some done
    | c :: rest' =>
        match fs !! (done ++ [c]) with
        | None => None
        | Some DirNode => walk (done ++ [c]) rest'
        | Some (FileNode _) => match rest' with [] => Some (done ++ [c]) | _ => None end
        | Some (LinkNode target) =>
            match links with
            | O => None
            | S links' => resolve links' fs [] (target ++ rest')
            end
        end
    end.

(** Linux gives up after forty links. *)
Definition canonicalize (fs : FS) (p : Path) : option Path := resolve 40 fs [] p.

(** [File::open] of a regular file. *)
Definition open_file (fs : FS) (p : Path) : option str :=
  match canonicalize fs p with
  | Some q => match fs !! q with Some (FileNode bytes) => Some bytes | _ => None end
  | None => None
  end.

(** [create_dir_all]: missing directories are made one after the other. *)
Fixpoint create_dirs (fs : FS) (cur : Path) (rest : Path) : option FS :=
  match rest with
  | [] => Some fs
  | c :: rest' =>
      match fs !! (cur ++ [c]) with
      | None => create_dirs (<[cur ++ [c] := DirNode]> fs) (cur ++ [c]) rest'
      | Some DirNode => create_dirs fs (cur ++ [c]) rest'
      | Some (FileNode _) => None
      | Some (LinkNode _) =>
          match canonicalize fs (cur ++ [c]) with
          | Some q => match fs !! q with
                      | Some DirNode => create_dirs fs q rest'
                      | _ => None
                      end
          | None => None
          end
      end
  end.

Definition create_dir_all (fs : FS) (p : Path) : option FS := create_dirs fs [] p.

(** [remove_dir_all]: what it cannot remove, [keep], stays. A link at the end of
    the path is not followed. *)
Definition remove_dir_all (keep : Path -> bool) (fs : FS) (p : Path) : FS :=
  match canonicalize fs (removelast p), last p with
  | Some parent, Some name =>
      filter (fun kv => ~ ((parent ++ [name]) `prefix_of` kv.1) \/ keep kv.1 = true) fs
  | _, _ => fs
  end.

(** * The store *)

Inductive LeaseError :=
| UnknownLease (id : Z)
| DirectoryIo
| Escape (candidate root : Path)
| ReadIo
| TooLarge (length : Z).

Definition MAX_MATERIALIZATION_READ_BYTES : Z := 2 * 1024 * 1024.

(** [Path::display]. *)
Definition display (p : Path) : str := §"/" ++ join §"/" p.

(** The error of the facade that each one is reported as. [text] is the
    diagnostic of a failed call: what was attempted, on which path, and the
    operating system's words for it. *)
Definition lease_application_error (cid : CorrelationId) (text : str) (e : LeaseError) : ApplicationError :=
  match e with
  | UnknownLease id =>
      with_diagnostic (with_recoverability (new cid NotFound §"no such materialization lease") Fatal)
        (§"lease id " ++ decimal (Z.to_N id))
  | DirectoryIo =>
      with_recoverability (with_diagnostic (new cid Persistence
        §"failed to prepare a materialization lease directory") text) Retry
  | Escape candidate root =>
      with_recoverability (with_diagnostic (new cid Internal
        §"a materialized path escapes its own lease directory")
        (display candidate ++ §" is not contained within " ++ display root)) Fatal
  | ReadIo =>
      with_recoverability (with_diagnostic (new cid Internal
        §"failed to read from a materialized lease") text) Retry
  | TooLarge length =>
      with_field (with_recoverability (with_diagnostic (new cid InvalidInput
        §"requested read length exceeds the maximum bounded materialization read size")
        (§"requested " ++ decimal (Z.to_N length) ++ §" bytes, maximum is "
         ++ decimal (Z.to_N MAX_MATERIALIZATION_READ_BYTES))) UserAction) §"length"
  end.

(** The two [canonicalize] calls may see different states of the disk. *)
Definition canonicalize_within (fs_root fs_candidate : FS) (candidate root : Path)
  : result LeaseError Path :=
  let? canonical_root := ok_or (canonicalize fs_root root) DirectoryIo in
  let? canonical_candidate := ok_or (canonicalize fs_candidate candidate) DirectoryIo in
  if negb (bool_decide (canonical_root `prefix_of` canonical_candidate)) then
    Err (Escape canonical_candidate canonical_root)
  else Ok canonical_candidate.

Record LeaseRecord := mk_record {
  local_path : Path;
  lease_dir : Path;
  size : Z;
  expires_at_unix_ms : Z
}.

Record MaterializationLease := mk_lease {
  lease_id : Z;
  lease_local_path : Path;
  lease_size : Z;
  lease_expires_at_unix_ms : Z
}.

Definition to_dto (id : Z) (r : LeaseRecord) : MaterializationLease :=
  mk_lease id (local_path r) (size r) (expires_at_unix_ms r).

Record MaterializationStore := mk_store {
  root : Path;
  session_tag : str;
  ttl_ms : Z;
  leases : gmap Z LeaseRecord;
  next_id : Z
}.

Definition set_leases (l : gmap Z LeaseRecord) (s : MaterializationStore) : MaterializationStore :=
  mk_store (root s) (session_tag s) (ttl_ms s) l (next_id s).

Definition i64_saturating_add (a b : Z) : Z := Z.max i64_min (Z.min i64_max (a + b)).

Definition expires_at (s : MaterializationStore) (now : Z) : Z :=
  i64_saturating_add now (Z.min (ttl_ms s) i64_max).

Definition dir_name (tag : str) (id : Z) : str := tag ++ §"-" ++ decimal (Z.to_N id).

Definition dir_of (s : MaterializationStore) (id : Z) : Path := root s ++ [dir_name (session_tag s) id].

(** [reserve]: an id is used up even when its directory cannot be made. *)
Definition take_id (s : MaterializationStore) : Z * MaterializationStore :=
  (next_id s, mk_store (root s) (session_tag s) (ttl_ms s) (leases s) (wrapping_add (next_id s) 1)).

Definition reserve (io_ok : bool) (fs : FS) (s : MaterializationStore)
  : result LeaseError Z * FS * MaterializationStore :=
  let '(id, s') := take_id s in
  match (if io_ok then create_dir_all fs (dir_of s id) else None) with
  | Some fs' => (Ok id, fs', s')
  | None => (Err DirectoryIo, fs, s')
  end.

Definition commit (fs : FS) (id : Z) (path : Path) (bytes now : Z) (s : MaterializationStore)
  : result LeaseError MaterializationLease * MaterializationStore :=
  match canonicalize_within fs fs path (dir_of s id) with
  | Err e => (Err e, s)
  | Ok canonical_local_path =>
      match canonicalize fs (dir_of s id) with
      | None => (Err DirectoryIo, s)
      | Some canonical_dir =>
          let record := mk_record canonical_local_path canonical_dir bytes (expires_at s now) in
          (Ok (to_dto id record), set_leases (<[id := record]> (leases s)) s)
      end
  end.

Definition get (s : MaterializationStore) (id : Z) : result LeaseError MaterializationLease :=
  let? record := ok_or (leases s !! id) (UnknownLease id) in Ok (to_dto id record).

Definition renew (id now : Z) (s : MaterializationStore) : result LeaseError Z * MaterializationStore :=
  match leases s !! id with
  | None => (Err (UnknownLease id), s)
  | Some r =>
      let e := expires_at s now in
      (Ok e, set_leases (<[id := mk_record (local_path r) (lease_dir r) (size r) e]> (leases s)) s)
  end.

(** The three ways a lease ends: the record goes under the lock, and what is
    returned are the directories removed after it. *)
Definition release (id : Z) (s : MaterializationStore) : list Path * MaterializationStore :=
  match leases s !! id with
  | Some r => ([lease_dir r], set_leases (delete id (leases s)) s)
  | None => ([], s)
  end.

Definition expired (now : Z) (r : LeaseRecord) : bool := (expires_at_unix_ms r <=? now)%Z.

Definition sweep_expired (now : Z) (s : MaterializationStore) : list Path * MaterializationStore :=
  (map (fun kv => lease_dir kv.2) (map_to_list (filter (fun kv => expired now kv.2 = true) (leases s))),
   set_leases (filter (fun kv => expired now kv.2 = false) (leases s)) s).

Definition clear_all (s : MaterializationStore) : list Path * MaterializationStore :=
  (map (fun kv => lease_dir kv.2) (map_to_list (leases s)), set_leases ∅ s).

(** [read_range]: validated again on every call, over the states of the disk that
    its three calls see. *)
Definition read_range (fs_root fs_candidate fs_open : FS) (s : MaterializationStore)
    (id offset length : Z) : result LeaseError str :=
  if (MAX_MATERIALIZATION_READ_BYTES <? length)%Z then Err (TooLarge length)
  else
    let? record := ok_or (leases s !! id) (UnknownLease id) in
    let? validated := canonicalize_within fs_root fs_candidate (local_path record) (lease_dir record) in
    let? file := ok_or (open_file fs_open validated) ReadIo in
    let file_len := Z.of_nat (List.length file) in
    if (file_len <=? offset)%Z then Ok []
    else
      let remaining := (file_len - offset)%Z in
      let to_read := Z.min remaining length in
      Ok (take (Z.to_nat to_read) (drop (Z.to_nat offset) file)).

(** * Starting a store over a directory others may be using *)

Inductive TryLock := Acquired | WouldBlock | LockError.

#[export] Instance TryLock_eq_dec : EqDecision TryLock.
Proof. solve_decision. Defined.

(** [clear_leftover_lease_directories]: every direct child of the root, best effort;
    nothing when the root is not there yet. *)
Definition clear_leftovers (keep : Path -> bool) (fs : FS) (r : Path) : FS :=
  match canonicalize fs r with
  | Some q => filter (fun kv => ~ (q `prefix_of` kv.1 /\ kv.1 <> q) \/ keep kv.1 = true) fs
  | None => fs
  end.

Definition new_store (lock : TryLock) (keep : Path -> bool) (fs : FS) (r : Path) (tag : str) (ttl : Z)
  : result LeaseError MaterializationStore * FS :=
  match lock with
  | LockError => (Err DirectoryIo, fs)
  | _ =>
      let fs1 := match lock with Acquired => clear_leftovers keep fs r | _ => fs end in
      match create_dir_all fs1 r with
      | None => (Err DirectoryIo, fs1)
      | Some fs2 => (Ok (mk_store r tag ttl ∅ 1), fs2)
      end
  end.

(** * Runs of a store *)

Record LWorld := mk_lworld {
  disk : FS;
  store : MaterializationStore;
  (** reservations that were neither committed nor dropped yet *)
  reserved : gset Z;
  (** directories whose removal is due *)
  trash : list Path
}.

(** Other programs may change every file except the root directory, the way to it
    and its direct entries, which only stores make and remove. *)
Definition env_ok (r : Path) (fs fs' : FS) : Prop :=
  forall p, p `prefix_of` r \/ (exists n, p = r ++ [n]) -> fs' !! p = fs !! p.

Inductive lease_step : LWorld -> LWorld -> Prop :=
| l_reserve x io_ok id fs s : reserve io_ok (disk x) (store x) = (Ok id, fs, s) ->
    (next_id (store x) < u64_max)%Z ->
    lease_step x (mk_lworld fs s ({[ id ]} ∪ reserved x) (trash x))
| l_reserve_fails x io_ok e fs s : reserve io_ok (disk x) (store x) = (Err e, fs, s) ->
    (next_id (store x) < u64_max)%Z ->
    lease_step x (mk_lworld fs s (reserved x) (trash x))
| l_commit x id path bytes now l s : id ∈ reserved x ->
    commit (disk x) id path bytes now (store x) = (Ok l, s) ->
    lease_step x (mk_lworld (disk x) s (reserved x ∖ {[ id ]}) (trash x))
| l_commit_fails x id path bytes now e s : id ∈ reserved x ->
    commit (disk x) id path bytes now (store x) = (Err e, s) ->
    lease_step x (mk_lworld (disk x) s (reserved x ∖ {[ id ]}) (dir_of (store x) id :: trash x))
| l_abandon x id : id ∈ reserved x ->
    lease_step x (mk_lworld (disk x) (store x) (reserved x ∖ {[ id ]}) (dir_of (store x) id :: trash x))
| l_renew x id now r s : renew id now (store x) = (r, s) ->
    lease_step x (mk_lworld (disk x) s (reserved x) (trash x))
| l_release x id dirs s : release id (store x) = (dirs, s) ->
    lease_step x (mk_lworld (disk x) s (reserved x) (dirs ++ trash x))
| l_sweep x now dirs s : sweep_expired now (store x) = (dirs, s) ->
    lease_step x (mk_lworld (disk x) s (reserved x) (dirs ++ trash x))
| l_clear x dirs s : clear_all (store x) = (dirs, s) ->
    lease_step x (mk_lworld (disk x) s (reserved x) (dirs ++ trash x))
| l_purge x keep d t1 t2 : trash x = t1 ++ d :: t2 ->
    lease_step x (mk_lworld (remove_dir_all keep (disk x) d) (store x) (reserved x) (t1 ++ t2)).

Inductive lease_run : LWorld -> LWorld -> Prop :=
| run_refl x : lease_run x x
| run_step x y z : lease_run x y -> lease_step y z -> lease_run x z
| run_env x y fs : lease_run x y -> env_ok (root (store y)) (disk y) fs ->
    lease_run x (mk_lworld fs (store y) (reserved y) (trash y)).

(** * Real paths *)

(** A directory reached without following links. *)
Inductive real_dir (fs : FS) : Path -> Prop :=
| real_root : real_dir fs []
| real_snoc p c : real_dir fs p -> fs !! (p ++ [c]) = Some DirNode -> real_dir fs (p ++ [c]).

(** A file or directory reached without following links. *)
Definition real_path (fs : FS) (q : Path) : Prop :=
  real_dir fs q \/ exists p c bytes, q = p ++ [c] /\ real_dir fs p /\ fs !! q = Some (FileNode bytes).

Lemma real_dir_app fs p q : real_dir fs (p ++ q) -> real_dir fs p.
Proof.
  induction q as [|c q IH] using rev_ind; [by rewrite app_nil_r|].
  rewrite app_assoc. intros H. apply IH. inversion H as [E|p' c' Hp Hc E].
  - by destruct (p ++ q).
  - apply app_inj_tail in E as [<- <-]. done.
Qed.

Lemma real_dir_lookup fs p c : real_dir fs (p ++ [c]) -> fs !! (p ++ [c]) = Some DirNode.
Proof.
  intros H. inversion H as [E|p' c' Hp Hc E]; [by destruct p|]. apply app_inj_tail in E as [<- <-]. done.
Qed.

Lemma resolve_real links fs done rest :
  real_dir fs (done ++ rest) -> resolve links fs done rest = Some (done ++ rest).
Proof.
  revert done; induction rest as [|c rest IH]; intros done H; [by destruct links; rewrite app_nil_r|].
  assert (real_dir fs (done ++ [c])) as Hc by (apply (real_dir_app fs _ rest); by rewrite <-app_assoc).
  pose proof (real_dir_lookup _ _ _ Hc) as E.
  destruct links; cbn; rewrite E; rewrite IH by (by rewrite <-app_assoc); by rewrite <-app_assoc.
Qed.

Lemma canonicalize_real fs p : real_dir fs p -> canonicalize fs p = Some p.
Proof. apply (resolve_real 40 fs []). Qed.

(** What resolution ends at has no link on its way. *)
Lemma resolve_is_real links fs done rest q :
  real_dir fs done -> resolve links fs done rest = Some q -> real_path fs q.
Proof.
  revert done rest; induction links as [links IHl] using lt_wf_ind. intros done rest.
  revert done; induction rest as [|c rest IH]; intros done Hd.
  { destruct links; cbn; intros [= <-]; by left. }
  assert (resolve links fs done (c :: rest) =
    match fs !! (done ++ [c]) with
    | None => None
    | Some DirNode => resolve links fs (done ++ [c]) rest
    | Some (FileNode _) => match rest with [] => Some (done ++ [c]) | _ => None end
    | Some (LinkNode target) =>
        match links with O => None | S links' => resolve links' fs [] (target ++ rest) end
    end) as -> by (by destruct links).
  destruct (fs !! (done ++ [c])) as [[bytes| |target]|] eqn:E; [| | |done].
  - destruct rest; [|done]. intros [= <-]. right. by exists done, c, bytes.
  - apply IH. by constructor.
  - destruct links as [|links']; [done|]. apply IHl; [lia|constructor].
Qed.

Lemma canonicalize_is_real fs p q : canonicalize fs p = Some q -> real_path fs q.
Proof. apply resolve_is_real. constructor. Qed.

Lemma resolve_real_file links fs done rest c bytes :
  real_dir fs (done ++ rest) -> fs !! (done ++ rest ++ [c]) = Some (FileNode bytes) ->
  resolve links fs done (rest ++ [c]) = Some (done ++ rest ++ [c]).
Proof.
  revert done; induction rest as [|d rest IH]; intros done H Hf; cbn [app] in *.
  { destruct links; cbn; by rewrite Hf. }
  assert (real_dir fs (done ++ [d])) as Hd by (apply (real_dir_app fs _ rest); by rewrite <-app_assoc).
  pose proof (real_dir_lookup _ _ _ Hd) as E.
  destruct links; cbn; rewrite E; rewrite IH; rewrite <-?app_assoc; done.
Qed.

Lemma canonicalize_real_path fs q : real_path fs q -> canonicalize fs q = Some q.
Proof.
  intros [H|(p & c & bytes & -> & Hp & Hf)]; [by apply canonicalize_real|].
  by apply (resolve_real_file 40 fs [] p c bytes).
Qed.

Lemma canonicalize_within_ok fs1 fs2 p r q :
  canonicalize_within fs1 fs2 p r = Ok q <->
  exists r', canonicalize fs1 r = Some r' /\ canonicalize fs2 p = Some q /\ r' `prefix_of` q.
Proof.
  unfold canonicalize_within. destruct (canonicalize fs1 r) as [r'|]; cbn [ok_or rbind].
  2:{ split; [done|]. by intros (? & ? & _). }
  destruct (canonicalize fs2 p) as [q'|]; cbn [ok_or rbind].
  2:{ split; [done|]. by intros (? & _ & ? & _). }
  case_bool_decide as H; cbn [negb]; split; try done.
  - intros [= <-]. eauto.
  - by intros (? & [= <-] & [= <-] & _).
  - by intros (? & [= <-] & [= <-] & ?).
Qed.

Lemma slice_min (file : str) offset n :
  (0 <= offset)%Z -> (0 <= n)%Z ->
  (if (Z.of_nat (length file) <=? offset)%Z then []
   else take (Z.to_nat (Z.min (Z.of_nat (length file) - offset) n)) (drop (Z.to_nat offset) file))
  = take (Z.to_nat n) (drop (Z.to_nat offset) file).
Proof.
  intros H0 Hn. destruct (Z.leb_spec (Z.of_nat (length file)) offset).
  - rewrite drop_ge by lia. by rewrite take_nil.
  - destruct (Z.min_spec (Z.of_nat (length file) - offset) n) as [[Hm ->]|[Hm ->]]; [|done].
    rewrite !take_ge; [done|rewrite length_drop; lia..].
Qed.

(** A read of a lease succeeds exactly when the length
    is within the bound, the lease is known, and its path, links followed, is a
    regular file inside the lease's directory, links followed; it returns the bytes
    of that file from the offset on, at most as many as asked for, and no link is
    left on the way to the file they come from. *)
Theorem lease_reads_stay_inside fs s id offset n bytes :
  (0 <= offset)%Z -> (0 <= n)%Z ->
  read_range fs fs fs s id offset n = Ok bytes <->
  (n <= MAX_MATERIALIZATION_READ_BYTES)%Z /\
  exists r dir q file, leases s !! id = Some r /\ canonicalize fs (lease_dir r) = Some dir
    /\ canonicalize fs (local_path r) = Some q /\ dir `prefix_of` q /\ real_path fs q
    /\ fs !! q = Some (FileNode file) /\ bytes = take (Z.to_nat n) (drop (Z.to_nat offset) file).
Proof.
  intros H0 Hn. unfold read_range. destruct (Z.ltb_spec MAX_MATERIALIZATION_READ_BYTES n) as [Hb|Hb].
  { split; [done|lia]. }
  destruct (leases s !! id) as [r|]; cbn [ok_or rbind]; [|naive_solver].
  split.
  - intros (q & (dir & Hd & Hq & Hp)%canonicalize_within_ok & H)%rbind_ok.
    apply rbind_ok in H as (file & Hf%ok_or_ok & H). split; [done|].
    pose proof (canonicalize_is_real _ _ _ Hq) as Hreal. unfold open_file in Hf.
    rewrite (canonicalize_real_path _ _ Hreal) in Hf. exists r, dir, q, file.
    destruct (fs !! q) as [[b| |]|] eqn:E; simplify_eq. split_and!; try done.
    cbv zeta in H. rewrite <-(slice_min file) by done. by destruct (_ <=? _)%Z; simplify_eq.
  - intros (_ & r' & dir & q & file & [= <-] & Hd & Hq & Hp & Hreal & Hf & ->).
    rewrite (proj2 (canonicalize_within_ok fs fs (local_path r) (lease_dir r) q)) by eauto. cbn [rbind].
    unfold open_file. rewrite (canonicalize_real_path _ _ Hreal), Hf. cbn [ok_or rbind].
    cbv zeta. rewrite <-(slice_min file offset n) by done. by destruct (Z.of_nat (length file) <=? offset)%Z.
Qed.

(** * The directories of leases *)

Lemma dir_name_inj tag i j :
  (0 <= i <= u64_max)%Z -> (0 <= j <= u64_max)%Z -> dir_name tag i = dir_name tag j -> i = j.
Proof.
  intros Hi Hj E. unfold dir_name in E. apply app_inv_head in E. apply app_inv_head in E.
  apply decimal_inj in E; lia.
Qed.

(** A path cannot be under two entries of one directory. *)
Lemma under_entry_unique (r : Path) (a b : str) p :
  (r ++ [a]) `prefix_of` p -> (r ++ [b]) `prefix_of` p -> a = b.
Proof.
  intros [x ->] [y E]. rewrite <-!app_assoc in E. apply app_inv_head in E. cbn in E. congruence.
Qed.

Lemma remove_dir_all_lookup keep fs r n p :
  real_dir fs r ->
  remove_dir_all keep fs (r ++ [n]) !! p =
  (if decide ((r ++ [n]) `prefix_of` p /\ keep p = false) then None else fs !! p).
Proof.
  intros Hr. unfold remove_dir_all. rewrite removelast_last, last_snoc, (canonicalize_real _ _ Hr).
  case_decide as H.
  - apply map_lookup_filter_None. right. intros nd _. cbn. intros [Hn|Hk]; destruct H; congruence.
  - destruct (fs !! p) as [nd|] eqn:E.
    + apply map_lookup_filter_Some. split; [done|]. cbn.
      destruct (decide ((r ++ [n]) `prefix_of` p)) as [Hp|Hp]; [|by left]. right.
      destruct (keep p) eqn:Ek; [done|]. by destruct H.
    + apply map_lookup_filter_None. by left.
Qed.

Lemma real_dir_mono fs fs' p :
  (forall q, q `prefix_of` p -> fs' !! q = fs !! q) -> real_dir fs p -> real_dir fs' p.
Proof.
  intros Heq H. induction H as [|p c Hp IH Hc]; [constructor|]. constructor.
  - apply IH. intros q Hq. apply Heq. by apply prefix_app_r.
  - by rewrite Heq.
Qed.

Lemma entry_not_prefix (r : Path) (n : str) q : q `prefix_of` r -> ~ (r ++ [n]) `prefix_of` q.
Proof.
  intros [x ->] [y E]. apply (f_equal length) in E. rewrite !length_app in E. cbn in E. lia.
Qed.

Lemma create_entry fs r n :
  real_dir fs r -> fs !! (r ++ [n]) = None ->
  create_dir_all fs (r ++ [n]) = Some (<[r ++ [n] := DirNode]> fs).
Proof.
  intros Hr Hn. unfold create_dir_all.
  assert (forall rest cur, real_dir fs (cur ++ rest) -> fs !! (cur ++ rest ++ [n]) = None ->
    create_dirs fs cur (rest ++ [n]) = Some (<[cur ++ rest ++ [n] := DirNode]> fs)) as H.
  { induction rest as [|c rest IH]; intros cur Hd Hnone; cbn [app create_dirs] in *.
    - by rewrite Hnone.
    - assert (real_dir fs (cur ++ [c])) as Hc by (apply (real_dir_app fs _ rest); by rewrite <-app_assoc).
      rewrite (real_dir_lookup _ _ _ Hc). rewrite IH; rewrite <-?app_assoc; done. }
  apply (H r []); done.
Qed.

Record lease_inv (r : Path) (tag : str) (x : LWorld) : Prop := {
  li_root : root (store x) = r;
  li_tag : session_tag (store x) = tag;
  li_real : real_dir (disk x) r;
  li_next : (1 <= next_id (store x) <= u64_max)%Z;
  li_fresh id : (next_id (store x) <= id <= u64_max)%Z -> disk x !! (r ++ [dir_name tag id]) = None;
  li_reserved id : id ∈ reserved x ->
    (1 <= id < next_id (store x))%Z /\ disk x !! (r ++ [dir_name tag id]) = Some DirNode
    /\ leases (store x) !! id = None;
  li_lease id rec : leases (store x) !! id = Some rec ->
    (1 <= id < next_id (store x))%Z /\ lease_dir rec = r ++ [dir_name tag id]
    /\ lease_dir rec `prefix_of` local_path rec /\ disk x !! (lease_dir rec) = Some DirNode;
  li_trash d : d ∈ trash x ->
    exists id, d = r ++ [dir_name tag id] /\ (1 <= id < next_id (store x))%Z
      /\ id ∉ reserved x /\ leases (store x) !! id = None
}.

Lemma env_inv r tag x fs :
  lease_inv r tag x -> env_ok r (disk x) fs -> lease_inv r tag (mk_lworld fs (store x) (reserved x) (trash x)).
Proof.
  intros [H1 H2 H3 H4 H5 H6 H7 H8] He. split; cbn; try done.
  - eapply real_dir_mono; [|exact H3]. intros q Hq. apply He. by left.
  - intros id Hid. rewrite He by (right; by eexists). by apply H5.
  - intros id Hid. rewrite He by (right; by eexists). by apply H6.
  - intros id rec Hr. destruct (H7 _ _ Hr) as (A & B & C & D). split_and!; try done; [lia..|].
    rewrite B in *. by rewrite He by (right; by eexists).
Qed.

(** The records that are left keep their directories. *)
Lemma shrink_inv r tag x l dirs :
  lease_inv r tag x -> l ⊆ leases (store x) ->
  (forall d, d ∈ dirs -> exists id rec, leases (store x) !! id = Some rec /\ d = lease_dir rec /\ l !! id = None) ->
  lease_inv r tag (mk_lworld (disk x) (set_leases l (store x)) (reserved x) (dirs ++ trash x)).
Proof.
  intros [H1 H2 H3 H4 H5 H6 H7 H8] Hl Hd. split; cbn; try done.
  - intros id Hid. destruct (H6 _ Hid) as (A & B & C). split_and!; try done; [lia..|].
    destruct (l !! id) eqn:E; [|done]. eapply lookup_weaken in E; [|done]. congruence.
  - intros id rec Hr. apply H7. by eapply lookup_weaken.
  - intros d [Hin|Hin]%elem_of_app.
    + destruct (Hd _ Hin) as (id & rec & Hr & -> & Hn). destruct (H7 _ _ Hr) as (A & B & _).
      exists id. split_and!; try done; [lia..|]. intros Hres. destruct (H6 _ Hres) as (_ & _ & ?). congruence.
    + destruct (H8 _ Hin) as (id & -> & A & B & C). exists id. split_and!; try done; [lia..|].
      destruct (l !! id) eqn:E; [|done]. eapply lookup_weaken in E; [|done]. congruence.
Qed.

(** The ids a store is answerable for. *)
Definition held (x : LWorld) (id : Z) : Prop := id ∈ reserved x \/ is_Some (leases (store x) !! id).

Lemma held_range r tag x id : lease_inv r tag x -> held x id -> (1 <= id < next_id (store x))%Z.
Proof. intros H [Hr|[rec Hr]]; [by apply (li_reserved _ _ _ H)|by eapply (li_lease _ _ _ H)]. Qed.

Lemma insert_entry_prefix (fs : FS) (r : Path) (n : str) nd q :
  q `prefix_of` r -> (<[r ++ [n] := nd]> fs) !! q = fs !! q.
Proof. intros Hq. apply lookup_insert_ne. intros <-. by eapply entry_not_prefix. Qed.

Lemma entry_ne (r : Path) tag i j :
  (1 <= i <= u64_max)%Z -> (1 <= j <= u64_max)%Z -> i <> j -> r ++ [dir_name tag i] <> r ++ [dir_name tag j].
Proof. intros Hi Hj Hne E. apply app_inj_tail in E as [_ E]. apply dir_name_inj in E; [done|lia..]. Qed.

Lemma reserve_inv r tag x id fs s io_ok :
  lease_inv r tag x -> reserve io_ok (disk x) (store x) = (Ok id, fs, s) -> (next_id (store x) < u64_max)%Z ->
  lease_inv r tag (mk_lworld fs s ({[ id ]} ∪ reserved x) (trash x))
  /\ id = next_id (store x) /\ fs = <[r ++ [dir_name tag id] := DirNode]> (disk x).
Proof.
  intros Hinv H Hn. destruct Hinv as [H1 H2 H3 H4 H5 H6 H7 H8].
  assert (disk x !! (r ++ [dir_name tag (next_id (store x))]) = None) as Hfree by (apply H5; lia).
  unfold reserve in H. cbn [take_id] in H. unfold dir_of in H. rewrite H1, H2 in H.
  rewrite (create_entry _ _ _ H3 Hfree) in H. destruct io_ok; [|done]. injection H as <- <- <-.
  split; [|done]. rewrite wrapping_add_small by lia. split; cbn; try done.
  - eapply real_dir_mono; [|exact H3]. intros q Hq. by apply insert_entry_prefix.
  - lia.
  - intros i Hi. rewrite lookup_insert_ne by (apply entry_ne; lia). apply H5. lia.
  - intros i [->%elem_of_singleton|Hi]%elem_of_union.
    + rewrite lookup_insert_eq. split_and!; [lia..|done|].
      destruct (leases (store x) !! next_id (store x)) eqn:E; [|done]. apply H7 in E. lia.
    + destruct (H6 _ Hi) as (A & B & C). rewrite lookup_insert_ne by (apply entry_ne; lia).
      split_and!; try done; lia.
  - intros i rec Hi. destruct (H7 _ _ Hi) as (A & B & C & D). rewrite B in *.
    rewrite lookup_insert_ne by (apply entry_ne; lia). split_and!; try done; lia.
  - intros d Hd. destruct (H8 _ Hd) as (i & -> & A & B & C). exists i. split_and!; try done; [lia..|].
    set_solver by lia.
Qed.

Lemma commit_inv r tag x id path bytes now l s :
  lease_inv r tag x -> id ∈ reserved x -> commit (disk x) id path bytes now (store x) = (Ok l, s) ->
  lease_inv r tag (mk_lworld (disk x) s (reserved x ∖ {[ id ]}) (trash x)).
Proof.
  intros [H1 H2 H3 H4 H5 H6 H7 H8] Hid H. unfold commit, dir_of in H. rewrite H1, H2 in H.
  destruct (H6 _ Hid) as (A & B & C).
  assert (canonicalize (disk x) (r ++ [dir_name tag id]) = Some (r ++ [dir_name tag id])) as Hc.
  { apply canonicalize_real. by constructor. }
  destruct (canonicalize_within _ _ path _) as [q|e] eqn:Ew; [|done].
  apply canonicalize_within_ok in Ew as (d & Hd & Hq & Hp). rewrite Hc in H, Hd. injection Hd as <-.
  injection H as <- <-. split; cbn; try done.
  - intros i [Hi Hne]%elem_of_difference. destruct (H6 _ Hi) as (A' & B' & C').
    rewrite lookup_insert_ne by set_solver. split_and!; try done; lia.
  - intros i rec [[<- <-]|[Hne Hi]]%lookup_insert_Some; [|by apply H7]. cbn. split_and!; try done; lia.
  - intros d Hd. destruct (H8 _ Hd) as (i & -> & A' & B' & C'). exists i. split_and!; try done; [lia..|set_solver|].
    rewrite lookup_insert_ne; [done|]. by intros ->.
Qed.

Lemma abandon_inv r tag x id :
  lease_inv r tag x -> id ∈ reserved x ->
  lease_inv r tag (mk_lworld (disk x) (store x) (reserved x ∖ {[ id ]}) (dir_of (store x) id :: trash x)).
Proof.
  intros [H1 H2 H3 H4 H5 H6 H7 H8] Hid. split; cbn; try done.
  - intros i [Hi _]%elem_of_difference. by apply H6.
  - intros d [->|Hd]%elem_of_cons.
    + unfold dir_of. rewrite H1, H2. exists id. destruct (H6 _ Hid) as (A & B & C).
      split_and!; try done; [lia..|set_solver].
    + destruct (H8 _ Hd) as (i & -> & A' & B' & C'). exists i. split_and!; try done; [lia..|set_solver].
Qed.

Lemma purge_inv r tag x keep d t1 t2 :
  lease_inv r tag x -> trash x = t1 ++ d :: t2 ->
  lease_inv r tag (mk_lworld (remove_dir_all keep (disk x) d) (store x) (reserved x) (t1 ++ t2))
  /\ forall id p, held x id -> (r ++ [dir_name tag id]) `prefix_of` p ->
       remove_dir_all keep (disk x) d !! p = disk x !! p.
Proof.
  intros Hinv Ht. pose proof Hinv as [H1 H2 H3 H4 H5 H6 H7 H8].
  destruct (H8 d) as (i & -> & A & B & C); [rewrite Ht; apply elem_of_app; right; left|].
  assert (forall id p, (1 <= id <= u64_max)%Z -> id <> i -> (r ++ [dir_name tag id]) `prefix_of` p ->
    remove_dir_all keep (disk x) (r ++ [dir_name tag i]) !! p = disk x !! p) as Hother.
  { intros id p Hid Hne Hp. rewrite remove_dir_all_lookup by done. rewrite decide_False; [done|].
    intros [Hi _]. destruct Hne. eapply dir_name_inj; [lia..|]. by eapply under_entry_unique. }
  assert (forall id, held x id -> id <> i) as Hheld.
  { intros id [Hr|[rec Hr]] ->; [done|congruence]. }
  split; [split; cbn; try done|].
  - eapply real_dir_mono; [|exact H3]. intros q Hq. rewrite remove_dir_all_lookup by done.
    rewrite decide_False; [done|]. intros [H _]. exact (entry_not_prefix _ _ _ Hq H).
  - intros id Hid. rewrite (Hother id); [by apply H5|lia|lia|done].
  - intros id Hid. destruct (H6 _ Hid) as (A' & B' & C'). split_and!; try done; [lia..|].
    rewrite (Hother id); [done|lia|apply Hheld; by left|done].
  - intros id rec Hr. destruct (H7 _ _ Hr) as (A' & B' & C' & D'). split_and!; try done; [lia..|].
    rewrite B' in *. rewrite (Hother id); [done|lia|apply Hheld; right; by eexists|done].
  - intros d Hd. apply H8. rewrite Ht. set_solver.
  - intros id p Hh Hp. apply (Hother id); [|by apply Hheld|done].
    pose proof (held_range _ _ _ _ Hinv Hh). lia.
Qed.

Lemma lease_step_spec r tag x y :
  lease_inv r tag x -> lease_step x y ->
  lease_inv r tag y
  /\ forall id p, held x id -> (r ++ [dir_name tag id]) `prefix_of` p -> disk y !! p = disk x !! p.
Proof.
  intros Hinv Hstep. destruct Hstep as [x io_ok id fs s H Hn|x io_ok e fs s H Hn|x id path bytes now l s Hid H
    |x id path bytes now e s Hid H|x id Hid|x id now res s H|x id dirs s H|x now dirs s H|x dirs s H|x keep d t1 t2 Ht].
  - destruct (reserve_inv _ _ _ _ _ _ _ Hinv H Hn) as (Hinv' & -> & ->). split; [done|]. cbn.
    intros id p Hh Hp. apply lookup_insert_ne. intros <-. pose proof (held_range _ _ _ _ Hinv Hh).
    destruct Hp as [z E]. rewrite <-app_assoc in E. apply app_inv_head in E. cbn in E. injection E as E _.
    apply dir_name_inj in E; [lia| |]; pose proof (li_next _ _ _ Hinv); lia.
  - unfold reserve in H. cbn [take_id] in H.
    assert (fs = disk x /\ s = (take_id (store x)).2) as [-> ->].
    { destruct (if io_ok then _ else _); [done|]. by injection H as _ <- <-. }
    split; [|done]. destruct Hinv as [H1 H2 H3 H4 H5 H6 H7 H8].
    cbn. rewrite wrapping_add_small by lia. split; cbn; try done; [lia| | | |].
    + intros i Hi. apply H5. lia.
    + intros i Hi. destruct (H6 _ Hi) as (A & B & C). split_and!; try done; lia.
    + intros i rec Hi. destruct (H7 _ _ Hi) as (A & B & C & D). split_and!; try done; lia.
    + intros d Hd. destruct (H8 _ Hd) as (i & -> & A & B & C). exists i. split_and!; try done; lia.
  - split; [by eapply commit_inv|done].
  - assert (s = store x) as ->.
    { unfold commit in H. destruct (canonicalize_within _ _ _ _); [|by injection H as _ <-].
      destruct (canonicalize _ _); [done|by injection H as _ <-]. }
    split; [by apply abandon_inv|done].
  - split; [by apply abandon_inv|done].
  - split; [|done]. unfold renew in H. destruct (leases (store x) !! id) as [rec|] eqn:E;
      injection H as <- <-; [|by destruct x].
    destruct Hinv as [H1 H2 H3 H4 H5 H6 H7 H8]. split; cbn; try done.
    + intros i Hi. destruct (H6 _ Hi) as (A & B & C). split_and!; try done; [lia..|].
      rewrite lookup_insert_ne; [done|]. by intros ->; congruence.
    + intros i rec' [[<- <-]|[Hne Hi]]%lookup_insert_Some; [by apply (H7 _ _ E)|by apply H7].
    + intros d Hd. destruct (H8 _ Hd) as (i & -> & A & B & C). exists i. split_and!; try done; [lia..|].
      rewrite lookup_insert_ne; [done|]. by intros ->; congruence.
  - split; [|done]. unfold release in H. destruct (leases (store x) !! id) as [rec|] eqn:E; injection H as <- <-.
    + apply shrink_inv; [done|apply delete_subseteq|]. intros d ->%list_elem_of_singleton.
      exists id, rec. by rewrite lookup_delete_eq.
    + by destruct x.
  - split; [|done]. unfold sweep_expired in H. injection H as <- <-.
    apply shrink_inv; [done|apply map_filter_subseteq|]. intros d Hd.
    apply list_elem_of_In, in_map_iff in Hd as ([id rec] & <- & Hin).
    apply list_elem_of_In, elem_of_map_to_list, map_lookup_filter_Some in Hin as [Hl He]. cbn in He.
    exists id, rec. split_and!; try done. apply map_lookup_filter_None. right. intros rec' Hr'. cbn. congruence.
  - split; [|done]. unfold clear_all in H. injection H as <- <-.
    apply shrink_inv; [done|apply map_empty_subseteq|]. intros d Hd.
    apply list_elem_of_In, in_map_iff in Hd as ([id rec] & <- & Hin).
    apply list_elem_of_In, elem_of_map_to_list in Hin. exists id, rec. by rewrite lookup_empty.
  - destruct (purge_inv _ _ _ keep _ _ _ Hinv Ht) as [Hinv' Hp]. split; [done|]. intros id p. apply Hp.
Qed.

(** A store that was just made. *)
Definition start (s : MaterializationStore) (fs : FS) : LWorld := mk_lworld fs s ∅ [].

(** [new] made the store: with the lock after it cleared the root, without it beside the
    instance that has it; the root is a directory reached through no link, and no entry of it
    has the session's tag. *)
Record opened (r : Path) (tag : str) (ttl : Z) (s : MaterializationStore) (fs : FS) : Prop := {
  opened_new : exists lock keep before, new_store lock keep before r tag ttl = (Ok s, fs);
  opened_real : real_dir fs r;
  opened_tag : forall id, (1 <= id <= u64_max)%Z -> fs !! (r ++ [dir_name tag id]) = None
}.

Lemma opened_store r tag ttl s fs : opened r tag ttl s fs -> s = mk_store r tag ttl ∅ 1.
Proof. intros [(lock & keep & before & H) _ _]. unfold new_store in H. by destruct lock; repeat case_match; simplify_eq. Qed.

Lemma run_inv r tag ttl s fs x :
  opened r tag ttl s fs -> lease_run (start s fs) x -> lease_inv r tag x.
Proof.
  intros Ho Hrun. pose proof (opened_store _ _ _ _ _ Ho) as ->. destruct Ho as [_ Hr Hu].
  remember (start (mk_store r tag ttl ∅ 1) fs) as x0 eqn:E. induction Hrun as [x|x y z _ IH Hs|x y fs' _ IH He].
  - subst x. split; cbn; try done; try set_solver; unfold u64_max; lia.
  - apply IH in E. by eapply lease_step_spec.
  - apply IH in E. apply env_inv; [done|]. by rewrite <-(li_root _ _ _ E).
Qed.

(** C38: In every run of a store that [new] made over a root reached through no link and without
    entries of its session's tag, with other programs changing files as they like except for
    the root, the way to it and its own entries, which another instance's clearing of the root
    is not allowed to touch either, a lease's directory is the one made for its id, is still
    there and contains the lease's path; and no step of the store changes anything below the
    directory of a lease or reservation that it has before the step, whatever is reserved,
    dropped, released, swept or removed. *)
Theorem lease_dirs_are_own r tag ttl s fs x :
  opened r tag ttl s fs -> lease_run (start s fs) x ->
  (forall id rec, leases (store x) !! id = Some rec ->
     lease_dir rec = dir_of (store x) id /\ lease_dir rec `prefix_of` local_path rec
     /\ disk x !! lease_dir rec = Some DirNode)
  /\ (forall y id p, lease_step x y -> held x id -> dir_of (store x) id `prefix_of` p -> disk y !! p = disk x !! p).
Proof.
  intros Ho Hrun. pose proof (run_inv _ _ _ _ _ _ Ho Hrun) as Hinv. unfold dir_of.
  rewrite (li_root _ _ _ Hinv), (li_tag _ _ _ Hinv). split.
  - intros id rec Hl. by destruct (li_lease _ _ _ Hinv _ _ Hl) as (_ & ? & ? & ?).
  - intros y id p Hs Hh Hp. destruct (lease_step_spec _ _ _ _ Hinv Hs) as [_ H]. by eapply H.
Qed.

(** * Expiry *)

(** [sweep_expired] from end to end, with removals that succeed. *)
Definition sweep_whole (now : Z) (fs : FS) (s : MaterializationStore) : FS * MaterializationStore :=
  let '(dirs, s') := sweep_expired now s in
  (foldl (remove_dir_all (fun _ => false)) fs dirs, s').

Lemma foldl_remove r names fs :
  real_dir fs r ->
  let fs' := foldl (remove_dir_all (fun _ => false)) fs (map (fun n => r ++ [n]) names) in
  (forall n p, n ∈ names -> (r ++ [n]) `prefix_of` p -> fs' !! p = None)
  /\ (forall p, (forall n, n ∈ names -> ~ (r ++ [n]) `prefix_of` p) -> fs' !! p = fs !! p).
Proof.
  cbn zeta. revert fs; induction names as [|n names IH]; intros fs Hr; cbn [map foldl].
  { split; [by intros n p ?%elem_of_nil|done]. }
  destruct (IH (remove_dir_all (fun _ => false) fs (r ++ [n]))) as [H1 H2].
  { eapply real_dir_mono; [|exact Hr]. intros q Hq. rewrite remove_dir_all_lookup by done.
    rewrite decide_False; [done|]. intros [Hp _]. exact (entry_not_prefix _ _ _ Hq Hp). }
  split.
  - intros m p Hm Hp. destruct (decide (m ∈ names)) as [Hk|Hno]; [by eapply H1|].
    apply elem_of_cons in Hm as [->|Hm]; [|done].
    rewrite H2; [|intros k Hk Hkp; destruct Hno; by rewrite <-(under_entry_unique _ _ _ _ Hkp Hp)].
    rewrite remove_dir_all_lookup by done. by rewrite decide_True.
  - intros p Hp. rewrite H2 by (intros k Hk; apply Hp; by right).
    rewrite remove_dir_all_lookup by done. rewrite decide_False; [done|]. intros [H _]. eapply Hp; [left|done].
Qed.

Lemma sweep_dirs r tag x now :
  lease_inv r tag x ->
  (sweep_expired now (store x)).1
  = map (fun n => r ++ [n]) (map (fun kv => dir_name tag kv.1)
      (map_to_list (filter (fun kv => expired now kv.2 = true) (leases (store x))))).
Proof.
  intros Hinv. unfold sweep_expired. cbn [fst]. rewrite map_map. apply map_ext_in.
  intros [id rec] Hin%list_elem_of_In. apply elem_of_map_to_list, map_lookup_filter_Some in Hin as [Hl _].
  cbn. by destruct (li_lease _ _ _ Hinv _ _ Hl) as (_ & -> & _).
Qed.

Lemma step_ttl x y : lease_step x y -> ttl_ms (store y) = ttl_ms (store x).
Proof.
  intros Hs. destruct Hs as [x io_ok id fs s H _|x io_ok e fs s H _|x id path bytes now l s _ H
    |x id path bytes now e s _ H|x id _|x id now res s H|x id dirs s H|x now dirs s H|x dirs s H|x keep d t1 t2 Ht]; cbn; try done.
  - unfold reserve in H. cbn [take_id] in H. destruct (if io_ok then _ else _); by injection H as _ _ <-.
  - unfold reserve in H. cbn [take_id] in H. destruct (if io_ok then _ else _); by injection H as _ _ <-.
  - unfold commit in H. destruct (canonicalize_within _ _ _ _); [|done].
    destruct (canonicalize _ _); [|done]. by injection H as _ <-.
  - unfold commit in H. destruct (canonicalize_within _ _ _ _); [|by injection H as _ <-].
    destruct (canonicalize _ _); [done|by injection H as _ <-].
  - unfold renew in H. destruct (leases (store x) !! id); by injection H as _ <-.
  - unfold release in H. destruct (leases (store x) !! id); by injection H as _ <-.
  - by injection H as _ <-.
  - by injection H as _ <-.
Qed.

Lemma run_ttl s fs x : lease_run (start s fs) x -> ttl_ms (store x) = ttl_ms s.
Proof.
  intros Hrun. remember (start s fs) as x0 eqn:E. induction Hrun as [x|x y z _ IH Hs|x y fs' _ IH He].
  - by subst x.
  - rewrite <-(IH E). by apply step_ttl.
  - by apply IH.
Qed.

(** A lease that is renewed lives for the store's time
    from then on: a sweep before its expiry leaves its record and every file below
    its directory alone, and the first sweep at or after it forgets the lease and
    leaves nothing of its directory. *)
Theorem expired_leases_collected r tag ttl s0 fs x id now e s :
  opened r tag ttl s0 fs -> lease_run (start s0 fs) x ->
  renew id now (store x) = (Ok e, s) ->
  e = i64_saturating_add now (Z.min ttl i64_max)
  /\ (forall t, (t < e)%Z ->
       is_Some (leases (sweep_whole t (disk x) s).2 !! id)
       /\ forall p, dir_of s id `prefix_of` p -> (sweep_whole t (disk x) s).1 !! p = disk x !! p)
  /\ (forall t, (e <= t)%Z ->
       leases (sweep_whole t (disk x) s).2 !! id = None
       /\ forall p, dir_of s id `prefix_of` p -> (sweep_whole t (disk x) s).1 !! p = None).
Proof.
  intros Ho Hrun Hre. pose proof (run_inv _ _ _ _ _ _ Ho Hrun) as Hinv.
  pose proof (run_ttl _ _ _ Hrun) as Httl. rewrite (opened_store _ _ _ _ _ Ho) in Httl. cbn in Httl. unfold renew in Hre.
  destruct (leases (store x) !! id) as [rec|] eqn:El; [|done]. injection Hre as <- <-.
  unfold expires_at. rewrite Httl. split; [done|].
  set (e := i64_saturating_add now (Z.min ttl i64_max)).
  set (rec' := mk_record (local_path rec) (lease_dir rec) (size rec) e).
  set (y := mk_lworld (disk x) (set_leases (<[id := rec']> (leases (store x))) (store x)) (reserved x) (trash x)).
  assert (lease_inv r tag y) as Hy.
  { eapply lease_step_spec; [exact Hinv|]. apply (l_renew x id now (Ok e)).
    unfold renew. rewrite El. unfold expires_at. by rewrite Httl. }
  assert (leases (store y) !! id = Some rec') as Hid by apply lookup_insert_eq.
  pose proof (li_lease _ _ _ Hy _ _ Hid) as (Hrange & _).
  change (set_leases (<[id := rec']> (leases (store x))) (store x)) with (store y).
  unfold dir_of. rewrite (li_root _ _ _ Hy), (li_tag _ _ _ Hy).
  split; intros t Ht; unfold sweep_whole;
    pose proof (sweep_dirs r tag y t Hy) as Ed; destruct (sweep_expired t (store y)) as [dirs s'] eqn:Es;
    cbn [fst snd] in *; unfold sweep_expired in Es; injection Es as _ <-; subst dirs;
    destruct (foldl_remove r (map (fun kv => dir_name tag kv.1)
      (map_to_list (filter (fun kv => expired t kv.2 = true) (leases (store y))))) (disk x) (li_real _ _ _ Hinv))
      as [Hgone Hkept].
  - split.
    + exists rec'. apply map_lookup_filter_Some. split; [done|]. cbn. unfold expired. cbn. lia.
    + intros p Hp. apply Hkept. intros n Hn Hnp.
      apply list_elem_of_In, in_map_iff in Hn as ([j rj] & <- & Hin).
      apply list_elem_of_In, elem_of_map_to_list, map_lookup_filter_Some in Hin as [Hj He]. cbn in He, Hnp.
      pose proof (li_lease _ _ _ Hy _ _ Hj) as (Hrj & _). pose proof (li_next _ _ _ Hy).
      assert (id = j) as -> by (eapply dir_name_inj; [lia..|by eapply under_entry_unique]).
      assert (Some rj = Some rec') as [= ->] by exact (eq_trans (eq_sym Hj) Hid).
      unfold expired in He. cbn in He. lia.
  - split.
    + apply map_lookup_filter_None. right. intros rj Hj.
      assert (Some rj = Some rec') as [= ->] by exact (eq_trans (eq_sym Hj) Hid).
      cbn. unfold expired. cbn. lia.
    + intros p Hp. eapply Hgone; [|exact Hp]. apply list_elem_of_In, in_map_iff. exists (id, rec'). split; [done|].
      apply list_elem_of_In, elem_of_map_to_list, map_lookup_filter_Some. split; [done|]. cbn. unfold expired. cbn. lia.
Qed.

(** * Several instances over one root *)

(** The lock is the operating system's: free exactly when no live instance has it. *)
Record Instance := mk_instance { holds_lock : bool; inst_store : MaterializationStore }.

Record System := mk_system { sys_disk : FS; instances : list Instance }.

Definition try_lock (y : System) : TryLock :=
  if existsb holds_lock (instances y) then WouldBlock else Acquired.

(** A process starts: [new] from end to end. *)
Definition launch (keep : Path -> bool) (r : Path) (tag : str) (ttl : Z) (y : System) : System :=
  let lock := try_lock y in
  match new_store lock keep (sys_disk y) r tag ttl with
  | (Ok s, fs) =>
      mk_system fs (instances y ++ [mk_instance (bool_decide (lock = Acquired)) s])
  | (Err _, fs) => mk_system fs (instances y)
  end.

(** A process ends, and the lock with it if it had it. *)
Definition quit (i : nat) (y : System) : System := mk_system (sys_disk y) (delete i (instances y)).

Lemma create_dirs_grows rest fs cur fs' :
  create_dirs fs cur rest = Some fs' -> forall p n, fs !! p = Some n -> fs' !! p = Some n.
Proof.
  revert fs cur; induction rest as [|c rest IH]; intros fs cur; cbn [create_dirs]; [by intros [= <-]|].
  destruct (fs !! (cur ++ [c])) as [[b| |t]|] eqn:E; [done|..].
  - apply IH.
  - destruct (canonicalize fs (cur ++ [c])) as [q|]; [|done]. destruct (fs !! q) as [[]|]; try done. apply IH.
  - intros H p n Hp. eapply IH; [exact H|]. rewrite lookup_insert_ne; [done|]. intros <-. congruence.
Qed.

(** While the instance that has the lock lives, starting another removes nothing. *)
Lemma launch_keeps_while_locked keep r tag ttl y p n :
  existsb holds_lock (instances y) = true -> sys_disk y !! p = Some n ->
  sys_disk (launch keep r tag ttl y) !! p = Some n.
Proof.
  intros Hl Hp. unfold launch, try_lock. rewrite Hl. unfold new_store.
  destruct (create_dir_all (sys_disk y) r) as [fs|] eqn:E; cbn; [|done]. by eapply create_dirs_grows.
Qed.

Module LeasesExample.

Definition top : Path := [§"tmp"; §"leases"].
Definition fs0 : FS := {[ [§"tmp"] := DirNode; top := DirNode ]}.
Definition none : Path -> bool := fun _ => false.

(** A store made by the instance that has the lock. *)
Definition store0 : MaterializationStore := mk_store top §"7-ab" 1000 ∅ 1.

Definition reserved1 := reserve true fs0 store0.
Definition dir1 : Path := top ++ [dir_name §"7-ab" 1].
Definition file1 : Path := dir1 ++ [§"a.txt"].
Definition fs1 : FS := <[file1 := FileNode §"hello"]> reserved1.1.2.
Definition committed1 := commit fs1 1 file1 5 100 reserved1.2.
Definition world1 : LWorld := mk_lworld fs1 committed1.2 ∅ [].

Lemma fs0_real : real_dir fs0 top.
Proof.
  apply (real_snoc fs0 [§"tmp"] §"leases"); [apply (real_snoc fs0 [] §"tmp"); [constructor|]|];
    vm_compute; reflexivity.
Defined.

Lemma store0_opened : opened top §"7-ab" 1000 store0 fs0.
Proof.
  split; [|exact fs0_real|].
  { exists Acquired, none, fs0. vm_compute. reflexivity. }
  intros id _. unfold fs0.
  rewrite lookup_insert_ne by (intros H%(f_equal length); rewrite length_app in H; cbn in H; lia).
  apply lookup_singleton_None. intros H%(f_equal length). rewrite length_app in H. cbn in H. lia.
Defined.

Definition world0 : LWorld := start store0 fs0.
Definition reserved_world (fs : FS) : LWorld := mk_lworld fs reserved1.2 ({[ 1%Z ]} ∪ ∅) [].

Lemma reserve1 : reserve true (disk world0) (store world0) = (Ok 1%Z, reserved1.1.2, reserved1.2).
Proof.
  assert (reserved1.1.1 = Ok 1%Z) as E by (vm_compute; reflexivity).
  change (reserved1 = (Ok 1%Z, reserved1.1.2, reserved1.2)). by destruct reserved1 as [[? ?] ?]; cbn in *; subst.
Qed.

Lemma commit1 : commit (disk (reserved_world fs1)) 1 file1 5 100 (store (reserved_world fs1))
  = (Ok (mk_lease 1 file1 5 1100), committed1.2).
Proof. vm_compute. reflexivity. Qed.

(** Reserved, written into by the extraction, committed. *)
Lemma run1 : lease_run world0 world1.
Proof.
  assert (lease_step world0 (reserved_world reserved1.1.2)) as H1 by exact (l_reserve world0 true 1 _ _ reserve1 eq_refl).
  assert (lease_run world0 (reserved_world fs1)) as H2.
  { refine (run_env _ _ fs1 (run_step _ _ _ (run_refl _) H1) _). intros p Hp. unfold fs1. apply lookup_insert_ne.
    intros <-. destruct Hp as [Hp%prefix_length|[n Hn%(f_equal length)]]; vm_compute in *; lia. }
  assert (1%Z ∈ reserved (reserved_world fs1)) as Hin by (cbn; set_solver).
  pose proof (run_step _ _ _ H2 (l_commit (reserved_world fs1) 1 file1 5 100 _ _ Hin commit1)) as H3.
  enough (world1 = mk_lworld (disk (reserved_world fs1)) committed1.2 (reserved (reserved_world fs1) ∖ {[ 1%Z ]})
    (trash (reserved_world fs1))) as -> by exact H3.
  unfold world1. f_equal.
Qed.

Lemma lease_reads_stay_inside_witness :
  exists r dir q file, leases (store world1) !! 1%Z = Some r /\ canonicalize fs1 (lease_dir r) = Some dir
    /\ canonicalize fs1 (local_path r) = Some q /\ dir `prefix_of` q /\ real_path fs1 q
    /\ fs1 !! q = Some (FileNode file) /\ §"llo" = take 10 (drop 2 file).
Proof. apply (lease_reads_stay_inside fs1 (store world1) 1 2 10 §"llo"); [lia..|]. vm_compute. reflexivity. Defined.

Lemma lease_dirs_are_own_witness : disk world1 !! dir1 = Some DirNode.
Proof.
  apply (proj1 (lease_dirs_are_own top §"7-ab" 1000 store0 fs0 world1 store0_opened run1) 1%Z
    (mk_record file1 dir1 5 1100)). vm_compute. reflexivity.
Defined.

Lemma expired_leases_collected_witness :
  leases (sweep_whole 1500 fs1 (renew 1 500 (store world1)).2).2 !! 1%Z = None.
Proof.
  apply (expired_leases_collected top §"7-ab" 1000 store0 fs0 world1 1 500 1500
    (renew 1 500 (store world1)).2 store0_opened run1); [vm_compute; reflexivity|lia].
Defined.

(** A first instance starts and has the lock; a second starts beside it. *)
Definition two : System := launch none top §"8-cd" 1000 (launch none top §"7-ab" 1000 (mk_system fs0 [])).

(** The second extracts a file and commits the lease; the first ends. *)
Definition with_lease : System :=
  match instances two with
  | [a; b] =>
      let '(_, fs, s) := reserve true (sys_disk two) (inst_store b) in
      let path := dir_of s 1 ++ [§"a.txt"] in
      let fs' := <[path := FileNode §"hello"]> fs in
      quit 0 (mk_system fs' [a; mk_instance (holds_lock b) (commit fs' 1 path 5 100 s).2])
  | _ => two
  end.

Definition read_all (y : System) (i : nat) (id : Z) : option (result LeaseError str) :=
  inst ← instances y !! i; Some (read_range (sys_disk y) (sys_disk y) (sys_disk y) (inst_store inst) id 0 100).

(** An instance started while another has the
    lock never gets it, also not when the other ends: a third instance then takes
    the lock and clears the root, and the lease that the second, still running
    instance has and could read before is a lease without a directory. *)
Theorem third_instance_clears_live_leases :
  map holds_lock (instances two) = [true; false]
  /\ read_all with_lease 0 1 = Some (Ok §"hello")
  /\ let third := launch none top §"9-ef" 1000 with_lease in
     map holds_lock (instances third) = [false; true]
     /\ (exists inst l, instances third !! 0%nat = Some inst /\ get (inst_store inst) 1 = Ok l)
     /\ read_all third 0 1 = Some (Err DirectoryIo).
Proof.
  split; [vm_compute; reflexivity|]. split; [vm_compute; reflexivity|]. cbv zeta.
  split; [vm_compute; reflexivity|]. split; [|vm_compute; reflexivity].
  eexists _, _. split; vm_compute; reflexivity.
Qed.

End LeasesExample.
