(* ===== verification/Multipart.v ===== *)
(** Split archives ([crates/core/src/archive/multipart.rs] and its mirror
    [crates/app/src/archive/multipart.rs]): which file names belong to a set, and
    which files of the directory are its parts.

    Names are matched with the [regex] crate, which is a parameter: a class gives
    the captures of a pattern, and its laws say that they are the captures of a
    match. A directory is the list of its entries' names, read anew by every probe. *)

From stdpp Require Import base tactics option list gmap sorting strings.
From Stdlib Require Import ZArith Lia Ascii.
From S2P Require Import Prelude Text RustPath.

Open Scope arclain_scope.

#[local] Arguments String.list_ascii_of_string : simpl never.

(** * Patterns *)

(** [word\d{min,max}] inside the second group. *)
Record Alternative := mk_alt { word : str; min_digits : nat; max_digits : option nat }.

(** [^(.+)lead(alternatives)trail$]. *)
Record Pattern := mk_pattern { lead : str; alternatives : list Alternative; trail : str }.

Class RegexCrate := {
  (** whether an encoded character has the property Nd, which [\d] stands for *)
  is_decimal : str -> bool;
  captures : Pattern -> str -> option (str * str)
}.

Definition newline : ascii := "010"%char.

Section matches.
Context {RC : RegexCrate}.

Definition digit_run (a : Alternative) (ds : str) : bool :=
  let n := length (chars ds) in
  forallb is_decimal (chars ds) && (min_digits a <=? n)%nat
  && match max_digits a with Some hi => (n <=? hi)%nat | None => true end.

Definition alternative_matches (e : str) (a : Alternative) : bool :=
  match strip_prefix (word a) e with Some ds => digit_run a ds | None => false end.

(** [b] and [e] are what the two groups hold in a match of the whole text. *)
Definition matches (p : Pattern) (s b e : str) : Prop :=
  s = b ++ lead p ++ e ++ trail p /\ b <> [] /\ newline ∉ b
  /\ existsb (alternative_matches e) (alternatives p) = true.

End matches.

(** What the crate's documentation promises, as far as these patterns go. *)
Class RegexLaws (RC : RegexCrate) := {
  decimal_ascii c : (code c < 128)%N -> is_decimal [c] = is_digit c;
  decimal_utf8 ch : is_decimal ch = true -> utf8_char_ok ch = true;
  captures_sound p s b e : captures p s = Some (b, e) -> matches p s b e;
  captures_complete p s b e : captures p s = None -> ~ matches p s b e
}.

(** * Sets *)

Inductive MultiPartFormat := RarPart | RarSequence | SevenZip | ZipSplit | Generic001.

#[export] Instance MultiPartFormat_eq_dec : EqDecision MultiPartFormat.
Proof. solve_decision. Defined.

Record MultiPartArchive := mk_multipart {
  first_part : str;
  all_parts : list str;
  format : MultiPartFormat;
  base_name : str
}.

Record ValidationResult := mk_validation {
  is_complete : bool;
  found_parts : list str;
  missing_parts : list str;
  total_size : Z
}.

(** The names of the members. *)
Definition rar_part_name (base : str) (n : Z) : str := base ++ §".part" ++ decimal (Z.to_N n) ++ §".rar".
Definition rar_volume_name (base : str) (width : nat) (n : Z) : str := base ++ §".r" ++ padded width n.
Definition sevenz_name (base : str) (n : Z) : str := base ++ §".7z." ++ padded 3 n.
Definition zip_name (base : str) (n : Z) : str := base ++ §".z" ++ padded 2 n.
Definition generic_name (base : str) (n : Z) : str := base ++ §"." ++ padded 3 n.

Section multipart.
Context {UT : UnicodeTables} {RC : RegexCrate}.
(** [read_dir]: the names in a directory, in any order. *)
Context (read_dir : str -> option (list str)).

(** The first entry whose name, if it is text, is the wanted one in lower case. *)
Fixpoint find_lower (name_lower : str) (names : list str) : option str :=
  match names with
  | [] => None
  | n :: names' =>
      if utf8_valid n && str_eqb (to_lowercase n) name_lower then Some n
      else find_lower name_lower names'
  end.

Definition resolve_ignoring_case (parent name_lower : str) : option str :=
  names ← read_dir parent;
  path_join parent <$> find_lower name_lower names.

Definition resolve_or_literal (parent name_lower : str) : str :=
  match resolve_ignoring_case parent name_lower with
  | Some p => p
  | None => path_join parent name_lower
  end.

(** ** Detection *)

Definition rar_part_pattern : Pattern := mk_pattern §".part" [mk_alt [] 1 None] §".rar".
Definition rar_sequence_pattern : Pattern :=
  mk_pattern §"." [mk_alt §"rar" 0 (Some 0); mk_alt §"r" 2 (Some 3)] [].
Definition sevenz_pattern : Pattern := mk_pattern §".7z." [mk_alt [] 3 (Some 3)] [].
Definition zip_pattern : Pattern :=
  mk_pattern §"." [mk_alt §"z" 2 (Some 2); mk_alt §"zip" 0 (Some 0)] [].
Definition generic_pattern : Pattern := mk_pattern §"." [mk_alt [] 3 (Some 3)] [].

Definition detect_rar_part (path filename_lower : str) : option MultiPartArchive :=
  '(base, digits) ← captures rar_part_pattern filename_lower;
  _part_num ← parse_u32 digits;
  dir ← parent path;
  Some (mk_multipart (resolve_or_literal dir (base ++ §".part1.rar")) [] RarPart base).

Definition detect_rar_sequence (path filename_lower : str) : option MultiPartArchive :=
  '(base, ext) ← captures rar_sequence_pattern filename_lower;
  _ ← (if str_eqb ext §"rar" then
         dir ← parent path; _found ← resolve_ignoring_case dir (base ++ §".r00"); Some tt
       else Some tt);
  dir ← parent path;
  Some (mk_multipart (resolve_or_literal dir (base ++ §".rar")) [] RarSequence base).

Definition detect_7z_split (path filename_lower : str) : option MultiPartArchive :=
  '(base, _) ← captures sevenz_pattern filename_lower;
  dir ← parent path;
  Some (mk_multipart (resolve_or_literal dir (base ++ §".7z.001")) [] SevenZip base).

Definition detect_zip_split (path filename_lower : str) : option MultiPartArchive :=
  '(base, ext) ← captures zip_pattern filename_lower;
  _ ← (if str_eqb ext §"zip" then
         dir ← parent path; _found ← resolve_ignoring_case dir (base ++ §".z01"); Some tt
       else Some tt);
  dir ← parent path;
  Some (mk_multipart (resolve_or_literal dir (base ++ §".zip")) [] ZipSplit base).

Definition detect_generic_001 (path filename_lower : str) : option MultiPartArchive :=
  '(base, digits) ← captures generic_pattern filename_lower;
  part_num ← parse_u32 digits;
  if (part_num =? 0)%Z || (999 <? part_num)%Z then None
  else
    dir ← parent path;
    Some (mk_multipart (resolve_or_literal dir (base ++ §".001")) [] Generic001 base).

Definition or_else {A} (o k : option A) : option A := match o with Some a => Some a | None => k end.

Definition detect (path : str) : option MultiPartArchive :=
  filename ← file_name path;
  if negb (utf8_valid filename) then None
  else
    let lower := to_lowercase filename in
    or_else (detect_rar_part path lower)
      (or_else (detect_rar_sequence path lower)
        (or_else (detect_7z_split path lower)
          (or_else (detect_zip_split path lower) (detect_generic_001 path lower)))).

(** ** Enumeration *)

Inductive FindError := NoParentDirectory | Unfinished.

Definition u32_max : Z := 4294967295.

(** One of the loops: members are probed from [num] on until one is not there.
    [Unfinished] is a loop that the fuel, or the counter's width, cut short. *)
Fixpoint probe (fuel : nat) (find : Z -> option str) (num : Z) : result FindError (list str) :=
  match find num with
  | None => Ok []
  | Some part_path =>
      if (num =? u32_max)%Z then Err Unfinished
      else match fuel with
           | O => Err Unfinished
           | S fuel' => let? rest := probe fuel' find (num + 1) in Ok (part_path :: rest)
           end
  end.

Definition find_rar_part_files (fuel : nat) (dir base : str) : result FindError (list str) :=
  probe fuel (fun n => resolve_ignoring_case dir (rar_part_name base n)) 1.

Definition find_volume (dir base : str) (n : Z) : option str :=
  or_else (resolve_ignoring_case dir (rar_volume_name base 2 n))
          (resolve_ignoring_case dir (rar_volume_name base 3 n)).

Definition opt_list {A} (o : option A) : list A := match o with Some a => [a] | None => [] end.

Definition find_rar_sequence_files (fuel : nat) (dir base : str) : result FindError (list str) :=
  let rar := opt_list (resolve_ignoring_case dir (base ++ §".rar")) in
  let? volumes := probe fuel (fun n => find_volume dir base n) 0 in
  Ok (rar ++ volumes).

Definition find_7z_split_files (fuel : nat) (dir base : str) : result FindError (list str) :=
  probe fuel (fun n => resolve_ignoring_case dir (sevenz_name base n)) 1.

Definition find_zip_split_files (fuel : nat) (dir base : str) : result FindError (list str) :=
  let? parts := probe fuel (fun n => resolve_ignoring_case dir (zip_name base n)) 1 in
  Ok (parts ++ opt_list (resolve_ignoring_case dir (base ++ §".zip"))).

Definition find_generic_001_files (fuel : nat) (dir base : str) : result FindError (list str) :=
  probe fuel (fun n => resolve_ignoring_case dir (generic_name base n)) 1.

(** As many rounds as the directory has entries are enough ([parts_are_the_run]). *)
Definition probe_fuel (dir : str) : nat := length (default [] (read_dir dir)).

Definition find_all_parts (m : MultiPartArchive) : result FindError MultiPartArchive :=
  let? dir := ok_or (parent (first_part m)) NoParentDirectory in
  let fuel := probe_fuel dir in
  let? parts :=
    match format m with
    | RarPart => find_rar_part_files fuel dir (base_name m)
    | RarSequence => find_rar_sequence_files fuel dir (base_name m)
    | SevenZip => find_7z_split_files fuel dir (base_name m)
    | ZipSplit => find_zip_split_files fuel dir (base_name m)
    | Generic001 => find_generic_001_files fuel dir (base_name m)
    end in
  Ok (mk_multipart (first_part m) parts (format m) (base_name m)).

Definition find_missing_parts (m : MultiPartArchive) : list str := [].

(** [metadata]: the length of a file, if it can be asked for; the sum is the
    release build's. *)
Definition validate (file_len : str -> option Z) (m : MultiPartArchive)
  : result FindError (ValidationResult * MultiPartArchive) :=
  let? m' := match all_parts m with [] => find_all_parts m | _ => Ok m end in
  let found := all_parts m' in
  let total := foldl wrapping_add 0%Z (omap file_len found) in
  let missing := find_missing_parts m' in
  Ok (mk_validation (bool_decide (missing = []) && negb (bool_decide (found = []))) found missing total, m').

Definition part_count (m : MultiPartArchive) : nat := length (all_parts m).

Definition is_multipart (m : MultiPartArchive) : bool := (1 <? length (all_parts m))%nat.

Definition is_multipart_archive (path : str) : bool := bool_decide (is_Some (detect path)).

(** The facade's description of the set. *)
Record MultiPartArchiveDto := mk_dto {
  dto_first_part : str;
  dto_base_name : str;
  dto_format : MultiPartFormat;
  parts : list str
}.

Definition detect_multipart (path : str) : option MultiPartArchiveDto :=
  detected ← detect path;
  let parts := match find_all_parts detected with Ok m => all_parts m | Err _ => [] end in
  Some (mk_dto (first_part detected) (base_name detected) (format detected) parts).

End multipart.

(** * Numbers in names *)

Lemma parse_digits_value s a v : parse_digits s a = Some v -> digits_value s a = Some v.
Proof.
  revert a; induction s as [|c s IH]; intros a; cbn; [done|].
  destruct (is_digit c); [|done]. destruct (_ <=? _)%Z; [apply IH|done].
Qed.

Lemma decimal_digits n :
  Forall (fun c => is_digit c = true) (decimal n) /\ decimal n <> []
  /\ ((Z.of_N n <= u64_max)%Z -> digits_value (decimal n) 0 = Some (Z.of_N n)).
Proof.
  destruct (decimal_spec n) as (c & ds & E & Hd & Hp). rewrite E in *. split_and!; [done..|].
  intros Hn. specialize (Hp Hn). apply parse_digits_value.
  unfold parse_usize in Hp. destruct (ascii_eqb c "+") eqn:Ec; [|done].
  apply ascii_eqb_eq in Ec as ->. apply Forall_cons in Hd as [Hd _]. discriminate Hd.
Qed.

Lemma zeros_value k s : digits_value (replicate k "0"%char ++ s) 0 = digits_value s 0.
Proof. induction k as [|k IH]; [done|exact IH]. Qed.

Lemma padded_digits width n :
  Forall (fun c => is_digit c = true) (padded width n) /\ padded width n <> []
  /\ ((0 <= n <= u64_max)%Z -> digits_value (padded width n) 0 = Some n).
Proof.
  destruct (decimal_digits (Z.to_N n)) as (Hd & Hne & Hv). unfold padded. cbv zeta. split_and!.
  - apply Forall_app. split; [|done]. by apply Forall_replicate.
  - intros [_ ?]%app_eq_nil. done.
  - intros Hn. rewrite zeros_value, Hv by lia. f_equal. lia.
Qed.

Lemma padded_inj w1 w2 n1 n2 :
  (0 <= n1 <= u64_max)%Z -> (0 <= n2 <= u64_max)%Z -> padded w1 n1 = padded w2 n2 -> n1 = n2.
Proof.
  intros H1 H2 E. destruct (padded_digits w1 n1) as (_ & _ & V1), (padded_digits w2 n2) as (_ & _ & V2).
  rewrite E, V2 in V1 by done. specialize (V1 H1). by simplify_eq.
Qed.

Lemma padded_length width n :
  (width, n) ∈ ((fun k => (2, Z.of_nat k)) <$> seq 0 100) ++ ((fun k => (3, Z.of_nat k)) <$> seq 0 1000) ->
  length (padded width n) = width.
Proof.
  assert (forallb (fun p => (length (padded p.1 p.2) =? p.1)%nat)
    (((fun k => (2, Z.of_nat k)) <$> seq 0 100) ++ ((fun k => (3, Z.of_nat k)) <$> seq 0 1000)) = true) as H
    by (vm_compute; reflexivity).
  intros Hin. rewrite forallb_forall in H. apply list_elem_of_In in Hin. apply H in Hin. by apply Nat.eqb_eq in Hin.
Qed.

Lemma padded_2_wide n : (0 <= n <= 999)%Z -> 2 <= length (padded 2 n) <= 3.
Proof.
  assert (forallb (fun k => let l := length (padded 2 (Z.of_nat k)) in (2 <=? l)%nat && (l <=? 3)%nat)
    (seq 0 1000) = true) as H by (vm_compute; reflexivity).
  intros Hn. rewrite forallb_forall in H. specialize (H (Z.to_nat n)). rewrite Z2Nat.id in H by lia.
  apply andb_true_iff in H as [?%Nat.leb_le ?%Nat.leb_le]; [done|]. apply in_seq. lia.
Qed.

Lemma padded_2 n : (0 <= n <= 99)%Z -> length (padded 2 n) = 2.
Proof.
  intros Hn. apply padded_length, elem_of_app. left. apply list_elem_of_fmap. exists (Z.to_nat n).
  rewrite elem_of_seq. split; [f_equal|]; lia.
Qed.

Lemma padded_3 n : (0 <= n <= 999)%Z -> length (padded 3 n) = 3.
Proof.
  intros Hn. apply padded_length, elem_of_app. right. apply list_elem_of_fmap. exists (Z.to_nat n).
  rewrite elem_of_seq. split; [f_equal|]; lia.
Qed.

(** * Names decompose in one way *)

Definition dot_free (s : str) : Prop := "."%char ∉ s.

Lemma last_dot_unique (l r l' r' : str) :
  l ++ "."%char :: r = l' ++ "."%char :: r' -> dot_free r -> dot_free r' -> l = l' /\ r = r'.
Proof.
  revert l'; induction l as [|c l IH]; intros [|c' l'] E Hr Hr'; cbn in E; simplify_eq; [done|..].
  - exfalso. apply Hr. set_solver.
  - exfalso. apply Hr'. set_solver.
  - destruct (IH l') as [-> ->]; done.
Qed.

Lemma digit_not_dot c : is_digit c = true -> c <> "."%char.
Proof. by intros H ->. Qed.

Lemma digits_dot_free s : Forall (fun c => is_digit c = true) s -> dot_free s.
Proof. intros H Hin. rewrite Forall_forall in H. by apply H in Hin. Qed.

Lemma chars_digits s : Forall (fun c => is_digit c = true) s -> chars s = map (fun c => [c]) s.
Proof.
  intros H. unfold chars. induction H as [|c s Hc _ IH]; [done|]. cbn [length chars_fuel].
  assert (char_width c = 1) as ->; [|cbn [take drop map]; by rewrite <-IH].
  unfold char_width, is_digit in *. destruct (N.ltb_spec (code c) 128); [done|].
  apply andb_true_iff in Hc as [_ Hc%N.leb_le]. lia.
Qed.

Definition good_pattern (p : Pattern) : Prop :=
  exists pre post, lead p = pre ++ "."%char :: post /\ dot_free post
    /\ Forall (fun a => dot_free (word a)) (alternatives p).

Lemma patterns_good :
  Forall good_pattern [rar_part_pattern; rar_sequence_pattern; sevenz_pattern; zip_pattern; generic_pattern].
Proof.
  assert (forall s, bool_decide (dot_free s) = true -> dot_free s) as D by (intros s; apply bool_decide_eq_true).
  repeat constructor.
  - exists [], §"part". split_and!; [done|by apply D|repeat constructor; by apply D].
  - exists [], []. split_and!; [done|by apply D|repeat constructor; by apply D].
  - exists §".7z", []. split_and!; [done|by apply D|repeat constructor; by apply D].
  - exists [], []. split_and!; [done|by apply D|repeat constructor; by apply D].
  - exists [], []. split_and!; [done|by apply D|repeat constructor; by apply D].
Qed.

Section captures.
Context {RC : RegexCrate} {RL : RegexLaws RC}.

Lemma high_byte_not_dot c : (128 <=? code c)%N = true -> c <> "."%char.
Proof. by intros H ->. Qed.

Lemma decimal_dot_free ch : is_decimal ch = true -> dot_free ch.
Proof.
  intros Hd. pose proof (decimal_utf8 _ Hd) as Hu. unfold dot_free.
  assert (forall c, is_continuation c = true -> c <> "."%char) as Hc by (by intros c H ->).
  destruct ch as [|a [|b [|c [|d [|]]]]]; try done; cbn in Hu.
  - rewrite list_elem_of_singleton. intros <-. rewrite decimal_ascii in Hd; done.
  - apply andb_true_iff in Hu as [Ha Hb]. rewrite !elem_of_cons. intros [<-|[<-|[]%elem_of_nil]]; done.
  - repeat (apply andb_true_iff in Hu as [Hu ?] || apply orb_true_iff in Hu as [Hu|Hu]);
      rewrite !elem_of_cons; by intros [<-|[<-|[<-|[]%elem_of_nil]]].
  - repeat (apply andb_true_iff in Hu as [Hu ?] || apply orb_true_iff in Hu as [Hu|Hu]);
      rewrite !elem_of_cons; by intros [<-|[<-|[<-|[<-|[]%elem_of_nil]]]].
Qed.

Lemma digit_run_dot_free a ds : digit_run a ds = true -> dot_free ds.
Proof.
  unfold digit_run. intros [[H _]%andb_true_iff _]%andb_true_iff Hin. rewrite <-(concat_chars ds) in Hin.
  apply list_elem_of_In, in_concat in Hin as (ch & Hch & Hin). rewrite forallb_forall in H.
  apply (decimal_dot_free ch); [by apply H|by apply list_elem_of_In].
Qed.

Lemma matches_dot_free p s b e : good_pattern p -> matches p s b e -> dot_free e.
Proof.
  intros (_ & _ & _ & _ & Hw) (_ & _ & _ & (a & Ha & Hm)%existsb_exists). unfold alternative_matches in Hm.
  destruct (strip_prefix (word a) e) as [ds|] eqn:E; [|done]. apply strip_prefix_spec in E as ->.
  unfold dot_free. rewrite elem_of_app. intros [H|H]; [|by eapply digit_run_dot_free].
  rewrite Forall_forall in Hw. by eapply Hw; [apply list_elem_of_In|].
Qed.

Lemma matches_unique p s b e b' e' :
  good_pattern p -> matches p s b e -> matches p s b' e' -> b = b' /\ e = e'.
Proof.
  intros Hg H1 H2. pose proof (matches_dot_free _ _ _ _ Hg H1) as D1.
  pose proof (matches_dot_free _ _ _ _ Hg H2) as D2.
  destruct H1 as [-> _], H2 as [E _], Hg as (pre & post & Hl & Hp & _). rewrite Hl in E.
  rewrite !app_assoc in E. apply app_inv_tail in E. rewrite <-!app_assoc in E. cbn [app] in E.
  rewrite (app_assoc b), (app_assoc b') in E.
  apply last_dot_unique in E as [E1 E2]; [|unfold dot_free; set_solver..].
  apply app_inv_tail in E1. by apply app_inv_head in E2.
Qed.

Lemma captures_some p s b e : good_pattern p -> matches p s b e -> captures p s = Some (b, e).
Proof.
  intros Hg Hm. destruct (captures p s) as [[b' e']|] eqn:E.
  - pose proof (captures_sound _ _ _ _ E) as Hm'. by destruct (matches_unique _ _ _ _ _ _ Hg Hm Hm') as [-> ->].
  - by destruct (captures_complete _ _ _ _ E Hm).
Qed.

Lemma captures_none p s : (forall b e, ~ matches p s b e) -> captures p s = None.
Proof.
  intros H. destruct (captures p s) as [[b e]|] eqn:E; [|done]. by destruct (H b e); apply captures_sound.
Qed.

(** A run of ASCII digits of the right length is what [\d{lo,hi}] takes. *)
Lemma digit_run_digits w lo hi ds :
  Forall (fun c => is_digit c = true) ds -> lo <= length ds -> (forall h, hi = Some h -> length ds <= h) ->
  digit_run (mk_alt w lo hi) ds = true.
Proof.
  intros Hd Hlo Hhi. unfold digit_run. cbn [min_digits max_digits]. rewrite chars_digits, length_map by done.
  apply andb_true_iff. split; [apply andb_true_iff; split|].
  - rewrite forallb_forall. intros ch (c & <- & Hc)%in_map_iff. rewrite Forall_forall in Hd.
    apply list_elem_of_In, Hd in Hc. rewrite decimal_ascii; [done|].
    unfold is_digit in Hc. apply andb_true_iff in Hc as [_ Hc%N.leb_le]. lia.
  - by apply Nat.leb_le.
  - destruct hi as [h|]; [|done]. apply Nat.leb_le. by apply Hhi.
Qed.

(** The other way: a run that is not empty opens with a decimal digit. *)
Lemma digit_run_head w lo hi c ds :
  digit_run (mk_alt w lo hi) (c :: ds) = true -> (code c < 128)%N -> is_digit c = true.
Proof.
  unfold digit_run. intros [[H _]%andb_true_iff _]%andb_true_iff Hc. unfold chars in H. cbn [length chars_fuel forallb] in H.
  apply andb_true_iff in H as [H _]. unfold char_width in H. rewrite (proj2 (N.ltb_lt _ _) Hc) in H. cbn [take] in H.
  by rewrite decimal_ascii in H.
Qed.

End captures.

(** * The parts of a set *)

(** The names a set's member number [n] may have, its first number, and the number
    of the last member that a pattern of the detection still covers. *)
Definition member_names (f : MultiPartFormat) (base : str) (n : Z) : list str :=
  match f with
  | RarPart => [rar_part_name base n]
  | RarSequence => [rar_volume_name base 2 n; rar_volume_name base 3 n]
  | SevenZip => [sevenz_name base n]
  | ZipSplit => [zip_name base n]
  | Generic001 => [generic_name base n]
  end.

Definition first_number (f : MultiPartFormat) : Z := match f with RarSequence => 0 | _ => 1 end.

Definition last_number (f : MultiPartFormat) : Z :=
  match f with RarPart => u32_max | ZipSplit => 99 | _ => 999 end.

Lemma member_names_inj f base n n' x :
  (0 <= n <= u64_max)%Z -> (0 <= n' <= u64_max)%Z ->
  x ∈ member_names f base n -> x ∈ member_names f base n' -> n = n'.
Proof.
  intros Hn Hn'. destruct f; cbn [member_names];
    [| rewrite !elem_of_cons, !elem_of_nil | | |]; rewrite ?list_elem_of_singleton.
  - intros -> E. unfold rar_part_name in E. apply app_inv_head, app_inv_head, app_inv_tail in E.
    apply decimal_inj in E; lia.
  - unfold rar_volume_name. intros [->|[->|[]]] [E|[E|[]]]; apply app_inv_head, app_inv_head in E;
      by eapply padded_inj.
  - unfold sevenz_name. intros -> E. apply app_inv_head, app_inv_head in E. by eapply padded_inj.
  - unfold zip_name. intros -> E. apply app_inv_head, app_inv_head in E. by eapply padded_inj.
  - unfold generic_name. intros -> E. apply app_inv_head, app_inv_head in E. by eapply padded_inj.
Qed.

(** Probing ends with the first member that is missing: every member found is
    another entry, so the entries run out. *)
Lemma probe_total (find : Z -> option str) (names : list str) (R : Z -> str -> Prop) fuel num used :
  (forall n p, (0 <= n <= u64_max)%Z -> find n = Some p -> exists x, x ∈ names /\ R n x) ->
  (forall n n' x, (0 <= n <= u64_max)%Z -> (0 <= n' <= u64_max)%Z -> R n x -> R n' x -> n = n') ->
  NoDup used -> used ⊆ names -> (forall x, x ∈ used -> exists n, (0 <= n < num)%Z /\ R n x) ->
  length names <= length used + fuel -> (0 <= num)%Z -> (num + Z.of_nat fuel <= u32_max)%Z ->
  exists run, probe fuel find num = Ok run /\ length run <= fuel
    /\ (forall i, i < length run -> find (num + Z.of_nat i)%Z = run !! i)
    /\ find (num + Z.of_nat (length run))%Z = None.
Proof.
  intros Hfind Hinj. unfold u32_max, u64_max in *. revert num used.
  induction fuel as [|fuel IH]; intros num used Hnd Hsub Hused Hlen H0 Hmax; cbn [probe];
    destruct (find num) as [p|] eqn:E;
    try (exists []; cbn; rewrite Z.add_0_r; split_and!; [done|lia|lia|done]).
  all: destruct (Hfind num p) as (x & Hx & HR); [lia|done|].
  all: assert (x ∉ used) as Hfresh by (intros (n & Hn & HR')%Hused; assert (n = num) by (eapply Hinj; eauto; lia); lia).
  all: assert (NoDup (x :: used)) as Hnd' by (by constructor).
  all: assert (x :: used ⊆ names) as Hsub' by set_solver.
  all: pose proof (submseteq_length _ _ (NoDup_submseteq _ _ Hnd' Hsub')) as Hle; cbn in Hle.
  { lia. }
  unfold u32_max. rewrite (proj2 (Z.eqb_neq _ _)) by lia.
  destruct (IH (num + 1)%Z (x :: used)) as (run & -> & Hl & Hr & Hend); [done|done| |cbn; lia..|].
  { intros y [->|Hy]%elem_of_cons; [exists num; split; [lia|done]|].
    destruct (Hused y Hy) as (n & ? & ?). exists n. split; [lia|done]. }
  exists (p :: run). cbn [rbind length]. split_and!; [done|lia| |].
  - intros [|i] Hi; cbn [lookup list_lookup]; [by rewrite Z.add_0_r|]. rewrite <-Hr by lia. f_equal. lia.
  - rewrite <-Hend. f_equal. lia.
Qed.

Section parts.
Context {UT : UnicodeTables} {RC : RegexCrate}.
Context (read_dir : str -> option (list str)).

Notation resolve_ignoring_case := (resolve_ignoring_case read_dir).

Lemma find_lower_spec name names n :
  find_lower name names = Some n -> n ∈ names /\ utf8_valid n = true /\ to_lowercase n = name.
Proof.
  induction names as [|m names IH]; cbn; [done|]. destruct (_ && _) eqn:E.
  - intros [= ->]. apply andb_true_iff in E as [? ?%str_eqb_eq]. split; [by left|done].
  - intros (? & ?)%IH. split; [by right|done].
Qed.

(** The directory entry that stands for a wanted name. *)
Definition entry_of (dir name x : str) : Prop :=
  exists names, read_dir dir = Some names /\ x ∈ names /\ utf8_valid x = true /\ to_lowercase x = name.

Lemma resolve_spec dir name p :
  resolve_ignoring_case dir name = Some p -> exists x, entry_of dir name x /\ p = path_join dir x.
Proof.
  unfold Multipart.resolve_ignoring_case. destruct (read_dir dir) as [names|] eqn:Ed; cbn; [|done].
  destruct (find_lower name names) as [x|] eqn:E; cbn; [|done]. intros [= <-].
  apply find_lower_spec in E. exists x. split; [by exists names|done].
Qed.

(** The member number [n], as the loops look for it. *)
Definition find_member (dir : str) (m : MultiPartArchive) (n : Z) : option str :=
  match format m with
  | RarPart => resolve_ignoring_case dir (rar_part_name (base_name m) n)
  | RarSequence => find_volume read_dir dir (base_name m) n
  | SevenZip => resolve_ignoring_case dir (sevenz_name (base_name m) n)
  | ZipSplit => resolve_ignoring_case dir (zip_name (base_name m) n)
  | Generic001 => resolve_ignoring_case dir (generic_name (base_name m) n)
  end.

Definition opening (dir : str) (m : MultiPartArchive) : list str :=
  match format m with RarSequence => opt_list (resolve_ignoring_case dir (base_name m ++ §".rar")) | _ => [] end.

Definition closing (dir : str) (m : MultiPartArchive) : list str :=
  match format m with ZipSplit => opt_list (resolve_ignoring_case dir (base_name m ++ §".zip")) | _ => [] end.

Lemma find_member_spec dir m n p :
  find_member dir m n = Some p ->
  exists name x, name ∈ member_names (format m) (base_name m) n /\ entry_of dir name x /\ p = path_join dir x.
Proof.
  unfold find_member, find_volume. destruct (format m); cbn [member_names];
    try (intros (x & Hx & ->)%resolve_spec; eexists _, x; split_and!; [by left|done|done]).
  destruct (resolve_ignoring_case dir (rar_volume_name (base_name m) 2 n)) eqn:E; cbn [or_else].
  - intros [= <-]. apply resolve_spec in E as (x & Hx & ->). eexists _, x. split_and!; [by left|done|done].
  - intros (x & Hx & ->)%resolve_spec. eexists _, x. split_and!; [by right; left|done|done].
Qed.

Lemma find_all_parts_run m dir :
  parent (first_part m) = Some dir -> (Z.of_nat (probe_fuel read_dir dir) < u32_max)%Z ->
  exists run,
    find_all_parts read_dir m
    = Ok (mk_multipart (first_part m) (opening dir m ++ run ++ closing dir m) (format m) (base_name m))
    /\ length run <= probe_fuel read_dir dir
    /\ (forall i, i < length run -> find_member dir m (first_number (format m) + Z.of_nat i) = run !! i)
    /\ find_member dir m (first_number (format m) + Z.of_nat (length run)) = None.
Proof.
  intros Hp Hmax.
  destruct (probe_total (find_member dir m) (default [] (read_dir dir))
    (fun n x => to_lowercase x ∈ member_names (format m) (base_name m) n)
    (probe_fuel read_dir dir) (first_number (format m)) []) as (run & Hrun & Hl & Hr & Hend).
  - intros n p _ (name & x & Hname & (names & Hd & Hx & _ & <-) & _)%find_member_spec. exists x. by rewrite Hd.
  - intros n n' x Hn Hn'. by apply member_names_inj.
  - constructor.
  - apply list_subseteq_nil.
  - by intros x ?%elem_of_nil.
  - done.
  - destruct (format m); done.
  - destruct (format m); cbn; lia.
  - exists run. split; [|done]. unfold find_all_parts. rewrite Hp. cbn [ok_or rbind]. cbv zeta.
    revert Hrun. unfold find_member, opening, closing. destruct (format m) eqn:Ef; cbn [first_number]; intros Hrun;
      unfold find_rar_part_files, find_rar_sequence_files, find_7z_split_files, find_zip_split_files,
        find_generic_001_files; rewrite ?app_nil_r, Hrun; done.
Qed.

End parts.

(** * Detection *)

Definition pattern_of (f : MultiPartFormat) : Pattern :=
  match f with
  | RarPart => rar_part_pattern
  | RarSequence => rar_sequence_pattern
  | SevenZip => sevenz_pattern
  | ZipSplit => zip_pattern
  | Generic001 => generic_pattern
  end.

Definition first_suffix (f : MultiPartFormat) : str :=
  match f with
  | RarPart => §".part1.rar"
  | RarSequence => §".rar"
  | SevenZip => §".7z.001"
  | ZipSplit => §".zip"
  | Generic001 => §".001"
  end.

(** Lower-casing a name makes no separator. *)
Class LowercaseLaws (UT : UnicodeTables) :=
  lowercase_slash s : Forall (fun c => is_slash c = false) s -> Forall (fun c => is_slash c = false) (to_lowercase s).

Section detection.
Context {UT : UnicodeTables} {RC : RegexCrate} {RL : RegexLaws RC} {LL : LowercaseLaws UT}.
Context (read_dir : str -> option (list str)).
Context (entries_plain : forall dir names, read_dir dir = Some names -> Forall plain_name names).

Lemma pattern_good f : good_pattern (pattern_of f).
Proof.
  pose proof patterns_good as H. repeat (apply Forall_cons in H as [? H]). by destruct f.
Qed.

Lemma or_else_some {A} (o k : option A) a :
  or_else o k = Some a -> o = Some a \/ (o = None /\ k = Some a).
Proof. destruct o; cbn; auto. Qed.

Lemma detect_inv path m :
  detect read_dir path = Some m ->
  exists fn dir e, file_name path = Some fn /\ parent path = Some dir
    /\ m = mk_multipart (resolve_or_literal read_dir dir (base_name m ++ first_suffix (format m))) []
              (format m) (base_name m)
    /\ matches (pattern_of (format m)) (to_lowercase fn) (base_name m) e
    /\ (format m = Generic001 -> captures sevenz_pattern (to_lowercase fn) = None).
Proof.
  unfold detect. destruct (file_name path) as [fn|]; [|done]. cbn [mbind option_bind].
  destruct (utf8_valid fn); [|done]. cbn [negb]. cbv zeta.
  destruct (parent path) as [dir|] eqn:Ed.
  2:{ unfold detect_rar_part, detect_rar_sequence, detect_7z_split, detect_zip_split, detect_generic_001.
      rewrite Ed. repeat (destruct (captures _ _) as [[? ?]|]); cbn;
      repeat (destruct (parse_u32 _); cbn); repeat (destruct (str_eqb _ _); cbn); repeat case_match; done. }
  intros H. exists fn, dir.
  apply or_else_some in H as [H|[_ H]]; [|apply or_else_some in H as [H|[_ H]];
    [|apply or_else_some in H as [H|[H7 H]]; [|apply or_else_some in H as [H|[_ H]]]]].
  - unfold detect_rar_part in H. destruct (captures _ _) as [[b e]|] eqn:E; cbn in H; [|done].
    destruct (parse_u32 e); cbn in H; [|done]. rewrite Ed in H. cbn in H. injection H as <-. exists e.
    split_and!; [done..|by apply captures_sound|done].
  - unfold detect_rar_sequence in H. destruct (captures _ _) as [[b e]|] eqn:E; cbn in H; [|done].
    apply bind_Some in H as ([] & _ & H). rewrite Ed in H. cbn in H. injection H as <-. exists e.
    split_and!; [done..|by apply captures_sound|done].
  - unfold detect_7z_split in H. destruct (captures _ _) as [[b e]|] eqn:E; cbn in H; [|done].
    rewrite Ed in H. cbn in H. injection H as <-. exists e. split_and!; [done..|by apply captures_sound|done].
  - unfold detect_zip_split in H. destruct (captures _ _) as [[b e]|] eqn:E; cbn in H; [|done].
    apply bind_Some in H as ([] & _ & H). rewrite Ed in H. cbn in H. injection H as <-. exists e.
    split_and!; [done..|by apply captures_sound|done].
  - unfold detect_generic_001 in H. destruct (captures generic_pattern _) as [[b e]|] eqn:E; cbn in H; [|done].
    destruct (parse_u32 e); cbn in H; [|done]. destruct (_ || _); [done|]. rewrite Ed in H. cbn in H.
    injection H as <-. exists e. split_and!; [done..|by apply captures_sound|]. intros _.
    unfold detect_7z_split in H7. destruct (captures sevenz_pattern _) as [[? ?]|]; [|done].
    cbn in H7. by rewrite Ed in H7.
Qed.

(** Where a set is looked for is where the path it was detected from is. *)
Lemma detect_dir path m dir :
  detect read_dir path = Some m -> parent path = Some dir -> parent (first_part m) = Some dir.
Proof.
  intros (fn & dir' & e & Hfn & Hdir & Hm & Hmatch & _)%detect_inv Hd. rewrite Hd in Hdir. injection Hdir as <-.
  rewrite Hm. cbn [first_part]. unfold resolve_or_literal.
  destruct (resolve_ignoring_case _ _ _) as [p|] eqn:E.
  - apply resolve_spec in E as (x & (names & Hr & Hx & _) & ->).
    apply entries_plain in Hr. rewrite Forall_forall in Hr. eapply parent_join; [by apply Hr|exact Hd].
  - eapply parent_join; [|exact Hd]. apply file_name_plain in Hfn as (_ & Hs & _). apply lowercase_slash in Hs.
    destruct Hmatch as (Hlow & Hb & _). rewrite Hlow in Hs. apply Forall_app in Hs as [Hs _].
    assert (2 < length (first_suffix (format m))) as Hlen by (destruct (format m); apply Nat.ltb_lt; reflexivity).
    split_and!.
    + by intros [? _]%app_eq_nil.
    + apply Forall_app. split; [done|]. destruct (format m); repeat constructor.
    + intros Hq%(f_equal length). rewrite length_app in Hq. change (length §".") with 1 in Hq. lia.
    + intros Hq%(f_equal length). rewrite length_app in Hq. change (length §"..") with 2 in Hq. lia.
Qed.

(** The parts of a detected set are, in this order, the [.rar]
    that opens a sequence if it is there, the numbered members from the first on up
    to the first that is missing, and the [.zip] that closes a split ZIP if it is
    there. The search ends, in a directory of any size that the counter can count. *)
Theorem parts_are_the_run path m dir :
  detect read_dir path = Some m -> parent path = Some dir ->
  (Z.of_nat (probe_fuel read_dir dir) < u32_max)%Z ->
  exists run,
    find_all_parts read_dir m
    = Ok (mk_multipart (first_part m) (opening read_dir dir m ++ run ++ closing read_dir dir m)
            (format m) (base_name m))
    /\ length run <= probe_fuel read_dir dir
    /\ (forall i, i < length run ->
         find_member read_dir dir m (first_number (format m) + Z.of_nat i) = run !! i)
    /\ find_member read_dir dir m (first_number (format m) + Z.of_nat (length run)) = None.
Proof. intros Hd Hp Hmax. apply find_all_parts_run; [by eapply detect_dir|done]. Qed.

(** ** Members are detected as members *)

Lemma last_segment p pre s b e l seg :
  lead p = pre ++ §"." -> trail p = [] -> good_pattern p ->
  matches p s b e -> s = l ++ "."%char :: seg -> dot_free seg -> e = seg /\ b ++ pre = l.
Proof.
  intros Hl Ht Hg Hm -> Hseg. pose proof (matches_dot_free _ _ _ _ Hg Hm) as He. destruct Hm as [E _].
  rewrite Hl, Ht, app_nil_r in E. rewrite !app_assoc in E. rewrite <-(app_assoc _ §".") in E. cbn [app] in E.
  by apply last_dot_unique in E as [-> ->].
Qed.

(** The patterns tell names apart by the first character after the last dot. *)
Lemma rar_sequence_head c rest :
  existsb (alternative_matches (c :: rest)) (alternatives rar_sequence_pattern) = true -> c = "r"%char.
Proof.
  unfold alternative_matches. cbn [existsb alternatives rar_sequence_pattern word orb].
  intros [H|[H|[=]]%orb_true_iff]%orb_true_iff.
  - destruct (strip_prefix §"rar" (c :: rest)) eqn:E; [|done]. apply strip_prefix_spec in E. by injection E.
  - destruct (strip_prefix §"r" (c :: rest)) eqn:E; [|done]. apply strip_prefix_spec in E. by injection E.
Qed.

Lemma zip_head c rest :
  existsb (alternative_matches (c :: rest)) (alternatives zip_pattern) = true -> c = "z"%char.
Proof.
  unfold alternative_matches. cbn [existsb alternatives zip_pattern word orb].
  intros [H|[H|[=]]%orb_true_iff]%orb_true_iff.
  - destruct (strip_prefix §"z" (c :: rest)) eqn:E; [|done]. apply strip_prefix_spec in E. by injection E.
  - destruct (strip_prefix §"zip" (c :: rest)) eqn:E; [|done]. apply strip_prefix_spec in E. by injection E.
Qed.

Lemma sevenz_head c rest :
  existsb (alternative_matches (c :: rest)) (alternatives sevenz_pattern) = true ->
  (code c < 128)%N -> is_digit c = true.
Proof.
  unfold alternative_matches. cbn [existsb alternatives sevenz_pattern word strip_prefix].
  rewrite orb_false_r. apply digit_run_head.
Qed.

Lemma no_rar_part s d : is_digit d = true -> captures rar_part_pattern (s ++ [d]) = None.
Proof.
  intros Hd. apply captures_none. intros b e (E & _). cbn [lead trail rar_part_pattern] in E.
  change (§".rar") with (§".ra" ++ ["r"%char]) in E. rewrite !app_assoc in E.
  apply app_inj_tail in E as [_ ->]. discriminate Hd.
Qed.

Lemma no_rar_sequence l c rest :
  dot_free (c :: rest) -> c <> "r"%char -> captures rar_sequence_pattern (l ++ "."%char :: c :: rest) = None.
Proof.
  intros Hdot Hc. apply captures_none. intros b e Hm.
  destruct (last_segment rar_sequence_pattern [] _ b e l (c :: rest) eq_refl eq_refl (pattern_good RarSequence) Hm
    eq_refl Hdot) as [-> _]. destruct Hm as (_ & _ & _ & H). by apply rar_sequence_head in H.
Qed.

Lemma no_sevenz l c rest :
  dot_free (c :: rest) -> (code c < 128)%N -> is_digit c = false ->
  captures sevenz_pattern (l ++ "."%char :: c :: rest) = None.
Proof.
  intros Hdot Hc Hd. apply captures_none. intros b e Hm.
  destruct (last_segment sevenz_pattern §".7z" _ b e l (c :: rest) eq_refl eq_refl (pattern_good SevenZip) Hm
    eq_refl Hdot) as [-> _]. destruct Hm as (_ & _ & _ & H). apply sevenz_head in H; [congruence|done].
Qed.

Lemma no_zip l c rest :
  dot_free (c :: rest) -> c <> "z"%char -> captures zip_pattern (l ++ "."%char :: c :: rest) = None.
Proof.
  intros Hdot Hc. apply captures_none. intros b e Hm.
  destruct (last_segment zip_pattern [] _ b e l (c :: rest) eq_refl eq_refl (pattern_good ZipSplit) Hm
    eq_refl Hdot) as [-> _]. destruct Hm as (_ & _ & _ & H). by apply zip_head in H.
Qed.

Lemma parse_u32_digits ds n :
  Forall (fun c => is_digit c = true) ds -> ds <> [] -> digits_value ds 0 = Some n -> (0 <= n <= u32_max)%Z ->
  parse_u32 ds = Some n.
Proof.
  intros Hd Hne Hv Hn. unfold parse_u32, parse_unsigned. destruct ds as [|c ds]; [done|].
  assert (ascii_eqb c "+" = false) as ->.
  { apply not_true_is_false. intros ->%ascii_eqb_eq. apply Forall_cons in Hd as [Hd _]. discriminate Hd. }
  unfold parse_digits_in. rewrite Hv. unfold u32_max in Hn.
  destruct (Z.leb_spec 0 (1 * n)), (Z.leb_spec (1 * n) 4294967295); cbn [andb]; try lia. f_equal. lia.
Qed.


Lemma detect_lower p x dir :
  file_name p = Some x -> utf8_valid x = true -> parent p = Some dir ->
  detect read_dir p =
    let lower := to_lowercase x in
    or_else (detect_rar_part read_dir p lower)
      (or_else (detect_rar_sequence read_dir p lower)
        (or_else (detect_7z_split read_dir p lower)
          (or_else (detect_zip_split read_dir p lower) (detect_generic_001 read_dir p lower)))).
Proof. intros Hf Hu Hp. unfold detect. rewrite Hf. cbn [mbind option_bind]. by rewrite Hu. Qed.

(** A match of the set's own pattern, by a word and digits. *)
Lemma member_matches f base w lo hi ds :
  base <> [] -> newline ∉ base -> In (mk_alt w lo hi) (alternatives (pattern_of f)) ->
  Forall (fun c => is_digit c = true) ds -> lo <= length ds -> (forall h, hi = Some h -> length ds <= h) ->
  captures (pattern_of f) (base ++ lead (pattern_of f) ++ (w ++ ds) ++ trail (pattern_of f)) = Some (base, w ++ ds).
Proof.
  intros Hb Hnl Hin Hd Hlo Hhi. apply captures_some; [apply pattern_good|]. split_and!; [done..|].
  apply existsb_exists. exists (mk_alt w lo hi). split; [done|]. unfold alternative_matches. cbn [word].
  rewrite (proj2 (strip_prefix_spec w (w ++ ds) ds) eq_refl). by apply digit_run_digits.
Qed.

Lemma digits_snoc ds : Forall (fun c => is_digit c = true) ds -> ds <> [] -> exists l d, ds = l ++ [d] /\ is_digit d = true.
Proof.
  intros Hd Hne. destruct ds as [|d l _] using rev_ind; [done|]. exists l, d. split; [done|].
  by apply Forall_app in Hd as [_ [? _]%Forall_cons].
Qed.

Section member.
Context (p dir base : str).
Context (Hp : parent p = Some dir) (Hb : base <> []) (Hnl : newline ∉ base).

Lemma detect_rar_part_member n :
  (0 <= n <= u32_max)%Z ->
  detect_rar_part read_dir p (rar_part_name base n)
  = Some (mk_multipart (resolve_or_literal read_dir dir (base ++ §".part1.rar")) [] RarPart base).
Proof.
  intros Hn. destruct (decimal_digits (Z.to_N n)) as (Hd & Hne & Hv). unfold detect_rar_part, rar_part_name.
  pose proof (member_matches RarPart base [] 1 None (decimal (Z.to_N n)) Hb Hnl ltac:(by left) Hd
    ltac:(destruct (decimal (Z.to_N n)); [done|cbn; lia]) ltac:(done)) as E.
  cbn [pattern_of lead trail rar_part_pattern app] in E. rewrite E. cbn [mbind option_bind].
  rewrite (parse_u32_digits _ n Hd Hne); [|rewrite Hv by (unfold u32_max, u64_max in *; lia); f_equal; lia|done].
  cbn. by rewrite Hp.
Qed.

Lemma detect_rar_volume width n ds :
  padded width n = ds -> 2 <= length ds <= 3 ->
  detect_rar_part read_dir p (rar_volume_name base width n) = None
  /\ detect_rar_sequence read_dir p (rar_volume_name base width n)
     = Some (mk_multipart (resolve_or_literal read_dir dir (base ++ §".rar")) [] RarSequence base).
Proof.
  intros Eds Hlen. destruct (padded_digits width n) as (Hd & Hne & _). unfold rar_volume_name. rewrite Eds in *. split.
  - destruct (digits_snoc ds Hd Hne) as (l & d & -> & Hdig). rewrite !app_assoc. unfold detect_rar_part.
    by rewrite no_rar_part.
  - pose proof (member_matches RarSequence base §"r" 2 (Some 3) ds Hb Hnl ltac:(by right; left) Hd ltac:(lia)
      ltac:(intros h [= <-]; lia)) as E. unfold detect_rar_sequence.
    cbn [pattern_of lead trail rar_sequence_pattern] in E. rewrite app_nil_r in E.
    change (§".r" ++ ds) with (§"." ++ §"r" ++ ds). rewrite E. cbn [mbind option_bind].
    assert (str_eqb (§"r" ++ ds) §"rar" = false) as ->.
    { apply not_true_is_false. intros Hr%str_eqb_eq. injection Hr as ->.
      apply Forall_cons in Hd as [Hd _]. discriminate Hd. }
    cbn. by rewrite Hp.
Qed.

Lemma detect_sevenz_member n :
  (0 <= n <= 999)%Z ->
  detect_rar_part read_dir p (sevenz_name base n) = None
  /\ detect_rar_sequence read_dir p (sevenz_name base n) = None
  /\ detect_7z_split read_dir p (sevenz_name base n)
     = Some (mk_multipart (resolve_or_literal read_dir dir (base ++ §".7z.001")) [] SevenZip base).
Proof.
  intros Hn. destruct (padded_digits 3 n) as (Hd & Hne & _). pose proof (padded_3 n Hn) as Hlen.
  unfold sevenz_name. set (ds := padded 3 n) in *. clearbody ds. split_and!.
  - destruct (digits_snoc ds Hd Hne) as (l & d & -> & Hdig). rewrite !app_assoc. unfold detect_rar_part.
    by rewrite no_rar_part.
  - destruct ds as [|c ds]; [done|]. unfold detect_rar_sequence.
    change (§".7z." ++ c :: ds) with (§".7z" ++ "."%char :: c :: ds). rewrite app_assoc.
    rewrite no_rar_sequence; [done|by apply digits_dot_free|].
    intros ->. apply Forall_cons in Hd as [Hd _]. discriminate Hd.
  - pose proof (member_matches SevenZip base [] 3 (Some 3) ds Hb Hnl ltac:(by left) Hd ltac:(lia)
      ltac:(intros h [= <-]; lia)) as E. unfold detect_7z_split.
    cbn [pattern_of lead trail sevenz_pattern app] in E. rewrite app_nil_r in E. rewrite E. cbn. by rewrite Hp.
Qed.

Lemma detect_zip_member n :
  (0 <= n <= 99)%Z ->
  detect_rar_part read_dir p (zip_name base n) = None
  /\ detect_rar_sequence read_dir p (zip_name base n) = None
  /\ detect_7z_split read_dir p (zip_name base n) = None
  /\ detect_zip_split read_dir p (zip_name base n)
     = Some (mk_multipart (resolve_or_literal read_dir dir (base ++ §".zip")) [] ZipSplit base).
Proof.
  intros Hn. destruct (padded_digits 2 n) as (Hd & Hne & _). pose proof (padded_2 n Hn) as Hlen.
  unfold zip_name. set (ds := padded 2 n) in *. clearbody ds.
  assert (dot_free ("z"%char :: ds)) as Hdot.
  { pose proof (digits_dot_free ds Hd) as H. unfold dot_free in *. rewrite elem_of_cons. by intros [?|?]. }
  change (§".z" ++ ds) with ("."%char :: "z"%char :: ds). split_and!.
  - destruct (digits_snoc ds Hd Hne) as (l & d & -> & Hdig). unfold detect_rar_part.
    change ("."%char :: "z"%char :: l ++ [d]) with ((§".z" ++ l) ++ [d]). rewrite app_assoc. by rewrite no_rar_part.
  - unfold detect_rar_sequence. by rewrite no_rar_sequence.
  - unfold detect_7z_split. by rewrite no_sevenz.
  - pose proof (member_matches ZipSplit base §"z" 2 (Some 2) ds Hb Hnl ltac:(by left) Hd ltac:(lia)
      ltac:(intros h [= <-]; lia)) as E. unfold detect_zip_split.
    cbn [pattern_of lead trail zip_pattern] in E. rewrite app_nil_r in E.
    change ("."%char :: "z"%char :: ds) with (§"." ++ §"z" ++ ds). rewrite E. cbn [mbind option_bind].
    assert (str_eqb (§"z" ++ ds) §"zip" = false) as ->.
    { apply not_true_is_false. intros Hr%str_eqb_eq. injection Hr as ->.
      apply Forall_cons in Hd as [Hd _]. discriminate Hd. }
    cbn. by rewrite Hp.
Qed.

Lemma detect_generic_member n :
  (1 <= n <= 999)%Z -> (forall b, base = b ++ §".7z" -> b = []) ->
  detect_rar_part read_dir p (generic_name base n) = None
  /\ detect_rar_sequence read_dir p (generic_name base n) = None
  /\ detect_7z_split read_dir p (generic_name base n) = None
  /\ detect_zip_split read_dir p (generic_name base n) = None
  /\ detect_generic_001 read_dir p (generic_name base n)
     = Some (mk_multipart (resolve_or_literal read_dir dir (base ++ §".001")) [] Generic001 base).
Proof.
  intros Hn H7. destruct (padded_digits 3 n) as (Hd & Hne & Hv). pose proof (padded_3 n ltac:(lia)) as Hlen.
  unfold generic_name. set (ds := padded 3 n) in *. clearbody ds. pose proof (digits_dot_free ds Hd) as Hdot.
  change (§"." ++ ds) with ("."%char :: ds). split_and!.
  - destruct (digits_snoc ds Hd Hne) as (l & d & -> & Hdig). unfold detect_rar_part.
    change ("."%char :: l ++ [d]) with ((§"." ++ l) ++ [d]). rewrite app_assoc. by rewrite no_rar_part.
  - destruct ds as [|c ds]; [done|]. unfold detect_rar_sequence. rewrite no_rar_sequence; [done..|].
    intros ->. apply Forall_cons in Hd as [Hd _]. discriminate Hd.
  - unfold detect_7z_split. rewrite captures_none; [done|]. intros b e Hm.
    destruct (last_segment sevenz_pattern §".7z" _ b e base ds eq_refl eq_refl (pattern_good SevenZip) Hm
      eq_refl Hdot) as [_ E]. apply eq_sym, H7 in E. by destruct Hm as (_ & ? & _).
  - destruct ds as [|c ds]; [done|]. unfold detect_zip_split. rewrite no_zip; [done..|].
    intros ->. apply Forall_cons in Hd as [Hd _]. discriminate Hd.
  - pose proof (member_matches Generic001 base [] 3 (Some 3) ds Hb Hnl ltac:(by left) Hd ltac:(lia)
      ltac:(intros h [= <-]; lia)) as E. unfold detect_generic_001.
    cbn [pattern_of lead trail generic_pattern app] in E. rewrite app_nil_r in E.
    change (base ++ "."%char :: ds) with (base ++ §"." ++ ds). rewrite E. cbn [mbind option_bind].
    rewrite (parse_u32_digits ds n Hd Hne) by (try apply Hv; unfold u32_max, u64_max in *; lia). cbn [mbind option_bind].
    destruct (Z.eqb_spec n 0), (Z.ltb_spec 999 n); cbn [orb]; try lia. by rewrite Hp.
Qed.

End member.

(** From whichever numbered member one starts, detection
    gives the same set: the member that the enumeration of a detected set finds is
    itself detected with the same convention, base name and first part, as long as
    its number has the digits that the convention's pattern takes. *)
Theorem any_member_names_the_set path m dir n p :
  detect read_dir path = Some m -> parent path = Some dir ->
  (first_number (format m) <= n <= last_number (format m))%Z ->
  find_member read_dir dir m n = Some p -> detect read_dir p = Some m.
Proof.
  intros Hdet Hdir Hn Hfind. destruct (detect_inv _ _ Hdet) as (fn & dir' & e & _ & Hdir' & Hm & Hmatch & H7).
  rewrite Hdir in Hdir'. injection Hdir' as <-.
  apply find_member_spec in Hfind as (name & x & Hname & (names & Hr & Hx & Hu & Hlow) & ->).
  pose proof (entries_plain _ _ Hr) as Hpl. rewrite Forall_forall in Hpl. specialize (Hpl x Hx).
  pose proof (parent_join path dir x Hpl Hdir) as Hp.
  rewrite (detect_lower _ x dir (file_name_join dir x Hpl) Hu Hp), Hlow. cbv zeta.
  rewrite Hm at 1. clear Hm. destruct Hmatch as (Hfn & Hb & Hnl & Hex). set (base := base_name m) in *. clearbody base.
  destruct (format m); cbn [member_names first_number last_number first_suffix] in *;
    rewrite ?elem_of_cons, ?elem_of_nil in Hname.
  - destruct Hname as [->|[]]. by rewrite detect_rar_part_member with (dir := dir) by (try done; lia).
  - destruct Hname as [->|[->|[]]].
    + destruct (detect_rar_volume (path_join dir x) dir base Hp Hb Hnl 2 n _ eq_refl (padded_2_wide n Hn)) as [-> ->]. done.
    + pose proof (padded_3 n Hn). destruct (detect_rar_volume (path_join dir x) dir base Hp Hb Hnl 3 n _ eq_refl) as [-> ->]; [lia|done].
  - destruct Hname as [->|[]]. destruct (detect_sevenz_member (path_join dir x) dir base Hp Hb Hnl n) as (-> & -> & ->); [lia|done].
  - destruct Hname as [->|[]]. destruct (detect_zip_member (path_join dir x) dir base Hp Hb Hnl n) as (-> & -> & -> & ->); [lia|done].
  - destruct Hname as [->|[]].
    destruct (detect_generic_member (path_join dir x) dir base Hp Hb Hnl n Hn) as (-> & -> & -> & -> & ->); [|done].
    intros b ->. destruct (decide (b = [])) as [?|Hbne]; [done|]. exfalso.
    apply (captures_complete _ _ b e (H7 eq_refl)). split_and!; [by rewrite Hfn, <-app_assoc|done| |done].
    by intros ?; apply Hnl, elem_of_app; left.
Qed.

End detection.

(** * An engine for the patterns, and examples *)

Module MultipartExample.

(** Every way to cut the text, the longest first group first. *)
Definition cut_at (p : Pattern) (s : str) (i : nat) : option (str * str) :=
  let b := take i s in
  rest ← strip_prefix (lead p) (drop i s);
  e ← strip_suffix (trail p) rest;
  let decimal_of ch := match ch with [c] => is_digit c | _ => false end in
  if negb (str_eqb b []) && negb (existsb (ascii_eqb newline) b)
     && existsb (@alternative_matches (Build_RegexCrate decimal_of (fun _ _ => None)) e) (alternatives p)
  then Some (b, e) else None.

#[local] Instance ascii_regex : RegexCrate := {|
  is_decimal ch := match ch with [c] => is_digit c | _ => false end;
  captures p s := head (omap (cut_at p s) (reverse (seq 0 (S (length s)))))
|}.

Lemma cut_at_spec p s i b e : cut_at p s i = Some (b, e) <-> b = take i s /\ matches p s b e.
Proof.
  unfold cut_at, matches. cbv zeta. split.
  - intros (rest & Hr%strip_prefix_spec & H)%bind_Some. apply bind_Some in H as (e' & He%strip_suffix_spec & H).
    destruct (_ && _) eqn:Ec; [|done]. injection H as <- <-.
    apply andb_true_iff in Ec as [[E1 E2]%andb_true_iff E3]. split; [done|]. subst rest. split_and!.
    + by rewrite <-Hr, take_drop.
    + intros E. by rewrite E in E1.
    + intros Hin. apply negb_true_iff in E2. apply not_true_iff_false in E2. apply E2.
      apply existsb_exists. exists newline. split; [by apply list_elem_of_In|by apply ascii_eqb_eq].
    + done.
  - intros (Hb & Hs & Hne & Hnl & Hex). apply bind_Some. exists (e ++ trail p). split.
    { apply strip_prefix_spec. apply (app_inv_head b). rewrite Hb at 1. rewrite take_drop. done. }
    apply bind_Some. exists e. split; [by apply strip_suffix_spec|]. rewrite <-Hb.
    assert (str_eqb b [] = false) as ->. { apply not_true_is_false. by intros ->%str_eqb_eq. }
    assert (existsb (ascii_eqb newline) b = false) as ->.
    { apply not_true_is_false. intros (c & Hc & <-%ascii_eqb_eq)%existsb_exists. by apply Hnl, list_elem_of_In. }
    cbn [negb andb]. match goal with |- (if ?c then _ else _) = _ => replace c with true by (symmetry; exact Hex) end.
    done.
Qed.

#[local] Instance ascii_regex_laws : RegexLaws ascii_regex.
Proof.
  split.
  - done.
  - intros [|c [|]]; try done. cbn. unfold is_digit, in_range.
    intros [_ H%N.leb_le]%andb_true_iff. apply andb_true_iff. split; apply N.leb_le; lia.
  - intros p s b e H. cbn [captures ascii_regex] in H. apply head_Some_elem_of, list_elem_of_omap in H as (i & _ & H).
    by apply cut_at_spec in H as [_ ?].
  - intros p s b e H Hm. cbn [captures ascii_regex] in H. apply head_None in H.
    assert ((b, e) ∈ omap (cut_at p s) (reverse (seq 0 (S (length s))))) as Hin.
    { apply list_elem_of_omap. exists (length b). destruct Hm as (Es & Hm). split.
      - rewrite elem_of_reverse. apply elem_of_seq. rewrite Es, length_app. lia.
      - apply cut_at_spec. split; [by rewrite Es, take_app_length|done]. }
    rewrite H in Hin. by apply elem_of_nil in Hin.
Qed.

#[local] Instance ascii_names : UnicodeTables := ascii_tables.

#[local] Instance ascii_lowercase : LowercaseLaws ascii_names.
Proof.
  intros s H. cbn. unfold to_ascii_lowercase. rewrite Forall_map. eapply Forall_impl; [exact H|].
  intros c Hc. unfold ascii_lower. destruct (_ && _) eqn:E; [|done].
  apply not_true_is_false. intros E2%ascii_eqb_eq%(f_equal code). unfold code in *.
  rewrite N_ascii_embedding in E2; apply andb_true_iff in E as [E3%N.leb_le E4%N.leb_le]; [|lia].
  change (N_of_ascii "/") with 47%N in E2. lia.
Qed.

Definition listing : list str :=
  [§"Game.Part2.RAR"; §"Game.Part1.RAR"; §"Game.part4.rar"; §"old.r00"; §"old.rar"; §"old.r01";
   §"big.part01.rar"; §"big.part02.rar"; §"pic.zip"; §"pic.z01"].

Definition dir_of_games (d : str) : option (list str) := if str_eqb d §"/games" then Some listing else None.

Lemma dir_of_games_plain d names : dir_of_games d = Some names -> Forall plain_name names.
Proof.
  unfold dir_of_games. destruct (str_eqb d §"/games"); [|done]. intros [= <-].
  assert (forall n, n ∈ listing -> bool_decide (n <> [] /\ n <> §"." /\ n <> §"..") = true
    /\ forallb (fun c => negb (is_slash c)) n = true) as H.
  { intros n Hn. apply list_elem_of_In in Hn. repeat (destruct Hn as [<-|Hn]; [by vm_compute|]). done. }
  apply Forall_forall. intros n [H1%bool_decide_eq_true H2]%H. rewrite forallb_forall in H2.
  split_and!; [naive_solver| |naive_solver..].
  apply Forall_forall. intros c Hc%list_elem_of_In. by apply negb_true_iff, H2.
Qed.

Definition game : MultiPartArchive := mk_multipart §"/games/Game.Part1.RAR" [] RarPart §"game".

Lemma parts_are_the_run_witness :
  exists run,
    find_all_parts dir_of_games game
    = Ok (mk_multipart §"/games/Game.Part1.RAR" (run ++ []) RarPart §"game")
    /\ length run <= 10.
Proof.
  destruct (parts_are_the_run dir_of_games dir_of_games_plain §"/games/Game.Part2.RAR" game §"/games")
    as (run & H1 & H2 & _); [vm_compute; reflexivity..|].
  exists run. split; [exact H1|exact H2].
Defined.

Lemma any_member_names_the_set_witness : detect dir_of_games §"/games/old.r01" = detect dir_of_games §"/games/old.rar".
Proof.
  transitivity (Some (mk_multipart §"/games/old.rar" [] RarSequence §"old")); [|vm_compute; reflexivity].
  apply (any_member_names_the_set dir_of_games dir_of_games_plain §"/games/old.rar" _ §"/games" 1);
    [vm_compute; reflexivity..|cbn; lia|vm_compute; reflexivity].
Defined.

(** Volumes numbered with a leading zero, as RAR writes
    them for sets of ten or more, are detected as members of a set, but the set has
    no parts: the first is looked for under the number without the zero. *)
Theorem padded_parts_are_lost :
  option_map (fun d => (dto_first_part d, dto_format d, parts d))
    (detect_multipart dir_of_games §"/games/big.part01.rar")
  = Some (§"/games/big.part1.rar", RarPart, []).
Proof. vm_compute. reflexivity. Qed.

(** A set with a gap is called complete: [Game.part3.rar] is missing, the fourth is there. *)
Example gap_is_complete :
  match validate dir_of_games (fun _ => Some 5%Z) game with
  | Ok (v, _) => (is_complete v, found_parts v, total_size v)
  | Err _ => (false, [], 0%Z)
  end = (true, [§"/games/Game.Part1.RAR"; §"/games/Game.Part2.RAR"], 10%Z).
Proof. vm_compute. reflexivity. Qed.

(** The [.zip] closes the set it is the first part of. *)
Example zip_is_last :
  option_map (fun d => (dto_first_part d, parts d)) (detect_multipart dir_of_games §"/games/pic.z01")
  = Some (§"/games/pic.zip", [§"/games/pic.z01"; §"/games/pic.zip"]).
Proof. vm_compute. reflexivity. Qed.

End MultipartExample.
