(* ===== verification/Merge.v ===== *)
(** Merging a split archive ([crates/app/src/operations/merge.rs] over
    [crates/core/src/services/merge_service.rs]): the request, the admission of the
    set as it is on disk now, one attempt, what becomes of its outcome, and the
    deletion of the original parts.

    The worker is a state machine whose steps are interleaved with every step of
    the operation registry, so a cancellation may fall between any two of them. What
    the disk holds is given anew to every step that looks at it. *)

From stdpp Require Import base tactics option list gmap sorting strings.
From Stdlib Require Import ZArith Lia Ascii.
From S2P Require Import Prelude Text AppError Registry RustPath Multipart.

Open Scope arclain_scope.

#[local] Arguments String.list_ascii_of_string : simpl never.

(** * The request *)

Inductive OutputFormat := OutSevenZip | OutZip.

Inductive CompressionLevel := Store | Fastest | Fast | NormalLevel | Maximum | Ultra.

Definition output_extension (f : OutputFormat) : str := match f with OutSevenZip => §"7z" | OutZip => §"zip" end.

Record MergeRequest := mk_request {
  archive : MultiPartArchiveDto;
  output_format : OutputFormat;
  compression_level : CompressionLevel;
  output_path : option str;
  delete_originals : bool;
  password : option str
}.

Definition invalid_request_error (cid : CorrelationId) (text fld : str) : ApplicationError :=
  with_field (with_recoverability (new cid InvalidInput text) UserAction) fld.

Definition validate_request (cid : CorrelationId) (q : MergeRequest) : result ApplicationError unit :=
  if str_eqb (dto_first_part (archive q)) [] then
    Err (invalid_request_error cid §"the multi-part archive's first part has no path" §"archive.first_part")
  else if bool_decide (file_name (dto_first_part (archive q)) = None) then
    Err (invalid_request_error cid §"the multi-part archive's first part is not a file path" §"archive.first_part")
  else if str_eqb (trim (dto_base_name (archive q))) [] then
    Err (invalid_request_error cid §"the multi-part archive has no base name" §"archive.base_name")
  else
    match output_path q with
    | Some p =>
        if str_eqb p [] || bool_decide (file_name p = None) then
          Err (invalid_request_error cid §"the merge output path is not a file path" §"output_path")
        else Ok tt
    | None => Ok tt
    end.

(** The default beside the first part; [.] when that has no directory. *)
Definition default_output (first base ext : str) : str :=
  path_join (default §"." (parent first)) (base ++ §"." ++ ext).

Definition resolved_output_path (q : MergeRequest) : str :=
  match output_path q with
  | Some p => p
  | None => default_output (dto_first_part (archive q)) (dto_base_name (archive q)) (output_extension (output_format q))
  end.

Definition set_no_longer_detected_error (cid : CorrelationId) (first : str) : ApplicationError :=
  with_path (with_recoverability (new cid NotFound
    §"this split archive is no longer recognizable on disk -- its parts may have been moved, renamed, or deleted")
    Fatal) first.

Definition set_changed_error (cid : CorrelationId) (first : str) : ApplicationError :=
  with_path (with_recoverability (new cid Conflict
    §"this split archive changed since the merge was prepared -- re-detect it and try again") Retry) first.

Definition incomplete_set_error (cid : CorrelationId) (first : str) : ApplicationError :=
  with_path (with_recoverability (new cid NotFound
    §"this split archive is incomplete -- none of its parts could be found, so there is nothing to merge from")
    Fatal) first.

Definition output_exists_error (cid : CorrelationId) (out : str) : ApplicationError :=
  with_field (with_path (with_suggested_action (with_recoverability (new cid Conflict
    §"a file already exists where the merged archive would be written") UserAction) ChooseDestination) out)
    §"output_path".

Definition merge_backend_error (cid : CorrelationId) (text : str) : ApplicationError :=
  with_recoverability (with_diagnostic (new cid Backend §"failed to merge the split archive") text) Retry.

Definition internal_join_error (cid : CorrelationId) (text : str) : ApplicationError :=
  with_diagnostic (new cid Internal §"merge worker failed") text.

(** Paths compare by their components. *)
Definition describes_the_same_set (request current : MultiPartArchiveDto) : bool :=
  path_eqb (dto_first_part request) (dto_first_part current)
  && str_eqb (dto_base_name request) (dto_base_name current)
  && bool_decide (dto_format request = dto_format current).

Definition is_password_error (msg : str) : bool :=
  contains_str msg §"Wrong password" || contains_str msg §"Incorrect password"
  || contains_str msg §"Password for encrypted archive not specified"
  || contains_str msg §"Cannot open encrypted" || contains_str msg §"Can not open encrypted"
  || contains_str msg §"Enter password" || contains_str msg §"code Some(2)"
  || contains_str msg §"code Some(11)" || contains_str msg §"code Some(255)".

(** * One attempt *)

Record MergeOptions := mk_options {
  opt_output_format : OutputFormat;
  opt_output_path : option str;
  opt_compression_level : CompressionLevel;
  opt_delete_originals : bool;
  opt_password : option str
}.

(** What an attempt meets on its way, and when the token was set: at the checks
    after validation, after extraction and after compression. [inl] is an error's
    text. *)
Record AttemptEnv := mk_env {
  env_read_dir : str -> option (list str);
  env_file_len : str -> option Z;
  env_cancelled : bool * bool * bool;
  env_exists : str -> bool;
  env_temp_dir : str + unit;
  env_select_and_extract : option str -> str + nat;   (** the number of files extracted *)
  env_create : str -> str + unit                      (** finding 7-Zip and compressing *)
}.

(** [MergeService::merge]: its result, whether it wrote the output, and the parts
    it called [remove_file] on. *)
Definition service_merge {UT : UnicodeTables} (env : AttemptEnv) (m : MultiPartArchive) (o : MergeOptions)
  : result str str * option str * list str :=
  let cancelled := §"Operation cancelled" in
  let '(c1, c2, c3) := env_cancelled env in
  match validate (env_read_dir env) (env_file_len env) m with
  | Err _ => (Err §"Cannot determine parent directory", None, [])
  | Ok (v, m') =>
      if negb (is_complete v) then
        (Err (§"Missing archive parts: " ++ debug_str (join §", " (missing_parts v))), None, [])
      else if c1 then (Err cancelled, None, [])
      else
        let out := match opt_output_path o with
                   | Some p => p
                   | None => default_output (first_part m') (base_name m') (output_extension (opt_output_format o))
                   end in
        if env_exists env out then (Err (§"Output file already exists: " ++ out), None, [])
        else match env_temp_dir env with
             | inl e => (Err e, None, [])
             | inr _ =>
                 match env_select_and_extract env (opt_password o) with
                 | inl e => (Err e, None, [])
                 | inr files =>
                     if c2 then (Err cancelled, None, [])
                     else if (files =? 0)%nat then (Err §"No files were extracted from the archive", None, [])
                     else match env_create env out with
                          | inl e => (Err e, None, [])
                          | inr _ =>
                              if c3 then (Err cancelled, Some out, [])
                              else (Ok out, Some out,
                                    if opt_delete_originals o then found_parts v else [])
                          end
                 end
             end
  end.

Inductive MergeAttempt :=
| AttemptMerged (output : str)
| AttemptPassword
| AttemptFailed (text : str).

(** Always over a set without parts, so that [validate] enumerates. *)
Definition merge_attempt {UT : UnicodeTables} (env : AttemptEnv) (d : MultiPartArchiveDto) (o : MergeOptions)
  : MergeAttempt * option str * list str :=
  let m := mk_multipart (dto_first_part d) [] (dto_format d) (dto_base_name d) in
  match service_merge env m o with
  | (Ok out, w, rm) => (AttemptMerged out, w, rm)
  | (Err e, w, rm) => (if is_password_error e then AttemptPassword else AttemptFailed e, w, rm)
  end.

Inductive PostAttempt := PostComplete | PostStop | PostPrompt | PostFail.

Definition decide_post_attempt (outcome : MergeAttempt) (cancellation_requested : bool) : PostAttempt :=
  match outcome with
  | AttemptMerged _ => PostComplete
  | AttemptPassword => if cancellation_requested then PostStop else PostPrompt
  | AttemptFailed _ => if cancellation_requested then PostStop else PostFail
  end.

(** What [run_merge] finds before it starts: the set's parts as they are now, and
    where the output goes. *)
Definition admit_set {UT : UnicodeTables} {RC : RegexCrate} (read_dir : str -> option (list str))
    (exists_at : str -> bool) (cid : CorrelationId) (q : MergeRequest)
  : result ApplicationError (list str * str) :=
  let first := dto_first_part (archive q) in
  match detect_multipart read_dir first with
  | None => Err (set_no_longer_detected_error cid first)
  | Some current =>
      if negb (describes_the_same_set (archive q) current) then Err (set_changed_error cid first)
      else match parts current with
           | [] => Err (incomplete_set_error cid first)
           | _ =>
               let out := resolved_output_path q in
               if exists_at out then Err (output_exists_error cid out) else Ok (parts current, out)
           end
  end.

(** * The worker *)

Section worker.
Context {payloads : Payloads} {UT : UnicodeTables} {RC : RegexCrate}.
Context (id : OperationId) (q : MergeRequest).

Inductive MergePc :=
| PcBegin
| PcCheck
| PcAdmitted (parts : list str) (out : str)
| PcLoop (parts : list str) (out : str) (password : option str) (attempt : Z)
| PcAttempt (parts : list str) (out : str) (password : option str) (attempt : Z)
| PcDecide (parts : list str) (out : str) (attempt : Z) (outcome : MergeAttempt)
| PcPrompt (parts : list str) (out : str) (attempt : Z)
| PcWaiting (parts : list str) (out : str) (attempt : Z)
| PcFinish (parts : list str) (written : str)
| PcComplete (parts : list str) (written : str)
| PcReadBack (parts : list str)
| PcDelete (parts : list str)
| PcFail (error : ApplicationError)
| PcEnd.

(** [removed]: the paths [remove_file] was called on. [view]: the directory as the
    admission saw it; [finished]: what a successful attempt returned. Both are
    history only. *)
Record MWorld := mk_mworld {
  reg : OperationRegistry;
  calls : list Pending;
  pc : MergePc;
  removed : list str;
  view : option (str -> option (list str));
  finished : option str
}.

Definition set_pc (k : MergePc) (x : MWorld) : MWorld :=
  mk_mworld (reg x) (calls x) k (removed x) (view x) (finished x).

(** The worker's own [transition]: the section and, if it applied the state, the
    eviction that is left to run; the worker goes on as [ok] or [failed]. *)
Definition worker_transition (s : OperationState) (ok failed : MergePc) (x : MWorld) : MWorld :=
  let '(r', rest) := run_section (PTransition id s) (reg x) in
  mk_mworld r' (rest ++ calls x)
    (if is_ok (transition_section id s (reg x)).1 then ok else failed) (removed x) (view x) (finished x).

Definition requested_parts (parts : list str) : option (list str) :=
  if delete_originals q then Some parts else None.

(** [matches!(snapshot.state, Completed { result: Merged { .. } })]. *)
Definition is_merged (s : OperationState) : bool :=
  match s with Completed (Merged _) => true | _ => false end.

Definition archive_name : str :=
  default (dto_base_name (archive q)) (file_name (dto_first_part (archive q))).

Definition attempt_options (out : str) (pw : option str) : MergeOptions :=
  mk_options (output_format q) (Some out) (compression_level q) false pw.

Inductive merge_step : MWorld -> MWorld -> Prop :=
| w_start x : pc x = PcBegin -> merge_step x (worker_transition Started PcCheck PcEnd x)
| w_check x read_dir exists_at cid : pc x = PcCheck ->
    merge_step x (mk_mworld (reg x) (calls x)
      (match admit_set read_dir exists_at cid q with
       | Ok (parts, out) => PcAdmitted parts out
       | Err e => PcFail e
       end) (removed x) (Some read_dir) (finished x))
| w_admitted x parts out : pc x = PcAdmitted parts out ->
    merge_step x (set_pc (if is_cancelled id (reg x) then PcEnd else PcLoop parts out (password q) 1) x)
| w_loop x parts out pw attempt : pc x = PcLoop parts out pw attempt ->
    merge_step x (set_pc (if is_cancelled id (reg x) then PcEnd else PcAttempt parts out pw attempt) x)
| w_no_runtime x parts out pw attempt : pc x = PcLoop parts out pw attempt ->
    merge_step x (set_pc PcEnd x)
| w_attempt x parts out pw attempt env outcome written rm : pc x = PcAttempt parts out pw attempt ->
    merge_attempt env (archive q) (attempt_options out pw) = (outcome, written, rm) ->
    merge_step x (mk_mworld (reg x) (calls x) (PcDecide parts out attempt outcome) (removed x ++ rm) (view x)
      (match outcome with AttemptMerged o => Some o | _ => finished x end))
| w_panic x parts out pw attempt cid text : pc x = PcAttempt parts out pw attempt ->
    merge_step x (set_pc (PcFail (internal_join_error cid text)) x)
| w_decide x parts out attempt outcome cid : pc x = PcDecide parts out attempt outcome ->
    merge_step x (set_pc
      (match decide_post_attempt outcome (is_cancelled id (reg x)), outcome with
       | PostComplete, AttemptMerged o => PcFinish parts o
       | PostFail, AttemptFailed e => PcFail (merge_backend_error cid e)
       | PostPrompt, _ => PcPrompt parts out attempt
       | _, _ => PcEnd
       end) x)
| w_prompt x parts out attempt c : pc x = PcPrompt parts out attempt ->
    merge_step x (worker_transition (ChallengeState (Password c archive_name attempt))
      (PcWaiting parts out attempt) PcEnd x)
| w_answered x parts out attempt pw : pc x = PcWaiting parts out attempt ->
    merge_step x (set_pc (PcLoop parts out (Some pw) (attempt + 1)) x)
| w_unanswered x parts out attempt : pc x = PcWaiting parts out attempt ->
    merge_step x (set_pc PcEnd x)
| w_fail x e : pc x = PcFail e -> merge_step x (worker_transition (Failed e) PcEnd PcEnd x)
(* finish_successful_merge *)
| w_announce x parts o : pc x = PcFinish parts o -> delete_originals q = true ->
    merge_step x (worker_transition (Progress 100 (Some 100%Z) (Some §"Deleting original parts..."))
      (PcComplete parts o) (PcComplete parts o) x)
| w_quiet x parts o : pc x = PcFinish parts o -> delete_originals q = false ->
    merge_step x (set_pc (PcComplete parts o) x)
| w_complete x parts o : pc x = PcComplete parts o ->
    merge_step x (worker_transition (Completed (Merged o))
      (match requested_parts parts with Some ps => PcReadBack ps | None => PcEnd end) PcEnd x)
| w_read_back x parts : pc x = PcReadBack parts ->
    merge_step x (set_pc
      (match operation id (reg x) with
       | Some snap => if is_merged (snap_state snap) then PcDelete parts else PcEnd
       | None => PcEnd
       end) x)
| w_delete x p parts : pc x = PcDelete (p :: parts) ->
    merge_step x (mk_mworld (reg x) (calls x) (PcDelete parts) (removed x ++ [p]) (view x) (finished x))
| w_deleted x : pc x = PcDelete [] -> merge_step x (set_pc PcEnd x).

(** Runs: the worker and every other call on the registry, [n] sections at most. *)
Inductive merge_reach : nat -> MWorld -> Prop :=
| mreach_start n r ps : reach n (r, ps) -> events_of id (events r) <> [] ->
    merge_reach n (mk_mworld r ps PcBegin [] None None)
| mreach_worker n x y : merge_reach n x -> merge_step x y -> merge_reach (S (S n)) y
| mreach_registry n x r ps : merge_reach n x -> step (reg x, calls x) (r, ps) ->
    merge_reach (S n) (mk_mworld r ps (pc x) (removed x) (view x) (finished x)).

End worker.

(** * What a merge may delete, and when *)

Section guarantees.
Context {payloads : Payloads} {UT : UnicodeTables} {RC : RegexCrate}.
Context (id : OperationId) (q : MergeRequest).

Notation merge_step := (merge_step id q).
Notation merge_reach := (merge_reach id q).

Lemma service_merge_keeps env m o :
  opt_delete_originals o = false -> (service_merge env m o).2 = [].
Proof.
  intros Ho. unfold service_merge. rewrite Ho. destruct (env_cancelled env) as [[c1 c2] c3].
  repeat case_match; done.
Qed.

Lemma merge_attempt_keeps env out pw outcome written rm :
  merge_attempt env (archive q) (attempt_options q out pw) = (outcome, written, rm) -> rm = [].
Proof.
  unfold merge_attempt. pose proof (service_merge_keeps env
    (mk_multipart (dto_first_part (archive q)) [] (dto_format (archive q)) (dto_base_name (archive q)))
    (attempt_options q out pw) eq_refl) as H.
  destruct (service_merge _ _ _) as [[[o|e] w] l]; cbn in H; intros [= _ _ <-]; done.
Qed.

(** Sections only add events. *)
Lemma run_section_events p (r : OperationRegistry) :
  exists es, events (run_section p r).1 = events r ++ es.
Proof.
  destruct p as [i k|i s|  |i|i c]; cbn [run_section].
  - cbn. by eexists.
  - unfold transition_section. destruct (records r !! i) as [rec|]; [|by exists []; rewrite app_nil_r].
    destruct (is_terminal (rec_state rec)); [by exists []; rewrite app_nil_r|]. cbn. by eexists.
  - exists []. rewrite app_nil_r. cbn. unfold evict_excess_history. by destruct (_ <=? _)%nat.
  - exists []. rewrite app_nil_r. unfold cancel_section. destruct (records r !! i) as [rec|]; [|done].
    by destruct (is_terminal (rec_state rec)).
  - exists []. rewrite app_nil_r. unfold resolve_challenge. destruct (records r !! i) as [rec|]; [|done].
    by destruct (bool_decide _).
Qed.

Lemma step_events (r r' : OperationRegistry) ps ps' :
  step (r, ps) (r', ps') -> exists es, events r' = events r ++ es.
Proof.
  inversion 1 as [? ? ? ? ? E|? ? ? ?|? ? ?|? ? ? ?|? ? p ? ? ? E]; subst.
  1: injection E as _ <-; cbn. 1-4: exists []; by rewrite app_nil_r.
  pose proof (run_section_events p r) as Hev. by rewrite E in Hev.
Qed.

(** The trace of the operation ends in an event. *)
Definition ends_in (r : OperationRegistry) (P : OperationState -> Prop) : Prop :=
  exists e, last (events_of id (events r)) = Some e /\ P (event_state e).

Lemma ends_in_stable (r r' : OperationRegistry) n ps es P :
  Inv n (r', ps) -> events r' = events r ++ es -> (forall s, P s -> is_terminal s = true) ->
  ends_in r P -> ends_in r' P.
Proof.
  intros Hinv Hes Ht (e & Hl & HP). exists e. split; [|done].
  pose proof (inv_trace _ _ Hinv id) as Htr. cbn [fst] in Htr. rewrite Hes in Htr |- *.
  unfold events_of in *. rewrite filter_app in Htr |- *.
  rewrite last_lookup in Hl. set (a := filter _ (events r)) in *. set (b := filter _ es) in *.
  assert (a <> []) as Ha by (by intros E; rewrite E in Hl).
  destruct (Htr (pred (length a)) e) as [_ H]; [by apply lookup_app_l_Some|].
  specialize (H (Ht _ HP)). rewrite length_app in H. destruct a as [|a0 a']; [done|]. cbn in H.
  assert (b = []) as -> by (apply length_zero_iff_nil; lia). by rewrite app_nil_r, last_lookup.
Qed.

Lemma registry_of n x : merge_reach n x -> exists m, m <= n /\ reach m (reg x, calls x).
Proof.
  induction 1 as [n r ps Hr _|n x y _ (m & Hm & IH) Hs|n x r ps _ (m & Hm & IH) Hs].
  - by exists n.
  - assert (forall s ok failed, reach (S (S m))
      (reg (worker_transition id s ok failed x), calls (worker_transition id s ok failed x))) as Hw.
    { intros s ok failed. unfold worker_transition. destruct (run_section _ _) as [r' rest] eqn:E. cbn.
      eapply reach_step; [eapply reach_step; [exact IH|apply (step_call_transition _ _ id s)]|].
      apply (step_run _ [] _ _ _ _ E). }
    destruct Hs; first [exists m; split; [lia|exact IH] | exists (S (S m)); split; [lia|apply Hw]].
  - exists (S m). split; [lia|]. by eapply reach_step.
Qed.

Lemma registry_inv n x : merge_reach n x -> (Z.of_nat n < u64_max)%Z -> exists m, Inv m (reg x, calls x).
Proof.
  intros (m & Hm & Hr)%registry_of Hn. exists m. apply inv_reach; [done|lia].
Qed.
(** The parts a state of the worker carries. *)
Definition carried (k : MergePc) : list str :=
  match k with
  | PcAdmitted parts _ | PcLoop parts _ _ _ | PcAttempt parts _ _ _ | PcDecide parts _ _ _
  | PcPrompt parts _ _ | PcWaiting parts _ _ | PcFinish parts _ | PcComplete parts _
  | PcReadBack parts | PcDelete parts => parts
  | _ => []
  end.

Definition cleaning (k : MergePc) : bool := match k with PcReadBack _ | PcDelete _ => true | _ => false end.
Definition deleting (k : MergePc) : bool := match k with PcDelete _ => true | _ => false end.

(** Found on disk by the admission. *)
Definition found_on_disk (x : MWorld) (p : str) : Prop :=
  exists rd d, view x = Some rd /\ detect_multipart rd (dto_first_part (archive q)) = Some d /\ p ∈ parts d.

(** Where the worker is once an attempt returned [out]. *)
Definition reporting (x : MWorld) (out : str) : Prop :=
  (exists ps o a, pc x = PcDecide ps o a (AttemptMerged out)) \/ (exists ps, pc x = PcFinish ps out)
  \/ (exists ps, pc x = PcComplete ps out)
  \/ (pc x = PcEnd \/ cleaning (pc x) = true) /\ ends_in (reg x) (fun s => is_terminal s = true).

Record merge_inv (x : MWorld) : Prop := {
  wi_begun : events_of id (events (reg x)) <> [];
  wi_carried : Forall (found_on_disk x) (carried (pc x));
  wi_cleaning : cleaning (pc x) = true -> delete_originals q = true;
  wi_removed : Forall (found_on_disk x) (removed x) /\ (removed x <> [] -> delete_originals q = true);
  wi_published : removed x <> [] \/ deleting (pc x) = true -> ends_in (reg x) (fun s => is_merged s = true);
  wi_finished out : finished x = Some out -> reporting x out
}.

Lemma merged_terminal s : is_merged s = true -> is_terminal s = true.
Proof. by destruct s as [| | | | |[]| |]. Qed.

(** Other calls on the registry. *)
Lemma inv_registry x m r ps :
  merge_inv x -> Inv m (r, ps) -> (exists es, events r = events (reg x) ++ es) ->
  merge_inv (mk_mworld r ps (pc x) (removed x) (view x) (finished x)).
Proof.
  intros Hx Hinv [es Hes]. split; cbn [reg pc removed view finished]; try apply Hx.
  - rewrite Hes. unfold events_of. rewrite filter_app. intros [E _]%app_eq_nil. by apply (wi_begun _ Hx).
  - intros H. eapply ends_in_stable; [exact Hinv|exact Hes|apply merged_terminal|by apply Hx].
  - intros out Ho. destruct (wi_finished _ Hx out Ho) as [?|[?|[?|[? He]]]]; [by left|by right; left|by right; right; left|].
    right; right; right. split; [done|]. by eapply ends_in_stable.
Qed.

(** The worker moves without the registry. *)
Lemma inv_pc x k :
  merge_inv x -> (forall p, p ∈ carried k -> p ∈ carried (pc x)) ->
  (cleaning k = true -> delete_originals q = true) ->
  (deleting k = true -> ends_in (reg x) (fun s => is_merged s = true)) ->
  (forall out, finished x = Some out -> reporting (set_pc k x) out) ->
  merge_inv (set_pc k x).
Proof.
  intros Hx Hc Hcl Hd Hf. split; cbn [set_pc reg pc removed view finished]; try apply Hx; try done.
  - pose proof (wi_carried _ Hx) as H. rewrite Forall_forall in H |- *. intros p Hp. by apply (H p), Hc.
  - intros [H|H]; [apply (wi_published _ Hx); by left|by apply Hd].
Qed.

(** Before an attempt has succeeded nothing is to be reported. *)
Lemma not_finished x out :
  merge_inv x -> finished x = Some out -> pc x <> PcEnd -> cleaning (pc x) = false ->
  match pc x with PcDecide _ _ _ (AttemptMerged o) | PcFinish _ o | PcComplete _ o => o = out | _ => False end.
Proof.
  intros Hx Hf Hne Hcl. destruct (wi_finished _ Hx out Hf) as [(ps & o & a & ->)|[(ps & ->)|[(ps & ->)|[[?|?] _]]]];
    congruence.
Qed.

(** The worker's own transitions. *)
Lemma inv_transition x s ok failed n ps :
  merge_inv x -> Inv n (reg (worker_transition id s ok failed x), ps) ->
  (forall p, p ∈ carried ok \/ p ∈ carried failed -> p ∈ carried (pc x)) ->
  (cleaning ok = true \/ cleaning failed = true -> delete_originals q = true) ->
  deleting ok = false -> deleting failed = false ->
  (forall k out, k = ok \/ k = failed -> finished x = Some out ->
     reporting (mk_mworld (reg (worker_transition id s ok failed x)) [] k [] None None) out) ->
  merge_inv (worker_transition id s ok failed x).
Proof.
  intros Hx Hinv Hc Hcl Hd1 Hd2 Hf.
  pose proof (run_section_events (PTransition id s) (reg x)) as Hev. unfold worker_transition in *.
  destruct (run_section (PTransition id s) (reg x)) as [r' rest]. cbn [fst reg] in *.
  set (k := if is_ok _ then ok else failed).
  assert (k = ok \/ k = failed) as Hk by (unfold k; destruct (is_ok _); auto). clearbody k.
  pose proof (inv_registry x n r' ps Hx Hinv Hev) as Hy.
  apply (inv_pc _ k) in Hy; cbn [pc finished] in *.
  - destruct Hy as [H1 H2 H3 H4 H5 H6]. by split.
  - intros p Hp. apply Hc. by destruct Hk as [->| ->]; [left|right].
  - intros H. apply Hcl. by destruct Hk as [<-| <-]; [left|right].
  - intros H. destruct Hk as [->| ->]; congruence.
  - intros out Ho. by apply (Hf k out).
Qed.

(** Completing: afterwards the operation has ended, whoever ended it. *)
Lemma complete_ends n x o ok failed ps :
  Inv n (reg x, ps) -> events_of id (events (reg x)) <> [] ->
  ends_in (reg (worker_transition id (Completed (Merged o)) ok failed x)) (fun s => is_terminal s = true).
Proof.
  intros Hinv Hne. pose proof (inv_agrees _ _ Hinv id) as Ha. unfold agrees in Ha. cbn [fst] in Ha.
  unfold worker_transition. cbn [run_section]. unfold transition_section.
  destruct (records (reg x) !! id) as [rec|] eqn:E.
  - destruct Ha as (e & Hl & _ & Hst & _). destruct (is_terminal (rec_state rec)) eqn:Et; cbn [fst is_ok reg].
    + exists e. split; [done|]. by rewrite <-Hst.
    + unfold ends_in, publish. cbn [events set_records]. rewrite events_of_snoc, bool_decide_eq_true_2 by done. rewrite last_snoc. by eexists.
  - unfold ends_in. cbn [generate_correlation fst is_ok reg events]. destruct (last (events_of id (events (reg x)))) as [e|] eqn:El.
    + exists e. split; [done|]. by apply Ha.
    + by apply last_None in El.
Qed.

Lemma carried_admitted rd ex cid x :
  match admit_set rd ex cid q with
  | Ok (ps, _) => Forall (found_on_disk (mk_mworld (reg x) (calls x) (pc x) (removed x) (Some rd) (finished x))) ps
  | Err _ => True
  end.
Proof.
  unfold admit_set. destruct (detect_multipart rd _) as [d|] eqn:E; [|done].
  destruct (negb _); [done|]. destruct (parts d) as [|p ps] eqn:Ep; [done|]. destruct (ex _); [done|].
  rewrite <-Ep. apply Forall_forall. intros p' Hp'. exists rd, d. done.
Qed.

Lemma merge_step_inv n m x y :
  merge_inv x -> removed x = [] \/ deleting (pc x) = true \/ pc x = PcEnd ->
  Inv n (reg x, calls x) -> Inv m (reg y, calls y) -> merge_step x y -> merge_inv y.
Proof.
  intros Hx Hrm Hix Hiy Hs. pose proof (wi_carried _ Hx) as Hc.
  destruct Hs as [x Hpc|x rd ex cid Hpc|x ps out Hpc|x ps out pw a Hpc|x ps out pw a Hpc
    |x ps out pw a env outcome w rm Hpc Ha|x ps out pw a cid text Hpc|x ps out a outcome cid Hpc
    |x ps out a c Hpc|x ps out a pw Hpc|x ps out a Hpc|x e Hpc|x ps o Hpc Hd|x ps o Hpc Hd
    |x ps o Hpc|x ps Hpc|x p ps Hpc|x Hpc]; rewrite Hpc in Hc; cbn [carried] in Hc.
  - (* start *) eapply inv_transition; [done|exact Hiy|cbn; set_solver|by intros [[=]|[=]]|done|done|].
    intros k out _ Ho. apply (not_finished x out Hx) in Ho; rewrite Hpc in *; done.
  - (* check *) pose proof (carried_admitted rd ex cid x) as Had.
    assert (removed x = []) as Er by (destruct Hrm as [?|[H|H]]; rewrite ?Hpc in H; done).
    destruct (admit_set rd ex cid q) as [[ps out]|e]; split; cbn; rewrite ?Er; try apply Hx; try done;
      try (split; [constructor|done]); try (intros [?|?]; done);
      intros o Ho; apply (not_finished x o Hx) in Ho; rewrite Hpc in *; done.
  - (* admitted *) apply inv_pc; [done|rewrite Hpc; destruct (is_cancelled _ _); cbn; set_solver
      |by destruct (is_cancelled _ _)|by destruct (is_cancelled _ _)|].
    intros o Ho. apply (not_finished x o Hx) in Ho; rewrite Hpc in *; done.
  - (* loop *) apply inv_pc; [done|rewrite Hpc; destruct (is_cancelled _ _); cbn; set_solver
      |by destruct (is_cancelled _ _)|by destruct (is_cancelled _ _)|].
    intros o Ho. apply (not_finished x o Hx) in Ho; rewrite Hpc in *; done.
  - (* no runtime *) apply inv_pc; [done|cbn; set_solver|done|done|].
    intros o Ho. apply (not_finished x o Hx) in Ho; rewrite Hpc in *; done.
  - (* attempt *) apply merge_attempt_keeps in Ha as ->. rewrite app_nil_r.
    split; cbn.
    + apply Hx.
    + done.
    + done.
    + apply Hx.
    + intros [H|H]; [apply (wi_published _ Hx); by left|done].
    + intros o Ho. destruct outcome; [injection Ho as ->; left; by eexists _, _, _|..];
        apply (not_finished x o Hx) in Ho; rewrite Hpc in *; done.
  - (* panic *) apply inv_pc; [done|cbn; set_solver|done|done|].
    intros o Ho. apply (not_finished x o Hx) in Ho; rewrite Hpc in *; done.
  - (* decide *) apply inv_pc; [done| | | |].
    + rewrite Hpc. destruct outcome; cbn; destruct (is_cancelled _ _); cbn; set_solver.
    + destruct outcome; cbn; destruct (is_cancelled _ _); done.
    + destruct outcome; cbn; destruct (is_cancelled _ _); done.
    + intros o Ho. apply (not_finished x o Hx) in Ho; rewrite Hpc in *; [|done..].
      destruct outcome; [subst|done..]. right; left. by eexists.
  - (* prompt *) eapply inv_transition; [done|exact Hiy|rewrite Hpc; cbn; set_solver|by intros [[=]|[=]]|done|done|].
    intros k out' _ Ho. apply (not_finished x out' Hx) in Ho; rewrite Hpc in *; done.
  - (* answered *) apply inv_pc; [done|by rewrite Hpc|done|done|].
    intros o Ho. apply (not_finished x o Hx) in Ho; rewrite Hpc in *; done.
  - (* unanswered *) apply inv_pc; [done|cbn; set_solver|done|done|].
    intros o Ho. apply (not_finished x o Hx) in Ho; rewrite Hpc in *; done.
  - (* fail *) eapply inv_transition; [done|exact Hiy|cbn; set_solver|by intros [[=]|[=]]|done|done|].
    intros k out' _ Ho. apply (not_finished x out' Hx) in Ho; rewrite Hpc in *; done.
  - (* announce *) eapply inv_transition; [done|exact Hiy|rewrite Hpc; cbn; set_solver|by intros [[=]|[=]]|done|done|].
    intros k out' Hk Ho. apply (not_finished x out' Hx) in Ho; rewrite Hpc in *; [subst|done..].
    right; right; left. exists ps. by destruct Hk.
  - (* quiet *) apply inv_pc; [done|by rewrite Hpc|done|done|].
    intros o' Ho. apply (not_finished x o' Hx) in Ho; rewrite Hpc in *; [subst|done..]. right; right; left. by eexists.
  - (* complete *) eapply inv_transition; [done|exact Hiy| | | | |].
    + rewrite Hpc. unfold requested_parts. destruct (delete_originals q); cbn; set_solver.
    + unfold requested_parts. destruct (delete_originals q); [done|]. by intros [[=]|[=]].
    + unfold requested_parts. by destruct (delete_originals q).
    + done.
    + intros k out' Hk Ho. right; right; right. cbn [pc reg]. split; [|by eapply complete_ends; [exact Hix|apply Hx]].
      unfold requested_parts in Hk. destruct (delete_originals q), Hk as [->| ->]; auto.
  - (* read back *) pose proof (inv_agrees _ _ Hix id) as Hag. unfold agrees in Hag. cbn [fst] in Hag.
    assert (delete_originals q = true) as Hdel by (apply (wi_cleaning _ Hx); by rewrite Hpc).
    assert (forall out, finished x = Some out -> ends_in (reg x) (fun s => is_terminal s = true)) as Hend.
    { intros out Ho. destruct (wi_finished _ Hx out Ho) as [(?&?&?&H)|[(?&H)|[(?&H)|[_ H]]]]; [congruence..|done]. }
    unfold operation. destruct (records (reg x) !! id) as [rec|]; cbn [fmap option_fmap option_map snapshot snap_state].
    + destruct (is_merged (rec_state rec)) eqn:Em.
      * apply inv_pc; [done|by rewrite Hpc|done| |].
        -- intros _. destruct Hag as (e & Hl & _ & Hst & _). exists e. by rewrite <-Hst.
        -- intros out Ho. right; right; right. split; [by right|by eapply Hend].
      * apply inv_pc; [done|cbn; set_solver|done|done|].
        intros out Ho. right; right; right. split; [by left|by eapply Hend].
    + apply inv_pc; [done|cbn; set_solver|done|done|].
      intros out Ho. right; right; right. split; [by left|by eapply Hend].
  - (* delete *) destruct (wi_removed _ Hx) as [Hr _]. apply Forall_cons in Hc as [Hp Hc].
    assert (delete_originals q = true) as Hdel by (apply (wi_cleaning _ Hx); by rewrite Hpc).
    split; cbn; try apply Hx; try done.
    + split; [|done]. apply Forall_app. split; [done|]. by constructor.
    + intros _. apply (wi_published _ Hx). right. by rewrite Hpc.
    + intros out Ho. destruct (wi_finished _ Hx out Ho) as [(?&?&?&H)|[(?&H)|[(?&H)|[_ H]]]]; [congruence..|].
      right; right; right. split; [by right|done].
  - (* deleted *) apply inv_pc; [done|cbn; set_solver|done|done|].
    intros out Ho. destruct (wi_finished _ Hx out Ho) as [(?&?&?&H)|[(?&H)|[(?&H)|[_ H]]]]; [congruence..|].
    right; right; right. split; [by left|done].
Qed.

Lemma worker_transition_removed s ok failed x : removed (worker_transition id s ok failed x) = removed x.
Proof. unfold worker_transition. by destruct (run_section _ _). Qed.

(** Nothing is removed before the deletion. *)
Lemma removed_late x y :
  merge_step x y -> removed x = [] \/ deleting (pc x) = true \/ pc x = PcEnd ->
  removed y = [] \/ deleting (pc y) = true \/ pc y = PcEnd.
Proof.
  intros Hs H. destruct Hs; destruct H as [H|[H|H]];
    repeat match goal with Hp : pc x = _, H' : context [pc x] |- _ => rewrite Hp in H' end;
    try done; rewrite ?worker_transition_removed; cbn [removed set_pc pc]; auto.
  left. match goal with Ha : merge_attempt _ _ _ = _ |- _ => apply merge_attempt_keeps in Ha as -> end.
  by rewrite app_nil_r.
Qed.

Lemma merge_reach_inv n x :
  merge_reach n x -> (Z.of_nat n < u64_max)%Z ->
  merge_inv x /\ (removed x = [] \/ deleting (pc x) = true \/ pc x = PcEnd).
Proof.
  intros Hr. induction Hr as [n r ps Hr Hb|n x y Hr IH Hs|n x r ps Hr IH Hs]; intros Hn.
  - split; [|by left]. split; cbn; try done.
    by intros [?|?].
  - destruct IH as [Hx Hrm]; [lia|]. split; [|by eapply removed_late].
    destruct (registry_inv _ _ Hr ltac:(lia)) as [m Hix].
    destruct (registry_inv _ _ (mreach_worker _ _ _ _ _ Hr Hs) Hn) as [m' Hiy]. by eapply merge_step_inv.
  - destruct IH as [Hx Hrm]; [lia|]. split; [|done].
    destruct (registry_inv _ _ (mreach_registry _ _ _ _ _ _ Hr Hs) Hn) as [m Hinv].
    eapply inv_registry; [done|exact Hinv|by eapply step_events].
Qed.

(** C19: However a cancellation and every other call on
    the registry fall among the worker's steps, a file is deleted only when the
    request asked for it, only if the detection that admitted the merge found it on
    disk as a part of the set, and only when the operation's last event says that
    the merge completed: an operation that published [Cancelled] or [Failed] has
    deleted nothing, and none that deleted something ever publishes either. *)
Theorem cancelled_merge_keeps_parts n x p :
  merge_reach n x -> (Z.of_nat n < u64_max)%Z -> p ∈ removed x ->
  delete_originals q = true /\ found_on_disk x p
  /\ (exists e o, last (events_of id (events (reg x))) = Some e /\ event_state e = Completed (Merged o))
  /\ (forall e, e ∈ events_of id (events (reg x)) -> event_state e <> Cancelled
        /\ forall err, event_state e <> Failed err).
Proof.
  intros Hr Hn Hp. destruct (merge_reach_inv _ _ Hr Hn) as [Hx _]. destruct (registry_inv _ _ Hr Hn) as [m Hinv].
  assert (removed x <> []) as Hne by (intros E; rewrite E in Hp; by apply elem_of_nil in Hp).
  destruct (wi_removed _ Hx) as [Hf Hd]. rewrite Forall_forall in Hf.
  destruct (wi_published _ Hx (or_introl Hne)) as (e & Hl & Hm). split_and!; [by apply Hd|by apply Hf| |].
  - exists e. destruct (event_state e) as [| | | | |[| | | |o]| |] eqn:E; try done. by exists o.
  - intros e' He'. enough (is_terminal (event_state e') = true -> e' = e) as H.
    { split; [|intros err]; intros E; rewrite E in H; specialize (H eq_refl); subst; by rewrite E in Hm. }
    intros Ht. apply list_elem_of_lookup in He' as [i Hi].
    destruct (inv_trace _ _ Hinv id i e' Hi) as [_ Hlast]. specialize (Hlast Ht). cbn in Hlast.
    rewrite last_lookup, <-Hlast in Hl. cbn in Hl. congruence.
Qed.

(** C29: A merge that wrote its archive never ends
    silently: in every run of fewer than 2^64 - 1 steps, however cancellations and every other call
    on the registry fall among them, when an attempt succeeded and the worker is through, the
    operation has published a terminal event, cancellation requested or not. *)
Theorem finished_merge_is_reported n x out :
  merge_reach n x -> (Z.of_nat n < u64_max)%Z -> finished x = Some out -> pc x = PcEnd ->
  exists e, last (events_of id (events (reg x))) = Some e /\ is_terminal (event_state e) = true.
Proof.
  intros Hr Hn Hf Hpc. destruct (merge_reach_inv _ _ Hr Hn) as [Hx _].
  destruct (wi_finished _ Hx out Hf) as [(?&?&?&H)|[(?&H)|[(?&H)|[_ H]]]]; [congruence..|exact H].
Qed.

End guarantees.

Module MergeExample.

Import MultipartExample.
#[local] Existing Instances unit_payloads ascii_names ascii_regex.

Definition set_of_games : MultiPartArchiveDto :=
  mk_dto §"/games/Game.Part1.RAR" §"game" RarPart [§"/etc/passwd"].

(** The caller's own list of parts names a file that is none. *)
Definition request : MergeRequest := mk_request set_of_games OutZip NormalLevel None true None.

Definition good_env : AttemptEnv :=
  mk_env dir_of_games (fun _ => Some 5%Z) (false, false, false) (fun _ => false) (inr tt)
    (fun _ => inr 3) (fun _ => inr tt).

Definition begun : OperationRegistry := (begin_section 1 Merge (next_operation_id registry_new).2).2.

Lemma reach_begun : reach 2 (begun, []).
Proof.
  eapply reach_step; [|exact (step_run demo_minted [] (PBegin 1 Merge) [] begun [] eq_refl)].
  eapply reach_step; [apply reach_new|exact (step_call_begin registry_new [] Merge 1 demo_minted eq_refl)].
Qed.

Definition out1 : str := §"/games/game.zip".
Definition parts1 : list str := [§"/games/Game.Part1.RAR"; §"/games/Game.Part2.RAR"].

Definition x0 : MWorld := mk_mworld begun [] PcBegin [] None None.
Definition x1 : MWorld := worker_transition 1 Started PcCheck PcEnd x0.
Definition x2 : MWorld := mk_mworld (reg x1) (calls x1)
  (match admit_set dir_of_games (fun _ => false) 1 request with
   | Ok (parts, out) => PcAdmitted parts out
   | Err e => PcFail e
   end) (removed x1) (Some dir_of_games) (finished x1).
Definition x3 : MWorld := set_pc (if is_cancelled 1 (reg x2) then PcEnd else PcLoop parts1 out1 None 1) x2.
Definition x4 : MWorld := set_pc (if is_cancelled 1 (reg x3) then PcEnd else PcAttempt parts1 out1 None 1) x3.
Definition x5 : MWorld := mk_mworld (reg x4) (calls x4) (PcDecide parts1 out1 1 (AttemptMerged out1))
  (removed x4 ++ []) (view x4) (Some out1).
Definition x6 : MWorld := set_pc (PcFinish parts1 out1) x5.
Definition x7 : MWorld := worker_transition 1 (Progress 100 (Some 100%Z) (Some §"Deleting original parts..."))
  (PcComplete parts1 out1) (PcComplete parts1 out1) x6.
Definition x8 : MWorld := worker_transition 1 (Completed (Merged out1)) (PcReadBack parts1) PcEnd x7.
Definition x9 : MWorld := set_pc (PcDelete parts1) x8.
Definition x10 : MWorld := mk_mworld (reg x9) (calls x9) (PcDelete [§"/games/Game.Part2.RAR"])
  (removed x9 ++ [§"/games/Game.Part1.RAR"]) (view x9) (finished x9).
Definition x11 : MWorld := mk_mworld (reg x10) (calls x10) (PcDelete []) (removed x10 ++ [§"/games/Game.Part2.RAR"])
  (view x10) (finished x10).
Definition x12 : MWorld := set_pc PcEnd x11.

Lemma attempt1 : merge_attempt good_env set_of_games (attempt_options request out1 None)
  = (AttemptMerged out1, Some out1, []).
Proof. vm_compute. reflexivity. Qed.

Lemma read_back1 :
  match operation 1 (reg x8) with Some snap => is_merged (snap_state snap) | None => false end = true.
Proof. vm_compute. reflexivity. Qed.

Lemma step9 : merge_step 1 request x8 x9.
Proof.
  pose proof (w_read_back 1 request x8 parts1 ltac:(vm_compute; reflexivity)) as H.
  pose proof read_back1 as E. destruct (operation 1 (reg x8)) as [snap|]; [|done]. by rewrite E in H.
Qed.

Lemma run12 : merge_reach 1 request 26 x12.
Proof.
  assert (events_of 1 (events begun) <> []) as Hb by (vm_compute; done).
  pose proof (mreach_start 1 request 2 begun [] reach_begun Hb) as R0. fold x0 in R0.
  assert (merge_step 1 request x0 x1) as S1 by exact (w_start 1 request x0 eq_refl).
  assert (merge_step 1 request x1 x2) as S2
    by (apply (w_check 1 request x1 dir_of_games (fun _ => false) 1); vm_compute; reflexivity).
  assert (merge_step 1 request x2 x3) as S3 by (apply (w_admitted 1 request x2 parts1 out1); vm_compute; reflexivity).
  assert (merge_step 1 request x3 x4) as S4 by (apply (w_loop 1 request x3 parts1 out1 None 1); vm_compute; reflexivity).
  assert (pc x4 = PcAttempt parts1 out1 None 1) as P4 by (vm_compute; reflexivity).
  assert (merge_step 1 request x4 x5) as S5 by exact (w_attempt 1 request x4 _ _ _ _ good_env _ _ _ P4 attempt1).
  assert (merge_step 1 request x5 x6) as S6 by exact (w_decide 1 request x5 parts1 out1 1 (AttemptMerged out1) 1 eq_refl).
  assert (merge_step 1 request x6 x7) as S7 by exact (w_announce 1 request x6 parts1 out1 eq_refl eq_refl).
  assert (merge_step 1 request x7 x8) as S8 by (apply (w_complete 1 request x7 parts1 out1); vm_compute; reflexivity).
  assert (merge_step 1 request x9 x10) as S10 by exact (w_delete 1 request x9 _ _ eq_refl).
  assert (merge_step 1 request x10 x11) as S11 by exact (w_delete 1 request x10 _ _ eq_refl).
  assert (merge_step 1 request x11 x12) as S12 by exact (w_deleted 1 request x11 eq_refl).
  exact (mreach_worker _ _ _ _ _ (mreach_worker _ _ _ _ _ (mreach_worker _ _ _ _ _ (mreach_worker _ _ _ _ _
    (mreach_worker _ _ _ _ _ (mreach_worker _ _ _ _ _ (mreach_worker _ _ _ _ _ (mreach_worker _ _ _ _ _
    (mreach_worker _ _ _ _ _ (mreach_worker _ _ _ _ _ (mreach_worker _ _ _ _ _ (mreach_worker _ _ _ _ _ R0 S1) S2) S3) S4)
    S5) S6) S7) S8) step9) S10) S11) S12).
Qed.

(** The parts on disk are gone; the file that only the request named is not touched. *)
Example removed_on_disk : removed x12 = parts1.
Proof. vm_compute. reflexivity. Qed.

Lemma cancelled_merge_keeps_parts_witness :
  exists e o, last (events_of 1 (events (reg x12))) = Some e /\ event_state e = Completed (Merged o).
Proof.
  apply (cancelled_merge_keeps_parts 1 request 26 x12 §"/games/Game.Part1.RAR" run12);
    [vm_compute; reflexivity|rewrite removed_on_disk; by left].
Defined.

Lemma finished_merge_is_reported_witness :
  exists e, last (events_of 1 (events (reg x12))) = Some e /\ is_terminal (event_state e) = true.
Proof.
  apply (finished_merge_is_reported 1 request 26 x12 out1 run12); vm_compute; reflexivity.
Defined.

(** A split ZIP merged into a ZIP cannot go to the default place: that is the set's
    own last part. *)
Example zip_into_zip :
  resolved_output_path (mk_request (mk_dto §"/games/pic.zip" §"pic" ZipSplit []) OutZip NormalLevel None true None)
  = §"/games/pic.zip".
Proof. vm_compute. reflexivity. Qed.

End MergeExample.
