(* ===== verification/Whitelist.v ===== *)
(** Which domains a plugin may reach ([crates/network/src/features/whitelist]):
    approvals of the user, grants of the plugin's manifest and requests that wait
    for an answer, and their refinement of the history of calls. *)

From stdpp Require Import base tactics option list gmap sorting strings.
From Stdlib Require Import ZArith Lia Ascii.
From S2P Require Import Prelude Text.

#[local] Arguments String.list_ascii_of_string : simpl never.

Record WhitelistEntry := mk_entry { plugin_id : str; domain : str; approved_flag : bool }.

#[export] Instance WhitelistEntry_eq_dec : EqDecision WhitelistEntry.
Proof. solve_decision. Defined.

Inductive AccessCheck := Allowed | NeedsApproval | NotWhitelisted.

#[export] Instance AccessCheck_eq_dec : EqDecision AccessCheck.
Proof. solve_decision. Defined.

Notation Grants := (gmap (list ascii) (gset (list ascii))).

Record DomainWhitelist := mk_whitelist {
  approved : Grants;
  manifest_approved : Grants;
  pending : Grants
}.

(** [get(plugin)] and the set it finds. *)
Definition holds (g : Grants) (plugin d : str) : bool := bool_decide (d ∈ default ∅ (g !! plugin)).

(** [entry(plugin).or_default().insert(d)]. *)
Definition grant (g : Grants) (plugin d : str) : Grants := <[plugin := {[ d ]} ∪ default ∅ (g !! plugin)]> g.

(** [get_mut(plugin)] and [remove(d)]. *)
Definition withdraw (g : Grants) (plugin d : str) : Grants := alter (fun s => s ∖ {[ d ]}) plugin g.

Section whitelist.
Context {UT : UnicodeTables}.

Definition normalize_domain (d : str) : str := trim (to_lowercase d).

Definition whitelist_new : DomainWhitelist := mk_whitelist ∅ ∅ ∅.

Definition from_entries (entries : list WhitelistEntry) : DomainWhitelist :=
  foldl (fun w e =>
    if approved_flag e then mk_whitelist (grant (approved w) (plugin_id e) (domain e)) ∅ (pending w)
    else mk_whitelist (approved w) ∅ (grant (pending w) (plugin_id e) (domain e))) whitelist_new entries.

Definition check (w : DomainWhitelist) (plugin d : str) : AccessCheck :=
  let domain_normalized := normalize_domain d in
  if holds (approved w) plugin domain_normalized then Allowed
  else if holds (manifest_approved w) plugin domain_normalized then Allowed
  else if holds (pending w) plugin domain_normalized then NeedsApproval
  else NotWhitelisted.

Definition is_allowed (w : DomainWhitelist) (plugin d : str) : bool := bool_decide (check w plugin d = Allowed).

Definition add_pending (w : DomainWhitelist) (plugin d : str) : DomainWhitelist :=
  mk_whitelist (approved w) (manifest_approved w) (grant (pending w) plugin (normalize_domain d)).

Definition approve (w : DomainWhitelist) (plugin d : str) : DomainWhitelist :=
  let domain_normalized := normalize_domain d in
  mk_whitelist (grant (approved w) plugin domain_normalized) (manifest_approved w)
    (withdraw (pending w) plugin domain_normalized).

Definition revoke (w : DomainWhitelist) (plugin d : str) : DomainWhitelist :=
  mk_whitelist (withdraw (approved w) plugin (normalize_domain d)) (manifest_approved w) (pending w).

Definition replace_manifest_domains (w : DomainWhitelist) (plugin : str) (ds : list str) : DomainWhitelist :=
  let domains : gset str := list_to_set (map normalize_domain ds) in
  mk_whitelist (approved w)
    (if bool_decide (domains = ∅) then delete plugin (manifest_approved w)
     else <[plugin := domains]> (manifest_approved w))
    (alter (fun s => s ∖ domains) plugin (pending w)).

Definition clear_manifest_domains (w : DomainWhitelist) (plugin : str) : DomainWhitelist :=
  mk_whitelist (approved w) (delete plugin (manifest_approved w)) (pending w).

(** The entries of a map, in the order the hash maps give them. *)
Definition entries_of (flag : bool) (g : Grants) : list WhitelistEntry :=
  '(plugin, s) ← map_to_list g; d ← elements s; [mk_entry plugin d flag].

Definition get_pending (w : DomainWhitelist) : list WhitelistEntry := entries_of false (pending w).
Definition get_approved (w : DomainWhitelist) : list WhitelistEntry := entries_of true (approved w).

Definition get_all_entries (w : DomainWhitelist) : list WhitelistEntry :=
  let mine := get_approved w in
  let manifest := List.filter (fun e => negb (bool_decide (e ∈ mine))) (entries_of true (manifest_approved w)) in
  mine ++ manifest ++ get_pending w.

(** * Calls, and what they promise *)

Inductive WhitelistCall :=
| AddPending (plugin d : str)
| Approve (plugin d : str)
| Revoke (plugin d : str)
| ReplaceManifest (plugin : str) (ds : list str)
| ClearManifest (plugin : str).

Definition call (w : DomainWhitelist) (c : WhitelistCall) : DomainWhitelist :=
  match c with
  | AddPending p d => add_pending w p d
  | Approve p d => approve w p d
  | Revoke p d => revoke w p d
  | ReplaceManifest p ds => replace_manifest_domains w p ds
  | ClearManifest p => clear_manifest_domains w p
  end.

(** The specification looks at the calls only, the latest first: the user's last
    word on a domain, the manifest in force, and the last request for it. [d] is a
    normalized domain. *)
Fixpoint user_says (calls : list WhitelistCall) (p d : str) : bool :=
  match calls with
  | [] => false
  | Approve p' d' :: older => bool_decide (p' = p /\ normalize_domain d' = d) || user_says older p d
  | Revoke p' d' :: older =>
      if bool_decide (p' = p /\ normalize_domain d' = d) then false else user_says older p d
  | _ :: older => user_says older p d
  end.

Fixpoint manifest_says (calls : list WhitelistCall) (p d : str) : bool :=
  match calls with
  | [] => false
  | ReplaceManifest p' ds :: older =>
      if bool_decide (p' = p) then bool_decide (d ∈ map normalize_domain ds) else manifest_says older p d
  | ClearManifest p' :: older => if bool_decide (p' = p) then false else manifest_says older p d
  | _ :: older => manifest_says older p d
  end.

Fixpoint asked (calls : list WhitelistCall) (p d : str) : bool :=
  match calls with
  | [] => false
  | AddPending p' d' :: older => bool_decide (p' = p /\ normalize_domain d' = d) || asked older p d
  | Approve p' d' :: older => if bool_decide (p' = p /\ normalize_domain d' = d) then false else asked older p d
  | ReplaceManifest p' ds :: older =>
      if bool_decide (p' = p /\ d ∈ map normalize_domain ds) then false else asked older p d
  | _ :: older => asked older p d
  end.

Definition spec (calls : list WhitelistCall) (p d : str) : AccessCheck :=
  if user_says calls p (normalize_domain d) || manifest_says calls p (normalize_domain d) then Allowed
  else if asked calls p (normalize_domain d) then NeedsApproval
  else NotWhitelisted.

(** * Facts *)

Lemma holds_grant g p' d' p d :
  holds (grant g p' d') p d = bool_decide (p' = p /\ d' = d) || holds g p d.
Proof.
  unfold holds, grant. destruct (decide (p' = p)) as [->|Hne].
  - rewrite lookup_insert_eq. cbn [default]. destruct (decide (d' = d)) as [->|Hd].
    + rewrite !bool_decide_eq_true_2 by set_solver. done.
    + rewrite (bool_decide_eq_false_2 (p = p /\ d' = d)) by naive_solver. cbn. apply bool_decide_ext. set_solver.
  - rewrite lookup_insert_ne by done. rewrite (bool_decide_eq_false_2 (p' = p /\ d' = d)) by naive_solver. done.
Qed.

Lemma holds_alter (f : gset str -> gset str) g p' p d :
  f ∅ = ∅ ->
  holds (alter f p' g) p d =
    if bool_decide (p' = p) then bool_decide (d ∈ f (default ∅ (g !! p))) else holds g p d.
Proof.
  intros Hf. unfold holds. destruct (decide (p' = p)) as [->|E].
  - rewrite lookup_alter_eq, (bool_decide_eq_true_2 (p = p)) by done. destruct (g !! p); cbn; [done|by rewrite Hf].
  - by rewrite lookup_alter_ne, (bool_decide_eq_false_2 (p' = p)).
Qed.

Lemma holds_withdraw g p' d' p d :
  holds (withdraw g p' d') p d = if bool_decide (p' = p /\ d' = d) then false else holds g p d.
Proof.
  unfold withdraw. rewrite holds_alter by set_solver. unfold holds.
  repeat case_bool_decide; try done; set_solver.
Qed.

Lemma holds_delete g p' p d : holds (delete p' g) p d = if bool_decide (p' = p) then false else holds g p d.
Proof.
  unfold holds. destruct (decide (p' = p)) as [->|E].
  - by rewrite lookup_delete_eq, (bool_decide_eq_true_2 (p = p)).
  - by rewrite lookup_delete_ne, (bool_decide_eq_false_2 (p' = p)).
Qed.

Definition holds_all (w : DomainWhitelist) (calls : list WhitelistCall) : Prop :=
  forall p d, holds (approved w) p d = user_says calls p d
    /\ holds (manifest_approved w) p d = manifest_says calls p d /\ holds (pending w) p d = asked calls p d.

Lemma manifest_set (ds : list str) d :
  bool_decide (d ∈ (list_to_set (map normalize_domain ds) : gset str)) = bool_decide (d ∈ map normalize_domain ds).
Proof. apply bool_decide_ext. by rewrite elem_of_list_to_set. Qed.

Lemma call_holds w calls c : holds_all w calls -> holds_all (call w c) (c :: calls).
Proof.
  intros Hw p d. destruct (Hw p d) as (H1 & H2 & H3).
  destruct c as [p' d'|p' d'|p' d'|p' ds|p'];
    cbn [call add_pending approve revoke replace_manifest_domains clear_manifest_domains
         approved manifest_approved pending user_says manifest_says asked];
    rewrite ?holds_grant, ?holds_withdraw, ?holds_delete, ?H1, ?H2, ?H3; try done.
  split_and!; [done| |].
  - destruct (decide (list_to_set (map normalize_domain ds) = (∅ : gset str))) as [E|E].
    + rewrite bool_decide_eq_true_2 by done. rewrite holds_delete, H2. case_bool_decide; [|done].
      rewrite <-manifest_set, E. symmetry. apply bool_decide_eq_false_2. set_solver.
    + rewrite bool_decide_eq_false_2 by done. unfold holds at 1. destruct (decide (p' = p)) as [->|Ep].
      * rewrite lookup_insert_eq, (bool_decide_eq_true_2 (p = p)) by done. apply manifest_set.
      * rewrite lookup_insert_ne, (bool_decide_eq_false_2 (p' = p)) by done. exact H2.
  - rewrite holds_alter by set_solver. rewrite <-H3. unfold holds.
    repeat case_bool_decide; try done; set_solver.
Qed.

Lemma run_holds calls w older : holds_all w older -> holds_all (foldl call w calls) (rev calls ++ older).
Proof.
  revert w older; induction calls as [|c calls IH]; intros w older Hw; [done|]. cbn.
  rewrite <-app_assoc. cbn. by apply IH, call_holds.
Qed.

(** C30: After any calls, one after the other, on a new whitelist, the answer for a
    plugin and a domain is what the calls say: allowed when the user's last word on
    it was an approval or the manifest in force lists it, waiting when it was asked
    for and neither approved nor listed since, and unknown otherwise. So unloading or
    replacing a manifest takes no approval of the user's, and revoking one takes
    nothing the manifest grants. *)
Theorem whitelist_refines_log calls p d :
  check (foldl call whitelist_new calls) p d = spec (rev calls) p d.
Proof.
  destruct (run_holds calls whitelist_new [] ltac:(done) p (normalize_domain d)) as (H1 & H2 & H3).
  rewrite app_nil_r in *. unfold check, spec. rewrite H1, H2, H3. by destruct (user_says _ _ _), (manifest_says _ _ _).
Qed.

(** ** What is stored is read back *)

Lemma elem_of_entries_of flag g e :
  e ∈ entries_of flag g <-> approved_flag e = flag /\ holds g (plugin_id e) (domain e) = true.
Proof.
  unfold entries_of, holds. rewrite bool_decide_eq_true. rewrite list_elem_of_bind. split.
  - intros ([p s] & (d & He & Hd)%list_elem_of_bind & Hp). apply list_elem_of_singleton in He as ->.
    apply elem_of_elements in Hd. apply elem_of_map_to_list in Hp. cbn. rewrite Hp. done.
  - destruct e as [p d f]. cbn. intros [-> Hd]. destruct (g !! p) as [s|] eqn:E; cbn in Hd; [|set_solver].
    exists (p, s). split; [|by apply elem_of_map_to_list]. apply list_elem_of_bind. exists d.
    split; [by apply list_elem_of_singleton|by apply elem_of_elements].
Qed.

Lemma from_entries_holds entries w p d :
  let w' := foldl (fun w e =>
    if approved_flag e then mk_whitelist (grant (approved w) (plugin_id e) (domain e)) ∅ (pending w)
    else mk_whitelist (approved w) ∅ (grant (pending w) (plugin_id e) (domain e))) w entries in
  (holds (approved w') p d = true <-> holds (approved w) p d = true \/ mk_entry p d true ∈ entries)
  /\ (holds (pending w') p d = true <-> holds (pending w) p d = true \/ mk_entry p d false ∈ entries).
Proof.
  cbv zeta. revert w; induction entries as [|[p' d' f] entries IH]; intros w; cbn [foldl];
    [rewrite !elem_of_nil; naive_solver|].
  destruct (IH (if f then mk_whitelist (grant (approved w) p' d') ∅ (pending w)
    else mk_whitelist (approved w) ∅ (grant (pending w) p' d'))) as [H1 H2].
  cbn [approved_flag plugin_id domain]. rewrite H1, H2, !elem_of_cons. destruct f; cbn [approved pending];
    rewrite holds_grant, orb_true_iff, bool_decide_eq_true; naive_solver.
Qed.

(** A whitelist rebuilt from the approved and pending entries
    that were saved answers as the saved one does without its manifests. *)
Theorem whitelist_roundtrip w p d :
  check (from_entries (get_approved w ++ get_pending w)) p d
  = check (mk_whitelist (approved w) ∅ (pending w)) p d.
Proof.
  assert (forall f, mk_entry p (normalize_domain d) f ∈ get_approved w ++ get_pending w <->
    holds (if f then approved w else pending w) p (normalize_domain d) = true) as Hes.
  { intros f. unfold get_approved, get_pending. rewrite elem_of_app, !elem_of_entries_of. cbn. destruct f; naive_solver. }
  revert Hes. generalize (get_approved w ++ get_pending w). intros es Hes.
  destruct (from_entries_holds es whitelist_new p (normalize_domain d)) as [H1 H2].
  change (foldl _ whitelist_new es) with (from_entries es) in H1, H2. rewrite Hes in H1, H2.
  assert (manifest_approved (from_entries es) = ∅) as Hm.
  { clear. unfold from_entries. induction es as [|e es IH] using rev_ind; [done|].
    rewrite foldl_app. cbn. by destruct (approved_flag e). }
  assert (holds (approved (from_entries es)) p (normalize_domain d) = holds (approved w) p (normalize_domain d)) as E1
    by (apply eq_bool_prop_intro; rewrite !Is_true_true; naive_solver).
  assert (holds (pending (from_entries es)) p (normalize_domain d) = holds (pending w) p (normalize_domain d)) as E2
    by (apply eq_bool_prop_intro; rewrite !Is_true_true; naive_solver).
  unfold check. by rewrite Hm, E1, E2.
Qed.

End whitelist.

Module WhitelistExample.

#[local] Instance ascii_domains : UnicodeTables := ascii_tables.

(** An entry that was not normalized when it was stored is never found. *)
Example stored_in_capitals :
  check (from_entries [mk_entry §"p" §"Example.com" true]) §"p" §"Example.com" = NotWhitelisted.
Proof. vm_compute. reflexivity. Qed.

Example manifest_and_user :
  let calls := [ReplaceManifest §"p" [§"a.com"; §"B.com "]; Approve §"p" §"a.com"; ClearManifest §"p"] in
  (check (foldl call whitelist_new calls) §"p" §"A.com", check (foldl call whitelist_new calls) §"p" §"b.com")
  = (Allowed, NotWhitelisted).
Proof. vm_compute. reflexivity. Qed.

End WhitelistExample.
