(* ===== verification/DomainSecurity.v ===== *)
(** What is known about the domain of a URL ([crates/network/src/features/security]):
    the effective domain that requests are counted under, and the warnings shown
    before a plugin is allowed to reach it.

    URLs are the [url] crate's: a class gives the parser and the accessors the
    program calls. Parsing of IP addresses is the standard library's, written out. *)

From stdpp Require Import base tactics option list gmap sorting strings.
From Stdlib Require Import ZArith Lia Ascii.
From S2P Require Import Prelude Text.

Open Scope arclain_scope.

#[local] Arguments String.list_ascii_of_string : simpl never.

(** * Addresses *)

Inductive IpAddr :=
| V4 (octets : Z * Z * Z * Z)
| V6 (segments : list Z).

#[export] Instance IpAddr_eq_dec : EqDecision IpAddr.
Proof. solve_decision. Defined.

(** [read_number]: digits of the radix as long as there are some; at most [max]
    of them, no leading zero unless allowed, and no value above the type's. *)
Definition hex_digit (c : ascii) : option Z :=
  let n := Z.of_N (code c) in
  if (48 <=? n)%Z && (n <=? 57)%Z then Some (n - 48)%Z
  else if (97 <=? n)%Z && (n <=? 102)%Z then Some (n - 87)%Z
  else if (65 <=? n)%Z && (n <=? 70)%Z then Some (n - 55)%Z
  else None.

Definition radix_digit (radix : Z) (c : ascii) : option Z :=
  match hex_digit c with Some d => if (d <? radix)%Z then Some d else None | None => None end.

Fixpoint read_digits (radix hi : Z) (max : nat) (s : str) (acc : Z) (count : nat) : option (Z * nat * str) :=
  match s with
  | c :: s' =>
      match radix_digit radix c with
      | Some d =>
          let acc' := (acc * radix + d)%Z in
          if (max <=? count)%nat || (hi <? acc')%Z then None else read_digits radix hi max s' acc' (S count)
      | None => Some (acc, count, s)
      end
  | [] => Some (acc, count, s)
  end.

Definition read_number (radix hi : Z) (max : nat) (allow_zero_prefix : bool) (s : str) : option (Z * str) :=
  match read_digits radix hi max s 0 0 with
  | Some (n, count, rest) =>
      if (count =? 0)%nat then None
      else if negb allow_zero_prefix && match s with "0"%char :: _ => true | _ => false end && (1 <? count)%nat then None
      else Some (n, rest)
  | None => None
  end.

Definition read_given_char (c : ascii) (s : str) : option str :=
  match s with d :: s' => if ascii_eqb d c then Some s' else None | [] => None end.

Definition read_octet (s : str) : option (Z * str) := read_number 10 255 3 false s.

Definition read_ipv4_addr (s : str) : option (Z * Z * Z * Z * str) :=
  '(a, s) ← read_octet s; s ← read_given_char "."%char s;
  '(b, s) ← read_octet s; s ← read_given_char "."%char s;
  '(c, s) ← read_octet s; s ← read_given_char "."%char s;
  '(d, s) ← read_octet s; Some (a, b, c, d, s).

Definition read_separator {A} (first : bool) (read : str -> option (A * str)) (s : str) : option (A * str) :=
  if first then read s else s' ← read_given_char ":"%char s; read s'.

(** [read_groups]: the groups read, whether they end in an IPv4 address, the rest. *)
Fixpoint read_groups (left : nat) (first : bool) (s : str) : list Z * bool * str :=
  match left with
  | O => ([], false, s)
  | S left' =>
      let v4 := if (1 <=? left')%nat then
          read_separator first (fun s => '(a, b, c, d, s) ← read_ipv4_addr s; Some ((a, b, c, d), s)) s
        else None in
      match v4 with
      | Some ((a, b, c, d), s') => ([(a * 256 + b)%Z; (c * 256 + d)%Z], true, s')
      | None =>
          match read_separator first (read_number 16 65535 4 true) s with
          | Some (g, s') => let '(gs, v4, rest) := read_groups left' false s' in (g :: gs, v4, rest)
          | None => ([], false, s)
          end
      end
  end.

Definition read_ipv6_addr (s : str) : option (list Z * str) :=
  let '(head, head_ipv4, s1) := read_groups 8 true s in
  if (length head =? 8)%nat then Some (head, s1)
  else if head_ipv4 then None
  else
    s2 ← read_given_char ":"%char s1;
    s3 ← read_given_char ":"%char s2;
    let '(tail, _, s4) := read_groups (8 - (length head + 1)) true s3 in
    Some (head ++ replicate (8 - length head - length tail) 0%Z ++ tail, s4).

(** [str::parse::<IpAddr>]. *)
Definition parse_ip (s : str) : option IpAddr :=
  match read_ipv4_addr s with
  | Some (a, b, c, d, []) => Some (V4 (a, b, c, d))
  | Some _ => None
  | None => match read_ipv6_addr s with Some (gs, []) => Some (V6 gs) | _ => None end
  end.

(** * URLs *)

Inductive Host := DomainHost (name : str) | IpHost (address : IpAddr).

Class UrlCrate := {
  Url : Type;
  Origin : Type;
  origin_dec :: EqDecision Origin;
  url_parse : str -> result str Url;
  url_join : Url -> str -> result str Url;
  as_str : Url -> str;
  scheme : Url -> str;
  username : Url -> str;
  url_password : Url -> option str;
  fragment : Url -> option str;
  url_host : Url -> option Host;
  host_str : Url -> option str;
  port_or_known_default : Url -> option Z;
  origin : Url -> Origin;
  (** [Ipv4Addr::to_string] and [Ipv6Addr::to_string] *)
  ip_to_string : IpAddr -> str
}.

Definition is_ascii (s : str) : Prop := Forall (fun c => (code c < 128)%N) s.

(** What the crate documents: the text of a URL parses back to it, and the host of
    an HTTP URL is a domain in its ASCII (Punycode) form or an address, an IPv6
    address in square brackets. *)
Class UrlLaws (UC : UrlCrate) := {
  special_host_ascii u h : (scheme u = §"http" \/ scheme u = §"https") -> host_str u = Some h -> is_ascii h;
  as_str_parse s u : url_parse s = Ok u -> url_parse (as_str u) = Ok u;
  ipv6_host_bracketed u h a : url_host u = Some (IpHost (V6 a)) -> host_str u = Some h -> exists r, h = "["%char :: r
}.

(** * Warnings *)

Inductive DomainWarning :=
| HomographDetected (suspicious_char : str) (position : nat) (looks_like : ascii)
| SuspiciousSubdomain (subdomain looks_like : str)
| UnusualTld (tld : str)
| IpAddressWarning (ip : str)
| LocalhostOrPrivate
| SuspiciousEncoding
| ExcessiveSubdomains (count : nat)
| SuspiciousKeywords (keywords : list str).

Definition is_critical (w : DomainWarning) : bool :=
  match w with
  | HomographDetected _ _ _ | LocalhostOrPrivate | IpAddressWarning _ => true
  | _ => false
  end.

Record DomainInfo := mk_info {
  full_url : str;
  effective_domain : str;
  info_host : str;
  tld : str;
  warnings : list DomainWarning
}.

Definition has_warnings (i : DomainInfo) : bool := negb (bool_decide (length (warnings i) = 0)).
Definition has_critical_warnings (i : DomainInfo) : bool := existsb is_critical (warnings i).

Definition is_dot (c : ascii) : bool := ascii_eqb c "."%char.

Definition is_ip_address (h : str) : bool := match parse_ip h with Some _ => true | None => false end.

Definition is_localhost_or_private (h : str) : bool :=
  str_eqb h §"localhost" || starts_with h §"127." || starts_with h §"10." || starts_with h §"192.168."
  || starts_with h §"172.16." || starts_with h §"172.17." || starts_with h §"172.18." || starts_with h §"172.19."
  || starts_with h §"172.2" || starts_with h §"172.30." || starts_with h §"172.31.".

Definition MULTI_PART_TLDS : list str :=
  [§"co.jp"; §"ne.jp"; §"or.jp"; §"ac.jp"; §"go.jp"; §"com.au"; §"net.au"; §"org.au"; §"co.uk"; §"org.uk";
   §"co.nz"; §"com.br"; §"co.kr"; §"or.kr"].

(** The last labels, from the end: [parts[len - 1]], [parts[len - 2]], ... *)
Definition extract_effective_domain (parts : list str) : str * str :=
  match reverse parts with
  | [] => ([], [])
  | [only] => (only, only)
  | last1 :: last2 :: rest =>
      let two := last2 ++ §"." ++ last1 in
      match rest with
      | last3 :: _ =>
          if bool_decide (two ∈ MULTI_PART_TLDS) then (two, last3 ++ §"." ++ two) else (last1, two)
      | [] => (last1, two)
      end
  end.

Definition IMPERSONATION_TARGETS : list str :=
  [§"google"; §"microsoft"; §"apple"; §"amazon"; §"paypal"; §"facebook"; §"twitter"; §"instagram"; §"netflix";
   §"bank"; §"secure"; §"login"; §"verify"; §"account"; §"update"].

Section analysis.
Context {UT : UnicodeTables} {UC : UrlCrate}.

Definition check_suspicious_subdomain (parts : list str) (effective : str) : option DomainWarning :=
  let effective_parts := split_on is_dot effective in
  let subdomain_parts := take (length parts - length effective_parts) parts in
  head (sub ← subdomain_parts;
        target ← IMPERSONATION_TARGETS;
        if contains_str (to_lowercase sub) target then [SuspiciousSubdomain sub target] else []).

Definition parse_url (url_str : str) : result str DomainInfo :=
  match url_parse url_str with
  | Err e => Err (§"Invalid URL: " ++ e)
  | Ok url =>
      let? raw_host := ok_or (host_str url) §"URL has no host" in
      let h := to_lowercase raw_host in
      if is_ip_address h then Ok (mk_info url_str h h [] [IpAddressWarning h])
      else
        let parts := split_on is_dot h in
        let '(top, effective) := extract_effective_domain parts in
        let subdomain_count := length parts - length (split_on is_dot effective) in
        Ok (mk_info url_str effective h top
              ((if is_localhost_or_private h then [LocalhostOrPrivate] else [])
               ++ (if (3 <? subdomain_count)%nat then [ExcessiveSubdomains subdomain_count] else [])
               ++ match check_suspicious_subdomain parts effective with Some w => [w] | None => [] end))
  end.

(** Letters of other scripts that look like Latin ones. *)
Definition lookalikes : list (str * ascii) :=
  [(§"а", "a"%char); (§"е", "e"%char); (§"о", "o"%char); (§"р", "p"%char); (§"с", "c"%char); (§"у", "y"%char);
   (§"х", "x"%char); (§"А", "A"%char); (§"В", "B"%char); (§"Е", "E"%char); (§"К", "K"%char); (§"М", "M"%char);
   (§"Н", "H"%char); (§"О", "O"%char); (§"Р", "P"%char); (§"С", "C"%char); (§"Т", "T"%char); (§"У", "Y"%char);
   (§"Х", "X"%char); (§"і", "i"%char); (§"ј", "j"%char);
   (§"α", "a"%char); (§"ο", "o"%char); (§"ε", "e"%char); (§"Α", "A"%char); (§"Β", "B"%char); (§"Ε", "E"%char);
   (§"Η", "H"%char); (§"Ι", "I"%char); (§"Κ", "K"%char); (§"Μ", "M"%char); (§"Ν", "N"%char); (§"Ο", "O"%char);
   (§"Ρ", "P"%char); (§"Τ", "T"%char); (§"Υ", "Y"%char); (§"Χ", "X"%char); (§"Ζ", "Z"%char);
   (§"ı", "i"%char); (§"ɡ", "g"%char); (§"ɑ", "a"%char); (§"ß", "B"%char); (§"ℓ", "l"%char); (§"ｏ", "o"%char);
   (§"ａ", "a"%char)].

Definition get_lookalike (ch : str) : option ascii :=
  snd <$> List.find (fun p => str_eqb ch p.1) lookalikes.

Definition detect_homographs (domain : str) : list DomainWarning :=
  omap (fun '(pos, ch) => HomographDetected ch pos <$> get_lookalike ch)
    (zip (seq 0 (length (chars domain))) (chars domain)).

Definition SUSPICIOUS : list str :=
  [§"secure-"; §"-secure"; §"login-"; §"-login"; §"signin-"; §"-signin"; §"verify-"; §"-verify"; §"update-"; §"-update";
   §"confirm-"; §"-confirm"; §"account-"; §"-account"; §"banking"; §"wallet"; §"crypto"].

Definition check_suspicious_keywords (domain : str) : list str :=
  List.filter (contains_str (to_lowercase domain)) SUSPICIOUS.

Definition has_suspicious_encoding (url : str) : bool :=
  existsb (contains_str url) [§"%2F%2F"; §"%40"; §"%3A%2F"; §"%00"].

Definition SUSPICIOUS_TLDS : list str :=
  [§"tk"; §"ml"; §"ga"; §"cf"; §"gq"; §"xyz"; §"top"; §"wang"; §"win"; §"bid"; §"click"; §"link"; §"download"; §"stream";
   §"racing"].

Definition check_unusual_tld (domain : str) : option DomainWarning :=
  match last (split_on is_dot domain) with
  | Some t => if bool_decide (to_lowercase t ∈ SUSPICIOUS_TLDS) then Some (UnusualTld t) else None
  | None => None
  end.

Definition check_patterns (url domain : str) : list DomainWarning :=
  let keywords := check_suspicious_keywords domain in
  (match keywords with [] => [] | _ => [SuspiciousKeywords keywords] end)
  ++ (if has_suspicious_encoding url then [SuspiciousEncoding] else [])
  ++ match check_unusual_tld domain with Some w => [w] | None => [] end.

(** The check for mixed scripts at the end adds nothing. *)
Definition analyze_url (url : str) : result str DomainInfo :=
  let? info := parse_url url in
  Ok (mk_info (full_url info) (effective_domain info) (info_host info) (tld info)
        (warnings info ++ detect_homographs (info_host info) ++ check_patterns url (effective_domain info))).

End analysis.

(** * The effective domain *)

Lemma split_on_app_sep p (a b : str) c :
  p c = true -> split_on p (a ++ c :: b) = split_on p a ++ split_on p b.
Proof.
  intros Hc. induction a as [|d a IH]; cbn; [by rewrite Hc|]. rewrite IH.
  destruct (p d); [done|]. destruct (split_on p a) as [|w ws] eqn:E; [by destruct (split_on_not_nil p a)|done].
Qed.

(** Labels put in front of a host do not change the
    domain its requests are counted under, unless that domain is itself one of the
    known two-part suffixes; so a plugin gets no second budget from a subdomain. *)
Theorem subdomains_share_effective sub host :
  2 <= length (split_on is_dot host) ->
  (extract_effective_domain (split_on is_dot host)).2 ∉ MULTI_PART_TLDS ->
  extract_effective_domain (split_on is_dot (sub ++ "."%char :: host))
  = extract_effective_domain (split_on is_dot host).
Proof.
  rewrite split_on_app_sep by done. generalize (split_on is_dot sub) as pre, (split_on is_dot host) as parts.
  intros pre parts Hlen Hne. unfold extract_effective_domain in *. rewrite reverse_app.
  rewrite <-length_reverse in Hlen. destruct (reverse parts) as [|l1 [|l2 rest]]; cbn in Hlen; [lia..|]. cbn [app].
  destruct rest as [|l3 rest]; [|done]. cbn [app]. destruct (reverse pre) as [|l3 ?]; [done|].
  cbn [snd] in Hne. by rewrite bool_decide_eq_false_2.
Qed.

(** * What the warnings miss *)

(** [str::to_lowercase] of ASCII text. *)
Class AsciiLowercase (UT : UnicodeTables) :=
  lowercase_of_ascii s : is_ascii s -> to_lowercase s = to_ascii_lowercase s.

Lemma ascii_lower_code c : (code c < 128)%N -> (code (ascii_lower c) < 128)%N.
Proof.
  intros H. unfold ascii_lower. destruct (_ && _) eqn:E; [|done].
  apply andb_true_iff in E as [E1%N.leb_le E2%N.leb_le]. unfold code in *. rewrite N_ascii_embedding; lia.
Qed.

Lemma chars_ascii s : is_ascii s -> chars s = map (fun c => [c]) s.
Proof.
  intros H. unfold chars. induction H as [|c s Hc _ IH]; [done|]. cbn [length chars_fuel].
  assert (char_width c = 1) as -> by (unfold char_width; by rewrite (proj2 (N.ltb_lt _ _) Hc)).
  cbn [take drop map]. by rewrite <-IH.
Qed.

Lemma get_lookalike_ascii c : get_lookalike [c] = None.
Proof.
  unfold get_lookalike. destruct (List.find _ _) as [p|] eqn:E; [|done]. exfalso.
  apply find_some in E as [Hin Heq%str_eqb_eq].
  assert (forallb (fun p => (2 <=? length p.1)%nat) lookalikes = true) as H by (vm_compute; reflexivity).
  rewrite forallb_forall in H. apply H in Hin. by rewrite <-Heq in Hin.
Qed.

Lemma detect_homographs_ascii h : is_ascii h -> detect_homographs h = [].
Proof.
  intros Ha. unfold detect_homographs. rewrite chars_ascii by done. apply elem_of_nil_inv.
  intros w ([pos ch] & Hin%elem_of_zip_r & Hw)%list_elem_of_omap.
  apply list_elem_of_In, in_map_iff in Hin as (c & <- & _). by rewrite get_lookalike_ascii in Hw.
Qed.

Section missed.
Context {UT : UnicodeTables} {UC : UrlCrate} {UL : UrlLaws UC} {AL : AsciiLowercase UT}.

Lemma analyze_host s info :
  analyze_url s = Ok info ->
  exists u h, url_parse s = Ok u /\ host_str u = Some h /\ info_host info = to_lowercase h.
Proof.
  unfold analyze_url. intros (i & Hi & [= <-])%rbind_ok. cbn [info_host]. unfold parse_url in Hi.
  destruct (url_parse s) as [u|]; [|done]. apply rbind_ok in Hi as (h & Hh%ok_or_ok & Hi). exists u, h.
  split_and!; [done..|]. cbv zeta in Hi. destruct (is_ip_address _); [by injection Hi as <-|].
  destruct (extract_effective_domain _). by injection Hi as <-.
Qed.

Lemma parse_url_warnings s u h info :
  url_parse s = Ok u -> host_str u = Some h -> parse_url s = Ok info ->
  forall w, w ∈ warnings info ->
    (is_ip_address (to_lowercase h) = true /\ w = IpAddressWarning (to_lowercase h))
    \/ (is_localhost_or_private (to_lowercase h) = true /\ w = LocalhostOrPrivate) \/ is_critical w = false.
Proof.
  unfold parse_url. intros -> -> Hi w Hw. cbn [ok_or rbind] in Hi. cbv zeta in Hi.
  destruct (is_ip_address (to_lowercase h)).
  { injection Hi as <-. cbn in Hw. apply list_elem_of_singleton in Hw as ->. by left. }
  destruct (extract_effective_domain _) as [top eff]. injection Hi as <-. cbn [warnings] in Hw.
  rewrite !elem_of_app in Hw. right. destruct Hw as [Hw|[Hw|Hw]].
  - destruct (is_localhost_or_private _); [|by apply elem_of_nil in Hw]. apply list_elem_of_singleton in Hw as ->. by left.
  - destruct (3 <? _)%nat; [|by apply elem_of_nil in Hw]. apply list_elem_of_singleton in Hw as ->. by right.
  - right. destruct (check_suspicious_subdomain _ _) as [w'|] eqn:E; [|by apply elem_of_nil in Hw].
    apply list_elem_of_singleton in Hw as ->. unfold check_suspicious_subdomain in E.
    apply head_Some_elem_of, list_elem_of_bind in E as (sub & E & _).
    apply list_elem_of_bind in E as (t & E & _). destruct (contains_str _ _); [|by apply elem_of_nil in E].
    by apply list_elem_of_singleton in E as ->.
Qed.

Lemma check_patterns_mild url d w : w ∈ check_patterns url d -> is_critical w = false.
Proof.
  unfold check_patterns. cbv zeta. rewrite !elem_of_app. intros [H|[H|H]].
  - destruct (check_suspicious_keywords d); [by apply elem_of_nil in H|]. by apply list_elem_of_singleton in H as ->.
  - destruct (has_suspicious_encoding url); [|by apply elem_of_nil in H]. by apply list_elem_of_singleton in H as ->.
  - destruct (check_unusual_tld d) as [w'|] eqn:E; [|by apply elem_of_nil in H].
    apply list_elem_of_singleton in H as ->. unfold check_unusual_tld in E.
    destruct (last _); [|done]. destruct (bool_decide _); [|done]. by injection E as <-.
Qed.

(** The analysis looks for lookalike letters in the
    host that the URL parser returns, and that is the Punycode form: for no HTTP or
    HTTPS URL does it report one. *)
Theorem homographs_never_reported s u info :
  url_parse s = Ok u -> (scheme u = §"http" \/ scheme u = §"https") -> analyze_url s = Ok info ->
  forall c pos l, HomographDetected c pos l ∉ warnings info.
Proof.
  intros Hu Hs Ha c pos l. destruct (analyze_host _ _ Ha) as (u' & h & Hu' & Hh & Hih).
  rewrite Hu in Hu'. injection Hu' as <-. pose proof (special_host_ascii u h Hs Hh) as Hasc.
  unfold analyze_url in Ha. apply rbind_ok in Ha as (i & Hi & [= <-]). cbn [warnings info_host] in *.
  rewrite Hih, lowercase_of_ascii by done. rewrite detect_homographs_ascii.
  2:{ unfold to_ascii_lowercase, is_ascii. rewrite Forall_map. eapply Forall_impl; [exact Hasc|]. apply ascii_lower_code. }
  cbn [app]. rewrite elem_of_app. intros [H|H%check_patterns_mild]; [|done].
  destruct (parse_url_warnings _ _ _ _ Hu Hh Hi _ H) as [[_ ?]|[[_ ?]|?]]; done.
Qed.

(** A URL whose host is an IPv6 address, the loopback
    address included, is given no critical warning: neither that it is an address nor
    that it is local. *)
Theorem ipv6_literals_unflagged s u a info :
  url_parse s = Ok u -> (scheme u = §"http" \/ scheme u = §"https") ->
  url_host u = Some (IpHost (V6 a)) -> analyze_url s = Ok info -> has_critical_warnings info = false.
Proof.
  intros Hu Hs H6 Ha. destruct (analyze_host _ _ Ha) as (u' & h & Hu' & Hh & Hih).
  rewrite Hu in Hu'. injection Hu' as <-. pose proof (special_host_ascii u h Hs Hh) as Hasc.
  destruct (ipv6_host_bracketed u h a H6 Hh) as [r ->].
  assert (to_lowercase ("["%char :: r) = "["%char :: to_ascii_lowercase r) as El by (by rewrite lowercase_of_ascii).
  unfold analyze_url in Ha. apply rbind_ok in Ha as (i & Hi & [= <-]). cbn [info_host] in Hih.
  unfold has_critical_warnings. cbn [warnings]. apply not_true_is_false. intros (w & Hw & Hc)%existsb_exists.
  apply list_elem_of_In in Hw. rewrite Hih, El, detect_homographs_ascii in Hw.
  2:{ unfold is_ascii in *. apply Forall_cons in Hasc as [_ Hr]. constructor; [done|].
      unfold to_ascii_lowercase. rewrite Forall_map. eapply Forall_impl; [exact Hr|]. apply ascii_lower_code. }
  cbn [app] in Hw. rewrite elem_of_app in Hw. destruct Hw as [Hw|Hw%check_patterns_mild]; [|congruence].
  destruct (parse_url_warnings _ _ _ _ Hu Hh Hi _ Hw) as [[Hip _]|[[Hl _]|?]]; [..|congruence]; rewrite El in *; done.
Qed.

End missed.

Module DomainSecurityExample.

#[export] Instance ascii_domains : UnicodeTables := ascii_tables.

#[export] Instance ascii_domains_lowercase : AsciiLowercase ascii_domains.
Proof. intros s _. reflexivity. Qed.

(** URLs of the form [scheme://host/path], ports and the rest left out; a URL is the
    text it was parsed from. *)
Record SmallUrl := mk_url { su_scheme : str; su_host : Host; su_path : str }.

Definition ascii_only (s : str) : str := List.filter (fun c => (code c <? 128)%N) s.

Definition ip_text (a : IpAddr) : str :=
  let num z := decimal (Z.to_N z) in
  match a with
  | V4 (a, b, c, d) => join §"." [num a; num b; num c; num d]
  | V6 gs => join §":" (map num gs)
  end.

Definition host_text (h : Host) : str :=
  match h with
  | DomainHost n => ascii_only n
  | IpHost (V4 _ as a) => ip_text a
  | IpHost (V6 _ as a) => §"[" ++ ip_text a ++ §"]"
  end.

Definition decode (s : str) : result str SmallUrl :=
  let go sch rest :=
    let '(h, path) := match find_char is_slash rest with
                      | Some i => (take i rest, drop i rest)
                      | None => (rest, §"/")
                      end in
    match strip_prefix §"[" h with
    | Some inner =>
        match strip_suffix §"]" inner with
        | Some a => match read_ipv6_addr a with
                    | Some (gs, []) => Ok (mk_url sch (IpHost (V6 gs)) path)
                    | _ => Err §"invalid IPv6 address"
                    end
        | None => Err §"invalid IPv6 address"
        end
    | None => match parse_ip h with
              | Some a => Ok (mk_url sch (IpHost a) path)
              | None => Ok (mk_url sch (DomainHost (to_ascii_lowercase h)) path)
              end
    end in
  match strip_prefix §"http://" s, strip_prefix §"https://" s with
  | Some rest, _ => go §"http" rest
  | None, Some rest => go §"https" rest
  | None, None => Err §"relative URL without a base"
  end.

Definition decoded (s : str) : SmallUrl :=
  match decode s with Ok u => u | Err _ => mk_url [] (DomainHost []) [] end.

Definition small_parse (s : str) : result str str := let? _ := decode s in Ok s.

#[export] Instance small_urls : UrlCrate := {|
  Url := str;
  Origin := str * str;
  url_parse := small_parse;
  url_join u loc :=
    match loc with
    | "/"%char :: _ => small_parse (su_scheme (decoded u) ++ §"://" ++ host_text (su_host (decoded u)) ++ loc)
    | _ => small_parse loc
    end;
  as_str u := u;
  scheme u := su_scheme (decoded u);
  username _ := [];
  url_password _ := None;
  fragment _ := None;
  url_host u := Some (su_host (decoded u));
  host_str u := Some (host_text (su_host (decoded u)));
  port_or_known_default u := Some (if str_eqb (su_scheme (decoded u)) §"https" then 443%Z else 80%Z);
  origin u := (su_scheme (decoded u), host_text (su_host (decoded u)));
  ip_to_string := ip_text
|}.

Lemma decimal_ascii_text n : is_ascii (decimal n).
Proof.
  destruct (decimal_spec n) as (c & ds & E & Hd & _). rewrite E. eapply Forall_impl; [exact Hd|].
  intros d H. unfold is_digit in H. apply andb_true_iff in H as [_ H%N.leb_le]. lia.
Qed.

Lemma ip_text_ascii a : is_ascii (ip_text a).
Proof.
  assert (is_ascii §"." /\ is_ascii §":") as [H1 H2] by (split; repeat constructor).
  destruct a as [[[[a b] c] d]|gs]; cbn [ip_text]; apply Forall_join; try done.
  - repeat constructor; apply decimal_ascii_text.
  - rewrite Forall_map. apply Forall_true. intros. apply decimal_ascii_text.
Qed.

#[export] Instance small_urls_laws : UrlLaws small_urls.
Proof.
  split.
  - intros u h _ [= <-]. destruct (su_host (decoded u)) as [n|[a|gs]]; cbn [host_text].
    + unfold ascii_only. apply Forall_forall. intros c [_ H]%list_elem_of_In%filter_In. by apply N.ltb_lt.
    + apply ip_text_ascii.
    + apply Forall_app. split; [by repeat constructor|]. apply Forall_app. split; [apply ip_text_ascii|by repeat constructor].
  - intros s u H. cbn in *. unfold small_parse in *. apply rbind_ok in H as (r & Hr & [= <-]). by rewrite Hr.
  - intros u h a [= Hu] [= <-]. rewrite Hu. cbn [host_text]. by eexists.
Qed.

Lemma subdomains_share_effective_witness :
  extract_effective_domain (split_on is_dot §"a.b.shop.co.jp") = (§"co.jp", §"shop.co.jp").
Proof.
  transitivity (extract_effective_domain (split_on is_dot §"shop.co.jp")); [|vm_compute; reflexivity].
  apply (subdomains_share_effective §"a.b" §"shop.co.jp"); [by apply Nat.leb_le|].
  apply (bool_decide_unpack _). vm_compute. exact I.
Defined.

Definition spoofed : str := §"https://gооgle.com/".

Lemma homographs_never_reported_witness :
  exists info, analyze_url spoofed = Ok info
    /\ forall c pos l, HomographDetected c pos l ∉ warnings info.
Proof.
  eexists. split; [vm_compute; reflexivity|].
  eapply (homographs_never_reported spoofed); [vm_compute; reflexivity|by right|vm_compute; reflexivity].
Defined.

Lemma ipv6_literals_unflagged_witness :
  exists info, analyze_url §"http://[::1]/" = Ok info /\ has_critical_warnings info = false.
Proof.
  eexists. split; [vm_compute; reflexivity|].
  eapply (ipv6_literals_unflagged §"http://[::1]/"); [vm_compute; reflexivity|by left|reflexivity|vm_compute; reflexivity].
Defined.

(** The same letters are found in text that no URL parser went over. *)
Example homographs_in_plain_text : length (detect_homographs §"gооgle.com") = 2%nat.
Proof. vm_compute. reflexivity. Qed.

Example addresses :
  map parse_ip [§"127.0.0.1"; §"01.2.3.4"; §"::1"; §"1:2::ffff:1.2.3.4"; §"[::1]"; §"256.1.1.1"]
  = [Some (V4 (127, 0, 0, 1)%Z); None; Some (V6 [0;0;0;0;0;0;0;1]%Z);
     Some (V6 [1;2;0;0;0;65535;258;772]%Z); None; None].
Proof. vm_compute. reflexivity. Qed.

End DomainSecurityExample.
