(* ===== verification/PluginNetwork.v ===== *)
(** Requests that plugins make ([crates/network/src/features/request/plugin_policy.rs]
    and the checked executor of [request/client.rs]): which URLs, headers and
    addresses a plugin may use, how a target is authorized, and the redirect loop.

    DNS, the server, the whitelist, the limiter and the routing are given anew to
    every hop, so they may change in any way while a request is under way. *)

From stdpp Require Import base tactics option list gmap sorting strings.
From Stdlib Require Import ZArith Lia Ascii.
From S2P Require Import Prelude Text RateLimiter Whitelist DomainSecurity.

Open Scope arclain_scope.

#[local] Arguments String.list_ascii_of_string : simpl never.

Definition MAX_PLUGIN_REDIRECTS : nat := 5.

Inductive HttpMethod := Get | Post | Put | Delete.

#[export] Instance HttpMethod_eq_dec : EqDecision HttpMethod.
Proof. solve_decision. Defined.

Inductive HttpError :=
| PluginNetworkNotConfigured (plugin : str)
| PluginNetworkDisabled (plugin : str)
| DomainNotWhitelisted (d : str)
| DomainNeedsApproval (d : str)
| RateLimited (d : str)
| InvalidUrl (reason : str)
| DnsResolutionFailed (h reason : str)
| UnsafeResolvedAddress (address : IpAddr)
| RedirectLimitExceeded
| PinnedResolutionUnavailable (reason : str)
| SecurityWarning (message : str)
| RequestFailed (message : str)
| ResponseTooLarge (limit : Z)
| Timeout
| CancelledError.

Record PluginNetworkPolicy := mk_policy { network_enabled : bool; requests_per_minute : Z }.

(** * Public addresses *)

Definition is_public_ipv4 (octets : Z * Z * Z * Z) : bool :=
  let '(first, second, third, _) := octets in
  let eqz a b := (a =? b)%Z in
  let within lo hi x := ((lo <=? x) && (x <=? hi))%Z in
  (if eqz first 0 || eqz first 10 || eqz first 127 || within 224 255 first then false
  else if eqz first 100 && within 64 127 second then false
  else if eqz first 169 && eqz second 254 then false
  else if eqz first 172 && within 16 31 second then false
  else if eqz first 192 && eqz second 0 && eqz third 0 then false
  else if eqz first 192 && eqz second 0 && eqz third 2 then false
  else if eqz first 192 && eqz second 31 && eqz third 196 then false
  else if eqz first 192 && eqz second 52 && eqz third 193 then false
  else if eqz first 192 && eqz second 88 && eqz third 99 then false
  else if eqz first 192 && eqz second 168 then false
  else if eqz first 192 && eqz second 175 && eqz third 48 then false
  else if eqz first 198 && (eqz second 18 || eqz second 19) then false
  else if eqz first 198 && eqz second 51 && eqz third 100 then false
  else if eqz first 203 && eqz second 0 && eqz third 113 then false
  else true)%Z.

Definition seg (segments : list Z) (i : nat) : Z := nth i segments 0%Z.

Definition is_public_ipv6 (s : list Z) : bool :=
  let within lo hi x := ((lo <=? x) && (x <=? hi))%Z in
  if negb (within 0x2000%Z 0x3fff%Z (seg s 0)) then false
  else if (seg s 0 =? 0x2001)%Z && (seg s 1 <=? 0x01ff)%Z then false
  else if (seg s 0 =? 0x2001)%Z && within 0x0020%Z 0x002f%Z (seg s 1) then false
  else if (seg s 0 =? 0x2001)%Z && (seg s 1 =? 0x0db8)%Z then false
  else if (seg s 0 =? 0x2002)%Z then false
  else if (seg s 0 =? 0x3fff)%Z && (seg s 1 <=? 0x0fff)%Z then false
  else if (seg s 0 =? 0x2620)%Z && (seg s 1 =? 0x004f)%Z && (seg s 2 =? 0x8000)%Z then false
  else true.

(** [to_ipv4_mapped().is_some()]. *)
Definition is_ipv4_mapped (s : list Z) : bool := bool_decide (take 6 s = [0; 0; 0; 0; 0; 0xffff]%Z).

Definition is_public_address (a : IpAddr) : bool :=
  match a with
  | V4 octets => is_public_ipv4 octets
  | V6 s => if is_ipv4_mapped s then false else is_public_ipv6 s
  end.

Definition validate_resolved_addresses (addresses : list IpAddr) : result HttpError unit :=
  match addresses with
  | [] => Err (DnsResolutionFailed §"<unknown>" §"resolver returned no addresses")
  | _ => match List.find (fun a => negb (is_public_address a)) addresses with
         | Some a => Err (UnsafeResolvedAddress a)
         | None => Ok tt
         end
  end.

(** * Headers *)

Definition FORBIDDEN : list str :=
  [§"host"; §"proxy-authorization"; §"content-length"; §"connection"; §"proxy-connection"; §"keep-alive";
   §"transfer-encoding"; §"upgrade"; §"te"; §"trailer"; §"forwarded"].

Definition forbidden_header (name : str) : bool :=
  existsb (eq_ignore_ascii_case name) FORBIDDEN
  || ((length §"x-forwarded-" <=? length name)%nat && is_char_boundary name (length §"x-forwarded-")
      && eq_ignore_ascii_case (take (length §"x-forwarded-") name) §"x-forwarded-").

Notation Headers := (list (str * str)).

Definition validate_plugin_headers {UT : UnicodeTables} (headers : Headers) : result HttpError unit :=
  match List.find (fun h => forbidden_header h.1) headers with
  | Some h => Err (SecurityWarning (§"plugin requests must not set routing header " ++ debug_str h.1))
  | None => Ok tt
  end.

(** What a hop to another origin takes away, and what a change to GET takes away. *)
Definition credential_header (name : str) : bool :=
  eq_ignore_ascii_case name §"authorization" || eq_ignore_ascii_case name §"cookie".

Definition body_header (name : str) : bool :=
  eq_ignore_ascii_case name §"content-length" || eq_ignore_ascii_case name §"content-type"
  || eq_ignore_ascii_case name §"transfer-encoding".

Section plugin_network.
Context {UT : UnicodeTables} {UC : UrlCrate} {Proxy : Type}.

(** * URLs *)

Definition validate_plugin_url (value : str) : result HttpError Url :=
  match url_parse value with
  | Err e => Err (InvalidUrl e)
  | Ok url =>
      if negb (bool_decide (scheme url = §"http" \/ scheme url = §"https")) then
        Err (InvalidUrl §"plugin URLs must use HTTP or HTTPS")
      else if bool_decide (host_str url = None) then Err (InvalidUrl §"plugin URL has no host")
      else if negb (bool_decide (username url = [])) || bool_decide (is_Some (url_password url)) then
        Err (InvalidUrl §"plugin URLs must not contain credentials")
      else if bool_decide (is_Some (fragment url)) then Err (InvalidUrl §"plugin URLs must not contain fragments")
      else Ok url
  end.

Definition validate_redirect_target (current : Url) (location : str) : result HttpError Url :=
  match url_join current location with
  | Err e => Err (InvalidUrl (§"invalid redirect Location: " ++ e))
  | Ok target => validate_plugin_url (as_str target)
  end.

Definition DLSITE : list str := [§"dlsite.com"; §"dlsite.jp"].

Definition is_dlsite_url (url : str) : bool :=
  match url_parse url with
  | Ok u =>
      match host_str u with
      | Some h => existsb (fun apex => str_eqb h apex ||
          match strip_suffix apex h with Some prefix => ends_with prefix §"." | None => false end) DLSITE
      | None => false
      end
  | Err _ => false
  end.

(** What DLsite expects of a browser; the headers of a builder are added, not replaced. *)
Definition dlsite_browser_headers : Headers :=
  [(§"Cookie", §"adultchecked=1; locale=ja-JP");
   (§"Accept", §"text/html,application/xhtml+xml,application/xml;q=0.9,image/webp,*/*;q=0.8");
   (§"Accept-Language", §"ja-JP,ja;q=0.9,en-US;q=0.8,en;q=0.7");
   (§"Accept-Encoding", §"gzip, deflate, br");
   (§"Connection", §"keep-alive");
   (§"Referer", §"https://www.dlsite.com/");
   (§"Sec-Fetch-Dest", §"image");
   (§"Sec-Fetch-Mode", §"no-cors");
   (§"Sec-Fetch-Site", §"cross-site");
   (§"Cache-Control", §"no-cache");
   (§"Pragma", §"no-cache")].

Definition inject_dlsite_browser_headers (builder : Headers) : Headers := builder ++ dlsite_browser_headers.

(** [str::find] of a string, and [replacen] of its first occurrence. *)
Fixpoint find_str (s p : str) : option nat :=
  if starts_with s p then Some 0
  else match s with [] => None | _ :: s' => S <$> find_str s' p end.

Definition replace_first (s from to : str) : str :=
  match find_str s from with
  | Some i => take i s ++ to ++ drop (i + length from) s
  | None => s
  end.

(** One prefix of [fix_dlsite_cdn_folder]: the repaired URL, if there is one. *)
Definition fix_prefix (url prefix : str) : option str :=
  folder_start ← find_str url (§"/" ++ prefix);
  let after_folder_prefix := folder_start + 1 + length prefix in
  folder_end_rel ← find_char is_slash (drop after_folder_prefix url);
  let folder_end := after_folder_prefix + folder_end_rel in
  let folder_digits := take folder_end_rel (drop after_folder_prefix url) in
  let after_folder := folder_end + 1 in
  product_start_rel ← find_str (drop after_folder url) prefix;
  let product_start := after_folder + product_start_rel + length prefix in
  let product_digits :=
    match find_char (fun c => negb (is_digit c)) (drop product_start url) with
    | Some i => take i (drop product_start url)
    | None => drop product_start url
    end in
  if (length product_digits <? length folder_digits)%nat && forallb is_digit folder_digits
     && forallb is_digit product_digits then
    folder_num ← parse_unsigned u64_max folder_digits;
    let old_folder := prefix ++ folder_digits in
    let new_folder := prefix ++ padded (length product_digits) folder_num in
    if str_eqb old_folder new_folder then None else Some (replace_first url old_folder new_folder)
  else None.

Definition fix_dlsite_cdn_folder (url : str) : str :=
  let is_image_host := match url_parse url with
                       | Ok u => bool_decide (host_str u = Some §"img.dlsite.jp")
                       | Err _ => false
                       end in
  if negb is_image_host then url
  else default url (head (omap (fix_prefix url) [§"RJ"; §"VJ"; §"BJ"; §"RE"])).

(** * Authorization of a target *)

(** A [reqwest::Response] as far as the loop looks at it: [Some None] is a location
    that is not text. *)
Record Response := mk_response { status : Z; location : option (option str); response_body : str }.

Record Send := mk_send {
  sent_url : Url;
  sent_pinned : list (IpAddr * Z);
  sent_proxy : option Proxy;
  sent_method : HttpMethod;
  sent_headers : Headers;
  sent_body : option str
}.

(** What one hop meets. [client_for] is the routing crate's choice of a client: its
    proxy, and whether plugin routing is available; [build] is the building of the
    pinned client. *)
Record HopEnv := mk_hop {
  direct_available : bool;
  plugin_policies : gmap str PluginNetworkPolicy;
  lookup_host : str -> Z -> result str (list (IpAddr * Z));
  whitelist : Whitelist.DomainWhitelist;
  rate_limiter : RateLimiter.RateLimiter;
  now : Z;
  workload_ok : bool;
  client_for : option (option Proxy * bool);
  build : result str unit;
  send : Send -> result HttpError Response
}.

(** What a hop does. *)
Inductive Event :=
| Asked (hop : nat) (d : str)
| Counted (hop : nat) (scope : str)
| Sent (hop : nat) (s : Send).

Definition enabled_policy (env : HopEnv) (plugin : str) : result HttpError PluginNetworkPolicy :=
  let? policy := ok_or (plugin_policies env !! plugin) (PluginNetworkNotConfigured plugin) in
  if negb (network_enabled policy) then Err (PluginNetworkDisabled plugin) else Ok policy.

Definition registered_policy (env : HopEnv) (plugin : str) : result HttpError PluginNetworkPolicy :=
  if negb (direct_available env) then Err (RequestFailed §"plugin network routing is unavailable")
  else enabled_policy env plugin.

Definition selected_plugin_route (env : HopEnv) : result HttpError (option Proxy) :=
  if negb (workload_ok env) then Err (RequestFailed §"plugin network routing identity is invalid")
  else
    let? route := ok_or (client_for env)
      (RequestFailed §"plugin is configured to use a proxy, but no enabled proxy is configured") in
    if negb route.2 then Err (RequestFailed §"plugin network routing is unavailable") else Ok route.1.

(** The name a host is whitelisted and pinned under. *)
Definition host_key (h : Host) : str :=
  match h with DomainHost d => to_ascii_lowercase d | IpHost a => ip_to_string a end.

Definition resolve_host (env : HopEnv) (h : Host) (port : Z) : result HttpError (list (IpAddr * Z)) :=
  match h with
  | DomainHost d =>
      let name := to_ascii_lowercase d in
      match lookup_host env name port with
      | Ok addresses => Ok addresses
      | Err reason => Err (DnsResolutionFailed name reason)
      end
  | IpHost a => Ok [(a, port)]
  end.

Definition rate_domain (url : Url) (h : Host) : result HttpError str :=
  match h with
  | DomainHost _ =>
      match analyze_url (as_str url) with
      | Ok info => Ok (effective_domain info)
      | Err reason => Err (InvalidUrl reason)
      end
  | IpHost _ => Ok (host_key h)
  end.

Record AuthorizedPluginTarget := mk_target { t_url : Url; proxy_config : option Proxy; resolved : list (IpAddr * Z) }.

Definition authorize_target (env : HopEnv) (hop : nat) (plugin : str) (url : Url)
  : result HttpError AuthorizedPluginTarget * list Event :=
  let checked :=
    let? policy := registered_policy env plugin in
    let? url := validate_plugin_url (as_str url) in
    let? port := ok_or (port_or_known_default url) (InvalidUrl §"plugin URL has no usable port") in
    let? h := ok_or (url_host url) (InvalidUrl §"plugin URL has no host") in
    let? resolved := resolve_host env h port in
    let? _ := validate_resolved_addresses (map fst resolved) in
    let? rate := rate_domain url h in
    Ok (policy, url, h, resolved, rate) in
  match checked with
  | Err e => (Err e, [])
  | Ok (policy, url, h, resolved, rate) =>
      match Whitelist.check (whitelist env) plugin (host_key h) with
      | Whitelist.NeedsApproval => (Err (DomainNeedsApproval (host_key h)), [])
      | Whitelist.NotWhitelisted => (Err (DomainNotWhitelisted (host_key h)), [Asked hop (host_key h)])
      | Whitelist.Allowed =>
          let scope := plugin ++ ["000"%char] ++ rate in
          if negb (RateLimiter.try_acquire_with_limit (rate_limiter env) scope (requests_per_minute policy) (now env)).2
          then (Err (RateLimited rate), [])
          else
            (let? proxy := selected_plugin_route env in Ok (mk_target url proxy resolved), [Counted hop scope])
      end
  end.

Definition is_ipv4 (a : IpAddr * Z) : bool := match a.1 with V4 _ => true | V6 _ => false end.

(** [build_pinned_client]: the addresses the client is pinned to. *)
Definition build_pinned_client (env : HopEnv) (target : AuthorizedPluginTarget) : result HttpError (list (IpAddr * Z)) :=
  let? _host := ok_or (url_host (t_url target)) (InvalidUrl §"plugin URL has no host") in
  let? pinned :=
    match proxy_config target with
    | Some _ =>
        match List.filter is_ipv4 (resolved target) with
        | [] => Err (PinnedResolutionUnavailable
                  §"the locked SOCKS transport cannot encode a validated IPv6 target as an IP destination")
        | addresses => Ok addresses
        end
    | None => Ok (resolved target)
    end in
  match build env with Ok _ => Ok pinned | Err message => Err (RequestFailed message) end.

(** * The redirect loop *)

Record HttpRequest := mk_http { req_url : str; req_method : HttpMethod; req_headers : Headers; req_body : option str }.

Definition is_redirect (code : Z) : bool :=
  bool_decide (code ∈ [301; 302; 303; 307; 308]%Z).

Context (envs : nat -> HopEnv) (plugin : str).

(** The headers of a request to [url]. *)
Definition request_headers (url : Url) (headers : Headers) : Headers :=
  (if is_dlsite_url (as_str url) then inject_dlsite_browser_headers [] else []) ++ headers.

(** One turn of the loop: the answer, or the next URL, method, headers and body. *)
Definition next_request (redirects_followed : nat) (url : Url) (method : HttpMethod) (headers : Headers) (body : option str)
    (response : Response) : result HttpError Response + (Url * HttpMethod * Headers * option str) :=
  if negb (is_redirect (status response)) then inl (Ok response)
  else
    match location response with
    | None => inl (Ok response)
    | Some loc =>
        if (MAX_PLUGIN_REDIRECTS <=? redirects_followed)%nat then inl (Err RedirectLimitExceeded)
        else
          match loc with
          | None => inl (Err (InvalidUrl §"redirect Location is not valid text"))
          | Some text =>
              match validate_redirect_target url text with
              | Err e => inl (Err e)
              | Ok next_url =>
                  let headers :=
                    if bool_decide (origin url = origin next_url) then headers
                    else List.filter (fun h => negb (credential_header h.1)) headers in
                  let to_get := (status response =? 303)%Z
                    || ((status response =? 301)%Z || (status response =? 302)%Z) && bool_decide (method = Post) in
                  let headers :=
                    if to_get then List.filter (fun h => negb (body_header h.1)) headers else headers in
                  inr (next_url, if to_get then Get else method, headers, if to_get then None else body)
              end
          end
    end.

(** The loop, [None] when it takes more than [fuel] turns. *)
Fixpoint execute_loop (fuel redirects_followed : nat) (url : Url) (method : HttpMethod) (headers : Headers) (body : option str)
  : option (result HttpError Response * list Event) :=
  match fuel with
  | O => None
  | S fuel =>
      let env := envs redirects_followed in
      match authorize_target env redirects_followed plugin url with
      | (Err e, evs) => Some (Err e, evs)
      | (Ok target, evs) =>
          match build_pinned_client env target with
          | Err e => Some (Err e, evs)
          | Ok pinned =>
              let s := mk_send (t_url target) pinned (proxy_config target) method
                         (request_headers (t_url target) headers) body in
              let evs := evs ++ [Sent redirects_followed s] in
              match send env s with
              | Err e => Some (Err e, evs)
              | Ok response =>
                  match next_request redirects_followed (t_url target) method headers body response with
                  | inl r => Some (r, evs)
                  | inr (url, method, headers, body) =>
                      '(r, later) ← execute_loop fuel (redirects_followed + 1) url method headers body;
                      Some (r, evs ++ later)
                  end
              end
          end
      end
  end.

(** A turn for the first request and one for each redirect. *)
Definition execute (request : HttpRequest) : option (result HttpError Response * list Event) :=
  match (let? _ := validate_plugin_headers (req_headers request) in
         validate_plugin_url (fix_dlsite_cdn_folder (req_url request))) with
  | Err e => Some (Err e, [])
  | Ok url =>
      execute_loop (S MAX_PLUGIN_REDIRECTS) 0 url (req_method request) (req_headers request) (req_body request)
  end.

(** [request_for_plugin]: what is refused before a task is started. *)
Definition admit_request (env : HopEnv) (request : HttpRequest) : result HttpError unit :=
  let? _ := registered_policy env plugin in
  let? _ := validate_plugin_url (req_url request) in
  validate_plugin_headers (req_headers request).

End plugin_network.

(** * The address rules as blocks *)

(** A block of addresses: its first address and the length of its prefix. *)
Notation Cidr := (Z * Z)%type.

Definition in_block (width v : Z) (c : Cidr) : bool := ((c.1 <=? v) && (v <? c.1 + 2 ^ (width - c.2)))%Z.

Definition ipv4_value (o : Z * Z * Z * Z) : Z :=
  let '(a, b, c, d) := o in (a * 2 ^ 24 + b * 2 ^ 16 + c * 2 ^ 8 + d)%Z.

Definition v4_block (a b c d len : Z) : Cidr := (ipv4_value (a, b, c, d), len).

(** The special-purpose blocks, the way they are registered. *)
Definition ipv4_special : list Cidr :=
  [v4_block 0 0 0 0 8; v4_block 10 0 0 0 8; v4_block 100 64 0 0 10; v4_block 127 0 0 0 8;
   v4_block 169 254 0 0 16; v4_block 172 16 0 0 12; v4_block 192 0 0 0 24; v4_block 192 0 2 0 24;
   v4_block 192 31 196 0 24; v4_block 192 52 193 0 24; v4_block 192 88 99 0 24; v4_block 192 168 0 0 16;
   v4_block 192 175 48 0 24; v4_block 198 18 0 0 15; v4_block 198 51 100 0 24; v4_block 203 0 113 0 24;
   v4_block 224 0 0 0 4; v4_block 240 0 0 0 4].

Definition ipv6_value (s : list Z) : Z := foldl (fun acc g => acc * 2 ^ 16 + g)%Z 0%Z s.

Definition v6_block (a b c len : Z) : Cidr := (ipv6_value [a; b; c; 0; 0; 0; 0; 0]%Z, len).

Definition global_unicast : Cidr := v6_block 0x2000 0 0 3.

Definition ipv6_special : list Cidr :=
  [v6_block 0x2001 0 0 23; v6_block 0x2001 0x20 0 28; v6_block 0x2001 0xdb8 0 32; v6_block 0x2002 0 0 16;
   v6_block 0x3fff 0 0 20; v6_block 0x2620 0x4f 0x8000 48].

Definition octet (z : Z) : Prop := (0 <= z < 256)%Z.
Definition segment (z : Z) : Prop := (0 <= z < 65536)%Z.

Definition valid_address (a : IpAddr) : Prop :=
  match a with
  | V4 (a, b, c, d) => octet a /\ octet b /\ octet c /\ octet d
  | V6 s => length s = 8 /\ Forall segment s
  end.

Lemma if_orb (c1 c2 x : bool) :
  (if c1 || c2 then false else x) = if c1 then false else if c2 then false else x.
Proof. by destruct c1. Qed.

Section octets.
Context (a b c d : Z) (Ha : octet a) (Hb : octet b) (Hc : octet c) (Hd : octet d).
Let v := ipv4_value (a, b, c, d).

(** A block on an octet's boundary fixes octets; one inside an octet gives a range. *)
Lemma block_inside x y k :
  octet x -> (0 <= y)%Z -> (0 <= k <= 8)%Z -> (y + 2 ^ k <= 256)%Z ->
  in_block 32 v (v4_block x y 0 0 (16 - k)) = ((a =? x) && ((y <=? b) && (b <=? y + 2 ^ k - 1)))%Z.
Proof.
  intros Hx Hy Hk Hr. unfold octet in *. apply eq_bool_prop_intro. rewrite !Is_true_true.
  unfold in_block, v, v4_block, ipv4_value. cbn [fst snd]. rewrite !andb_true_iff, Z.eqb_eq, !Z.leb_le, Z.ltb_lt.
  replace (32 - (16 - k))%Z with (16 + k)%Z by lia. rewrite Z.pow_add_r by lia.
  change (2 ^ 24)%Z with 16777216%Z. change (2 ^ 16)%Z with 65536%Z. change (2 ^ 8)%Z with 256%Z.
  assert (0 < 2 ^ k)%Z as Hp by (apply Z.pow_pos_nonneg; lia). generalize dependent (2 ^ k)%Z. intros p Hr Hp.
  set (u := (c * 256 + d)%Z). assert (0 <= u < 65536)%Z as Hu by (unfold u; lia).
  replace (a * 16777216 + b * 65536 + c * 256 + d)%Z with (a * 16777216 + b * 65536 + u)%Z by (unfold u; lia).
  clearbody u. split.
  - intros H. assert (a = x) as -> by lia. split; [done|lia].
  - intros [-> H]. lia.
Qed.

Lemma block8 x : octet x -> in_block 32 v (v4_block x 0 0 0 8) = (a =? x)%Z.
Proof.
  intros Hx. pose proof (block_inside x 0 8) as H. change (16 - 8)%Z with 8%Z in H. rewrite H by (try done; lia).
  change (2 ^ 8)%Z with 256%Z. unfold octet in *. destruct (a =? x)%Z; [|done]. cbn. lia.
Qed.

Lemma block16 x y : octet x -> octet y -> in_block 32 v (v4_block x y 0 0 16) = ((a =? x) && (b =? y))%Z.
Proof.
  intros Hx Hy. pose proof (block_inside x y 0) as H. change (16 - 0)%Z with 16%Z in H. unfold octet in *.
  rewrite H by lia. change (2 ^ 0)%Z with 1%Z. lia.
Qed.

Lemma block24 x y z :
  octet x -> octet y -> octet z -> in_block 32 v (v4_block x y z 0 24) = ((a =? x) && (b =? y) && (c =? z))%Z.
Proof.
  intros Hx Hy Hz. unfold octet in *. apply eq_bool_prop_intro. rewrite !Is_true_true.
  unfold in_block, v, v4_block, ipv4_value. cbn [fst snd]. rewrite !andb_true_iff, !Z.eqb_eq, Z.leb_le, Z.ltb_lt.
  change (2 ^ 24)%Z with 16777216%Z. change (2 ^ 16)%Z with 65536%Z. change (2 ^ 8)%Z with 256%Z.
  change (2 ^ (32 - 24))%Z with 256%Z. lia.
Qed.

Lemma block4 x : octet x -> (x <= 240)%Z -> in_block 32 v (v4_block x 0 0 0 4) = ((x <=? a) && (a <=? x + 15))%Z.
Proof.
  intros Hx Hle. unfold octet in *. apply eq_bool_prop_intro. rewrite !Is_true_true.
  unfold in_block, v, v4_block, ipv4_value. cbn [fst snd]. rewrite !andb_true_iff, !Z.leb_le, Z.ltb_lt.
  change (2 ^ 24)%Z with 16777216%Z. change (2 ^ 16)%Z with 65536%Z. change (2 ^ 8)%Z with 256%Z.
  change (2 ^ (32 - 4))%Z with 268435456%Z. lia.
Qed.

Lemma public_ipv4_blocks : is_public_ipv4 (a, b, c, d) = negb (existsb (in_block 32 v) ipv4_special).
Proof.
  unfold ipv4_special. cbn [existsb].
  rewrite !block8, !block16, !block24, !block4 by (unfold octet; lia).
  change (v4_block 100 64 0 0 10) with (v4_block 100 64 0 0 (16 - 6)).
  change (v4_block 172 16 0 0 12) with (v4_block 172 16 0 0 (16 - 4)).
  change (v4_block 198 18 0 0 15) with (v4_block 198 18 0 0 (16 - 1)).
  rewrite !block_inside by (unfold octet; cbn; lia).
  unfold is_public_ipv4. cbv zeta.
  assert (((224 <=? a) && (a <=? 255))%Z = ((224 <=? a) && (a <=? 224 + 15) || (240 <=? a) && (a <=? 240 + 15))%Z) as -> by lia.
  assert (((18 <=? b) && (b <=? 18 + 2 ^ 1 - 1))%Z = ((b =? 18) || (b =? 19))%Z) as -> by (cbn; lia).
  change (64 + 2 ^ 6 - 1)%Z with 127%Z. change (16 + 2 ^ 4 - 1)%Z with 31%Z.
  rewrite !if_orb. repeat match goal with |- (if ?k then false else _) = _ =>
    generalize k; intros []; cbn [orb]; [by rewrite ?orb_true_r|] end. done.
Qed.

End octets.

(** ** IPv6 *)

Section segments.
Context (s0 s1 s2 s3 s4 s5 s6 s7 : Z).
Context (H0 : segment s0) (H1 : segment s1) (H2 : segment s2) (H3 : segment s3)
  (H4 : segment s4) (H5 : segment s5) (H6 : segment s6) (H7 : segment s7).
Let s := [s0; s1; s2; s3; s4; s5; s6; s7].

(** The address as its first three segments and what is below them. *)
Lemma ipv6_split : exists u, (0 <= u < 2 ^ 80)%Z /\ ipv6_value s = (s0 * 2 ^ 112 + s1 * 2 ^ 96 + s2 * 2 ^ 80 + u)%Z.
Proof.
  unfold segment in *. exists (s3 * 2 ^ 64 + s4 * 2 ^ 48 + s5 * 2 ^ 32 + s6 * 2 ^ 16 + s7)%Z.
  unfold ipv6_value, s. cbn [foldl]. cbn -[Z.mul Z.add Z.lt Z.le]. lia.
Qed.

Lemma v6_block_value x y z len : v6_block x y z len = ((x * 2 ^ 112 + y * 2 ^ 96 + z * 2 ^ 80)%Z, len).
Proof. unfold v6_block, ipv6_value. cbn [foldl]. f_equal. lia. Qed.

(** A block whose prefix ends in the second segment. *)
Lemma block_second x y k :
  segment x -> (0 <= y)%Z -> (0 <= k <= 16)%Z -> (y + 2 ^ k <= 65536)%Z ->
  in_block 128 (ipv6_value s) (v6_block x y 0 (32 - k)) = ((s0 =? x) && ((y <=? s1) && (s1 <=? y + 2 ^ k - 1)))%Z.
Proof.
  destruct ipv6_split as (u & Hu & ->). intros Hx Hy Hk Hr. unfold segment in *.
  apply eq_bool_prop_intro. rewrite !Is_true_true. rewrite v6_block_value. unfold in_block. cbn [fst snd].
  rewrite !andb_true_iff, Z.eqb_eq, !Z.leb_le, Z.ltb_lt.
  replace (128 - (32 - k))%Z with (96 + k)%Z by lia. rewrite Z.pow_add_r by lia.
  assert (0 < 2 ^ k)%Z as Hp by (apply Z.pow_pos_nonneg; lia). generalize dependent (2 ^ k)%Z. intros p Hr Hp.
  set (t := (s2 * 2 ^ 80 + u)%Z). assert (0 <= t < 2 ^ 96)%Z as Ht by (unfold t; lia).
  replace (s0 * 2 ^ 112 + s1 * 2 ^ 96 + s2 * 2 ^ 80 + u)%Z with (s0 * 2 ^ 112 + s1 * 2 ^ 96 + t)%Z by (unfold t; lia).
  clearbody t. split.
  - intros H. assert (s0 = x) as -> by lia. split; [done|lia].
  - intros [-> H]. lia.
Qed.

Lemma block_unicast : in_block 128 (ipv6_value s) global_unicast = ((0x2000 <=? s0) && (s0 <=? 0x3fff))%Z.
Proof.
  destruct ipv6_split as (u & Hu & ->). unfold segment in *. apply eq_bool_prop_intro. rewrite !Is_true_true.
  unfold global_unicast. rewrite v6_block_value. unfold in_block. cbn [fst snd].
  rewrite !andb_true_iff, !Z.leb_le, Z.ltb_lt. change (128 - 3)%Z with (112 + 13)%Z. rewrite Z.pow_add_r by lia.
  change (2 ^ 13)%Z with 8192%Z. lia.
Qed.

Lemma block48 x y z :
  segment x -> segment y -> segment z ->
  in_block 128 (ipv6_value s) (v6_block x y z 48) = ((s0 =? x) && (s1 =? y) && (s2 =? z))%Z.
Proof.
  destruct ipv6_split as (u & Hu & ->). intros Hx Hy Hz. unfold segment in *.
  apply eq_bool_prop_intro. rewrite !Is_true_true. rewrite v6_block_value. unfold in_block. cbn [fst snd].
  rewrite !andb_true_iff, !Z.eqb_eq, Z.leb_le, Z.ltb_lt. change (128 - 48)%Z with 80%Z. split; [|lia].
  intros H. assert (s0 = x) as -> by lia. assert (s1 = y) as -> by lia. split; [done|lia].
Qed.

Lemma public_ipv6_blocks :
  is_public_address (V6 s) = in_block 128 (ipv6_value s) global_unicast
    && negb (existsb (in_block 128 (ipv6_value s)) ipv6_special).
Proof.
  rewrite block_unicast. unfold ipv6_special. cbn [existsb].
  change (v6_block 0x2001 0 0 23) with (v6_block 0x2001 0 0 (32 - 9)).
  change (v6_block 0x2001 0x20 0 28) with (v6_block 0x2001 0x20 0 (32 - 4)).
  change (v6_block 0x2001 0xdb8 0 32) with (v6_block 0x2001 0xdb8 0 (32 - 0)).
  change (v6_block 0x2002 0 0 16) with (v6_block 0x2002 0 0 (32 - 16)).
  change (v6_block 0x3fff 0 0 20) with (v6_block 0x3fff 0 0 (32 - 12)).
  rewrite !block_second, block48 by (unfold segment; cbn; lia).
  cbn [is_public_address]. destruct (is_ipv4_mapped s) eqn:Em.
  { apply bool_decide_eq_true in Em. injection Em as -> _. done. }
  unfold is_public_ipv6, seg, s. cbn [nth]. cbv zeta. unfold segment in *.
  change (0 + 2 ^ 9 - 1)%Z with 0x1ff%Z. change (0x20 + 2 ^ 4 - 1)%Z with 0x2f%Z.
  change (0xdb8 + 2 ^ 0 - 1)%Z with 0xdb8%Z. change (0 + 2 ^ 16 - 1)%Z with 0xffff%Z. change (0 + 2 ^ 12 - 1)%Z with 0xfff%Z.
  assert (((0xdb8 <=? s1) && (s1 <=? 0xdb8))%Z = (s1 =? 0xdb8)%Z) as -> by lia.
  assert (((0 <=? s1) && (s1 <=? 0xffff))%Z = true) as -> by lia.
  assert (forall m, ((0 <=? s1) && (s1 <=? m))%Z = (s1 <=? m)%Z) as E by lia. rewrite !E, andb_true_r.
  destruct ((0x2000 <=? s0) && (s0 <=? 0x3fff))%Z; [|done]. cbn [negb andb].
  repeat match goal with |- (if ?k then false else _) = _ =>
    generalize k; intros []; cbn [orb]; [by rewrite ?orb_true_r|] end. done.
Qed.
End segments.

(** The address check is the registry's list of blocks: an
    IPv4 address passes exactly when it is in none of the special-purpose blocks, and
    an IPv6 address exactly when it is in 2000::/3 and in none of the special-purpose
    blocks there; an IPv4 address written as an IPv6 one never passes. *)
Theorem public_addresses_spec a :
  valid_address a ->
  is_public_address a =
    match a with
    | V4 o => negb (existsb (in_block 32 (ipv4_value o)) ipv4_special)
    | V6 s => in_block 128 (ipv6_value s) global_unicast && negb (existsb (in_block 128 (ipv6_value s)) ipv6_special)
    end.
Proof.
  destruct a as [[[[a b] c] d]|s]; cbn [valid_address].
  - intros (Ha & Hb & Hc & Hd). by apply public_ipv4_blocks.
  - intros [Hl Hs]. do 8 (destruct s as [|? s]; [done|]). destruct s; [|done].
    repeat (apply Forall_cons in Hs as [? Hs]). by apply public_ipv6_blocks.
Qed.

(** * What a plugin's request can reach *)

Section sends.
Context {UT : UnicodeTables} {UC : UrlCrate} {UL : UrlLaws UC} {Proxy : Type}.
Notation HopEnv := (HopEnv (Proxy := Proxy)).
Notation Send := (Send (Proxy := Proxy)).

(** A URL of the permitted form. *)
Definition plain_url (u : Url) : Prop :=
  (scheme u = §"http" \/ scheme u = §"https") /\ is_Some (host_str u) /\ username u = []
  /\ url_password u = None /\ fragment u = None.

(** A request as it may go out when a hop meets [env]. *)
Record send_checked (env : HopEnv) (plugin : str) (s : Send) : Prop := {
  sc_url : plain_url (sent_url s);
  sc_policy : exists p h rate, plugin_policies env !! plugin = Some p /\ network_enabled p = true
    /\ url_host (sent_url s) = Some h /\ rate_domain (sent_url s) h = Ok rate
    /\ (RateLimiter.try_acquire_with_limit (rate_limiter env) (plugin ++ ["000"%char] ++ rate)
          (requests_per_minute p) (now env)).2 = true;
  sc_host : exists h port, url_host (sent_url s) = Some h
    /\ Whitelist.check (whitelist env) plugin (host_key h) = Whitelist.Allowed
    /\ exists answers, resolve_host env h port = Ok answers /\ sent_pinned s ⊆ answers;
  sc_pinned : sent_pinned s <> [] /\ Forall (fun a => is_public_address a.1 = true) (sent_pinned s)
}.

Lemma validate_plugin_url_ok value u :
  validate_plugin_url value = Ok u -> url_parse value = Ok u /\ plain_url u.
Proof.
  unfold validate_plugin_url. destruct (url_parse value) as [u'|]; [|done].
  case_bool_decide as E1; cbn [negb]; [|done]. case_bool_decide as E2; [done|].
  destruct (negb (bool_decide (username u' = [])) || bool_decide (is_Some (url_password u'))) eqn:E3; [done|].
  destruct (bool_decide (is_Some (fragment u'))) eqn:E4; [done|]. apply bool_decide_eq_false in E4.
  intros [= <-]. apply orb_false_iff in E3 as [E3 E5]. apply negb_false_iff, bool_decide_eq_true in E3. apply bool_decide_eq_false in E5.
  split; [done|]. split_and!; try done.
  - by destruct (host_str u').
  - by apply eq_None_not_Some.
  - by apply eq_None_not_Some.
Qed.

Lemma validate_resolved_ok addresses :
  validate_resolved_addresses addresses = Ok tt ->
  addresses <> [] /\ Forall (fun a => is_public_address a = true) addresses.
Proof.
  unfold validate_resolved_addresses. destruct addresses as [|a l]; [done|].
  destruct (List.find _ (a :: l)) eqn:E; [done|]. intros _. split; [done|].
  apply Forall_forall. intros x Hx. apply list_elem_of_In in Hx.
  pose proof (find_none _ _ E x Hx) as H. by apply negb_false_iff in H.
Qed.

(** The target that a hop is authorized for, and the addresses it is pinned to. *)
Lemma authorize_ok env hop plugin url target evs pinned method headers body :
  authorize_target env hop plugin url = (Ok target, evs) -> build_pinned_client env target = Ok pinned ->
  url_parse (as_str url) = Ok (t_url target)
  /\ send_checked env plugin (mk_send (t_url target) pinned (proxy_config target) method headers body).
Proof.
  unfold authorize_target. cbv zeta.
  destruct (rbind (registered_policy env plugin) _) as [[[[[policy u] h] res] rate]|] eqn:Ec; [|done].
  destruct (Whitelist.check _ _ _) eqn:Ew; [|done|done].
  destruct (try_acquire_with_limit _ _ _ _).2 eqn:Er; [|done]. cbn [negb].
  intros [= Ht <-]. apply rbind_ok in Ht as (proxy & _ & [= <-]). intros Hb. cbn [t_url proxy_config resolved] in *.
  apply rbind_ok in Ec as (policy' & Hp & Ec). apply rbind_ok in Ec as (u' & Hu & Ec).
  apply rbind_ok in Ec as (port & _ & Ec). apply rbind_ok in Ec as (h' & Hh%ok_or_ok & Ec).
  apply rbind_ok in Ec as (res' & Hres & Ec). apply rbind_ok in Ec as ([] & Hpub & Ec).
  apply rbind_ok in Ec as (rate' & Hrate & [= <- <- <- <- <-]).
  apply validate_plugin_url_ok in Hu as [Hparse Hplain]. split; [done|].
  apply validate_resolved_ok in Hpub as [Hne Hpub]. rewrite Forall_map in Hpub.
  unfold build_pinned_client in Hb. cbn [t_url proxy_config resolved] in Hb. rewrite Hh in Hb. cbn [ok_or rbind] in Hb.
  apply rbind_ok in Hb as (pins & Hpins & Hb). destruct (build env); [|done]. injection Hb as <-.
  assert (pins <> [] /\ pins ⊆ res') as [Hpne Hsub].
  { destruct proxy as [pr|].
    - destruct (List.filter is_ipv4 res') as [|x l] eqn:Ef; [done|]. injection Hpins as <-. split; [done|].
      rewrite <-Ef. intros y Hy. apply list_elem_of_In, filter_In in Hy as [Hy _]. by apply list_elem_of_In.
    - injection Hpins as <-. split; [|done]. intros ->. by apply Hne. }
  split; cbn [sent_url sent_pinned].
  - done.
  - unfold registered_policy, enabled_policy in Hp. destruct (direct_available env); [|done]. cbn [negb] in Hp.
    apply rbind_ok in Hp as (p & Hp%ok_or_ok & Hen). destruct (network_enabled p) eqn:En; [|done].
    injection Hen as <-. exists p, h', rate'. by split_and!.
  - exists h', port. split_and!; [done..|]. eauto.
  - split; [done|]. rewrite Forall_forall in Hpub |- *. intros y Hy. by apply Hpub, Hsub.
Qed.

Context (envs : nat -> HopEnv) (plugin : str).

(** A request with the headers it may have: [o0] is the origin the plugin's request began
    with and [original] its headers. *)
Definition send_ok (o0 : Origin) (original : Headers) (hop : nat) (s : Send) : Prop :=
  send_checked (envs hop) plugin s
  /\ exists own, sent_headers s = (if is_dlsite_url (as_str (sent_url s)) then dlsite_browser_headers else []) ++ own
     /\ own ⊆ original /\ (origin (sent_url s) <> o0 -> Forall (fun h => credential_header h.1 = false) own).

(** The requests among the events, with their hops. *)
Definition sends (evs : list (Event (Proxy := Proxy))) : list (nat * Send) :=
  omap (fun e => match e with Sent hop s => Some (hop, s) | _ => None end) evs.

Lemma sends_app a b : sends (a ++ b) = sends a ++ sends b.
Proof. apply omap_app. Qed.

Lemma filter_subset {A} (f : A -> bool) l k : l ⊆ k -> List.filter f l ⊆ k.
Proof. intros H x Hx. apply list_elem_of_In, filter_In in Hx as [Hx _]. by apply H, list_elem_of_In. Qed.

Lemma filter_credentials (hs : Headers) :
  Forall (fun h => credential_header h.1 = false) (List.filter (fun h => negb (credential_header h.1)) hs).
Proof. apply Forall_forall. intros h [_ Hh]%list_elem_of_In%filter_In. by apply negb_true_iff. Qed.

Lemma Forall_List_filter {A} (P : A -> Prop) (f : A -> bool) l : Forall P l -> Forall P (List.filter f l).
Proof. rewrite !Forall_forall. intros H x [Hx _]%list_elem_of_In%filter_In. by apply H, list_elem_of_In. Qed.

Lemma authorize_events (env : HopEnv) hop url r evs : authorize_target env hop plugin url = (r, evs) -> sends evs = [].
Proof.
  unfold authorize_target. cbv zeta. destruct (rbind (registered_policy env plugin) _) as [[[[[? ?] ?] ?] ?]|];
    [|by intros [= _ <-]].
  destruct (Whitelist.check _ _ _); [|by intros [= _ <-]..]. destruct (negb _); by intros [= _ <-].
Qed.

(** What the next turn begins with. *)
Lemma next_request_ok o0 original followed url method headers body response url' method' headers' body' :
  headers ⊆ original -> (origin url <> o0 -> Forall (fun h => credential_header h.1 = false) headers) ->
  next_request followed url method headers body response = inr (url', method', headers', body') ->
  followed < MAX_PLUGIN_REDIRECTS /\ (exists v, url_parse v = Ok url') /\ headers' ⊆ original
  /\ (origin url' <> o0 -> Forall (fun h => credential_header h.1 = false) headers').
Proof.
  intros Hh Ho. unfold next_request. destruct (negb _); [done|]. destruct (location response) as [loc|]; [|done].
  destruct (Nat.leb_spec MAX_PLUGIN_REDIRECTS followed) as [|Hlt]; [done|]. destruct loc as [text|]; [|done].
  destruct (validate_redirect_target url text) as [next|e] eqn:En; [|done]. intros [= <- _ <- _]. split_and!.
  - done.
  - unfold validate_redirect_target in En. destruct (url_join _ _); [|done].
    apply validate_plugin_url_ok in En as [En _]. eauto.
  - repeat case_match; repeat apply filter_subset; done.
  - intros Hne. destruct (bool_decide (origin url = origin next)) eqn:Eo.
    + apply bool_decide_eq_true in Eo.
      assert (Forall (fun h => credential_header h.1 = false) headers) as Hf by (apply Ho; congruence).
      destruct (_ || _); [by apply Forall_List_filter|done].
    + destruct (_ || _); [apply Forall_List_filter|]; apply filter_credentials.
Qed.

(** The turns of the loop from here on: each sends at most one request, hop by hop, and the
    limit ends them before the fuel does. *)
Lemma execute_loop_sends o0 original fuel followed url method headers body :
  followed <= MAX_PLUGIN_REDIRECTS -> MAX_PLUGIN_REDIRECTS < followed + fuel ->
  (exists v, url_parse v = Ok url) -> headers ⊆ original ->
  (origin url <> o0 -> Forall (fun h => credential_header h.1 = false) headers) ->
  exists r evs, execute_loop envs plugin fuel followed url method headers body = Some (r, evs)
  /\ length (sends evs) <= S (MAX_PLUGIN_REDIRECTS - followed)
  /\ Forall (fun hs => send_ok o0 original hs.1 hs.2) (sends evs)
  /\ map fst (sends evs) = seq followed (length (sends evs)).
Proof.
  revert followed url method headers body. induction fuel as [|fuel IH]; intros followed url method headers body Hf Hfuel [v Hv] Hh Ho;
    [lia|]. cbn [execute_loop]. set (env := envs followed).
  destruct (authorize_target env followed plugin url) as [[target|e] evs] eqn:Ea; pose proof (authorize_events _ _ _ _ _ Ea) as He.
  2:{ eexists _, _. split; [done|]. rewrite He. split_and!; [simpl; lia|constructor|done]. }
  destruct (build_pinned_client env target) as [pinned|e] eqn:Eb.
  2:{ eexists _, _. split; [done|]. rewrite He. split_and!; [simpl; lia|constructor|done]. }
  cbv zeta. set (snd := mk_send (t_url target) pinned _ method _ body).
  destruct (authorize_ok _ _ _ _ _ _ _ method (request_headers (t_url target) headers) body Ea Eb) as [Hp Hc].
  rewrite (as_str_parse _ _ Hv) in Hp. injection Hp as Hurl. fold snd in Hc.
  assert (send_ok o0 original followed snd) as Hsend.
  { split; [exact Hc|]. exists headers. unfold snd in *. cbn [sent_headers sent_url]. rewrite <-Hurl. split_and!; [|done|done].
    unfold request_headers, inject_dlsite_browser_headers. done. }
  assert (sends (evs ++ [Sent followed snd]) = [(followed, snd)]) as Hone by (by rewrite sends_app, He).
  assert (forall r : result HttpError Response, exists r' evs', Some (r, evs ++ [Sent followed snd]) = Some (r', evs')
    /\ length (sends evs') <= S (MAX_PLUGIN_REDIRECTS - followed)
    /\ Forall (fun hs => send_ok o0 original hs.1 hs.2) (sends evs')
    /\ map fst (sends evs') = seq followed (length (sends evs'))) as Hstop.
  { intros r. eexists _, _. split; [done|]. rewrite Hone. split_and!; [simpl; lia|by apply Forall_singleton|done]. }
  destruct (send env snd) as [response|e]; [|apply Hstop].
  destruct (next_request _ _ _ _ _ _) as [r|[[[url' method'] headers'] body']] eqn:En; [apply Hstop|].
  apply (next_request_ok o0 original) in En as (Hlt & Hu' & Hh' & Ho'); [|done|by rewrite <-Hurl].
  destruct (IH (followed + 1) url' method' headers' body') as (r & later & -> & Hlen & Hall & Hhops); [lia|lia|done..|].
  eexists _, _. split; [done|]. rewrite sends_app, Hone. cbn [app length map]. split_and!; [lia|by constructor|].
  cbn [fst]. rewrite Hhops. by rewrite Nat.add_1_r.
Qed.

(** C10: Whatever DNS and servers answer, and however policies, whitelist and limits change
    while it runs, a plugin's request comes to an end after at most six requests on the wire,
    the first and five redirects, one per hop in their order. Each goes out only while the
    plugin's policy enables the network and after the limiter granted the plugin's own budget
    for the domain, to an HTTP or HTTPS URL without credentials or fragment whose host is
    whitelisted for the plugin at that hop, over a client pinned to addresses that the resolver
    gave for that host and that are all public. Its headers are those the plugin set, none of
    them a routing header, and none of them credentials once the origin is not the one the
    request began with; to a host of DLsite a fixed set of browser headers is added. *)
Theorem plugin_sends_are_checked request :
  exists r evs, execute envs plugin request = Some (r, evs)
  /\ length (sends evs) <= 6 /\ map fst (sends evs) = seq 0 (length (sends evs))
  /\ forall hop s, Sent hop s ∈ evs ->
     send_checked (envs hop) plugin s
     /\ exists u0 own, validate_plugin_url (fix_dlsite_cdn_folder (req_url request)) = Ok u0
        /\ sent_headers s = (if is_dlsite_url (as_str (sent_url s)) then dlsite_browser_headers else []) ++ own
        /\ own ⊆ req_headers request /\ Forall (fun h => forbidden_header h.1 = false) own
        /\ (origin (sent_url s) <> origin u0 -> Forall (fun h => credential_header h.1 = false) own).
Proof.
  unfold execute. destruct (validate_plugin_headers (req_headers request)) as [[]|] eqn:Eh; cbn [rbind].
  2:{ eexists _, _. split_and!; [done|simpl; lia|done|]. by intros hop s ?%elem_of_nil. }
  destruct (validate_plugin_url _) as [u0|e] eqn:Hu.
  2:{ eexists _, _. split_and!; [done|simpl; lia|done|]. by intros hop s ?%elem_of_nil. }
  destruct (execute_loop_sends (origin u0) (req_headers request) (S MAX_PLUGIN_REDIRECTS) 0 u0 (req_method request)
    (req_headers request) (req_body request)) as (r & evs & He & Hl & Hall & Hhops); [lia|lia| |done|done|].
  { apply validate_plugin_url_ok in Hu as [Hu _]. eauto. }
  exists r, evs. split_and!; [done|done|done|]. intros hop s Hs.
  assert ((hop, s) ∈ sends evs) as Hin by (apply list_elem_of_omap; by exists (Sent hop s)).
  rewrite Forall_forall in Hall. destruct (Hall _ Hin) as (Hc & own & Hown & Hsub & Hcred). split; [done|].
  exists u0, own. split_and!; [done..| |done]. apply Forall_forall. intros h Hh%Hsub. unfold validate_plugin_headers in Eh.
  destruct (List.find _ _) eqn:Ef; [done|]. by apply (find_none _ _ Ef h), list_elem_of_In.
Qed.

End sends.

Module PluginNetworkExample.

Import DomainSecurityExample.

Definition granted : DomainWhitelist :=
  foldl call whitelist_new [ReplaceManifest §"p" [§"example.com"]; Approve §"p" §"CDN.example.org"].

(** The first server sends the plugin to another one, the second answers. *)
Definition hop_env (hop : nat) : HopEnv (Proxy := unit) := {|
  direct_available := true;
  plugin_policies := {[ §"p" := mk_policy true 10 ]};
  lookup_host _ port := Ok [(V4 (93, 184, 216, 34)%Z, port)];
  whitelist := granted;
  rate_limiter := limiter_new 60 0;
  now := 0;
  workload_ok := true;
  client_for := Some (None, true);
  build := Ok tt;
  send _ := match hop with
            | O => Ok (mk_response 302 (Some (Some §"https://cdn.example.org/x")) [])
            | _ => Ok (mk_response 200 None §"hello")
            end
|}.

Definition request : HttpRequest :=
  mk_http §"http://example.com/" Get [(§"Authorization", §"token"); (§"Accept", §"*/*")] None.

Definition log := default [] (snd <$> execute hop_env §"p" request).

(** Both requests went out, the second to the server the first one named. *)
Lemma plugin_sends_are_checked_witness :
  exists s, log !! 3 = Some (Sent 1 s) /\ send_checked (hop_env 1) §"p" s.
Proof.
  destruct (plugin_sends_are_checked hop_env §"p" request) as (r & evs & He & _ & _ & Hs).
  assert (log = evs) as Hl by (unfold log; by rewrite He).
  assert (match log !! 3 with Some (Sent 1 _) => true | _ => false end = true) as H by (vm_compute; reflexivity).
  destruct (log !! 3) as [[| |[|[|]] s]|] eqn:E; try done. exists s. split; [done|].
  apply Hs. rewrite <-Hl. by apply list_elem_of_lookup_2 in E.
Defined.

(** What went out: the token to the first server only. *)
Example sent_header_names :
  map (fun hs => (hs.1, map fst (sent_headers hs.2))) (sends log)
  = [(0, [§"Authorization"; §"Accept"]); (1, [§"Accept"])].
Proof. vm_compute. reflexivity. Qed.

(** Servers that always send the plugin on: six requests, and the limit. *)
Example redirects_end :
  let env hop := {|
    direct_available := true; plugin_policies := {[ §"p" := mk_policy true 10 ]};
    lookup_host _ port := Ok [(V4 (93, 184, 216, 34)%Z, port)];
    whitelist := granted; rate_limiter := limiter_new 60 0; now := 0; workload_ok := true;
    client_for := Some (None, true); build := Ok tt;
    send _ := Ok (mk_response 307 (Some (Some §"https://cdn.example.org/x")) []) |} : HopEnv (Proxy := unit) in
  match execute env §"p" request with
  | Some (r, evs) => r = Err RedirectLimitExceeded /\ length (sends evs) = 6
  | None => False
  end.
Proof. vm_compute. split; reflexivity. Qed.

Lemma public_addresses_spec_witness :
  is_public_address (V4 (100, 64, 0, 1)%Z) = false /\ is_public_address (V6 [0x2600; 0; 0; 0; 0; 0; 0; 1]%Z) = true.
Proof.
  split.
  - rewrite (public_addresses_spec (V4 (100, 64, 0, 1)%Z)); [vm_compute; reflexivity|]. cbn. unfold octet. lia.
  - rewrite (public_addresses_spec (V6 [0x2600; 0; 0; 0; 0; 0; 0; 1]%Z)); [vm_compute; reflexivity|].
    cbn. split; [done|]. repeat constructor; unfold segment; lia.
Defined.

(** A name that resolves to the local machine is refused whatever the whitelist says. *)
Example rebinding_refused :
  let env := {|
    direct_available := true; plugin_policies := {[ §"p" := mk_policy true 10 ]};
    lookup_host _ port := Ok [(V4 (93, 184, 216, 34)%Z, port); (V4 (127, 0, 0, 1)%Z, port)];
    whitelist := granted; rate_limiter := limiter_new 60 0; now := 0; workload_ok := true;
    client_for := Some (None, true); build := Ok tt; send _ := Err Timeout |} : HopEnv (Proxy := unit) in
  match execute (fun _ => env) §"p" request with
  | Some (r, evs) => r = Err (UnsafeResolvedAddress (V4 (127, 0, 0, 1)%Z)) /\ length evs = 0
  | None => False
  end.
Proof. vm_compute. split; reflexivity. Qed.

Example cdn_folder :
  map fix_dlsite_cdn_folder [§"https://img.dlsite.jp/x/RJ00361000/RJ360420_1.jpg"; §"https://img.dlsite.jp/x/VJ01006000/VJ01005126_1.jpg"]
  = [§"https://img.dlsite.jp/x/RJ361000/RJ360420_1.jpg"; §"https://img.dlsite.jp/x/VJ01006000/VJ01005126_1.jpg"].
Proof. vm_compute. reflexivity. Qed.

End PluginNetworkExample.
