(* ===== verification/Effects.v ===== *)
(** Computations that change a state and may fail: what a Rust function with a
    [&mut] argument and a [Result] is, when the changes it made before an error
    stay.  With it the triples in which such functions are specified: what holds
    after success, and what holds after an error. *)

From stdpp Require Import base tactics option list.
From S2P Require Import Prelude.

Definition Eff (W E A : Type) : Type := W -> result E A * W.

Section effects.
Context {W : Type}.

Definition eret {E A : Type} (a : A) : Eff W E A := fun w => (Ok a, w).

Definition efail {E A : Type} (e : E) : Eff W E A := fun w => (Err e, w).

Definition ebind {E A B : Type} (m : Eff W E A) (k : A -> Eff W E B) : Eff W E B :=
  fun w => match m w with
           | (Ok a, w') => k a w'
           | (Err e, w') => (Err e, w')
           end.

(** [map_err]. *)
Definition emap {E F A : Type} (f : E -> F) (m : Eff W E A) : Eff W F A :=
  fun w => match m w with
           | (Ok a, w') => (Ok a, w')
           | (Err e, w') => (Err (f e), w')
           end.

(** [let _ = m;]. *)
Definition eignore {E F A : Type} (m : Eff W E A) : Eff W F unit := fun w => (Ok tt, (m w).2).

(** [match m { Ok(a) => k(a), Err(e) => h(e) }]. *)
Definition ematch {E F A B : Type} (m : Eff W E A) (k : A -> Eff W F B) (h : E -> Eff W F B) : Eff W F B :=
  fun w => match m w with
           | (Ok a, w') => k a w'
           | (Err e, w') => h e w'
           end.

(** The result as a value. *)
Definition ecatch {E F A : Type} (m : Eff W E A) : Eff W F (result E A) := fun w => (Ok (m w).1, (m w).2).

Definition eget : forall {E : Type}, Eff W E W := fun _ w => (Ok w, w).

Definition eput {E : Type} (f : W -> W) : Eff W E unit := fun w => (Ok tt, f w).

Definition elift {E A : Type} (r : result E A) : Eff W E A := fun w => (r, w).
End effects.

Notation "'let!' x ':=' m 'in' k" := (ebind m (fun x => k))
  (at level 10, x pattern, k at level 200) : arclain_scope.

(** * Triples *)

Section triples.
Context {W : Type}.

(** From a state with [P], success gives [Q] and an error [X]. *)
Definition triple {E A : Type} (P : W -> Prop) (m : Eff W E A) (Q : A -> W -> Prop) (X : E -> W -> Prop) : Prop :=
  forall w, P w -> match m w with (Ok a, w') => Q a w' | (Err e, w') => X e w' end.

Lemma triple_ret {E A : Type} (P : W -> Prop) (a : A) Q (X : E -> W -> Prop) :
  (forall w, P w -> Q a w) -> triple P (eret a) Q X.
Proof. intros H w Hw. by apply H. Qed.

Lemma triple_fail {E A : Type} (P : W -> Prop) (e : E) (Q : A -> W -> Prop) X :
  (forall w, P w -> X e w) -> triple P (efail e) Q X.
Proof. intros H w Hw. by apply H. Qed.

Lemma triple_bind {E A B : Type} P (m : Eff W E A) (k : A -> Eff W E B) R Q X :
  triple P m R X -> (forall a, triple (R a) (k a) Q X) -> triple P (ebind m k) Q X.
Proof.
  intros Hm Hk w Hw. specialize (Hm w Hw). unfold ebind. destruct (m w) as [[a|e] w']; [|done].
  by apply Hk.
Qed.

Lemma triple_match {E F A B : Type} P (m : Eff W E A) (k : A -> Eff W F B) (h : E -> Eff W F B) R S Q X :
  triple P m R S -> (forall a, triple (R a) (k a) Q X) -> (forall e, triple (S e) (h e) Q X) ->
  triple P (ematch m k h) Q X.
Proof.
  intros Hm Hk Hh w Hw. specialize (Hm w Hw). unfold ematch. destruct (m w) as [[a|e] w'].
  - by apply Hk.
  - by apply Hh.
Qed.

Lemma triple_map {E F A : Type} P (f : E -> F) (m : Eff W E A) Q X :
  triple P m Q (fun e => X (f e)) -> triple P (emap f m) Q X.
Proof. intros Hm w Hw. specialize (Hm w Hw). unfold emap. by destruct (m w) as [[a|e] w']. Qed.

Lemma triple_ignore {E F A : Type} P (m : Eff W E A) R Q (X : F -> W -> Prop) :
  triple P m (fun _ => R) (fun _ => R) -> (forall w, R w -> Q tt w) -> triple P (eignore m) Q X.
Proof.
  intros Hm HQ w Hw. specialize (Hm w Hw). unfold eignore. destruct (m w) as [[a|e] w']; by apply HQ.
Qed.

Lemma triple_catch {E F A : Type} P (m : Eff W E A) Q (X : F -> W -> Prop) :
  triple P m (fun a => Q (Ok a)) (fun e => Q (Err e)) -> triple P (ecatch m) Q X.
Proof. intros Hm w Hw. specialize (Hm w Hw). unfold ecatch. by destruct (m w) as [[a|e] w']. Qed.

Lemma triple_put {E : Type} P f Q (X : E -> W -> Prop) :
  (forall w, P w -> Q tt (f w)) -> triple P (eput f) Q X.
Proof. intros H w Hw. by apply H. Qed.

Lemma triple_get {E : Type} P (Q : W -> W -> Prop) (X : E -> W -> Prop) :
  (forall w, P w -> Q w w) -> triple P eget Q X.
Proof. intros H w Hw. by apply H. Qed.

Lemma triple_lift {E A : Type} P (r : result E A) (Q : A -> W -> Prop) X :
  (forall a w, r = Ok a -> P w -> Q a w) -> (forall e w, r = Err e -> P w -> X e w) ->
  triple P (elift r) Q X.
Proof. intros HQ HX w Hw. unfold elift. destruct r; eauto. Qed.

Lemma triple_conseq {E A : Type} (P P' : W -> Prop) (m : Eff W E A) Q Q' X X' :
  triple P' m Q' X' -> (forall w, P w -> P' w) -> (forall a w, Q' a w -> Q a w) ->
  (forall e w, X' e w -> X e w) -> triple P m Q X.
Proof.
  intros Hm HP HQ HX w Hw. specialize (Hm w (HP w Hw)). destruct (m w) as [[a|e] w']; auto.
Qed.

Lemma triple_conj {E A : Type} (P1 P2 : W -> Prop) (m : Eff W E A) Q1 Q2 X1 X2 :
  triple P1 m Q1 X1 -> triple P2 m Q2 X2 ->
  triple (fun w => P1 w /\ P2 w) m (fun a w => Q1 a w /\ Q2 a w) (fun e w => X1 e w /\ X2 e w).
Proof.
  intros H1 H2 w [Hw1 Hw2]. specialize (H1 w Hw1). specialize (H2 w Hw2). by destruct (m w) as [[a|e] w'].
Qed.

(** A fact of the state may be named before the triple is proved. *)
Lemma triple_at {E A : Type} (P : W -> Prop) (m : Eff W E A) Q X :
  (forall w0, P w0 -> triple (fun w => w = w0) m Q X) -> triple P m Q X.
Proof. intros H w Hw. exact (H w Hw w eq_refl). Qed.
End triples.
