(* ===== verification/Streaming.v ===== *)
(** Reading a response ([crates/network/src/features/request/client.rs]): a whole
    body within a limit, and a body passed on chunk by chunk after its headers
    have been validated, for downloads that may be resumed.

    A response is what the client looks at: its status, the headers by the way
    they decode ([Some None] is a header whose value is not text), and the chunks
    of its body, which end or break off. *)

From stdpp Require Import base tactics option list strings.
From Stdlib Require Import ZArith Lia Ascii.
From S2P Require Import Prelude Text Effects.

Open Scope arclain_scope.
Local Open Scope Z_scope.

#[local] Arguments String.list_ascii_of_string : simpl never.

Notation Header := (option (option str)).

(** * Content ranges *)

Record ContentRange := mk_range { cr_start : Z; cr_end : Z; cr_total : Z }.

(** The inner [parse_decimal]: digits only, at least one, within a [u64]. *)
Definition parse_decimal (value : str) : option Z :=
  if bool_decide (value = []) || negb (forallb is_digit value) then None
  else parse_unsigned u64_max value.

Definition is_dash (c : ascii) : bool := ascii_eqb c "-"%char.

Definition parse_content_range (header : str) : option ContentRange :=
  value ← strip_prefix §"bytes " header;
  '(bounds, total) ← split_once is_slash value;
  '(start, end_) ← split_once is_dash bounds;
  start ← parse_decimal start;
  end_ ← parse_decimal end_;
  total ← parse_decimal total;
  if (start <=? end_) && (end_ <? total) then Some (mk_range start end_ total) else None.

Definition declared_length (r : ContentRange) : Z := cr_end r - cr_start r + 1.

(** * Responses *)

Record StreamResponse := mk_stream {
  sr_status : Z;
  sr_url : str;
  sr_content_range : Header;
  sr_content_length : Header;
  sr_etag : Header;
  sr_last_modified : Header;
  sr_chunks : list str;
  sr_broken : option str     (** the error the body ends in, if it does *)
}.

Definition sr_body (r : StreamResponse) : str := concat (sr_chunks r).

(** [.get(name).and_then(|value| value.to_str().ok())]. *)
Definition text_of (h : Header) : option str := match h with Some (Some t) => Some t | _ => None end.

Record StreamingResponseMetadata := mk_metadata {
  validated_url : str;
  md_was_partial : bool;
  md_etag : option str;
  md_last_modified : option str;
  range_start : option Z;
  md_total_size : option Z;
  expected_body_length : option Z
}.

Record StreamingDownload := mk_download {
  bytes_written : Z;
  was_partial : bool;
  etag : option str;
  last_modified : option str;
  total_size : option Z
}.

Inductive StreamError :=
| HttpStatus (status : Z)
| UnsupportedStatus (status : Z)
| UnrequestedPartial
| MissingContentRange
| ContentRangeNotText
| InvalidContentRange (header : str)
| WrongStart (start requested : Z)
| InvalidContentLength
| LengthMismatch (content_length declared : Z)
| CallbackFailed (error : str)
| BodyFailed (error : str)
| CountOverflow
| WrittenExceedsRange
| WriterFailed (error : str)
| BodyExceedsRange (chunk remaining : Z)
| FlushFailed (error : str)
| BodyTooShort (written declared : Z).

(** ** The headers *)

(** Is the response partial, and which range does it cover? *)
Definition validate_head (r : StreamResponse) (requested_start : option Z)
  : result StreamError (option ContentRange) :=
  if negb ((200 <=? sr_status r) && (sr_status r <=? 299)) then Err (HttpStatus (sr_status r))
  else if sr_status r =? 200 then Ok None
  else if negb (sr_status r =? 206) then Err (UnsupportedStatus (sr_status r))
  else
    let? requested := ok_or requested_start UnrequestedPartial in
    let? text := ok_or (sr_content_range r) MissingContentRange in
    let? header := ok_or text ContentRangeNotText in
    let? range := ok_or (parse_content_range header) (InvalidContentRange header) in
    if negb (cr_start range =? requested) then Err (WrongStart (cr_start range) requested)
    else
      match sr_content_length r with
      | None => Ok (Some range)
      | Some text =>
          let? content_length := ok_or (text ≫= parse_unsigned u64_max) InvalidContentLength in
          if negb (content_length =? declared_length range) then
            Err (LengthMismatch content_length (declared_length range))
          else Ok (Some range)
      end.

Definition total_of (r : StreamResponse) (range : option ContentRange) : option Z :=
  match range with
  | Some range => Some (cr_total range)
  | None => text_of (sr_content_length r) ≫= parse_unsigned u64_max
  end.

Definition metadata_of (r : StreamResponse) (range : option ContentRange) : StreamingResponseMetadata :=
  mk_metadata (sr_url r) (bool_decide (is_Some range)) (text_of (sr_etag r)) (text_of (sr_last_modified r))
    (cr_start <$> range) (total_of r range)
    (match range with Some range => Some (declared_length range) | None => total_of r None end).

(** ** The body *)

(** Where the bytes go: [std::io::Write], as far as it is used. *)
Class Sink (W : Type) := {
  write_all : str -> Eff W str unit;
  flush : Eff W str unit
}.

Section streaming.
Context {W : Type} {SK : Sink W}.

Fixpoint write_chunks (declared : option Z) (chunks : list str) (broken : option str) (total_written : Z)
  : Eff W StreamError Z :=
  match chunks with
  | [] =>
      match broken with
      | Some error => efail (BodyFailed error)
      | None => eret total_written
      end
  | chunk :: chunks' =>
      let chunk_length := Z.of_nat (length chunk) in
      let! next_total := elift (ok_or (checked_add total_written chunk_length) CountOverflow) in
      let! _ :=
        match declared with
        | None => eret tt
        | Some declared =>
            let! remaining := elift (ok_or (checked_sub declared total_written) WrittenExceedsRange) in
            if remaining <? chunk_length then
              let! _ := (if 0 <? remaining then emap WriterFailed (write_all (take (Z.to_nat remaining) chunk))
                         else eret tt) in
              efail (BodyExceedsRange chunk_length remaining)
            else eret tt
        end in
      let! _ := emap WriterFailed (write_all chunk) in
      write_chunks declared chunks' broken next_total
  end.

Definition write_streaming_response_with_metadata (r : StreamResponse) (requested_start : option Z)
    (on_metadata : StreamingResponseMetadata -> Eff W str unit) : Eff W StreamError StreamingDownload :=
  let! range := elift (validate_head r requested_start) in
  let! _ := emap CallbackFailed (on_metadata (metadata_of r range)) in
  let declared := declared_length <$> range in
  let! total_written := write_chunks declared (sr_chunks r) (sr_broken r) 0 in
  let! _ := emap FlushFailed flush in
  let done := mk_download total_written (bool_decide (is_Some range)) (text_of (sr_etag r))
                (text_of (sr_last_modified r)) (total_of r range) in
  match declared with
  | Some declared =>
      if negb (total_written =? declared) then efail (BodyTooShort total_written declared) else eret done
  | None => eret done
  end.
End streaming.

(** * Buffered bodies *)

Inductive BufferError := ResponseTooLarge (limit : Z) | ReadFailed (error : str) | AllocationFailed.

(** The [Vec] a body is read into: its bytes and its capacity; [asked] are the
    capacities it was made to grow to. *)
Record Buffer := mk_buffer { buf_bytes : str; buf_capacity : Z; asked : list Z }.

Section buffered.
(** The allocator: the capacity a vector has after [try_reserve_exact] up to the
    capacity asked for. *)
Context (allocate : Z -> option Z).

Definition saturating_mul (a b : Z) : Z := Z.min (a * b) u64_max.

Definition reserve_buffered_response_capacity (required_length limit : Z) : Eff Buffer BufferError unit :=
  fun b =>
    if required_length <=? buf_capacity b then (Ok tt, b)
    else
      let doubled_capacity := Z.min (saturating_mul (buf_capacity b) 2) limit in
      let target_capacity := Z.max doubled_capacity required_length in
      let b' c := mk_buffer (buf_bytes b) c (asked b ++ [target_capacity]) in
      match allocate target_capacity with
      | Some c => (Ok tt, b' c)
      | None => (Err AllocationFailed, b' (buf_capacity b))
      end.

Fixpoint read_chunks (limit : Z) (chunks : list str) (broken : option str) : Eff Buffer BufferError unit :=
  match chunks with
  | [] => match broken with Some error => efail (ReadFailed error) | None => eret tt end
  | chunk :: chunks' =>
      let! b := eget in
      let! next_length :=
        elift (ok_or (checked_add (Z.of_nat (length (buf_bytes b))) (Z.of_nat (length chunk)))
                 (ResponseTooLarge limit)) in
      if limit <? next_length then efail (ResponseTooLarge limit)
      else
        let! _ := reserve_buffered_response_capacity next_length limit in
        let! _ := eput (fun b => mk_buffer (buf_bytes b ++ chunk) (buf_capacity b) (asked b)) in
        read_chunks limit chunks' broken
  end.

(** [content_length]: the length the transport knows of, if it does. *)
Definition read_buffered_response_with_limit (limit : Z) (content_length : option Z)
    (chunks : list str) (broken : option str) : result BufferError str * Buffer :=
  let start := mk_buffer [] 0 [] in
  if match content_length with Some length => limit <? length | None => false end
  then (Err (ResponseTooLarge limit), start)
  else match read_chunks limit chunks broken start with
       | (Ok _, b) => (Ok (buf_bytes b), b)
       | (Err e, b) => (Err e, b)
       end.
End buffered.

(** * Ranges read back *)

Lemma split_once_spec p s a b :
  split_once p s = Some (a, b) <->
  exists c, s = a ++ c :: b /\ p c = true /\ Forall (fun x => p x = false) a.
Proof.
  unfold split_once. split.
  - destruct (find_char p s) as [i|] eqn:E; [|done]. intros [= <- <-].
    destruct (find_char_spec _ _ _ E) as (c & Hc & Hp & Ha). exists c. split_and!; [|done|done].
    symmetry. by apply take_drop_middle.
  - intros (c & -> & Hc & Ha). rewrite (find_char_app _ _ _ _ Ha Hc). f_equal. f_equal.
    + by rewrite take_app_length.
    + by rewrite (drop_app_add _ _ 1), drop_0 || rewrite <-Nat.add_1_r, drop_app_add.
Qed.

Lemma digits_value_nonneg s a v : 0 <= a -> digits_value s a = Some v -> 0 <= v.
Proof.
  revert a; induction s as [|c s IH]; intros a Ha; cbn; [by intros [= <-]|].
  destruct (is_digit c) eqn:E; [|done]. apply IH. apply andb_true_iff in E as [E%N.leb_le _]. lia.
Qed.

Lemma parse_decimal_spec v z :
  parse_decimal v = Some z <->
  v <> [] /\ Forall (fun c => is_digit c = true) v /\ digits_value v 0 = Some z /\ z <= u64_max.
Proof.
  unfold parse_decimal. destruct v as [|c v]; [naive_solver|].
  rewrite bool_decide_eq_false_2 by done. cbn [orb].
  destruct (forallb is_digit (c :: v)) eqn:E; cbn [negb].
  - rewrite forallb_forall in E. rewrite <-List.Forall_forall in E.
    unfold parse_unsigned, parse_digits_in.
    destruct (ascii_eqb c "+"%char) eqn:Ep.
    { apply ascii_eqb_eq in Ep as ->. by apply List.Forall_inv in E. }
    destruct (digits_value (c :: v) 0) as [x|] eqn:Ex; [|naive_solver].
    pose proof (digits_value_nonneg _ _ _ (Z.le_refl 0) Ex).
    rewrite Z.mul_1_l. destruct (_ && _) eqn:Eb; split.
    + intros [= <-]. split_and!; [done|exact E|done|lia].
    + intros (_ & _ & [= <-] & _). done.
    + done.
    + intros (_ & _ & [= <-] & Hle). lia.
  - split; [done|]. intros (_ & Hf & _). exfalso.
    assert (forallb is_digit (c :: v) = true); [|congruence].
    rewrite forallb_forall. by apply List.Forall_forall.
Qed.

Lemma digit_free p v :
  p = is_slash \/ p = is_dash -> Forall (fun c => is_digit c = true) v -> Forall (fun c => p c = false) v.
Proof.
  intros Hp. intros Hv. eapply Forall_impl; [exact Hv|]. cbn. intros c Hc. apply not_true_is_false.
  destruct Hp as [->| ->]; by intros ->%ascii_eqb_eq.
Qed.

Lemma parse_content_range_spec h r :
  parse_content_range h = Some r <->
  exists s e t, h = §"bytes " ++ s ++ §"-" ++ e ++ §"/" ++ t
    /\ parse_decimal s = Some (cr_start r) /\ parse_decimal e = Some (cr_end r)
    /\ parse_decimal t = Some (cr_total r) /\ cr_start r <= cr_end r < cr_total r.
Proof.
  unfold parse_content_range. split.
  - intros (v & ->%strip_prefix_spec & ((bounds & t) & Hs & ((s & e) & Hd & H)%bind_Some)%bind_Some)%bind_Some.
    cbn in H. apply bind_Some in H as (zs & Es & (ze & Ee & (zt & Et & H)%bind_Some)%bind_Some).
    apply split_once_spec in Hs as (c & -> & ->%ascii_eqb_eq & _).
    apply split_once_spec in Hd as (c & -> & ->%ascii_eqb_eq & _).
    destruct (_ && _) eqn:E; [|done]. injection H as <-. exists s, e, t. cbn [cr_start cr_end cr_total].
    split_and!; [|done..|lia|lia]. by rewrite <-!app_assoc.
  - intros (s & e & t & -> & Es & Ee & Et & Hle). apply bind_Some. exists (s ++ §"-" ++ e ++ §"/" ++ t).
    split; [by apply strip_prefix_spec|]. apply bind_Some. exists (s ++ §"-" ++ e, t).
    pose proof (proj1 (parse_decimal_spec _ _) Es) as (_ & Ds & _).
    pose proof (proj1 (parse_decimal_spec _ _) Ee) as (_ & De & _). split.
    { apply split_once_spec. exists "/"%char. split_and!; [by rewrite <-!app_assoc|done|].
      rewrite !Forall_app. split_and!; [apply digit_free; auto|by repeat constructor|apply digit_free; auto]. }
    apply bind_Some. exists (s, e). split.
    { apply split_once_spec. exists "-"%char. split_and!; [done|done|apply digit_free; auto]. }
    cbn [mbind option_bind]. rewrite Es, Ee, Et. cbn [mbind option_bind].
    destruct (_ && _) eqn:E; [by destruct r|lia].
Qed.

(** * What reaches the sink *)

Section chunks.
Context {W : Type} {SK : Sink W}.
Context (body : str) (declared : option Z) (J JE : str -> W -> Prop).

(** What may be written: a beginning of the body, within the declared length. *)
Definition allowed (q : str) : Prop :=
  q `prefix_of` body /\ forall D, declared = Some D -> Z.of_nat (length q) <= D.

(** [J p]: exactly [p] has been written, nothing failed; [JE q]: [q] has, and a
    call failed. *)
Hypothesis write_rule : forall p b, allowed (p ++ b) ->
  triple (J p) (write_all b) (fun _ => J (p ++ b))
    (fun _ w => exists k, (k <= length b)%nat /\ JE (p ++ take k b) w).
Hypothesis J_JE : forall p w, J p w -> JE p w.

Lemma write_chunks_rule broken chunks p :
  p ++ concat chunks `prefix_of` body -> (forall D, declared = Some D -> Z.of_nat (length p) <= D) ->
  triple (J p) (write_chunks declared chunks broken (Z.of_nat (length p)))
    (fun t w => t = Z.of_nat (length (p ++ concat chunks)) /\ broken = None
       /\ (forall D, declared = Some D -> t <= D) /\ J (p ++ concat chunks) w)
    (fun _ w => exists k, (k <= length (concat chunks))%nat
       /\ (forall D, declared = Some D -> Z.of_nat (length p + k) <= D)
       /\ JE (p ++ take k (concat chunks)) w).
Proof.
  revert p; induction chunks as [|c chunks IH]; intros p Hpre HD; cbn [write_chunks concat] in Hpre |- *.
  { rewrite app_nil_r. destruct broken as [e|].
    - apply triple_fail. intros w Hw. exists 0%nat. rewrite app_nil_r, Nat.add_0_r. split_and!; [done|done|auto].
    - apply triple_ret. intros w Hw. done. }
  assert (p ++ c `prefix_of` body) as Hc.
  { etrans; [|exact Hpre]. exists (concat chunks). by rewrite app_assoc. }
  (* an error that leaves what was written so far *)
  assert (forall w, J p w -> exists k, (k <= length (c ++ concat chunks))%nat
       /\ (forall D, declared = Some D -> Z.of_nat (length p + k) <= D)
       /\ JE (p ++ take k (c ++ concat chunks)) w) as Hstop.
  { intros w Hw. exists 0%nat. rewrite app_nil_r, Nat.add_0_r. split_and!; [lia|done|auto]. }
  eapply triple_bind; [apply triple_lift with (Q := fun t w =>
      J p w /\ t = Z.of_nat (length (p ++ c))); [|by intros; apply Hstop]|].
  { intros t w [Ht _]%ok_or_ok%checked_add_some Hw. rewrite length_app. split; [done|]. lia. }
  intros t. eapply triple_bind with (R := fun _ w =>
      J p w /\ t = Z.of_nat (length (p ++ c)) /\ (forall D, declared = Some D -> t <= D)).
  { destruct declared as [D|] eqn:Ed; [|apply triple_ret; naive_solver].
    specialize (HD D eq_refl).
    eapply triple_bind; [apply triple_lift with (Q := fun rem w =>
        J p w /\ t = Z.of_nat (length (p ++ c)) /\ rem = D - Z.of_nat (length p)); [|by intros e w _ [? _]; apply Hstop]|].
    { intros rem w [Hr _]%ok_or_ok%checked_sub_some [Hw Ht]. done. }
    intros rem. destruct (Z.ltb_spec rem (Z.of_nat (length c))) as [Hlt|Hge].
    - eapply triple_bind with (R := fun _ w => exists k, (k <= length c)%nat
         /\ Z.of_nat (length p + k) <= D /\ JE (p ++ take k c) w).
      + destruct (Z.ltb_spec 0 rem) as [Hpos|Hneg].
        * apply triple_at. intros w0 (Hw & Ht & Hr).
          apply triple_map. eapply triple_conseq.
          -- apply (write_rule p (take (Z.to_nat rem) c)). split.
             { etrans; [|exact Hc]. apply prefix_app. exists (drop (Z.to_nat rem) c). by rewrite take_drop. }
             intros D' HD'. rewrite Ed in HD'. injection HD' as <-. rewrite length_app, length_take. lia.
          -- by intros w Ew; rewrite Ew.
          -- intros a w HJ. exists (Z.to_nat rem). split_and!; [lia|lia|auto].
          -- intros a w (k & Hk & HJE). rewrite length_take in Hk. exists (min k (Z.to_nat rem)).
             rewrite take_take in HJE. split_and!; [rewrite length_app; lia| |].
             ++ intros D' [= <-]. lia.
             ++ rewrite take_app_le by lia. done.
        * apply triple_ret. intros w (Hw & Ht & Hr). exists 0%nat. rewrite app_nil_r, Nat.add_0_r.
          split_and!; [lia|lia|auto].
      + intros _. apply triple_fail. intros w (k & Hk & HkD & HJE). exists k.
        rewrite length_app, take_app_le by lia. split_and!; [lia| |done]. by intros D' [= <-].
    - apply triple_ret. intros w (Hw & Ht & Hr). split_and!; [done|done|].
      intros D' [= <-]. rewrite Ht, length_app. lia. }
  intros []. apply triple_at. intros w0 (Hw & Ht & HtD).
  eapply triple_bind; [apply triple_map; eapply triple_conseq;
    [apply (write_rule p c); split; [exact Hc|]; intros D HDD; rewrite <-Ht; by apply HtD|by intros w Ew; rewrite Ew|by intros a w H; exact H|]|].
  { intros a w (k & Hk & HJE). exists k. rewrite length_app, take_app_le by lia.
    split_and!; [lia| |done]. intros D HDD. specialize (HtD D HDD). rewrite Ht, length_app in HtD. lia. }
  intros []. rewrite Ht. eapply triple_conseq.
  - apply (IH (p ++ c)); [by rewrite <-app_assoc|]. intros D HDD. rewrite <-Ht. by apply HtD.
  - done.
  - intros a w (-> & Hb & HaD & HJ). rewrite <-app_assoc in *. done.
  - intros e w (k & Hk & HkD & HJE). exists (length c + k)%nat. rewrite length_app. split_and!; [lia| |].
    + intros D HDD. specialize (HkD D HDD). rewrite length_app in HkD. lia.
    + rewrite take_app_add, app_assoc. done.
Qed.
End chunks.

Lemma validate_head_length r start range :
  validate_head r start = Ok (Some range) -> start = Some (cr_start range) /\ sr_status r = 206
  /\ exists h, sr_content_range r = Some (Some h) /\ parse_content_range h = Some range.
Proof.
  unfold validate_head. destruct (negb _); [done|]. destruct (_ =? 200); [done|].
  destruct (Z.eqb_spec (sr_status r) 206) as [Hs|]; [|done]. cbn [negb].
  intros (s & [= ->]%ok_or_ok & (t & Ht%ok_or_ok & (h & Hh%ok_or_ok & (rg & Hr%ok_or_ok & H)%rbind_ok)%rbind_ok)%rbind_ok)%rbind_ok.
  subst t. destruct (Z.eqb_spec (cr_start rg) s) as [<-|]; [|done]. cbn [negb] in H.
  assert (rg = range) as ->.
  { destruct (sr_content_length r); [|congruence]. apply rbind_ok in H as (cl & _ & H).
    destruct (negb _); congruence. }
  eauto 6.
Qed.

Section rule.
Context {W : Type} {SK : Sink W}.
Context (r : StreamResponse) (start : option Z) (P JM : W -> Prop) (J JE : str -> W -> Prop).
Context (on_metadata : StreamingResponseMetadata -> Eff W str unit).
Notation body := (sr_body r).
Hypothesis write_rule : forall range p b, validate_head r start = Ok range ->
  allowed body (declared_length <$> range) (p ++ b) ->
  triple (J p) (write_all b) (fun _ => J (p ++ b))
    (fun _ w => exists k, (k <= length b)%nat /\ JE (p ++ take k b) w).
Hypothesis flush_rule : forall p, triple (J p) flush (fun _ => J p) (fun _ => JE p).
Hypothesis J_JE : forall p w, J p w -> JE p w.
Hypothesis metadata_rule : forall range, validate_head r start = Ok range ->
  triple P (on_metadata (metadata_of r range)) (fun _ => J []) (fun _ => JM).

Lemma streaming_rule :
  triple P (write_streaming_response_with_metadata r start on_metadata)
    (fun d w => exists range, validate_head r start = Ok range /\ sr_broken r = None
       /\ d = mk_download (Z.of_nat (length body)) (bool_decide (is_Some range)) (text_of (sr_etag r))
                (text_of (sr_last_modified r)) (total_of r range)
       /\ (forall rg, range = Some rg -> Z.of_nat (length body) = declared_length rg)
       /\ J body w)
    (fun _ w => (P w /\ is_ok (validate_head r start) = false) \/ JM w
       \/ exists k range, validate_head r start = Ok range /\ (k <= length body)%nat
            /\ (forall rg, range = Some rg -> Z.of_nat k <= declared_length rg) /\ JE (take k body) w).
Proof.
  unfold write_streaming_response_with_metadata.
  eapply triple_bind; [apply triple_lift with (Q := fun range w => P w /\ validate_head r start = Ok range)|].
  { naive_solver. }
  { intros e w He Hw. left. by rewrite He. }
  intros range. apply triple_at. intros w0 [Hw0 Hhead].
  eapply triple_bind with (R := fun _ => J []).
  { apply triple_map. eapply triple_conseq; [exact (metadata_rule range Hhead)|by intros w ->|done|].
    intros a w H. by right; left. }
  intros []. clear w0 Hw0.
  assert (forall D, declared_length <$> range = Some D -> Z.of_nat (@length ascii []) <= D) as H0.
  { intros D HD. destruct range as [rg|]; [|done]. injection HD as <-.
    destruct (validate_head_length _ _ _ Hhead) as (_ & _ & h & _ & Hp). unfold declared_length.
    apply parse_content_range_spec in Hp as (? & ? & ? & _ & _ & _ & _ & Hle). cbn. lia. }
  eapply triple_bind; [eapply triple_conseq;
    [apply (write_chunks_rule body (declared_length <$> range) J JE
        (fun p b => write_rule range p b Hhead) J_JE (sr_broken r) (sr_chunks r) []);
       [done|exact H0]|by intros w H|intros t w H; exact H|]|].
  { intros e w (k & Hk & HkD & HJE). right; right. exists k, range.
    split_and!; [done|done| |done]. intros rg ->. by apply (HkD _ eq_refl). }
  intros t. cbn [app]. change (concat (sr_chunks r)) with body.
  apply triple_at. intros w0 (Ht & Hb & HtD & HJ).
  assert (forall w, JE body w -> (P w /\ is_ok (validate_head r start) = false) \/ JM w
       \/ exists k range, validate_head r start = Ok range /\ (k <= length body)%nat
            /\ (forall rg, range = Some rg -> Z.of_nat k <= declared_length rg) /\ JE (take k body) w) as Hstop.
  { intros w HJE. right; right. exists (length body), range. rewrite firstn_all. split_and!; [done|done| |done].
    intros rg ->. specialize (HtD _ eq_refl). lia. }
  eapply triple_bind with (R := fun _ => J body).
  { apply triple_map. eapply triple_conseq; [apply (flush_rule body)|by intros w ->|done|].
    intros e w H. by apply Hstop. }
  intros []. destruct range as [rg|]; cbn [fmap option_fmap option_map].
  - destruct (Z.eqb_spec t (declared_length rg)) as [E|E]; cbn [negb].
    + apply triple_ret. intros w Hw. exists (Some rg). rewrite Ht in *. split_and!; [done..| |done].
      intros rg' [= <-]. done.
    + apply triple_fail. intros w Hw. apply Hstop. auto.
  - apply triple_ret. intros w Hw. exists None. rewrite Ht. done.
Qed.
End rule.

(** What a writer promises: it takes a beginning of what it is given, and all of
    it when it reports success. *)
Class SinkLaws (W : Type) {SK : Sink W} := {
  sunk : W -> str;
  write_all_sinks b w :
    exists k, (k <= length b)%nat /\ sunk (write_all b w).2 = sunk w ++ take k b
      /\ ((write_all b w).1 = Ok tt -> k = length b);
  flush_sinks w : sunk (flush w).2 = sunk w
}.

Section within_range.
Context {W : Type} {SK : Sink W} {SL : SinkLaws W}.

(** Whatever a server sends, the sink gets a beginning
    of the body and nothing else: nothing before the headers are accepted, never
    more than the range that a partial response declares, and no partial response
    but one that starts at the byte that was asked for. Success means that the body
    ended, all of it was written and, for a partial response, it is exactly as long
    as declared. *)
Theorem streaming_within_range r start on_metadata w :
  (forall m w, sunk (on_metadata m w).2 = sunk w) ->
  let '(res, w') := write_streaming_response_with_metadata r start on_metadata w in
  exists k, (k <= length (sr_body r))%nat /\ sunk w' = sunk w ++ take k (sr_body r)
  /\ match validate_head r start with
     | Err _ => k = 0%nat
     | Ok None => True
     | Ok (Some range) => start = Some (cr_start range) /\ Z.of_nat k <= declared_length range
     end
  /\ match res with
     | Ok d => k = length (sr_body r) /\ bytes_written d = Z.of_nat k /\ sr_broken r = None
         /\ match validate_head r start with
            | Ok (Some range) => was_partial d = true /\ Z.of_nat k = declared_length range
            | Ok None => was_partial d = false
            | Err _ => False
            end
     | Err _ => True
     end.
Proof.
  intros Hm. set (J p (w' : W) := sunk w' = sunk w ++ p).
  assert (forall range p b, validate_head r start = Ok range ->
    allowed (sr_body r) (declared_length <$> range) (p ++ b) -> triple (J p) (write_all b) (fun _ => J (p ++ b))
      (fun _ w => exists k, (k <= length b)%nat /\ J (p ++ take k b) w)) as Hwrite.
  { intros range p b _ _ w1 Hw1. destruct (write_all_sinks b w1) as (k & Hk & Hs & Hok).
    destruct (write_all b w1) as [[[]|e] w2]; cbn in *; unfold J in *; rewrite Hw1, <-app_assoc in Hs.
    - specialize (Hok eq_refl). subst k. by rewrite firstn_all in Hs.
    - eauto. }
  assert (forall p, triple (J p) flush (fun _ => J p) (fun _ => J p)) as Hflush.
  { intros p w1 Hw1. pose proof (flush_sinks w1) as Hf. unfold J in *.
    destruct (flush w1) as [[]]; cbn in Hf; congruence. }
  assert (forall range, validate_head r start = Ok range ->
    triple (J []) (on_metadata (metadata_of r range)) (fun _ => J []) (fun _ => J [])) as Hmeta.
  { intros range _ w1 Hw1. pose proof (Hm (metadata_of r range) w1) as Hf. unfold J in *.
    destruct (on_metadata _ w1) as [[]]; cbn in Hf; congruence. }
  pose proof (streaming_rule r start (J []) (J []) J J on_metadata Hwrite Hflush (fun p w H => H) Hmeta w) as Hrule.
  destruct (write_streaming_response_with_metadata _ _ _ w) as [res w'].
  assert (J [] w) as H0 by (unfold J; by rewrite app_nil_r). specialize (Hrule H0).
  assert (forall rg, validate_head r start = Ok (Some rg) -> start = Some (cr_start rg) /\ 0 <= declared_length rg) as Hhead.
  { intros rg (Hs & _ & h & _ & (? & ? & ? & _ & _ & _ & _ & Hle)%parse_content_range_spec)%validate_head_length.
    unfold declared_length. split; [done|lia]. }
  destruct res as [d|e].
  - destruct Hrule as (range & E & Hb & -> & HD & HJ). exists (length (sr_body r)). rewrite E, firstn_all. cbn.
    split_and!; [done|exact HJ| |done..|].
    + destruct range as [rg|]; [|done]. split; [by apply Hhead|]. rewrite (HD rg eq_refl). lia.
    + destruct range as [rg|]; [|done]. split; [done|]. by apply HD.
  - destruct Hrule as [[HJ E]|[HJ|(k & range & E & Hk & HD & HJ)]].
    + exists 0%nat. split_and!; [lia|exact HJ| |done]. destruct (validate_head r start); [done|done].
    + exists 0%nat. split_and!; [lia|exact HJ| |done].
      destruct (validate_head r start) as [[rg|]|] eqn:E; [|done|done]. by apply Hhead.
    + exists k. rewrite E. split_and!; [done|exact HJ| |done]. destruct range as [rg|]; [|done].
      split; [by apply Hhead|by apply HD].
Qed.
End within_range.

Section buffered_props.
Context (allocate : Z -> option Z).

Lemma read_chunks_rule limit broken chunks p :
  triple (fun b => buf_bytes b = p /\ Z.of_nat (length p) <= limit /\ Forall (fun c => c <= limit) (asked b))
    (read_chunks allocate limit chunks broken)
    (fun _ b => buf_bytes b = p ++ concat chunks /\ broken = None
       /\ Z.of_nat (length (p ++ concat chunks)) <= limit /\ Forall (fun c => c <= limit) (asked b))
    (fun e b => Forall (fun c => c <= limit) (asked b) /\ Z.of_nat (length (buf_bytes b)) <= limit
       /\ match e with
          | ResponseTooLarge l => l = limit /\ (limit <= u64_max -> limit < Z.of_nat (length (p ++ concat chunks)))
          | ReadFailed error => broken = Some error
          | AllocationFailed => exists c, c <= limit /\ allocate c = None
          end).
Proof.
  revert p; induction chunks as [|c chunks IH]; intros p; cbn [read_chunks concat].
  { rewrite app_nil_r. destruct broken as [e|]; [apply triple_fail|apply triple_ret]; naive_solver. }
  apply triple_at. intros b0 (<- & Hlen & Hask).
  eapply triple_bind with (R := fun b b' => b' = b0 /\ b = b0); [by apply triple_get; intros w ->|].
  intros b. apply triple_at. intros b1 [-> ->].
  eapply triple_bind with (R := fun n b => b = b0 /\ n = Z.of_nat (length (buf_bytes b0 ++ c))).
  { apply triple_lift.
    - intros n w Hn%ok_or_ok ->. apply checked_add_some in Hn as [-> _]. rewrite length_app. split; [done|lia].
    - intros e w He ->. destruct (checked_add _ _) eqn:E; [done|]. injection He as <-.
      split_and!; [done|done|done|]. intros Hu. rewrite !length_app. unfold checked_add in E.
      destruct (_ <=? _) eqn:El; [done|]. lia. }
  intros n. apply triple_at. intros b1 [-> ->].
  destruct (Z.ltb_spec limit (Z.of_nat (length (buf_bytes b0 ++ c)))) as [Hgt|Hle].
  { apply triple_fail. intros w ->. split_and!; [done|done|done|]. intros _. rewrite !length_app in *. lia. }
  eapply triple_bind with (R := fun _ b => buf_bytes b = buf_bytes b0 /\ Forall (fun c => c <= limit) (asked b)).
  { intros w ->. unfold reserve_buffered_response_capacity.
    destruct (_ <=? buf_capacity b0); [done|].
    set (target := Z.max _ _). assert (target <= limit) as Ht by lia.
    assert (Forall (fun c => c <= limit) (asked b0 ++ [target])) by (apply Forall_app; by repeat constructor).
    destruct (allocate target) eqn:Ea; cbn; [done|]. split_and!; [done|done|]. eauto. }
  intros []. eapply triple_bind with (R := fun _ b => buf_bytes b = buf_bytes b0 ++ c
      /\ Z.of_nat (length (buf_bytes b0 ++ c)) <= limit /\ Forall (fun c => c <= limit) (asked b)).
  { apply triple_put. intros b1 [E Ha]. cbn. by rewrite E. }
  intros []. eapply triple_conseq; [apply (IH (buf_bytes b0 ++ c))|done| |]; cbn; intros a w; by rewrite <-app_assoc.
Qed.

(** Reading a body into memory asks for no capacity above
    the limit and never holds more than the limit, whatever length was announced and
    however the chunks are cut; it returns the whole body, and fails as too large
    only when the announced length or the body itself is. *)
Theorem buffered_within_limit limit content_length chunks broken :
  0 <= limit <= u64_max ->
  let '(res, b) := read_buffered_response_with_limit allocate limit content_length chunks broken in
  Forall (fun c => c <= limit) (asked b) /\ Z.of_nat (length (buf_bytes b)) <= limit
  /\ match res with
     | Ok body => body = concat chunks /\ broken = None
     | Err (ResponseTooLarge l) =>
         l = limit /\ (limit < Z.of_nat (length (concat chunks)) \/ exists n, content_length = Some n /\ limit < n)
     | Err (ReadFailed error) => broken = Some error
     | Err AllocationFailed => exists c, c <= limit /\ allocate c = None
     end.
Proof.
  intros Hl. unfold read_buffered_response_with_limit.
  pose proof (read_chunks_rule limit broken chunks [] (mk_buffer [] 0 [])) as H. cbn [app length] in H.
  specialize (H ltac:(cbn; repeat split; [lia|constructor])).
  destruct content_length as [n|]; [destruct (Z.ltb_spec limit n) as [Hn|Hn]|].
  { split_and!; [constructor|cbn; lia|done|]. right. eauto. }
  all: destruct (read_chunks allocate limit chunks broken (mk_buffer [] 0 [])) as [[[]|e] b];
    [destruct H as (-> & -> & Hle & Ha); done|].
  all: destruct H as (Ha & Hb & He); split_and!; [done|done|]; destruct e; try done;
    destruct He as [-> He]; split; [done|left; apply He; lia].
Qed.
End buffered_props.

(** * Examples: a sink with room for so many more bytes *)

Module StreamingExample.

Record Room := mk_room { kept : str; room : nat }.

Definition room_write (b : str) : Eff Room str unit :=
  fun w => (if (length b <=? room w)%nat then Ok tt else Err §"no room",
            mk_room (kept w ++ take (room w) b) (room w - length b)).

#[export] Instance room_sink : Sink Room := {| write_all := room_write; flush := eret tt |}.

#[export] Instance room_laws : SinkLaws Room.
Proof.
  refine {| sunk := kept |}; [|done]. intros b w. exists (min (room w) (length b)). cbn. split_and!; [lia| |].
  - f_equal. destruct (decide (room w <= length b)%nat).
    + by rewrite Nat.min_l by done.
    + rewrite Nat.min_r, firstn_all by lia. apply take_ge. lia.
  - destruct (length b <=? room w)%nat eqn:E; [|done]. apply Nat.leb_le in E. lia.
Defined.

(** Two bytes more than the range it declares. *)
Definition chatty : StreamResponse :=
  mk_stream 206 §"https://x.test/f" (Some (Some §"bytes 2-4/5")) None (Some (Some §"_v1_")) None
    [§"c"; §"defg"] None.

Example chatty_is_cut :
  write_streaming_response_with_metadata chatty (Some 2) (fun _ => eret tt) (mk_room §"ab" 9)
  = (Err (BodyExceedsRange 4 2), mk_room §"abcde" 6).
Proof. vm_compute. reflexivity. Qed.

Lemma streaming_within_range_witness :
  (forall (m : StreamingResponseMetadata) (w : Room), sunk (eret (E := str) tt w).2 = sunk w)
  /\ exists k, sunk (write_streaming_response_with_metadata chatty (Some 2) (fun _ => eret tt) (mk_room §"ab" 9)).2
       = §"ab" ++ take k (sr_body chatty) /\ Z.of_nat k <= 3.
Proof.
  split; [done|].
  pose proof (streaming_within_range chatty (Some 2) (fun _ => eret tt) (mk_room §"ab" 9) (fun _ _ => eq_refl)) as H.
  rewrite chatty_is_cut in H. destruct H as (k & _ & Hs & Hd & _). exists k. rewrite chatty_is_cut.
  split; [exact Hs|exact (proj2 Hd)].
Defined.

Lemma buffered_within_limit_witness :
  0 <= 5 <= u64_max
  /\ (read_buffered_response_with_limit Some 5 None [§"abc"; §"def"] None).1 = Err (ResponseTooLarge 5)
  /\ Z.of_nat (length (buf_bytes (read_buffered_response_with_limit Some 5 None [§"abc"; §"def"] None).2)) <= 5.
Proof.
  split; [vm_compute; split; discriminate|]. split; [vm_compute; reflexivity|].
  pose proof (buffered_within_limit Some 5 None [§"abc"; §"def"] None ltac:(vm_compute; split; discriminate)) as H.
  destruct (read_buffered_response_with_limit Some 5 None [§"abc"; §"def"] None) as [res b]. exact (proj1 (proj2 H)).
Defined.
End StreamingExample.
