(* ===== verification/Download.v ===== *)
(** Downloads into the content cache that can be resumed
    ([crates/data/src/features/streaming_download.rs]).

    A download keeps the bytes it has in a [.partial] file and what they are bytes
    of in a [.meta] sidecar, under a reservation of the cache's quota.  The model is
    one call of the download function over the state of these three, with every
    call to the system failing at will; the state remembers all the states that the
    disk passed through, so that a crash anywhere is one of them.  The sidecar is
    the record it decodes to ([Some None] is one that does not decode); writing it
    is one step, as its rename is.  The server is a function of the attempt. *)

From stdpp Require Import base tactics option list strings.
From Stdlib Require Import ZArith Lia Ascii.
From S2P Require Import Prelude Text Effects Streaming.

Open Scope arclain_scope.
Local Open Scope Z_scope.

#[local] Arguments String.list_ascii_of_string : simpl never.

(** * Reservations *)

Definition next_reservation_target (current required configured_chunk max_object_bytes : Z) : option Z :=
  if max_object_bytes <? required then None
  else
    let chunk := Z.max configured_chunk 1 in
    sum ← checked_add required (saturating_sub chunk 1);
    let rounded := sum / chunk * chunk in
    if u64_max <? rounded then None
    else
      let geometric := if current =? 0 then chunk else saturating_mul current 2 in
      let target := Z.min (Z.max rounded geometric) max_object_bytes in
      if required <=? target then Some target else None.

(** * The disk *)

Record PartialMeta := mk_meta {
  requested_url : option str;
  meta_url : str;
  meta_etag : option str;
  meta_last_modified : option str;
  meta_total_size : option Z
}.

Record ResumeRecord := mk_resume {
  rr_offset : Z;
  rr_total_size : Z;
  rr_etag : str;
  rr_validated_url : str
}.

Record Disk := mk_disk {
  data : option str;
  meta : option (option PartialMeta);
  reserved : option Z
}.

(** The cells that the writer and the callback of one attempt share. *)
Record Cells := mk_cells {
  bytes_on_disk : Z;
  reservation_floor : Z;
  reserved_bytes : Z;
  quota_failed : bool
}.

Record World := mk_world {
  disk : Disk;
  passed : list Disk;      (** the states of the disk so far, the latest last *)
  cells : Cells;
  callbacks : nat;
  calls : nat;             (** calls to the system so far *)
  fetches : nat;           (** requests sent so far *)
  stored : option str;     (** what was committed to the cache *)
  writes : list (Z * option Z)
    (** the size of the partial file after each write, and what was reserved then *)
}.

Inductive DownloadError :=
| StepFailed (step error : str)
| TransportFailed (error : str)
| StreamFailed (error : StreamError)
| NoMetadata
| QuotaRefused (error : str)
| RestartFailed (first second : DownloadError)
| UnexpectedPartial
| SizeMismatch (partial_size total_size : Z).

(** * What the call meets *)

Record Env := mk_env {
  fails : nat -> option str;       (** the error of the n-th call to the system, if it fails *)
  accepts : nat -> nat -> nat;     (** how much of a write of so many bytes it takes *)
  serve : nat -> option Z -> option str -> result str StreamResponse;
  reservation_chunk_bytes : Z;
  max_object_bytes : Z;
  retry_resume_errors : bool
}.

Section download.
Context (env : Env).

Definition set_disk (d : Disk) (w : World) : World :=
  mk_world d (passed w ++ [d]) (cells w) (callbacks w) (calls w) (fetches w) (stored w) (writes w).
Definition set_cells (c : Cells) (w : World) : World :=
  mk_world (disk w) (passed w) c (callbacks w) (calls w) (fetches w) (stored w) (writes w).
Definition tick (w : World) : World :=
  mk_world (disk w) (passed w) (cells w) (callbacks w) (S (calls w)) (fetches w) (stored w) (writes w).
Definition count_callback (w : World) : World :=
  mk_world (disk w) (passed w) (cells w) (S (callbacks w)) (calls w) (fetches w) (stored w) (writes w).
Definition begin_fetch (initial : Z) (w : World) : World :=
  mk_world (disk w) (passed w) (mk_cells initial 0 initial false) 0 (calls w) (S (fetches w)) (stored w) (writes w).
Definition set_stored (content : option str) (w : World) : World :=
  mk_world (disk w) (passed w) (cells w) (callbacks w) (calls w) (fetches w) content (writes w).

Definition set_data (d : option str) (w : World) : World :=
  set_disk (mk_disk d (meta (disk w)) (reserved (disk w))) w.
Definition set_meta (m : option (option PartialMeta)) (w : World) : World :=
  set_disk (mk_disk (data (disk w)) m (reserved (disk w))) w.
Definition set_reserved (r : option Z) (w : World) : World :=
  set_disk (mk_disk (data (disk w)) (meta (disk w)) r) w.

(** The file and the log of its writes. *)
Definition append_data (bytes : str) (w : World) : World :=
  let d := default [] (data (disk w)) ++ bytes in
  let w := set_data (Some d) w in
  mk_world (disk w) (passed w) (cells w) (callbacks w) (calls w) (fetches w) (stored w)
    (writes w ++ [(Z.of_nat (length d), reserved (disk w))]).

(** One call to the system. *)
Definition os_call : Eff World str unit :=
  fun w => (match fails env (calls w) with Some e => Err e | None => Ok tt end, tick w).

Definition call (step : str) : Eff World DownloadError unit := emap (StepFailed step) os_call.

(** A call whose failure is an answer. *)
Definition succeeds {E : Type} : Eff World E bool := fun w => (Ok (bool_decide (fails env (calls w) = None)), tick w).

Definition data_len (w : World) : Z := match data (disk w) with Some d => Z.of_nat (length d) | None => 0 end.

(** ** The quota ([content_cache/quota.rs]) *)

Definition reserve (amount : Z) : Eff World str unit :=
  let! _ := os_call in eput (set_reserved (Some amount)).

Definition release (step : str) : Eff World DownloadError unit :=
  let! _ := call step in eput (set_reserved None).

(** ** The writer *)

Definition fail_quota {A : Type} (error : str) : Eff World str A :=
  let! w := eget in
  let c := cells w in
  let! _ := eput (set_cells (mk_cells (bytes_on_disk c) (reservation_floor c) (reserved_bytes c) true)) in
  efail error.

Definition ensure_reserved (required : Z) : Eff World str unit :=
  let! w := eget in
  if required <=? reserved_bytes (cells w) then eret tt
  else
    match next_reservation_target (reserved_bytes (cells w)) required (reservation_chunk_bytes env)
            (max_object_bytes env) with
    | None => fail_quota §"cache per-object quota exceeded"
    | Some requested =>
        ematch (reserve requested)
          (fun _ => let! w := eget in
             let c := cells w in
             eput (set_cells (mk_cells (bytes_on_disk c) (reservation_floor c) requested (quota_failed c))))
          (fun error => fail_quota error)
    end.

(** [QuotaFile::write]: how many bytes were taken. *)
Definition quota_write (buf : str) : Eff World str nat :=
  let! w := eget in
  match checked_add (bytes_on_disk (cells w)) (Z.of_nat (length buf)) with
  | None => fail_quota §"cache per-object quota exceeded"
  | Some requested =>
      let required := Z.max requested (reservation_floor (cells w)) in
      let! _ := ensure_reserved required in
      let! w := eget in
      let written := Nat.min (accepts env (calls w) (length buf)) (length buf) in
      let! _ := os_call in
      let! _ := eput (append_data (take written buf)) in
      let! _ := eput (fun w =>
        let c := cells w in
        set_cells (mk_cells (saturating_add (bytes_on_disk c) (Z.of_nat written)) (reservation_floor c)
                     (reserved_bytes c) (quota_failed c)) w) in
      eret written
  end.

(** [Write::write_all]; a round takes at least one byte. *)
Fixpoint write_rounds (fuel : nat) (buf : str) : Eff World str unit :=
  match buf with
  | [] => eret tt
  | _ =>
      match fuel with
      | O => efail §"failed to write whole buffer"
      | S fuel' =>
          let! n := quota_write buf in
          if (n =? 0)%nat then efail §"failed to write whole buffer" else write_rounds fuel' (drop n buf)
      end
  end.

#[export] Instance quota_file : Sink World := {|
  write_all := fun buf => write_rounds (length buf) buf;
  flush := os_call
|}.
(** ** Partial records *)

Definition is_quote (c : ascii) : bool := (code c =? 34)%N.

Definition etag_byte (c : ascii) : bool :=
  (code c =? 33)%N || ((35 <=? code c) && (code c <=? 126))%N || (128 <=? code c)%N.

Definition is_strong_etag (etag : str) : bool :=
  (2 <=? length etag)%nat
  && match head etag with Some c => is_quote c | None => false end
  && match last etag with Some c => is_quote c | None => false end
  && negb (starts_with etag §"W/")
  && forallb etag_byte (take (length etag - 2) (drop 1 etag)).

(** [remove_file], for which a file that is not there is removed. *)
Definition remove_meta : Eff World DownloadError unit :=
  let! _ := call §"removing partial sidecar" in eput (set_meta None).
Definition remove_data : Eff World DownloadError unit :=
  let! _ := call §"removing partial sidecar" in eput (set_data None).

Definition discard_partial_record : Eff World DownloadError unit :=
  let! _ := remove_meta in remove_data.

Definition resume_candidate (url : str) (d : Disk) : option ResumeRecord :=
  bytes ← data d;
  m ← meta d ≫= id;
  total ← meta_total_size m;
  etag ← meta_etag m;
  let offset := Z.of_nat (length bytes) in
  if negb (bool_decide (requested_url m = Some url)) || negb (is_strong_etag etag)
     || (offset =? 0) || (total <=? offset) then None
  else Some (mk_resume offset total etag (meta_url m)).

Definition prepare_resume_record (url : str) : Eff World DownloadError (option ResumeRecord) :=
  let! _ := call §"checking partial data" in
  let! _ := call §"checking partial metadata" in
  let! w := eget in
  if bool_decide (data (disk w) = None) && bool_decide (meta (disk w) = None) then eret None
  else
    let! sized := succeeds in
    let! read := succeeds in
    match (if sized && read then resume_candidate url (disk w) else None) with
    | Some record => eret (Some record)
    | None => let! _ := discard_partial_record in eret None
    end.

(** ** One attempt *)

Definition matches_record (record : ResumeRecord) (m : StreamingResponseMetadata) : bool :=
  md_was_partial m
  && bool_decide (range_start m = Some (rr_offset record))
  && bool_decide (md_total_size m = Some (rr_total_size record))
  && bool_decide (md_etag m = Some (rr_etag record))
  && match md_etag m with Some e => is_strong_etag e | None => false end
  && str_eqb (validated_url m) (rr_validated_url record).

Definition bind_response_metadata (url : str) (resume : option ResumeRecord) (m : StreamingResponseMetadata)
  : Eff World str unit :=
  let! _ :=
    match resume with
    | Some record =>
        if negb (matches_record record m) then
          efail §"resume response metadata does not match the bound representation"
        else eret tt
    | None =>
        if md_was_partial m then efail §"fresh streaming request unexpectedly returned partial content"
        else eret tt
    end in
  let! _ := os_call in
  eput (set_meta (Some (Some (mk_meta (Some url) (validated_url m) (md_etag m) (md_last_modified m)
                                (md_total_size m))))).

(** The callback of an attempt. *)
Definition bind_metadata (url : str) (resume : option ResumeRecord) (m : StreamingResponseMetadata)
  : Eff World str unit :=
  let! _ := eput count_callback in
  let! w := eget in
  if negb (callbacks w =? 1)%nat then efail §"streaming metadata callback ran more than once"
  else
    let! _ :=
      match md_total_size m with
      | None => eret tt
      | Some total =>
          let! w := eget in
          let! _ :=
            (if total =? reserved_bytes (cells w) then eret tt
             else ematch (reserve total)
                    (fun _ => let! w := eget in
                       let c := cells w in
                       eput (set_cells (mk_cells (bytes_on_disk c) (reservation_floor c) total (quota_failed c))))
                    (fun error => fail_quota error)) in
          let! w := eget in
          let c := cells w in
          eput (set_cells (mk_cells (bytes_on_disk c) total (reserved_bytes c) (quota_failed c)))
      end in
    bind_response_metadata url resume m.

(** [fetch]: the request and the response, if there is one. *)
Definition fetch (n : nat) (range_start : option Z) (if_match : option str) (url : str) (resume : option ResumeRecord)
  : Eff World DownloadError StreamingDownload :=
  match serve env n range_start if_match with
  | Err e => efail (TransportFailed e)
  | Ok r => emap StreamFailed (write_streaming_response_with_metadata r range_start (bind_metadata url resume))
  end.

(** The result of an attempt, and whether the quota was what stopped it. *)
Definition execute_fetch_attempt (range_start : option Z) (if_match : option str) (url : str)
    (resume : option ResumeRecord) : Eff World DownloadError (result DownloadError StreamingDownload * bool) :=
  let! known := succeeds in
  let! w := eget in
  let initial_bytes := if known then data_len w else 0 in
  let! _ := eput (begin_fetch initial_bytes) in
  let! outcome := ecatch (fetch (fetches w) range_start if_match url resume) in
  let! w := eget in
  let outcome := match outcome with
                 | Ok d => if (callbacks w =? 1)%nat then Ok d else Err NoMetadata
                 | Err e => Err e
                 end in
  eret (outcome, quota_failed (cells w)).

(** ** The download *)

Definition open_fresh (step : str) : Eff World DownloadError unit :=
  let! _ := call step in eput (set_data (Some [])).

Definition open_resumable : Eff World DownloadError unit :=
  let! _ := call §"opening resumable partial file" in
  let! w := eget in
  match data (disk w) with
  | Some _ => eret tt
  | None => efail (StepFailed §"opening resumable partial file" §"not found")
  end.

(** What is left after a failed attempt: nothing if the quota failed, and
    otherwise the partial file, with just its size reserved. *)
Definition settle (quota_failed : bool) : Eff World DownloadError unit :=
  if quota_failed then
    let! _ := eignore (F := DownloadError) discard_partial_record in
    eignore (release §"releasing")
  else
    let! known := succeeds in
    let! w := eget in
    if known && bool_decide (is_Some (data (disk w))) then eignore (reserve (data_len w)) else eret tt.

Definition reserve_step (step : str) (amount : Z) : Eff World DownloadError unit :=
  emap (StepFailed step) (reserve amount).

(** After a resumed stream failed, when that is retried. *)
Definition restart_after_error (url : str) (error : DownloadError) : Eff World DownloadError StreamingDownload :=
  let! _ := discard_partial_record in
  let! _ := release §"releasing failed resume" in
  let! _ := reserve_step §"reserving clean restart capacity" 0 in
  let! _ := open_fresh §"opening clean restart file" in
  let! (outcome, quota) := execute_fetch_attempt None None url None in
  match outcome with
  | Ok d => eret d
  | Err restart_error => let! _ := settle quota in efail (RestartFailed error restart_error)
  end.

(** After a resumed response that does not match what it resumed. *)
Definition restart_after_mismatch (url : str) : Eff World DownloadError StreamingDownload :=
  let! _ := discard_partial_record in
  let! _ := open_fresh §"opening clean restart file" in
  let! _ := release §"releasing mismatched resume reservation" in
  let! _ := reserve_step §"reserving clean restart capacity" 0 in
  let! (outcome, quota) := execute_fetch_attempt None None url None in
  match outcome with
  | Ok d => eret d
  | Err error =>
      let! _ := (if quota then let! _ := eignore (F := DownloadError) discard_partial_record in
                               eignore (release §"releasing")
                 else eret tt) in
      efail error
  end.

Definition resume_validated (resume : option ResumeRecord) (d : StreamingDownload) : bool :=
  match resume with
  | Some record =>
      was_partial d
      && bool_decide (total_size d = Some (rr_total_size record))
      && bool_decide (etag d = Some (rr_etag record))
      && match etag d with Some e => is_strong_etag e | None => false end
  | None => false
  end.

Definition settle_refusal {A : Type} (error : DownloadError) : Eff World DownloadError A :=
  let! _ := eignore (F := DownloadError) discard_partial_record in
  let! _ := eignore (F := DownloadError) (release §"releasing") in
  efail error.

(** The partial file into the cache, and the sidecars away. *)
Definition commit_partial (partial_size : Z) : Eff World DownloadError Z :=
  ematch (call §"preparing the commit") (fun _ =>
    let! _ := call §"re-opening partial for cacache transfer" in
    let! _ := call §"seeking partial" in
    let! _ := call §"opening cache writer" in
    let! _ := call §"writing to cache" in
    let! w := eget in
    let content := default [] (data (disk w)) in
    ematch (call §"committing cache blob and index") (fun _ =>
      let! _ := eput (set_stored (Some content)) in
      let! _ := eignore (F := DownloadError) discard_partial_record in
      let! _ := release §"releasing completed cache reservation" in
      eret (Z.of_nat (length content)))
    settle_refusal)
  settle_refusal.

(** [total_of] is what a file of some size should have. *)
Definition finish_download (total_of : Z -> Z) : Eff World DownloadError Z :=
  let! _ := call §"flushing completed partial file" in
  let! _ := call §"reading completed partial size" in
  let! w := eget in
  let partial_size := data_len w in
  let total := total_of partial_size in
  if negb (partial_size =? total) then
    let! _ := eignore (F := DownloadError) (reserve partial_size) in
    efail (SizeMismatch partial_size total)
  else commit_partial partial_size.

(** From the first attempt to the end; [resume] is what it may continue. *)
Definition download_from (url : str) (resume : option ResumeRecord) : Eff World DownloadError Z :=
  let resuming := bool_decide (is_Some resume) in
  let! (first, quota) :=
    execute_fetch_attempt (rr_offset <$> resume) (rr_etag <$> resume) url resume in
  let! (result, did_restart) :=
    match first with
    | Ok d => eret (d, false)
    | Err error =>
        if resuming && retry_resume_errors env && negb quota then
          let! d := restart_after_error url error in eret (d, true)
        else let! _ := settle quota in efail error
    end in
  let validated := negb did_restart && resume_validated resume result in
  let! (result, did_restart) :=
    (if resuming && negb did_restart && negb validated then
       let! d := restart_after_mismatch url in eret (d, true)
     else eret (result, did_restart)) in
  if (negb resuming || did_restart) && was_partial result then settle_refusal UnexpectedPartial
  else
    finish_download (fun partial_size =>
      match resume with
      | Some record => if validated then rr_total_size record else default partial_size (total_size result)
      | None => default partial_size (total_size result)
      end).

Definition download (url : str) : Eff World DownloadError Z :=
  let! _ := call §"creating partial dir" in
  let! _ := call §"locking streaming download identity" in
  let! _ := call §"locking scoped cache key" in
  let! resume := prepare_resume_record url in
  ematch (reserve (match resume with Some record => rr_offset record | None => 0 end))
    (fun _ =>
      let! _ :=
        match resume with
        | Some _ => let! _ := remove_meta in open_resumable
        | None => open_fresh §"opening fresh partial file"
        end in
      download_from url resume)
    (fun error => settle_refusal (QuotaRefused error)).
End download.
