(* ===== verification/DownloadProps.v ===== *)
(** What a resumable download guarantees: the bytes of different representations
    are never combined, whatever fails and wherever it is cut short, and no byte is
    written that was not reserved.

    The hypothesis on servers is HTTP's on strong validators: two responses for a
    URL with the same strong entity tag are of the same bytes ([lawful]). *)

From stdpp Require Import base tactics option list strings.
From Stdlib Require Import ZArith Lia Ascii.
From S2P Require Import Prelude Text Effects Streaming Download.

Open Scope arclain_scope.
Local Open Scope Z_scope.

#[local] Arguments String.list_ascii_of_string : simpl never.

Section props.
(** The bytes that a URL and a strong entity tag stand for. *)
Context (rep : str -> str -> str).

Definition lawful (env : Env) : Prop :=
  forall n start im r e, serve env n start im = Ok r -> text_of (sr_etag r) = Some e -> is_strong_etag e = true ->
  (sr_status r = 200 ->
     sr_body r `prefix_of` rep (sr_url r) e
     /\ forall t, total_of r None = Some t -> t = Z.of_nat (length (rep (sr_url r) e)))
  /\ (forall h range, sr_status r = 206 -> sr_content_range r = Some (Some h) -> parse_content_range h = Some range ->
     take (Z.to_nat (declared_length range)) (sr_body r)
       `prefix_of` drop (Z.to_nat (cr_start range)) (rep (sr_url r) e)
     /\ cr_total range = Z.of_nat (length (rep (sr_url r) e))).

(** A disk from which a download may be resumed: the partial file is a beginning
    of what the sidecar says it is. *)
Definition sound (d : Disk) : Prop :=
  forall m e t bytes, meta d = Some (Some m) -> meta_etag m = Some e -> is_strong_etag e = true ->
    meta_total_size m = Some t -> data d = Some bytes ->
    bytes `prefix_of` rep (meta_url m) e /\ t = Z.of_nat (length (rep (meta_url m) e)).

(** A write within the reservation. *)
Definition covered (x : Z * option Z) : Prop := exists a, x.2 = Some a /\ x.1 <= a.

Definition good (w : World) : Prop := Forall sound (passed w) /\ sound (disk w) /\ Forall covered (writes w).

Lemma sound_no_meta bytes r : sound (mk_disk bytes None r).
Proof. by intros m e t b. Qed.

Lemma good_set_disk d w : good w -> sound d -> good (set_disk d w).
Proof. intros (H1 & H2 & H3) Hd. split_and!; [|done|done]. cbn. apply Forall_app. split; [done|]. constructor; [done|constructor]. Qed.

Lemma good_set_reserved a w : good w -> good (set_reserved a w).
Proof. intros H. apply good_set_disk; [done|]. intros m e t b. cbn. by apply H. Qed.

Lemma good_no_meta d w : good w -> meta (disk w) = None -> good (set_data d w).
Proof. intros H E. apply good_set_disk; [done|]. rewrite E. apply sound_no_meta. Qed.

Lemma good_drop_meta w : good w -> good (set_meta None w).
Proof. intros H. apply good_set_disk; [done|]. apply sound_no_meta. Qed.

Lemma good_drop_data w : good w -> good (set_data None w).
Proof. intros H. apply good_set_disk; [done|]. by intros m e t b. Qed.

(** Every tick and every note of the bookkeeping leaves the disk alone. *)
Definition same_disk (w w' : World) : Prop :=
  disk w' = disk w /\ passed w' = passed w /\ writes w' = writes w.

Lemma good_same w w' : same_disk w w' -> good w -> good w'.
Proof. intros (E1 & E2 & E3). unfold good. by rewrite E1, E2, E3. Qed.

Section calls.
Context (env : Env).

Lemma os_call_rule P (Q : World -> Prop) (X : str -> World -> Prop) :
  (forall w, P w -> Q (tick w)) -> (forall e w, P w -> X e (tick w)) ->
  triple P (os_call env) (fun _ => Q) X.
Proof. intros HQ HX w Hw. unfold os_call. destruct (fails env (calls w)); cbn; auto. Qed.

Lemma call_rule step P (Q : World -> Prop) (X : DownloadError -> World -> Prop) :
  (forall w, P w -> Q (tick w)) -> (forall e w, P w -> X e (tick w)) ->
  triple P (call env step) (fun _ => Q) X.
Proof. intros HQ HX. apply triple_map. apply os_call_rule; auto. Qed.

Lemma succeeds_rule {E : Type} P Q (X : E -> World -> Prop) :
  (forall b w, P w -> Q b (tick w)) -> triple P (succeeds env) Q X.
Proof. intros HQ w Hw. by apply HQ. Qed.

(** A call, then a change. *)
Lemma step_rule step f P (Q : World -> Prop) (X : DownloadError -> World -> Prop) :
  (forall w, P w -> Q (f (tick w))) -> (forall e w, P w -> X e (tick w)) ->
  triple P (let! _ := call env step in eput f) (fun _ => Q) X.
Proof.
  intros HQ HX. eapply triple_bind with (R := fun _ w => exists w0, w = tick w0 /\ P w0).
  - apply call_rule; eauto.
  - intros []. apply triple_put. intros w (w0 & -> & Hw). auto.
Qed.

Lemma reserve_rule amount P (Q : World -> Prop) (X : str -> World -> Prop) :
  (forall w, P w -> Q (set_reserved (Some amount) (tick w))) -> (forall e w, P w -> X e (tick w)) ->
  triple P (reserve env amount) (fun _ => Q) X.
Proof.
  intros HQ HX. eapply triple_bind with (R := fun _ w => exists w0, w = tick w0 /\ P w0).
  - apply os_call_rule; eauto.
  - intros []. apply triple_put. intros w (w0 & -> & Hw). auto.
Qed.

Lemma fail_quota_rule {A : Type} error P (Q : A -> World -> Prop) (X : str -> World -> Prop) :
  (forall w c, P w -> X error (set_cells c w)) -> triple P (fail_quota error) Q X.
Proof. intros HX w Hw. cbn. by apply HX. Qed.
End calls.
(** * One attempt *)

(** What a record says of the bytes it resumes. *)
Definition resumable (record : ResumeRecord) (d0 : str) : Prop :=
  is_strong_etag (rr_etag record) = true /\ rr_offset record = Z.of_nat (length d0)
  /\ d0 `prefix_of` rep (rr_validated_url record) (rr_etag record)
  /\ rr_total_size record = Z.of_nat (length (rep (rr_validated_url record) (rr_etag record)))
  /\ 0 < rr_offset record < rr_total_size record.

Definition resumes (resume : option ResumeRecord) (d0 : str) : Prop :=
  match resume with Some record => resumable record d0 | None => d0 = [] end.

(** A response that the callback accepts. *)
Definition accepted (resume : option ResumeRecord) (r : StreamResponse) (range : option ContentRange) : Prop :=
  match resume with
  | Some record => matches_record record (metadata_of r range) = true
  | None => range = None
  end.

Section attempt.
Context (env : Env) (url : str) (resume : option ResumeRecord) (d0 : str).
Context (n : nat) (im : option str) (r : StreamResponse).
Hypothesis Hlaw : lawful env.
Hypothesis Hd0 : resumes resume d0.
Hypothesis Hserve : serve env n (rr_offset <$> resume) im = Ok r.
Notation start := (rr_offset <$> resume).

Definition bound_meta (range : option ContentRange) : PartialMeta :=
  mk_meta (Some url) (sr_url r) (text_of (sr_etag r)) (text_of (sr_last_modified r)) (total_of r range).

Notation allowed_of range := (allowed (sr_body r) (declared_length <$> range)).

Lemma matches_record_spec record range :
  matches_record record (metadata_of r range) = true ->
  exists rg, range = Some rg /\ cr_start rg = rr_offset record /\ cr_total rg = rr_total_size record
    /\ text_of (sr_etag r) = Some (rr_etag record) /\ is_strong_etag (rr_etag record) = true
    /\ sr_url r = rr_validated_url record.
Proof.
  unfold matches_record. cbn. rewrite !andb_true_iff, !bool_decide_eq_true.
  intros (((((H1 & H2) & H3) & H4) & H5) & H6). destruct range as [rg|]; [|by destruct H1].
  cbn in *. injection H2 as H2. injection H3 as H3. rewrite H4 in H5. apply str_eqb_eq in H6.
  exists rg. done.
Qed.

(** Whatever beginning of an accepted body has been appended, the disk is sound. *)
Lemma sound_appended range q R :
  validate_head r start = Ok range -> accepted resume r range -> allowed_of range q ->
  sound (mk_disk (Some (d0 ++ q)) (Some (Some (bound_meta range))) R).
Proof.
  intros Hhead Hacc [Hq HqD] m e t bytes [= <-] He Hs Ht [= <-]. cbn in *.
  destruct (Hlaw _ _ _ _ _ Hserve He Hs) as [Hfull Hpart].
  destruct resume as [record|]; cbn in Hacc, Hd0.
  - destruct (matches_record_spec _ _ Hacc) as (rg & -> & Hst & Htot & Het & _ & Hurl).
    destruct (validate_head_length _ _ _ Hhead) as (_ & H206 & h & Hh & Hp).
    destruct (Hpart h rg H206 Hh Hp) as [Hpre Hlen]. cbn in Ht. injection Ht as <-. split; [|done].
    rewrite Hurl in *. rewrite He in Het. injection Het as ->. destruct Hd0 as (_ & Hoff & Hpre0 & _).
    assert (drop (Z.to_nat (cr_start rg)) (rep (rr_validated_url record) (rr_etag record))
            = drop (length d0) (rep (rr_validated_url record) (rr_etag record))) as Edrop by (f_equal; lia).
    rewrite Edrop in Hpre. destruct Hpre0 as [rest Erest]. rewrite Erest, drop_app_length in *.
    apply prefix_app. etrans; [|exact Hpre]. specialize (HqD _ eq_refl).
    destruct Hq as [rest' Eq]. rewrite Eq. rewrite take_app_ge by lia. by eexists.
  - subst d0 range. assert (sr_status r = 200) as H200.
    { clear -Hhead. unfold validate_head in Hhead. destruct (negb _); [done|].
      destruct (Z.eqb_spec (sr_status r) 200) as [?|]; [done|]. destruct (negb _); [done|].
      cbn in Hhead. discriminate Hhead. }
    destruct (Hfull H200) as [Hpre Hlen]. split; [by etrans|]. by apply Hlen.
Qed.
(** ** The body goes into the file *)

Section writer.
Context (range : option ContentRange).
Hypothesis Hhead : validate_head r start = Ok range.
Hypothesis Hacc : accepted resume r range.

(** What is written, and the reservation that covers it.  The length the writer
    counts from is that of the file, unless it could not be asked for; then the
    total is reserved before the first byte. *)
Definition writing (p : str) (b f : Z) (w : World) : Prop :=
  data (disk w) = Some (d0 ++ p) /\ meta (disk w) = Some (Some (bound_meta range)) /\ good w
  /\ callbacks w = 1%nat /\ bytes_on_disk (cells w) = b /\ reservation_floor (cells w) = f
  /\ f <= reserved_bytes (cells w)
  /\ exists R, reserved (disk w) = Some R /\ reserved_bytes (cells w) <= R /\ Z.of_nat (length (d0 ++ p)) <= R.

Definition counted (p : str) (b f : Z) : Prop :=
  b <= Z.of_nat (length (d0 ++ p))
  /\ (b = Z.of_nat (length (d0 ++ p)) \/ forall q, allowed_of range q -> Z.of_nat (length (d0 ++ q)) <= f).

Definition progress (p : str) (w : World) : Prop := exists b f, writing p b f w /\ counted p b f.

Lemma next_target_le current required chunk max t :
  next_reservation_target current required chunk max = Some t -> required <= t.
Proof.
  unfold next_reservation_target. destruct (_ <? _); [done|].
  intros (x & _ & H)%bind_Some. destruct (_ <? _); [done|]. destruct (required <=? _) eqn:E; [|done].
  injection H as <-. lia.
Qed.

Lemma ensure_reserved_rule p b f required :
  Z.of_nat (length (d0 ++ p)) <= required -> f <= required ->
  triple (writing p b f) (ensure_reserved env required)
    (fun _ w => writing p b f w /\ required <= reserved_bytes (cells w)) (fun _ => good).
Proof.
  intros Hp Hf. unfold ensure_reserved.
  eapply triple_bind with (R := fun w w' => w' = w /\ writing p b f w); [by apply triple_get|].
  intros w0. apply triple_at. intros w1 [-> Hw].
  destruct (Z.leb_spec required (reserved_bytes (cells w0))) as [Hle|Hgt].
  { apply triple_ret. by intros w ->. }
  destruct Hw as (H1 & H2 & H3 & H4 & H5 & H6 & H7 & R & HR).
  destruct (next_reservation_target _ _ _ _) as [t|] eqn:Et.
  - apply next_target_le in Et.
    eapply triple_match with (R := fun _ w => w = set_reserved (Some t) (tick w0)) (S := fun _ w => w = tick w0).
    + by apply reserve_rule; intros; subst.
    + intros []. intros w ->. cbn. split; [|done]. split_and!; try done.
      * apply good_set_reserved. by eapply good_same.
      * cbn. lia.
      * exists t. cbn. split_and!; [done|lia|lia].
    + intros e. apply fail_quota_rule. intros w c ->. by eapply good_same.
  - apply fail_quota_rule. intros w c ->. by eapply good_same.
Qed.

Lemma allowed_prefix q q' : allowed_of range q -> q' `prefix_of` q -> allowed_of range q'.
Proof.
  intros [H1 H2] Hpre. split; [by etrans|]. intros D HD. specialize (H2 D HD).
  apply prefix_length in Hpre. lia.
Qed.

Lemma quota_write_rule p buf :
  allowed_of range (p ++ buf) ->
  triple (progress p) (quota_write env buf)
    (fun k w => (k <= length buf)%nat /\ progress (p ++ take k buf) w) (fun _ => good).
Proof.
  intros Hal. apply triple_at. intros w0 (b & f & Hw & Hle & Hb).
  assert (allowed_of range p) as Halp by (eapply allowed_prefix; [done|by eexists]).
  unfold quota_write. eapply triple_bind with (R := fun w w' => w' = w0 /\ w = w0); [by apply triple_get; intros w ->|].
  intros w1. apply triple_at. intros w2 [-> ->].
  pose proof Hw as (_ & _ & Hg & _ & Eb & Ef & _). rewrite Eb, Ef. clear Eb Ef.
  destruct (checked_add b (Z.of_nat (length buf))) as [req|] eqn:Eadd; cycle 1.
  { apply fail_quota_rule. intros w c ->. by eapply good_same. }
  apply checked_add_some in Eadd as [-> Hmax].
  set (required := Z.max (b + Z.of_nat (length buf)) f).
  assert (Z.of_nat (length (d0 ++ p ++ buf)) <= required) as Hreq.
  { unfold required. destruct Hb as [Hb|Hall]; [rewrite Hb, !length_app; lia|]. specialize (Hall _ Hal). lia. }
  eapply triple_bind with (R := fun _ w => writing p b f w /\ required <= reserved_bytes (cells w)).
  { eapply triple_conseq; [apply (ensure_reserved_rule p b f required)|by intros w ->|done|done].
    - rewrite app_assoc, length_app in Hreq. lia.
    - unfold required. lia. }
  intros []. apply triple_at. intros w1 [Hw1 Hrb].
  eapply triple_bind with (R := fun w w' => w' = w1 /\ w = w1); [by apply triple_get; intros w ->|].
  intros w2. apply triple_at. intros w3 [-> ->].
  set (k := Nat.min _ _). assert (k <= length buf)%nat as Hk by lia.
  destruct Hw1 as (H1 & H2 & H3 & H4 & H5 & H6 & H7 & R & HR & HRb & HRp).
  eapply triple_bind with (R := fun _ w => w = tick w1); [apply os_call_rule; [by intros w ->|]|].
  { intros e w ->. by eapply good_same. }
  assert (allowed_of range (p ++ take k buf)) as Halk.
  { apply (allowed_prefix (p ++ buf)); [done|]. apply prefix_app. exists (drop k buf). by rewrite take_drop. }
  assert (Z.of_nat (length (d0 ++ p ++ take k buf)) <= R) as HkR.
  { rewrite !length_app, length_take in *. lia. }
  intros [] w ->. cbn - [append_data]. split; [done|].
  exists (saturating_add b (Z.of_nat k)), f. split.
  - split_and!; cbn; rewrite ?H1, ?H2; cbn; rewrite <-?app_assoc; try done; [|by rewrite H5|].
    + destruct H3 as (G1 & G2 & G3). split_and!; cbn; rewrite ?H1, ?H2; cbn; rewrite <-?app_assoc.
      * apply Forall_app. split; [done|]. constructor; [|constructor]. by apply sound_appended.
      * by apply sound_appended.
      * apply Forall_app. split; [done|]. constructor; [|constructor]. exists R. by split.
    + exists R. split_and!; [done|done|done].
  - unfold counted, saturating_add. rewrite !length_app, length_take in *. split; [lia|].
    destruct Hb as [Hb|Hb]; [left; lia|right; exact Hb].
Qed.

Lemma write_rounds_rule fuel p buf :
  allowed_of range (p ++ buf) ->
  triple (progress p) (write_rounds env fuel buf) (fun _ => progress (p ++ buf)) (fun _ => good).
Proof.
  assert (forall p w, progress p w -> good w) as Hgood by (intros p' w (b & f & H & _); apply H).
  revert p buf; induction fuel as [|fuel IH]; intros p buf Hal;
    (destruct buf as [|c buf]; cbn [write_rounds]; [apply triple_ret; by rewrite app_nil_r|]).
  { apply triple_fail. eauto. }
  eapply triple_bind; [by apply quota_write_rule|]. intros k. apply triple_at. intros w [Hk Hw].
  destruct (k =? 0)%nat; [apply triple_fail; intros ? ->; eauto|].
  eapply triple_conseq; [apply (IH (p ++ take k (c :: buf)) (drop k (c :: buf)))|by intros ? ->| |done].
  - by rewrite <-app_assoc, take_drop.
  - intros [] w'. by rewrite <-app_assoc, take_drop.
Qed.
End writer.
(** ** The callback *)

(** An attempt has begun: the bytes there are reserved, and counted if their
    number could be asked for. *)
Definition begun (w : World) : Prop :=
  data (disk w) = Some d0 /\ meta (disk w) = None /\ good w /\ callbacks w = 0%nat
  /\ reserved (disk w) = Some (Z.of_nat (length d0))
  /\ exists i, cells w = mk_cells i 0 i false /\ (i = Z.of_nat (length d0) \/ i = 0).

Definition streaming (p : str) (w : World) : Prop :=
  exists range, validate_head r start = Ok range /\ accepted resume r range /\ progress range p w.

Lemma total_nonneg range t :
  validate_head r start = Ok range -> total_of r range = Some t -> 0 <= t.
Proof.
  intros Hhead. destruct range as [rg|]; cbn.
  - intros [= <-]. destruct (validate_head_length _ _ _ Hhead) as (_ & _ & h & _ & Hp).
    apply parse_content_range_spec in Hp as (s & e & u & _ & _ & _ & (_ & _ & Hv & _)%parse_decimal_spec & _).
    by eapply digits_value_nonneg in Hv.
  - intros (text & _ & H)%bind_Some. unfold parse_unsigned in H. destruct text as [|c text]; [done|].
    unfold parse_digits_in in H. repeat case_match; simplify_eq; lia.
Qed.

Lemma bind_response_rule range b f w0 :
  validate_head r start = Ok range ->
  data (disk w0) = Some d0 -> meta (disk w0) = None -> good w0 -> callbacks w0 = 1%nat ->
  bytes_on_disk (cells w0) = b -> reservation_floor (cells w0) = f -> f <= reserved_bytes (cells w0) ->
  (accepted resume r range ->
     counted range [] b f
     /\ exists R, reserved (disk w0) = Some R /\ reserved_bytes (cells w0) <= R /\ Z.of_nat (length d0) <= R) ->
  triple (fun w => w = w0) (bind_response_metadata env url resume (metadata_of r range))
    (fun _ => streaming []) (fun _ => good).
Proof.
  intros Hhead H1 H2 H3 H4 H5 H6 H7 Hok. unfold bind_response_metadata.
  eapply triple_bind with (R := fun _ w => w = w0 /\ accepted resume r range).
  { unfold accepted. destruct resume as [record|].
    - destruct (matches_record record _) eqn:E; cbn [negb]; [apply triple_ret; by intros w ->|].
      apply triple_fail. by intros w ->.
    - destruct range as [rg|]; cbn; [apply triple_fail; by intros w ->|apply triple_ret; by intros w ->]. }
  intros []. apply triple_at. intros w1 [-> Hacc]. destruct (Hok Hacc) as (Hcnt & R & HR & HRb & HRp).
  eapply triple_bind with (R := fun _ w => w = tick w0).
  { apply os_call_rule; intros; subst; [done|by eapply good_same]. }
  intros []. apply triple_put. intros w ->. exists range. split_and!; [done|done|].
  exists b, f. split; [|done]. split_and!; cbn; rewrite ?H1, ?app_nil_r; try done; [|by exists R].
  apply good_set_disk; [by eapply good_same|]. cbn. rewrite H1, <-(app_nil_r d0).
  apply sound_appended; [done|done|]. split; [apply prefix_nil|]. intros D HD. cbn.
  destruct range as [rg|]; [|done]. injection HD as <-.
  destruct (validate_head_length _ _ _ Hhead) as (_ & _ & h & _ & (? & ? & ? & _ & _ & _ & _ & Hle)%parse_content_range_spec).
  unfold declared_length. lia.
Qed.

(** A resumed response covers the file and no more. *)
Lemma accepted_total range :
  validate_head r start = Ok range -> accepted resume r range -> d0 <> [] ->
  exists t, total_of r range = Some t /\ Z.of_nat (length d0) < t
    /\ forall q, allowed_of range q -> Z.of_nat (length (d0 ++ q)) <= t.
Proof.
  intros Hhead Hacc Hne. destruct resume as [record|]; [|done]. cbn in Hd0.
  destruct (matches_record_spec _ _ Hacc) as (rg & -> & Hst & Htot & _).
  destruct Hd0 as (_ & Hoff & _ & _ & Hlt). exists (cr_total rg). split_and!; [done|lia|].
  intros q [_ HD]. specialize (HD _ eq_refl).
  destruct (validate_head_length _ _ _ Hhead) as (_ & _ & h & _ & (? & ? & ? & _ & _ & _ & _ & Hle)%parse_content_range_spec).
  unfold declared_length in HD. rewrite length_app. lia.
Qed.

Lemma bind_metadata_rule range :
  validate_head r start = Ok range ->
  triple begun (bind_metadata env url resume (metadata_of r range)) (fun _ => streaming []) (fun _ => good).
Proof.
  intros Hhead. apply triple_at. intros w0 (H1 & H2 & H3 & H4 & H5 & i & H6 & Hi). unfold bind_metadata.
  eapply triple_bind with (R := fun _ w => w = count_callback w0); [apply triple_put; by intros w ->|].
  intros []. eapply triple_bind with (R := fun w w' => w' = count_callback w0 /\ w = w');
    [by apply triple_get; intros w ->|].
  intros w1. apply triple_at. intros w2 [-> ->]. cbn [callbacks count_callback]. rewrite H4. cbn [Nat.eqb negb].
  set (w1 := count_callback w0).
  assert (good w1) as Hg1 by (by eapply good_same).
  assert (bytes_on_disk (cells w1) = i /\ reserved_bytes (cells w1) = i /\ reservation_floor (cells w1) = 0) as (E1 & E2 & E3)
    by (cbn; rewrite H6; done).
  assert (0 <= Z.of_nat (length d0)) by lia.
  change (md_total_size (metadata_of r range)) with (total_of r range).
  destruct (total_of r range) as [t|] eqn:Et.
  - pose proof (total_nonneg _ _ Hhead Et) as Ht0.
    set (settled w := (w = set_cells (mk_cells i t t false) w1 /\ t = i)
           \/ w = set_cells (mk_cells i t t false) (set_reserved (Some t) (tick w1))).
    eapply triple_bind with (R := fun _ => settled).
    { eapply triple_bind with (R := fun w w' => w' = w1 /\ w = w1); [by apply triple_get; intros w ->|].
      intros w2. apply triple_at. intros w3 [-> ->].
      eapply triple_bind with (R := fun _ w => (w = w1 /\ t = i)
         \/ w = set_cells (mk_cells i 0 t false) (set_reserved (Some t) (tick w1))).
      { rewrite E2. destruct (Z.eqb_spec t i) as [->|Hne]; [apply triple_ret; intros w ->; by left|].
        eapply triple_match with (R := fun _ w => w = set_reserved (Some t) (tick w1)) (S := fun _ w => w = tick w1).
        - by apply reserve_rule; intros; subst.
        - intros [] w ->. cbn. rewrite H6. by right.
        - intros e. apply fail_quota_rule. intros w c ->. by eapply good_same. }
      intros [] w Hw. cbn. unfold settled. destruct Hw as [[-> ->]| ->]; cbn; rewrite ?H6; [by left|by right]. }
    intros []. apply triple_at. intros w2 Hw2.
    apply (bind_response_rule range i t w2 Hhead); destruct Hw2 as [[-> Hti]| ->]; try done.
    { apply (good_same (set_reserved (Some t) (tick w1))); [done|].
      apply good_set_reserved. by apply (good_same w1). }
    1, 2: cbn; by rewrite H4.
    + intros Hacc. split; [|exists (Z.of_nat (length d0)); cbn; split_and!; [done|lia|lia]].
      split; cbn; rewrite app_nil_r; [lia|]. destruct Hi as [Hi|Hi]; [by left|]. left.
      destruct (decide (d0 = [])) as [->|Hne]; [done|].
      destruct (accepted_total range Hhead Hacc Hne) as (t' & Et' & Hlt & _). rewrite Et in Et'. simplify_eq. lia.
    + intros Hacc. assert (Z.of_nat (length d0) <= t
        /\ (d0 <> [] -> forall q, allowed_of range q -> Z.of_nat (length (d0 ++ q)) <= t)) as [Hle Hall].
      { destruct (decide (d0 = [])) as [->|Hne]; [split; [cbn; lia|done]|].
        destruct (accepted_total range Hhead Hacc Hne) as (t' & Et' & Hlt & Hq). rewrite Et in Et'.
        injection Et' as <-. split; [lia|done]. }
      split; [|exists t; cbn; split_and!; [done|lia|lia]].
      split; cbn; rewrite app_nil_r; [lia|]. destruct Hi as [Hi|Hi]; [by left|].
      destruct (decide (d0 = [])) as [->|Hne]; [by left|right; by apply Hall].
  - eapply triple_bind with (R := fun _ w => w = w1); [by apply triple_ret|]. intros [].
    apply (bind_response_rule range i 0 w1 Hhead); try done.
    + cbn. by rewrite H4.
    + rewrite E2. lia.
    + intros Hacc. split; [|exists (Z.of_nat (length d0)); rewrite E2; split_and!; [done|lia|lia]].
      split; cbn; rewrite app_nil_r; [lia|]. destruct Hi as [Hi|Hi]; [by left|]. left.
      destruct (decide (d0 = [])) as [->|Hne]; [done|].
      destruct (accepted_total range Hhead Hacc Hne) as (t' & Et' & _). by rewrite Et in Et'.
Qed.
(** ** The attempt *)

(** An attempt that returned [d]: which response it was, and what is on disk. *)
Definition attempted (d : StreamingDownload) (w : World) : Prop :=
  exists range, validate_head r start = Ok range /\ accepted resume r range /\ sr_broken r = None
    /\ d = mk_download (Z.of_nat (length (sr_body r))) (bool_decide (is_Some range)) (text_of (sr_etag r))
             (text_of (sr_last_modified r)) (total_of r range)
    /\ (forall rg, range = Some rg -> Z.of_nat (length (sr_body r)) = declared_length rg)
    /\ data (disk w) = Some (d0 ++ sr_body r) /\ good w /\ callbacks w = 1%nat.

Lemma stream_attempt_rule :
  triple begun (write_streaming_response_with_metadata (SK := quota_file env) r start (bind_metadata env url resume))
    attempted (fun _ => good).
Proof.
  assert (forall p w, streaming p w -> good w) as Hgood by (intros p w (range & _ & _ & b & f & H & _); apply H).
  eapply triple_conseq; [apply (streaming_rule r start begun good streaming (fun _ => good))|done| |].
  - intros range p b Hhead Hal. cbn. apply triple_at. intros w0 (range' & Hhead' & Hacc & Hp).
    rewrite Hhead in Hhead'. injection Hhead' as <-.
    eapply triple_conseq; [by apply (write_rounds_rule range Hhead Hacc)|by intros w Ew; rewrite Ew| |].
    + intros [] w Hw. by exists range.
    + intros e w Hw. exists 0%nat. split; [lia|exact Hw].
  - intros p. apply os_call_rule.
    + intros w (range & Hh & Ha & b & f & (H1 & H2 & H3 & H4) & Hc). exists range. split_and!; [done|done|].
      exists b, f. split; [|done]. do 2 (split; [done|]). split; [by eapply good_same|exact H4].
    + intros e w Hw. eapply good_same; [|by eapply Hgood]. done.
  - exact Hgood.
  - intros range Hhead. by apply bind_metadata_rule.
  - intros d w (range & Hhead & Hb & -> & HD & (range' & Hhead' & Hacc & b & f & Hw & _)).
    rewrite Hhead in Hhead'. injection Hhead' as <-.
    destruct Hw as (H1 & _ & H3 & H4 & _). exists range. done.
  - intros e w [[Hw _]|[Hw|(k & range & _ & _ & _ & Hw)]]; [|done|done]. apply Hw.
Qed.
End attempt.
(** * What an attempt leaves alone *)

Definition frame (F : nat) (S : option str) (w : World) : Prop := fetches w = F /\ stored w = S.

Section frames.
Context (env : Env) (F : nat) (S : option str).

(** A computation that sends no request and stores nothing. *)
Definition frames {E A : Type} (m : Eff World E A) : Prop :=
  triple (frame F S) m (fun _ => frame F S) (fun _ => frame F S).

Lemma frames_ret {E A : Type} (a : A) : frames (eret (E := E) a).
Proof. by apply triple_ret. Qed.
Lemma frames_fail {E A : Type} (e : E) : frames (efail (A := A) e).
Proof. by apply triple_fail. Qed.
Lemma frames_bind {E A B : Type} (m : Eff World E A) (k : A -> Eff World E B) :
  frames m -> (forall a, frames (k a)) -> frames (ebind m k).
Proof. intros. by eapply triple_bind. Qed.
Lemma frames_match {E E' A B : Type} (m : Eff World E A) (k : A -> Eff World E' B) h :
  frames m -> (forall a, frames (k a)) -> (forall e, frames (h e)) -> frames (ematch m k h).
Proof. intros. by eapply triple_match. Qed.
Lemma frames_map {E E' A : Type} (f : E -> E') (m : Eff World E A) : frames m -> frames (emap f m).
Proof. intros. by apply triple_map. Qed.
Lemma frames_ignore {E E' A : Type} (m : Eff World E A) : frames m -> frames (eignore (F := E') m).
Proof. intros. by eapply triple_ignore. Qed.
Lemma frames_get {E : Type} : frames (eget (E := E)).
Proof. by apply triple_get. Qed.
Lemma frames_put {E : Type} f : (forall w, frame F S w -> frame F S (f w)) -> frames (eput (E := E) f).
Proof. intros. by apply triple_put. Qed.
Lemma frames_os_call : frames (os_call env).
Proof. by apply os_call_rule. Qed.
Lemma frames_succeeds {E : Type} : frames (succeeds (E := E) env).
Proof. by apply succeeds_rule. Qed.
Lemma frames_fail_quota {A : Type} e : frames (fail_quota (A := A) e).
Proof. by apply fail_quota_rule. Qed.
End frames.

Ltac solve_frames :=
  repeat (apply frames_ret || apply frames_fail || apply frames_get || apply frames_os_call
    || apply frames_succeeds || apply frames_fail_quota || apply frames_map || apply frames_ignore
    || (apply frames_bind; [|intros ?]) || (apply frames_match; [|intros ?|intros ?])
    || (apply frames_put; by intros) || case_match).

Section keeps.
Context (env : Env) (F : nat) (S : option str).
Notation frames := (frames F S).

Lemma frames_reserve amount : frames (reserve env amount).
Proof. unfold reserve. solve_frames. Qed.

Lemma frames_write_rounds fuel buf : frames (write_rounds env fuel buf).
Proof.
  revert buf; induction fuel as [|fuel IH]; intros buf; destruct buf as [|c buf]; cbn [write_rounds]; solve_frames.
  all: try (unfold quota_write, ensure_reserved, reserve; solve_frames). apply IH.
Qed.

Lemma frames_bind_metadata url resume m : frames (bind_metadata env url resume m).
Proof. unfold bind_metadata, bind_response_metadata, reserve. solve_frames. Qed.

Lemma frames_stream r start on_metadata :
  (forall m, frames (on_metadata m)) ->
  frames (write_streaming_response_with_metadata (SK := quota_file env) r start on_metadata).
Proof.
  intros Hm. eapply triple_conseq;
    [apply (streaming_rule r start (frame F S) (frame F S) (fun _ => frame F S) (fun _ => frame F S))|..]; try done.
  - intros range p b _ _. eapply triple_conseq; [apply (frames_write_rounds (length b) b)|done|done|].
    intros e w Hw. exists 0%nat. split; [lia|done].
  - intros p. apply frames_os_call.
  - intros range _. apply Hm.
  - by intros d w (range & _ & _ & _ & _ & Hw).
  - intros e w [[Hw _]|[Hw|(k & range & _ & _ & _ & Hw)]]; done.
Qed.
End keeps.
(** * The whole download *)

Section whole.
Context (env : Env).
Hypothesis Hlaw : lawful env.

(** One representation, whole: the body of a full response, or all the bytes that
    the entity tag of a partial one stands for. *)
Definition whole (content : str) : Prop :=
  exists n start im r, serve env n start im = Ok r /\ sr_broken r = None
    /\ (sr_status r = 200 /\ content = sr_body r
        \/ sr_status r = 206 /\ exists e, text_of (sr_etag r) = Some e /\ is_strong_etag e = true
             /\ content = rep (sr_url r) e).

Definition calm (F : nat) (S : option str) (w : World) : Prop := good w /\ frame F S w.

(** Nothing is left of an earlier download. *)
Definition cleared (F : nat) (S : option str) (w : World) : Prop :=
  calm F S w /\ meta (disk w) = None /\ data (disk w) = None.

Lemma calm_same F S w w' : same_disk w w' -> fetches w' = fetches w -> stored w' = stored w -> calm F S w -> calm F S w'.
Proof. intros Hs E1 E2 [Hg [<- <-]]. split; [by eapply good_same|done]. Qed.

Lemma calm_tick F S w : calm F S w -> calm F S (tick w).
Proof. by apply calm_same. Qed.

Lemma discard_rule F S :
  triple (calm F S) (discard_partial_record env) (fun _ => cleared F S) (fun _ => calm F S).
Proof.
  eapply triple_bind with (R := fun _ w => calm F S w /\ meta (disk w) = None).
  - apply step_rule; [|intros; by apply calm_tick]. intros w [Hg Hf]. split; [|done].
    split; [|done]. apply good_drop_meta. by eapply good_same.
  - intros []. apply step_rule; [|intros e w [? _]; by apply calm_tick]. intros w [[Hg Hf] Hm].
    split_and!; [|done|done]. split; [|done]. apply good_drop_data. by eapply good_same.
Qed.

Lemma release_rule F S step : triple (calm F S) (release env step) (fun _ => calm F S) (fun _ => calm F S).
Proof.
  apply step_rule; [|intros; by apply calm_tick]. intros w [Hg Hf]. split; [|done].
  apply good_set_reserved. by eapply good_same.
Qed.

Lemma reserve_calm F S amount : triple (calm F S) (reserve env amount) (fun _ => calm F S) (fun _ => calm F S).
Proof.
  apply reserve_rule; [|intros; by apply calm_tick]. intros w [Hg Hf]. split; [|done].
  apply good_set_reserved. by eapply good_same.
Qed.

Lemma discard_calm F S : triple (calm F S) (discard_partial_record env) (fun _ => calm F S) (fun _ => calm F S).
Proof. eapply triple_conseq; [apply discard_rule|done| |done]. by intros [] w [H _]. Qed.

Lemma settle_calm F S q : triple (calm F S) (settle env q) (fun _ => calm F S) (fun _ => calm F S).
Proof.
  unfold settle. destruct q.
  - eapply triple_bind with (R := fun _ => calm F S); [eapply triple_ignore; [apply discard_calm|done]|].
    intros []. eapply triple_ignore; [apply release_rule|done].
  - eapply triple_bind with (R := fun _ => calm F S); [apply succeeds_rule; intros; by apply calm_tick|].
    intros known. eapply triple_bind with (R := fun _ => calm F S); [by apply triple_get|].
    intros w. destruct (_ && _); [|by apply triple_ret]. eapply triple_ignore; [apply reserve_calm|done].
Qed.

Lemma settle_refusal_rule {A : Type} F S error (Q : A -> World -> Prop) :
  triple (calm F S) (settle_refusal env error) Q (fun _ => calm F S).
Proof.
  eapply triple_bind with (R := fun _ => calm F S); [eapply triple_ignore; [apply discard_calm|done]|].
  intros []. eapply triple_bind with (R := fun _ => calm F S); [eapply triple_ignore; [apply release_rule|done]|].
  intros []. by apply triple_fail.
Qed.

(** ** Where an attempt starts, and how it ends *)

Definition ready (d0 : str) (F : nat) (S : option str) (w : World) : Prop :=
  calm F S w /\ data (disk w) = Some d0 /\ meta (disk w) = None /\ reserved (disk w) = Some (Z.of_nat (length d0)).

Definition delivered (resume : option ResumeRecord) (d0 : str) (d : StreamingDownload) (w : World) : Prop :=
  exists n im r, serve env n (rr_offset <$> resume) im = Ok r /\ attempted resume d0 r d w.

Lemma attempt_rule url resume d0 im F S :
  resumes resume d0 ->
  triple (ready d0 F S) (execute_fetch_attempt env (rr_offset <$> resume) im url resume)
    (fun o w => calm (Datatypes.S F) S w /\ match o.1 with Ok d => delivered resume d0 d w | Err _ => True end)
    (fun _ _ => False).
Proof.
  intros Hres. unfold execute_fetch_attempt.
  eapply triple_bind with (R := fun _ => ready d0 F S).
  { apply succeeds_rule. intros b w (Hc & H1 & H2 & H3). split; [by apply calm_tick|done]. }
  intros known. eapply triple_bind with (R := fun w w' => w' = w /\ ready d0 F S w); [by apply triple_get|].
  intros w0. apply triple_at. intros w1 [-> ([Hg [HF HS]] & H1 & H2 & H3)].
  set (i := if known then data_len w0 else 0).
  assert (i = Z.of_nat (length d0) \/ i = 0) as Hi.
  { unfold i, data_len. rewrite H1. destruct known; auto. }
  eapply triple_bind with (R := fun _ w => begun d0 w /\ frame (Datatypes.S F) S w).
  { apply triple_put. intros w ->. split; [|by split; cbn; [rewrite HF|]].
    do 2 (split; [done|]). split; [by eapply good_same|]. do 2 (split; [done|]). by exists i. }
  intros []. eapply triple_bind with (R := fun o w => calm (Datatypes.S F) S w
      /\ match o with Ok d => delivered resume d0 d w | Err _ => True end).
  - apply triple_catch. unfold fetch. destruct (serve env (fetches w0) (rr_offset <$> resume) im) as [r|e] eqn:Es.
    + apply triple_map. eapply triple_conseq; [apply (triple_conj (begun d0) (frame (Datatypes.S F) S))| | |].
      * apply (stream_attempt_rule env url resume d0 _ im r Hlaw Hres Es).
      * apply frames_stream. intros m. apply frames_bind_metadata.
      * done.
      * intros d w [Ha Hf]. split.
        -- split; [|done]. by destruct Ha as (range & _ & _ & _ & _ & _ & _ & Hgood & _).
        -- by exists (fetches w0), im, r.
      * intros e w [Hw Hf]. done.
    + apply triple_fail. intros w [(_ & _ & Hw & _) Hf]. done.
  - intros o. apply triple_at. intros w1 [Hc Ho].
    eapply triple_bind with (R := fun w w' => w' = w1 /\ w = w1); [by apply triple_get; intros w ->|].
    intros w. apply triple_at. intros w2 [-> ->]. apply triple_ret. intros w' ->. split; [done|]. cbn.
    destruct o as [d|e]; [|done]. by destruct (callbacks w1 =? 1)%nat.
Qed.
(** ** From a delivered body to the cache *)

Lemma delivered_data resume d0 d w :
  delivered resume d0 d w -> exists content, data (disk w) = Some content.
Proof. intros (n & im & r & _ & range & _ & _ & _ & _ & _ & H & _). eauto. Qed.

Lemma delivered_fresh d w :
  delivered None [] d w -> was_partial d = false /\ exists content, data (disk w) = Some content /\ whole content.
Proof.
  intros (n & im & r & Hs & range & Hhead & -> & Hb & -> & _ & Hd & _). split; [done|].
  exists (sr_body r). split; [done|]. exists n, None, im, r. split_and!; [done|done|]. left. split; [|done].
  unfold validate_head in Hhead. destruct (negb _); [done|].
  destruct (Z.eqb_spec (sr_status r) 200) as [?|]; [done|]. destruct (negb _); [done|]. discriminate Hhead.
Qed.

Lemma delivered_resumed record d0 d w :
  resumable record d0 -> delivered (Some record) d0 d w ->
  resume_validated (Some record) d = true
  /\ exists content, data (disk w) = Some content
       /\ (Z.of_nat (length content) = rr_total_size record -> whole content).
Proof.
  intros (Hst & Hoff & Hpre0 & Htot & _) (n & im & r & Hs & range & Hhead & Hacc & Hb & -> & HD & Hd & _).
  destruct (matches_record_spec _ _ _ Hacc) as (rg & -> & Hrs & Hrt & Het & Hstrong & Hurl). split.
  - unfold resume_validated. cbn. rewrite Het, Hrt, Hstrong. cbn.
    rewrite !bool_decide_eq_true_2 by done. done.
  - exists (d0 ++ sr_body r). split; [done|]. intros Hlen. exists n, (Some (rr_offset record)), im, r.
    destruct (validate_head_length _ _ _ Hhead) as (_ & H206 & h & Hh & Hp).
    split_and!; [done|done|]. right. split; [done|]. exists (rr_etag record). split_and!; [done|done|].
    destruct (Hlaw _ _ _ _ _ Hs Het Hstrong) as [_ Hpart]. destruct (Hpart h rg H206 Hh Hp) as [Hpre _].
    rewrite Hurl in *. specialize (HD rg eq_refl).
    rewrite take_ge in Hpre by lia.
    assert (Z.to_nat (cr_start rg) = length d0) as E by lia. rewrite E in Hpre.
    destruct Hpre0 as [rest Erest]. rewrite Erest, drop_app_length in *.
    f_equal. destruct Hpre as [rest' ->].
    rewrite !length_app in Htot, Hlen. destruct rest' as [|c rest']; [by rewrite app_nil_r|].
    rewrite length_app in Htot. cbn [length] in Htot. lia.
Qed.

Definition done_ok (S : option str) (n : Z) (w : World) : Prop :=
  good w /\ exists content, stored w = Some content /\ n = Z.of_nat (length content) /\ whole content.

Definition done_err (S : option str) (w : World) : Prop :=
  good w /\ (stored w = S \/ exists content, stored w = Some content /\ whole content).

Lemma calm_done_err F S w : calm F S w -> done_err S w.
Proof. intros [Hg [_ HS]]. split; [done|by left]. Qed.

Lemma commit_rule content size F S :
  whole content ->
  triple (fun w => calm F S w /\ data (disk w) = Some content) (commit_partial env size)
    (fun n w => done_ok S n w /\ fetches w = F) (fun _ w => done_err S w /\ fetches w = F).
Proof.
  intros Hwh. set (P := fun w => calm F S w /\ data (disk w) = Some content).
  assert (forall w, P w -> P (tick w)) as Htick by (intros w [H1 H2]; split; [by apply calm_tick|done]).
  assert (forall w, calm F S w -> done_err S w /\ fetches w = F) as Herr.
  { intros w Hw. split; [by eapply calm_done_err|apply Hw]. }
  assert (forall (A : Type) (Q : A -> World -> Prop) e,
    triple P (settle_refusal env e) Q (fun _ w => done_err S w /\ fetches w = F)) as Hgive.
  { intros A Q e. eapply triple_conseq; [apply (settle_refusal_rule F S e (fun _ _ => False))|by intros w [H _]|done|].
    intros e' w Hw. auto. }
  unfold commit_partial.
  eapply triple_match with (R := fun _ => P) (S := fun _ => P); [apply call_rule; auto| |intros e; apply Hgive].
  intros []. do 4 (eapply triple_bind with (R := fun _ => P);
    [apply call_rule; [auto|intros e w [H _]; apply Herr; by apply calm_tick]|intros []]).
  eapply triple_bind with (R := fun w w' => w' = w /\ P w); [by apply triple_get|].
  intros w0. apply triple_at. intros w1 [-> HP].
  eapply triple_match with (R := fun _ => P) (S := fun _ => P).
  { apply call_rule; intros; subst; auto. }
  2: { intros e. apply Hgive. }
  intros []. destruct HP as [_ Hd]. rewrite Hd. cbn [default from_option id].
  eapply triple_bind with (R := fun _ => calm F (Some content)).
  { apply triple_put. intros w [[Hg [HF _]] _]. split; [by eapply good_same|done]. }
  assert (forall w, calm F (Some content) w -> done_err S w /\ fetches w = F) as Herr'.
  { intros w [Hg [HF HS]]. split; [|done]. split; [done|]. right. eauto. }
  intros []. eapply triple_bind with (R := fun _ => calm F (Some content));
    [eapply triple_ignore; [apply discard_calm|done]|].
  intros []. eapply triple_bind with (R := fun _ => calm F (Some content)).
  { eapply triple_conseq; [apply release_rule|done|done|auto]. }
  intros []. apply triple_ret. intros w [Hg [HF HS]]. split; [|done]. split; [done|]. eauto.
Qed.

Lemma open_fresh_rule step F S :
  triple (fun w => calm F S w /\ meta (disk w) = None /\ reserved (disk w) = Some 0) (open_fresh env step)
    (fun _ => ready [] F S) (fun _ => calm F S).
Proof.
  apply step_rule; [|intros e w [? _]; by apply calm_tick]. intros w ([Hg Hf] & Hm & Hr).
  split; [|done]. split; [|done]. apply good_no_meta; [by eapply good_same|done].
Qed.

Lemma restart_rule url error F S :
  triple (calm F S) (restart_after_error env url error)
    (fun d w => calm (Datatypes.S F) S w /\ delivered None [] d w)
    (fun _ w => done_err S w /\ (F <= fetches w <= F + 1)%nat).
Proof.
  assert (forall F' w, calm F' S w -> (F <= F' <= F + 1)%nat -> done_err S w /\ (F <= fetches w <= F + 1)%nat) as Herr.
  { intros F' w Hw HF. split; [by eapply calm_done_err|]. destruct Hw as [_ [-> _]]. done. }
  unfold restart_after_error.
  eapply triple_bind with (R := fun _ w => calm F S w /\ meta (disk w) = None).
  { eapply triple_conseq; [apply (discard_rule F S)|done|by intros [] w (? & ? & _)|]. intros e w Hw. eapply Herr; [exact Hw|lia]. }
  intros []. eapply triple_bind with (R := fun _ w => calm F S w /\ meta (disk w) = None).
  { apply step_rule.
    - intros w [[Hg Hf] Hm]. split; [|done]. split; [|done]. apply good_set_reserved. by eapply good_same.
    - intros e w [Hw _]. eapply Herr; [by apply calm_tick|lia]. }
  intros []. eapply triple_bind with (R := fun _ w => calm F S w /\ meta (disk w) = None /\ reserved (disk w) = Some 0).
  { apply triple_map. apply reserve_rule.
    - intros w [[Hg Hf] Hm]. split; [|done]. split; [|done]. apply good_set_reserved. by eapply good_same.
    - intros e w [Hw _]. eapply Herr; [by apply calm_tick|lia]. }
  intros []. eapply triple_bind with (R := fun _ => ready [] F S).
  { eapply triple_conseq; [apply (open_fresh_rule _ F S)|done|done|]. intros e w Hw. eapply Herr; [exact Hw|lia]. }
  intros []. eapply triple_bind; [eapply triple_conseq;
    [apply (attempt_rule url None [] None F S eq_refl)|done|by intros a w H; exact H|by intros e w []]|].
  intros [[d|e] q]; cbn [fst snd].
  - by apply triple_ret.
  - eapply triple_bind with (R := fun _ => calm (Datatypes.S F) S).
    + eapply triple_conseq; [apply settle_calm|by intros w [H _]|done|]. intros e' w Hw. eapply Herr; [exact Hw|lia].
    + intros []. apply triple_fail. intros w Hw. eapply Herr; [exact Hw|lia].
Qed.
(** Requests that one call may send. *)
Definition most_fetches : nat := if retry_resume_errors env then 2 else 1.

Lemma calm_err F' F S w :
  calm F' S w -> (F' <= F)%nat -> done_err S w /\ (fetches w <= F)%nat.
Proof. intros Hw HF. split; [by eapply calm_done_err|]. destruct Hw as [_ [-> _]]. done. Qed.

(** The end: the file has been written by the response [d] came from. *)
Lemma finish_rule content total F F' S :
  (F' <= F)%nat -> (Z.of_nat (length content) = total (Z.of_nat (length content)) -> whole content) ->
  triple (fun w => calm F' S w /\ data (disk w) = Some content) (finish_download env total)
    (fun n w => done_ok S n w /\ (fetches w <= F)%nat) (fun _ w => done_err S w /\ (fetches w <= F)%nat).
Proof.
  intros HF Hwh. set (P := fun w => calm F' S w /\ data (disk w) = Some content).
  assert (forall w, P w -> P (tick w)) as Htick by (intros w [H1 H2]; split; [by apply calm_tick|done]).
  unfold finish_download. do 2 (eapply triple_bind with (R := fun _ => P);
    [apply call_rule; [auto|intros e w [H _]; eapply calm_err; [by apply calm_tick|done]]|intros []]).
  eapply triple_bind with (R := fun w w' => w' = w /\ P w); [by apply triple_get|].
  intros w0. apply triple_at. intros w1 [-> [Hc Hd]].
  assert (data_len w0 = Z.of_nat (length content)) as -> by (unfold data_len; by rewrite Hd).
  destruct (Z.eqb_spec (Z.of_nat (length content)) (total (Z.of_nat (length content)))) as [E|E]; cbn [negb].
  - eapply triple_conseq; [apply (commit_rule content _ F' S (Hwh E))|by intros w ->| |].
    + intros n w [H1 H2]. split; [done|lia].
    + intros e w [H1 H2]. split; [done|lia].
  - eapply triple_bind with (R := fun _ => calm F' S).
    + eapply triple_ignore; [|by intros w H; exact H].
      eapply triple_conseq; [apply (reserve_calm F' S)|by intros w ->|done|done].
    + intros []. apply triple_fail. intros w Hw. by eapply calm_err.
Qed.

Lemma download_from_rule url resume d0 F S :
  resumes resume d0 ->
  triple (ready d0 F S) (download_from env url resume)
    (fun n w => done_ok S n w /\ (fetches w <= F + most_fetches)%nat)
    (fun _ w => done_err S w /\ (fetches w <= F + most_fetches)%nat).
Proof.
  intros Hres. assert (1 <= most_fetches <= 2)%nat as Hm by (unfold most_fetches; destruct (retry_resume_errors env); lia).
  unfold download_from.
  eapply triple_bind; [eapply triple_conseq;
    [apply (attempt_rule url resume d0 (rr_etag <$> resume) F S Hres)|done|by intros a w H; exact H|by intros e w []]|].
  intros [first quota]. cbn [fst snd].
  eapply triple_bind with (R := fun o w =>
    (o.2 = false /\ calm (Datatypes.S F) S w /\ delivered resume d0 o.1 w)
    \/ (o.2 = true /\ is_Some resume /\ exists F', (F' <= F + most_fetches)%nat /\ calm F' S w /\ delivered None [] o.1 w)).
  { destruct first as [d|error]; [apply triple_ret; intros w [H1 H2]; by left|].
    destruct (bool_decide (is_Some resume) && retry_resume_errors env && negb quota) eqn:E.
    - apply andb_true_iff in E as [[Hr Hretry]%andb_true_iff _]. apply bool_decide_eq_true in Hr.
      assert (most_fetches = 2%nat) as E2 by (unfold most_fetches; by rewrite Hretry).
      eapply triple_bind; [eapply triple_conseq; [apply (restart_rule url error (Datatypes.S F) S)|by intros w [H _]
        |by intros a w H; exact H|]|].
      + intros e w [H1 H2]. split; [done|lia].
      + intros d. apply triple_ret. intros w [H1 H2]. right. split_and!; [done|done|]. eexists. split_and!; [|done|done]. lia.
    - eapply triple_bind with (R := fun _ => calm (Datatypes.S F) S).
      + eapply triple_conseq; [apply (settle_calm (Datatypes.S F) S)|by intros w [H _]|done|].
        intros e w Hw. eapply calm_err; [exact Hw|lia].
      + intros []. apply triple_fail. intros w Hw. eapply calm_err; [exact Hw|lia]. }
  intros [d restarted]. cbn [fst snd]. apply triple_at. intros w0 Hw0.
  assert (exists F' content, (F' <= F + most_fetches)%nat /\ calm F' S w0 /\ data (disk w0) = Some content
    /\ bool_decide (is_Some resume) && negb restarted && negb (negb restarted && resume_validated resume d) = false
    /\ (negb (bool_decide (is_Some resume)) || restarted) && was_partial d = false
    /\ ((Z.of_nat (length content) = match resume with
           | Some record => if negb restarted && resume_validated resume d then rr_total_size record
                            else default (Z.of_nat (length content)) (total_size d)
           | None => default (Z.of_nat (length content)) (total_size d)
           end) -> whole content)) as (F' & content & HF & Hc & Hd & -> & Hpart & Hwh).
  { destruct Hw0 as [(-> & Hc & Hdel)|(-> & [record ->] & F' & HF & Hc & Hdel)].
    - exists (Datatypes.S F). destruct resume as [record|]; cbn [resumes] in Hres.
      + destruct (delivered_resumed _ _ _ _ Hres Hdel) as (Hv & content & Hd & Hwh).
        exists content. rewrite Hv. split_and!; [lia|apply Hc..|done|done|done|done].
      + subst d0. destruct (delivered_fresh _ _ Hdel) as (Hp & content & Hd & Hwh).
        exists content. rewrite Hp. split_and!; [lia|apply Hc..|done|done|done|done].
    - destruct (delivered_fresh _ _ Hdel) as (Hp & content & Hd & Hwh).
      exists F', content. rewrite Hp. split_and!; [lia|apply Hc..|done|done|done|done]. }
  eapply triple_bind with (R := fun o w => o = (d, restarted) /\ w = w0); [apply triple_ret; by intros w ->|].
  intros [d' re']. apply triple_at. intros w1 [[= -> ->] ->]. rewrite Hpart.
  eapply triple_conseq; [apply (finish_rule content _ (F + most_fetches) F' S HF Hwh)|by intros w ->|done|done].
Qed.
Lemma candidate_resumable url d record :
  sound d -> resume_candidate url d = Some record -> exists d0, data d = Some d0 /\ resumable record d0.
Proof.
  intros Hs (bytes & Hd & (m & (mm & Hmm & Hm)%bind_Some & (t & Ht & (e & He & H)%bind_Some)%bind_Some)%bind_Some)%bind_Some.
  cbn in Hm. subst mm. cbv zeta in H. case_match eqn:E; [done|]. injection H as <-.
  apply orb_false_iff in E as [[[E1 E2]%orb_false_iff E3]%orb_false_iff E4].
  apply negb_false_iff in E2. exists bytes. split; [done|].
  destruct (Hs m e t bytes Hmm He E2 Ht Hd) as [Hp Hl].
  split_and!; cbn; try done; lia.
Qed.

Lemma prepare_rule url F S :
  triple (calm F S) (prepare_resume_record env url)
    (fun resume w => calm F S w /\ match resume with
                                   | Some record => exists d0, data (disk w) = Some d0 /\ resumable record d0
                                   | None => meta (disk w) = None
                                   end)
    (fun _ => calm F S).
Proof.
  unfold prepare_resume_record.
  do 2 (eapply triple_bind with (R := fun _ => calm F S); [apply call_rule; intros; by apply calm_tick|intros []]).
  eapply triple_bind with (R := fun w w' => w' = w /\ calm F S w); [by apply triple_get|].
  intros w0. apply triple_at. intros w1 [-> Hc].
  destruct (bool_decide (data (disk w0) = None) && bool_decide (meta (disk w0) = None)) eqn:E.
  { apply andb_true_iff in E as [_ E%bool_decide_eq_true]. apply triple_ret. by intros w ->. }
  eapply triple_bind with (R := fun _ w => w = tick w0); [apply succeeds_rule; by intros b w ->|]. intros sized.
  eapply triple_bind with (R := fun _ w => w = tick (tick w0)); [apply succeeds_rule; by intros b w ->|]. intros read.
  assert (calm F S (tick (tick w0))) as Hc2 by (by apply calm_tick, calm_tick).
  destruct (if sized && read then resume_candidate url (disk w0) else None) as [record|] eqn:Er.
  - destruct (sized && read); [|done]. apply triple_ret. intros w ->. split; [done|].
    apply (candidate_resumable url); [apply Hc|done].
  - eapply triple_bind with (R := fun _ => cleared F S).
    + eapply triple_conseq; [apply (discard_rule F S)|by intros w ->|done|done].
    + intros []. apply triple_ret. by intros w (? & ? & _).
Qed.

Lemma download_rule url F S :
  triple (calm F S) (download env url)
    (fun n w => done_ok S n w /\ (fetches w <= F + most_fetches)%nat)
    (fun _ w => done_err S w /\ (fetches w <= F + most_fetches)%nat).
Proof.
  assert (forall w, calm F S w -> done_err S w /\ (fetches w <= F + most_fetches)%nat) as Herr.
  { intros w Hw. eapply calm_err; [exact Hw|lia]. }
  unfold download.
  do 3 (eapply triple_bind with (R := fun _ => calm F S);
    [apply call_rule; intros; [|apply Herr]; by apply calm_tick|intros []]).
  eapply triple_bind; [eapply triple_conseq; [apply (prepare_rule url F S)|done|by intros a w H; exact H|auto]|].
  intros resume. apply triple_at. intros w0 [[Hg Hf] Hres].
  eapply triple_match with
    (R := fun _ w => calm F S w /\ data (disk w) = data (disk w0) /\ meta (disk w) = meta (disk w0)
       /\ reserved (disk w) = Some (match resume with Some record => rr_offset record | None => 0 end))
    (S := fun _ => calm F S).
  - apply reserve_rule; [|by intros e w ->; apply calm_tick]. intros w ->.
    split; [|done]. split; [|done]. apply good_set_reserved. by eapply good_same.
  - intros []. eapply triple_bind with (R := fun _ w => exists d0, resumes resume d0 /\ ready d0 F S w).
    + destruct resume as [record|].
      * destruct Hres as (d0 & Hd0 & Hrec).
        eapply triple_bind with (R := fun _ w => calm F S w /\ data (disk w) = Some d0 /\ meta (disk w) = None
          /\ reserved (disk w) = Some (rr_offset record)).
        -- apply step_rule; [|intros e w [Hw _]; apply Herr; by apply calm_tick].
           intros w ([Hg' Hf'] & Hd & _ & Hr). split; [|by rewrite <-Hd0, <-Hd]. split; [|done].
           apply good_drop_meta. by eapply good_same.
        -- intros []. unfold open_resumable. eapply triple_bind with (R := fun _ => ready d0 F S).
           { apply call_rule; [|intros e w [Hw _]; apply Herr; by apply calm_tick].
             intros w (Hw & Hd & Hm & Hr). split; [by apply calm_tick|]. split_and!; [done|done|].
             cbn. rewrite Hr. f_equal. apply Hrec. }
           intros []. intros w Hw. cbn. pose proof Hw as (_ & Hd & _). rewrite Hd. cbn. by exists d0.
      * eapply triple_conseq; [apply (open_fresh_rule _ F S)| | |auto].
        -- intros w (H1 & _ & H3 & H4). split; [done|]. by rewrite H3.
        -- intros [] w Hw. by exists [].
    + intros []. apply triple_at. intros w1 (d0 & Hr & Hready).
      eapply triple_conseq; [apply (download_from_rule url resume d0 F S Hr)|by intros w ->|done|done].
  - intros error. eapply triple_conseq; [apply (settle_refusal_rule F S _ (fun _ _ => False))|done|by intros a w []|auto].
Qed.
End whole.
(** * Downloads one after the other *)

Definition start_world (d : Disk) : World := mk_world d [] (mk_cells 0 0 0 false) 0 0 0 None [].

(** The disks that calls leave behind, wherever they were cut short, and from which
    others may have removed files. *)
Inductive download_run : Disk -> Prop :=
| run_start r : download_run (mk_disk None None r)
| run_call env url d d' : download_run d -> lawful env ->
    d' ∈ passed (download env url (start_world d)).2 -> download_run d'
| run_cleaned d d' : download_run d -> data d' = data d \/ data d' = None ->
    meta d' = meta d \/ meta d' = None -> download_run d'.

Lemma download_outcome env url d :
  lawful env -> sound d ->
  match download env url (start_world d) with
  | (Ok n, w) => done_ok env None n w /\ (fetches w <= most_fetches env)%nat
  | (Err _, w) => done_err env None w /\ (fetches w <= most_fetches env)%nat
  end.
Proof.
  intros Hl Hs. apply (download_rule env Hl url 0 None). split; [|done]. split_and!; [constructor|done|constructor].
Qed.

Lemma download_good env url d :
  lawful env -> sound d -> good (download env url (start_world d)).2.
Proof.
  intros Hl Hs. pose proof (download_outcome env url d Hl Hs) as H.
  destruct (download env url (start_world d)) as [[n|e] w]; apply H.
Qed.

Lemma download_run_sound d : download_run d -> sound d.
Proof.
  induction 1 as [r|env url d d' _ IH Hl Hin|d d' _ IH Hd Hm].
  - apply sound_no_meta.
  - destruct (download_good env url d Hl IH) as (Hp & _ & _). rewrite Forall_forall in Hp. by apply Hp.
  - intros m e t bytes Em He Hs Ht Ed. destruct Hd as [Hd|Hd], Hm as [Hm|Hm]; try congruence.
    apply (IH m e t bytes); congruence.
Qed.

(** C2: Whatever was downloaded before under the key, from
    whichever URLs, and wherever those downloads failed or were cut short, what a
    download puts into the cache is one representation: the body of one full
    response, or all the bytes that the strong entity tag of a partial response
    stands for, the resumed ones included. Success means that something was put
    there, and at every moment the partial file is a beginning of what its sidecar
    says, so that the next download may resume it. *)
Theorem download_never_mixes env url d :
  download_run d -> lawful env ->
  let '(res, w) := download env url (start_world d) in
  (forall content, stored w = Some content -> whole env content)
  /\ (forall n, res = Ok n -> exists content, stored w = Some content /\ n = Z.of_nat (length content))
  /\ Forall sound (passed w).
Proof.
  intros Hd Hl. pose proof (download_outcome env url d Hl (download_run_sound _ Hd)) as H.
  destruct (download env url (start_world d)) as [[n|e] w]; destruct H as [H _].
  - destruct H as [Hg (content & Hs & -> & Hw)]. split_and!; [|naive_solver|apply Hg].
    intros c Hc. rewrite Hs in Hc. by injection Hc as <-.
  - destruct H as [Hg Hs]. split_and!; [|done|apply Hg].
    intros c Hc. destruct Hs as [Hs|(c' & Hs & Hw)]; [congruence|]. rewrite Hs in Hc. by injection Hc as <-.
Qed.

(** C39: From whatever earlier downloads under the key, failed or cut short, and cleanings of
    the directory left on the disk, and from servers for which a URL and a strong entity tag
    stand for the same bytes ([lawful]), no byte goes into a partial file that is not
    reserved: after each write, also one that takes only a part of what it was given
    and also when the size of the file could not be asked for, the file is within
    what the quota had granted by then. *)
Theorem download_writes_reserved env url d :
  download_run d -> lawful env ->
  Forall (fun x => exists granted, x.2 = Some granted /\ x.1 <= granted) (writes (download env url (start_world d)).2).
Proof. intros Hd Hl. by destruct (download_good env url d Hl (download_run_sound _ Hd)) as (_ & _ & H). Qed.

(** A call that does not retry a failed resumption, which is
    how both entry points call it, sends one request at most: a response that does
    not match what is being resumed ends the call, and there is no restart from byte
    zero within it. *)
Theorem download_sends_once env url d :
  download_run d -> lawful env -> retry_resume_errors env = false ->
  (fetches (download env url (start_world d)).2 <= 1)%nat.
Proof.
  intros Hd Hl Hr. pose proof (download_outcome env url d Hl (download_run_sound _ Hd)) as H.
  unfold most_fetches in H. rewrite Hr in H.
  destruct (download env url (start_world d)) as [[n|e] w]; apply H.
Qed.
End props.

(** * A download that breaks off and is resumed *)

Module DownloadExample.

Definition tag : str := [ascii_of_N 34; "v"%char; ascii_of_N 34].
Definition addr : str := §"https://x.test/f".
Definition bytes_of (u e : str) : str := §"hello world".

Definition full (chunks : list str) (broken : option str) : StreamResponse :=
  mk_stream 200 addr None (Some (Some §"11")) (Some (Some tag)) None chunks broken.
Definition rest : StreamResponse :=
  mk_stream 206 addr (Some (Some §"bytes 6-10/11")) None (Some (Some tag)) None [§"wor"; §"ld"] None.

(** Writes take four bytes at most. *)
Definition world_of (r : StreamResponse) : Env :=
  mk_env (fun _ => None) (fun _ n => Nat.min n 4) (fun _ _ _ => Ok r) 8 100 false.

Definition first_call : result DownloadError Z * World :=
  download (world_of (full [§"hello "] (Some §"reset"))) addr (start_world (mk_disk None None None)).
Definition second_call : result DownloadError Z * World :=
  download (world_of rest) addr (start_world (disk first_call.2)).

Example breaks_off :
  (first_call.1, data (disk first_call.2)) = (Err (StreamFailed (BodyFailed §"reset")), Some §"hello ").
Proof. vm_compute. reflexivity. Qed.

Example resumed : (second_call.1, stored second_call.2) = (Ok 11, Some §"hello world").
Proof. vm_compute. reflexivity. Qed.

Lemma full_lawful : lawful bytes_of (world_of (full [§"hello "] (Some §"reset"))).
Proof.
  intros n s im r e [= <-] _ _. split; [|intros h range [=]]. intros _. split.
  - exists §"world". vm_compute. reflexivity.
  - intros t H. vm_compute in H. injection H as <-. vm_compute. reflexivity.
Qed.

Lemma rest_lawful : lawful bytes_of (world_of rest).
Proof.
  intros n s im r e [= <-] _ _. split; [intros [=]|]. intros h range _ [= <-] H.
  vm_compute in H. injection H as <-. split; [exists []; vm_compute; reflexivity|vm_compute; reflexivity].
Qed.

Lemma first_run : download_run bytes_of (disk first_call.2).
Proof.
  eapply (run_call bytes_of _ addr); [apply (run_start bytes_of None)|exact full_lawful|].
  apply (list_elem_of_lookup_2 _ (length (passed first_call.2) - 1)%nat). vm_compute. reflexivity.
Qed.

Lemma download_never_mixes_witness :
  second_call.1 = Ok 11
  /\ (forall content, stored second_call.2 = Some content -> whole bytes_of (world_of rest) content).
Proof.
  split; [vm_compute; reflexivity|].
  pose proof (download_never_mixes bytes_of (world_of rest) addr (disk first_call.2) first_run rest_lawful) as H.
  unfold second_call. destruct (download (world_of rest) addr (start_world (disk first_call.2))) as [res w].
  exact (proj1 H).
Defined.

Lemma download_writes_reserved_witness :
  map fst (writes second_call.2) = [9; 11]
  /\ Forall (fun x => exists granted, x.2 = Some granted /\ x.1 <= granted) (writes second_call.2).
Proof.
  split; [vm_compute; reflexivity|]. unfold second_call.
  exact (download_writes_reserved bytes_of (world_of rest) addr (disk first_call.2) first_run rest_lawful).
Defined.

(** The same URL now has other bytes: the server answers in full. *)
Lemma download_sends_once_witness :
  fetches (download (world_of (full [§"hello "] (Some §"reset"))) addr (start_world (disk first_call.2))).2 = 1%nat
  /\ (fetches (download (world_of (full [§"hello "] (Some §"reset"))) addr (start_world (disk first_call.2))).2 <= 1)%nat.
Proof.
  split; [vm_compute; reflexivity|].
  exact (download_sends_once bytes_of (world_of (full [§"hello "] (Some §"reset"))) addr (disk first_call.2)
           first_run full_lawful eq_refl).
Defined.

(** A mismatch is an error of this call, and the next one starts from nothing. *)
Definition mismatched : result DownloadError Z * World :=
  download (world_of (full [§"hello world"] None)) addr (start_world (disk first_call.2)).

Example mismatch_fails :
  mismatched.1 = Err (StreamFailed (CallbackFailed
    §"resume response metadata does not match the bound representation"))
  /\ meta (disk mismatched.2) = None /\ data (disk mismatched.2) = Some §"hello ".
Proof. vm_compute. auto. Qed.
End DownloadExample.
