(* ===== verification/DownloadLock.v ===== *)
(** One download at a time for a key ([download_identity_lock] and the [Drop] of its
    guard in [crates/data/src/features/streaming_download.rs]): a registry of weak
    references to shared states, each with a gate, a counter of participants and
    the result that the last successful download left.

    What happens under the registry's lock is a step, and so is each atomic
    operation outside it; the runs of [gate_step] are all interleavings of any
    number of calls.  A reference keeps its state alive from joining to the end of
    the drop. *)

From stdpp Require Import base tactics option list gmap strings.
From Stdlib Require Import ZArith Lia.
From S2P Require Import Prelude Text.

#[local] Arguments String.list_ascii_of_string : simpl never.

(** The cache's directory and the scoped key. *)
Notation Identity := (str * str)%type.

Section lock.
Context {Request : Type} {RD : EqDecision Request}.

(** Where a call is: waiting for the gate of its state, inside it, out of it again
    and still counted, past its decrement (the last one or not) with the reference
    still held, or through. *)
Inductive CallPc :=
| Waiting (i : Identity) (state : nat) (request : Request)
| InGate (i : Identity) (state : nat) (request : Request)
| Leaving (i : Identity) (state : nat)
| Dropping (i : Identity) (state : nat) (last : bool)
| Left.

Record DownloadState := mk_state { completed : option (Request * Z); participants : nat }.

Record LockWorld := mk_lock_world {
  registry : gmap Identity nat;
  states : gmap nat DownloadState;
  callers : gmap nat CallPc;
  next_state : nat;
  returned : list (nat * Z)       (** which call returned how many bytes *)
}.

Definition state_of (k : CallPc) : option nat :=
  match k with
  | Waiting _ s _ | InGate _ s _ | Leaving _ s | Dropping _ s _ => Some s
  | Left => None
  end.

(** [strong_count > 0]. *)
Definition alive (x : LockWorld) (s : nat) : Prop :=
  exists c k, callers x !! c = Some k /\ state_of k = Some s.

#[export] Instance alive_dec x s : Decision (alive x s).
Proof.
  refine (cast_if (decide (Exists (fun ck => state_of ck.2 = Some s) (map_to_list (callers x)))));
    rewrite Exists_exists in *; unfold alive.
  - destruct e as ([c k] & Hin%elem_of_map_to_list & Hk). eauto.
  - intros (c & k & Hc & Hk). apply n. exists (c, k). by rewrite elem_of_map_to_list.
Defined.

Definition set_caller (c : nat) (k : CallPc) (x : LockWorld) : LockWorld :=
  mk_lock_world (registry x) (states x) (<[c := k]> (callers x)) (next_state x) (returned x).

Definition participants_of (x : LockWorld) (s : nat) : nat :=
  match states x !! s with Some st => participants st | None => 0 end.

(** [registry.retain(...)], then the state of the identity, or a new one. *)
Definition download_identity_lock (c : nat) (i : Identity) (q : Request) (x : LockWorld) : LockWorld :=
  let reg := filter (fun kv => alive x kv.2) (registry x) in
  match reg !! i with
  | Some s =>
      mk_lock_world reg
        (alter (fun st => mk_state (completed st) (S (participants st))) s (states x))
        (<[c := Waiting i s q]> (callers x)) (next_state x) (returned x)
  | None =>
      mk_lock_world (<[i := next_state x]> reg) (<[next_state x := mk_state None 1]> (states x))
        (<[c := Waiting i (next_state x) q]> (callers x)) (S (next_state x)) (returned x)
  end.

(** The first half of the drop: [fetch_sub], and whether that was all. *)
Definition drop_participant (c : nat) (i : Identity) (s : nat) (x : LockWorld) : LockWorld :=
  let previous := participants_of x s in
  mk_lock_world (registry x)
    (alter (fun st => mk_state (completed st) (participants st - 1)) s (states x))
    (<[c := Dropping i s (previous =? 1)%nat]> (callers x)) (next_state x) (returned x).

(** The second, for the last one, under the registry's lock. *)
Definition drop_registration (c : nat) (i : Identity) (s : nat) (x : LockWorld) : LockWorld :=
  let points_to_state := bool_decide (registry x !! i = Some s) in
  mk_lock_world
    (if points_to_state && (participants_of x s =? 0)%nat then delete i (registry x) else registry x)
    (states x) (<[c := Left]> (callers x)) (next_state x) (returned x).

Definition completed_of (x : LockWorld) (s : nat) : option (Request * Z) := states x !! s ≫= completed.

Definition add_returned (c : nat) (n : Z) (x : LockWorld) : LockWorld :=
  mk_lock_world (registry x) (states x) (callers x) (next_state x) (returned x ++ [(c, n)]).

(** [*identity_lock.state.completed.lock() = Some(...)]. *)
Definition set_completed (s : nat) (q : Request) (n : Z) (x : LockWorld) : LockWorld :=
  mk_lock_world (registry x) (alter (fun st => mk_state (Some (q, n)) (participants st)) s (states x))
    (callers x) (next_state x) (returned x).

Inductive gate_step : LockWorld -> LockWorld -> Prop :=
| l_join x c i q : callers x !! c = None -> gate_step x (download_identity_lock c i q x)
| l_enter x c i s q : callers x !! c = Some (Waiting i s q) ->
    (forall c' i' q', callers x !! c' <> Some (InGate i' s q')) ->
    gate_step x (set_caller c (InGate i s q) x)
(* the result of an earlier participant *)
| l_shared x c i s q n : callers x !! c = Some (InGate i s q) -> completed_of x s = Some (q, n) ->
    gate_step x (set_caller c (Leaving i s) (add_returned c n x))
(* a download of its own, which succeeds or fails *)
| l_commit x c i s q n : callers x !! c = Some (InGate i s q) ->
    (forall m, completed_of x s <> Some (q, m)) ->
    gate_step x (set_caller c (Leaving i s) (add_returned c n (set_completed s q n x)))
| l_fail x c i s q : callers x !! c = Some (InGate i s q) ->
    gate_step x (set_caller c (Leaving i s) x)
| l_sub x c i s : callers x !! c = Some (Leaving i s) -> gate_step x (drop_participant c i s x)
| l_through x c i s : callers x !! c = Some (Dropping i s false) -> gate_step x (set_caller c Left x)
| l_drop x c i s : callers x !! c = Some (Dropping i s true) -> gate_step x (drop_registration c i s x).

Definition no_calls : LockWorld := mk_lock_world ∅ ∅ ∅ 0 [].

Inductive gate_run : LockWorld -> Prop :=
| gate_start : gate_run no_calls
| gate_next x y : gate_run x -> gate_step x y -> gate_run y.

(** ** The invariant *)

Definition active (k : CallPc) : option (Identity * nat) :=
  match k with
  | Waiting i s _ | InGate i s _ | Leaving i s => Some (i, s)
  | Dropping _ _ _ | Left => None
  end.

Definition on (s : nat) (k : CallPc) : Prop := snd <$> active k = Some s.

#[local] Instance on_dec s k : Decision (on s k).
Proof. unfold on. apply _. Defined.

Definition active_count (m : gmap nat CallPc) (s : nat) : nat :=
  size (filter (fun kv : nat * CallPc => on s kv.2) m).

Definition one_if (P : Prop) `{!Decision P} : nat := if decide P then 1 else 0.

Lemma active_insert m c k s :
  active_count (<[c := k]> m) s = (active_count (delete c m) s + one_if (on s k))%nat.
Proof.
  unfold active_count, one_if. rewrite <-insert_delete_eq. case_decide as E; cbn in E.
  - rewrite map_filter_insert_True by done. rewrite map_size_insert_None; [lia|].
    by rewrite map_lookup_filter, lookup_delete_eq.
  - rewrite map_filter_insert_False, delete_id by (done || apply lookup_delete_eq). lia.
Qed.

Lemma active_split m c k s :
  m !! c = Some k -> active_count m s = (active_count (delete c m) s + one_if (on s k))%nat.
Proof. intros E. rewrite <-active_insert. by rewrite insert_id. Qed.

(** Replacing one call by another changes the count by the difference. *)
Lemma active_replace m c k k' s :
  m !! c = Some k -> (active_count (<[c := k']> m) s + one_if (on s k) = active_count m s + one_if (on s k'))%nat.
Proof. intros E. rewrite active_insert, (active_split m c k) by done. lia. Qed.

Lemma active_join m c k s : m !! c = None -> active_count (<[c := k]> m) s = (active_count m s + one_if (on s k))%nat.
Proof. intros E. by rewrite active_insert, delete_id. Qed.

Lemma active_count_zero m s : active_count m s = 0%nat <-> forall c k, m !! c = Some k -> ~ on s k.
Proof.
  unfold active_count. rewrite map_size_empty_iff. split.
  - intros He c k Hc Hk. assert (filter (fun kv : nat * CallPc => on s kv.2) m !! c = Some k) as H
      by (by apply map_lookup_filter_Some). by rewrite He in H.
  - intros H. apply map_empty. intros c. apply map_lookup_filter_None. right. intros k Hc. cbn. eauto.
Qed.

Record gate_inv (x : LockWorld) : Prop := {
  gi_registered c k i s : callers x !! c = Some k -> active k = Some (i, s) -> registry x !! i = Some s;
  gi_counted s : participants_of x s = active_count (callers x) s;
  gi_gate c c' i i' s q q' :
    callers x !! c = Some (InGate i s q) -> callers x !! c' = Some (InGate i' s q') -> c = c';
  gi_known c k s : callers x !! c = Some k -> state_of k = Some s -> is_Some (states x !! s);
  gi_fresh s : is_Some (states x !! s) -> (s < next_state x)%nat
}.

Ltac on_cases := repeat (match goal with
  | H : <[_ := _]> _ !! _ = Some _ |- _ => apply lookup_insert_Some in H as [[? ?]|[? H]]
  end); simplify_eq/=.

Lemma retained x i s :
  filter (fun kv => alive x kv.2) (registry x) !! i = Some s <-> registry x !! i = Some s /\ alive x s.
Proof. apply map_lookup_filter_Some. Qed.

Lemma active_state k i s : active k = Some (i, s) -> state_of k = Some s.
Proof. destruct k; cbn; congruence. Qed.

Lemma on_active s k : on s k <-> exists i, active k = Some (i, s).
Proof. unfold on. destruct (active k) as [[i t]|]; cbn; naive_solver. Qed.

Lemma retained_active x c k i s :
  gate_inv x -> callers x !! c = Some k -> active k = Some (i, s) ->
  filter (fun kv => alive x kv.2) (registry x) !! i = Some s.
Proof.
  intros Hinv Hc Hk. apply retained. split; [by eapply gi_registered|].
  exists c, k. eauto using active_state.
Qed.

Lemma count_unknown x s : gate_inv x -> states x !! s = None -> active_count (callers x) s = 0%nat.
Proof.
  intros Hinv Hs. apply active_count_zero. intros c k Hc (i & Hk%active_state)%on_active.
  destruct (gi_known _ Hinv _ _ _ Hc Hk) as [st Hst]. congruence.
Qed.

Lemma join_inv x c i q :
  gate_inv x -> callers x !! c = None -> gate_inv (download_identity_lock c i q x).
Proof.
  intros Hinv Hc. unfold download_identity_lock.
  destruct (_ !! i) as [s|] eqn:Er.
  - apply retained in Er as Hr. destruct Hr as [_ (ca & ka & Hca & Hka)].
    pose proof (gi_known _ Hinv _ _ _ Hca Hka) as [st Hst].
    split; cbn.
    + intros. on_cases; eauto using retained_active.
    + intros s'. rewrite active_join by done. rewrite <-(gi_counted _ Hinv s').
      unfold participants_of, one_if, on; cbn. destruct (decide (s = s')) as [<-|Hne].
      * rewrite lookup_alter_eq, Hst, decide_True by done. cbn. lia.
      * rewrite lookup_alter_ne by done. rewrite decide_False by congruence. lia.
    + intros. on_cases. by eapply gi_gate.
    + intros c' k s' H Hk. apply lookup_alter_is_Some. on_cases; [by eexists|by eapply gi_known].
    + intros s' H%lookup_alter_is_Some. by eapply gi_fresh.
  - assert (states x !! next_state x = None) as Hn.
    { apply eq_None_not_Some. intros H%(gi_fresh _ Hinv). lia. }
    split; cbn.
    + intros c' k i' s' H Hk. on_cases; [by rewrite lookup_insert_eq|].
      pose proof (retained_active _ _ _ _ _ Hinv H Hk). rewrite lookup_insert_ne; [done|congruence].
    + intros s'. rewrite active_join by done.
      unfold participants_of, one_if, on; cbn. destruct (decide (next_state x = s')) as [<-|Hne].
      * rewrite lookup_insert_eq, count_unknown, decide_True by done. done.
      * rewrite lookup_insert_ne by done. rewrite decide_False by congruence.
        rewrite <-(gi_counted _ Hinv s'). unfold participants_of. lia.
    + intros. on_cases. by eapply gi_gate.
    + intros c' k s' H Hk. apply lookup_insert_is_Some'. on_cases; [by left|right; by eapply gi_known].
    + intros s' [<-|H]%lookup_insert_is_Some'; [lia|]. pose proof (gi_fresh _ Hinv _ H). lia.
Qed.

(** Moving a call on without touching the registry or the states. *)
Lemma set_caller_inv x c k k' :
  gate_inv x -> callers x !! c = Some k -> active k' = active k -> state_of k' = state_of k ->
  (forall i s q, k' = InGate i s q -> forall c' i' q', callers x !! c' <> Some (InGate i' s q')) ->
  gate_inv (set_caller c k' x).
Proof.
  intros Hinv Hc Ha Hs Hg. split; cbn.
  - intros c' k'' i s H Hk. on_cases; [rewrite Ha in Hk|]; by eapply gi_registered.
  - intros s. pose proof (active_replace _ _ _ k' s Hc) as H.
    assert (one_if (on s k') = one_if (on s k)) as E.
    { unfold one_if. assert (on s k' <-> on s k) by (unfold on; by rewrite Ha). repeat case_decide; tauto. }
    change (participants_of (set_caller c k' x) s) with (participants_of x s).
    rewrite (gi_counted _ Hinv). lia.
  - intros c1 c2 i i' s q q' H1 H2. on_cases; try done;
      solve [exfalso; eapply Hg; [reflexivity|eassumption] | by eapply gi_gate].
  - intros c' k'' s H Hk. on_cases; [rewrite Hs in Hk|]; by eapply gi_known.
  - apply (gi_fresh _ Hinv).
Qed.

Lemma returned_inv x c n : gate_inv x -> gate_inv (add_returned c n x).
Proof. intros []. by split. Qed.

Lemma completed_inv x s q n : gate_inv x -> gate_inv (set_completed s q n x).
Proof.
  intros Hinv. split; cbn; try apply Hinv.
  - intros s'. rewrite <-(gi_counted _ Hinv). unfold participants_of; cbn.
    destruct (decide (s = s')) as [<-|]; [rewrite lookup_alter_eq; by destruct (states x !! s)|by rewrite lookup_alter_ne].
  - intros c k s' Hc Hk. apply lookup_alter_is_Some. by eapply gi_known.
  - intros s' H%lookup_alter_is_Some. by eapply gi_fresh.
Qed.

Lemma drop_participant_inv x c i s :
  gate_inv x -> callers x !! c = Some (Leaving i s) -> gate_inv (drop_participant c i s x).
Proof.
  intros Hinv Hc. destruct (gi_known _ Hinv _ _ s Hc eq_refl) as [st Hst]. split; cbn.
  - intros. on_cases. by eapply gi_registered.
  - intros s'. set (k' := Dropping _ _ _). pose proof (active_replace _ _ _ k' s' Hc) as H.
    rewrite <-(gi_counted _ Hinv s') in H. revert H. unfold participants_of, one_if, on; cbn.
    destruct (decide (s = s')) as [<-|Hne].
    + rewrite lookup_alter_eq, Hst. repeat case_decide; simplify_eq/=; lia.
    + rewrite lookup_alter_ne by done. repeat case_decide; simplify_eq/=; lia.
  - intros. on_cases. by eapply gi_gate.
  - intros c' k s' H Hk. apply lookup_alter_is_Some. on_cases; [by eexists|by eapply gi_known].
  - intros s' H%lookup_alter_is_Some. by eapply gi_fresh.
Qed.

(** A registration is removed only when nobody is counted for its state. *)
Lemma drop_registration_inv x c i s last :
  gate_inv x -> callers x !! c = Some (Dropping i s last) -> gate_inv (drop_registration c i s x).
Proof.
  intros Hinv Hc. split; cbn.
  - intros c' k i' s' H Hk. on_cases. pose proof (gi_registered _ Hinv _ _ _ _ H Hk) as Hr.
    case_bool_decide as Ei; cbn; [|done]. destruct (_ =? _)%nat eqn:Ez; [|done].
    apply Nat.eqb_eq in Ez. rewrite (gi_counted _ Hinv) in Ez.
    rewrite lookup_delete_ne; [done|]. intros <-. simplify_eq.
    eapply active_count_zero; [exact Ez|exact H|]. apply on_active. eauto.
  - intros s'. pose proof (active_replace _ _ _ Left s' Hc) as H.
    rewrite <-(gi_counted _ Hinv s') in H. revert H. unfold participants_of, one_if, on; cbn.
    repeat case_decide; simplify_eq/=; lia.
  - intros. on_cases. by eapply gi_gate.
  - intros. on_cases. by eapply gi_known.
  - apply (gi_fresh _ Hinv).
Qed.

Lemma through_inv x c i s : gate_inv x -> callers x !! c = Some (Dropping i s false) -> gate_inv (set_caller c Left x).
Proof.
  intros Hinv Hc. split; cbn.
  - intros. on_cases. by eapply gi_registered.
  - intros s'. pose proof (active_replace _ _ _ Left s' Hc) as H.
    rewrite <-(gi_counted _ Hinv s') in H. revert H. unfold participants_of, one_if, on; cbn.
    repeat case_decide; simplify_eq/=; lia.
  - intros. on_cases. by eapply gi_gate.
  - intros. on_cases. by eapply gi_known.
  - apply (gi_fresh _ Hinv).
Qed.

Lemma gate_run_inv x : gate_run x -> gate_inv x.
Proof.
  induction 1 as [|x y _ Hinv Hstep].
  - split; cbn; try done. intros s [st H]. done.
  - destruct Hstep;
      eauto using join_inv, drop_participant_inv, drop_registration_inv, through_inv;
      (eapply set_caller_inv; cbn; eauto using returned_inv, completed_inv; congruence || naive_solver).
Qed.

(** C27: in every interleaving of any number of calls, at most one call of an
    identity (cache directory and scoped key) is past the gate; whatever the state
    objects that were created, dropped and recreated meanwhile, two calls inside
    the gate for the same identity are the same call. *)
Theorem downloads_exclusive x c c' i s s' q q' :
  gate_run x -> callers x !! c = Some (InGate i s q) -> callers x !! c' = Some (InGate i s' q') ->
  c = c'.
Proof.
  intros Hinv%gate_run_inv H H'.
  pose proof (gi_registered _ Hinv _ _ _ _ H eq_refl). pose proof (gi_registered _ Hinv _ _ _ _ H' eq_refl).
  simplify_eq. by eapply gi_gate.
Qed.

Definition in_gate (k : CallPc) : bool := match k with InGate _ _ _ => true | _ => false end.

Lemma l_enter_free x c i s q :
  callers x !! c = Some (Waiting i s q) -> map_Forall (fun _ k => in_gate k = false) (callers x) ->
  gate_step x (set_caller c (InGate i s q) x).
Proof. intros Hc Hf. apply l_enter; [done|]. intros c' i' q' H. by specialize (Hf _ _ H). Qed.
End lock.

Module DownloadLockExample.
Definition key : Identity := (String.list_ascii_of_string "/cache", String.list_ascii_of_string "host:k").

(** Three calls: the first downloads seven bytes while the second waits. *)
Definition joined : LockWorld := download_identity_lock 2 key tt (download_identity_lock 1 key tt no_calls).

Lemma joined_run : gate_run (Request := unit) joined.
Proof. eapply gate_next; [eapply gate_next; [apply gate_start|]|]; by apply l_join. Qed.

Definition entered : LockWorld := set_caller 1 (InGate key 0 tt) joined.

Lemma entered_run : gate_run (Request := unit) entered.
Proof.
  eapply gate_next; [apply joined_run|].
  apply l_enter_free; [by vm_compute|by apply (bool_decide_unpack _); vm_compute].
Qed.

(** The second call is at the gate, and no call but the first is inside. *)
Lemma downloads_exclusive_witness :
  callers entered !! 1%nat = Some (InGate key 0 tt) /\ callers entered !! 2%nat = Some (Waiting key 0 tt) /\
  forall c s q, callers entered !! c = Some (InGate key s q) -> c = 1%nat.
Proof.
  split; [by vm_compute|]. split; [by vm_compute|]. intros c s q H.
  apply (downloads_exclusive entered c 1 key s 0 q tt); [apply entered_run|exact H|by vm_compute].
Defined.

(** The first call returns its seven bytes and is through. *)
Definition owner_left : LockWorld :=
  set_caller 1 Left (drop_participant 1 key 0
    (set_caller 1 (Leaving key 0) (add_returned 1 7 (set_completed 0 tt 7 entered)))).

Lemma owner_left_run : gate_run (Request := unit) owner_left.
Proof.
  eapply gate_next; [|by apply (l_through _ 1 key 0); vm_compute].
  eapply gate_next; [|by apply l_sub; vm_compute].
  eapply gate_next; [apply entered_run|].
  apply (l_commit _ _ _ _ tt); [by vm_compute|]. intros m. vm_compute. discriminate.
Qed.

Definition third_joined : LockWorld := download_identity_lock 3 key tt owner_left.
Definition third_entered : LockWorld := set_caller 3 (InGate key 0 tt) third_joined.

(** A call that did not overlap the download still gets its result. The first call
    has downloaded seven bytes, returned and let go of its state; the second has
    been waiting all along. A third call that only now begins returns the seven
    bytes without a download, because the waiting call keeps the state and its
    result. The comment in the code says that only callers that overlapped the
    successful owner share its result. *)
Theorem shared_result_outlives_owner :
  gate_run (Request := unit) owner_left /\ callers owner_left !! 1%nat = Some Left /\
  callers owner_left !! 3%nat = None /\
  exists y, rtc gate_step owner_left y /\ returned y = [(1%nat, 7%Z); (3%nat, 7%Z)].
Proof.
  split; [apply owner_left_run|]. split; [by vm_compute|]. split; [by vm_compute|].
  exists (set_caller 3 (Leaving key 0) (add_returned 3 7 third_entered)). split; [|by vm_compute].
  eapply (rtc_l _ _ third_joined); [by apply l_join; vm_compute|].
  eapply (rtc_l _ _ third_entered); [|eapply rtc_once].
  - apply l_enter_free; [by vm_compute|by apply (bool_decide_unpack _); vm_compute].
  - apply (l_shared _ _ _ _ tt); by vm_compute.
Qed.
End DownloadLockExample.
