(* ===== verification/Tabs.v ===== *)
(** The tabs of the window ([TabsCollection] of
    [crates/ui/src/core/tabs/tabs_collection.rs], [op_guard.rs] and the snapshot
    of [persistence.rs]), and the two files that a shutdown writes and a launch reads.

    A collection is a vector of references to tab states, which background
    operations share: they keep theirs when the collection lets go of it. So the
    model has a store of tab states, and a collection has addresses in it. Of a
    tab state it has the fields that the collection and its callers read; the
    counters of other threads change between the calls on the collection. *)

From stdpp Require Import base tactics option list gmap strings.
From Stdlib Require Import ZArith Lia.
From S2P Require Import Prelude Text.

Record TabState := mk_tab {
  tab_id : Z;
  archive_path : option str;
  in_flight_ops : Z;
  tab_cancel : bool;
  pinned : bool
}.

Definition new_tab (id : Z) : TabState := mk_tab id None 0 false false.
Definition with_path (path : option str) (t : TabState) : TabState :=
  mk_tab (tab_id t) path (in_flight_ops t) (tab_cancel t) (pinned t).
Definition with_ops (n : Z) (t : TabState) : TabState :=
  mk_tab (tab_id t) (archive_path t) n (tab_cancel t) (pinned t).
Definition with_cancel (t : TabState) : TabState :=
  mk_tab (tab_id t) (archive_path t) (in_flight_ops t) true (pinned t).
Definition with_pinned (p : bool) (t : TabState) : TabState :=
  mk_tab (tab_id t) (archive_path t) (in_flight_ops t) (tab_cancel t) p.

(** The collection, with the states it and others refer to. *)
Record TabsCollection := mk_tabs {
  store : list TabState;
  tabs : list nat;
  active : Z;
  next_id : Z;
  recently_closed : list str
}.

Definition RECENTLY_CLOSED_LIMIT : nat := 10.

Inductive CloseResult := Closed | BlockedByInFlight (count : Z) | NotFound.

(** [Vec::remove], [Vec::insert] and an assignment to [v[i]]; [None] is their panic
    on an index out of bounds, as it is of every method that uses them. *)
Definition vec_remove {A : Type} (i : nat) (l : list A) : option (A * list A) :=
  a ← l !! i; Some (a, delete i l).
Definition insert_at {A : Type} (i : nat) (a : A) (l : list A) : list A := take i l ++ a :: drop i l.
Definition vec_insert {A : Type} (i : nat) (a : A) (l : list A) : option (list A) :=
  if (length l <? i)%nat then None else Some (insert_at i a l).
Definition vec_set {A : Type} (i : nat) (a : A) (l : list A) : option (list A) :=
  _ ← l !! i; Some (<[i := a]> l).

(** [Arc::new]. *)
Definition alloc (t : TabState) (x : TabsCollection) : nat * TabsCollection :=
  (length (store x), mk_tabs (store x ++ [t]) (tabs x) (active x) (next_id x) (recently_closed x)).

Definition set_tabs (l : list nat) (x : TabsCollection) : TabsCollection :=
  mk_tabs (store x) l (active x) (next_id x) (recently_closed x).
Definition set_active (id : Z) (x : TabsCollection) : TabsCollection :=
  mk_tabs (store x) (tabs x) id (next_id x) (recently_closed x).
Definition set_recent (l : list str) (x : TabsCollection) : TabsCollection :=
  mk_tabs (store x) (tabs x) (active x) (next_id x) l.
(** A write through one of the references. *)
Definition write (o : nat) (f : TabState -> TabState) (x : TabsCollection) : TabsCollection :=
  mk_tabs (alter f o (store x)) (tabs x) (active x) (next_id x) (recently_closed x).

(** The state behind a reference; references are into the store. *)
Definition state (x : TabsCollection) (o : nat) : TabState := default (new_tab 0) (store x !! o).

(** The states the collection shows, in order. *)
Definition view (x : TabsCollection) : list TabState := map (state x) (tabs x).

Definition has_id (x : TabsCollection) (id : Z) (o : nat) : Prop := tab_id (state x o) = id.

#[export] Instance has_id_dec x id o : Decision (has_id x id o).
Proof. unfold has_id. apply _. Defined.

Definition position (x : TabsCollection) (id : Z) : option nat := fst <$> list_find (has_id x id) (tabs x).

(** [get], and the [find] of the other methods: the reference of the first tab
    with the id. *)
Definition find (x : TabsCollection) (id : Z) : option nat := snd <$> list_find (has_id x id) (tabs x).
Definition get (x : TabsCollection) (id : Z) : option TabState := state x <$> find x id.

(** [active()], which expects a tab: [None] is its panic. *)
Definition active_state (x : TabsCollection) : option TabState := get x (active x).

Definition new : TabsCollection := mk_tabs [new_tab 1] [0%nat] 1 2 [].

(** [TabId(self.next_id); self.next_id += 1]. *)
Definition take_id (x : TabsCollection) : Z * TabsCollection :=
  (next_id x, mk_tabs (store x) (tabs x) (active x) (wrapping_add (next_id x) 1) (recently_closed x)).

Definition open (path : option str) (x : TabsCollection) : Z * TabsCollection :=
  let '(id, x) := take_id x in
  let '(o, x) := alloc (with_path path (new_tab id)) x in
  (id, set_active id (set_tabs (tabs x ++ [o]) x)).

(** [None] is the panic of [expect] too. *)
Definition replace_active (path : str) (x : TabsCollection) : option TabsCollection :=
  idx ← position x (active x);
  let '(o, x) := alloc (with_path (Some path) (new_tab (active x))) x in
  l ← vec_set idx o (tabs x);
  Some (set_tabs l x).

(** The removal of a tab, and what keeps a tab active. *)
Definition remove (id : Z) (x : TabsCollection) : option TabsCollection :=
  match position x id with
  | None => Some x
  | Some idx =>
      '(_, l) ← vec_remove idx (tabs x);
      let x := set_tabs l x in
      match tabs x with
      | [] =>
          let '(new_id, x) := take_id x in
          let '(o, x) := alloc (new_tab new_id) x in
          Some (set_active new_id (set_tabs (tabs x ++ [o]) x))
      | _ =>
          if (active x =? id)%Z then
            let new_active_idx := Nat.min idx (length (tabs x) - 1) in
            o ← tabs x !! new_active_idx;
            Some (set_active (tab_id (state x o)) x)
          else Some x
      end
  end.

(** [while len > LIMIT { pop_front }]. *)
Definition remember_closed (id : Z) (x : TabsCollection) : TabsCollection :=
  match get x id with
  | None => x
  | Some t =>
      match archive_path t with
      | None => x
      | Some path =>
          let l := recently_closed x ++ [path] in
          set_recent (drop (length l - RECENTLY_CLOSED_LIMIT) l) x
      end
  end.

Definition close (id : Z) (x : TabsCollection) : option (CloseResult * TabsCollection) :=
  match get x id with
  | None => Some (NotFound, x)
  | Some t =>
      if (0 <? in_flight_ops t)%Z then Some (BlockedByInFlight (in_flight_ops t), x)
      else x ← remove id (remember_closed id x); Some (Closed, x)
  end.

Definition force_close (id : Z) (x : TabsCollection) : option TabsCollection :=
  let x := match find x id with Some o => write o with_cancel x | None => x end in
  remove id (remember_closed id x).

Definition reopen_last_closed (x : TabsCollection) : option (Z * str) * TabsCollection :=
  match last (recently_closed x) with
  | None => (None, x)
  | Some path =>
      let x := set_recent (removelast (recently_closed x)) x in
      let '(id, x) := open (Some path) x in
      (Some (id, path), x)
  end.

Definition has_recently_closed (x : TabsCollection) : bool :=
  match recently_closed x with [] => false | _ => true end.

(** The loop that [close_others] and [close_to_right] share: the number of tabs
    that were skipped. *)
Fixpoint close_each (ids : list Z) (skipped : nat) (x : TabsCollection) : option (nat * TabsCollection) :=
  match ids with
  | [] => Some (skipped, x)
  | id :: ids =>
      match get x id with
      | None => close_each ids skipped x
      | Some t =>
          if (0 <? in_flight_ops t)%Z || pinned t then close_each ids (S skipped) x
          else '(_, x) ← close id x; close_each ids skipped x
      end
  end.

Definition close_others (keep : Z) (x : TabsCollection) : option (nat * TabsCollection) :=
  close_each (List.filter (fun id => negb (id =? keep)%Z) (map tab_id (view x))) 0 x.

Definition close_to_right (anchor : Z) (x : TabsCollection) : option (nat * TabsCollection) :=
  match position x anchor with
  | None => Some (0%nat, x)
  | Some anchor_idx => close_each (map tab_id (drop (anchor_idx + 1) (view x))) 0 x
  end.

Definition is_pinned (x : TabsCollection) (o : nat) : bool := pinned (state x o).

(** [take_while(..).count()]. *)
Fixpoint count_while {A : Type} (p : A -> bool) (l : list A) : nat :=
  match l with
  | [] => 0
  | a :: l => if p a then S (count_while p l) else 0
  end.

Definition pinned_count (x : TabsCollection) : nat := count_while (is_pinned x) (tabs x).

Definition set_pinned (id : Z) (p : bool) (x : TabsCollection) : option TabsCollection :=
  match position x id with
  | None => Some x
  | Some idx =>
      o ← tabs x !! idx;
      if Bool.eqb (is_pinned x o) p then Some x
      else
        let x := write o (with_pinned p) x in
        '(_, l) ← vec_remove idx (tabs x);
        let x := set_tabs l x in
        l ← vec_insert (pinned_count x) o (tabs x);
        Some (set_tabs l x)
  end.

Definition duplicate (source : Z) (x : TabsCollection) : option (Z * str) * TabsCollection :=
  match get x source ≫= archive_path with
  | None => (None, x)
  | Some path => let '(id, x) := open (Some path) x in (Some (id, path), x)
  end.

Definition switch_to (id : Z) (x : TabsCollection) : TabsCollection :=
  match position x id with Some _ => set_active id x | None => x end.

Definition reorder (from_idx to_idx : nat) (x : TabsCollection) : option TabsCollection :=
  if (length (tabs x) <=? from_idx)%nat || (length (tabs x) <=? to_idx)%nat || (from_idx =? to_idx)%nat then Some x
  else
    let pinned_count := pinned_count x in
    let from_pinned := (from_idx <? pinned_count)%nat in
    let to_pinned := (to_idx <? pinned_count)%nat in
    if negb (Bool.eqb from_pinned to_pinned) then Some x
    else
      '(o, l) ← vec_remove from_idx (tabs x);
      l ← vec_insert to_idx o l;
      Some (set_tabs l x).

(** ** The snapshot on disk *)

Record TabRestore := mk_restore { restore_id : Z; restore_path : option str; restore_pinned : bool }.

Record TabsSnapshot := mk_snapshot {
  snap_version : Z;
  snap_tabs : list TabRestore;
  snap_active : Z;
  snap_next_id : Z
}.

Definition snapshot (x : TabsCollection) : TabsSnapshot :=
  mk_snapshot 1 (map (fun t => mk_restore (tab_id t) (archive_path t) (pinned t)) (view x)) (active x) (next_id x).

Definition restored (tr : TabRestore) : TabState :=
  mk_tab (restore_id tr) (restore_path tr) 0 false (restore_pinned tr).

(** The partition moves references; the states were all made before it. *)
Definition from_snapshot (snap : TabsSnapshot) : TabsCollection :=
  let states := map restored (snap_tabs snap) in
  let refs := seq 0 (length states) in
  let pins o := match states !! o with Some t => pinned t | None => false end in
  let refs := List.filter pins refs ++ List.filter (fun o => negb (pins o)) refs in
  match refs with
  | [] =>
      let id := Z.max (snap_next_id snap) 1 in
      mk_tabs [new_tab id] [0%nat] id (Z.max (saturating_add (snap_next_id snap) 1) 2) []
  | first :: _ =>
      let x := mk_tabs states refs (snap_active snap) (snap_next_id snap) [] in
      match position x (snap_active snap) with
      | Some _ => x
      | None => match states !! first with Some t => set_active (tab_id t) x | None => x end
      end
  end.

(** ** The session on disk ([persistence.rs], [settings.rs] of the application and
    [app_lifecycle.rs]) *)

(** The text of the two files, as [serde_json] writes and reads it; writing refuses a
    path that is not text. *)
Class Json := {
  tabs_to_json : TabsSnapshot -> option str;
  tabs_of_json : str -> option TabsSnapshot;
  session_to_json : list str -> option str;
  session_of_json : str -> option (list str)
}.

(** What was written is read back. *)
Class LawfulJson `{Json} := {
  tabs_json_read s text : tabs_to_json s = Some text -> tabs_of_json text = Some s;
  session_json_read l text : session_to_json l = Some text -> session_of_json text = Some l
}.

(** The two files of the configuration directory; [None] is a file that is missing. *)
Record Files := mk_files { tabs_file : option str; session_file : option str }.

(** [fs::create_dir_all] and [fs::write]: whether the directory was made, and what a
    write that failed left in the file, cut short or as it was. *)
Record WriteOutcome := mk_write { dir_made : bool; torn : option (option str) }.

(** What the calls of a shutdown and of a launch meet: whether the application's facade is
    there, the writes, and whether the removal, the looks and the reads succeed. *)
Record ExitDisk := mk_exit { exit_facade : bool; exit_tabs : WriteOutcome; exit_session : WriteOutcome; can_remove : bool }.
Record LaunchDisk := mk_launch {
  launch_facade : bool; tabs_seen : bool; tabs_readable : bool; session_seen : bool; session_readable : bool }.

(** Serializing, making the directory and writing; the file as it is afterwards. *)
Definition write_json (json : option str) (w : WriteOutcome) (f : option str) : option str :=
  match json with
  | None => f
  | Some text => if dir_made w then match torn w with None => Some text | Some rest => rest end else f
  end.

(** [fs::read_to_string]; [None] is an error other than a missing file. *)
Definition read_to_string (readable : bool) (f : option str) : option (option str) :=
  match f with
  | None => Some None
  | Some text => if readable then Some (Some text) else None
  end.

Section Session.
Context `{Json}.

Definition save_collection (w : WriteOutcome) (x : TabsCollection) (f : option str) : option str :=
  write_json (tabs_to_json (snapshot x)) w f.

(** [None] is an error: the file is missing, cannot be read or is malformed. *)
Definition load_collection (readable : bool) (f : option str) : option TabsCollection :=
  content ← read_to_string readable f;
  text ← content;
  snap ← tabs_of_json text;
  Some (from_snapshot snap).

Definition save_session_restore_list (w : WriteOutcome) (entries : list str) (f : option str) : option str :=
  write_json (session_to_json entries) w f.

Definition load_session_restore_list (readable : bool) (f : option str) : option (list str) :=
  content ← read_to_string readable f;
  match content with
  | None => Some []
  | Some text => session_of_json text
  end.

Definition clear_session_restore_list (can_remove : bool) (f : option str) : option str :=
  if can_remove then None else f.

(** The source paths of the tabs. *)
Definition session_entries (x : TabsCollection) : list str := omap archive_path (view x).

Definition archive_bearing_tabs (x : TabsCollection) : list (Z * str) :=
  omap (fun t => p ← archive_path t; Some (tab_id t, p)) (view x).

(** [Path::exists]. *)
Definition seen (can_look : bool) (f : option str) : bool := can_look && bool_decide (is_Some f).

Definition resolve_session_restore_list (d : LaunchDisk) (f : option str) (x : TabsCollection) : list (Z * str) :=
  if negb (seen (session_seen d) f) then archive_bearing_tabs x
  else
    match load_session_restore_list (session_readable d) f with
    | None => archive_bearing_tabs x
    | Some entries =>
        omap (fun '((id, path), entry) => if str_eqb path entry then Some (id, path) else None)
          (combine (archive_bearing_tabs x) entries)
    end.

(** The two files as a shutdown leaves them. *)
Definition save_tabs_on_exit (restore_tabs : bool) (d : ExitDisk) (x : TabsCollection) (f : Files) : Files :=
  if negb (exit_facade d) then f
  else
    let tabs_json := save_collection (exit_tabs d) x (tabs_file f) in
    if negb restore_tabs then mk_files tabs_json (clear_session_restore_list (can_remove d) (session_file f))
    else mk_files tabs_json (save_session_restore_list (exit_session d) (session_entries x) (session_file f)).

(** The window that launched with the tabs [x], and the archives that are loaded into its
    tabs, in order. *)
Definition restore_tabs_on_launch (restore_tabs : bool) (d : LaunchDisk) (f : Files) (x : TabsCollection) :
    TabsCollection * list (Z * str) :=
  if negb restore_tabs then (x, [])
  else if negb (launch_facade d) then (x, [])
  else if negb (seen (tabs_seen d) (tabs_file f)) then (x, [])
  else
    match load_collection (tabs_readable d) (tabs_file f) with
    | None => (x, [])
    | Some restored => (restored, resolve_session_restore_list d (session_file f) restored)
    end.
End Session.

(** ** Operations in flight *)

(** [OpGuard::new] and its [drop], on the state an operation refers to; the counter
    is a [usize]. *)
Definition guard_new (o : nat) (x : TabsCollection) : TabsCollection :=
  write o (fun t => with_ops (wrapping_add (in_flight_ops t) 1) t) x.
Definition guard_drop (o : nat) (x : TabsCollection) : TabsCollection :=
  write o (fun t => with_ops ((in_flight_ops t - 1) mod u64_modulus)%Z t) x.

(** What the window and the operations do. *)
Inductive TabsCall :=
| Open (path : option str)
| ReplaceActive (path : str)
| Close (id : Z)
| ForceClose (id : Z)
| ReopenLastClosed
| CloseOthers (keep : Z)
| CloseToRight (anchor : Z)
| SetPinned (id : Z) (p : bool)
| Duplicate (source : Z)
| SwitchTo (id : Z)
| Reorder (from_idx to_idx : nat)
| GuardNew (o : nat)
| GuardDrop (o : nat)
| SetPath (o : nat) (path : option str).

(** [None] is a panic. *)
Definition call (x : TabsCollection) (c : TabsCall) : option TabsCollection :=
  match c with
  | Open path => Some (open path x).2
  | ReplaceActive path => replace_active path x
  | Close id => snd <$> close id x
  | ForceClose id => force_close id x
  | ReopenLastClosed => Some (reopen_last_closed x).2
  | CloseOthers keep => snd <$> close_others keep x
  | CloseToRight anchor => snd <$> close_to_right anchor x
  | SetPinned id p => set_pinned id p x
  | Duplicate source => Some (duplicate source x).2
  | SwitchTo id => Some (switch_to id x)
  | Reorder from_idx to_idx => reorder from_idx to_idx x
  | GuardNew o => Some (guard_new o x)
  | GuardDrop o => Some (guard_drop o x)
  | SetPath o path => Some (write o (with_path path) x)
  end.

Fixpoint calls (x : TabsCollection) (cs : list TabsCall) : option TabsCollection :=
  match cs with
  | [] => Some x
  | c :: cs => call x c ≫= fun x => calls x cs
  end.
