(* ===== verification/TabsProps.v ===== *)
(** The tabs of the window ([Tabs.v]): the invariant of the collection along every
    run of calls and restarts, what the calls do to what is shown, and what a restart
    brings back. *)

From stdpp Require Import base tactics option list gmap strings.
From Stdlib Require Import ZArith Lia Ascii.
From S2P Require Import Prelude Text Tabs.

(** * The invariant *)

Definition pins_first (l : list TabState) : Prop :=
  exists a b, l = a ++ b /\ Forall (fun t => pinned t = true) a /\ Forall (fun t => pinned t = false) b.

Record tabs_ok (x : TabsCollection) : Prop := {
  ok_refs : Forall (fun o => o < length (store x))%nat (tabs x);
  ok_ids : NoDup (map tab_id (view x));
  ok_active : active x ∈ map tab_id (view x);
  ok_fresh : Forall (fun t => (0 <= tab_id t < next_id x)%Z) (view x);
  ok_next : (next_id x <= u64_max)%Z;
  ok_recent : (length (recently_closed x) <= RECENTLY_CLOSED_LIMIT)%nat
}.

Lemma ok_tabs_nodup x : tabs_ok x -> NoDup (tabs x).
Proof.
  intros H. eapply NoDup_fmap_1. pose proof (ok_ids _ H) as Hn. unfold view in Hn.
  rewrite map_map in Hn. exact Hn.
Qed.

Lemma lookup_view x i t : view x !! i = Some t <-> exists o, tabs x !! i = Some o /\ t = state x o.
Proof. unfold view. rewrite list_lookup_fmap. destruct (tabs x !! i); cbn; naive_solver. Qed.

(** The first tab with an id is the only one. *)
Lemma list_find_spec x id i o :
  tabs_ok x -> list_find (has_id x id) (tabs x) = Some (i, o) <->
  tabs x !! i = Some o /\ tab_id (state x o) = id.
Proof.
  intros Hx. rewrite list_find_Some. unfold has_id. split; [naive_solver|]. intros [Hi Ho].
  split_and!; [done|done|]. intros j o' Hj Hlt Hid. pose proof (ok_ids _ Hx) as Hn.
  enough (i = j) by lia. eapply NoDup_lookup; [exact Hn|..]; unfold view; rewrite map_map, list_lookup_fmap.
  - rewrite Hi. cbn. by rewrite Ho.
  - rewrite Hj. cbn. by rewrite Hid.
Qed.

Lemma position_spec x id i :
  tabs_ok x -> position x id = Some i <-> exists o, tabs x !! i = Some o /\ tab_id (state x o) = id.
Proof.
  intros Hx. unfold position. rewrite fmap_Some. split.
  - intros ([j o] & H%list_find_spec & ->); [|done]. eauto.
  - intros (o & H). exists (i, o). by rewrite list_find_spec.
Qed.

Lemma position_none x id : position x id = None <-> id ∉ map tab_id (view x).
Proof.
  unfold position, view. rewrite fmap_None, list_find_None, map_map, list_elem_of_fmap, Forall_forall.
  unfold has_id. naive_solver.
Qed.

Lemma find_spec x id o : tabs_ok x -> find x id = Some o <-> o ∈ tabs x /\ tab_id (state x o) = id.
Proof.
  intros Hx. unfold find. rewrite fmap_Some, list_elem_of_lookup. split.
  - intros ([j o'] & H%list_find_spec & ->); [|done]. naive_solver.
  - intros ([i H] & Ho). exists (i, o). by rewrite list_find_spec.
Qed.

(** ** The store *)

Lemma state_alloc x t o : (o < length (store x))%nat -> state (alloc t x).2 o = state x o.
Proof. intros H. unfold state, alloc; cbn. by rewrite lookup_app_l. Qed.

Lemma state_alloc_new x t : state (alloc t x).2 (alloc t x).1 = t.
Proof. unfold state, alloc; cbn. by rewrite list_lookup_middle. Qed.

Lemma view_alloc x t l :
  Forall (fun o => o < length (store x))%nat l -> map (state (alloc t x).2) l = map (state x) l.
Proof. intros H. apply map_ext_Forall. eapply Forall_impl; [exact H|]. intros o Ho. by apply state_alloc. Qed.

Lemma state_write_eq x o f : (o < length (store x))%nat -> state (write o f x) o = f (state x o).
Proof.
  intros H. unfold state, write; cbn. rewrite list_lookup_alter_eq.
  destruct (lookup_lt_is_Some_2 _ _ H) as [t ->]. done.
Qed.

Lemma state_write_ne x o o' f : o <> o' -> state (write o f x) o' = state x o'.
Proof. intros H. unfold state, write; cbn. by rewrite list_lookup_alter_ne. Qed.

(** A write shows on the tab that refers to the state, and not at all when none does. *)
Lemma view_write x o f :
  Forall (fun o => o < length (store x))%nat (tabs x) ->
  view (write o f x) = map (fun o' => if decide (o' = o) then f (state x o') else state x o') (tabs x).
Proof.
  intros H. unfold view; cbn. apply map_ext_Forall. eapply Forall_impl; [exact H|]. intros o' Ho; cbn in Ho.
  case_decide as E; [subst; by apply state_write_eq|by apply state_write_ne].
Qed.

Lemma view_write_same {B : Type} (g : TabState -> B) x o f :
  Forall (fun o => o < length (store x))%nat (tabs x) -> (forall t, g (f t) = g t) ->
  map g (view (write o f x)) = map g (view x).
Proof.
  intros H Hg. rewrite view_write by done. unfold view. rewrite !map_map. apply map_ext. intros o'.
  case_decide; [by rewrite Hg|done].
Qed.

(** ** Views that are well formed *)

Record good_view (l : list TabState) (a n : Z) : Prop := {
  gv_ids : NoDup (map tab_id l);
  gv_active : a ∈ map tab_id l;
  gv_fresh : Forall (fun t => (0 <= tab_id t < n)%Z) l
}.

Lemma tabs_ok_view x :
  tabs_ok x <-> Forall (fun o => o < length (store x))%nat (tabs x) /\ good_view (view x) (active x) (next_id x)
    /\ (next_id x <= u64_max)%Z /\ (length (recently_closed x) <= RECENTLY_CLOSED_LIMIT)%nat.
Proof. split; [intros []; split_and!; try done; by split|intros (? & [] & ? & ?); by split]. Qed.

Lemma pins_first_snoc l t : pinned t = false -> pins_first l -> pins_first (l ++ [t]).
Proof.
  intros Ht (a & b & -> & Ha & Hb). exists a, (b ++ [t]). rewrite <-app_assoc. split_and!; [done..|].
  apply Forall_app. split; [done|by repeat constructor].
Qed.

Lemma pins_first_sublist l l' : sublist l l' -> pins_first l' -> pins_first l.
Proof.
  intros Hs (a & b & -> & Ha & Hb). apply sublist_app_r in Hs as (a' & b' & -> & Hsa & Hsb).
  exists a', b'. eauto using sublist_Forall.
Qed.

Lemma good_view_sublist l l' a a' n :
  sublist l l' -> good_view l' a n -> a' ∈ map tab_id l -> good_view l a' n.
Proof.
  intros Hs [] Ha. split; [|done|by eapply sublist_Forall].
  eapply sublist_NoDup; [done|]. by apply fmap_sublist.
Qed.

Lemma good_view_switch l a a' n : good_view l a n -> a' ∈ map tab_id l -> good_view l a' n.
Proof. intros [] ?. by split. Qed.

Lemma good_view_fresh a : (0 <= a)%Z -> good_view [new_tab a] a (a + 1).
Proof.
  intros Ha. split; cbn.
  - apply NoDup_singleton.
  - by left.
  - repeat constructor; cbn; lia.
Qed.

Lemma good_view_open l a n t :
  good_view l a n -> tab_id t = n -> (0 <= n)%Z -> good_view (l ++ [t]) n (n + 1).
Proof.
  intros [Hi Ha Hf] Ht Hn. split.
  - rewrite map_app. apply NoDup_app. split_and!; [done| |apply NoDup_singleton].
    intros i (u & -> & Hu')%list_elem_of_fmap Hin%list_elem_of_singleton.
    rewrite Forall_forall in Hf. specialize (Hf _ Hu'). cbn in Hf. lia.
  - rewrite map_app, elem_of_app. right. cbn. rewrite Ht. by left.
  - apply Forall_app. split; [|repeat constructor; lia]. eapply Forall_impl; [exact Hf|]. cbn. lia.
Qed.

(** Another order of the same tabs. *)
Lemma good_view_perm l l' a n : map tab_id l ≡ₚ map tab_id l' -> good_view l a n -> good_view l' a n.
Proof.
  intros Hp [Hi Ha Hf]. split; [by rewrite <-Hp..|].
  apply (Forall_map tab_id (fun i => 0 <= i < n)%Z). rewrite <-Hp. by apply Forall_map.
Qed.

(** ** What each call does to the view *)

Lemma open_view path x :
  tabs_ok x -> (next_id x < u64_max)%Z ->
  let '(id, y) := open path x in
  id = next_id x /\ view y = view x ++ [with_path path (new_tab id)] /\ tabs_ok y /\ next_id y = (next_id x + 1)%Z
  /\ recently_closed y = recently_closed x.
Proof.
  intros Hx Hlt. destruct (open path x) as [id y] eqn:E. unfold open in E. cbn in E. injection E as <- Hy.
  pose proof Hx as Hx'. apply tabs_ok_view in Hx' as (Hr & Hg & Hn & Hc).
  pose proof (gv_fresh _ _ _ Hg) as Hf. pose proof (gv_active _ _ _ Hg) as Ha.
  assert (0 <= next_id x)%Z as H0.
  { apply list_elem_of_fmap in Ha as (t & _ & Ht). rewrite Forall_forall in Hf. specialize (Hf _ Ht). cbn in Hf. lia. }
  assert (view y = view x ++ [with_path path (new_tab (next_id x))]) as Hv.
  { subst y. unfold view. cbn. rewrite map_app. cbn. f_equal.
    - apply map_ext_Forall. eapply Forall_impl; [exact Hr|]. intros o Ho. unfold state; cbn. by rewrite lookup_app_l.
    - unfold state; cbn. by rewrite list_lookup_middle. }
  assert (next_id y = (next_id x + 1)%Z) as Hny by (subst y; cbn; apply wrapping_add_small; lia).
  split_and!; [done|done| |done|by subst y].
  apply tabs_ok_view. rewrite Hv, Hny. subst y; cbn. split_and!; [|by eapply good_view_open|lia|done].
  rewrite length_app. cbn. apply Forall_app. split; [|repeat constructor; lia].
  eapply Forall_impl; [exact Hr|]. cbn. lia.
Qed.

Definition without (id : Z) (l : list TabState) : list TabState := List.filter (fun t => negb (tab_id t =? id)%Z) l.

Lemma view_delete x i : view (set_tabs (delete i (tabs x)) x) = delete i (view x).
Proof. unfold view; cbn. by rewrite !delete_take_drop, !map_app, fmap_take, fmap_drop. Qed.

Lemma elem_of_without t id l : t ∈ without id l <-> t ∈ l /\ tab_id t <> id.
Proof. unfold without. rewrite !list_elem_of_In, filter_In, negb_true_iff, Z.eqb_neq. done. Qed.

Lemma sublist_without id l : sublist (without id l) l.
Proof. apply sublist_list_filter. Qed.

Lemma next_id_nonneg x : tabs_ok x -> (0 <= next_id x)%Z.
Proof.
  intros Hx. pose proof (ok_active _ Hx) as (t & _ & Ht)%list_elem_of_fmap. pose proof (ok_fresh _ Hx) as Hf.
  rewrite Forall_forall in Hf. specialize (Hf _ Ht). cbn in Hf. lia.
Qed.

Lemma removed_view id x i :
  tabs_ok x -> position x id = Some i -> view (set_tabs (delete i (tabs x)) x) = without id (view x).
Proof.
  intros Hx (o & Hi & Ho)%position_spec; [|done]. rewrite view_delete. unfold without. rewrite <-Ho.
  apply (delete_is_filter tab_id); [by apply ok_ids|]. apply lookup_view. eauto.
Qed.

Lemma removed_refs x i :
  tabs_ok x -> Forall (fun o => o < length (store x))%nat (delete i (tabs x)).
Proof. intros Hx. eapply sublist_Forall; [apply sublist_delete|by apply ok_refs]. Qed.

(** A tab that is there can be removed. *)
Lemma removable id x i :
  tabs_ok x -> position x id = Some i -> exists o, vec_remove i (tabs x) = Some (o, delete i (tabs x)).
Proof. intros Hx (o & Hi & _)%position_spec; [|done]. exists o. unfold vec_remove. by rewrite Hi. Qed.

(** The last tab is gone: an empty one takes its place. *)
Lemma remove_last id x :
  tabs_ok x -> (next_id x < u64_max)%Z -> id ∈ map tab_id (view x) -> without id (view x) = [] ->
  exists y, remove id x = Some y
  /\ view y = [new_tab (next_id x)] /\ tabs_ok y /\ recently_closed y = recently_closed x
  /\ next_id y = (next_id x + 1)%Z.
Proof.
  intros Hx Hlt Hin Hw. destruct (position x id) as [i|] eqn:Ep; [|by apply position_none in Ep].
  pose proof (removed_view _ _ _ Hx Ep) as Hv. rewrite Hw in Hv. pose proof (removed_refs _ i Hx) as Hr.
  pose proof (next_id_nonneg _ Hx) as H0. destruct (removable _ _ _ Hx Ep) as [o Ho].
  assert (delete i (tabs x) = []) as Hd by (by apply fmap_nil_inv in Hv).
  unfold remove. rewrite Ep, Ho, Hd. cbn. eexists. split; [reflexivity|]. set (y := set_active _ _).
  assert (view y = [new_tab (next_id x)]) as Hvy.
  { unfold view; cbn. unfold state; cbn. by rewrite list_lookup_middle. }
  assert (next_id y = (next_id x + 1)%Z) as Hny by (cbn; apply wrapping_add_small; lia).
  split_and!; [done| |done|done]. apply tabs_ok_view. rewrite Hvy, Hny. cbn. rewrite length_app. cbn.
  split_and!; [apply Forall_singleton; lia|by apply good_view_fresh|lia|by apply ok_recent].
Qed.

(** Another tab is left, and the active one is among them. *)
Lemma remove_other id x :
  tabs_ok x -> id ∈ map tab_id (view x) -> without id (view x) <> [] ->
  exists y, remove id x = Some y
  /\ view y = without id (view x) /\ tabs_ok y /\ recently_closed y = recently_closed x
  /\ next_id y = next_id x /\ (active x <> id -> active y = active x).
Proof.
  intros Hx Hin Hw. destruct (position x id) as [i|] eqn:Ep; [|by apply position_none in Ep].
  pose proof (removed_view _ _ _ Hx Ep) as Hv. pose proof (removed_refs _ i Hx) as Hr.
  destruct (removable _ _ _ Hx Ep) as [o Ho].
  set (x1 := set_tabs (delete i (tabs x)) x) in *.
  assert (exists a, remove id x = Some (set_active a x1) /\ a ∈ map tab_id (view x1) /\ (active x <> id -> a = active x))
    as (a & Hy & Ha & Hs).
  { unfold remove. rewrite Ep, Ho. cbn [mbind option_bind]. fold x1. cbn zeta. destruct (tabs x1) as [|o1 l1] eqn:Et.
    { exfalso. apply Hw. rewrite <-Hv. unfold view. by rewrite Et. }
    change (active x1) with (active x). destruct (Z.eqb_spec (active x) id) as [E|E].
    - destruct (_ !! _) as [o2|] eqn:E2; [|apply lookup_ge_None in E2; cbn in E2; lia].
      exists (tab_id (state x1 o2)). split_and!; [done| |done]. unfold view. rewrite map_map, Et.
      apply list_elem_of_fmap. exists o2. split; [done|by eapply list_elem_of_lookup_2].
    - exists (active x). split_and!; [reflexivity|rewrite Hv|done].
      pose proof (ok_active _ Hx) as (t & Et' & Ht)%list_elem_of_fmap.
      apply list_elem_of_fmap. exists t. split; [done|]. apply elem_of_without. split; [done|congruence]. }
  exists (set_active a x1). split_and!; [done|done| |done|done|exact Hs].
  apply tabs_ok_view. change (view (set_active a x1)) with (view x1). rewrite Hv in *. cbn.
  split_and!; [exact Hr| |by apply ok_next|by apply ok_recent].
  eapply good_view_sublist; [apply sublist_without| |done]. by apply tabs_ok_view in Hx as (_ & ? & _).
Qed.

(** ** Every call keeps the invariant *)

Lemma remember_closed_ok id x :
  tabs_ok x -> let y := remember_closed id x in tabs_ok y /\ view y = view x /\ next_id y = next_id x /\ active y = active x.
Proof.
  intros Hx y. unfold y, remember_closed. destruct (get x id) as [t|]; [|done]. destruct (archive_path t); [|done].
  split_and!; try done. apply tabs_ok_view in Hx as (? & ? & ? & ?). apply tabs_ok_view. split_and!; try done.
  cbn. rewrite length_drop. lia.
Qed.

(** What a call that does not panic leaves: a well-formed collection that gave out at
    most one id. *)
Definition call_keeps (x y : TabsCollection) : Prop := tabs_ok y /\ (next_id x <= next_id y <= next_id x + 1)%Z.

Lemma remove_ok id x :
  tabs_ok x -> (next_id x < u64_max)%Z -> exists y, remove id x = Some y /\ call_keeps x y.
Proof.
  intros Hx Hlt. destruct (decide (id ∈ map tab_id (view x))) as [Hin|Hin].
  - destruct (without id (view x)) as [|t l] eqn:E.
    + destruct (remove_last id x Hx Hlt Hin E) as (y & Hy & _ & ? & _ & Hn). exists y. split; [done|split; [done|lia]].
    + destruct (remove_other id x Hx Hin) as (y & Hy & _ & ? & _ & Hn & _); [congruence|]. exists y. split; [done|split; [done|lia]].
  - apply position_none in Hin. unfold remove. rewrite Hin. exists x. split; [done|split; [done|lia]].
Qed.

(** Writes that keep ids. *)
Lemma write_ok o f x :
  tabs_ok x -> (forall t, tab_id (f t) = tab_id t) -> tabs_ok (write o f x).
Proof.
  intros (Hr & [Hi Ha Hf] & Hn & Hc)%tabs_ok_view Hid. apply tabs_ok_view.
  split_and!; [|split|done|done].
  - cbn. by rewrite length_alter.
  - by rewrite view_write_same.
  - by rewrite view_write_same.
  - assert (Forall (fun i => 0 <= i < next_id x)%Z (map tab_id (view (write o f x)))) as H; [|by apply Forall_map in H].
    rewrite view_write_same by done. by apply Forall_map.
Qed.

Lemma close_ok id x :
  tabs_ok x -> (next_id x < u64_max)%Z -> exists r y, close id x = Some (r, y) /\ call_keeps x y.
Proof.
  intros Hx Hlt. unfold close. destruct (get x id) as [t|]; [|exists NotFound, x; split; [done|split; [done|lia]]].
  destruct (0 <? in_flight_ops t)%Z; [eexists _, x; split; [done|split; [done|lia]]|].
  destruct (remember_closed_ok id x Hx) as (Hr & _ & Hn & _).
  destruct (remove_ok id _ Hr ltac:(lia)) as (y & -> & Hy & ?). exists Closed, y. split; [done|split; [done|lia]].
Qed.

Lemma force_close_ok id x :
  tabs_ok x -> (next_id x < u64_max)%Z -> exists y, force_close id x = Some y /\ call_keeps x y.
Proof.
  intros Hx Hlt. unfold force_close.
  set (x1 := match find x id with Some o => write o with_cancel x | None => x end).
  assert (tabs_ok x1 /\ next_id x1 = next_id x) as [H1 E1].
  { unfold x1. destruct (find x id); [|done]. split; [by apply write_ok|done]. }
  destruct (remember_closed_ok id x1 H1) as (Hr & _ & Hn & _). unfold call_keeps. rewrite <-E1, <-Hn.
  apply remove_ok; [done|lia].
Qed.

Lemma get_some x id t : tabs_ok x -> get x id = Some t <-> t ∈ view x /\ tab_id t = id.
Proof.
  intros Hx. unfold get, view. rewrite fmap_Some, list_elem_of_fmap. split.
  - intros (o & [Ho Hid]%find_spec & ->); [|done]. eauto.
  - intros ((o & -> & Ho) & Hid). exists o. by rewrite find_spec.
Qed.

Lemma get_none x id : tabs_ok x -> get x id = None <-> id ∉ map tab_id (view x).
Proof.
  intros Hx. destruct (get x id) as [t|] eqn:E.
  - apply get_some in E as [Ht <-]; [|done]. split; [done|]. intros Hn. destruct Hn. by apply list_elem_of_fmap_2.
  - split; [|done]. intros _ (t & Hid & Ht)%list_elem_of_fmap.
    assert (get x id = Some t) by (by apply get_some). congruence.
Qed.

(** A tab with operations in flight or a pin stays. *)
Definition busy (t : TabState) : bool := (0 <? in_flight_ops t)%Z || pinned t.

Lemma close_each_gone ids k x : tabs_ok x -> Forall (fun id => id ∉ map tab_id (view x)) ids -> close_each ids k x = Some (k, x).
Proof.
  intros Hx. revert k. induction ids as [|id ids IH]; intros k H; [done|]. apply Forall_cons in H as [Hid H].
  cbn. apply (get_none _ _ Hx) in Hid. rewrite Hid. by apply IH.
Qed.

(** [close_each] by its effect: the tabs of [ids] that are not busy go. *)
Definition stays (ids : list Z) (t : TabState) : bool := negb (bool_decide (tab_id t ∈ ids)) || busy t.
Definition skips (ids : list Z) (t : TabState) : bool := bool_decide (tab_id t ∈ ids) && busy t.
Definition left_over (ids : list Z) (x : TabsCollection) : list TabState := List.filter (stays ids) (view x).

(** The paths that closing remembers, and the limit on them. *)
Definition closed_path (x : TabsCollection) (id : Z) : option str :=
  t ← get x id; if busy t then None else archive_path t.
Definition keep_last (l : list str) : list str := drop (length l - RECENTLY_CLOSED_LIMIT) l.

Lemma keep_last_app l m : keep_last (keep_last l ++ m) = keep_last (l ++ m).
Proof.
  unfold keep_last. rewrite !length_app, length_drop.
  destruct (decide (length l <= RECENTLY_CLOSED_LIMIT)%nat) as [Hl|Hl].
  - replace (length l - RECENTLY_CLOSED_LIMIT)%nat with 0%nat by lia. rewrite drop_0. f_equal. lia.
  - rewrite !drop_app, drop_drop, length_drop. f_equal; f_equal; lia.
Qed.

Lemma keep_last_short l : (length l <= RECENTLY_CLOSED_LIMIT)%nat -> keep_last l = l.
Proof. intros H. unfold keep_last. by replace (length l - _)%nat with 0%nat by lia. Qed.

Lemma filter_ext_elem {A : Type} (p q : A -> bool) l :
  (forall a, a ∈ l -> p a = q a) -> List.filter p l = List.filter q l.
Proof. intros H. apply List.filter_ext_in. intros a Ha. apply H. by apply list_elem_of_In. Qed.

Lemma mem_other t id ids : tab_id t <> id -> bool_decide (tab_id t ∈ id :: ids) = bool_decide (tab_id t ∈ ids).
Proof. intros H. apply bool_decide_ext. rewrite elem_of_cons. naive_solver. Qed.

Lemma mem_same t id ids : tab_id t = id -> bool_decide (tab_id t ∈ id :: ids) = true.
Proof. intros ->. apply bool_decide_true. by left. Qed.

Lemma stays_other id ids l : (forall t, t ∈ l -> tab_id t <> id \/ busy t = true) ->
  List.filter (stays (id :: ids)) l = List.filter (stays ids) l.
Proof.
  intros H. apply filter_ext_elem. intros t Ht. unfold stays. destruct (H t Ht) as [Hne| ->]; [|by rewrite !orb_true_r].
  by rewrite mem_other.
Qed.

Lemma stays_without id ids l : (forall t, t ∈ l -> tab_id t = id -> busy t = false) ->
  List.filter (stays (id :: ids)) l = List.filter (stays ids) (without id l).
Proof.
  induction l as [|t l IH]; intros H; [done|]. cbn. rewrite IH by (intros; apply H; [by right|done]).
  unfold stays at 1. destruct (Z.eqb_spec (tab_id t) id) as [E|E].
  - rewrite mem_same, (H t) by (done || by left). done.
  - rewrite mem_other by done. done.
Qed.

Lemma skips_other id ids l : (forall t, t ∈ l -> tab_id t <> id) ->
  count_if (skips (id :: ids)) l = count_if (skips ids) l.
Proof.
  induction l as [|t l IH]; intros H; [done|]. rewrite !count_if_cons, IH by (intros; apply H; by right).
  unfold skips at 1 3. by rewrite mem_other by (apply H; by left).
Qed.

Lemma skips_without id ids l : (forall t, t ∈ l -> tab_id t = id -> busy t = false) ->
  count_if (skips (id :: ids)) l = count_if (skips ids) (without id l).
Proof.
  induction l as [|t l IH]; intros H; [done|]. cbn [without List.filter]. rewrite count_if_cons.
  rewrite IH by (intros; apply H; [by right|done]). unfold skips at 1. destruct (Z.eqb_spec (tab_id t) id) as [E|E].
  - rewrite (H t), andb_false_r by (done || by left). done.
  - cbn [negb]. rewrite count_if_cons. by rewrite mem_other.
Qed.

Lemma skips_busy id ids l t :
  NoDup (map tab_id l) -> t ∈ l -> tab_id t = id -> id ∉ ids -> busy t = true ->
  count_if (skips (id :: ids)) l = S (count_if (skips ids) l).
Proof.
  intros Hn (l1 & l2 & ->)%list_elem_of_split Hid Hids Hb. rewrite map_app in Hn. cbn in Hn.
  rewrite Hid in Hn. assert (forall u, u ∈ l1 ++ l2 -> tab_id u <> id) as Hne.
  { rewrite <-Permutation_middle in Hn. apply NoDup_cons in Hn as [Hn _]. intros u Hu E. apply Hn. rewrite <-map_app, <-E.
    by apply list_elem_of_fmap_2. }
  rewrite !count_if_app, !count_if_cons, !skips_other by (intros u Hu; apply Hne, elem_of_app; auto).
  unfold skips at 2 5. rewrite mem_same, Hb by done. rewrite Hid, bool_decide_false by done. cbn. lia.
Qed.

Lemma close_idle id x t :
  get x id = Some t -> busy t = false -> close id x = (x ← remove id (remember_closed id x); Some (Closed, x)).
Proof. intros Hg Hb. unfold close. rewrite Hg. apply orb_false_iff in Hb as [-> _]. done. Qed.

Lemma remember_closed_recent id x t :
  get x id = Some t -> busy t = false ->
  recently_closed (remember_closed id x)
  = match closed_path x id with Some p => keep_last (recently_closed x ++ [p]) | None => recently_closed x end.
Proof. intros Hg Hb. unfold remember_closed, closed_path. rewrite Hg. cbn. rewrite Hb. by destruct (archive_path t). Qed.

Lemma closed_path_without x y id id' :
  tabs_ok x -> tabs_ok y -> view y = without id (view x) -> id' <> id -> closed_path y id' = closed_path x id'.
Proof.
  intros Hx Hy Hv Hne. unfold closed_path. f_equal. apply option_eq. intros t.
  rewrite !get_some, Hv, elem_of_without by done. naive_solver.
Qed.

(** What closing each of [ids] leaves, counts and remembers. *)
Definition closes (ids : list Z) (k : nat) (x : TabsCollection) (n : nat) (y : TabsCollection) : Prop :=
  tabs_ok y
  /\ view y = match left_over ids x with [] => [new_tab (next_id x)] | l => l end
  /\ n = (k + count_if (skips ids) (view x))%nat
  /\ next_id y = (next_id x + match left_over ids x with [] => 1 | _ => 0 end)%Z
  /\ recently_closed y = keep_last (recently_closed x ++ omap (closed_path x) ids).

Lemma closes_nil k x : tabs_ok x -> closes [] k x k x.
Proof.
  intros Hx. unfold closes. assert (left_over [] x = view x) as ->.
  { unfold left_over. rewrite (filter_ext_elem _ (fun _ => true)); [apply List.filter_true|].
    intros t _. unfold stays. by rewrite bool_decide_false by apply not_elem_of_nil. }
  cbn. rewrite app_nil_r, keep_last_short by apply Hx. destruct (view x) as [|t l] eqn:Ev.
  { pose proof (ok_active _ Hx) as Ha. rewrite Ev in Ha. by apply elem_of_nil in Ha. }
  split_and!; [done|done| |lia|done]. rewrite <-Ev. clear. induction (view x) as [|u l IH]; [cbn; lia|].
  rewrite count_if_cons. unfold skips at 1. rewrite bool_decide_false by apply not_elem_of_nil. cbn. lia.
Qed.

Lemma closes_gone id ids k x n y :
  tabs_ok x -> get x id = None -> closes ids k x n y -> closes (id :: ids) k x n y.
Proof.
  intros Hx Eg. pose proof Eg as Hno. apply (get_none _ _ Hx) in Hno.
  assert (forall t, t ∈ view x -> tab_id t <> id) as Hne by (intros t Ht <-; apply Hno; by apply list_elem_of_fmap_2).
  unfold closes. assert (left_over (id :: ids) x = left_over ids x) as -> by (apply stays_other; eauto).
  rewrite skips_other by done. cbn. replace (closed_path x id) with (@None str); [done|].
  unfold closed_path. by rewrite Eg.
Qed.

Lemma closes_busy id ids k x t n y :
  tabs_ok x -> get x id = Some t -> busy t = true -> id ∉ ids ->
  closes ids (S k) x n y -> closes (id :: ids) k x n y.
Proof.
  intros Hx Eg Hb Hids. unfold closes. pose proof Eg as [Ht Hid]%get_some; [|done].
  assert (left_over (id :: ids) x = left_over ids x) as ->.
  { apply stays_other. intros u Hu. destruct (decide (tab_id u = id)) as [E|]; [right|by left].
    assert (get x id = Some u) by (by apply get_some). congruence. }
  rewrite (skips_busy id ids _ t) by (done || apply Hx). cbn.
  replace (closed_path x id) with (@None str); [|unfold closed_path; rewrite Eg; cbn; by rewrite Hb].
  intros (H1 & H2 & H3 & H4). split_and!; try apply H4; [done|done|]. lia.
Qed.

Lemma not_busy_here id x t : tabs_ok x -> get x id = Some t -> busy t = false ->
  forall u, u ∈ view x -> tab_id u = id -> busy u = false.
Proof. intros Hx Eg Hb u Hu E. assert (get x id = Some u) by (by apply get_some). congruence. Qed.

Lemma keep_last_cons (l : list str) (o : option str) m :
  (length l <= RECENTLY_CLOSED_LIMIT)%nat ->
  keep_last (match o with Some p => keep_last (l ++ [p]) | None => l end ++ m)
  = keep_last (l ++ match o with Some p => p :: m | None => m end).
Proof. intros Hl. destruct o as [p|]; [|done]. by rewrite keep_last_app, <-app_assoc. Qed.

Lemma omap_ext_elem {A B : Type} (f g : A -> option B) (l : list A) : (forall a, a ∈ l -> f a = g a) -> omap f l = omap g l.
Proof.
  induction l as [|a l IH]; intros H; [done|]. cbn. rewrite (H a) by (by left). rewrite IH; [done|]. intros; apply H; by right.
Qed.

Lemma closed_paths_gone x id ids :
  tabs_ok x -> without id (view x) = [] -> id ∉ ids -> omap (closed_path x) ids = [].
Proof.
  intros Hx Hw Hid. rewrite (omap_ext_elem _ (fun _ => None)); [clear; induction ids as [|i ids IH]; [done|exact IH]|].
  intros i Hi. unfold closed_path. destruct (get x i) as [u|] eqn:E; [|done]. apply get_some in E as [Hu Ei]; [|done].
  assert (u ∈ without id (view x)) as Hb; [|rewrite Hw in Hb; by apply elem_of_nil in Hb].
  apply elem_of_without. split; [done|]. intros E. by rewrite <-E, Ei in Hid.
Qed.

Lemma closes_idle id ids k x t :
  tabs_ok x -> (next_id x < u64_max)%Z -> get x id = Some t -> busy t = false ->
  id ∉ ids -> Forall (fun id => id < next_id x)%Z ids ->
  (forall y, tabs_ok y -> (next_id y < u64_max)%Z -> Forall (fun id => id < next_id y)%Z ids ->
     exists n z, close_each ids k y = Some (n, z) /\ closes ids k y n z) ->
  exists n z, ('(_, x) ← close id x; close_each ids k x) = Some (n, z) /\ closes (id :: ids) k x n z.
Proof.
  intros Hx Hlt Eg Hb Hid Hids IH. rewrite (close_idle _ _ t) by done.
  pose proof (remember_closed_recent _ _ _ Eg Hb) as Hrec. set (x1 := remember_closed id x) in *.
  destruct (remember_closed_ok id x Hx) as (H1 & Hv1 & Hn1 & _). fold x1 in H1, Hv1, Hn1.
  pose proof Eg as [Ht Etid]%get_some; [|done]. pose proof (not_busy_here _ _ _ Hx Eg Hb) as Hnb.
  assert (id ∈ map tab_id (view x1)) as Hin by (rewrite Hv1, <-Etid; by apply list_elem_of_fmap_2).
  assert (left_over (id :: ids) x = List.filter (stays ids) (without id (view x))) as Hlo by (by apply stays_without).
  assert (length (recently_closed x) <= RECENTLY_CLOSED_LIMIT)%nat as Hlen by apply Hx.
  destruct (without id (view x)) as [|u l] eqn:Ew.
  - rewrite <-Hv1 in Ew. destruct (remove_last id x1 H1 ltac:(lia) Hin Ew) as (y & -> & Hvy & Hy & Hcy & Hny).
    cbn [mbind option_bind]. rewrite close_each_gone; [|done|].
    2:{ rewrite Hvy. eapply Forall_impl; [exact Hids|]. cbn. intros i Hi [->|Hi']%elem_of_cons; [lia|].
        by apply elem_of_nil in Hi'. }
    eexists _, _. split; [done|]. unfold closes. rewrite Hlo, skips_without, Hvy, Hny, Hcy, Hrec, Hn1, <-Hv1, Ew by done. cbn.
    split_and!; [done|done|lia|done|]. rewrite (closed_paths_gone x id ids); [|done|by rewrite <-Hv1|done].
    destruct (closed_path x id); [done|]. by rewrite app_nil_r, keep_last_short.
  - assert (without id (view x1) <> []) as Hne by (rewrite Hv1, Ew; done).
    destruct (remove_other id x1 H1 Hin Hne) as (y & -> & Hvy & Hy & Hcy & Hny & _). cbn [mbind option_bind].
    destruct (IH y Hy ltac:(lia) ltac:(by rewrite Hny, Hn1)) as (n & z & -> & Hz & Hvz & Hn & Hnz & Hcz).
    exists n, z. split; [done|]. rewrite Hv1, Ew in Hvy.
    assert (left_over ids y = left_over (id :: ids) x) as El by (unfold left_over at 1; by rewrite Hvy, Hlo).
    rewrite El, Hny, Hn1 in *. unfold closes. split_and!; [done|done| |done|].
    + rewrite skips_without, Ew, <-Hvy by done. exact Hn.
    + rewrite Hcz, Hcy, Hrec. rewrite keep_last_cons by done. cbn. do 2 f_equal.
      assert (omap (closed_path y) ids = omap (closed_path x) ids) as ->; [|by destruct (closed_path x id)].
      apply omap_ext_elem. intros i Hi. apply (closed_path_without _ _ id); [done|done|by rewrite Hvy, Ew|].
      intros ->. done.
Qed.

Lemma close_each_spec ids k x :
  tabs_ok x -> (next_id x < u64_max)%Z -> NoDup ids -> Forall (fun id => id < next_id x)%Z ids ->
  exists n y, close_each ids k x = Some (n, y) /\ closes ids k x n y.
Proof.
  revert k x. induction ids as [|id ids IH]; intros k x Hx Hlt Hnd Hids.
  { eexists _, _. split; [done|by apply closes_nil]. }
  apply NoDup_cons in Hnd as [Hid Hnd]. apply Forall_cons in Hids as [_ Hids]. cbn [close_each].
  destruct (get x id) as [t|] eqn:Eg.
  - fold (busy t). destruct (busy t) eqn:Hb.
    + destruct (IH (S k) x Hx Hlt Hnd Hids) as (n & y & -> & H). exists n, y. split; [done|]. by eapply closes_busy.
    + apply (closes_idle id ids k x t); try done. intros y Hy Hly Hiy. by apply IH.
  - destruct (IH k x Hx Hlt Hnd Hids) as (n & y & -> & H). exists n, y. split; [done|]. by apply closes_gone.
Qed.

(** ** Pins and moves *)

Lemma insert_at_perm {A : Type} i (a : A) l : insert_at i a l ≡ₚ a :: l.
Proof. unfold insert_at. rewrite <-Permutation_middle. by rewrite take_drop. Qed.

Lemma insert_at_map {A B : Type} (f : A -> B) i a l : map f (insert_at i a l) = insert_at i (f a) (map f l).
Proof. unfold insert_at. by rewrite map_app, fmap_take, map_cons, fmap_drop. Qed.

Lemma delete_map {A B : Type} (f : A -> B) i (l : list A) : map f (delete i l) = delete i (map f l).
Proof. by rewrite !delete_take_drop, !map_app, fmap_take, fmap_drop. Qed.

Lemma count_while_map {A B : Type} (f : A -> B) (p : B -> bool) l :
  count_while (fun a => p (f a)) l = count_while p (map f l).
Proof. induction l as [|a l IH]; [done|]. cbn. by rewrite IH. Qed.

Lemma count_while_split {A : Type} (p : A -> bool) a b :
  Forall (fun x => p x = true) a -> Forall (fun x => p x = false) b -> count_while p (a ++ b) = length a.
Proof.
  intros Ha Hb. induction Ha as [|x a Hx _ IH]; cbn; [|by rewrite Hx, IH].
  destruct Hb as [|y b Hy _]; [done|]. cbn. by rewrite Hy.
Qed.

Lemma count_while_le {A : Type} (p : A -> bool) l : (count_while p l <= length l)%nat.
Proof. induction l as [|a l IH]; cbn; [done|]. destruct (p a); lia. Qed.

Lemma vec_insert_some {A : Type} i (a : A) l : (i <= length l)%nat -> vec_insert i a l = Some (insert_at i a l).
Proof. intros H. unfold vec_insert. by destruct (Nat.ltb_spec (length l) i); [lia|]. Qed.

Lemma pinned_count_view x : pinned_count x = count_while pinned (view x).
Proof. unfold pinned_count, is_pinned. apply (count_while_map (state x) pinned). Qed.

(** The tab takes its place between the pinned ones and the others. *)
Lemma set_pinned_view id p x :
  tabs_ok x ->
  exists y, set_pinned id p x = Some y /\
  (y = x \/ exists i t, view x !! i = Some t /\ tab_id t = id /\ pinned t = negb p
    /\ let rest := delete i (view x) in
       view y = insert_at (count_while pinned rest) (with_pinned p t) rest
    /\ active y = active x /\ next_id y = next_id x /\ recently_closed y = recently_closed x
    /\ store y = alter (with_pinned p) (default 0%nat (tabs x !! i)) (store x)
    /\ tabs y ≡ₚ tabs x).
Proof.
  intros Hx. unfold set_pinned. destruct (position x id) as [i|] eqn:E; [|exists x; by auto].
  apply (position_spec _ _ _ Hx) in E as (o & Hi & Ho). rewrite Hi. cbn [mbind option_bind].
  destruct (Bool.eqb (is_pinned x o) p) eqn:Ep; [exists x; by auto|]. apply Bool.eqb_false_iff in Ep.
  unfold vec_remove. cbn [tabs write]. rewrite Hi. cbn [mbind option_bind]. rewrite vec_insert_some by apply count_while_le.
  eexists. split; [reflexivity|]. right.
  exists i, (state x o). split; [apply lookup_view; eauto|]. split; [done|].
  split; [unfold is_pinned in Ep; by destruct (pinned _), p|].
  assert (o < length (store x))%nat as Hlt.
  { pose proof (ok_refs _ Hx) as Hr. rewrite Forall_forall in Hr. apply Hr. by eapply list_elem_of_lookup_2. }
  pose proof (ok_tabs_nodup _ Hx) as Hnd. pose proof (delete_Permutation _ _ _ Hi) as Hperm.
  assert (o ∉ delete i (tabs x)) as Hno by (rewrite Hperm in Hnd; by apply NoDup_cons in Hnd as [? _]).
  set (x1 := set_tabs (delete i (tabs x)) (write o (with_pinned p) x)).
  assert (view x1 = delete i (view x)) as Hv1.
  { unfold view at 1. cbn. unfold view. rewrite <-delete_map. apply map_ext_in. intros o' Hin.
    apply state_write_ne. intros ->. apply Hno. by apply list_elem_of_In. }
  cbn zeta. fold x1. rewrite <-Hv1, <-pinned_count_view. split_and!; try done.
  - change (map (state (write o (with_pinned p) x)) (insert_at (pinned_count x1) o (delete i (tabs x)))
      = insert_at (pinned_count x1) (with_pinned p (state x o)) (view x1)).
    by rewrite insert_at_map, state_write_eq.
  - rewrite Hi. done.
  - change (insert_at (pinned_count x1) o (delete i (tabs x)) ≡ₚ tabs x). by rewrite insert_at_perm, <-Hperm.
Qed.

Lemma set_pinned_ok id p x :
  tabs_ok x -> exists y, set_pinned id p x = Some y /\ tabs_ok y /\ next_id y = next_id x.
Proof.
  intros Hx. destruct (set_pinned_view id p x Hx) as (y & -> & [->|(i & t & Hi & Ht & _ & Hv & Ha & Hn & Hc & Hs & Htb)]); [by eauto|].
  exists y. split_and!; [done| |done]. apply tabs_ok_view in Hx as (Hr & Hg & Hx & Hl). apply tabs_ok_view.
  rewrite Ha, Hn, Hc, Hs, length_alter, Hv. split_and!; [by rewrite Htb| |done|done].
  eapply good_view_perm; [|exact Hg]. rewrite insert_at_map, insert_at_perm.
  change (tab_id (with_pinned p t) :: map tab_id (delete i (view x))) with (map tab_id (t :: delete i (view x))).
  apply Permutation_map. by apply delete_Permutation.
Qed.

(** A tab moves within its section, or nothing moves. *)
Lemma reorder_view from to x :
  exists y, reorder from to x = Some y /\
  (y = x \/ exists t, view x !! from = Some t /\ (from < length (view x))%nat /\ (to < length (view x))%nat
    /\ ((from < pinned_count x)%nat <-> (to < pinned_count x)%nat)
    /\ view y = insert_at to t (delete from (view x))
    /\ tabs y ≡ₚ tabs x /\ store y = store x /\ active y = active x /\ next_id y = next_id x
    /\ recently_closed y = recently_closed x).
Proof.
  unfold reorder. destruct (_ || _ || _) eqn:E; [exists x; by auto|].
  apply orb_false_iff in E as [E Ene]. apply orb_false_iff in E as [E1%Nat.leb_gt E2%Nat.leb_gt].
  destruct (negb _) eqn:Ep; [exists x; by auto|]. apply negb_false_iff, Bool.eqb_prop in Ep.
  destruct (tabs x !! from) as [o|] eqn:Ho; [|apply lookup_ge_None in Ho; lia].
  unfold vec_remove. rewrite Ho. cbn [mbind option_bind]. rewrite vec_insert_some by (rewrite length_delete by eauto; lia).
  eexists. split; [reflexivity|]. right.
  exists (state x o). unfold view at 2 3. rewrite length_map. split_and!; try done.
  - apply lookup_view. eauto.
  - destruct (Nat.ltb_spec from (pinned_count x)), (Nat.ltb_spec to (pinned_count x)); try done; lia.
  - change (map (state x) (insert_at to o (delete from (tabs x))) = insert_at to (state x o) (delete from (view x))).
    by rewrite insert_at_map, delete_map.
  - change (insert_at to o (delete from (tabs x)) ≡ₚ tabs x). by rewrite insert_at_perm, <-delete_Permutation.
Qed.

Lemma reorder_ok from to x :
  tabs_ok x -> exists y, reorder from to x = Some y /\ tabs_ok y /\ next_id y = next_id x.
Proof.
  intros Hx. destruct (reorder_view from to x) as (y & -> & [->|(t & Hi & _ & _ & _ & Hv & Htb & Hs & Ha & Hn & Hc)]); [by eauto|].
  exists y. split_and!; [done| |done]. apply tabs_ok_view in Hx as (Hr & Hg & Hx & Hl). apply tabs_ok_view.
  rewrite Ha, Hn, Hc, Hs, Hv. split_and!; [by rewrite Htb| |done|done].
  eapply good_view_perm; [|exact Hg]. apply Permutation_map. rewrite insert_at_perm. by apply delete_Permutation.
Qed.

Lemma replace_active_view path x :
  tabs_ok x ->
  exists y i t, replace_active path x = Some y /\ view x !! i = Some t /\ tab_id t = active x
    /\ view y = <[i := with_path (Some path) (new_tab (active x))]> (view x)
    /\ tabs_ok y /\ next_id y = next_id x.
Proof.
  intros Hx. unfold replace_active. pose proof (ok_active _ Hx) as Ha.
  destruct (position x (active x)) as [i|] eqn:Ep; [|by apply position_none in Ep].
  apply (position_spec _ _ _ Hx) in Ep as (o & Hi & Ho). cbn. unfold vec_set. rewrite Hi. cbn.
  set (y := set_tabs _ _). exists y, i, (state x o).
  assert (view y = <[i := with_path (Some path) (new_tab (active x))]> (view x)) as Hv.
  { unfold view; cbn. rewrite list_fmap_insert. f_equal.
    - by apply (state_alloc_new x (with_path (Some path) (new_tab (active x)))).
    - apply view_alloc. apply Hx. }
  split_and!; [done|apply lookup_view; eauto|done|exact Hv| |done].
  apply tabs_ok_view in Hx as (Hr & Hg & Hn & Hl). apply tabs_ok_view. rewrite Hv. cbn. split_and!; [| |done|done].
  - rewrite length_app. cbn. apply Forall_insert; [|lia]. eapply Forall_impl; [exact Hr|]. cbn. lia.
  - eapply good_view_perm; [|exact Hg]. rewrite list_fmap_insert. cbn. rewrite list_insert_id; [done|].
    rewrite list_lookup_fmap. unfold view. rewrite list_lookup_fmap, Hi. cbn. by rewrite Ho.
Qed.

Lemma reopen_ok x :
  tabs_ok x -> (next_id x < u64_max)%Z ->
  call_keeps x (reopen_last_closed x).2.
Proof.
  intros Hx Hlt. unfold call_keeps, reopen_last_closed. destruct (last _) as [p|]; [|cbn; split; [done|lia]].
  set (x1 := set_recent _ x). assert (tabs_ok x1) as H1.
  { apply tabs_ok_view in Hx as (? & ? & ? & ?). apply tabs_ok_view. split_and!; try done. cbn.
    rewrite removelast_firstn_len, length_take. lia. }
  pose proof (open_view (Some p) x1 H1 Hlt) as H. destruct (open (Some p) x1) as [id z].
  destruct H as (_ & _ & Hz & Hn & _). cbn. cbn in Hn. split; [done|lia].
Qed.

Lemma open_ok path x :
  tabs_ok x -> (next_id x < u64_max)%Z ->
  call_keeps x (open path x).2.
Proof.
  intros Hx Hlt. pose proof (open_view path x Hx Hlt) as H. unfold call_keeps. destruct (open path x) as [id z].
  destruct H as (_ & _ & Hz & Hn & _). cbn. split; [done|lia].
Qed.

Lemma ids_below x : tabs_ok x -> Forall (fun id => id < next_id x)%Z (map tab_id (view x)).
Proof. intros Hx. apply Forall_map. eapply Forall_impl; [apply Hx|]. cbn. lia. Qed.

Lemma close_list_spec l x :
  tabs_ok x -> (next_id x < u64_max)%Z -> sublist l (map tab_id (view x)) ->
  exists n y, close_each l 0 x = Some (n, y) /\ closes l 0 x n y.
Proof.
  intros Hx Hlt Hs. apply close_each_spec; [done|done|eapply sublist_NoDup; [apply Hx|done]|].
  eapply sublist_Forall; [done|by apply ids_below].
Qed.

Lemma close_list_ok l x :
  tabs_ok x -> (next_id x < u64_max)%Z -> sublist l (map tab_id (view x)) ->
  exists y, snd <$> close_each l 0 x = Some y /\ call_keeps x y.
Proof.
  intros Hx Hlt Hs. destruct (close_list_spec l x Hx Hlt Hs) as (n & y & -> & Hy & _ & _ & Hn & _).
  exists y. split; [done|split; [done|destruct (left_over l x); lia]].
Qed.

Lemma call_ok x c : tabs_ok x -> (next_id x < u64_max)%Z -> exists y, call x c = Some y /\ call_keeps x y.
Proof.
  intros Hx Hlt. assert (forall m, (exists y, m = Some y /\ tabs_ok y /\ next_id y = next_id x) ->
    exists z, m = Some z /\ call_keeps x z) as Hsame by (intros m (y & -> & ? & E); exists y; split; [done|split; [done|lia]]).
  destruct c as [p|p|id|id| |k|a|id p|id|id|f t|o|o|o p]; cbn.
  - eexists. split; [done|by apply open_ok].
  - destruct (replace_active_view p x Hx) as (y & _ & _ & -> & _ & _ & _ & Hy & Hn). apply Hsame. eauto.
  - destruct (close_ok id x Hx Hlt) as (r & y & -> & Hy). by exists y.
  - by apply force_close_ok.
  - eexists. split; [done|by apply reopen_ok].
  - apply close_list_ok; [done|done|apply sublist_list_filter].
  - unfold close_to_right. destruct (position x a) as [i|]; [|apply Hsame; by exists x].
    apply close_list_ok; [done|done|]. apply fmap_sublist, sublist_drop.
  - apply Hsame, set_pinned_ok, Hx.
  - unfold duplicate. destruct (_ ≫= _) as [q|]; [|apply Hsame; by exists x]. eexists. split; [done|].
    pose proof (open_ok (Some q) x Hx Hlt) as H. by destruct (open (Some q) x).
  - apply Hsame. eexists. split; [done|]. unfold switch_to. destruct (position x id) eqn:E; [|done]. split; [|done].
    apply tabs_ok_view in Hx as (? & ? & ? & ?). apply tabs_ok_view. split_and!; try done.
    eapply good_view_switch; [done|]. destruct (decide (id ∈ map tab_id (view x))) as [|Hno]; [done|].
    apply position_none in Hno. congruence.
  - apply Hsame, reorder_ok, Hx.
  - apply Hsame. eexists. split_and!; [done|by apply write_ok|done].
  - apply Hsame. eexists. split_and!; [done|by apply write_ok|done].
  - apply Hsame. eexists. split_and!; [done|by apply write_ok|done].
Qed.

(** ** Snapshots *)

Lemma map_lookup_seq {A : Type} (d : A) l : map (fun o => default d (l !! o)) (seq 0 (length l)) = l.
Proof.
  induction l as [|a l IH] using rev_ind; [done|]. rewrite length_app, Nat.add_1_r, seq_S, map_app. cbn.
  rewrite list_lookup_middle by done. cbn. f_equal. rewrite <-IH at 2. apply map_ext_in. intros o [_ Ho]%in_seq.
  by rewrite lookup_app_l.
Qed.

Lemma filter_refs {A : Type} (d : A) (p : A -> bool) l :
  map (fun o => default d (l !! o)) (List.filter (fun o => p (default d (l !! o))) (seq 0 (length l))) = List.filter p l.
Proof. by rewrite <-filter_map, map_lookup_seq. Qed.

Definition partitioned (l : list TabState) : list TabState :=
  List.filter pinned l ++ List.filter (fun t => negb (pinned t)) l.

Lemma partitioned_perm l : partitioned l ≡ₚ l.
Proof.
  unfold partitioned. induction l as [|t l IH]; [done|]. cbn. destruct (pinned t); cbn; [by rewrite IH|].
  by rewrite <-Permutation_middle, IH.
Qed.

Lemma partitioned_pins l : pins_first (partitioned l).
Proof.
  exists (List.filter pinned l), (List.filter (fun t => negb (pinned t)) l). split_and!; [done|..];
    apply Forall_forall; intros t Ht; apply list_elem_of_In, filter_In in Ht as [_ Ht]; [done|by apply negb_true_iff].
Qed.

Lemma filterb_all {A : Type} (p : A -> bool) l : Forall (fun a => p a = true) l -> List.filter p l = l.
Proof. induction 1 as [|a l Ha _ IH]; [done|]. cbn. by rewrite Ha, IH. Qed.

Lemma filterb_none {A : Type} (p : A -> bool) l : Forall (fun a => p a = false) l -> List.filter p l = [].
Proof. induction 1 as [|a l Ha _ IH]; [done|]. cbn. by rewrite Ha. Qed.

Lemma partitioned_id l : pins_first l -> partitioned l = l.
Proof.
  intros (a & b & -> & Ha & Hb). unfold partitioned. rewrite !List.filter_app.
  rewrite (filterb_all pinned a), (filterb_none pinned b), (filterb_none _ a), (filterb_all _ b) by
    (done || (eapply Forall_impl; [eassumption|]; cbn; intros ? ->; done)).
  by rewrite app_nil_r.
Qed.

(** A snapshot with tabs is restored with the pinned ones in front. *)
Lemma from_snapshot_view snap :
  snap_tabs snap <> [] ->
  let y := from_snapshot snap in
  view y = partitioned (map restored (snap_tabs snap)) /\ next_id y = snap_next_id snap
  /\ recently_closed y = [] /\ Forall (fun o => o < length (store y))%nat (tabs y)
  /\ active y ∈ map tab_id (view y)
  /\ (snap_active snap ∈ map restore_id (snap_tabs snap) -> active y = snap_active snap).
Proof.
  intros Hne y. unfold y, from_snapshot. set (states := map restored (snap_tabs snap)).
  set (pins := fun o => match states !! o with Some t => pinned t | None => false end).
  set (refs := List.filter pins (seq 0 (length states)) ++ _).
  set (x := mk_tabs states refs (snap_active snap) (snap_next_id snap) []).
  assert (view x = partitioned states) as Hv.
  { unfold partitioned. rewrite <-!(filter_refs (new_tab 0)), <-map_app. unfold view. f_equal.
    unfold x, refs; cbn. f_equal; apply List.filter_ext; intros o; unfold pins; by destruct (states !! o). }
  assert (Forall (fun o => o < length states)%nat refs) as Hr.
  { apply Forall_app. split; (eapply sublist_Forall; [apply sublist_list_filter|]); apply Forall_forall;
      intros o [_ Ho]%list_elem_of_In%in_seq; lia. }
  assert (map tab_id states = map restore_id (snap_tabs snap)) as Hids by (unfold states; by rewrite map_map).
  destruct refs as [|o0 rest] eqn:Er.
  { exfalso. apply Hne. assert (states = []) as Hs; [|by apply fmap_nil_inv in Hs].
    apply Permutation_nil_r. rewrite <-(partitioned_perm states), <-Hv. done. }
  assert (forall a, view (set_active a x) = view x) as Hva by done.
  destruct (position x (snap_active snap)) as [i|] eqn:Ep.
  - split_and!; [done|done|done|done| |done].
    destruct (decide (snap_active snap ∈ map tab_id (view x))) as [|Hno]; [done|]. apply position_none in Hno. congruence.
  - apply position_none in Ep. apply Forall_cons in Hr as [H0 Hr]. destruct (lookup_lt_is_Some_2 _ _ H0) as [t0 Ht0].
    rewrite Ht0, Hva. split_and!; [done|done|done|by apply Forall_cons| |].
    + cbn. unfold view. cbn. unfold state at 1. cbn. rewrite Ht0. by left.
    + intros Hin. destruct Ep. by rewrite Hv, (partitioned_perm states), Hids.
Qed.

Lemma view_not_nil x : tabs_ok x -> view x <> [].
Proof. intros Hx E. pose proof (ok_active _ Hx) as Ha. rewrite E in Ha. by apply elem_of_nil in Ha. Qed.

Definition saved_state (t : TabState) : TabState := mk_tab (tab_id t) (archive_path t) 0 false (pinned t).

Lemma snapshot_view x :
  tabs_ok x ->
  let y := from_snapshot (snapshot x) in
  view y = partitioned (map saved_state (view x)) /\ active y = active x /\ next_id y = next_id x /\ tabs_ok y.
Proof.
  intros Hx y. destruct (from_snapshot_view (snapshot x)) as (Hv & Hn & Hc & Hr & Ha & Hact).
  { cbn. intros E%map_eq_nil. by apply (view_not_nil x). }
  fold y in Hv, Hn, Hc, Hr, Ha, Hact. cbn in Hv, Hn, Hact. rewrite map_map in Hv, Hact. cbn in Hact.
  specialize (Hact (ok_active _ Hx)). split_and!; [done|done|done|]. apply tabs_ok_view.
  rewrite Hc, Hn. split_and!; [done| |by apply Hx|cbn; lia]. eapply (good_view_perm (view x)).
  - rewrite Hv, (partitioned_perm (map saved_state (view x))), map_map. done.
  - rewrite Hact. by apply tabs_ok_view in Hx as (_ & ? & _).
Qed.

(** ** Pins *)

Lemma pins_split l : pins_first l -> exists b, l = take (count_while pinned l) l ++ b
  /\ Forall (fun t => pinned t = true) (take (count_while pinned l) l) /\ Forall (fun t => pinned t = false) b.
Proof.
  intros (a & b & -> & Ha & Hb). rewrite (count_while_split pinned a b Ha Hb), take_app_length. eauto.
Qed.

Lemma pins_insert t l : pins_first l -> pins_first (insert_at (count_while pinned l) t l).
Proof.
  intros (a & b & -> & Ha & Hb). rewrite (count_while_split pinned a b Ha Hb). unfold insert_at.
  rewrite take_app_length, drop_app_length. destruct (pinned t) eqn:Et.
  - exists (a ++ [t]), b. rewrite <-app_assoc. split_and!; [done| |done]. apply Forall_app. by repeat constructor.
  - exists a, (t :: b). by repeat constructor.
Qed.

Lemma Forall_insert_at {A : Type} (P : A -> Prop) i a l : P a -> Forall P l -> Forall P (insert_at i a l).
Proof. intros Ha Hl. rewrite insert_at_perm. by constructor. Qed.

Lemma delete_app_left {A : Type} i (a b : list A) : (i < length a)%nat -> delete i (a ++ b) = delete i a ++ b.
Proof. intros H. rewrite !delete_take_drop, take_app_le, drop_app_le by lia. by rewrite app_assoc. Qed.

Lemma delete_app_right {A : Type} i (a b : list A) :
  (length a <= i)%nat -> delete i (a ++ b) = a ++ delete (i - length a) b.
Proof.
  intros H. rewrite !delete_take_drop, take_app_ge, drop_app_ge by lia.
  replace (S i - length a)%nat with (S (i - length a)) by lia. by rewrite app_assoc.
Qed.

Lemma pins_move from to t l :
  pins_first l -> l !! from = Some t -> (to < length l)%nat ->
  ((from < count_while pinned l)%nat <-> (to < count_while pinned l)%nat) ->
  pins_first (insert_at to t (delete from l)).
Proof.
  intros (a & b & -> & Ha & Hb) Ht Hto. rewrite (count_while_split pinned a b Ha Hb). intros Hs.
  destruct (decide (from < length a)%nat) as [Hf|Hf].
  - rewrite lookup_app_l in Ht by done. rewrite delete_app_left by done.
    exists (insert_at to t (delete from a)), b. split_and!.
    + unfold insert_at. rewrite take_app_le, drop_app_le by (rewrite length_delete by (by eexists); lia).
      by rewrite <-app_assoc.
    + apply Forall_insert_at; [by eapply (Forall_lookup_1 _ _ _ _ Ha)|]. eapply sublist_Forall; [apply sublist_delete|done].
    + done.
  - rewrite lookup_app_r in Ht by lia. rewrite delete_app_right by lia.
    exists a, (insert_at (to - length a) t (delete (from - length a) b)). split_and!; [|done|].
    + unfold insert_at. rewrite take_app_ge, drop_app_ge by lia. by rewrite <-app_assoc.
    + apply Forall_insert_at; [by eapply (Forall_lookup_1 _ _ _ _ Hb)|]. eapply sublist_Forall; [apply sublist_delete|done].
Qed.

Lemma pins_same l l' : map pinned l = map pinned l' -> pins_first l -> pins_first l'.
Proof.
  intros E (a & b & -> & Ha & Hb). rewrite map_app in E. symmetry in E. apply map_eq_app in E as (a' & b' & -> & Ea & Eb).
  exists a', b'. split_and!; [done|..]; apply (Forall_map pinned (fun p => p = _)); [rewrite Ea|rewrite Eb]; by apply Forall_map.
Qed.

Lemma pins_fresh id : pins_first [new_tab id].
Proof. exists [], [new_tab id]. by repeat constructor. Qed.

Lemma pins_remove id x y :
  tabs_ok x -> (next_id x < u64_max)%Z -> pins_first (view x) -> remove id x = Some y -> pins_first (view y).
Proof.
  intros Hx Hlt Hp Hr. destruct (decide (id ∈ map tab_id (view x))) as [Hin|Hin].
  - destruct (without id (view x)) as [|t l] eqn:E.
    + destruct (remove_last id x Hx Hlt Hin E) as (z & Hz & Hv & _). simplify_eq. rewrite Hv. apply pins_fresh.
    + destruct (remove_other id x Hx Hin) as (z & Hz & Hv & _); [congruence|]. simplify_eq. rewrite Hv.
      eapply pins_first_sublist; [apply sublist_without|done].
  - apply position_none in Hin. unfold remove in Hr. rewrite Hin in Hr. by simplify_eq.
Qed.

Lemma pins_write o f x : tabs_ok x -> (forall t, pinned (f t) = pinned t) -> pins_first (view x) -> pins_first (view (write o f x)).
Proof. intros Hx Hf. apply pins_same. symmetry. apply view_write_same; [apply Hx|done]. Qed.

Lemma pins_close_each l x y :
  tabs_ok x -> (next_id x < u64_max)%Z -> sublist l (map tab_id (view x)) -> pins_first (view x) ->
  snd <$> close_each l 0 x = Some y -> pins_first (view y).
Proof.
  intros Hx Hlt Hs Hp Hc. destruct (close_list_spec l x Hx Hlt Hs) as (n & z & E & _ & Hv & _).
  rewrite E in Hc. cbn in Hc. simplify_eq. rewrite Hv.
  assert (pins_first (left_over l x)) by (eapply pins_first_sublist; [apply sublist_list_filter|done]).
  destruct (left_over l x); [apply pins_fresh|done].
Qed.

Lemma pins_open path x :
  tabs_ok x -> (next_id x < u64_max)%Z -> pins_first (view x) -> pins_first (view (open path x).2).
Proof.
  intros Hx Hlt Hp. pose proof (open_view path x Hx Hlt) as H. destruct (open path x) as [id z].
  destruct H as (_ & Hv & _). cbn. rewrite Hv. by apply pins_first_snoc.
Qed.

(** Replacing the active tab is harmless when it has no pin. *)
Definition keeps_pins (x : TabsCollection) (c : TabsCall) : Prop :=
  match c with ReplaceActive _ => pinned <$> active_state x = Some false | _ => True end.

Lemma pins_call x c y :
  tabs_ok x -> (next_id x < u64_max)%Z -> keeps_pins x c -> call x c = Some y -> pins_first (view x) ->
  pins_first (view y).
Proof.
  intros Hx Hlt Hk Hc Hp. destruct c as [p|p|id|id| |k|a|id p|id|id|f t|o|o|o p]; cbn in Hc; simplify_eq.
  - by apply pins_open.
  - destruct (replace_active_view p x Hx) as (z & i & t & E & Hi & Ht & Hv & _). simplify_eq. rewrite Hv.
    eapply pins_same; [|exact Hp]. rewrite list_fmap_insert, list_insert_id; [done|]. rewrite list_lookup_fmap, Hi. cbn.
    cbn in Hk. assert (active_state x = Some t) as E'; [|by rewrite E' in Hk].
    apply get_some; [done|]. split; [by eapply list_elem_of_lookup_2|done].
  - apply fmap_Some in Hc as ([r z] & Hc & ->). unfold close in Hc. destruct (get x id) as [t|]; [|by simplify_eq].
    destruct (0 <? _)%Z; [by simplify_eq|]. apply bind_Some in Hc as (w & Hw & Hc). simplify_eq.
    destruct (remember_closed_ok id x Hx) as (H1 & Hv & Hn & _). eapply pins_remove; [exact H1|lia|by rewrite Hv|done].
  - unfold force_close in Hc. revert Hc. set (x1 := match find x id with Some o => write o with_cancel x | None => x end).
    assert (tabs_ok x1 /\ next_id x1 = next_id x /\ pins_first (view x1)) as (H1 & E1 & Hp1).
    { unfold x1. destruct (find x id); [|done]. split_and!; [by apply write_ok|done|by apply pins_write]. }
    destruct (remember_closed_ok id x1 H1) as (H2 & Hv & Hn & _). intros Hc. eapply pins_remove; [exact H2|lia|by rewrite Hv|done].
  - unfold reopen_last_closed. destruct (last _) as [q|]; [|done]. set (x1 := set_recent _ x).
    assert (tabs_ok x1) as H1.
    { apply tabs_ok_view in Hx as (? & ? & ? & ?). apply tabs_ok_view. split_and!; try done. cbn.
      rewrite removelast_firstn_len, length_take. lia. }
    pose proof (pins_open (Some q) x1 H1 Hlt Hp) as H. by destruct (open (Some q) x1).
  - eapply pins_close_each; [done|done|apply sublist_list_filter|done|exact Hc].
  - unfold close_to_right in Hc. destruct (position x a); [|by cbn in Hc; simplify_eq].
    eapply pins_close_each; [done|done| |done|exact Hc]. apply fmap_sublist, sublist_drop.
  - destruct (set_pinned_view id p x Hx) as (z & E & [->|(i & t & Hi & Ht & _ & Hv & _)]); simplify_eq; [done|]. rewrite Hv.
    apply pins_insert. eapply pins_first_sublist; [apply sublist_delete|done].
  - unfold duplicate. destruct (_ ≫= _) as [q|]; [|done].
    pose proof (pins_open (Some q) x Hx Hlt Hp) as H. by destruct (open (Some q) x).
  - unfold switch_to. by destruct (position x id).
  - destruct (reorder_view f t x) as (z & E & [->|(u & Hi & _ & Hto & Hs & Hv & _)]); simplify_eq; [done|]. rewrite Hv.
    rewrite pinned_count_view in Hs. by apply pins_move.
  - by apply pins_write.
  - by apply pins_write.
  - by apply pins_write.
Qed.

(** ** Runs *)

Section Runs.
Context `{LawfulJson}.

(** A write of [tabs.json] that failed left the file as it was, or cut short: a text that is
    no snapshot. *)
Definition torn_write (w : WriteOutcome) (f : option str) : Prop :=
  forall rest, torn w = Some rest -> rest = f \/ forall text, rest = Some text -> tabs_of_json text = None.

(** What a window does from its first launch on, before which there is no [tabs.json]:
    calls, and launches after a shutdown that tried to write the two files or after a crash
    that did not, with the restoring of tabs switched on or off and with whatever accesses to
    the files failing. [n] counts the calls, and with [g] no call replaces a pinned tab. *)
Inductive window_run (g : bool) : nat -> TabsCollection -> Files -> Prop :=
| run_new f : tabs_file f = None -> window_run g 0 new f
| run_call n x f c y :
    window_run g n x f -> (g = true -> keeps_pins x c) -> call x c = Some y -> window_run g (S n) y f
| run_exit n x f on d :
    window_run g n x f -> torn_write (exit_tabs d) (tabs_file f) -> window_run g n x (save_tabs_on_exit on d x f)
| run_launch n x f on d :
    window_run g n x f -> window_run g n (restore_tabs_on_launch on d f new).1 f.

Lemma new_ok : tabs_ok new.
Proof.
  apply tabs_ok_view. split_and!; [repeat constructor|apply (good_view_fresh 1); lia|done|cbn; lia].
Qed.

(** A file that is a snapshot is one of a well-formed window of this run. *)
Definition own_snapshot (n : nat) (f : option str) : Prop :=
  forall text s, f = Some text -> tabs_of_json text = Some s ->
  exists x, tabs_ok x /\ s = snapshot x /\ (next_id x <= Z.of_nat n + 2)%Z.

Lemma own_snapshot_saved n x w f :
  tabs_ok x -> (next_id x <= Z.of_nat n + 2)%Z -> torn_write w f -> own_snapshot n f -> own_snapshot n (save_collection w x f).
Proof.
  intros Hx Hn Hw Hf. unfold save_collection, write_json. destruct (tabs_to_json (snapshot x)) as [text|] eqn:Ej; [|done].
  destruct (dir_made w); [|done]. destruct (torn w) as [rest|] eqn:Et.
  - destruct (Hw rest Et) as [->|Hbad]; [done|]. intros t s Ht Hs. specialize (Hbad t Ht). congruence.
  - intros t s Ht Hs. simplify_eq. apply tabs_json_read in Ej. simplify_eq. eauto.
Qed.

Lemma loaded_snapshot n r f y :
  own_snapshot n f -> load_collection r f = Some y ->
  exists x, tabs_ok x /\ y = from_snapshot (snapshot x) /\ (next_id x <= Z.of_nat n + 2)%Z.
Proof.
  intros Hf Hl. unfold load_collection, read_to_string in Hl. destruct f as [text|]; [|done]. destruct r; [|done].
  cbn in Hl. destruct (tabs_of_json text) as [s|] eqn:Es; [|done]. cbn in Hl. simplify_eq.
  destruct (Hf text s eq_refl Es) as (x & Hx & -> & Hn). eauto.
Qed.

Lemma launched on d f :
  (restore_tabs_on_launch on d f new).1 = new
  \/ exists y, load_collection (tabs_readable d) (tabs_file f) = Some y /\ (restore_tabs_on_launch on d f new).1 = y.
Proof.
  unfold restore_tabs_on_launch. destruct (negb on); [by left|]. destruct (negb _); [by left|]. destruct (negb _); [by left|].
  destruct (load_collection _ _) as [y|]; [right; by eauto|by left].
Qed.

Lemma window_run_ok g n x f :
  window_run g n x f -> (Z.of_nat n + 2 <= u64_max)%Z ->
  tabs_ok x /\ (next_id x <= Z.of_nat n + 2)%Z /\ (g = true -> pins_first (view x)) /\ own_snapshot n (tabs_file f).
Proof.
  induction 1 as [f Hf|n x f c y _ IH Hk Hc|n x f on d _ IH Hw|n x f on d _ IH]; intros Hn.
  - split_and!; [apply new_ok|cbn; lia|intros _; apply pins_fresh|]. intros t s Ht. congruence.
  - destruct IH as (Hx & Hb & Hp & Hf); [lia|]. destruct (call_ok x c Hx ltac:(lia)) as (z & E & Hz & Hnz). simplify_eq.
    split_and!; [done|lia| |]; [intros Hg; apply (pins_call x c y); auto; lia|].
    intros t s Ht Hs. destruct (Hf t s Ht Hs) as (w & ? & ? & ?). exists w. split_and!; [done|done|lia].
  - destruct IH as (Hx & Hb & Hp & Hf); [done|]. split_and!; [done..|]. unfold save_tabs_on_exit.
    destruct (negb _); [done|]. destruct (negb on); by apply own_snapshot_saved.
  - destruct IH as (Hx & Hb & Hp & Hf); [done|]. destruct (launched on d f) as [->|(y & Hy & ->)].
    + split_and!; [apply new_ok|cbn; lia|intros _; apply pins_fresh|done].
    + destruct (loaded_snapshot _ _ _ _ Hf Hy) as (w & Hw & -> & Hnw).
      destruct (snapshot_view w Hw) as (Hv & Ha & Hnx & Hy').
      split_and!; [done|lia| |done]. intros _. rewrite Hv. apply partitioned_pins.
Qed.

(** C36: Whatever is opened, closed, pinned, moved, duplicated, reopened or replaced in a
    window, with operations in flight coming and going, and however often it is shut down
    and launched again on the files it wrote itself, whatever writes and reads of them fail,
    in fewer than 2^64 - 3 steps no call panics: no index is out of bounds and no tab that is expected is missing. There
    is an active tab, ids are distinct and a new tab gets one that is not in use; at most
    ten closed archives are remembered; and the pinned tabs come first, as long as no call
    replaces a pinned tab. *)
Theorem tabs_well_formed g n x f :
  window_run g n x f -> (Z.of_nat n + 2 < u64_max)%Z ->
  is_Some (active_state x) /\ NoDup (map tab_id (view x))
  /\ (forall path, (open path x).1 ∉ map tab_id (view x))
  /\ (length (recently_closed x) <= RECENTLY_CLOSED_LIMIT)%nat
  /\ (g = true -> pins_first (view x))
  /\ (forall c, is_Some (call x c)).
Proof.
  intros Hr Hn. destruct (window_run_ok _ _ _ _ Hr) as (Hx & Hb & Hp & _); [lia|].
  split_and!; [|apply Hx| |apply Hx|done|].
  - unfold active_state. destruct (get x (active x)) eqn:E; [by eexists|]. apply get_none in E; [|done]. destruct E. apply Hx.
  - intros path Hin. cbn in Hin. pose proof (ids_below x Hx) as Hi. rewrite Forall_forall in Hi. specialize (Hi _ Hin). cbn in Hi. lia.
  - intros c. destruct (call_ok x c Hx) as (y & E & _); [lia|]. by eexists.
Qed.

(** ** Restarts *)

Lemma zip_same {A : Type} (f : A -> str) l :
  omap (fun '(a, e) => if str_eqb (f a) e then Some a else None) (combine l (map f l)) = l.
Proof. induction l as [|a l IH]; [done|]. cbn. rewrite str_eqb_refl. by rewrite IH. Qed.

Lemma session_paths x : session_entries x = map snd (archive_bearing_tabs x).
Proof.
  unfold session_entries, archive_bearing_tabs. induction (view x) as [|t l IH]; [done|]. cbn.
  destruct (archive_path t); cbn; [f_equal|]; exact IH.
Qed.

Lemma bearing_saved x y : view y = map saved_state (view x) -> archive_bearing_tabs y = archive_bearing_tabs x.
Proof.
  intros E. unfold archive_bearing_tabs. rewrite E. clear E. induction (view x) as [|t l IH]; [done|]. cbn.
  destruct (archive_path t); cbn; [f_equal|]; exact IH.
Qed.

(** The session list filters nothing when both files are of the same window. *)
Lemma resolve_same d x y text :
  view y = map saved_state (view x) -> session_to_json (session_entries x) = Some text ->
  resolve_session_restore_list d (Some text) y = archive_bearing_tabs x.
Proof.
  intros Hv Hj. apply session_json_read in Hj. unfold resolve_session_restore_list. rewrite (bearing_saved _ _ Hv).
  destruct (negb _); [done|]. unfold load_session_restore_list, read_to_string. destruct (session_readable d); [|done].
  cbn. rewrite Hj, session_paths. etransitivity; [|apply (zip_same snd (archive_bearing_tabs x))].
  apply omap_ext_elem. by intros [[i p] e] _.
Qed.

(** Writes, looks and reads that succeed. *)
Definition written_all (d : ExitDisk) : Prop :=
  exit_facade d = true /\ exit_tabs d = mk_write true None /\ exit_session d = mk_write true None.
Definition tabs_read (d : LaunchDisk) : Prop := launch_facade d = true /\ tabs_seen d = true /\ tabs_readable d = true.

(** C37: After fewer than 2^64 - 3 steps, a window whose pinned tabs come first and whose archive
    paths can be written as text is restored as it was, when the restoring of tabs is on at the shutdown and at the launch,
    the two files could be written and [tabs.json] could be read: the same tabs with their ids,
    archives and pins in the same order, the same active tab and the same next id, with no
    operation in flight; and every archive that was open is reopened in its own tab, whether
    [session.json] could be read or not. With the setting off at the launch the window stays
    as it started, and with it off at the shutdown a [session.json] that could be removed is
    gone. *)
Theorem tabs_survive_restart g n x f d l tabs_json session_json :
  window_run g n x f -> (Z.of_nat n + 2 <= u64_max)%Z -> pins_first (view x) ->
  tabs_to_json (snapshot x) = Some tabs_json -> session_to_json (session_entries x) = Some session_json ->
  (written_all d -> tabs_read l ->
   let '(y, reopened) := restore_tabs_on_launch true l (save_tabs_on_exit true d x f) new in
   map (fun t => (tab_id t, archive_path t, pinned t)) (view y) = map (fun t => (tab_id t, archive_path t, pinned t)) (view x)
   /\ Forall (fun t => in_flight_ops t = 0%Z /\ tab_cancel t = false) (view y)
   /\ active y = active x /\ next_id y = next_id x
   /\ reopened = omap (fun t => p ← archive_path t; Some (tab_id t, p)) (view x))
  /\ (forall f', restore_tabs_on_launch false l f' new = (new, []))
  /\ (exit_facade d = true -> can_remove d = true -> session_file (save_tabs_on_exit false d x f) = None).
Proof.
  intros Hr Hn Hp Hj1 Hj2. destruct (window_run_ok _ _ _ _ Hr Hn) as (Hx & _ & _). split_and!.
  2:{ done. }
  2:{ intros Hf Hc. unfold save_tabs_on_exit, clear_session_restore_list. by rewrite Hf, Hc. }
  intros (Hf & Ht & Hs) (Hlf & Hls & Hlr). destruct (snapshot_view x Hx) as (Hv & Ha & Hnx & _).
  rewrite partitioned_id in Hv by (eapply pins_same; [|exact Hp]; by rewrite map_map).
  assert (save_tabs_on_exit true d x f = mk_files (Some tabs_json) (Some session_json)) as ->.
  { unfold save_tabs_on_exit, save_collection, save_session_restore_list, write_json.
    by rewrite Hf, Ht, Hs, Hj1, Hj2. }
  unfold restore_tabs_on_launch, load_collection, read_to_string, seen. rewrite Hlf, Hls, Hlr. cbn.
  rewrite (tabs_json_read _ _ Hj1). cbn. set (y := from_snapshot (snapshot x)) in *.
  split_and!; [by rewrite Hv, map_map| |done|done|by rewrite (resolve_same l x y)].
  rewrite Hv. apply Forall_map, Forall_forall. by intros t _.
Qed.

Lemma closed_path_of x t : tabs_ok x -> t ∈ view x -> closed_path x (tab_id t) = if busy t then None else archive_path t.
Proof. intros Hx Ht. unfold closed_path. assert (get x (tab_id t) = Some t) as -> by (by apply get_some). done. Qed.

(** The paths of the tabs that go, whichever ids were asked for. *)
Lemma closed_paths x (p : TabState -> bool) l :
  tabs_ok x -> (forall t, t ∈ l -> t ∈ view x) ->
  omap (closed_path x) (map tab_id (List.filter p l)) = omap archive_path (List.filter (fun t => p t && negb (busy t)) l).
Proof.
  intros Hx. induction l as [|t l IH]; intros Hl; [done|]. assert (t ∈ view x) as Ht by (apply Hl; by left).
  specialize (IH (fun u Hu => Hl u (list_elem_of_further _ _ _ Hu))).
  cbn. destruct (p t); cbn; [|exact IH]. rewrite closed_path_of by done. destruct (busy t); cbn; [exact IH|].
  destruct (archive_path t); [f_equal|]; exact IH.
Qed.

Lemma filter_filter {A : Type} (p q : A -> bool) l : List.filter q (List.filter p l) = List.filter (fun a => q a && p a) l.
Proof. induction l as [|a l IH]; [done|]. cbn. destruct (p a), (q a) eqn:E; cbn; rewrite ?E, IH; done. Qed.

(** "Close others" leaves, in their order, the tab it was asked to
    keep, the pinned ones and those with operations in flight, or one empty tab when
    none is left; it says how many it had to leave besides the kept one, and remembers the
    closed archives in order, the last ten of them. *)
Theorem close_others_spec g n x f keep :
  window_run g n x f -> (Z.of_nat n + 2 < u64_max)%Z ->
  let left := List.filter (fun t => (tab_id t =? keep)%Z || busy t) (view x) in
  let gone := List.filter (fun t => negb (tab_id t =? keep)%Z && negb (busy t)) (view x) in
  exists skipped y, close_others keep x = Some (skipped, y)
  /\ view y = match left with [] => [new_tab (next_id x)] | _ => left end
  /\ skipped = length (List.filter (fun t => negb (tab_id t =? keep)%Z) left)
  /\ recently_closed y = keep_last (recently_closed x ++ omap archive_path gone).
Proof.
  intros Hr Hn. destruct (window_run_ok _ _ _ _ Hr) as (Hx & Hb & _); [lia|]. unfold close_others.
  set (ids := List.filter _ _). cbn zeta.
  assert (ids = map tab_id (List.filter (fun t => negb (tab_id t =? keep)%Z) (view x))) as Hids by exact (filter_map tab_id (fun id => negb (id =? keep)%Z) (view x)).
  destruct (close_list_spec ids x Hx ltac:(lia)) as (k & y & E & _ & Hv & Hk & _ & Hc); [apply sublist_list_filter|].
  assert (forall t, t ∈ view x -> bool_decide (tab_id t ∈ ids) = negb (tab_id t =? keep)%Z) as Hm.
  { intros t Ht. apply eq_true_iff_eq. rewrite bool_decide_eq_true. unfold ids. rewrite list_elem_of_In, filter_In.
    split; [naive_solver|]. intros ?. split; [|done]. apply in_map. by apply list_elem_of_In. }
  assert (left_over ids x = List.filter (fun t => (tab_id t =? keep)%Z || busy t) (view x)) as Hl.
  { apply filter_ext_elem. intros t Ht. unfold stays. by rewrite Hm, negb_involutive. }
  exists k, y. split_and!; [exact E|..].
  - rewrite Hv, Hl. by destruct (List.filter (fun t => (tab_id t =? keep)%Z || busy t) (view x)).
  - rewrite Hk, filter_filter. unfold count_if. cbn. f_equal. apply filter_ext_elem. intros t Ht. unfold skips.
    rewrite Hm by done. by destruct (tab_id t =? keep)%Z, (busy t).
  - rewrite Hc, Hids. by rewrite closed_paths.
Qed.
End Runs.

Module TabsExample.
Definition a : str := §"/games/a.zip".
Definition b : str := §"/games/b.7z".
Definition c : str := §"/games/c.rar".

(** Tabs 1, 2 and 3 with an archive each, the first two pinned, the first one active. *)
Definition three : TabsCollection :=
  default new (calls new [ReplaceActive a; Open (Some b); Open (Some c); SetPinned 1 true; SetPinned 2 true; SwitchTo 1]).

(** A text for each snapshot and each list of paths. *)
Definition tab_tuple (t : TabRestore) : Z * option (list N) * bool :=
  (restore_id t, map N_of_ascii <$> restore_path t, restore_pinned t).
Definition tuple_tab (t : Z * option (list N) * bool) : TabRestore :=
  let '(id, path, p) := t in mk_restore id (map ascii_of_N <$> path) p.

Fixpoint bits (p : positive) : str :=
  match p with xH => [] | xO p => "0"%char :: bits p | xI p => "1"%char :: bits p end.
Fixpoint unbits (s : str) : positive :=
  match s with [] => xH | a :: s => if Ascii.eqb a "0" then xO (unbits s) else xI (unbits s) end.

Lemma unbits_bits p : unbits (bits p) = p.
Proof. induction p as [p IH|p IH|]; cbn; [by rewrite IH..|done]. Qed.

Lemma ascii_list_id (l : str) : map ascii_of_N (map N_of_ascii l) = l.
Proof. rewrite map_map. rewrite <-(map_id l) at 2. apply map_ext. intros a. apply ascii_N_embedding. Qed.

#[local] Instance example_json : Json := {
  tabs_to_json s := Some (bits (encode (snap_version s, map tab_tuple (snap_tabs s), snap_active s, snap_next_id s)));
  tabs_of_json text :=
    '(v, l, a, n) ← decode (unbits text); Some (mk_snapshot v (map tuple_tab l) a n);
  session_to_json l := Some (bits (encode (map (map N_of_ascii) l)));
  session_of_json text := l ← decode (unbits text); Some (map (map ascii_of_N) l)
}.

#[local] Instance example_lawful : LawfulJson.
Proof.
  split.
  - intros [v l a n] text E. cbn in *. simplify_eq. rewrite unbits_bits, decode_encode. cbn. do 2 f_equal.
    rewrite map_map. rewrite <-(map_id l) at 2. apply map_ext. intros [id [path|] p]; cbn; [|done]. by rewrite ascii_list_id.
  - intros l text E. cbn in *. simplify_eq. rewrite unbits_bits, decode_encode. cbn. f_equal.
    rewrite map_map. rewrite <-(map_id l) at 2. apply map_ext. apply ascii_list_id.
Qed.

Definition no_files : Files := mk_files None None.

Lemma run_calls g n x f cs y :
  window_run g n x f -> g = false -> calls x cs = Some y -> window_run g (n + length cs) y f.
Proof.
  intros Hr Hg. revert n x Hr. induction cs as [|k cs IH]; intros n x Hr Hc; cbn in Hc.
  - injection Hc as <-. by rewrite Nat.add_0_r.
  - destruct (call x k) as [z|] eqn:E; [|done]. cbn in *. rewrite Nat.add_succ_r. apply (IH (S n) z); [|done].
    eapply run_call; [done| |done]. by rewrite Hg.
Qed.

Lemma three_run : window_run false 6 three no_files.
Proof. apply (run_calls false 0 new no_files [ReplaceActive a; Open (Some b); Open (Some c); SetPinned 1 true; SetPinned 2 true; SwitchTo 1]); [by apply run_new|done|by vm_compute]. Qed.

(** Of the three tabs, the move of the last one within its section is allowed and one
    past the end is refused, both without a panic. *)
Lemma tabs_well_formed_witness :
  is_Some (active_state three) /\ map tab_id (view three) = [1; 2; 3]%Z
  /\ is_Some (call three (Reorder 1 0)) /\ is_Some (call three (Reorder 7 9)).
Proof.
  pose proof (tabs_well_formed false 6 three no_files three_run ltac:(by vm_compute)) as (Ha & _ & _ & _ & _ & Hc).
  split; [exact Ha|]. split; [by vm_compute|]. split; apply Hc.
Defined.

(** On a collection whose active tab is gone there are calls that panic. *)
Example panics_without_active : call (set_active 9 three) (ReplaceActive a) = None.
Proof. by vm_compute. Qed.

Definition good_exit : ExitDisk := mk_exit true (mk_write true None) (mk_write true None) true.
Definition good_launch : LaunchDisk := mk_launch true true true true true.

Lemma three_pins : pins_first (view three).
Proof.
  exists (take 2 (view three)), (drop 2 (view three)). split; [by vm_compute|].
  split; apply (bool_decide_unpack _); by vm_compute.
Qed.

Lemma tabs_survive_restart_witness :
  (restore_tabs_on_launch true good_launch (save_tabs_on_exit true good_exit three no_files) new).2
  = [(1%Z, a); (2%Z, b); (3%Z, c)].
Proof.
  destruct (tabs_survive_restart false 6 three no_files good_exit good_launch _ _ three_run ltac:(by vm_compute)
    three_pins eq_refl eq_refl) as (Hr & _).
  specialize (Hr (conj eq_refl (conj eq_refl eq_refl)) (conj eq_refl (conj eq_refl eq_refl))).
  destruct (restore_tabs_on_launch true good_launch _ new) as [y l]. destruct Hr as (_ & _ & _ & _ & ->). by vm_compute.
Defined.

Lemma close_others_spec_witness : exists y, close_others 3 three = Some (2%nat, y) /\ map tab_id (view y) = [1; 2; 3]%Z.
Proof.
  destruct (close_others_spec false 6 three no_files 3 three_run) as (k & y & E & Hv & Hk & _); [by vm_compute|].
  exists y. rewrite E, Hv, Hk. split; by vm_compute.
Defined.

(** Replacing the archive of a pinned tab breaks what the
    restart relies on. The first of two pinned tabs is given another archive: the
    tab that takes its place has no pin, so it is an unpinned tab before a pinned one;
    the next launch moves the pinned tab to the front, finds the two files in
    disagreement at both places and reopens only the third archive. *)
Theorem replaced_pin_loses_archives :
  exists x, call three (ReplaceActive c) = Some x
  /\ map (fun t => (tab_id t, archive_path t, pinned t)) (view x)
     = [(1%Z, Some c, false); (2%Z, Some b, true); (3%Z, Some c, false)]
  /\ ~ pins_first (view x)
  /\ (restore_tabs_on_launch true good_launch (save_tabs_on_exit true good_exit x no_files) new).2 = [(3%Z, c)].
Proof.
  eexists. split; [reflexivity|]. split; [by vm_compute|]. split; [|by vm_compute].
  intros (p & q & E & Hp & Hq). vm_compute in E. destruct p as [|t1 p]; cbn in E.
  - subst q. apply Forall_cons in Hq as [_ [Hq _]%Forall_cons]. done.
  - injection E as <- _. apply Forall_cons in Hp as [Hp _]. done.
Qed.

(** Ids in a snapshot that was edited by hand may be given out again. *)
Example restored_ids_collide :
  let x := from_snapshot (mk_snapshot 1 [mk_restore 5 None false] 5 5) in
  map tab_id (view (open None x).2) = [5; 5]%Z.
Proof. by vm_compute. Qed.
End TabsExample.
