(* ===== verification/Listing.v ===== *)
(** What a tab browses: the cursor in its archive, the listing request behind it
    and the state of that request ([crates/ui/src/core/tabs/listing.rs]), the rows of
    the whole archive ([inventory.rs]) and the rows of the folder on screen, which are
    scoped out of them ([core/operations/browser_rows.rs]); and the cursor that the
    first replaced ([crates/core/src/archive/navigation.rs]).

    A method that changes [self] is a function to the new value, with what it
    reports before it. A [Vec] used as a stack has its top last, as in the source. *)

From stdpp Require Import base tactics option list gmap sorting strings.
From Stdlib Require Import ZArith Lia.
From S2P Require Import Prelude Text AppError Archive EntryIndex EntryIndexProps ArchiveSession.

Open Scope arclain_scope.

(** * The cursor *)

Definition normalize_fragment (path : str) : str :=
  join §"/" (List.filter (fun segment => negb (str_eqb segment [])) (split_on is_separator path)).

(** [parent_of] of [listing.rs], with its fallback to the root. *)
Definition parent_directory (path : str) : str :=
  match archive_path_parse
          (match rfind_char is_slash path with Some position => take position path | None => [] end) with
  | Ok parent => parent
  | Err _ => root
  end.

(** [Vec::pop]. *)
Definition pop {A : Type} (l : list A) : option (A * list A) :=
  match last l with
  | Some x => Some (x, take (length l - 1) l)
  | None => None
  end.

Definition is_empty (s : str) : bool := str_eqb s [].

Record ArchiveNavigation := mk_nav {
  nav_current : str;
  nav_back : list str;
  nav_forward : list str
}.

Definition nav_default : ArchiveNavigation := mk_nav root [] [].

Definition push_history (n : ArchiveNavigation) : ArchiveNavigation :=
  if is_empty (nav_current n) then n
  else mk_nav (nav_current n) (nav_back n ++ [nav_current n]) (nav_forward n).

(** [self.push_history(); self.current = next; self.forward.clear()]. *)
Definition move_to (next : str) (n : ArchiveNavigation) : ArchiveNavigation :=
  mk_nav next (nav_back (push_history n)) [].

Definition nav_descend (folder : str) (n : ArchiveNavigation) : bool * ArchiveNavigation :=
  let segment := normalize_fragment folder in
  if is_empty segment then (false, n)
  else
    let joined := if is_empty (nav_current n) then segment else nav_current n ++ §"/" ++ segment in
    match archive_path_parse joined with
    | Err _ => (false, n)
    | Ok next => (true, move_to next n)
    end.

Definition go_to_directory (directory : str) (n : ArchiveNavigation) : bool * ArchiveNavigation :=
  if str_eqb directory (nav_current n) then (false, n) else (true, move_to directory n).

Definition nav_go_to (path : str) (n : ArchiveNavigation) : bool * ArchiveNavigation :=
  match archive_path_parse (normalize_fragment path) with
  | Err _ => (false, n)
  | Ok next => go_to_directory next n
  end.

Definition nav_go_back (n : ArchiveNavigation) : bool * ArchiveNavigation :=
  match pop (nav_back n) with
  | Some (previous, rest) => (true, mk_nav previous rest (nav_forward n ++ [nav_current n]))
  | None =>
      if is_empty (nav_current n) then (false, n)
      else (true, mk_nav root (nav_back n) (nav_forward n ++ [nav_current n]))
  end.

Definition nav_go_forward (n : ArchiveNavigation) : bool * ArchiveNavigation :=
  match pop (nav_forward n) with
  | None => (false, n)
  | Some (next, rest) => (true, mk_nav next (nav_back n ++ [nav_current n]) rest)
  end.

Definition nav_up (n : ArchiveNavigation) : bool * ArchiveNavigation :=
  if is_empty (nav_current n) then (false, n)
  else (true, mk_nav (parent_directory (nav_current n)) (nav_back n ++ [nav_current n]) []).

Definition can_go_back (n : ArchiveNavigation) : bool :=
  negb (bool_decide (nav_back n = [])) || negb (is_empty (nav_current n)).
Definition can_go_forward (n : ArchiveNavigation) : bool := negb (bool_decide (nav_forward n = [])).
Definition can_go_up (n : ArchiveNavigation) : bool := negb (is_empty (nav_current n)).

(** * The cursor it replaced ([core/src/archive/navigation.rs]) *)

Record NavigationState := mk_state {
  current_path : str;
  path_stack : list str;
  forward_stack : list str
}.

Definition navigation_new : NavigationState := mk_state [] [] [].

Definition normalize_path (path : str) : str :=
  join §"/" (List.filter (fun segment => negb (str_eqb segment [])) (split_on is_separator path)).

Definition navigate_to (folder : str) (n : NavigationState) : NavigationState :=
  let segment := normalize_path folder in
  if is_empty segment then n
  else
    let current := normalize_path (current_path n) in
    mk_state (if is_empty current then segment else current ++ §"/" ++ segment)
      (if is_empty current then path_stack n else path_stack n ++ [current]) [].

Definition navigate_to_absolute (path : str) (n : NavigationState) : NavigationState :=
  let new_path := normalize_path path in
  if str_eqb new_path (current_path n) then n
  else mk_state new_path
         (if is_empty (current_path n) then path_stack n else path_stack n ++ [current_path n]) [].

Definition navigate_back (n : NavigationState) : bool * NavigationState :=
  match pop (path_stack n) with
  | Some (prev, rest) => (true, mk_state prev rest (forward_stack n ++ [current_path n]))
  | None =>
      if is_empty (current_path n) then (false, n)
      else (true, mk_state [] (path_stack n) (forward_stack n ++ [current_path n]))
  end.

Definition navigate_forward (n : NavigationState) : bool * NavigationState :=
  match pop (forward_stack n) with
  | Some (next, rest) => (true, mk_state next (path_stack n ++ [current_path n]) rest)
  | None => (false, n)
  end.

Definition navigate_up (n : NavigationState) : bool * NavigationState :=
  if is_empty (current_path n) then (false, n)
  else match rfind_char is_slash (current_path n) with
       | Some pos => (true, mk_state (take pos (current_path n)) (path_stack n ++ [current_path n]) [])
       | None => (true, mk_state [] (path_stack n ++ [current_path n]) [])
       end.

(** * The listing of a tab *)

Inductive RequestStatus :=
| Unlisted | Loading | Listed | Refreshing
| Unlistable (error : ApplicationError) | Stale (error : ApplicationError).

Definition contents_known (s : RequestStatus) : bool :=
  match s with
  | Unlisted | Loading | Unlistable _ => false
  | Listed | Refreshing | Stale _ => true
  end.

Record TabListing := mk_listing {
  session : option Z;
  navigation : ArchiveNavigation;
  request : ListEntriesRequest;
  status : RequestStatus;
  generation : Z
}.

Definition for_session (s : option Z) : TabListing :=
  mk_listing s nav_default (whole_directory root) Unlisted 0.

Definition set_status (s : RequestStatus) (l : TabListing) : TabListing :=
  mk_listing (session l) (navigation l) (request l) s (generation l).

Definition is_unlisted (l : TabListing) : bool :=
  match status l with Unlisted => true | _ => false end.

Definition failure (l : TabListing) : option ApplicationError :=
  match status l with
  | Unlistable e | Stale e => Some e
  | Unlisted | Loading | Listed | Refreshing => None
  end.

Definition is_loading (l : TabListing) : bool :=
  match status l with Loading | Refreshing => true | _ => false end.

Definition begin_loading (l : TabListing) : Z * TabListing :=
  let generation := wrapping_add (generation l) 1 in
  (generation,
   mk_listing (session l) (navigation l) (request l)
     (if contents_known (status l) then Refreshing else Loading) generation).

Definition answers_current_request (g : Z) (session_id : Z) (dir : str) (l : TabListing) : bool :=
  (g =? generation l)%Z && bool_decide (session l = Some session_id)
  && str_eqb dir (directory (request l)).

Definition succeed (g session_id : Z) (dir : str) (l : TabListing) : bool * TabListing :=
  if negb (answers_current_request g session_id dir l) then (false, l)
  else (true, set_status Listed l).

Definition fail (g session_id : Z) (dir : str) (error : ApplicationError) (l : TabListing)
  : bool * TabListing :=
  if negb (answers_current_request g session_id dir l) then (false, l)
  else (true, set_status (if contents_known (status l) then Stale error else Unlistable error) l).

Definition fail_unlisted (error : ApplicationError) (l : TabListing) : bool * TabListing :=
  if negb (is_unlisted l) then (false, l) else (true, set_status (Unlistable error) l).

(** [navigated]: [request.offset] goes back to the first row. *)
Definition navigated (navigate : ArchiveNavigation -> bool * ArchiveNavigation) (l : TabListing)
  : bool * TabListing :=
  let '(moved, n) := navigate (navigation l) in
  if negb moved then (false, l)
  else
    let r := request l in
    (true,
     mk_listing (session l) n
       (mk_request (nav_current n) (sort_key r) (sort_direction r) (name_filter r) 0 (limit r))
       (if contents_known (status l) then Listed else Unlisted)
       (wrapping_add (generation l) 1)).

(** The moves of the toolbar, the breadcrumb and the tree. *)
Inductive Move := Descend (folder : str) | GoTo (path : str) | Back | Forward | Up.

Definition navigate (m : Move) : ArchiveNavigation -> bool * ArchiveNavigation :=
  match m with
  | Descend folder => nav_descend folder
  | GoTo path => nav_go_to path
  | Back => nav_go_back
  | Forward => nav_go_forward
  | Up => nav_up
  end.

(** [descend], [go_to], [back], [forward] and [up]. *)
Definition move (m : Move) (l : TabListing) : bool * TabListing := navigated (navigate m) l.

(** * The rows of the whole archive ([inventory.rs]) *)

Record AdoptedInventory := mk_adopted {
  ad_session_id : Z;
  ad_revision : Z;
  ad_entries : list ArchiveEntryDto;
  ad_entry_paths : list str
}.

(** Of an answer [(session_id, revision, entries)] of [list_all_entries]. *)
Definition prepare (inventory : Z * Z * list ArchiveEntryDto) : AdoptedInventory :=
  let '(session_id, revision, entries) := inventory in
  mk_adopted session_id revision entries (map dto_path entries).

Record TabInventory := mk_inventory {
  inv_session : option Z;
  inv_rows : option AdoptedInventory
}.

Definition inventory_for_session (s : option Z) : TabInventory := mk_inventory s None.

Definition inventory_revision (i : TabInventory) : option Z := ad_revision <$> inv_rows i.

Definition inventory_entries (i : TabInventory) : list ArchiveEntryDto :=
  match inv_rows i with Some rows => ad_entries rows | None => [] end.

Definition inventory_entry_paths (i : TabInventory) : list str :=
  match inv_rows i with Some rows => ad_entry_paths rows | None => [] end.

Definition adopt (prepared : AdoptedInventory) (i : TabInventory) : bool * TabInventory :=
  if negb (bool_decide (inv_session i = Some (ad_session_id prepared))) then (false, i)
  else match inv_rows i with
       | Some held =>
           if (ad_revision prepared <? ad_revision held)%Z then (false, i)
           else (true, mk_inventory (inv_session i) (Some prepared))
       | None => (true, mk_inventory (inv_session i) (Some prepared))
       end.

(** * The rows of one folder ([browser_rows.rs]) *)

(** [parent_of] of [browser_rows.rs]. *)
Definition row_parent (path : str) : str :=
  match rfind_char is_slash path with Some position => take position path | None => [] end.

(** The entries that [rows_in_directory] turns into rows of the file list. *)
Definition scoped (entries : list ArchiveEntryDto) (dir : str) : list ArchiveEntryDto :=
  List.filter (fun e => str_eqb (row_parent (dto_path e)) dir) entries.

Definition folder_paths (entries : list ArchiveEntryDto) : list str :=
  merge_sort str_le (map dto_path (List.filter is_directory entries)).
