(* ===== verification/ListingProps.v ===== *)
(** What a tab shows of its archive: the cursor against the one it replaced, the
    listing request against the requests that were made, the adopted rows against
    the order the answers came in, and the folder on screen against the session's own
    listing of it. *)

From stdpp Require Import base tactics option list gmap sorting strings.
From Stdlib Require Import ZArith Lia Ascii.
From S2P Require Import Prelude Text AppError Archive EntryIndex EntryIndexProps ArchiveSession ArchiveMutation Listing.

Open Scope arclain_scope.

(** * The folder on screen is the session's listing of it *)

Section scoping.
Context `{UT : UnicodeTables} `{CF : Crc32Fast}.

(** The rows of [l] in the folder [p]. *)
Local Notation in_folder p := (List.filter (fun e : ArchiveEntryDto => str_eqb (row_parent (dto_path e)) p)).

Lemma row_parent_of p : row_parent p = parent_of p.
Proof. done. Qed.

Lemma in_folder_all p l : (forall d, d ∈ l -> parent_of (dto_path d) = p) -> in_folder p l = l.
Proof.
  induction l as [|d l IH]; [done|]. intros H. cbn [List.filter]. rewrite row_parent_of.
  rewrite (proj2 (str_eqb_eq _ _)) by (apply H; left). f_equal. apply IH. intros e He. apply H. by right.
Qed.

Lemma in_folder_none p l : (forall d, d ∈ l -> parent_of (dto_path d) <> p) -> in_folder p l = [].
Proof.
  induction l as [|d l IH]; [done|]. intros H. cbn [List.filter]. rewrite row_parent_of.
  destruct (str_eqb _ p) eqn:E; [apply str_eqb_eq in E; destruct (H d); [left|done]|].
  apply IH. intros e He. apply H. by right.
Qed.

Context (ix : EntryIndex) (Hok : tree_ok ix).

(** The folder [p] has been visited. *)
Definition folder_open (v : list ArchiveEntryDto) (p : str) : Prop :=
  p = [] \/ exists d, d ∈ v /\ dto_kind d = Directory /\ dto_path d = p.

Lemma open_of_row v d : EntryIndexProps.opened v d <-> folder_open v (parent_of (dto_path d)).
Proof. done. Qed.

Lemma child_rows p d : d ∈ omap (get ix) (children_of ix p) -> parent_of (dto_path d) = p.
Proof. intros (i & (e & He & Hp)%(tree_children _ Hok) & Hd)%list_elem_of_omap. by simplify_eq. Qed.

Lemma closed_no_children v p : walk_inv ix v [] -> ~ folder_open v p -> children_of ix p = [].
Proof.
  intros Hinv Hno. destruct (children_of ix p) as [|i l] eqn:E; [done|]. exfalso. apply Hno.
  assert (i ∈ children_of ix p) as (d & Hd & Hp)%(tree_children _ Hok) by (rewrite E; left).
  destruct (decide (p = [])) as [|Hne]; [by left|right].
  destruct (tree_parent _ Hok i d Hd) as (j & q & Hq & Hk & Hqp); [by rewrite Hp|].
  exists q. split_and!; [|done|congruence]. by eapply walk_inv_all.
Qed.

(** What is left of the walk, restricted to one folder: its rows on the stack when
    the folder has been visited, all of them otherwise. *)
Lemma walk_scoped p fuel v stack l :
  walk_inv ix v stack -> walk fuel ix stack = Some l ->
  (folder_open v p -> in_folder p l = in_folder p (omap (get ix) stack))
  /\ (~ folder_open v p -> in_folder p l = omap (get ix) (children_of ix p)).
Proof.
  revert v stack l; induction fuel as [|fuel IH]; intros v stack l Hinv Hw.
  { destruct stack; [|done]. injection Hw as <-. split; [done|]. intros Hno.
    by rewrite (closed_no_children _ _ Hinv Hno). }
  destruct stack as [|i stack]; [injection Hw as <-; split; [done|]; intros Hno;
    by rewrite (closed_no_children _ _ Hinv Hno)|].
  destruct (wi_rows _ _ _ Hinv i) as [d Hd]; [apply elem_of_app; right; left|].
  cbn [walk] in Hw. rewrite Hd in Hw. cbn [omap list_omap]. rewrite Hd.
  set (kids := if is_directory d then children_of ix (dto_path d) else []) in *.
  destruct (walk fuel ix (kids ++ stack)) as [l'|] eqn:Hw'; [|done]. injection Hw as <-.
  destruct (IH _ _ _ (walk_inv_step _ Hok _ _ _ _ Hinv Hd) Hw') as [IHo IHc].
  assert (forall q, folder_open (v ++ [d]) q <-> folder_open v q \/ dto_kind d = Directory /\ dto_path d = q) as Hopen.
  { intros q. unfold folder_open. setoid_rewrite elem_of_app. setoid_rewrite list_elem_of_singleton. naive_solver. }
  assert (folder_open v (parent_of (dto_path d))) as Hpd by (apply open_of_row; eapply (wi_stack _ _ _ Hinv); [left|done]).
  assert (forall e, e ∈ omap (get ix) kids -> dto_kind d = Directory /\ parent_of (dto_path e) = dto_path d) as Hkids.
  { intros e He. subst kids. unfold is_directory in He. case_bool_decide as Hk; [|by apply elem_of_nil in He].
    split; [done|]. by apply child_rows. }
  assert (dto_kind d = Directory -> ~ folder_open v (dto_path d)) as Hfresh.
  { intros Hk [H|(e & He & Hek & Hep)]; [by eapply (tree_nonempty _ Hok)|].
    assert (dto_id e = i) as Hi.
    { eapply (tree_folder _ Hok); [by apply (wi_visited _ _ _ Hinv)|exact Hd|done..]. }
    pose proof (wi_nodup _ _ _ Hinv) as Hnd. apply NoDup_app in Hnd as (_ & Hdis & _).
    apply (Hdis i); [|left]. rewrite <-Hi. by apply list_elem_of_In, in_map, list_elem_of_In. }
  split.
  - intros Ho. cbn [List.filter]. rewrite IHo by (apply Hopen; by left).
    rewrite omap_app, List.filter_app, (in_folder_none p (omap (get ix) kids)); [done|].
    intros e [Hk He]%Hkids Hp. apply Hfresh in Hk. rewrite He in Hp. by rewrite Hp in Hk.
  - intros Hno. cbn [List.filter]. rewrite row_parent_of.
    destruct (str_eqb (parent_of (dto_path d)) p) eqn:E; [apply str_eqb_eq in E; by rewrite E in Hpd|].
    destruct (decide (dto_kind d = Directory /\ dto_path d = p)) as [[Hk Hp]|Hnp].
    + rewrite IHo by (apply Hopen; by right). rewrite omap_app, List.filter_app.
      rewrite (in_folder_none p (omap (get ix) stack)).
      * rewrite app_nil_r. subst kids. unfold is_directory. rewrite bool_decide_true, Hp by done.
        apply in_folder_all. intros e. by apply child_rows.
      * intros e (j & Hj & He)%list_elem_of_omap Hep. apply Hno. rewrite <-Hep. apply open_of_row.
        eapply (wi_stack _ _ _ Hinv); [by right|done].
    + apply IHc. rewrite Hopen. naive_solver.
Qed.

Lemma all_entries_scoped l p :
  all_entries ix = Some l -> scoped l p = omap (get ix) (children_of ix p).
Proof.
  intros Hl. unfold all_entries in Hl.
  destruct (walk_scoped p _ _ _ _ (walk_start _ Hok) Hl) as [Ho Hc]. unfold scoped.
  destruct (decide (p = [])) as [->|Hne].
  - rewrite Ho by by left. apply in_folder_all. intros d. apply child_rows.
  - apply Hc. intros [H|(d & H & _)]; [done|]. by apply elem_of_nil in H.
Qed.
End scoping.

(** ** Checksums apart, the index of a listing *)

Section rows.
Context `{UT : UnicodeTables} `{CF : Crc32Fast}.

Lemma stable_sort_id {A : Type} (R : relation A) `{!RelDecision R} l :
  StronglySorted R l -> stable_sort R l = l.
Proof.
  induction 1 as [|x l Hl IH Hx]; [done|]. cbn [stable_sort foldr]. fold (stable_sort R l). rewrite IH.
  destruct l as [|y l]; [done|]. cbn. apply Forall_cons in Hx as [Hx _]. by rewrite decide_True.
Qed.

Lemma length_omap_le {A B : Type} (f : A -> option B) l : (length (omap f l) <= length l)%nat.
Proof. induction l as [|x l IH]; [done|]. cbn. destruct (f x); cbn; unfold omap in *; lia. Qed.

Lemma with_crc_fields d e :
  with_crc32 d None = with_crc32 e None ->
  dto_id d = dto_id e /\ dto_path d = dto_path e /\ dto_name d = dto_name e /\ dto_kind d = dto_kind e.
Proof. destruct d, e. cbn. intros [=]. by subst. Qed.

Section same.
Context (ix iy : EntryIndex) (Hs : same_rows ix iy).

Lemma same_get i d : get iy i = Some d ->
  exists e, get ix i = Some e /\ with_crc32 e None = with_crc32 d None.
Proof.
  destruct Hs as (Hb & _). intros Hd.
  assert ((fun d => with_crc32 d None) <$> get iy i = (fun d => with_crc32 d None) <$> get ix i) as E.
  { unfold get. by rewrite <-!lookup_fmap, Hb. }
  rewrite Hd in E. cbn in E. destruct (get ix i) as [e|]; [|done].
  apply (inj Some) in E. by exists e.
Qed.

Lemma same_name_key i : name_key (by_id iy) i = name_key (by_id ix) i.
Proof.
  destruct Hs as (Hb & _). apply (f_equal (lookup i)) in Hb. rewrite !lookup_fmap in Hb. unfold name_key.
  destruct (by_id ix !! i), (by_id iy !! i); simplify_eq/=; [|done]. congruence.
Qed.

Lemma same_children p : children_of ix p = children_of iy p.
Proof. destruct Hs as (_ & _ & Hc & _). unfold children_of. by rewrite Hc. Qed.
End same.

Lemma same_rows_sym ix iy : same_rows ix iy -> same_rows iy ix.
Proof. unfold same_rows. intuition congruence. Qed.

Lemma tree_ok_same ix iy : same_rows ix iy -> tree_ok ix -> tree_ok iy.
Proof.
  intros Hs Hok. pose proof (same_rows_sym _ _ Hs) as Hr. split.
  - intros i d (e & He & (<- & _)%with_crc_fields)%(same_get _ _ Hs). by apply (tree_id _ Hok).
  - intros i d (e & He & (_ & <- & _)%with_crc_fields)%(same_get _ _ Hs). by eapply (tree_nonempty _ Hok).
  - intros i d (e & He & (_ & <- & _)%with_crc_fields)%(same_get _ _ Hs) Hne.
    destruct (tree_parent _ Hok _ _ He Hne) as (j & p & (q & Hq & (_ & Ep & _ & Ek)%with_crc_fields)%(same_get _ _ Hr) & Hk & Hp).
    exists j, q. split_and!; [done|congruence..].
  - intros i j d e (d' & Hd & (_ & <- & _ & <-)%with_crc_fields)%(same_get _ _ Hs)
      (e' & He & (_ & <- & _ & <-)%with_crc_fields)%(same_get _ _ Hs). by eapply (tree_folder _ Hok).
  - intros p i. rewrite <-(same_children _ _ Hs), (tree_children _ Hok). split.
    + intros (d & (e & He & (_ & E & _)%with_crc_fields)%(same_get _ _ Hr) & Hp). exists e. by rewrite E.
    + intros (d & (e & He & (_ & E & _)%with_crc_fields)%(same_get _ _ Hs) & Hp). exists e. by rewrite E.
  - intros p. rewrite <-(same_children _ _ Hs). apply (tree_children_nodup _ Hok).
  - intros p. rewrite <-(same_children _ _ Hs).
    apply (StronglySorted_mono (name_le (by_id ix))); [|apply (tree_ordered _ Hok)].
    intros i j. unfold name_le. by rewrite !(same_name_key _ _ Hs).
Qed.

(** The children of a folder are in name order. *)
Lemma children_sorted es a ix p :
  assigner_ok a -> same_rows (build es a).1 ix ->
  StronglySorted (key_le KeyName) (omap (get ix) (children_of ix p)).
Proof.
  intros Ha Hs. destruct (build es a) as [ix0 a'] eqn:Hb.
  by apply children_by_name, (tree_ok_same _ _ Hs), (built_tree _ _ _ _ Ha Hb).
Qed.

Lemma whole_directory_rows {Json : Type} (s : ArchiveSession (Json := Json)) es a dir :
  assigner_ok a -> same_rows (build es a).1 (entry_index s) ->
  (Z.of_nat (length (children_of (entry_index s) dir)) <= u32_max)%Z ->
  page_entries (list_entries s (whole_directory dir))
  = omap (get (entry_index s)) (children_of (entry_index s) dir).
Proof.
  intros Ha Hs Hn. unfold list_entries, ordered, matching, filter_needle, whole_directory.
  cbn [page_entries name_filter sort_direction sort_key directory limit offset fmap option_fmap option_map].
  rewrite decide_False by done. set (rows := omap _ _) in *.
  assert (List.filter (name_matches None) rows = rows) as ->.
  { clear. induction rows as [|d l IH]; [done|]. cbn [List.filter name_matches]. by rewrite IH. }
  rewrite stable_sort_id by by eapply children_sorted.
  rewrite drop_0. apply take_ge.
  pose proof (length_omap_le (get (entry_index s)) (children_of (entry_index s) dir)) as Hle.
  change (omap _ _) with rows in Hle. rewrite <-(Nat2Z.id (length rows)). apply Z2Nat.inj_le; unfold u32_max in *; lia.
Qed.
End rows.

(** * The cursor and the one it replaced *)

(** What both cursors make of a path: segments without separators, none empty. *)
Definition normal (p : str) : Prop :=
  exists ws, p = join §"/" ws
    /\ Forall (fun w => w <> [] /\ Forall (fun c => is_separator c = false) w) ws.

Lemma separator_split c : is_separator c = false <-> is_slash c = false /\ is_backslash c = false.
Proof. unfold is_separator. by rewrite orb_false_iff. Qed.

Lemma normalize_normal p : normal (normalize_fragment p).
Proof.
  eexists. split; [done|]. apply Forall_forall. intros w Hw.
  apply list_elem_of_In, filter_In in Hw as [Hin Hne]. split.
  - intros ->. done.
  - pose proof (split_on_free is_separator p) as H. rewrite Forall_forall in H.
    by apply H, list_elem_of_In.
Qed.

Lemma normal_nil : normal [].
Proof. by exists []. Qed.

Lemma normalize_id p : normal p -> normalize_fragment p = p.
Proof.
  intros (ws & -> & Hws). destruct ws as [|w ws]; [done|]. unfold normalize_fragment.
  change §"/" with ["/"%char]. rewrite split_join; [|done..|].
  - f_equal. induction Hws as [|v vs [Hv _] Hvs IH]; [done|]. cbn [List.filter].
    unfold str_eqb at 1. rewrite bool_decide_false by done. cbn [negb]. by rewrite IH.
  - eapply Forall_impl; [exact Hws|]. by intros v [_ Hv].
Qed.

Lemma normal_slashes p : normal p -> slashes p = p.
Proof.
  intros (ws & -> & Hws). apply slashes_id, Forall_join; [by repeat constructor|].
  eapply Forall_impl; [exact Hws|]. intros w [_ Hw]. eapply Forall_impl; [exact Hw|].
  by intros c [_ H]%separator_split.
Qed.

Lemma join_app sep ws vs : ws <> [] -> vs <> [] -> join sep (ws ++ vs) = join sep ws ++ sep ++ join sep vs.
Proof.
  intros Hw Hv. induction ws as [|w ws IH]; [done|]. destruct ws as [|w' ws].
  - cbn [app]. by rewrite join_cons.
  - cbn [app] in *. rewrite !(join_cons _ w) by done. rewrite IH by done. by rewrite <-!app_assoc.
Qed.

Lemma normal_app p q : normal p -> normal q -> p <> [] -> q <> [] -> normal (p ++ §"/" ++ q).
Proof.
  intros (ws & -> & Hw) (vs & -> & Hv) Hp Hq. exists (ws ++ vs). split; [|by apply Forall_app].
  rewrite join_app; [done|..]; by intros ->.
Qed.

Lemma normal_parent p : normal p -> normal (parent_of p).
Proof.
  intros (ws & -> & Hws). destruct ws as [|w ws] using rev_ind; [by exists []|]. clear IHws.
  apply Forall_app in Hws as [Hws Hw]. apply Forall_singleton in Hw as [Hne Hfree].
  assert (slash_free w) as Hsf.
  { eapply Forall_impl; [exact Hfree|]. by intros c [H _]%separator_split. }
  destruct (decide (ws = [])) as [->|Hn].
  - cbn. unfold parent_of. rewrite (proj2 (rfind_char_none _ _)) by done. by exists [].
  - rewrite join_app by done. change (§"/" ++ join §"/" [w]) with ("/"%char :: w).
    unfold parent_of. rewrite (proj2 (rfind_slash _ (length (join §"/" ws)))) by eauto.
    rewrite take_app_length. by exists ws.
Qed.

Definition cursor_path (p : str) : Prop := normal p /\ archive_path_parse p = Ok p.

Definition cursor_ok (n : ArchiveNavigation) : Prop :=
  cursor_path (nav_current n) /\ Forall cursor_path (nav_back n) /\ Forall cursor_path (nav_forward n).

Lemma cursor_path_root : cursor_path root.
Proof. split; [apply normal_nil|done]. Qed.

Lemma parse_normal p q : normal p -> archive_path_parse p = Ok q -> q = p /\ cursor_path q.
Proof.
  intros Hn Hp. pose proof Hp as (-> & _)%parse_ok_spec. rewrite (normal_slashes _ Hn) in *. done.
Qed.

Lemma parent_cursor p : cursor_path p -> parent_directory p = parent_of p /\ cursor_path (parent_of p).
Proof.
  intros [Hn Hp]. assert (cursor_path (parent_of p)) as Hc.
  { split; [by apply normal_parent|]. destruct (decide (p = [])) as [->|Hne]; [done|].
    destruct (parent_valid p (conj Hp Hne)) as (_ & [->|[[H _] _]]); done. }
  split; [|done]. unfold parent_directory. fold (parent_of p). destruct Hc as [_ Hc].
  unfold parent_of in Hc |- *. by rewrite Hc.
Qed.

Lemma pop_snoc {A : Type} (l : list A) x : pop (l ++ [x]) = Some (x, l).
Proof. unfold pop. rewrite last_snoc, length_app. cbn. by rewrite Nat.add_sub, take_app_length. Qed.

Lemma pop_spec {A : Type} (l : list A) :
  match pop l with Some (x, l') => l = l' ++ [x] | None => l = [] end.
Proof.
  destruct l as [|x l] using rev_ind; [done|]. by rewrite pop_snoc.
Qed.

Lemma is_empty_spec p : reflect (p = []) (is_empty p).
Proof. unfold is_empty, str_eqb. case_bool_decide; by constructor. Qed.

(** The target of a move, before it is parsed. *)
Definition target (m : Move) (n : ArchiveNavigation) : str :=
  match m with
  | Descend folder =>
      if is_empty (nav_current n) then normalize_fragment folder
      else nav_current n ++ §"/" ++ normalize_fragment folder
  | GoTo path => normalize_fragment path
  | Back | Forward | Up => root
  end.

(** The moves that the new cursor does not refuse for naming an absolute path or a
    traversal. *)
Definition accepts (m : Move) (n : ArchiveNavigation) : bool := is_ok (archive_path_parse (target m n)).

Definition cursor_run (ms : list Move) (n : ArchiveNavigation) : ArchiveNavigation :=
  foldl (fun n m => (navigate m n).2) n ms.

Fixpoint accepted (ms : list Move) (n : ArchiveNavigation) : list Move :=
  match ms with
  | [] => []
  | m :: ms' => (if accepts m n then [m] else []) ++ accepted ms' (navigate m n).2
  end.

Definition legacy_navigate (n : NavigationState) (m : Move) : NavigationState :=
  match m with
  | Descend folder => navigate_to folder n
  | GoTo path => navigate_to_absolute path n
  | Back => (navigate_back n).2
  | Forward => (navigate_forward n).2
  | Up => (navigate_up n).2
  end.

(** The old cursor with the fields of the new one. *)
Definition legacy_view (n : ArchiveNavigation) : NavigationState :=
  mk_state (nav_current n) (nav_back n) (nav_forward n).

Lemma cursor_intro c b f :
  cursor_path c -> Forall cursor_path b -> Forall cursor_path f -> cursor_ok (mk_nav c b f).
Proof. done. Qed.

Lemma Forall_snoc {A : Type} (P : A -> Prop) l x : Forall P (l ++ [x]) <-> Forall P l /\ P x.
Proof. rewrite Forall_app, Forall_cons. pose proof (Forall_nil_2 P). tauto. Qed.

Lemma move_to_ok p n : cursor_path p -> cursor_ok n -> cursor_ok (move_to p n).
Proof.
  intros Hp (Hc & Hb & Hf). unfold move_to, push_history, cursor_ok. split; [done|].
  destruct (is_empty (nav_current n)); split; cbn; try done. by apply Forall_snoc.
Qed.

Lemma target_normal m n : cursor_ok n ->
  match m with Descend folder => normalize_fragment folder <> [] | _ => True end -> normal (target m n).
Proof.
  intros ((Hn & _) & _) Hne. destruct m; cbn; try apply normal_nil; [|apply normalize_normal].
  destruct (is_empty_spec (nav_current n)); [apply normalize_normal|].
  apply normal_app; [done|apply normalize_normal|done..].
Qed.

Lemma navigate_ok m n : cursor_ok n -> cursor_ok (navigate m n).2.
Proof.
  intros Hn. pose proof Hn as (Hc & Hb & Hf). destruct m as [folder|path| | |]; cbn [navigate].
  - unfold nav_descend. destruct (is_empty_spec (normalize_fragment folder)) as [|Hne]; [done|].
    fold (target (Descend folder) n). destruct (archive_path_parse (target (Descend folder) n)) as [q|] eqn:E; [|done].
    apply parse_normal in E as [_ Hq]; [|by apply target_normal]. by apply move_to_ok.
  - unfold nav_go_to, go_to_directory. destruct (archive_path_parse (normalize_fragment path)) as [q|] eqn:E; [|done].
    apply parse_normal in E as [_ Hq]; [|apply normalize_normal]. destruct (str_eqb q (nav_current n)); [done|].
    by apply move_to_ok.
  - unfold nav_go_back. pose proof (pop_spec (nav_back n)) as Hpop. destruct (pop (nav_back n)) as [[q rest]|].
    + rewrite Hpop in Hb. apply Forall_snoc in Hb as [Hb Hq].
      apply cursor_intro; [done..|]. by apply Forall_snoc.
    + destruct (is_empty (nav_current n)); [done|].
      apply cursor_intro; [apply cursor_path_root|done|by apply Forall_snoc].
  - unfold nav_go_forward. pose proof (pop_spec (nav_forward n)) as Hpop. destruct (pop (nav_forward n)) as [[q rest]|]; [|done].
    rewrite Hpop in Hf. apply Forall_snoc in Hf as [Hf Hq].
    apply cursor_intro; [done|by apply Forall_snoc|done].
  - unfold nav_up. destruct (is_empty (nav_current n)); [done|]. destruct (parent_cursor _ Hc) as [-> Hp].
    apply cursor_intro; [done|by apply Forall_snoc|constructor].
Qed.

(** One move of both cursors. *)
Lemma navigate_agrees m n :
  cursor_ok n -> accepts m n = true -> legacy_view (navigate m n).2 = legacy_navigate (legacy_view n) m.
Proof.
  intros Hn Hacc. pose proof Hn as ((Hnc & _) & _). unfold accepts in Hacc.
  assert (normalize_path (nav_current n) = nav_current n) as Hid by by apply normalize_id.
  destruct m as [folder|path| | |]; cbn [navigate legacy_navigate].
  - unfold nav_descend, navigate_to. change (normalize_path folder) with (normalize_fragment folder). cbn [current_path legacy_view].
    destruct (is_empty_spec (normalize_fragment folder)) as [|Hne]; [done|]. rewrite Hid.
    fold (target (Descend folder) n). destruct (archive_path_parse (target (Descend folder) n)) as [q|] eqn:E; [|done].
    apply parse_normal in E as [-> _]; [|by apply target_normal].
    unfold move_to, push_history, legacy_view, target. cbn. by destruct (is_empty (nav_current n)).
  - unfold nav_go_to, navigate_to_absolute, go_to_directory. change (normalize_path path) with (normalize_fragment path).
    cbn [target] in Hacc. destruct (archive_path_parse (normalize_fragment path)) as [q|] eqn:E; [|done].
    apply parse_normal in E as [-> _]; [|apply normalize_normal]. cbn [current_path legacy_view].
    destruct (str_eqb _ _); [done|]. unfold move_to, push_history, legacy_view. cbn. by destruct (is_empty (nav_current n)).
  - unfold nav_go_back, navigate_back. cbn. destruct (pop _) as [[]|]; [done|]. by destruct (is_empty _).
  - unfold nav_go_forward, navigate_forward. cbn. by destruct (pop _) as [[]|].
  - unfold nav_up, navigate_up. cbn. destruct (is_empty _); [done|]. destruct Hn as (Hc & _).
    destruct (parent_cursor _ Hc) as [-> _]. unfold parent_of. by destruct (rfind_char _ _).
Qed.

Lemma refused_stays m n : accepts m n = false -> navigate m n = (false, n).
Proof.
  unfold accepts. destruct m as [folder|path| | |]; cbn [navigate target]; [| |done..].
  - unfold nav_descend. destruct (is_empty (normalize_fragment folder)); [done|].
    by destruct (archive_path_parse _).
  - unfold nav_go_to. by destruct (archive_path_parse _).
Qed.

Lemma snoc_ne {A : Type} (l : list A) x : l ++ [x] <> l.
Proof. intros E. apply (f_equal length) in E. rewrite length_app in E. cbn in E. lia. Qed.

(** A move reports whether it changed anything. *)
Lemma navigate_reports m n : cursor_ok n -> (navigate m n).1 = true <-> (navigate m n).2 <> n.
Proof.
  intros Hn. destruct (accepts m n) eqn:Hacc; [|by rewrite refused_stays].
  assert (forall p, p <> nav_current n -> move_to p n <> n) as Hmove by (intros p Hp E%(f_equal nav_current); by apply Hp).
  destruct m as [folder|path| | |]; cbn [navigate].
  - unfold nav_descend. destruct (is_empty_spec (normalize_fragment folder)) as [|Hne]; [done|].
    fold (target (Descend folder) n). destruct (archive_path_parse (target (Descend folder) n)) as [q|] eqn:E; [|done].
    apply parse_normal in E as [-> _]; [|by apply target_normal]. split; [|done]. intros _. apply Hmove. cbn.
    destruct (is_empty_spec (nav_current n)) as [->|]; [done|]. intros Eq%(f_equal length).
    rewrite !length_app in Eq. cbn in Eq. lia.
  - unfold nav_go_to, go_to_directory. destruct (archive_path_parse _) as [q|]; [|done].
    destruct (str_eqb q (nav_current n)) eqn:E; [done|]. split; [|done]. intros _. apply Hmove. intros ->.
    by rewrite str_eqb_refl in E.
  - unfold nav_go_back. pose proof (pop_spec (nav_back n)) as Hpop. destruct (pop _) as [[q rest]|].
    + split; [|done]. intros _ E. rewrite <-E in Hpop. cbn in Hpop. symmetry in Hpop. by apply snoc_ne in Hpop.
    + destruct (is_empty_spec (nav_current n)); [done|]. split; [|done]. intros _ E. by rewrite <-E in *.
  - unfold nav_go_forward. pose proof (pop_spec (nav_forward n)) as Hpop. destruct (pop _) as [[q rest]|]; [|done].
    split; [|done]. intros _ E. rewrite <-E in Hpop. cbn in Hpop. symmetry in Hpop. by apply snoc_ne in Hpop.
  - unfold nav_up. destruct (is_empty _); [done|]. split; [|done]. intros _ E%(f_equal nav_back). by apply snoc_ne in E.
Qed.

Lemma cursor_run_ok ms n : cursor_ok n -> cursor_ok (cursor_run ms n).
Proof. revert n; induction ms as [|m ms IH]; intros n Hn; [done|]. apply IH. by apply navigate_ok. Qed.

Lemma cursor_default_ok : cursor_ok nav_default.
Proof. repeat split; try apply cursor_path_root; constructor. Qed.

(** However a tab moves through its archive, its
    cursor is where the cursor it replaced would be after the same moves, less those
    that name an absolute path or a traversal, and with the same two histories; it is
    always at a path without redundant separators that the path type accepts; and a
    move reports true exactly when it changed the cursor or a history. *)
Theorem cursor_refines_navigation_state ms :
  let n := cursor_run ms nav_default in
  legacy_view n = foldl legacy_navigate navigation_new (accepted ms nav_default)
  /\ cursor_ok n
  /\ forall m, (navigate m n).1 = true <-> (navigate m n).2 <> n.
Proof.
  intros n. pose proof (cursor_run_ok ms _ cursor_default_ok) as Hok. split_and!; [|done|by intros m; apply navigate_reports].
  subst n. change navigation_new with (legacy_view nav_default).
  generalize cursor_default_ok. generalize nav_default as n. clear Hok.
  induction ms as [|m ms IH]; intros n Hn; [done|]. cbn [cursor_run foldl accepted].
  change (foldl _ _ ms) with (cursor_run ms (navigate m n).2). rewrite IH by by apply navigate_ok.
  rewrite foldl_app. destruct (accepts m n) eqn:E; cbn [foldl].
  - by rewrite navigate_agrees.
  - by rewrite refused_stays.
Qed.

(** The root is not put in the history, so a step back from a
    folder that was entered from the root leads to the root only when the history is
    empty: otherwise to the folder left before the root. *)
Theorem back_skips_the_root n p q history :
  cursor_ok n -> nav_current n = root -> nav_back n = history ++ [q] ->
  archive_path_parse (normalize_fragment p) = Ok (normalize_fragment p) -> normalize_fragment p <> [] ->
  let moved := (navigate (GoTo p) n).2 in
  nav_current moved = normalize_fragment p /\ nav_current (navigate Back moved).2 = q.
Proof.
  intros _ Hc Hb Hp Hne. cbn zeta. cbn [navigate]. unfold nav_go_to. rewrite Hp. unfold go_to_directory.
  unfold str_eqb. rewrite bool_decide_false by by rewrite Hc. cbn. split; [done|].
  assert (nav_back (move_to (normalize_fragment p) n) = history ++ [q]) as E.
  { unfold move_to, push_history. by rewrite Hc. }
  unfold nav_go_back. by rewrite E, pop_snoc.
Qed.

(** * The listing request *)

(** What happens to the listing of one tab: it is bound to a session, a fetch begins,
    the user moves, the fetch that was the [k]th to begin answers or fails, an open
    fails before anything was listed. A fetch keeps the token, the session and the
    folder it began with. *)
Inductive ListingStep :=
| Rebind (s : option Z)
| Begin (session_id : Z)
| Moved (m : Move)
| Answered (k : nat)
| Refused (k : nat) (error : ApplicationError)
| OpenFailed (error : ApplicationError).

Record ListingRun := mk_lrun { the_listing : TabListing; tickets : list (Z * Z * str) }.

Definition with_ticket (k : nat) (r : ListingRun) (f : Z -> Z -> str -> TabListing -> bool * TabListing)
  : bool * ListingRun :=
  match tickets r !! k with
  | None => (false, r)
  | Some (g, session_id, dir) =>
      let '(b, l) := f g session_id dir (the_listing r) in (b, mk_lrun l (tickets r))
  end.

Definition listing_step (s : ListingStep) (r : ListingRun) : bool * ListingRun :=
  match s with
  | Rebind b => (true, mk_lrun (for_session b) (tickets r))
  | Begin session_id =>
      let '(g, l) := begin_loading (the_listing r) in
      (true, mk_lrun l (tickets r ++ [(g, session_id, directory (request l))]))
  | Moved m => let '(b, l) := move m (the_listing r) in (b, mk_lrun l (tickets r))
  | Answered k => with_ticket k r succeed
  | Refused k error => with_ticket k r (fun g session_id dir => fail g session_id dir error)
  | OpenFailed error => let '(b, l) := fail_unlisted error (the_listing r) in (b, mk_lrun l (tickets r))
  end.

(** What the tab promises: which of the requests that were made it is waiting for,
    whether its session ever answered one, and how the last one ended. *)
Inductive Phase := Idle | Waiting | Broken (error : ApplicationError).

Record Tracked := mk_tracked {
  bound : option Z;
  cursor : ArchiveNavigation;
  asked : list Z;
  awaited : option nat;
  known : bool;
  phase : Phase
}.

Definition awaits (k : nat) (t : Tracked) : bool :=
  bool_decide (awaited t = Some k) && bool_decide (asked t !! k = bound t) && bool_decide (is_Some (bound t)).

Definition tracked_step (s : ListingStep) (t : Tracked) : bool * Tracked :=
  match s with
  | Rebind b => (true, mk_tracked b nav_default (asked t) None false Idle)
  | Begin session_id =>
      (true, mk_tracked (bound t) (cursor t) (asked t ++ [session_id]) (Some (length (asked t))) (known t) Waiting)
  | Moved m =>
      let '(b, n) := navigate m (cursor t) in
      (b, if b then mk_tracked (bound t) n (asked t) None (known t) Idle else t)
  | Answered k =>
      if awaits k t then (true, mk_tracked (bound t) (cursor t) (asked t) (awaited t) true Idle) else (false, t)
  | Refused k error =>
      if awaits k t then (true, mk_tracked (bound t) (cursor t) (asked t) (awaited t) (known t) (Broken error))
      else (false, t)
  | OpenFailed error =>
      match known t, phase t with
      | false, Idle => (true, mk_tracked (bound t) (cursor t) (asked t) (awaited t) false (Broken error))
      | _, _ => (false, t)
      end
  end.

Definition status_of (known : bool) (p : Phase) : RequestStatus :=
  match known, p with
  | false, Idle => Unlisted | false, Waiting => Loading | false, Broken e => Unlistable e
  | true, Idle => Listed | true, Waiting => Refreshing | true, Broken e => Stale e
  end.

(** A run of a step function, with what the steps reported. *)
Fixpoint reports {S : Type} (step : ListingStep -> S -> bool * S) (ss : list ListingStep) (x : S)
  : list bool * S :=
  match ss with
  | [] => ([], x)
  | s :: ss' => let '(b, y) := step s x in let '(bs, z) := reports step ss' y in (b :: bs, z)
  end.

(** Sessions are not opened twice: a tab is bound to one that no request of it named. *)
Fixpoint fresh_sessions (ss : list ListingStep) (seen : list Z) : bool :=
  match ss with
  | [] => true
  | Rebind (Some s) :: ss' => negb (bool_decide (s ∈ seen)) && fresh_sessions ss' seen
  | Begin s :: ss' => fresh_sessions ss' (seen ++ [s])
  | _ :: ss' => fresh_sessions ss' seen
  end.

Definition run_start : ListingRun := mk_lrun (for_session None) [].
Definition track_start : Tracked := mk_tracked None nav_default [] None false Idle.

(** The tokens of the binding since request [b] are all different from the awaited one's. *)
Record tracks (n : Z) (b : nat) (r : ListingRun) (t : Tracked) : Prop := {
  tr_session : session (the_listing r) = bound t;
  tr_cursor : navigation (the_listing r) = cursor t;
  tr_request : request (the_listing r) = whole_directory (nav_current (cursor t));
  tr_status : status (the_listing r) = status_of (known t) (phase t);
  tr_asked : (tickets r).*1.*2 = asked t;
  tr_base : (b <= length (tickets r))%nat;
  tr_generation : (0 <= generation (the_listing r) <= n)%Z;
  tr_old k g s d : tickets r !! k = Some (g, s, d) -> (k < b)%nat -> bound t <> Some s;
  tr_new k g s d : tickets r !! k = Some (g, s, d) -> (b <= k)%nat ->
    (g <= generation (the_listing r))%Z /\ (g = generation (the_listing r) -> awaited t = Some k);
  tr_awaited k : awaited t = Some k -> (b <= k)%nat
    /\ exists s, tickets r !! k = Some (generation (the_listing r), s, nav_current (cursor t))
}.

Lemma asked_lookup n b r t k : tracks n b r t -> asked t !! k = (fun x => x.1.2) <$> tickets r !! k.
Proof. intros H. rewrite <-(tr_asked _ _ _ _ H), !list_lookup_fmap. by destruct (tickets r !! k). Qed.

Lemma answers_iff n b r t k g s d :
  tracks n b r t -> tickets r !! k = Some (g, s, d) ->
  answers_current_request g s d (the_listing r) = awaits k t.
Proof.
  intros H Hk. pose proof (asked_lookup _ _ _ _ k H) as Ha. rewrite Hk in Ha. cbn in Ha.
  apply Bool.eq_true_iff_eq. unfold answers_current_request, awaits.
  rewrite !andb_true_iff, !bool_decide_eq_true, Z.eqb_eq, str_eqb_eq, (tr_session _ _ _ _ H), (tr_request _ _ _ _ H), Ha.
  cbn [directory whole_directory]. split.
  - intros [[-> Hs] ->]. rewrite Hs. split_and!; [|done..].
    destruct (decide (b <= k)%nat) as [Hle|Hlt].
    + by apply (tr_new _ _ _ _ H _ _ _ _ Hk Hle).
    + exfalso. apply (tr_old _ _ _ _ H _ _ _ _ Hk); [lia|done].
  - intros [[Haw Hs] _]. destruct (tr_awaited _ _ _ _ H k Haw) as (_ & s' & Hk'). by simplify_eq.
Qed.

Lemma no_ticket n b r t k : tracks n b r t -> tickets r !! k = None -> awaits k t = false.
Proof.
  intros H Hk. unfold awaits. case_bool_decide as Haw; [|done].
  destruct (tr_awaited _ _ _ _ H k Haw) as (_ & s' & Hk'). congruence.
Qed.

(** Only the status changes. *)
Lemma tracks_status n b r t s k p :
  tracks n b r t -> s = status_of k p ->
  tracks n b (mk_lrun (set_status s (the_listing r)) (tickets r))
    (mk_tracked (bound t) (cursor t) (asked t) (awaited t) k p).
Proof. intros [] ->. by split. Qed.

Lemma tracks_mono n m b r t : tracks n b r t -> (n <= m)%Z -> tracks m b r t.
Proof. intros [] Hle. split; try done. lia. Qed.

Lemma wrapping_succ n : (0 <= n < u64_max)%Z -> wrapping_add n 1 = (n + 1)%Z.
Proof. intros H. unfold wrapping_add, u64_modulus. rewrite Z.mod_small; unfold u64_max in *; lia. Qed.

Lemma step_rebind n b r t s :
  tracks n b r t -> (forall x, s = Some x -> x ∉ asked t) ->
  tracks n (length (tickets r)) (listing_step (Rebind s) r).2 (tracked_step (Rebind s) t).2.
Proof.
  intros H Hf. split; cbn; try done.
  - apply (tr_asked _ _ _ _ H).
  - pose proof (tr_generation _ _ _ _ H). lia.
  - intros k g x d Hk _ ->. apply (Hf x); [done|]. apply list_elem_of_lookup. exists k.
    rewrite (asked_lookup _ _ _ _ _ H). by rewrite Hk.
  - intros k g x d Hk Hle. apply lookup_lt_Some in Hk. lia.
Qed.

Lemma step_begin n b r t s :
  tracks n b r t -> (n < u64_max)%Z ->
  tracks (n + 1) b (listing_step (Begin s) r).2 (tracked_step (Begin s) t).2.
Proof.
  intros H Hn. pose proof (tr_generation _ _ _ _ H) as Hg. cbn [listing_step tracked_step].
  unfold begin_loading. rewrite wrapping_succ by lia.
  assert (length (asked t) = length (tickets r)) as Hlen by by rewrite <-(tr_asked _ _ _ _ H), !length_fmap.
  split; cbn; try by apply H.
  - rewrite (tr_status _ _ _ _ H). by destruct (known t), (phase t).
  - by rewrite !fmap_app, (tr_asked _ _ _ _ H).
  - rewrite length_app. pose proof (tr_base _ _ _ _ H). lia.
  - lia.
  - intros k g x d [Hk|[Hk Hx]]%lookup_app_Some Hlt; [by eapply (tr_old _ _ _ _ H)|].
    pose proof (tr_base _ _ _ _ H). lia.
  - intros k g x d [Hk|[Hk Hx]]%lookup_app_Some Hle.
    + destruct (tr_new _ _ _ _ H _ _ _ _ Hk Hle). split; [lia|]. intros. lia.
    + apply list_lookup_singleton_Some in Hx as [Hx [= <- <- <-]]. split; [lia|]. intros _. f_equal. lia.
  - intros k [= <-]. rewrite Hlen. split; [apply (tr_base _ _ _ _ H)|].
    exists s. rewrite lookup_app_r, Nat.sub_diag by lia. cbn. by rewrite (tr_request _ _ _ _ H).
Qed.

Lemma step_move n b r t m :
  tracks n b r t -> (n < u64_max)%Z ->
  (listing_step (Moved m) r).1 = (tracked_step (Moved m) t).1
  /\ tracks (n + 1) b (listing_step (Moved m) r).2 (tracked_step (Moved m) t).2.
Proof.
  intros H Hn. pose proof (tr_generation _ _ _ _ H) as Hg. cbn [listing_step tracked_step].
  unfold move, navigated. rewrite (tr_cursor _ _ _ _ H).
  destruct (navigate m (cursor t)) as [[] c] eqn:E; cbn [negb]; (split; [done|]).
  - rewrite wrapping_succ by lia. split; cbn; try done; try by apply H.
    + by rewrite (tr_request _ _ _ _ H).
    + rewrite (tr_status _ _ _ _ H). by destruct (known t), (phase t).
    + lia.
    + intros k g x d Hk Hle. destruct (tr_new _ _ _ _ H _ _ _ _ Hk Hle). split; [lia|]. intros. lia.
  - eapply tracks_mono; [|by apply Z.le_succ_diag_r]. by destruct r.
Qed.

Lemma step_answer n b r t k :
  tracks n b r t ->
  (listing_step (Answered k) r).1 = (tracked_step (Answered k) t).1
  /\ tracks n b (listing_step (Answered k) r).2 (tracked_step (Answered k) t).2.
Proof.
  intros H. cbn [listing_step tracked_step]. unfold with_ticket.
  destruct (tickets r !! k) as [[[g s] d]|] eqn:Hk; [|by rewrite (no_ticket _ _ _ _ _ H Hk)].
  unfold succeed. rewrite (answers_iff _ _ _ _ _ _ _ _ H Hk).
  destruct (awaits k t); cbn [negb]; (split; [done|]); [|by destruct r].
  by apply tracks_status.
Qed.

Lemma step_refuse n b r t k e :
  tracks n b r t ->
  (listing_step (Refused k e) r).1 = (tracked_step (Refused k e) t).1
  /\ tracks n b (listing_step (Refused k e) r).2 (tracked_step (Refused k e) t).2.
Proof.
  intros H. cbn [listing_step tracked_step]. unfold with_ticket.
  destruct (tickets r !! k) as [[[g s] d]|] eqn:Hk; [|by rewrite (no_ticket _ _ _ _ _ H Hk)].
  unfold fail. rewrite (answers_iff _ _ _ _ _ _ _ _ H Hk).
  destruct (awaits k t); cbn [negb]; (split; [done|]); [|by destruct r].
  apply tracks_status; [done|]. rewrite (tr_status _ _ _ _ H). by destruct (known t), (phase t).
Qed.

Lemma step_open_failed n b r t e :
  tracks n b r t ->
  (listing_step (OpenFailed e) r).1 = (tracked_step (OpenFailed e) t).1
  /\ tracks n b (listing_step (OpenFailed e) r).2 (tracked_step (OpenFailed e) t).2.
Proof.
  intros H. cbn [listing_step tracked_step]. unfold fail_unlisted, is_unlisted. rewrite (tr_status _ _ _ _ H).
  destruct (known t) eqn:Ek, (phase t) eqn:Ep; cbn [status_of negb]; (split; [done|]); try by destruct r.
  by apply tracks_status.
Qed.

Lemma tracks_start : tracks 0 0 run_start track_start.
Proof. split; cbn; try done; lia. Qed.

Lemma listing_run_tracks ss n b r t :
  tracks n b r t -> fresh_sessions ss (asked t) = true -> (n + Z.of_nat (length ss) <= u64_max)%Z ->
  (reports listing_step ss r).1 = (reports tracked_step ss t).1
  /\ exists m c, tracks m c (reports listing_step ss r).2 (reports tracked_step ss t).2.
Proof.
  revert n b r t. induction ss as [|s ss IH]; intros n b r t H Hf Hn; [cbn; eauto|].
  assert ((listing_step s r).1 = (tracked_step s t).1
    /\ exists c, tracks (n + 1) c (listing_step s r).2 (tracked_step s t).2) as [Hb (c & Ht)].
  { cbn [length] in Hn. destruct s as [s|s|m|k|k e|e].
    - split; [done|]. eexists. eapply tracks_mono; [apply (step_rebind n b); [done|]|lia].
      intros x -> Hx. cbn in Hf. by rewrite bool_decide_true in Hf.
    - split; [done|]. eexists. apply step_begin; [done|lia].
    - destruct (step_move n b r t m H) as [E Ht]; [lia|eauto].
    - destruct (step_answer n b r t k H) as [E Ht]. split; [done|]. exists b. eapply tracks_mono; [done|lia].
    - destruct (step_refuse n b r t k e H) as [E Ht]. split; [done|]. exists b. eapply tracks_mono; [done|lia].
    - destruct (step_open_failed n b r t e H) as [E Ht]. split; [done|]. exists b. eapply tracks_mono; [done|lia]. }
  cbn [reports]. destruct (listing_step s r) as [b1 r'], (tracked_step s t) as [b2 t'] eqn:Et. cbn in Hb, Ht. subst b2.
  destruct (IH _ _ _ _ Ht) as (E & m & d & Hm); [|cbn [length] in Hn; lia|].
  { clear -Hf Et. destruct s as [[s|]|s|m|k|k e|e]; cbn in Hf, Et; simplify_eq/=; try done.
    - by apply andb_prop in Hf as [_ Hf].
    - by destruct (navigate m (cursor t)) as [[] ?]; simplify_eq.
    - by destruct (awaits k t); simplify_eq.
    - by destruct (awaits k t); simplify_eq.
    - by destruct (known t), (phase t); simplify_eq. }
  destruct (reports listing_step ss r') as [bs r''], (reports tracked_step ss t') as [bs' t''].
  cbn in E, Hm |- *. split; [by rewrite E|eauto].
Qed.

(** C35: A tab that is bound to sessions it never asked about
    before keeps track of its requests: an answer or a failure takes effect exactly when
    it is that of the latest request, no move and no rebinding came after it, and it was
    made to the session the tab is bound to; the status says whether that session ever
    answered and how the latest request stands; and the request is always for the whole
    of the folder the cursor is in. *)
Theorem listing_tracks_requests ss :
  fresh_sessions ss [] = true -> (Z.of_nat (length ss) <= u64_max)%Z ->
  let r := (reports listing_step ss run_start).2 in
  let t := (reports tracked_step ss track_start).2 in
  (reports listing_step ss run_start).1 = (reports tracked_step ss track_start).1
  /\ status (the_listing r) = status_of (known t) (phase t)
  /\ session (the_listing r) = bound t /\ navigation (the_listing r) = cursor t
  /\ request (the_listing r) = whole_directory (nav_current (cursor t)).
Proof.
  intros Hf Hn r t. destruct (listing_run_tracks ss 0 0 _ _ tracks_start Hf) as (E & m & c & H); [done|].
  split; [done|]. destruct H. done.
Qed.

Lemma move_request m l : request l = whole_directory (nav_current (navigation l)) ->
  request (move m l).2 = whole_directory (nav_current (navigation (move m l).2)).
Proof.
  intros H. unfold move, navigated. destruct (navigate m (navigation l)) as [[] n]; [|done]. cbn. by rewrite H.
Qed.

Lemma ticket_request k r f :
  (forall g s d l, request (f g s d l).2 = request l /\ navigation (f g s d l).2 = navigation l) ->
  request (the_listing (with_ticket k r f).2) = request (the_listing r)
  /\ navigation (the_listing (with_ticket k r f).2) = navigation (the_listing r).
Proof.
  intros Hf. unfold with_ticket. destruct (tickets r !! k) as [[[g s] d]|]; [|done].
  specialize (Hf g s d (the_listing r)). by destruct (f g s d (the_listing r)).
Qed.

Lemma run_request ss r :
  request (the_listing r) = whole_directory (nav_current (navigation (the_listing r))) ->
  let l := the_listing (reports listing_step ss r).2 in request l = whole_directory (nav_current (navigation l)).
Proof.
  revert r. induction ss as [|s ss IH]; intros r Hr; [done|]. cbn [reports].
  assert (request (the_listing (listing_step s r).2)
    = whole_directory (nav_current (navigation (the_listing (listing_step s r).2)))) as Hs.
  { destruct s as [s|s|m|k|k e|e]; cbn [listing_step]; try done.
    - pose proof (move_request m _ Hr) as H. by destruct (move m (the_listing r)).
    - destruct (ticket_request k r succeed) as [-> ->]; [|done]. intros. unfold succeed. by case_match.
    - destruct (ticket_request k r (fun g s d => fail g s d e)) as [-> ->]; [|done].
      intros. unfold fail. by case_match.
    - unfold fail_unlisted. by destruct (is_unlisted _). }
  destruct (listing_step s r) as [b r']. specialize (IH r' Hs).
  by destruct (reports listing_step ss r').
Qed.

(** * What is on screen *)

Definition adopt_all (answers : list AdoptedInventory) (i : TabInventory) : TabInventory :=
  foldl (fun i a => (adopt a i).2) i answers.

Section screen.
Context `{UT : UnicodeTables} `{CF : Crc32Fast}.

(** Whatever a tab went through, once it has adopted its
    session's rows, the entries of the folder it browses are row for row the session's
    own answer to the listing request the tab stands for: scoping the whole archive is
    asking for the folder, as long as no folder has more rows than the request's limit. *)
Theorem scoping_is_listing {Json : Type} ss (s : ArchiveSession (Json := Json)) es a :
  let l := the_listing (reports listing_step ss run_start).2 in
  assigner_ok a -> same_rows (build es a).1 (entry_index s) ->
  (Z.of_nat (length (children_of (entry_index s) (directory (request l)))) <= u32_max)%Z ->
  exists rows, inventory s = (session_id s, revision s, Some rows)
    /\ let held := (adopt (prepare (session_id s, revision s, rows)) (inventory_for_session (Some (session_id s)))).2 in
       scoped (inventory_entries held) (directory (request l)) = page_entries (list_entries s (request l)).
Proof.
  intros l Ha Hs Hn. destruct (build es a) as [ix a'] eqn:Hb. cbn in Hs.
  pose proof (tree_ok_same _ _ Hs (built_tree _ _ _ _ Ha Hb)) as Hok.
  destruct (all_entries_visits _ Hok) as (rows & Hrows & _). exists rows. split; [unfold inventory; by rewrite Hrows|].
  unfold prepare, adopt, inventory_for_session. cbn [inv_session inv_rows ad_session_id].
  rewrite bool_decide_true by done. cbn [negb snd inventory_entries inv_rows ad_entries].
  rewrite (all_entries_scoped _ Hok _ _ Hrows). subst l.
  pose proof (run_request ss run_start eq_refl) as Hr. cbn zeta in Hr. rewrite Hr in Hn |- *. cbn [directory whole_directory] in *.
  symmetry. apply (whole_directory_rows s es a); [done|by rewrite Hb|done].
Qed.
End screen.

Definition own (sid : Z) (answers : list AdoptedInventory) : list AdoptedInventory :=
  List.filter (fun a => (ad_session_id a =? sid)%Z) answers.

(** The held answer is one of the session's, and none is newer. *)
Definition newest (answers : list AdoptedInventory) (o : option AdoptedInventory) : Prop :=
  match o with
  | None => answers = []
  | Some x => x ∈ answers /\ Forall (fun a => ad_revision a <= ad_revision x)%Z answers
  end.

Lemma adopt_newest sid l i seen :
  inv_session i = Some sid -> newest seen (inv_rows i) ->
  inv_session (adopt_all l i) = Some sid /\ newest (seen ++ own sid l) (inv_rows (adopt_all l i)).
Proof.
  revert i seen. induction l as [|a l IH]; intros i seen Hs Hn; [by rewrite app_nil_r|].
  cbn [adopt_all foldl]. fold (adopt_all l). unfold own. cbn [List.filter]. fold (own sid l).
  destruct (Z.eqb_spec (ad_session_id a) sid) as [E|Hne].
  - replace (seen ++ a :: own sid l) with ((seen ++ [a]) ++ own sid l) by by rewrite <-app_assoc.
    unfold adopt at 2 4. rewrite Hs, E, bool_decide_true by done. cbn [negb].
    assert (forall x, Forall (fun b => ad_revision b <= ad_revision x)%Z (seen ++ [a])
      <-> Forall (fun b => ad_revision b <= ad_revision x)%Z seen /\ (ad_revision a <= ad_revision x)%Z) as Hsnoc.
    { intros x. by rewrite Forall_snoc. }
    destruct (inv_rows i) as [h|] eqn:Ei; cbn in Hn; [|by subst seen; apply IH; [done|]; split; [left|repeat constructor]].
    destruct Hn as [Hin Hall]. destruct (Z.ltb_spec (ad_revision a) (ad_revision h)); apply IH; try done; cbn [snd].
    + rewrite Ei. split; [by apply elem_of_app; left|]. apply Hsnoc. split; [done|lia].
    + split; [apply elem_of_app; right; by left|]. apply Hsnoc. split; [|done].
      eapply Forall_impl; [exact Hall|]. cbn. lia.
  - unfold adopt at 2 4. rewrite Hs, bool_decide_false by (intros [=]; congruence). by apply IH.
Qed.

(** The rows a tab ends up with do not depend on the order
    its session's answers come back in: they are those of the highest revision among
    them, and answers for other sessions change nothing. *)
Theorem adoption_order_irrelevant sid answers answers' :
  own sid answers ≡ₚ own sid answers' ->
  (forall a b, a ∈ own sid answers -> b ∈ own sid answers -> ad_revision a = ad_revision b -> a = b) ->
  adopt_all answers (inventory_for_session (Some sid)) = adopt_all answers' (inventory_for_session (Some sid))
  /\ newest (own sid answers) (inv_rows (adopt_all answers (inventory_for_session (Some sid)))).
Proof.
  intros Hp Hinj.
  destruct (adopt_newest sid answers (inventory_for_session (Some sid)) [] eq_refl eq_refl) as [S1 N1].
  destruct (adopt_newest sid answers' (inventory_for_session (Some sid)) [] eq_refl eq_refl) as [S2 N2].
  cbn [app] in N1, N2. split; [|done].
  destruct (adopt_all answers _) as [s1 r1], (adopt_all answers' _) as [s2 r2]. cbn in S1, S2, N1, N2. subst. f_equal.
  destruct r1 as [x|], r2 as [y|]; cbn in N1, N2; try done.
  - destruct N1 as [Hx Fx], N2 as [Hy Fy]. rewrite <-Hp in Hy, Fy. rewrite Forall_forall in Fx, Fy.
    f_equal. apply Hinj; [done..|]. apply Z.le_antisymm; [by apply Fy|by apply Fx].
  - rewrite N2 in Hp. apply Permutation_nil_r in Hp. rewrite Hp in N1. destruct N1 as [H _]. by apply elem_of_nil in H.
  - rewrite N1 in Hp. symmetry in Hp. apply Permutation_nil_r in Hp. rewrite Hp in N2. destruct N2 as [H _]. by apply elem_of_nil in H.
Qed.

Module ListingExample.

Import EntryIndexExample ArchiveSessionExample.
Existing Instance ascii_tables.

(** At [mods] in the history, browsing the root. *)
Definition left_mods : ArchiveNavigation := cursor_run [Descend §"mods"; Up] nav_default.

Lemma back_skips_the_root_witness :
  nav_current left_mods = root
  /\ nav_current (navigate Back (navigate (GoTo §"docs\api/") left_mods).2).2 = §"mods".
Proof.
  split; [vm_compute; reflexivity|].
  refine (proj2 (back_skips_the_root left_mods §"docs\api/" §"mods" [] _ _ _ _ _)).
  - exact (cursor_run_ok _ _ cursor_default_ok).
  - vm_compute. reflexivity.
  - vm_compute. reflexivity.
  - vm_compute. reflexivity.
  - vm_compute. discriminate.
Defined.

Definition boom : ApplicationError := AppError.new 1 Internal §"listing failed".

(** The first request is overtaken by a second, which fails after the user moved; the
    third answers. *)
Definition steps : list ListingStep :=
  [Rebind (Some 7%Z); Begin 7; Begin 7; Answered 0; Moved (Descend §"mods"); Refused 1 boom; Begin 7; Answered 2].

Lemma listing_tracks_requests_witness :
  (reports listing_step steps run_start).1 = [true; true; true; false; true; false; true; true]
  /\ status (the_listing (reports listing_step steps run_start).2) = Listed.
Proof.
  destruct (listing_tracks_requests steps) as (E & S & _).
  - vm_compute. reflexivity.
  - vm_compute. discriminate.
  - rewrite E, S. split; vm_compute; reflexivity.
Defined.

Lemma scoping_is_listing_witness :
  exists rows, inventory sess = (7%Z, 1%Z, Some rows)
    /\ scoped rows §"mods" = page_entries (list_entries sess (whole_directory §"mods")).
Proof.
  pose proof (scoping_is_listing steps sess EntryIndexExample.listing default_assigner) as H.
  pose proof (run_request steps run_start eq_refl) as R. cbn zeta in H, R.
  assert (nav_current (navigation (the_listing (reports listing_step steps run_start).2)) = §"mods") as N by reflexivity.
  rewrite N in R. rewrite R in H. destruct H as (rows & Hi & Hs).
  - exact default_assigner_ok.
  - exact (same_rows_refl _).
  - change (Z.of_nat (length (children_of (entry_index sess) §"mods")) <= u32_max)%Z.
    vm_compute. discriminate.
  - exists rows. split; [exact Hi|]. etransitivity; [|exact Hs]. reflexivity.
Defined.

Definition answer (r : Z) : AdoptedInventory := prepare (7%Z, r, []).

Lemma adoption_order_irrelevant_witness :
  adopt_all [answer 2; prepare (9%Z, 5%Z, []); answer 3] (inventory_for_session (Some 7%Z))
  = adopt_all [answer 3; answer 2] (inventory_for_session (Some 7%Z)).
Proof.
  refine (proj1 (adoption_order_irrelevant 7 _ _ _ _)).
  - change (own 7 _) with [answer 2; answer 3] at 1. change (own 7 _) with [answer 3; answer 2]. apply perm_swap.
  - change (own 7 _) with [answer 2; answer 3]. intros a b Ha Hb.
    apply elem_of_cons in Ha as [->|Ha]; [|apply list_elem_of_singleton in Ha as ->];
      (apply elem_of_cons in Hb as [->|Hb]; [|apply list_elem_of_singleton in Hb as ->]);
      vm_compute; congruence.
Defined.
End ListingExample.
