(* ===== verification/BrowserView.v ===== *)
(** The file list of a tab: the rows it shows ([file_entry_from_dto] and the
    formatting of [crates/ui/src/core/utils.rs], [shared/models/file_entry.rs]) and the
    projections it keeps of them between frames ([core/tabs/view_state.rs]).

    A 64-bit float is the standard library's [spec_float] with the precision and range
    of the format, so the formatting of sizes computes. The parser of decimal
    floats and the local time zone are parameters. *)

From stdpp Require Import base tactics option list gmap sorting strings.
From Stdlib Require Import ZArith Lia Ascii SpecFloat.
From S2P Require Import Prelude Text AppError Archive EntryIndex EntryIndexProps ArchiveSession Listing.

Open Scope arclain_scope.

(** * Numbers *)

Definition f64_of_Z (n : Z) : spec_float := binary_normalize 53 1024 n 0 false.
Definition f64_div : spec_float -> spec_float -> spec_float := SFdiv 53 1024.
Definition f64_mul : spec_float -> spec_float -> spec_float := SFmul 53 1024.
Definition f64_ge (a b : spec_float) : bool := SFleb b a.

(** [x as u64]: toward zero, saturating, and zero for what is not a number. *)
Definition f64_as_u64 (x : spec_float) : Z :=
  match x with
  | S754_finite false m e => Z.min u64_max (Z.shiftl (Zpos m) e)
  | S754_infinity false => u64_max
  | _ => 0
  end.

(** The whole number nearest to [k * x], the even one of two, for a finite float that is
    not negative. *)
Definition f64_scaled (k : Z) (x : spec_float) : Z :=
  match x with
  | S754_finite false m e =>
      if (0 <=? e)%Z then (Zpos m * k * 2 ^ e)%Z
      else
        let d := (2 ^ (- e))%Z in
        let q := (Zpos m * k / d)%Z in
        let r := (Zpos m * k mod d)%Z in
        if (2 * r <? d)%Z then q else if (d <? 2 * r)%Z then (q + 1)%Z else if Z.even q then q else (q + 1)%Z
  | _ => 0
  end.

(** [format!("{x:.1}")] of such a float, which rounds to the nearest tenth. *)
Definition format_f64_1 (x : spec_float) : str :=
  let t := f64_scaled 10 x in decimal (Z.to_N (t / 10)) ++ §"." ++ decimal (Z.to_N (t mod 10)).

Definition kilo : spec_float := f64_of_Z 1024.

(** The loop of [format_size], over the units that are left. *)
Fixpoint scale_size (size : spec_float) (unit_ : str) (larger : list str) : spec_float * str :=
  match larger with
  | [] => (size, unit_)
  | next :: larger' => if f64_ge size kilo then scale_size (f64_div size kilo) next larger' else (size, unit_)
  end.

Definition format_size (bytes : Z) : str :=
  let '(size, unit_) := scale_size (f64_of_Z bytes) §"B" [§"KB"; §"MB"; §"GB"] in
  if str_eqb unit_ §"B" then decimal (Z.to_N (f64_as_u64 size)) ++ §" " ++ unit_
  else format_f64_1 size ++ §" " ++ unit_.

(** [str::parse::<f64>]. *)
Class F64FromStr := { parse_f64 : str -> option spec_float }.

Section parsing.
Context `{FS : F64FromStr}.

Definition parse_size_to_bytes (s : str) : Z :=
  let parts := split_whitespace s in
  let num_str := default §"0" (head parts) in
  let unit_ := to_ascii_uppercase (default §"B" (parts !! 1%nat)) in
  let val := default (f64_of_Z 0) (parse_f64 num_str) in
  let mul :=
    if str_eqb unit_ §"KB" then kilo
    else if str_eqb unit_ §"MB" then f64_mul kilo kilo
    else if str_eqb unit_ §"GB" then f64_mul (f64_mul kilo kilo) kilo
    else f64_of_Z 1 in
  f64_as_u64 (f64_mul val mul).
End parsing.

Definition parse_ratio_pct (s : str) : Z :=
  default 0%Z (parse_unsigned u64_max (trim_end_matches (fun c => ascii_eqb c "%"%char) s)).

(** ** Dates *)

(** Divisions are Rust's. *)
Definition civil_from_days (days : Z) : Z * Z * Z :=
  let z := (days + 719468)%Z in
  let era := Z.quot (if 0 <=? z then z else z - 146096)%Z 146097 in
  let doe := (z - era * 146097)%Z in
  let yoe := Z.quot (doe - Z.quot doe 1460 + Z.quot doe 36524 - Z.quot doe 146096) 365 in
  let year := (yoe + era * 400)%Z in
  let doy := (doe - (365 * yoe + Z.quot yoe 4 - Z.quot yoe 100))%Z in
  let mp := Z.quot (5 * doy + 2) 153 in
  let day := (doy - Z.quot (153 * mp + 2) 5 + 1)%Z in
  let month := (if mp <? 10 then mp + 3 else mp - 9)%Z in
  ((year + if month <=? 2 then 1 else 0)%Z, month, day).

(** [format!("{n:0width$}")] of a signed number: the sign counts. *)
Definition padded_signed (width : nat) (n : Z) : str :=
  if (n <? 0)%Z then §"-" ++ padded (width - 1) (- n) else padded width n.

Definition date_time (f : Z * Z * Z * Z * Z * Z) : str :=
  let '(year, month, day, hour, minute, second) := f in
  padded_signed 4 year ++ §"-" ++ padded 2 month ++ §"-" ++ padded 2 day ++ §" "
  ++ padded 2 hour ++ §":" ++ padded 2 minute ++ §":" ++ padded 2 second.

(** [chrono::DateTime::from_timestamp(seconds, 0)] in the local zone, as year, month,
    day, hour, minute and second; none beyond the years it represents. *)
Class LocalZone := { local_fields : Z -> option (Z * Z * Z * Z * Z * Z) }.

Section rows.
Context `{LZ : LocalZone}.

(** [div_euclid] and [rem_euclid] by a positive number round down. *)
Definition format_modified_unix_ms (modified_at_unix_ms : option Z) : str :=
  match modified_at_unix_ms with
  | None => []
  | Some milliseconds =>
      let seconds := (milliseconds / 1000)%Z in
      match local_fields seconds with
      | Some f => date_time f
      | None =>
          let '(year, month, day) := civil_from_days (seconds / 86400) in
          let second_of_day := (seconds mod 86400)%Z in
          date_time (year, month, day, Z.quot second_of_day 3600,
                     Z.quot (Z.rem second_of_day 3600) 60, Z.rem second_of_day 60)
      end
  end.

(** * Rows *)

Record FileEntry := mk_file_entry {
  fe_name : str;
  fe_path : str;
  fe_archive_path : str;
  fe_size : str;
  fe_compressed : str;
  fe_ratio : str;
  fe_modified : str;
  fe_crc32 : str;
  fe_encrypted : bool;
  fe_is_folder : bool
}.

(** [a * b] of a release build, which does not check for overflow. *)
Definition wrapping_mul (a b : Z) : Z := ((a * b) mod u64_modulus)%Z.

Definition file_entry_from_dto (dto : ArchiveEntryDto) : FileEntry :=
  let compressed_size := default 0%Z (dto_compressed_size dto) in
  let ratio :=
    if (0 <? dto_uncompressed_size dto)%Z
    then decimal (Z.to_N (wrapping_mul compressed_size 100 / dto_uncompressed_size dto)) ++ §"%"
    else §"0%" in
  mk_file_entry (dto_name dto) (dto_name dto) (dto_path dto)
    (format_size (dto_uncompressed_size dto)) (format_size compressed_size) ratio
    (format_modified_unix_ms (dto_modified_at_unix_ms dto)) (default [] (dto_crc32 dto))
    (dto_encrypted dto) (is_directory dto).

(** [browser_rows.rs]. *)
Definition rows_in_directory (entries : list ArchiveEntryDto) (dir : str) : list FileEntry :=
  map file_entry_from_dto (scoped entries dir).
End rows.

(** * Sorting *)

Inductive SortColumn :=
| ColName | ColType | ColSize | ColCompressed | ColRatio | ColModified | ColCrc32 | ColEncrypted.

#[export] Instance SortColumn_eq_dec : EqDecision SortColumn.
Proof. solve_decision. Defined.

Record SortState := mk_sort { column : SortColumn; ascending : bool }.

#[export] Instance SortState_eq_dec : EqDecision SortState.
Proof. solve_decision. Defined.

Definition default_sort : SortState := mk_sort ColName true.

Section sorting.
Context `{UT : UnicodeTables} `{FS : F64FromStr}.

Definition type_key (e : FileEntry) : str :=
  if fe_is_folder e then §"directory" else to_lowercase (after_last_dot (fe_name e)).

Definition column_leb (c : SortColumn) (a b : FileEntry) : bool :=
  match c with
  | ColName => str_leb (to_lowercase (fe_name a)) (to_lowercase (fe_name b))
  | ColType => str_leb (type_key a) (type_key b)
  | ColSize => (parse_size_to_bytes (fe_size a) <=? parse_size_to_bytes (fe_size b))%Z
  | ColCompressed => (parse_size_to_bytes (fe_compressed a) <=? parse_size_to_bytes (fe_compressed b))%Z
  | ColRatio => (parse_ratio_pct (fe_ratio a) <=? parse_ratio_pct (fe_ratio b))%Z
  | ColModified => str_leb (fe_modified a) (fe_modified b)
  | ColCrc32 => str_leb (to_uppercase (fe_crc32 a)) (to_uppercase (fe_crc32 b))
  | ColEncrypted => (bool_u8 (fe_encrypted a) <=? bool_u8 (fe_encrypted b))%Z
  end.

(** [entries[i] <= entries[j]] by the key of the column; an index beyond the entries
    panics in the source, and the callers have none. *)
Definition index_le (entries : list FileEntry) (c : SortColumn) (i j : nat) : Prop :=
  match entries !! i, entries !! j with
  | Some a, Some b => column_leb c a b = true
  | Some _, None | None, None => True
  | None, Some _ => False
  end.

#[export] Instance index_le_dec entries c : RelDecision (index_le entries c).
Proof. intros i j. unfold index_le. destruct (entries !! i), (entries !! j); apply _. Defined.

Definition sort_entry_indices (entries : list FileEntry) (indices : list nat) (sort : SortState) : list nat :=
  let sorted := stable_sort (index_le entries (column sort)) indices in
  if ascending sort then sorted else reverse sorted.
End sorting.

(** * What is kept between frames ([view_state.rs]) *)

(** [r.wrapping_add(1).max(1)]. *)
Definition next_revision (r : Z) : Z := Z.max (wrapping_add r 1) 1.

Record BrowserEntriesSnapshot := mk_entries { be_revision : Z; be_entries : list FileEntry }.

Definition default_entries : BrowserEntriesSnapshot := mk_entries 0 [].

Definition replace (entries : list FileEntry) (s : BrowserEntriesSnapshot) : BrowserEntriesSnapshot :=
  mk_entries (next_revision (be_revision s)) entries.

Record RevisionedSelection := mk_selection { sel_paths : gset str; sel_revision : Z }.

Definition default_selection : RevisionedSelection := mk_selection ∅ 0.

Definition bump_revision (paths : gset str) (s : RevisionedSelection) : RevisionedSelection :=
  mk_selection paths (next_revision (sel_revision s)).

Definition sel_insert (p : str) (s : RevisionedSelection) : bool * RevisionedSelection :=
  if bool_decide (p ∈ sel_paths s) then (false, s) else (true, bump_revision ({[ p ]} ∪ sel_paths s) s).

Definition sel_remove (p : str) (s : RevisionedSelection) : bool * RevisionedSelection :=
  if negb (bool_decide (p ∈ sel_paths s)) then (false, s) else (true, bump_revision (sel_paths s ∖ {[ p ]}) s).

Definition sel_clear (s : RevisionedSelection) : bool * RevisionedSelection :=
  if bool_decide (sel_paths s = ∅) then (false, s) else (true, bump_revision ∅ s).

Definition sel_extend (paths : list str) (s : RevisionedSelection) : bool * RevisionedSelection :=
  let additions := List.filter (fun p => negb (bool_decide (p ∈ sel_paths s))) paths in
  if bool_decide (additions = []) then (false, s)
  else (true, bump_revision (list_to_set additions ∪ sel_paths s) s).

Record BrowserProjectionCache := mk_cache {
  sorted_revision : Z;
  sorted_for : SortState;
  sorted : list nat;
  visible_revision : Z;
  visible_for : SortState;
  visible_search : str;
  visible : list nat;
  visible_generation : Z;
  selected_revision : Z;
  selected_for : Z;
  selected : list nat;
  visible_selection_generation : Z;
  visible_selection_for : Z;
  visible_selected_count : nat
}.

Definition default_cache : BrowserProjectionCache :=
  mk_cache 0 default_sort [] 0 default_sort [] [] 0 0 0 [] 0 0 0.

Section projection.
Context `{UT : UnicodeTables} `{FS : F64FromStr}.

Definition rebuild_sorted (s : BrowserEntriesSnapshot) (sort : SortState) (c : BrowserProjectionCache)
  : BrowserProjectionCache :=
  if negb (sorted_revision c =? be_revision s)%Z || negb (bool_decide (sorted_for c = sort)) then
    mk_cache (be_revision s) sort (sort_entry_indices (be_entries s) (seq 0 (length (be_entries s))) sort)
      (visible_revision c) (visible_for c) (visible_search c) (visible c) (visible_generation c)
      (selected_revision c) (selected_for c) (selected c)
      (visible_selection_generation c) (visible_selection_for c) (visible_selected_count c)
  else c.

(** The filter of the search box, already trimmed. *)
Definition shown (entries : list FileEntry) (search : str) (i : nat) : bool :=
  let filter := to_lowercase search in
  is_empty filter
  || match entries !! i with Some e => contains_str (to_lowercase (fe_name e)) filter | None => false end.

Definition rebuild_visible_if_needed (s : BrowserEntriesSnapshot) (sort : SortState) (search : str)
    (c0 : BrowserProjectionCache) : BrowserProjectionCache :=
  let c := rebuild_sorted s sort c0 in
  let search := trim search in
  if negb (visible_revision c =? be_revision s)%Z || negb (bool_decide (visible_for c = sort))
     || negb (str_eqb (visible_search c) search) then
    mk_cache (sorted_revision c) (sorted_for c) (sorted c)
      (be_revision s) sort search (List.filter (shown (be_entries s) search) (sorted c))
      (next_revision (visible_generation c))
      (selected_revision c) (selected_for c) (selected c)
      (visible_selection_generation c) (visible_selection_for c) (visible_selected_count c)
  else c.

Definition is_selected (sel : RevisionedSelection) (entries : list FileEntry) (i : nat) : bool :=
  match entries !! i with Some e => bool_decide (fe_archive_path e ∈ sel_paths sel) | None => false end.

Definition rebuild_selected (s : BrowserEntriesSnapshot) (sel : RevisionedSelection) (c : BrowserProjectionCache)
  : BrowserProjectionCache :=
  if negb (selected_revision c =? be_revision s)%Z || negb (selected_for c =? sel_revision sel)%Z then
    mk_cache (sorted_revision c) (sorted_for c) (sorted c)
      (visible_revision c) (visible_for c) (visible_search c) (visible c) (visible_generation c)
      (be_revision s) (sel_revision sel)
      (List.filter (is_selected sel (be_entries s)) (seq 0 (length (be_entries s))))
      (visible_selection_generation c) (visible_selection_for c) (visible_selected_count c)
  else c.

Definition recount_visible (s : BrowserEntriesSnapshot) (sel : RevisionedSelection) (c : BrowserProjectionCache)
  : BrowserProjectionCache :=
  if negb (visible_selection_generation c =? visible_generation c)%Z
     || negb (visible_selection_for c =? sel_revision sel)%Z then
    mk_cache (sorted_revision c) (sorted_for c) (sorted c)
      (visible_revision c) (visible_for c) (visible_search c) (visible c) (visible_generation c)
      (selected_revision c) (selected_for c) (selected c)
      (visible_generation c) (sel_revision sel)
      (length (List.filter (is_selected sel (be_entries s)) (visible c)))
  else c.

(** The visible rows, the selected ones and how many are both. *)
Definition render_projection (s : BrowserEntriesSnapshot) (sort : SortState) (search : str)
    (sel : RevisionedSelection) (c0 : BrowserProjectionCache)
  : (list nat * list nat * nat) * BrowserProjectionCache :=
  let c := recount_visible s sel (rebuild_selected s sel (rebuild_visible_if_needed s sort search c0)) in
  ((visible c, selected c, visible_selected_count c), c).
End projection.

(** * The kept projections are the fresh ones *)

Section cache.
Context `{UT : UnicodeTables} `{FS : F64FromStr}.

(** What a frame shows, computed from nothing. *)
Definition visible_of (entries : list FileEntry) (sort : SortState) (search : str) : list nat :=
  List.filter (shown entries search) (sort_entry_indices entries (seq 0 (length entries)) sort).

Definition selected_of (entries : list FileEntry) (sel : RevisionedSelection) : list nat :=
  List.filter (is_selected sel entries) (seq 0 (length entries)).

Definition fresh_projection (entries : list FileEntry) (sort : SortState) (search : str)
    (sel : RevisionedSelection) : list nat * list nat * nat :=
  let rows := visible_of entries sort (trim search) in
  (rows, selected_of entries sel, length (List.filter (is_selected sel entries) rows)).

(** What happens to a tab's view: rows are published, the selection changes, a frame is
    drawn. *)
Inductive ViewStep :=
| Publish (entries : list FileEntry)
| SelInsert (p : str) | SelRemove (p : str) | SelClear | SelExtend (ps : list str)
| Render (sort : SortState) (search : str).

Record View := mk_view {
  snapshot_of : BrowserEntriesSnapshot;
  selection_of : RevisionedSelection;
  cache_of : BrowserProjectionCache
}.

Definition view_start : View := mk_view default_entries default_selection default_cache.

(** The new view, and what was drawn with what would be drawn from nothing. *)
Definition view_step (st : ViewStep) (v : View)
  : option ((list nat * list nat * nat) * (list nat * list nat * nat)) * View :=
  match st with
  | Publish entries => (None, mk_view (replace entries (snapshot_of v)) (selection_of v) (cache_of v))
  | SelInsert p => (None, mk_view (snapshot_of v) (sel_insert p (selection_of v)).2 (cache_of v))
  | SelRemove p => (None, mk_view (snapshot_of v) (sel_remove p (selection_of v)).2 (cache_of v))
  | SelClear => (None, mk_view (snapshot_of v) (sel_clear (selection_of v)).2 (cache_of v))
  | SelExtend ps => (None, mk_view (snapshot_of v) (sel_extend ps (selection_of v)).2 (cache_of v))
  | Render sort search =>
      let '(drawn, c) := render_projection (snapshot_of v) sort search (selection_of v) (cache_of v) in
      (Some (drawn, fresh_projection (be_entries (snapshot_of v)) sort search (selection_of v)),
       mk_view (snapshot_of v) (selection_of v) c)
  end.

Fixpoint frames (ss : list ViewStep) (v : View)
  : list ((list nat * list nat * nat) * (list nat * list nat * nat)) :=
  match ss with
  | [] => []
  | s :: ss' => let '(o, v') := view_step s v in option_list o ++ frames ss' v'
  end.

(** After [n] steps. *)
Record view_inv (n : Z) (v : View) : Prop := {
  vi_rev : (0 <= be_revision (snapshot_of v) <= n)%Z;
  vi_sel : (0 <= sel_revision (selection_of v) <= n)%Z;
  vi_gen : (0 <= visible_generation (cache_of v) <= n)%Z;
  vi_sorted_le : (sorted_revision (cache_of v) <= be_revision (snapshot_of v))%Z;
  vi_visible_le : (visible_revision (cache_of v) <= be_revision (snapshot_of v))%Z;
  vi_selected_le : (selected_revision (cache_of v) <= be_revision (snapshot_of v)
    /\ selected_for (cache_of v) <= sel_revision (selection_of v))%Z;
  vi_count_le : (visible_selection_generation (cache_of v) <= visible_generation (cache_of v)
    /\ visible_selection_for (cache_of v) <= sel_revision (selection_of v))%Z;
  vi_sorted : sorted_revision (cache_of v) = be_revision (snapshot_of v) ->
    let es := be_entries (snapshot_of v) in
    sorted (cache_of v) = sort_entry_indices es (seq 0 (length es)) (sorted_for (cache_of v));
  vi_visible : visible_revision (cache_of v) = be_revision (snapshot_of v) ->
    visible (cache_of v)
    = visible_of (be_entries (snapshot_of v)) (visible_for (cache_of v)) (visible_search (cache_of v));
  vi_selected : selected_revision (cache_of v) = be_revision (snapshot_of v) ->
    selected_for (cache_of v) = sel_revision (selection_of v) ->
    selected (cache_of v) = selected_of (be_entries (snapshot_of v)) (selection_of v);
  vi_count : visible_revision (cache_of v) = be_revision (snapshot_of v) ->
    visible_selection_generation (cache_of v) = visible_generation (cache_of v) ->
    visible_selection_for (cache_of v) = sel_revision (selection_of v) ->
    visible_selected_count (cache_of v)
    = length (List.filter (is_selected (selection_of v) (be_entries (snapshot_of v))) (visible (cache_of v)))
}.

Lemma next_revision_succ r n : (0 <= r <= n)%Z -> (n < u64_max)%Z -> next_revision r = (r + 1)%Z.
Proof.
  intros Hr Hn. unfold next_revision, wrapping_add, u64_modulus.
  rewrite Z.mod_small; unfold u64_max in *; lia.
Qed.

Lemma view_start_inv : view_inv 0 view_start.
Proof. split; cbn; try done. Qed.

Lemma view_inv_mono n v : view_inv n v -> view_inv (n + 1) v.
Proof. intros []. split; try done; lia. Qed.

Lemma publish_inv n v entries :
  view_inv n v -> (n < u64_max)%Z -> view_inv (n + 1) (view_step (Publish entries) v).2.
Proof.
  intros H Hn. pose proof (next_revision_succ _ _ (vi_rev _ _ H) Hn) as Hr. destruct H.
  split; cbn; rewrite ?Hr; try done; try lia.
Qed.

Lemma select_inv n v sel :
  view_inv n v -> (n < u64_max)%Z ->
  sel = selection_of v \/ (exists ps, sel = bump_revision ps (selection_of v)) ->
  view_inv (n + 1) (mk_view (snapshot_of v) sel (cache_of v)).
Proof.
  intros H Hn [->|[ps ->]]; [by apply view_inv_mono; destruct v|].
  pose proof (next_revision_succ _ _ (vi_sel _ _ H) Hn) as Hr. destruct H.
  split; cbn; rewrite ?Hr; try done; try lia.
Qed.

Lemma selection_steps sel :
  (forall p, (sel_insert p sel).2 = sel \/ exists ps, (sel_insert p sel).2 = bump_revision ps sel)
  /\ (forall p, (sel_remove p sel).2 = sel \/ exists ps, (sel_remove p sel).2 = bump_revision ps sel)
  /\ ((sel_clear sel).2 = sel \/ exists ps, (sel_clear sel).2 = bump_revision ps sel)
  /\ (forall l, (sel_extend l sel).2 = sel \/ exists ps, (sel_extend l sel).2 = bump_revision ps sel).
Proof.
  split_and!; intros; unfold sel_insert, sel_remove, sel_clear, sel_extend; case_match; cbn; eauto.
Qed.

Lemma rebuild_sorted_inv n v sort :
  view_inv n v ->
  let c := rebuild_sorted (snapshot_of v) sort (cache_of v) in
  view_inv n (mk_view (snapshot_of v) (selection_of v) c)
  /\ sorted_revision c = be_revision (snapshot_of v) /\ sorted_for c = sort.
Proof.
  intros H. cbn zeta. unfold rebuild_sorted.
  destruct (Z.eqb_spec (sorted_revision (cache_of v)) (be_revision (snapshot_of v))) as [E|];
    [case_bool_decide as Es|]; cbn [negb orb].
  - split; [by destruct v|done].
  - split; [|done]. destruct H. by split.
  - split; [|done]. destruct H. split; try done.
Qed.

Lemma rebuild_visible_inv n v sort search :
  view_inv n v -> (n < u64_max)%Z ->
  let c := rebuild_visible_if_needed (snapshot_of v) sort search (cache_of v) in
  view_inv (n + 1) (mk_view (snapshot_of v) (selection_of v) c)
  /\ visible_revision c = be_revision (snapshot_of v)
  /\ visible c = visible_of (be_entries (snapshot_of v)) sort (trim search).
Proof.
  intros H0 Hn. cbn zeta. unfold rebuild_visible_if_needed.
  destruct (rebuild_sorted_inv n v sort H0) as (H & Hr & Hf). set (c := rebuild_sorted _ _ _) in *.
  pose proof (vi_sorted _ _ H Hr) as Hs. cbn in Hs. rewrite Hf in Hs.
  destruct (_ || _) eqn:E.
  - pose proof (next_revision_succ _ _ (vi_gen _ _ H) Hn) as Hg. cbn in Hg.
    destruct H. cbn in *. split; [|split; [done|]; cbn; by rewrite Hs].
    split; cbn; rewrite ?Hg; try done; try lia. intros _. by rewrite Hs.
  - apply orb_false_iff in E as [[E1 E2]%orb_false_iff E3].
    apply negb_false_iff in E1, E2, E3. apply Z.eqb_eq in E1. apply bool_decide_eq_true in E2.
    apply str_eqb_eq in E3. split; [by apply view_inv_mono|]. split; [done|].
    pose proof (vi_visible _ _ H E1) as Hv. cbn in Hv. by rewrite Hv, E2, E3.
Qed.

Lemma rebuild_selected_inv n v :
  view_inv n v ->
  let c := rebuild_selected (snapshot_of v) (selection_of v) (cache_of v) in
  view_inv n (mk_view (snapshot_of v) (selection_of v) c)
  /\ selected c = selected_of (be_entries (snapshot_of v)) (selection_of v)
  /\ visible c = visible (cache_of v) /\ visible_revision c = visible_revision (cache_of v).
Proof.
  intros H. cbn zeta. unfold rebuild_selected.
  destruct (Z.eqb_spec (selected_revision (cache_of v)) (be_revision (snapshot_of v))) as [E|];
    [destruct (Z.eqb_spec (selected_for (cache_of v)) (sel_revision (selection_of v))) as [E2|]|]; cbn [negb orb].
  - split; [by destruct v|]. split; [|done]. by apply (vi_selected _ _ H).
  - split; [|done]. destruct H. split; cbn; try done; lia.
  - split; [|done]. destruct H. split; cbn; try done; lia.
Qed.

Lemma recount_visible_inv n v :
  view_inv n v -> visible_revision (cache_of v) = be_revision (snapshot_of v) ->
  let c := recount_visible (snapshot_of v) (selection_of v) (cache_of v) in
  view_inv n (mk_view (snapshot_of v) (selection_of v) c)
  /\ visible_selected_count c
     = length (List.filter (is_selected (selection_of v) (be_entries (snapshot_of v))) (visible (cache_of v)))
  /\ visible c = visible (cache_of v) /\ selected c = selected (cache_of v).
Proof.
  intros H Hv. cbn zeta. unfold recount_visible.
  destruct (Z.eqb_spec (visible_selection_generation (cache_of v)) (visible_generation (cache_of v))) as [E|];
    [destruct (Z.eqb_spec (visible_selection_for (cache_of v)) (sel_revision (selection_of v))) as [E2|]|]; cbn [negb orb].
  - split; [by destruct v|]. split; [|done]. by apply (vi_count _ _ H).
  - split; [|done]. destruct H. split; cbn; try done; lia.
  - split; [|done]. destruct H. split; cbn; try done; lia.
Qed.

Lemma render_inv n v sort search :
  view_inv n v -> (n < u64_max)%Z ->
  view_inv (n + 1) (view_step (Render sort search) v).2
  /\ match (view_step (Render sort search) v).1 with Some (drawn, fresh) => drawn = fresh | None => False end.
Proof.
  intros H Hn. cbn [view_step]. unfold render_projection.
  destruct (rebuild_visible_inv n v sort search H Hn) as (H1 & R1 & V1).
  set (c1 := rebuild_visible_if_needed _ _ _ _) in *.
  destruct (rebuild_selected_inv _ _ H1) as (H2 & S2 & V2 & R2). cbn in H2, S2, V2, R2.
  set (c2 := rebuild_selected _ _ _) in *.
  destruct (recount_visible_inv _ _ H2) as (H3 & N3 & V3 & S3); [cbn; congruence|]. cbn in H3, N3, V3, S3.
  set (c3 := recount_visible _ _ _) in *. split; [done|]. cbn [fst]. unfold fresh_projection.
  by rewrite V3, S3, N3, V2, S2, V1.
Qed.

Lemma frames_fresh ss n v :
  view_inv n v -> (n + Z.of_nat (length ss) <= u64_max)%Z -> Forall (fun f => f.1 = f.2) (frames ss v).
Proof.
  revert n v. induction ss as [|s ss IH]; intros n v H Hn; [constructor|]. cbn [length] in Hn.
  assert (view_inv (n + 1) (view_step s v).2
    /\ match (view_step s v).1 with Some (drawn, fresh) => drawn = fresh | None => True end) as [Hi Hd].
  { destruct (selection_steps (selection_of v)) as (S1 & S2 & S3 & S4).
    destruct s; [split; [by apply publish_inv; [|lia]|done]| | | | |].
    1-4: split; [|done]; cbn [view_step snd]; apply select_inv; [done|lia|auto].
    destruct (render_inv n v sort search H) as [Hi Hd]; [lia|]. split; [done|]. by destruct (view_step _ _).1 as [[]|]. }
  cbn [frames]. destruct (view_step s v) as [o v']. cbn in Hi, Hd. apply Forall_app. split.
  - destruct o as [[drawn fresh]|]; [|constructor]. by repeat constructor.
  - eapply IH; [exact Hi|lia].
Qed.

(** Every frame of a tab's file list shows the rows that pass the
    search, in the order of the chosen column, the selected rows and the number of rows
    that are both, exactly as computed from the published rows and the selection of the
    moment, although the renderer recomputes only what its revision counters say has
    changed (up to the 2^64 changes they can count). *)
Theorem projection_is_fresh ss :
  (Z.of_nat (length ss) <= u64_max)%Z ->
  Forall (fun f => f.1 = f.2) (frames ss view_start).
Proof. intros Hn. by apply (frames_fresh ss 0); [apply view_start_inv|]. Qed.
End cache.

(** * Dates *)

(** The year of the era, the month and the day of a day of the era. *)
Definition civil_part (doe : Z) : Z * Z * Z :=
  let yoe := Z.quot (doe - Z.quot doe 1460 + Z.quot doe 36524 - Z.quot doe 146096) 365 in
  let doy := (doe - (365 * yoe + Z.quot yoe 4 - Z.quot yoe 100))%Z in
  let mp := Z.quot (5 * doy + 2) 153 in
  (yoe, (if mp <? 10 then mp + 3 else mp - 9)%Z, (doy - Z.quot (153 * mp + 2) 5 + 1)%Z).

Definition day_of_era (yoe m d : Z) : Z :=
  (yoe * 365 + yoe / 4 - yoe / 100 + ((153 * ((m + 9) mod 12) + 2) / 5 + d - 1))%Z.

(** Years count from March. *)
Definition carry (m : Z) : Z := if (m <=? 2)%Z then 1 else 0.

Lemma civil_from_days_eq days :
  civil_from_days days =
  (let '(yoe, m, d) := civil_part ((days + 719468) mod 146097) in
   (yoe + (days + 719468) / 146097 * 400 + carry m, m, d))%Z.
Proof.
  unfold civil_from_days. cbn zeta. set (z := (days + 719468)%Z).
  assert (Z.quot (if 0 <=? z then z else z - 146096) 146097 = z / 146097)%Z as ->.
  { destruct (Z.leb_spec 0 z); [by apply Z.quot_div_nonneg|].
    replace (z - 146096)%Z with (- (146096 - z))%Z by lia. rewrite Z.quot_opp_l by lia.
    rewrite Z.quot_div_nonneg by lia. pose proof (Z.div_mod z 146097). pose proof (Z.div_mod (146096 - z) 146097).
    pose proof (Z.mod_pos_bound z 146097). pose proof (Z.mod_pos_bound (146096 - z) 146097). lia. }
  assert (z - z / 146097 * 146097 = z mod 146097)%Z as -> by (rewrite Z.mod_eq by lia; lia).
  reflexivity.
Qed.

(** All from [z] on, [n] of them. *)
Fixpoint all_from (f : Z -> bool) (n : nat) (z : Z) : bool :=
  match n with 0 => true | S n' => f z && all_from f n' (z + 1) end.

Lemma all_from_spec f n z k : all_from f n z = true -> (z <= k < z + Z.of_nat n)%Z -> f k = true.
Proof.
  revert z. induction n as [|n IH]; intros z; cbn [all_from]; [lia|].
  intros [Hf Hn]%andb_prop Hk. destruct (Z.eq_dec z k) as [->|]; [done|]. apply (IH (z + 1)%Z); [done|lia].
Qed.

(** *** The year: its first and last day give it, and the formula is monotone *)

Definition year_part (doe : Z) : Z := ((doe - doe / 1460 + doe / 36524 - doe / 146096) / 365)%Z.
Definition year_first (yoe : Z) : Z := (yoe * 365 + yoe / 4 - yoe / 100)%Z.
Definition year_length (yoe : Z) : Z := if leap (yoe + 1) then 366 else 365.

Lemma year_length_bound yoe : (365 <= year_length yoe <= 366)%Z.
Proof. unfold year_length. destruct (leap _); lia. Qed.

Lemma year_part_mono a b : (0 <= a <= b)%Z -> (year_part a <= year_part b)%Z.
Proof.
  intros Hab. unfold year_part. apply Z.div_le_mono; [lia|].
  replace 146096%Z with (36524 * 4)%Z by done. rewrite <-!Z.div_div by lia.
  assert (a / 36524 <= b / 36524)%Z as H1 by (apply Z.div_le_mono; lia).
  assert (b / 1460 - a / 1460 <= b - a)%Z by (Z.div_mod_to_equations; lia).
  set (x := (a / 36524)%Z) in *. set (y := (b / 36524)%Z) in *.
  assert (y / 4 - x / 4 <= y - x)%Z by (Z.div_mod_to_equations; lia). lia.
Qed.

Definition year_ok (yoe : Z) : bool :=
  ((year_part (year_first yoe) =? yoe) && (year_part (year_first yoe + year_length yoe - 1) =? yoe)
   && ((yoe =? 399) || (year_first (yoe + 1) =? year_first yoe + year_length yoe)))%Z.

Lemma years_checked : all_from year_ok 400 0 = true.
Proof. vm_compute. reflexivity. Qed.

Lemma year_spec yoe : (0 <= yoe <= 399)%Z ->
  year_part (year_first yoe) = yoe /\ year_part (year_first yoe + year_length yoe - 1) = yoe
  /\ (yoe < 399 -> year_first (yoe + 1) = year_first yoe + year_length yoe)%Z.
Proof.
  intros Hy. pose proof (all_from_spec _ _ _ yoe years_checked) as H. specialize (H ltac:(lia)).
  unfold year_ok in H. rewrite !andb_true_iff, orb_true_iff, !Z.eqb_eq in H. split_and!; [lia..|]. intros. lia.
Qed.

Lemma year_unique yoe doy : (0 <= yoe <= 399)%Z -> (0 <= doy < year_length yoe)%Z ->
  year_part (year_first yoe + doy) = yoe.
Proof.
  intros Hy Hd. destruct (year_spec yoe Hy) as (H1 & H2 & _).
  assert (0 <= year_first yoe)%Z by (unfold year_first; Z.div_mod_to_equations; lia).
  pose proof (year_part_mono (year_first yoe) (year_first yoe + doy)).
  pose proof (year_part_mono (year_first yoe + doy) (year_first yoe + year_length yoe - 1)). lia.
Qed.

Lemma year_of_day doe : (0 <= doe < 146097)%Z ->
  (0 <= year_part doe <= 399 /\ 0 <= doe - year_first (year_part doe) < year_length (year_part doe))%Z.
Proof.
  intros Hd. pose proof (year_part_mono 0 doe ltac:(lia)) as H0. change (year_part 0) with 0%Z in H0.
  pose proof (year_part_mono doe 146096 ltac:(lia)) as H1. change (year_part 146096) with 399%Z in H1.
  set (y := year_part doe) in *. split; [lia|].
  assert (0 <= year_first y)%Z by (unfold year_first; Z.div_mod_to_equations; lia).
  split.
  - destruct (Z.le_gt_cases (year_first y) doe) as [|Hlt]; [lia|]. exfalso.
    destruct (Z.eq_dec y 0) as [E|Hne]; [rewrite E in Hlt; change (year_first 0) with 0%Z in Hlt; lia|].
    destruct (year_spec (y - 1) ltac:(lia)) as (_ & H3 & H4). specialize (H4 ltac:(lia)).
    rewrite Z.sub_add in H4. pose proof (year_part_mono doe (year_first (y - 1) + year_length (y - 1) - 1)). subst y. lia.
  - destruct (Z.lt_ge_cases (doe - year_first y) (year_length y)) as [|Hge]; [done|]. exfalso.
    destruct (Z.eq_dec y 399) as [E|Hne].
    { rewrite E in Hge. change (year_first 399) with 145731%Z in Hge. change (year_length 399) with 366%Z in Hge. lia. }
    destruct (year_spec y ltac:(lia)) as (_ & _ & H4). specialize (H4 ltac:(lia)).
    destruct (year_spec (y + 1) ltac:(lia)) as (H5 & _ & _).
    pose proof (year_length_bound y).
    pose proof (year_part_mono (year_first (y + 1)) doe). subst y. lia.
Qed.

(** *** The month and day of a day of the year *)

Definition month_part (doy : Z) : Z * Z :=
  let mp := ((5 * doy + 2) / 153)%Z in
  ((if mp <? 10 then mp + 3 else mp - 9)%Z, (doy - (153 * mp + 2) / 5 + 1)%Z).

Definition day_of_year (m d : Z) : Z := ((153 * ((m + 9) mod 12) + 2) / 5 + d - 1)%Z.

(** The longest the month gets. *)
Definition month_max (m : Z) : Z := days_in_month 2000 m.

Definition day_ok (doy : Z) : bool :=
  let '(m, d) := month_part doy in
  ((1 <=? m) && (m <=? 12) && (1 <=? d) && (d <=? month_max m) && (day_of_year m d =? doy)
   && ((doy =? 365) || negb (m =? 2) || (d <=? 28)))%Z.

Definition date_ok (m d : Z) : bool :=
  (negb (d <=? month_max m)
   || (let '(m', d') := month_part (day_of_year m d) in
       (m' =? m) && (d' =? d) && (0 <=? day_of_year m d)
       && ((day_of_year m d <? 365) || ((m =? 2) && (d =? 29) && (day_of_year m d =? 365)))))%Z.

Lemma days_checked : all_from day_ok 366 0 = true.
Proof. vm_compute. reflexivity. Qed.

Lemma dates_checked : all_from (fun m => all_from (date_ok m) 31 1) 12 1 = true.
Proof. vm_compute. reflexivity. Qed.

Lemma civil_part_eq doe : (0 <= doe < 146097)%Z ->
  civil_part doe = (let '(m, d) := month_part (doe - year_first (year_part doe)) in (year_part doe, m, d)).
Proof.
  intros Hd. unfold civil_part. cbn zeta. destruct (year_of_day doe Hd) as [Hy Hl].
  rewrite !(Z.quot_div_nonneg doe) by lia. rewrite Z.quot_div_nonneg; [|Z.div_mod_to_equations; lia|lia].
  fold (year_part doe). rewrite !(Z.quot_div_nonneg (year_part doe)) by lia.
  replace (365 * year_part doe + year_part doe / 4 - year_part doe / 100)%Z with (year_first (year_part doe))
    by (unfold year_first; lia).
  unfold month_part. cbn zeta. pose proof (year_length_bound (year_part doe)).
  rewrite !Z.quot_div_nonneg; try done; Z.div_mod_to_equations; lia.
Qed.

Lemma leap_days y m : (1 <= m <= 12)%Z ->
  (days_in_month y m <= month_max m)%Z /\ (m <> 2 -> days_in_month y m = month_max m)%Z
  /\ days_in_month y 2 = (if leap y then 29 else 28)%Z.
Proof.
  intros Hm. unfold month_max, days_in_month. change (leap 2000) with true.
  destruct (Z.eqb_spec m 2) as [->|]; cbn; [|split_and!; lia]. destruct (leap y); split_and!; lia.
Qed.

Lemma days_in_month_period y k m : days_in_month (y + k * 400) m = days_in_month y m.
Proof.
  unfold days_in_month, leap.
  replace (y + k * 400)%Z with (y + (k * 100) * 4)%Z at 1 by lia. rewrite Z.mod_add by lia.
  replace (y + k * 400)%Z with (y + (k * 4) * 100)%Z at 1 by lia. rewrite Z.mod_add by lia.
  by rewrite Z.mod_add by lia.
Qed.

Lemma part_spec doe : (0 <= doe < 146097)%Z ->
  let '(yoe, m, d) := civil_part doe in
  (0 <= yoe <= 399 /\ 1 <= m <= 12 /\ 1 <= d <= days_in_month (yoe + carry m) m /\ day_of_era yoe m d = doe)%Z.
Proof.
  intros Hd. rewrite civil_part_eq by done. destruct (year_of_day doe Hd) as [Hy Hl].
  pose proof (year_length_bound (year_part doe)).
  pose proof (all_from_spec _ _ _ (doe - year_first (year_part doe)) days_checked) as H1. specialize (H1 ltac:(lia)).
  unfold day_ok in H1. destruct (month_part _) as [m d] eqn:E.
  rewrite !andb_true_iff, !orb_true_iff, negb_true_iff, !Z.leb_le, !Z.eqb_eq, Z.eqb_neq in H1.
  destruct H1 as [[[[[Hm1 Hm2] Hd1] Hd2] Hday] Hfeb].
  split_and!; try lia.
  - destruct (leap_days (year_part doe + carry m) m ltac:(lia)) as (_ & Hne & H2).
    destruct (Z.eq_dec m 2) as [->|Hm]; [|rewrite Hne; lia]. rewrite H2. change (carry 2) with 1%Z.
    unfold year_length in Hl. change (month_max 2) with 29%Z in Hd2. destruct (leap _); lia.
  - change (day_of_era _ m d) with (year_first (year_part doe) + day_of_year m d)%Z. lia.
Qed.

Lemma date_spec yoe m d :
  (0 <= yoe <= 399)%Z -> (1 <= m <= 12)%Z -> (1 <= d <= days_in_month (yoe + carry m) m)%Z ->
  civil_part (day_of_era yoe m d) = (yoe, m, d) /\ (0 <= day_of_era yoe m d < 146097)%Z.
Proof.
  intros Hy Hm Hd. destruct (leap_days (yoe + carry m) m Hm) as (Hmax & _ & H2).
  pose proof (all_from_spec _ _ _ m dates_checked) as H1. specialize (H1 ltac:(lia)).
  assert (month_max m <= 31)%Z by (unfold month_max, days_in_month; repeat case_match; lia).
  pose proof (all_from_spec _ _ _ d H1) as H3. specialize (H3 ltac:(lia)). unfold date_ok in H3.
  rewrite (proj2 (Z.leb_le d _)) in H3 by lia. cbn [negb orb] in H3.
  destruct (month_part (day_of_year m d)) as [m' d'] eqn:E.
  rewrite !andb_true_iff, !orb_true_iff, !andb_true_iff, !Z.eqb_eq, Z.leb_le, Z.ltb_lt in H3.
  destruct H3 as [[[-> ->] Hpos] Hlt].
  assert (0 <= day_of_year m d < year_length yoe)%Z as Hl.
  { unfold year_length. destruct Hlt as [|[[-> ->] ?]]; [destruct (leap (yoe + 1)); lia|]. change (carry 2) with 1%Z in *.
    rewrite H2 in Hd. destruct (leap (yoe + 1)); lia. }
  change (day_of_era yoe m d) with (year_first yoe + day_of_year m d)%Z.
  assert (0 <= year_first yoe + day_of_year m d < 146097)%Z as Hr.
  { destruct (Z.eq_dec yoe 399) as [->|].
    - change (year_length 399) with 366%Z in Hl. change (year_first 399) with 145731%Z. lia.
    - pose proof (year_length_bound yoe). unfold year_first.
      Z.div_mod_to_equations. lia. }
  split; [|done]. rewrite civil_part_eq by done. rewrite (year_unique yoe _ Hy Hl).
  replace (year_first yoe + day_of_year m d - year_first yoe)%Z with (day_of_year m d) by lia. by rewrite E.
Qed.

Lemma days_from_civil_split y m d : (1 <= m <= 12)%Z ->
  days_from_civil y m d
  = ((y - carry m) / 400 * 146097 + day_of_era ((y - carry m) mod 400) m d - 719468)%Z.
Proof.
  intros Hm. rewrite days_from_civil_floor by done. cbn zeta. unfold day_of_era, carry.
  destruct (m <=? 2)%Z; [done|]. by rewrite Z.sub_0_r.
Qed.

(** The date that the Modified column makes of a day number
    is a date of the Gregorian calendar, and the conversion is the exact inverse, both
    ways, of the one the listing made the day number with. *)
Theorem civil_from_days_inverse :
  (forall days, let '(y, m, d) := civil_from_days days in
     (1 <= m <= 12)%Z /\ (1 <= d <= days_in_month y m)%Z /\ days_from_civil y m d = days)
  /\ (forall y m d, (1 <= m <= 12)%Z -> (1 <= d <= days_in_month y m)%Z ->
     civil_from_days (days_from_civil y m d) = (y, m, d)).
Proof.
  split.
  - intros days. rewrite civil_from_days_eq. set (z := (days + 719468)%Z).
    pose proof (Z.mod_pos_bound z 146097 ltac:(lia)) as Hb. pose proof (part_spec _ Hb) as H.
    destruct (civil_part (z mod 146097)) as [[yoe m] d]. destruct H as (Hy & Hm & Hd & He).
    replace (yoe + z / 146097 * 400 + carry m)%Z with (yoe + carry m + z / 146097 * 400)%Z by lia.
    split; [done|]. split; [by rewrite days_in_month_period|]. rewrite days_from_civil_split by done.
    replace (yoe + carry m + z / 146097 * 400 - carry m)%Z with (yoe + z / 146097 * 400)%Z by lia.
    rewrite Z.div_add, Z.mod_add, (Z.div_small yoe), (Z.mod_small yoe), He by lia.
    pose proof (Z.div_mod z 146097 ltac:(lia)). subst z. lia.
  - intros y m d Hm Hd. rewrite days_from_civil_split, civil_from_days_eq by done.
    set (w := (y - carry m)%Z). pose proof (Z.mod_pos_bound w 400 ltac:(lia)) as Hb.
    pose proof (Z.div_mod w 400 ltac:(lia)) as Hw.
    assert (y = w mod 400 + carry m + w / 400 * 400)%Z as Ey by (subst w; lia).
    rewrite Ey in Hd. rewrite days_in_month_period in Hd.
    destruct (date_spec (w mod 400) m d ltac:(lia) Hm Hd) as [Hc He].
    replace (w / 400 * 146097 + day_of_era (w mod 400) m d - 719468 + 719468)%Z
      with (day_of_era (w mod 400) m d + w / 400 * 146097)%Z by lia.
    rewrite Z.mod_add, Z.div_add, Z.mod_small, (Z.div_small (day_of_era _ _ _)), Hc by lia.
    f_equal. f_equal. lia.
Qed.

(** * Formatting *)

Example size_texts :
  map format_size [0; 1023; 1024; 1536; 1100; 1048575; 5368709120; u64_max]%Z
  = [§"0 B"; §"1023 B"; §"1.0 KB"; §"1.5 KB"; §"1.1 KB"; §"1024.0 KB"; §"5.0 GB"; §"17179869184.0 GB"].
Proof. vm_compute. reflexivity. Qed.

(** The ratio column shows the packed size as a percentage of the
    size, rounded down, when a hundred times the packed size fits in 64 bits; beyond
    that the product wraps (a debug build panics on it instead), and an entry whose
    header declares 2^62 bytes, stored without compression, is shown as packed to 0%,
    where the listing's own sort key saturates instead. *)
Theorem ratio_overflows `{LZ : LocalZone} :
  (forall d, (0 < dto_uncompressed_size d)%Z -> (0 <= default 0 (dto_compressed_size d))%Z ->
     (default 0 (dto_compressed_size d) * 100 <= u64_max)%Z ->
     fe_ratio (file_entry_from_dto d) = decimal (Z.to_N (ratio_sort_key d)) ++ §"%")
  /\ (exists d, dto_compressed_size d = Some (2 ^ 62)%Z /\ dto_uncompressed_size d = (2 ^ 62)%Z
     /\ fe_ratio (file_entry_from_dto d) = §"0%" /\ ratio_sort_key d = 3%Z).
Proof.
  split.
  - intros d Hs Hc Hm. unfold file_entry_from_dto. cbn [fe_ratio].
    rewrite (proj2 (Z.ltb_lt _ _)) by done. unfold ratio_sort_key, saturating_mul, wrapping_mul.
    rewrite (proj2 (Z.eqb_neq _ _)) by lia. rewrite Z.mod_small by (unfold u64_modulus, u64_max in *; lia).
    by rewrite Z.min_l.
  - exists (mk_dto 1 §"a" §"a" File (Some (2 ^ 62)%Z) (2 ^ 62) None false None). split_and!; reflexivity.
Qed.

Module BrowserExample.

#[export] Existing Instance ascii_tables.
(** A parser of whole numbers, and a clock without zones. *)
#[export] Instance whole_numbers : F64FromStr := {| parse_f64 s := f64_of_Z <$> parse_unsigned u64_max s |}.
#[export] Instance no_zone : LocalZone := {| local_fields _ := None |}.

Definition row (name size : str) : FileEntry := mk_file_entry name name name size size §"0%" [] [] false false.

Example sizes_parse :
  map parse_size_to_bytes [§"3 KB"; §"2 mb"; §"7"; §"x GB"; []] = [3072; 2097152; 7; 0; 0]%Z.
Proof. vm_compute. reflexivity. Qed.

Example modified_text : format_modified_unix_ms (Some (-1)%Z) = §"1969-12-31 23:59:59".
Proof. vm_compute. reflexivity. Qed.

Definition steps : list ViewStep :=
  [Publish [row §"b.txt" §"3 KB"; row §"A.txt" §"20 KB"; row §"c.md" §"1 B"]; SelInsert §"A.txt";
   Render default_sort []; Render (mk_sort ColSize false) §" txt "; SelClear; Render (mk_sort ColSize false) §"txt"].

Lemma projection_is_fresh_witness :
  map fst (frames steps view_start)
  = [([1; 0; 2], [1], 1); ([1; 0], [1], 1); ([1; 0], [], 0)]%nat
  /\ Forall (fun f => f.1 = f.2) (frames steps view_start).
Proof.
  split; [vm_compute; reflexivity|]. apply projection_is_fresh. vm_compute. discriminate.
Defined.
End BrowserExample.
