(* ===== verification/Bridge.v ===== *)
(** The bridge between the application's operations and the window
    ([crates/ui/src/core/operation_bridge.rs], with the password dialog of
    [features/password_management/presentation/ui.rs] and the tab actions of
    [core/arclain_app/update.rs] and [dialog_handler.rs] that discard a session).

    [Shared] is what the handlers write: the tabs with the signals of each, in the order
    of the tab bar, the registries of the bridge, the status bar and the error dialog.
    What the application answers while a handler runs is the argument [Answers]; what
    the bridge asks it to do in the background goes to [sent], in order. Plugin actions
    belong to another registry and are an argument.

    A handler is a function here: in the runs of [BridgeProps.v] it ends before the next one
    begins. The code gives no such guarantee: the event loop, the tasks of callers that
    register an operation and the render thread run handlers at once, and only the single
    reads and writes of a signal are atomic. Where that matters for the password dialog the
    sections are definitions of their own ([dequeue], [present_next], and the copy of the dialog
    that a frame works on), and [BridgeProps.v] has what goes wrong between them. *)

From stdpp Require Import base tactics option list gmap sorting strings.
From Stdlib Require Import ZArith Lia Ascii SpecFloat.
From S2P Require Import Prelude Text AppError Registry Archive EntryIndex ArchiveSession RustPath Listing BrowserView.

Open Scope arclain_scope.

(** * Data *)

Record PendingChallenge := mk_pending { pc_operation : OperationId; pc_challenge : Challenge }.

(** [password_management/domain/types.rs]. *)
Record PasswordDialog := mk_password_dialog {
  pd_show : bool;
  pd_password : str;
  pd_save_password : bool;
  pd_error : str;
  pd_target_path : option str
}.

Definition default_password_dialog : PasswordDialog := mk_password_dialog false [] false [] None.

Inductive ExtractionStatus := StRunning | StPaused | StCompleted | StFailed | StCancelled.

(** The fields of [ExtractionProgressDialog] that the bridge touches. *)
Record ExtractionDialog := mk_extraction {
  ed_show : bool;
  ed_status : ExtractionStatus;
  ed_percent : Z;
  ed_elapsed_text : str;
  ed_time_left_text : str;
  ed_log_lines : list str;
  ed_file_action : str;
  ed_started_at : option Z
}.

Inductive ArchiveErrorKind := EkGeneric | EkPermissionDenied | EkFileNotFound | EkIsADirectory.

Record ArchiveErrorDialog := mk_error_dialog {
  aed_archive_path : option str;
  aed_kind : ArchiveErrorKind;
  aed_raw_error : str
}.

(** [ExternalOpen { relative_target }]. *)
Definition MaterializationAction := option str.

(** The fields of a lease that the bridge reads. *)
Record LeaseDto := mk_lease_dto { ld_id : Z; ld_local_path : str }.

(** What is spawned on the runtime, and the calls into the tab bar and the system. *)
Inductive Request :=
| CloseArchive (session_id : Z)
| ReleaseLease (lease_id : Z)
| RenewLease (lease_id : Z)
| RespondOverwrite (operation_id : OperationId) (challenge : ChallengeId) (overwrite : bool)
| RespondPassword (operation_id : OperationId) (challenge : ChallengeId) (password : str)
| CancelOperation (operation_id : OperationId)
| StartOpen (tab : Z) (path : str) (password : option str)
| BackfillCrcs (tab session_id : Z)
| OpenNested (path : str)
| LaunchExternal (path : str).

Section bridge.
Context `{UT : UnicodeTables} `{CF : Crc32Fast} `{LZ : LocalZone} {Json : Type} {PluginUpdate : Type}.

Abbreviation Snapshot := (ArchiveSession.ArchiveSnapshot (Json := Json)).

#[export] Instance bridge_payloads : Payloads := {|
  Registry.ArchiveSnapshot := Snapshot; MaterializationLease := LeaseDto; PluginUiUpdate := PluginUpdate |}.

Record Tab := mk_btab {
  t_archive_path : option str;
  t_session_id : option Z;
  t_snapshot : option Snapshot;
  t_extras : SessionEncryption;
  t_metadata : option Json;
  t_listing : TabListing;
  t_inventory : TabInventory;
  t_entries : BrowserEntriesSnapshot;
  t_selection : RevisionedSelection;
  t_selection_count : nat;
  t_challenges : list PendingChallenge;
  t_password_dialog : PasswordDialog;
  t_extraction : ExtractionDialog;
  t_active_extraction : option OperationId;
  t_pending_open : option OperationId;
  t_open_after_unlock : option str;
  t_open_file : option str
}.

Definition set_t_archive_path (v : option str) (t : Tab) : Tab :=
  mk_btab v (t_session_id t) (t_snapshot t) (t_extras t) (t_metadata t) (t_listing t) (t_inventory t)
    (t_entries t) (t_selection t) (t_selection_count t) (t_challenges t) (t_password_dialog t) (t_extraction
    t) (t_active_extraction t) (t_pending_open t) (t_open_after_unlock t) (t_open_file t).
Definition set_t_session_id (v : option Z) (t : Tab) : Tab :=
  mk_btab (t_archive_path t) v (t_snapshot t) (t_extras t) (t_metadata t) (t_listing t) (t_inventory t)
    (t_entries t) (t_selection t) (t_selection_count t) (t_challenges t) (t_password_dialog t) (t_extraction
    t) (t_active_extraction t) (t_pending_open t) (t_open_after_unlock t) (t_open_file t).
Definition set_t_snapshot (v : option Snapshot) (t : Tab) : Tab :=
  mk_btab (t_archive_path t) (t_session_id t) v (t_extras t) (t_metadata t) (t_listing t) (t_inventory t)
    (t_entries t) (t_selection t) (t_selection_count t) (t_challenges t) (t_password_dialog t) (t_extraction
    t) (t_active_extraction t) (t_pending_open t) (t_open_after_unlock t) (t_open_file t).
Definition set_t_extras (v : SessionEncryption) (t : Tab) : Tab :=
  mk_btab (t_archive_path t) (t_session_id t) (t_snapshot t) v (t_metadata t) (t_listing t) (t_inventory
    t) (t_entries t) (t_selection t) (t_selection_count t) (t_challenges t) (t_password_dialog t)
    (t_extraction t) (t_active_extraction t) (t_pending_open t) (t_open_after_unlock t) (t_open_file t).
Definition set_t_metadata (v : option Json) (t : Tab) : Tab :=
  mk_btab (t_archive_path t) (t_session_id t) (t_snapshot t) (t_extras t) v (t_listing t) (t_inventory t)
    (t_entries t) (t_selection t) (t_selection_count t) (t_challenges t) (t_password_dialog t) (t_extraction
    t) (t_active_extraction t) (t_pending_open t) (t_open_after_unlock t) (t_open_file t).
Definition set_t_listing (v : TabListing) (t : Tab) : Tab :=
  mk_btab (t_archive_path t) (t_session_id t) (t_snapshot t) (t_extras t) (t_metadata t) v (t_inventory t)
    (t_entries t) (t_selection t) (t_selection_count t) (t_challenges t) (t_password_dialog t) (t_extraction
    t) (t_active_extraction t) (t_pending_open t) (t_open_after_unlock t) (t_open_file t).
Definition set_t_inventory (v : TabInventory) (t : Tab) : Tab :=
  mk_btab (t_archive_path t) (t_session_id t) (t_snapshot t) (t_extras t) (t_metadata t) (t_listing t) v
    (t_entries t) (t_selection t) (t_selection_count t) (t_challenges t) (t_password_dialog t) (t_extraction
    t) (t_active_extraction t) (t_pending_open t) (t_open_after_unlock t) (t_open_file t).
Definition set_t_entries (v : BrowserEntriesSnapshot) (t : Tab) : Tab :=
  mk_btab (t_archive_path t) (t_session_id t) (t_snapshot t) (t_extras t) (t_metadata t) (t_listing t)
    (t_inventory t) v (t_selection t) (t_selection_count t) (t_challenges t) (t_password_dialog t)
    (t_extraction t) (t_active_extraction t) (t_pending_open t) (t_open_after_unlock t) (t_open_file t).
Definition set_t_selection (v : RevisionedSelection) (t : Tab) : Tab :=
  mk_btab (t_archive_path t) (t_session_id t) (t_snapshot t) (t_extras t) (t_metadata t) (t_listing t)
    (t_inventory t) (t_entries t) v (t_selection_count t) (t_challenges t) (t_password_dialog t)
    (t_extraction t) (t_active_extraction t) (t_pending_open t) (t_open_after_unlock t) (t_open_file t).
Definition set_t_selection_count (v : nat) (t : Tab) : Tab :=
  mk_btab (t_archive_path t) (t_session_id t) (t_snapshot t) (t_extras t) (t_metadata t) (t_listing t)
    (t_inventory t) (t_entries t) (t_selection t) v (t_challenges t) (t_password_dialog t) (t_extraction t)
    (t_active_extraction t) (t_pending_open t) (t_open_after_unlock t) (t_open_file t).
Definition set_t_challenges (v : list PendingChallenge) (t : Tab) : Tab :=
  mk_btab (t_archive_path t) (t_session_id t) (t_snapshot t) (t_extras t) (t_metadata t) (t_listing t)
    (t_inventory t) (t_entries t) (t_selection t) (t_selection_count t) v (t_password_dialog t)
    (t_extraction t) (t_active_extraction t) (t_pending_open t) (t_open_after_unlock t) (t_open_file t).
Definition set_t_password_dialog (v : PasswordDialog) (t : Tab) : Tab :=
  mk_btab (t_archive_path t) (t_session_id t) (t_snapshot t) (t_extras t) (t_metadata t) (t_listing t)
    (t_inventory t) (t_entries t) (t_selection t) (t_selection_count t) (t_challenges t) v (t_extraction t)
    (t_active_extraction t) (t_pending_open t) (t_open_after_unlock t) (t_open_file t).
Definition set_t_extraction (v : ExtractionDialog) (t : Tab) : Tab :=
  mk_btab (t_archive_path t) (t_session_id t) (t_snapshot t) (t_extras t) (t_metadata t) (t_listing t)
    (t_inventory t) (t_entries t) (t_selection t) (t_selection_count t) (t_challenges t) (t_password_dialog
    t) v (t_active_extraction t) (t_pending_open t) (t_open_after_unlock t) (t_open_file t).
Definition set_t_active_extraction (v : option OperationId) (t : Tab) : Tab :=
  mk_btab (t_archive_path t) (t_session_id t) (t_snapshot t) (t_extras t) (t_metadata t) (t_listing t)
    (t_inventory t) (t_entries t) (t_selection t) (t_selection_count t) (t_challenges t) (t_password_dialog
    t) (t_extraction t) v (t_pending_open t) (t_open_after_unlock t) (t_open_file t).
Definition set_t_pending_open (v : option OperationId) (t : Tab) : Tab :=
  mk_btab (t_archive_path t) (t_session_id t) (t_snapshot t) (t_extras t) (t_metadata t) (t_listing t)
    (t_inventory t) (t_entries t) (t_selection t) (t_selection_count t) (t_challenges t) (t_password_dialog
    t) (t_extraction t) (t_active_extraction t) v (t_open_after_unlock t) (t_open_file t).
Definition set_t_open_after_unlock (v : option str) (t : Tab) : Tab :=
  mk_btab (t_archive_path t) (t_session_id t) (t_snapshot t) (t_extras t) (t_metadata t) (t_listing t)
    (t_inventory t) (t_entries t) (t_selection t) (t_selection_count t) (t_challenges t) (t_password_dialog
    t) (t_extraction t) (t_active_extraction t) (t_pending_open t) v (t_open_file t).
Definition set_t_open_file (v : option str) (t : Tab) : Tab :=
  mk_btab (t_archive_path t) (t_session_id t) (t_snapshot t) (t_extras t) (t_metadata t) (t_listing t)
    (t_inventory t) (t_entries t) (t_selection t) (t_selection_count t) (t_challenges t) (t_password_dialog
    t) (t_extraction t) (t_active_extraction t) (t_pending_open t) (t_open_after_unlock t) v.

Record Shared := mk_shared {
  tabs : list (Z * Tab);
  origins : gmap OperationId Z;
  actions : gmap OperationId MaterializationAction;
  leases : gmap Z Z;
  pending_metadata : gmap Z (option Json);
  status_bar : str;
  error_dialog : option ArchiveErrorDialog;
  sent : list Request
}.

Definition set_tabs (v : list (Z * Tab)) (s : Shared) : Shared :=
  mk_shared v (origins s) (actions s) (leases s) (pending_metadata s) (status_bar s) (error_dialog s)
    (sent s).
Definition set_origins (v : gmap OperationId Z) (s : Shared) : Shared :=
  mk_shared (tabs s) v (actions s) (leases s) (pending_metadata s) (status_bar s) (error_dialog s) (sent s).
Definition set_actions (v : gmap OperationId MaterializationAction) (s : Shared) : Shared :=
  mk_shared (tabs s) (origins s) v (leases s) (pending_metadata s) (status_bar s) (error_dialog s) (sent s).
Definition set_leases (v : gmap Z Z) (s : Shared) : Shared :=
  mk_shared (tabs s) (origins s) (actions s) v (pending_metadata s) (status_bar s) (error_dialog s) (sent
    s).
Definition set_pending_metadata (v : gmap Z (option Json)) (s : Shared) : Shared :=
  mk_shared (tabs s) (origins s) (actions s) (leases s) v (status_bar s) (error_dialog s) (sent s).
Definition set_status_bar (v : str) (s : Shared) : Shared :=
  mk_shared (tabs s) (origins s) (actions s) (leases s) (pending_metadata s) v (error_dialog s) (sent s).
Definition set_error_dialog (v : option ArchiveErrorDialog) (s : Shared) : Shared :=
  mk_shared (tabs s) (origins s) (actions s) (leases s) (pending_metadata s) (status_bar s) v (sent s).
Definition set_sent (v : list Request) (s : Shared) : Shared :=
  mk_shared (tabs s) (origins s) (actions s) (leases s) (pending_metadata s) (status_bar s) (error_dialog
    s) v.

Definition send (r : Request) (s : Shared) : Shared := set_sent (sent s ++ [r]) s.
Definition say (message : str) (s : Shared) : Shared := set_status_bar message s.

(** [TabsCollection::get]. *)
Definition get_tab (id : Z) (s : Shared) : option Tab :=
  snd <$> find (fun p => (p.1 =? id)%Z) (tabs s).

(** A write to the signals of a tab, through a reference that came from the collection. *)
Definition update_tab (id : Z) (f : Tab -> Tab) (s : Shared) : Shared :=
  set_tabs (map (fun p => if (p.1 =? id)%Z then (p.1, f p.2) else p) (tabs s)) s.

Definition forget_origin (id : OperationId) (s : Shared) : Shared := set_origins (delete id (origins s)) s.

Definition register_origin (id : OperationId) (tab : Z) (s : Shared) : Shared :=
  set_origins (<[id := tab]> (origins s)) s.

(** [OperationOrigins::tracked_ids], in some order. *)
Definition tracked_ids (s : Shared) : list OperationId := (map_to_list (origins s)).*1.

Definition register_action (id : OperationId) (a : MaterializationAction) (s : Shared) : Shared :=
  set_actions (<[id := a]> (actions s)) s.

Definition take_action (id : OperationId) (s : Shared) : option MaterializationAction * Shared :=
  (actions s !! id, set_actions (delete id (actions s)) s).

(** ** Leases behind external applications *)

Definition EXTERNAL_OPEN_RENEWAL_INTERVAL : Z := 60 * 1000 * 1000 * 1000.

Definition track_lease (id now : Z) (s : Shared) : Shared := set_leases (<[id := now]> (leases s)) s.

Definition due_for_renewal (now min_age : Z) (s : Shared) : list Z :=
  (List.filter (fun p => min_age <=? now - p.2)%Z (map_to_list (leases s))).*1.

Definition mark_renewed (now id : Z) (s : Shared) : Shared :=
  set_leases (alter (fun _ => now) id (leases s)) s.

Definition forget_lease (id : Z) (s : Shared) : Shared := set_leases (delete id (leases s)) s.

(** The part of a frame: the calls it spawns are answered one by one later. *)
Definition renew_due_external_open_leases (now : Z) (s : Shared) : Shared :=
  let due := due_for_renewal now EXTERNAL_OPEN_RENEWAL_INTERVAL s in
  foldl (fun s id => send (RenewLease id) s) (foldl (fun s id => mark_renewed now id s) s due) due.

(** [archive_error_kind]. *)
Definition archive_error_kind (k : ApplicationErrorKind) : ArchiveErrorKind :=
  match k with
  | AppError.PermissionDenied => EkPermissionDenied
  | AppError.NotFound => EkFileNotFound
  | _ => EkGeneric
  end.

(** ** What the application answers *)

Record Answers := mk_answers {
  list_all_entries : Z -> result ApplicationError (Z * Z * list ArchiveEntryDto);
  archive_snapshot : Z -> result ApplicationError Snapshot;
  operation_snapshot : OperationId -> option OperationSnapshot;
  correlation : CorrelationId
}.

(** ** Listing the archive *)

Definition fetch_and_adopt_inventory (ans : Answers) (session_id : Z) (t : Tab)
  : result ApplicationError unit * Tab :=
  let '(generation, l) := begin_loading (t_listing t) in
  let dir := directory (request l) in
  let t := set_t_listing l t in
  match list_all_entries ans session_id with
  | Err error => (Err error, set_t_listing (fail generation session_id dir error (t_listing t)).2 t)
  | Ok inventory =>
      let t := set_t_inventory (adopt (prepare inventory) (t_inventory t)).2 t in
      (Ok tt, set_t_listing (succeed generation session_id dir (t_listing t)).2 t)
  end.

(** [publish_for] of [browser_rows.rs]. *)
Definition publish_for (t : Tab) : Tab :=
  set_t_entries (replace (rows_in_directory (inventory_entries (t_inventory t)) (directory (request (t_listing t))))
                   (t_entries t)) t.

Definition no_session_error (ans : Answers) : ApplicationError :=
  AppError.new (correlation ans) Internal §"the tab holds no archive session to list".

Definition relist_for_browser_signals (ans : Answers) (path : str) (t : Tab) : result ApplicationError unit * Tab :=
  match t_session_id t with
  | None => (Err (no_session_error ans), t)
  | Some session_id =>
      let t := set_t_archive_path (Some path) t in
      let t := set_t_listing (for_session (Some session_id)) t in
      let t := set_t_inventory (inventory_for_session (Some session_id)) t in
      let t := set_t_selection (sel_clear (t_selection t)).2 t in
      let t := set_t_selection_count 0 t in
      let t := set_t_entries (replace [] (t_entries t)) t in
      let '(r, t) := fetch_and_adopt_inventory ans session_id t in
      match r with
      | Err error => (Err error, t)
      | Ok _ => (Ok tt, publish_for t)
      end
  end.

(** ** Challenges *)

Definition attempt_error (c : Challenge) : str :=
  match c with
  | Password _ _ attempt => if (1 <? attempt)%Z then §"Incorrect password" else []
  | _ => []
  end.

(** The update of the queue, which is atomic, and what is then at its front. *)
Definition dequeue (id : OperationId) (t : Tab) : option PendingChallenge * Tab :=
  let queue := List.filter (fun p => negb (pc_operation p =? id)%Z) (t_challenges t) in
  (head queue, set_t_challenges queue t).

(** The dialog is read and written afterwards. *)
Definition present_next (next : option PendingChallenge) (t : Tab) : Tab :=
  let d := t_password_dialog t in
  set_t_password_dialog
    (match next with
     | Some next =>
         mk_password_dialog true [] (pd_save_password d) (attempt_error (pc_challenge next)) (pd_target_path d)
     | None => mk_password_dialog false (pd_password d) (pd_save_password d) [] (pd_target_path d)
     end) t.

Definition dequeue_and_present_next (id : OperationId) (t : Tab) : Tab :=
  let '(next, t) := dequeue id t in present_next next t.

Definition handle_password_challenge (tab_id : Z) (id : OperationId) (c : Challenge) (s : Shared) : Shared :=
  match get_tab tab_id s, c with
  | Some t, Password _ _ attempt =>
      let already_showing := negb (bool_decide (t_challenges t = [])) in
      let t := set_t_challenges (t_challenges t ++ [mk_pending id c]) t in
      let d := t_password_dialog t in
      update_tab tab_id
        (fun _ => if already_showing then t
         else set_t_password_dialog
                (mk_password_dialog true [] (pd_save_password d) (attempt_error c) (pd_target_path d)) t) s
  | _, _ => s
  end.

Definition handle_confirm_overwrite_challenge (id : OperationId) (c : Challenge) (s : Shared) : Shared :=
  match c with
  | ConfirmOverwrite cid _ => send (RespondOverwrite id cid false) s
  | _ => s
  end.

(** ** Metadata of sessions *)

Definition MAX_PENDING_SESSION_METADATA : nat := 64.

Definition apply_buffered_session_metadata (tab : option Z) (session_id : Z) (s : Shared) : Shared :=
  let metadata := pending_metadata s !! session_id in
  let s := set_pending_metadata (delete session_id (pending_metadata s)) s in
  match tab, metadata with
  | Some id, Some m => update_tab id (set_t_metadata m) s
  | _, _ => s
  end.

(** The first tab, in the order of the tab bar, that holds the session. *)
Definition tab_of_session (session_id : Z) (s : Shared) : option Z :=
  fst <$> find (fun p => bool_decide (t_session_id p.2 = Some session_id)) (tabs s).

Definition buffer_or_apply_session_metadata (session_id : Z) (metadata : option Json) (source_path : str)
    (s : Shared) : Shared :=
  match tab_of_session session_id s with
  | Some id => update_tab id (fun t => set_t_archive_path (Some source_path) (set_t_metadata metadata t)) s
  | None =>
      if (MAX_PENDING_SESSION_METADATA <=? base.size (pending_metadata s))%nat
         && negb (bool_decide (is_Some (pending_metadata s !! session_id))) then s
      else set_pending_metadata (<[session_id := metadata]> (pending_metadata s)) s
  end.

Definition apply_current_session_metadata (ans : Answers) (session_id : Z) (s : Shared) : Shared :=
  match archive_snapshot ans session_id with
  | Err _ => s
  | Ok snap => buffer_or_apply_session_metadata session_id (snap_metadata snap) (snap_source_path snap) s
  end.

(** [handle_session_event] of a [MetadataChanged]. *)
Definition handle_session_event (ans : Answers) (session_id : Z) (s : Shared) : Shared :=
  apply_current_session_metadata ans session_id s.

Definition reconcile_session_events_after_lag (ans : Answers) (s : Shared) : Shared :=
  foldl (fun s session_id => apply_current_session_metadata ans session_id s) s
    (omap (fun p => t_session_id p.2) (tabs s)).

(** ** Opening an archive *)

(** [close_archive_session] of [operations/archive.rs]. *)
Definition close_archive_session (session_id : option Z) (s : Shared) : Shared :=
  match session_id with Some i => send (CloseArchive i) s | None => s end.

(** What stamps the tab before anything is fetched. *)
Definition stamp (id : OperationId) (snap : Snapshot) (t : Tab) : Tab :=
  let t := set_t_session_id (Some (snap_session_id snap)) t in
  let t := set_t_snapshot (Some snap) t in
  let t := set_t_extras (snap_encryption snap) t in
  let t := set_t_pending_open None t in
  dequeue_and_present_next id t.

Definition retry_after_unlock (t : Tab) : Tab :=
  match t_open_after_unlock t with
  | Some path => set_t_open_file (Some path) (set_t_open_after_unlock None t)
  | None => t
  end.

(** [finish_archive_load] up to the call it spawns. *)
Definition finish_archive_load (policy : str) (tab_id : Z) (s : Shared) : Shared :=
  if str_eqb policy §"on_access" then s
  else match get_tab tab_id s with
       | Some t => match t_session_id t with Some i => send (BackfillCrcs tab_id i) s | None => s end
       | None => s
       end.

Definition handle_open_archive_completed (ans : Answers) (policy : str) (tab_id : Z) (id : OperationId)
    (snap : Snapshot) (s : Shared) : Shared :=
  let s := forget_origin id s in
  let tab := get_tab tab_id s in
  let s := apply_buffered_session_metadata ((fun _ => tab_id) <$> tab) (snap_session_id snap) s in
  match get_tab tab_id s with
  | None => close_archive_session (Some (snap_session_id snap)) s
  | Some t =>
      let s := if bool_decide (t_session_id t = Some (snap_session_id snap)) then s
               else close_archive_session (t_session_id t) s in
      let s := update_tab tab_id (stamp id snap) s in
      let s := apply_current_session_metadata ans (snap_session_id snap) s in
      match get_tab tab_id s with
      | None => s
      | Some t =>
          let '(r, t) := relist_for_browser_signals ans (snap_source_path snap) t in
          match r with
          | Err error =>
              say (§"Archive opened but failed to display: " ++ summary error)
                (update_tab tab_id (fun _ => set_t_listing (fail_unlisted error (t_listing t)).2 t) s)
          | Ok _ =>
              let s := finish_archive_load policy tab_id (update_tab tab_id (fun _ => t) s) in
              update_tab tab_id retry_after_unlock (say §"Archive loaded successfully" s)
          end
      end
  end.

Definition settle_a_tab_that_never_listed (error : option ApplicationError) (t : Tab) : Tab :=
  match error with
  | Some e => set_t_listing (fail_unlisted e (t_listing t)).2 t
  | None =>
      if is_unlisted (t_listing t) && bool_decide (t_session_id t = None) then set_t_archive_path None t else t
  end.

Definition handle_open_archive_failed_or_cancelled (tab_id : Z) (id : OperationId)
    (error : option ApplicationError) (s : Shared) : Shared :=
  let s := forget_origin id s in
  match get_tab tab_id s with
  | None => s
  | Some _ =>
      let s := update_tab tab_id
        (fun t => settle_a_tab_that_never_listed error (dequeue_and_present_next id (set_t_pending_open None t))) s in
      match error with
      | Some e =>
          set_error_dialog
            (Some (mk_error_dialog (AppError.path e) (archive_error_kind (kind e)) (default (summary e) (diagnostic e))))
            (say (§"Failed to load archive: " ++ summary e) s)
      | None => say §"Archive open cancelled" s
      end
  end.

(** ** Progress dialogs *)

Definition MIN_PERCENT_FOR_TIME_ESTIMATE : Z := 5.
Definition NANOS : Z := 1000000000.

Definition format_duration_short (total_seconds : Z) : str :=
  let minutes := (total_seconds / 60)%Z in
  let seconds := (total_seconds mod 60)%Z in
  if (0 <? minutes)%Z then decimal (Z.to_N minutes) ++ §"m " ++ decimal (Z.to_N seconds) ++ §"s"
  else decimal (Z.to_N seconds) ++ §"s".

(** [Duration::as_secs_f64]. *)
Definition as_secs_f64 (nanos : Z) : spec_float :=
  SFadd 53 1024 (f64_of_Z (nanos / NANOS)) (f64_div (f64_of_Z (nanos mod NANOS)) (f64_of_Z NANOS)).

(** The whole seconds of [Duration::from_secs_f64(remaining_secs)]. *)
Definition remaining_seconds (elapsed percent : Z) : Z :=
  let secs := as_secs_f64 elapsed in
  let total := f64_div (f64_mul secs (f64_of_Z 100)) (f64_of_Z percent) in
  let remaining := SFsub 53 1024 total secs in
  (f64_scaled NANOS (if SFltb remaining (f64_of_Z 0) then f64_of_Z 0 else remaining) / NANOS)%Z.

(** [now] in nanoseconds. *)
Definition handle_extract_progress (now percent : Z) (message : option str) (t : Tab) : Tab :=
  let d := t_extraction t in
  let percent := Z.min percent 100 in
  let elapsed := (fun started => (now - started)%Z) <$> ed_started_at d in
  let elapsed_text :=
    match elapsed with Some e => format_duration_short (e / NANOS) | None => ed_elapsed_text d end in
  let time_left_text :=
    match elapsed with
    | Some e =>
        if (MIN_PERCENT_FOR_TIME_ESTIMATE <=? percent)%Z && (percent <? 100)%Z
        then format_duration_short (remaining_seconds e percent)
        else ed_time_left_text d
    | None => ed_time_left_text d
    end in
  let log_lines :=
    match message with
    | Some m => drop (length (ed_log_lines d) - 500) (ed_log_lines d) ++ [m]
    | None => ed_log_lines d
    end in
  set_t_extraction
    (mk_extraction true StRunning percent elapsed_text time_left_text log_lines
       (default (ed_file_action d) message) (ed_started_at d)) t.

Definition hide_extraction (status : ExtractionStatus) (t : Tab) : Tab :=
  let d := t_extraction t in
  set_t_extraction
    (mk_extraction false status (ed_percent d) (ed_elapsed_text d) (ed_time_left_text d) (ed_log_lines d)
       (ed_file_action d) (ed_started_at d)) t.

Definition handle_extract_terminal (tab_id : Z) (id : OperationId) (status : ExtractionStatus) (message : str)
    (s : Shared) : Shared :=
  let s := forget_origin id s in
  match get_tab tab_id s with
  | None => s
  | Some _ =>
      say message
        (update_tab tab_id
           (fun t => dequeue_and_present_next id (set_t_active_extraction None (hide_extraction status t))) s)
  end.

Definition handle_organize_terminal (tab_id : Z) (id : OperationId) (message : option str) (s : Shared) : Shared :=
  let s := forget_origin id s in
  let s := update_tab tab_id (dequeue_and_present_next id) s in
  match message with Some m => say m s | None => s end.

(** ** After a change to the archive *)

(** The selected paths that the fresh inventory still has. *)
Definition prune_selection (t : Tab) : Tab :=
  let fresh := map dto_path (inventory_entries (t_inventory t)) in
  let stale := List.filter (fun p => negb (bool_decide (p ∈ fresh))) (elements (sel_paths (t_selection t))) in
  set_t_selection (foldl (fun sel p => (sel_remove p sel).2) (t_selection t) stale) t.

Definition refresh_entries_after_mutation (ans : Answers) (session_id : Z) (t : Tab)
  : result ApplicationError unit * Tab :=
  let '(r, t) := fetch_and_adopt_inventory ans session_id t in
  match r with
  | Err error => (Err error, t)
  | Ok _ => (Ok tt, publish_for (prune_selection t))
  end.

Definition refresh_snapshot_signal (ans : Answers) (session_id : Z) (t : Tab) : Tab :=
  match archive_snapshot ans session_id with
  | Ok snap => if bool_decide (t_session_id t = Some session_id) then set_t_snapshot (Some snap) t else t
  | Err _ => t
  end.

Definition refresh_tab_after_archive_modify (ans : Answers) (tab_id : Z) (s : Shared) : Shared :=
  match get_tab tab_id s with
  | None => s
  | Some t =>
      match t_session_id t with
      | None => s
      | Some session_id =>
          let '(r, t) := refresh_entries_after_mutation ans session_id (refresh_snapshot_signal ans session_id t) in
          let s := update_tab tab_id (fun _ => t) s in
          match r with
          | Err error => say (§"Archive changed but failed to refresh the view: " ++ summary error) s
          | Ok _ => s
          end
      end
  end.

Definition handle_archive_modify_completed (ans : Answers) (tab_id : Z) (id : OperationId) (s : Shared) : Shared :=
  say §"Archive updated" (forget_origin id (refresh_tab_after_archive_modify ans tab_id s)).

Definition handle_archive_modify_terminal (id : OperationId) (message : str) (s : Shared) : Shared :=
  say message (forget_origin id s).

(** ** Opening a file in another application *)

(** [is_archive_extension] of [core/src/features/organization/flatten.rs]. *)
Definition ARCHIVE_EXTENSIONS : list str :=
  [§"zip"; §"rar"; §"7z"; §"tar"; §"gz"; §"tgz"; §"bz2"; §"xz"; §"tar.gz"; §"tar.bz2"; §"tar.xz"].

Definition is_archive_extension (p : str) : bool :=
  let filename := to_lowercase (default [] (file_name p)) in
  existsb (fun ext => ends_with filename (§"." ++ ext)) ARCHIVE_EXTENSIONS.

(** What the machine does with the file: whether it exists, and the message and success
    of [open_extracted_file_via_signals]. *)
Record Machine := mk_machine {
  exists_ : str -> bool;
  spawn : str -> bool * str;
  now_ : Z
}.

Definition handle_materialize_completed (m : Machine) (id : OperationId) (lease : LeaseDto) (s : Shared) : Shared :=
  let s := forget_origin id s in
  let '(action, s) := take_action id s in
  match action with
  | None => s
  | Some relative_target =>
      let target_path :=
        match relative_target with
        | Some relative => path_join (ld_local_path lease) relative
        | None => ld_local_path lease
        end in
      if negb (exists_ m target_path) then
        send (ReleaseLease (ld_id lease)) (say §"Extracted file not found" s)
      else if is_archive_extension target_path then
        send (ReleaseLease (ld_id lease)) (send (OpenNested target_path) s)
      else
        let '(launched, message) := spawn m target_path in
        let s := say message (send (LaunchExternal target_path) s) in
        if launched then track_lease (ld_id lease) (now_ m) s else send (ReleaseLease (ld_id lease)) s
  end.

Definition handle_materialize_failed_or_cancelled (id : OperationId) (error : option ApplicationError) (s : Shared)
  : Shared :=
  let s := (take_action id (forget_origin id s)).2 in
  say (match error with
       | Some e => §"Failed to open file: " ++ summary e
       | None => §"Opening file cancelled"
       end) s.

(** * Events *)

(** The handler of plugin actions, which have a registry of their own: what an event
    does, and whether an operation was one of its. *)
Context (handle_plugin_action_event : OperationEvent -> Shared -> Shared).
Context (fail_plugin_action : OperationId -> Shared -> option Shared).

(** [handle_event] once the tab of the operation is known. *)
Definition handle_tab_event (ans : Answers) (m : Machine) (policy : str) (tab_id : Z) (event : OperationEvent)
    (s : Shared) : Shared :=
  let id := operation_id event in
  match event_kind event, event_state event with
  | _, ChallengeState c =>
      match c with
      | Password _ _ _ => handle_password_challenge tab_id id c s
      | ConfirmOverwrite _ _ => handle_confirm_overwrite_challenge id c s
      | ConfirmDestructiveAction _ _ | MissingExternalTool _ _ | RetryPermission _ _ => s
      end
  | Extract, Progress completed_units _ message | Merge, Progress completed_units _ message =>
      update_tab tab_id (handle_extract_progress (now_ m) completed_units message) s
  | Extract, Completed _ => handle_extract_terminal tab_id id StCompleted §"Extraction completed" s
  | Extract, Cancelled => handle_extract_terminal tab_id id StCancelled §"Extraction cancelled" s
  | Extract, Failed e => handle_extract_terminal tab_id id StFailed (§"Extraction failed: " ++ summary e) s
  | Merge, Completed (Merged output_path) =>
      handle_extract_terminal tab_id id StCompleted
        (§"Merge complete: " ++ default [] (file_name output_path)) s
  | Merge, Cancelled => handle_extract_terminal tab_id id StCancelled §"Merge cancelled" s
  | Merge, Failed e => handle_extract_terminal tab_id id StFailed (§"Merge failed: " ++ summary e) s
  | OpenArchive, Completed (ArchiveOpened snap) => handle_open_archive_completed ans policy tab_id id snap s
  | OpenArchive, Cancelled => handle_open_archive_failed_or_cancelled tab_id id None s
  | OpenArchive, Failed e => handle_open_archive_failed_or_cancelled tab_id id (Some e) s
  | ArchiveModify, SnapshotChanged session_id _ =>
      match get_tab tab_id s with
      | Some t =>
          if bool_decide (t_session_id t = Some session_id)
          then update_tab tab_id (refresh_snapshot_signal ans session_id) s else s
      | None => s
      end
  | ArchiveModify, Completed _ => handle_archive_modify_completed ans tab_id id s
  | ArchiveModify, Cancelled => handle_archive_modify_terminal id §"Archive change cancelled" s
  | ArchiveModify, Failed e => handle_archive_modify_terminal id (§"Archive change failed: " ++ summary e) s
  | Materialize, Completed (Materialized lease) => handle_materialize_completed m id lease s
  | Materialize, Cancelled => handle_materialize_failed_or_cancelled id None s
  | Materialize, Failed e => handle_materialize_failed_or_cancelled id (Some e) s
  | Organize, Progress _ _ message => match message with Some text => say text s | None => s end
  | Organize, Completed _ => handle_organize_terminal tab_id id None s
  | Organize, Cancelled => handle_organize_terminal tab_id id (Some §"Organization cancelled") s
  | Organize, Failed e => handle_organize_terminal tab_id id (Some (§"Organization failed: " ++ summary e)) s
  | _, state => if is_terminal state then forget_origin id s else s
  end.

Definition handle_event (ans : Answers) (m : Machine) (policy : str) (event : OperationEvent) (s : Shared) : Shared :=
  if bool_decide (event_kind event = PluginAction) then handle_plugin_action_event event s
  else match origins s !! operation_id event with
       | None => s
       | Some tab_id => handle_tab_event ans m policy tab_id event s
       end.

Definition snapshot_to_event (snap : OperationSnapshot) : OperationEvent := {|
  operation_id := snap_operation_id snap; sequence := snap_last_sequence snap;
  event_kind := snap_kind snap; event_state := snap_state snap |}.

Definition reconcile_one (ans : Answers) (m : Machine) (policy : str) (id : OperationId) (s : Shared) : Shared :=
  match operation_snapshot ans id with
  | Some snap => handle_event ans m policy (snapshot_to_event snap) s
  | None =>
      match fail_plugin_action id s with
      | Some s' => s'
      | None =>
          let s := match origins s !! id with
                   | Some tab_id =>
                       update_tab tab_id
                         (fun t =>
                            let t := hide_extraction (ed_status (t_extraction t)) t in
                            let t := set_t_active_extraction None t in
                            let t := set_t_pending_open None t in
                            dequeue_and_present_next id t) s
                   | None => s
                   end in
          forget_origin id s
      end
  end.

Definition register_operation (ans : Answers) (m : Machine) (policy : str) (id : OperationId) (tab_id : Z)
    (s : Shared) : Shared :=
  reconcile_one ans m policy id (register_origin id tab_id s).

(** [start_archive_open] of [operations/archive.rs] once the application accepted the
    operation: the tab names it before it is registered. *)
Definition open_dispatched (id : OperationId) (tab_id : Z) (s : Shared) : Shared :=
  update_tab tab_id (set_t_pending_open (Some id)) s.

Definition archive_open_started (ans : Answers) (m : Machine) (policy : str) (id : OperationId) (tab_id : Z)
    (s : Shared) : Shared :=
  register_operation ans m policy id tab_id (open_dispatched id tab_id s).

(** The plugin actions are reconciled after the tabs' operations; [plugin_ids] are theirs. *)
Definition reconcile_after_lag (ans : Answers) (m : Machine) (policy : str) (plugin_ids : list OperationId)
    (s : Shared) : Shared :=
  let s := foldl (fun s id => reconcile_one ans m policy id s) s (tracked_ids s) in
  foldl (fun s id => reconcile_one ans m policy id s) s plugin_ids.

(** * The password dialog ([password_management/presentation/ui.rs], [dialog_handler.rs]) *)

Inductive PasswordDialogResult := Unlock | CancelPassword.

Inductive PasswordFeatureAction :=
| NoAction
| PasswordSubmitted (operation_id : OperationId) (challenge : ChallengeId) (password : str)
| PasswordSubmittedForReopen (tab : Z) (path password : str)
| PasswordCancelled (operation_id : OperationId).

(** One frame of the active tab's dialog: [dialog] is the copy that the frame took of it, in
    which the user may have typed [password] and pressed a button, and [t] the tab when the
    frame goes on. The copy is written back at the end, also when nothing was pressed. *)
Definition handle_password_dialogs (tab_id : Z) (dialog : PasswordDialog) (password : str)
    (result : option PasswordDialogResult) (t : Tab) : PasswordFeatureAction * Tab :=
  if negb (pd_show dialog) then (NoAction, set_t_password_dialog dialog t)
  else
    let typed show := mk_password_dialog show password (pd_save_password dialog) (pd_error dialog) (pd_target_path dialog) in
    match result with
    | None => (NoAction, set_t_password_dialog (typed true) t)
    | Some result =>
        let pending := head (t_challenges t) in
        let action :=
          match result with
          | Unlock =>
              match pending with
              | Some p => match pc_challenge p with
                          | Password id _ _ => PasswordSubmitted (pc_operation p) id password
                          | _ => NoAction
                          end
              | None => match pd_target_path dialog with
                        | Some path => PasswordSubmittedForReopen tab_id path password
                        | None => NoAction
                        end
              end
          | CancelPassword => match pending with Some p => PasswordCancelled (pc_operation p) | None => NoAction end
          end in
        (action,
         match pending with
         | Some p => dequeue_and_present_next (pc_operation p) t
         | None => set_t_password_dialog (typed false) t
         end)
    end.

(** The first [match] of [render_dialogs]. *)
Definition dispatch_password_action (a : PasswordFeatureAction) (s : Shared) : Shared :=
  match a with
  | NoAction => s
  | PasswordSubmitted id challenge password => send (RespondPassword id challenge password) s
  | PasswordSubmittedForReopen tab path password => send (StartOpen tab path (Some password)) s
  | PasswordCancelled id => send (CancelOperation id) s
  end.

(** The user presses a button, in a frame in which nothing else touches the tab. *)
Definition answer_password (active : Z) (password : str) (result : PasswordDialogResult) (s : Shared) : Shared :=
  match get_tab active s with
  | None => s
  | Some t =>
      let '(action, t) := handle_password_dialogs active (t_password_dialog t) password (Some result) t in
      dispatch_password_action action (update_tab active (fun _ => t) s)
  end.

(** [finish_archive_load] when the backfill it started reports encrypted content and no
    password, under the policy [prompt_on_open]. *)
Definition prompt_on_open (tab_id session_id : Z) (s : Shared) : Shared :=
  match get_tab tab_id s with
  | Some t =>
      if bool_decide (t_session_id t = Some session_id) then
        let d := t_password_dialog t in
        say §"Password required to access encrypted content"
          (update_tab tab_id
             (set_t_password_dialog (mk_password_dialog true [] (pd_save_password d) [] (pd_target_path d))) s)
      else s
  | None => s
  end.

(** The other half of [finish_archive_load]: the backfill changed rows. *)
Definition backfill_landed (ans : Answers) (tab_id session_id : Z) (s : Shared) : Shared :=
  match get_tab tab_id s with
  | Some t =>
      if bool_decide (t_session_id t = Some session_id)
      then update_tab tab_id (fun _ => (refresh_entries_after_mutation ans session_id t).2) s
      else s
  | None => s
  end.

(** [process_extraction_progress] of [app_lifecycle.rs], on a password error. *)
Definition prompt_for_extraction (active : Z) (requested : option str) (s : Shared) : Shared :=
  match get_tab active s with
  | Some t =>
      match t_archive_path t with
      | Some archive_path =>
          let d := t_password_dialog t in
          say §"Archive contents are password-protected"
            (update_tab active
               (fun t => set_t_open_after_unlock requested
                  (set_t_password_dialog
                     (mk_password_dialog true [] (pd_save_password d) §"Archive contents are password-protected"
                        (Some archive_path)) t)) s)
      | None => s
      end
  | None => s
  end.

(** * Tabs that go away *)

(** The confirmed close of a tab ([dialog_handler.rs]). When the tab was the last one,
    [TabsCollection::remove] puts an empty tab in its place, which is [open_tab] here; a run of the
    Process page that the tab started is cancelled too, which this state does not have. *)
Definition confirm_close (id : Z) (s : Shared) : Shared :=
  match get_tab id s with
  | None => s
  | Some t =>
      let s := match t_active_extraction t with Some op => send (CancelOperation op) s | None => s end in
      let s := match t_pending_open t with Some op => send (CancelOperation op) s | None => s end in
      let s := close_archive_session (t_session_id t) s in
      set_tabs (List.filter (fun p => negb (p.1 =? id)%Z) (tabs s)) s
  end.

(** The close button of a tab without guarded operations ([TabBarAction::Close] of
    [update.rs]), which is also what closing other tabs and tabs to the right do to
    each. *)
Definition plain_close (id : Z) (s : Shared) : Shared :=
  set_tabs (List.filter (fun p => negb (p.1 =? id)%Z) (tabs s)) s.

Definition new_extraction_dialog : ExtractionDialog := mk_extraction false StRunning 0 [] [] [] [] None.

Definition new_signals (path : option str) : Tab :=
  mk_btab path None None (mk_encryption false false None) None (for_session None) (mk_inventory None None)
    default_entries default_selection 0 [] default_password_dialog new_extraction_dialog None None None None.

(** [replace_active], with the close that its callers make first: the tab keeps its id
    and its place, and its state is a new one. *)
Definition replace_tab (id : Z) (path : str) (s : Shared) : Shared :=
  match get_tab id s with
  | None => s
  | Some t => update_tab id (fun _ => new_signals (Some path)) (close_archive_session (t_session_id t) s)
  end.

Definition open_tab (new_id : Z) (path : option str) (s : Shared) : Shared :=
  set_tabs (tabs s ++ [(new_id, new_signals path)]) s.
End bridge.
