(* ===== verification/BridgeProps.v ===== *)
(** What the bridge keeps true of the window: which operations are tracked, which
    challenges are waiting and shown, which archive sessions are held or given back,
    and what a tab shows after an open. *)

From stdpp Require Import base tactics option list gmap sorting strings.
From Stdlib Require Import ZArith Lia Ascii.
From S2P Require Import Prelude Text Archive EntryIndex EntryIndexProps ArchiveSession ArchiveMutation AppError Registry RustPath Listing ListingProps BrowserView Bridge.

Open Scope arclain_scope.

Section bridge_props.
Context `{UT : UnicodeTables} `{CF : Crc32Fast} `{LZ : LocalZone} {Json : Type} {PluginUpdate : Type}.

Abbreviation Shared := (Shared (Json := Json)).
Abbreviation Tab := (Tab (Json := Json)).
Abbreviation Answers := (Answers (Json := Json) (PluginUpdate := PluginUpdate)).
Abbreviation OperationEvent := (@OperationEvent (bridge_payloads (Json := Json) (PluginUpdate := PluginUpdate))).

(** * Tabs *)

Lemma origins_update id f (s : Shared) : origins (update_tab id f s) = origins s.
Proof. done. Qed.
Lemma sent_update id f (s : Shared) : sent (update_tab id f s) = sent s.
Proof. done. Qed.

Lemma get_tab_elem id (s : Shared) t : get_tab id s = Some t -> (id, t) ∈ tabs s.
Proof.
  unfold get_tab. destruct (find _ (tabs s)) as [[i u]|] eqn:E; [|done]. intros [= <-].
  apply find_some in E as [Hin Hi%Z.eqb_eq]. cbn in Hi. subst i. by apply list_elem_of_In.
Qed.

Lemma get_tab_tabs id (s u : Shared) : tabs u = tabs s -> get_tab id u = get_tab id s.
Proof. unfold get_tab. by intros ->. Qed.

Lemma get_tab_update id f (s : Shared) : get_tab id (update_tab id f s) = f <$> get_tab id s.
Proof.
  unfold get_tab, update_tab. cbn [tabs set_tabs]. generalize (tabs s) as l.
  induction l as [|[i t] l IH]; [done|]. cbn [map find fst]. destruct (i =? id)%Z eqn:E; cbn [fst]; rewrite E; done.
Qed.

Lemma get_tab_update_ne id id' f (s : Shared) : id <> id' -> get_tab id (update_tab id' f s) = get_tab id s.
Proof.
  intros Hne. unfold get_tab, update_tab. cbn [tabs set_tabs]. generalize (tabs s) as l.
  induction l as [|[i t] l IH]; [done|]. cbn [map find fst].
  destruct (Z.eqb_spec i id') as [->|]; cbn [fst].
  - by rewrite (proj2 (Z.eqb_neq _ _)) by done.
  - by destruct (i =? id)%Z.
Qed.

Definition all_tabs (P : Tab -> Prop) (s : Shared) : Prop := Forall P (tabs s).*2.

Lemma all_tabs_get (P : Tab -> Prop) s id t : all_tabs P s -> get_tab id s = Some t -> P t.
Proof.
  intros H Hg%get_tab_elem. unfold all_tabs in H. rewrite Forall_forall in H. apply H.
  apply list_elem_of_fmap. by exists (id, t).
Qed.

Lemma all_tabs_update (P : Tab -> Prop) s id f :
  all_tabs P s -> (forall t, P t -> P (f t)) -> all_tabs P (update_tab id f s).
Proof.
  unfold all_tabs, update_tab. cbn [tabs set_tabs]. intros H Hf. induction (tabs s) as [|[i t] l IH]; [constructor|].
  cbn in H |- *. apply Forall_cons in H as [Ht Hl]. constructor; [|by apply IH]. destruct (i =? id)%Z; cbn; auto.
Qed.

Lemma all_tabs_put (P : Tab -> Prop) s id t : all_tabs P s -> P t -> all_tabs P (update_tab id (fun _ => t) s).
Proof. intros H Ht. by apply all_tabs_update. Qed.

Lemma all_tabs_filter (P : Tab -> Prop) (s : Shared) g :
  all_tabs P s -> all_tabs P (set_tabs (List.filter g (tabs s)) s).
Proof.
  unfold all_tabs. cbn [tabs set_tabs]. intros H. induction (tabs s) as [|[i t] l IH]; [done|].
  apply Forall_cons in H as [Ht Hl]. cbn [List.filter]. destruct (g (i, t)); [constructor; auto|auto].
Qed.

(** What the handlers that list and draw leave alone. *)
Definition same_holds (t t' : Tab) : Prop :=
  t_session_id t' = t_session_id t /\ t_challenges t' = t_challenges t
  /\ t_password_dialog t' = t_password_dialog t.

Lemma same_holds_refl t : same_holds t t.
Proof. done. Qed.

Lemma same_holds_trans t u v : same_holds t u -> same_holds u v -> same_holds t v.
Proof. unfold same_holds. intuition congruence. Qed.

Lemma fetch_holds (ans : Answers) i t : same_holds t (fetch_and_adopt_inventory ans i t).2.
Proof. unfold fetch_and_adopt_inventory. destruct (list_all_entries ans i); done. Qed.

Lemma relist_holds (ans : Answers) p t : same_holds t (relist_for_browser_signals ans p t).2.
Proof.
  unfold relist_for_browser_signals. destruct (t_session_id t) as [i|] eqn:E; [|done].
  set (u := set_t_entries _ _). pose proof (fetch_holds ans i u) as H.
  destruct (fetch_and_adopt_inventory ans i u) as [[|] v]; cbn in *; (eapply same_holds_trans; [|exact H]); done.
Qed.

Lemma refresh_holds (ans : Answers) i t : same_holds t (refresh_entries_after_mutation ans i t).2.
Proof.
  unfold refresh_entries_after_mutation. pose proof (fetch_holds ans i t) as H.
  destruct (fetch_and_adopt_inventory ans i t) as [[|] v]; cbn in *; done.
Qed.

Lemma refresh_snapshot_holds (ans : Answers) i t : same_holds t (refresh_snapshot_signal ans i t).
Proof. unfold refresh_snapshot_signal. destruct (archive_snapshot ans i); [|done]. by case_bool_decide. Qed.

Lemma retry_holds t : same_holds t (retry_after_unlock t).
Proof. unfold retry_after_unlock. by destruct (t_open_after_unlock t). Qed.

Lemma settle_holds e t : same_holds t (settle_a_tab_that_never_listed e t).
Proof. unfold settle_a_tab_that_never_listed. destruct e; [done|]. by case_match. Qed.

Lemma dequeue_session id (t : Tab) : t_session_id (dequeue_and_present_next id t) = t_session_id t.
Proof. done. Qed.

(** * Challenges *)

(** A challenge that waits is behind a dialog that is shown, and is one the dialog can
    answer. *)
Definition presented (t : Tab) : Prop :=
  (t_challenges t <> [] -> pd_show (t_password_dialog t) = true)
  /\ Forall (fun p => match pc_challenge p with Password _ _ _ => True | _ => False end) (t_challenges t).

Lemma presented_same t t' : same_holds t t' -> presented t -> presented t'.
Proof. unfold presented. intros (_ & -> & ->). done. Qed.

Lemma presented_dequeue id t : presented t -> presented (dequeue_and_present_next id t).
Proof.
  intros [_ Hp]. unfold dequeue_and_present_next, presented. cbn. set (q := List.filter _ _). split.
  - by destruct q.
  - subst q. induction (t_challenges t) as [|c l IH]; [constructor|]. apply Forall_cons in Hp as [Hc Hl].
    cbn [List.filter]. destruct (negb _); [constructor; auto|auto].
Qed.

Lemma presented_update id f (s : Shared) :
  (forall t, same_holds t (f t)) -> all_tabs presented s -> all_tabs presented (update_tab id f s).
Proof. intros Hf H. apply all_tabs_update; [done|]. intros t. by apply presented_same. Qed.

Lemma presented_metadata (ans : Answers) i s :
  all_tabs presented s -> all_tabs presented (apply_current_session_metadata ans i s).
Proof.
  intros H. unfold apply_current_session_metadata. destruct (archive_snapshot ans i) as [snap|]; [|done].
  unfold buffer_or_apply_session_metadata. destruct (tab_of_session i s).
  - by apply presented_update.
  - by case_match.
Qed.

Lemma presented_buffered o i (s : Shared) :
  all_tabs presented s -> all_tabs presented (apply_buffered_session_metadata o i s).
Proof.
  intros H. unfold apply_buffered_session_metadata. destruct o; [|done].
  destruct (pending_metadata s !! i); [|done]. by apply presented_update.
Qed.

Lemma presented_finish policy id (s : Shared) :
  all_tabs presented s -> all_tabs presented (finish_archive_load policy id s).
Proof. intros H. unfold finish_archive_load. repeat case_match; done. Qed.

Lemma presented_opened (ans : Answers) policy tab id snap s :
  all_tabs presented s -> all_tabs presented (handle_open_archive_completed ans policy tab id snap s).
Proof.
  intros H. unfold handle_open_archive_completed. set (s1 := apply_buffered_session_metadata _ _ _).
  assert (all_tabs presented s1) as H1 by by apply presented_buffered.
  destruct (get_tab tab s1) as [t|]; [|done].
  set (s2 := if bool_decide _ then s1 else _).
  assert (all_tabs presented s2) as H2 by (subst s2; case_match; [done|]; by destruct (t_session_id t)).
  set (s3 := apply_current_session_metadata _ _ _).
  assert (all_tabs presented s3) as H3.
  { apply presented_metadata, all_tabs_update; [done|]. intros u Hu. by apply presented_dequeue. }
  destruct (get_tab tab s3) as [u|] eqn:Eu; [|done].
  pose proof (all_tabs_get _ _ _ _ H3 Eu) as Hu. pose proof (relist_holds ans (snap_source_path snap) u) as Hr.
  destruct (relist_for_browser_signals ans _ u) as [[e|] v]; cbn in Hr.
  - apply presented_update; [apply retry_holds|]. apply presented_finish.
    apply all_tabs_put; [done|]. by eapply presented_same.
  - apply all_tabs_put; [done|]. by eapply presented_same.
Qed.

Lemma presented_challenge tab id c (s : Shared) :
  all_tabs presented s -> all_tabs presented (handle_password_challenge tab id c s).
Proof.
  intros H. unfold handle_password_challenge. destruct (get_tab tab s) as [t|] eqn:Et; [|done].
  destruct c as [cid name attempt| | | |]; try done. pose proof (all_tabs_get _ _ _ _ H Et) as [Hs Hp].
  apply all_tabs_put; [done|]. destruct (bool_decide (t_challenges t = [])) eqn:E; cbn [negb]; (split; cbn).
  - done.
  - apply Forall_app; split; [done|by repeat constructor].
  - intros _. apply Hs. by apply bool_decide_eq_false in E.
  - apply Forall_app; split; [done|by repeat constructor].
Qed.

Lemma presented_refresh (ans : Answers) tab s :
  all_tabs presented s -> all_tabs presented (refresh_tab_after_archive_modify ans tab s).
Proof.
  intros H. unfold refresh_tab_after_archive_modify. destruct (get_tab tab s) as [t|] eqn:Et; [|done].
  destruct (t_session_id t) as [i|]; [|done]. pose proof (all_tabs_get _ _ _ _ H Et) as Ht.
  pose proof (refresh_holds ans i (refresh_snapshot_signal ans i t)) as Hr.
  destruct (refresh_entries_after_mutation ans i _) as [r u]. cbn in Hr.
  assert (all_tabs presented (update_tab tab (fun _ => u) s)) as Hs.
  { apply all_tabs_put; [done|]. eapply presented_same; [|exact Ht].
    eapply same_holds_trans; [apply refresh_snapshot_holds|exact Hr]. }
  by destruct r.
Qed.

Lemma presented_materialized m id lease (s : Shared) :
  all_tabs presented s -> all_tabs presented (handle_materialize_completed m id lease s).
Proof.
  intros H. unfold handle_materialize_completed, take_action. cbn zeta iota beta.
  destruct (actions _ !! _); [|done]. repeat case_match; done.
Qed.

Lemma presented_event (ans : Answers) m policy tab (e : OperationEvent) s :
  all_tabs presented s -> all_tabs presented (handle_tab_event ans m policy tab e s).
Proof.
  intros H. unfold handle_tab_event.
  assert (forall f, (forall t, presented t -> presented (f t)) ->
    all_tabs presented (update_tab tab f (forget_origin (operation_id e) s))) as Hforget
    by (intros f Hf; by apply all_tabs_update).
  assert (forall st text, all_tabs presented (handle_extract_terminal tab (operation_id e) st text s)) as Hext.
  { intros st text. unfold handle_extract_terminal. destruct (get_tab _ _); [|done].
    apply Hforget. intros u Hu. by apply presented_dequeue. }
  assert (forall o, all_tabs presented (handle_organize_terminal tab (operation_id e) o s)) as Horg.
  { intros o. unfold handle_organize_terminal. destruct o; apply Hforget; intros t Ht; by apply presented_dequeue. }
  assert (forall o, all_tabs presented (handle_open_archive_failed_or_cancelled tab (operation_id e) o s)) as Hopen.
  { intros o. unfold handle_open_archive_failed_or_cancelled. destruct (get_tab _ _); [|done].
    destruct o; apply Hforget; intros u Hu; (eapply presented_same; [apply settle_holds|]); by apply presented_dequeue. }
  destruct (event_state e) as [| |cu tu msg|c|si r|r| |err].
  4: { destruct (event_kind e), c; by first [apply presented_challenge|done]. }
  all: destruct (event_kind e); try done; try by apply presented_update.
  - by destruct msg.
  - destruct (get_tab tab s); [|done]. case_bool_decide; [|done].
    apply presented_update; [apply refresh_snapshot_holds|done].
  - apply presented_refresh, H.
  - destruct r; try done. by apply presented_materialized.
  - destruct r; done.
  - destruct r; try done. by apply presented_opened.
Qed.

(** * Tracked operations *)

Lemma origins_metadata (ans : Answers) i s : origins (apply_current_session_metadata ans i s) = origins s.
Proof.
  unfold apply_current_session_metadata, buffer_or_apply_session_metadata.
  destruct (archive_snapshot ans i); [|done]. destruct (tab_of_session _ _); [done|]. by case_match.
Qed.

Lemma origins_buffered o i (s : Shared) : origins (apply_buffered_session_metadata o i s) = origins s.
Proof.
  unfold apply_buffered_session_metadata. destruct o; [|done]. by destruct (pending_metadata s !! i).
Qed.

Lemma origins_close o (s : Shared) : origins (close_archive_session o s) = origins s.
Proof. by destruct o. Qed.

Lemma origins_finish policy id (s : Shared) : origins (finish_archive_load policy id s) = origins s.
Proof. unfold finish_archive_load. by repeat case_match. Qed.

Lemma origins_opened (ans : Answers) policy tab id snap s :
  origins (handle_open_archive_completed ans policy tab id snap s) = delete id (origins s).
Proof.
  unfold handle_open_archive_completed. set (s1 := apply_buffered_session_metadata _ _ _).
  assert (origins s1 = delete id (origins s)) as H1 by (subst s1; by rewrite origins_buffered).
  destruct (get_tab tab s1) as [t|]; [|by rewrite origins_close].
  set (s3 := apply_current_session_metadata _ _ _).
  assert (origins s3 = delete id (origins s)) as H3.
  { subst s3. rewrite origins_metadata, origins_update. case_bool_decide; [done|]. by rewrite origins_close. }
  destruct (get_tab tab s3) as [u|]; [|done].
  destruct (relist_for_browser_signals ans _ u) as [[e|] v]; [|done].
  rewrite origins_update. cbn. by rewrite origins_finish.
Qed.

Lemma origins_refresh (ans : Answers) tab s : origins (refresh_tab_after_archive_modify ans tab s) = origins s.
Proof.
  unfold refresh_tab_after_archive_modify. destruct (get_tab tab s) as [t|]; [|done].
  destruct (t_session_id t) as [i|]; [|done]. by destruct (refresh_entries_after_mutation _ _ _) as [[|] u].
Qed.

Lemma origins_materialized m id lease (s : Shared) :
  origins (handle_materialize_completed m id lease s) = delete id (origins s).
Proof.
  unfold handle_materialize_completed, take_action. cbn zeta iota beta.
  destruct (actions _ !! _); [|done]. by repeat case_match.
Qed.

(** An operation is tracked until its terminal event. *)
Lemma origins_event (ans : Answers) m policy tab (e : OperationEvent) s :
  origins (handle_tab_event ans m policy tab e s)
  = if is_terminal (event_state e) then delete (operation_id e) (origins s) else origins s.
Proof.
  unfold handle_tab_event.
  assert (forall st text, origins (handle_extract_terminal tab (operation_id e) st text s) = delete (operation_id e) (origins s))
    as Hext by (intros; unfold handle_extract_terminal; by destruct (get_tab _ _)).
  assert (forall o, origins (handle_organize_terminal tab (operation_id e) o s) = delete (operation_id e) (origins s))
    as Horg by (intros []; done).
  assert (forall o, origins (handle_open_archive_failed_or_cancelled tab (operation_id e) o s) = delete (operation_id e) (origins s))
    as Hopen by (intros o; unfold handle_open_archive_failed_or_cancelled; destruct (get_tab _ _); [by destruct o|done]).
  destruct (event_state e) as [| |cu tu msg|c|si r|r| |err]; cbn [is_terminal].
  4: { destruct (event_kind e), c; try done; unfold handle_password_challenge; by destruct (get_tab tab s). }
  all: destruct (event_kind e); try done; try apply Hext; try apply Horg; try apply Hopen.
  - by destruct msg.
  - destruct (get_tab tab s); [|done]. by case_bool_decide.
  - unfold handle_archive_modify_completed. cbn. by rewrite origins_refresh.
  - destruct r; try done. apply origins_materialized.
  - destruct r; first [done|apply Hext].
  - destruct r; try done. apply origins_opened.
Qed.

(** * What the window goes through *)

Context (handle_plugin : OperationEvent -> Shared -> Shared).
Context (fail_plugin : OperationId -> Shared -> option Shared).
(** The operations of tabs are not in the registry of plugin actions. *)
Context (plugins_apart : forall id s, is_Some (origins s !! id) -> fail_plugin id s = None).

Inductive BridgeStep :=
| Delivered (ans : Answers) (m : Machine) (policy : str) (e : OperationEvent)
| Reconciled (ans : Answers) (m : Machine) (policy : str) (id : OperationId)
| Dispatched (id : OperationId) (tab : Z)
| Tracked (id : OperationId) (tab : Z)
| Planned (id : OperationId) (a : MaterializationAction)
| Announced (ans : Answers) (session_id : Z)
| Typed (active : Z) (password : str) (result : PasswordDialogResult)
| Prompted (tab session_id : Z)
| PromptedFor (active : Z) (requested : option str)
| Backfilled (ans : Answers) (tab session_id : Z)
| Renewed (now : Z)
| RenewalFailed (lease : Z)
| ConfirmedClose (tab : Z)
| Replaced (tab : Z) (path : str)
| OpenedTab (new_tab : Z) (path : option str).

Definition bridge_step (st : BridgeStep) (s : Shared) : Shared :=
  match st with
  | Delivered ans m policy e => handle_event handle_plugin ans m policy e s
  | Reconciled ans m policy id => reconcile_one handle_plugin fail_plugin ans m policy id s
  | Dispatched id tab => open_dispatched id tab s
  | Tracked id tab => register_origin id tab s
  | Planned id a => register_action id a s
  | Announced ans i => handle_session_event ans i s
  | Typed active password result => answer_password active password result s
  | Prompted tab i => prompt_on_open tab i s
  | PromptedFor active requested => prompt_for_extraction active requested s
  | Backfilled ans tab i => backfill_landed ans tab i s
  | Renewed now => renew_due_external_open_leases now s
  | RenewalFailed lease => forget_lease lease s
  | ConfirmedClose tab => confirm_close tab s
  | Replaced tab path => replace_tab tab path s
  | OpenedTab new_tab path => open_tab new_tab path s
  end.

(** Events are of operations of tabs; what is reconciled is tracked, and the registry
    answers with the operation it was asked about; new tabs have new ids. *)
Definition step_allowed (st : BridgeStep) (s : Shared) : Prop :=
  match st with
  | Delivered _ _ _ e => event_kind e <> PluginAction
  | Reconciled ans _ _ id =>
      is_Some (origins s !! id)
      /\ forall snap, operation_snapshot ans id = Some snap ->
           snap_operation_id snap = id /\ snap_kind snap <> PluginAction
  | OpenedTab new_tab _ => new_tab ∉ (tabs s).*1
  | _ => True
  end.

Definition bridge_run (sts : list BridgeStep) (s : Shared) : Shared := foldl (fun s st => bridge_step st s) s sts.

Fixpoint run_allowed (sts : list BridgeStep) (s : Shared) : Prop :=
  match sts with
  | [] => True
  | st :: sts' => step_allowed st s /\ run_allowed sts' (bridge_step st s)
  end.

Definition launch_window (first : Z) : Shared :=
  mk_shared [(first, new_signals None)] ∅ ∅ ∅ ∅ [] None [].

Lemma run_invariant (I : Shared -> Prop) :
  (forall st s, step_allowed st s -> I s -> I (bridge_step st s)) ->
  forall sts s, run_allowed sts s -> I s -> I (bridge_run sts s).
Proof.
  intros Hstep sts. induction sts as [|st sts IH]; intros s Ha Hi; [done|]. destruct Ha as [H1 H2].
  apply IH; [done|]. by apply Hstep.
Qed.

(** What an allowed reconciliation does. *)
Lemma reconcile_cases ans m policy id s :
  step_allowed (Reconciled ans m policy id) s ->
  (exists e tab, operation_id e = id /\ event_kind e <> PluginAction /\ origins s !! id = Some tab
     /\ reconcile_one handle_plugin fail_plugin ans m policy id s = handle_tab_event ans m policy tab e s)
  \/ (exists tab, origins s !! id = Some tab
     /\ reconcile_one handle_plugin fail_plugin ans m policy id s
        = forget_origin id
            (update_tab tab
               (fun t => dequeue_and_present_next id (set_t_pending_open None (set_t_active_extraction None
                  (hide_extraction (ed_status (t_extraction t)) t)))) s)).
Proof.
  intros [[tab Ht] Hs]. unfold reconcile_one. destruct (operation_snapshot ans id) as [snap|].
  - left. destruct (Hs snap eq_refl) as [E Hk]. exists (snapshot_to_event snap), tab. split_and!; try done.
    unfold handle_event. cbn [event_kind operation_id snapshot_to_event].
    rewrite bool_decide_false by done. by rewrite E, Ht.
  - right. exists tab. rewrite (plugins_apart id s) by eauto. by rewrite Ht.
Qed.

Lemma deliver_cases ans m policy e s :
  step_allowed (Delivered ans m policy e) s ->
  (origins s !! operation_id e = None /\ handle_event handle_plugin ans m policy e s = s)
  \/ (exists tab, origins s !! operation_id e = Some tab
     /\ handle_event handle_plugin ans m policy e s = handle_tab_event ans m policy tab e s).
Proof.
  intros Hk. unfold handle_event. rewrite bool_decide_false by done.
  destruct (origins s !! operation_id e) as [tab|]; eauto.
Qed.

(** * Sessions *)

Definition close_of (r : Request) : option Z := match r with CloseArchive i => Some i | _ => None end.

(** Which session each tab holds, and which the application was asked to close. *)
Definition stamps (s : Shared) : list (Z * option Z) := map (fun p => (p.1, t_session_id p.2)) (tabs s).
Definition closes (s : Shared) : list Z := omap close_of (sent s).
Definition held (s : Shared) : list Z := omap snd (stamps s).

Definition same_sessions (s s' : Shared) : Prop := stamps s' = stamps s /\ closes s' = closes s.

Lemma same_sessions_refl s : same_sessions s s.
Proof. done. Qed.

Lemma same_sessions_trans s u v : same_sessions s u -> same_sessions u v -> same_sessions s v.
Proof. unfold same_sessions. intuition congruence. Qed.

Lemma stamps_ids s : (stamps s).*1 = (tabs s).*1.
Proof. unfold stamps. induction (tabs s) as [|[i t] l IH]; [done|]. cbn. by rewrite IH. Qed.

Lemma sessions_update id f s :
  (forall t, t_session_id (f t) = t_session_id t) -> same_sessions s (update_tab id f s).
Proof.
  intros Hf. split; [|done]. unfold stamps, update_tab. cbn [tabs set_tabs].
  induction (tabs s) as [|[i t] l IH]; [done|]. cbn [map fst snd]. rewrite IH. destruct (i =? id)%Z; cbn; by rewrite ?Hf.
Qed.

Lemma stamps_put id t s :
  NoDup (tabs s).*1 -> is_Some (get_tab id s) ->
  stamps (update_tab id (fun _ => t) s)
  = map (fun p => if (p.1 =? id)%Z then (p.1, t_session_id t) else p) (stamps s).
Proof.
  intros _ _. unfold stamps, update_tab. cbn [tabs set_tabs].
  induction (tabs s) as [|[i u] l IH]; [done|]. cbn [map fst snd]. rewrite IH. by destruct (i =? id)%Z.
Qed.

Lemma stamps_same id o s :
  NoDup (tabs s).*1 -> (exists t, get_tab id s = Some t /\ t_session_id t = o) ->
  map (fun p => if (p.1 =? id)%Z then (p.1, o) else p) (stamps s) = stamps s.
Proof.
  intros Hnd (t & Hg & Ho). unfold get_tab in Hg. unfold stamps.
  induction (tabs s) as [|[i u] l IH]; [done|]. cbn [map fst snd]. cbn [find fst] in Hg.
  cbn in Hnd. apply NoDup_cons in Hnd as [Hni Hnd]. destruct (Z.eqb_spec i id) as [->|Hne].
  - injection Hg as ->. rewrite Ho. f_equal. rewrite <-(map_id (map _ l)) at 2. apply map_ext_in.
    intros [j q] Hj. cbn. destruct (Z.eqb_spec j id) as [->|]; [|done]. exfalso. apply Hni.
    apply list_elem_of_In in Hj. apply list_elem_of_In, in_map_iff in Hj as ([k v] & [= -> <-] & Hin).
    apply list_elem_of_fmap. exists (id, v). split; [done|]. by apply list_elem_of_In.
  - f_equal. by apply IH.
Qed.

Lemma sessions_put id t u s :
  NoDup (tabs s).*1 -> get_tab id s = Some t -> t_session_id u = t_session_id t ->
  same_sessions s (update_tab id (fun _ => u) s).
Proof.
  intros Hnd Hg Hu. split; [|done]. rewrite stamps_put by eauto. apply stamps_same; [done|]. by exists t.
Qed.

Lemma ids_same s s' : same_sessions s s' -> (tabs s').*1 = (tabs s).*1.
Proof. intros [H _]. by rewrite <-!stamps_ids, H. Qed.

Lemma sessions_say text s : same_sessions s (say text s).
Proof. done. Qed.

Lemma sessions_send r s : close_of r = None -> same_sessions s (send r s).
Proof. intros Hr. split; [done|]. unfold closes, send. cbn. rewrite omap_app. cbn. by rewrite Hr, app_nil_r. Qed.

Lemma sessions_metadata (ans : Answers) i s : same_sessions s (apply_current_session_metadata ans i s).
Proof.
  unfold apply_current_session_metadata, buffer_or_apply_session_metadata.
  destruct (archive_snapshot ans i); [|done]. destruct (tab_of_session _ _); [by apply sessions_update|].
  by case_match.
Qed.

Lemma sessions_buffered o i s : same_sessions s (apply_buffered_session_metadata o i s).
Proof.
  unfold apply_buffered_session_metadata. destruct o as [id|]; [|done].
  destruct (pending_metadata s !! i); [|done]. by apply (sessions_update id _ (set_pending_metadata _ s)).
Qed.

Lemma sessions_finish policy id s : same_sessions s (finish_archive_load policy id s).
Proof. unfold finish_archive_load. repeat case_match; try done. by apply sessions_send. Qed.

Lemma sessions_refresh (ans : Answers) tab s :
  NoDup (tabs s).*1 -> same_sessions s (refresh_tab_after_archive_modify ans tab s).
Proof.
  intros Hnd. unfold refresh_tab_after_archive_modify. destruct (get_tab tab s) as [t|] eqn:Et; [|done].
  destruct (t_session_id t) as [i|] eqn:Ei; [|done].
  pose proof (refresh_holds ans i (refresh_snapshot_signal ans i t)) as [Hr _].
  pose proof (refresh_snapshot_holds ans i t) as [Hs _].
  destruct (refresh_entries_after_mutation ans i _) as [r u]. cbn in Hr.
  assert (same_sessions s (update_tab tab (fun _ => u) s)) as H by (eapply sessions_put; [done|exact Et|congruence]).
  by destruct r.
Qed.

Lemma sessions_challenge tab id c s :
  NoDup (tabs s).*1 -> same_sessions s (handle_password_challenge tab id c s).
Proof.
  intros Hnd. unfold handle_password_challenge. destruct (get_tab tab s) as [t|] eqn:Et; [|done].
  destruct c; try done. eapply sessions_put; [done|exact Et|]. by destruct (negb _).
Qed.

Lemma sessions_materialized m id lease s : same_sessions s (handle_materialize_completed m id lease s).
Proof.
  unfold handle_materialize_completed, take_action. cbn zeta iota beta.
  destruct (actions _ !! _) as [o|]; [|done]. set (target := match o with Some r => _ | None => _ end).
  destruct (exists_ m target), (is_archive_extension target), (spawn m target) as [[] msg]; cbn [negb];
    (split; [done|]); unfold closes; cbn; by rewrite ?omap_app, ?app_nil_r.
Qed.

(** The session an event opens. *)
Definition opening (e : OperationEvent) : option Z :=
  match event_kind e, event_state e with
  | OpenArchive, Completed (ArchiveOpened snap) => Some (snap_session_id snap)
  | _, _ => None
  end.

Lemma sessions_event (ans : Answers) m policy tab (e : OperationEvent) s :
  NoDup (tabs s).*1 -> opening e = None -> same_sessions s (handle_tab_event ans m policy tab e s).
Proof.
  intros Hnd Ho. unfold handle_tab_event, opening in *.
  assert (forall f, (forall t, t_session_id (f t) = t_session_id t) ->
    same_sessions s (update_tab tab f (forget_origin (operation_id e) s))) as Hforget
    by (intros f Hf; by apply (sessions_update tab f (forget_origin (operation_id e) s))).
  assert (forall st text, same_sessions s (handle_extract_terminal tab (operation_id e) st text s)) as Hext.
  { intros st text. unfold handle_extract_terminal. destruct (get_tab _ _); [|done]. by apply Hforget. }
  assert (forall o, same_sessions s (handle_organize_terminal tab (operation_id e) o s)) as Horg.
  { intros o. unfold handle_organize_terminal. destruct o; by apply Hforget. }
  assert (forall o, same_sessions s (handle_open_archive_failed_or_cancelled tab (operation_id e) o s)) as Hopen.
  { intros o. unfold handle_open_archive_failed_or_cancelled. destruct (get_tab _ _); [|done].
    destruct o as [err|]; apply Hforget; intros u.
    - exact (proj1 (settle_holds (Some err) _)).
    - exact (proj1 (settle_holds None _)). }
  destruct (event_state e) as [| |cu tu msg|c|si r|r| |err].
  4: { destruct (event_kind e), c; first [by apply sessions_challenge|done|by apply sessions_send]. }
  all: destruct (event_kind e); try done; try by apply sessions_update.
  - by destruct msg.
  - destruct (get_tab tab s); [|done]. case_bool_decide; [|done].
    apply sessions_update. intros u. exact (proj1 (refresh_snapshot_holds ans si u)).
  - apply sessions_refresh, Hnd.
  - destruct r; try done. by apply sessions_materialized.
  - destruct r; first [done|apply Hext].
  - by destruct r.
Qed.

Lemma get_buffered tab o i (s : Shared) :
  match get_tab tab s with
  | Some t => exists u, get_tab tab (apply_buffered_session_metadata o i s) = Some u /\ t_session_id u = t_session_id t
  | None => get_tab tab (apply_buffered_session_metadata o i s) = None
  end.
Proof.
  unfold apply_buffered_session_metadata. set (s' := set_pending_metadata _ s).
  change (get_tab tab s) with (get_tab tab s'). destruct o as [id|]; [|by destruct (get_tab tab s'); eauto].
  destruct (pending_metadata s !! i) as [md|]; [|by destruct (get_tab tab s'); eauto].
  destruct (Z.eq_dec tab id) as [->|].
  - rewrite get_tab_update. destruct (get_tab id s'); [|done]. by eexists.
  - rewrite get_tab_update_ne by done. destruct (get_tab tab s'); eauto.
Qed.

Lemma stamps_stamp tab id snap (s : Shared) :
  stamps (update_tab tab (stamp id snap) s)
  = map (fun p => if (p.1 =? tab)%Z then (p.1, Some (snap_session_id snap)) else p) (stamps s).
Proof.
  unfold stamps, update_tab. cbn [tabs set_tabs].
  induction (tabs s) as [|[j v] l IH]; [done|]. cbn [map fst snd]. rewrite IH. by destruct (j =? tab)%Z.
Qed.

Lemma closes_close i (s : Shared) : closes (send (CloseArchive i) s) = closes s ++ [i].
Proof. unfold closes, send. cbn [sent set_sent]. by rewrite omap_app. Qed.

(** What an open does to the sessions: the tab's old one is given back; the new one is, when
    the tab is gone. *)
Lemma sessions_opened (ans : Answers) policy tab id snap s :
  NoDup (tabs s).*1 ->
  let s' := handle_open_archive_completed ans policy tab id snap s in
  let i := snap_session_id snap in
  match get_tab tab s with
  | None => stamps s' = stamps s /\ closes s' = closes s ++ [i]
  | Some t =>
      stamps s' = map (fun p => if (p.1 =? tab)%Z then (p.1, Some i) else p) (stamps s)
      /\ closes s' = closes s ++ (if bool_decide (t_session_id t = Some i) then [] else option_list (t_session_id t))
  end.
Proof.
  intros Hnd s' i. subst s'. unfold handle_open_archive_completed.
  change (get_tab tab (forget_origin id s)) with (get_tab tab s).
  set (s1 := apply_buffered_session_metadata _ _ _).
  assert (same_sessions (forget_origin id s) s1) as Hs1 by apply sessions_buffered.
  assert (match get_tab tab s with
          | Some t => exists u, get_tab tab s1 = Some u /\ t_session_id u = t_session_id t
          | None => get_tab tab s1 = None end) as Hg.
  { apply (get_buffered tab _ i (forget_origin id s)). }
  clearbody s1. destruct (get_tab tab s) as [t|] eqn:Et.
  2: { rewrite Hg. destruct Hs1 as [Hst Hc]. split; [exact Hst|]. cbn [close_archive_session]. rewrite closes_close. by rewrite Hc. }
  destruct Hg as (u & Hu & Eu). rewrite Hu, Eu. fold i.
  set (s2 := if bool_decide (t_session_id t = Some i) then s1 else _).
  assert (stamps s2 = stamps s /\ tabs s2 = tabs s1
    /\ closes s2 = closes s ++ (if bool_decide (t_session_id t = Some i) then [] else option_list (t_session_id t))) as (St2 & T2 & C2).
  { destruct Hs1 as [Hst Hc]. subst s2. case_bool_decide; [split_and!; [done|done|by rewrite Hc, app_nil_r]|].
    destruct (t_session_id t) as [j|]; cbn [close_archive_session option_list]; [|split_and!; [done|done|by rewrite Hc, app_nil_r]].
    split_and!; [exact Hst|done|]. rewrite closes_close. by rewrite Hc. }
  set (s3 := apply_current_session_metadata ans i (update_tab tab (stamp id snap) s2)).
  assert (stamps (update_tab tab (stamp id snap) s2)
    = map (fun p => if (p.1 =? tab)%Z then (p.1, Some i) else p) (stamps s)) as St2'.
  { rewrite <-St2. apply stamps_stamp. }
  pose proof (sessions_metadata ans i (update_tab tab (stamp id snap) s2)) as [St3 C3]. fold s3 in St3, C3.
  rewrite St2' in St3. change (closes (update_tab tab (stamp id snap) s2)) with (closes s2) in C3. rewrite C2 in C3.
  assert (NoDup (tabs s3).*1) as Hnd3.
  { rewrite <-stamps_ids, St3. rewrite <-(stamps_ids s) in Hnd. clear -Hnd.
    assert ((map (fun p => if (p.1 =? tab)%Z then (p.1, Some i) else p) (stamps s)).*1 = (stamps s).*1) as ->; [|done].
    induction (stamps s) as [|[j v] l IH]; [done|]. cbn. rewrite IH; [by destruct (j =? tab)%Z|].
    by apply NoDup_cons in Hnd as [_ ?]. }
  destruct (get_tab tab s3) as [v|] eqn:Ev; [|done].
  pose proof (relist_holds ans (snap_source_path snap) v) as [Hr _].
  destruct (relist_for_browser_signals ans _ v) as [[[]|err] w]; cbn in Hr.
  - assert (same_sessions s3 (update_tab tab retry_after_unlock
      (say §"Archive loaded successfully" (finish_archive_load policy tab (update_tab tab (fun _ => w) s3))))) as [-> ->]; [|done].
    eapply same_sessions_trans; [by eapply sessions_put|]. eapply same_sessions_trans; [apply sessions_finish|].
    eapply same_sessions_trans; [apply sessions_say|]. apply sessions_update. intros x. exact (proj1 (retry_holds x)).
  - assert (same_sessions s3 (update_tab tab (fun _ => set_t_listing (fail_unlisted err (t_listing w)).2 w) s3)) as [H1 H2].
    { by eapply sessions_put. }
    split; [by rewrite <-St3, <-H1|by rewrite <-C3, <-H2].
Qed.
(** The session that a step brings to the window. *)
Definition session_opened (st : BridgeStep) (s : Shared) : option Z :=
  match st with
  | Delivered _ _ _ e => if bool_decide (is_Some (origins s !! operation_id e)) then opening e else None
  | Reconciled ans _ _ id => snap ← operation_snapshot ans id; opening (snapshot_to_event snap)
  | _ => None
  end.

Fixpoint sessions_opened_by (sts : list BridgeStep) (s : Shared) : list Z :=
  match sts with
  | [] => []
  | st :: sts' => option_list (session_opened st s) ++ sessions_opened_by sts' (bridge_step st s)
  end.

Lemma stamp_held tab i (l : list (Z * option Z)) o :
  NoDup l.*1 -> (tab, o) ∈ l ->
  omap snd (map (fun p => if (p.1 =? tab)%Z then (p.1, Some i) else p) l) ++ option_list o ≡ₚ i :: omap snd l.
Proof.
  intros Hnd Hin. induction l as [|[j v] l IH]; [by apply elem_of_nil in Hin|].
  cbn in Hnd. apply NoDup_cons in Hnd as [Hj Hnd]. cbn [map fst].
  apply elem_of_cons in Hin as [[= -> ->]|Hin].
  - rewrite Z.eqb_refl. assert (map (fun p => if (p.1 =? j)%Z then (p.1, Some i) else p) l = l) as ->.
    { rewrite <-(map_id l) at 2. apply map_ext_in. intros [k w] Hk%list_elem_of_In. cbn.
      destruct (Z.eqb_spec k j) as [->|]; [|done]. exfalso. apply Hj, list_elem_of_fmap. by exists (j, w). }
    destruct v; cbn; [|by rewrite app_nil_r]. constructor. by rewrite Permutation_app_comm.
  - assert (j <> tab) as Hne by (intros ->; apply Hj, list_elem_of_fmap; by exists (tab, o)).
    rewrite (proj2 (Z.eqb_neq j tab)) by done. specialize (IH Hnd Hin).
    destruct v; cbn; [|done]. rewrite IH. by constructor.
Qed.

Lemma drop_held id (l : list (Z * option Z)) o :
  NoDup l.*1 -> (id, o) ∈ l ->
  omap snd (List.filter (fun p => negb (p.1 =? id)%Z) l) ++ option_list o ≡ₚ omap snd l.
Proof.
  intros Hnd Hin. induction l as [|[j v] l IH]; [by apply elem_of_nil in Hin|].
  cbn in Hnd. apply NoDup_cons in Hnd as [Hj Hnd]. cbn [List.filter fst].
  apply elem_of_cons in Hin as [[= -> ->]|Hin].
  - rewrite Z.eqb_refl. cbn [negb]. assert (List.filter (fun p => negb (p.1 =? j)%Z) l = l) as ->.
    { apply forallb_filter_id, forallb_forall. intros [k w] Hk%list_elem_of_In. cbn.
      destruct (Z.eqb_spec k j) as [->|]; [|done]. exfalso. apply Hj, list_elem_of_fmap. by exists (j, w). }
    destruct v; cbn; [by rewrite Permutation_app_comm|by rewrite app_nil_r].
  - assert (j <> id) as Hne by (intros ->; apply Hj, list_elem_of_fmap; by exists (id, o)).
    rewrite (proj2 (Z.eqb_neq j id)) by done. cbn [negb]. specialize (IH Hnd Hin).
    destruct v; cbn; [|done]. by rewrite IH.
Qed.

Lemma get_stamp id t (s : Shared) : get_tab id s = Some t -> (id, t_session_id t) ∈ stamps s.
Proof. intros H%get_tab_elem. unfold stamps. apply list_elem_of_fmap. by exists (id, t). Qed.

Lemma closes_close_opt o (s : Shared) : closes (close_archive_session o s) = closes s ++ option_list o.
Proof. destruct o; [apply closes_close|by rewrite app_nil_r]. Qed.

(** What one step does to the account of sessions. *)
Definition accounts (st : BridgeStep) (s s' : Shared) : Prop :=
  NoDup (tabs s').*1 /\ held s' ++ closes s' ≡ₚ option_list (session_opened st s) ++ held s ++ closes s.

Lemma accounts_same st s s' :
  NoDup (tabs s).*1 -> session_opened st s = None -> same_sessions s s' -> accounts st s s'.
Proof.
  intros Hnd Ho Hs. split; [by rewrite (ids_same _ _ Hs)|]. rewrite Ho. destruct Hs as [Hs ->]. unfold held. by rewrite Hs.
Qed.
Lemma accounts_event st (ans : Answers) m policy tab (e : OperationEvent) s :
  NoDup (tabs s).*1 -> session_opened st s = opening e ->
  (forall i, opening e = Some i -> i ∉ held s) ->
  accounts st s (handle_tab_event ans m policy tab e s).
Proof.
  intros Hnd Ho Hf. destruct (opening e) as [i|] eqn:Eo.
  2: { apply accounts_same; [done|done|]. by apply sessions_event. }
  specialize (Hf i eq_refl). unfold opening in Eo. destruct (event_kind e) eqn:Ek; try done.
  destruct (event_state e) as [| | | | |r| |] eqn:Es; try done. destruct r as [|snap| | |]; try done.
  injection Eo as <-. unfold handle_tab_event. rewrite Ek, Es.
  pose proof (sessions_opened ans policy tab (operation_id e) snap s Hnd) as H. cbn zeta in H.
  set (s' := handle_open_archive_completed _ _ _ _ _ _) in *. unfold accounts. rewrite Ho. cbn [option_list].
  destruct (get_tab tab s) as [t|] eqn:Et.
  - destruct H as [H1 H2]. rewrite <-stamps_ids, H1. split.
    + rewrite <-stamps_ids in Hnd. rewrite <-list_fmap_compose.
      erewrite list_fmap_ext; [exact Hnd|]. intros k [j v] _. cbn. by destruct (j =? tab)%Z.
    + pose proof (get_stamp _ _ _ Et) as Hin.
      assert (t_session_id t <> Some (snap_session_id snap)) as Hne.
      { intros E. apply Hf. unfold held. apply list_elem_of_omap. exists (tab, t_session_id t). by rewrite E in *. }
      rewrite bool_decide_false in H2 by done. rewrite H2. unfold held at 1. rewrite H1.
      rewrite <-stamps_ids in Hnd. rewrite (Permutation_app_comm (closes s)), (assoc _).
      rewrite (stamp_held tab (snap_session_id snap) (stamps s) _ Hnd Hin). done.
  - destruct H as [H1 H2]. split; [by rewrite <-stamps_ids, H1, stamps_ids|].
    unfold held. rewrite H1, H2, (assoc _). by rewrite (Permutation_app_comm _ [_]).
Qed.

Lemma stamps_filter tab (s : Shared) :
  stamps (set_tabs (List.filter (fun p => negb (p.1 =? tab)%Z) (tabs s)) s)
  = List.filter (fun p => negb (p.1 =? tab)%Z) (stamps s).
Proof.
  unfold stamps. cbn [tabs set_tabs]. induction (tabs s) as [|[j v] l IH]; [done|].
  cbn [List.filter map fst]. destruct (j =? tab)%Z; cbn [negb map fst snd]; by rewrite <-?IH.
Qed.

Lemma sublist_keys {B} (p : Z * B -> bool) (l : list (Z * B)) : sublist (List.filter p l).*1 l.*1.
Proof. induction l as [|a l IH]; cbn; [constructor|]. destruct (p a); by constructor. Qed.

Lemma accounts_confirm tab (s : Shared) : NoDup (tabs s).*1 -> accounts (ConfirmedClose tab) s (confirm_close tab s).
Proof.
  intros Hnd. unfold confirm_close. destruct (get_tab tab s) as [t|] eqn:Et; [|by apply accounts_same].
  set (s1 := match t_active_extraction t with Some op => _ | None => s end).
  assert (same_sessions s s1) as H1 by (subst s1; destruct (t_active_extraction t); [by apply sessions_send|apply same_sessions_refl]).
  set (s2 := match t_pending_open t with Some op => _ | None => s1 end).
  assert (same_sessions s s2) as H2.
  { eapply same_sessions_trans; [exact H1|]. subst s2. destruct (t_pending_open t); [by apply sessions_send|apply same_sessions_refl]. }
  clearbody s1 s2. cbn zeta. set (s3 := close_archive_session (t_session_id t) s2).
  assert (stamps s3 = stamps s /\ closes s3 = closes s ++ option_list (t_session_id t)) as [Hst Hc].
  { destruct H2 as [Ha Hb]. subst s3. rewrite closes_close_opt, Hb. split; [|done]. by destruct (t_session_id t); rewrite <-Ha. }
  assert (stamps (set_tabs (List.filter (fun p => negb (p.1 =? tab)%Z) (tabs s3)) s3)
          = List.filter (fun p => negb (p.1 =? tab)%Z) (stamps s)) as Hst'.
  { rewrite <-Hst. apply stamps_filter. }
  rewrite <-stamps_ids in Hnd. split.
  - rewrite <-stamps_ids, Hst'. eapply sublist_NoDup; [exact Hnd|]. apply sublist_keys.
  - unfold held at 1. rewrite Hst'. change (closes (set_tabs _ s3)) with (closes s3). rewrite Hc.
    rewrite (Permutation_app_comm (closes s)), (assoc _).
    by rewrite (drop_held tab (stamps s) (t_session_id t)) by (done || by apply get_stamp).
Qed.

Lemma unstamp_held tab o (l : list (Z * option Z)) :
  NoDup l.*1 -> (tab, o) ∈ l ->
  omap snd (map (fun p => if (p.1 =? tab)%Z then (p.1, None) else p) l) ++ option_list o ≡ₚ omap snd l.
Proof.
  intros Hnd Hin. rewrite <-(drop_held tab l o Hnd Hin). f_equiv. clear Hnd Hin.
  induction l as [|[j v] l IH]; [done|]. cbn [map List.filter fst]. destruct (j =? tab)%Z; cbn; [done|].
  destruct v; cbn; by rewrite IH.
Qed.

Lemma accounts_replace tab path (s : Shared) : NoDup (tabs s).*1 -> accounts (Replaced tab path) s (replace_tab tab path s).
Proof.
  intros Hnd. unfold replace_tab. destruct (get_tab tab s) as [t|] eqn:Et; [|by apply accounts_same].
  set (s3 := close_archive_session (t_session_id t) s).
  assert (tabs s3 = tabs s) as Ht by (subst s3; by destruct (t_session_id t)).
  assert (stamps s3 = stamps s) as Hst by (unfold stamps; by rewrite Ht).
  assert (closes s3 = closes s ++ option_list (t_session_id t)) as Hc by (subst s3; by rewrite closes_close_opt).
  assert (is_Some (get_tab tab s3)) as Hg by (rewrite (get_tab_tabs tab s) by done; by rewrite Et).
  pose proof (get_stamp _ _ _ Et) as Hin. rewrite <-Ht in Hnd.
  pose proof (stamps_put tab (new_signals (Some path)) s3 Hnd Hg) as Hp. rewrite Hst in Hp.
  rewrite Ht, <-stamps_ids in Hnd. split.
  - rewrite <-stamps_ids, Hp, <-list_fmap_compose. erewrite list_fmap_ext; [exact Hnd|].
    intros k [j v] _. cbn. by destruct (j =? tab)%Z.
  - unfold held at 1. rewrite Hp. change (closes (update_tab _ _ s3)) with (closes s3). rewrite Hc.
    rewrite (Permutation_app_comm (closes s)), (assoc _).
    by rewrite (unstamp_held tab (t_session_id t) (stamps s) Hnd Hin).
Qed.

Lemma sessions_foldl {B} (f : Shared -> B -> Shared) l s :
  (forall u b, same_sessions u (f u b)) -> same_sessions s (foldl f s l).
Proof.
  intros Hf. revert s. induction l as [|b l IH]; intros s; [apply same_sessions_refl|].
  eapply same_sessions_trans; [apply Hf|apply IH].
Qed.

Lemma sessions_renew now (s : Shared) : same_sessions s (renew_due_external_open_leases now s).
Proof.
  unfold renew_due_external_open_leases. set (due := due_for_renewal _ _ s).
  apply (same_sessions_trans _ (foldl (fun s id => mark_renewed now id s) s due)); apply sessions_foldl; [done|].
  intros u b. by apply sessions_send.
Qed.

Lemma accounts_step st s :
  step_allowed st s -> NoDup (tabs s).*1 ->
  (forall i, session_opened st s = Some i -> i ∉ held s) -> accounts st s (bridge_step st s).
Proof.
  intros Ha Hnd Hf. destruct st as [ans m policy e|ans m policy id|id tab|id tab|id a|ans i|active password result|tab i
    |active requested|ans tab i|now|lease|tab|tab path|new path]; cbn [bridge_step].
  - destruct (deliver_cases ans m policy e s Ha) as [[Ho ->]|(tab & Ho & ->)].
    + apply accounts_same; [done| |done]. cbn. by rewrite bool_decide_false by (rewrite Ho; apply is_Some_None).
    + assert (session_opened (Delivered ans m policy e) s = opening e) as E
        by (cbn; by rewrite bool_decide_true by (rewrite Ho; eauto)).
      rewrite E in Hf. by apply accounts_event.
  - pose proof Ha as [[tab Ht] Hs]. destruct (operation_snapshot ans id) as [snap|] eqn:Es.
    + destruct (Hs snap eq_refl) as [Eid Hk].
      assert (session_opened (Reconciled ans m policy id) s = opening (snapshot_to_event snap)) as E
        by (cbn; by rewrite Es).
      rewrite E in Hf. unfold reconcile_one. rewrite Es. unfold handle_event.
      rewrite bool_decide_false by done. cbn [operation_id snapshot_to_event]. rewrite Eid, Ht.
      by apply accounts_event.
    + apply accounts_same; [done|cbn; by rewrite Es|].
      destruct (reconcile_cases ans m policy id s Ha) as [(e & ? & E)|(tab' & Ht' & ->)].
      { unfold reconcile_one. rewrite Es, (plugins_apart id s), Ht by eauto. by apply (sessions_update tab _ s). }
      by apply (sessions_update tab' _ s).
  - apply accounts_same; [done|done|]. by apply sessions_update.
  - by apply accounts_same.
  - by apply accounts_same.
  - apply accounts_same; [done|done|]. apply sessions_metadata.
  - apply accounts_same; [done|done|]. unfold answer_password. destruct (get_tab active s) as [t|] eqn:Et; [|done].
    assert (t_session_id (handle_password_dialogs active (t_password_dialog t) password (Some result) t).2 = t_session_id t) as Hh.
    { unfold handle_password_dialogs. destruct (negb _); [done|]. cbn. by destruct (head _). }
    destruct (handle_password_dialogs active (t_password_dialog t) password (Some result) t) as [action u]. cbn in Hh.
    eapply same_sessions_trans; [by eapply sessions_put|]. destruct action; first [done|by apply sessions_send].
  - apply accounts_same; [done|done|]. unfold prompt_on_open. destruct (get_tab tab s); [|done].
    case_bool_decide; [|done]. by apply (sessions_update tab _ s).
  - apply accounts_same; [done|done|]. unfold prompt_for_extraction. destruct (get_tab active s) as [t|]; [|done].
    destruct (t_archive_path t); [|done]. by apply (sessions_update active _ s).
  - apply accounts_same; [done|done|]. unfold backfill_landed. destruct (get_tab tab s) as [t|] eqn:Et; [|done].
    case_bool_decide; [|done]. eapply sessions_put; [done|exact Et|]. exact (proj1 (refresh_holds ans i t)).
  - apply accounts_same; [done|done|]. apply sessions_renew.
  - by apply accounts_same.
  - by apply accounts_confirm.
  - by apply accounts_replace.
  - split; [|unfold held, stamps; cbn [bridge_step open_tab tabs set_tabs]].
    + cbn [open_tab tabs set_tabs]. rewrite fmap_app. apply NoDup_app. split; [done|]. split; [|apply NoDup_singleton].
      intros x Hx ->%list_elem_of_singleton. by apply Ha.
    + rewrite map_app, omap_app. cbn. by rewrite app_nil_r.
Qed.

(** While handlers run one after the other, archive sessions are neither leaked nor closed
    twice by the bridge. Over every sequence of events of other operations than plugin actions,
    reconciliations, answers, opens of sessions that are all different, replacements and
    confirmed closes, the sessions that tabs hold and the sessions the application was
    asked to close are together exactly the sessions that opens have brought, each once:
    a session is held by one tab or was given back once, and no tab holds a session that
    was given back. *)
Theorem sessions_accounted first sts :
  run_allowed sts (launch_window first) ->
  NoDup (sessions_opened_by sts (launch_window first)) ->
  held (bridge_run sts (launch_window first)) ++ closes (bridge_run sts (launch_window first))
  ≡ₚ sessions_opened_by sts (launch_window first)
  /\ NoDup (held (bridge_run sts (launch_window first)) ++ closes (bridge_run sts (launch_window first))).
Proof.
  assert (forall s, run_allowed sts s -> NoDup (tabs s).*1 ->
    NoDup (sessions_opened_by sts s ++ held s ++ closes s) ->
    held (bridge_run sts s) ++ closes (bridge_run sts s) ≡ₚ sessions_opened_by sts s ++ held s ++ closes s) as H.
  { clear first. induction sts as [|st sts IH]; intros s Ha Hnd Hf; [done|]. destruct Ha as [Ha Hr].
    cbn [sessions_opened_by] in *. rewrite <-app_assoc in Hf.
    destruct (accounts_step st s Ha Hnd) as [Hnd' Hp].
    { intros i Hi Hin. rewrite Hi in Hf. apply NoDup_cons in Hf as [Hf _]. apply Hf. set_solver. }
    assert (sessions_opened_by sts (bridge_step st s) ++ held (bridge_step st s) ++ closes (bridge_step st s)
      ≡ₚ option_list (session_opened st s) ++ sessions_opened_by sts (bridge_step st s) ++ held s ++ closes s) as E.
    { rewrite Hp, !(assoc (++)). f_equiv. f_equiv. apply Permutation_app_comm. }
    change (bridge_run (st :: sts) s) with (bridge_run sts (bridge_step st s)).
    rewrite IH; [by rewrite E, (assoc (++))|done|done|by rewrite E]. }
  intros Ha Hf. specialize (H (launch_window first) Ha). cbn in H. rewrite app_nil_r in H.
  assert (NoDup [first]) as Hn by apply NoDup_singleton. specialize (H Hn Hf). split; [done|]. by rewrite H.
Qed.
(** * Theorems on challenges and tracking *)

Lemma tabs_foldl {B} (f : Shared -> B -> Shared) l s :
  (forall u b, tabs (f u b) = tabs u) -> tabs (foldl f s l) = tabs s.
Proof. intros Hf. revert s. induction l as [|b l IH]; intros s; [done|]. cbn [foldl]. by rewrite IH. Qed.

Lemma presented_step st s : step_allowed st s -> all_tabs presented s -> all_tabs presented (bridge_step st s).
Proof.
  intros Ha H. destruct st as [ans m policy e|ans m policy id|id tab|id tab|id a|ans i|active password result|tab i
    |active requested|ans tab i|now|lease|tab|tab path|new path]; cbn [bridge_step]; try exact H.
  - destruct (deliver_cases ans m policy e s Ha) as [[_ ->]|(tab & _ & ->)]; [done|by apply presented_event].
  - destruct (reconcile_cases ans m policy id s Ha) as [(e & tab & _ & _ & _ & ->)|(tab & _ & ->)].
    + by apply presented_event.
    + apply (all_tabs_update presented s tab); [done|]. intros t Ht. by apply presented_dequeue.
  - by apply presented_update.
  - by apply presented_metadata.
  - unfold answer_password. destruct (get_tab active s) as [t|] eqn:Et; [|done].
    pose proof (all_tabs_get _ _ _ _ H Et) as Ht.
    assert (presented (handle_password_dialogs active (t_password_dialog t) password (Some result) t).2) as Hp.
    { unfold handle_password_dialogs. destruct (negb _); [done|]. cbn zeta. destruct (head (t_challenges t)) eqn:Eh.
      - by apply presented_dequeue.
      - destruct Ht as [_ Hf]. split; cbn [snd t_challenges set_t_password_dialog]; [|done]. by destruct (t_challenges t). }
    destruct (handle_password_dialogs active (t_password_dialog t) password (Some result) t) as [action u]. cbn in Hp.
    destruct action; by apply (all_tabs_put presented s).
  - unfold prompt_on_open. destruct (get_tab tab s); [|done]. case_bool_decide; [|done].
    apply (all_tabs_update presented s); [done|]. by intros u [_ Hu].
  - unfold prompt_for_extraction. destruct (get_tab active s) as [t|]; [|done]. destruct (t_archive_path t); [|done].
    apply (all_tabs_update presented s); [done|]. by intros u [_ Hu].
  - unfold backfill_landed. destruct (get_tab tab s) as [t|] eqn:Et; [|done]. case_bool_decide; [|done].
    apply all_tabs_put; [done|]. eapply presented_same; [apply refresh_holds|]. by eapply all_tabs_get.
  - unfold renew_due_external_open_leases. set (due := due_for_renewal _ _ s).
    unfold all_tabs. by rewrite !tabs_foldl.
  - unfold confirm_close. destruct (get_tab tab s) as [t|]; [|done].
    set (u := close_archive_session _ _). apply all_tabs_filter. subst u.
    by destruct (t_session_id t), (t_pending_open t), (t_active_extraction t).
  - unfold replace_tab. destruct (get_tab tab s) as [t|]; [|done]. apply all_tabs_put.
    + by destruct (t_session_id t).
    + split; [done|constructor].
  - unfold all_tabs in *. cbn [open_tab tabs set_tabs]. rewrite fmap_app. apply Forall_app. split; [done|].
    repeat constructor. by intros [].
Qed.

(** While handlers run one after the other, a password challenge is never left without its
    dialog. After any sequence of steps every tab with a waiting challenge shows its password dialog, and
    pressing Unlock sends the typed password to the operation and challenge at the front
    of that tab's queue and to nothing else; the challenges of the other operations keep
    their order, and the dialog stays exactly while one of them waits. *)
Theorem challenges_are_presented first sts active password t p rest :
  run_allowed sts (launch_window first) ->
  let s := bridge_run sts (launch_window first) in
  get_tab active s = Some t -> t_challenges t = p :: rest ->
  pd_show (t_password_dialog t) = true
  /\ exists id name attempt, pc_challenge p = Password id name attempt
  /\ let s' := answer_password active password Unlock s in
     sent s' = sent s ++ [RespondPassword (pc_operation p) id password]
     /\ exists t', get_tab active s' = Some t'
        /\ t_challenges t' = List.filter (fun q => negb (pc_operation q =? pc_operation p)%Z) rest
        /\ pd_show (t_password_dialog t') = negb (bool_decide (t_challenges t' = [])).
Proof.
  intros Ha s Hg Hq.
  assert (all_tabs presented s) as Hp.
  { apply (run_invariant (all_tabs presented)); [exact presented_step|done|]. repeat constructor. by intros []. }
  pose proof (all_tabs_get _ _ _ _ Hp Hg) as [Hs Hf]. rewrite Hq in Hs, Hf.
  assert (pd_show (t_password_dialog t) = true) as Hshow by by apply Hs. split; [done|].
  apply Forall_cons in Hf as [Hf _]. destruct (pc_challenge p) as [id name attempt| | | |] eqn:Ec; try done.
  exists id, name, attempt. split; [done|]. cbn zeta. unfold answer_password. rewrite Hg.
  unfold handle_password_dialogs. rewrite Hshow, Hq. cbn [negb head]. rewrite Ec. cbn [dispatch_password_action].
  split; [done|]. exists (dequeue_and_present_next (pc_operation p) t). split.
  - change (get_tab active (send ?r ?u)) with (get_tab active u). by rewrite get_tab_update, Hg.
  - unfold dequeue_and_present_next, dequeue, present_next.
    cbn [t_challenges t_password_dialog set_t_password_dialog set_t_challenges].
    rewrite Hq. cbn [List.filter]. rewrite Z.eqb_refl. cbn [negb]. split; [done|]. by destruct (List.filter _ rest).
Qed.

(** What reconciling one tracked operation leaves tracked. *)
Lemma origins_reconciled r ans m policy id s :
  operation_snapshot ans = (fun id => operation id r) ->
  (forall rec, records r !! id = Some rec -> rec_kind rec <> PluginAction) -> is_Some (origins s !! id) ->
  origins (reconcile_one handle_plugin fail_plugin ans m policy id s)
  = match records r !! id with
    | Some rec => if is_terminal (rec_state rec) then delete id (origins s) else origins s
    | None => delete id (origins s)
    end.
Proof.
  intros Hans Hk Ht. unfold reconcile_one. rewrite Hans. unfold operation.
  destruct (records r !! id) as [rec|] eqn:Er; cbn.
  - unfold handle_event. rewrite bool_decide_false by by apply Hk. destruct Ht as [tab Ht].
    cbn [operation_id snapshot_to_event snap_operation_id snapshot]. by rewrite Ht, origins_event.
  - rewrite (plugins_apart id s Ht). destruct Ht as [tab Ht]. by rewrite Ht.
Qed.

(** The registry has the operation and it has not ended. *)
Definition still_running (r : @OperationRegistry (bridge_payloads (Json := Json) (PluginUpdate := PluginUpdate))) (id : OperationId) : bool :=
  match records r !! id with Some rec => negb (is_terminal (rec_state rec)) | None => false end.

(** When events were dropped, one pass over the tracked operations, with no plugin's among
    them and a registry that stands still meanwhile, leaves exactly those operations tracked
    that were tracked before and that the registry still has as running, for the same tab. *)
Theorem lag_recovers r ans m policy s id :
  operation_snapshot ans = (fun id => operation id r) ->
  (forall id rec, is_Some (origins s !! id) -> records r !! id = Some rec -> rec_kind rec <> PluginAction) ->
  origins (reconcile_after_lag handle_plugin fail_plugin ans m policy [] s) !! id
  = tab ← origins s !! id; if still_running r id then Some tab else None.
Proof.
  intros Hans Hk. unfold reconcile_after_lag. cbn [foldl].
  set (live := still_running r).
  assert (forall l u, NoDup l -> (forall i, i ∈ l -> is_Some (origins u !! i)) ->
    (forall i rec, i ∈ l -> records r !! i = Some rec -> rec_kind rec <> PluginAction) -> forall j,
    origins (foldl (fun s id => reconcile_one handle_plugin fail_plugin ans m policy id s) u l) !! j
    = if bool_decide (j ∈ l) && negb (live j) then None else origins u !! j) as H.
  { intros l. induction l as [|i l IH]; intros u Hnd Ht Hl j; [by rewrite bool_decide_false by apply not_elem_of_nil|].
    apply NoDup_cons in Hnd as [Hi Hnd]. cbn [foldl].
    assert (origins (reconcile_one handle_plugin fail_plugin ans m policy i u)
            = if live i then origins u else delete i (origins u)) as E.
    { rewrite (origins_reconciled r); [|done|intros rec; apply Hl; set_solver|apply Ht; set_solver].
      unfold live, still_running. destruct (records r !! i) as [rec|]; [|done]. by destruct (is_terminal _). }
    rewrite IH; [|done| |intros k rec Hin; apply Hl; set_solver].
    - rewrite E. destruct (decide (j = i)) as [->|Hne].
      + rewrite (bool_decide_false (i ∈ l)), (bool_decide_true (i ∈ i :: l)) by set_solver.
        cbn. destruct (live i); [done|]. by rewrite lookup_delete_eq.
      + rewrite (bool_decide_ext (j ∈ i :: l) (j ∈ l)) by set_solver. destruct (live i); [done|].
        by rewrite lookup_delete_ne by done.
    - intros k Hin. rewrite E. destruct (live i); [apply Ht; set_solver|].
      rewrite lookup_delete_ne by (intros ->; done). apply Ht. set_solver. }
  assert (forall i, i ∈ tracked_ids s <-> is_Some (origins s !! i)) as Htr.
  { intros i. unfold tracked_ids. rewrite list_elem_of_fmap. split.
    - intros ([k v] & -> & Hin%elem_of_map_to_list). by exists v.
    - intros [v Hv]. exists (i, v). split; [done|]. by apply elem_of_map_to_list. }
  rewrite H; [|apply NoDup_fst_map_to_list|by intros i Hi%Htr|by intros i rec Hi%Htr; apply Hk].
  destruct (origins s !! id) as [tab|] eqn:Eo; cbn.
  - rewrite bool_decide_true by (apply Htr; by rewrite Eo). fold live. cbn. by destruct (live id).
  - by destruct (_ && _).
Qed.
(** * What an open shows *)

Definition fresh_listing (sid : Z) (status : RequestStatus) : TabListing :=
  mk_listing (Some sid) nav_default (whole_directory root) status 1.

(** What a relist leaves in the tab. *)
Lemma relist_shows (ans : Answers) path t sid :
  t_session_id t = Some sid ->
  let '(r, t') := relist_for_browser_signals ans path t in
  t_archive_path t' = Some path /\ sel_paths (t_selection t') = ∅ /\ t_selection_count t' = 0%nat
  /\ match list_all_entries ans sid with
     | Ok inv =>
         r = Ok tt /\ t_listing t' = fresh_listing sid Listed
         /\ t_inventory t' = (adopt (prepare inv) (inventory_for_session (Some sid))).2
         /\ be_entries (t_entries t') = rows_in_directory (inventory_entries (t_inventory t')) root
     | Err e =>
         r = Err e /\ t_listing t' = fresh_listing sid (Unlistable e)
         /\ inventory_entries (t_inventory t') = [] /\ be_entries (t_entries t') = []
     end.
Proof.
  intros Hs. unfold relist_for_browser_signals. rewrite Hs. cbn zeta.
  assert (sel_paths (sel_clear (t_selection t)).2 = ∅) as Hsel
    by (unfold sel_clear; by case_bool_decide).
  unfold fetch_and_adopt_inventory, begin_loading. cbn zeta iota beta.
  assert (forall g, answers_current_request g sid root (mk_listing (Some sid) nav_default (whole_directory root) Loading g) = true)
    as Hcur.
  { intros g. unfold answers_current_request. cbn [generation session request directory whole_directory].
    rewrite Z.eqb_refl, bool_decide_true by done. cbn. apply str_eqb_eq. reflexivity. }
  destruct (list_all_entries ans sid) as [inv|e]; cbn zeta iota beta.
  - assert ((succeed 1 sid root (fresh_listing sid Loading)).2 = fresh_listing sid Listed) as E
      by (unfold succeed, fresh_listing; by rewrite (Hcur 1%Z)).
    split; [done|]. split; [exact Hsel|]. split; [done|]. split; [done|]. split; [exact E|]. split; [done|].
    change (be_entries _) with
      (rows_in_directory (inventory_entries (adopt (prepare inv) (inventory_for_session (Some sid))).2)
         (directory (request (succeed 1 sid root (fresh_listing sid Loading)).2))). by rewrite E.
  - assert ((fail 1 sid root e (fresh_listing sid Loading)).2 = fresh_listing sid (Unlistable e)) as E
      by (unfold fail, fresh_listing; by rewrite (Hcur 1%Z)).
    split; [done|]. split; [exact Hsel|]. split; [done|]. split; [done|]. split; [exact E|]. done.
Qed.
Lemma relist_metadata (ans : Answers) p (t : Tab) : t_metadata (relist_for_browser_signals ans p t).2 = t_metadata t.
Proof.
  unfold relist_for_browser_signals, fetch_and_adopt_inventory. destruct (t_session_id t) as [i|]; [|done].
  cbn zeta iota beta. by destruct (list_all_entries ans i).
Qed.

Lemma tab_of_session_unique sid tab (s : Shared) t :
  get_tab tab s = Some t -> t_session_id t = Some sid ->
  Forall (fun p => t_session_id p.2 = Some sid -> p.1 = tab) (tabs s) -> tab_of_session sid s = Some tab.
Proof.
  unfold get_tab, tab_of_session. intros Hg Hs Hu. induction (tabs s) as [|[i v] l IH]; [done|].
  apply Forall_cons in Hu as [Hv Hl]. cbn [find fst snd] in *. case_bool_decide as Hd.
  - cbn. f_equal. by apply Hv.
  - apply IH; [|done]. destruct (Z.eqb_spec i tab) as [->|]; [|done]. injection Hg as ->. done.
Qed.

(** The tab after an open: it is stamped, takes the session's metadata, and is listed. *)
Lemma opened_tab (ans : Answers) policy tab id snap snap' s t :
  get_tab tab s = Some t -> snap_session_id snap ∉ held s ->
  archive_snapshot ans (snap_session_id snap) = Ok snap' ->
  exists u, t_session_id u = Some (snap_session_id snap) /\ t_metadata u = snap_metadata snap'
    /\ t_challenges u = List.filter (fun p => negb (pc_operation p =? id)%Z) (t_challenges t)
    /\ get_tab tab (handle_open_archive_completed ans policy tab id snap s)
       = Some (match relist_for_browser_signals ans (snap_source_path snap) u with
               | (Err e, v) => set_t_listing (fail_unlisted e (t_listing v)).2 v
               | (Ok _, v) => retry_after_unlock v
               end).
Proof.
  intros Hg Hh Hans. unfold handle_open_archive_completed. set (sid := snap_session_id snap) in *.
  change (get_tab tab (forget_origin id s)) with (get_tab tab s). rewrite Hg. cbn [fmap option_fmap option_map].
  set (s1 := apply_buffered_session_metadata _ _ _).
  assert (same_sessions s s1) as H1 by (eapply same_sessions_trans; [|apply sessions_buffered]; done).
  assert (exists t1, get_tab tab s1 = Some t1 /\ t_challenges t1 = t_challenges t) as (t1 & Hg1 & Hc1).
  { subst s1. unfold apply_buffered_session_metadata. destruct (pending_metadata _ !! _).
    - rewrite get_tab_update. rewrite (get_tab_tabs tab s) by done. rewrite Hg. by eexists.
    - exists t. split; [|done]. by rewrite (get_tab_tabs tab s). }
  rewrite Hg1. set (s2 := if bool_decide _ then s1 else _).
  assert (tabs s2 = tabs s1) as T2 by (subst s2; case_match; [done|]; by destruct (t_session_id t1)).
  set (s3 := update_tab tab (stamp id snap) s2).
  assert (get_tab tab s3 = Some (stamp id snap t1)) as Hg3
    by (subst s3; by rewrite get_tab_update, (get_tab_tabs tab s1), Hg1).
  assert (tab_of_session sid s3 = Some tab) as Htab.
  { eapply tab_of_session_unique; [exact Hg3|done|]. apply Forall_forall. intros [i v] Hin Hv. cbn in *.
    subst s3. unfold update_tab in Hin. cbn [tabs set_tabs] in Hin. apply list_elem_of_In, in_map_iff in Hin as ([j w] & E & Hin).
    cbn in E. destruct (Z.eqb_spec j tab) as [->|]; [by injection E as <- _|]. injection E as -> ->. exfalso. apply Hh.
    unfold held. destruct H1 as [<- _]. apply list_elem_of_omap. exists (i, t_session_id v). split; [|done].
    unfold stamps. rewrite <-T2. apply list_elem_of_fmap. exists (i, v). split; [done|]. by apply list_elem_of_In. }
  unfold apply_current_session_metadata. rewrite Hans. unfold buffer_or_apply_session_metadata. rewrite Htab.
  set (f := fun t => set_t_archive_path _ _). rewrite get_tab_update, Hg3. cbn [fmap option_fmap option_map].
  exists (f (stamp id snap t1)). split; [done|]. split; [done|]. split; [cbn; by rewrite Hc1|].
  destruct (relist_for_browser_signals ans (snap_source_path snap) (f (stamp id snap t1))) as [[[]|e] v].
  - rewrite get_tab_update. change (get_tab tab (say ?m ?x)) with (get_tab tab x).
    rewrite (get_tab_tabs tab (update_tab tab (fun _ => v) (update_tab tab f s3))).
    + by rewrite !get_tab_update, Hg3.
    + unfold finish_archive_load. by repeat case_match.
  - change (get_tab tab (say ?m ?x)) with (get_tab tab x). by rewrite !get_tab_update, Hg3.
Qed.

Lemma retry_view (x : Tab) :
  t_archive_path (retry_after_unlock x) = t_archive_path x /\ t_metadata (retry_after_unlock x) = t_metadata x
  /\ t_selection (retry_after_unlock x) = t_selection x /\ t_listing (retry_after_unlock x) = t_listing x
  /\ t_entries (retry_after_unlock x) = t_entries x.
Proof. unfold retry_after_unlock. by destruct (t_open_after_unlock x). Qed.

(** When an open completes, its tab shows that archive: it holds the session,
    its path and the session's metadata, nothing is selected, the listing is in the listed
    state at the root, and the rows are those of the session's own answer to a listing of
    the root, so long as the root has no more rows than one listing can carry. The
    challenges of that open are gone from the tab's queue. *)
Theorem open_shows_the_archive (ans : Answers) policy tab id (a : ArchiveSession (Json := Json)) es asg s t :
  get_tab tab s = Some t -> session_id a ∉ held s ->
  assigner_ok asg -> same_rows (build es asg).1 (entry_index a) ->
  (Z.of_nat (length (children_of (entry_index a) root)) <= u32_max)%Z ->
  archive_snapshot ans (session_id a) = Ok (ArchiveSession.snapshot a) ->
  (forall rows, inventory a = (session_id a, revision a, Some rows) ->
     list_all_entries ans (session_id a) = Ok (session_id a, revision a, rows)) ->
  exists t', get_tab tab (handle_open_archive_completed ans policy tab id (ArchiveSession.snapshot a) s) = Some t'
    /\ t_session_id t' = Some (session_id a) /\ t_archive_path t' = Some (source_path a)
    /\ t_metadata t' = metadata a
    /\ sel_paths (t_selection t') = ∅ /\ t_listing t' = fresh_listing (session_id a) Listed
    /\ be_entries (t_entries t') = map file_entry_from_dto (page_entries (list_entries a (whole_directory root)))
    /\ id ∉ map pc_operation (t_challenges t').
Proof.
  intros Hg Hh Ha Hs Hn Hsnap Hlist.
  destruct (opened_tab ans policy tab id (ArchiveSession.snapshot a) _ s t Hg Hh Hsnap) as (u & Hu & Hm & Hc & ->).
  destruct (build es asg) as [ix asg'] eqn:Hb. cbn in Hs.
  pose proof (tree_ok_same _ _ Hs (built_tree _ _ _ _ Ha Hb)) as Hok.
  destruct (all_entries_visits _ Hok) as (rows & Hrows & _).
  specialize (Hlist rows ltac:(unfold inventory; by rewrite Hrows)).
  pose proof (relist_shows ans (snap_source_path (ArchiveSession.snapshot a)) u _ Hu) as Hr.
  pose proof (relist_holds ans (snap_source_path (ArchiveSession.snapshot a)) u) as (Hsess & Hch & _).
  change (snap_session_id (ArchiveSession.snapshot a)) with (session_id a) in *. rewrite Hlist in Hr.
  pose proof (relist_metadata ans (snap_source_path (ArchiveSession.snapshot a)) u) as Hmeta.
  destruct (relist_for_browser_signals ans _ u) as [r v]. cbn [snd] in *.
  destruct Hr as (Hp & Hsel & _ & -> & Hl & Hinv & He). exists (retry_after_unlock v). split; [done|].
  destruct (retry_holds v) as (R1 & R2 & _). rewrite R1, R2, Hsess, Hch, Hc, Hu.
  destruct (retry_view v) as (-> & -> & -> & -> & ->). rewrite Hp, Hsel, Hl, He, Hinv, Hmeta, Hm.
  split_and!; try done.
  - unfold rows_in_directory. f_equal. rewrite (whole_directory_rows a es asg); [|done|by rewrite Hb|done].
    rewrite <-(all_entries_scoped _ Hok _ _ Hrows). unfold prepare, adopt, inventory_for_session.
    cbn [inv_session inv_rows ad_session_id]. by rewrite bool_decide_true by done.
  - intros (p & Ep & [Hin Hp']%filter_In)%list_elem_of_In%in_map_iff. rewrite Ep, Z.eqb_refl in Hp'. done.
Qed.
End bridge_props.

(** Closing a tab from the tab bar leaks its session. Whatever the window went
    through, the close button of a tab without running operations (and likewise closing
    the other tabs or the tabs to the right) removes the tab from the window and asks the
    application to close nothing, so the session the tab held is in no tab afterwards and
    was never given back. *)
Theorem plain_close_leaks `{UT : UnicodeTables} `{CF : Crc32Fast} {Json : Type} (s : Shared (Json := Json)) id t sid :
  NoDup (tabs s).*1 -> NoDup (held s ++ closes s) -> get_tab id s = Some t -> t_session_id t = Some sid ->
  sid ∈ held s /\ sid ∉ held (plain_close id s) ++ closes (plain_close id s).
Proof.
  intros Hnd Hn Hg Hs. pose proof (get_stamp _ _ _ Hg) as Hin. rewrite Hs in Hin.
  rewrite <-stamps_ids in Hnd. pose proof (drop_held id (stamps s) _ Hnd Hin) as Hp.
  assert (held (plain_close id s) ++ [sid] ≡ₚ held s) as Hd.
  { unfold held at 1, plain_close. rewrite stamps_filter. exact Hp. }
  split; [rewrite <-Hd; set_solver|]. change (closes (plain_close id s)) with (closes s).
  rewrite <-Hd, <-(assoc (++)), (Permutation_app_comm (held _)), <-(assoc (++)) in Hn.
  apply NoDup_cons in Hn as [Hn _]. by rewrite (Permutation_app_comm (closes s)) in Hn.
Qed.

(** The password asked for after an archive with encrypted content
    was opened goes nowhere. The dialog that the policy [prompt_on_open] raises has no
    challenge behind it and no path to reopen, so Unlock closes it and sends nothing: the
    typed password reaches no operation. *)
Theorem prompted_password_is_dropped `{UT : UnicodeTables} `{CF : Crc32Fast} {Json : Type}
    (s : Shared (Json := Json)) id t sid password :
  get_tab id s = Some t -> t_session_id t = Some sid ->
  t_challenges t = [] -> pd_target_path (t_password_dialog t) = None ->
  let s' := answer_password id password Unlock (prompt_on_open id sid s) in
  (exists t', get_tab id (prompt_on_open id sid s) = Some t' /\ pd_show (t_password_dialog t') = true)
  /\ sent s' = sent s
  /\ exists t', get_tab id s' = Some t' /\ pd_show (t_password_dialog t') = false.
Proof.
  intros Hg Hs Hc Hp. unfold prompt_on_open. rewrite Hg, bool_decide_true by done. cbn zeta.
  set (d := mk_password_dialog _ _ _ _ _). set (s1 := say _ _).
  assert (get_tab id s1 = Some (set_t_password_dialog d t)) as H1
    by (change (get_tab id s1) with (get_tab id (update_tab id (set_t_password_dialog d) s)); by rewrite get_tab_update, Hg).
  unfold answer_password. rewrite H1. split; [by eexists|]. unfold handle_password_dialogs.
  cbn [t_password_dialog set_t_password_dialog pd_show d negb t_challenges]. rewrite Hc. cbn [head].
  cbn [d pd_target_path]. rewrite Hp. cbn [dispatch_password_action]. split; [done|].
  rewrite get_tab_update, H1. by eexists.
Qed.

(** An operation that opens a file and ends while its
    password challenge waits leaves the challenge behind: the tab's queue and its dialog
    are as they were, so the dialog goes on asking for an operation that is no longer
    tracked. *)
Theorem materialize_keeps_its_challenge `{UT : UnicodeTables} `{CF : Crc32Fast} `{LZ : LocalZone} {Json PluginUpdate : Type}
    (ans : Answers (Json := Json) (PluginUpdate := PluginUpdate)) m policy tab e s t :
  event_kind e = Materialize -> event_state e = Cancelled \/ (exists err, event_state e = Failed err) ->
  get_tab tab s = Some t ->
  let s' := handle_tab_event ans m policy tab e s in
  origins s' !! operation_id e = None
  /\ exists t', get_tab tab s' = Some t' /\ t_challenges t' = t_challenges t /\ t_password_dialog t' = t_password_dialog t.
Proof.
  intros Hk Hst Hg. cbn zeta. split.
  - rewrite origins_event. destruct Hst as [-> |[err ->]]; cbn [is_terminal]; apply lookup_delete_eq.
  - exists t. unfold handle_tab_event. rewrite Hk. by destruct Hst as [-> |[err ->]].
Qed.

Module BridgeExample.

Import EntryIndexExample ArchiveSessionExample BrowserExample.

Abbreviation Event := (@OperationEvent (bridge_payloads (Json := unit) (PluginUpdate := unit))).

Definition quiet (e : Event) (s : Shared (Json := unit)) : Shared := s.
Definition no_action (id : OperationId) (s : Shared (Json := unit)) : option (Shared (Json := unit)) := None.

Lemma no_action_apart (id : OperationId) (s : Shared (Json := unit)) : is_Some (origins s !! id) -> no_action id s = None.
Proof. done. Qed.

Definition boom : ApplicationError := AppError.new 1 Internal §"listing failed".

(** The session of the example answers; the others are gone. *)
Definition answers : Answers (Json := unit) (PluginUpdate := unit) := {|
  list_all_entries i := if (i =? 7)%Z then Ok (7%Z, 1%Z, default [] (all_entries ix)) else Err boom;
  archive_snapshot i := if (i =? 7)%Z then Ok (ArchiveSession.snapshot sess) else Err boom;
  operation_snapshot _ := None;
  correlation := 1 |}.

Definition machine : Machine := mk_machine (fun _ => true) (fun _ => (true, [])) 0.

Definition event (id : OperationId) (k : OperationKind) (st : OperationState) : Event := {|
  operation_id := id; sequence := 1; event_kind := k; event_state := st |}.

Definition opened (id : OperationId) (sid : Z) : Event :=
  event id OpenArchive (Completed (@ArchiveOpened (bridge_payloads (Json := unit) (PluginUpdate := unit))
    (mk_snapshot sid 1 §"/tmp/a.zip" §"zip" 0 0 enc None None))).

Definition deliver (e : Event) : BridgeStep := Delivered answers machine §"on_access" e.

(** Two tabs, three opens, one confirmed close. *)
Definition tour : list (BridgeStep (Json := unit) (PluginUpdate := unit)) :=
  [OpenedTab 2 None; Dispatched 10 1; Tracked 10 1; Tracked 11 2; deliver (opened 10 7); deliver (opened 11 8); Tracked 12 1;
   deliver (opened 12 9); ConfirmedClose 2].

Lemma tour_allowed : run_allowed quiet no_action tour (launch_window 1).
Proof. repeat split; try discriminate. apply (bool_decide_unpack _). exact I. Qed.

Lemma sessions_accounted_witness :
  held (bridge_run quiet no_action tour (launch_window 1)) = [9%Z]
  /\ held (bridge_run quiet no_action tour (launch_window 1)) ++ closes (bridge_run quiet no_action tour (launch_window 1))
     ≡ₚ [7; 8; 9]%Z.
Proof.
  split; [reflexivity|]. apply (sessions_accounted quiet no_action no_action_apart 1 tour tour_allowed).
  apply (bool_decide_unpack _). reflexivity.
Defined.

(** Two operations of one tab ask for a password. *)
Definition asked : list (BridgeStep (Json := unit) (PluginUpdate := unit)) :=
  [Tracked 10 1; Tracked 11 1; deliver (event 10 OpenArchive (ChallengeState (Password 5 §"a.zip" 1)));
   deliver (event 11 Extract (ChallengeState (Password 6 §"b.zip" 2)))].

(** What the queue and the dialog of the only tab say. *)
Definition shown (s : Bridge.Shared (Json := unit)) : option (list Z * bool) :=
  (fun t => (map pc_operation (t_challenges t), pd_show (t_password_dialog t))) <$> get_tab 1 s.

Definition one_asks : Bridge.Shared (Json := unit) :=
  bridge_run quiet no_action [Tracked 10 1; deliver (event 10 OpenArchive (ChallengeState (Password 5 §"a.zip" 1)))] (launch_window 1).

(** Handlers that run at once: Unlock has taken the answered challenge off the queue and found
    it empty, a second operation's challenge is queued and shows the dialog, and Unlock goes
    on to hide it. The second challenge waits and nothing asks for its password. *)
Example race_hides_the_dialog :
  exists t, get_tab 1 one_asks = Some t /\
  let '(next, t) := dequeue 10 t in
  let s := handle_password_challenge 1 11 (Password 6 §"b.zip" 1) (update_tab 1 (fun _ => t) one_asks) in
  shown s = Some ([11%Z], true) /\ shown (update_tab 1 (present_next next) s) = Some ([11%Z], false).
Proof. eexists. split; [reflexivity|]. split; reflexivity. Qed.

(** The same by the copy that a frame works on: it was taken before the challenge arrived,
    nothing was pressed, and it is written back at the end of the frame. *)
Example stale_copy_hides_the_dialog :
  exists t : Bridge.Tab (Json := unit), get_tab 1 (launch_window 1) = Some t /\
  let s := handle_password_challenge 1 11 (Password 6 §"b.zip" 1) (launch_window (Json := unit) 1) in
  shown s = Some ([11%Z], true)
  /\ shown (update_tab 1 (fun now => (handle_password_dialogs 1 (t_password_dialog t) [] None now).2) s) = Some ([11%Z], false).
Proof. eexists. split; [reflexivity|]. split; reflexivity. Qed.

Lemma challenges_are_presented_witness :
  sent (answer_password 1 §"pw" Unlock (bridge_run quiet no_action asked (launch_window 1))) = [RespondPassword 10 5 §"pw"].
Proof.
  destruct (get_tab 1 (bridge_run quiet no_action asked (launch_window 1))) as [t|] eqn:E; [|discriminate E].
  assert (t_challenges t = [mk_pending 10 (Password 5 §"a.zip" 1); mk_pending 11 (Password 6 §"b.zip" 2)]) as Hc.
  { assert (t_challenges <$> Some t = Some [mk_pending 10 (Password 5 §"a.zip" 1); mk_pending 11 (Password 6 §"b.zip" 2)]) as H
      by (rewrite <-E; reflexivity).
    by injection H. }
  destruct (challenges_are_presented quiet no_action no_action_apart 1 asked 1 §"pw" t _ _
    ltac:(repeat split; discriminate) E Hc) as (_ & id & name & attempt & Hp & Hs & _).
  injection Hp as <- <- <-. rewrite Hs. reflexivity.
Defined.

(** Of three tracked operations, one runs, one has ended and one is forgotten. *)
Definition known : @OperationRegistry (bridge_payloads (Json := unit) (PluginUpdate := unit)) :=
  (transition 4 Cancelled (begin_section 4 Merge (begin_section 3 Extract registry_new).2).2).2.
Definition tracking : Shared (Json := unit) :=
  register_origin 5 1 (register_origin 4 1 (register_origin 3 1 (launch_window 1))).
Definition asking : Answers (Json := unit) (PluginUpdate := unit) := {|
  list_all_entries _ := Err boom; archive_snapshot _ := Err boom;
  operation_snapshot id := operation id known; correlation := 1 |}.

Lemma lag_recovers_witness :
  map (fun id => origins (reconcile_after_lag quiet no_action asking machine [] [] tracking) !! id) [3; 4; 5; 6]%Z
  = [Some 1%Z; None; None; None].
Proof.
  assert (forall id rec, is_Some (origins tracking !! id) -> records known !! id = Some rec -> rec_kind rec <> PluginAction)
    as Hk.
  { assert (map_Forall (fun _ rec => rec_kind rec <> PluginAction) (records known)) as H
      by (apply (bool_decide_unpack _); vm_compute; exact I).
    intros id rec _. apply H. }
  cbn [map]. rewrite !(lag_recovers quiet no_action no_action_apart known asking machine [] tracking _ eq_refl Hk).
  reflexivity.
Defined.

Lemma open_shows_the_archive_witness :
  exists t', get_tab 1 (handle_open_archive_completed answers §"on_access" 1 10 (ArchiveSession.snapshot sess) (launch_window 1))
    = Some t' /\ map fe_name (be_entries (t_entries t')) = [§"docs"; §"mods"].
Proof.
  destruct (open_shows_the_archive answers §"on_access" 1 10 sess listing default_assigner (launch_window 1) (new_signals None))
    as (t' & Hg & _ & _ & _ & _ & _ & He & _).
  - reflexivity.
  - apply not_elem_of_nil.
  - exact default_assigner_ok.
  - exact (same_rows_refl _).
  - vm_compute. discriminate.
  - reflexivity.
  - intros rows E. apply (f_equal snd) in E. change (all_entries ix = Some rows) in E.
    change (Ok (E := ApplicationError) (7%Z, 1%Z, default [] (all_entries ix)) = Ok (7%Z, 1%Z, rows)). by rewrite E.
  - exists t'. split; [exact Hg|]. rewrite He, (whole_directory_rows sess listing default_assigner).
    + vm_compute. reflexivity.
    + exact default_assigner_ok.
    + exact (same_rows_refl _).
    + vm_compute. discriminate.
Defined.

Lemma plain_close_leaks_witness :
  let s := bridge_run quiet no_action (take 5 tour) (launch_window 1) in
  held s = [7%Z] /\ held (plain_close 1 s) = [] /\ closes (plain_close 1 s) = [].
Proof.
  cbn zeta. set (s := bridge_run quiet no_action (take 5 tour) (launch_window 1)).
  assert (held s = [7%Z]) as Hh by reflexivity. split; [exact Hh|].
  destruct (get_tab 1 s) as [t|] eqn:Hg; [|discriminate Hg].
  assert (t_session_id t = Some 7%Z) as Ht by (assert (t_session_id <$> Some t = Some (Some 7%Z)) as H by (rewrite <-Hg; reflexivity); by injection H).
  destruct (plain_close_leaks s 1 t 7) as [_ H]; [apply (bool_decide_unpack _); reflexivity
    |apply (bool_decide_unpack _); reflexivity|exact Hg|exact Ht|]. split; reflexivity.
Defined.

Lemma prompted_password_is_dropped_witness :
  let s := bridge_run quiet no_action (take 5 tour) (launch_window 1) in
  sent (answer_password 1 §"pw" Unlock (prompt_on_open 1 7 s)) = [].
Proof.
  cbn zeta. set (s := bridge_run quiet no_action (take 5 tour) (launch_window 1)).
  destruct (get_tab 1 s) as [t|] eqn:Hg; [|discriminate Hg].
  assert ((t_session_id t, t_challenges t, pd_target_path (t_password_dialog t)) = (Some 7%Z, [], None)) as Ht.
  { assert ((fun t => (t_session_id t, t_challenges t, pd_target_path (t_password_dialog t))) <$> Some t
            = Some (Some 7%Z, [], None)) as H by (rewrite <-Hg; reflexivity).
    by injection H as -> -> ->. }
  injection Ht as H1 H2 H3.
  destruct (prompted_password_is_dropped s 1 t 7 §"pw" Hg H1 H2 H3) as (_ & -> & _). reflexivity.
Defined.

Lemma materialize_keeps_its_challenge_witness :
  let s := bridge_run quiet no_action [Tracked 10 1; deliver (event 10 Materialize (ChallengeState (Password 5 §"a" 1)))]
             (launch_window 1) in
  exists t', get_tab 1 (handle_tab_event answers machine [] 1 (event 10 Materialize Cancelled) s) = Some t'
    /\ t_challenges t' = [mk_pending 10 (Password 5 §"a" 1)].
Proof.
  cbn zeta. set (s := bridge_run quiet no_action _ (launch_window 1)).
  destruct (get_tab 1 s) as [t|] eqn:Hg; [|discriminate Hg].
  destruct (materialize_keeps_its_challenge answers machine [] 1 (event 10 Materialize Cancelled) s t eq_refl
    (or_introl eq_refl) Hg) as (_ & t' & Hg' & Hc & _).
  exists t'. split; [exact Hg'|]. rewrite Hc.
  assert (t_challenges <$> Some t = Some [mk_pending 10 (Password 5 §"a" 1)]) as H by (rewrite <-Hg; reflexivity).
  by injection H.
Defined.
End BridgeExample.
