(* ===== verification/PluginExec.v ===== *)
(** Who may run a plugin's guest, and when: the executor of
    [crates/plugins/src/executor.rs], the admission barrier of [manager/types.rs], the
    enabling, disabling and removing of plugins ([manager/queries.rs], [lifecycle.rs])
    and the quarantine ledger ([quarantine.rs]).

    The calls run on any number of threads. A thread is at a [Pc]; what it holds (the read
    guard of the registry, the instance's mutex, the state transition's mutex, a permit of
    the admission) is a function of where it is, and a lock is free when no thread holds
    it. Everything between two acquisitions of a lock is one step, so the runs of
    [exec_step] are all interleavings. What a guest call ends in and whether the ledger's
    file can be written are chosen by the step. A generation of a plugin is an instance,
    named by a number. *)

From stdpp Require Import base tactics option list gmap strings.
From Stdlib Require Import ZArith Lia.
From S2P Require Import Prelude Text.

#[local] Arguments String.list_ascii_of_string : simpl never.
Open Scope arclain_scope.

(** * The quarantine ledger *)

Definition MAX_REASON_BYTES : nat := 256.
Definition MAX_LEDGER_RECORDS : nat := 1024.
Definition MAX_FAILED_RETRIES : Z := 3.

Record QuarantineRecord := mk_quarantine { failed_retries : Z; last_reason : str }.

#[export] Instance QuarantineRecord_eq_dec : EqDecision QuarantineRecord.
Proof. solve_decision. Defined.

Inductive QuarantineState :=
| Clear
| Retryable (r : QuarantineRecord)
| PersistentlyDisabled (r : QuarantineRecord).

(** [file] is what the ledger's file holds. *)
Record Ledger := mk_ledger {
  persisted : gmap str QuarantineRecord;
  runtime_violations : gmap str str;
  file : gmap str QuarantineRecord
}.

Definition empty_ledger : Ledger := mk_ledger ∅ ∅ ∅.

Definition validate_reason (reason : str) : bool :=
  negb (bool_decide (reason = [])) && (length reason <=? MAX_REASON_BYTES)%nat.

(** Fingerprints come from [PackageFingerprint], so they parse. *)
Definition validate_record (r : QuarantineRecord) : bool :=
  (1 <=? failed_retries r)%Z && (failed_retries r <=? MAX_FAILED_RETRIES)%Z && validate_reason (last_reason r).

Definition validate_records (m : gmap str QuarantineRecord) : bool :=
  (base.size m <=? MAX_LEDGER_RECORDS)%nat && forallb (fun p => validate_record p.2) (map_to_list m).

(** [write_records]: [disk] is whether the file could be replaced, a ledger of too many
    bytes included. *)
Definition write_records (disk : bool) (m : gmap str QuarantineRecord) (l : Ledger) : option Ledger :=
  if validate_records m && disk then Some (mk_ledger (persisted l) (runtime_violations l) m) else None.

Definition quarantine_state (fp : str) (l : Ledger) : QuarantineState :=
  let decided r := if (MAX_FAILED_RETRIES <=? failed_retries r)%Z then PersistentlyDisabled r else Retryable r in
  match persisted l !! fp, runtime_violations l !! fp with
  | Some r, Some reason => decided (mk_quarantine (failed_retries r) reason)
  | Some r, None => decided r
  | None, Some reason => decided (mk_quarantine 0 reason)
  | None, None => Clear
  end.

Definition has_runtime_violation (fp : str) (l : Ledger) : bool := bool_decide (is_Some (runtime_violations l !! fp)).

Definition record_initial_violation (fp reason : str) (l : Ledger) : option Ledger :=
  if validate_reason reason
  then Some (mk_ledger (persisted l) (<[fp := reason]> (runtime_violations l)) (file l)) else None.

(** [u8::saturating_add] and [min]. *)
Definition record_failed_retry (disk : bool) (fp reason : str) (l : Ledger) : option Ledger :=
  if validate_reason reason then
    let failed := match persisted l !! fp with
                  | Some r => Z.min (Z.min (failed_retries r + 1) 255) MAX_FAILED_RETRIES
                  | None => Z.min 1 MAX_FAILED_RETRIES
                  end in
    let next := <[fp := mk_quarantine failed reason]> (persisted l) in
    l ← write_records disk next l;
    Some (mk_ledger next (<[fp := reason]> (runtime_violations l)) (file l))
  else None.

Definition QuarantineSnapshot : Type := option QuarantineRecord * option str.

(** [remove]; [reset] drops the snapshot. *)
Definition remove_quarantine (disk : bool) (fp : str) (l : Ledger) : option (QuarantineSnapshot * Ledger) :=
  let snapshot := (persisted l !! fp, runtime_violations l !! fp) in
  match persisted l !! fp with
  | Some _ =>
      let next := delete fp (persisted l) in
      l ← write_records disk next l;
      Some (snapshot, mk_ledger next (delete fp (runtime_violations l)) (file l))
  | None => Some (snapshot, mk_ledger (persisted l) (delete fp (runtime_violations l)) (file l))
  end.

(** [restore]: the ledger in memory, and whether the file was written. *)
Definition restore_quarantine (disk : bool) (fp : str) (snapshot : QuarantineSnapshot) (l : Ledger) : bool * Ledger :=
  let next := partial_alter (fun _ => snapshot.1) fp (persisted l) in
  let l := mk_ledger (persisted l) (partial_alter (fun _ => snapshot.2) fp (runtime_violations l)) (file l) in
  if bool_decide (next = persisted l) then (true, l)
  else
    let l := mk_ledger next (runtime_violations l) (file l) in
    match write_records disk next l with Some l => (true, l) | None => (false, l) end.

Definition clear_runtime_violation (fp : str) (l : Ledger) : Ledger :=
  mk_ledger (persisted l) (delete fp (runtime_violations l)) (file l).

(** [QuarantineLedger::open] on a file that this version wrote. *)
Definition open_ledger (l : Ledger) : Ledger := mk_ledger (file l) ∅ (file l).

(** * The executor and its threads *)

(** [ExecutionAdmissionState]. *)
Record Admission := mk_admission { adm_enabled : bool; in_flight : nat }.

(** The fields of [ManagedPlugin] that decide who may run. *)
Record Managed := mk_managed { m_instance : nat; m_fingerprint : str; m_retry : bool }.

(** What a call has read of its plugin. *)
Record Callee := mk_callee { c_key : str; c_instance : nat; c_fingerprint : str; c_retry : bool }.

Inductive Pc :=
(** [with_current_instance], to the lookup, the instance's mutex, the admission and the
    end of the guest call. *)
| CallStart (key : str) (expected : option nat)
| CallFound (c : Callee)
| CallLocked (c : Callee)
| CallGuest (c : Callee)
| CallEnding (c : Callee)
| CallViolated (c : Callee) (reason : str)
| CallBlocking (c : Callee) (reason : str)
(** [admit_host_effect_for_instance], to the drop of the permit it gives. *)
| EffectStart (key : str) (expected : nat)
| EffectHeld (i : nat)
(** [disable_plugin]. *)
| DisableStart (key : str)
| DisableHeld (key : str)
| DisableFlagged (i : nat)
| DisableWaiting (i : nat)
(** [enable_plugin]. *)
| EnableStart (key : str)
| EnableHeld (key : str)
(** [remove_live_plugin], and what [reload_plugin] and [unload_plugin] do first. *)
| UnloadStart (key : str)
| UnloadRemoved (i : nat)
| UnloadWaiting (i : nat)
| UnloadCleanup (i : nat)
| Returned.

Inductive PluginEvent :=
| GuestStarted (i : nat)
| GuestEnded (i : nat)
| DisabledEvent (i : nat)
| EnabledEvent (i : nat)
| CleanedUp (i : nat).

Record Exec := mk_exec {
  registry : gmap str Managed;
  enabled_plugins : gmap str bool;
  admissions : list Admission;         (** by instance *)
  ledger : Ledger;
  threads : list Pc;
  log : list PluginEvent
}.

Definition set_registry (v : gmap str Managed) (s : Exec) : Exec :=
  mk_exec v (enabled_plugins s) (admissions s) (ledger s) (threads s) (log s).
Definition set_enabled (v : gmap str bool) (s : Exec) : Exec :=
  mk_exec (registry s) v (admissions s) (ledger s) (threads s) (log s).
Definition set_admissions (v : list Admission) (s : Exec) : Exec :=
  mk_exec (registry s) (enabled_plugins s) v (ledger s) (threads s) (log s).
Definition set_ledger (v : Ledger) (s : Exec) : Exec :=
  mk_exec (registry s) (enabled_plugins s) (admissions s) v (threads s) (log s).
Definition set_thread (t : nat) (p : Pc) (s : Exec) : Exec :=
  mk_exec (registry s) (enabled_plugins s) (admissions s) (ledger s) (<[t := p]> (threads s)) (log s).
Definition emit (e : PluginEvent) (s : Exec) : Exec :=
  mk_exec (registry s) (enabled_plugins s) (admissions s) (ledger s) (threads s) (log s ++ [e]).

(** ** What a thread holds *)

Definition reads_registry (p : Pc) : bool :=
  match p with CallFound _ | CallLocked _ | CallGuest _ | CallEnding _ => true | _ => false end.

Definition holds_instance (i : nat) (p : Pc) : bool :=
  match p with
  | CallLocked c | CallGuest c => (c_instance c =? i)%nat
  | UnloadCleanup j => (j =? i)%nat
  | _ => false
  end.

Definition holds_transition (p : Pc) : bool :=
  match p with
  | CallBlocking _ _ | DisableHeld _ | DisableFlagged _ | DisableWaiting _ | EnableHeld _ => true
  | _ => false
  end.

Definition holds_permit (i : nat) (p : Pc) : bool :=
  match p with
  | CallGuest c | CallEnding c | CallViolated c _ | CallBlocking c _ => (c_instance c =? i)%nat
  | EffectHeld j => (j =? i)%nat
  | _ => false
  end.

Definition in_guest (i : nat) (p : Pc) : bool :=
  match p with CallGuest c => (c_instance c =? i)%nat | _ => false end.

Definition nobody (holds : Pc -> bool) (s : Exec) : bool := negb (existsb holds (threads s)).

(** ** The admission barrier *)

Definition admission (i : nat) (s : Exec) : Admission := default (mk_admission false 0) (admissions s !! i).

Definition alter_admission (f : Admission -> Admission) (i : nat) (s : Exec) : Exec :=
  set_admissions (alter f i (admissions s)) s.

(** [ExecutionAdmission::admit]. *)
Definition admit_call (i : nat) (s : Exec) : option Exec :=
  if adm_enabled (admission i s)
  then Some (alter_admission (fun a => mk_admission (adm_enabled a) (S (in_flight a))) i s) else None.

Definition drop_permit (i : nat) (s : Exec) : Exec :=
  alter_admission (fun a => mk_admission (adm_enabled a) (in_flight a - 1)) i s.

Definition set_admitting (b : bool) (i : nat) (s : Exec) : Exec :=
  alter_admission (fun a => mk_admission b (in_flight a)) i s.

(** ** Steps *)

(** What the guest call ends in, a resource limit or anything else, and whether the
    ledger's file can be written. *)
Record Chance := mk_chance { exhausted : option str; disk : bool }.

(** The end of a call whose guest ran into a resource limit, under the transition's
    mutex; the error of the ledger only changes what the call returns. *)
Definition block_plugin (ch : Chance) (c : Callee) (reason : str) (s : Exec) : Exec :=
  let s := set_admitting false (c_instance c) s in
  let still_current := match registry s !! c_key c with
                       | Some m => (m_instance m =? c_instance c)%nat
                       | None => false
                       end in
  let s := if still_current then set_enabled (<[c_key c := false]> (enabled_plugins s)) s else s in
  let recorded := if c_retry c then record_failed_retry (disk ch) (c_fingerprint c) reason (ledger s)
                  else record_initial_violation (c_fingerprint c) reason (ledger s) in
  match recorded with Some l => set_ledger l s | None => s end.

(** [admit_host_effect_for_instance], to the permit. *)
Definition admit_host_effect_for_instance (t : nat) (key : str) (expected : nat) (s : Exec) : Exec :=
  match registry s !! key with
  | Some m =>
      if (m_instance m =? expected)%nat then
        match admit_call expected s with
        | Some s => set_thread t (EffectHeld expected) s
        | None => set_thread t Returned s
        end
      else set_thread t Returned s
  | None => set_thread t Returned s
  end.

(** [disable_plugin] with the transition's mutex, to the flag; [disable_and_wait] is the
    two steps after it. *)
Definition disable_plugin (t : nat) (key : str) (s : Exec) : Exec :=
  match registry s !! key with
  | Some m => set_thread t (DisableFlagged (m_instance m)) (set_enabled (<[key := false]> (enabled_plugins s)) s)
  | None => set_thread t Returned s
  end.

(** [enable_plugin] with the transition's mutex. *)
Definition enable_plugin (t : nat) (key : str) (s : Exec) : Exec :=
  match registry s !! key with
  | Some m =>
      if has_runtime_violation (m_fingerprint m) (ledger s) then set_thread t Returned s
      else emit (EnabledEvent (m_instance m))
             (set_thread t Returned
                (set_enabled (<[key := true]> (enabled_plugins s)) (set_admitting true (m_instance m) s)))
  | None => set_thread t Returned s
  end.

(** [remove_live_plugin] with the registry locked; it then waits for the calls that are
    in and runs the cleanup. *)
Definition remove_live_plugin (t : nat) (key : str) (s : Exec) : Exec :=
  match registry s !! key with
  | Some m =>
      set_thread t (UnloadRemoved (m_instance m))
        (set_enabled (delete key (enabled_plugins s)) (set_registry (delete key (registry s)) s))
  | None => set_thread t Returned s
  end.

(** The next step of thread [t]; [None] when it is blocked or through. *)
Definition run_step (t : nat) (ch : Chance) (s : Exec) : option Exec :=
  p ← threads s !! t;
  match p with
  | CallStart key expected =>
      match registry s !! key with
      | Some m =>
          if match expected with Some i => negb (i =? m_instance m)%nat | None => false end
          then Some (set_thread t Returned s)
          else Some (set_thread t (CallFound (mk_callee key (m_instance m) (m_fingerprint m) (m_retry m))) s)
      | None => Some (set_thread t Returned s)
      end
  | CallFound c => if nobody (holds_instance (c_instance c)) s then Some (set_thread t (CallLocked c) s) else None
  | CallLocked c =>
      match admit_call (c_instance c) s with
      | Some s => Some (emit (GuestStarted (c_instance c)) (set_thread t (CallGuest c) s))
      | None => Some (set_thread t Returned s)
      end
  | CallGuest c =>
      let s := emit (GuestEnded (c_instance c)) s in
      match exhausted ch with
      | Some reason => Some (set_thread t (CallViolated c reason) s)
      | None => Some (set_thread t (CallEnding c) s)
      end
  | CallEnding c => Some (set_thread t Returned (drop_permit (c_instance c) s))
  | CallViolated c reason => if nobody holds_transition s then Some (set_thread t (CallBlocking c reason) s) else None
  | CallBlocking c reason =>
      Some (set_thread t Returned (drop_permit (c_instance c) (block_plugin ch c reason s)))
  | EffectStart key expected => Some (admit_host_effect_for_instance t key expected s)
  | EffectHeld i => Some (set_thread t Returned (drop_permit i s))
  | DisableStart key => if nobody holds_transition s then Some (set_thread t (DisableHeld key) s) else None
  | DisableHeld key => Some (disable_plugin t key s)
  | DisableFlagged i => Some (set_thread t (DisableWaiting i) (set_admitting false i s))
  | DisableWaiting i =>
      if (in_flight (admission i s) =? 0)%nat
      then Some (emit (DisabledEvent i) (set_thread t Returned s)) else None
  | EnableStart key => if nobody holds_transition s then Some (set_thread t (EnableHeld key) s) else None
  | EnableHeld key => Some (enable_plugin t key s)
  | UnloadStart key => if nobody reads_registry s then Some (remove_live_plugin t key s) else None
  | UnloadRemoved i => Some (set_thread t (UnloadWaiting i) (set_admitting false i s))
  | UnloadWaiting i =>
      if (in_flight (admission i s) =? 0)%nat && nobody (holds_instance i) s
      then Some (set_thread t (UnloadCleanup i) s) else None
  | UnloadCleanup i => Some (emit (CleanedUp i) (set_thread t Returned s))
  | Returned => None
  end.

Definition is_start (p : Pc) : bool :=
  match p with
  | CallStart _ _ | EffectStart _ _ | DisableStart _ | EnableStart _ | UnloadStart _ => true
  | _ => false
  end.

(** [register_prepared_plugin] of a plugin that [prepare_plugin] made; its callers have
    found or made the key free. *)
Definition register_prepared_plugin (key fp : str) (retry : bool) (s : Exec) : option Exec :=
  if nobody reads_registry s && negb (bool_decide (is_Some (registry s !! key))) then
    let i := length (admissions s) in
    let s := set_admissions (admissions s ++ [mk_admission true 0]) s in
    let s := set_registry (<[key := mk_managed i fp retry]> (registry s)) s in
    Some (set_enabled (<[key := true]> (enabled_plugins s)) s)
  else None.

Inductive ExecStep :=
| Spawn (p : Pc)
| Run (t : nat) (ch : Chance)
| RegisterPlugin (key fp : str) (retry : bool).

Definition exec_step (st : ExecStep) (s : Exec) : option Exec :=
  match st with
  | Spawn p =>
      if is_start p
      then Some (mk_exec (registry s) (enabled_plugins s) (admissions s) (ledger s) (threads s ++ [p]) (log s)) else None
  | Run t ch => run_step t ch s
  | RegisterPlugin key fp retry => register_prepared_plugin key fp retry s
  end.

Fixpoint exec_run (sts : list ExecStep) (s : Exec) : option Exec :=
  match sts with
  | [] => Some s
  | st :: sts' => s' ← exec_step st s; exec_run sts' s'
  end.

Definition exec_start (l : Ledger) : Exec := mk_exec ∅ ∅ [] l [] [].
