(* ===== verification/PluginExecProps.v ===== *)
(** What the executor's locks and its admission barrier promise: a disabled or unloaded
    plugin does not run, one call of a generation runs at a time, and only while the
    generation is registered. Also how disabling and a resource limit wait for each
    other, and what the quarantine ledger keeps. *)

From stdpp Require Import base tactics option list gmap strings.
From Stdlib Require Import ZArith Lia.
From S2P Require Import Prelude Text PluginExec.

#[local] Arguments String.list_ascii_of_string : simpl never.
Open Scope arclain_scope.

Definition bit (b : bool) : nat := if b then 1 else 0.

Lemma count_set (f : Pc -> bool) l t p p' :
  l !! t = Some p -> (count_if f (<[t := p']> l) + bit (f p) = count_if f l + bit (f p'))%nat.
Proof.
  revert t. induction l as [|q l IH]; intros [|t] H; cbn in H; try done.
  - injection H as ->. cbn [insert list_insert]. rewrite !count_if_cons. unfold bit. destruct (f p), (f p'); lia.
  - change (<[S t := p']> (q :: l)) with (q :: <[t := p']> l). rewrite !count_if_cons. specialize (IH t H). lia.
Qed.

Lemma nobody_count f s : nobody f s = true -> count_if f (threads s) = 0%nat.
Proof.
  unfold nobody. rewrite negb_true_iff. induction (threads s) as [|p l IH]; [done|]. cbn [existsb].
  rewrite orb_false_iff, count_if_cons. intros [-> H]. by rewrite IH.
Qed.

Lemma count_pos f (l : list Pc) p : p ∈ l -> f p = true -> (0 < count_if f l)%nat.
Proof.
  intros Hin Hf. induction Hin as [p l|p q l Hin IH]; rewrite count_if_cons; [rewrite Hf; lia|]. specialize (IH Hf). lia.
Qed.

Lemma count_zero f (l : list Pc) p : count_if f l = 0%nat -> p ∈ l -> f p = false.
Proof. intros H Hin. destruct (f p) eqn:E; [|done]. pose proof (count_pos f l p Hin E). lia. Qed.

Lemma count_none f (l : list Pc) : (forall p, p ∈ l -> f p = false) -> count_if f l = 0%nat.
Proof.
  induction l as [|p l IH]; intros H; [done|]. rewrite count_if_cons, H by set_solver. rewrite IH; [done|].
  intros q Hq. apply H. set_solver.
Qed.

Lemma threads_set t p' q (l : list Pc) : q ∈ <[t := p']> l -> q = p' \/ q ∈ l.
Proof.
  intros (k & Hk)%list_elem_of_lookup. destruct (decide (k = t)) as [->|Hne].
  - apply list_lookup_insert_Some in Hk as [(_ & <- & _)|(? & _)]; [by left|done].
  - rewrite list_lookup_insert_ne in Hk by done. right. by eapply list_elem_of_lookup_2.
Qed.

(** * The log *)

Definition starts (i : nat) : list PluginEvent -> nat :=
  count_if (fun e => match e with GuestStarted j => (j =? i)%nat | _ => false end).
Definition ends (i : nat) : list PluginEvent -> nat :=
  count_if (fun e => match e with GuestEnded j => (j =? i)%nat | _ => false end).

(** Whether the last word on the generation is that it was disabled or cleaned up. *)
Definition off_after (i : nat) (b : bool) (e : PluginEvent) : bool :=
  match e with
  | DisabledEvent j | CleanedUp j => if (j =? i)%nat then true else b
  | EnabledEvent j => if (j =? i)%nat then false else b
  | GuestStarted _ | GuestEnded _ => b
  end.
Definition off (i : nat) (l : list PluginEvent) : bool := foldl (off_after i) false l.

Definition fits (l : list PluginEvent) (e : PluginEvent) : Prop :=
  match e with
  | GuestStarted i => off i l = false /\ CleanedUp i ∉ l /\ starts i l = ends i l
  | GuestEnded i => starts i l = S (ends i l)
  | DisabledEvent i | CleanedUp i => starts i l = ends i l
  | EnabledEvent i => CleanedUp i ∉ l
  end.

Definition good_log (l : list PluginEvent) : Prop := forall l1 e l2, l = l1 ++ e :: l2 -> fits l1 e.

Lemma good_log_snoc l e : good_log l -> fits l e -> good_log (l ++ [e]).
Proof.
  intros Hg He l1 x l2 E. destruct l2 as [|y l2 _] using rev_ind.
  - apply app_inj_tail in E as [-> ->]. done.
  - rewrite app_comm_cons, app_assoc in E. apply app_inj_tail in E as [E ->]. by eapply Hg.
Qed.

Lemma off_snoc i l e : off i (l ++ [e]) = off_after i (off i l) e.
Proof. unfold off. by rewrite foldl_app. Qed.

(** * The invariant *)

Definition gone (i : nat) (s : Exec) : Prop := map_Forall (fun _ m => m_instance m <> i) (registry s).

(** What is true of a thread because of where it is. *)
Definition pc_fine (s : Exec) (p : Pc) : Prop :=
  match p with
  | CallFound c | CallLocked c | CallGuest c | CallEnding c =>
      exists m, registry s !! c_key c = Some m /\ m_instance m = c_instance c
  | CallViolated c _ | CallBlocking c _ => (c_instance c < length (admissions s))%nat
  | EffectHeld i | DisableFlagged i => (i < length (admissions s))%nat
  | DisableWaiting i => (i < length (admissions s))%nat /\ adm_enabled (admission i s) = false
  | UnloadRemoved i => (i < length (admissions s))%nat /\ gone i s
  | UnloadWaiting i => (i < length (admissions s))%nat /\ gone i s /\ adm_enabled (admission i s) = false
  | UnloadCleanup i =>
      (i < length (admissions s))%nat /\ gone i s /\ adm_enabled (admission i s) = false /\ in_flight (admission i s) = 0%nat
  | _ => True
  end.

Definition generations_ok (s : Exec) : Prop :=
  map_Forall (fun _ m => (m_instance m < length (admissions s))%nat) (registry s)
  /\ forall k k' m m', registry s !! k = Some m -> registry s !! k' = Some m' -> m_instance m = m_instance m' -> k = k'.

(** A generation whose admission is closed and that nobody is in. *)
Definition shut (i : nat) (s : Exec) : Prop :=
  (i < length (admissions s))%nat /\ adm_enabled (admission i s) = false /\ in_flight (admission i s) = 0%nat.

Record exec_ok (s : Exec) : Prop := {
  ok_registered : generations_ok s;
  ok_fine : Forall (pc_fine s) (threads s);
  ok_flight : forall i, (i < length (admissions s))%nat -> in_flight (admission i s) = count_if (holds_permit i) (threads s);
  ok_instance : forall i, (count_if (holds_instance i) (threads s) <= 1)%nat;
  ok_transition : (count_if holds_transition (threads s) <= 1)%nat;
  ok_running : forall i, starts i (log s) = (ends i (log s) + count_if (in_guest i) (threads s))%nat;
  ok_off : forall i, off i (log s) = true -> shut i s;
  ok_cleaned : forall i, CleanedUp i ∈ log s -> gone i s /\ (i < length (admissions s))%nat;
  ok_log : good_log (log s)
}.

(** * Steps *)

Lemma admission_lookup i s : (i < length (admissions s))%nat -> admissions s !! i = Some (admission i s).
Proof. intros H. unfold admission. destruct (lookup_lt_is_Some_2 (admissions s) i H) as [a ->]. done. Qed.

Lemma admission_unknown i s : ~ (i < length (admissions s))%nat -> admission i s = mk_admission false 0.
Proof. intros H. unfold admission. by rewrite lookup_ge_None_2 by lia. Qed.

Lemma admission_alter f i j s :
  admission j (alter_admission f i s)
  = if decide (i = j /\ (j < length (admissions s))%nat) then f (admission j s) else admission j s.
Proof.
  unfold admission at 1, alter_admission. cbn [admissions set_admissions].
  destruct (decide (i = j)) as [->|Hne].
  - rewrite list_lookup_alter_eq. destruct (decide _) as [[_ Hl]|Hl].
    + by rewrite admission_lookup.
    + rewrite lookup_ge_None_2 by (intuition lia). unfold admission. by rewrite lookup_ge_None_2 by (intuition lia).
  - rewrite list_lookup_alter_ne by done. rewrite decide_False by intuition. done.
Qed.

Lemma length_alter_admission f i s : length (admissions (alter_admission f i s)) = length (admissions s).
Proof. cbn. apply length_alter. Qed.

(** One thread moves from [p] to [p']; what else changes is in step with it. *)
Lemma advance s s' t p p' :
  exec_ok s -> threads s !! t = Some p -> threads s' = <[t := p']> (threads s) ->
  length (admissions s') = length (admissions s) ->
  generations_ok s' ->
  (forall q, q ∈ threads s -> pc_fine s q -> pc_fine s' q) -> pc_fine s' p' ->
  (forall i, (i < length (admissions s'))%nat ->
     (in_flight (admission i s') + bit (holds_permit i p) = in_flight (admission i s) + bit (holds_permit i p'))%nat) ->
  (forall i, holds_instance i p' = true -> holds_instance i p = true \/ nobody (holds_instance i) s = true) ->
  (holds_transition p' = true -> holds_transition p = true \/ nobody holds_transition s = true) ->
  (log s' = log s /\ (forall i, in_guest i p' = in_guest i p)
   \/ exists e, log s' = log s ++ [e] /\ fits (log s) e
      /\ forall i, (starts i [e] + bit (in_guest i p) = ends i [e] + bit (in_guest i p'))%nat) ->
  (forall i, off i (log s') = true -> shut i s') ->
  (forall i, CleanedUp i ∈ log s' -> gone i s' /\ (i < length (admissions s'))%nat) ->
  exec_ok s'.
Proof.
  intros Hok Hp Ht Hlen Hreg Hfine Hp' Hfl Hin Htr Hlog Hoff Hcl.
  assert (forall f : Pc -> bool, (count_if f (threads s) <= 1)%nat -> (f p' = true -> f p = true \/ nobody f s = true) ->
    (count_if f (threads s') <= 1)%nat) as Hmutex.
  { intros f Hc Hf. rewrite Ht. pose proof (count_set f _ t p p' Hp). unfold bit in *. destruct (f p') eqn:E.
    - destruct (Hf eq_refl) as [E'|E'%nobody_count]; [rewrite E' in *; lia|destruct (f p); lia].
    - destruct (f p); lia. }
  split; [done| | | | | | |done|].
  - rewrite Ht. apply Forall_forall. intros q [->|Hq]%threads_set; [done|]. apply Hfine; [done|].
    pose proof (ok_fine s Hok) as H. rewrite Forall_forall in H. auto.
  - intros i Hi. specialize (Hfl i Hi). rewrite Ht. pose proof (count_set (holds_permit i) _ t p p' Hp).
    pose proof (ok_flight s Hok i ltac:(lia)). lia.
  - intros i. apply Hmutex; [apply (ok_instance s Hok)|apply Hin].
  - apply Hmutex; [apply (ok_transition s Hok)|done].
  - intros i. rewrite Ht. pose proof (count_set (in_guest i) _ t p p' Hp). pose proof (ok_running s Hok i).
    destruct Hlog as [[-> Hg]|(e & -> & _ & Hg)].
    + rewrite (Hg i) in *. lia.
    + specialize (Hg i). unfold starts, ends in *. rewrite !count_if_app. lia.
  - done.
  - destruct Hlog as [[-> _]|(e & -> & He & _)]; [apply (ok_log s Hok)|]. apply good_log_snoc; [apply (ok_log s Hok)|done].
Qed.

(** The flags and the ledger are not part of the invariant. *)
Lemma ok_irrelevant s e l : exec_ok s -> exec_ok (set_ledger l (set_enabled e s)).
Proof. intros [? ? ? ? ? ? ? ? ?]. by split. Qed.

Lemma fine_same s s' p :
  registry s' = registry s -> admissions s' = admissions s -> pc_fine s p -> pc_fine s' p.
Proof. intros Hr Ha. unfold pc_fine, admission, gone. by rewrite Hr, Ha. Qed.

(** A move that changes nothing else. *)
Lemma move_ok t p p' s :
  exec_ok s -> threads s !! t = Some p ->
  (forall i, holds_permit i p' = holds_permit i p) -> (forall i, in_guest i p' = in_guest i p) ->
  (forall i, holds_instance i p' = true -> holds_instance i p = true \/ nobody (holds_instance i) s = true) ->
  (holds_transition p' = true -> holds_transition p = true \/ nobody holds_transition s = true) ->
  pc_fine s p' -> exec_ok (set_thread t p' s).
Proof.
  intros Hok Hp Hperm Hg Hin Htr Hf.
  apply (advance s _ t p p'); try done.
  - apply (ok_registered s Hok).
  - intros i _. by rewrite Hperm.
  - by left.
  - apply (ok_off s Hok).
  - apply (ok_cleaned s Hok).
Qed.

(** Closing an admission. *)
Lemma silence_ok i s : exec_ok s -> exec_ok (set_admitting false i s).
Proof.
  intros Hok. unfold set_admitting.
  assert (forall j, in_flight (admission j (alter_admission (fun a => mk_admission false (in_flight a)) i s)) = in_flight (admission j s)) as Hfl
    by (intros j; rewrite admission_alter; by case_decide).
  assert (forall j, adm_enabled (admission j s) = false ->
    adm_enabled (admission j (alter_admission (fun a => mk_admission false (in_flight a)) i s)) = false) as Hen
    by (intros j Hj; rewrite admission_alter; by case_decide).
  split.
  - unfold generations_ok. rewrite length_alter_admission. apply (ok_registered s Hok).
  - eapply Forall_impl; [apply (ok_fine s Hok)|]. intros p. unfold pc_fine, gone. rewrite length_alter_admission.
    destruct p; try done; rewrite ?Hfl; intuition.
  - intros j. rewrite length_alter_admission, Hfl. apply (ok_flight s Hok).
  - apply (ok_instance s Hok).
  - apply (ok_transition s Hok).
  - apply (ok_running s Hok).
  - intros j Hj. destruct (ok_off s Hok j Hj) as (H0 & H1 & H2). unfold shut. rewrite length_alter_admission, Hfl. auto.
  - rewrite length_alter_admission. apply (ok_cleaned s Hok).
  - apply (ok_log s Hok).
Qed.

(** A permit goes back. *)
Lemma drop_ok t p i s :
  exec_ok s -> threads s !! t = Some p -> (i < length (admissions s))%nat ->
  (forall j, holds_permit j p = (i =? j)%nat) -> (forall j, in_guest j p = false) ->
  exec_ok (set_thread t Returned (drop_permit i s)).
Proof.
  intros Hok Hp Hi Hperm Hg. pose proof (list_elem_of_lookup_2 _ _ _ Hp) as Hin.
  pose proof (ok_flight s Hok i Hi) as Hf. pose proof (count_pos (holds_permit i) _ p Hin) as Hpos.
  rewrite Hperm, Nat.eqb_refl in Hpos. specialize (Hpos eq_refl).
  unfold drop_permit. set (f := fun a => mk_admission _ _).
  assert (forall j, adm_enabled (admission j (alter_admission f i s)) = adm_enabled (admission j s)) as Hen
    by (intros j; rewrite admission_alter; by case_decide).
  assert (forall j, in_flight (admission j s) = 0%nat -> in_flight (admission j (alter_admission f i s)) = 0%nat) as Hz
    by (intros j Hj; rewrite admission_alter; case_decide; [cbn; lia|done]).
  apply (advance s _ t p Returned); try done.
  - apply length_alter_admission.
  - unfold generations_ok. cbn [set_thread admissions]. rewrite length_alter_admission. apply (ok_registered s Hok).
  - intros q _. unfold pc_fine, gone. change (admission ?j (set_thread t Returned ?x)) with (admission j x).
    cbn [set_thread admissions]. rewrite length_alter_admission. destruct q; try done; rewrite ?Hen; intuition.
  - intros j _. change (admission j (set_thread t Returned (alter_admission f i s))) with (admission j (alter_admission f i s)).
    rewrite admission_alter, Hperm. case_decide as Hd.
    + destruct Hd as [<- _]. rewrite Nat.eqb_refl. cbn. lia.
    + destruct (Nat.eqb_spec i j) as [->|]; [intuition|done].
  - left. by split.
  - intros j Hj. destruct (ok_off s Hok j Hj) as (H0 & H1 & H2). unfold shut.
    change (admission j (set_thread t Returned (alter_admission f i s))) with (admission j (alter_admission f i s)).
    cbn [set_thread admissions]. rewrite length_alter_admission, Hen. auto.
  - cbn [set_thread admissions]. rewrite length_alter_admission. apply (ok_cleaned s Hok).
Qed.

(** A permit is given for a registered generation; a call enters its guest. *)
Lemma effect_admit_ok t p p' i key m s e :
  exec_ok s -> threads s !! t = Some p -> registry s !! key = Some m -> m_instance m = i ->
  adm_enabled (admission i s) = true ->
  (forall j, holds_permit j p = false) -> (forall j, holds_permit j p' = (i =? j)%nat) ->
  (forall j, holds_instance j p' = holds_instance j p) -> holds_transition p' = false ->
  (forall x, length (admissions x) = length (admissions s) -> registry x = registry s -> pc_fine x p') ->
  (e = None /\ (forall j, in_guest j p' = in_guest j p)
   \/ e = Some (GuestStarted i) /\ holds_instance i p = true /\ (forall j, in_guest j p = false)
      /\ (forall j, in_guest j p' = (i =? j)%nat)) ->
  let s1 := set_thread t p' (alter_admission (fun a => mk_admission (adm_enabled a) (S (in_flight a))) i s) in
  exec_ok (match e with Some e => emit e s1 | None => s1 end).
Proof.
  intros Hok Hp Hm Hi Hen Hnp Hperm Hinst Htr Hfine He s1.
  destruct (ok_registered s Hok) as [Hreg Hdist]. pose proof (Hreg _ _ Hm) as Hlt. cbn in Hlt. rewrite Hi in Hlt.
  set (f := fun a => mk_admission (adm_enabled a) (S (in_flight a))) in *.
  assert (forall j, adm_enabled (admission j (alter_admission f i s)) = adm_enabled (admission j s)) as Hsame
    by (intros j; rewrite admission_alter; by case_decide).
  assert (forall j, (gone j s \/ adm_enabled (admission j s) = false) ->
    in_flight (admission j (alter_admission f i s)) = in_flight (admission j s)) as Hkeep.
  { intros j Hj. rewrite admission_alter. case_decide as Hd; [|done]. destruct Hd as [<- _]. exfalso.
    destruct Hj as [Hj|Hj]; [|congruence]. by apply (Hj key m). }
  assert (off i (log s) = false) as Hnoff.
  { destruct (off i (log s)) eqn:E; [|done]. destruct (ok_off s Hok i E) as (_ & ? & _). congruence. }
  set (s2 := match e with Some e => emit e s1 | None => s1 end).
  assert (threads s2 = <[t := p']> (threads s) /\ registry s2 = registry s
    /\ admissions s2 = admissions (alter_admission f i s)) as (Ht2 & Hr2 & Ha2) by (subst s2; by destruct e).
  assert (forall j, admission j s2 = admission j (alter_admission f i s)) as Hadm by (intros j; unfold admission; by rewrite Ha2).
  apply (advance s s2 t p p'); try done.
  - rewrite Ha2. apply length_alter_admission.
  - unfold generations_ok. rewrite Hr2, Ha2, length_alter_admission. by split.
  - intros q _. unfold pc_fine, gone. rewrite Hr2, Ha2, length_alter_admission.
    destruct q; try done; rewrite ?Hadm, ?Hsame; try done. intros (H1 & H2 & H3 & H4). rewrite Hkeep; auto.
  - apply Hfine; [|done]. rewrite Ha2. apply length_alter_admission.
  - intros j _. rewrite Hadm, admission_alter, Hnp, Hperm. case_decide as Hd.
    + destruct Hd as [<- _]. rewrite Nat.eqb_refl. cbn. lia.
    + destruct (Nat.eqb_spec i j) as [->|]; [|done]. exfalso. apply Hd. done.
  - intros j Hj. left. by rewrite <-Hinst.
  - congruence.
  - destruct He as [[-> Hg]|(-> & Hhold & Hg & Hg')]; [by left|right].
    exists (GuestStarted i). split; [done|]. split; [|].
    + split; [done|]. split.
      * intros Hc. by apply (proj1 (ok_cleaned s Hok i Hc) key m).
      * pose proof (ok_running s Hok i) as Hrun. pose proof (ok_instance s Hok i) as Hone.
        pose proof (count_set (holds_instance i) _ t p Returned Hp) as C1. rewrite Hhold in C1. cbn in C1.
        pose proof (count_set (in_guest i) _ t p Returned Hp) as C2. rewrite Hg in C2. cbn in C2.
        assert (count_if (in_guest i) (<[t := Returned]> (threads s)) = 0%nat) as Hz; [|lia].
        assert (count_if (holds_instance i) (<[t := Returned]> (threads s)) = 0%nat) as Hz0 by lia.
        apply count_none. intros q Hq. pose proof (count_zero _ _ q Hz0 Hq) as Hq'. by destruct q.
    + intros j. rewrite Hg, Hg'. unfold starts, ends. rewrite !count_if_cons. cbn. by destruct (i =? j)%nat.
  - intros j Hj. assert (off j (log s) = true) as Hj'.
    { subst s2. destruct He as [[-> _]|(-> & _)]; [done|]. change (log (emit _ s1)) with (log s ++ [GuestStarted i]) in Hj.
      by rewrite off_snoc in Hj. }
    destruct (ok_off s Hok j Hj') as (H0 & H1 & H2). unfold shut. rewrite Hadm, Hsame, Hkeep, Ha2, length_alter_admission by auto. done.
  - intros j Hj. assert (CleanedUp j ∈ log s) as Hj'.
    { subst s2. destruct He as [[-> _]|(-> & _)]; [done|]. change (log (emit _ s1)) with (log s ++ [GuestStarted i]) in Hj.
      set_solver. }
    unfold gone. rewrite Hr2, Ha2, length_alter_admission. by apply (ok_cleaned s Hok).
Qed.

(** A move that says something in the log. *)
Lemma emit_ok t p p' e s :
  exec_ok s -> threads s !! t = Some p ->
  (forall i, holds_permit i p' = holds_permit i p) -> (forall i, holds_instance i p' = false) -> holds_transition p' = false ->
  pc_fine s p' -> fits (log s) e ->
  (forall i, (starts i [e] + bit (in_guest i p) = ends i [e] + bit (in_guest i p'))%nat) ->
  (forall i, off_after i false e = true -> shut i s) ->
  (forall i, off_after i true e = false -> False) ->
  (forall i, e = CleanedUp i -> gone i s /\ (i < length (admissions s))%nat) ->
  exec_ok (emit e (set_thread t p' s)).
Proof.
  intros Hok Hp Hperm Hinst Htr Hf He Hg Hoff Hkeep Hcl.
  apply (advance s _ t p p'); try done.
  - apply (ok_registered s Hok).
  - intros i _. by rewrite Hperm.
  - intros i Hi. by rewrite Hinst in Hi.
  - congruence.
  - right. by exists e.
  - intros i. change (log (emit e (set_thread t p' s))) with (log s ++ [e]). rewrite off_snoc. intros Hi.
    destruct (off i (log s)) eqn:E; [by apply (ok_off s Hok)|]. by apply Hoff.
  - intros i. change (log (emit e (set_thread t p' s))) with (log s ++ [e]). rewrite elem_of_app, list_elem_of_singleton.
    intros [Hi|Hi]; [by apply (ok_cleaned s Hok)|]. by apply Hcl.
Qed.

Lemma guest_permit i p : in_guest i p = true -> holds_permit i p = true.
Proof. by destruct p. Qed.
Lemma guest_instance i p : in_guest i p = true -> holds_instance i p = true.
Proof. by destruct p. Qed.

Lemma count_le (f g : Pc -> bool) l : (forall p, f p = true -> g p = true) -> (count_if f l <= count_if g l)%nat.
Proof.
  intros H. induction l as [|p l IH]; [done|]. rewrite !count_if_cons. destruct (f p) eqn:E; [rewrite (H _ E); lia|lia].
Qed.

(** Nobody in flight, nobody inside. *)
Lemma idle_balanced i s :
  exec_ok s -> (i < length (admissions s))%nat -> in_flight (admission i s) = 0%nat -> starts i (log s) = ends i (log s).
Proof.
  intros Hok Hi Hz. pose proof (ok_flight s Hok i Hi). pose proof (ok_running s Hok i).
  pose proof (count_le (in_guest i) (holds_permit i) (threads s) (guest_permit i)). lia.
Qed.

Lemma fine_at t p s : exec_ok s -> threads s !! t = Some p -> pc_fine s p.
Proof. intros Hok Hp. eapply Forall_lookup_1; [apply (ok_fine s Hok)|exact Hp]. Qed.

Lemma guest_end_ok t c p' s :
  exec_ok s -> threads s !! t = Some (CallGuest c) -> (p' = CallEnding c \/ exists r, p' = CallViolated c r) ->
  exec_ok (set_thread t p' (emit (GuestEnded (c_instance c)) s)).
Proof.
  intros Hok Hp Hp'. change (set_thread t p' (emit ?e s)) with (emit e (set_thread t p' s)).
  pose proof (fine_at _ _ _ Hok Hp) as (m & Hm & Hi). destruct (ok_registered s Hok) as [Hreg _].
  apply (emit_ok t (CallGuest c)); try done.
  - intros i. by destruct Hp' as [-> |[r ->]].
  - intros i. by destruct Hp' as [-> |[r ->]].
  - by destruct Hp' as [-> |[r ->]].
  - destruct Hp' as [-> |[r ->]]; cbn; [eauto|]. rewrite <-Hi. apply (Hreg _ _ Hm).
  - cbn. pose proof (ok_running s Hok (c_instance c)) as Hr. pose proof (ok_instance s Hok (c_instance c)).
    pose proof (count_le _ _ (threads s) (guest_instance (c_instance c))).
    pose proof (count_pos (in_guest (c_instance c)) _ _ (list_elem_of_lookup_2 _ _ _ Hp)) as H1. cbn in H1.
    rewrite Nat.eqb_refl in H1. specialize (H1 eq_refl). lia.
  - intros i. unfold starts, ends. rewrite !count_if_cons. cbn.
    destruct Hp' as [-> |[r ->]]; cbn; by destruct (c_instance c =? i)%nat.
Qed.

(** Two threads do not hold the transition. *)
Lemma transition_alone t p q s :
  exec_ok s -> threads s !! t = Some p -> holds_transition p = true -> q ∈ threads s -> holds_transition q = true -> p = q.
Proof.
  intros Hok Hp Hh Hq Hh'. pose proof (ok_transition s Hok) as Hone.
  pose proof (count_set holds_transition _ t p Returned Hp) as C. rewrite Hh in C. cbn in C.
  apply list_elem_of_lookup in Hq as [u Hu]. destruct (decide (u = t)) as [->|Hne]; [congruence|].
  assert (q ∈ <[t := Returned]> (threads s)) as Hin
    by (apply list_elem_of_lookup_2 with u; by rewrite list_lookup_insert_ne).
  pose proof (count_pos _ _ _ Hin Hh'). lia.
Qed.

Lemma enable_ok t key m s e :
  exec_ok s -> threads s !! t = Some (EnableHeld key) -> registry s !! key = Some m ->
  exec_ok (emit (EnabledEvent (m_instance m)) (set_thread t Returned (set_enabled e (set_admitting true (m_instance m) s)))).
Proof.
  intros Hok Hp Hm. set (i := m_instance m). destruct (ok_registered s Hok) as [Hreg Hdist].
  set (f := fun a => mk_admission true (in_flight a)).
  assert (forall j, in_flight (admission j (alter_admission f i s)) = in_flight (admission j s)) as Hfl
    by (intros j; rewrite admission_alter; by case_decide).
  assert (forall j, j <> i -> admission j (alter_admission f i s) = admission j s) as Hne
    by (intros j Hj; rewrite admission_alter, decide_False by intuition; done).
  assert (forall j, gone j s -> j <> i) as Hgone by (intros j Hj ->; by apply (Hj _ _ Hm)).
  set (s' := emit _ _).
  assert (forall j, admission j s' = admission j (alter_admission f i s)) as Hadm by done.
  apply (advance s s' t (EnableHeld key) Returned); try done.
  - apply length_alter_admission.
  - unfold generations_ok. cbn. rewrite length_alter. by split.
  - intros q Hq. unfold pc_fine. cbn [registry s' emit set_thread set_enabled set_admitting alter_admission set_admissions].
    change (length (admissions s')) with (length (admissions (alter_admission f i s))). rewrite length_alter_admission.
    destruct q as [| | | | | | | | | | |j|j| | | |j|j|j|]; try done; rewrite ?Hadm.
    + intros [H1 H2]. pose proof (transition_alone t _ _ s Hok Hp eq_refl Hq eq_refl). discriminate.
    + intros (H1 & H2 & H3). rewrite Hne by by apply Hgone. done.
    + intros (H1 & H2 & H3). rewrite Hne by by apply Hgone. done.
  - intros j _. by rewrite Hadm, Hfl.
  - right. exists (EnabledEvent i). split; [done|]. split; [|by intros j].
    intros Hc. by apply (proj1 (ok_cleaned s Hok i Hc) key m).
  - intros j. change (log s') with (log s ++ [EnabledEvent i]). rewrite off_snoc. cbn [off_after].
    destruct (Nat.eqb_spec i j) as [->|Hj]; [done|]. intros H. unfold shut. rewrite Hadm, Hne by done.
    change (length (admissions s')) with (length (admissions (alter_admission f i s))). rewrite length_alter_admission.
    by apply (ok_off s Hok).
  - intros j. change (log s') with (log s ++ [EnabledEvent i]). rewrite elem_of_app, list_elem_of_singleton.
    change (length (admissions s')) with (length (admissions (alter_admission f i s))). rewrite length_alter_admission.
    intros [H|H]; [by apply (ok_cleaned s Hok)|done].
Qed.

Lemma unload_ok t key m s e :
  exec_ok s -> threads s !! t = Some (UnloadStart key) -> nobody reads_registry s = true -> registry s !! key = Some m ->
  exec_ok (set_thread t (UnloadRemoved (m_instance m)) (set_enabled e (set_registry (delete key (registry s)) s))).
Proof.
  intros Hok Hp Hn Hm. destruct (ok_registered s Hok) as [Hreg Hdist]. apply nobody_count in Hn. set (s' := set_thread _ _ _).
  assert (registry s' = delete key (registry s)) as Er by done.
  assert (forall j, gone j s -> gone j s') as Hgone
    by (intros j Hj k m'; rewrite Er; intros [_ Hk]%lookup_delete_Some; by eapply Hj).
  apply (advance s s' t (UnloadStart key) (UnloadRemoved (m_instance m))); try done.
  - split; [intros k m'; rewrite Er; intros [_ Hk]%lookup_delete_Some; by apply (Hreg _ _ Hk)|].
    intros k k' m1 m2. rewrite Er. intros [_ H1]%lookup_delete_Some [_ H2]%lookup_delete_Some. by apply Hdist.
  - intros q Hq. pose proof (count_zero _ _ _ Hn Hq) as Hr. destruct q; try done; cbn; intuition; by apply Hgone.
  - split; [apply (Hreg _ _ Hm)|]. intros k m'. rewrite Er. intros [Hne Hk]%lookup_delete_Some E. apply Hne. symmetry. by eapply Hdist.
  - by left.
  - apply (ok_off s Hok).
  - intros j Hj. destruct (ok_cleaned s Hok j Hj). split; [by apply Hgone|done].
Qed.

Lemma ok_enabled s e : exec_ok s -> exec_ok (set_enabled e s).
Proof. intros H. by apply (ok_irrelevant s e (ledger s)). Qed.
Lemma ok_ledger s l : exec_ok s -> exec_ok (set_ledger l s).
Proof. intros H. by apply (ok_irrelevant s (enabled_plugins s) l). Qed.

Lemma block_ok ch c reason s :
  exec_ok s -> exec_ok (block_plugin ch c reason s) /\ threads (block_plugin ch c reason s) = threads s
  /\ length (admissions (block_plugin ch c reason s)) = length (admissions s).
Proof.
  intros Hok. unfold block_plugin. cbn zeta. set (s1 := set_admitting false (c_instance c) s).
  assert (exec_ok s1 /\ threads s1 = threads s /\ length (admissions s1) = length (admissions s)) as H1
    by (split; [by apply silence_ok|split; [done|apply length_alter_admission]]).
  clearbody s1. generalize (match registry s1 !! c_key c with Some m => (m_instance m =? c_instance c)%nat | None => false end).
  intros still. set (s2 := if still then _ else s1).
  assert (exec_ok s2 /\ threads s2 = threads s /\ length (admissions s2) = length (admissions s)) as H2
    by (subst s2; destruct H1 as (? & ? & ?); destruct still; [split; [by apply ok_enabled|done]|done]).
  clearbody s2. destruct H2 as (H2 & H3 & H4). destruct (if c_retry c then _ else _); [|done].
  split; [by apply ok_ledger|]. done.
Qed.

Lemma run_ok t ch s s' : exec_ok s -> run_step t ch s = Some s' -> exec_ok s'.
Proof.
  intros Hok. unfold run_step, admit_host_effect_for_instance, disable_plugin, enable_plugin, remove_live_plugin. destruct (threads s !! t) as [p|] eqn:Hp; [|done]. cbn [mbind option_bind].
  pose proof (fine_at _ _ _ Hok Hp) as Hf. destruct (ok_registered s Hok) as [Hreg _].
  assert (forall q, is_start q = true \/ (exists c, q = CallFound c) \/ (exists c, q = CallLocked c)
    \/ (exists k, q = DisableHeld k) \/ (exists k, q = EnableHeld k) ->
    p = q -> exec_ok (set_thread t Returned s)) as Hback.
  { intros q Hq ->.
    assert ((forall i, holds_permit i q = false) /\ (forall i, in_guest i q = false)) as [H1 H2]
      by (destruct Hq as [Hq|[[? ->]|[[? ->]|[[? ->]|[? ->]]]]]; [by destruct q|done..]).
    apply (move_ok t q); try done. }
  destruct p as [key expected|c|c|c|c|c reason|c reason|key expected|i|key|key|i|i|key|key|key|i|i|i|].
  - destruct (registry s !! key) as [m|] eqn:Hm; [|intros [= <-]; eapply Hback; [|done]; by left].
    destruct (match expected with Some i => _ | None => _ end); intros [= <-]; [eapply Hback; [|done]; by left|].
    eapply move_ok; [done|exact Hp|done..|]. cbn. eauto.
  - destruct (nobody _ s) eqn:En; intros [= <-]. eapply move_ok; [done|exact Hp|done|done| |done|done].
    cbn. intros i Hi. right. apply Nat.eqb_eq in Hi as <-. done.
  - destruct Hf as (m & Hm & Hi). unfold admit_call. destruct (adm_enabled (admission (c_instance c) s)) eqn:Ea; intros [= <-].
    + apply (effect_admit_ok t (CallLocked c) (CallGuest c) (c_instance c) (c_key c) m s (Some (GuestStarted (c_instance c)))); try done.
      * intros x _ Hx. cbn. rewrite Hx. eauto.
      * right. split_and!; try done. cbn. apply Nat.eqb_refl.
    + eapply Hback; [|done]. eauto 10.
  - destruct (exhausted ch) as [r|]; intros [= <-]; eapply guest_end_ok; eauto.
  - intros [= <-]. destruct Hf as (m & Hm & Hi).
    apply (drop_ok t (CallEnding c)); try done. rewrite <-Hi. apply (Hreg _ _ Hm).
  - destruct (nobody _ s) eqn:En; intros [= <-]. eapply move_ok; [done|exact Hp|done..| |done]. by right.
  - intros [= <-]. destruct (block_ok ch c reason s Hok) as (H1 & H2 & H3).
    apply (drop_ok t (CallBlocking c reason)); try done; [by rewrite H2|by rewrite H3].
  - intros [= <-]. destruct (registry s !! key) as [m|] eqn:Hm; [|eapply Hback; [|done]; by left].
    destruct (Nat.eqb_spec (m_instance m) expected) as [<-|]; [|eapply Hback; [|done]; by left].
    unfold admit_call. destruct (adm_enabled _) eqn:Ea; [|eapply Hback; [|done]; by left].
    apply (effect_admit_ok t (EffectStart key (m_instance m)) (EffectHeld (m_instance m)) (m_instance m) key m s None); try done.
    + intros x Hx _. cbn. rewrite Hx. apply (Hreg _ _ Hm).
    + by left.
  - intros [= <-]. by apply (drop_ok t (EffectHeld i)).
  - destruct (nobody _ s) eqn:En; intros [= <-]. eapply move_ok; [done|exact Hp|done..| |done]. by right.
  - intros [= <-]. destruct (registry s !! key) as [m|] eqn:Hm; [|eapply Hback; [|done]; eauto 10].
    apply (move_ok t (DisableHeld key)); try done; [by apply ok_enabled|by left|]. apply (Hreg _ _ Hm).
  - intros [= <-]. apply (move_ok t (DisableFlagged i)); try done; [by apply silence_ok|by left|].
    cbn. rewrite length_alter. split; [done|]. unfold set_admitting. rewrite admission_alter. by rewrite decide_True.
  - destruct (Nat.eqb_spec (in_flight (admission i s)) 0) as [Hz|]; intros [= <-]. destruct Hf as [Hl Ha].
    apply (emit_ok t (DisableWaiting i)); try done.
    + by apply idle_balanced.
    + intros j. cbn. destruct (Nat.eqb_spec i j) as [<-|]; done.
    + intros j. cbn. by destruct (i =? j)%nat.
  - destruct (nobody _ s) eqn:En; intros [= <-]. eapply move_ok; [done|exact Hp|done..| |done]. by right.
  - intros [= <-]. destruct (registry s !! key) as [m|] eqn:Hm; [|eapply Hback; [|done]; eauto 10].
    destruct (has_runtime_violation _ _); [eapply Hback; [|done]; eauto 10|]. by eapply enable_ok.
  - destruct (nobody _ s) eqn:En; [|done]. intros [= <-]. destruct (registry s !! key) as [m|] eqn:Hm.
    + by eapply unload_ok.
    + eapply Hback; [|done]. by left.
  - intros [= <-]. destruct Hf as [Hl Hg]. apply (move_ok t (UnloadRemoved i)); try done; [by apply silence_ok|].
    cbn. rewrite length_alter. split; [done|]. split; [done|]. unfold set_admitting. rewrite admission_alter. by rewrite decide_True.
  - destruct (_ && _) eqn:En; intros [= <-]. apply andb_true_iff in En as [Hz%Nat.eqb_eq Hn]. destruct Hf as (Hl & Hg & Ha).
    apply (move_ok t (UnloadWaiting i)); try done. intros j Hj. right. cbn in Hj. by apply Nat.eqb_eq in Hj as <-.
  - intros [= <-]. destruct Hf as (Hl & Hg & Ha & Hz). apply (emit_ok t (UnloadCleanup i)); try done.
    + by apply idle_balanced.
    + intros j. cbn. destruct (Nat.eqb_spec i j) as [<-|]; done.
    + intros j. cbn. by destruct (i =? j)%nat.
    + by intros j [= <-].
  - done.
Qed.

Lemma spawn_ok p s :
  exec_ok s -> is_start p = true ->
  exec_ok (mk_exec (registry s) (enabled_plugins s) (admissions s) (ledger s) (threads s ++ [p]) (log s)).
Proof.
  intros Hok Hp. assert (forall f : Pc -> bool, f p = false -> count_if f (threads s ++ [p]) = count_if f (threads s)) as Hc.
  { intros f Hf. rewrite count_if_app, count_if_cons, Hf. cbn. unfold count_if. cbn. lia. }
  split; cbn [registry admissions threads log].
  - apply (ok_registered s Hok).
  - apply Forall_app. split; [apply (ok_fine s Hok)|]. repeat constructor. by destruct p.
  - intros i Hi. rewrite Hc by by destruct p. by apply (ok_flight s Hok).
  - intros i. rewrite Hc by by destruct p. apply (ok_instance s Hok).
  - rewrite Hc by by destruct p. apply (ok_transition s Hok).
  - intros i. rewrite Hc by by destruct p. apply (ok_running s Hok).
  - apply (ok_off s Hok).
  - apply (ok_cleaned s Hok).
  - apply (ok_log s Hok).
Qed.

Lemma plugin_register_ok key fp retry s s' : exec_ok s -> register_prepared_plugin key fp retry s = Some s' -> exec_ok s'.
Proof.
  intros Hok. unfold register_prepared_plugin. destruct (_ && _) eqn:E; [|done]. intros [= <-].
  apply andb_true_iff in E as [Hn%nobody_count Hk%negb_true_iff%bool_decide_eq_false].
  apply eq_None_not_Some in Hk. destruct (ok_registered s Hok) as [Hreg Hdist].
  set (n := length (admissions s)). set (s' := set_enabled _ _).
  assert (forall i, (i < n)%nat -> admission i s' = admission i s) as Hadm
    by (intros i Hi; unfold admission; cbn; by rewrite lookup_app_l by done).
  assert (length (admissions s') = S n) as Hlen by (cbn; rewrite length_app; cbn; lia).
  assert (registry s' = <[key := mk_managed n fp retry]> (registry s)) as Er by done.
  assert (forall i, (i < n)%nat -> gone i s -> gone i s') as Hgone.
  { intros i Hi Hg k m. rewrite Er. intros [[<- <-]|[_ H]]%lookup_insert_Some; [cbn; lia|by eapply Hg]. }
  split.
  - unfold generations_ok. rewrite Hlen, Er. split.
    + intros k m [[<- <-]|[_ H]]%lookup_insert_Some; [cbn; lia|]. pose proof (Hreg _ _ H). cbn in *. lia.
    + intros k k' m m' [[<- <-]|[_ H]]%lookup_insert_Some [[<- <-]|[_ H']]%lookup_insert_Some E; cbn in E.
      * done.
      * pose proof (Hreg _ _ H'). cbn in *. lia.
      * pose proof (Hreg _ _ H). cbn in *. lia.
      * by eapply Hdist.
  - apply Forall_forall. intros q Hq. pose proof (count_zero _ _ _ Hn Hq) as Hr.
    pose proof (ok_fine s Hok) as Hf. rewrite Forall_forall in Hf. specialize (Hf q Hq).
    destruct q; try done; cbn [pc_fine] in *; rewrite Hlen; fold n in Hf; intuition (try lia);
      rewrite ?Hadm by done; try done; by apply Hgone.
  - intros i Hi. rewrite Hlen in Hi. destruct (decide (i = n)) as [->|Hne].
    + unfold admission. cbn. rewrite lookup_app_r by lia. unfold n. rewrite Nat.sub_diag. cbn. symmetry.
      apply count_none. intros q Hq. destruct (holds_permit _ q) eqn:E; [|done]. exfalso.
      pose proof (ok_fine s Hok) as Hf. rewrite Forall_forall in Hf. specialize (Hf q Hq).
      pose proof (count_zero _ _ _ Hn Hq) as Hr.
      destruct q; try done; cbn in *; apply Nat.eqb_eq in E; lia.
    + rewrite Hadm by lia. apply (ok_flight s Hok). lia.
  - apply (ok_instance s Hok).
  - apply (ok_transition s Hok).
  - apply (ok_running s Hok).
  - intros i Hi. destruct (ok_off s Hok i Hi) as (H0 & H1 & H2). fold n in H0. unfold shut. rewrite Hadm, Hlen by done.
    split; [lia|done].
  - intros i Hi. destruct (ok_cleaned s Hok i Hi) as [H1 H2]. split; [by apply Hgone|rewrite Hlen; lia].
  - apply (ok_log s Hok).
Qed.

Lemma exec_start_ok l : exec_ok (exec_start l).
Proof.
  split; try done; try (cbn; lia).
  - intros i. cbn. by rewrite elem_of_nil.
  - by intros [] ? ?.
Qed.

Lemma step_ok st s s' : exec_ok s -> exec_step st s = Some s' -> exec_ok s'.
Proof.
  intros Hok. destruct st as [p|t ch|key fp retry]; cbn.
  - destruct (is_start p) eqn:E; [|done]. intros [= <-]. by apply spawn_ok.
  - by apply run_ok.
  - by apply plugin_register_ok.
Qed.

Lemma runs_ok sts s s' : exec_ok s -> exec_run sts s = Some s' -> exec_ok s'.
Proof.
  revert s. induction sts as [|st sts IH]; intros s Hok; [by intros [= <-]|]. cbn.
  destruct (exec_step st s) as [u|] eqn:E; [|done]. cbn. apply IH. by eapply step_ok.
Qed.

(** C11: A disabled or unloaded plugin does not run. However calls, host effects,
    enables, disables, unloads and loads are interleaved: when disabling a plugin returns,
    none of its calls is inside the guest; no call enters the guest afterwards until the
    plugin was enabled again, and none ever enters a generation that was cleaned up; calls
    enter one at a time; and a call inside the guest is of the generation that is
    registered at that moment. *)
Theorem disabled_plugins_are_idle l sts s :
  exec_run sts (exec_start l) = Some s ->
  (forall l1 i l2, log s = l1 ++ DisabledEvent i :: l2 -> starts i l1 = ends i l1)
  /\ (forall l1 i l2, log s = l1 ++ GuestStarted i :: l2 ->
        off i l1 = false /\ CleanedUp i ∉ l1 /\ starts i l1 = ends i l1)
  /\ (forall c, CallGuest c ∈ threads s -> m_instance <$> registry s !! c_key c = Some (c_instance c)).
Proof.
  intros Hr. pose proof (runs_ok _ _ _ (exec_start_ok l) Hr) as Hok. split_and!.
  - intros l1 i l2 E. apply (ok_log s Hok l1 (DisabledEvent i) l2 E).
  - intros l1 i l2 E. apply (ok_log s Hok l1 (GuestStarted i) l2 E).
  - intros c Hc. pose proof (ok_fine s Hok) as Hf. rewrite Forall_forall in Hf.
    destruct (Hf _ Hc) as (m & -> & <-). done.
Qed.

(** * Disabling a plugin that runs into its limit *)

Lemma run_moves t ch s s' : run_step t ch s = Some s' -> exists p', threads s' = <[t := p']> (threads s).
Proof.
  unfold run_step, admit_host_effect_for_instance, disable_plugin, enable_plugin, remove_live_plugin.
  destruct (threads s !! t) as [p|]; [|done]. cbn [mbind option_bind].
  assert (forall ch c reason, threads (block_plugin ch c reason s) = threads s) as Hb.
  { intros ch' c reason. unfold block_plugin. cbn zeta. destruct (if c_retry c then _ else _); cbn; by repeat case_match. }
  destruct p; unfold admit_call; repeat case_match; intros [= <-]; simplify_eq; cbn; rewrite ?Hb; eauto.
Qed.

Lemma stuck_step st s s' t u c reason :
  exec_ok s -> t <> u -> threads s !! t = Some (CallViolated c reason) ->
  threads s !! u = Some (DisableWaiting (c_instance c)) -> exec_step st s = Some s' ->
  threads s' !! t = Some (CallViolated c reason) /\ threads s' !! u = Some (DisableWaiting (c_instance c)).
Proof.
  intros Hok Hne Ht Hu. destruct st as [p|v ch|key fp retry]; cbn.
  - destruct (is_start p); [|done]. intros [= <-]. cbn.
    split; (rewrite lookup_app_l; [done|by eapply lookup_lt_Some]).
  - intros Hs. destruct (decide (v = t)) as [->|Hvt].
    { unfold run_step in Hs. rewrite Ht in Hs. cbn in Hs. destruct (nobody _ s) eqn:En; [|done].
      apply nobody_count in En. pose proof (count_zero _ _ _ En (list_elem_of_lookup_2 _ _ _ Hu)). done. }
    destruct (decide (v = u)) as [->|Hvu].
    { unfold run_step in Hs. rewrite Hu in Hs. cbn in Hs. destruct (Nat.eqb_spec (in_flight (admission (c_instance c) s)) 0) as [Hz|]; [|done].
      pose proof (fine_at _ _ _ Hok Ht) as Hl. cbn in Hl. rewrite (ok_flight s Hok _ Hl) in Hz.
      pose proof (count_zero _ _ _ Hz (list_elem_of_lookup_2 _ _ _ Ht)) as H. cbn in H. by rewrite Nat.eqb_refl in H. }
    apply run_moves in Hs as [p' ->]. rewrite !list_lookup_insert_ne by done. done.
  - unfold register_prepared_plugin. destruct (_ && _); [|done]. by intros [= <-].
Qed.

Lemma stuck_run sts s s' t u c reason :
  exec_ok s -> t <> u -> threads s !! t = Some (CallViolated c reason) ->
  threads s !! u = Some (DisableWaiting (c_instance c)) -> exec_run sts s = Some s' ->
  threads s' !! t = Some (CallViolated c reason) /\ threads s' !! u = Some (DisableWaiting (c_instance c)).
Proof.
  revert s. induction sts as [|st sts IH]; intros s Hok Hne Ht Hu; [by intros [= <-]|]. cbn.
  destruct (exec_step st s) as [v|] eqn:E; [|done]. cbn.
  destruct (stuck_step _ _ _ _ _ _ _ Hok Hne Ht Hu E). apply IH; [by eapply step_ok|done..].
Qed.

(** * The ledger *)

Definition ledger_ok (l : Ledger) : Prop := map_Forall (fun _ r => validate_record r = true) (persisted l).

Lemma validate_insert fp r m :
  map_Forall (fun _ r => validate_record r = true) m -> validate_record r = true ->
  (base.size (<[fp := r]> m) <= MAX_LEDGER_RECORDS)%nat -> validate_records (<[fp := r]> m) = true.
Proof.
  intros Hm Hr Hs. unfold validate_records. apply andb_true_iff. split; [by apply Nat.leb_le|].
  apply forallb_forall. intros [k x] Hin%list_elem_of_In%elem_of_map_to_list. cbn.
  by apply (map_Forall_insert_2 (fun _ r => validate_record r = true) m fp r Hr Hm k x).
Qed.

(** The retries that failed, in order, with the ledger's file writable. *)
Definition fail_retries (fp : str) (reasons : list str) (l : Ledger) : option Ledger :=
  foldl (fun o reason => l ← o; record_failed_retry true fp reason l) (Some l) reasons.

Definition judged (r : QuarantineRecord) : QuarantineState :=
  if (MAX_FAILED_RETRIES <=? failed_retries r)%Z then PersistentlyDisabled r else Retryable r.

(** The third failed retry of a package disables it for good, and a restart does
    not forget: from a ledger with room that has no record of the package, any non-empty
    sequence of failed retries is recorded, leaves the package retryable with the number
    of them while they are fewer than three and persistently disabled from then on, with
    the last reason, and the ledger read back from its file judges it the same. Records of
    other packages are as they were. *)
Theorem quarantine_counts_retries fp reasons reason l :
  ledger_ok l -> persisted l !! fp = None -> file l = persisted l -> (base.size (persisted l) < MAX_LEDGER_RECORDS)%nat ->
  Forall (fun r => validate_reason r = true) (reasons ++ [reason]) ->
  exists l', fail_retries fp (reasons ++ [reason]) l = Some l'
    /\ let verdict := judged (mk_quarantine (Z.min (Z.of_nat (length (reasons ++ [reason]))) 3) reason) in
       quarantine_state fp l' = verdict /\ quarantine_state fp (open_ledger l') = verdict
       /\ forall other, other <> fp -> persisted l' !! other = persisted l !! other.
Proof.
  intros Hok Hn Hfile Hsize Hr.
  assert (forall rs, Forall (fun r => validate_reason r = true) rs -> rs <> [] ->
    exists l', fail_retries fp rs l = Some l'
      /\ persisted l' = <[fp := mk_quarantine (Z.min (Z.of_nat (length rs)) 3) (List.last rs [])]> (persisted l)
      /\ runtime_violations l' !! fp = Some (List.last rs []) /\ file l' = persisted l') as H.
  { intros rs. induction rs as [|r rs IH] using rev_ind; intros Hv Hne; [done|].
    apply Forall_app in Hv as [Hv Hv1]. apply Forall_cons in Hv1 as [Hv1 _]. unfold fail_retries. rewrite foldl_app. cbn [foldl].
    fold (fail_retries fp rs l). rewrite List.last_last, length_app. cbn [length].
    assert (exists u, fail_retries fp rs l = Some u
      /\ (forall k, record_failed_retry true fp r u = Some k <->
           k = mk_ledger (<[fp := mk_quarantine (Z.min (Z.of_nat (length rs + 1)) 3) r]> (persisted l))
                 (<[fp := r]> (runtime_violations u))
                 (<[fp := mk_quarantine (Z.min (Z.of_nat (length rs + 1)) 3) r]> (persisted l)))) as (u & -> & Hu).
    - assert (forall u n, persisted u = persisted l /\ n = 1%Z
          \/ (exists q k, persisted u = <[fp := mk_quarantine k q]> (persisted l) /\ (0 < k <= 3)%Z /\ n = Z.min (k + 1) 3) ->
          forall k, record_failed_retry true fp r u = Some k <->
            k = mk_ledger (<[fp := mk_quarantine n r]> (persisted l)) (<[fp := r]> (runtime_violations u))
                  (<[fp := mk_quarantine n r]> (persisted l))) as Hstep.
      { intros u n Hu k. unfold record_failed_retry. rewrite Hv1.
        assert (<[fp := mk_quarantine n r]> (persisted u) = <[fp := mk_quarantine n r]> (persisted l)) as E
          by (destruct Hu as [[-> _]|(q & k' & -> & _)]; [done|by rewrite insert_insert_eq]).
        assert (match persisted u !! fp with Some r => Z.min (Z.min (failed_retries r + 1) 255) MAX_FAILED_RETRIES
                | None => Z.min 1 MAX_FAILED_RETRIES end = n) as ->.
        { destruct Hu as [[-> ->]|(q & k' & -> & Hk & ->)]; [by rewrite Hn|]. rewrite lookup_insert_eq. cbn. unfold MAX_FAILED_RETRIES. lia. }
        rewrite E. unfold write_records. rewrite validate_insert; [cbn; split; [by intros [= <-]|by intros ->]|done| |].
        - unfold validate_record. cbn. rewrite Hv1. destruct Hu as [[_ ->]|(q & k' & _ & Hk & ->)]; [done|].
          rewrite (proj2 (Z.leb_le 1 _)), (proj2 (Z.leb_le _ MAX_FAILED_RETRIES)) by (unfold MAX_FAILED_RETRIES; lia). done.
        - rewrite map_size_insert_None by done. lia. }
      destruct (decide (rs = [])) as [->|Hrs].
      + exists l. split; [done|]. apply Hstep. by left.
      + destruct (IH Hv Hrs) as (u & Hu & Hp & _). exists u. split; [done|]. apply Hstep. right.
        eexists _, _. split; [exact Hp|]. assert (length rs <> 0%nat) by by destruct rs. lia.
    - eexists. split; [by apply Hu|]. cbn. by rewrite lookup_insert_eq. }
  destruct (H _ Hr) as (l' & Hl & Hp & Hv & Hf); [by destruct reasons|]. exists l'. split; [done|].
  rewrite List.last_last in Hp, Hv. cbn zeta. unfold quarantine_state, open_ledger. cbn. rewrite Hf, Hp, Hv.
  rewrite lookup_insert_eq, lookup_empty. split; [done|]. split; [done|].
  intros other Hne. by rewrite lookup_insert_ne.
Qed.

Lemma put_back {A} (m : gmap str A) k : partial_alter (fun _ => m !! k) k (delete k m) = m.
Proof.
  apply map_eq. intros j. destruct (decide (k = j)) as [<-|Hne]; [by rewrite lookup_partial_alter_eq|].
  by rewrite lookup_partial_alter_ne, lookup_delete_ne.
Qed.

(** Undoing the removal of a quarantine gives it back, even when the disk fails
    now: after [remove] and [restore] of what it removed, the ledger in memory is what it
    was, so the package is judged as before; when the file could be written too, it holds
    the same records. *)
Theorem quarantine_removal_undone disk fp l snapshot l' :
  file l = persisted l -> remove_quarantine true fp l = Some (snapshot, l') ->
  let '(written, l'') := restore_quarantine disk fp snapshot l' in
  persisted l'' = persisted l /\ runtime_violations l'' = runtime_violations l
  /\ (written = true -> file l'' = file l).
Proof.
  intros Hfile. unfold remove_quarantine, restore_quarantine.
  assert (partial_alter (fun _ => runtime_violations l !! fp) fp (delete fp (runtime_violations l)) = runtime_violations l) as Hrt
    by apply put_back.
  destruct (persisted l !! fp) as [r|] eqn:Ep.
  - unfold write_records. destruct (validate_records _ && true); [|done]. cbn. intros [= <- <-]. cbn [fst snd].
    assert (partial_alter (fun _ => Some r) fp (delete fp (persisted l)) = persisted l) as Hpt
      by (rewrite <-Ep; apply put_back).
    cbn [persisted runtime_violations file]. rewrite Hpt, Hrt. case_bool_decide as Hd.
    + exfalso. assert (delete fp (persisted l) !! fp = Some r) as E by by rewrite <-Hd. by rewrite lookup_delete_eq in E.
    + destruct (validate_records (persisted l) && disk); cbn; split_and!; done.
  - intros [= <- <-]. cbn [fst snd persisted runtime_violations file].
    assert (partial_alter (fun _ => None) fp (persisted l) = persisted l) as Hpt by (rewrite <-Ep; apply partial_alter_self; done).
    rewrite Hpt, Hrt. rewrite bool_decide_true by done. done.
Qed.

Module PluginExecExample.

Definition calm : Chance := mk_chance None true.
Definition over : Chance := mk_chance (Some §"fuel") true.

(** A call is inside the guest while the plugin is being disabled, and runs into its
    limit. *)
Definition clash : list ExecStep :=
  [RegisterPlugin §"p" §"f" false; Spawn (CallStart §"p" None); Run 0 calm; Run 0 calm; Run 0 calm;
   Spawn (DisableStart §"p"); Run 1 calm; Run 1 calm; Run 1 calm; Run 0 over].

(** Disabling a plugin whose call then runs into a resource limit never returns. There
    is a run after which the call waits for the mutex of the state transition that the
    disabling thread holds, and the disabling thread waits for the permit that the call
    holds; and whatever any thread does from then on, both are still there. *)
Theorem disable_deadlocks :
  exists s c, exec_run clash (exec_start empty_ledger) = Some s
    /\ forall sts s', exec_run sts s = Some s' ->
         threads s' !! 0%nat = Some (CallViolated c §"fuel") /\ threads s' !! 1%nat = Some (DisableWaiting (c_instance c)).
Proof.
  destruct (exec_run clash (exec_start empty_ledger)) as [s|] eqn:E; [|vm_compute in E; discriminate E].
  exists s, (mk_callee §"p" 0 §"f" false). split; [done|]. intros sts s'.
  pose proof (runs_ok _ _ _ (exec_start_ok _) E) as Hok.
  apply stuck_run; [done|done|..]; vm_compute in E; injection E as <-; reflexivity.
Qed.

(** The same without the limit, then a second call, after the plugin was enabled again. *)
Definition tour : list ExecStep :=
  [RegisterPlugin §"p" §"f" false; Spawn (CallStart §"p" None); Run 0 calm; Run 0 calm; Run 0 calm;
   Spawn (DisableStart §"p"); Run 1 calm; Run 1 calm; Run 1 calm; Run 0 calm; Run 0 calm; Run 1 calm;
   Spawn (EnableStart §"p"); Run 2 calm; Run 2 calm; Spawn (CallStart §"p" (Some 0%nat)); Run 3 calm; Run 3 calm; Run 3 calm].

Lemma disabled_plugins_are_idle_witness :
  exists s, exec_run tour (exec_start empty_ledger) = Some s
    /\ log s = [GuestStarted 0; GuestEnded 0; DisabledEvent 0; EnabledEvent 0; GuestStarted 0]
    /\ off 0 [GuestStarted 0; GuestEnded 0; DisabledEvent 0; EnabledEvent 0] = false.
Proof.
  destruct (exec_run tour (exec_start empty_ledger)) as [s|] eqn:E; [|vm_compute in E; discriminate E].
  assert (log s = [GuestStarted 0; GuestEnded 0; DisabledEvent 0; EnabledEvent 0; GuestStarted 0]) as Hl
    by (vm_compute in E; injection E as <-; reflexivity).
  exists s. split; [reflexivity|]. split; [exact Hl|].
  destruct (disabled_plugins_are_idle _ _ _ E) as (_ & H & _).
  exact (proj1 (H [GuestStarted 0; GuestEnded 0; DisabledEvent 0; EnabledEvent 0] 0%nat [] Hl)).
Defined.

Lemma quarantine_counts_retries_witness :
  exists l', fail_retries §"f" [§"fuel"; §"time"; §"fuel"; §"memory"] empty_ledger = Some l'
    /\ quarantine_state §"f" (open_ledger l') = PersistentlyDisabled (mk_quarantine 3 §"memory").
Proof.
  destruct (quarantine_counts_retries §"f" [§"fuel"; §"time"; §"fuel"] §"memory" empty_ledger) as (l' & H & _ & Ho & _).
  - by intros ? ?.
  - reflexivity.
  - reflexivity.
  - vm_compute. lia.
  - repeat constructor.
  - exists l'. split; [exact H|]. rewrite Ho. vm_compute. reflexivity.
Defined.

Definition third : Ledger := default empty_ledger (fail_retries §"f" [§"fuel"; §"time"; §"fuel"] empty_ledger).

Lemma quarantine_removal_undone_witness :
  exists snapshot l', remove_quarantine true §"f" third = Some (snapshot, l')
    /\ quarantine_state §"f" l' = Clear
    /\ persisted (restore_quarantine false §"f" snapshot l').2 = persisted third.
Proof.
  destruct (remove_quarantine true §"f" third) as [[snapshot l']|] eqn:E; [|vm_compute in E; discriminate E].
  pose proof (quarantine_removal_undone false §"f" third snapshot l' ltac:(vm_compute; reflexivity) E) as H.
  exists snapshot, l'. split; [reflexivity|]. split; [vm_compute in E; injection E as <- <-; reflexivity|].
  destruct (restore_quarantine false §"f" snapshot l') as [w u]. exact (proj1 H).
Defined.

(** A retry runs into its limit again while the ledger cannot be written. *)
Definition unwritten : list ExecStep :=
  [RegisterPlugin §"p" §"f" true; Spawn (CallStart §"p" None); Run 0 calm; Run 0 calm; Run 0 calm;
   Run 0 over; Run 0 calm; Run 0 (mk_chance None false); Spawn (EnableStart §"p"); Run 1 calm; Run 1 calm;
   Spawn (CallStart §"p" None); Run 2 calm; Run 2 calm; Run 2 calm].

(** When the ledger's file cannot be written, a retry that runs into a resource limit
    leaves no trace: the plugin is not quarantined in memory either, so enabling it, which
    refuses plugins blocked by a limit, lets it run again. *)
Theorem unwritten_violation_is_forgotten :
  exists s, exec_run unwritten (exec_start empty_ledger) = Some s
    /\ log s = [GuestStarted 0; GuestEnded 0; EnabledEvent 0; GuestStarted 0]
    /\ quarantine_state §"f" (ledger s) = Clear.
Proof.
  destruct (exec_run unwritten (exec_start empty_ledger)) as [s|] eqn:E; [|vm_compute in E; discriminate E].
  exists s. split; [done|]. vm_compute in E. injection E as <-. split; reflexivity.
Qed.
End PluginExecExample.
