(* ===== verification/PluginSession.v ===== *)
(** The plugin UI sessions of the application ([PluginSessionStore] of
    [crates/app/src/plugins.rs]): opening one, dispatching an action against the document
    a frontend shows, closing, and the removal that an uninstall stages.

    The calls run concurrently. Each is at an [ActionPc]; what happens between two points
    where another call can come in (a lock, an await, a read of the enabled flag) is one
    step, and the runs of [facade_step] are all interleavings. What the guest answers is
    chosen by the step. A guest call goes through the executor ([PluginExec]), which
    refuses it while the plugin is disabled; disabling closes that gate and returns once
    no call of the plugin is inside the guest. The facade disables a plugin with the
    manager's mutex held, so nobody reads the flag meanwhile: flag and gate go down in one
    step here, and reading the flag waits for a disable under way.

    The documents' nodes, the host intents, the normalization of layouts and the bounding
    of actions are the Wirt library's: a node is any type with the lookup that
    [PluginUiNodeDto::find] is. *)

From stdpp Require Import base tactics option list gmap strings.
From Stdlib Require Import ZArith Lia.
From S2P Require Import Prelude Text AppError.

#[local] Arguments String.list_ascii_of_string : simpl never.
Open Scope arclain_scope.

Inductive PluginExtensionPoint :=
| MainPage
| PluginButton
| Panel
| Dialog (id : str)
| Page (id : str).

#[export] Instance PluginExtensionPoint_eq_dec : EqDecision PluginExtensionPoint.
Proof. solve_decision. Defined.

(** What of Wirt the store uses. *)
Class Wirt := {
  Node : Type;
  Intent : Type;
  find_node : Node -> str -> option (bool * bool);    (** visible and enabled *)
  region_slug : PluginExtensionPoint -> str;
  identity_key : str -> option str                    (** [PluginIdentityKey::parse] *)
}.

Inductive PluginActionDto := Activate | SetValue (value : option str).

Record PluginActionRequest := mk_action_request {
  request_session : Z;
  expected_revision : Z;
  node_id : str;
  request_action : PluginActionDto
}.

Definition MAX_EXTENSION_POINT_ID_BYTES : nat := 512.

Definition validate_extension_point (e : PluginExtensionPoint) : bool :=
  match e with
  | Dialog id | Page id => negb (bool_decide (id = [])) && (length id <=? MAX_EXTENSION_POINT_ID_BYTES)%nat
  | MainPage | PluginButton | Panel => true
  end.

(** The refusals of the store, by their constructors. *)
Inductive Refusal :=
| UnknownSession
| PluginNotFound
| PluginDisabled
| InvalidExtensionPoint
| StaleDocument
| ActionRejected
| GuestFailed.

Section store.
Context `{W : Wirt}.

Record SessionRecord := mk_record {
  plugin_id : str;
  extension_point : PluginExtensionPoint;
  region_id : str;
  record_revision : Z;
  root : Node;
  pinned_archive_session : option Z
}.

Record PluginUiDocument := mk_document {
  doc_session : Z;
  doc_plugin : str;
  doc_region : str;
  doc_extension_point : PluginExtensionPoint;
  doc_revision : Z;
  doc_root : Node
}.

Definition document (id : Z) (r : SessionRecord) : PluginUiDocument :=
  mk_document id (plugin_id r) (region_id r) (extension_point r) (record_revision r) (root r).

Definition plugin_lock_key (plugin : str) : str := default plugin (identity_key plugin).

(** What a response of the guest comes to ([BoundedActionOutcome] and the intents). *)
Record BoundedOutcome := mk_bounded { intents : list Intent; needs_refresh : bool; fetch_keys : list str }.

(** What the guest call ends in. *)
Inductive GuestAnswer :=
| Acted (o : BoundedOutcome)
| LaidOut (n : Node)
| GuestError
| GuestLimit.                (** a resource limit: the executor disables the plugin *)

Inductive ActionPc :=
(** [open], before and inside its guest call, and after it. *)
| OpenStart (plugin : str) (e : PluginExtensionPoint) (pinned : option Z)
| OpenAllowed (plugin : str) (e : PluginExtensionPoint) (pinned : option Z)
| OpenGuest (plugin : str) (e : PluginExtensionPoint) (pinned : option Z)
| OpenLaidOut (plugin : str) (e : PluginExtensionPoint) (pinned : option Z) (n : Node)
| OpenPublishing (plugin : str) (e : PluginExtensionPoint) (pinned : option Z) (n : Node)
(** [dispatch_action], from its start to the publishing of the document. *)
| ActStart (r : PluginActionRequest)
| ActFound (plugin : str) (r : PluginActionRequest)
| ActQueued (plugin : str) (r : PluginActionRequest)
| ActLocked (plugin : str) (r : PluginActionRequest)
| ActAllowed (plugin : str) (r : PluginActionRequest)
| ActReady (plugin : str) (r : PluginActionRequest) (force : bool)
| ActGuest (plugin : str) (r : PluginActionRequest) (force : bool)
| ActAnswered (plugin : str) (r : PluginActionRequest) (force : bool) (o : BoundedOutcome)
| ActFetching (plugin : str) (r : PluginActionRequest) (force : bool) (o : BoundedOutcome)
| ActFetched (plugin : str) (r : PluginActionRequest) (force : bool) (o : BoundedOutcome)
| ActRefreshing (plugin : str) (r : PluginActionRequest) (o : BoundedOutcome)
| ActLayout (plugin : str) (r : PluginActionRequest) (o : BoundedOutcome)
| ActRefreshed (plugin : str) (r : PluginActionRequest) (o : BoundedOutcome) (n : option Node)
| ActPublishing (plugin : str) (r : PluginActionRequest) (o : BoundedOutcome) (n : option Node)
(** A guest call that failed or that the executor refused. *)
| GuestGaveUp (plugin : str)
(** [stage_plugin_session_removal], and while the removal is staged. *)
| StageStart (plugin : str)
| Staged (key : str) (ids : list Z)
(** [disable_plugin], once the flag is down and the gate closed. *)
| Disabling (key : str)
| Refused (why : Refusal)
| Opened (d : PluginUiDocument)
| Updated (d : PluginUiDocument) (o : BoundedOutcome)
| Through.

Inductive FacadeEvent :=
| GuestEntered (t : nat) (key : str)
| CheckedEnabled (t : nat) (key : str)
| PublishedDocument (t : nat) (sid expected revision : Z)
| OpenedSession (t : nat) (sid : Z)
| DisableReturned (key : str)
| PluginEnabled (key : str).

Record Facade := mk_facade {
  sessions : gmap Z SessionRecord;
  staged_sessions : gmap Z SessionRecord;
  next_id : Z;
  enabled : gmap str bool;              (** of the plugins the manager knows *)
  calls : list ActionPc;
  facade_log : list FacadeEvent
}.

Definition set_sessions (v : gmap Z SessionRecord) (s : Facade) : Facade :=
  mk_facade v (staged_sessions s) (next_id s) (enabled s) (calls s) (facade_log s).
Definition set_staged (v : gmap Z SessionRecord) (s : Facade) : Facade :=
  mk_facade (sessions s) v (next_id s) (enabled s) (calls s) (facade_log s).
Definition set_next_id (v : Z) (s : Facade) : Facade :=
  mk_facade (sessions s) (staged_sessions s) v (enabled s) (calls s) (facade_log s).
Definition set_enabled_flags (v : gmap str bool) (s : Facade) : Facade :=
  mk_facade (sessions s) (staged_sessions s) (next_id s) v (calls s) (facade_log s).
Definition set_call (t : nat) (p : ActionPc) (s : Facade) : Facade :=
  mk_facade (sessions s) (staged_sessions s) (next_id s) (enabled s) (<[t := p]> (calls s)) (facade_log s).
Definition note (e : FacadeEvent) (s : Facade) : Facade :=
  mk_facade (sessions s) (staged_sessions s) (next_id s) (enabled s) (calls s) (facade_log s ++ [e]).

(** [require_enabled_plugin]. *)
Definition require_enabled_plugin (plugin : str) (s : Facade) : result Refusal unit :=
  match identity_key plugin with
  | None => Err PluginNotFound
  | Some key =>
      match enabled s !! key with
      | Some true => Ok tt
      | Some false => Err PluginDisabled
      | None => Err PluginNotFound
      end
  end.

Definition holds_plugin_lock (key : str) (p : ActionPc) : bool :=
  match p with
  | ActLocked plugin _ | ActAllowed plugin _ | ActReady plugin _ _ | ActGuest plugin _ _
  | ActAnswered plugin _ _ _ | ActFetching plugin _ _ _ | ActFetched plugin _ _ _ | ActRefreshing plugin _ _
  | ActLayout plugin _ _ | ActRefreshed plugin _ _ _ | ActPublishing plugin _ _ _ => bool_decide (plugin_lock_key plugin = key)
  | Staged k _ => bool_decide (k = key)
  | _ => false
  end.

Definition inside_guest (key : str) (p : ActionPc) : bool :=
  match p with
  | OpenGuest plugin _ _ | ActGuest plugin _ _ | ActLayout plugin _ _ => bool_decide (identity_key plugin = Some key)
  | _ => false
  end.

Definition no_call (holds : ActionPc -> bool) (s : Facade) : bool := negb (existsb holds (calls s)).

Definition is_disabling (p : ActionPc) : bool := match p with Disabling _ => true | _ => false end.

(** A check of the flag on behalf of call [t]: refused, or on to [p]. *)
Definition check_enabled (t : nat) (plugin : str) (p : ActionPc) (s : Facade) : option Facade :=
  if no_call is_disabling s then
    match require_enabled_plugin plugin s with
    | Ok _ => Some (set_call t p (note (CheckedEnabled t (plugin_lock_key plugin)) s))
    | Err why => Some (set_call t (Refused why) s)
    end
  else None.

(** Entering the guest through the executor, whose gate is closed while the plugin is
    disabled. *)
Definition enter_guest (t : nat) (plugin : str) (p : ActionPc) (s : Facade) : Facade :=
  match require_enabled_plugin plugin s with
  | Ok _ => set_call t p (note (GuestEntered t (plugin_lock_key plugin)) s)
  | Err _ => set_call t (GuestGaveUp plugin) s
  end.

(** A guest call that did not give what it was asked for. A resource limit disables the
    plugin before the call returns, under the mutex a disable holds. *)
Definition guest_fails (t : nat) (plugin : str) (g : GuestAnswer) (s : Facade) : option Facade :=
  match g with
  | GuestLimit =>
      if no_call is_disabling s then
        Some (set_call t (GuestGaveUp plugin)
                (if enabled s !! plugin_lock_key plugin is Some _
                 then set_enabled_flags (<[plugin_lock_key plugin := false]> (enabled s)) s else s))
      else None
  | _ => Some (set_call t (GuestGaveUp plugin) s)
  end.

(** The part of [dispatch_action] under the read lock of the sessions. *)
Definition admit_action (r : PluginActionRequest) (rec : SessionRecord) : result Refusal bool :=
  if negb (record_revision rec =? expected_revision r)%Z then Err StaleDocument
  else if match find_node (root rec) (node_id r) with Some (visible, on) => negb visible || negb on | None => false end
       then Err ActionRejected
  else
    Ok (match extension_point rec, request_action r with
        | Page page, SetValue (Some init) => str_eqb (node_id r) §"__page_init" && str_eqb init page
        | _, _ => false
        end).

(** The publishing: the refreshed root, the next revision, the document. *)
Definition next_record (n : option Node) (rec : SessionRecord) : SessionRecord :=
  mk_record (plugin_id rec) (extension_point rec) (region_id rec) (wrapping_add (record_revision rec) 1)
    (default (root rec) n) (pinned_archive_session rec).

(** [open], call [t] being at [p]. *)
Definition open_session (t : nat) (g : GuestAnswer) (p : ActionPc) (s : Facade) : option Facade :=
  match p with
  | OpenStart plugin e pinned =>
      if validate_extension_point e
      then check_enabled t plugin (OpenAllowed plugin e pinned) s
      else Some (set_call t (Refused InvalidExtensionPoint) s)
  | OpenAllowed plugin e pinned => Some (enter_guest t plugin (OpenGuest plugin e pinned) s)
  | OpenGuest plugin e pinned =>
      match g with
      | LaidOut n => Some (set_call t (OpenLaidOut plugin e pinned n) s)
      | _ => guest_fails t plugin g s
      end
  | OpenLaidOut plugin e pinned n => check_enabled t plugin (OpenPublishing plugin e pinned n) s
  | OpenPublishing plugin e pinned n =>
      let id := next_id s in
      let rec := mk_record plugin e (region_slug e) 1 n pinned in
      Some (set_call t (Opened (document id rec))
              (note (OpenedSession t id)
                 (set_sessions (<[id := rec]> (sessions s)) (set_next_id (wrapping_add id 1) s))))
  | _ => None
  end.

(** [dispatch_action], call [t] being at [p]. *)
Definition dispatch_action (t : nat) (g : GuestAnswer) (p : ActionPc) (s : Facade) : option Facade :=
  match p with
  | ActStart r =>
      match sessions s !! request_session r with
      | None => Some (set_call t (Refused UnknownSession) s)
      | Some rec => Some (set_call t (ActFound (plugin_id rec) r) s)
      end
  | ActFound plugin r => check_enabled t plugin (ActQueued plugin r) s
  | ActQueued plugin r =>
      if no_call (holds_plugin_lock (plugin_lock_key plugin)) s then Some (set_call t (ActLocked plugin r) s) else None
  | ActLocked plugin r => check_enabled t plugin (ActAllowed plugin r) s
  | ActAllowed plugin r =>
      match sessions s !! request_session r with
      | None => Some (set_call t (Refused UnknownSession) s)
      | Some rec =>
          match admit_action r rec with
          | Err why => Some (set_call t (Refused why) s)
          | Ok force => Some (set_call t (ActReady plugin r force) s)
          end
      end
  | ActReady plugin r force => Some (enter_guest t plugin (ActGuest plugin r force) s)
  | ActGuest plugin r force =>
      match g with
      | Acted o => Some (set_call t (ActAnswered plugin r force o) s)
      | _ => guest_fails t plugin g s
      end
  | ActAnswered plugin r force o => check_enabled t plugin (ActFetching plugin r force o) s
  | ActFetching plugin r force o => Some (set_call t (ActFetched plugin r force o) s)
  | ActFetched plugin r force o =>
      check_enabled t plugin
        (if needs_refresh o || force then ActRefreshing plugin r o else ActRefreshed plugin r o None) s
  | ActRefreshing plugin r o => Some (enter_guest t plugin (ActLayout plugin r o) s)
  | ActLayout plugin r o =>
      match g with
      | LaidOut n => Some (set_call t (ActRefreshed plugin r o (Some n)) s)
      | _ => guest_fails t plugin g s
      end
  | ActRefreshed plugin r o n => check_enabled t plugin (ActPublishing plugin r o n) s
  | ActPublishing plugin r o n =>
      match sessions s !! request_session r with
      | None => Some (set_call t (Refused UnknownSession) s)
      | Some rec =>
          let rec' := next_record n rec in
          Some (set_call t (Updated (document (request_session r) rec') o)
                  (note (PublishedDocument t (request_session r) (expected_revision r) (record_revision rec'))
                     (set_sessions (<[request_session r := rec']> (sessions s)) s)))
      end
  | _ => None
  end.

(** [stage_plugin_session_removal], once it has the plugin's lock. *)
Definition stage_plugin_session_removal (t : nat) (plugin : str) (s : Facade) : option Facade :=
  key ← identity_key plugin;
  if no_call (holds_plugin_lock key) s then
    let own := filter (fun p => identity_key (plugin_id p.2) = Some key) (sessions s) in
    Some (set_call t (Staged key (map_to_list own).*1)
            (set_staged (own ∪ staged_sessions s) (set_sessions (sessions s ∖ own) s)))
  else None.

(** The next step of call [t]; [None] when it waits for a lock or is through. *)
Definition call_step (t : nat) (g : GuestAnswer) (s : Facade) : option Facade :=
  p ← calls s !! t;
  match p with
  | OpenStart _ _ _ | OpenAllowed _ _ _ | OpenGuest _ _ _ | OpenLaidOut _ _ _ _ | OpenPublishing _ _ _ _ =>
      open_session t g p s
  | ActStart _ | ActFound _ _ | ActQueued _ _ | ActLocked _ _ | ActAllowed _ _ | ActReady _ _ _ | ActGuest _ _ _
  | ActAnswered _ _ _ _ | ActFetching _ _ _ _ | ActFetched _ _ _ _ | ActRefreshing _ _ _ | ActLayout _ _ _
  | ActRefreshed _ _ _ _ | ActPublishing _ _ _ _ => dispatch_action t g p s
  | GuestGaveUp plugin =>
      if no_call is_disabling s then
        match require_enabled_plugin plugin s with
        | Ok _ => Some (set_call t (Refused GuestFailed) s)
        | Err why => Some (set_call t (Refused why) s)
        end
      else None
  | StageStart plugin => stage_plugin_session_removal t plugin s
  | Staged _ _ => None
  | Disabling key =>
      if no_call (inside_guest key) s then Some (set_call t Through (note (DisableReturned key) s)) else None
  | Refused _ | Opened _ | Updated _ _ | Through => None
  end.

(** The end of a staged removal: [restore] (also when it is dropped) or [commit]. *)
Definition restore_staged (ids : list Z) (s : Facade) : Facade :=
  foldl (fun s id =>
    match staged_sessions s !! id with
    | Some rec => set_sessions (<[id := rec]> (sessions s)) (set_staged (delete id (staged_sessions s)) s)
    | None => s
    end) s ids.

Definition commit_staged (ids : list Z) (s : Facade) : Facade :=
  set_staged (foldl (fun m id => delete id m) (staged_sessions s) ids) s.

(** [close]. *)
Definition close_plugin_session (sid : Z) (s : Facade) : result Refusal unit * Facade :=
  match sessions s !! sid with
  | Some _ => (Ok tt, set_sessions (delete sid (sessions s)) s)
  | None =>
      match staged_sessions s !! sid with
      | Some _ => (Ok tt, set_staged (delete sid (staged_sessions s)) s)
      | None => (Err UnknownSession, s)
      end
  end.

(** [document] of the store, as [plugin_ui_document] asks for it. *)
Definition plugin_ui_document (sid : Z) (s : Facade) : result Refusal PluginUiDocument :=
  match sessions s !! sid with
  | None => Err UnknownSession
  | Some rec =>
      match require_enabled_plugin (plugin_id rec) s with
      | Ok _ => Ok (document sid rec)
      | Err why => Err why
      end
  end.

Definition is_call_start (p : ActionPc) : bool :=
  match p with OpenStart _ _ _ | ActStart _ | StageStart _ => true | _ => false end.

Inductive FacadeStep :=
| Begin (p : ActionPc)
| Go (t : nat) (g : GuestAnswer)
| EndStaging (t : nat) (committed : bool)
| CloseSession (sid : Z)
| SetPluginEnabled (key : str) (on : bool)
| Registered (key : str)                   (** the manager registers a loaded plugin *)
| Unregistered (key : str).

(** [set_plugin_enabled] starts a disable, and enables in one step; the latter is refused
    for a plugin its quarantine blocks, which leaves everything as it was. *)
Definition set_plugin_enabled (key : str) (on : bool) (s : Facade) : Facade :=
  match enabled s !! key with
  | None => s
  | Some _ =>
      let s1 := set_enabled_flags (<[key := on]> (enabled s)) s in
      if on then note (PluginEnabled key) s1
      else mk_facade (sessions s1) (staged_sessions s1) (next_id s1) (enabled s1) (calls s1 ++ [Disabling key]) (facade_log s1)
  end.

Definition facade_step (st : FacadeStep) (s : Facade) : option Facade :=
  match st with
  | Begin p =>
      if is_call_start p
      then Some (mk_facade (sessions s) (staged_sessions s) (next_id s) (enabled s) (calls s ++ [p]) (facade_log s))
      else None
  | Go t g => call_step t g s
  | EndStaging t committed =>
      match calls s !! t with
      | Some (Staged _ ids) => Some (set_call t Through (if committed then commit_staged ids s else restore_staged ids s))
      | _ => None
      end
  | CloseSession sid => Some (close_plugin_session sid s).2
  | SetPluginEnabled key on => if no_call is_disabling s then Some (set_plugin_enabled key on s) else None
  | Registered key =>
      if no_call is_disabling s && bool_decide (enabled s !! key = None)
      then Some (note (PluginEnabled key) (set_enabled_flags (<[key := true]> (enabled s)) s))
      else None
  | Unregistered key =>
      if no_call is_disabling s then Some (set_enabled_flags (delete key (enabled s)) s) else None
  end.

Fixpoint facade_run (sts : list FacadeStep) (s : Facade) : option Facade :=
  match sts with
  | [] => Some s
  | st :: sts' => s' ← facade_step st s; facade_run sts' s'
  end.

Definition facade_start : Facade := mk_facade ∅ ∅ 1 ∅ [] [].
End store.
