(* ===== verification/PluginSessionProps.v ===== *)
(** What the plugin sessions promise, for every interleaving of calls: an action applies
    to the document its caller was shown and a session's revisions are consecutive, the
    guest is not entered after a disable has returned, what is published was allowed after
    the last guest call, and an uninstall that is rolled back loses no session. Also
    how a document can still come out after the disable. *)

From stdpp Require Import base tactics option list gmap strings.
From Stdlib Require Import ZArith Lia.
From S2P Require Import Prelude Text AppError PluginSession.

#[local] Arguments String.list_ascii_of_string : simpl never.
#[local] Opaque String.list_ascii_of_string.
Open Scope arclain_scope.

Section props.
Context `{W : Wirt}.

(** * The log *)

Definition revision_of (id : Z) (e : FacadeEvent) : option Z :=
  match e with
  | PublishedDocument _ sid _ rev => if (sid =? id)%Z then Some rev else None
  | _ => None
  end.
Definition revisions (id : Z) (l : list FacadeEvent) : list Z := omap (revision_of id) l.

(** The revision a session was last shown at. *)
Definition shown (id : Z) (l : list FacadeEvent) : Z := default 1%Z (last (revisions id l)).

Definition event_call (e : FacadeEvent) : option nat :=
  match e with
  | GuestEntered t _ | CheckedEnabled t _ | PublishedDocument t _ _ _ | OpenedSession t _ => Some t
  | DisableReturned _ | PluginEnabled _ => None
  end.
(** The last thing a call did. *)
Definition last_of (t : nat) (l : list FacadeEvent) : option FacadeEvent :=
  last (filter (fun e => event_call e = Some t) l).

(** Whether the last word on a plugin is that disabling it returned. *)
Definition disabled_after (key : str) (b : bool) (e : FacadeEvent) : bool :=
  match e with
  | DisableReturned k => if decide (k = key) then true else b
  | PluginEnabled k => if decide (k = key) then false else b
  | _ => b
  end.
Definition disabled (key : str) (l : list FacadeEvent) : bool := foldl (disabled_after key) false l.

Definition was_checked (t : nat) (l : list FacadeEvent) : Prop :=
  exists key, last_of t l = Some (CheckedEnabled t key).

Definition fits (l : list FacadeEvent) (e : FacadeEvent) : Prop :=
  match e with
  | GuestEntered _ key | CheckedEnabled _ key => disabled key l = false
  | PublishedDocument t sid expected rev =>
      expected = (1 + Z.of_nat (length (revisions sid l)))%Z /\ rev = (expected + 1)%Z /\ was_checked t l
  | OpenedSession t sid => revisions sid l = [] /\ was_checked t l
  | DisableReturned _ | PluginEnabled _ => True
  end.

Definition good_log (l : list FacadeEvent) : Prop := forall l1 e l2, l = l1 ++ e :: l2 -> fits l1 e.

Lemma good_log_app l es : good_log l -> (length es <= 1)%nat -> Forall (fits l) es -> good_log (l ++ es).
Proof.
  intros Hg Hl Hes. destruct es as [|e [|]]; [by rewrite app_nil_r| |cbn in Hl; lia].
  rewrite Forall_singleton in Hes. intros l1 x l2 E. destruct l2 as [|y l2 _] using rev_ind.
  - apply app_inj_tail in E as [-> ->]. done.
  - rewrite app_comm_cons, app_assoc in E. apply app_inj_tail in E as [E ->]. by eapply Hg.
Qed.

Lemma good_log_prefix l1 l2 : good_log (l1 ++ l2) -> good_log l1.
Proof. intros H a e b ->. apply (H a e (b ++ l2)). by rewrite <- app_assoc. Qed.

Lemma revisions_app id l es : revisions id (l ++ es) = revisions id l ++ revisions id es.
Proof. apply omap_app. Qed.

Lemma disabled_snoc key l e : disabled key (l ++ [e]) = disabled_after key (disabled key l) e.
Proof. unfold disabled. by rewrite foldl_app. Qed.

Lemma last_of_app t l es :
  Forall (fun e => event_call e <> Some t) es -> last_of t (l ++ es) = last_of t l.
Proof.
  intros H. unfold last_of. rewrite filter_app.
  replace (filter _ es) with (@nil FacadeEvent); [by rewrite app_nil_r|]. symmetry.
  induction H as [|e es He Hes IH]; [done|]. by rewrite filter_cons_False.
Qed.

Lemma last_of_snoc t l e : event_call e = Some t -> last_of t (l ++ [e]) = Some e.
Proof. intros H. unfold last_of. rewrite filter_app, filter_cons_True, filter_nil, last_snoc by done. done. Qed.

Lemma revisions_length id l : (length (revisions id l) <= length l)%nat.
Proof.
  unfold revisions. induction l as [|e l IH]; [done|]. cbn. destruct (revision_of id e); cbn; lia.
Qed.

(** The revisions of a session count up from 2. *)
Lemma revisions_count id l : good_log l -> revisions id l = seqZ 2 (Z.of_nat (length (revisions id l))).
Proof.
  induction l as [|e l IH] using rev_ind; intros Hg; [done|].
  specialize (IH (good_log_prefix _ _ Hg)). pose proof (Hg l e [] eq_refl) as He.
  rewrite revisions_app, length_app. unfold revisions at 2 4. cbn [omap list_omap].
  destruct (revision_of id e) as [rev|] eqn:E; [|by rewrite app_nil_r, Nat.add_0_r].
  destruct e as [| |t sid expd r| | |]; try done. cbn in E. case_match eqn:Es; [|done]. injection E as ->.
  apply Z.eqb_eq in Es as ->. destruct He as (-> & -> & _). cbn [length].
  rewrite Nat.add_1_r, seqZ_S, <- IH. do 2 f_equal. lia.
Qed.

Lemma shown_count id l : good_log l -> shown id l = (1 + Z.of_nat (length (revisions id l)))%Z.
Proof.
  intros Hg. unfold shown. rewrite (revisions_count id l Hg) at 1.
  destruct (length (revisions id l)) as [|n]; [done|].
  rewrite seqZ_S, last_snoc. cbn. lia.
Qed.

(** * The invariant *)

Definition live (s : Facade) : gmap Z SessionRecord := sessions s ∪ staged_sessions s.

(** The session and the plugin of an action under way, and whether it is past the
    comparison of revisions. *)
Definition action_of (p : ActionPc) : option (str * PluginActionRequest * bool) :=
  match p with
  | ActFound plugin r | ActQueued plugin r | ActLocked plugin r | ActAllowed plugin r => Some (plugin, r, false)
  | ActReady plugin r _ | ActGuest plugin r _ | ActAnswered plugin r _ _ | ActFetching plugin r _ _
  | ActFetched plugin r _ _ | ActRefreshing plugin r _ | ActLayout plugin r _ | ActRefreshed plugin r _ _
  | ActPublishing plugin r _ _ => Some (plugin, r, true)
  | _ => None
  end.

(** What is true of a call because of where it is. *)
Definition pc_fine (t : nat) (s : Facade) (p : ActionPc) : Prop :=
  (forall plugin r admitted, action_of p = Some (plugin, r, admitted) ->
     (request_session r < next_id s)%Z
     /\ forall rec, live s !! request_session r = Some rec ->
          plugin_id rec = plugin /\ (admitted = true -> record_revision rec = expected_revision r))
  /\ match p with
     | ActPublishing _ _ _ _ | OpenPublishing _ _ _ _ => was_checked t (facade_log s)
     | Disabling key => enabled s !! key <> Some true
     | Staged key ids =>
         forall id, id ∈ ids ->
           (id < next_id s)%Z /\ forall rec, live s !! id = Some rec -> identity_key (plugin_id rec) = Some key
     | _ => True
     end.

Record facade_ok (n : nat) (s : Facade) : Prop := {
  ok_next : (1 <= next_id s <= 1 + Z.of_nat n)%Z;
  ok_length : (length (facade_log s) <= n)%nat;
  ok_live : forall id rec, live s !! id = Some rec ->
    (id < next_id s)%Z /\ record_revision rec = (1 + Z.of_nat (length (revisions id (facade_log s))))%Z;
  ok_fresh : forall id, (next_id s <= id)%Z -> revisions id (facade_log s) = [];
  ok_disjoint : sessions s ##ₘ staged_sessions s;
  ok_fine : forall t p, calls s !! t = Some p -> pc_fine t s p;
  ok_locks : forall t t' p p' key, calls s !! t = Some p -> calls s !! t' = Some p' ->
    holds_plugin_lock key p = true -> holds_plugin_lock key p' = true -> t = t';
  ok_staged : forall id rec, staged_sessions s !! id = Some rec ->
    exists t key ids, calls s !! t = Some (Staged key ids) /\ id ∈ ids /\ identity_key (plugin_id rec) = Some key;
  ok_off : forall key, disabled key (facade_log s) = true -> enabled s !! key <> Some true;
  ok_log : good_log (facade_log s)
}.

Lemma no_call_spec holds s t p : no_call holds s = true -> calls s !! t = Some p -> holds p = false.
Proof.
  unfold no_call. rewrite negb_true_iff. intros H Hp. destruct (holds p) eqn:E; [|done].
  rewrite <- H. symmetry. apply existsb_exists. exists p. split; [|done].
  apply list_elem_of_In. by eapply list_elem_of_lookup_2.
Qed.

(** A record that changed is one of a session whose plugin lock is held. *)
Definition carried (s s' : Facade) (q0 : option ActionPc) : Prop :=
  forall id rec', live s' !! id = Some rec' -> (id < next_id s)%Z ->
    exists rec, live s !! id = Some rec /\ plugin_id rec' = plugin_id rec
      /\ (record_revision rec' = record_revision rec
          \/ exists q, q0 = Some q /\ holds_plugin_lock (plugin_lock_key (plugin_id rec)) q = true).

Lemma action_holds plugin r p :
  action_of p = Some (plugin, r, true) -> holds_plugin_lock (plugin_lock_key plugin) p = true.
Proof. destruct p; intros [=]; subst; by apply bool_decide_eq_true. Qed.

Lemma pc_fine_kept t t0 s s' n es q :
  facade_ok n s -> calls s !! t = Some q -> t <> t0 -> (next_id s <= next_id s')%Z -> carried s s' (calls s !! t0) ->
  facade_log s' = facade_log s ++ es -> Forall (fun e => event_call e = None \/ event_call e = Some t0) es ->
  (forall key, q = Disabling key -> enabled s' !! key <> Some true) -> pc_fine t s' q.
Proof.
  intros Hok Hq Hne Hnext Hc Hlog Hes Hdis. destruct (ok_fine _ _ Hok t q Hq) as [Hact Hpc]. split.
  - intros plugin r admitted E. destruct (Hact _ _ _ E) as [Hlt Hrec]. split; [lia|]. intros rec' Hr'.
    destruct (Hc _ _ Hr' Hlt) as (rec & Hr & Hp & Hrev). destruct (Hrec rec Hr) as [Hpl Hexp].
    split; [congruence|]. intros ->. specialize (Hexp eq_refl). destruct Hrev as [->|(q0 & Hq0 & Hl)]; [done|].
    destruct Hne. rewrite Hpl in Hl. eapply (ok_locks _ _ Hok); [done|done|by eapply action_holds|done].
  - assert (Hw : was_checked t (facade_log s) -> was_checked t (facade_log s')).
    { unfold was_checked. rewrite Hlog, last_of_app; [done|].
      eapply Forall_impl; [done|]. intros e [He|He]; congruence. }
    destruct q; eauto. intros id Hid. destruct (Hpc id Hid) as [Hlt Hk]. split; [lia|]. intros rec' Hr'.
    destruct (Hc _ _ Hr' Hlt) as (rec & Hr & -> & _). eauto.
Qed.

(** One call, [t0], moves; what else changes is in step with it. *)
Lemma evolve n s s' t0 es :
  facade_ok n s ->
  (next_id s <= next_id s' <= 2 + Z.of_nat n)%Z ->
  facade_log s' = facade_log s ++ es -> (length es <= 1)%nat -> Forall (fits (facade_log s)) es ->
  Forall (fun e => event_call e = None \/ event_call e = Some t0) es ->
  (forall t, t <> t0 -> calls s' !! t = calls s !! t) ->
  (forall p', calls s' !! t0 = Some p' ->
     pc_fine t0 s' p'
     /\ forall key, holds_plugin_lock key p' = true ->
          no_call (holds_plugin_lock key) s = true
          \/ exists p, calls s !! t0 = Some p /\ holds_plugin_lock key p = true) ->
  carried s s' (calls s !! t0) ->
  (forall id rec, live s' !! id = Some rec ->
     (id < next_id s')%Z /\ record_revision rec = (1 + Z.of_nat (length (revisions id (facade_log s'))))%Z) ->
  (forall id, (next_id s' <= id)%Z -> revisions id es = []) ->
  sessions s' ##ₘ staged_sessions s' ->
  (forall id rec, staged_sessions s' !! id = Some rec ->
     exists t key ids, calls s' !! t = Some (Staged key ids) /\ id ∈ ids /\ identity_key (plugin_id rec) = Some key) ->
  (forall key, disabled key (facade_log s') = true -> enabled s' !! key <> Some true) ->
  (forall t key, calls s !! t = Some (Disabling key) -> enabled s' !! key <> Some true) ->
  facade_ok (S n) s'.
Proof.
  intros Hok Hnext Hlog Hlen Hfits Hby Hcalls Hnew Hc Hlive Hfresh Hdisj Hst Hoff Hdis. split; [| |done| |done| | |done|done|].
  - pose proof (ok_next _ _ Hok). lia.
  - rewrite Hlog, length_app. pose proof (ok_length _ _ Hok). lia.
  - intros id Hid. rewrite Hlog, revisions_app, (ok_fresh _ _ Hok) by lia. by apply Hfresh.
  - intros t p Hp. destruct (decide (t = t0)) as [->|Hne]; [by apply Hnew|].
    rewrite Hcalls in Hp by done. eapply pc_fine_kept; [done..|lia|done|done|done|]. intros key ->. eauto.
  - assert (Hone : forall t p p' key, t <> t0 -> calls s !! t = Some p -> calls s' !! t0 = Some p' ->
      holds_plugin_lock key p = true -> holds_plugin_lock key p' = true -> False).
    { intros t p p' key Hne Hp Hp' Hh Hh'. destruct (proj2 (Hnew _ Hp') key Hh') as [Hno|(p0 & Hp0 & Hh0)].
      - by rewrite (no_call_spec _ _ _ _ Hno Hp) in Hh.
      - by eapply Hne, (ok_locks _ _ Hok). }
    intros t t' p p' key Hp Hp' Hh Hh'.
    destruct (decide (t = t0)) as [->|Hne], (decide (t' = t0)) as [->|Hne']; [done| | |].
    + rewrite Hcalls in Hp' by done. exfalso. by eapply (Hone t').
    + rewrite Hcalls in Hp by done. exfalso. by eapply (Hone t).
    + rewrite Hcalls in Hp, Hp' by done. by eapply (ok_locks _ _ Hok).
  - rewrite Hlog. apply good_log_app; [apply (ok_log _ _ Hok)|done|done].
Qed.

(** * Steps *)

Definition action_fine (s : Facade) (p : ActionPc) : Prop :=
  forall plugin r admitted, action_of p = Some (plugin, r, admitted) ->
    (request_session r < next_id s)%Z
    /\ forall rec, live s !! request_session r = Some rec ->
         plugin_id rec = plugin /\ (admitted = true -> record_revision rec = expected_revision r).

Definition is_staged (p : ActionPc) : bool := match p with Staged _ _ => true | _ => false end.

(** Steps that leave the sessions alone. *)
Lemma quiet n s s' t0 es :
  facade_ok n s ->
  sessions s' = sessions s -> staged_sessions s' = staged_sessions s -> next_id s' = next_id s ->
  facade_log s' = facade_log s ++ es -> (length es <= 1)%nat -> Forall (fits (facade_log s)) es ->
  Forall (fun e => event_call e = None \/ event_call e = Some t0) es -> (forall id, revisions id es = []) ->
  (forall t, t <> t0 -> calls s' !! t = calls s !! t) ->
  (forall p, calls s !! t0 = Some p -> is_staged p = false) ->
  (forall p', calls s' !! t0 = Some p' ->
     pc_fine t0 s' p'
     /\ forall key, holds_plugin_lock key p' = true ->
          no_call (holds_plugin_lock key) s = true
          \/ exists p, calls s !! t0 = Some p /\ holds_plugin_lock key p = true) ->
  (forall key, disabled key (facade_log s') = true -> enabled s' !! key <> Some true) ->
  (forall t key, calls s !! t = Some (Disabling key) -> enabled s' !! key <> Some true) ->
  facade_ok (S n) s'.
Proof.
  intros Hok Hs Hst Hn Hlog Hlen Hfits Hby Hrev Hcalls Hnst Hnew Hoff Hdis.
  assert (Hlive : live s' = live s) by (unfold live; congruence).
  apply (evolve n s s' t0 es); try done.
  - rewrite Hn. pose proof (ok_next _ _ Hok). lia.
  - intros id rec' Hr _. rewrite Hlive in Hr. eauto 6.
  - intros id rec Hr. rewrite Hlog, revisions_app, Hrev, app_nil_r, Hn. rewrite Hlive in Hr. by apply (ok_live _ _ Hok).
  - rewrite Hs, Hst. apply (ok_disjoint _ _ Hok).
  - intros id rec Hr. rewrite Hst in Hr. destruct (ok_staged _ _ Hok _ _ Hr) as (t & key & ids & Ht & ?).
    exists t, key, ids. rewrite Hcalls; [done|]. intros ->. by apply Hnst in Ht.
Qed.

(** A call goes from [p] to [p'], in a state that differs from [s] in the log and the
    flags at most. *)
Lemma moves n s s1 t p p' es :
  facade_ok n s -> calls s !! t = Some p -> calls s1 = calls s ->
  sessions s1 = sessions s -> staged_sessions s1 = staged_sessions s -> next_id s1 = next_id s ->
  facade_log s1 = facade_log s ++ es -> (length es <= 1)%nat -> Forall (fits (facade_log s)) es ->
  Forall (fun e => event_call e = None \/ event_call e = Some t) es -> (forall id, revisions id es = []) ->
  (forall key, disabled key (facade_log s1) = true -> enabled s1 !! key <> Some true) ->
  (forall t key, calls s !! t = Some (Disabling key) -> enabled s1 !! key <> Some true) ->
  is_staged p = false ->
  (action_of p' = None \/ action_of p' = action_of p \/ action_fine s p') ->
  match p' with
  | ActPublishing _ _ _ _ | OpenPublishing _ _ _ _ => was_checked t (facade_log s1)
  | Disabling _ | Staged _ _ => False
  | _ => True
  end ->
  (forall key, holds_plugin_lock key p' = true -> holds_plugin_lock key p = true \/ no_call (holds_plugin_lock key) s = true) ->
  facade_ok (S n) (set_call t p' s1).
Proof.
  intros Hok Hp Hcs Hs Hst Hn Hlog Hlen Hfits Hby Hrev Hoff Hdis Hnst Hact Haux Hlock.
  assert (Hlt : (t < length (calls s))%nat) by (by eapply lookup_lt_Some).
  apply (quiet n s _ t es); try done; cbn [set_call calls].
  - intros t' Hne. by rewrite Hcs, list_lookup_insert_ne.
  - intros q Hq. congruence.
  - rewrite Hcs, list_lookup_insert_eq by done. intros q [= <-]. split.
    + destruct (ok_fine _ _ Hok t p Hp) as [Ha _]. split; [|destruct p'; try done].
      unfold live. cbn [set_call sessions staged_sessions next_id]. rewrite Hs, Hst, Hn.
      intros plugin r admitted E. destruct Hact as [E'|[E'|Hact]]; [congruence| |by apply Hact].
      apply Ha. congruence.
    + intros key Hk. destruct (Hlock key Hk) as [?|?]; eauto.
Qed.

Lemma require_enabled_ok plugin s :
  require_enabled_plugin plugin s = Ok tt -> enabled s !! plugin_lock_key plugin = Some true.
Proof.
  unfold require_enabled_plugin, plugin_lock_key. destruct (identity_key plugin); [|done]. cbn. by repeat case_match.
Qed.

Lemma enabled_fits n s key : facade_ok n s -> enabled s !! key = Some true -> disabled key (facade_log s) = false.
Proof. intros Hok H. destruct (disabled key (facade_log s)) eqn:E; [|done]. by apply (ok_off _ _ Hok) in E. Qed.

Lemma disabling_fine n s t key :
  facade_ok n s -> calls s !! t = Some (Disabling key) -> enabled s !! key <> Some true.
Proof. intros Hok H. by destruct (ok_fine _ _ Hok _ _ H). Qed.

(** The same with nothing said in the log. *)
Lemma moves_silently n s t p p' :
  facade_ok n s -> calls s !! t = Some p -> is_staged p = false ->
  (action_of p' = None \/ action_of p' = action_of p \/ action_fine s p') ->
  match p' with ActPublishing _ _ _ _ | OpenPublishing _ _ _ _ | Disabling _ | Staged _ _ => False | _ => True end ->
  (forall key, holds_plugin_lock key p' = true -> holds_plugin_lock key p = true \/ no_call (holds_plugin_lock key) s = true) ->
  facade_ok (S n) (set_call t p' s).
Proof.
  intros Hok Hp Hnst Hact Haux Hlock. apply (moves n s s t p p' []); try done; [by rewrite app_nil_r|cbn; lia| | |by destruct p'].
  - apply (ok_off _ _ Hok).
  - intros t' key. by eapply disabling_fine.
Qed.

(** A check of the flag, and an entry to the guest: an event the flag allows. *)
Lemma moves_noted n s t p p' e :
  facade_ok n s -> calls s !! t = Some p -> is_staged p = false ->
  (exists key, (e = CheckedEnabled t key \/ e = GuestEntered t key) /\ enabled s !! key = Some true) ->
  (action_of p' = None \/ action_of p' = action_of p \/ action_fine s p') ->
  match p' with
  | ActPublishing _ _ _ _ | OpenPublishing _ _ _ _ => exists key, e = CheckedEnabled t key
  | Disabling _ | Staged _ _ => False
  | _ => True
  end ->
  (forall key, holds_plugin_lock key p' = true -> holds_plugin_lock key p = true \/ no_call (holds_plugin_lock key) s = true) ->
  facade_ok (S n) (set_call t p' (note e s)).
Proof.
  intros Hok Hp Hnst (key & He & Hon) Hact Haux Hlock.
  apply (moves n s (note e s) t p p' [e]); try done.
  - rewrite Forall_singleton. destruct He as [-> | ->]; by eapply enabled_fits.
  - rewrite Forall_singleton. destruct He as [-> | ->]; by right.
  - intros id. by destruct He as [-> | ->].
  - intros k. cbn [note facade_log enabled]. rewrite disabled_snoc. intros H. apply (ok_off _ _ Hok).
    by destruct He as [-> | ->].
  - intros t' k Hk. cbn. by eapply disabling_fine.
  - destruct p'; try done; destruct Haux as [k ->]; exists k; by apply last_of_snoc.
Qed.

Lemma check_enabled_ok n s t p plugin p' s' :
  facade_ok n s -> calls s !! t = Some p -> is_staged p = false ->
  (action_of p' = None \/ action_of p' = action_of p) ->
  match p' with Disabling _ | Staged _ _ => False | _ => True end ->
  (forall key, holds_plugin_lock key p' = true -> holds_plugin_lock key p = true) ->
  check_enabled t plugin p' s = Some s' -> facade_ok (S n) s'.
Proof.
  intros Hok Hp Hnst Hact Haux Hlock. unfold check_enabled. destruct (no_call _ s); [|done].
  destruct (require_enabled_plugin plugin s) as [[]|why] eqn:E; intros [= <-].
  - apply moves_noted with p; eauto using require_enabled_ok.
    + tauto.
    + destruct p'; eauto.
  - apply moves_silently with p; eauto; done.
Qed.

Lemma enter_guest_ok n s t p plugin p' :
  facade_ok n s -> calls s !! t = Some p -> is_staged p = false ->
  action_of p' = None \/ action_of p' = action_of p ->
  match p' with ActPublishing _ _ _ _ | OpenPublishing _ _ _ _ | Disabling _ | Staged _ _ => False | _ => True end ->
  (forall key, holds_plugin_lock key p' = true -> holds_plugin_lock key p = true) ->
  facade_ok (S n) (enter_guest t plugin p' s).
Proof.
  intros Hok Hp Hnst Hact Haux Hlock. unfold enter_guest.
  destruct (require_enabled_plugin plugin s) as [[]|why] eqn:E.
  - apply moves_noted with p; eauto using require_enabled_ok.
    + tauto.
    + by destruct p'.
  - apply moves_silently with p; eauto; done.
Qed.

Lemma guest_fails_ok n s t p plugin g s' :
  facade_ok n s -> calls s !! t = Some p -> is_staged p = false ->
  guest_fails t plugin g s = Some s' -> facade_ok (S n) s'.
Proof.
  intros Hok Hp Hnst. unfold guest_fails.
  assert (Hsilent : facade_ok (S n) (set_call t (GuestGaveUp plugin) s)) by (apply moves_silently with p; eauto; done).
  destruct g; try (by intros [= <-]). destruct (no_call _ s); [|done]. intros [= <-].
  destruct (enabled s !! plugin_lock_key plugin); [|done].
  apply (moves n s _ t p (GuestGaveUp plugin) []); try done; cbn [set_enabled_flags enabled facade_log].
  - by rewrite app_nil_r.
  - cbn. lia.
  - intros k Hk. destruct (decide (k = plugin_lock_key plugin)) as [-> | Hne]; [by rewrite lookup_insert_eq|].
    rewrite lookup_insert_ne by done. by apply (ok_off _ _ Hok).
  - intros t' k Hk. destruct (decide (k = plugin_lock_key plugin)) as [-> | Hne]; [by rewrite lookup_insert_eq|].
    rewrite lookup_insert_ne by done. by eapply disabling_fine.
  - by left.
Qed.

Definition few (n : nat) : Prop := (Z.of_nat n + 2 <= u64_max)%Z.

Lemma live_lookup s id :
  live s !! id = match sessions s !! id with Some rec => Some rec | None => staged_sessions s !! id end.
Proof. unfold live. rewrite lookup_union. by destruct (sessions s !! id), (staged_sessions s !! id). Qed.

Lemma set_call_others t p s t' : t' <> t -> calls (set_call t p s) !! t' = calls s !! t'.
Proof. intros H. cbn. by rewrite list_lookup_insert_ne. Qed.

Lemma set_call_own t p p0 s q : calls s !! t = Some p0 -> calls (set_call t p s) !! t = Some q -> q = p.
Proof.
  intros H. cbn. rewrite list_lookup_insert_eq by (by eapply lookup_lt_Some). congruence.
Qed.

(** A call that is through with its lock does no harm. *)
Lemma through_fine t s p :
  action_of p = None ->
  match p with ActPublishing _ _ _ _ | OpenPublishing _ _ _ _ | Disabling _ | Staged _ _ => False | _ => True end ->
  pc_fine t s p.
Proof. intros Ha Hp. split; [by rewrite Ha|]. by destruct p. Qed.

Lemma opened_ok n s t plugin e pinned v s' :
  facade_ok n s -> few n -> calls s !! t = Some (OpenPublishing plugin e pinned v) ->
  call_step t GuestError s = Some s' -> facade_ok (S n) s'.
Proof.
  intros Hok Hfew Hp. unfold call_step. rewrite Hp. cbn [mbind option_bind open_session dispatch_action]. intros [= <-].
  set (id := next_id s). set (rec := mk_record _ _ _ _ _ _).
  pose proof (ok_next _ _ Hok) as Hn. unfold few in Hfew.
  assert (Hw : wrapping_add id 1 = (id + 1)%Z) by (apply wrapping_add_small; unfold id; lia).
  assert (Hnone : live s !! id = None).
  { destruct (live s !! id) eqn:E; [|done]. apply (ok_live _ _ Hok) in E. unfold id in *. lia. }
  rewrite live_lookup in Hnone.
  set (s1 := note _ _).
  assert (Hlive : live s1 = <[id := rec]> (live s)) by (unfold live; cbn; by rewrite insert_union_l).
  apply (evolve n s (set_call t _ s1) t [OpenedSession t id]); try done; change (live (set_call _ _ s1)) with (live s1);
    cbn [set_call s1 note set_sessions set_next_id next_id facade_log sessions staged_sessions enabled].
  - rewrite Hw. unfold id. lia.
  - rewrite Forall_singleton. split; [apply (ok_fresh _ _ Hok); unfold id; lia|].
    apply (ok_fine _ _ Hok _ _ Hp).
  - rewrite Forall_singleton. by right.
  - intros t' Hne. exact (set_call_others t _ s1 t' Hne).
  - intros q Hq. apply (set_call_own t _ _ s1 q Hp) in Hq as ->. split; [by apply through_fine|done].
  - intros id' rec' Hr Hlt. change (live (set_call _ _ s1)) with (live s1) in Hr.
    rewrite Hlive, lookup_insert_ne in Hr by (unfold id; lia). eauto 6.
  - intros id' rec' Hr. change (live (set_call _ _ s1)) with (live s1) in Hr. rewrite Hlive in Hr.
    rewrite revisions_app. cbn [revisions omap list_omap revision_of]. rewrite app_nil_r, Hw.
    destruct (decide (id' = id)) as [-> | Hne].
    + rewrite lookup_insert_eq in Hr. injection Hr as <-. rewrite (ok_fresh _ _ Hok) by (unfold id; lia). cbn. lia.
    + rewrite lookup_insert_ne in Hr by done. destruct (ok_live _ _ Hok _ _ Hr) as [? ?]. split; [unfold id; lia|done].
  - apply map_disjoint_insert_l_2; [|apply (ok_disjoint _ _ Hok)]. by destruct (sessions s !! id).
  - intros id' rec' Hr. destruct (ok_staged _ _ Hok _ _ Hr) as (t' & key & ids & Ht & ?).
    exists t', key, ids. split; [|done]. rewrite <- Ht. apply (set_call_others t _ s1). intros ->. congruence.
  - intros key Hk. apply (ok_off _ _ Hok). by rewrite disabled_snoc in Hk.
  - intros t' key Ht. by eapply disabling_fine.
Qed.

Lemma published_ok n s t plugin r o v s' :
  facade_ok n s -> few n -> calls s !! t = Some (ActPublishing plugin r o v) ->
  call_step t GuestError s = Some s' -> facade_ok (S n) s'.
Proof.
  intros Hok Hfew Hp. unfold call_step. rewrite Hp. cbn [mbind option_bind open_session dispatch_action].
  destruct (sessions s !! request_session r) as [rec|] eqn:Er; intros [= <-];
    [|by apply moves_silently with (ActPublishing plugin r o v); eauto].
  set (sid := request_session r) in *. set (rec' := next_record v rec).
  assert (Hl : live s !! sid = Some rec) by (by rewrite live_lookup, Er).
  destruct (ok_live _ _ Hok _ _ Hl) as [Hlt Hrev]. destruct (ok_fine _ _ Hok _ _ Hp) as [Hact Hck].
  destruct (Hact _ _ _ eq_refl) as [_ Hexp]. destruct (Hexp rec Hl) as [Hpl He]. specialize (He eq_refl).
  assert (Hrev' : record_revision rec' = (record_revision rec + 1)%Z).
  { apply wrapping_add_small; [lia|]. pose proof (revisions_length sid (facade_log s)).
    pose proof (ok_length _ _ Hok). unfold few in Hfew. lia. }
  set (e := PublishedDocument _ _ _ _). set (s1 := note e _).
  assert (Hlive : live s1 = <[sid := rec']> (live s)) by (unfold live; cbn; by rewrite insert_union_l).
  apply (evolve n s (set_call t _ s1) t [e]); try done; change (live (set_call _ _ s1)) with (live s1);
    cbn [set_call s1 note set_sessions next_id facade_log sessions staged_sessions enabled].
  - pose proof (ok_next _ _ Hok). lia.
  - rewrite Forall_singleton. split; [congruence|]. split; [by rewrite <- He|exact Hck].
  - rewrite Forall_singleton. by right.
  - intros t' Hne. exact (set_call_others t _ s1 t' Hne).
  - intros q Hq. apply (set_call_own t _ _ s1 q Hp) in Hq as ->. split; [by apply through_fine|done].
  - intros id rec1 Hr _. change (live (set_call _ _ s1)) with (live s1) in Hr. rewrite Hlive in Hr.
    destruct (decide (id = sid)) as [-> | Hne].
    + rewrite lookup_insert_eq in Hr. injection Hr as <-. exists rec. split; [done|]. split; [done|]. right.
      exists (ActPublishing plugin r o v). split; [done|]. rewrite Hpl. by apply action_holds with r.
    + rewrite lookup_insert_ne in Hr by done. eauto 6.
  - intros id rec1 Hr. change (live (set_call _ _ s1)) with (live s1) in Hr. rewrite Hlive in Hr.
    rewrite revisions_app. cbn [revisions omap list_omap revision_of e].
    destruct (decide (id = sid)) as [-> | Hne].
    + rewrite lookup_insert_eq in Hr. injection Hr as <-. rewrite Z.eqb_refl, length_app. cbn [length].
      split; [lia|]. rewrite Hrev', Hrev. lia.
    + rewrite lookup_insert_ne in Hr by done. destruct (ok_live _ _ Hok _ _ Hr) as [? ?].
      destruct (Z.eqb_spec sid id) as [<-|_]; [done|]. by rewrite app_nil_r.
  - intros id Hid. cbn. destruct (Z.eqb_spec sid id) as [<-|_]; [lia|done].
  - apply map_disjoint_insert_l_2; [|apply (ok_disjoint _ _ Hok)]. 
    eapply map_disjoint_Some_l; [apply (ok_disjoint _ _ Hok)|exact Er].
  - intros id rec1 Hr. destruct (ok_staged _ _ Hok _ _ Hr) as (t' & key & ids & Ht & ?).
    exists t', key, ids. split; [|done]. rewrite <- Ht. apply (set_call_others t _ s1). intros ->. congruence.
  - intros key Hk. apply (ok_off _ _ Hok). by rewrite disabled_snoc in Hk.
  - intros t' key Ht. by eapply disabling_fine.
Qed.

Definition own_sessions (key : str) (m : gmap Z SessionRecord) : gmap Z SessionRecord :=
  filter (fun p => identity_key (plugin_id p.2) = Some key) m.

Lemma own_lookup key m id :
  own_sessions key m !! id
  = match m !! id with Some rec => if decide (identity_key (plugin_id rec) = Some key) then Some rec else None | None => None end.
Proof. unfold own_sessions. rewrite map_lookup_filter. destruct (m !! id); cbn; [|done]. by repeat case_decide; repeat case_guard. Qed.

Lemma stage_ok n s t plugin g s' :
  facade_ok n s -> calls s !! t = Some (StageStart plugin) -> call_step t g s = Some s' -> facade_ok (S n) s'.
Proof.
  intros Hok Hp. unfold call_step. rewrite Hp. cbn [mbind option_bind]. unfold stage_plugin_session_removal.
  destruct (identity_key plugin) as [key|]; cbn [mbind option_bind]; [|done].
  destruct (no_call (holds_plugin_lock key) s) eqn:Hno; [|done]. intros [= <-].
  fold (own_sessions key (sessions s)). set (own := own_sessions key (sessions s)). set (ids := (map_to_list own).*1).
  set (s1 := set_staged _ _).
  assert (Hids : forall id, id ∈ ids <-> is_Some (own !! id)).
  { intros id. unfold ids. rewrite list_elem_of_fmap. split.
    - intros ([i rec] & -> & H%elem_of_map_to_list). eauto.
    - intros [rec H]. exists (id, rec). split; [done|]. by apply elem_of_map_to_list. }
  assert (Hlive : live s1 = live s).
  { apply map_eq. intros id. rewrite !live_lookup. cbn. rewrite lookup_difference, lookup_union. unfold own.
    rewrite own_lookup. destruct (sessions s !! id); [|by destruct (staged_sessions s !! id)].
    case_decide; [|done]. by destruct (staged_sessions s !! id). }
  assert (Hown : forall id rec, live s !! id = Some rec -> id ∈ ids -> identity_key (plugin_id rec) = Some key).
  { intros id rec Hr [rec' Ho]%Hids. unfold own in Ho. rewrite own_lookup in Ho. rewrite live_lookup in Hr.
    destruct (sessions s !! id); [|done]. case_decide; congruence. }
  apply (evolve n s (set_call t _ s1) t []); try done; change (live (set_call _ _ s1)) with (live s1);
    cbn [set_call s1 set_staged set_sessions next_id facade_log sessions staged_sessions enabled].
  - pose proof (ok_next _ _ Hok). lia.
  - by rewrite app_nil_r.
  - cbn. lia.
  - intros t' Hne. exact (set_call_others t _ s1 t' Hne).
  - intros q Hq. apply (set_call_own t _ _ s1 q Hp) in Hq as ->. split; [split; [done|]|].
    + intros id Hid. change (live (set_call _ _ s1)) with (live s1). rewrite Hlive. split; [|eauto].
      apply Hids in Hid as [rec Hr]. apply (ok_live _ _ Hok id rec). unfold own in Hr. rewrite own_lookup in Hr.
      rewrite live_lookup. destruct (sessions s !! id); [|done]. by case_decide.
    + intros k Hk. cbn in Hk. apply bool_decide_eq_true in Hk as <-. by left.
  - intros id rec Hr _. change (live (set_call _ _ s1)) with (live s1) in Hr. rewrite Hlive in Hr. eauto 6.
  - intros id rec Hr. change (live (set_call _ _ s1)) with (live s1) in Hr. rewrite Hlive in Hr.
    by apply (ok_live _ _ Hok).
  - apply map_disjoint_spec. intros id r1 r2 H1 H2. rewrite lookup_difference in H1. rewrite lookup_union in H2.
    pose proof (ok_disjoint _ _ Hok) as Hd. rewrite map_disjoint_spec in Hd.
    destruct (own !! id) eqn:Eo; [done|]. destruct (staged_sessions s !! id) eqn:Est; [|done]. eauto.
  - intros id rec Hr. rewrite lookup_union in Hr. destruct (own !! id) as [ro|] eqn:Eo.
    + assert (ro = rec) as -> by (destruct (staged_sessions s !! id); cbn in Hr; congruence).
      exists t, key, ids. split; [|split].
      * cbn. apply list_lookup_insert_eq. by eapply lookup_lt_Some.
      * apply Hids. eauto.
      * apply (Hown id); [|apply Hids; eauto]. unfold own in Eo. rewrite own_lookup in Eo. rewrite live_lookup.
        destruct (sessions s !! id); [|done]. by case_decide.
    + assert (Hst : staged_sessions s !! id = Some rec) by (destruct (staged_sessions s !! id); cbn in Hr; congruence).
      destruct (ok_staged _ _ Hok _ _ Hst) as (t' & k & l & Ht & ?). exists t', k, l. split; [|done].
      rewrite <- Ht. apply (set_call_others t _ s1). intros ->. congruence.
  - apply (ok_off _ _ Hok).
  - intros t' k Ht. by eapply disabling_fine.
Qed.

Lemma found_ok n s r rec :
  facade_ok n s -> sessions s !! request_session r = Some rec -> action_fine s (ActFound (plugin_id rec) r).
Proof.
  intros Hok Hr plugin r' adm [= <- <- <-].
  assert (Hl : live s !! request_session r = Some rec) by (by rewrite live_lookup, Hr).
  split; [apply (ok_live _ _ Hok _ _ Hl)|]. intros rec' Hr'. replace rec' with rec by congruence. done.
Qed.

Lemma admitted_ok n s t plugin r rec force :
  facade_ok n s -> calls s !! t = Some (ActAllowed plugin r) -> sessions s !! request_session r = Some rec ->
  admit_action r rec = Ok force -> action_fine s (ActReady plugin r force).
Proof.
  intros Hok Hp Hr Ha plugin' r' adm [= <- <- <-].
  assert (Hl : live s !! request_session r = Some rec) by (by rewrite live_lookup, Hr).
  destruct (ok_fine _ _ Hok _ _ Hp) as [Hact _]. destruct (Hact _ _ _ eq_refl) as [Hlt Hrec]. split; [done|].
  intros rec' Hr'. replace rec' with rec by congruence. split; [by apply Hrec|]. intros _.
  unfold admit_action in Ha. destruct (Z.eqb_spec (record_revision rec) (expected_revision r)); [done|discriminate].
Qed.

Lemma disable_returns_ok n s t key :
  facade_ok n s -> calls s !! t = Some (Disabling key) ->
  facade_ok (S n) (set_call t Through (note (DisableReturned key) s)).
Proof.
  intros Hok Hp. apply (moves n s (note (DisableReturned key) s) t (Disabling key) Through [DisableReturned key]);
    try done; eauto.
  - by rewrite Forall_singleton.
  - cbn [note facade_log enabled]. intros k. rewrite disabled_snoc. cbn. case_decide as E; [subst k|by apply (ok_off _ _ Hok)].
    intros _. by eapply disabling_fine.
  - intros t' k Hk. cbn. by eapply disabling_fine.
Qed.

Ltac silently Hp := eapply moves_silently; [eassumption|exact Hp|reflexivity|eauto|done|cbn; eauto; done].
Ltac checked Hp := eapply check_enabled_ok; [eassumption|exact Hp|reflexivity|eauto|done|cbn; eauto; done].

Lemma call_step_ok n s t g s' : facade_ok n s -> few n -> call_step t g s = Some s' -> facade_ok (S n) s'.
Proof.
  intros Hok Hfew. destruct (calls s !! t) as [p|] eqn:Hp; [|unfold call_step; by rewrite Hp].
  destruct p.
  all: try (unfold call_step; rewrite Hp; cbn [mbind option_bind open_session dispatch_action]; done).
  all: try (unfold call_step; rewrite Hp; cbn [mbind option_bind open_session dispatch_action]; checked Hp).
  all: try (unfold call_step; rewrite Hp; cbn [mbind option_bind open_session dispatch_action]; intros [= <-];
            eapply enter_guest_ok; [eassumption|exact Hp|reflexivity|eauto|done|cbn; eauto; done]).
  all: try (unfold call_step; rewrite Hp; cbn [mbind option_bind open_session dispatch_action]; destruct g;
            solve [intros [= <-]; silently Hp | intros H; by eapply guest_fails_ok]).
  - unfold call_step. rewrite Hp. cbn [mbind option_bind open_session dispatch_action]. destruct (validate_extension_point e); [checked Hp|].
    intros [= <-]. silently Hp.
  - intros H. eapply opened_ok; [done..|]. unfold call_step in *. by rewrite Hp in *.
  - unfold call_step. rewrite Hp. cbn [mbind option_bind open_session dispatch_action].
    destruct (sessions s !! request_session r) as [rec|] eqn:Er; intros [= <-]; [|silently Hp].
    eapply moves_silently; [done|exact Hp|done| |done|done]. right; right. by eapply found_ok.
  - unfold call_step. rewrite Hp. cbn [mbind option_bind open_session dispatch_action]. destruct (no_call _ s) eqn:Hno; [|done]. intros [= <-].
    eapply moves_silently; [done|exact Hp|done|eauto|done|]. cbn. intros key <-%bool_decide_eq_true. by right.
  - unfold call_step. rewrite Hp. cbn [mbind option_bind open_session dispatch_action].
    destruct (sessions s !! request_session r) as [rec|] eqn:Er; [|intros [= <-]; silently Hp].
    destruct (admit_action r rec) as [force|] eqn:Ea; intros [= <-]; [|silently Hp].
    eapply moves_silently; [done|exact Hp|done| |done|cbn; eauto]. right; right. by eapply admitted_ok.
  - unfold call_step. rewrite Hp. cbn [mbind option_bind open_session dispatch_action]. destruct (needs_refresh o || force); checked Hp.
  - intros H. eapply published_ok; [done..|]. unfold call_step in *. by rewrite Hp in *.
  - unfold call_step. rewrite Hp. cbn [mbind option_bind open_session dispatch_action]. destruct (no_call _ s); [|done].
    destruct (require_enabled_plugin plugin s); intros [= <-]; silently Hp.
  - by eapply stage_ok.
  - unfold call_step. rewrite Hp. cbn [mbind option_bind open_session dispatch_action]. destruct (no_call _ s); [|done]. intros [= <-].
    by apply disable_returns_ok.
Qed.

(** * The end of a staged removal *)

Lemma restore_staged_spec ids s :
  let s' := restore_staged ids s in
  next_id s' = next_id s /\ enabled s' = enabled s /\ calls s' = calls s /\ facade_log s' = facade_log s
  /\ (forall id, staged_sessions s' !! id = if decide (id ∈ ids) then None else staged_sessions s !! id)
  /\ (forall id, sessions s' !! id
        = if decide (id ∈ ids)
          then match staged_sessions s !! id with Some rec => Some rec | None => sessions s !! id end
          else sessions s !! id).
Proof.
  revert s. induction ids as [|i ids IH]; intros s; [done|].
  change (restore_staged (i :: ids) s) with (restore_staged ids (restore_staged [i] s)). cbn zeta.
  assert (Eone : restore_staged [i] s = match staged_sessions s !! i with
    | Some rec => set_sessions (<[i := rec]> (sessions s)) (set_staged (delete i (staged_sessions s)) s) | None => s end)
    by done.
  rewrite Eone. clear Eone.
  destruct (staged_sessions s !! i) as [rec|] eqn:E.
  all: match goal with |- context [restore_staged _ ?x] => destruct (IH x) as (-> & -> & -> & -> & Hst & Hs) end.
  all: split_and!; [done..| |]; intros id; rewrite ?Hst, ?Hs; cbn [set_sessions set_staged sessions staged_sessions].
  - destruct (decide (i = id)) as [-> | Hne].
    + rewrite lookup_delete_eq. by repeat case_decide; try set_solver.
    + rewrite lookup_delete_ne by done. by repeat case_decide; try set_solver.
  - destruct (decide (i = id)) as [-> | Hne].
    + rewrite lookup_delete_eq, lookup_insert_eq, E. by repeat case_decide; try set_solver.
    + rewrite lookup_delete_ne, lookup_insert_ne by done. by repeat case_decide; try set_solver.
  - destruct (decide (i = id)) as [-> | Hne]; [rewrite E|]; by repeat case_decide; try set_solver.
  - destruct (decide (i = id)) as [-> | Hne]; [rewrite E|]; by repeat case_decide; try set_solver.
Qed.

Lemma foldl_delete_lookup ids (m : gmap Z SessionRecord) id :
  foldl (fun m id => delete id m) m ids !! id = if decide (id ∈ ids) then None else m !! id.
Proof.
  revert m. induction ids as [|i ids IH]; intros m; cbn [foldl]; [done|]. rewrite IH.
  destruct (decide (i = id)) as [-> | Hne].
  - rewrite lookup_delete_eq. by repeat case_decide; try set_solver.
  - rewrite lookup_delete_ne by done. by repeat case_decide; try set_solver.
Qed.

(** The staged sessions leave together, into the store or for good. *)
Lemma ended_ok n s t key ids s1 :
  facade_ok n s -> calls s !! t = Some (Staged key ids) ->
  next_id s1 = next_id s -> enabled s1 = enabled s -> calls s1 = calls s -> facade_log s1 = facade_log s ->
  (forall id, staged_sessions s1 !! id = if decide (id ∈ ids) then None else staged_sessions s !! id) ->
  (forall id rec, sessions s1 !! id = Some rec -> live s !! id = Some rec /\ (id ∈ ids \/ sessions s !! id = Some rec)) ->
  facade_ok (S n) (set_call t Through s1).
Proof.
  intros Hok Hp Hn He Hc Hlog Hst Hs.
  assert (Hlive : forall id rec, live s1 !! id = Some rec -> live s !! id = Some rec).
  { intros id rec. rewrite live_lookup. destruct (sessions s1 !! id) eqn:E.
    - intros [= ->]. by apply Hs.
    - rewrite Hst. case_decide; [done|]. intros Hr. rewrite live_lookup, Hr.
      destruct (sessions s !! id) eqn:E'; [|done]. exfalso. pose proof (ok_disjoint _ _ Hok) as Hd.
      rewrite map_disjoint_spec in Hd. eauto. }
  apply (evolve n s (set_call t Through s1) t []); try done;
    cbn [set_call next_id facade_log sessions staged_sessions enabled].
  - rewrite Hn. pose proof (ok_next _ _ Hok). lia.
  - by rewrite app_nil_r.
  - cbn. lia.
  - intros t' Hne. cbn. by rewrite list_lookup_insert_ne, Hc.
  - intros q Hq. rewrite <- Hc in Hp. apply (set_call_own t _ _ s1 q Hp) in Hq as ->. split; [by apply through_fine|done].
  - intros id rec Hr _. apply Hlive in Hr. eauto 6.
  - intros id rec Hr. apply Hlive in Hr. rewrite Hn, Hlog. by apply (ok_live _ _ Hok).
  - apply map_disjoint_spec. intros id r1 r2 H1 H2. apply Hs in H1 as [_ [Hin|H1]]; rewrite Hst in H2; case_decide; try done.
    pose proof (ok_disjoint _ _ Hok) as Hd. rewrite map_disjoint_spec in Hd. eauto.
  - intros id rec Hr. rewrite Hst in Hr. case_decide as Hni; [done|].
    destruct (ok_staged _ _ Hok _ _ Hr) as (t' & k & l & Ht & Hin & Hk). exists t', k, l. split; [|done]. cbn. rewrite Hc.
    rewrite list_lookup_insert_ne; [done|]. intros ->. rewrite Hp in Ht. by injection Ht as <- <-.
  - rewrite Hlog, He. apply (ok_off _ _ Hok).
  - rewrite He. intros t' k Ht. by eapply disabling_fine.
Qed.

Lemma end_staging_ok n s t committed s' :
  facade_ok n s -> facade_step (EndStaging t committed) s = Some s' -> facade_ok (S n) s'.
Proof.
  intros Hok. cbn [facade_step]. destruct (calls s !! t) as [[]|] eqn:Hp; try done. intros [= <-]. destruct committed.
  - eapply ended_ok; [done|exact Hp|done..| |]; intros id; [apply foldl_delete_lookup|].
    intros rec Hr. change (sessions s !! id = Some rec) in Hr. rewrite live_lookup, Hr. auto.
  - destruct (restore_staged_spec ids s) as (Hn & He & Hc & Hl & Hst & Hs).
    eapply ended_ok; [done|exact Hp|done..|]. intros id rec. rewrite Hs, live_lookup.
    pose proof (ok_disjoint _ _ Hok) as Hd. rewrite map_disjoint_spec in Hd.
    destruct (staged_sessions s !! id) eqn:E1, (sessions s !! id) eqn:E2; case_decide; try done; eauto.
    exfalso. eauto.
Qed.

(** * The other steps *)

Lemma session_close_ok n s sid : facade_ok n s -> facade_ok (S n) (close_plugin_session sid s).2.
Proof.
  intros Hok. pose proof (ok_disjoint _ _ Hok) as Hd. set (s' := (close_plugin_session sid s).2).
  assert (Hsub : sessions s' ⊆ sessions s /\ staged_sessions s' ⊆ staged_sessions s).
  { unfold s', close_plugin_session. destruct (sessions s !! sid); [|destruct (staged_sessions s !! sid)]; cbn;
      split; solve [apply delete_subseteq | done]. }
  assert (Hsame : next_id s' = next_id s /\ enabled s' = enabled s /\ calls s' = calls s /\ facade_log s' = facade_log s).
  { unfold s', close_plugin_session. by destruct (sessions s !! sid); [|destruct (staged_sessions s !! sid)]. }
  clearbody s'. destruct Hsub as [Hs Hst], Hsame as (Hn & He & Hc & Hl).
  assert (Hlive : forall id rec, live s' !! id = Some rec -> live s !! id = Some rec).
  { intros id rec H. eapply lookup_weaken; [exact H|]. etrans; [by apply map_union_mono_l|by apply map_union_mono_r]. }
  apply (evolve n s s' (length (calls s)) []); try done.
  - rewrite Hn. pose proof (ok_next _ _ Hok). lia.
  - by rewrite app_nil_r.
  - cbn. lia.
  - intros t _. by rewrite Hc.
  - rewrite Hc, lookup_ge_None_2 by lia. done.
  - intros id rec Hr _. apply Hlive in Hr. eauto 6.
  - intros id rec Hr. apply Hlive in Hr. rewrite Hn, Hl. by apply (ok_live _ _ Hok).
  - by eapply map_disjoint_weaken.
  - intros id rec Hr. rewrite Hc. apply (ok_staged _ _ Hok). by eapply lookup_weaken.
  - rewrite Hl, He. apply (ok_off _ _ Hok).
  - rewrite He. intros t' k Ht. by eapply disabling_fine.
Qed.

(** A call begins, or a flag changes. *)
Lemma begins n s s' es :
  facade_ok n s -> sessions s' = sessions s -> staged_sessions s' = staged_sessions s -> next_id s' = next_id s ->
  facade_log s' = facade_log s ++ es -> (length es <= 1)%nat -> Forall (fun e => exists key, e = PluginEnabled key) es ->
  (exists ps, calls s' = calls s ++ ps /\ (length ps <= 1)%nat
     /\ Forall (fun p => is_call_start p = true \/ exists key, p = Disabling key /\ enabled s' !! key <> Some true) ps) ->
  (forall key, disabled key (facade_log s') = true -> enabled s' !! key <> Some true) ->
  (forall t key, calls s !! t = Some (Disabling key) -> enabled s' !! key <> Some true) ->
  facade_ok (S n) s'.
Proof.
  intros Hok Hs Hst Hn Hl Hlen Hes (ps & Hc & Hps & Hstart) Hoff Hdis.
  apply (quiet n s s' (length (calls s)) es); try done.
  - eapply Forall_impl; [done|]. by intros e [key ->].
  - eapply Forall_impl; [done|]. intros e [key ->]. by left.
  - intros id. induction Hes as [|e es [key ->] Hes IH]; [done|]. cbn in Hlen. destruct es; [done|cbn in Hlen; lia].
  - intros t Hne. rewrite Hc. destruct (decide (t < length (calls s))%nat) as [Hlt|Hge]; [by apply lookup_app_l|].
    rewrite lookup_app_r, !lookup_ge_None_2 by lia. done.
  - intros p. by rewrite lookup_ge_None_2 by lia.
  - intros p Hp. rewrite Hc, lookup_app_r, Nat.sub_diag in Hp by lia. destruct ps as [|q ps]; [done|]. injection Hp as ->.
    apply Forall_cons in Hstart as [[Hq|(key & -> & Hk)] _]; [|done]. by destruct p.
Qed.

Lemma flags_ok n s (key : str) (on : bool) :
  facade_ok n s -> no_call is_disabling s = true ->
  facade_ok (S n) (let s1 := set_enabled_flags (<[key := on]> (enabled s)) s in if on then note (PluginEnabled key) s1 else s1).
Proof.
  intros Hok Hno. apply (begins n s _ (if on then [PluginEnabled key] else [])); try (by destruct on); destruct on; try done;
    cbn [note set_enabled_flags enabled calls facade_log].
  - by rewrite app_nil_r.
  - cbn. lia.
  - rewrite Forall_singleton. by eexists.
  - exists []. rewrite app_nil_r. split_and!; [done|cbn; lia|done].
  - exists []. rewrite app_nil_r. split_and!; [done|cbn; lia|done].
  - intros k. rewrite disabled_snoc. cbn. case_decide as E; [done|]. rewrite lookup_insert_ne by done. apply (ok_off _ _ Hok).
  - intros k Hk. destruct (decide (k = key)) as [-> | Hne]; [by rewrite lookup_insert_eq|].
    rewrite lookup_insert_ne by done. by apply (ok_off _ _ Hok).
  - intros t k Ht. by apply (no_call_spec _ _ _ _ Hno) in Ht.
  - intros t k Ht. by apply (no_call_spec _ _ _ _ Hno) in Ht.
Qed.

Lemma set_enabled_ok n s key on :
  facade_ok n s -> no_call is_disabling s = true -> facade_ok (S n) (set_plugin_enabled key on s).
Proof.
  intros Hok Hno. unfold set_plugin_enabled.
  assert (Hdis : forall t k, calls s !! t = Some (Disabling k) -> False)
    by (intros t k Ht; by apply (no_call_spec _ _ _ _ Hno) in Ht).
  assert (Hnone : facade_ok (S n) s).
  { apply (begins n s s []); try done; [by rewrite app_nil_r|cbn; lia| |apply (ok_off _ _ Hok)|].
    - exists []. rewrite app_nil_r. split_and!; [done|cbn; lia|done].
    - intros t k Ht. by apply Hdis in Ht. }
  destruct (enabled s !! key) as [b|]; [|done]. destruct on; [by apply (flags_ok n s key true)|].
  apply (begins n s _ []); try done; cbn [enabled facade_log calls set_enabled_flags].
  - by rewrite app_nil_r.
  - cbn. lia.
  - exists [Disabling key]. split_and!; [done|done|]. rewrite Forall_singleton. right. exists key. by rewrite lookup_insert_eq.
  - intros k Hk. destruct (decide (k = key)) as [-> | Hne]; [by rewrite lookup_insert_eq|].
    rewrite lookup_insert_ne by done. by apply (ok_off _ _ Hok).
  - intros t k Ht. by apply Hdis in Ht.
Qed.

Lemma facade_step_ok n s st s' : facade_ok n s -> few n -> facade_step st s = Some s' -> facade_ok (S n) s'.
Proof.
  intros Hok Hfew. destruct st as [p|t g|t c|sid|key on|key|key]; [| |by apply end_staging_ok| | | |].
  - cbn [facade_step]. destruct (is_call_start p) eqn:E; [|done]. intros [= <-].
    apply (begins n s _ []); try done; cbn [enabled facade_log calls].
    + by rewrite app_nil_r.
    + cbn. lia.
    + exists [p]. split_and!; [done|done|]. rewrite Forall_singleton. by left.
    + apply (ok_off _ _ Hok).
    + intros t k Ht. by eapply disabling_fine.
  - by apply call_step_ok.
  - intros [= <-]. by apply session_close_ok.
  - cbn [facade_step]. destruct (no_call is_disabling s) eqn:Hno; [|done]. intros [= <-]. by apply set_enabled_ok.
  - cbn [facade_step]. destruct (no_call is_disabling s) eqn:Hno; [|done]. cbn [andb].
    destruct (bool_decide _); [|done]. intros [= <-]. by apply (flags_ok n s key true).
  - cbn [facade_step]. destruct (no_call is_disabling s) eqn:Hno; [|done]. intros [= <-].
    apply (begins n s _ []); try done; cbn [enabled facade_log calls set_enabled_flags].
    + by rewrite app_nil_r.
    + cbn. lia.
    + exists []. rewrite app_nil_r. split_and!; [done|cbn; lia|done].
    + intros k Hk. destruct (decide (k = key)) as [-> | Hne]; [by rewrite lookup_delete_eq|].
      rewrite lookup_delete_ne by done. by apply (ok_off _ _ Hok).
    + intros t k Ht. by apply (no_call_spec _ _ _ _ Hno) in Ht.
Qed.

Lemma facade_run_ok sts n s s' :
  facade_ok n s -> (Z.of_nat (n + length sts) < u64_max)%Z -> facade_run sts s = Some s' ->
  facade_ok (n + length sts) s'.
Proof.
  revert n s. induction sts as [|st sts IH]; intros n s Hok Hn; cbn [facade_run length] in *.
  - intros [= <-]. by rewrite Nat.add_0_r.
  - destruct (facade_step st s) as [s1|] eqn:E; [|done]. cbn [mbind option_bind]. rewrite <- Nat.add_succ_comm in *.
    apply IH; [|done]. eapply facade_step_ok; [done| |done]. unfold few. lia.
Qed.

Lemma facade_start_ok : facade_ok 0 facade_start.
Proof.
  split; try done.
  - intros l1 e l2 E. by destruct l1.
Qed.

Lemma facade_reachable sts s :
  facade_run sts facade_start = Some s -> (Z.of_nat (length sts) < u64_max)%Z -> facade_ok (length sts) s.
Proof. intros Hr Hn. by apply (facade_run_ok sts 0 facade_start s facade_start_ok). Qed.

(** * What the store promises *)

(** C13: whatever calls run at once, every document an
    action publishes answers the revision the session was last shown at, and is the next
    one: no two actions apply to the same document, none is lost between them, and a
    session that is open is at the revision last published. *)
Theorem actions_apply_to_what_was_shown sts s :
  facade_run sts facade_start = Some s -> (Z.of_nat (length sts) < u64_max)%Z ->
  (forall l1 t sid expected rev l2, facade_log s = l1 ++ PublishedDocument t sid expected rev :: l2 ->
     expected = shown sid l1 /\ rev = (expected + 1)%Z)
  /\ (forall sid rec, sessions s !! sid = Some rec -> doc_revision (document sid rec) = shown sid (facade_log s)).
Proof.
  intros Hr Hn. pose proof (facade_reachable _ _ Hr Hn) as Hok. pose proof (ok_log _ _ Hok) as Hg. split.
  - intros l1 t sid expd rev l2 E. destruct (Hg _ _ _ E) as (-> & -> & _). rewrite E in Hg.
    by rewrite (shown_count _ _ (good_log_prefix _ _ Hg)).
  - intros sid rec Hs. rewrite shown_count by done. apply (ok_live _ _ Hok). by rewrite live_lookup, Hs.
Qed.

Lemma last_of_split t l e :
  last_of t l = Some e -> exists a b, l = a ++ e :: b /\ Forall (fun x => event_call x <> Some t) b.
Proof.
  induction l as [|x l IH] using rev_ind; [done|]. destruct (decide (event_call x = Some t)) as [E|E].
  - rewrite last_of_snoc by done. intros [= ->]. by exists l, [].
  - rewrite last_of_app by (by constructor). intros (a & b & -> & Hb)%IH. exists a, (b ++ [x]).
    rewrite <- app_assoc. split; [done|]. apply Forall_app_2; [done|]. by constructor.
Qed.

(** The call an event of publishing is of. *)
Definition publishing_call (e : FacadeEvent) : option nat :=
  match e with PublishedDocument t _ _ _ | OpenedSession t _ => Some t | _ => None end.

(** Once disabling a plugin has returned no call
    enters its guest until it is enabled again; and a document or a session comes out only
    after the flag was read up by the same call, with no guest call of its own in
    between. *)
Theorem disabled_plugins_are_not_entered sts s :
  facade_run sts facade_start = Some s -> (Z.of_nat (length sts) < u64_max)%Z ->
  (forall l1 t key l2, facade_log s = l1 ++ GuestEntered t key :: l2 -> disabled key l1 = false)
  /\ (forall l1 e t l2, facade_log s = l1 ++ e :: l2 -> publishing_call e = Some t ->
       exists a key b, l1 = a ++ CheckedEnabled t key :: b /\ disabled key a = false
         /\ Forall (fun x => event_call x <> Some t) b).
Proof.
  intros Hr Hn. pose proof (ok_log _ _ (facade_reachable _ _ Hr Hn)) as Hg. split.
  - intros l1 t key l2 E. exact (Hg _ _ _ E).
  - intros l1 e t l2 E Ht. pose proof (Hg _ _ _ E) as He.
    assert (Hw : was_checked t l1) by (destruct e; cbn in Ht; try done; injection Ht as ->; apply He).
    destruct Hw as [key (a & b & -> & Hb)%last_of_split]. exists a, key, b. split; [done|]. split; [|done].
    rewrite <- app_assoc in E. exact (Hg _ _ _ E).
Qed.

Lemma staged_own n s t key ids id rec :
  facade_ok n s -> calls s !! t = Some (Staged key ids) -> staged_sessions s !! id = Some rec ->
  (id ∈ ids <-> identity_key (plugin_id rec) = Some key).
Proof.
  intros Hok Hp Hr. split.
  - intros Hid. destruct (ok_fine _ _ Hok _ _ Hp) as [_ H]. apply (H id Hid). rewrite live_lookup, Hr.
    destruct (sessions s !! id) eqn:E; [|done]. pose proof (ok_disjoint _ _ Hok) as Hd. rewrite map_disjoint_spec in Hd.
    exfalso. eauto.
  - intros Hk. destruct (ok_staged _ _ Hok _ _ Hr) as (t' & k & l & Ht & Hin & Hk'). assert (k = key) as -> by congruence.
    assert (t' = t) as -> by (eapply (ok_locks _ _ Hok _ _ _ _ key); [done|done|by apply bool_decide_eq_true..]).
    congruence.
Qed.

(** While the removal of a plugin is staged, with whatever
    opened and closed meanwhile, ending it unfinished puts back every session of the
    plugin that is still staged and changes no other, committing it drops just those, and
    either way none of the plugin's is left aside. *)
Theorem staged_sessions_come_back sts s t key ids :
  facade_run sts facade_start = Some s -> (Z.of_nat (length sts) < u64_max)%Z ->
  calls s !! t = Some (Staged key ids) ->
  exists restored committed,
    facade_step (EndStaging t false) s = Some restored /\ facade_step (EndStaging t true) s = Some committed
    /\ sessions restored = sessions s ∪ own_sessions key (staged_sessions s)
    /\ sessions committed = sessions s
    /\ staged_sessions restored = staged_sessions s ∖ own_sessions key (staged_sessions s)
    /\ staged_sessions committed = staged_sessions restored.
Proof.
  intros Hr Hn Hp. pose proof (facade_reachable _ _ Hr Hn) as Hok. cbn [facade_step]. rewrite Hp. do 2 eexists.
  split; [done|]. split; [done|]. cbn [set_call sessions staged_sessions commit_staged set_staged].
  destruct (restore_staged_spec ids s) as (_ & _ & _ & _ & Hst & Hs).
  assert (Hown : forall id, (if decide (id ∈ ids) then None else staged_sessions s !! id)
                       = (staged_sessions s ∖ own_sessions key (staged_sessions s)) !! id).
  { intros id. rewrite lookup_difference, own_lookup. destruct (staged_sessions s !! id) as [rec|] eqn:E; [|by case_decide].
    pose proof (staged_own _ _ _ _ _ _ _ Hok Hp E). by repeat case_decide; try tauto. }
  split_and!; [|done| |]; apply map_eq; intros id.
  - rewrite Hs, lookup_union, own_lookup. pose proof (ok_disjoint _ _ Hok) as Hd. rewrite map_disjoint_spec in Hd.
    destruct (staged_sessions s !! id) as [rec|] eqn:E, (sessions s !! id) eqn:E2;
      [by destruct (Hd _ _ _ E2 E)| | |]; [|by case_decide..].
    pose proof (staged_own _ _ _ _ _ _ _ Hok Hp E). by repeat case_decide; try tauto.
  - by rewrite Hst, Hown.
  - by rewrite Hst, foldl_delete_lookup.
Qed.
End props.

(** * A plugin that is used, disabled and removed *)

Module PluginSessionExample.

#[export] Instance wirt : Wirt := {|
  Node := nat;
  Intent := nat;
  find_node n id := if str_eqb id §"off" then Some (true, false) else None;
  region_slug e := match e with Panel => §"panel" | _ => §"page" end;
  identity_key id := match id with [] => None | _ => Some id end
|}.

Definition plugin : str := §"tags".
Definition press (expected : Z) : PluginActionRequest := mk_action_request 1 expected §"go" Activate.
Definition answer : GuestAnswer := Acted (mk_bounded [7%nat] false []).

(** The plugin is loaded, a panel of it opened by call 0. *)
Definition opening : list FacadeStep :=
  [Registered plugin; Begin (OpenStart plugin Panel None); Go 0 GuestError; Go 0 GuestError;
   Go 0 (LaidOut 4%nat); Go 0 GuestError; Go 0 GuestError].
(** Call 1 presses a button, up to the publishing of the answer. *)
Definition pressing : list FacadeStep := Begin (ActStart (press 1)) :: repeat (Go 1 answer) 11.

(** Two presses of the same document: the second is refused. *)
Definition two_presses : list FacadeStep :=
  opening ++ pressing ++ [Go 1 answer; Begin (ActStart (press 1))] ++ repeat (Go 2 answer) 5.

Definition published : list Z := [2%Z].

Lemma actions_apply_to_what_was_shown_witness :
  exists s, facade_run two_presses facade_start = Some s
    /\ revisions 1 (facade_log s) = published /\ calls s !! 2%nat = Some (Refused StaleDocument)
    /\ (forall sid rec, sessions s !! sid = Some rec -> doc_revision (document sid rec) = shown sid (facade_log s)).
Proof.
  destruct (facade_run two_presses facade_start) as [s|] eqn:E; [|by vm_compute in E].
  exists s. split; [done|].
  assert (H : revisions 1 (facade_log s) = published /\ calls s !! 2%nat = Some (Refused StaleDocument))
    by (vm_compute in E; injection E as <-; split; reflexivity).
  split; [apply H|]. split; [apply H|].
  apply (actions_apply_to_what_was_shown two_presses s E). vm_compute. reflexivity.
Defined.

(** Disabled while a call is queued: it is refused. *)
Definition disabled_in_between : list FacadeStep :=
  opening ++ [Begin (ActStart (press 1)); Go 1 answer; Go 1 answer; SetPluginEnabled plugin false; Go 2 answer;
              Go 1 answer; Go 1 answer].

Lemma disabled_plugins_are_not_entered_witness :
  exists s, facade_run disabled_in_between facade_start = Some s
    /\ disabled plugin (facade_log s) = true /\ calls s !! 1%nat = Some (Refused PluginDisabled)
    /\ (forall l1 t key l2, facade_log s = l1 ++ GuestEntered t key :: l2 -> disabled key l1 = false).
Proof.
  destruct (facade_run disabled_in_between facade_start) as [s|] eqn:E; [|by vm_compute in E].
  exists s. split; [done|].
  assert (H : disabled plugin (facade_log s) = true /\ calls s !! 1%nat = Some (Refused PluginDisabled))
    by (vm_compute in E; injection E as <-; split; reflexivity).
  split; [apply H|]. split; [apply H|].
  apply (disabled_plugins_are_not_entered disabled_in_between s E). vm_compute. reflexivity.
Defined.

Definition staging : list FacadeStep := opening ++ [Begin (StageStart plugin); Go 1 GuestError].

Lemma staged_sessions_come_back_witness :
  exists s restored, facade_run staging facade_start = Some s
    /\ facade_step (EndStaging 1 false) s = Some restored
    /\ sessions s !! 1%Z = None /\ is_Some (staged_sessions s !! 1%Z)
    /\ sessions restored = sessions s ∪ own_sessions plugin (staged_sessions s).
Proof.
  destruct (facade_run staging facade_start) as [s|] eqn:E; [|by vm_compute in E]. exists s.
  assert (H : calls s !! 1%nat = Some (Staged plugin [1%Z]) /\ sessions s !! 1%Z = None /\ is_Some (staged_sessions s !! 1%Z))
    by (vm_compute in E; injection E as <-; split; [reflexivity|split; [reflexivity|eexists; reflexivity]]).
  destruct H as (Hc & Hs & Hst).
  destruct (staged_sessions_come_back staging s 1 plugin [1%Z] E ltac:(vm_compute; reflexivity) Hc)
    as (restored & committed & Hr & _ & Hrest & _).
  exists restored. auto.
Defined.

(** A call that has read the flag for the last time publishes
    its document after disabling the plugin has returned, and a session is registered the
    same way; nothing enabled the plugin in between. *)
Theorem document_after_disable :
  (exists s l, facade_run (opening ++ pressing ++ [SetPluginEnabled plugin false; Go 2 answer; Go 1 answer]) facade_start = Some s
     /\ facade_log s = l ++ [DisableReturned plugin; PublishedDocument 1 1 1 2])
  /\ (exists s l, facade_run (take 6 opening ++ [SetPluginEnabled plugin false; Go 1 answer; Go 0 GuestError]) facade_start = Some s
       /\ facade_log s = l ++ [DisableReturned plugin; OpenedSession 0 1] /\ is_Some (sessions s !! 1%Z)).
Proof.
  split.
  - destruct (facade_run _ facade_start) as [s|] eqn:E; [|by vm_compute in E].
    exists s. eexists (take 11 (facade_log s)). split; [done|]. vm_compute in E. injection E as <-. reflexivity.
  - destruct (facade_run _ facade_start) as [s|] eqn:E; [|by vm_compute in E].
    exists s. eexists (take 4 (facade_log s)). split; [done|]. vm_compute in E. injection E as <-.
    split; [reflexivity|eexists; reflexivity].
Qed.
End PluginSessionExample.
