(* ===== verification/PluginSlots.v ===== *)
(** The plugin documents a window shows ([PluginSessions] of
    [crates/ui/src/features/plugins/application/facade_sessions.rs]): a slot per place
    where a plugin draws, the session of the application behind it, and the operations
    started against it.

    The registry is behind one mutex, so a method between two awaits is one step. What is
    in flight outside it (an open, the start of an action, a probe, a close) is kept
    beside it, with the sessions the application has open; a step lets one of these land,
    in any order. [lost] is not in the program: it records the sessions that are still
    open in the application and that no slot, probe or close refers to any more, with
    where that happened. *)

From stdpp Require Import base tactics option list gmap strings.
From Stdlib Require Import ZArith Lia.
From S2P Require Import Prelude Text AppError PluginSession.

#[local] Arguments String.list_ascii_of_string : simpl never.
Open Scope arclain_scope.

Inductive PluginSlot :=
| MainPageSlot (plugin : str)
| PluginButtonSlot (plugin : str)
| PanelSlot (plugin : str) (tab : Z) (archive_session : option Z)
| DialogSlot (plugin dialog : str) (tab : Z)
| PageSlot (plugin page : str) (tab : Z).

#[export] Instance PluginSlot_eq_dec : EqDecision PluginSlot.
Proof. solve_decision. Defined.

#[export] Instance PluginSlot_countable : Countable PluginSlot.
Proof.
  refine (inj_countable'
    (fun s => match s with
     | MainPageSlot p => inl (inl p)
     | PluginButtonSlot p => inl (inr p)
     | PanelSlot p t a => inr (inl (p, t, a))
     | DialogSlot p d t => inr (inr (inl (p, d, t)))
     | PageSlot p g t => inr (inr (inr (p, g, t)))
     end)
    (fun c => match c with
     | inl (inl p) => MainPageSlot p
     | inl (inr p) => PluginButtonSlot p
     | inr (inl (p, t, a)) => PanelSlot p t a
     | inr (inr (inl (p, d, t))) => DialogSlot p d t
     | inr (inr (inr (p, g, t))) => PageSlot p g t
     end) _). by intros [].
Defined.

Definition slot_plugin (s : PluginSlot) : str :=
  match s with
  | MainPageSlot p | PluginButtonSlot p | PanelSlot p _ _ | DialogSlot p _ _ | PageSlot p _ _ => p
  end.

Definition slot_archive_session (s : PluginSlot) : option Z :=
  match s with PanelSlot _ _ a => a | _ => None end.

Definition slot_tab (s : PluginSlot) : option Z :=
  match s with
  | MainPageSlot _ | PluginButtonSlot _ => None
  | PanelSlot _ t _ | DialogSlot _ _ t | PageSlot _ _ t => Some t
  end.

Definition slot_extension_point (s : PluginSlot) : PluginExtensionPoint :=
  match s with
  | MainPageSlot _ => MainPage
  | PluginButtonSlot _ => PluginButton
  | PanelSlot _ _ _ => Panel
  | DialogSlot _ d _ => Dialog d
  | PageSlot _ g _ => Page g
  end.

Inductive ActionPurpose := Interaction | PageInit.
Inductive ProbeState := Pending | Answered (offered : bool).
Inductive LossReason := SlotClosedMeanwhile | OpenedOver | StartRefused.

#[export] Instance ActionPurpose_eq_dec : EqDecision ActionPurpose.
Proof. solve_decision. Defined.

Section slots.
Context `{W : Wirt}.

Inductive SlotPhase :=
| Opening
| Open (session : Z) (d : PluginUiDocument)
| Failed (why : str).

Record SlotState := mk_slot { phase : SlotPhase; inflight : list Z }.

Definition slot_session (s : SlotState) : option Z :=
  match phase s with Open sid _ => Some sid | Opening | Failed _ => None end.

Definition slot_revision (s : SlotState) : Z :=
  match phase s with Open _ d => doc_revision d | Opening | Failed _ => 0 end.

Inductive SlotView := ViewOpening | ViewReady (d : PluginUiDocument) | ViewFailed (why : str).

Definition view_of (s : SlotState) : SlotView :=
  match phase s with Opening => ViewOpening | Open _ d => ViewReady d | Failed why => ViewFailed why end.

Record TrackedOperation := mk_tracked { tracked_slot : PluginSlot; purpose : ActionPurpose }.

Record PluginUiUpdate := mk_update { update_document : PluginUiDocument; update_intents : list Intent }.

Record AppliedUpdate := mk_applied {
  applied_slot : PluginSlot;
  applied_document : PluginUiDocument;
  applied_intents : list Intent;
  applied_page_init : bool
}.

(** A task of [probe_extension_point]: before its session is there, and with it. *)
Inductive ProbeTask := ProbeOpening (key : str * str) | ProbeOpened (key : str * str) (sid : Z) (offered : bool).

Record SlotWorld := mk_world {
  slots : gmap PluginSlot SlotState;
  probes : gmap (str * str) ProbeState;
  operations : gmap Z TrackedOperation;
  opens : list PluginSlot;                         (** [spawn_open] *)
  starts : list (PluginSlot * ActionPurpose);      (** [start_plugin_action] awaited *)
  probing : list ProbeTask;
  closes : gset Z;                                 (** [close_plugin_session] spawned *)
  open_sessions : gset Z;                          (** of the application *)
  next_session : Z;
  next_operation : Z;
  lost : list (Z * LossReason)
}.

Definition with_slots (v : gmap PluginSlot SlotState) (w : SlotWorld) : SlotWorld :=
  mk_world v (probes w) (operations w) (opens w) (starts w) (probing w) (closes w) (open_sessions w)
    (next_session w) (next_operation w) (lost w).
Definition with_probes (v : gmap (str * str) ProbeState) (w : SlotWorld) : SlotWorld :=
  mk_world (slots w) v (operations w) (opens w) (starts w) (probing w) (closes w) (open_sessions w)
    (next_session w) (next_operation w) (lost w).
Definition with_operations (v : gmap Z TrackedOperation) (w : SlotWorld) : SlotWorld :=
  mk_world (slots w) (probes w) v (opens w) (starts w) (probing w) (closes w) (open_sessions w)
    (next_session w) (next_operation w) (lost w).
Definition with_opens (v : list PluginSlot) (w : SlotWorld) : SlotWorld :=
  mk_world (slots w) (probes w) (operations w) v (starts w) (probing w) (closes w) (open_sessions w)
    (next_session w) (next_operation w) (lost w).
Definition with_starts (v : list (PluginSlot * ActionPurpose)) (w : SlotWorld) : SlotWorld :=
  mk_world (slots w) (probes w) (operations w) (opens w) v (probing w) (closes w) (open_sessions w)
    (next_session w) (next_operation w) (lost w).
Definition with_probing (v : list ProbeTask) (w : SlotWorld) : SlotWorld :=
  mk_world (slots w) (probes w) (operations w) (opens w) (starts w) v (closes w) (open_sessions w)
    (next_session w) (next_operation w) (lost w).
Definition with_closes (v : gset Z) (w : SlotWorld) : SlotWorld :=
  mk_world (slots w) (probes w) (operations w) (opens w) (starts w) (probing w) v (open_sessions w)
    (next_session w) (next_operation w) (lost w).
Definition with_open_sessions (v : gset Z) (w : SlotWorld) : SlotWorld :=
  mk_world (slots w) (probes w) (operations w) (opens w) (starts w) (probing w) (closes w) v
    (next_session w) (next_operation w) (lost w).
Definition lose (sid : option Z) (why : LossReason) (w : SlotWorld) : SlotWorld :=
  match sid with
  | Some sid =>
      mk_world (slots w) (probes w) (operations w) (opens w) (starts w) (probing w) (closes w) (open_sessions w)
        (next_session w) (next_operation w) (lost w ++ [(sid, why)])
  | None => w
  end.

(** A session the application opens, under an id it has not given out. *)
Definition mint_session (w : SlotWorld) : Z * SlotWorld :=
  (next_session w,
   mk_world (slots w) (probes w) (operations w) (opens w) (starts w) (probing w) (closes w)
     ({[next_session w]} ∪ open_sessions w) (next_session w + 1) (next_operation w) (lost w)).

Definition mint_operation (w : SlotWorld) : Z * SlotWorld :=
  (next_operation w,
   mk_world (slots w) (probes w) (operations w) (opens w) (starts w) (probing w) (closes w) (open_sessions w)
     (next_session w) (next_operation w + 1) (lost w)).

(** * The methods *)

Definition view (slot : PluginSlot) (w : SlotWorld) : SlotView * SlotWorld :=
  match slots w !! slot with
  | Some st => (view_of st, w)
  | None => (ViewOpening, with_opens (opens w ++ [slot]) (with_slots (<[slot := mk_slot Opening []]> (slots w)) w))
  end.

(** [opened]: a slot that is gone keeps nothing of the session, and one that has a
    session already gets the new one. *)
Definition opened (slot : PluginSlot) (sid : Z) (d : PluginUiDocument) (w : SlotWorld) : SlotWorld :=
  match slots w !! slot with
  | None => lose (Some sid) SlotClosedMeanwhile w
  | Some st =>
      with_slots (<[slot := mk_slot (Open sid d) (inflight st)]> (slots w))
        (lose (slot_session st) OpenedOver w)
  end.

Definition set_failed (slot : PluginSlot) (why : str) (reason : LossReason) (w : SlotWorld) : SlotWorld :=
  match slots w !! slot with
  | None => w
  | Some st => with_slots (<[slot := mk_slot (Failed why) (inflight st)]> (slots w)) (lose (slot_session st) reason w)
  end.

Definition slot_is_open (slot : PluginSlot) (w : SlotWorld) : bool :=
  match slots w !! slot with Some st => bool_decide (is_Some (slot_session st)) | None => false end.

Definition track_with_purpose (slot : PluginSlot) (op : Z) (why : ActionPurpose) (w : SlotWorld) : SlotWorld :=
  match slots w !! slot with
  | None => w
  | Some st =>
      with_slots (<[slot := mk_slot (phase st) (inflight st ++ [op])]> (slots w))
        (with_operations (<[op := mk_tracked slot why]> (operations w)) w)
  end.

Definition drain (op : Z) (l : list Z) : list Z := filter (fun x => x <> op) l.

Definition apply_update (op : Z) (u : PluginUiUpdate) (w : SlotWorld) : option AppliedUpdate * SlotWorld :=
  match operations w !! op with
  | None => (None, w)
  | Some tr =>
      let w := with_operations (delete op (operations w)) w in
      match slots w !! tracked_slot tr with
      | None => (None, w)
      | Some st =>
          let d := update_document u in
          let st := mk_slot (phase st) (drain op (inflight st)) in
          let drained := with_slots (<[tracked_slot tr := st]> (slots w)) w in
          if negb (bool_decide (slot_session st = Some (doc_session d))) then (None, drained)
          else if (doc_revision d <=? slot_revision st)%Z then (None, drained)
          else
            (Some (mk_applied (tracked_slot tr) d (update_intents u) (bool_decide (purpose tr = PageInit))),
             with_slots (<[tracked_slot tr := mk_slot (Open (doc_session d) d) (inflight st)]> (slots w)) w)
      end
  end.

Definition fail_with_context (op : Z) (w : SlotWorld) : option TrackedOperation * SlotWorld :=
  match operations w !! op with
  | None => (None, w)
  | Some tr =>
      let w := with_operations (delete op (operations w)) w in
      (Some tr,
       match slots w !! tracked_slot tr with
       | None => w
       | Some st => with_slots (<[tracked_slot tr := mk_slot (phase st) (drain op (inflight st))]> (slots w)) w
       end)
  end.

Definition close (slot : PluginSlot) (w : SlotWorld) : SlotWorld :=
  match slots w !! slot with
  | None => w
  | Some st =>
      let w := with_operations (foldl (fun m op => delete op m) (operations w) (inflight st))
                 (with_slots (delete slot (slots w)) w) in
      match slot_session st with
      | Some sid => with_closes ({[sid]} ∪ closes w) w
      | None => w
      end
  end.

Definition slots_matching (P : PluginSlot -> bool) (w : SlotWorld) : list PluginSlot :=
  filter (fun s => P s) (map_to_list (slots w)).*1.

Definition close_matching (P : PluginSlot -> bool) (w : SlotWorld) : SlotWorld :=
  foldl (fun w s => close s w) w (slots_matching P w).

Definition close_tab (tab : Z) : SlotWorld -> SlotWorld :=
  close_matching (fun s => bool_decide (slot_tab s = Some tab)).

Definition close_plugin (plugin : str) (w : SlotWorld) : SlotWorld :=
  let w := close_matching (fun s => bool_decide (slot_plugin s = plugin)) w in
  with_probes (filter (fun p => p.1.1 <> plugin) (probes w)) w.

(** A slot without a host: its tab is closed, or shows another archive than the panel is
    of. *)
Definition hostless (open_tabs : list (Z * option Z)) (s : PluginSlot) : bool :=
  match slot_tab s with
  | None => false
  | Some tab =>
      match find (fun p => (p.1 =? tab)%Z) open_tabs with
      | None => true
      | Some (_, archive) =>
          match s with PanelSlot _ _ a => negb (bool_decide (a = archive)) | _ => false end
      end
  end.

Definition retain_hosts (open_tabs : list (Z * option Z)) : SlotWorld -> SlotWorld := close_matching (hostless open_tabs).

Definition retain_open_dialog (keep : option PluginSlot) : SlotWorld -> SlotWorld :=
  close_matching (fun s => match s with DialogSlot _ _ _ => negb (bool_decide (Some s = keep)) | _ => false end).

Definition retain_open_page (keep : option PluginSlot) : SlotWorld -> SlotWorld :=
  close_matching (fun s => match s with PageSlot _ _ _ => negb (bool_decide (Some s = keep)) | _ => false end).

Definition probe_extension_point (plugin : str) (e : PluginExtensionPoint) (w : SlotWorld) : option bool * SlotWorld :=
  let key := (plugin, region_slug e) in
  match probes w !! key with
  | Some (Answered offered) => (Some offered, w)
  | Some Pending => (None, w)
  | None => (None, with_probing (probing w ++ [ProbeOpening key]) (with_probes (<[key := Pending]> (probes w)) w))
  end.

(** * What lands *)

Inductive SlotStep :=
| View (slot : PluginSlot)
| OpenLands (i : nat) (n : Node)
| OpenFails (i : nat) (why : str)
| StartAction (slot : PluginSlot) (why : ActionPurpose)
| StartAccepted (i : nat)
| StartRejected (i : nat) (why : str)
| ActionUpdated (op : Z) (u : PluginUiUpdate)
| ActionEnded (op : Z)
| Close (slot : PluginSlot)
| CloseTab (tab : Z)
| ClosePlugin (plugin : str)
| RetainHosts (open_tabs : list (Z * option Z))
| RetainOpenDialog (keep : option PluginSlot)
| RetainOpenPage (keep : option PluginSlot)
| Probe (plugin : str) (e : PluginExtensionPoint)
| ProbeLands (i : nat) (offered : bool)
| ProbeFails (i : nat)
| CloseLands (sid : Z).

(** The document of a session just opened. *)
Definition first_document (slot : PluginSlot) (sid : Z) (n : Node) : PluginUiDocument :=
  document sid (mk_record (slot_plugin slot) (slot_extension_point slot) (region_slug (slot_extension_point slot)) 1 n
                  (slot_archive_session slot)).

Definition answered (key : str * str) (offered : bool) (w : SlotWorld) : SlotWorld :=
  with_probes (<[key := Answered offered]> (probes w)) w.

Definition drop_nth {A} (i : nat) (l : list A) : list A := take i l ++ drop (S i) l.

Definition slot_step (st : SlotStep) (w : SlotWorld) : option SlotWorld :=
  match st with
  | View slot => Some (view slot w).2
  | OpenLands i n =>
      slot ← opens w !! i;
      let '(sid, w) := mint_session (with_opens (drop_nth i (opens w)) w) in
      Some (opened slot sid (first_document slot sid n) w)
  | OpenFails i why =>
      slot ← opens w !! i;
      Some (set_failed slot why OpenedOver (with_opens (drop_nth i (opens w)) w))
  | StartAction slot why => if slot_is_open slot w then Some (with_starts (starts w ++ [(slot, why)]) w) else Some w
  | StartAccepted i =>
      p ← starts w !! i;
      let '(op, w) := mint_operation (with_starts (drop_nth i (starts w)) w) in
      Some (track_with_purpose p.1 op p.2 w)
  | StartRejected i why =>
      p ← starts w !! i;
      Some (set_failed p.1 why StartRefused (with_starts (drop_nth i (starts w)) w))
  | ActionUpdated op u => Some (apply_update op u w).2
  | ActionEnded op => Some (fail_with_context op w).2
  | Close slot => Some (close slot w)
  | CloseTab tab => Some (close_tab tab w)
  | ClosePlugin plugin => Some (close_plugin plugin w)
  | RetainHosts tabs => Some (retain_hosts tabs w)
  | RetainOpenDialog keep => Some (retain_open_dialog keep w)
  | RetainOpenPage keep => Some (retain_open_page keep w)
  | Probe plugin e => Some (probe_extension_point plugin e w).2
  | ProbeLands i offered =>
      t ← probing w !! i;
      match t with
      | ProbeOpening key =>
          let '(sid, w) := mint_session w in
          Some (with_probing (<[i := ProbeOpened key sid offered]> (probing w)) w)
      | ProbeOpened key sid offered =>
          Some (answered key offered
                  (with_open_sessions (open_sessions w ∖ {[sid]}) (with_probing (drop_nth i (probing w)) w)))
      end
  | ProbeFails i =>
      t ← probing w !! i;
      match t with
      | ProbeOpening key => Some (answered key false (with_probing (drop_nth i (probing w)) w))
      | ProbeOpened _ _ _ => None
      end
  | CloseLands sid =>
      if bool_decide (sid ∈ closes w)
      then Some (with_open_sessions (open_sessions w ∖ {[sid]}) (with_closes (closes w ∖ {[sid]}) w)) else None
  end.

Fixpoint slot_run (sts : list SlotStep) (w : SlotWorld) : option SlotWorld :=
  match sts with
  | [] => Some w
  | st :: sts' => w' ← slot_step st w; slot_run sts' w'
  end.

Definition slots_start : SlotWorld := mk_world ∅ ∅ ∅ [] [] [] ∅ ∅ 1 1 [].
End slots.
