(* ===== verification/PluginSlotsProps.v ===== *)
(** What the slot registry promises: the index of operations and the slots agree, every
    session the application has open is a slot's, a probe's, about to be closed or one of
    those counted as lost, updates may arrive in any order, and a sweep closes just what
    has no host. Also the three ways a session is lost. *)

From stdpp Require Import base tactics option list gmap strings.
From Stdlib Require Import ZArith Lia.
From S2P Require Import Prelude Text AppError PluginSession PluginSlots.

#[local] Arguments String.list_ascii_of_string : simpl never.
#[local] Opaque String.list_ascii_of_string.
Open Scope arclain_scope.

Section props.
Context `{W : Wirt}.
Implicit Types (w : SlotWorld) (s : PluginSlot) (st : SlotState).

(** * The index of operations *)

Record index_ok w : Prop := {
  ok_tracked : forall op tr, operations w !! op = Some tr ->
    exists st, slots w !! tracked_slot tr = Some st /\ op ∈ inflight st;
  ok_inflight : forall s st op, slots w !! s = Some st -> op ∈ inflight st ->
    exists why, operations w !! op = Some (mk_tracked s why);
  ok_nodup : forall s st, slots w !! s = Some st -> NoDup (inflight st);
  ok_old : forall op tr, operations w !! op = Some tr -> (op < next_operation w)%Z
}.

Lemma drain_elem x op l : x ∈ drain op l <-> x ∈ l /\ x <> op.
Proof. unfold drain. rewrite list_elem_of_filter. tauto. Qed.

(** Only phases change. *)
Lemma index_phase w w' s st p :
  index_ok w -> slots w !! s = Some st -> slots w' = <[s := mk_slot p (inflight st)]> (slots w) ->
  operations w' = operations w -> next_operation w' = next_operation w -> index_ok w'.
Proof.
  intros Hok Hs Hs' Ho Hn.
  assert (Hback : forall s' st', slots w' !! s' = Some st' -> exists st0, slots w !! s' = Some st0 /\ inflight st' = inflight st0).
  { intros s' st'. rewrite Hs'. destruct (decide (s' = s)) as [-> | Hne]; [rewrite lookup_insert_eq|rewrite lookup_insert_ne by done];
      [intros [= <-]|]; eauto. }
  split; rewrite ?Ho, ?Hn; [| | |apply (ok_old _ Hok)].
  - intros op tr H. destruct (ok_tracked _ Hok _ _ H) as (st0 & H0 & Hin). rewrite Hs'.
    destruct (decide (tracked_slot tr = s)) as [E | Hne]; [|rewrite lookup_insert_ne by done; eauto].
    rewrite E in *. rewrite lookup_insert_eq. eexists. split; [done|]. cbn. by replace st with st0 by congruence.
  - intros s' st' op (st0 & H0 & ->)%Hback Hin. eapply (ok_inflight _ Hok); eauto.
  - intros s' st' (st0 & H0 & ->)%Hback. by eapply (ok_nodup _ Hok).
Qed.

Lemma index_same w w' :
  index_ok w -> slots w' = slots w -> operations w' = operations w -> next_operation w' = next_operation w -> index_ok w'.
Proof. intros [] Hs Ho Hn. split; by rewrite ?Hs, ?Ho, ?Hn. Qed.

Lemma index_view w s : index_ok w -> slots w !! s = None -> index_ok (view s w).2.
Proof.
  intros Hok Hs. unfold view. rewrite Hs. cbn. split; cbn [slots operations next_operation with_opens with_slots].
  - intros op tr H. destruct (ok_tracked _ Hok _ _ H) as (st & H0 & Hin). exists st. split; [|done].
    rewrite lookup_insert_ne; [done|congruence].
  - intros s' st' op. destruct (decide (s' = s)) as [-> | Hne]; [rewrite lookup_insert_eq|rewrite lookup_insert_ne by done].
    + intros [= <-] H. by apply elem_of_nil in H.
    + apply (ok_inflight _ Hok).
  - intros s' st'. destruct (decide (s' = s)) as [-> | Hne]; [rewrite lookup_insert_eq|rewrite lookup_insert_ne by done].
    + intros [= <-]. apply NoDup_nil_2.
    + apply (ok_nodup _ Hok).
  - apply (ok_old _ Hok).
Qed.

Lemma index_track w s why :
  index_ok w -> index_ok (track_with_purpose s (mint_operation w).1 why (mint_operation w).2).
Proof.
  intros Hok. unfold track_with_purpose. cbn [mint_operation fst snd slots].
  destruct (slots w !! s) as [st|] eqn:Hs; [|split; cbn; [apply Hok..|]; intros op tr H; apply (ok_old _ Hok) in H; lia].
  set (op := next_operation w).
  assert (Hnew : operations w !! op = None).
  { destruct (operations w !! op) eqn:E; [|done]. apply (ok_old _ Hok) in E. unfold op in E. lia. }
  split; cbn [slots operations next_operation with_operations with_slots mint_operation].
  - intros o tr. destruct (decide (o = op)) as [-> | Hne]; [rewrite lookup_insert_eq|rewrite lookup_insert_ne by done].
    + intros [= <-]. cbn. rewrite lookup_insert_eq. eexists. split; [done|]. cbn. set_solver.
    + intros H. destruct (ok_tracked _ Hok _ _ H) as (st0 & H0 & Hin).
      destruct (decide (tracked_slot tr = s)) as [E | Hns]; [|rewrite lookup_insert_ne by done; eauto].
      rewrite E in *. rewrite lookup_insert_eq. eexists. split; [done|]. cbn. replace st with st0 by congruence. set_solver.
  - intros s' st' o. destruct (decide (s' = s)) as [-> | Hns]; [rewrite lookup_insert_eq|rewrite lookup_insert_ne by done].
    + intros [= <-] Hin. cbn in Hin. apply elem_of_app in Hin as [Hin| ->%list_elem_of_singleton].
      * destruct (ok_inflight _ Hok _ _ _ Hs Hin) as [why' H]. exists why'. rewrite lookup_insert_ne; [done|congruence].
      * exists why. by rewrite lookup_insert_eq.
    + intros H Hin. destruct (ok_inflight _ Hok _ _ _ H Hin) as [why' H']. exists why'. rewrite lookup_insert_ne; [done|congruence].
  - intros s' st'. destruct (decide (s' = s)) as [-> | Hns]; [rewrite lookup_insert_eq|rewrite lookup_insert_ne by done; apply (ok_nodup _ Hok)].
    intros [= <-]. cbn. apply NoDup_app. split_and!; [by eapply (ok_nodup _ Hok)| |apply NoDup_singleton].
    intros x Hx ->%list_elem_of_singleton. destruct (ok_inflight _ Hok _ _ _ Hs Hx) as [? H]. congruence.
  - intros o tr. destruct (decide (o = op)) as [-> | Hne]; [intros _; unfold op; lia|rewrite lookup_insert_ne by done].
    intros H. apply (ok_old _ Hok) in H. lia.
Qed.

(** An operation that has ended is gone from both sides. *)
Lemma index_drain w w' op tr st p :
  index_ok w -> operations w !! op = Some tr -> slots w !! tracked_slot tr = Some st ->
  operations w' = delete op (operations w) ->
  slots w' = <[tracked_slot tr := mk_slot p (drain op (inflight st))]> (slots w) ->
  next_operation w' = next_operation w -> index_ok w'.
Proof.
  intros Hok Hop Hs Ho Hs' Hn. split; rewrite ?Ho, ?Hs', ?Hn.
  - intros o tr'. destruct (decide (o = op)) as [-> | Hne]; [by rewrite lookup_delete_eq|rewrite lookup_delete_ne by done].
    intros H. destruct (ok_tracked _ Hok _ _ H) as (st0 & H0 & Hin).
    destruct (decide (tracked_slot tr' = tracked_slot tr)) as [E | Hns]; [|rewrite lookup_insert_ne by done; eauto].
    rewrite E in *. rewrite lookup_insert_eq. eexists. split; [done|]. cbn. apply drain_elem.
    by replace st with st0 by congruence.
  - intros s' st' o. destruct (decide (s' = tracked_slot tr)) as [-> | Hns]; [rewrite lookup_insert_eq|rewrite lookup_insert_ne by done].
    + intros [= <-] [Hin Hne]%drain_elem. rewrite lookup_delete_ne by done. by eapply (ok_inflight _ Hok).
    + intros H Hin. destruct (ok_inflight _ Hok _ _ _ H Hin) as [why H']. exists why. rewrite lookup_delete_ne; [done|].
      intros ->. rewrite H' in Hop. injection Hop as <-. done.
  - intros s' st'. destruct (decide (s' = tracked_slot tr)) as [-> | Hns];
      [rewrite lookup_insert_eq|rewrite lookup_insert_ne by done; apply (ok_nodup _ Hok)].
    intros [= <-]. apply NoDup_filter. by eapply (ok_nodup _ Hok).
  - intros o tr'. destruct (decide (o = op)) as [-> | Hne]; [by rewrite lookup_delete_eq|rewrite lookup_delete_ne by done].
    apply (ok_old _ Hok).
Qed.

Lemma foldl_delete {A} (l : list Z) (m : gmap Z A) x :
  foldl (fun m op => delete op m) m l !! x = if decide (x ∈ l) then None else m !! x.
Proof.
  revert m. induction l as [|i l IH]; intros m; cbn [foldl]; [done|]. rewrite IH.
  destruct (decide (i = x)) as [-> | Hne].
  - rewrite lookup_delete_eq. by repeat case_decide; try set_solver.
  - rewrite lookup_delete_ne by done. by repeat case_decide; try set_solver.
Qed.

Lemma close_lookups w s :
  (forall s', slots (close s w) !! s' = if decide (s' = s) then None else slots w !! s')
  /\ (forall op, operations (close s w) !! op
        = match slots w !! s with
          | Some st => if decide (op ∈ inflight st) then None else operations w !! op
          | None => operations w !! op
          end)
  /\ next_operation (close s w) = next_operation w /\ next_session (close s w) = next_session w
  /\ open_sessions (close s w) = open_sessions w /\ lost (close s w) = lost w /\ probing (close s w) = probing w
  /\ closes (close s w) = match slots w !! s ≫= slot_session with Some sid => {[sid]} ∪ closes w | None => closes w end.
Proof.
  unfold close. destruct (slots w !! s) as [st|] eqn:Hs; cbn [mbind option_bind].
  - destruct (slot_session st); cbn; split_and!; try done; try (intros op; apply foldl_delete).
    all: intros s'; case_decide as E; [subst; apply lookup_delete_eq|by apply lookup_delete_ne].
  - split_and!; try done. intros s'. case_decide as E; [by subst|done].
Qed.

Lemma index_close w s : index_ok w -> index_ok (close s w).
Proof.
  intros Hok. destruct (close_lookups w s) as (Hs & Ho & Hn & _). split; rewrite ?Hn.
  - intros op tr. rewrite Ho. intros H.
    assert (H' : operations w !! op = Some tr) by (destruct (slots w !! s); [by case_decide|done]).
    destruct (ok_tracked _ Hok _ _ H') as (st0 & H0 & Hin). exists st0. split; [|done]. rewrite Hs.
    case_decide as E; [|done]. subst s. rewrite H0 in H. by rewrite decide_True in H.
  - intros s' st' op. rewrite Hs. case_decide as E; [done|]. intros H Hin.
    destruct (ok_inflight _ Hok _ _ _ H Hin) as [why H']. exists why. rewrite Ho.
    destruct (slots w !! s) as [st|] eqn:E'; [|done]. case_decide as Hd; [|done].
    destruct (ok_inflight _ Hok _ _ _ E' Hd) as [why' H'']. congruence.
  - intros s' st'. rewrite Hs. case_decide; [done|]. apply (ok_nodup _ Hok).
  - intros op tr. rewrite Ho. intros H. apply (ok_old _ Hok op tr). destruct (slots w !! s); [by case_decide|done].
Qed.

(** * Whose a session is *)

Inductive Holder := BySlot (s : PluginSlot) | ByProbe | ByClose | ByNobody.

Definition probe_session (t : ProbeTask) : option Z :=
  match t with ProbeOpening _ => None | ProbeOpened _ sid _ => Some sid end.
Definition probe_sessions w : list Z := omap probe_session (probing w).

Definition holds w (sid : Z) (h : Holder) : Prop :=
  match h with
  | BySlot s => exists st, slots w !! s = Some st /\ slot_session st = Some sid
  | ByProbe => sid ∈ probe_sessions w
  | ByClose => sid ∈ closes w
  | ByNobody => sid ∈ (lost w).*1
  end.

Record owned (f : Z -> option Holder) w : Prop := {
  own_holds : forall sid h, holds w sid h <-> f sid = Some h;
  own_open : forall sid, sid ∈ open_sessions w <-> is_Some (f sid);
  own_old : forall sid, is_Some (f sid) -> (sid < next_session w)%Z;
  own_nodup : NoDup (probe_sessions w)
}.
Definition owners_ok w : Prop := exists f, owned f w.

Definition redirect (f : Z -> option Holder) (x : Z) (o : option Holder) : Z -> option Holder :=
  fun y => if decide (y = x) then o else f y.

Lemma redirect_eq f x o : redirect f x o x = o.
Proof. unfold redirect. by rewrite decide_True. Qed.

Lemma redirect_ne f x o y : y <> x -> redirect f x o y = f y.
Proof. intros H. unfold redirect. by rewrite decide_False. Qed.

(** One session changes hands. *)
Lemma owned_redirect f w w' x o :
  owned f w ->
  (forall sid h, sid <> x -> holds w' sid h <-> holds w sid h) ->
  (forall h, holds w' x h <-> o = Some h) ->
  (forall sid, sid <> x -> sid ∈ open_sessions w' <-> sid ∈ open_sessions w) ->
  (x ∈ open_sessions w' <-> is_Some o) ->
  (next_session w <= next_session w')%Z -> (is_Some o -> (x < next_session w')%Z) ->
  NoDup (probe_sessions w') -> owned (redirect f x o) w'.
Proof.
  intros Hok Hother Hx Hopen Hox Hn Hlt Hnd. split; [| | |done].
  - intros sid h. destruct (decide (sid = x)) as [-> | Hne]; [rewrite redirect_eq; apply Hx|].
    rewrite redirect_ne, Hother by done. apply (own_holds _ _ Hok).
  - intros sid. destruct (decide (sid = x)) as [-> | Hne]; [by rewrite redirect_eq|].
    rewrite redirect_ne, Hopen by done. apply (own_open _ _ Hok).
  - intros sid. destruct (decide (sid = x)) as [-> | Hne]; [by rewrite redirect_eq|].
    rewrite redirect_ne by done. intros H. apply (own_old _ _ Hok) in H. lia.
Qed.

Lemma owned_same f w w' :
  owned f w -> (forall sid h, holds w' sid h <-> holds w sid h) -> open_sessions w' = open_sessions w ->
  next_session w' = next_session w -> NoDup (probe_sessions w') -> owned f w'.
Proof.
  intros Hok Hh Ho Hn Hnd. split; [| | |done]; rewrite ?Ho, ?Hn.
  - intros sid h. rewrite Hh. apply (own_holds _ _ Hok).
  - apply (own_open _ _ Hok).
  - apply (own_old _ _ Hok).
Qed.

Lemma owned_one f w sid h h' : owned f w -> holds w sid h -> holds w sid h' -> h = h'.
Proof. intros Hok H%(own_holds _ _ Hok) H'%(own_holds _ _ Hok). congruence. Qed.

Lemma owned_held f w sid h : owned f w -> holds w sid h -> sid ∈ open_sessions w /\ (sid < next_session w)%Z.
Proof.
  intros Hok H%(own_holds _ _ Hok). assert (is_Some (f sid)) by eauto.
  split; [by apply (own_open _ _ Hok)|by apply (own_old _ _ Hok)].
Qed.

(** A session that was not given out yet is nobody's. *)
Lemma owned_fresh f w h : owned f w -> ~ holds w (next_session w) h.
Proof. intros Hok H%(own_holds _ _ Hok). pose proof (own_old _ _ Hok (next_session w) ltac:(eauto)). lia. Qed.

Definition same_tasks w w' : Prop := probing w' = probing w /\ closes w' = closes w.

(** What a slot holds, when one slot changes. *)
Lemma holds_slot_insert w w' s st' sid s' :
  slots w' = <[s := st']> (slots w) ->
  holds w' sid (BySlot s') <-> (s' = s /\ slot_session st' = Some sid) \/ (s' <> s /\ holds w sid (BySlot s')).
Proof.
  intros Hs. cbn. rewrite Hs. destruct (decide (s' = s)) as [-> | Hne].
  - rewrite lookup_insert_eq. split; [intros (st & [= <-] & H); auto|]. intros [[_ H]|[[] _]]; eauto.
  - rewrite lookup_insert_ne by done. split; [auto|]. intros [[]|[_ H]]; done.
Qed.

(** A slot lets go of its session and takes no other. *)
Lemma owned_drop f w s st st' why :
  owned f w -> slots w !! s = Some st -> slot_session st' = None ->
  owners_ok (with_slots (<[s := st']> (slots w)) (lose (slot_session st) why w)).
Proof.
  intros Hok Hs Hst'. destruct (slot_session st) as [x|] eqn:Ex; cbn [lose].
  - exists (redirect f x (Some ByNobody)). set (w' := with_slots _ _).
    assert (Hx : holds w x (BySlot s)) by (cbn; eauto).
    assert (Hslot : forall sid s', holds w' sid (BySlot s') <-> s' <> s /\ holds w sid (BySlot s')).
    { intros sid s'. rewrite (holds_slot_insert w w' s st') by done. rewrite Hst'. intuition congruence. }
    apply owned_redirect with w; try done; [| | |intros _; exact (proj2 (owned_held _ _ _ _ Hok Hx))|apply (own_nodup _ _ Hok)].
    + intros sid h Hne. destruct h as [s'| | |]; [|done..|]. 
      * rewrite Hslot. split; [by intros []|]. intros H. split; [|done]. intros ->.
        destruct H as (st0 & H0 & H1). congruence.
      * cbn. rewrite fmap_app, elem_of_app. set_solver.
    + intros h. split.
      * intros H. f_equal. destruct h as [s'| | |]; [|by pose proof (owned_one f w x ByProbe _ Hok H Hx)
          |by pose proof (owned_one f w x ByClose _ Hok H Hx)|done].
        apply Hslot in H as [Hne H]. pose proof (owned_one f w x _ _ Hok H Hx). congruence.
      * intros [= <-]. cbn. rewrite fmap_app, elem_of_app. set_solver.
    + split; [eauto|]. intros _. exact (proj1 (owned_held _ _ _ _ Hok Hx)).
  - exists f. apply owned_same with w; try done; [|apply (own_nodup _ _ Hok)].
    intros sid [s'| | |]; try done. rewrite (holds_slot_insert w _ s st') by done. rewrite Hst'.
    split; [intros [[_ H]|[_ H]]; done|]. intros H. destruct (decide (s' = s)) as [-> | Hne]; [|auto].
    destruct H as (st0 & H0 & H1). congruence.
Qed.

(** A slot that has no session gets one just opened. *)
Lemma owned_open f w s st d l :
  owned f w -> slots w !! s = Some st -> slot_session st = None ->
  owners_ok (with_slots (<[s := mk_slot (Open (next_session w) d) l]> (slots w)) (mint_session w).2).
Proof.
  intros Hok Hs Hno. set (x := next_session w). exists (redirect f x (Some (BySlot s))). set (w' := with_slots _ _).
  assert (Hslot : forall sid s', holds w' sid (BySlot s') <-> (s' = s /\ x = sid) \/ (s' <> s /\ holds w sid (BySlot s'))).
  { intros sid s'. rewrite (holds_slot_insert w w' s (mk_slot (Open x d) l)) by done. cbn. intuition congruence. }
  apply owned_redirect with w; try done; cbn [w' with_slots mint_session snd open_sessions next_session].
  - intros sid h Hne. destruct h as [s'| | |]; [|done..]. rewrite Hslot. split; [intros [[_ ?]|[_ ?]]; [congruence|done]|].
    intros H. right. split; [|done]. intros ->. destruct H as (st0 & H0 & H1). congruence.
  - intros h. split.
    + intros H. destruct h as [s'| | |]; [|by eapply (owned_fresh f w ByProbe) in H|by eapply (owned_fresh f w ByClose) in H
        |by eapply (owned_fresh f w ByNobody) in H].
      apply Hslot in H as [[-> _]|[_ H]]; [done|]. by apply (owned_fresh f w) in H.
    + intros [= <-]. apply Hslot. auto.
  - set_solver.
  - split; [eauto|]. set_solver.
  - lia.
  - unfold x. lia.
  - apply (own_nodup _ _ Hok).
Qed.

(** A session opened for a slot that is gone. *)
Lemma owned_discard f w why : owned f w -> owners_ok (lose (Some (next_session w)) why (mint_session w).2).
Proof.
  intros Hok. set (x := next_session w). exists (redirect f x (Some ByNobody)). set (w' := lose _ _ _).
  apply owned_redirect with w; try done; cbn [w' lose mint_session snd open_sessions next_session].
  - intros sid h Hne. destruct h as [s'| | |]; [done..|]. cbn. rewrite fmap_app, elem_of_app. set_solver.
  - intros h. split.
    + intros H. destruct h as [s'| | |]; [by eapply (owned_fresh f w (BySlot s')) in H|by eapply (owned_fresh f w ByProbe) in H
        |by eapply (owned_fresh f w ByClose) in H|done].
    + intros [= <-]. cbn. rewrite fmap_app, elem_of_app. set_solver.
  - set_solver.
  - split; [eauto|]. set_solver.
  - lia.
  - unfold x. lia.
  - apply (own_nodup _ _ Hok).
Qed.

(** A slot that changes without touching its session. *)
Lemma owned_slot_same f w w' s st st' :
  owned f w -> slots w !! s = Some st -> slot_session st' = slot_session st -> slots w' = <[s := st']> (slots w) ->
  probing w' = probing w -> closes w' = closes w -> lost w' = lost w -> open_sessions w' = open_sessions w ->
  next_session w' = next_session w -> owned f w'.
Proof.
  intros Hok Hs Hst Hs' Hp Hc Hl Ho Hn. apply owned_same with w; [done| |done|done|unfold probe_sessions; rewrite Hp; apply (own_nodup _ _ Hok)].
  intros sid [s'| | |]; cbn; unfold probe_sessions; rewrite ?Hp, ?Hc, ?Hl; [|done..].
  change (holds w' sid (BySlot s') <-> holds w sid (BySlot s')).
  rewrite (holds_slot_insert w w' s st') by done. rewrite Hst. destruct (decide (s' = s)) as [-> | Hne].
  - cbn. rewrite Hs. split; [intros [[_ H]|[[] _]]; eauto|]. intros (st0 & [= <-] & H). auto.
  - split; [intros [[]|[_ H]]; done|auto].
Qed.

Lemma owned_close f w s : owned f w -> owners_ok (close s w).
Proof.
  intros Hok. destruct (close_lookups w s) as (Hs & _ & _ & Hn & Ho & Hl & Hp & Hc).
  destruct (slots w !! s) as [st|] eqn:E; cbn in Hc; [destruct (slot_session st) as [x|] eqn:Ex|].
  - exists (redirect f x (Some ByClose)). assert (Hx : holds w x (BySlot s)) by (cbn; eauto).
    assert (Hslot : forall sid s', holds (close s w) sid (BySlot s') <-> s' <> s /\ holds w sid (BySlot s')).
    { intros sid s'. cbn. rewrite Hs. case_decide; [subst; split; [by intros (? & ? & _)|by intros []]|tauto]. }
    apply owned_redirect with w; try done; rewrite ?Ho, ?Hn; try done.
    + intros sid h Hne. destruct h as [s'| | |]; cbn -[close slots]; unfold probe_sessions; rewrite ?Hp, ?Hl, ?Hc; [|done| |done].
      * change (holds (close s w) sid (BySlot s') <-> holds w sid (BySlot s')). rewrite Hslot. split; [by intros []|].
        intros H. split; [|done]. intros ->. destruct H as (st0 & H0 & H1). congruence.
      * set_solver.
    + intros h. split.
      * intros H. destruct h as [s'| | |]; [|cbn in H; unfold probe_sessions in H; rewrite Hp in H|done|cbn in H; rewrite Hl in H].
        -- apply Hslot in H as [Hne H]. pose proof (owned_one f w x _ _ Hok H Hx). congruence.
        -- by pose proof (owned_one f w x ByProbe _ Hok H Hx).
        -- by pose proof (owned_one f w x ByNobody _ Hok H Hx).
      * intros [= <-]. cbn. rewrite Hc. set_solver.
    + split; [eauto|]. intros _. exact (proj1 (owned_held _ _ _ _ Hok Hx)).
    + intros _. exact (proj2 (owned_held _ _ _ _ Hok Hx)).
    + unfold probe_sessions. rewrite Hp. apply (own_nodup _ _ Hok).
  - exists f. apply owned_same with w; [done| |done|done|unfold probe_sessions; rewrite Hp; apply (own_nodup _ _ Hok)].
    intros sid [s'| | |]; cbn; unfold probe_sessions; rewrite ?Hp, ?Hc, ?Hl; [|done..]. rewrite Hs.
    case_decide; [|done]. subst. rewrite E. split; [by intros (? & ? & _)|]. intros (? & [= <-] & ?). congruence.
  - exists f. apply owned_same with w; [done| |done|done|unfold probe_sessions; rewrite Hp; apply (own_nodup _ _ Hok)].
    intros sid [s'| | |]; cbn; unfold probe_sessions; rewrite ?Hp, ?Hc, ?Hl; [|done..]. rewrite Hs.
    case_decide; [|done]. subst. rewrite E. split; by intros (? & ? & _).
Qed.

(** * Steps *)

Definition slots_ok w : Prop := index_ok w /\ owners_ok w.

Lemma slots_ok_close w s : slots_ok w -> slots_ok (close s w).
Proof. intros [Hi [f Ho]]. split; [by apply index_close|by eapply owned_close]. Qed.

Lemma slots_ok_closes l w : slots_ok w -> slots_ok (foldl (fun w s => close s w) w l).
Proof. revert w. induction l as [|s l IH]; intros w Hok; cbn; [done|]. by apply IH, slots_ok_close. Qed.

Lemma slots_ok_closed P w : slots_ok w -> slots_ok (close_matching P w).
Proof. apply slots_ok_closes. Qed.

(** Fields that neither part of the invariant reads. *)
Lemma slots_ok_aside w w' :
  slots_ok w -> slots w' = slots w -> operations w' = operations w -> next_operation w' = next_operation w ->
  probe_sessions w' = probe_sessions w -> closes w' = closes w -> lost w' = lost w -> open_sessions w' = open_sessions w ->
  next_session w' = next_session w -> slots_ok w'.
Proof.
  intros [Hi [f Ho]] Hs Hop Hno Hp Hc Hl Hos Hn. split; [by eapply index_same|]. exists f.
  apply owned_same with w; [done| |done|done|rewrite Hp; apply (own_nodup _ _ Ho)].
  intros sid [s'| | |]; cbn; by rewrite ?Hs, ?Hp, ?Hc, ?Hl.
Qed.

Lemma slots_ok_view w s : slots_ok w -> slots_ok (view s w).2.
Proof.
  intros [Hi [f Ho]]. unfold view. destruct (slots w !! s) as [st|] eqn:E; [split; [done|by exists f]|].
  split; [pose proof (index_view _ _ Hi E) as H; unfold view in H; by rewrite E in H|].
  exists f. set (w' := snd _). apply owned_same with w; [done| |done|done|apply (own_nodup _ _ Ho)].
  intros sid [s'| | |]; [|done..]. rewrite (holds_slot_insert w w' s (mk_slot Opening [])) by done. cbn.
  destruct (decide (s' = s)) as [-> | Hne]; [rewrite E|]; [split; [intros [[_ ?]|[[] _]]; done|by intros (? & ? & _)]|].
  split; [intros [[]|[_ H]]; done|auto].
Qed.

Lemma slots_ok_opened w s d : slots_ok w -> slots_ok (opened s (mint_session w).1 d (mint_session w).2).
Proof.
  intros [Hi [f Ho]]. unfold opened. cbn [mint_session fst]. change (slots (mint_session w).2) with (slots w).
  destruct (slots w !! s) as [st|] eqn:E.
  - split; [eapply (index_phase w); [done|done|by destruct (slot_session st)..]|].
    destruct (slot_session st) as [old|] eqn:Eo; [|by apply (owned_open f w s st d)].
    pose proof (owned_drop f w s st (mk_slot Opening []) OpenedOver Ho E eq_refl) as [g Hg]. rewrite Eo in Hg.
    eapply (owned_open g _ s (mk_slot Opening []) d (inflight st)) in Hg; [|cbn; by rewrite lookup_insert_eq|done].
    unfold with_slots, lose, mint_session in Hg |- *. cbn in Hg |- *. by rewrite insert_insert_eq in Hg.
  - split; [by eapply (index_same w)|]. by apply (owned_discard f).
Qed.

Lemma slots_ok_failed w s why reason : slots_ok w -> slots_ok (set_failed s why reason w).
Proof.
  intros [Hi [f Ho]]. unfold set_failed. destruct (slots w !! s) as [st|] eqn:E; [|split; [done|by exists f]].
  split; [eapply (index_phase w); [done|done|by destruct (slot_session st)..]|]. by eapply owned_drop.
Qed.

Lemma slots_ok_tracked w s why : slots_ok w -> slots_ok (track_with_purpose s (mint_operation w).1 why (mint_operation w).2).
Proof.
  intros [Hi [f Ho]]. split; [by apply index_track|]. exists f. unfold track_with_purpose. cbn [mint_operation snd fst slots].
  destruct (slots w !! s) as [st|] eqn:E.
  - by eapply (owned_slot_same f w _ s st (mk_slot (phase st) _)).
  - apply owned_same with w; try done. apply (own_nodup _ _ Ho).
Qed.

(** The two ways an operation ends. *)
Lemma slots_ok_drained w op tr st p :
  slots_ok w -> operations w !! op = Some tr -> slots w !! tracked_slot tr = Some st ->
  slot_session (mk_slot p []) = slot_session st ->
  slots_ok (with_slots (<[tracked_slot tr := mk_slot p (drain op (inflight st))]> (slots w))
              (with_operations (delete op (operations w)) w)).
Proof.
  intros [Hi [f Ho]] Hop Hs Hp. split; [by eapply (index_drain w)|]. exists f.
  by apply (owned_slot_same f w _ (tracked_slot tr) st (mk_slot p (drain op (inflight st)))).
Qed.

Lemma slots_ok_updated w op u : slots_ok w -> slots_ok (apply_update op u w).2.
Proof.
  intros Hok. unfold apply_update. destruct (operations w !! op) as [tr|] eqn:E; [|done].
  destruct (ok_tracked _ (proj1 Hok) _ _ E) as (st & Hs & _).
  change (slots (with_operations (delete op (operations w)) w)) with (slots w). rewrite Hs.
  assert (Hsame : forall p, slot_session (mk_slot p (drain op (inflight st))) = slot_session (mk_slot p [])) by done.
  destruct (bool_decide_reflect (slot_session (mk_slot (phase st) (drain op (inflight st))) = Some (doc_session (update_document u))))
    as [Hsid|]; cbn [negb snd]; [|by apply slots_ok_drained].
  destruct (_ <=? _)%Z; cbn [snd]; by apply slots_ok_drained.
Qed.

Lemma slots_ok_ended w op : slots_ok w -> slots_ok (fail_with_context op w).2.
Proof.
  intros Hok. unfold fail_with_context. destruct (operations w !! op) as [tr|] eqn:E; [|done].
  destruct (ok_tracked _ (proj1 Hok) _ _ E) as (st & Hs & _). cbn [snd].
  change (slots (with_operations (delete op (operations w)) w)) with (slots w). rewrite Hs. by apply slots_ok_drained.
Qed.

(** ** Probes and closes *)

Lemma omap_drop_nth (l : list ProbeTask) i t :
  l !! i = Some t ->
  omap probe_session l ≡ₚ (match probe_session t with Some x => [x] | None => [] end) ++ omap probe_session (drop_nth i l).
Proof.
  intros H. rewrite <- (take_drop_middle l i t H) at 1. unfold drop_nth. rewrite !omap_app. cbn.
  destruct (probe_session t); [|done]. cbn. by rewrite Permutation_middle.
Qed.

Lemma slots_ok_probe_ends w i t key offered :
  slots_ok w -> probing w !! i = Some t ->
  slots_ok (answered key offered
    (with_open_sessions (open_sessions w ∖ match probe_session t with Some x => {[x]} | None => ∅ end)
      (with_probing (drop_nth i (probing w)) w))).
Proof.
  intros [Hi [f Ho]] Ht. pose proof (omap_drop_nth _ _ _ Ht) as Hp. fold (probe_sessions w) in Hp.
  pose proof (own_nodup _ _ Ho) as Hnd. rewrite Hp in Hnd. apply NoDup_app in Hnd as (_ & Hdis & Hnd).
  split; [by eapply (index_same w)|]. destruct (probe_session t) as [x|] eqn:Ex.
  - exists (redirect f x None). set (w' := answered _ _ _).
    assert (Hx : holds w x ByProbe) by (cbn; rewrite Hp; set_solver).
    assert (Hpr : forall sid, holds w' sid ByProbe <-> sid <> x /\ holds w sid ByProbe).
    { intros sid. cbn. rewrite Hp. specialize (Hdis x). unfold probe_sessions. cbn. set_solver. }
    apply owned_redirect with w; try done; cbn [w' answered with_probes with_open_sessions with_probing open_sessions next_session].
    + intros sid [s'| | |] Hne; [done| |done..]. rewrite Hpr. tauto.
    + intros h. split; [|done]. intros H. exfalso. destruct h as [s'| | |].
      * by pose proof (owned_one f w x (BySlot s') _ Ho H Hx).
      * by apply Hpr in H as [].
      * by pose proof (owned_one f w x ByClose _ Ho H Hx).
      * by pose proof (owned_one f w x ByNobody _ Ho H Hx).
    + set_solver.
    + split; [set_solver|by intros []].
  - exists f. apply owned_same with w; [done| |cbn; set_solver|done|exact Hnd].
    intros sid [s'| | |]; [done| |done..]. cbn. rewrite Hp. done.
Qed.

Lemma slots_ok_probe_opens w i key offered :
  slots_ok w -> probing w !! i = Some (ProbeOpening key) ->
  slots_ok (with_probing (<[i := ProbeOpened key (next_session w) offered]> (probing w)) (mint_session w).2).
Proof.
  intros [Hi [f Ho]] Ht. split; [by eapply (index_same w)|]. set (x := next_session w). set (w' := with_probing _ _).
  assert (Hp : probe_sessions w' ≡ₚ x :: probe_sessions w).
  { unfold probe_sessions. cbn. rewrite (insert_take_drop _ _ _ (lookup_lt_Some _ _ _ Ht)).
    rewrite <- (take_drop_middle _ _ _ Ht) at 3. rewrite !omap_app. cbn. by rewrite Permutation_middle. }
  exists (redirect f x (Some ByProbe)).
  assert (Hpr : forall sid, holds w' sid ByProbe <-> sid = x \/ holds w sid ByProbe).
  { intros sid. change (sid ∈ probe_sessions w' <-> sid = x \/ sid ∈ probe_sessions w). rewrite Hp. set_solver. }
  apply owned_redirect with w; try done; cbn [w' with_probing mint_session snd open_sessions next_session].
  - intros sid [s'| | |] Hne; [done| |done..]. rewrite Hpr. tauto.
  - intros h. split.
    + intros H. destruct h as [s'| | |]; [by eapply (owned_fresh f w (BySlot s')) in H|done
        |by eapply (owned_fresh f w ByClose) in H|by eapply (owned_fresh f w ByNobody) in H].
    + intros [= <-]. apply Hpr. auto.
  - set_solver.
  - split; [eauto|]. set_solver.
  - lia.
  - unfold x. lia.
  - rewrite Hp. apply NoDup_cons. split; [|apply (own_nodup _ _ Ho)]. by apply (owned_fresh f w ByProbe).
Qed.

Lemma slots_ok_close_lands w sid :
  slots_ok w -> sid ∈ closes w ->
  slots_ok (with_open_sessions (open_sessions w ∖ {[sid]}) (with_closes (closes w ∖ {[sid]}) w)).
Proof.
  intros [Hi [f Ho]] Hx. split; [by eapply (index_same w)|]. exists (redirect f sid None).
  apply owned_redirect with w; try done; cbn [with_open_sessions with_closes open_sessions next_session];
    [| | | |apply (own_nodup _ _ Ho)].
  - intros y [s'| | |] Hne; [done..| |done]. cbn. set_solver.
  - intros h. split; [|done]. intros H. exfalso. destruct h as [s'| | |].
    + by pose proof (owned_one f w sid (BySlot s') ByClose Ho H Hx).
    + by pose proof (owned_one f w sid ByProbe ByClose Ho H Hx).
    + cbn in H. set_solver.
    + by pose proof (owned_one f w sid ByNobody ByClose Ho H Hx).
  - set_solver.
  - split; [set_solver|by intros []].
Qed.

Lemma slot_step_ok sp w w' : slots_ok w -> slot_step sp w = Some w' -> slots_ok w'.
Proof.
  intros Hok. destruct sp; cbn [slot_step]; try (intros [= <-]).
  - by apply slots_ok_view.
  - destruct (opens w !! i) as [s|]; [|done]. cbn [mbind option_bind]. intros [= <-].
    apply (slots_ok_opened (with_opens _ w)). by eapply slots_ok_aside.
  - destruct (opens w !! i) as [s|]; [|done]. cbn [mbind option_bind]. intros [= <-].
    apply slots_ok_failed. by eapply slots_ok_aside.
  - destruct (slot_is_open slot w); intros [= <-]; [|done]. by eapply slots_ok_aside.
  - destruct (starts w !! i) as [[s why]|]; [|done]. cbn [mbind option_bind]. intros [= <-].
    apply (slots_ok_tracked (with_starts _ w)). by eapply slots_ok_aside.
  - destruct (starts w !! i) as [[s p]|]; [|done]. cbn [mbind option_bind]. intros [= <-].
    apply slots_ok_failed. by eapply slots_ok_aside.
  - by apply slots_ok_updated.
  - by apply slots_ok_ended.
  - by apply slots_ok_close.
  - by apply slots_ok_closed.
  - eapply slots_ok_aside; [by apply slots_ok_closed|done..].
  - by apply slots_ok_closed.
  - by apply slots_ok_closed.
  - by apply slots_ok_closed.
  - unfold probe_extension_point. destruct (probes w !! _) as [[]|]; [done..|]. cbn [snd].
    eapply slots_ok_aside; try done. unfold probe_sessions. cbn. rewrite omap_app. cbn. by rewrite app_nil_r.
  - destruct (probing w !! i) as [[key|key sid b]|] eqn:E; [| |done]; cbn [mbind option_bind]; intros [= <-].
    + by apply slots_ok_probe_opens.
    + by apply (slots_ok_probe_ends w i (ProbeOpened key sid b) key b).
  - destruct (probing w !! i) as [[key|key sid b]|] eqn:E; [| |done]; cbn [mbind option_bind]; [|done]. intros [= <-].
    eapply slots_ok_aside; [by apply (slots_ok_probe_ends w i (ProbeOpening key) key false)|done..| |done]. cbn. set_solver.
  - destruct (bool_decide_reflect (sid ∈ closes w)); [|done]. intros [= <-]. by apply slots_ok_close_lands.
Qed.

Lemma slot_run_ok sts w w' : slots_ok w -> slot_run sts w = Some w' -> slots_ok w'.
Proof.
  revert w. induction sts as [|sp sts IH]; intros w Hok; cbn [slot_run]; [by intros [= <-]|].
  destruct (slot_step sp w) as [w1|] eqn:E; [|done]. cbn [mbind option_bind]. apply IH. by eapply slot_step_ok.
Qed.

Lemma slots_start_ok : slots_ok slots_start.
Proof.
  split; [by split|]. exists (fun _ => None). split; cbn.
  - intros sid [s| | |]; cbn; [split; [by intros (? & ? & _)|done]|set_solver..].
  - intros sid. split; [set_solver|by intros []].
  - by intros sid [].
  - apply NoDup_nil_2.
Qed.

(** * What the registry promises *)

(** However opens, starts, updates, failures and closes
    come in, an operation is in the index for a slot exactly when that slot is there and
    waits for it, and no slot waits for an operation twice: an event that arrives finds its
    slot, and a slot that closes leaves nothing behind. *)
Theorem tracked_operations_have_slots sts w :
  slot_run sts slots_start = Some w ->
  (forall op s, (exists why, operations w !! op = Some (mk_tracked s why))
                <-> (exists st, slots w !! s = Some st /\ op ∈ inflight st))
  /\ (forall s st, slots w !! s = Some st -> NoDup (inflight st)).
Proof.
  intros [Hi _]%(slot_run_ok _ _ _ slots_start_ok). split; [|apply (ok_nodup _ Hi)]. intros op s. split.
  - intros [why H]. exact (ok_tracked _ Hi _ _ H).
  - intros (st & H & Hin). by eapply (ok_inflight _ Hi).
Qed.

(** A session the application has open for the window belongs to exactly one: a slot that
    draws it, a probe, a close under way, or the losses, which the model records and the program
    does not; and nobody holds a session that is not open. So a session outlives its owners
    only where the code drops it. *)
Theorem sessions_have_one_owner sts w :
  slot_run sts slots_start = Some w ->
  (forall sid, sid ∈ open_sessions w -> exists h, holds w sid h /\ forall h', holds w sid h' -> h' = h)
  /\ (forall sid h, holds w sid h -> sid ∈ open_sessions w).
Proof.
  intros [_ [f Ho]]%(slot_run_ok _ _ _ slots_start_ok). split.
  - intros sid [h Hh]%(own_open _ _ Ho). exists h. apply (own_holds _ _ Ho) in Hh. split; [done|].
    intros h' H'. by eapply owned_one.
  - intros sid h H. exact (proj1 (owned_held _ _ _ _ Ho H)).
Qed.

(** ** The order of updates *)

(** What an update makes of the slot it is for. *)
Definition newer (p : SlotPhase) (d : PluginUiDocument) : SlotPhase :=
  match p with
  | Open sid d0 => if bool_decide (sid = doc_session d) && (doc_revision d0 <? doc_revision d)%Z then Open sid d else p
  | _ => p
  end.
Definition received (op : Z) (d : PluginUiDocument) st : SlotState := mk_slot (newer (phase st) d) (drain op (inflight st)).

Lemma apply_update_spec op u w :
  (apply_update op u w).2
  = match operations w !! op with
    | None => w
    | Some tr => with_slots (alter (received op (update_document u)) (tracked_slot tr) (slots w))
                   (with_operations (delete op (operations w)) w)
    end.
Proof.
  unfold apply_update. destruct (operations w !! op) as [tr|]; [|done].
  change (slots (with_operations (delete op (operations w)) w)) with (slots w).
  destruct (slots w !! tracked_slot tr) as [st|] eqn:E.
  - assert (Ha : forall st', mk_slot (newer (phase st) (update_document u)) (drain op (inflight st)) = st' ->
      alter (received op (update_document u)) (tracked_slot tr) (slots w) = <[tracked_slot tr := st']> (slots w)).
    { intros st' <-. apply map_eq. intros s. destruct (decide (s = tracked_slot tr)) as [-> | Hne].
      - by rewrite lookup_alter_eq, lookup_insert_eq, E.
      - by rewrite lookup_alter_ne, lookup_insert_ne by done. }
    unfold slot_session, slot_revision. cbn [phase].
    destruct (phase st) as [|sid d0|why] eqn:Ep; cbn [negb bool_decide]; [by erewrite Ha; [|done]| |by erewrite Ha; [|done]].
    destruct (bool_decide_reflect (Some sid = Some (doc_session (update_document u)))) as [Hs|Hs]; cbn [negb].
    + injection Hs as ->. destruct (Z.leb_spec (doc_revision (update_document u)) (doc_revision d0)) as [Hr|Hr]; cbn [snd];
        (erewrite Ha; [done|]); cbn; rewrite bool_decide_true by done; cbn.
      * by rewrite (proj2 (Z.ltb_ge _ _)).
      * by rewrite (proj2 (Z.ltb_lt _ _)).
    + cbn [snd]. erewrite Ha; [done|]. cbn. rewrite bool_decide_false by congruence. done.
  - cbn [snd]. replace (alter _ _ _) with (slots w); [done|]. apply map_eq. intros s.
    destruct (decide (s = tracked_slot tr)) as [-> | Hne]; [by rewrite lookup_alter_eq, E|by rewrite lookup_alter_ne].
Qed.

Lemma newer_comm p d1 d2 :
  (doc_session d1 = doc_session d2 -> doc_revision d1 = doc_revision d2 -> d1 = d2) ->
  newer (newer p d1) d2 = newer (newer p d2) d1.
Proof.
  intros Hc. destruct p as [|sid d0|]; [done| |done]. cbn [newer].
  destruct (bool_decide_reflect (sid = doc_session d1)) as [E1|N1], (bool_decide_reflect (sid = doc_session d2)) as [E2|N2];
    cbn [andb]; [| | |].
  - destruct (Z.ltb_spec (doc_revision d0) (doc_revision d1)), (Z.ltb_spec (doc_revision d0) (doc_revision d2));
      cbn [newer]; rewrite ?bool_decide_true by done; cbn [andb].
    all: repeat match goal with |- context [(?a <? ?b)%Z] => destruct (Z.ltb_spec a b) end; try lia; try done.
    f_equal. apply Hc; [congruence|lia].
  - destruct (doc_revision d0 <? doc_revision d1)%Z eqn:E; cbn [newer];
      rewrite ?(bool_decide_true (sid = doc_session d1)), ?(bool_decide_false (sid = doc_session d2)), ?E by done; done.
  - destruct (doc_revision d0 <? doc_revision d2)%Z eqn:E; cbn [newer];
      rewrite ?(bool_decide_true (sid = doc_session d2)), ?(bool_decide_false (sid = doc_session d1)), ?E by done; done.
  - cbn [newer]. by rewrite !bool_decide_false by done.
Qed.

Lemma drain_comm a b l : drain a (drain b l) = drain b (drain a l).
Proof. unfold drain. induction l as [|x l IH]; [done|]. rewrite !filter_cons. repeat case_decide; rewrite ?filter_cons; repeat case_decide; congruence. Qed.

Lemma received_comm op1 op2 d1 d2 st :
  (doc_session d1 = doc_session d2 -> doc_revision d1 = doc_revision d2 -> d1 = d2) ->
  received op1 d1 (received op2 d2 st) = received op2 d2 (received op1 d1 st).
Proof. intros Hc. unfold received. cbn. f_equal; [|apply drain_comm]. symmetry. by apply newer_comm. Qed.

(** Two updates that carry the same revision of the same session carry the same document. *)
Definition agree (u1 u2 : PluginUiUpdate) : Prop :=
  let d1 := update_document u1 in let d2 := update_document u2 in
  doc_session d1 = doc_session d2 -> doc_revision d1 = doc_revision d2 -> d1 = d2.

Lemma apply_update_comm op1 op2 u1 u2 w :
  op1 <> op2 -> agree u1 u2 ->
  (apply_update op2 u2 (apply_update op1 u1 w).2).2 = (apply_update op1 u1 (apply_update op2 u2 w).2).2.
Proof.
  intros Hne Hagree. rewrite !apply_update_spec.
  destruct (operations w !! op1) as [t1|] eqn:E1, (operations w !! op2) as [t2|] eqn:E2; rewrite ?E1, ?E2; try done;
    cbn [with_slots with_operations operations slots]; rewrite ?lookup_delete_ne, ?E1, ?E2 by done; try done.
  unfold with_slots, with_operations. cbn. f_equal; [|apply delete_delete].
  apply map_eq. intros s. destruct (decide (tracked_slot t1 = tracked_slot t2)) as [Et|Et].
  - rewrite Et. destruct (decide (s = tracked_slot t2)) as [-> | Hs].
    + rewrite !lookup_alter_eq. destruct (slots w !! tracked_slot t2); [|done]. cbn. f_equal. symmetry.
      by apply received_comm.
    + by rewrite !lookup_alter_ne.
  - destruct (decide (s = tracked_slot t1)) as [-> | H1]; [|destruct (decide (s = tracked_slot t2)) as [-> | H2]].
    + by rewrite (lookup_alter_ne _ _ (tracked_slot t2)), !lookup_alter_eq, (lookup_alter_ne _ _ (tracked_slot t2)) by done.
    + by rewrite lookup_alter_eq, (lookup_alter_ne _ _ (tracked_slot t1)), (lookup_alter_ne _ _ (tracked_slot t1)), lookup_alter_eq by done.
    + by rewrite !lookup_alter_ne by done.
Qed.

(** The terminal events of actions, as the bridge hands them over. *)
Definition deliver (us : list (Z * PluginUiUpdate)) w : SlotWorld :=
  foldl (fun w p => (apply_update p.1 p.2 w).2) w us.

(** The updates of actions under way may arrive in any order:
    the slots end up showing the same documents, and what is still waited for is the
    same. *)
Theorem update_order_irrelevant us us' w :
  us ≡ₚ us' -> NoDup us.*1 -> (forall p q, p ∈ us -> q ∈ us -> agree p.2 q.2) ->
  deliver us w = deliver us' w.
Proof.
  intros Hp. revert w. induction Hp as [|[op u] us us' Hp IH|[o1 u1] [o2 u2] us|us us1 us2 Hp1 IH1 Hp2 IH2]; intros w Hnd Ha.
  - done.
  - cbn. apply IH; [by inv Hnd|]. intros p q Hp1 Hq. apply Ha; set_solver.
  - cbn. inv Hnd. f_equal. apply apply_update_comm; [set_solver|]. apply (Ha (o2, u2) (o1, u1)); set_solver.
  - rewrite IH1 by done. apply IH2; [by rewrite <- Hp1|]. intros p q. rewrite <- Hp1. apply Ha.
Qed.

(** ** Sweeps *)

Lemma closes_spec l w :
  index_ok w ->
  let w' := foldl (fun w s => close s w) w l in
  (forall s, slots w' !! s = if decide (s ∈ l) then None else slots w !! s)
  /\ (forall op, operations w' !! op
        = match operations w !! op with Some tr => if decide (tracked_slot tr ∈ l) then None else Some tr | None => None end)
  /\ (forall s st sid, s ∈ l -> slots w !! s = Some st -> slot_session st = Some sid -> sid ∈ closes w')
  /\ closes w ⊆ closes w' /\ open_sessions w' = open_sessions w /\ lost w' = lost w.
Proof.
  revert w. induction l as [|s l IH]; intros w Hok; cbn [foldl].
  { cbn. split_and!; try done; [by intros op; destruct (operations w !! op)|by intros s st sid H%elem_of_nil]. }
  destruct (IH (close s w) (index_close w s Hok)) as (Hs & Ho & Hc & Hsub & Hos & Hl).
  destruct (close_lookups w s) as (Ks & Ko & _ & _ & Kos & Kl & _ & Kc). split_and!.
  - intros s'. rewrite Hs, Ks. by repeat case_decide; try set_solver.
  - intros op. rewrite Ho, Ko. destruct (operations w !! op) as [tr|] eqn:E; [|by destruct (slots w !! s); [case_decide|]].
    destruct (ok_tracked _ Hok _ _ E) as (st & Hst & Hin). destruct (decide (tracked_slot tr = s)) as [<- | Hne].
    + rewrite Hst, decide_True by done. rewrite decide_True by set_solver. done.
    + assert (Hkeep : match slots w !! s with Some st0 => if decide (op ∈ inflight st0) then None else Some tr | None => Some tr end = Some tr).
      { destruct (slots w !! s) as [st0|] eqn:E0; [|done]. rewrite decide_False; [done|]. intros Hin0.
        destruct (ok_inflight _ Hok _ _ _ E0 Hin0) as [why H]. rewrite H in E. by injection E as <-. }
      rewrite Hkeep. by repeat case_decide; try set_solver.
  - intros s' st sid Hin Hs' Hsid. destruct (decide (s' = s)) as [-> | Hne].
    + apply Hsub. rewrite Kc, Hs'. cbn. rewrite Hsid. set_solver.
    + apply (Hc s' st sid); [set_solver| |done]. by rewrite Ks, decide_False.
  - etrans; [|exact Hsub]. rewrite Kc. destruct (_ ≫= _); set_solver.
  - by rewrite Hos.
  - by rewrite Hl.
Qed.

Lemma slots_matching_elem P w s : s ∈ slots_matching P w <-> P s = true /\ is_Some (slots w !! s).
Proof.
  unfold slots_matching. rewrite list_elem_of_filter, list_elem_of_fmap. split.
  - intros (HP & [s' st] & -> & H%elem_of_map_to_list). split; [by apply Is_true_true_1|]. eauto.
  - intros [HP [st H]]. split; [by apply Is_true_true_2|]. exists (s, st). split; [done|]. by apply elem_of_map_to_list.
Qed.

(** The sweep of a frame removes exactly the slots whose tab
    is gone or shows another archive, has their sessions closed, stops waiting for their
    operations and loses none; a slot whose host is there keeps its state. *)
Theorem sweep_closes_the_hostless sts w tabs :
  slot_run sts slots_start = Some w ->
  let w' := retain_hosts tabs w in
  (forall s, slots w' !! s = if hostless tabs s then None else slots w !! s)
  /\ (forall s st sid, slots w !! s = Some st -> hostless tabs s = true -> slot_session st = Some sid -> sid ∈ closes w')
  /\ (forall op, operations w' !! op
        = match operations w !! op with Some tr => if hostless tabs (tracked_slot tr) then None else Some tr | None => None end)
  /\ lost w' = lost w.
Proof.
  intros [Hi _]%(slot_run_ok _ _ _ slots_start_ok). unfold retain_hosts, close_matching.
  destruct (closes_spec (slots_matching (hostless tabs) w) w Hi) as (Hs & Ho & Hc & _ & _ & Hl). split_and!; [| | |done].
  - intros s. rewrite Hs. case_decide as E; [apply slots_matching_elem in E as [-> _]; done|].
    destruct (hostless tabs s) eqn:Eh; [|done]. destruct (slots w !! s) eqn:Es; [|done].
    destruct E. apply slots_matching_elem. eauto.
  - intros s st sid Es Eh Hsid. eapply Hc; [|done|done]. apply slots_matching_elem. eauto.
  - intros op. rewrite Ho. destruct (operations w !! op) as [tr|] eqn:E; [|done].
    destruct (ok_tracked _ Hi _ _ E) as (st & Hst & _).
    case_decide as Ed; [apply slots_matching_elem in Ed as [-> _]; done|].
    destruct (hostless tabs (tracked_slot tr)) eqn:Eh; [|done]. destruct Ed. apply slots_matching_elem. eauto.
Qed.
End props.

(** * A window with a panel *)

Module PluginSlotsExample.

#[export] Instance slot_wirt : Wirt := {|
  Node := nat;
  Intent := nat;
  find_node _ _ := None;
  region_slug e := match e with Panel => §"panel" | _ => §"page" end;
  identity_key id := Some id
|}.

Definition panel : PluginSlot := PanelSlot §"tags" 1 (Some 5%Z).
Definition shown_at (sid rev : Z) : PluginUiUpdate := mk_update (mk_document sid §"tags" §"panel" Panel rev 3%nat) [].

(** A panel is drawn, two actions started. *)
Definition two_actions : list SlotStep :=
  [View panel; OpenLands 0 4%nat; StartAction panel Interaction; StartAccepted 0; StartAction panel Interaction; StartAccepted 0].

Definition world (sts : list SlotStep) : SlotWorld := default slots_start (slot_run sts slots_start).

Lemma tracked_operations_have_slots_witness :
  slot_run two_actions slots_start = Some (world two_actions)
  /\ (forall op s, (exists why, operations (world two_actions) !! op = Some (mk_tracked s why))
                   <-> (exists st, slots (world two_actions) !! s = Some st /\ op ∈ inflight st)).
Proof.
  assert (E : slot_run two_actions slots_start = Some (world two_actions)) by (vm_compute; reflexivity).
  split; [exact E|]. apply (tracked_operations_have_slots two_actions _ E).
Defined.

Lemma sessions_have_one_owner_witness :
  (1%Z ∈ open_sessions (world two_actions))
  /\ exists h, holds (world two_actions) 1 h /\ forall h', holds (world two_actions) 1 h' -> h' = h.
Proof.
  assert (E : slot_run two_actions slots_start = Some (world two_actions)) by (vm_compute; reflexivity).
  assert (Hin : 1%Z ∈ open_sessions (world two_actions)) by (apply (bool_decide_eq_true_1 (1%Z ∈ open_sessions (world two_actions))); vm_compute; reflexivity).
  split; [exact Hin|]. apply (sessions_have_one_owner two_actions _ E). exact Hin.
Defined.

(** The second answer arrives first. *)
Lemma update_order_irrelevant_witness :
  deliver [(2%Z, shown_at 1 3); (1%Z, shown_at 1 2)] (world two_actions)
  = deliver [(1%Z, shown_at 1 2); (2%Z, shown_at 1 3)] (world two_actions).
Proof.
  apply update_order_irrelevant.
  - apply perm_swap.
  - apply NoDup_cons. split; [|apply NoDup_singleton]. intros H%list_elem_of_singleton. discriminate.
  - intros p q Hp Hq Hs Hr. apply list_elem_of_In in Hp. apply list_elem_of_In in Hq. cbn in Hp, Hq.
    destruct Hp as [<-|[<-|[]]], Hq as [<-|[<-|[]]]; try reflexivity; discriminate.
Defined.

Lemma sweep_closes_the_hostless_witness :
  hostless [] panel = true /\ 1%Z ∈ closes (retain_hosts [] (world two_actions)).
Proof.
  assert (E : slot_run two_actions slots_start = Some (world two_actions)) by (vm_compute; reflexivity).
  split; [reflexivity|].
  destruct (sweep_closes_the_hostless two_actions _ [] E) as (_ & H & _).
  refine (H panel _ 1%Z _ _ _); [vm_compute; reflexivity|reflexivity|reflexivity].
Defined.

(** Three runs after which a session is open in the application
    and nothing refers to it: the slot was closed before its open landed, it was closed and
    drawn again before either open landed, and the start of an action was refused. In a
    fourth a probe that was under way when its plugin was turned off puts the old answer
    back. *)
Theorem lost_plugin_sessions :
  (let w := world [View panel; Close panel; OpenLands 0 4%nat] in
   open_sessions w = {[1%Z]} /\ closes w = ∅ /\ slots w = ∅ /\ lost w = [(1%Z, SlotClosedMeanwhile)])
  /\ (let w := world [View panel; Close panel; View panel; OpenLands 0 4%nat; OpenLands 0 4%nat] in
      open_sessions w = {[1%Z; 2%Z]} /\ closes w = ∅ /\ lost w = [(1%Z, OpenedOver)])
  /\ (let w := world [View panel; OpenLands 0 4%nat; StartAction panel Interaction; StartRejected 0 §"shutting down"; Close panel] in
      open_sessions w = {[1%Z]} /\ closes w = ∅ /\ slots w = ∅ /\ lost w = [(1%Z, StartRefused)])
  /\ (let w := world [Probe §"tags" Panel; ProbeLands 0 true; ClosePlugin §"tags"; ProbeLands 0 true] in
      (probe_extension_point §"tags" Panel w).1 = Some true).
Proof. cbv zeta. split_and!; vm_compute; reflexivity. Qed.
End PluginSlotsExample.
