(* ===== verification/Settings.v ===== *)
(** The settings of the application ([crates/app/src/settings.rs]): the stored row and what
    a frontend sees of it, patches and how they are applied, and the rules for passwords;
    with the routing of plugins through the proxy ([crates/core/src/utilities/proxy.rs]) and
    the tokens of the collision policy ([crates/core/src/features/pipeline/types.rs]).

    Everything here is a total function on values. Paths are strings of UTF-8, on which
    [to_string_lossy] is the identity. JSON ([serde_json]), regular expressions ([regex])
    and the proxy URL ([porxi], [reqwest]) are classes. *)

From stdpp Require Import base tactics option list gmap strings.
From Stdlib Require Import ZArith Lia Ascii.
From S2P Require Import Prelude Text AppError.

#[local] Arguments String.list_ascii_of_string : simpl never.
Local Open Scope arclain_scope.

(** ** Errors, by the function that builds them *)

Inductive SettingsError :=
| conflict_error (current : Z)
| settings_unavailable_error
| vault_unavailable_error
| vault_key_file_missing_error
| shutdown_mid_request_error
| backend_error (context : str)
| persistence_error (context : str)
| clear_not_supported_error (field : str)
| unrecognized_policy_error
| invalid_input_error (field summary : str)
| password_required_for_new_rule_error
| rule_not_found_error (name : str)
| invalid_proxy_error.

Definition error_kind (e : SettingsError) : ApplicationErrorKind :=
  match e with
  | conflict_error _ => Conflict
  | settings_unavailable_error | vault_unavailable_error => Unsupported
  | shutdown_mid_request_error => Internal
  | backend_error _ => Backend
  | persistence_error _ => Persistence
  | rule_not_found_error _ => NotFound
  | _ => InvalidInput
  end.

(** ** The stored row *)

Record UserConfig := mk_user_config {
  uc_id : Z;
  vault_path : option str;
  cache_directory : option str;
  temp_dir : option str;
  sevenzip_path : option str;
  transfer_dir : option str;
  backend_mode : str;
  open_nested_in_new_tab : bool;
  enabled_plugins : option str;
  plugin_order : option str;
  plugin_visibility : option str;
  plugin_settings : option str;
  toolbar_order : option str;
  info_panel_order : option str;
  socks5_address : option str;
  socks5_enabled : bool;
  socks5_username : option str;
  plugin_proxy_settings : option str;
  hotkey_bindings : option str;
  gameta_server_enabled : bool;
  gameta_server_url : option str;
  drop_behavior : option str;
  restore_tabs_on_launch : bool
}.

#[export] Instance UserConfig_eq_dec : EqDecision UserConfig.
Proof. solve_decision. Defined.

(** [UserConfig::default]. *)
Definition default_user_config : UserConfig :=
  mk_user_config 0 None None None None None [] false None None None None None None None false None None None false None None false.

(** [UserConfig::new]. *)
Definition new_user_config : UserConfig :=
  mk_user_config 1 None None None None None §"native" false None None None None None None None false None None None false None None true.

Definition set_archive_fields (u : UserConfig) (mode : str) (cache temp transfer sevenzip : option str) : UserConfig :=
  mk_user_config (uc_id u) (vault_path u) cache temp sevenzip transfer mode (open_nested_in_new_tab u) (enabled_plugins u)
    (plugin_order u) (plugin_visibility u) (plugin_settings u) (toolbar_order u) (info_panel_order u) (socks5_address u)
    (socks5_enabled u) (socks5_username u) (plugin_proxy_settings u) (hotkey_bindings u) (gameta_server_enabled u)
    (gameta_server_url u) (drop_behavior u) (restore_tabs_on_launch u).

Definition set_network_fields (u : UserConfig) (enabled : bool) (address username proxies : option str) (gameta : bool)
    (url : option str) : UserConfig :=
  mk_user_config (uc_id u) (vault_path u) (cache_directory u) (temp_dir u) (sevenzip_path u) (transfer_dir u) (backend_mode u)
    (open_nested_in_new_tab u) (enabled_plugins u) (plugin_order u) (plugin_visibility u) (plugin_settings u) (toolbar_order u)
    (info_panel_order u) address enabled username proxies (hotkey_bindings u) gameta url (drop_behavior u) (restore_tabs_on_launch u).

Definition set_general_fields (u : UserConfig) (hotkeys : option str) (nested : bool) (drop : option str) (restore : bool) : UserConfig :=
  mk_user_config (uc_id u) (vault_path u) (cache_directory u) (temp_dir u) (sevenzip_path u) (transfer_dir u) (backend_mode u)
    nested (enabled_plugins u) (plugin_order u) (plugin_visibility u) (plugin_settings u) (toolbar_order u) (info_panel_order u)
    (socks5_address u) (socks5_enabled u) (socks5_username u) (plugin_proxy_settings u) hotkeys (gameta_server_enabled u)
    (gameta_server_url u) drop restore.

(** ** What other crates do *)

(** The three fields the proxy journal compares, and its entry. *)
Record ProxySettingsSnapshot := mk_proxy_snapshot {
  ps_enabled : bool;
  ps_address : option str;
  ps_username : option str
}.

#[export] Instance ProxySettingsSnapshot_eq_dec : EqDecision ProxySettingsSnapshot.
Proof. solve_decision. Defined.

Record PendingProxyUpdate := mk_pending {
  marker_version : Z;
  marker_previous : ProxySettingsSnapshot;
  marker_candidate : ProxySettingsSnapshot;
  previous_password : option str
}.

Record ProxyConfig := mk_proxy {
  proxy_enabled : bool;
  proxy_address : str;
  proxy_username : option str;
  proxy_password : option str
}.

Class SettingsExternals := {
  bools_json : gmap str bool -> str;
  bools_of_json : str -> option (gmap str bool);
  bools_roundtrip m : bools_of_json (bools_json m) = Some m;
  marker_json : PendingProxyUpdate -> str;
  marker_of_json : str -> option PendingProxyUpdate;
  marker_roundtrip p : marker_of_json (marker_json p) = Some p;
  regex_compiles : str -> bool;            (** [Regex::new] *)
  proxy_builds : ProxyConfig -> bool       (** [ProxyConfig::create_proxy] *)
}.

Section settings.
Context {SX : SettingsExternals}.

Definition get_plugin_proxy_settings (u : UserConfig) : gmap str bool := default ∅ (plugin_proxy_settings u ≫= bools_of_json).

(** ** The collision policy *)

Inductive OutputCollisionPolicy := PolicyFail | PolicySkip | PolicyOverwrite | PolicySmart.

Definition default_collision : OutputCollisionPolicy := PolicySmart.

Definition to_settings_str (p : OutputCollisionPolicy) : str :=
  match p with
  | PolicyFail => §"fail"
  | PolicySkip => §"skip"
  | PolicyOverwrite => §"overwrite"
  | PolicySmart => §"smart"
  end.

Definition from_settings_str (s : str) : option OutputCollisionPolicy :=
  if str_eqb s §"fail" then Some PolicyFail
  else if str_eqb s §"skip" then Some PolicySkip
  else if str_eqb s §"overwrite" then Some PolicyOverwrite
  else if str_eqb s §"smart" then Some PolicySmart
  else None.

Definition default_collision_policy_token : str := to_settings_str default_collision.

(** ** What a frontend sees *)

Inductive BackendModeDto := Cli | Native.

Definition from_user_config (value : str) : BackendModeDto := if str_eqb value §"cli" then Cli else Native.
Definition as_user_config_str (m : BackendModeDto) : str := match m with Cli => §"cli" | Native => §"native" end.

Record ArchiveSettingsDto := mk_archive_dto {
  ad_backend_mode : BackendModeDto;
  ad_cache_directory : option str;
  ad_temp_directory : option str;
  ad_transfer_directory : option str;
  ad_sevenzip_path : option str;
  ad_default_collision_policy : str
}.

Record NetworkSettingsDto := mk_network_dto {
  nd_socks5_enabled : bool;
  nd_socks5_address : option str;
  nd_socks5_username : option str;
  nd_socks5_password_configured : bool;
  nd_plugin_proxy_enabled : gmap str bool;
  nd_gameta_server_enabled : bool;
  nd_gameta_server_url : option str;
  nd_gameta_api_key_configured : bool
}.

Record SecuritySettingsDto := mk_security_dto {
  sd_secrets_database_path : option str;
  sd_key_file_path : option str;
  sd_default_secrets_database_path : option str;
  sd_default_key_file_path : option str;
  sd_encrypted_crc_policy : str;
  sd_vault_available : bool
}.

Record GeneralSettingsDto := mk_general_dto {
  gd_hotkey_bindings : option str;
  gd_open_nested_in_new_tab : bool;
  gd_drop_behavior : str;
  gd_restore_tabs_on_launch : bool
}.

Record SettingsSnapshot := mk_settings {
  ss_revision : Z;
  ss_archive : ArchiveSettingsDto;
  ss_network : NetworkSettingsDto;
  ss_security : SecuritySettingsDto;
  ss_general : GeneralSettingsDto
}.

Definition archive_dto (u : UserConfig) (default_collision_policy : str) : ArchiveSettingsDto :=
  mk_archive_dto (from_user_config (backend_mode u)) (cache_directory u) (temp_dir u) (transfer_dir u) (sevenzip_path u)
    default_collision_policy.

Definition network_dto (u : UserConfig) (socks5_password_configured gameta_api_key_configured : bool) : NetworkSettingsDto :=
  mk_network_dto (socks5_enabled u) (socks5_address u) (socks5_username u) socks5_password_configured
    (get_plugin_proxy_settings u) (gameta_server_enabled u) (gameta_server_url u) gameta_api_key_configured.

Definition general_dto (u : UserConfig) : GeneralSettingsDto :=
  mk_general_dto (hotkey_bindings u) (open_nested_in_new_tab u) (default §"new_tab" (drop_behavior u)) (restore_tabs_on_launch u).

(** ** The proxy of plugins *)

Definition DEFAULT_PROXIED_PLUGINS : list str := [§"dlsite-metadata"; §"dlsite"; §"dlsite-api"; §"dlsite-html"].

Definition apply_default_proxied_plugins (enabled : bool) (overrides : gmap str bool) : gmap str bool :=
  if negb enabled then ∅
  else foldl (fun m p => match m !! p with Some _ => m | None => <[p := true]> m end) overrides DEFAULT_PROXIED_PLUGINS.

Definition effective_plugin_proxy_map (u : UserConfig) : gmap str bool :=
  apply_default_proxied_plugins (socks5_enabled u) (get_plugin_proxy_settings u).

Definition effective_plugin_proxy_enabled (d : NetworkSettingsDto) : gmap str bool :=
  apply_default_proxied_plugins (nd_socks5_enabled d) (nd_plugin_proxy_enabled d).

Definition plugin_proxy_effective (d : NetworkSettingsDto) (plugin_id : str) : bool :=
  nd_socks5_enabled d
  && match nd_plugin_proxy_enabled d !! plugin_id with
     | Some stored => stored
     | None => existsb (str_eqb plugin_id) DEFAULT_PROXIED_PLUGINS
     end.

(** ** Patches *)

Inductive PatchValue (A : Type) := PatchClear | PatchKeep | PatchSet (value : A).
Arguments PatchClear {A}. Arguments PatchKeep {A}. Arguments PatchSet {A}.

Definition is_keep {A} (p : PatchValue A) : bool := match p with PatchKeep => true | _ => false end.

Record ArchiveSettingsPatch := mk_archive_patch {
  ap_backend_mode : PatchValue BackendModeDto;
  ap_cache_directory : PatchValue str;
  ap_temp_directory : PatchValue str;
  ap_transfer_directory : PatchValue str;
  ap_sevenzip_path : PatchValue str;
  ap_default_collision_policy : PatchValue str
}.

Record NetworkSettingsPatch := mk_network_patch {
  np_socks5_enabled : PatchValue bool;
  np_socks5_address : PatchValue str;
  np_socks5_username : PatchValue str;
  np_plugin_proxy_enabled : PatchValue (gmap str bool);
  np_gameta_server_enabled : PatchValue bool;
  np_gameta_server_url : PatchValue str
}.

Record SecuritySettingsPatch := mk_security_patch {
  sp_secrets_database_path : PatchValue str;
  sp_key_file_path : PatchValue str;
  sp_encrypted_crc_policy : PatchValue str
}.

Record GeneralSettingsPatch := mk_general_patch {
  gp_hotkey_bindings : PatchValue str;
  gp_open_nested_in_new_tab : PatchValue bool;
  gp_drop_behavior : PatchValue str;
  gp_restore_tabs_on_launch : PatchValue bool
}.

Record SettingsPatch := mk_settings_patch {
  patch_expected_revision : Z;
  patch_archive : option ArchiveSettingsPatch;
  patch_network : option NetworkSettingsPatch;
  patch_security : option SecuritySettingsPatch;
  patch_general : option GeneralSettingsPatch
}.

Definition apply_optional {A} (current : option A) (p : PatchValue A) : option A :=
  match p with PatchKeep => current | PatchClear => None | PatchSet v => Some v end.

Definition apply_required {A} (current : A) (p : PatchValue A) (field : str) : result SettingsError A :=
  match p with PatchKeep => Ok current | PatchSet v => Ok v | PatchClear => Err (clear_not_supported_error field) end.

Definition apply_collection (current : gmap str bool) (p : PatchValue (gmap str bool)) : gmap str bool :=
  match p with PatchKeep => current | PatchClear => ∅ | PatchSet v => v end.

Definition apply_archive_patch (u : UserConfig) (policy : str) (p : ArchiveSettingsPatch) : result SettingsError (UserConfig * str) :=
  let? proposed := apply_required policy (ap_default_collision_policy p) §"archive.default_collision_policy" in
  if negb (str_eqb proposed policy) && bool_decide (from_settings_str proposed = None) then Err unrecognized_policy_error
  else
    let? mode := apply_required (from_user_config (backend_mode u)) (ap_backend_mode p) §"archive.backend_mode" in
    Ok (set_archive_fields u (as_user_config_str mode)
          (apply_optional (cache_directory u) (ap_cache_directory p))
          (apply_optional (temp_dir u) (ap_temp_directory p))
          (apply_optional (transfer_dir u) (ap_transfer_directory p))
          (apply_optional (sevenzip_path u) (ap_sevenzip_path p)),
        proposed).

Definition apply_network_patch (u : UserConfig) (p : NetworkSettingsPatch) : result SettingsError UserConfig :=
  let? enabled := apply_required (socks5_enabled u) (np_socks5_enabled p) §"network.socks5_enabled" in
  let proxies := apply_collection (get_plugin_proxy_settings u) (np_plugin_proxy_enabled p) in
  let? gameta := apply_required (gameta_server_enabled u) (np_gameta_server_enabled p) §"network.gameta_server_enabled" in
  Ok (set_network_fields u enabled (apply_optional (socks5_address u) (np_socks5_address p))
        (apply_optional (socks5_username u) (np_socks5_username p)) (Some (bools_json proxies)) gameta
        (apply_optional (gameta_server_url u) (np_gameta_server_url p))).

Definition apply_general_patch (u : UserConfig) (p : GeneralSettingsPatch) : result SettingsError UserConfig :=
  let? nested := apply_required (open_nested_in_new_tab u) (gp_open_nested_in_new_tab p) §"general.open_nested_in_new_tab" in
  let? drop := apply_required (default §"new_tab" (drop_behavior u)) (gp_drop_behavior p) §"general.drop_behavior" in
  let? restore := apply_required (restore_tabs_on_launch u) (gp_restore_tabs_on_launch p) §"general.restore_tabs_on_launch" in
  Ok (set_general_fields u (apply_optional (hotkey_bindings u) (gp_hotkey_bindings p)) nested (Some drop) restore).

Definition apply_security_value_patch (policy : str) (p : SecuritySettingsPatch) : result SettingsError str :=
  apply_required policy (sp_encrypted_crc_policy p) §"security.encrypted_crc_policy".

Record DbPaths := mk_paths { config_db : str; cache_db : str; secrets_db : str; key_file : option str }.

Definition apply_vault_path_patch (paths : DbPaths) (p : SecuritySettingsPatch) (defaults : DbPaths) : DbPaths :=
  mk_paths (config_db paths) (cache_db paths)
    (match sp_secrets_database_path p with PatchSet v => v | PatchClear => secrets_db defaults | PatchKeep => secrets_db paths end)
    (match sp_key_file_path p with PatchSet v => Some v | PatchClear => key_file defaults | PatchKeep => key_file paths end).

Definition security_patch_touches_vault_paths (p : SecuritySettingsPatch) : bool :=
  negb (is_keep (sp_secrets_database_path p)) || negb (is_keep (sp_key_file_path p)).

Definition network_patch_touches_socks5_identity (p : NetworkSettingsPatch) : bool :=
  negb (is_keep (np_socks5_enabled p)) || negb (is_keep (np_socks5_address p)) || negb (is_keep (np_socks5_username p)).

Definition network_patch_touches_plugin_proxy_map (p : NetworkSettingsPatch) : bool := negb (is_keep (np_plugin_proxy_enabled p)).

(** [ProxyConfig::validate_for_storage] on the candidate. *)
Definition validate_proxy_for_storage (u : UserConfig) (current_password : option str) : result SettingsError unit :=
  let config := mk_proxy (socks5_enabled u) (default [] (socks5_address u)) (socks5_username u) current_password in
  if negb (proxy_enabled config) && bool_decide (proxy_address config = []) then Ok tt
  else if proxy_builds config then Ok tt else Err invalid_proxy_error.

(** ** Password rules *)

Record PassRule := mk_rule {
  rule_name : str;
  rule_pattern : str;
  rule_password : str;
  rule_priority : Z;
  rule_enabled : bool
}.

Record PasswordRuleSummary := mk_rule_summary {
  rs_name : str;
  rs_pattern : str;
  rs_priority : Z;
  rs_enabled : bool;
  rs_password_configured : bool
}.

Definition summarize_pass_rule (r : PassRule) : PasswordRuleSummary :=
  mk_rule_summary (rule_name r) (rule_pattern r) (rule_priority r) (rule_enabled r) (negb (bool_decide (rule_password r = []))).

Record PasswordRuleInput := mk_rule_input {
  ri_name : str;
  ri_pattern : str;
  ri_priority : Z;
  ri_enabled : bool;
  ri_password : option str
}.

Record PasswordRuleEditInput := mk_rule_edit {
  re_original_name : option str;
  re_name : str;
  re_pattern : str;
  re_priority : Z;
  re_enabled : bool;
  re_password : option str
}.

Definition validate_password_rule_fields (name pattern : str) : result SettingsError unit :=
  if bool_decide (trim name = []) then Err (invalid_input_error §"name" §"rule name must not be empty")
  else if bool_decide (trim pattern = []) then Err (invalid_input_error §"pattern" §"rule pattern must not be empty")
  else if negb (regex_compiles pattern) then Err (invalid_input_error §"pattern" §"rule pattern is not a valid regular expression")
  else Ok tt.

Definition validate_password_rule_input (r : PasswordRuleInput) : result SettingsError unit :=
  validate_password_rule_fields (ri_name r) (ri_pattern r).

Definition password_rule_original_name_not_found_error : SettingsError :=
  invalid_input_error §"original_name" §"password rule original name was not found".

(** One turn of the loop: the original names used and the resulting names so far. *)
Definition validate_edit (existing : gset str) (seen : gset str * gset str) (e : PasswordRuleEditInput)
  : result SettingsError (gset str * gset str) :=
  let '(used, names) := seen in
  let? _ := validate_password_rule_fields (re_name e) (re_pattern e) in
  if bool_decide (re_name e ∈ names) then Err (invalid_input_error §"name" §"password rule names must be unique")
  else
    match re_original_name e with
    | Some original =>
        if negb (bool_decide (original ∈ existing)) then Err password_rule_original_name_not_found_error
        else if bool_decide (original ∈ used) then
          Err (invalid_input_error §"original_name" §"password rule original names must be unique")
        else Ok ({[ original ]} ∪ used, {[ re_name e ]} ∪ names)
    | None =>
        if bool_decide (re_password e = None) then Err password_required_for_new_rule_error
        else Ok (used, {[ re_name e ]} ∪ names)
    end.

Definition validate_password_rule_edit_inputs (edits : list PasswordRuleEditInput) (existing : gset str) : result SettingsError unit :=
  let? _ := try_fold (validate_edit existing) (∅, ∅) edits in Ok tt.
End settings.

Arguments PatchClear {A}. Arguments PatchKeep {A}. Arguments PatchSet {A}.
