(* ===== verification/SettingsOps.v ===== *)
(** The settings of a running application: reading and patching them, the secrets and the
    vault ([crates/app/src/runtime/settings_ops.rs]), the journal that keeps the proxy's
    row and password together ([core/src/services/network_proxy_persistence_service.rs]),
    moving and rekeying the vault ([core/src/services/secrets_service.rs]) and its rules
    ([db/src/secrets/secrets_db.rs]).

    Every call that changes something holds the settings lock from its first read to its
    commit, so it is one computation here. Each read and write of a store has a name, and
    the machine says of each how it goes: it works, it is refused, it reports an error
    although it happened, the runtime is gone, or the process dies before or after it.
    That a vault cannot be opened twice at once is among the refusals. *)

From stdpp Require Import base tactics option list gmap strings.
From Stdlib Require Import ZArith Lia Ascii.
From S2P Require Import Prelude Text AppError Effects Settings.

#[local] Arguments String.list_ascii_of_string : simpl never.
Local Open Scope arclain_scope.
Local Open Scope Z_scope.

(** ** The stores *)

(** A vault file: what is in it, each value under the key that encrypted it. *)
Record VaultFile := mk_vault { vf_secrets : gmap str (str * str); vf_rules : list (str * PassRule) }.
Definition empty_vault : VaultFile := mk_vault ∅ [].

Record Disk := mk_disk {
  d_row : option UserConfig;          (** the row of [user_config] *)
  d_app : gmap str str;               (** [app_config] *)
  d_vaults : gmap str VaultFile;
  d_keys : gmap str str               (** key files *)
}.

(** An open vault ([ConfigDbs]). *)
Record ConfigDbs := mk_dbs { h_path : str; h_key : str }.

Record MutableSettings := mk_mutable {
  m_revision : Z;
  m_user_config : UserConfig;
  m_pass_rules : list PassRule;
  m_encrypted_crc_policy : str;
  m_default_collision_policy : str;
  m_db_paths : option DbPaths;
  m_default_db_paths : DbPaths;
  m_dbs : option ConfigDbs
}.

(** What the HTTP client routes plugins by. *)
Record Routing := mk_routing { rt_available : bool; rt_proxy : option ProxyConfig; rt_plugins : gmap str bool }.

Record World := mk_world { live : MutableSettings; disk : Disk; routing : Routing }.

Definition with_live (w : World) (m : MutableSettings) : World := mk_world m (disk w) (routing w).
Definition with_disk (w : World) (d : Disk) : World := mk_world (live w) d (routing w).
Definition with_routing (w : World) (r : Routing) : World := mk_world (live w) (disk w) r.
Definition with_row (d : Disk) (u : UserConfig) : Disk := mk_disk (Some u) (d_app d) (d_vaults d) (d_keys d).
Definition with_app (d : Disk) (k v : str) : Disk := mk_disk (d_row d) (<[k := v]> (d_app d)) (d_vaults d) (d_keys d).
Definition with_vault (d : Disk) (p : str) (f : VaultFile) : Disk := mk_disk (d_row d) (d_app d) (<[p := f]> (d_vaults d)) (d_keys d).
Definition without_vault (d : Disk) (p : str) : Disk := mk_disk (d_row d) (d_app d) (delete p (d_vaults d)) (d_keys d).

(** ** The machine *)

Inductive Io :=
| ReadRow | ReadOldPassword | SpawnSave | SaveRow | LiveRouting
| RecoverMarker | RecoverRow | RecoverWrite | PreviousRow | PreviousPassword | PrepareWrite | ReloadRow | RollbackWrite | FinalizeWrite
| SetSecretsPath | SetKeyPath | LoadKey | LoadNewKey | OpenVault | ListRules | WriteRules
| PersistCrc | PersistCollision | CheckPassword | CheckApiKey | WriteApiKey | SpawnVault | CopyVault | BackupVault | RemoveVault.

Inductive Outcome := Works | Refuses | WorksThenFails | ShutDown | Dies | WorksThenDies.

Record Machine := mk_machine {
  outcome : Io -> Outcome;
  has_config_service : bool;
  host_owns_routing : bool;
  routing_ids_ok : gmap str bool -> bool;      (** every id is a workload id *)
  system_default : DbPaths;
  backup_path : str -> str                     (** [with_extension("redb.backup")] *)
}.

(** A call ends with an error or with the process. *)
Inductive Stop := Failed (e : SettingsError) | Died.

Definition Run (A : Type) : Type := Eff World Stop A.

(** One access; [None] when the store itself refuses. *)
Definition io (m : Machine) (l : Io) (err : SettingsError) {A} (f : World -> option A * World) : Run A :=
  fun w =>
    match outcome m l with
    | Works => match f w with (Some a, w') => (Ok a, w') | (None, w') => (Err (Failed err), w') end
    | Refuses => (Err (Failed err), w)
    | WorksThenFails => (Err (Failed err), (f w).2)
    | ShutDown => (Err (Failed shutdown_mid_request_error), w)
    | Dies => (Err Died, w)
    | WorksThenDies => (Err Died, (f w).2)
    end.

(** An access inside a task that runs already. *)
Definition task_io (m : Machine) (l : Io) (err : SettingsError) {A} (f : World -> option A * World) : Run A :=
  io (mk_machine (fun l => match outcome m l with ShutDown => Refuses | o => o end) (has_config_service m) (host_owns_routing m)
        (routing_ids_ok m) (system_default m) (backup_path m)) l err f.

(** A task is started; afterwards its accesses are those of a running task. *)
Definition spawn (m : Machine) (l : Io) : Run unit :=
  fun w => match outcome m l with ShutDown => (Err (Failed shutdown_mid_request_error), w) | _ => (Ok tt, w) end.

Definition fail {A} (e : SettingsError) : Run A := efail (Failed e).
Definition lift {A} (r : result SettingsError A) : Run A := match r with Ok a => eret a | Err e => fail e end.

(** [match task { Ok(a) => k(a), Err(_) => h }]; a process that died handles nothing. *)
Definition on_failure {A B} (t : Run A) (k : A -> Run B) (h : SettingsError -> Run B) : Run B :=
  ematch t k (fun s => match s with Failed e => h e | Died => efail Died end).

Definition reads {A} (f : World -> option A) : World -> option A * World := fun w => (f w, w).
Definition writes (f : World -> option World) : World -> option unit * World :=
  fun w => match f w with Some w' => (Some tt, w') | None => (None, w) end.

(** [get_user_config]: a row is made when there is none. *)
Definition get_user_config (w : World) : option UserConfig * World :=
  match d_row (disk w) with
  | Some u => (Some u, w)
  | None => (Some new_user_config, with_disk w (with_row (disk w) new_user_config))
  end.

(** [save_diesel]: the one row has id 1. *)
Definition stored_row (u : UserConfig) : UserConfig :=
  mk_user_config 1 (vault_path u) (cache_directory u) (temp_dir u) (sevenzip_path u) (transfer_dir u) (backend_mode u)
    (open_nested_in_new_tab u) (enabled_plugins u) (plugin_order u) (plugin_visibility u) (plugin_settings u) (toolbar_order u)
    (info_panel_order u) (socks5_address u) (socks5_enabled u) (socks5_username u) (plugin_proxy_settings u) (hotkey_bindings u)
    (gameta_server_enabled u) (gameta_server_url u) (drop_behavior u) (restore_tabs_on_launch u).

Definition save_user_config (u : UserConfig) (w : World) : option World := Some (with_disk w (with_row (disk w) (stored_row u))).
Definition set_config (k v : str) (w : World) : option World := Some (with_disk w (with_app (disk w) k v)).

(** ** Secrets *)

Definition PROXY_PASSWORD_KEY : str := §"proxy:socks5".
Definition GAMETA_API_KEY_KEY : str := §"gameta:api_key".
Definition PENDING_PROXY_UPDATE_KEY : str := §"journal:proxy-settings".
Definition PROXY_UPDATE_MARKER_VERSION : Z := 1.

(** [get_secret]: the outer [None] is an error, a value of another key cannot be read. *)
Definition get_secret (dbs : ConfigDbs) (k : str) (w : World) : option (option str) :=
  match d_vaults (disk w) !! h_path dbs with
  | None => None
  | Some f =>
      match vf_secrets f !! k with
      | None => Some None
      | Some (key, v) => if str_eqb key (h_key dbs) then Some (Some v) else None
      end
  end.

Inductive SecretMutation := SetSecret (key value : str) | RemoveSecret (key : str).
Definition mutation_key (m : SecretMutation) : str := match m with SetSecret k _ | RemoveSecret k => k end.

Definition mutate (key : str) (s : gmap str (str * str)) (m : SecretMutation) : gmap str (str * str) :=
  match m with SetSecret k v => <[k := (key, v)]> s | RemoveSecret k => delete k s end.

Definition apply_secret_mutations (dbs : ConfigDbs) (ms : list SecretMutation) (w : World) : option World :=
  if existsb (fun m => bool_decide (mutation_key m = [])) ms || negb (bool_decide (NoDup (map mutation_key ms))) then None
  else
    match d_vaults (disk w) !! h_path dbs with
    | None => None
    | Some f => Some (with_disk w (with_vault (disk w) (h_path dbs) (mk_vault (foldl (mutate (h_key dbs)) (vf_secrets f) ms) (vf_rules f))))
    end.

Definition set_secret (dbs : ConfigDbs) (k v : str) (w : World) : option World :=
  match d_vaults (disk w) !! h_path dbs with
  | None => None
  | Some f => Some (with_disk w (with_vault (disk w) (h_path dbs) (mk_vault (<[k := (h_key dbs, v)]> (vf_secrets f)) (vf_rules f))))
  end.

(** ** The rules in the vault *)

Definition rule_before (a b : PassRule) : Prop :=
  rule_priority b < rule_priority a \/ rule_priority a = rule_priority b /\ str_le (rule_name a) (rule_name b).

#[export] Instance rule_before_dec : RelDecision rule_before.
Proof. intros a b. unfold rule_before. apply _. Defined.

Definition decrypt_rules (key : str) (rs : list (str * PassRule)) : option (list PassRule) :=
  if forallb (fun r => str_eqb r.1 key) rs then Some (map snd rs) else None.

Definition list_pass_rules (dbs : ConfigDbs) (w : World) : option (list PassRule) :=
  f ← d_vaults (disk w) !! h_path dbs;
  rs ← decrypt_rules (h_key dbs) (vf_rules f);
  Some (stable_sort rule_before rs).

Definition replace_all_pass_rules (dbs : ConfigDbs) (rules : list PassRule) (w : World) : option World :=
  match d_vaults (disk w) !! h_path dbs with
  | None => None
  | Some f => Some (with_disk w (with_vault (disk w) (h_path dbs) (mk_vault (vf_secrets f) (map (fun r => (h_key dbs, r)) rules))))
  end.

(** [open_databases]: a vault that is not there is made. *)
Definition open_databases (paths : DbPaths) (key : str) (w : World) : option ConfigDbs * World :=
  (Some (mk_dbs (secrets_db paths) key),
   match d_vaults (disk w) !! secrets_db paths with
   | Some _ => w
   | None => with_disk w (with_vault (disk w) (secrets_db paths) empty_vault)
   end).

Definition load_key (p : str) (w : World) : option str := d_keys (disk w) !! p.

Section ops.
Context {SX : SettingsExternals} (m : Machine).

(** ** The journal of the proxy settings *)

Definition snapshot_of (u : UserConfig) : ProxySettingsSnapshot :=
  mk_proxy_snapshot (socks5_enabled u) (socks5_address u) (socks5_username u).

Definition password_mutation (password : option str) : SecretMutation :=
  match password with Some v => SetSecret PROXY_PASSWORD_KEY v | None => RemoveSecret PROXY_PASSWORD_KEY end.

Definition rollback (l : Io) (err : SettingsError) (dbs : ConfigDbs) (marker : PendingProxyUpdate) : Run unit :=
  task_io m l err (writes (apply_secret_mutations dbs
    [password_mutation (previous_password marker); RemoveSecret PENDING_PROXY_UPDATE_KEY])).

Definition finalize (l : Io) (err : SettingsError) (dbs : ConfigDbs) : Run unit :=
  task_io m l err (writes (apply_secret_mutations dbs [RemoveSecret PENDING_PROXY_UPDATE_KEY])).

Inductive ProxySaveOutcome := Committed | CommittedPendingFinalize.
Inductive ProxyRecoveryOutcome := NoPendingUpdate | RolledBack | Finalized.

Definition finish_commit (err : SettingsError) (dbs : ConfigDbs) : Run ProxySaveOutcome :=
  on_failure (finalize FinalizeWrite err dbs) (fun _ => eret Committed) (fun _ => eret CommittedPendingFinalize).

Definition recover_pending (err : SettingsError) (dbs : ConfigDbs) : Run ProxyRecoveryOutcome :=
  let! found := task_io m RecoverMarker err (reads (get_secret dbs PENDING_PROXY_UPDATE_KEY)) in
  match found with
  | None => eret NoPendingUpdate
  | Some json =>
      match marker_of_json json with
      | None => fail err
      | Some marker =>
          if negb (marker_version marker =? PROXY_UPDATE_MARKER_VERSION) then fail err
          else
            let! persisted := task_io m RecoverRow err get_user_config in
            if bool_decide (snapshot_of persisted = marker_candidate marker) then
              let! _ := finalize RecoverWrite err dbs in eret Finalized
            else if bool_decide (snapshot_of persisted = marker_previous marker) then
              let! _ := rollback RecoverWrite err dbs marker in eret RolledBack
            else fail err
      end
  end.

Definition save (err : SettingsError) (dbs : ConfigDbs) (candidate : UserConfig) (password : option str) : Run ProxySaveOutcome :=
  let! _ := recover_pending err dbs in
  let! previous := task_io m PreviousRow err get_user_config in
  let! previous_password := task_io m PreviousPassword err (reads (get_secret dbs PROXY_PASSWORD_KEY)) in
  let marker := mk_pending PROXY_UPDATE_MARKER_VERSION (snapshot_of previous) (snapshot_of candidate) previous_password in
  let! _ := task_io m PrepareWrite err (writes (apply_secret_mutations dbs
              [password_mutation password; SetSecret PENDING_PROXY_UPDATE_KEY (marker_json marker)])) in
  on_failure (task_io m SaveRow err (writes (save_user_config candidate)))
    (fun _ => finish_commit err dbs)
    (fun _ =>
       on_failure (task_io m ReloadRow err get_user_config)
         (fun persisted =>
            if bool_decide (snapshot_of persisted = marker_candidate marker) then finish_commit err dbs
            else if bool_decide (snapshot_of persisted = marker_previous marker) then
              on_failure (rollback RollbackWrite err dbs marker) (fun _ => fail err) (fun _ => fail err)
            else fail err)
         (fun _ => fail err)).

(** ** Routing *)

Definition unavailable_routing : Routing := mk_routing false None ∅.

Definition apply_proxy_routing (config : option ProxyConfig) (map : gmap str bool) (w : World) : World :=
  with_routing w
    (if routing_ids_ok m map then
       mk_routing true (config ≫= (fun c => if proxy_enabled c && proxy_builds c then Some c else None)) map
     else unavailable_routing).

Definition mark_plugin_routing_unavailable (w : World) : World := with_routing w unavailable_routing.

Definition apply_plugin_proxy_map (map : gmap str bool) (w : World) : World :=
  with_routing w
    (if routing_ids_ok m map then mk_routing (rt_available (routing w)) (rt_proxy (routing w)) map else unavailable_routing).

Definition resolve_proxy_config (u : UserConfig) (dbs : ConfigDbs) (w : World) : option (option ProxyConfig) :=
  if negb (socks5_enabled u) then Some None
  else if bool_decide (default [] (socks5_address u) = []) then Some None
  else
    match socks5_username u with
    | Some _ =>
        match get_secret dbs PROXY_PASSWORD_KEY w with
        | None => None
        | Some password => Some (Some (mk_proxy true (default [] (socks5_address u)) (socks5_username u) password))
        end
    | None => Some (Some (mk_proxy true (default [] (socks5_address u)) None None))
    end.

Definition apply_proxy_to_client (config : option ProxyConfig) (u : UserConfig) (w : World) : option unit * World :=
  if negb (socks5_enabled u) then (Some tt, apply_proxy_routing None (effective_plugin_proxy_map u) w)
  else
    match config with
    | None => (None, mark_plugin_routing_unavailable w)
    | Some c =>
        if negb (proxy_enabled c) then (None, mark_plugin_routing_unavailable w)
        else if negb (proxy_builds c) then (None, mark_plugin_routing_unavailable w)
        else (Some tt, apply_proxy_routing (Some c) (effective_plugin_proxy_map u) w)
    end.

(** Whatever goes wrong is logged only. *)
Definition apply_live_proxy_routing (dbs : ConfigDbs) (u : UserConfig) : Run unit :=
  if host_owns_routing m then eret tt
  else
    on_failure
      (io m LiveRouting settings_unavailable_error
         (fun w => match resolve_proxy_config u dbs w with
                   | None => (None, w)
                   | Some config => apply_proxy_to_client config u w
                   end))
      (fun _ => eret tt) (fun _ => eret tt).

(** ** Reading the settings *)

Definition security_dto (s : MutableSettings) : SecuritySettingsDto :=
  mk_security_dto (secrets_db <$> m_db_paths s) (m_db_paths s ≫= key_file) (Some (secrets_db (m_default_db_paths s)))
    (key_file (m_default_db_paths s)) (m_encrypted_crc_policy s) (bool_decide (is_Some (m_dbs s))).

Definition secret_configured (l : Io) (k : str) : Run bool :=
  let! w := eget in
  match m_dbs (live w) with
  | None => eret false
  | Some dbs =>
      let! v := task_io m l (persistence_error §"reading secret storage") (reads (get_secret dbs k)) in
      eret (bool_decide (is_Some v))
  end.

Definition run_settings : Run SettingsSnapshot :=
  let! password := secret_configured CheckPassword PROXY_PASSWORD_KEY in
  let! api_key := secret_configured CheckApiKey GAMETA_API_KEY_KEY in
  let! w := eget in
  let s := live w in
  eret (mk_settings (m_revision s) (archive_dto (m_user_config s) (m_default_collision_policy s))
          (network_dto (m_user_config s) password api_key) (security_dto s) (general_dto (m_user_config s))).

Definition run_password_rules (w : World) : list PasswordRuleSummary := map summarize_pass_rule (m_pass_rules (live w)).

(** ** Patching the settings *)

(** The working copy with the whole patch applied: row, CRC policy, collision policy. *)
Definition apply_patch (u : UserConfig) (crc collision : str) (p : SettingsPatch) : result SettingsError (UserConfig * str * str) :=
  let? (u, collision) := match patch_archive p with Some ap => apply_archive_patch u collision ap | None => Ok (u, collision) end in
  let? u := match patch_network p with Some np => apply_network_patch u np | None => Ok u end in
  let? u := match patch_general p with Some gp => apply_general_patch u gp | None => Ok u end in
  let? crc := match patch_security p with Some sp => apply_security_value_patch crc sp | None => Ok crc end in
  Ok (u, crc, collision).

Definition touches_socks5_identity (p : SettingsPatch) : bool :=
  match patch_network p with Some np => network_patch_touches_socks5_identity np | None => false end.
Definition touches_plugin_proxy_map (p : SettingsPatch) : bool :=
  match patch_network p with Some np => network_patch_touches_plugin_proxy_map np | None => false end.
Definition touches_vault_paths (p : SettingsPatch) : bool :=
  match patch_security p with Some sp => security_patch_touches_vault_paths sp | None => false end.

Definition patched_vault_paths (current : option DbPaths) (defaults : DbPaths) (p : SecuritySettingsPatch) : DbPaths :=
  apply_vault_path_patch (default defaults current) p defaults.

Definition load_pass_rules (dbs : ConfigDbs) : Run (list PassRule) :=
  task_io m ListRules (persistence_error §"loading password rules") (reads (list_pass_rules dbs)).

Definition repoint_vault_paths (current : option DbPaths) (defaults : DbPaths) (p : SecuritySettingsPatch)
  : Run (DbPaths * ConfigDbs * list PassRule) :=
  let paths := patched_vault_paths current defaults p in
  let! _ := io m SetSecretsPath (persistence_error §"saving vault path overrides") (writes (set_config §"secrets_db_path" (secrets_db paths))) in
  let! _ := match key_file paths with
            | Some kf => task_io m SetKeyPath (persistence_error §"saving vault path overrides") (writes (set_config §"key_file_path" kf))
            | None => eret tt
            end in
  match key_file paths with
  | None => fail vault_key_file_missing_error
  | Some kf =>
      let! key := task_io m LoadKey (persistence_error §"loading the vault key file") (reads (load_key kf)) in
      let! dbs := task_io m OpenVault (persistence_error §"opening the vault at the new location") (open_databases paths key) in
      let! rules := load_pass_rules dbs in
      eret (paths, dbs, rules)
  end.

Definition persist_app_config_policies (paths : option DbPaths) (crc collision : str) : Run unit :=
  match paths with
  | None => eret tt
  | Some _ =>
      let! _ := io m PersistCrc (persistence_error §"saving configuration policies") (writes (set_config §"encrypted_crc_policy" crc)) in
      task_io m PersistCollision (persistence_error §"saving configuration policies") (writes (set_config §"pipeline.default_collision_policy" collision))
  end.

(** The row is written: through the journal when the identity of the proxy is touched. *)
Definition persist_row (p : SettingsPatch) (dbs : option ConfigDbs) (password : option str) (u : UserConfig) : Run unit :=
  if touches_socks5_identity p then
    match dbs with
    | None => fail vault_unavailable_error
    | Some dbs =>
        let! _ := spawn m SpawnSave in
        let! _ := save (persistence_error §"saving network settings") dbs u password in
        apply_live_proxy_routing dbs u
    end
  else
    let! _ := io m SaveRow (persistence_error §"saving settings") (writes (save_user_config u)) in
    if touches_plugin_proxy_map p then eput (apply_plugin_proxy_map (effective_plugin_proxy_map u)) else eret tt.

(** The last phase. *)
Definition commit_settings (u : UserConfig) (crc collision : str) (vault : option (DbPaths * ConfigDbs * list PassRule))
    (s : MutableSettings) : MutableSettings :=
  match vault with
  | Some (paths, dbs, rules) => mk_mutable (m_revision s + 1) u rules crc collision (Some paths) (m_default_db_paths s) (Some dbs)
  | None => mk_mutable (m_revision s + 1) u (m_pass_rules s) crc collision (m_db_paths s) (m_default_db_paths s) (m_dbs s)
  end.

Definition run_update_settings (p : SettingsPatch) : Run SettingsSnapshot :=
  let! w := eget in
  let s := live w in
  if negb (patch_expected_revision p =? m_revision s) then fail (conflict_error (m_revision s))
  else if negb (has_config_service m) then fail settings_unavailable_error
  else
    let! row := io m ReadRow (backend_error §"reading current settings") get_user_config in
    let! password := (if touches_socks5_identity p then
                        match m_dbs s with
                        | Some dbs => io m ReadOldPassword (backend_error §"reading proxy password") (reads (get_secret dbs PROXY_PASSWORD_KEY))
                        | None => eret None
                        end
                      else eret None) in
    let! (u, crc, collision) := lift (apply_patch row (m_encrypted_crc_policy s) (m_default_collision_policy s) p) in
    let! _ := (if touches_socks5_identity p then lift (validate_proxy_for_storage u password) else eret tt) in
    let! _ := persist_row p (m_dbs s) password u in
    let! vault := (match patch_security p with
                   | Some sp => if touches_vault_paths p then
                                  let! v := repoint_vault_paths (m_db_paths s) (m_default_db_paths s) sp in eret (Some v)
                                else eret None
                   | None => eret None
                   end) in
    let! _ := persist_app_config_policies (m_db_paths s) crc collision in
    let! now := eget in
    if negb (patch_expected_revision p =? m_revision (live now)) then fail (conflict_error (m_revision (live now)))
    else
      let! _ := eput (fun w => with_live w (commit_settings u crc collision vault (live w))) in
      run_settings.

(** ** Secrets *)

Definition with_revision (s : MutableSettings) (u : UserConfig) : MutableSettings :=
  mk_mutable (m_revision s + 1) u (m_pass_rules s) (m_encrypted_crc_policy s) (m_default_collision_policy s) (m_db_paths s)
    (m_default_db_paths s) (m_dbs s).

Definition run_set_gameta_api_key (value : str) : Run unit :=
  let! w := eget in
  match m_dbs (live w) with
  | None => fail vault_unavailable_error
  | Some dbs =>
      let! _ := io m WriteApiKey (persistence_error §"saving gameta API key") (writes (set_secret dbs GAMETA_API_KEY_KEY value)) in
      eput (fun w => with_live w (with_revision (live w) (m_user_config (live w))))
  end.

Definition run_set_socks5_password (value : option str) : Run unit :=
  let! w := eget in
  match m_dbs (live w) with
  | None => fail vault_unavailable_error
  | Some dbs =>
      if negb (has_config_service m) then fail settings_unavailable_error
      else
        let! u := io m ReadRow (backend_error §"reading current settings") get_user_config in
        let! _ := save (persistence_error §"saving the SOCKS5 password") dbs u value in
        let! _ := eput (fun w => with_live w (with_revision (live w) u)) in
        apply_live_proxy_routing dbs u
  end.

(** ** The vault *)

Definition with_dbs (s : MutableSettings) (dbs : option ConfigDbs) : MutableSettings :=
  mk_mutable (m_revision s) (m_user_config s) (m_pass_rules s) (m_encrypted_crc_policy s) (m_default_collision_policy s)
    (m_db_paths s) (m_default_db_paths s) dbs.

Definition close_vault_handle (w : World) : World := with_live w (with_dbs (live w) None).

Definition with_new_vault (s : MutableSettings) (paths : DbPaths) (dbs : ConfigDbs) (rules : list PassRule) : MutableSettings :=
  mk_mutable (m_revision s + 1) (m_user_config s) rules (m_encrypted_crc_policy s) (m_default_collision_policy s) (Some paths)
    (m_default_db_paths s) (Some dbs).

(** [fs::copy]: a file copied onto itself is truncated, and an empty file is an empty vault. *)
Definition copy_vault (src dst : str) (w : World) : option World :=
  match d_vaults (disk w) !! src with
  | None => None
  | Some f => Some (with_disk w (with_vault (disk w) dst (if str_eqb src dst then empty_vault else f)))
  end.

(** [SecretsService::move_vault]. *)
Definition move_vault (current : option DbPaths) (destination : str) : Run (DbPaths * ConfigDbs) :=
  let err := persistence_error §"moving the vault" in
  let paths := default (system_default m) current in
  let! _ := task_io m CopyVault err (writes (copy_vault (secrets_db paths) destination)) in
  let! _ := task_io m SetSecretsPath err (writes (set_config §"secrets_db_path" destination)) in
  let paths := mk_paths (config_db paths) (cache_db paths) destination (key_file paths) in
  match key_file paths with
  | None => fail err
  | Some kf =>
      let! key := task_io m LoadKey err (reads (load_key kf)) in
      let! dbs := task_io m OpenVault err (open_databases paths key) in
      eret (paths, dbs)
  end.

Definition run_move_vault (destination : str) : Run unit :=
  let! w := eget in
  let! _ := eput close_vault_handle in
  let! _ := spawn m SpawnVault in
  let! (paths, dbs) := move_vault (m_db_paths (live w)) destination in
  let! rules := load_pass_rules dbs in
  eput (fun w => with_live w (with_new_vault (live w) paths dbs rules)).

(** [SecretsService::rekey_vault]. *)
Definition rekey_vault (current : option DbPaths) (new_key_file : str) : Run (DbPaths * ConfigDbs * list PassRule) :=
  let err := persistence_error §"rekeying the vault" in
  let paths := default (system_default m) current in
  match key_file paths with
  | None => fail err
  | Some kf =>
      let! old_key := task_io m LoadKey err (reads (load_key kf)) in
      let! new_key := task_io m LoadNewKey err (reads (load_key new_key_file)) in
      let! rules := task_io m ListRules err (fun w =>
                      let '(dbs, w) := open_databases paths old_key w in (dbs ≫= (fun dbs => list_pass_rules dbs w), w)) in
      let! _ := task_io m BackupVault err (writes (fun w => f ← d_vaults (disk w) !! secrets_db paths;
                      Some (with_disk w (with_vault (disk w) (backup_path m (secrets_db paths)) f)))) in
      let! _ := task_io m RemoveVault err (writes (fun w => Some (with_disk w (without_vault (disk w) (secrets_db paths))))) in
      let! dbs := task_io m OpenVault err (open_databases paths new_key) in
      let! _ := task_io m WriteRules err (writes (replace_all_pass_rules dbs rules)) in
      let! _ := task_io m SetKeyPath err (writes (set_config §"key_file_path" new_key_file)) in
      eret (mk_paths (config_db paths) (cache_db paths) (secrets_db paths) (Some new_key_file), dbs, rules)
  end.

Definition run_rekey_vault (new_key_file : str) : Run unit :=
  let! w := eget in
  let! _ := eput close_vault_handle in
  let! _ := spawn m SpawnVault in
  let! (paths, dbs, rules) := rekey_vault (m_db_paths (live w)) new_key_file in
  eput (fun w => with_live w (with_new_vault (live w) paths dbs rules)).

(** ** Password rules *)

Definition with_rules (s : MutableSettings) (rules : list PassRule) : MutableSettings :=
  mk_mutable (m_revision s) (m_user_config s) rules (m_encrypted_crc_policy s) (m_default_collision_policy s) (m_db_paths s)
    (m_default_db_paths s) (m_dbs s).

Definition persist_pass_rules (dbs : ConfigDbs) (rules : list PassRule) : Run unit :=
  io m WriteRules (persistence_error §"saving password rules") (writes (replace_all_pass_rules dbs rules)).

(** The end shared by the three calls. *)
Definition store_rules (dbs : ConfigDbs) (rules : list PassRule) : Run (list PasswordRuleSummary) :=
  let! _ := persist_pass_rules dbs rules in
  let! _ := eput (fun w => with_live w (with_rules (live w) rules)) in
  eret (map summarize_pass_rule rules).

Fixpoint position (name : str) (rules : list PassRule) : option nat :=
  match rules with
  | [] => None
  | r :: rules => if str_eqb (rule_name r) name then Some O else S <$> position name rules
  end.

Definition run_upsert_password_rule (r : PasswordRuleInput) : Run (list PasswordRuleSummary) :=
  let! _ := lift (validate_password_rule_input r) in
  let! w := eget in
  match m_dbs (live w) with
  | None => fail vault_unavailable_error
  | Some dbs =>
      let rules := m_pass_rules (live w) in
      let existing := position (ri_name r) rules in
      let! password := (match ri_password r, existing with
                        | Some secret, _ => eret secret
                        | None, Some i => match rules !! i with Some old => eret (rule_password old) | None => fail password_required_for_new_rule_error end
                        | None, None => fail password_required_for_new_rule_error
                        end) in
      let new_rule := mk_rule (ri_name r) (ri_pattern r) password (ri_priority r) (ri_enabled r) in
      store_rules dbs (match existing with Some i => <[i := new_rule]> rules | None => rules ++ [new_rule] end)
  end.

(** The map by name: of rules with one name the last. *)
Definition rule_by_name (rules : list PassRule) (name : str) : option PassRule :=
  find (fun r => str_eqb (rule_name r) name) (rev rules).

Fixpoint edited_rules (current : list PassRule) (edits : list PasswordRuleEditInput) : result SettingsError (list PassRule) :=
  match edits with
  | [] => Ok []
  | e :: edits =>
      let? password := (match re_password e with
                        | Some secret => Ok secret
                        | None =>
                            match re_original_name e with
                            | None => Err password_required_for_new_rule_error
                            | Some original =>
                                match rule_by_name current original with
                                | None => Err password_rule_original_name_not_found_error
                                | Some old => Ok (rule_password old)
                                end
                            end
                        end) in
      let? rest := edited_rules current edits in
      Ok (mk_rule (re_name e) (re_pattern e) password (re_priority e) (re_enabled e) :: rest)
  end.

Definition run_replace_password_rules (edits : list PasswordRuleEditInput) : Run (list PasswordRuleSummary) :=
  let! w := eget in
  match m_dbs (live w) with
  | None => fail vault_unavailable_error
  | Some dbs =>
      let current := m_pass_rules (live w) in
      let! _ := lift (validate_password_rule_edit_inputs edits (list_to_set (map rule_name current))) in
      let! replacement := lift (edited_rules current edits) in
      store_rules dbs replacement
  end.

Definition run_delete_password_rule (name : str) : Run (list PasswordRuleSummary) :=
  let! w := eget in
  match m_dbs (live w) with
  | None => fail vault_unavailable_error
  | Some dbs =>
      match position name (m_pass_rules (live w)) with
      | None => fail (rule_not_found_error name)
      | Some i => store_rules dbs (delete i (m_pass_rules (live w)))
      end
  end.
End ops.
