(* ===== verification/SettingsProps.v ===== *)
(** What the settings guarantee: the proxy's row and password change together whatever
    fails; an update is a compare-and-set on the revision; a patch changes what it says;
    the rules of the vault; and where the vault's own operations lose something. *)

From stdpp Require Import base tactics option list gmap sorting strings.
From Stdlib Require Import ZArith Lia Ascii.
From S2P Require Import Prelude Text AppError Effects Settings SettingsOps.

#[local] Arguments String.list_ascii_of_string : simpl never.
Local Open Scope arclain_scope.
Local Open Scope Z_scope.

(** * Accesses *)

Section access.
Context {SX : SettingsExternals}.

(** An access leaves the state as it was or as the store left it. *)
Lemma triple_io m l err {A} (f : World -> option A * World) (P : World -> Prop) (Q : A -> World -> Prop) (X : World -> Prop) :
  (forall w, P w -> X w) -> (forall w, P w -> X (f w).2) ->
  (forall w a w', P w -> f w = (Some a, w') -> Q a w') ->
  triple P (io m l err f) Q (fun _ => X).
Proof.
  intros H1 H2 H3 w Hw. unfold io. specialize (H1 w Hw). specialize (H2 w Hw).
  destruct (outcome m l); try done. destruct (f w) as [[a|] w'] eqn:E; [by eapply H3|done].
Qed.

Lemma triple_task_io m l err {A} (f : World -> option A * World) (P : World -> Prop) (Q : A -> World -> Prop) (X : World -> Prop) :
  (forall w, P w -> X w) -> (forall w, P w -> X (f w).2) ->
  (forall w a w', P w -> f w = (Some a, w') -> Q a w') ->
  triple P (task_io m l err f) Q (fun _ => X).
Proof. apply triple_io. Qed.

(** Reading leaves the state alone. *)
Lemma triple_task_read m l err {A} (f : World -> option A) (P : World -> Prop) (Q : A -> World -> Prop) (X : World -> Prop) :
  (forall w, P w -> X w) -> (forall w a, P w -> f w = Some a -> Q a w) -> triple P (task_io m l err (reads f)) Q (fun _ => X).
Proof. intros H1 H2. apply triple_task_io; [done|done|]. intros w a w' Hw [= H <-]. eauto. Qed.

(** A write happened or did not. *)
Lemma triple_task_write m l err (f : World -> option World) (P Q X : World -> Prop) :
  (forall w, P w -> X w) -> (forall w w', P w -> f w = Some w' -> Q w' /\ X w') ->
  triple P (task_io m l err (writes f)) (fun _ => Q) (fun _ => X).
Proof.
  intros H1 H2. apply triple_task_io; [done| |]; unfold writes.
  - intros w Hw. destruct (f w) as [w'|] eqn:E; [by eapply H2|by apply H1].
  - intros w a w' Hw. destruct (f w) as [w''|] eqn:E; [|done]. intros [= _ <-]. by eapply H2.
Qed.

Lemma triple_on_failure {A B} (P : World -> Prop) (t : Run A) (k : A -> Run B) h R S Q X :
  triple P t R (fun _ => S) -> (forall a, triple (R a) (k a) Q (fun _ => X)) -> (forall e, triple S (h e) Q (fun _ => X)) ->
  (forall w, S w -> X w) -> triple P (on_failure t k h) Q (fun _ => X).
Proof.
  intros Ht Hk Hh HS. eapply triple_match; [exact Ht|exact Hk|]. intros [e|]; [apply Hh|]. by apply triple_fail.
Qed.

(** * The journal *)

(** The two secrets of the journal can be read. *)
Definition readable (h : ConfigDbs) (w : World) : Prop :=
  get_secret h PROXY_PASSWORD_KEY w <> None /\ get_secret h PENDING_PROXY_UPDATE_KEY w <> None.

Definition password_in (h : ConfigDbs) (w : World) : option str := default None (get_secret h PROXY_PASSWORD_KEY w).
Definition marker_in (h : ConfigDbs) (w : World) : option str := default None (get_secret h PENDING_PROXY_UPDATE_KEY w).

(** The row a read finds. *)
Definition row_of (w : World) : UserConfig := default new_user_config (d_row (disk w)).

Definition same_vaults (w w' : World) : Prop := d_vaults (disk w') = d_vaults (disk w).

Lemma get_secret_same h k w w' : same_vaults w w' -> get_secret h k w' = get_secret h k w.
Proof. unfold same_vaults, get_secret. by intros ->. Qed.

Lemma get_row_spec w r w' : get_user_config w = (r, w') -> r = Some (row_of w) /\ row_of w' = row_of w /\ same_vaults w w'.
Proof. unfold get_user_config, row_of, same_vaults. destruct (d_row (disk w)) as [u|] eqn:E; intros [= <- <-]; cbn; by rewrite ?E. Qed.

Lemma save_row_spec u w w' : save_user_config u w = Some w' -> row_of w' = stored_row u /\ same_vaults w w'.
Proof. by intros [= <-]. Qed.

(** The vault after mutations of the two secrets. *)
Lemma mutations_spec h ms w w' :
  readable h w -> apply_secret_mutations h ms w = Some w' ->
  d_row (disk w') = d_row (disk w) /\
  forall k, get_secret h k w' =
    foldl (fun s m => if bool_decide (mutation_key m = k) then Some (match m with SetSecret _ v => Some v | RemoveSecret _ => None end) else s)
      (get_secret h k w) ms.
Proof.
  intros [Hr _]. unfold apply_secret_mutations. case_match; [done|]. unfold get_secret in Hr.
  destruct (d_vaults (disk w) !! h_path h) as [f|] eqn:Ef; [|done]. intros [= <-]. split; [done|]. intros k. clear Hr H.
  unfold get_secret. cbn. rewrite lookup_insert_eq, Ef. cbn. generalize (vf_secrets f). clear f Ef.
  induction ms as [|m ms IH] using rev_ind; intros s; [done|]. rewrite !foldl_app. cbn [foldl].
  rewrite <- (IH s). set (s' := foldl (mutate (h_key h)) s ms).
  destruct m as [k' v|k']; cbn [mutate mutation_key]; case_bool_decide as E; subst.
  - by rewrite lookup_insert_eq, str_eqb_refl.
  - by rewrite lookup_insert_ne.
  - by rewrite lookup_delete_eq.
  - by rewrite lookup_delete_ne.
Qed.

Lemma password_not_pending : PROXY_PASSWORD_KEY <> PENDING_PROXY_UPDATE_KEY.
Proof. by vm_compute. Qed.

(** The three writes of the journal: the password with a marker, or with none, or the marker alone. *)
Lemma journal_write h pw (mark : option str) w w' :
  readable h w ->
  apply_secret_mutations h [password_mutation pw;
    match mark with Some j => SetSecret PENDING_PROXY_UPDATE_KEY j | None => RemoveSecret PENDING_PROXY_UPDATE_KEY end] w = Some w' ->
  readable h w' /\ row_of w' = row_of w /\ password_in h w' = pw /\ marker_in h w' = mark.
Proof.
  intros Hr H. apply mutations_spec in H as [Hrow Hg]; [|done]. unfold readable, password_in, marker_in, row_of.
  rewrite Hrow, !Hg. pose proof password_not_pending.
  by destruct pw, mark; cbn [foldl password_mutation mutation_key]; repeat case_bool_decide; try congruence.
Qed.

Lemma journal_finalize h w w' :
  readable h w -> apply_secret_mutations h [RemoveSecret PENDING_PROXY_UPDATE_KEY] w = Some w' ->
  readable h w' /\ row_of w' = row_of w /\ password_in h w' = password_in h w /\ marker_in h w' = None.
Proof.
  intros Hr H. pose proof Hr as [Hr1 Hr2]. apply mutations_spec in H as [Hrow Hg]; [|done]. unfold readable, password_in, marker_in, row_of.
  rewrite Hrow, !Hg. pose proof password_not_pending. cbn [foldl mutation_key].
  by repeat case_bool_decide; try congruence.
Qed.

(** A marker that stands for one of the two states of the row. *)
Definition marks (w : World) (p : PendingProxyUpdate) : Prop :=
  marker_version p = PROXY_UPDATE_MARKER_VERSION
  /\ (snapshot_of (row_of w) = marker_candidate p \/ snapshot_of (row_of w) = marker_previous p).

(** The journal is empty or its entry fits the row. *)
Definition consistent (h : ConfigDbs) (w : World) : Prop :=
  readable h w /\
  match marker_in h w with None => True | Some j => exists p, marker_of_json j = Some p /\ marks w p end.

(** The proxy settings that count: identity and password once the journal is settled. *)
Definition settled (h : ConfigDbs) (w : World) : ProxySettingsSnapshot * option str :=
  match marker_in h w ≫= marker_of_json with
  | None => (snapshot_of (row_of w), password_in h w)
  | Some p =>
      if bool_decide (snapshot_of (row_of w) = marker_candidate p) then (marker_candidate p, password_in h w)
      else (marker_previous p, previous_password p)
  end.

Lemma same_vaults_view h w w' :
  same_vaults w w' -> (readable h w <-> readable h w') /\ password_in h w' = password_in h w /\ marker_in h w' = marker_in h w.
Proof. intros H. unfold readable, password_in, marker_in. by rewrite !(get_secret_same h _ w w' H). Qed.

Lemma read_row_keeps h w r w' :
  get_user_config w = (r, w') -> consistent h w -> consistent h w' /\ settled h w' = settled h w /\ marker_in h w' = marker_in h w /\ password_in h w' = password_in h w.
Proof.
  intros (_ & Hrow & Hv)%get_row_spec [Hr Hm]. destruct (same_vaults_view h _ _ Hv) as (Hr' & Hp & Hk).
  unfold consistent, settled, marks. rewrite Hrow, Hp, Hk. split; [|done]. split; [by apply Hr'|exact Hm].
Qed.

Lemma no_marker_settled h w : readable h w -> marker_in h w = None -> consistent h w /\ settled h w = (snapshot_of (row_of w), password_in h w).
Proof. intros Hr Hm. unfold consistent, settled. by rewrite Hm. Qed.

Section journal.
Context (h : ConfigDbs) (m : Machine) (err : SettingsError) (s0 : ProxySettingsSnapshot * option str).

Definition holds_at (w : World) : Prop := consistent h w /\ settled h w = s0.

Lemma recover_spec :
  triple holds_at (recover_pending m err h) (fun _ w => holds_at w /\ marker_in h w = None) (fun _ => holds_at).
Proof.
  unfold recover_pending. eapply triple_bind.
  { eapply (triple_task_read _ _ _ _ _ (fun found w => holds_at w /\ marker_in h w = found)); [done|].
    intros w a Hw Ha. split; [done|]. unfold marker_in. by rewrite Ha. }
  intros [json|]; [|apply triple_ret; tauto].
  destruct (marker_of_json json) as [p|] eqn:Ep; [|apply triple_fail; tauto].
  destruct (marker_version p =? PROXY_UPDATE_MARKER_VERSION); cbn [negb]; [|apply triple_fail; tauto].
  eapply (triple_bind _ _ _ (fun u w => (holds_at w /\ marker_in h w = Some json) /\ row_of w = u)).
  { apply triple_task_io; [tauto| |].
    - intros w [[Hc Hs] Hm]. destruct (get_user_config w) as [r w'] eqn:E. cbn.
      destruct (read_row_keeps h _ _ _ E Hc) as (Hc' & Hs' & _). split; [done|congruence].
    - intros w a w' [[Hc Hs] Hm] E. destruct (read_row_keeps h _ _ _ E Hc) as (Hc' & Hs' & Hm' & _).
      apply get_row_spec in E as ([= ->] & Hrow & _). split; [|done]. split; [split; congruence|congruence]. }
  intros u. assert (Hset : forall w, ((holds_at w /\ marker_in h w = Some json) /\ row_of w = u) ->
    readable h w /\ s0 = if bool_decide (snapshot_of u = marker_candidate p) then (marker_candidate p, password_in h w) else (marker_previous p, previous_password p)).
  { intros w [[[[Hr _] Hs] Hm] Hu]. split; [done|]. rewrite <- Hs, <- Hu. unfold settled. rewrite Hm. cbn. by rewrite Ep. }
  case_bool_decide as Hcand; [|case_bool_decide as Hprev].
  - apply (triple_bind _ _ _ (fun _ w => holds_at w /\ marker_in h w = None)); [|intros x; by apply triple_ret].
    apply triple_task_write; [tauto|]. intros w w' Hw E. destruct (Hset w Hw) as [Hr Hs0]. destruct Hw as [_ Hu].
    apply journal_finalize in E as (Hr' & Hrow & Hp & Hm); [|done]. destruct (no_marker_settled h w' Hr' Hm) as [Hc Hs].
    assert (holds_at w'); [|done]. split; [done|]. by rewrite Hs, Hrow, Hp, Hu, Hcand.
  - apply (triple_bind _ _ _ (fun _ w => holds_at w /\ marker_in h w = None)); [|intros x; by apply triple_ret].
    apply triple_task_write; [tauto|]. intros w w' Hw E. destruct (Hset w Hw) as [Hr Hs0]. destruct Hw as [_ Hu].
    apply (journal_write h _ None) in E as (Hr' & Hrow & Hp & Hm); [|done]. destruct (no_marker_settled h w' Hr' Hm) as [Hc Hs].
    assert (holds_at w'); [|done]. split; [done|]. by rewrite Hs, Hrow, Hp, Hu, Hprev.
  - apply triple_fail. tauto.
Qed.
End journal.

(** Putting a new identity and password. *)
Section save.
Context (h : ConfigDbs) (m : Machine) (err : SettingsError) (s0 : ProxySettingsSnapshot * option str)
  (candidate : UserConfig) (password : option str).

Definition new_pair : ProxySettingsSnapshot * option str := (snapshot_of candidate, password).

(** The journal stands for the old pair or for the new one. *)
Definition one_of_two (w : World) : Prop := consistent h w /\ (settled h w = s0 \/ settled h w = new_pair).
Definition is_new (w : World) : Prop := consistent h w /\ settled h w = new_pair.

Lemma is_new_one w : is_new w -> one_of_two w.
Proof. intros [H1 H2]. split; auto. Qed.

Lemma holds_one w : holds_at h s0 w -> one_of_two w.
Proof. intros [H1 H2]. split; auto. Qed.

(** The entry is in the journal and the row is one of the two. *)
Record prepared (previous : UserConfig) (old : option str) (w : World) : Prop := {
  pr_readable : readable h w;
  pr_marker : marker_in h w = Some (marker_json (mk_pending PROXY_UPDATE_MARKER_VERSION (snapshot_of previous) (snapshot_of candidate) old));
  pr_password : password_in h w = password;
  pr_row : row_of w = previous \/ row_of w = stored_row candidate
}.

Lemma prepared_settled previous old w :
  s0 = (snapshot_of previous, old) -> prepared previous old w ->
  one_of_two w /\ (snapshot_of (row_of w) = snapshot_of candidate -> is_new w).
Proof.
  intros -> [Hr Hm Hp Hrow]. assert (Hc : consistent h w).
  { split; [done|]. rewrite Hm. eexists. split; [apply marker_roundtrip|]. split; [done|]. cbn. destruct Hrow as [-> | ->]; auto. }
  assert (Hs : settled h w = if bool_decide (snapshot_of (row_of w) = snapshot_of candidate) then (snapshot_of candidate, password)
                             else (snapshot_of previous, old)).
  { unfold settled. rewrite Hm. cbn. by rewrite marker_roundtrip, Hp. }
  split.
  - split; [done|]. rewrite Hs. case_bool_decide; auto.
  - intros E. split; [done|]. by rewrite Hs, bool_decide_eq_true_2.
Qed.

Lemma finish_commit_spec previous old :
  s0 = (snapshot_of previous, old) ->
  triple (fun w => prepared previous old w /\ snapshot_of (row_of w) = snapshot_of candidate)
    (finish_commit m err h) (fun _ => is_new) (fun _ => one_of_two).
Proof.
  intros Hs0. assert (Hnew : forall w, prepared previous old w /\ snapshot_of (row_of w) = snapshot_of candidate -> is_new w).
  { intros w [Hp He]. by apply (prepared_settled previous old w Hs0 Hp). }
  eapply (triple_on_failure _ _ _ _ (fun _ => is_new) is_new); [|intros a; by apply triple_ret|intros e; by apply triple_ret|apply is_new_one].
  apply triple_task_write; [done|]. intros w w' Hw E. assert (is_new w'); [|done].
  destruct Hw as [[Hr _ Hp _] He]. apply journal_finalize in E as (Hr' & Hrow & Hpw & Hm); [|done].
  destruct (no_marker_settled h w' Hr' Hm) as [Hc Hs]. split; [done|]. by rewrite Hs, Hrow, Hpw, Hp, He.
Qed.

Lemma save_spec : triple (holds_at h s0) (save m err h candidate password) (fun _ => is_new) (fun _ => one_of_two).
Proof.
  unfold save. eapply triple_bind.
  { eapply triple_conseq; [apply recover_spec|done|intros a w Hw; exact Hw|intros e w; apply holds_one]. }
  intros _o. apply (triple_bind _ _ _ (fun u w => (holds_at h s0 w /\ marker_in h w = None) /\ row_of w = u)).
  { apply triple_task_io; [intros w [Hw _]; by apply holds_one| |].
    - intros w [[Hc Hs] Hm]. destruct (get_user_config w) as [r w'] eqn:E. cbn.
      destruct (read_row_keeps h _ _ _ E Hc) as (Hc' & Hs' & _). split; [done|left; congruence].
    - intros w a w' [[Hc Hs] Hm] E. destruct (read_row_keeps h _ _ _ E Hc) as (Hc' & Hs' & Hm' & _).
      apply get_row_spec in E as ([= Ha] & Hrow & _). split; [|congruence]. split; [split; congruence|congruence]. }
  intros previous.
  apply (triple_bind _ _ _ (fun old w => ((holds_at h s0 w /\ marker_in h w = None) /\ row_of w = previous) /\ password_in h w = old)).
  { apply triple_task_read; [intros w [[Hw _] _]; by apply holds_one|]. intros w a Hw Ha. split; [done|]. unfold password_in. by rewrite Ha. }
  intros old. cbv zeta.
  assert (Hs0 : forall w, ((holds_at h s0 w /\ marker_in h w = None) /\ row_of w = previous) /\ password_in h w = old ->
            readable h w /\ s0 = (snapshot_of previous, old)).
  { intros w [[[[[Hr _] Hs] Hm] Hrow] Hp]. split; [done|]. destruct (no_marker_settled h w Hr Hm) as [_ Hs']. congruence. }
  apply triple_at. intros w0 Hw0. destruct (Hs0 w0 Hw0) as [Hr0 Hpair].
  apply (triple_bind _ _ _ (fun _ w => prepared previous old w /\ row_of w = previous)).
  { apply triple_task_write; [intros w ->; apply holds_one, Hw0|]. intros w w' -> E.
    apply (journal_write h _ (Some _)) in E as (Hr & Hrow & Hp & Hm); [|done].
    assert (Hprep : prepared previous old w') by (split; [done|done|done|left; rewrite Hrow; apply Hw0]).
    split; [split; [done|rewrite Hrow; apply Hw0]|]. by apply (prepared_settled previous old). }
  intros _u. assert (Hone : forall w, prepared previous old w -> one_of_two w) by (intros w Hw; by apply (prepared_settled previous old)).
  apply (triple_on_failure _ _ _ _ (fun _ w => prepared previous old w /\ snapshot_of (row_of w) = snapshot_of candidate) (prepared previous old)).
  - apply triple_task_write; [tauto|]. intros w w' [[Hr Hm Hp _] _] [Hrow Hv]%save_row_spec.
    destruct (same_vaults_view h _ _ Hv) as (Hr' & Hp' & Hm').
    assert (prepared previous old w') by (split; [by apply Hr'|congruence|congruence|by right]). split; [|done]. split; [done|]. by rewrite Hrow.
  - intros _u2. by apply finish_commit_spec.
  - intros _e. apply (triple_on_failure _ _ _ _ (fun u w => prepared previous old w /\ row_of w = u) (prepared previous old)).
    + assert (Hread : forall w r w', prepared previous old w -> get_user_config w = (r, w') -> prepared previous old w' /\ r = Some (row_of w')).
      { intros w r w' [Hr Hm Hp Hrow] (Hra & Hrow' & Hv)%get_row_spec. destruct (same_vaults_view h _ _ Hv) as (Hr' & Hp' & Hm').
        split; [|congruence]. split; [by apply Hr'|congruence|congruence|by rewrite Hrow']. }
      apply triple_task_io; [done| |].
      * intros w Hw. destruct (get_user_config w) as [r w'] eqn:E. by apply (Hread _ _ _ Hw E).
      * intros w a w' Hw E. destruct (Hread _ _ _ Hw E) as [Hw' [= ->]]. done.
    + intros persisted. case_bool_decide as Hcand; [|case_bool_decide as Hprev; [|apply triple_fail; intros w [Hw _]; auto]].
      * eapply triple_conseq; [by apply finish_commit_spec| |done|done]. intros w [Hw <-]. done.
      * apply (triple_on_failure _ _ _ _ (fun _ => one_of_two) one_of_two); [|intros x; by apply triple_fail|intros x; by apply triple_fail|done].
        apply triple_task_write; [intros w [Hw _]; auto|]. intros w w' [Hw <-] E. assert (one_of_two w'); [|done].
        apply (journal_write h _ None) in E as (Hr & Hrow & Hp & Hm); [|apply Hw]. destruct (no_marker_settled h w' Hr Hm) as [Hc Hs].
        split; [done|left]. rewrite Hs, Hrow, Hp, Hprev. done.
    + intros x. by apply triple_fail.
    + done.
  - done.
Qed.
End save.

(** A machine on which every access works. *)
Definition healthy (m : Machine) : Prop := forall l, outcome m l = Works.

Lemma healthy_task_io m l err {A} (f : World -> option A * World) w a w' :
  healthy m -> f w = (Some a, w') -> task_io m l err f w = (Ok a, w').
Proof. intros Hm Hf. unfold task_io, io. cbn. by rewrite Hm, Hf. Qed.

Lemma readable_marker h w : readable h w -> get_secret h PENDING_PROXY_UPDATE_KEY w = Some (marker_in h w).
Proof. intros [_ H]. unfold marker_in. by destruct (get_secret h PENDING_PROXY_UPDATE_KEY w). Qed.

(** The journal's own mutations are accepted by a vault that is there. *)
Lemma mutations_accepted h ms w :
  readable h w -> (exists pw, ms = [password_mutation pw; RemoveSecret PENDING_PROXY_UPDATE_KEY]) \/ ms = [RemoveSecret PENDING_PROXY_UPDATE_KEY] ->
  exists w', apply_secret_mutations h ms w = Some w'.
Proof.
  intros [Hr _] Hms. unfold apply_secret_mutations, get_secret in *.
  assert (existsb (fun m => bool_decide (mutation_key m = [])) ms || negb (bool_decide (NoDup (map mutation_key ms))) = false) as ->.
  { destruct Hms as [[[v|] ->]| ->]; by vm_compute. }
  destruct (d_vaults (disk w) !! h_path h); [eauto|done].
Qed.

(** On such a machine recovery ends, and the journal is empty. *)
Lemma healthy_recover h m err w :
  healthy m -> consistent h w -> exists o w', recover_pending m err h w = (Ok o, w').
Proof.
  intros Hm [Hr Hc]. unfold recover_pending, ebind.
  rewrite (healthy_task_io m RecoverMarker err _ w (marker_in h w) w Hm) by (unfold reads; by rewrite readable_marker).
  destruct (marker_in h w) as [j|] eqn:Ej; [|by eexists _, _]. destruct Hc as (p & Hp & Hv & Hrow). rewrite Hp, Hv. cbn [negb Z.eqb].
  rewrite Z.eqb_refl. cbn [negb]. destruct (get_user_config w) as [r w1] eqn:E1. pose proof (get_row_spec _ _ _ E1) as (-> & Hrow1 & Hv1).
  rewrite (healthy_task_io m RecoverRow err _ w (row_of w) w1 Hm E1).
  assert (Hr1 : readable h w1) by (by apply (same_vaults_view h w w1 Hv1)).
  assert (Hwrite : forall ms, (exists pw, ms = [password_mutation pw; RemoveSecret PENDING_PROXY_UPDATE_KEY]) \/ ms = [RemoveSecret PENDING_PROXY_UPDATE_KEY] ->
            exists w2, task_io m RecoverWrite err (writes (apply_secret_mutations h ms)) w1 = (Ok tt, w2)).
  { intros ms Hms. destruct (mutations_accepted h ms w1 Hr1 Hms) as [w2 E2]. exists w2. apply healthy_task_io; [done|]. unfold writes. by rewrite E2. }
  unfold finalize, rollback. case_bool_decide as Hcand; [|rewrite bool_decide_eq_true_2 by tauto].
  - destruct (Hwrite [RemoveSecret PENDING_PROXY_UPDATE_KEY]) as [w2 ->]; eauto.
  - destruct (Hwrite [password_mutation (previous_password p); RemoveSecret PENDING_PROXY_UPDATE_KEY]) as [w2 ->]; eauto.
Qed.

(** ** The journal as a register *)

Inductive Call := CallSave (candidate : UserConfig) (password : option str) | CallRecover.

Definition call (h : ConfigDbs) (err : SettingsError) (m : Machine) (c : Call) : Run unit :=
  match c with
  | CallSave u pw => let! _ := save m err h u pw in eret tt
  | CallRecover => let! _ := recover_pending m err h in eret tt
  end.

(** Calls one after the other, each on its own machine; a process that died is started again. With each call whether it answered. *)
Fixpoint calls (h : ConfigDbs) (err : SettingsError) (cs : list (Machine * Call)) (w : World) : list (Call * bool) * World :=
  match cs with
  | [] => ([], w)
  | (m, c) :: cs =>
      let '(r, w) := call h err m c w in
      let '(log, w) := calls h err cs w in
      ((c, match r with Ok _ => true | Err _ => false end) :: log, w)
  end.

(** The register: what a call that answered or failed may do to the pair of identity and password. *)
Definition register_step (e : Call * bool) (s s' : ProxySettingsSnapshot * option str) : Prop :=
  match e with
  | (CallSave u pw, true) => s' = (snapshot_of u, pw)
  | (CallSave u pw, false) => s' = s \/ s' = (snapshot_of u, pw)
  | (CallRecover, _) => s' = s
  end.

Inductive register_run : list (Call * bool) -> ProxySettingsSnapshot * option str -> ProxySettingsSnapshot * option str -> Prop :=
| register_nil s : register_run [] s s
| register_cons e log s s' s'' : register_step e s s' -> register_run log s' s'' -> register_run (e :: log) s s''.

Lemma call_refines h err m c w r w' :
  consistent h w -> call h err m c w = (r, w') ->
  consistent h w' /\ register_step (c, match r with Ok _ => true | Err _ => false end) (settled h w) (settled h w').
Proof.
  intros Hc. destruct c as [u pw|]; unfold call, ebind.
  - pose proof (save_spec h m err (settled h w) u pw w (conj Hc eq_refl)) as Hs.
    destruct (save m err h u pw w) as [[o|e] w1]; intros [= <- <-]; destruct Hs as [Hc' Hs]; split; [done|exact Hs|done|exact Hs].
  - pose proof (recover_spec h m err (settled h w) w (conj Hc eq_refl)) as Hs.
    destruct (recover_pending m err h w) as [[o|e] w1]; intros [= <- <-]; cbn in Hs; [destruct Hs as [[Hc' Hs] _]|destruct Hs as [Hc' Hs]]; by split.
Qed.

Lemma calls_refine h err cs : forall w log w',
  consistent h w -> calls h err cs w = (log, w') -> consistent h w' /\ register_run log (settled h w) (settled h w').
Proof.
  induction cs as [|[m c] cs IH]; intros w log w' Hc; cbn [calls].
  - intros [= <- <-]. split; [done|constructor].
  - destruct (call h err m c w) as [r w1] eqn:E1. destruct (calls h err cs w1) as [log1 w2] eqn:E2. intros [= <- <-].
    destruct (call_refines h err m c w r w1 Hc E1) as [Hc1 Hs1]. destruct (IH w1 log1 w2 Hc1 E2) as [Hc2 Hs2].
    split; [done|]. by econstructor.
Qed.

(** C28: Whatever saves and recoveries of the proxy settings are made, and whichever of
    their accesses are refused, report an error after they happened or are the last thing
    the process does, identity and password are one register: a save that answered put
    both, one that did not put both or neither, a recovery changed nothing; and the next
    recovery on a machine that works empties the journal and leaves exactly the
    register's identity in the row and its password in the vault. *)
Theorem journal_refines_register h err (cs : list (Machine * Call)) w log w' m :
  consistent h w -> calls h err cs w = (log, w') -> healthy m ->
  exists s o w'',
    register_run log (settled h w) s
    /\ recover_pending m err h w' = (Ok o, w'')
    /\ marker_in h w'' = None /\ snapshot_of (row_of w'') = s.1 /\ password_in h w'' = s.2.
Proof.
  intros Hc E Hm. destruct (calls_refine h err cs w log w' Hc E) as [Hc' Hrun].
  destruct (healthy_recover h m err w' Hm Hc') as (o & w'' & Er).
  pose proof (recover_spec h m err (settled h w') w' (conj Hc' eq_refl)) as Hs. rewrite Er in Hs. destruct Hs as [[[Hr'' Hc''] Hs] Hk].
  destruct (no_marker_settled h w'' Hr'' Hk) as [_ Hp]. exists (settled h w'), o, w''. split; [done|]. by rewrite <- Hs, Hp.
Qed.

(** * What changes the live settings *)

(** A computation that leaves a part [v] of the state alone. *)
Definition stays {X A} (v : World -> X) (t : Run A) : Prop :=
  forall x, triple (fun w => v w = x) t (fun _ w => v w = x) (fun _ w => v w = x).

Definition same {X A} (v : World -> X) (f : World -> option A * World) : Prop := forall w, v (f w).2 = v w.

Section stays.
Context {X : Type} (v : World -> X).

Lemma keeps_ret {A} (a : A) : stays v (eret a).
Proof. intros s. by apply triple_ret. Qed.

Lemma keeps_fail {A} e : stays (A:=A) v (fail e).
Proof. intros s. by apply triple_fail. Qed.

Lemma keeps_lift {A} (r : result SettingsError A) : stays v (lift r).
Proof. destruct r; [apply keeps_ret|apply keeps_fail]. Qed.

Lemma keeps_get : stays v eget.
Proof. intros s. by apply triple_get. Qed.

Lemma keeps_put f : (forall w, v (f w) = v w) -> stays v (eput f).
Proof. intros H s. apply triple_put. intros w <-. apply H. Qed.

Lemma keeps_bind {A B} (t : Run A) (k : A -> Run B) : stays v t -> (forall a, stays v (k a)) -> stays v (ebind t k).
Proof. intros Ht Hk s. eapply triple_bind; [apply Ht|intros a; apply Hk]. Qed.

Lemma keeps_on_failure {A B} (t : Run A) (k : A -> Run B) h :
  stays v t -> (forall a, stays v (k a)) -> (forall e, stays v (h e)) -> stays v (on_failure t k h).
Proof. intros Ht Hk Hh s. eapply triple_on_failure; [apply Ht|intros a; apply Hk|intros e; apply Hh|done]. Qed.

Lemma keeps_io m l err {A} (f : World -> option A * World) : same v f -> stays v (io m l err f).
Proof.
  intros H s. apply triple_io; [done|intros w <-; apply H|]. intros w a w' <- E. specialize (H w). by rewrite E in H.
Qed.

Lemma keeps_task_io m l err {A} (f : World -> option A * World) : same v f -> stays v (task_io m l err f).
Proof. apply keeps_io. Qed.

Lemma keeps_spawn m l : stays v (spawn m l).
Proof. intros s w Hw. unfold spawn. by destruct (outcome m l). Qed.
End stays.

(** A computation on the stores and the routing only. *)
Notation keeps_live := (stays live).
Notation live_kept := (same live).

Lemma reads_kept {X A} (v : World -> X) (f : World -> option A) : same v (reads f).
Proof. done. Qed.

Lemma row_kept : live_kept get_user_config.
Proof. intros w. unfold get_user_config. by destruct (d_row (disk w)). Qed.

Lemma writes_kept (f : World -> option World) : (forall w w', f w = Some w' -> live w' = live w) -> live_kept (writes f).
Proof. intros H w. unfold writes. destruct (f w) eqn:E; [by apply H|done]. Qed.

Lemma save_row_kept u : live_kept (writes (save_user_config u)).
Proof. apply writes_kept. by intros w w' [= <-]. Qed.

Lemma set_config_kept k v : live_kept (writes (set_config k v)).
Proof. apply writes_kept. by intros w w' [= <-]. Qed.

Lemma mutations_kept h ms : live_kept (writes (apply_secret_mutations h ms)).
Proof. apply writes_kept. intros w w'. unfold apply_secret_mutations. repeat case_match; try done. by intros [= <-]. Qed.

Lemma set_secret_kept h k v : live_kept (writes (set_secret h k v)).
Proof. apply writes_kept. intros w w'. unfold set_secret. case_match; [|done]. by intros [= <-]. Qed.

Lemma replace_rules_kept h rs : live_kept (writes (replace_all_pass_rules h rs)).
Proof. apply writes_kept. intros w w'. unfold replace_all_pass_rules. case_match; [|done]. by intros [= <-]. Qed.

Lemma open_kept paths key : live_kept (open_databases paths key).
Proof. intros w. cbn. by case_match. Qed.

Lemma routing_kept m dbs u :
  live_kept (fun w => match resolve_proxy_config u dbs w with None => (None, w) | Some c => apply_proxy_to_client m c u w end).
Proof. intros w. case_match; [|done]. unfold apply_proxy_to_client. by repeat case_match. Qed.

Hint Resolve keeps_spawn keeps_put keeps_ret keeps_fail keeps_lift keeps_get keeps_bind keeps_on_failure keeps_io keeps_task_io
  reads_kept row_kept save_row_kept set_config_kept mutations_kept set_secret_kept replace_rules_kept open_kept routing_kept : keeps.

Hint Extern 1 (live _ = live _) => reflexivity : keeps.

(** Through the code, one construct after the other. *)
Ltac keeps :=
  repeat match goal with
  | |- stays _ (ebind _ _) => apply keeps_bind
  | |- stays _ (on_failure _ _ _) => apply keeps_on_failure
  | |- stays _ _ => first [case_match | solve [auto with keeps nocore]]
  | |- forall _, stays _ _ => intros ?
  end.

Lemma save_keeps m err h u pw : keeps_live (save m err h u pw).
Proof. unfold save, recover_pending, finish_commit, finalize, rollback. keeps. Qed.

Hint Resolve save_keeps : keeps.

Lemma routing_keeps m dbs u : keeps_live (apply_live_proxy_routing m dbs u).
Proof. unfold apply_live_proxy_routing. keeps. Qed.

Hint Resolve routing_keeps : keeps.

Lemma persist_row_keeps m p dbs pw u : keeps_live (persist_row m p dbs pw u).
Proof. unfold persist_row. keeps. Qed.

Lemma repoint_keeps m cur def sp : keeps_live (repoint_vault_paths m cur def sp).
Proof. unfold repoint_vault_paths, load_pass_rules. keeps. Qed.

Lemma policies_keep m paths crc col : keeps_live (persist_app_config_policies m paths crc col).
Proof. unfold persist_app_config_policies. keeps. Qed.

Lemma run_settings_keeps m : keeps_live (run_settings m).
Proof. unfold run_settings, secret_configured. keeps. Qed.

(** * Patches *)

(** A field that cannot be cleared. *)
Definition set_or_keep {A} (current : A) (p : PatchValue A) : A := match p with PatchSet v => v | _ => current end.

Definition patched_archive (d : ArchiveSettingsDto) (p : ArchiveSettingsPatch) : ArchiveSettingsDto :=
  mk_archive_dto (set_or_keep (ad_backend_mode d) (ap_backend_mode p)) (apply_optional (ad_cache_directory d) (ap_cache_directory p))
    (apply_optional (ad_temp_directory d) (ap_temp_directory p)) (apply_optional (ad_transfer_directory d) (ap_transfer_directory p))
    (apply_optional (ad_sevenzip_path d) (ap_sevenzip_path p)) (set_or_keep (ad_default_collision_policy d) (ap_default_collision_policy p)).

Definition patched_network (d : NetworkSettingsDto) (p : NetworkSettingsPatch) : NetworkSettingsDto :=
  mk_network_dto (set_or_keep (nd_socks5_enabled d) (np_socks5_enabled p)) (apply_optional (nd_socks5_address d) (np_socks5_address p))
    (apply_optional (nd_socks5_username d) (np_socks5_username p)) (nd_socks5_password_configured d)
    (apply_collection (nd_plugin_proxy_enabled d) (np_plugin_proxy_enabled p))
    (set_or_keep (nd_gameta_server_enabled d) (np_gameta_server_enabled p)) (apply_optional (nd_gameta_server_url d) (np_gameta_server_url p))
    (nd_gameta_api_key_configured d).

Definition patched_general (d : GeneralSettingsDto) (p : GeneralSettingsPatch) : GeneralSettingsDto :=
  mk_general_dto (apply_optional (gd_hotkey_bindings d) (gp_hotkey_bindings p)) (set_or_keep (gd_open_nested_in_new_tab d) (gp_open_nested_in_new_tab p))
    (set_or_keep (gd_drop_behavior d) (gp_drop_behavior p)) (set_or_keep (gd_restore_tabs_on_launch d) (gp_restore_tabs_on_launch p)).

Definition patched_crc (crc : str) (p : SecuritySettingsPatch) : str := set_or_keep crc (sp_encrypted_crc_policy p).

(** A section that the patch leaves out stays. *)
Definition on_section {D P} (f : D -> P -> D) (d : D) (p : option P) : D := match p with Some p => f d p | None => d end.

(** The columns no patch reaches. *)
Definition other_columns (u : UserConfig) :=
  (uc_id u, vault_path u, enabled_plugins u, plugin_order u, plugin_visibility u, plugin_settings u, toolbar_order u, info_panel_order u).

Lemma apply_required_spec {A} (current : A) p field v : apply_required current p field = Ok v -> v = set_or_keep current p.
Proof. by destruct p; cbn; intros [= <-]. Qed.

Lemma backend_mode_roundtrip mode : from_user_config (as_user_config_str mode) = mode.
Proof. by destruct mode; vm_compute. Qed.

Lemma apply_archive_spec u policy p u' policy' :
  apply_archive_patch u policy p = Ok (u', policy') ->
  archive_dto u' policy' = patched_archive (archive_dto u policy) p
  /\ (forall a b, network_dto u' a b = network_dto u a b) /\ general_dto u' = general_dto u /\ other_columns u' = other_columns u.
Proof.
  unfold apply_archive_patch. destruct (apply_required policy _ _) as [c|] eqn:Ec; cbn; [|done]. case_match; [done|].
  destruct (apply_required (from_user_config _) _ _) as [b|] eqn:Eb; cbn; [|done]. intros [= <- <-].
  apply apply_required_spec in Ec as ->, Eb as ->. unfold archive_dto, patched_archive. cbn. by rewrite backend_mode_roundtrip.
Qed.

Lemma apply_network_spec u p u' :
  apply_network_patch u p = Ok u' ->
  (forall c, archive_dto u' c = archive_dto u c) /\ (forall a b, network_dto u' a b = patched_network (network_dto u a b) p)
  /\ general_dto u' = general_dto u /\ other_columns u' = other_columns u.
Proof.
  unfold apply_network_patch. destruct (apply_required (socks5_enabled u) _ _) as [e|] eqn:Ee; cbn; [|done].
  destruct (apply_required (gameta_server_enabled u) _ _) as [g|] eqn:Eg; cbn; [|done]. intros [= <-].
  apply apply_required_spec in Ee as ->, Eg as ->. split; [done|]. split; [|done]. intros a b.
  unfold network_dto, patched_network, get_plugin_proxy_settings at 1. cbn. by rewrite bools_roundtrip.
Qed.

Lemma apply_general_spec u p u' :
  apply_general_patch u p = Ok u' ->
  (forall c, archive_dto u' c = archive_dto u c) /\ (forall a b, network_dto u' a b = network_dto u a b)
  /\ general_dto u' = patched_general (general_dto u) p /\ other_columns u' = other_columns u.
Proof.
  unfold apply_general_patch. destruct (apply_required (open_nested_in_new_tab u) _ _) as [n|] eqn:En; cbn; [|done].
  destruct (apply_required (default _ _) _ _) as [d|] eqn:Ed; cbn; [|done].
  destruct (apply_required (restore_tabs_on_launch u) _ _) as [t|] eqn:Et; cbn; [|done]. intros [= <-].
  by apply apply_required_spec in En as ->, Ed as ->, Et as ->.
Qed.

(** What is reported of a row, the two policies and the secrets. *)
Definition reported (u : UserConfig) (crc collision : str) (a b : bool) :=
  (archive_dto u collision, network_dto u a b, general_dto u, crc, other_columns u).

Lemma apply_patch_spec u crc collision p u' crc' collision' :
  apply_patch u crc collision p = Ok (u', crc', collision') ->
  forall a b, reported u' crc' collision' a b =
    (on_section patched_archive (archive_dto u collision) (patch_archive p), on_section patched_network (network_dto u a b) (patch_network p),
     on_section patched_general (general_dto u) (patch_general p), on_section patched_crc crc (patch_security p), other_columns u).
Proof.
  unfold apply_patch. intros H a b. revert H.
  destruct (match patch_archive p with Some ap => _ | None => _ end) as [[u1 c1]|] eqn:E1; cbn [rbind]; [|done].
  destruct (match patch_network p with Some np => _ | None => _ end) as [u2|] eqn:E2; cbn [rbind]; [|done].
  destruct (match patch_general p with Some gp => _ | None => _ end) as [u3|] eqn:E3; cbn [rbind]; [|done].
  destruct (match patch_security p with Some sp => _ | None => _ end) as [c4|] eqn:E4; cbn [rbind]; [|done]. intros [= <- <- <-].
  assert (H1 : archive_dto u1 c1 = on_section patched_archive (archive_dto u collision) (patch_archive p)
    /\ (forall a b, network_dto u1 a b = network_dto u a b) /\ general_dto u1 = general_dto u /\ other_columns u1 = other_columns u).
  { destruct (patch_archive p); [by apply apply_archive_spec|]. by injection E1 as <- <-. }
  assert (H2 : (forall c, archive_dto u2 c = archive_dto u1 c) /\ network_dto u2 a b = on_section patched_network (network_dto u1 a b) (patch_network p)
    /\ general_dto u2 = general_dto u1 /\ other_columns u2 = other_columns u1).
  { destruct (patch_network p); [|by injection E2 as <-]. apply apply_network_spec in E2 as (?&?&?&?). by repeat split. }
  assert (H3 : (forall c, archive_dto u3 c = archive_dto u2 c) /\ (forall a b, network_dto u3 a b = network_dto u2 a b)
    /\ general_dto u3 = on_section patched_general (general_dto u2) (patch_general p) /\ other_columns u3 = other_columns u2).
  { destruct (patch_general p); [by apply apply_general_spec|by injection E3 as <-]. }
  assert (H4 : c4 = on_section patched_crc crc (patch_security p)).
  { destruct (patch_security p); [by apply apply_required_spec in E4|by injection E4]. }
  destruct H1 as (A1 & N1 & G1 & O1), H2 as (A2 & N2 & G2 & O2), H3 as (A3 & N3 & G3 & O3). unfold reported. rewrite H4, A3, A2, A1, N3, N2, N1, G3, G2, G1, O3, O2, O1. done.
Qed.

(** * Updates *)

Lemma bind_keeps {A B} (t : Run A) (k : A -> Run B) s Q X :
  keeps_live t -> (forall w, live w = s -> X w) -> (forall a, triple (fun w => live w = s) (k a) Q (fun _ => X)) ->
  triple (fun w => live w = s) (ebind t k) Q (fun _ => X).
Proof. intros Ht HX Hk. eapply triple_bind; [|exact Hk]. eapply triple_conseq; [apply (Ht s)|done|done|]. intros e w. apply HX. Qed.

(** What a reader of the settings is told. *)
Definition tells (s : MutableSettings) (d : SettingsSnapshot) : Prop :=
  ss_revision d = m_revision s /\ ss_security d = security_dto s
  /\ exists a b, (ss_archive d, ss_network d, ss_general d, sd_encrypted_crc_policy (ss_security d), other_columns (m_user_config s))
                 = reported (m_user_config s) (m_encrypted_crc_policy s) (m_default_collision_policy s) a b.

Lemma run_settings_spec m s :
  triple (fun w => live w = s) (run_settings m) (fun d w => live w = s /\ tells s d) (fun _ w => live w = s).
Proof.
  unfold run_settings, secret_configured.
  apply bind_keeps; [keeps|done|]. intros a. apply bind_keeps; [keeps|done|]. intros b. apply triple_at. intros w0 Hw0.
  eapply triple_bind; [by apply (triple_get _ (fun a w => a = w0 /\ w = w0)); intros w ->|].
  intros w1. apply triple_ret. intros w [-> ->]. split; [done|]. rewrite <- Hw0. split; [done|]. split; [done|]. by exists a, b.
Qed.

(** The patched row and policies, committed. *)
Definition committed (p : SettingsPatch) (row : UserConfig) (s s' : MutableSettings) : Prop :=
  patch_expected_revision p = m_revision s /\ m_revision s' = m_revision s + 1
  /\ (if touches_vault_paths p then
        exists sp, patch_security p = Some sp /\ m_db_paths s' = Some (patched_vault_paths (m_db_paths s) (m_default_db_paths s) sp)
      else m_db_paths s' = m_db_paths s /\ m_dbs s' = m_dbs s /\ m_pass_rules s' = m_pass_rules s)
  /\ forall a b, reported (m_user_config s') (m_encrypted_crc_policy s') (m_default_collision_policy s') a b =
       (on_section patched_archive (archive_dto row (m_default_collision_policy s)) (patch_archive p),
        on_section patched_network (network_dto row a b) (patch_network p), on_section patched_general (general_dto row) (patch_general p),
        on_section patched_crc (m_encrypted_crc_policy s) (patch_security p), other_columns row).

Lemma commit_spec p row s u crc collision vault :
  patch_expected_revision p = m_revision s ->
  apply_patch row (m_encrypted_crc_policy s) (m_default_collision_policy s) p = Ok (u, crc, collision) ->
  (if touches_vault_paths p then
     exists sp dbs rules, patch_security p = Some sp /\ vault = Some (patched_vault_paths (m_db_paths s) (m_default_db_paths s) sp, dbs, rules)
   else vault = None) ->
  committed p row s (commit_settings u crc collision vault s).
Proof.
  intros Hrev Hp Hv. pose proof (apply_patch_spec _ _ _ _ _ _ _ Hp) as Hr. split; [done|].
  destruct (touches_vault_paths p) eqn:Et; [destruct Hv as (sp & dbs & rules & Hsp & Hv)|]; rewrite Hv; cbn; rewrite ?Et; split_and!; eauto.
Qed.

(** Repointing opens the patched paths. *)
Lemma repoint_spec m cur def sp s :
  triple (fun w => live w = s) (repoint_vault_paths m cur def sp)
    (fun v w => live w = s /\ exists dbs rules, v = (patched_vault_paths cur def sp, dbs, rules)) (fun _ w => live w = s).
Proof.
  unfold repoint_vault_paths, load_pass_rules. apply bind_keeps; [keeps|done|]. intros _u. apply bind_keeps; [keeps|done|]. intros _v.
  destruct (key_file _); [|by apply triple_fail]. apply bind_keeps; [keeps|done|]. intros key. apply bind_keeps; [keeps|done|]. intros dbs.
  apply bind_keeps; [keeps|done|]. intros rules. apply triple_ret. eauto.
Qed.

(** The step in which the paths of the vault change, if they do. *)
Lemma vault_step_spec m p s :
  triple (fun w => live w = s)
    (match patch_security p with
     | Some sp => if touches_vault_paths p then
                    let! v := repoint_vault_paths m (m_db_paths s) (m_default_db_paths s) sp in eret (Some v)
                  else eret None
     | None => eret None
     end)
    (fun vault w => live w = s
       /\ if touches_vault_paths p then
            exists sp dbs rules, patch_security p = Some sp /\ vault = Some (patched_vault_paths (m_db_paths s) (m_default_db_paths s) sp, dbs, rules)
          else vault = None)
    (fun _ w => live w = s).
Proof.
  unfold touches_vault_paths. destruct (patch_security p) as [sp|]; [|by apply triple_ret].
  destruct (security_patch_touches_vault_paths sp); [|by apply triple_ret].
  eapply triple_bind; [apply repoint_spec|]. intros v. apply triple_ret. intros w (Hw & dbs & rules & ->). eauto 10.
Qed.

Lemma triple_pre {A} (P P' : World -> Prop) (t : Run A) Q X : triple P' t Q X -> (forall w, P w -> P' w) -> triple P t Q X.
Proof. intros Ht HP w Hw. apply Ht, HP, Hw. Qed.

Lemma triple_bind_ret {A B} (a : A) (k : A -> Run B) P Q X : triple P (k a) Q X -> triple P (ebind (eret a) k) Q X.
Proof. done. Qed.

Lemma update_triple m p w0 :
  patch_expected_revision p = m_revision (live w0) ->
  triple (fun w => w = w0) (run_update_settings m p)
    (fun d w => committed p (row_of w0) (live w0) (live w) /\ tells (live w) d)
    (fun _ w => live w = live w0 \/ committed p (row_of w0) (live w0) (live w)).
Proof.
  intros Hrev. unfold run_update_settings. eapply triple_bind; [by apply (triple_get _ (fun a w => a = w0 /\ w = w0)); intros w ->|].
  intros w1. apply triple_at. intros w2 [-> ->]. rewrite Hrev, Z.eqb_refl. cbn [negb]. destruct (has_config_service m); cbn [negb].
  2:{ apply triple_fail. intros w ->. by left. }
  eapply (triple_bind _ _ _ (fun u w => live w = live w0 /\ u = row_of w0)).
  { apply triple_io; [intros w ->; by left|intros w ->; left; apply row_kept|]. intros w a w' -> E.
    pose proof (row_kept w0) as Hk. rewrite E in Hk. apply get_row_spec in E as ([= ->] & _). by split. }
  intros row. apply triple_at. intros w2 [Hw2 ->]. apply (triple_pre _ (fun w => live w = live w0)); [|by intros w ->].
  apply bind_keeps; [keeps|by left|]. intros password.
  destruct (apply_patch _ _ _ p) as [[[u crc] collision]|e] eqn:Ep; cbn [lift];
    [|intros w Hw; by left].
  apply triple_bind_ret. apply bind_keeps; [keeps|by left|]. intros _v. apply bind_keeps; [apply persist_row_keeps|by left|]. intros _x.
  eapply triple_bind; [eapply triple_conseq; [apply (vault_step_spec m p (live w0))|done|done|by left]|].
  intros vault. apply triple_at. intros w3 [Hw3 Hvault]. apply (triple_pre _ (fun w => live w = live w0)); [|by intros w ->].
  apply bind_keeps; [apply policies_keep|by left|]. intros _y. apply triple_at. intros w4 Hw4.
  eapply triple_bind; [by apply (triple_get _ (fun a w => a = w4 /\ w = w4)); intros w ->|]. intros now. apply triple_at. intros w5 [-> ->].
  rewrite Hw4, Z.eqb_refl. cbn [negb]. pose proof (commit_spec p _ _ u crc collision vault Hrev Ep Hvault) as Hc.
  eapply (triple_bind _ _ _ (fun _ w => live w = commit_settings u crc collision vault (live w0))); [apply triple_put; by intros w ->; cbn; rewrite Hw4|].
  intros _z. eapply triple_conseq; [apply (run_settings_spec m (commit_settings u crc collision vault (live w0)))|tauto| |].
  - by intros d w [-> Hd].
  - intros e w ->. by right.
Qed.

(** ** Any requests *)

Inductive Request :=
| Update (p : SettingsPatch)
| SetApiKey (value : str)
| SetPassword (value : option str)
| MoveVault (destination : str)
| RekeyVault (key_file : str)
| UpsertRule (r : PasswordRuleInput)
| ReplaceRules (edits : list PasswordRuleEditInput)
| DeleteRule (name : str).

Definition run_request (m : Machine) (r : Request) : Run unit :=
  match r with
  | Update p => let! _ := run_update_settings m p in eret tt
  | SetApiKey v => run_set_gameta_api_key m v
  | SetPassword v => run_set_socks5_password m v
  | MoveVault d => run_move_vault m d
  | RekeyVault k => run_rekey_vault m k
  | UpsertRule r => let! _ := run_upsert_password_rule m r in eret tt
  | ReplaceRules es => let! _ := run_replace_password_rules m es in eret tt
  | DeleteRule n => let! _ := run_delete_password_rule m n in eret tt
  end.

(** Requests one after the other until the process ends; the revisions of the updates that were answered. *)
Fixpoint requests (rs : list (Machine * Request)) (w : World) : list Z * World :=
  match rs with
  | [] => ([], w)
  | (m, r) :: rs =>
      match run_request m r w with
      | (Err Died, w) => ([], w)
      | (Err (Failed _), w) => requests rs w
      | (Ok _, w) =>
          let '(accepted, w) := requests rs w in
          (match r with Update p => patch_expected_revision p :: accepted | _ => accepted end, w)
      end
  end.

(** A computation after which the revision is not below what it was. *)
Definition grows {A} (t : Run A) : Prop := forall w, m_revision (live w) <= m_revision (live (t w).2).

Lemma grows_keeps {A} (t : Run A) : keeps_live t -> grows t.
Proof. intros H w. specialize (H (live w) w eq_refl). destruct (t w) as [[a|e] w']; cbn; by rewrite H. Qed.

Lemma grows_put f : (forall w, m_revision (live w) <= m_revision (live (f w))) -> grows (eput f).
Proof. intros H w. apply H. Qed.

Lemma grows_bind {A B} (t : Run A) (k : A -> Run B) : grows t -> (forall a, grows (k a)) -> grows (ebind t k).
Proof.
  intros Ht Hk w. specialize (Ht w). unfold ebind. destruct (t w) as [[a|e] w1]; cbn in *; [|done]. specialize (Hk a w1). lia.
Qed.

Lemma copy_kept src dst : live_kept (writes (copy_vault src dst)).
Proof. apply writes_kept. intros w w'. unfold copy_vault. case_match; [|done]. by intros [= <-]. Qed.

Hint Resolve copy_kept : keeps.

Ltac grows :=
  repeat match goal with
  | |- grows (ebind _ _) => apply grows_bind
  | |- grows (eput _) => apply grows_put; intros ?; cbn; lia
  | |- grows _ => first [case_match | apply grows_keeps; solve [auto with keeps nocore]]
  | |- forall _, grows _ => intros ?
  end.

Lemma rekey_keeps m cur k : keeps_live (rekey_vault m cur k).
Proof.
  unfold rekey_vault. keeps; apply keeps_task_io.
  - intros w. unfold open_databases. cbn. by case_match.
  - apply writes_kept. intros w w'. destruct (d_vaults (disk w) !! secrets_db _); [|done]. by intros [= <-].
  - apply writes_kept. by intros w w' [= <-].
Qed.

Lemma move_keeps m cur d : keeps_live (move_vault m cur d).
Proof. unfold move_vault. keeps. Qed.

Hint Resolve rekey_keeps move_keeps : keeps.

Lemma store_rules_grows m dbs rs : grows (store_rules m dbs rs).
Proof. unfold store_rules, persist_pass_rules. grows. Qed.

Lemma request_grows m r : (forall p, r <> Update p) -> grows (run_request m r).
Proof.
  intros Hr. destruct r as [p|v|v|d|k|r|es|n]; [by destruct (Hr p)|..];
    unfold run_request, run_set_gameta_api_key, run_set_socks5_password, run_move_vault, run_rekey_vault, load_pass_rules,
      run_upsert_password_rule, run_replace_password_rules, run_delete_password_rule; grows; apply store_rules_grows.
Qed.

(** ** What an update stores *)

Definition app_of (w : World) : gmap str str := d_app (disk w).

Lemma row_same : same row_of get_user_config.
Proof. intros w. destruct (get_user_config w) as [r w'] eqn:E. apply get_row_spec in E as (_ & Hr & _). exact Hr. Qed.

Lemma writes_same {X} (v : World -> X) (f : World -> option World) : (forall w w', f w = Some w' -> v w' = v w) -> same v (writes f).
Proof. intros H w. unfold writes. destruct (f w) eqn:E; [by apply H|done]. Qed.

Lemma config_row k x : same row_of (writes (set_config k x)).
Proof. apply writes_same. by intros w w' [= <-]. Qed.

Lemma config_routing k x : same routing (writes (set_config k x)).
Proof. apply writes_same. by intros w w' [= <-]. Qed.

Lemma mutations_row h ms : same row_of (writes (apply_secret_mutations h ms)).
Proof. apply writes_same. intros w w'. unfold apply_secret_mutations. repeat case_match; try done. by intros [= <-]. Qed.

Lemma open_row paths key : same row_of (open_databases paths key).
Proof. intros w. cbn. by case_match. Qed.

Lemma open_app paths key : same app_of (open_databases paths key).
Proof. intros w. cbn. by case_match. Qed.

Lemma open_routing paths key : same routing (open_databases paths key).
Proof. intros w. cbn. by case_match. Qed.

Lemma routing_row m dbs u :
  same row_of (fun w => match resolve_proxy_config u dbs w with None => (None, w) | Some c => apply_proxy_to_client m c u w end).
Proof. intros w. case_match; [|done]. unfold apply_proxy_to_client. by repeat case_match. Qed.

Hint Resolve row_same config_row config_routing mutations_row open_row open_app open_routing routing_row : keeps.

(** The row was written, whatever the write reported. *)
Definition row_written (m : Machine) : Prop := outcome m SaveRow = Works \/ outcome m SaveRow = WorksThenFails.

(** The row has the proxy's identity of [u], and all of it if it was written. *)
Definition saved (wrote : Prop) (u : UserConfig) (w : World) : Prop :=
  snapshot_of (row_of w) = snapshot_of u /\ (wrote -> row_of w = stored_row u).

(** The journal answers only with the identity in the row. *)
Lemma save_saves m err h u pw :
  triple (fun _ => True) (save m err h u pw) (fun _ => saved (row_written m) u) (fun _ _ => True).
Proof.
  assert (Hfin : forall P : UserConfig -> Prop, triple (fun w => P (row_of w)) (finish_commit m err h) (fun _ w => P (row_of w)) (fun _ _ => True)).
  { intros P. apply triple_at. intros w0 Hw0. assert (stays row_of (finish_commit m err h)) as Hk by (unfold finish_commit, finalize; keeps).
    eapply triple_conseq; [apply (Hk (row_of w0))|by intros w ->|by intros a w ->|done]. }
  assert (Hany : forall {A} (t : Run A), triple (fun _ => True) t (fun _ _ => True) (fun _ _ => True)).
  { intros A t w _. by destruct (t w) as [[a|e] w']. }
  unfold save. eapply triple_bind; [apply Hany|intros _o]. eapply triple_bind; [apply Hany|intros previous].
  eapply triple_bind; [apply Hany|intros old]. cbv zeta. eapply triple_bind; [apply Hany|intros _w].
  eapply (triple_on_failure _ _ _ _ (fun _ w => row_of w = stored_row u) (fun w => row_written m -> row_of w = stored_row u)).
  - intros w _. unfold task_io, io. cbn [outcome]. unfold row_written. destruct (outcome m SaveRow); cbn; naive_solver.
  - intros _a. eapply triple_conseq; [apply (Hfin (fun r => r = stored_row u))|done| |done]. intros a w Hw. unfold saved. by rewrite Hw.
  - intros _e. eapply (triple_on_failure _ _ _ _ (fun r w => row_of w = r /\ (row_written m -> r = stored_row u)) (fun _ => True)); [|..|done].
    + apply triple_task_io; [done|done|]. intros w a w' Hw (Ha & Hr & _)%get_row_spec. injection Ha as ->. rewrite Hr. done.
    + intros persisted. case_bool_decide as Hcand; [|case_bool_decide; [|by apply triple_fail]].
      * apply triple_at. intros w0 [Hr Hwr].
        eapply triple_conseq; [apply (Hfin (fun r => r = persisted))|by intros w ->| |done]. intros a w Hw. unfold saved. rewrite Hw. done.
      * eapply (triple_on_failure _ _ _ _ (fun _ _ => True) (fun _ => True)); [|intros x; by apply triple_fail..|done].
        intros w _. by destruct (rollback m RollbackWrite err h _ w) as [[a|e] w'].
    + intros e. by apply triple_fail.
  - done.
Qed.

(** What the routing of plugins is after a patch of it alone. *)
Definition routed (m : Machine) (p : SettingsPatch) (u : UserConfig) (r : Routing) : Prop :=
  touches_socks5_identity p = false -> touches_plugin_proxy_map p = true ->
  if routing_ids_ok m (effective_plugin_proxy_map u) then rt_plugins r = effective_plugin_proxy_map u else r = unavailable_routing.

Lemma persist_row_saves m p dbs pw u :
  triple (fun _ => True) (persist_row m p dbs pw u)
    (fun _ w => saved (touches_socks5_identity p = false \/ row_written m) u w /\ routed m p u (routing w)) (fun _ _ => True).
Proof.
  unfold persist_row, routed. destruct (touches_socks5_identity p) eqn:Et.
  - destruct dbs as [h|]; [|by apply triple_fail]. eapply (triple_bind _ _ _ (fun _ _ => True)); [intros w _; unfold spawn; by destruct (outcome _ _)|].
    intros _a. eapply triple_bind; [apply save_saves|]. intros _o. apply triple_at. intros w0 Hw0.
    assert (stays row_of (apply_live_proxy_routing m h u)) as Hk by (unfold apply_live_proxy_routing; keeps).
    eapply triple_conseq; [apply (Hk (row_of w0))|by intros w ->| |done]. intros a w Hw. unfold saved in *. rewrite Hw. split; [split; [apply Hw0|intros [|Hwr]; [done|by apply Hw0]]|done].
  - eapply (triple_bind _ _ _ (fun _ w => row_of w = stored_row u)); [by apply triple_io; [..|intros w a w' _ [= _ <-]]|]. intros _a.
    destruct (touches_plugin_proxy_map p) eqn:Em; [|apply triple_ret; intros w Hw; unfold saved; by rewrite Hw].
    apply triple_put. intros w Hw. split; [unfold saved; change (row_of (apply_plugin_proxy_map m (effective_plugin_proxy_map u) w)) with (row_of w); by rewrite Hw|].
    intros _ _. unfold apply_plugin_proxy_map. cbn. by destruct (routing_ids_ok m _).
Qed.

(** The entries of [app_config] for the paths of a vault. *)
Definition paths_stored (paths : DbPaths) (app : gmap str str) : Prop :=
  app !! §"secrets_db_path" = Some (secrets_db paths) /\ is_Some (key_file paths) /\ app !! §"key_file_path" = key_file paths.

Lemma repoint_stores m cur def sp :
  triple (fun _ => True) (repoint_vault_paths m cur def sp) (fun v w => paths_stored v.1.1 (app_of w)) (fun _ _ => True).
Proof.
  unfold repoint_vault_paths. cbv zeta. generalize (patched_vault_paths cur def sp). intros paths.
  eapply (triple_bind _ _ _ (fun _ w => app_of w !! §"secrets_db_path" = Some (secrets_db paths))).
  { apply triple_io; [done..|]. intros w a w' _ [= _ <-]. unfold app_of. cbn. by rewrite lookup_insert_eq. }
  intros _a. destruct (key_file paths) as [kf|] eqn:Ek.
  2:{ eapply (triple_bind _ _ _ (fun _ _ => True)); [by apply triple_ret|]. intros _b. by apply triple_fail. }
  eapply (triple_bind _ _ _ (fun _ w => paths_stored paths (app_of w))).
  { apply triple_task_io; [done..|]. intros w a w' Hw [= _ <-]. unfold paths_stored, app_of in *. cbn. rewrite Ek.
    rewrite lookup_insert_ne, lookup_insert_eq by (by vm_compute). eauto. }
  intros _b. apply triple_at. intros w0 Hw0.
  assert (forall k : Run (DbPaths * ConfigDbs * list PassRule), stays app_of k ->
    triple (fun w => w = w0) k (fun _ w => app_of w = app_of w0) (fun _ _ => True)) as Hst.
  { intros k Hk. eapply triple_conseq; [apply (Hk (app_of w0))|by intros w ->|done|done]. }
  intros w ->. match goal with |- context [ebind ?t ?k w0] => set (run := ebind t k) end.
  assert (stays app_of run) as Hrun by (unfold run, load_pass_rules; keeps). specialize (Hst run Hrun w0 eq_refl).
  assert (match run w0 with (Ok v, _) => v.1.1 = paths | _ => True end) as Hv.
  { unfold run, ebind, eret. repeat case_match; by simplify_eq. }
  destruct (run w0) as [[v|e] w']; [|done]. by rewrite Hst, Hv.
Qed.

(** The stores and the routing after an update that was answered; [paths] are those of the
    vault before it. *)
Definition is_stored (m : Machine) (p : SettingsPatch) (paths : option DbPaths) (w : World) : Prop :=
  let s := live w in
  saved (touches_socks5_identity p = false \/ row_written m) (m_user_config s) w
  /\ (is_Some paths ->
      app_of w !! §"encrypted_crc_policy" = Some (m_encrypted_crc_policy s)
      /\ app_of w !! §"pipeline.default_collision_policy" = Some (m_default_collision_policy s))
  /\ (touches_vault_paths p = true -> exists paths', m_db_paths s = Some paths' /\ paths_stored paths' (app_of w))
  /\ routed m p (m_user_config s) (routing w).

Lemma policies_store m paths crc collision app :
  triple (fun w => app_of w = app) (persist_app_config_policies m paths crc collision)
    (fun _ w => (forall ps, paths_stored ps app -> paths_stored ps (app_of w))
       /\ (is_Some paths -> app_of w !! §"encrypted_crc_policy" = Some crc /\ app_of w !! §"pipeline.default_collision_policy" = Some collision))
    (fun _ _ => True).
Proof.
  unfold persist_app_config_policies. destruct paths as [ps|]; [|apply triple_ret; intros w ->; by split; [|intros []]].
  eapply (triple_bind _ _ _ (fun _ w => app_of w = <[§"encrypted_crc_policy" := crc]> app)).
  { apply triple_io; [done..|]. by intros w a w' <- [= _ <-]. }
  intros _a. apply triple_task_io; [done..|]. intros w a w' Hw [= _ <-].
  assert (app_of (with_disk w (with_app (disk w) §"pipeline.default_collision_policy" collision))
    = <[§"pipeline.default_collision_policy" := collision]> (<[§"encrypted_crc_policy" := crc]> app)) as ->
    by (rewrite <- Hw; done).
  split.
  - intros q (H1 & H2 & H3). split_and!; [..|done|]; rewrite !lookup_insert_ne by (by vm_compute); done.
  - intros _. rewrite lookup_insert_ne, !lookup_insert_eq by (by vm_compute). done.
Qed.

Lemma vault_step_stores m p s u :
  triple (fun w => saved (touches_socks5_identity p = false \/ row_written m) u w /\ routed m p u (routing w))
    (match patch_security p with
     | Some sp => if touches_vault_paths p then
                    let! v := repoint_vault_paths m (m_db_paths s) (m_default_db_paths s) sp in eret (Some v)
                  else eret None
     | None => eret None
     end)
    (fun vault w => (saved (touches_socks5_identity p = false \/ row_written m) u w /\ routed m p u (routing w))
       /\ (touches_vault_paths p = true -> exists v, vault = Some v /\ paths_stored v.1.1 (app_of w)))
    (fun _ _ => True).
Proof.
  unfold touches_vault_paths. destruct (patch_security p) as [sp|]; [|by apply triple_ret].
  destruct (security_patch_touches_vault_paths sp); [|by apply triple_ret].
  apply triple_at. intros w0 [Hs Hr]. pose proof (repoint_stores m (m_db_paths s) (m_default_db_paths s) sp) as Hp.
  assert (stays row_of (repoint_vault_paths m (m_db_paths s) (m_default_db_paths s) sp)) as Hrow by (unfold repoint_vault_paths, load_pass_rules; keeps).
  assert (stays routing (repoint_vault_paths m (m_db_paths s) (m_default_db_paths s) sp)) as Hrt by (unfold repoint_vault_paths, load_pass_rules; keeps).
  eapply triple_bind.
  { eapply triple_conseq; [apply (triple_conj _ _ _ _ _ _ _ (triple_conj _ _ _ _ _ _ _ (Hrow (row_of w0)) (Hrt (routing w0))) Hp)|by intros w ->| |done].
    intros v w H. exact H. }
  intros v. apply triple_ret. intros w [[Ew Er] Hps]. split; [|eauto]. unfold saved. by rewrite Ew, Er.
Qed.

Lemma update_stores m p w0 :
  triple (fun w => w = w0) (run_update_settings m p) (fun _ => is_stored m p (m_db_paths (live w0))) (fun _ _ => True).
Proof.
  assert (Hany : forall P {A} (t : Run A), triple P t (fun _ _ => True) (fun _ _ => True)).
  { intros P A t w _. by destruct (t w) as [[a|e] w']. }
  unfold run_update_settings. eapply triple_bind; [by apply (triple_get _ (fun a w => a = w0)); intros w ->|].
  intros w1. apply triple_at. intros w2 ->. apply (triple_pre _ (fun _ => True)); [|done]. cbv zeta.
  destruct (negb (_ =? _)); [by apply triple_fail|]. destruct (negb (has_config_service m)); [by apply triple_fail|].
  eapply triple_bind; [apply Hany|]. intros row. eapply triple_bind; [apply Hany|]. intros password.
  eapply (triple_bind _ _ _ (fun _ _ => True)); [apply Hany|]. intros [[u crc] collision].
  eapply triple_bind; [apply Hany|]. intros _v. eapply triple_bind; [apply persist_row_saves|]. intros _w.
  eapply triple_bind; [apply vault_step_stores|]. intros vault. clear w2. apply triple_at. intros w2 [[Hs Hr] Hv].
  assert (stays row_of (persist_app_config_policies m (m_db_paths (live w0)) crc collision)) as Hrow by (unfold persist_app_config_policies; keeps).
  assert (stays routing (persist_app_config_policies m (m_db_paths (live w0)) crc collision)) as Hrt by (unfold persist_app_config_policies; keeps).
  eapply triple_bind.
  { eapply triple_conseq; [apply (triple_conj _ _ _ _ _ _ _ (triple_conj _ _ _ _ _ _ _ (Hrow (row_of w2)) (Hrt (routing w2)))
      (policies_store m (m_db_paths (live w0)) crc collision (app_of w2)))|by intros w ->|intros a w H; exact H|done]. }
  intros _x. apply triple_at. intros w3 [[Ew Er] [Hps Hpol]].
  eapply triple_bind; [by apply (triple_get _ (fun a w => a = w3 /\ w = w3)); intros w ->|]. intros now. apply triple_at. intros w4 [-> ->].
  destruct (negb (_ =? _)); [by apply triple_fail|].
  eapply (triple_bind _ _ _ (fun _ w => w = with_live w3 (commit_settings u crc collision vault (live w3)))); [apply triple_put; by intros w ->|].
  intros _y. assert (stays (fun w => w) (run_settings m)) as Hset by (unfold run_settings, secret_configured; keeps).
  eapply triple_conseq; [apply (Hset (with_live w3 (commit_settings u crc collision vault (live w3))))|done| |done]. intros d w ->. unfold is_stored. cbn [live with_live].
  assert (forall s, m_user_config (commit_settings u crc collision vault s) = u /\ m_encrypted_crc_policy (commit_settings u crc collision vault s) = crc
    /\ m_default_collision_policy (commit_settings u crc collision vault s) = collision) as Hc by (intros s; by destruct vault as [[[]]|]).
  destruct (Hc (live w3)) as (-> & -> & ->). split_and!; [|done| |].
  - unfold saved. change (row_of (with_live w3 _)) with (row_of w3). by rewrite Ew.
  - intros Ht. destruct (Hv Ht) as ([[ps dbs] rules] & -> & Hpaths). exists ps. split; [done|]. by apply Hps.
  - cbn. by rewrite Er.
Qed.


Lemma update_step m p w r w' :
  run_request m (Update p) w = (r, w') ->
  m_revision (live w) <= m_revision (live w')
  /\ (r = Ok tt -> patch_expected_revision p = m_revision (live w) /\ m_revision (live w') = m_revision (live w) + 1).
Proof.
  cbn [run_request]. unfold ebind. destruct (run_update_settings m p w) as [r1 w1] eqn:E. intros E'.
  assert (w1 = w') as <- by (destruct r1; by injection E'). destruct (Z.eqb_spec (patch_expected_revision p) (m_revision (live w))) as [Hrev|Hrev].
  - pose proof (update_triple m p w Hrev w eq_refl) as H. rewrite E in H. destruct r1 as [d|e].
    + destruct H as [(_ & Hn & _) _]. split; [lia|done].
    + injection E' as <-. destruct H as [-> | (_ & Hn & _)]; (split; [lia|done]).
  - revert E. unfold run_update_settings, ebind, eget. apply Z.eqb_neq in Hrev. rewrite Hrev. cbn [negb]. intros [= <- <-].
    injection E' as <-. split; [lia|done].
Qed.

(** However requests of every kind follow each other and fail, of all the updates made
    against one revision at most one is answered: the revisions of the answered updates
    increase strictly, from the revision at the start to below the one at the end. *)
Theorem one_update_per_revision (rs : list (Machine * Request)) : forall w accepted w',
  requests rs w = (accepted, w') ->
  StronglySorted Z.lt accepted /\ Forall (fun v => m_revision (live w) <= v < m_revision (live w')) accepted
  /\ m_revision (live w) <= m_revision (live w').
Proof.
  induction rs as [|[m r] rs IH]; intros w accepted w'; cbn [requests].
  { intros [= <- <-]. split; [constructor|]. split; [constructor|lia]. }
  destruct (run_request m r w) as [res w1] eqn:E.
  assert (Hstep : m_revision (live w) <= m_revision (live w1)
    /\ forall p, r = Update p -> res = Ok tt -> patch_expected_revision p = m_revision (live w) /\ m_revision (live w1) = m_revision (live w) + 1).
  { destruct r as [p| | | | | | |]; [apply update_step in E as [H1 H2]; split; [done|]; by intros p' [= <-]|..];
      (split; [|done]); match type of E with run_request _ ?r _ = _ => pose proof (request_grows m r ltac:(done) w) as Hg end; by rewrite E in Hg. }
  destruct Hstep as [Hle Hup]. destruct res as [[]|[e|]].
  - destruct (requests rs w1) as [acc w2] eqn:E2. intros [= <- <-]. destruct (IH _ _ _ E2) as (Hs & Hf & Hl).
    assert (Hf' : Forall (fun v => m_revision (live w) <= v < m_revision (live w2)) acc) by (eapply Forall_impl; [exact Hf|]; cbn; lia).
    destruct r; try (split_and!; [done|done|lia]). destruct (Hup p eq_refl eq_refl) as [Hp Hn].
    split_and!; [|constructor; [lia|done]|lia]. constructor; [done|]. eapply Forall_impl; [exact Hf|]. cbn. lia.
  - intros E2. destruct (IH _ _ _ E2) as (Hs & Hf & Hl). split_and!; [done| |lia]. eapply Forall_impl; [exact Hf|]. cbn. lia.
  - intros [= <- <-]. split_and!; [constructor|constructor|lia].
Qed.

(** * Which plugins go through the proxy *)

Lemma insert_defaults_lookup (ps : list str) (mp : gmap str bool) k :
  foldl (fun m p => match m !! p with Some _ => m | None => <[p := true]> m end) mp ps !! k =
  match mp !! k with Some b => Some b | None => if existsb (str_eqb k) ps then Some true else None end.
Proof.
  revert mp. induction ps as [|p ps IH]; intros mp; cbn [foldl existsb]; [by destruct (mp !! k)|]. rewrite IH.
  unfold str_eqb at 2. case_bool_decide as Hkp; [subst k|]; cbn [orb].
  - destruct (mp !! p) eqn:E; [by rewrite E|by rewrite lookup_insert_eq].
  - destruct (mp !! p) eqn:E; [done|by rewrite lookup_insert_ne].
Qed.

(** The map that the client routes by and the question asked about one plugin agree, for
    the stored row as for what a frontend was told. *)
Theorem plugin_proxy_answers_agree u a b (id : str) :
  default false (effective_plugin_proxy_map u !! id) = plugin_proxy_effective (network_dto u a b) id
  /\ effective_plugin_proxy_enabled (network_dto u a b) = effective_plugin_proxy_map u.
Proof.
  split; [|done]. unfold effective_plugin_proxy_map, apply_default_proxied_plugins, plugin_proxy_effective. cbn [nd_socks5_enabled nd_plugin_proxy_enabled network_dto].
  destruct (socks5_enabled u); cbn [negb andb]; [|done]. rewrite insert_defaults_lookup.
  destruct (get_plugin_proxy_settings u !! id); [done|]. by destruct (existsb _ _).
Qed.

(** * Password rules *)

Lemma edited_names current es rules : edited_rules current es = Ok rules -> map rule_name rules = map re_name es.
Proof.
  revert rules. induction es as [|e es IH]; intros rules; cbn [edited_rules]; [by intros [= <-]|].
  destruct (match re_password e with Some secret => _ | None => _ end); cbn [rbind]; [|done].
  destruct (edited_rules current es) as [rest|]; cbn [rbind]; [|done]. intros [= <-]. cbn. by rewrite (IH rest).
Qed.

Lemma validate_edit_names existing used names e used' names' :
  validate_edit existing (used, names) e = Ok (used', names') -> re_name e ∉ names /\ names' = {[ re_name e ]} ∪ names.
Proof.
  unfold validate_edit. destruct (validate_password_rule_fields _ _); cbn [rbind]; [|done]. case_bool_decide; [done|].
  repeat case_match; try done; by intros [= <- <-].
Qed.

Lemma validate_edits_names existing es : forall used names r,
  try_fold (validate_edit existing) (used, names) es = Ok r -> NoDup (map re_name es) /\ Forall (fun e => re_name e ∉ names) es.
Proof.
  induction es as [|e es IH]; intros used names r; cbn [try_fold]; [split; constructor|].
  destruct (validate_edit existing (used, names) e) as [[used1 names1]|] eqn:E; cbn [rbind]; [|done].
  apply validate_edit_names in E as [Hn ->]. intros (Hnd & Hf)%IH. split.
  - cbn [map]. constructor; [|done]. intros (e' & He' & Hin)%list_elem_of_fmap. rewrite Forall_forall in Hf. specialize (Hf e' Hin). set_solver.
  - constructor; [done|]. eapply Forall_impl; [exact Hf|]. cbn. set_solver.
Qed.

(** The vault after its rules were written. *)
Lemma stored_rules_listed dbs rules w w' :
  replace_all_pass_rules dbs rules w = Some w' -> list_pass_rules dbs w' = Some (stable_sort rule_before rules).
Proof.
  unfold replace_all_pass_rules, list_pass_rules. destruct (d_vaults (disk w) !! h_path dbs) as [f|]; [|done]. intros [= <-]. cbn.
  rewrite lookup_insert_eq. cbn. unfold decrypt_rules.
  assert (forallb (fun r => str_eqb r.1 (h_key dbs)) (map (fun r => (h_key dbs, r)) rules) = true) as ->.
  { apply forallb_forall. intros x (r & <- & _)%in_map_iff. apply str_eqb_refl. }
  cbn. rewrite map_map. cbn. by rewrite map_id.
Qed.

(** Each rule that an edit gives has the fields of the edit, and its password or the one of
    the rule it was made from. *)
Definition follows_edit (current : list PassRule) (e : PasswordRuleEditInput) (r : PassRule) : Prop :=
  rule_name r = re_name e /\ rule_pattern r = re_pattern e /\ rule_priority r = re_priority e /\ rule_enabled r = re_enabled e
  /\ match re_password e with
     | Some secret => rule_password r = secret
     | None => exists original old, re_original_name e = Some original /\ rule_by_name current original = Some old /\ rule_password r = rule_password old
     end.

Lemma edited_rules_follow current es rules : edited_rules current es = Ok rules -> Forall2 (follows_edit current) es rules.
Proof.
  revert rules. induction es as [|e es IH]; intros rules; cbn [edited_rules]; [intros [= <-]; constructor|].
  destruct (match re_password e with Some secret => _ | None => _ end) as [pw|] eqn:Epw; cbn [rbind]; [|done].
  destruct (edited_rules current es) as [rest|]; cbn [rbind]; [|done]. intros [= <-]. constructor; [|by apply IH].
  unfold follows_edit. cbn. split_and!; try done. destruct (re_password e); [by injection Epw|].
  destruct (re_original_name e) as [o|]; [|done]. destruct (rule_by_name current o) as [old|] eqn:Eo; [|done]. injection Epw as <-. eauto.
Qed.

(** Replacing the password rules gives, when it answers, one rule for each edit with
    distinct names and with the password of the edit or of the rule it was made from; they
    are the live rules and what the vault lists; an error leaves the live rules. *)
Theorem rules_are_replaced m es w r w' :
  run_replace_password_rules m es w = (r, w') ->
  match r with
  | Ok summaries =>
      exists dbs rules, m_dbs (live w) = Some dbs /\ Forall2 (follows_edit (m_pass_rules (live w))) es rules /\ NoDup (map rule_name rules)
        /\ summaries = map summarize_pass_rule rules /\ m_pass_rules (live w') = rules
        /\ list_pass_rules dbs w' = Some (stable_sort rule_before rules)
  | Err _ => live w' = live w
  end.
Proof.
  unfold run_replace_password_rules, ebind at 1, eget. destruct (m_dbs (live w)) as [dbs|]; [|by intros [= <- <-]].
  destruct (validate_password_rule_edit_inputs es _) as [[]|e] eqn:Ev; [|by intros [= <- <-]].
  destruct (edited_rules (m_pass_rules (live w)) es) as [rules|e] eqn:Ee; [|by intros [= <- <-]].
  unfold lift, ebind, eret, store_rules, persist_pass_rules, eput. intros E.
  pose proof (keeps_io live m WriteRules (persistence_error §"saving password rules") _ (replace_rules_kept dbs rules) (live w) w eq_refl) as Hk.
  revert E Hk. unfold ebind, eret. cbn. destruct (io m WriteRules _ _ w) as [[[]|e] w1] eqn:Ew; intros [= <- <-] Hk; [|done].
  assert (Hw : replace_all_pass_rules dbs rules w = Some w1).
  { revert Ew. unfold io, writes. repeat case_match; intros; by simplify_eq. }
  exists dbs, rules. split_and!; [done|by apply edited_rules_follow| |done|done|by apply stored_rules_listed in Hw].
  rewrite (edited_names _ _ _ Ee). revert Ev. unfold validate_password_rule_edit_inputs.
  destruct (try_fold _ _ es) as [r|] eqn:Ef; cbn [rbind]; [|done]. intros _. by apply validate_edits_names in Ef as [H _].
Qed.
End access.

(** * Examples *)

Module SettingsExample.

(** A format for the two values that the settings keep as JSON, by numbering them. *)
Fixpoint digits (p : positive) : str :=
  match p with
  | xH => []
  | xO p => "0"%char :: digits p
  | xI p => "1"%char :: digits p
  end.

Fixpoint number (s : str) : positive :=
  match s with
  | [] => xH
  | c :: s => if Ascii.eqb c "1"%char then xI (number s) else xO (number s)
  end.

Lemma number_digits p : number (digits p) = p.
Proof. induction p as [p IH|p IH|]; cbn; by rewrite ?IH. Qed.

#[export] Instance snapshot_countable : Countable ProxySettingsSnapshot :=
  inj_countable' (fun s => (ps_enabled s, ps_address s, ps_username s)) (fun '(e, a, u) => mk_proxy_snapshot e a u) ltac:(by intros []).

#[export] Instance pending_eq_dec : EqDecision PendingProxyUpdate.
Proof. solve_decision. Defined.

#[export] Instance pending_countable : Countable PendingProxyUpdate :=
  inj_countable' (fun p => (marker_version p, marker_previous p, marker_candidate p, previous_password p))
    (fun '(v, a, b, pw) => mk_pending v a b pw) ltac:(by intros []).

Definition written {A} `{Countable A} (a : A) : str := digits (encode a).
Definition read {A} `{Countable A} (s : str) : option A := decode (number s).

Lemma read_written {A} `{Countable A} (a : A) : read (written a) = Some a.
Proof. unfold read, written. by rewrite number_digits, decode_encode. Qed.

#[export] Instance numbered : SettingsExternals := {|
  bools_json := written; bools_of_json := read; bools_roundtrip := read_written;
  marker_json := written; marker_of_json := read; marker_roundtrip := read_written;
  regex_compiles := fun _ => true; proxy_builds := fun _ => true
|}.

(** A vault with a proxy password, an API key and two rules of one priority. *)
Definition home : DbPaths := mk_paths §"/c/config.redb" §"/c/cache.db" §"/c/secrets.redb" (Some §"/c/key").
Definition handle : ConfigDbs := mk_dbs §"/c/secrets.redb" §"k1".
Definition rule_b : PassRule := mk_rule §"b" §"x" §"pw-b" 1 true.
Definition rule_a : PassRule := mk_rule §"a" §"x" §"pw-a" 1 true.
Definition stored : UserConfig := set_network_fields new_user_config true (Some §"h:1") (Some §"me") None false None.

Definition start : World :=
  mk_world (mk_mutable 3 stored [rule_a; rule_b] §"trust" §"smart" (Some home) home (Some handle))
    (mk_disk (Some stored) ∅
       {[ §"/c/secrets.redb" := mk_vault {[ PROXY_PASSWORD_KEY := (§"k1", §"old"); GAMETA_API_KEY_KEY := (§"k1", §"api") ]}
                                  [(§"k1", rule_a); (§"k1", rule_b)] ]}
       {[ §"/c/key" := §"k1"; §"/c/key2" := §"k2" ]})
    (mk_routing true None ∅).

Definition machine (o : Io -> Outcome) : Machine := mk_machine o true false (fun _ => true) home (fun p => p ++ §".backup").
Definition works : Machine := machine (fun _ => Works).

(** The process dies after the password was written and before the row was. *)
Definition dies_at_row : Machine := machine (fun l => match l with SaveRow => Dies | _ => Works end).

Definition moved : UserConfig := set_network_fields stored true (Some §"h:2") (Some §"me") None false None.

Definition story : list (Machine * Call) :=
  [(dies_at_row, CallSave moved (Some §"new")); (works, CallSave moved (Some §"newer")); (dies_at_row, CallSave stored None)].

Lemma journal_refines_register_witness :
  let '(log, w) := calls handle settings_unavailable_error story start in
  log = [(CallSave moved (Some §"new"), false); (CallSave moved (Some §"newer"), true); (CallSave stored None, false)]
  /\ password_in handle w = None
  /\ exists s o w', register_run log (settled handle start) s /\ recover_pending works settings_unavailable_error handle w = (Ok o, w')
       /\ marker_in handle w' = None /\ snapshot_of (row_of w') = s.1 /\ password_in handle w' = s.2.
Proof.
  destruct (calls _ _ _ start) as [log w] eqn:E. split; [|split].
  - replace log with (calls handle settings_unavailable_error story start).1 by (by rewrite E). by vm_compute.
  - replace w with (calls handle settings_unavailable_error story start).2 by (by rewrite E). by vm_compute.
  - eapply (journal_refines_register handle settings_unavailable_error _ start log w works); [|exact E|by intros l].
    split; [split; by vm_compute|done].
Defined.

Definition ok {E A} (r : result E A) : option A := match r with Ok a => Some a | Err _ => None end.

(** The address of the proxy and the behaviour on drop change together. *)
Definition patch (address : str) (revision : Z) : SettingsPatch :=
  mk_settings_patch revision None (Some (mk_network_patch PatchKeep (PatchSet address) PatchKeep PatchKeep PatchKeep PatchKeep)) None
    (Some (mk_general_patch PatchKeep PatchKeep (PatchSet §"ask") PatchKeep)).


(** Two updates against one revision and a third against the next, with others between them. *)
Lemma one_update_per_revision_witness :
  let '(accepted, w) := requests [(works, Update (patch §"h:2" 3)); (works, Update (patch §"h:3" 3)); (works, DeleteRule §"a");
                                  (dies_at_row, SetApiKey §"x"); (works, Update (patch §"h:4" 5))] start in
  accepted = [3; 5] /\ StronglySorted Z.lt accepted /\ m_revision (live w) = 6.
Proof.
  destruct (requests _ start) as [accepted w] eqn:E. destruct (one_update_per_revision _ start accepted w E) as [Hs _].
  assert (Ha : accepted = (requests [(works, Update (patch §"h:2" 3)); (works, Update (patch §"h:3" 3)); (works, DeleteRule §"a");
    (dies_at_row, SetApiKey §"x"); (works, Update (patch §"h:4" 5))] start).1) by (by rewrite E).
  assert (Hw : m_revision (live w) = m_revision (live (requests [(works, Update (patch §"h:2" 3)); (works, Update (patch §"h:3" 3)); (works, DeleteRule §"a");
    (dies_at_row, SetApiKey §"x"); (works, Update (patch §"h:4" 5))] start).2)) by (by rewrite E).
  split; [rewrite Ha; vm_compute; reflexivity|]. split; [exact Hs|]. rewrite Hw. vm_compute. reflexivity.
Defined.

(** A rule renamed without its password, and a new one. *)
Definition edits : list PasswordRuleEditInput :=
  [mk_rule_edit (Some §"b") §"c" §"y" 2 true None; mk_rule_edit None §"b" §"z" 5 true (Some §"pw-n")].

Lemma rules_are_replaced_witness :
  exists rules, m_pass_rules (live (run_replace_password_rules works edits start).2) = rules
    /\ map rule_password rules = [§"pw-b"; §"pw-n"] /\ Forall2 (follows_edit (m_pass_rules (live start))) edits rules.
Proof.
  pose proof (rules_are_replaced works edits start _ _ (surjective_pairing _)) as H.
  assert (Hok : map rule_password (m_pass_rules (live (run_replace_password_rules works edits start).2)) = [§"pw-b"; §"pw-n"]
    /\ is_Some (ok (run_replace_password_rules works edits start).1)) by (vm_compute; eauto).
  destruct (run_replace_password_rules works edits start) as [[s|e] w]; [|by destruct Hok as [_ [? ?]]]. cbn [fst snd] in *.
  destruct H as (dbs & rules & _ & Hf & _ & _ & Hl & _). exists rules. split; [done|]. split; [by rewrite <- Hl; apply Hok|done].
Defined.

(** * What goes wrong *)

Definition api_key_of (w : World) : option (option str) := dbs ← m_dbs (live w); get_secret dbs GAMETA_API_KEY_KEY w.
Definition password_of (w : World) : option (option str) := dbs ← m_dbs (live w); get_secret dbs PROXY_PASSWORD_KEY w.

(** Changing the key copies the rules only: the API key and the proxy's password are gone,
    and the call answers. *)
Example rekey_loses_secrets :
  let '(r, w) := run_rekey_vault works §"/c/key2" start in
  r = Ok tt /\ m_pass_rules (live w) = [rule_a; rule_b]
  /\ api_key_of start = Some (Some §"api") /\ password_of start = Some (Some §"old")
  /\ api_key_of w = Some None /\ password_of w = Some None.
Proof. vm_compute. auto 10. Qed.

(** Moving the vault to where it is empties it, and the call answers. *)
Example move_onto_itself_empties :
  let '(r, w) := run_move_vault works §"/c/secrets.redb" start in
  r = Ok tt /\ m_pass_rules (live w) = [] /\ api_key_of w = Some None /\ password_of w = Some None.
Proof. vm_compute. auto 10. Qed.

(** A move that fails leaves the settings without a vault: every later request for the
    vault is refused, although the file is as it was. *)
Example failed_move_closes_the_vault :
  let w := (run_move_vault (machine (fun l => match l with CopyVault => Refuses | _ => Works end)) §"/d/secrets.redb" start).2 in
  get_secret handle GAMETA_API_KEY_KEY w = Some (Some §"api") /\ (run_set_gameta_api_key works §"x" w).1 = Err (Failed vault_unavailable_error).
Proof. vm_compute. auto. Qed.

(** The row is refused while the patch sets the address to what it is: the journal finds
    the identity it wanted, the update answers with the new behaviour on drop, and the
    store still has the old. *)
Example refused_row_reported_as_saved :
  let m := machine (fun l => match l with SaveRow => Refuses | _ => Works end) in
  let '(r, w) := run_update_settings m (patch §"h:1" 3) start in
  (d ← ok r; Some (gd_drop_behavior (ss_general d))) = Some §"ask" /\ m_revision (live w) = 4
  /\ gd_drop_behavior (general_dto (row_of w)) = §"new_tab".
Proof. vm_compute. auto. Qed.

(** The secrets cannot be read after the commit: the update reports an error although it
    happened, and the same update made again is a conflict. *)
Example committed_update_reports_error :
  let m := machine (fun l => match l with CheckApiKey => Refuses | _ => Works end) in
  let '(r, w) := run_update_settings m (patch §"h:2" 3) start in
  r = Err (Failed (persistence_error §"reading secret storage")) /\ m_revision (live w) = 4
  /\ (run_update_settings works (patch §"h:2" 3) w).1 = Err (Failed (conflict_error 4)).
Proof. vm_compute. auto. Qed.

(** The two policies are two statements: one is stored and the other lost. *)
Example policies_are_not_written_together :
  let m := machine (fun l => match l with PersistCollision => Refuses | _ => Works end) in
  let p := mk_settings_patch 3 (Some (mk_archive_patch PatchKeep PatchKeep PatchKeep PatchKeep PatchKeep (PatchSet §"skip"))) None
             (Some (mk_security_patch PatchKeep PatchKeep (PatchSet §"verify"))) None in
  let '(r, w) := run_update_settings m p start in
  r = Err (Failed (persistence_error §"saving configuration policies")) /\ m_encrypted_crc_policy (live w) = §"trust"
  /\ d_app (disk w) !! §"encrypted_crc_policy" = Some §"verify" /\ d_app (disk w) !! §"pipeline.default_collision_policy" = None.
Proof. vm_compute. auto. Qed.

(** Rules of one priority are tried in the order they were given until the next start,
    which reads them by name. *)
Example rule_order_changes_at_restart :
  let w := (run_replace_password_rules works [mk_rule_edit (Some §"b") §"b" §"x" 1 true None; mk_rule_edit (Some §"a") §"a" §"x" 1 true None] start).2 in
  m_pass_rules (live w) = [rule_b; rule_a] /\ list_pass_rules handle w = Some [rule_a; rule_b].
Proof. vm_compute. auto. Qed.
End SettingsExample.
