(* ===== verification/PasswordMatch.v ===== *)
(** The choice of a stored password for an archive, and the broadening of rules that were
    saved for one file name ([crates/core/src/utilities/password_matcher.rs], and
    [upgrade_narrow_auto_saved_rules] of [crates/app/src/runtime/bootstrap.rs]).

    A regular expression is compiled by [regex_compiles] of the settings; what it matches,
    [regex::escape] and the product code detector of [gameta_lib] are a class. *)

From stdpp Require Import base tactics option list gmap sorting strings.
From Stdlib Require Import ZArith Lia Ascii.
From S2P Require Import Prelude Text AppError RustPath Effects Settings SettingsOps SettingsProps.

#[local] Arguments String.list_ascii_of_string : simpl never.
Local Open Scope arclain_scope.
Local Open Scope Z_scope.

Class RuleText := {
  is_match : str -> str -> bool;               (** [Regex::is_match], of a pattern that compiles *)
  regex_escape : str -> str;                   (** [regex::escape] *)
  detect_dlsite_code : str -> option str       (** [gameta_lib::detect::detect_dlsite_code] *)
}.

Section matcher.
Context {SX : SettingsExternals} {RT : RuleText}.

(** ** Choosing a password *)

Definition by_priority (a b : PassRule) : Prop := rule_priority b <= rule_priority a.

#[export] Instance by_priority_dec : RelDecision by_priority.
Proof. intros a b. unfold by_priority. apply _. Defined.

#[export] Instance by_priority_trans : Transitive by_priority.
Proof. intros a b c. unfold by_priority. lia. Qed.

#[export] Instance by_priority_total : Total by_priority.
Proof. intros a b. unfold by_priority. lia. Qed.

(** One turn of the loop. *)
Definition rule_matches (archive_path : option str) (filenames : list str) (r : PassRule) : bool :=
  regex_compiles (rule_pattern r)
  && (match archive_path with
      | Some archive => is_match (rule_pattern r) (default archive (file_name archive))
      | None => false
      end
      || existsb (is_match (rule_pattern r)) filenames).

Definition auto_password_for (rules : list PassRule) (archive_path : option str) (filenames : list str) : option str :=
  rule_password <$> find (rule_matches archive_path filenames) (stable_sort by_priority (List.filter rule_enabled rules)).

(** ** Broadening *)

(** The first group of [^\[([^\]]+)\]]. *)
Definition leading_maker (filename : str) : option str :=
  match filename with
  | "["%char :: rest =>
      match find_char (fun c => Ascii.eqb c "]"%char) rest with
      | Some (S n) => Some (take (S n) rest)
      | _ => None
      end
  | _ => None
  end.

Definition derive_pattern_for (filename : str) : str :=
  match detect_dlsite_code filename with
  | Some code => §"(?i)" ++ regex_escape code
  | None =>
      match leading_maker filename with
      | Some maker => §"^\[" ++ regex_escape maker ++ §"\]"
      | None => regex_escape filename
      end
  end.

Definition with_pattern (r : PassRule) (pattern : str) : PassRule :=
  mk_rule (rule_name r) pattern (rule_password r) (rule_priority r) (rule_enabled r).

Definition PREFIX : str := §"Auto-saved: ".

(** The closure: the rule after it, and whether it changed. *)
Definition upgrade_rule (r : PassRule) : PassRule * bool :=
  match strip_prefix PREFIX (rule_name r) with
  | Some filename =>
      if str_eqb (rule_pattern r) (regex_escape filename) then
        let broadened := derive_pattern_for filename in
        if negb (str_eqb broadened (rule_pattern r)) then (with_pattern r broadened, true) else (r, false)
      else (r, false)
  | None => (r, false)
  end.

Definition upgrade_auto_saved_rules (rules : list PassRule) : option (list PassRule) :=
  let upgraded := map upgrade_rule rules in
  if existsb snd upgraded then Some (map fst upgraded) else None.

(** At launch: the rules, and how many changed. *)
Definition upgrade_narrow_auto_saved_rules (m : Machine) (dbs : ConfigDbs) (pass_rules : list PassRule) : Run (nat * list PassRule) :=
  match upgrade_auto_saved_rules pass_rules with
  | None => eret (O, pass_rules)
  | Some upgraded =>
      let changed := length (List.filter (fun p => negb (str_eqb (rule_pattern p.1) (rule_pattern p.2))) (combine upgraded pass_rules)) in
      on_failure (task_io m WriteRules (persistence_error §"saving password rules") (writes (replace_all_pass_rules dbs upgraded)))
        (fun _ => eret (changed, upgraded)) (fun _ => eret (O, pass_rules))
  end.

(** * Facts *)

(** A rule that may give the password. *)
Definition applies (archive_path : option str) (filenames : list str) (r : PassRule) : bool :=
  rule_enabled r && rule_matches archive_path filenames r.

Lemma find_head {A} (P : A -> bool) l : find P l = head (List.filter P l).
Proof. induction l as [|x l IH]; cbn; [done|]. by destruct (P x). Qed.

Lemma filter_filter_and {A} (P Q : A -> bool) l : List.filter P (List.filter Q l) = List.filter (fun x => Q x && P x) l.
Proof. induction l as [|x l IH]; cbn; [done|]. destruct (Q x); cbn; [destruct (P x)|]; by rewrite IH. Qed.

(** Of a list in order the first of a class is the first of the least ones of the class. *)
Lemma find_sorted (P : PassRule -> bool) l r :
  StronglySorted by_priority l -> find P l = Some r ->
  (forall x, x ∈ l -> P x = true -> rule_priority x <= rule_priority r)
  /\ find (fun x => P x && (rule_priority x =? rule_priority r)) l = Some r.
Proof.
  induction 1 as [|x l Hl IH Hx]; cbn [find]; [done|]. destruct (P x) eqn:Ex.
  - intros [= <-]. rewrite Z.eqb_refl. cbn [andb]. split; [|done]. intros y [->|Hy]%elem_of_cons _; [lia|].
    rewrite Forall_forall in Hx. by apply Hx.
  - intros (H1 & H2)%IH. cbn [andb]. split; [|done]. intros y [->|Hy]%elem_of_cons Hp; [congruence|by apply H1].
Qed.

(** A password is given exactly when some enabled rule matches the archive's name or one
    of the paths, and it is that of the first, in the order of the list, of the matching
    rules of the highest priority. *)
Theorem password_is_of_the_best_rule rules archive_path filenames :
  match auto_password_for rules archive_path filenames with
  | Some pw =>
      exists r, rule_password r = pw /\ applies archive_path filenames r = true
        /\ (forall x, x ∈ rules -> applies archive_path filenames x = true -> rule_priority x <= rule_priority r)
        /\ find (fun x => applies archive_path filenames x && (rule_priority x =? rule_priority r)) rules = Some r
  | None => forall x, x ∈ rules -> applies archive_path filenames x = false
  end.
Proof.
  unfold auto_password_for. set (l := List.filter rule_enabled rules). set (P := rule_matches archive_path filenames).
  assert (Hin : forall x, x ∈ rules -> applies archive_path filenames x = true -> x ∈ stable_sort by_priority l /\ P x = true).
  { intros x Hx [He Hm]%andb_true_iff. split; [|done]. rewrite stable_sort_perm. apply list_elem_of_In, filter_In. split; [by apply list_elem_of_In|done]. }
  destruct (find P (stable_sort by_priority l)) as [r|] eqn:E; cbn.
  - pose proof (find_some _ _ E) as [Hr Hp]. apply list_elem_of_In in Hr. rewrite stable_sort_perm in Hr.
    apply list_elem_of_In, filter_In in Hr as [_ He].
    destruct (find_sorted P _ r (stable_sort_sorted by_priority l) E) as [Hmax Hfirst]. exists r. split_and!; [done| | |].
    + unfold applies. by rewrite He.
    + intros x Hx Ha. destruct (Hin x Hx Ha) as [Hs Hpx]. by apply Hmax.
    + rewrite find_head in Hfirst |- *. rewrite <- Hfirst. rewrite stable_sort_stable.
      * unfold l. rewrite filter_filter_and. f_equal. apply filter_ext. intros x. unfold applies, P. by rewrite andb_assoc.
      * apply _.
      * apply _.
      * intros x y [_ Hx%Z.eqb_eq]%andb_true_iff [_ Hy%Z.eqb_eq]%andb_true_iff. unfold by_priority. lia.
  - intros x Hx. destruct (applies archive_path filenames x) eqn:Ea; [|done]. destruct (Hin x Hx Ea) as [Hs%list_elem_of_In Hp].
    pose proof (find_none _ _ E x Hs). congruence.
Qed.

(** A rule that was broadened is not broadened again. *)
Lemma upgrade_rule_once r : upgrade_rule (upgrade_rule r).1 = ((upgrade_rule r).1, false).
Proof.
  unfold upgrade_rule at 2 3. destruct (strip_prefix PREFIX (rule_name r)) as [f|] eqn:Ef.
  2:{ cbn. unfold upgrade_rule. by rewrite Ef. }
  destruct (str_eqb (rule_pattern r) (regex_escape f)) eqn:Ep; cbn [fst].
  2:{ unfold upgrade_rule. by rewrite Ef, Ep. }
  destruct (str_eqb (derive_pattern_for f) (rule_pattern r)) eqn:Ed; cbn [negb fst].
  - unfold upgrade_rule. by rewrite Ef, Ep, Ed.
  - unfold upgrade_rule. cbn [rule_name with_pattern rule_pattern]. rewrite Ef. apply str_eqb_eq in Ep. rewrite <- Ep.
    by rewrite Ed.
Qed.

(** The upgrade keeps the rules in order with everything but their patterns, and a second
    upgrade finds nothing to do. *)
Theorem upgrade_is_idempotent rules upgraded :
  upgrade_auto_saved_rules rules = Some upgraded ->
  upgrade_auto_saved_rules upgraded = None
  /\ map (fun r => with_pattern r []) upgraded = map (fun r => with_pattern r []) rules.
Proof.
  unfold upgrade_auto_saved_rules. cbv zeta. destruct (existsb snd (map upgrade_rule rules)); [|done]. intros [= <-]. split.
  - destruct (existsb snd _) eqn:E; [|done]. apply existsb_exists in E as (x & (y & <- & Hy)%in_map_iff & Hx).
    apply in_map_iff in Hy as (z & <- & (r & <- & _)%in_map_iff). by rewrite upgrade_rule_once in Hx.
  - rewrite !map_map. apply map_ext. intros r. unfold upgrade_rule. by repeat case_match.
Qed.
End matcher.

Module PasswordMatchExample.
Import SettingsExample.

(** Patterns as plain texts, for the examples. *)
#[local] Instance plain : RuleText :=
  {| is_match := fun p s => contains_str s p; regex_escape := fun s => s; detect_dlsite_code := fun _ => None |}.

Definition saved : PassRule := mk_rule §"Auto-saved: [Studio] one.zip" §"[Studio] one.zip" §"pw" 10 true.

Lemma upgrade_is_idempotent_witness :
  upgrade_auto_saved_rules [rule_a; saved] = Some [rule_a; with_pattern saved §"^\[Studio\]"]
  /\ upgrade_auto_saved_rules [rule_a; with_pattern saved §"^\[Studio\]"] = None.
Proof.
  split; [by vm_compute|]. apply (upgrade_is_idempotent [rule_a; saved]). by vm_compute.
Defined.

(** Of two rules of one priority the one listed first is chosen; the vault lists them by
    name at the next start, and the same archive gets the other password. *)
Example restart_changes_the_password :
  let w := (run_replace_password_rules works [mk_rule_edit (Some §"b") §"b" §"x" 1 true None; mk_rule_edit (Some §"a") §"a" §"x" 1 true None] start).2 in
  auto_password_for (m_pass_rules (live w)) (Some §"/t/x.zip") [] = Some §"pw-b"
  /\ (rs ← list_pass_rules handle w; auto_password_for rs (Some §"/t/x.zip") []) = Some §"pw-a".
Proof. vm_compute. auto. Qed.
End PasswordMatchExample.
