(* ===== verification/OpenArchive.v ===== *)
(** Opening an archive ([crates/app/src/runtime/archive_ops.rs]): one attempt to list it,
    with the password that the stored rules give or that was typed, and the worker of the
    operation, from its start over challenges for a password to the session it leaves in
    the store.

    The worker is a state machine. Its steps are interleaved with every step of the
    operation registry, of the waiters for challenges and of the store of sessions, so a
    cancellation may fall between any two. A backend is what it answers when it is asked
    to list; it is given anew to every attempt. *)

From stdpp Require Import base tactics option list gmap sorting strings.
From Stdlib Require Import ZArith Lia Ascii.
From S2P Require Import Prelude Text AppError Registry Waiters Archive EntryIndex ArchiveSession RustPath Multipart Merge.
From S2P Require Import Effects Settings SettingsOps SettingsProps PasswordMatch.

#[local] Arguments String.list_ascii_of_string : simpl never.
Local Open Scope arclain_scope.
Local Open Scope Z_scope.

(** * One attempt *)

Inductive ArchiveKind := Zip | SevenZ | Rar | Unknown (other : str).

Record ArchiveInfo := mk_info {
  archive_kind : ArchiveKind;
  info_entries : list ArchiveEntry;
  info_encrypted : bool;
  headers_encrypted : bool;
  encryption_method : option str
}.

Definition archive_kind_to_type_string (k : ArchiveKind) : str :=
  match k with Zip => §"zip" | SevenZ => §"7z" | Rar => §"rar" | Unknown other => other end.

(** [SessionEncryption::from_listing]. *)
Definition from_listing (i : ArchiveInfo) : SessionEncryption :=
  mk_encryption (info_encrypted i) (headers_encrypted i) (encryption_method i).

(** An error of a backend: whether [is_archive_not_found] finds the missing file in its
    chain, and its text. *)
Record ListError := mk_list_error { not_found : bool; error_text : str }.

(** What an attempt meets: the directories, the choice of a backend, its listing. *)
Record OpenEnv := mk_open_env {
  open_read_dir : str -> option (list str);
  select : result str unit;
  list_archive : option str -> result ListError ArchiveInfo
}.

Definition open_backend_error (cid : CorrelationId) (source_path text : str) : ApplicationError :=
  with_path (with_recoverability (with_diagnostic (new cid Backend §"failed to open archive") text) Retry) source_path.

Definition select_error (cid : CorrelationId) (path text : str) : ApplicationError :=
  with_path (with_recoverability (with_diagnostic (new cid Backend §"failed to select an archive backend") text) Fatal) path.

Definition format_description (f : MultiPartFormat) : str :=
  match f with
  | RarPart => §"RAR multi-part (.partN.rar)"
  | RarSequence => §"RAR sequence (.rar, .r00, .r01)"
  | SevenZip => §"7-Zip split (.7z.001)"
  | ZipSplit => §"ZIP split (.z01, .zip)"
  | Generic001 => §"Generic split (.001, .002)"
  end.

Definition multipart_error (cid : CorrelationId) (path : str) (m : MultiPartArchive) : ApplicationError :=
  with_path (with_recoverability (with_diagnostic
    (new cid Unsupported §"multi-part archives must be merged before they can be opened")
    (§"detected " ++ format_description (format m) ++ §" (" ++ base_name m ++ §")")) UserAction) path.

Inductive AttemptOutcome :=
| Success (info : ArchiveInfo) (password_used : option str)
| PasswordRequired
| AttemptError (error : ApplicationError).

Section attempt.
Context {SX : SettingsExternals} {RT : RuleText} {UT : UnicodeTables} {RC : RegexCrate}.
Context (cid : CorrelationId) (env : OpenEnv) (path : str).

(** The error of a listing that was tried with a password, or without one and with no rule to try. *)
Definition classify_error (e : ListError) : AttemptOutcome :=
  if not_found e then AttemptError (archive_not_found cid path)
  else if is_password_error (error_text e) then PasswordRequired
  else AttemptError (open_backend_error cid path (error_text e)).

Definition attempt_initial (pass_rules : list PassRule) : AttemptOutcome :=
  match list_archive env None with
  | Ok info =>
      if headers_encrypted info then
        match auto_password_for pass_rules (Some path) [] with
        | Some password =>
            match list_archive env (Some password) with
            | Ok unlocked => Success unlocked (Some password)
            | Err _ => Success info None
            end
        | None => Success info None
        end
      else Success info None
  | Err error =>
      if not_found error then AttemptError (archive_not_found cid path)
      else
        match auto_password_for pass_rules (Some path) [] with
        | Some password =>
            match list_archive env (Some password) with
            | Ok info => Success info (Some password)
            | Err retry_error => classify_error retry_error
            end
        | None => classify_error error
        end
  end.

Definition attempt_with_password (password : str) : AttemptOutcome :=
  match list_archive env (Some password) with
  | Ok info => Success info (Some password)
  | Err error => classify_error error
  end.

(** The blocking task of one turn. *)
Definition open_attempt (pass_rules : list PassRule) (attempt_password : option str) : AttemptOutcome :=
  match detect (open_read_dir env) path with
  | Some multipart => AttemptError (multipart_error cid path multipart)
  | None =>
      match select env with
      | Err text => AttemptError (select_error cid path text)
      | Ok _ =>
          match attempt_password with
          | Some password => attempt_with_password password
          | None => attempt_initial pass_rules
          end
      end
  end.
End attempt.

(** * The worker *)

Section worker.
Context {SX : SettingsExternals} {RT : RuleText} {UT : UnicodeTables} {RC : RegexCrate} {CF : Crc32Fast}.
Context {Json Lease Update : Type}.

(** The result of the operation is the snapshot of the session. *)
#[export] Instance open_payloads : Payloads :=
  {| Registry.ArchiveSnapshot := ArchiveSession.ArchiveSnapshot (Json:=Json); MaterializationLease := Lease; PluginUiUpdate := Update |}.

Notation Session := (ArchiveSession (Json:=Json)).
Notation Store := (ArchiveSessionStore (Json:=Json)).

Context (id : OperationId) (path : str) (request_password : option str).

Inductive OpenPc :=
| OBegin
| OLoop (password : option str) (attempt : Z)
| OAttempt (password : option str) (attempt : Z)
| OListed (info : ArchiveInfo) (used : option str)
| OTake (info : ArchiveInfo) (used : option str)
| OIndex (sid : Z) (info : ArchiveInfo) (used : option str)
| ORecheck (s : Session)
| OComplete (s : Session)
| OReadBack (s : Session)
| ODispatch (s : Session)
| OClose (s : Session)
| OPrompt (attempt : Z)
| ORegistered (attempt : Z) (channel : nat)
| OWaiting (attempt : Z) (channel : nat)
| OUnregister
| OFail (error : ApplicationError)
| OEnd.

(** [o_mine]: the id of the session this worker put into the store. [o_told]: the sessions
    plugins were told of. [o_envs]: what the attempts met. The first and the last are
    history only. *)
Record OWorld := mk_oworld {
  o_reg : OperationRegistry;
  o_calls : list Pending;
  o_store : Store;
  o_waiters : ChallengeWaiters;
  o_pc : OpenPc;
  o_mine : option Z;
  o_told : list Z;
  o_envs : list OpenEnv
}.

Definition oset_pc (k : OpenPc) (x : OWorld) : OWorld :=
  mk_oworld (o_reg x) (o_calls x) (o_store x) (o_waiters x) k (o_mine x) (o_told x) (o_envs x).
Definition oset_store (st : Store) (k : OpenPc) (x : OWorld) : OWorld :=
  mk_oworld (o_reg x) (o_calls x) st (o_waiters x) k (o_mine x) (o_told x) (o_envs x).
Definition oset_waiters (ws : ChallengeWaiters) (k : OpenPc) (x : OWorld) : OWorld :=
  mk_oworld (o_reg x) (o_calls x) (o_store x) ws k (o_mine x) (o_told x) (o_envs x).

(** The worker's own [transition], which goes on as [ok] or [failed]. *)
Definition otransition (s : OperationState) (ok failed : OpenPc) (x : OWorld) : OWorld :=
  let '(r', rest) := run_section (PTransition id s) (o_reg x) in
  mk_oworld r' (rest ++ o_calls x) (o_store x) (o_waiters x)
    (if is_ok (transition_section id s (o_reg x)).1 then ok else failed) (o_mine x) (o_told x) (o_envs x).

Definition is_completed (s : OperationState) : bool := match s with Completed _ => true | _ => false end.

Definition open_join_error (cid : CorrelationId) (text : str) : ApplicationError :=
  with_diagnostic (new cid Internal §"archive open worker failed") text.
Definition index_error (cid : CorrelationId) (sid : Z) (text : str) : ApplicationError :=
  with_archive_session_id (with_recoverability (with_diagnostic (new cid Internal §"failed to index archive") text) Fatal) sid.
Definition wrong_response_error (cid : CorrelationId) : ApplicationError :=
  new cid Internal §"expected a password response to a password challenge".

Definition challenge_archive_name : str := default path (file_name path).

Definition session_from (sid : Z) (info : ArchiveInfo) : Session :=
  new_session sid path (archive_kind_to_type_string (archive_kind info)) (info_entries info) (from_listing info).

Inductive open_step : OWorld -> OWorld -> Prop :=
| o_start x : o_pc x = OBegin -> open_step x (otransition Started (OLoop request_password 1) OEnd x)
| o_loop x pw n : o_pc x = OLoop pw n ->
    open_step x (oset_pc (if is_cancelled id (o_reg x) then OEnd else OAttempt pw n) x)
| o_no_runtime x pw n : o_pc x = OAttempt pw n -> open_step x (oset_pc OEnd x)
| o_attempt x pw n env cid pass_rules : o_pc x = OAttempt pw n ->
    open_step x (mk_oworld (o_reg x) (o_calls x) (o_store x) (o_waiters x)
      (match open_attempt cid env path pass_rules pw with
       | Success info used => OListed info used
       | PasswordRequired => OPrompt n
       | AttemptError e => OFail e
       end) (o_mine x) (o_told x) (o_envs x ++ [env]))
| o_panic x pw n cid text : o_pc x = OAttempt pw n -> open_step x (oset_pc (OFail (open_join_error cid text)) x)
| o_listed x info used : o_pc x = OListed info used ->
    open_step x (oset_pc (if is_cancelled id (o_reg x) then OEnd else OTake info used) x)
(* the store's [open] *)
| o_take x info used : o_pc x = OTake info used ->
    open_step x (mk_oworld (o_reg x) (o_calls x) (take_id (o_store x)).2 (o_waiters x) (OIndex (take_id (o_store x)).1 info used)
      (o_mine x) (o_told x) (o_envs x))
| o_index_fails x sid info used cid text : o_pc x = OIndex sid info used ->
    open_step x (oset_pc (OFail (index_error cid sid text)) x)
| o_insert x sid info used : o_pc x = OIndex sid info used ->
    open_step x (mk_oworld (o_reg x) (o_calls x) (insert_session sid (session_from sid info) (o_store x)) (o_waiters x)
      (ORecheck (session_from sid info)) (Some sid) (o_told x) (o_envs x))
| o_recheck x s : o_pc x = ORecheck s ->
    open_step x (oset_pc (if is_cancelled id (o_reg x) then OClose s else OComplete s) x)
| o_complete x s : o_pc x = OComplete s ->
    open_step x (otransition (Completed (ArchiveOpened (ArchiveSession.snapshot s))) (OReadBack s) (OReadBack s) x)
| o_read_back x s : o_pc x = OReadBack s ->
    open_step x (oset_pc
      (match operation id (o_reg x) with
       | Some snap => if is_completed (snap_state snap) then ODispatch s else OClose s
       | None => OClose s
       end) x)
| o_dispatch x s : o_pc x = ODispatch s ->
    open_step x (mk_oworld (o_reg x) (o_calls x) (o_store x) (o_waiters x) OEnd (o_mine x) (o_told x ++ [session_id s]) (o_envs x))
| o_no_plugins x s : o_pc x = ODispatch s -> open_step x (oset_pc OEnd x)
| o_close x s : o_pc x = OClose s -> open_step x (oset_store (ArchiveSession.close (session_id s) (o_store x)).2 OEnd x)
(* a challenge for a password *)
| o_register x n : o_pc x = OPrompt n ->
    open_step x (oset_waiters (register id (o_waiters x)).2 (ORegistered n (register id (o_waiters x)).1) x)
| o_challenge x n ch c : o_pc x = ORegistered n ch ->
    open_step x (otransition (ChallengeState (Password c challenge_archive_name n)) (OWaiting n ch) OUnregister x)
| o_unregister x : o_pc x = OUnregister -> open_step x (oset_waiters (waiters_cancel id (o_waiters x)) OEnd x)
| o_answered x n ch c value : o_pc x = OWaiting n ch -> channels (o_waiters x) !! ch = Some (Delivered (PasswordResponse c value)) ->
    open_step x (oset_pc (OLoop (Some value) (n + 1)) x)
| o_misanswered x n ch cid resp : o_pc x = OWaiting n ch -> channels (o_waiters x) !! ch = Some (Delivered resp) ->
    (forall c value, resp <> PasswordResponse c value) ->
    open_step x (oset_pc (OFail (wrong_response_error cid)) x)
| o_sender_dropped x n ch : o_pc x = OWaiting n ch -> channels (o_waiters x) !! ch = Some SenderDropped ->
    open_step x (oset_pc OEnd x)
| o_cancelled x n ch : o_pc x = OWaiting n ch -> is_cancelled id (o_reg x) = true ->
    open_step x (oset_pc OUnregister x)
| o_fail x e : o_pc x = OFail e -> open_step x (otransition (Registry.Failed e) OEnd OEnd x).

(** Only the worker completes its operation. *)
Definition not_completing (p : Pending) : bool :=
  match p with PTransition i (Completed _) => negb (i =? id) | _ => true end.

(** The session was given out: it is in the completed event of the operation. *)
Definition published (sid : Z) (r : OperationRegistry) : Prop :=
  ends_in id r (fun st => exists s, st = Completed (ArchiveOpened (ArchiveSession.snapshot s)) /\ session_id s = sid).

(** Runs. Others take ids, insert, change and close sessions that are not this worker's, or that it gave out. *)
Inductive open_reach : nat -> OWorld -> Prop :=
| oreach_start n r ps st ws : reach n (r, ps) -> events_of id (events r) <> [] ->
    (forall e, e ∈ events_of id (events r) -> is_completed (event_state e) = false) -> Forall (fun p => not_completing p = true) ps ->
    open_reach n (mk_oworld r ps st ws OBegin None [] [])
| oreach_worker n x y : open_reach n x -> open_step x y -> open_reach (S (S n)) y
| oreach_registry n x r ps : open_reach n x -> step (o_reg x, o_calls x) (r, ps) -> Forall (fun p => not_completing p = true) ps ->
    open_reach (S n) (mk_oworld r ps (o_store x) (o_waiters x) (o_pc x) (o_mine x) (o_told x) (o_envs x))
| oreach_waiters n x ws : open_reach n x ->
    (exists cid i resp, ws = (respond cid i resp (o_waiters x)).2) \/ (exists i, ws = waiters_cancel i (o_waiters x))
      \/ (exists i, i <> id /\ ws = (register i (o_waiters x)).2) ->
    open_reach n (oset_waiters ws (o_pc x) x)
| oreach_taken n x : open_reach n x -> open_reach n (oset_store (take_id (o_store x)).2 (o_pc x) x)
| oreach_store n x sid s : open_reach n x -> o_mine x <> Some sid \/ published sid (o_reg x) ->
    open_reach n (oset_store (mk_store (partial_alter (fun _ => s) sid (sessions (o_store x))) (next_id (o_store x))) (o_pc x) x).
End worker.
