(* ===== verification/OpenArchiveProps.v ===== *)
(** What opening an archive guarantees: a session is left in the store, and plugins are told
    of it, only when the operation completed with it; the session shows what a backend
    listed with the password that was used; and the ways an open that completed loses its
    session. *)

From stdpp Require Import base tactics option list gmap sorting strings.
From Stdlib Require Import ZArith Lia Ascii.
From S2P Require Import Prelude Text AppError Registry Waiters Archive EntryIndex EntryIndexProps ArchiveSession RustPath Multipart Merge.
From S2P Require Import Effects Settings SettingsOps SettingsProps PasswordMatch OpenArchive.

#[local] Arguments String.list_ascii_of_string : simpl never.
Local Open Scope arclain_scope.
Local Open Scope Z_scope.

(** * Attempts *)

Section attempt.
Context {SX : SettingsExternals} {RT : RuleText} {UT : UnicodeTables} {RC : RegexCrate}.

(** The listing that an attempt gives is the backend's own, for the password it says. *)
Lemma attempt_lists cid env path rules pw info used :
  open_attempt cid env path rules pw = Success info used -> list_archive env used = Ok info.
Proof.
  unfold open_attempt, attempt_with_password, attempt_initial, classify_error. repeat case_match; intros; by simplify_eq.
Qed.
End attempt.

(** * The worker *)

Section worker.
Context {SX : SettingsExternals} {RT : RuleText} {UT : UnicodeTables} {RC : RegexCrate} {CF : Crc32Fast}.
Context {Json Lease Update : Type}.
Context (id : OperationId) (path : str) (request_password : option str).

Notation P := (open_payloads (Json:=Json) (Lease:=Lease) (Update:=Update)).
Notation completed_with s := (Completed (payloads:=P) (ArchiveOpened (payloads:=P) (ArchiveSession.snapshot s))).
Notation Session := (ArchiveSession (Json:=Json)).
Notation OWorld := (OWorld (Json:=Json) (Lease:=Lease) (Update:=Update)).
Notation Registry := (OperationRegistry (payloads:=P)).
Notation open_step := (open_step (Json:=Json) (Lease:=Lease) (Update:=Update) id path request_password).
Notation open_reach := (open_reach (Json:=Json) (Lease:=Lease) (Update:=Update) id path request_password).

(** A listing that some attempt got. *)
Definition listed (envs : list OpenEnv) (info : ArchiveInfo) (used : option str) : Prop :=
  exists env, env ∈ envs /\ list_archive env used = Ok info.

(** A session that shows such a listing. *)
Definition made (envs : list OpenEnv) (s : Session) : Prop :=
  exists info used, listed envs info used /\ s = session_from path (session_id s) info.

(** The operation completed with the session. *)
Definition delivered (x : OWorld) (sid : Z) : Prop :=
  ends_in id (o_reg x) (fun st => exists s, st = completed_with s /\ session_id s = sid /\ made (o_envs x) s).

(** The session the worker holds. *)
Definition holding (k : OpenPc (Json:=Json)) : option Session :=
  match k with ORecheck s | OComplete s | OReadBack s | ODispatch s | OClose s => Some s | _ => None end.

(** Where the worker can be once the operation completed with a session. *)
Definition completed_at (k : OpenPc (Json:=Json)) (s : Session) : Prop :=
  match k with OReadBack s' | ODispatch s' | OClose s' => s' = s | OEnd => True | _ => False end.

Definition pc_ok (envs : list OpenEnv) (mine : option Z) (k : OpenPc (Json:=Json)) : Prop :=
  match k with
  | OListed info used | OTake info used | OIndex _ info used => listed envs info used
  | ORecheck s | OComplete s | OReadBack s | OClose s | ODispatch s => made envs s /\ mine = Some (session_id s)
  | _ => True
  end.

Record open_inv (x : OWorld) : Prop := {
  oi_begun : events_of id (events (o_reg x)) <> [];
  oi_calls : Forall (fun p => not_completing id p = true) (o_calls x);
  oi_pc : pc_ok (o_envs x) (o_mine x) (o_pc x);
  oi_dispatch s : o_pc x = ODispatch s -> delivered x (session_id s);
  oi_store sid : o_mine x = Some sid -> is_Some (sessions (o_store x) !! sid) -> is_Some (holding (o_pc x)) \/ delivered x sid;
  oi_told sid : sid ∈ o_told x -> delivered x sid;
  oi_completed e : last (events_of id (events (o_reg x))) = Some e -> is_completed (event_state e) = true ->
    exists s, event_state e = completed_with s /\ made (o_envs x) s
      /\ o_mine x = Some (session_id s) /\ completed_at (o_pc x) s
}.

Lemma session_from_id sid info : session_id (session_from (Json:=Json) path sid info) = sid.
Proof. unfold session_from, new_session. by destruct (build _ _). Qed.

#[local] Arguments session_from : simpl never.

(** Events of others do not complete the operation. *)
Lemma section_not_completed p (r : Registry) :
  not_completing id p = true ->
  exists es, events (run_section p r).1 = events r ++ es /\ Forall (fun e => is_completed (event_state e) = false) (events_of id es).
Proof.
  intros Hp. destruct p as [i k|i s| |i|i c]; cbn [run_section].
  - cbn. eexists. split; [done|]. unfold events_of. cbn. case_decide; by repeat constructor.
  - unfold transition_section. destruct (records r !! i) as [rec|]; [|by exists []; rewrite app_nil_r; repeat constructor].
    destruct (is_terminal (rec_state rec)); [by exists []; rewrite app_nil_r; repeat constructor|]. cbn. eexists. split; [done|].
    unfold events_of. cbn. case_decide as Hi; [|constructor]. constructor; [|constructor]. cbn in *. subst i.
    destruct s; try done. cbn in Hp. by rewrite Z.eqb_refl in Hp.
  - exists []. rewrite app_nil_r. split; [|constructor]. cbn. unfold evict_excess_history. by destruct (_ <=? _)%nat.
  - exists []. rewrite app_nil_r. split; [|constructor]. unfold cancel_section. destruct (records r !! i) as [rec|]; [|done].
    by destruct (is_terminal (rec_state rec)).
  - exists []. rewrite app_nil_r. split; [|constructor]. unfold resolve_challenge. destruct (records r !! i) as [rec|]; [|done].
    by destruct (bool_decide _).
Qed.

Lemma step_not_completed (r r' : Registry) ps ps' :
  step (r, ps) (r', ps') -> Forall (fun p => not_completing id p = true) ps ->
  exists es, events r' = events r ++ es /\ Forall (fun e => is_completed (event_state e) = false) (events_of id es).
Proof.
  intros Hs Hps. inversion Hs as [? ? ? ? ? E|? ? ? ?|? ? ?|? ? ? ?|? ? p ? ? ? E]; subst.
  1: injection E as _ <-; cbn. 1-4: exists []; rewrite app_nil_r; repeat constructor.
  apply Forall_app in Hps as [_ [Hp _]%Forall_cons]. destruct (section_not_completed p r Hp) as (es & H1 & H2). rewrite E in H1. eauto.
Qed.

(** The last event after others, if it completes, was the last before. *)
Lemma last_before (es0 es : list (OperationEvent (payloads:=P))) e :
  Forall (fun e => is_completed (event_state e) = false) (events_of id es) ->
  last (events_of id (es0 ++ es)) = Some e -> is_completed (event_state e) = true -> last (events_of id es0) = Some e.
Proof.
  unfold events_of. rewrite filter_app. intros Hf. destruct (filter _ es) as [|a l] eqn:E using rev_ind; [by rewrite app_nil_r|].
  clear IHl. rewrite app_assoc, last_snoc. intros [= <-] Hc. apply Forall_app in Hf as [_ [Hf _]%Forall_cons]. congruence.
Qed.

Lemma listed_mono envs envs' info used : envs ⊆ envs' -> listed envs info used -> listed envs' info used.
Proof. intros H (env & He & Hl). exists env. split; [by apply H|done]. Qed.

Lemma made_mono envs envs' s : envs ⊆ envs' -> made envs s -> made envs' s.
Proof. intros H (info & used & Hl & Hs). exists info, used. split; [by eapply listed_mono|done]. Qed.

(** A delivery lasts, whatever is published later. *)
Lemma delivered_lasts (x y : OWorld) n es sid :
  Inv n (o_reg y, o_calls y) -> events (o_reg y) = events (o_reg x) ++ es -> o_envs x ⊆ o_envs y -> delivered x sid -> delivered y sid.
Proof.
  intros Hinv Hes Henv Hd. eapply ends_in_stable in Hd; [|exact Hinv|exact Hes|by intros st (s & -> & _)].
  destruct Hd as (e & Hl & s & He & Hs & Hm). exists e. split; [done|]. exists s. split_and!; [done|done|by eapply made_mono].
Qed.

(** Calls of others on the registry. *)
Lemma oinv_registry x n r ps es :
  open_inv x -> Inv n (r, ps) -> events r = events (o_reg x) ++ es ->
  Forall (fun e => is_completed (event_state e) = false) (events_of id es) -> Forall (fun p => not_completing id p = true) ps ->
  open_inv (mk_oworld r ps (o_store x) (o_waiters x) (o_pc x) (o_mine x) (o_told x) (o_envs x)).
Proof.
  intros Hx Hinv Hes Hnc Hps.
  assert (Hd : forall sid, delivered x sid -> delivered (mk_oworld r ps (o_store x) (o_waiters x) (o_pc x) (o_mine x) (o_told x) (o_envs x)) sid).
  { intros sid. by eapply (delivered_lasts x _ n es). }
  split; cbn.
  - rewrite Hes. unfold events_of. rewrite filter_app. intros [E _]%app_eq_nil. by apply (oi_begun _ Hx).
  - done.
  - apply Hx.
  - intros s Hs. by apply Hd, Hx.
  - intros sid Hm Hin. destruct (oi_store _ Hx sid Hm Hin); [by left|right; by apply Hd].
  - intros sid Hs. by apply Hd, Hx.
  - intros e Hl Hc. rewrite Hes in Hl. apply (oi_completed _ Hx e); [|done]. by eapply last_before.
Qed.

(** The worker moves on without the registry. *)
Lemma oinv_pc x k :
  open_inv x -> pc_ok (o_envs x) (o_mine x) k ->
  (is_Some (holding (o_pc x)) -> is_Some (holding k) \/ forall s, holding (o_pc x) = Some s -> delivered x (session_id s)) ->
  (forall s, k = ODispatch s -> delivered x (session_id s)) ->
  (forall s, completed_at (o_pc x) s -> completed_at k s) ->
  open_inv (oset_pc k x).
Proof.
  intros Hx Hk Hh Hd Hc. split; cbn; try apply Hx; try done.
  - intros sid Hm Hin. destruct (oi_store _ Hx sid Hm Hin) as [Hs|Hs]; [|by right]. destruct (Hh Hs) as [?|Ha]; [by left|right].
    destruct Hs as [s Hs]. specialize (Ha s Hs). pose proof (oi_pc _ Hx) as Hp.
    destruct (o_pc x); cbn in Hs, Hp; try done; injection Hs as ->; destruct Hp as [_ Hp]; rewrite Hm in Hp; injection Hp as ->; exact Ha.
  - intros e Hl He. destruct (oi_completed _ Hx e Hl He) as (s & H1 & H2 & H3 & H4). exists s. split_and!; auto.
Qed.

(** The worker's own transition to a state that does not complete. *)
Lemma oinv_transition x st ok failed n :
  open_inv x -> Inv n (o_reg (otransition id st ok failed x), o_calls (otransition id st ok failed x)) ->
  is_completed st = false -> holding (o_pc x) = None -> (forall s, ~ completed_at (o_pc x) s) ->
  pc_ok (o_envs x) (o_mine x) ok -> pc_ok (o_envs x) (o_mine x) failed -> holding ok = None -> holding failed = None ->
  open_inv (otransition id st ok failed x).
Proof.
  intros Hx Hinv Hst Hh Hca Hok Hfailed Ho Hf. revert Hinv. unfold otransition.
  destruct (section_not_completed (PTransition id st) (o_reg x)) as (es & Hes & Hnc); [by destruct st|].
  destruct (run_section (PTransition id st) (o_reg x)) as [r rest] eqn:E. cbn [fst] in Hes. cbn. intros Hinv.
  assert (Hrest : Forall (fun p => not_completing id p = true) rest).
  { cbn in E. destruct (transition_section id st (o_reg x)) as [[[]|] ?]; injection E as _ <-; by repeat constructor. }
  assert (Hps : Forall (fun p => not_completing id p = true) (rest ++ o_calls x)) by (apply Forall_app; split; [done|apply Hx]).
  pose proof (oinv_registry x n r _ es Hx Hinv Hes Hnc Hps) as Hy.
  set (k := if is_ok _ then ok else failed). assert (Hk : pc_ok (o_envs x) (o_mine x) k /\ holding k = None) by (unfold k; by destruct (is_ok _)).
  clearbody k. destruct Hk as [Hk1 Hk2]. apply (oinv_pc _ k) in Hy; [exact Hy|done|cbn; rewrite Hh; by intros [? ?]| |].
  - cbn. intros s ->. by cbn in Hk2.
  - cbn. intros s Hs. by destruct (Hca s).
Qed.

(** A transition publishes its state or changes no event. *)
Lemma transition_cases st (r : Registry) :
  (exists r', run_section (PTransition id st) r = (r', []) /\ events r' = events r)
  \/ exists r' e, run_section (PTransition id st) r = (r', [PEvict]) /\ events r' = events r ++ [e] /\ operation_id e = id /\ event_state e = st.
Proof.
  cbn [run_section]. unfold transition_section. destruct (records r !! id) as [rec|]; [|left; by eexists].
  destruct (is_terminal (rec_state rec)); [left; by eexists|]. right. eexists _, _. by split_and!.
Qed.

(** Completing: the event carries the session, or someone else ended the operation first. *)
Lemma oinv_complete x s n :
  open_inv x -> o_pc x = OComplete s ->
  Inv n (o_reg (otransition id (completed_with s) (OReadBack s) (OReadBack s) x),
         o_calls (otransition id (completed_with s) (OReadBack s) (OReadBack s) x)) ->
  open_inv (otransition id (completed_with s) (OReadBack s) (OReadBack s) x).
Proof.
  intros Hx Hpc. pose proof (oi_pc _ Hx) as Hp. rewrite Hpc in Hp. destruct Hp as [Hmade Hmine]. unfold otransition.
  assert (forall b : bool, (if b then OReadBack s else OReadBack s) = OReadBack s) as -> by (by intros []).
  destruct (transition_cases (completed_with s) (o_reg x)) as [(r & -> & Hes)|(r & e & -> & Hes & Hid & Hst)]; cbn; intros Hinv.
  - pose proof (oinv_registry x n r (o_calls x) [] Hx Hinv ltac:(by rewrite app_nil_r) ltac:(constructor) (oi_calls _ Hx)) as Hy.
    apply (oinv_pc _ (OReadBack s)) in Hy; [exact Hy|done|left; by eexists|done|cbn; by rewrite Hpc].
  - assert (Hlast : events_of id (events r) = events_of id (events (o_reg x)) ++ [e]) by (rewrite Hes, events_of_snoc, bool_decide_eq_true_2; done).
    set (y := mk_oworld _ _ _ _ _ _ _ _). assert (Hd : forall sid, delivered x sid -> delivered y sid).
    { intros sid. by apply (delivered_lasts x y n [e]). }
    split; cbn; try done.
    + rewrite Hlast. intros [_ ?]%app_eq_nil. done.
    + constructor; [done|apply Hx].
    + intros sid _ _. left. by eexists.
    + intros sid Hs. by apply Hd, Hx.
    + intros e' He' _. rewrite Hlast, last_snoc in He'. injection He' as <-. exists s. by rewrite Hst.
Qed.

(** The record says completed: it is by this worker's session. *)
Lemma read_back_delivered x s n snap :
  open_inv x -> o_pc x = OReadBack s -> Inv n (o_reg x, o_calls x) ->
  operation id (o_reg x) = Some snap -> is_completed (snap_state snap) = true -> delivered x (session_id s).
Proof.
  intros Hx Hpc Hinv Hop Hc. pose proof (inv_agrees _ _ Hinv id) as Ha. unfold agrees in Ha. cbn [fst] in Ha.
  unfold operation in Hop. destruct (records (o_reg x) !! id) as [rec|]; [|done]. injection Hop as <-. cbn in Hc.
  destruct Ha as (e & Hl & _ & Hst & _). rewrite Hst in Hc. destruct (oi_completed _ Hx e Hl Hc) as (s' & He & Hm & _ & Hat).
  rewrite Hpc in Hat. cbn in Hat. subst s'. exists e. split; [done|]. by exists s.
Qed.

(** The worker stops or goes on while it holds no session. *)
Lemma oinv_idle x k :
  open_inv x -> holding (o_pc x) = None -> (forall s, ~ completed_at (o_pc x) s) -> pc_ok (o_envs x) (o_mine x) k -> holding k = None ->
  open_inv (oset_pc k x).
Proof.
  intros Hx Hh Hc Hk Hn. apply oinv_pc; [done|done|rewrite Hh; by intros [? ?]| |].
  - intros s ->. by cbn in Hn.
  - intros s Hs. by destruct (Hc s).
Qed.

(** Stores and waiters that the invariant does not look at. *)
Lemma oinv_waiters x ws k : open_inv (oset_pc k x) -> open_inv (oset_waiters ws k x).
Proof. intros [H1 H2 H3 H4 H5 H6 H7]. by split. Qed.

(** The counter of the store alone. *)
Lemma oinv_store x st k :
  open_inv (oset_pc k x) -> sessions st = sessions (o_store x) -> open_inv (oset_store st k x).
Proof. intros [H1 H2 H3 H4 H5 H6 H7] Hst. split; cbn in *; try done. by rewrite Hst. Qed.

Lemma oinv_attempt x pw k env cid rules :
  open_inv x -> o_pc x = OAttempt pw k ->
  open_inv (mk_oworld (o_reg x) (o_calls x) (o_store x) (o_waiters x)
    (match open_attempt cid env path rules pw with Success info used => OListed info used | PasswordRequired => OPrompt k | AttemptError e => OFail e end)
    (o_mine x) (o_told x) (o_envs x ++ [env])).
Proof.
  intros Hx Hpc. set (k' := match open_attempt cid env path rules pw with Success _ _ => _ | _ => _ end).
  assert (Hsub : o_envs x ⊆ o_envs x ++ [env]) by set_solver.
  assert (Hk : pc_ok (o_envs x ++ [env]) (o_mine x) k' /\ holding k' = None).
  { unfold k'. destruct (open_attempt cid env path rules pw) as [info used| |e] eqn:E; cbn; [|done..]. split; [|done].
    exists env. split; [set_solver|by eapply attempt_lists]. }
  assert (Hd : forall sid, delivered x sid -> ends_in id (o_reg x) (fun st => exists s, st = completed_with s /\ session_id s = sid /\ made (o_envs x ++ [env]) s)).
  { intros sid (e & Hl & s & H1 & H2 & H3). exists e. split; [done|]. exists s. split_and!; [done|done|by eapply made_mono]. }
  destruct Hk as [Hk Hh]. split; cbn; try apply Hx; try done.
  - intros s E. rewrite E in Hh. done.
  - intros sid Hm Hin. destruct (oi_store _ Hx sid Hm Hin) as [Hs|Hs]; [rewrite Hpc in Hs; by destruct Hs|]. right. by apply Hd.
  - intros sid Hs. by apply Hd, Hx.
  - intros e Hl Hc. destruct (oi_completed _ Hx e Hl Hc) as (s & _ & _ & _ & H). by rewrite Hpc in H.
Qed.

Lemma oinv_insert x sid info used :
  open_inv x -> o_pc x = OIndex sid info used ->
  open_inv (mk_oworld (o_reg x) (o_calls x) (insert_session sid (session_from path sid info) (o_store x)) (o_waiters x)
    (ORecheck (session_from path sid info)) (Some sid) (o_told x) (o_envs x)).
Proof.
  intros Hx Hpc. pose proof (oi_pc _ Hx) as Hp. rewrite Hpc in Hp. split; cbn; try apply Hx; try done.
  - rewrite session_from_id. split; [|done]. exists info, used. split; [done|]. by rewrite session_from_id.
  - intros sid' _ _. left. by eexists.
  - intros e Hl Hc. destruct (oi_completed _ Hx e Hl Hc) as (s & _ & _ & _ & H). by rewrite Hpc in H.
Qed.

Lemma oinv_close x s :
  open_inv x -> o_pc x = OClose s -> open_inv (oset_store (ArchiveSession.close (session_id s) (o_store x)).2 OEnd x).
Proof.
  intros Hx Hpc. pose proof (oi_pc _ Hx) as Hp. rewrite Hpc in Hp. destruct Hp as [_ Hmine]. split; cbn; try apply Hx; try done.
  - intros sid Hm. rewrite Hmine in Hm. injection Hm as <-. unfold ArchiveSession.close.
    destruct (sessions (o_store x) !! session_id s) eqn:E; cbn; [rewrite lookup_delete_eq; by intros [? ?]|rewrite E; by intros [? ?]].
  - intros e Hl Hc. destruct (oi_completed _ Hx e Hl Hc) as (s' & H1 & H2 & H3 & _). exists s'. by split_and!.
Qed.

Lemma open_step_inv n m x y :
  open_inv x -> Inv n (o_reg x, o_calls x) -> Inv m (o_reg y, o_calls y) -> open_step x y -> open_inv y.
Proof.
  intros Hx Hix Hiy Hs. pose proof (oi_pc _ Hx) as Hp.
  destruct Hs as [x Hpc|x pw k Hpc|x pw k Hpc|x pw k env cid rules Hpc|x pw k cid text Hpc|x info used Hpc|x info used Hpc|x sid info used cid text Hpc
    |x sid info used Hpc|x s Hpc|x s Hpc|x s Hpc|x s Hpc|x s Hpc|x s Hpc|x k Hpc|x k ch c Hpc|x Hpc|x k ch c v Hpc Hch|x k ch cid resp Hpc Hch Hne
    |x k ch Hpc Hch|x k ch Hpc Hcan|x e Hpc]; rewrite Hpc in Hp; cbn in Hp.
  - (* start *) eapply oinv_transition; first [done|exact Hiy|rewrite Hpc; tauto].
  - (* loop *) destruct (is_cancelled id (o_reg x)); apply oinv_idle; first [done|rewrite Hpc; tauto].
  - (* no runtime *) apply oinv_idle; first [done|rewrite Hpc; tauto].
  - (* attempt *) by apply oinv_attempt.
  - (* panic *) apply oinv_idle; first [done|rewrite Hpc; tauto].
  - (* listed *) destruct (is_cancelled id (o_reg x)); apply oinv_idle; first [done|rewrite Hpc; tauto].
  - (* take *) apply oinv_store; [apply oinv_idle; first [done|rewrite Hpc; tauto]|done].
  - (* index fails *) apply oinv_idle; first [done|rewrite Hpc; tauto].
  - (* insert *) by eapply oinv_insert.
  - (* recheck *) destruct (is_cancelled id (o_reg x)); apply oinv_pc; first [done|rewrite Hpc; tauto|left; by eexists|rewrite Hpc; cbn; tauto].
  - (* complete *) by eapply oinv_complete.
  - (* read back *) pose proof (read_back_delivered x s n) as Hd. destruct (operation id (o_reg x)) as [snap|].
    + destruct (is_completed (snap_state snap)) eqn:Ec.
      * apply oinv_pc; [done|done|left; by eexists|intros s' [= <-]; by eapply Hd|rewrite Hpc; cbn; tauto].
      * apply oinv_pc; [done|done|left; by eexists|done|rewrite Hpc; cbn; tauto].
    + apply oinv_pc; [done|done|left; by eexists|done|rewrite Hpc; cbn; tauto].
  - (* dispatch *) pose proof (oi_dispatch _ Hx s Hpc) as Hd.
    assert (Hy : open_inv (oset_pc OEnd x)).
    { apply oinv_pc; [done|done|right; rewrite Hpc; by intros s' [= <-]|done|done]. }
    destruct Hy as [H1 H2 H3 H4 H5 H6 H7]. split; try done. cbn. intros sid [Hin|Hin]%elem_of_app; [by apply H6|].
    apply list_elem_of_singleton in Hin as ->. exact Hd.
  - (* no plugins *) pose proof (oi_dispatch _ Hx s Hpc) as Hd.
    apply oinv_pc; [done|done|right; rewrite Hpc; by intros s' [= <-]|done|done].
  - (* close *) by apply oinv_close.
  - (* register *) apply oinv_waiters, oinv_idle; first [done|rewrite Hpc; tauto].
  - (* challenge *) eapply oinv_transition; first [done|exact Hiy|rewrite Hpc; tauto].
  - (* unregister *) apply oinv_waiters, oinv_idle; first [done|rewrite Hpc; tauto].
  - (* answered *) apply oinv_idle; first [done|rewrite Hpc; tauto].
  - (* misanswered *) apply oinv_idle; first [done|rewrite Hpc; tauto].
  - (* dropped *) apply oinv_idle; first [done|rewrite Hpc; tauto].
  - (* cancelled *) apply oinv_idle; first [done|rewrite Hpc; tauto].
  - (* fail *) eapply oinv_transition; first [done|exact Hiy|rewrite Hpc; tauto].
Qed.

Lemma open_registry n x : open_reach n x -> exists m, (m <= n)%nat /\ reach m (o_reg x, o_calls x).
Proof.
  induction 1 as [n r ps st ws Hr _ _ _|n x y _ (m & Hm & IH) Hs|n x r ps _ (m & Hm & IH) Hs _|n x ws _ IH _|n x _ IH|n x sid s _ IH _]; try exact IH.
  - by exists n.
  - assert (Hw : forall st ok failed, reach (S (S m)) (o_reg (otransition id st ok failed x), o_calls (otransition id st ok failed x))).
    { intros st ok failed. unfold otransition. destruct (run_section _ _) as [r' rest] eqn:E. cbn.
      eapply reach_step; [eapply reach_step; [exact IH|apply (step_call_transition _ _ id st)]|]. apply (step_run _ [] _ _ _ _ E). }
    destruct Hs; first [exists m; split; [lia|exact IH] | exists (S (S m)); split; [lia|apply Hw]].
  - exists (S m). split; [lia|]. by eapply reach_step.
Qed.

Lemma open_registry_inv n x : open_reach n x -> Z.of_nat n < u64_max -> exists m, Inv m (o_reg x, o_calls x).
Proof. intros (m & Hm & Hr)%open_registry Hn. exists m. apply inv_reach; [done|lia]. Qed.

Lemma open_reach_inv n x : open_reach n x -> Z.of_nat n < u64_max -> open_inv x.
Proof.
  intros Hr. induction Hr as [n r ps st ws Hr Hb Hnc Hps|n x y Hr IH Hs|n x r ps Hr IH Hs Hps|n x ws Hr IH _|n x Hr IH|n x sid s Hr IH Hown]; intros Hn.
  - split; cbn; try done.
    + intros sid Hs. by apply elem_of_nil in Hs.
    + intros e Hl Hc. apply last_Some_elem_of in Hl. specialize (Hnc e Hl). congruence.
  - destruct (open_registry_inv _ _ Hr ltac:(lia)) as [m Hix].
    destruct (open_registry_inv _ _ (oreach_worker _ _ _ _ _ _ Hr Hs) Hn) as [m' Hiy]. eapply open_step_inv; [apply IH; lia|done|done|done].
  - specialize (IH ltac:(lia)). destruct (open_registry_inv _ _ (oreach_registry _ _ _ _ _ _ _ Hr Hs Hps) Hn) as [m Hinv].
    destruct (step_not_completed _ _ _ _ Hs (oi_calls _ IH)) as (es & Hes & Hnc). by eapply oinv_registry.
  - apply oinv_waiters. destruct (IH Hn) as [H1 H2 H3 H4 H5 H6 H7]. by split.
  - apply oinv_store; [|done]. destruct (IH Hn) as [H1 H2 H3 H4 H5 H6 H7]. by split.
  - specialize (IH Hn). split; cbn; try apply IH. intros sid' Hm Hin. destruct (decide (sid' = sid)) as [->|Hne].
    + destruct Hown as [Hown|Hpub]; [congruence|]. right. destruct Hpub as (e & Hl & s' & He & Hs').
      destruct (oi_completed _ IH e Hl ltac:(by rewrite He)) as (s2 & He2 & Hm2 & Hmine2 & _). exists e. split; [done|].
      exists s2. split_and!; [done|congruence|done].
    + rewrite lookup_partial_alter_ne in Hin by done. by apply (oi_store _ IH).
Qed.

(** What the operation's last event says of a session: completed with it, and the session
    shows what some backend listed with the password it was asked with. *)
Definition opened_with (x : OWorld) (sid : Z) : Prop :=
  exists e info used, last (events_of id (events (o_reg x))) = Some e
    /\ event_state e = completed_with (session_from path sid info) /\ listed (o_envs x) info used.

Lemma delivered_opened x sid : delivered x sid -> opened_with x sid.
Proof. intros (e & Hl & s & He & Hs & info & used & Hli & Hm). exists e, info, used. split_and!; [done| |done]. by rewrite He, Hm, Hs. Qed.

(** C24: However a cancellation, every other call on the registry, the answers to
    challenges and the other users of the store fall among the worker's steps: when the
    worker has ended, a session it put into the store is there only if the operation's
    last event is its completion with that session, and plugins were told of a session
    only in that case; what was completed with shows exactly what a backend listed with
    the password it was given. An operation that ended cancelled or failed has left no
    session and told no plugin. *)
Theorem open_leaves_no_orphan n x :
  open_reach n x -> Z.of_nat n < u64_max ->
  (forall sid, sid ∈ o_told x -> opened_with x sid)
  /\ (o_pc x = OEnd -> forall sid, o_mine x = Some sid -> is_Some (sessions (o_store x) !! sid) -> opened_with x sid)
  /\ (forall e, last (events_of id (events (o_reg x))) = Some e -> event_state e = Cancelled \/ (exists err, event_state e = Registry.Failed err) ->
        o_told x = [] /\ (o_pc x = OEnd -> forall sid, o_mine x = Some sid -> sessions (o_store x) !! sid = None)).
Proof.
  intros Hr Hn. pose proof (open_reach_inv n x Hr Hn) as Hx.
  assert (Hstore : o_pc x = OEnd -> forall sid, o_mine x = Some sid -> is_Some (sessions (o_store x) !! sid) -> delivered x sid).
  { intros Hpc sid Hm Hin. destruct (oi_store _ Hx sid Hm Hin) as [H|H]; [|done]. rewrite Hpc in H. by destruct H. }
  split_and!.
  - intros sid Hs. by apply delivered_opened, Hx.
  - intros Hpc sid Hm Hin. by apply delivered_opened, Hstore.
  - intros e Hl Hst. assert (Hno : forall sid, ~ delivered x sid).
    { intros sid (e' & Hl' & s & He & _). rewrite Hl in Hl'. injection Hl' as <-. rewrite He in Hst. destruct Hst as [?|[? ?]]; done. }
    split.
    + destruct (o_told x) as [|sid l] eqn:E; [done|]. destruct (Hno sid). apply Hx. rewrite E. by left.
    + intros Hpc sid Hm. destruct (sessions (o_store x) !! sid) eqn:E; [|done]. destruct (Hno sid). by apply Hstore; [| |eexists].
Qed.
End worker.

(** * Examples *)

Module OpenArchiveExample.
Import EntryIndexExample MultipartExample SettingsExample PasswordMatchExample.
#[local] Existing Instances ascii_names ascii_regex plain.

Notation World := (OWorld (Json:=unit) (Lease:=unit) (Update:=unit)).
Notation P := (open_payloads (Json:=unit) (Lease:=unit) (Update:=unit)).
Notation Registry := (OperationRegistry (payloads:=P)).
Notation open_step := (open_step (Json:=unit) (Lease:=unit) (Update:=unit) 1 §"/t/x.zip" None).
Notation open_reach := (open_reach (Json:=unit) (Lease:=unit) (Update:=unit) 1 §"/t/x.zip" None).

(** An archive that lists with the password of the rule [b]. *)
Definition info : ArchiveInfo := mk_info Zip EntryIndexExample.listing true true None.
Definition locked : OpenEnv :=
  mk_open_env (fun _ => None) (Ok tt)
    (fun pw => match pw with
               | Some p => if str_eqb p §"pw-b" then Ok info else Err (mk_list_error false §"Wrong password")
               | None => Err (mk_list_error false §"Enter password")
               end).

(** The step of the worker where there is only one; [rules] are the stored rules. *)
Definition open_next (rules : list PassRule) (x : World) : World :=
  match o_pc x with
  | OBegin => otransition 1 Started (OLoop None 1) OEnd x
  | OLoop pw n => oset_pc (if is_cancelled 1 (o_reg x) then OEnd else OAttempt pw n) x
  | OAttempt pw n =>
      mk_oworld (o_reg x) (o_calls x) (o_store x) (o_waiters x)
        (match open_attempt 1 locked §"/t/x.zip" rules pw with
         | Success info used => OListed info used
         | PasswordRequired => OPrompt n
         | AttemptError e => OFail e
         end) (o_mine x) (o_told x) (o_envs x ++ [locked])
  | OListed info used => oset_pc (if is_cancelled 1 (o_reg x) then OEnd else OTake info used) x
  | OTake info used =>
      mk_oworld (o_reg x) (o_calls x) (take_id (o_store x)).2 (o_waiters x) (OIndex (take_id (o_store x)).1 info used) (o_mine x) (o_told x) (o_envs x)
  | OIndex sid info used =>
      mk_oworld (o_reg x) (o_calls x) (insert_session sid (session_from §"/t/x.zip" sid info) (o_store x)) (o_waiters x)
        (ORecheck (session_from §"/t/x.zip" sid info)) (Some sid) (o_told x) (o_envs x)
  | ORecheck s => oset_pc (if is_cancelled 1 (o_reg x) then OClose s else OComplete s) x
  | OComplete s => otransition 1 (Completed (payloads:=P) (ArchiveOpened (payloads:=P) (ArchiveSession.snapshot s))) (OReadBack s) (OReadBack s) x
  | OReadBack s =>
      oset_pc (match operation 1 (o_reg x) with Some snap => if is_completed (snap_state snap) then ODispatch s else OClose s | None => OClose s end) x
  | ODispatch s => mk_oworld (o_reg x) (o_calls x) (o_store x) (o_waiters x) OEnd (o_mine x) (o_told x ++ [session_id s]) (o_envs x)
  | OClose s => oset_store (ArchiveSession.close (session_id s) (o_store x)).2 OEnd x
  | _ => x
  end.

Definition single (k : OpenPc (Json:=unit)) : bool :=
  match k with OPrompt _ | ORegistered _ _ | OWaiting _ _ | OUnregister | OFail _ | OEnd => false | _ => true end.

Lemma open_next_step rules x : single (o_pc x) = true -> open_step x (open_next rules x).
Proof. unfold open_next. destruct (o_pc x) eqn:E; intros [=]; by econstructor. Qed.

(** The worker alone, as long as it goes on by itself. *)
Fixpoint drive (rules : list PassRule) (k : nat) (x : World) : World :=
  match k with O => x | S k => if single (o_pc x) then drive rules k (open_next rules x) else x end.

Lemma drive_reach rules k : forall n x, open_reach n x -> exists m, (m <= n + 2 * k)%nat /\ open_reach m (drive rules k x).
Proof.
  induction k as [|k IH]; intros n x Hr; cbn [drive]; [exists n; split; [lia|done]|]. destruct (single (o_pc x)) eqn:E; [|exists n; split; [lia|done]].
  destruct (IH (S (S n)) (open_next rules x)) as (m & Hm & H); [by eapply oreach_worker; [|apply open_next_step]|]. exists m. split; [lia|done].
Qed.

Definition minted : Registry := (next_operation_id registry_new).2.
Definition begun : Registry := (begin_section 1 OpenArchive minted).2.
Definition first : World := mk_oworld begun [] empty_store waiters_new OBegin None [] [].

Lemma first_reach : open_reach 2 first.
Proof.
  apply oreach_start; [|by vm_compute| |constructor].
  - eapply reach_step; [|exact (step_run minted [] (PBegin 1 OpenArchive) [] begun [] eq_refl)].
    eapply reach_step; [apply reach_new|exact (step_call_begin registry_new [] OpenArchive 1 minted eq_refl)].
  - intros e He. assert (Hb : events_of 1 (events begun) = events begun) by (by vm_compute). rewrite Hb in He. cbn in He.
    by apply list_elem_of_singleton in He as ->.
Qed.

Lemma session_stays : is_Some (sessions (o_store (drive [rule_b] 20 first)) !! 1).
Proof.
  assert (H : match sessions (o_store (drive [rule_b] 20 first)) !! 1 with Some _ => true | None => false end = true) by (vm_compute; reflexivity).
  destruct (sessions _ !! 1); [by eexists|done].
Qed.

(** The password of the rule opens the archive; the operation completes with the session,
    which stays, and plugins are told. *)
Lemma open_leaves_no_orphan_witness :
  let x := drive [rule_b] 20 first in
  o_pc x = OEnd /\ o_told x = [1] /\ is_Some (sessions (o_store x) !! 1) /\ opened_with 1 §"/t/x.zip" x 1.
Proof.
  cbv zeta. destruct (drive_reach [rule_b] 20 2 first first_reach) as (m & Hm & Hr).
  assert (Hpc : o_pc (drive [rule_b] 20 first) = OEnd) by (vm_compute; reflexivity).
  assert (Hmine : o_mine (drive [rule_b] 20 first) = Some 1) by (vm_compute; reflexivity).
  assert (Htold : o_told (drive [rule_b] 20 first) = [1]) by (vm_compute; reflexivity).
  pose proof session_stays as Hin.
  split; [exact Hpc|]. split; [exact Htold|]. split; [exact Hin|].
  destruct (open_leaves_no_orphan 1 §"/t/x.zip" None m _ Hr) as (_ & H & _); [unfold u64_max; lia|]. exact (H Hpc 1 Hmine Hin).
Defined.

(** ** An open that completes and loses its session *)

(** Another operation begins, is cancelled and leaves its record in the history. *)
Definition another (r : Registry) : Registry :=
  let '(i, r1) := next_operation_id r in
  let r2 := (begin_section i Extract r1).2 in
  evict_excess_history (transition_section i Cancelled r2).2.

Definition with_registry (r : Registry) (ps : list Pending) (x : World) : World :=
  mk_oworld r ps (o_store x) (o_waiters x) (o_pc x) (o_mine x) (o_told x) (o_envs x).

Lemma another_reach n x : open_reach n x -> o_calls x = [] -> open_reach (5 + n) (with_registry (another (o_reg x)) [] x).
Proof.
  intros Hr Hc. unfold another. destruct (next_operation_id (o_reg x)) as [i r1] eqn:Ei. set (r2 := (begin_section i Extract r1).2).
  assert (Ht : run_section (PTransition i Cancelled) r2 = ((transition_section i Cancelled r2).2, [PEvict])).
  { cbn [run_section]. unfold transition_section, r2, begin_section, publish. cbn [snd records]. by rewrite lookup_insert_eq. }
  set (r3 := (transition_section i Cancelled r2).2) in *.
  assert (H1 : open_reach (S n) (with_registry r1 [PBegin i Extract] x)) by
    (apply oreach_registry; [done|rewrite Hc; by apply step_call_begin|by repeat constructor]).
  assert (H2 : open_reach (S (S n)) (with_registry r2 [] x)) by
    (apply (oreach_registry _ _ _ _ _ r2 [] H1); [by apply (step_run r1 [] (PBegin i Extract) [] r2 [])|constructor]).
  assert (H3 : open_reach (S (S (S n))) (with_registry r2 [PTransition i Cancelled] x)) by
    (apply (oreach_registry _ _ _ _ _ r2 _ H2); [apply step_call_transition|by repeat constructor]).
  assert (H4 : open_reach (S (S (S (S n)))) (with_registry r3 [PEvict] x)) by
    (apply (oreach_registry _ _ _ _ _ r3 _ H3); [by apply (step_run r2 [] (PTransition i Cancelled) [] r3 [PEvict])|by repeat constructor]).
  apply (oreach_registry _ _ _ _ _ (evict_excess_history r3) [] H4); [by apply (step_run r3 [] PEvict [] _ [])|constructor].
Qed.

Lemma others_reach k : forall n x, open_reach n x -> o_calls x = [] -> exists m, open_reach m (with_registry (Nat.iter k another (o_reg x)) [] x).
Proof.
  induction k as [|k IH]; intros n x Hr Hc; [exists n; destruct x; cbn in *; by subst|].
  destruct (IH n x Hr Hc) as (m & Hm). exists (5 + m)%nat. exact (another_reach m _ Hm eq_refl).
Qed.

(** Evictions that are left to run. *)
Lemma evict_reach n x : open_reach n x -> o_calls x = [PEvict] -> open_reach (S n) (with_registry (evict_excess_history (o_reg x)) [] x).
Proof. intros Hr Hc. apply oreach_registry; [done|rewrite Hc; by apply (step_run _ [] PEvict [] _ [])|constructor]. Qed.

(** The session in a completed event. *)
Definition announced (st : OperationState (payloads:=P)) : option Z :=
  match st with Completed (ArchiveOpened s) => Some (snap_session_id (s : ArchiveSession.ArchiveSnapshot (Json:=unit))) | _ => None end.

Definition started : World := with_registry (evict_excess_history (o_reg (open_next [rule_b] first))) [] (open_next [rule_b] first).
Definition listed_at : World := drive [rule_b] 6 started.
Definition busy : World := with_registry (Nat.iter 256 another (o_reg listed_at)) [] listed_at.
Definition completed : World := open_next [rule_b] busy.
Definition evicted : World := with_registry (evict_excess_history (o_reg completed)) [] completed.
Definition ended : World := drive [rule_b] 2 evicted.

(** While the archive is listed, 256 operations that were started later end. The record of
    the open, the oldest, is evicted as soon as it completes; the worker does not find it,
    takes its completion for lost and closes the session that the event has just
    announced. *)
Example completed_open_loses_its_session :
  (exists n, open_reach n ended) /\ o_pc ended = OEnd /\ o_told ended = []
  /\ (e ← last (events_of 1 (events (o_reg ended)));
      announced (event_state e)) = Some 1
  /\ sessions (o_store ended) !! 1 = None.
Proof.
  split; [|vm_compute; auto].
  assert (H1 : open_reach 5 started) by (apply evict_reach; [by eapply oreach_worker; [apply first_reach|apply open_next_step]|by vm_compute]).
  destruct (drive_reach [rule_b] 6 5 started H1) as (m & _ & H2).
  destruct (others_reach 256 m listed_at H2 ltac:(by vm_compute)) as (m2 & H3).
  assert (H4 : open_reach (S (S m2)) completed) by (eapply oreach_worker; [exact H3|apply open_next_step; by vm_compute]).
  assert (H5 : open_reach (S (S (S m2))) evicted) by (apply evict_reach; [done|by vm_compute]).
  destruct (drive_reach [rule_b] 2 _ _ H5) as (m3 & _ & H6). by exists m3.
Qed.
End OpenArchiveExample.
