(* ===== verification/FsTree.v ===== *)
(** Directory trees addressed by paths, the part of [std::fs] the pipeline's
    steps work on: looking a path up, putting a node in place, removing it,
    [create_dir_all], and the filesystem [CheckedRelativePath::resolve_under]
    sees. A tree is also seen as its files, a partial function from paths to
    contents ([file_at]): this is the view the properties of the steps are
    stated in. *)

From stdpp Require Import base tactics option list strings gmap sets.
From Stdlib Require Import ZArith Lia Ascii.
From S2P Require Import Prelude Text RustPath RelPath OutputTransaction.
Local Open Scope arclain_scope.

(** ** Induction over trees *)

Section node_ind.
Context (P : Node -> Prop).
Context (Hfile : forall c, P (RegularFile c)).
Context (Hdir : forall m es, Forall (fun e => P e.2) es -> P (Directory m es)).
Context (Hlink : P Symlink) (Hspecial : P SpecialNode).

Fixpoint node_induction (n : Node) : P n :=
  match n with
  | RegularFile c => Hfile c
  | Directory m es =>
      Hdir m es ((fix all (es : list (str * Node)) : Forall (fun e => P e.2) es :=
                    match es with
                    | [] => Forall_nil_2 _
                    | e :: rest => Forall_cons_2 _ _ _ (node_induction e.2) (all rest)
                    end) es)
  | Symlink => Hlink
  | SpecialNode => Hspecial
  end.
End node_ind.

(** ** The entries of one directory *)

Fixpoint lookup_entry (name : str) (entries : list (str * Node)) : option Node :=
  match entries with
  | [] => None
  | (n, node) :: rest => if str_eqb n name then Some node else lookup_entry name rest
  end.

Definition remove_entry (name : str) (entries : list (str * Node)) : list (str * Node) :=
  List.filter (fun e => negb (str_eqb e.1 name)) entries.

(** What the directory holds once [name] is [node]: in place of what was there,
    or last. *)
Fixpoint insert_entry (name : str) (node : Node) (entries : list (str * Node)) : list (str * Node) :=
  match entries with
  | [] => [(name, node)]
  | (n, old) :: rest =>
      if str_eqb n name then (n, node) :: rest else (n, old) :: insert_entry name node rest
  end.

Definition edit_entry (name : str) (new : option Node) (entries : list (str * Node)) :=
  match new with Some node => insert_entry name node entries | None => remove_entry name entries end.

(** ** Paths *)

Fixpoint node_at (n : Node) (p : list str) : option Node :=
  match p with
  | [] => Some n
  | c :: rest =>
      match n with
      | Directory _ entries => match lookup_entry c entries with Some k => node_at k rest | None => None end
      | _ => None
      end
  end.

(** The tree with [new] at a path whose parent is a directory of it, or [None]. *)
Fixpoint set_at (new : option Node) (p : list str) (n : Node) : option Node :=
  match p with
  | [] => new
  | c :: rest =>
      match n with
      | Directory m entries =>
          match rest with
          | [] => Some (Directory m (edit_entry c new entries))
          | _ =>
              match lookup_entry c entries with
              | Some k =>
                  match set_at new rest k with
                  | Some k' => Some (Directory m (insert_entry c k' entries))
                  | None => None
                  end
              | None => None
              end
          end
      | _ => None
      end
  end.

(** The mode of a directory [create_dir] makes: [0o777] under the usual mask. *)
Definition new_dir_mode : Z := 493.

(** [std::fs::create_dir_all]. *)
Fixpoint create_dir_all (p : list str) (n : Node) : option Node :=
  match n with
  | Directory m entries =>
      match p with
      | [] => Some n
      | c :: rest =>
          match create_dir_all rest (default (Directory new_dir_mode []) (lookup_entry c entries)) with
          | Some k' => Some (Directory m (insert_entry c k' entries))
          | None => None
          end
      end
  | _ => None
  end.

Definition file_type (n : Node) : FileType :=
  match n with
  | RegularFile _ => FtFile | Directory _ _ => FtDir | Symlink => FtSymlink | SpecialNode => FtOther
  end.

(** A tree as a filesystem of its own, its root at the empty path. *)
Definition tree_fs (n : Node) : Filesystem := {|
  symlink_metadata := fun p => Ok (file_type <$> node_at n p);
  RelPath.canonicalize := fun p => Ok p
|}.

Definition is_dir (n : Node) : bool := match n with Directory _ _ => true | _ => false end.
Definition is_file (n : Node) : bool := match n with RegularFile _ => true | _ => false end.

(** The content of the file at a path. *)
Definition file_at (n : Node) (p : list str) : option str :=
  match node_at n p with Some (RegularFile c) => Some c | _ => None end.

(** * Facts *)

Lemma lookup_insert_entry name node es : lookup_entry name (insert_entry name node es) = Some node.
Proof.
  induction es as [|[n old] es IH]; simpl; [by rewrite str_eqb_refl|].
  destruct (str_eqb n name) eqn:E; simpl; by rewrite E.
Qed.

Lemma lookup_insert_entry_ne name name' node es :
  name <> name' -> lookup_entry name' (insert_entry name node es) = lookup_entry name' es.
Proof.
  intros Hne. assert (str_eqb name name' = false) as E
    by (destruct (str_eqb name name') eqn:E; [by apply str_eqb_eq in E|done]).
  induction es as [|[n old] es IH]; simpl; [by rewrite E|].
  destruct (str_eqb n name) eqn:E1; simpl; [|by rewrite IH].
  apply str_eqb_eq in E1 as ->. by rewrite E.
Qed.

Lemma lookup_remove_entry name es : lookup_entry name (remove_entry name es) = None.
Proof.
  induction es as [|[n old] es IH]; simpl; [done|].
  destruct (str_eqb n name) eqn:E; simpl; [done|by rewrite E].
Qed.

Lemma lookup_remove_entry_ne name name' es :
  name <> name' -> lookup_entry name' (remove_entry name es) = lookup_entry name' es.
Proof.
  intros Hne. induction es as [|[n old] es IH]; simpl; [done|].
  destruct (str_eqb n name) eqn:E1; simpl; [|by rewrite IH].
  apply str_eqb_eq in E1 as ->. rewrite IH.
  destruct (str_eqb name name') eqn:E; [by apply str_eqb_eq in E|done].
Qed.

Lemma lookup_edit_entry name new es : lookup_entry name (edit_entry name new es) = new.
Proof. destruct new; [apply lookup_insert_entry|apply lookup_remove_entry]. Qed.

Lemma lookup_edit_entry_ne name name' new es :
  name <> name' -> lookup_entry name' (edit_entry name new es) = lookup_entry name' es.
Proof. destruct new; [apply lookup_insert_entry_ne|apply lookup_remove_entry_ne]. Qed.

Lemma node_at_app n p q : node_at n (p ++ q) = node_at n p ≫= fun k => node_at k q.
Proof.
  revert n. induction p as [|c p IH]; intros n; [done|]. simpl.
  destruct n as [|m es| |]; try done. destruct (lookup_entry c es); [apply IH|done].
Qed.

Lemma file_at_app n p q : file_at n (p ++ q) = node_at n p ≫= fun k => file_at k q.
Proof. unfold file_at. rewrite node_at_app. by destruct (node_at n p). Qed.

Lemma file_at_cons n c p :
  file_at n (c :: p) =
  match n with Directory _ es => lookup_entry c es ≫= fun k => file_at k p | _ => None end.
Proof. unfold file_at. simpl. destruct n as [|m es| |]; try done. by destruct (lookup_entry c es). Qed.

Lemma set_at_hit new p n n' : p <> [] -> set_at new p n = Some n' -> node_at n' p = new.
Proof.
  revert n n'. induction p as [|c p IH]; intros n n' Hp; [done|]. simpl.
  destruct n as [|m es| |]; try done. destruct p as [|c' p].
  - intros [= <-]. rewrite lookup_edit_entry. by destruct new.
  - destruct (lookup_entry c es) as [k|] eqn:E; [|done].
    destruct (set_at new (c' :: p) k) as [k'|] eqn:Ek; [|done]. intros [= <-].
    rewrite lookup_insert_entry. by eapply IH.
Qed.

(** Elsewhere the files are what they were. *)
Lemma set_at_miss new p n n' q :
  p <> [] -> set_at new p n = Some n' -> ~ (p `prefix_of` q) -> file_at n' q = file_at n q.
Proof.
  revert n n' q. induction p as [|c p IH]; intros n n' q Hp; [done|]. simpl.
  destruct n as [|m es| |]; try done. intros Hset Hq.
  destruct q as [|d q].
  { destruct p; [by injection Hset as <-|]. repeat case_match; try done. by injection Hset as <-. }
  rewrite !(file_at_cons _ d). destruct p as [|c' p].
  - injection Hset as <-. rewrite lookup_edit_entry_ne; [done|].
    intros ->. apply Hq. by exists q.
  - destruct (lookup_entry c es) as [k|] eqn:E; [|done].
    destruct (set_at new (c' :: p) k) as [k'|] eqn:Ek; [|done]. injection Hset as <-.
    destruct (decide (c = d)) as [<-|Hne].
    + rewrite lookup_insert_entry, E. simpl. apply (IH k k' q); [done|done|].
      intros Hpre. apply Hq. by apply prefix_cons.
    + by rewrite lookup_insert_entry_ne.
Qed.

(** Creating directories changes no file and removes no node. *)
Lemma create_dir_all_file_at p n n' q : create_dir_all p n = Some n' -> file_at n' q = file_at n q.
Proof.
  revert n n' q. induction p as [|c p IH]; intros n n' q; simpl; destruct n as [|m es| |]; try done;
    [by intros [= <-]|].
  destruct (create_dir_all p _) as [k'|] eqn:E; [|done]. intros [= <-].
  destruct q as [|d q]; [done|]. rewrite !(file_at_cons _ d).
  destruct (decide (c = d)) as [<-|Hne]; [|by rewrite lookup_insert_entry_ne].
  rewrite lookup_insert_entry. simpl. rewrite (IH _ _ q E).
  destruct (lookup_entry c es); simpl; [done|]. destruct q; [done|by rewrite file_at_cons].
Qed.

Lemma create_dir_all_dir p n n' : create_dir_all p n = Some n' -> is_dir <$> node_at n' p = Some true.
Proof.
  revert n n'. induction p as [|c p IH]; intros n n'; simpl; destruct n as [|m es| |]; try done;
    [by intros [= <-]|].
  destruct (create_dir_all p _) as [k'|] eqn:E; [|done]. intros [= <-].
  rewrite lookup_insert_entry. by eapply IH.
Qed.

(** Where a directory is already, so are the directories above it. *)
Lemma set_at_some new p c n m es :
  node_at n p = Some (Directory m es) -> is_Some (set_at new (p ++ [c]) n).
Proof.
  revert n. induction p as [|d p IH]; intros n; simpl.
  - intros [= ->]. by eexists.
  - destruct n as [|m' es'| |]; try done. destruct (lookup_entry d es') as [k|] eqn:E; [|done].
    intros H. destruct (IH k H) as [k' ->]. destruct (p ++ [c]) eqn:E'; [by destruct p|]. by eexists.
Qed.

(** A place neither above nor below the change holds what it held. *)
Lemma set_at_apart new p n n' q :
  set_at new p n = Some n' -> ~ (p `prefix_of` q) -> ~ (q `prefix_of` p) -> node_at n' q = node_at n q.
Proof.
  revert n n' q. induction p as [|c p IH]; intros n n' q Hset Hpq Hqp.
  { destruct Hpq. by exists q. }
  destruct q as [|d q]; [by destruct Hqp; exists (c :: p)|]. simpl in *.
  destruct n as [|m es| |]; try done.
  destruct (decide (c = d)) as [<-|Hne].
  - assert (~ (p `prefix_of` q)) as H1 by (intros ?; by apply Hpq, prefix_cons).
    assert (~ (q `prefix_of` p)) as H2 by (intros ?; by apply Hqp, prefix_cons).
    destruct p as [|c' p]; [by destruct H1; exists q|].
    destruct (lookup_entry c es) as [k|] eqn:E; [|done].
    destruct (set_at new (c' :: p) k) as [k'|] eqn:Ek; [|done]. injection Hset as <-.
    rewrite lookup_insert_entry. by eapply IH.
  - destruct p as [|c' p].
    + injection Hset as <-. by rewrite lookup_edit_entry_ne.
    + destruct (lookup_entry c es) as [k|]; [|done]. destruct (set_at _ _ k) as [k'|]; [|done].
      injection Hset as <-. by rewrite lookup_insert_entry_ne.
Qed.

Lemma prefix_snoc_apart {A} (l : list A) a b : a <> b -> ~ (l ++ [a] `prefix_of` l ++ [b]).
Proof. intros Hne [k Hk]. rewrite <-app_assoc in Hk. apply app_inv_head in Hk. by injection Hk as -> _. Qed.

(** The directory an entry is changed in. *)
Lemma set_at_parent new p c n n' m es :
  node_at n p = Some (Directory m es) -> set_at new (p ++ [c]) n = Some n' ->
  node_at n' p = Some (Directory m (edit_entry c new es)).
Proof.
  revert n n'. induction p as [|d p IH]; intros n n'; simpl.
  - intros [= ->] [= <-]. done.
  - destruct n as [|m' es'| |]; try done. destruct (lookup_entry d es') as [k|] eqn:E; [|done].
    intros Hn. destruct (p ++ [c]) as [|x l] eqn:El; [by destruct p|].
    destruct (set_at new (x :: l) k) as [k'|] eqn:Ek; [|done]. intros [= <-].
    rewrite lookup_insert_entry. by eapply IH.
Qed.
