(* ===== verification/Staging.v ===== *)
(** Building the layout a plan describes ([crates/core/src/features/organization/organizer.rs]
    and the first half of [apply_plan_transaction_with_hooks] in [pipeline/apply_plan.rs]):
    the checks of the plan's paths against the work directory, the copies of the
    moved files and directories, the generated files, the metadata applied after
    the swap; and the whole of [apply_plan_to_workdir], with the transaction of
    [ApplyPlan]. *)

From stdpp Require Import base tactics option list strings gmap sets.
From Stdlib Require Import ZArith Lia Ascii.
From S2P Require Import Prelude Text RustPath RelPath Layout Archive Outputs Planner OutputTransaction ApplyPlan FsTree.
Local Open Scope arclain_scope.

Inductive StageError :=
| Unresolved (e : PathError)
| BadPath (e : PathError)
| ParentNotCreated (destination : str)
| NotPersisted (destination : str)
| AlreadyPersisted (destination : str)
| SourceIsSymlink (destination : str)
| SourceIsIrregular (destination : str)
| NotADirectoryThere (destination : str)
| DirectoryNotCreated (destination : str).

(** [DeferredPlanMetadata]: of what is captured, the trees of the model have the
    permission bits of directories ([None] for a file). *)
Record DeferredPlanMetadata := mk_deferred {
  deferred_destination : str;
  deferred_mode : option Z;
  is_directory : bool
}.

(** [sort_by_key] on the file name. *)
Definition by_name {A : Type} (a b : str * A) : Prop := str_le a.1 b.1.

#[export] Instance by_name_dec {A : Type} : RelDecision (@by_name A).
Proof. intros a b. unfold by_name. apply _. Defined.

Section staging.
Context {UT : UnicodeTables}.

(** Whether the calls that create and write what a destination names succeed. *)
Context (io : str -> bool).

Definition resolved (root : Node) (p : str) : result StageError (list str) :=
  map_err Unresolved (resolve_under (tree_fs root) p []).

(** [persist_plan_output] and [persist_plan_output_with_metadata]. *)
Definition persist_plan_output (root : Node) (relative content : str) : result StageError Node :=
  let? output := resolved root relative in
  let? root := ok_or (create_dir_all (removelast output) root) (ParentNotCreated relative) in
  let? _ := resolved root relative in
  if negb (io relative) then Err (NotPersisted relative)
  else
    let? checked_output := resolved root relative in
    match node_at root checked_output with
    | Some _ => Err (AlreadyPersisted relative)
    | None => ok_or (set_at (Some (RegularFile content)) checked_output root) (NotPersisted relative)
    end.

(** The directory a copied directory goes to: made, or already there. *)
Definition copy_directory (root : Node) (destination : str) : result StageError Node :=
  let? output := resolved root destination in
  let? root :=
    match node_at root output with
    | Some (Directory _ _) => Ok root
    | Some _ => Err (NotADirectoryThere destination)
    | None =>
        if io destination then ok_or (create_dir_all output root) (DirectoryNotCreated destination)
        else Err (DirectoryNotCreated destination)
    end in
  let? _ := resolved root destination in
  Ok root.

Fixpoint copy_plan_source (source : Node) (destination : str) (st : Node * list DeferredPlanMetadata)
  : result StageError (Node * list DeferredPlanMetadata) :=
  match source with
  | Symlink => Err (SourceIsSymlink destination)
  | SpecialNode => Err (SourceIsIrregular destination)
  | RegularFile content =>
      let? root := persist_plan_output st.1 destination content in
      Ok (root, st.2 ++ [mk_deferred destination None false])
  | Directory mode entries =>
      let? root := copy_directory st.1 destination in
      let? st :=
        try_fold (fun st entry =>
          let? child_destination :=
            map_err BadPath (checked_relative_path (destination ++ §"/" ++ entry.1)) in
          entry.2 child_destination st)
          (root, st.2)
          (stable_sort by_name (map (fun e => (e.1, copy_plan_source e.2)) entries)) in
      Ok (st.1, st.2 ++ [mk_deferred destination (Some mode) true])
  end.

(** Every path of the plan is checked and resolved under the work directory
    before anything is made. *)
Definition check_path (work : Node) (p : str) : result StageError str :=
  let? checked := map_err BadPath (checked_relative_path p) in
  let? _ := resolved work checked in
  Ok checked.

Definition plan_moves (plan : OrganizationPlan) : list (str * str) := plan_outputs plan ≫= moves.
Definition plan_generated (plan : OrganizationPlan) : list (str * str) := plan_outputs plan ≫= generated_files.
Definition plan_downloads (plan : OrganizationPlan) : list PendingDownload := plan_outputs plan ≫= downloads.

Definition check_plan (work : Node) (plan : OrganizationPlan) : result StageError unit :=
  let? _ := try_fold (fun _ output =>
      if str_eqb (root_folder output) [] then Ok tt
      else let? _ := check_path work (root_folder output) in Ok tt) tt (plan_outputs plan) in
  let? _ := try_fold (fun _ m =>
      let? _ := map_err BadPath (checked_relative_path m.1) in
      let? _ := map_err BadPath (checked_relative_path m.2) in Ok tt) tt (plan_moves plan) in
  let? _ := try_fold (fun _ g =>
      let? _ := map_err BadPath (checked_relative_path g.1) in Ok tt) tt (plan_generated plan) in
  let? _ := try_fold (fun _ d =>
      let? _ := map_err BadPath (checked_relative_path (dest_path d)) in Ok tt) tt (plan_downloads plan) in
  let? _ := try_fold (fun _ m =>
      let? _ := check_path work m.1 in let? _ := check_path work m.2 in Ok tt) tt (plan_moves plan) in
  let? _ := try_fold (fun _ g => let? _ := check_path work g.1 in Ok tt) tt (plan_generated plan) in
  try_fold (fun _ d => let? _ := check_path work (dest_path d) in Ok tt) tt (plan_downloads plan).

(** One move: a missing source is warned about and passed over. *)
Definition stage_move (work : Node) (st : Node * list DeferredPlanMetadata) (m : str * str)
  : result StageError (Node * list DeferredPlanMetadata) :=
  let? source := map_err BadPath (checked_relative_path m.1) in
  let? destination := map_err BadPath (checked_relative_path m.2) in
  let? source_path := resolved work source in
  match node_at work source_path with
  | Some node => copy_plan_source node destination st
  | None => Ok st
  end.

Definition stage_generated (st : Node * list DeferredPlanMetadata) (g : str * str)
  : result StageError (Node * list DeferredPlanMetadata) :=
  let? path := map_err BadPath (checked_relative_path g.1) in
  let? root := persist_plan_output st.1 path g.2 in
  Ok (root, st.2).

(** A fresh temporary directory. *)
Definition empty_staging : Node := Directory 448 [].

(** The staging directory and what is to be applied after the swap. *)
Definition stage_layout (plan : OrganizationPlan) (work : Node)
  : result StageError (Node * list DeferredPlanMetadata) :=
  let? _ := check_plan work plan in
  let? st := try_fold (stage_move work) (empty_staging, []) (plan_moves plan) in
  try_fold stage_generated st (plan_generated plan).

(** [apply_deferred_plan_metadata]: files first, then directories, deepest first. *)
Definition deferred_before (a b : DeferredPlanMetadata) : Prop :=
  match is_directory a, is_directory b with
  | false, true => True
  | true, false => False
  | _, _ => (length (checked_components (deferred_destination b))
             <= length (checked_components (deferred_destination a)))%nat
  end.

#[export] Instance deferred_before_dec : RelDecision deferred_before.
Proof. intros a b. unfold deferred_before. destruct (is_directory a), (is_directory b); apply _. Defined.

Definition apply_metadata (root : Node) (record : DeferredPlanMetadata) : result StageError Node :=
  let? destination := resolved root (deferred_destination record) in
  let? node := ok_or (node_at root destination) (NotPersisted (deferred_destination record)) in
  if io (deferred_destination record) then
    match deferred_mode record with
    | Some mode => ok_or (set_at (Some (with_mode mode node)) destination root)
                     (NotPersisted (deferred_destination record))
    | None => Ok root
    end
  else Err (NotPersisted (deferred_destination record)).

Fixpoint apply_each (records : list DeferredPlanMetadata) (root : Node) : bool * Node :=
  match records with
  | [] => (true, root)
  | r :: rest => match apply_metadata root r with Ok root => apply_each rest root | Err _ => (false, root) end
  end.

Definition apply_deferred_plan_metadata (records : list DeferredPlanMetadata) (root : Node) : bool * Node :=
  apply_each (stable_sort deferred_before records) root.
End staging.

(** ** The whole of [apply_plan_to_workdir] *)

Definition to_dir (n : Node) : Dir :=
  match n with Directory _ entries => list_to_map entries | _ => ∅ end.

Definition of_dir (mode : Z) (d : Dir) : Node := Directory mode (map_to_list d).

Definition mode_of (n : Node) : Z := match n with Directory m _ => m | _ => 0 end.

(** [calls] and [meta]: whether what is done at a destination works, while
    staging and while the metadata is applied; [io], [restores] and [debris] are
    the transaction's. *)
Definition apply_plan_to_workdir {UT : UnicodeTables} (calls meta : str -> bool)
    (io : nat -> Outcome) (restores : nat -> bool) (debris : nat -> Dir)
    (plan : OrganizationPlan) (work : Node) : Verdict * Final :=
  match validate_paths plan, check_plan work plan with
  | Ok _, Err _ => (RolledBack StagingFailed, mk_final (to_dir work) None None false)
  | _, _ =>
      let staged := stage_layout calls plan work in
      let records := match staged with Ok st => st.2 | Err _ => [] end in
      apply_plan_transaction io restores
        (fun promoted =>
           let '(ok, n) := apply_deferred_plan_metadata meta records (of_dir (mode_of work) promoted) in
           (ok, to_dir n))
        debris plan (match staged with Ok st => Some (to_dir st.1) | Err _ => None end) (to_dir work)
  end.
