(* ===== verification/StagingProps.v ===== *)
(** What applying a plan leaves in the work directory: exactly the files the
    plan's moves and generated files describe, and otherwise what was there. *)

From stdpp Require Import base tactics option list strings gmap sets.
From Stdlib Require Import ZArith Lia Ascii.
From S2P Require Import Prelude Text RustPath RelPath Layout Archive Outputs Planner OutputTransaction ApplyPlan FsTree Staging.
Local Open Scope arclain_scope.

(** ** Trees whose names are components *)

(** Names without separators, each once in its directory. *)
Inductive tree_ok : Node -> Prop :=
| file_tree c : tree_ok (RegularFile c)
| link_tree : tree_ok Symlink
| special_tree : tree_ok SpecialNode
| dir_tree m es :
    NoDup (map fst es) -> Forall (fun e => contains_char is_separator e.1 = false) es ->
    Forall (fun e => tree_ok e.2) es -> tree_ok (Directory m es).

Lemma lookup_entry_elem name es n : lookup_entry name es = Some n -> (name, n) ∈ es.
Proof.
  induction es as [|[k v] es IH]; simpl; [done|]. destruct (str_eqb k name) eqn:E.
  - apply str_eqb_eq in E as ->. intros [= ->]. left.
  - intros H. right. auto.
Qed.

Lemma elem_lookup_entry name es n : NoDup (map fst es) -> (name, n) ∈ es -> lookup_entry name es = Some n.
Proof.
  induction es as [|[k v] es IH]; simpl; [by intros _ ?%elem_of_nil|].
  intros [Hk Hnd]%NoDup_cons [[= -> ->]|H]%elem_of_cons; [by rewrite str_eqb_refl|].
  destruct (str_eqb k name) eqn:E; [|auto]. apply str_eqb_eq in E as ->.
  destruct Hk. apply list_elem_of_fmap. by exists (name, n).
Qed.

Lemma tree_ok_node_at n p k : tree_ok n -> node_at n p = Some k -> tree_ok k.
Proof.
  revert n. induction p as [|c p IH]; intros n Hn; simpl; [by intros [= <-]|].
  destruct Hn as [| | |m es Hnd Hs Hes]; try done.
  destruct (lookup_entry c es) as [x|] eqn:E; [|done]. apply lookup_entry_elem in E.
  rewrite Forall_forall in Hes. apply IH, (Hes _ E).
Qed.

(** ** Checked paths *)

Section props.
Context {UT : UnicodeTables}.

Lemma resolve_loop_ok fs done comps p : resolve_loop fs done comps = Ok p -> p = done ++ comps.
Proof.
  revert done. induction comps as [|c comps IH]; intros done; simpl; [intros [= <-]; by rewrite app_nil_r|].
  destruct (symlink_metadata fs (done ++ [c])) as [[t|]|]; [|intros [= <-]; by rewrite <-app_assoc|done].
  intros H. assert (resolve_loop fs (done ++ [c]) comps = Ok p) as H'.
  { destruct t; try done; by case_match. }
  rewrite (IH _ H'). by rewrite <-app_assoc.
Qed.

Lemma resolved_ok root p q : resolved root p = Ok q -> q = checked_components p /\ is_dir root = true.
Proof.
  unfold resolved, resolve_under. simpl. destruct root as [|m es| |]; simpl; try done.
  destruct (resolve_loop _ _ _) as [r|] eqn:E; simpl; [|done].
  intros [= <-]. by apply resolve_loop_ok in E.
Qed.

Lemma checked_ok_slashes raw p : checked_relative_path raw = Ok p -> slashes p = p.
Proof. intros (_ & -> & _)%checked_relative_path_ok. apply slashes_idemp. Qed.

Lemma checked_child d n c :
  slashes d = d -> contains_char is_separator n = false ->
  checked_relative_path (d ++ §"/" ++ n) = Ok c -> slashes c = c /\ checked_components c = checked_components d ++ [n].
Proof.
  intros Hd Hn H. split; [by eapply checked_ok_slashes|].
  apply checked_relative_path_ok in H as (_ & -> & _).
  apply contains_char_false in Hn.
  assert (slashes n = n) as Hs.
  { apply slashes_id. eapply Forall_impl; [exact Hn|]. intros x. unfold is_separator. by intros []%orb_false_iff. }
  rewrite !slashes_app, Hd, Hs. unfold checked_components.
  change (slashes §"/" ++ n) with ("/"%char :: n). rewrite split_on_cut by done. f_equal.
  apply split_on_none. eapply Forall_impl; [exact Hn|]. intros x. unfold is_separator. by intros []%orb_false_iff.
Qed.

Lemma components_not_nil p : checked_components p <> [].
Proof. apply split_on_not_nil. Qed.

(** ** One copy *)

Context (calls : str -> bool).

(** [root'] is [root] with the files of [source] at [dest], where there were none. *)
Definition placed (dest : list str) (source root root' : Node) : Prop :=
  (forall r c, file_at source r = Some c ->
     file_at root (dest ++ r) = None /\ file_at root' (dest ++ r) = Some c) /\
  (forall q, (forall r, q = dest ++ r -> file_at source r = None) -> file_at root' q = file_at root q).

Lemma file_at_file content r c : file_at (RegularFile content) r = Some c <-> r = [] /\ c = content.
Proof. destruct r; cbn; split; [by intros [= ->]|by intros [_ ->]|done|by intros []]. Qed.

Lemma persist_spec root rel content root' :
  persist_plan_output calls root rel content = Ok root' ->
  placed (checked_components rel) (RegularFile content) root root'.
Proof.
  unfold persist_plan_output. intros H. simplify_result.
  apply resolved_ok in Hr as [-> _]. apply resolved_ok in Hr1 as [-> _].
  destruct (resolved r0 rel) as [q|] eqn:Eq; [|done]. cbn [rbind] in H.
  apply resolved_ok in Eq as [-> _]. destruct (node_at r0 _) eqn:En; [done|]. simplify_result.
  pose proof (create_dir_all_file_at _ _ _ (checked_components rel) Hr0) as Hc.
  pose proof (components_not_nil rel) as Hne. split.
  - intros r' c [-> ->]%file_at_file. rewrite app_nil_r, <-Hc. unfold file_at at 1 2. rewrite En.
    split; [done|]. by rewrite (set_at_hit _ _ _ _ Hne H).
  - intros q Hq. rewrite <-(create_dir_all_file_at _ _ _ q Hr0).
    destruct (decide (checked_components rel `prefix_of` q)) as [[r' ->]|Hn]; [|by eapply set_at_miss].
    rewrite !file_at_app, En, (set_at_hit _ _ _ _ Hne H). simpl. by apply Hq.
Qed.

Lemma copy_directory_spec root d root' q :
  copy_directory calls root d = Ok root' -> file_at root' q = file_at root q.
Proof.
  unfold copy_directory. intros H. simplify_result.
  destruct (node_at root r) as [[| | |]|]; try done; simplify_result; [done|].
  by eapply create_dir_all_file_at.
Qed.

(** The copies of a directory's entries, each to its own place. *)
Lemma copy_children_spec d (es : list (str * Node)) st st' :
  slashes d = d -> NoDup (map fst es) -> Forall (fun e => contains_char is_separator e.1 = false) es ->
  Forall (fun e => forall d st st', slashes d = d -> copy_plan_source calls e.2 d st = Ok st' ->
    placed (checked_components d) e.2 st.1 st'.1) es ->
  try_fold (fun st entry =>
    let? child_destination := map_err BadPath (checked_relative_path (d ++ §"/" ++ entry.1)) in
    entry.2 child_destination st) st (map (fun e => (e.1, copy_plan_source calls e.2)) es) = Ok st' ->
  (forall n k r c, (n, k) ∈ es -> file_at k r = Some c ->
     file_at st.1 (checked_components d ++ n :: r) = None /\
     file_at st'.1 (checked_components d ++ n :: r) = Some c) /\
  (forall q, (forall n k r, (n, k) ∈ es -> q = checked_components d ++ n :: r -> file_at k r = None) ->
     file_at st'.1 q = file_at st.1 q).
Proof.
  intros Hd. revert st. induction es as [|[n k] es IH]; intros st Hnd Hs Hcopy H.
  { simpl in H. injection H as ->. split; [|done]. by intros n k r c ?%elem_of_nil. }
  apply NoDup_cons in Hnd as [Hn Hnd]. apply Forall_cons in Hs as [Hs0 Hs].
  apply Forall_cons in Hcopy as [Hk Hcopy]. cbn [map try_fold] in H. simplify_result. simpl in *.
  destruct (checked_relative_path _) as [c|] eqn:Ec; [|done]. injection Hr0 as <-.
  destruct (checked_child d n c Hd Hs0 Ec) as [Hcs Hcc].
  destruct (Hk _ _ _ Hcs Hr) as [Hput Hkeep]. rewrite Hcc in Hput, Hkeep.
  destruct (IH _ Hnd Hs Hcopy H) as [IHput IHkeep]. clear IH.
  assert (forall n' k', (n', k') ∈ es -> n' <> n) as Hother.
  { intros n' k' Hin ->. apply Hn, list_elem_of_fmap. by exists (n, k'). }
  split.
  - intros n' k' r' c' [[= -> ->]|Hin]%elem_of_cons Hf.
    + destruct (Hput r' c' Hf) as [H1 H2]. rewrite <-app_assoc in H1, H2. split; [done|].
      rewrite IHkeep; [done|]. intros n' k' r'' Hin Heq. apply app_inv_head in Heq.
      injection Heq as -> _. by destruct (Hother _ _ Hin).
    + destruct (IHput n' k' r' c' Hin Hf) as [H1 H2]. split; [|done]. rewrite <-H1. symmetry.
      apply Hkeep. intros r'' Heq. rewrite <-app_assoc in Heq. apply app_inv_head in Heq.
      injection Heq as -> _. by destruct (Hother _ _ Hin).
  - intros q Hq. rewrite IHkeep.
    + apply Hkeep. intros r' ->. apply (Hq n k); [left|by rewrite <-app_assoc].
    + intros n' k' r' Hin. apply (Hq n' k'). by right.
Qed.

Lemma copy_spec source : tree_ok source -> forall d st st', slashes d = d ->
  copy_plan_source calls source d st = Ok st' -> placed (checked_components d) source st.1 st'.1.
Proof.
  induction source as [c|m es IH| |] using node_induction; intros Hok d st st' Hd H; simpl in H; try done.
  { simplify_result. by apply persist_spec. }
  inversion Hok as [| | |? ? Hnd Hs Hes]; subst. clear Hok. simplify_result.
  assert (Forall (fun e => forall d st st', slashes d = d ->
    copy_plan_source calls e.2 d st = Ok st' -> placed (checked_components d) e.2 st.1 st'.1) es) as Hall.
  { rewrite Forall_forall in *. intros e He d' s s'. apply IH; [done|]. by apply Hes. }
  clear IH Hes. rewrite (stable_sort_map by_name by_name) in Hr0 by done.
  pose proof (stable_sort_perm by_name es) as Hp.
  apply copy_children_spec in Hr0 as [Hput Hkeep];
    [|done|by rewrite Hp|by rewrite Hp|by rewrite Hp].
  simpl in *. split.
  - intros q c. destruct q as [|n q]; [done|]. rewrite file_at_cons.
    destruct (lookup_entry n es) as [k|] eqn:E; simpl; [|done]. intros Hf.
    apply lookup_entry_elem in E. rewrite <-Hp in E.
    destruct (Hput n k q c E Hf) as [H1 H2]. split; [|done].
    rewrite <-H1. symmetry. by eapply copy_directory_spec.
  - intros q Hq. rewrite Hkeep; [by eapply copy_directory_spec|].
    intros n k r' Hin ->. rewrite Hp in Hin. specialize (Hq (n :: r') eq_refl).
    rewrite file_at_cons, (elem_lookup_entry n es k) in Hq by done. exact Hq.
Qed.

(** ** The layout *)

Lemma placed_files dest source root root' q c :
  placed dest source root root' ->
  file_at root' q = Some c <->
  file_at root q = Some c \/ exists r, q = dest ++ r /\ file_at source r = Some c.
Proof.
  intros [Hput Hkeep]. destruct (decide (dest `prefix_of` q)) as [[r ->]|Hn].
  - destruct (file_at source r) as [c0|] eqn:E.
    + destruct (Hput r c0 E) as [-> ->]. split; [intros [= ->]; eauto|].
      by intros [|(r' & <-%app_inv_head & H)]; congruence.
    + rewrite Hkeep by (by intros r' <-%app_inv_head). split; [auto|].
      intros [|(r' & <-%app_inv_head & H)]; congruence.
  - rewrite Hkeep; [|intros r ->; destruct Hn; by exists r]. split; [auto|].
    intros [|(r & -> & _)]; [done|]. destruct Hn. by exists r.
Qed.

(** The path a checked string names. *)
Definition path_of (p : str) : list str := checked_components (slashes p).

(** What the plan says is at [q]: a file below the source of a move, or a
    generated file. *)
Definition moved_to (work : Node) (moves : list (str * str)) (q : list str) (c : str) : Prop :=
  exists s d r, (s, d) ∈ moves /\ q = path_of d ++ r /\ file_at work (path_of s ++ r) = Some c.

Definition generated_at (generated : list (str * str)) (q : list str) (c : str) : Prop :=
  exists p, (p, c) ∈ generated /\ q = path_of p.

Lemma stage_move_spec work st m st' q c :
  tree_ok work -> stage_move calls work st m = Ok st' ->
  file_at st'.1 q = Some c <-> file_at st.1 q = Some c \/ moved_to work [m] q c.
Proof.
  intros Hw. unfold stage_move. destruct m as [s d]. intros H. simplify_result. simpl in *.
  destruct (checked_relative_path s) as [s'|] eqn:Es; [|done]. injection Hr as <-.
  destruct (checked_relative_path d) as [d'|] eqn:Ed; [|done]. injection Hr0 as <-.
  apply checked_relative_path_ok in Es as (_ & -> & _).
  pose proof (checked_ok_slashes _ _ Ed) as Hd. apply checked_relative_path_ok in Ed as (_ & -> & _).
  apply resolved_ok in Hr1 as [-> _]. fold (path_of s) in H.
  assert (forall q c, moved_to work [(s, d)] q c <->
    exists r, q = path_of d ++ r /\ file_at work (path_of s ++ r) = Some c) as Hmoved.
  { intros q' c'. unfold moved_to. split.
    - intros (s0 & d0 & r & [= -> ->]%list_elem_of_singleton & ?). eauto.
    - intros (r & ?). exists s, d, r. by rewrite list_elem_of_singleton. }
  rewrite Hmoved. setoid_rewrite file_at_app. destruct (node_at work (path_of s)) as [node|] eqn:En.
  - apply copy_spec in H; [|by eapply tree_ok_node_at|done]. by rewrite (placed_files _ _ _ _ _ _ H).
  - injection H as ->. simpl. naive_solver.
Qed.

Lemma stage_generated_spec st g st' q c :
  stage_generated calls st g = Ok st' ->
  file_at st'.1 q = Some c <-> file_at st.1 q = Some c \/ generated_at [g] q c.
Proof.
  unfold stage_generated. destruct g as [p content]. intros H. simplify_result. simpl in *.
  destruct (checked_relative_path p) as [p'|] eqn:Ep; [|done]. injection Hr as <-.
  apply checked_relative_path_ok in Ep as (_ & -> & _). apply persist_spec in Hr0.
  rewrite (placed_files _ _ _ _ _ _ Hr0). unfold generated_at. setoid_rewrite file_at_file. split.
  - intros [|(r' & -> & -> & ->)]; [auto|]. right. exists p. rewrite app_nil_r. by rewrite list_elem_of_singleton.
  - intros [|(p' & [= -> ->]%list_elem_of_singleton & ->)]; [auto|]. right. exists []. by rewrite app_nil_r.
Qed.

Lemma stage_layout_spec plan work st q c :
  tree_ok work -> stage_layout calls plan work = Ok st ->
  file_at st.1 q = Some c <->
  moved_to work (plan_moves plan) q c \/ generated_at (plan_generated plan) q c.
Proof.
  intros Hw. unfold stage_layout. intros H. simplify_result.
  assert (forall q c, file_at r0.1 q = Some c <-> moved_to work (plan_moves plan) q c) as Hm.
  { refine (try_fold_invariant _ (fun seen st => forall q c, file_at st.1 q = Some c <-> moved_to work seen q c)
              _ _ _ _ _ Hr0).
    - intros q' c'. split; [by destruct q'|]. by intros (? & ? & ? & ?%elem_of_nil & _).
    - intros pre m post t t' _ IH Hstep q' c'. rewrite (stage_move_spec _ _ _ _ _ _ Hw Hstep), IH.
      unfold moved_to. setoid_rewrite elem_of_app. naive_solver. }
  assert (forall q c, file_at st.1 q = Some c <->
    moved_to work (plan_moves plan) q c \/ generated_at (plan_generated plan) q c) as Hg; [|apply Hg].
  refine (try_fold_invariant _ (fun seen st => forall q c, file_at st.1 q = Some c <->
    moved_to work (plan_moves plan) q c \/ generated_at seen q c) _ _ _ _ _ H).
  - intros q' c'. rewrite Hm. split; [auto|]. intros [|(? & ?%elem_of_nil & _)]; done.
  - intros pre g post t t' _ IH Hstep q' c'. rewrite (stage_generated_spec _ _ _ _ _ Hstep), IH.
    unfold generated_at. setoid_rewrite elem_of_app. naive_solver.
Qed.

(** ** Metadata *)

Lemma file_at_with_mode m node p : file_at (with_mode m node) p = file_at node p.
Proof. by destruct node, p. Qed.

Lemma insert_entry_names c k es : is_Some (lookup_entry c es) -> map fst (insert_entry c k es) = map fst es.
Proof.
  induction es as [|[n old] es IH]; simpl; [by intros []|]. destruct (str_eqb n c) eqn:E; simpl; [done|].
  intros H. by rewrite IH.
Qed.

Definition top_names (n : Node) : list str := match n with Directory _ es => map fst es | _ => [] end.

Lemma apply_metadata_spec root record root' :
  apply_metadata calls root record = Ok root' ->
  (forall q, file_at root' q = file_at root q) /\ top_names root' = top_names root.
Proof.
  unfold apply_metadata. intros H. simplify_result.
  destruct (deferred_mode record) as [m|]; [|by injection H as ->]. simplify_result.
  apply resolved_ok in Hr as [-> _]. pose proof (components_not_nil (deferred_destination record)) as Hne.
  split.
  - intros q. destruct (decide (checked_components (deferred_destination record) `prefix_of` q)) as [[r' ->]|Hn];
      [|by eapply set_at_miss].
    rewrite !file_at_app, (set_at_hit _ _ _ _ Hne H), Hr0. simpl. apply file_at_with_mode.
  - destruct (checked_components (deferred_destination record)) as [|c p]; [done|]. simpl in *.
    destruct root as [|m' es| |]; try done. destruct (lookup_entry c es) as [k|] eqn:E; [|done].
    destruct p as [|c' p].
    + injection H as <-. simpl. by apply insert_entry_names.
    + destruct (set_at _ _ k); [|done]. injection H as <-. simpl. by apply insert_entry_names.
Qed.

Lemma apply_each_spec records root ok root' :
  apply_each calls records root = (ok, root') ->
  (forall q, file_at root' q = file_at root q) /\ top_names root' = top_names root.
Proof.
  revert root. induction records as [|r records IH]; intros root; simpl; [by intros [= _ <-]|].
  destruct (apply_metadata calls root r) as [root1|] eqn:E; [|by intros [= _ <-]].
  intros H. apply apply_metadata_spec in E as [E1 E2]. destruct (IH _ H) as [I1 I2].
  split; [intros q; by rewrite I1|congruence].
Qed.

(** ** Top-level names *)

Definition plain_top (n : Node) : Prop := Forall (fun name => slashes name = name) (top_names n).

Lemma plain_insert c k es :
  slashes c = c -> Forall (fun name => slashes name = name) (map fst es) ->
  Forall (fun name => slashes name = name) (map fst (insert_entry c k es)).
Proof.
  intros Hc. induction es as [|[n old] es IH]; simpl; [by repeat constructor|].
  intros [Hn Hes]%Forall_cons. destruct (str_eqb n c); simpl; constructor; auto.
Qed.

Lemma components_plain p : slashes p = p -> Forall (fun c => slashes c = c) (checked_components p).
Proof.
  intros Hp. assert (Forall (fun c => is_backslash c = false) p) as Hb by (rewrite <-Hp; apply slashes_no_backslash).
  clear Hp. unfold checked_components.
  assert (Forall (Forall (fun c => is_backslash c = false)) (split_on is_slash p)) as H.
  { induction Hb as [|c p Hc Hb IH]; simpl; [by repeat constructor|]. destruct (is_slash c); [by constructor|].
    destruct (split_on is_slash p); inversion IH; subst; repeat constructor; auto. }
  eapply Forall_impl; [exact H|]. intros x. apply slashes_id.
Qed.

Lemma plain_create p n n' :
  Forall (fun c => slashes c = c) p -> plain_top n -> create_dir_all p n = Some n' -> plain_top n'.
Proof.
  intros Hp Hn. destruct p as [|c p]; simpl; destruct n as [|m es| |]; try done; [by intros [= <-]|].
  destruct (create_dir_all p _); [|done]. intros [= <-]. apply Forall_cons in Hp as [Hc _]. by apply plain_insert.
Qed.

Lemma plain_set k p n n' :
  Forall (fun c => slashes c = c) p -> p <> [] -> plain_top n -> set_at (Some k) p n = Some n' -> plain_top n'.
Proof.
  intros Hp Hne Hn. destruct p as [|c p]; [done|]. apply Forall_cons in Hp as [Hc _]. simpl.
  destruct n as [|m es| |]; try done. destruct p as [|c' p]; [intros [= <-]; by apply plain_insert|].
  destruct (lookup_entry c es); [|done]. destruct (set_at _ _ _); [|done]. intros [= <-]. by apply plain_insert.
Qed.

Lemma Forall_removelast {A} (P : A -> Prop) l : Forall P l -> Forall P (removelast l).
Proof. induction 1 as [|x l Hx Hl IH]; simpl; [done|]. destruct l; [done|]. by constructor. Qed.

Lemma plain_persist root rel content root' :
  slashes rel = rel -> plain_top root -> persist_plan_output calls root rel content = Ok root' -> plain_top root'.
Proof.
  intros Hrel Hroot. unfold persist_plan_output. intros H. simplify_result.
  apply resolved_ok in Hr as [-> _]. destruct (resolved r0 rel) as [q|] eqn:Eq; [|done]. cbn [rbind] in H.
  apply resolved_ok in Eq as [-> _]. destruct (node_at r0 _); [done|]. simplify_result.
  pose proof (components_plain rel Hrel) as Hp.
  eapply plain_set; [exact Hp|apply components_not_nil| |exact H].
  eapply plain_create; [|exact Hroot|exact Hr0]. by apply Forall_removelast.
Qed.

Lemma plain_copy source d st st' :
  slashes d = d -> plain_top st.1 -> copy_plan_source calls source d st = Ok st' -> plain_top st'.1.
Proof.
  revert d st st'. induction source as [c|m es IH| |] using node_induction; intros d st st' Hd Hst H; simpl in H; try done.
  { simplify_result. by eapply plain_persist. }
  simplify_result. rewrite (stable_sort_map by_name by_name) in Hr0 by done.
  assert (plain_top r) as Hroot.
  { unfold copy_directory in Hr. simplify_result. apply resolved_ok in Hr1 as [-> _].
    destruct (node_at st.1 _) as [[| | |]|]; try done; simplify_result; [done|].
    eapply plain_create; [by apply components_plain|exact Hst|exact Hr2]. }
  rewrite <-(stable_sort_perm by_name es) in IH.
  revert IH Hr0. generalize (stable_sort by_name es) as l. intros l IH Hfold.
  assert (forall l st0, Forall (fun e => forall d st st', slashes d = d -> plain_top st.1 ->
    copy_plan_source calls e.2 d st = Ok st' -> plain_top st'.1) l -> plain_top st0.1 ->
    try_fold (fun st entry =>
      let? child_destination := map_err BadPath (checked_relative_path (d ++ §"/" ++ entry.1)) in
      entry.2 child_destination st) st0 (map (fun e => (e.1, copy_plan_source calls e.2)) l) = Ok r0 ->
    plain_top r0.1) as Hgen; [|by eapply (Hgen l _ IH); [|exact Hfold]].
  clear. induction l as [|e l IHl]; intros st0 Hall H0 H; simpl in H; [by injection H as ->|].
  apply Forall_cons in Hall as [He Hall]. simplify_result. simpl in *.
  destruct (checked_relative_path _) as [c|] eqn:Ec; [|done]. injection Hr0 as <-.
  apply (IHl _ Hall) in H; [done|]. eapply He; [|exact H0|exact Hr]. by eapply checked_ok_slashes.
Qed.

Lemma plain_layout plan work st : stage_layout calls plan work = Ok st -> plain_top st.1.
Proof.
  unfold stage_layout. intros H. simplify_result.
  assert (plain_top r0.1) as Hm.
  { refine (try_fold_invariant _ (fun _ st => plain_top st.1) _ _ _ _ _ Hr0); [constructor|].
    intros _ [s d] _ t t' _ IH Hstep. unfold stage_move in Hstep. simplify_result. simpl in *.
    destruct (checked_relative_path d) as [d'|] eqn:Ed; [|done]. injection Hr2 as <-.
    destruct (node_at work r3); [|by injection Hstep as <-].
    eapply plain_copy; [by eapply checked_ok_slashes|exact IH|exact Hstep]. }
  refine (try_fold_invariant _ (fun _ st => plain_top st.1) _ _ _ _ _ H); [done|].
  intros _ [p c] _ t t' _ IH Hstep. unfold stage_generated in Hstep. simplify_result. simpl in *.
  destruct (checked_relative_path p) as [p'|] eqn:Ep; [|done]. injection Hr1 as <-.
  eapply plain_persist; [by eapply checked_ok_slashes|exact IH|exact Hr2].
Qed.
End props.

(** ** Directories as maps *)

Lemma lookup_to_dir m es c : to_dir (Directory m es) !! c = lookup_entry c es.
Proof.
  simpl. induction es as [|[n k] es IH]; simpl; [apply lookup_empty|].
  destruct (str_eqb n c) eqn:E.
  - apply str_eqb_eq in E as ->. by rewrite lookup_insert_eq.
  - rewrite lookup_insert_ne; [done|]. intros ->. by rewrite str_eqb_refl in E.
Qed.

Lemma lookup_map_to_list (d : Dir) c : lookup_entry c (map_to_list d) = d !! c.
Proof. rewrite <-(lookup_to_dir 0). simpl. by rewrite list_to_map_to_list. Qed.

Lemma file_at_of_to m n q : is_dir n = true -> file_at (of_dir m (to_dir n)) q = file_at n q.
Proof.
  destruct n as [|m' es| |]; try done. intros _. destruct q as [|c q]; [done|].
  unfold of_dir. by rewrite !file_at_cons, lookup_map_to_list, lookup_to_dir.
Qed.

Lemma dom_to_dir n : dom (to_dir n) = list_to_set (top_names n) :> gset str.
Proof. destruct n as [|m es| |]; simpl; rewrite ?dom_empty_L; try done. by rewrite dom_list_to_map_L. Qed.

Lemma top_names_of_dir m d : list_to_set (top_names (of_dir m d)) = dom d :> gset str.
Proof.
  rewrite <-dom_to_dir. unfold of_dir. simpl. by rewrite list_to_map_to_list.
Qed.

Lemma plain_to_dir n : plain_top n -> plain_names (to_dir n).
Proof.
  intros Hn c Hc. apply elem_of_dom in Hc. rewrite dom_to_dir, elem_of_list_to_set in Hc.
  unfold plain_top in Hn. rewrite Forall_forall in Hn. by apply Hn.
Qed.

Lemma tree_ok_plain n : tree_ok n -> plain_top n.
Proof.
  destruct 1 as [| | |m es Hnd Hs Hes]; try by constructor. unfold plain_top. simpl.
  apply Forall_map. eapply Forall_impl; [exact Hs|]. intros [c k] Hc. simpl in *.
  apply contains_char_false in Hc. apply slashes_id. eapply Forall_impl; [exact Hc|].
  intros x. unfold is_separator. by intros []%orb_false_iff.
Qed.

(** ** The step as a whole *)

Section apply.
Context {UT : UnicodeTables} (calls meta : str -> bool)
        (io : nat -> Outcome) (restores : nat -> bool) (debris : nat -> Dir).

(** The metadata keeps the names at the top. *)
Lemma deferred_names records m d :
  dom (to_dir (apply_deferred_plan_metadata meta records (of_dir m d)).2) = dom d.
Proof.
  unfold apply_deferred_plan_metadata. destruct (apply_each _ _ _) as [ok n] eqn:E.
  apply apply_each_spec in E as [_ E]. cbn [snd]. by rewrite dom_to_dir, E, top_names_of_dir.
Qed.

(** The files of a promoted layout once its metadata is applied. *)
Lemma promoted_files plan work st records ok d :
  tree_ok work -> stage_layout calls plan work = Ok st -> to_dir st.1 <> ∅ ->
  (let '(ok, n) := apply_deferred_plan_metadata meta records (of_dir (mode_of work) (to_dir st.1)) in
   (ok, to_dir n)) = (ok, d) ->
  forall q c, file_at (of_dir (mode_of work) d) q = Some c <->
    moved_to work (plan_moves plan) q c \/ generated_at (plan_generated plan) q c.
Proof.
  intros Hw El Hne Hd q c. assert (is_dir st.1 = true) as Hst by (by destruct st.1).
  destruct (apply_deferred_plan_metadata _ _ _) as [ok' n] eqn:Em. injection Hd as <- <-.
  apply apply_each_spec in Em as [Hfiles Htop].
  rewrite <-(stage_layout_spec calls plan work st q c) by done.
  rewrite <-(file_at_of_to (mode_of work) st.1 q), <-Hfiles by done.
  rewrite file_at_of_to; [done|]. apply (f_equal (list_to_set (C := gset str))) in Htop.
  rewrite top_names_of_dir in Htop. destruct n; try done; destruct Hne; by apply dom_empty_inv_L.
Qed.

End apply.

Module StagingExample.

#[local] Existing Instance ascii_tables.

Definition rule_output (moves generated : list (str * str)) : OrganizationPlan :=
  {| plan_rule_name := §"rule"; skipped_outputs := [];
     plan_outputs := [{| root_folder := §"Game"; root_folder_template := §"Game"; moves := moves;
       generated_files := generated; downloads := []; resolved_variables := ∅; reasoning := [] |}] |}.

Definition works : str -> bool := fun _ => true.

Definition run (plan : OrganizationPlan) (work : Node) : Verdict * Final :=
  apply_plan_to_workdir works works (fun _ => Done) (fun _ => true) (fun _ => ∅) plan work.

Definition work : Node :=
  Directory 493 [(§"data", Directory 365 [(§"b", RegularFile §"two"); (§"a", RegularFile §"one")]);
                 (§"notes.txt", RegularFile §"n")].

Definition plan : OrganizationPlan :=
  rule_output [(§"data", §"Game/data"); (§"missing", §"Game/missing")] [(§"Game/info.txt", §"generated")].

Lemma work_ok : tree_ok work.
Proof.
  unfold work. repeat match goal with
  | |- tree_ok _ => cbn [snd]; constructor
  | |- Forall _ _ => constructor
  | |- NoDup _ => apply (bool_decide_unpack _); vm_compute; exact I
  | |- _ = false => reflexivity
  end.
Qed.


(** Destinations are resolved against the work directory they will replace, not
    against the staging directory they are made in. An archive with a file named
    like the wrapper folder (a binary [Game] next to its [data]) cannot be
    organized into that folder: the plan is valid, nothing collides in the layout,
    and the step is refused because [Game] of the work directory is not a
    directory. *)
Example wrapper_named_like_a_file_is_refused :
  let work := Directory 493 [(§"Game", RegularFile §"elf"); (§"data", Directory 493 [])] in
  let plan := rule_output [(§"Game", §"Game/Game"); (§"data", §"Game/data")] [] in
  validate_paths plan = Ok tt /\
  check_plan work plan = Err (Unresolved (ParentNotDirectory [§"Game"])) /\
  (run plan work).1 = RolledBack StagingFailed.
Proof. vm_compute. split_and!; reflexivity. Qed.

End StagingExample.
