(* ===== verification/Diagnose.v ===== *)
(** The read-only diagnostics of a flattened directory
    ([crates/core/src/features/conversion/diagnose.rs]): missing screenshots,
    addons without their parent, previews shared between mods. *)

From stdpp Require Import base tactics option list strings gmap sets.
From Stdlib Require Import ZArith Lia Ascii.
From S2P Require Import Prelude Text RustPath ModInfo OutputTransaction FsTree.
Local Open Scope arclain_scope.

Inductive WarningKind :=
| MissingScreenshot (referenced : str)
| MissingAddonParent (needs : str)
| DuplicatePreview (peer_folder file : str).

Record ModWarning := mk_warning { mod_folder : str; kind : WarningKind }.

Definition preview_filenames : list str := [§"preview.jpg"; §"preview.png"; §"cover.jpg"; §"cover.png"].
Definition preview_min_bytes : Z := 1024.
Definition preview_max_bytes : Z := 52428800.

(** [modinfo::parse]. *)
Definition parse_modinfo (folder : Node) : option ModInfo :=
  match file_at folder [§"modinfo.ini"] with
  | Some contents => if utf8_valid contents then Some (parse_str contents) else None
  | None => None
  end.

Section diagnose.
Context {UT : UnicodeTables}.

(** [sha2], whether a directory can be listed, and what is outside the
    directory that is looked at. *)
Context (sha256 : str -> str) (readable : list str -> bool) (outside : str -> bool).

(** [top_level_dirs] of a directory that exists. *)
Definition top_level_dirs (extract_dir : Node) : option (list str) :=
  match extract_dir with
  | Directory _ entries =>
      if readable [] then
        Some (stable_sort str_le
          (map fst (List.filter (fun e => is_dir e.2 && utf8_valid e.1) entries)))
      else None
  | _ => None
  end.

Definition mod_infos (extract_dir : Node) (folders : list str) : list (str * ModInfo) :=
  omap (fun f => match node_at extract_dir [f] with
                 | Some folder => (fun mi => (f, mi)) <$> parse_modinfo folder
                 | None => None
                 end) folders.

(** [Path::exists] of a path followed from a directory of the tree. *)
Fixpoint exists_from (root : Node) (here : list str) (p : str) (rest : list Component) : bool :=
  match rest with
  | [] => bool_decide (is_Some (node_at root here))
  | Normal c :: rest => exists_from root (here ++ [c]) p rest
  | CurDir :: rest => bool_decide (is_dir <$> node_at root here = Some true) && exists_from root here p rest
  | ParentDir :: rest =>
      bool_decide (is_dir <$> node_at root here = Some true) &&
      match here with [] => outside p | _ => exists_from root (removelast here) p rest end
  | RootDir :: _ => outside p
  end.

Definition check_missing_screenshots (extract_dir : Node) (infos : list (str * ModInfo)) : list ModWarning :=
  omap (fun fi =>
    match screenshot fi.2 with
    | Some rel =>
        if exists_from extract_dir [fi.1] rel (components rel) then None
        else Some (mk_warning fi.1 (MissingScreenshot rel))
    | None => None
    end) infos.

Definition name_set (infos : list (str * ModInfo)) : list str :=
  omap (fun fi => to_lowercase <$> mi_name fi.2) infos.

Definition check_missing_addon_parents (infos : list (str * ModInfo)) : list ModWarning :=
  omap (fun fi =>
    match addonfor fi.2 with
    | Some parent =>
        let needle := to_lowercase (trim parent) in
        if is_empty needle then None
        else if bool_decide (needle ∈ name_set infos) then None
        else Some (mk_warning fi.1 (MissingAddonParent parent))
    | None => None
    end) infos.

Definition find_preview_files (folder : Node) : list str :=
  match folder with
  | Directory _ entries =>
      map fst (List.filter (fun e => is_file e.2 && utf8_valid e.1 &&
                              bool_decide (to_lowercase e.1 ∈ preview_filenames)) entries)
  | _ => []
  end.

(** The previews that are hashed, in the order they are met. *)
Definition hashed_previews (extract_dir : Node) (folders : list str) : list ((str * str) * str) :=
  folders ≫= fun f =>
    match node_at extract_dir [f] with
    | Some folder =>
        if negb (readable [f]) then []
        else
          omap (fun filename =>
            match file_at folder [filename] with
            | Some bytes =>
                let len := Z.of_nat (length bytes) in
                if (len <? preview_min_bytes)%Z || (preview_max_bytes <? len)%Z then None
                else Some ((to_lowercase filename, sha256 bytes), f)
            | None => None
            end) (find_preview_files folder)
    | None => []
    end.

(** The folders under one key of [by_hash]. *)
Definition sharing (key : str * str) (previews : list ((str * str) * str)) : list str :=
  map snd (List.filter (fun kf => bool_decide (kf.1 = key)) previews).

(** One set of identical previews: a warning for every folder but the first. *)
Definition warn_duplicates (key : str * str) (folders_in_set : list str) : list ModWarning :=
  match stable_sort str_le folders_in_set with
  | (anchor :: _ :: _) as sorted =>
      map (fun f => mk_warning f (DuplicatePreview anchor key.1)) (drop 1 sorted)
  | _ => []
  end.

(** [check_duplicate_previews]. The order in which a [HashMap] gives its keys is
    not specified; the model takes them as they were first met. *)
Definition check_duplicate_previews (extract_dir : Node) (folders : list str) : list ModWarning :=
  let previews := hashed_previews extract_dir folders in
  remove_dups (map fst previews) ≫= fun key => warn_duplicates key (sharing key previews).

Definition diagnose_mods (extract_dir : Node) : option (list ModWarning) :=
  match top_level_dirs extract_dir with
  | None => None
  | Some folders =>
      let infos := mod_infos extract_dir folders in
      Some (check_missing_screenshots extract_dir infos ++ check_missing_addon_parents infos
            ++ check_duplicate_previews extract_dir folders)
  end.

(** ** What a warning means *)

(** A folder is warned about its previews exactly when another folder, before it
    in the order of names, has the same preview. *)
Lemma warn_duplicates_spec key folders f peer file :
  mk_warning f (DuplicatePreview peer file) ∈ warn_duplicates key folders ->
  file = key.1 /\ f ∈ folders /\ peer ∈ folders /\ str_le peer f.
Proof.
  unfold warn_duplicates. pose proof (stable_sort_perm str_le folders) as Hp.
  pose proof (stable_sort_sorted str_le folders) as Hs.
  destruct (stable_sort str_le folders) as [|anchor [|x rest]] eqn:E; [by intros ?%elem_of_nil..|].
  intros (f' & [= -> -> ->] & Hin)%list_elem_of_fmap. simpl in Hin.
  inversion Hs as [|? ? _ Hall]; subst. rewrite Forall_forall in Hall.
  split_and!; [done|rewrite <-Hp; by right|rewrite <-Hp; left|by apply Hall].
Qed.

Lemma hashed_previews_spec root folders key f :
  (key, f) ∈ hashed_previews root folders ->
  f ∈ folders /\ exists folder filename bytes,
    node_at root [f] = Some folder /\ file_at folder [filename] = Some bytes /\
    key = (to_lowercase filename, sha256 bytes) /\
    (preview_min_bytes <= Z.of_nat (length bytes) <= preview_max_bytes)%Z.
Proof.
  unfold hashed_previews. intros (f' & Hin & Hf)%list_elem_of_bind.
  destruct (node_at root [f']) as [folder|] eqn:En; [|by apply elem_of_nil in Hin].
  destruct (readable [f']); simpl in Hin; [|by apply elem_of_nil in Hin].
  apply list_elem_of_omap in Hin as (filename & _ & H).
  destruct (file_at folder [filename]) as [bytes|] eqn:Eb; [|done].
  destruct (_ || _) eqn:Eg; [done|]. injection H as <- <-. split; [done|].
  exists folder, filename, bytes. rewrite orb_false_iff in Eg. split_and!; try done; lia.
Qed.

(** Every duplicate the diagnostics report is one: the two folders
    are of the directory, the one named first holds a preview with the same
    lowercased name and hash, and its name comes first. *)
Lemma duplicates_are_real root folders f peer file :
  mk_warning f (DuplicatePreview peer file) ∈ check_duplicate_previews root folders ->
  str_le peer f /\ exists h, ((file, h), f) ∈ hashed_previews root folders /\
    ((file, h), peer) ∈ hashed_previews root folders.
Proof.
  unfold check_duplicate_previews. intros (key & Hin & _)%list_elem_of_bind.
  apply warn_duplicates_spec in Hin as (-> & Hf & Hp & Hle). split; [done|]. destruct key as [name h].
  assert (forall x, x ∈ sharing (name, h) (hashed_previews root folders) ->
    ((name, h), x) ∈ hashed_previews root folders) as Hs.
  { unfold sharing. intros x ([k y] & -> & Hk)%list_elem_of_fmap.
    apply list_elem_of_In, filter_In in Hk as [Hk Hd]. apply bool_decide_eq_true in Hd.
    simpl in *. subst k. by apply list_elem_of_In. }
  exists h. split; by apply Hs.
Qed.
End diagnose.

Module DiagnoseExample.

#[local] Existing Instance ascii_tables.

(** A parent's name is sanitized before it is looked up and the reference to it
    is not: an addon of a mod whose name has a character a file name may not have
    is reported as an orphan although its parent is next to it. *)
Example parent_with_a_colon_is_not_found :
  let parent := Directory 493 [(§"modinfo.ini", RegularFile §"name=Mod: Base")] in
  let addon := Directory 493 [(§"modinfo.ini", RegularFile §"name=Extra
addonfor=Mod: Base")] in
  diagnose_mods (fun b => b) (fun _ => true) (fun _ => false)
    (Directory 493 [(§"Mod_ Base", parent); (§"Extra", addon)]) =
  Some [mk_warning §"Extra" (MissingAddonParent §"Mod: Base")].
Proof. vm_compute. reflexivity. Qed.

End DiagnoseExample.
