(* ===== verification/Flatten.v ===== *)
(** Unpacking the archives inside an unpacked archive
    ([crates/core/src/features/conversion/flatten.rs], with
    [longest_common_prefix] of [conversion/mod.rs]): each nested archive becomes a
    folder next to it, a wrapper around a single folder is dropped, and a folder
    with a [modinfo.ini] takes the name in it. The trees are of files and
    directories; every filesystem call may fail. *)

From stdpp Require Import base tactics option list strings gmap sets.
From Stdlib Require Import ZArith Lia Ascii.
From S2P Require Import Prelude Text RustPath ModInfo OutputTransaction FsTree Diagnose.
Local Open Scope arclain_scope.

Definition archive_extensions : list str := [§"rar"; §"zip"; §"7z"; §"tar"; §"tgz"].

Section names.
Context {UT : UnicodeTables}.

Definition is_archive_filename (name : str) : bool :=
  let lower := to_lowercase name in
  existsb (fun ext => ends_with lower (§"." ++ ext)) archive_extensions.

Fixpoint strip_first (extensions : list str) (lower name : str) : str :=
  match extensions with
  | [] => name
  | ext :: rest =>
      let suffix := §"." ++ ext in
      if ends_with lower suffix then take (length name - length suffix) name
      else strip_first rest lower name
  end.

Definition strip_archive_extension (name : str) : str :=
  strip_first archive_extensions (to_lowercase name) name.

(** The number of leading characters two names share. *)
Fixpoint common_chars (a b : list str) : nat :=
  match a, b with
  | x :: a', y :: b' => if str_eqb x y then S (common_chars a' b') else 0
  | _, _ => 0
  end.

Fixpoint shortest_common (first : str) (names : list str) (prefix_len : nat) : nat :=
  match names with
  | [] => prefix_len
  | name :: rest =>
      let prefix_len := Nat.min prefix_len (common_chars (chars first) (chars name)) in
      if (prefix_len =? 0)%nat then 0 else shortest_common first rest prefix_len
  end.

Definition longest_common_prefix (names : list str) : str :=
  match names with
  | [] | [_] => []
  | first :: rest =>
      let prefix := concat (take (shortest_common first rest (length first)) (chars first)) in
      if (length prefix <? 5)%nat then [] else prefix
  end.

Definition would_produce_broken_names (names : list str) (prefix : str) : bool :=
  existsb (fun name =>
    match strip_prefix prefix name with
    | None => false
    | Some stripped => match chars stripped with [] => true | c :: _ => negb (is_alphanumeric c) end
    end) names.

(** The prefix that is taken off every name. *)
Definition batch_prefix (base_names : list str) (strip : bool) : str :=
  if strip then
    let candidate := longest_common_prefix base_names in
    if negb (is_empty candidate) && would_produce_broken_names base_names candidate then [] else candidate
  else [].

Definition folder_name_of (prefix base : str) : str :=
  if negb (is_empty prefix) && starts_with base prefix then
    let stripped := drop (length prefix) base in
    if is_empty stripped then base else stripped
  else base.

(** The archives are paths from the directory that is flattened, each with a
    name; a name that is not UTF-8 is not found as an archive. *)
Definition target_folder_names (archives : list (list str)) (strip : bool) : list (list str * str) :=
  let base_names := map strip_archive_extension (omap last archives) in
  let prefix := batch_prefix base_names strip in
  zip_with (fun path base => (path, folder_name_of prefix base)) archives base_names.

(** [walk]: the archives of a tree, in the order directories are read. *)
Fixpoint walk (readable : list str -> bool) (dir : list str) (n : Node) : option (list (list str)) :=
  match n with
  | Directory _ entries =>
      if readable dir then
        foldr (fun entry rest =>
          match entry, rest with
          | Some found, Some more => Some (found ++ more)
          | _, _ => None
          end) (Some [])
          (map (fun e =>
             match e.2 with
             | RegularFile _ =>
                 Some (if utf8_valid e.1 && is_archive_filename e.1 then [dir ++ [e.1]] else [])
             | Directory _ _ => walk readable (dir ++ [e.1]) e.2
             | _ => Some []
             end) entries)
      else None
  | _ => None
  end.

Definition find_archive_files_recursive (readable : list str -> bool) (n : Node) : option (list (list str)) :=
  walk readable [] n.

(** [find_archive_files]: the top level only. *)
Definition find_archive_files (readable : bool) (n : Node) : option (list str) :=
  match n with
  | Directory _ entries =>
      if readable then
        Some (map fst (List.filter (fun e => is_file e.2 && utf8_valid e.1 && is_archive_filename e.1) entries))
      else None
  | _ => None
  end.
End names.

Record FlattenReport := mk_report {
  extracted : list str;
  report_skipped : list str;
  report_failed : list (str * str);
  warnings : list ModWarning
}.

Definition empty_report : FlattenReport := mk_report [] [] [] [].

(** The tree; how many filesystem calls were made; the archives that were
    unpacked, as a record of what happened. *)
Record FlattenState := mk_flat {
  tree : Node;
  fs_calls : nat;
  unpacked : list (list str)
}.

Definition called (s : FlattenState) : FlattenState := mk_flat (tree s) (S (fs_calls s)) (unpacked s).
Definition with_tree (t : Node) (s : FlattenState) : FlattenState := mk_flat t (fs_calls s) (unpacked s).

Section flatten.
Context {UT : UnicodeTables}.

(** Which filesystem calls fail, what a failed [remove_dir_all] leaves, and the
    process id. *)
Context (fails : nat -> bool) (debris : nat -> list (str * Node)) (pid : N).

(** The archive backends: for a call, an archive and what is in it, whether it
    was unpacked, and what is in the destination after. *)
Context (extractor : nat -> list str -> option str -> result str unit * list (str * Node)).

Context (readable : nat -> list str -> bool) (diagnose : Node -> option (list ModWarning)).

(** [Path::exists] of a name next to an archive. *)
Definition sibling_exists (t : Node) (parent : list str) (name : str) : bool :=
  is_empty name || str_eqb name §"." || str_eqb name §".."
  || bool_decide (is_Some (node_at t (parent ++ [name]))).

(** A change of the tree that the call may refuse. *)
Definition try_set (new : option Node) (p : list str) (s : FlattenState) : bool * FlattenState :=
  if fails (fs_calls s) then (false, called s)
  else match set_at new p (tree s) with
       | Some t => (true, with_tree t (called s))
       | None => (false, called s)
       end.

Definition remove_file (p : list str) (s : FlattenState) : bool * FlattenState :=
  match node_at (tree s) p with
  | Some (RegularFile _) => try_set None p s
  | _ => (false, called s)
  end.

Definition remove_dir (p : list str) (s : FlattenState) : bool * FlattenState :=
  match node_at (tree s) p with
  | Some (Directory _ []) => try_set None p s
  | _ => (false, called s)
  end.

(** [std::fs::rename] of a directory: over nothing, or over an empty directory. *)
Definition rename_dir (from to : list str) (s : FlattenState) : bool * FlattenState :=
  if fails (fs_calls s) then (false, called s)
  else
    match node_at (tree s) from, node_at (tree s) to with
    | Some (Directory m es), (None | Some (Directory _ [])) =>
        if bool_decide (from `prefix_of` to) then (false, called s)
        else
          match set_at None from (tree s) with
          | Some t =>
              match set_at (Some (Directory m es)) to t with
              | Some t' => (true, with_tree t' (called s))
              | None => (false, called s)
              end
          | None => (false, called s)
          end
    | _, _ => (false, called s)
    end.

(** [unwrap_single_root_folder] of the folder [name] of [parent]: an error
    ([Err]), nothing to do, or the name of the folder that took its place. *)
Definition unwrap_single_root_folder (parent : list str) (name : str) (s : FlattenState)
  : result unit (option str) * FlattenState :=
  let dest_folder := parent ++ [name] in
  if fails (fs_calls s) then (Err tt, called s)
  else
    let s := called s in
    match node_at (tree s) dest_folder with
    | Some (Directory _ [(inner_name, Directory _ _)]) =>
        if negb (utf8_valid inner_name) then (Ok None, s)
        else
          let inner_path := dest_folder ++ [inner_name] in
          let final_dest := parent ++ [inner_name] in
          if str_eqb inner_name name then
            let tmp := parent ++ [§".arclain_flatten_tmp_" ++ decimal pid ++ §"_" ++ inner_name] in
            let '(ok, s) := rename_dir inner_path tmp s in
            if negb ok then (Err tt, s)
            else
              let '(ok, s) := remove_dir dest_folder s in
              if negb ok then (Err tt, s)
              else
                let '(ok, s) := rename_dir tmp final_dest s in
                if negb ok then (Err tt, s) else (Ok (Some inner_name), s)
          else if sibling_exists (tree s) parent inner_name then (Ok None, s)
          else
            let '(ok, s) := rename_dir inner_path final_dest s in
            if negb ok then (Err tt, s)
            else
              let '(ok, s) := remove_dir dest_folder s in
              if negb ok then (Err tt, s) else (Ok (Some inner_name), s)
    | Some (Directory _ _) => (Ok None, s)
    | _ => (Err tt, s)
    end.

(** [rename_to_modinfo_name] of the folder [name] of [parent]. *)
Definition rename_to_modinfo_name (parent : list str) (name : str) (s : FlattenState)
  : result unit (option str) * FlattenState :=
  match (node_at (tree s) (parent ++ [name]) ≫= parse_modinfo) ≫= mi_name with
  | None => (Ok None, s)
  | Some mod_name =>
      if str_eqb name mod_name then (Ok None, s)
      else if sibling_exists (tree s) parent mod_name then (Ok None, s)
      else
        let '(ok, s) := rename_dir (parent ++ [name]) (parent ++ [mod_name]) s in
        if ok then (Ok (Some mod_name), s) else (Err tt, s)
  end.

Definition default_name (name : str) (r : result unit (option str)) : str :=
  match r with Ok (Some n) => n | _ => name end.

(** What happens to an archive once it is unpacked: the name its folder ends up
    with. *)
Definition settle (archive_path parent : list str) (folder_name : str) (s : FlattenState)
  : str * FlattenState :=
  let '(_, s) := remove_file archive_path s in
  let '(unwrapped, s) := unwrap_single_root_folder parent folder_name s in
  let final_name := default_name folder_name unwrapped in
  let '(renamed, s) := rename_to_modinfo_name parent final_name s in
  (default_name final_name renamed, s).

(** [fs::remove_dir_all] of a folder this pass made. *)
Definition remove_dir_all (p : list str) (s : FlattenState) : FlattenState :=
  let left := if fails (fs_calls s) then Some (Directory new_dir_mode (debris (fs_calls s))) else None in
  match set_at left p (tree s) with
  | Some t => with_tree t (called s)
  | None => called s
  end.

(** The body of the loop of [flatten_nested_archives]: [None] when the pass
    fails. *)
Definition flatten_one (report : FlattenReport) (target : list str * str) (s : FlattenState)
  : option FlattenReport * FlattenState :=
  let '(archive_path, folder_name) := target in
  let dest_parent := removelast archive_path in
  let dest_folder := dest_parent ++ [folder_name] in
  if sibling_exists (tree s) dest_parent folder_name then
    (Some (mk_report (extracted report) (report_skipped report ++ [folder_name])
             (report_failed report) (warnings report)), s)
  else if fails (fs_calls s) then (None, called s)
  else
    match create_dir_all dest_folder (tree s) with
    | None => (None, called s)
    | Some t =>
        let s := with_tree t (called s) in
        let '(outcome, entries) := extractor (fs_calls s) archive_path (file_at (tree s) archive_path) in
        match set_at (Some (Directory new_dir_mode entries)) dest_folder (tree s) with
        | None => (None, called s)
        | Some t =>
            let s := with_tree t (called s) in
            match outcome with
            | Ok _ =>
                let s := mk_flat (tree s) (fs_calls s) (unpacked s ++ [archive_path]) in
                let '(final_name, s) := settle archive_path dest_parent folder_name s in
                (Some (mk_report (extracted report ++ [final_name]) (report_skipped report)
                         (report_failed report) (warnings report)), s)
            | Err e =>
                (Some (mk_report (extracted report) (report_skipped report)
                         (report_failed report ++ [(folder_name, e)]) (warnings report)),
                 remove_dir_all dest_folder s)
            end
        end
    end.

Fixpoint flatten_targets (report : FlattenReport) (targets : list (list str * str)) (s : FlattenState)
  : option FlattenReport * FlattenState :=
  match targets with
  | [] => (Some report, s)
  | target :: rest =>
      match flatten_one report target s with
      | (Some report, s) => flatten_targets report rest s
      | (None, s) => (None, s)
      end
  end.

(** One pass over the whole tree. *)
Definition flatten_nested_archives (strip : bool) (s : FlattenState) : option FlattenReport * FlattenState :=
  match find_archive_files_recursive (readable (fs_calls s)) (tree s) with
  | None => (None, called s)
  | Some archives =>
      match flatten_targets empty_report (target_folder_names archives strip) (called s) with
      | (Some report, s) =>
          (Some (mk_report (extracted report) (report_skipped report) (report_failed report)
                   (default [] (diagnose (tree s)))), s)
      | (None, s) => (None, s)
      end
  end.

Definition flatten_max_iterations : Z := 10.
Definition flatten_max_total_extractions : Z := 1000.

(** The loop of [flatten_nested_archives_recursive]. *)
Fixpoint flatten_passes (passes : nat) (strip : bool) (combined : FlattenReport) (total : Z)
    (s : FlattenState) : option FlattenReport * FlattenState :=
  match passes with
  | O => (Some combined, s)
  | S passes =>
      match flatten_nested_archives strip s with
      | (None, s) => (None, s)
      | (Some pass, s) =>
          let combined :=
            mk_report (extracted combined ++ extracted pass)
              (report_skipped combined ++ report_skipped pass)
              (report_failed combined ++ report_failed pass) (warnings pass) in
          let total := Z.min (total + Z.of_nat (length (extracted pass))) 4294967295 in
          if (flatten_max_total_extractions <? total)%Z then (Some combined, s)
          else if bool_decide (extracted pass = []) then (Some combined, s)
          else flatten_passes passes strip combined total s
      end
  end.

Definition requested_cap (max_depth : Z) : Z :=
  if (max_depth =? 0)%Z then flatten_max_iterations else Z.min max_depth flatten_max_iterations.

Definition flatten_nested_archives_recursive (strip : bool) (max_depth : Z) (s : FlattenState)
  : option FlattenReport * FlattenState :=
  flatten_passes (Z.to_nat (requested_cap max_depth)) strip empty_report 0 s.
End flatten.
