(* ===== verification/FlattenProps.v ===== *)
(** What flattening does to a tree: no file is lost but the archives that were
    unpacked, their contents are in the folders the report names, and taking a
    common prefix off the names makes no two folders one. *)

From stdpp Require Import base tactics option list strings gmap sets.
From Stdlib Require Import ZArith Lia Ascii.
From S2P Require Import Prelude Text RustPath ModInfo OutputTransaction FsTree Diagnose Flatten.
Local Open Scope arclain_scope.

Section keeps.
Context {UT : UnicodeTables} (fails : nat -> bool) (debris : nat -> list (str * Node)) (pid : N)
        (extractor : nat -> list str -> option str -> result str unit * list (str * Node))
        (readable : nat -> list str -> bool) (diagnose : Node -> option (list ModWarning)).

(** Files that are to be kept. *)
Context (kept : list str -> str -> Prop).

Definition holds (s : FlattenState) : Prop := forall q c, kept q c -> file_at (tree s) q = Some c.

(** None of them is below [p]. *)
Definition fresh (p : list str) : Prop := forall q c, kept q c -> ~ (p `prefix_of` q).

Lemma no_files_fresh s p : holds s -> (forall r, node_at (tree s) p ≫= (fun k => file_at k r) = None) -> fresh p.
Proof. intros Hs Hn q c Hk [r ->]. specialize (Hs _ _ Hk). rewrite file_at_app, Hn in Hs. done. Qed.

Lemma absent_fresh s p : holds s -> node_at (tree s) p = None -> fresh p.
Proof. intros Hs Hn. eapply no_files_fresh; [done|]. intros r. by rewrite Hn. Qed.

Lemma file_at_empty m r : file_at (Directory m []) r = None.
Proof. by destruct r. Qed.

Lemma set_keeps new p s t : holds s -> p <> [] -> fresh p -> set_at new p (tree s) = Some t -> holds (with_tree t s).
Proof. intros Hs Hp Hf Hset q c Hk. simpl. rewrite (set_at_miss _ _ _ _ q Hp Hset); [auto|by eapply Hf]. Qed.

Lemma try_set_keeps new p s b s' :
  holds s -> p <> [] -> fresh p -> try_set fails new p s = (b, s') -> holds s'.
Proof.
  intros Hs Hp Hf. unfold try_set. destruct (fails _); [by intros [= _ <-]|].
  destruct (set_at _ _ _) eqn:E; intros [= _ <-]; [|done]. by eapply (set_keeps _ _ (called s)).
Qed.

Lemma remove_file_keeps p s b s' :
  holds s -> p <> [] -> (forall q c, kept q c -> q <> p) -> remove_file fails p s = (b, s') -> holds s'.
Proof.
  intros Hs Hp Hk. unfold remove_file. destruct (node_at (tree s) p) as [[content| | |]|] eqn:E;
    try by intros [= _ <-]. apply try_set_keeps; [done|done|].
  intros q c Hq [r ->]. pose proof (Hs _ _ Hq) as Hf. rewrite file_at_app, E in Hf. simpl in Hf.
  destruct r; [|done]. apply (Hk _ _ Hq). by rewrite app_nil_r.
Qed.

Lemma remove_dir_keeps p s b s' : holds s -> p <> [] -> remove_dir fails p s = (b, s') -> holds s'.
Proof.
  intros Hs Hp. unfold remove_dir. destruct (node_at (tree s) p) as [[|? [|? ?]| |]|] eqn:E;
    try by intros [= _ <-]. apply try_set_keeps; [done|done|].
  eapply no_files_fresh; [done|]. intros r. rewrite E. apply file_at_empty.
Qed.

Lemma rename_keeps from to s b s' :
  holds s -> from <> [] -> to <> [] -> fresh from -> rename_dir fails from to s = (b, s') ->
  holds s' /\ (b = true -> fresh to).
Proof.
  intros Hs Hf Ht Hfresh. unfold rename_dir. destruct (fails _); [by intros [= <- <-]|].
  destruct (node_at (tree s) from) as [[|m es| |]|] eqn:E1; try by intros [= <- <-].
  destruct (node_at (tree s) to) as [[|m' [|? ?]| |]|] eqn:E2; try by intros [= <- <-].
  all: case_bool_decide; [by intros [= <- <-]|]; destruct (set_at None from (tree s)) as [t|] eqn:E3;
    [|by intros [= <- <-]]; destruct (set_at _ to t) as [t'|] eqn:E4; [|by intros [= <- <-]];
    intros [= <- <-]; (assert (fresh to) as Hft by
      (eapply no_files_fresh; [exact Hs|]; intros r; rewrite E2; first [done|apply file_at_empty])); split; [|done];
    refine (set_keeps (Some (Directory m es)) to (with_tree t (called s)) t' _ Ht Hft E4);
    exact (set_keeps None from (called s) t Hs Hf Hfresh E3).
Qed.

Lemma snoc_not_nil {A} (l : list A) x : l ++ [x] <> [].
Proof. by destruct l. Qed.

Lemma sibling_absent s parent name :
  sibling_exists (tree s) parent name = false -> node_at (tree s) (parent ++ [name]) = None.
Proof.
  unfold sibling_exists. rewrite !orb_false_iff, bool_decide_eq_false. intros [_ H].
  destruct (node_at _ _); [|done]. by destruct H.
Qed.

Lemma unwrap_keeps parent name s r s' :
  holds s -> fresh (parent ++ [name]) -> unwrap_single_root_folder fails pid parent name s = (r, s') ->
  holds s' /\ fresh (parent ++ [default_name name r]).
Proof.
  intros Hs Hf. unfold unwrap_single_root_folder.
  destruct (fails _); [by intros [= <- <-]|]. cbn [tree called].
  destruct (node_at (tree s) (parent ++ [name])) as [[| m [|[inner [|mi ei| |]] [|? ?]]| |]|] eqn:E;
    try by intros [= <- <-].
  destruct (utf8_valid inner); simpl; [|by intros [= <- <-]].
  assert (holds (called s)) as Hs0 by done.
  assert (fresh ((parent ++ [name]) ++ [inner])) as Hfi.
  { intros q c Hq Hp. apply (Hf q c Hq). etransitivity; [|exact Hp]. by eexists. }
  destruct (str_eqb inner name) eqn:En.
  - apply str_eqb_eq in En as ->.
    destruct (rename_dir _ _ _ (called s)) as [b1 s1] eqn:R1.
    eapply rename_keeps in R1 as [H1 F1]; [|done|apply snoc_not_nil|apply snoc_not_nil|done].
    destruct b1; simpl; [|by intros [= <- <-]]. specialize (F1 eq_refl).
    destruct (remove_dir _ _ s1) as [b2 s2] eqn:R2.
    eapply remove_dir_keeps in R2; [|done|apply snoc_not_nil].
    destruct b2; simpl; [|by intros [= <- <-]].
    destruct (rename_dir _ _ _ s2) as [b3 s3] eqn:R3.
    eapply rename_keeps in R3 as [H3 F3]; [|done|apply snoc_not_nil|apply snoc_not_nil|done].
    destruct b3; simpl; by intros [= <- <-].
  - destruct (sibling_exists _ _ _); [by intros [= <- <-]|].
    destruct (rename_dir _ _ _ (called s)) as [b1 s1] eqn:R1.
    eapply rename_keeps in R1 as [H1 F1]; [|done|apply snoc_not_nil|apply snoc_not_nil|done].
    destruct b1; simpl; [|by intros [= <- <-]]. specialize (F1 eq_refl).
    destruct (remove_dir _ _ s1) as [b2 s2] eqn:R2.
    eapply remove_dir_keeps in R2; [|done|apply snoc_not_nil].
    destruct b2; simpl; by intros [= <- <-].
Qed.

Lemma modinfo_keeps parent name s r s' :
  holds s -> fresh (parent ++ [name]) -> rename_to_modinfo_name fails parent name s = (r, s') -> holds s'.
Proof.
  intros Hs Hf. unfold rename_to_modinfo_name. destruct (_ ≫= _) as [mod_name|]; [|by intros [= _ <-]].
  destruct (str_eqb _ _); [by intros [= _ <-]|]. destruct (sibling_exists _ _ _); [by intros [= _ <-]|].
  destruct (rename_dir _ _ _ s) as [b s1] eqn:R.
  eapply rename_keeps in R as [H1 _]; [|done|apply snoc_not_nil|apply snoc_not_nil|done].
  destruct b; by intros [= _ <-].
Qed.

Lemma settle_keeps archive parent name s n s' :
  holds s -> archive <> [] -> (forall q c, kept q c -> q <> archive) -> fresh (parent ++ [name]) ->
  settle fails pid archive parent name s = (n, s') -> holds s'.
Proof.
  intros Hs Ha Hk Hf. unfold settle.
  destruct (remove_file _ _ s) as [b1 s1] eqn:R1. apply remove_file_keeps in R1; [|done..].
  destruct (unwrap_single_root_folder _ _ _ _ s1) as [r2 s2] eqn:R2.
  apply unwrap_keeps in R2 as [H2 F2]; [|done..].
  destruct (rename_to_modinfo_name _ _ _ s2) as [r3 s3] eqn:R3. apply modinfo_keeps in R3; [|done..].
  by intros [= _ <-].
Qed.

(** ** The record of what was unpacked *)

Lemma try_set_unpacked new p s b s' : try_set fails new p s = (b, s') -> unpacked s' = unpacked s.
Proof. unfold try_set. repeat case_match; by intros [= _ <-]. Qed.

Lemma remove_file_unpacked p s b s' : remove_file fails p s = (b, s') -> unpacked s' = unpacked s.
Proof. unfold remove_file. repeat case_match; first [by intros [= _ <-]|apply try_set_unpacked]. Qed.

Lemma remove_dir_unpacked p s b s' : remove_dir fails p s = (b, s') -> unpacked s' = unpacked s.
Proof. unfold remove_dir. repeat case_match; first [by intros [= _ <-]|apply try_set_unpacked]. Qed.

Lemma rename_unpacked from to s b s' : rename_dir fails from to s = (b, s') -> unpacked s' = unpacked s.
Proof. unfold rename_dir. repeat case_match; by intros [= _ <-]. Qed.

Lemma unwrap_unpacked parent name s r s' :
  unwrap_single_root_folder fails pid parent name s = (r, s') -> unpacked s' = unpacked s.
Proof.
  unfold unwrap_single_root_folder. intros H.
  repeat match goal with
  | H : (let '(_, _) := ?x in _) = _ |- _ => destruct x as [? ?] eqn:?
  | H : (match ?x with _ => _ end) = _ |- _ => destruct x eqn:?
  | H : (_, _) = (_, _) |- _ => injection H as ? ?; subst
  | H : rename_dir _ _ _ _ = _ |- _ => apply rename_unpacked in H
  | H : remove_dir _ _ _ = _ |- _ => apply remove_dir_unpacked in H
  end; simpl in *; congruence.
Qed.

Lemma settle_unpacked archive parent name s n s' :
  settle fails pid archive parent name s = (n, s') -> unpacked s' = unpacked s.
Proof.
  unfold settle. destruct (remove_file _ _ s) as [b1 s1] eqn:R1. apply remove_file_unpacked in R1.
  destruct (unwrap_single_root_folder _ _ _ _ s1) as [r2 s2] eqn:R2. apply unwrap_unpacked in R2.
  destruct (rename_to_modinfo_name _ _ _ s2) as [r3 s3] eqn:R3. intros [= _ <-].
  unfold rename_to_modinfo_name in R3. repeat case_match; simplify_eq; try congruence;
    match goal with H : rename_dir _ _ _ _ = _ |- _ => apply rename_unpacked in H; congruence end.
Qed.

(** An archive is on record once the backend said it was unpacked. *)
Definition recorded_by (archive : list str) (s s' : FlattenState) : Prop :=
  unpacked s' = unpacked s \/
  unpacked s' = unpacked s ++ [archive] /\ exists n content entries, extractor n archive content = (Ok tt, entries).

Lemma flatten_one_unpacked report archive name s r s' :
  flatten_one fails debris pid extractor report (archive, name) s = (r, s') -> recorded_by archive s s'.
Proof.
  unfold flatten_one, recorded_by. destruct (sibling_exists _ _ _); [intros [= _ <-]; auto|].
  destruct (fails _); [intros [= _ <-]; auto|]. destruct (create_dir_all _ _) as [t|]; [|intros [= _ <-]; auto].
  destruct (extractor _ _ _) as [outcome entries] eqn:Ee.
  destruct (set_at _ _ _) as [t2|]; [|intros [= _ <-]; auto]. destruct outcome as [[]|e].
  - destruct (settle _ _ _ _ _ _) as [n s3] eqn:Est. intros [= _ <-].
    apply settle_unpacked in Est. right. eauto.
  - intros [= _ <-]. left. unfold remove_dir_all. by destruct (set_at _ _ _).
Qed.

Lemma flatten_one_keeps report archive name s r s' :
  holds s -> archive <> [] -> (forall q c, kept q c -> q ∉ unpacked s') ->
  flatten_one fails debris pid extractor report (archive, name) s = (r, s') -> holds s'.
Proof.
  intros Hs Ha Hk. unfold flatten_one.
  destruct (sibling_exists _ _ _) eqn:Ex; [by intros [= _ <-]|].
  destruct (fails _); [by intros [= _ <-]|].
  destruct (create_dir_all _ _) as [t|] eqn:Ec; [|by intros [= _ <-]].
  assert (fresh (removelast archive ++ [name])) as Hf by (eapply absent_fresh; [done|by apply sibling_absent]).
  set (s1 := with_tree t (called s)).
  assert (holds s1) as H1.
  { intros q c Hq. simpl. rewrite (create_dir_all_file_at _ _ _ _ Ec). auto. }
  destruct (extractor _ _ _) as [outcome entries].
  destruct (set_at _ _ (tree s1)) as [t2|] eqn:Es; [|by intros [= _ <-]].
  set (s2 := with_tree t2 (called s1)).
  assert (holds s2) as H2 by exact (set_keeps _ _ (called s1) t2 H1 (snoc_not_nil _ _) Hf Es).
  destruct outcome as [[]|e].
  - destruct (settle _ _ _ _ _ _) as [n s3] eqn:Est. intros [= _ <-].
    pose proof (settle_unpacked _ _ _ _ _ _ Est) as Hu. simpl in Hu.
    eapply settle_keeps in Est; [exact Est|done|done| |done].
    intros q c Hq ->. apply (Hk _ _ Hq). rewrite Hu. set_solver.
  - intros [= _ <-]. unfold remove_dir_all.
    destruct (set_at _ _ (tree s2)) as [t3|] eqn:E3; [|done].
    eapply (set_keeps _ _ (called s2)); [done|apply snoc_not_nil|exact Hf|exact E3].
Qed.

(** Only archives of [among] were unpacked between two states. *)
Definition recorded_among (among : list str -> Prop) (s s' : FlattenState) : Prop :=
  exists new, unpacked s' = unpacked s ++ new /\
    Forall (fun p => among p /\ exists n content entries, extractor n p content = (Ok tt, entries)) new.

Lemma recorded_refl among s s' : unpacked s' = unpacked s -> recorded_among among s s'.
Proof. intros H. exists []. by rewrite app_nil_r. Qed.

Lemma recorded_trans among s1 s2 s3 :
  recorded_among among s1 s2 -> recorded_among among s2 s3 -> recorded_among among s1 s3.
Proof.
  intros (n1 & E1 & H1) (n2 & E2 & H2). exists (n1 ++ n2).
  split; [by rewrite E2, E1, app_assoc|]. by apply Forall_app.
Qed.

Lemma recorded_one (among : list str -> Prop) archive s s' : among archive -> recorded_by archive s s' -> recorded_among among s s'.
Proof. intros Hin [H|[H He]]; [by apply recorded_refl|]. exists [archive]. by repeat constructor. Qed.

Lemma recorded_mono (among among' : list str -> Prop) s s' :
  (forall p, among p -> among' p) -> recorded_among among s s' -> recorded_among among' s s'.
Proof.
  intros Hsub (new & E & H). exists new. split; [done|]. eapply Forall_impl; [exact H|].
  intros p [Hp He]. auto.
Qed.

Lemma recorded_elem among s s' q : recorded_among among s s' -> q ∉ unpacked s' -> q ∉ unpacked s.
Proof. intros (new & -> & _). set_solver. Qed.

Lemma flatten_targets_unpacked report targets s r s' :
  flatten_targets fails debris pid extractor report targets s = (r, s') -> recorded_among (fun p => p ∈ map fst targets) s s'.
Proof.
  revert report s. induction targets as [|[archive name] targets IH]; intros report s;
    [intros [= _ <-]; by apply recorded_refl|].
  cbn [flatten_targets]. destruct (flatten_one _ _ _ _ _ _ _) as [r1 s1] eqn:E1.
  apply flatten_one_unpacked, (recorded_one (fun p => p ∈ archive :: map fst targets)) in E1; [|left].
  destruct r1 as [report1|]; [|by intros [= _ <-]].
  intros H. eapply recorded_trans; [exact E1|]. eapply recorded_mono; [|by eapply IH]. by right.
Qed.

Lemma flatten_targets_keeps report targets s r s' :
  holds s -> Forall (fun t => t.1 <> []) targets -> (forall q c, kept q c -> q ∉ unpacked s') ->
  flatten_targets fails debris pid extractor report targets s = (r, s') -> holds s'.
Proof.
  revert report s. induction targets as [|[archive name] targets IH]; intros report s Hs Ht Hk; [by intros [= _ <-]|].
  cbn [flatten_targets]. apply Forall_cons in Ht as [Ha Ht].
  destruct (flatten_one _ _ _ _ report (archive, name) s) as [[report1|] s1] eqn:E1.
  - intros H. apply (IH report1 s1); [|done..]. apply flatten_one_keeps in E1; [done..|].
    intros q c Hq. eapply recorded_elem; [by eapply flatten_targets_unpacked|by eapply Hk].
  - intros [= _ <-]. by eapply flatten_one_keeps.
Qed.

(** ** The archives of a tree *)

Definition archive_named (p : list str) : Prop :=
  exists dir name, p = dir ++ [name] /\ is_archive_filename name = true.

Lemma walk_named (can : list str -> bool) n dir ps p : walk can dir n = Some ps -> p ∈ ps -> archive_named p.
Proof.
  revert dir ps p. induction n as [c|m es IH| |] using node_induction; intros dir ps p; try done.
  simpl. destruct (can dir); [|done].
  revert ps. induction es as [|[name node] es IHes]; intros ps; [intros [= <-] ?%elem_of_nil; done|].
  apply Forall_cons in IH as [Hn IH]. specialize (IHes IH). cbn [map foldr fst snd] in *.
  destruct (match node with RegularFile _ => _ | _ => _ end) as [found|] eqn:Ef; [|done].
  destruct (foldr _ _ _) as [more|] eqn:Em; [|done]. intros [= <-] [Hp|Hp]%elem_of_app; [|by eapply IHes].
  destruct node as [c|m' es'| |].
  - injection Ef as <-. destruct (utf8_valid name && is_archive_filename name) eqn:E; [|by apply elem_of_nil in Hp].
    apply list_elem_of_singleton in Hp as ->. apply andb_true_iff in E as [_ E]. by exists dir, name.
  - by eapply Hn.
  - injection Ef as <-. by apply elem_of_nil in Hp.
  - injection Ef as <-. by apply elem_of_nil in Hp.
Qed.

Lemma targets_are_archives archives strip p f : (p, f) ∈ target_folder_names archives strip -> p ∈ archives.
Proof.
  unfold target_folder_names. intros (i & Hi)%list_elem_of_lookup.
  apply lookup_zip_with_Some in Hi as (x & y & [= -> _] & Hx & _). by eapply list_elem_of_lookup_2.
Qed.

Lemma flatten_pass strip s r s' :
  holds s -> (forall q c, kept q c -> q ∉ unpacked s') ->
  flatten_nested_archives fails debris pid extractor readable diagnose strip s = (r, s') -> holds s'.
Proof.
  intros Hs Hk. unfold flatten_nested_archives.
  destruct (find_archive_files_recursive _ _) as [archives|] eqn:Ew; [|by intros [= _ <-]].
  destruct (flatten_targets _ _ _ _ _ _ _) as [r1 s1] eqn:Et. intros H.
  assert (s1 = s') as -> by (destruct r1; by injection H as _ <-).
  eapply flatten_targets_keeps in Et; [done|done| |done].
  apply Forall_forall. intros [p f] Hin%targets_are_archives. apply (walk_named _ _ _ _ _ Ew) in Hin as (d & n & -> & _).
  apply snoc_not_nil.
Qed.

Lemma flatten_pass_unpacked strip s r s' :
  flatten_nested_archives fails debris pid extractor readable diagnose strip s = (r, s') ->
  recorded_among archive_named s s'.
Proof.
  unfold flatten_nested_archives.
  destruct (find_archive_files_recursive _ _) as [archives|] eqn:Ew; [|intros [= _ <-]; by apply recorded_refl].
  destruct (flatten_targets _ _ _ _ _ _ _) as [r1 s1] eqn:Et. intros H.
  assert (s1 = s') as -> by (destruct r1; by injection H as _ <-).
  apply flatten_targets_unpacked in Et. eapply recorded_mono; [|exact Et].
  intros p ([p' f] & -> & Hin%targets_are_archives)%list_elem_of_fmap. by eapply walk_named.
Qed.

Lemma flatten_passes_unpacked passes strip combined total s r s' :
  flatten_passes fails debris pid extractor readable diagnose passes strip combined total s = (r, s') ->
  recorded_among archive_named s s'.
Proof.
  revert combined total s. induction passes as [|passes IH]; intros combined total s; simpl;
    [intros [= _ <-]; by apply recorded_refl|].
  destruct (flatten_nested_archives _ _ _ _ _ _ _ _) as [r1 s1] eqn:E. apply flatten_pass_unpacked in E.
  destruct r1 as [pass|]; [|by intros [= _ <-]].
  destruct (_ <? _)%Z; [by intros [= _ <-]|]. case_bool_decide; [by intros [= _ <-]|].
  intros Hrest%IH. by eapply recorded_trans.
Qed.

Lemma flatten_passes_keeps passes strip combined total s r s' :
  holds s -> (forall q c, kept q c -> q ∉ unpacked s') ->
  flatten_passes fails debris pid extractor readable diagnose passes strip combined total s = (r, s') -> holds s'.
Proof.
  revert combined total s. induction passes as [|passes IH]; intros combined total s Hs Hk; simpl; [by intros [= _ <-]|].
  destruct (flatten_nested_archives _ _ _ _ _ _ _ _) as [r1 s1] eqn:E.
  destruct r1 as [pass|]; [|intros [= _ <-]; by eapply flatten_pass].
  destruct (_ <? _)%Z; [intros [= _ <-]; by eapply flatten_pass|].
  case_bool_decide; [intros [= _ <-]; by eapply flatten_pass|]. intros Hrest.
  eapply IH; [|exact Hk|exact Hrest]. eapply flatten_pass; [exact Hs| |exact E].
  intros q c Hq. eapply recorded_elem; [by eapply flatten_passes_unpacked|by eapply Hk].
Qed.
End keeps.

(** C5: flattening loses no file. Whatever calls fail, whatever the archives
    hold and wherever it stops, every file of the tree is where it was with the
    content it had, except an archive the backend reported unpacked; the folders
    made next to it, the wrappers dropped and the renames to a [modinfo.ini]'s name
    never touch what was there. *)
Theorem flatten_keeps_every_file {UT : UnicodeTables} fails debris pid extractor readable diagnose
    strip max_depth t r s' q c :
  flatten_nested_archives_recursive fails debris pid extractor readable diagnose strip max_depth
    (mk_flat t 0 []) = (r, s') ->
  file_at t q = Some c ->
  file_at (tree s') q = Some c \/
  archive_named q /\ exists n content entries, extractor n q content = (Ok tt, entries).
Proof.
  intros H Hf. unfold flatten_nested_archives_recursive in H.
  pose proof (flatten_passes_unpacked _ _ _ _ _ _ _ _ _ _ _ _ _ H) as (new & Hnew & Hall). simpl in Hnew.
  destruct (decide (q ∈ unpacked s')) as [Hin|Hn].
  - right. rewrite Hnew in Hin. rewrite Forall_forall in Hall. by apply Hall.
  - left. refine (flatten_passes_keeps _ _ _ _ _ _ (fun q' c' => q' = q /\ c' = c) _ _ _ _ _ _ _ _ _ H q c _); [|..|done].
    + by intros q' c' [-> ->].
    + by intros q' c' [-> _].
Qed.

(** ** The names of the folders *)

Section folder_names.
Context {UT : UnicodeTables}.

Lemma common_take a b k : (k <= common_chars a b)%nat -> take k a = take k b.
Proof.
  revert b k. induction a as [|x a IH]; intros [|y b] k; simpl; intros H; try (by replace k with 0 by lia).
  destruct (str_eqb x y) eqn:E; [|by replace k with 0 by lia]. apply str_eqb_eq in E as ->.
  destruct k; [done|]. simpl. f_equal. apply IH. lia.
Qed.

Lemma shortest_common_le first names len name :
  name ∈ names -> (shortest_common first names len <= common_chars (chars first) (chars name))%nat.
Proof.
  assert (forall names len, shortest_common first names len <= len)%nat as Hle.
  { clear. induction names as [|n names IH]; intros len; simpl; [done|].
    destruct (_ =? 0)%nat; [lia|]. etransitivity; [apply IH|]. lia. }
  revert len. induction names as [|n names IH]; intros len; [by intros ?%elem_of_nil|]. simpl.
  destruct (_ =? 0)%nat; [lia|]. intros [->|Hin]%elem_of_cons; [|by apply IH].
  etransitivity; [apply Hle|]. lia.
Qed.

(** The common prefix is one. *)
Lemma longest_common_prefix_spec names name :
  name ∈ names -> exists rest, name = longest_common_prefix names ++ rest.
Proof.
  unfold longest_common_prefix. destruct names as [|first [|second names]]; intros Hin; [by exists name..|].
  destruct (_ <? 5)%nat; [by exists name|].
  set (k := shortest_common _ _ _).
  assert (take k (chars first) = take k (chars name)) as ->.
  { apply elem_of_cons in Hin as [->|Hin]; [done|]. by apply common_take, shortest_common_le. }
  exists (concat (drop k (chars name))). by rewrite <-concat_app, take_drop, concat_chars.
Qed.

Lemma folder_name_injective names strip a b :
  a ∈ names -> b ∈ names ->
  folder_name_of (batch_prefix names strip) a = folder_name_of (batch_prefix names strip) b -> a = b.
Proof.
  unfold batch_prefix. destruct strip; [|done].
  destruct (negb _ && would_produce_broken_names names _) eqn:Eb; [done|].
  intros Ha Hb. destruct (longest_common_prefix_spec names a Ha) as [ra Hra].
  destruct (longest_common_prefix_spec names b Hb) as [rb Hrb].
  set (p := longest_common_prefix names) in *. unfold folder_name_of.
  assert (forall r, strip_prefix p (p ++ r) = Some r) as Hsp by (intros r; by apply strip_prefix_spec).
  destruct (is_empty p) eqn:Ep; [done|]. simpl in *.
  assert (forall x r, x ∈ names -> x = p ++ r -> r <> []) as Hne.
  { intros x r Hx -> ->. unfold would_produce_broken_names in Eb.
    assert (existsb (fun name => match strip_prefix p name with None => false | Some stripped =>
      match chars stripped with [] => true | c :: _ => negb (is_alphanumeric c) end end) names = true); [|congruence].
    apply existsb_exists. exists (p ++ []). split; [by apply list_elem_of_In|].
    by rewrite Hsp. }
  pose proof (Hne a ra Ha Hra) as Hna. pose proof (Hne b rb Hb Hrb) as Hnb. rewrite Hra, Hrb.
  unfold starts_with. rewrite !Hsp, !drop_app_length.
  destruct ra; [done|]. destruct rb; [done|]. simpl. by intros ->.
Qed.

(** Taking the common prefix off makes no two folders one: archives that are to
    be unpacked to one name have one base name. *)
Lemma stripping_merges_no_folders archives strip p1 p2 f :
  (forall p, p ∈ archives -> p <> []) ->
  (p1, f) ∈ target_folder_names archives strip -> (p2, f) ∈ target_folder_names archives strip ->
  strip_archive_extension <$> last p1 = strip_archive_extension <$> last p2.
Proof.
  intros Hne. unfold target_folder_names. set (names := map strip_archive_extension (omap last archives)).
  assert (forall p g, (p, g) ∈ zip_with (fun path base => (path, folder_name_of (batch_prefix names strip) base)) archives names ->
    exists base, strip_archive_extension <$> last p = Some base /\ base ∈ names /\
      g = folder_name_of (batch_prefix names strip) base) as Hspec.
  { intros p g (i & Hi)%list_elem_of_lookup. apply lookup_zip_with_Some in Hi as (x & y & [= -> ->] & Hx & Hy).
    exists y. split_and!; [|by eapply list_elem_of_lookup_2|done].
    subst names. clear -Hne Hx Hy. revert i Hx Hy. induction archives as [|a archives IH]; intros i Hx Hy; [done|].
    simpl in Hy. destruct (last a) as [n|] eqn:El; [|apply last_None in El; by destruct (Hne a ltac:(left))].
    destruct i as [|i]; simpl in *; [by injection Hx as <-; injection Hy as <-; rewrite El|].
    apply (IH ltac:(intros; apply Hne; by right) i Hx Hy). }
  intros (b1 & E1 & H1 & F1)%Hspec (b2 & E2 & H2 & F2)%Hspec. rewrite E1, E2. f_equal.
  apply (folder_name_injective names strip); [done|done|]. by rewrite <-F1, <-F2.
Qed.
End folder_names.

(** ** Where the contents go *)

Section contents.
Context {UT : UnicodeTables} (fails : nat -> bool) (debris : nat -> list (str * Node)) (pid : N)
        (extractor : nat -> list str -> option str -> result str unit * list (str * Node)).

(** What an archive held is at [p], without the wrapper when it is one folder. *)
Definition content_at (s : FlattenState) (p : list str) (entries : list (str * Node)) : Prop :=
  node_at (tree s) p = Some (Directory new_dir_mode entries) \/
  exists inner m es, entries = [(inner, Directory m es)] /\ node_at (tree s) p = Some (Directory m es).

Lemma try_set_cases new p s b s' :
  try_set fails new p s = (b, s') ->
  if b then set_at new p (tree s) = Some (tree s') else tree s' = tree s.
Proof. unfold try_set. destruct (fails _); [by intros [= <- <-]|]. destruct (set_at _ _ _) eqn:E; by intros [= <- <-]. Qed.

Lemma remove_dir_cases p s b s' :
  remove_dir fails p s = (b, s') ->
  if b then set_at None p (tree s) = Some (tree s') else tree s' = tree s.
Proof.
  unfold remove_dir. destruct (node_at _ p) as [[|? [|? ?]| |]|]; try by intros [= <- <-]. apply try_set_cases.
Qed.

Lemma remove_file_apart p s b s' q :
  remove_file fails p s = (b, s') -> ~ (p `prefix_of` q) -> ~ (q `prefix_of` p) -> node_at (tree s') q = node_at (tree s) q.
Proof.
  intros H Hpq Hqp. unfold remove_file in H.
  destruct (node_at _ p) as [[| | |]|]; try by injection H as _ <-.
  apply try_set_cases in H. destruct b; [by eapply set_at_apart|by rewrite H].
Qed.

Lemma remove_dir_apart p s b s' q :
  remove_dir fails p s = (b, s') -> ~ (p `prefix_of` q) -> ~ (q `prefix_of` p) -> node_at (tree s') q = node_at (tree s) q.
Proof.
  intros H Hpq Hqp. apply remove_dir_cases in H. destruct b; [by eapply set_at_apart|by rewrite H].
Qed.

(** A rename that is refused changes nothing; one that is not moves the
    directory. *)
Lemma rename_cases from to s b s' :
  to <> [] -> rename_dir fails from to s = (b, s') ->
  if b then exists m es, node_at (tree s) from = Some (Directory m es) /\ node_at (tree s') to = Some (Directory m es)
  else tree s' = tree s.
Proof.
  intros Ht. unfold rename_dir. destruct (fails _); [by intros [= <- <-]|].
  destruct (node_at (tree s) from) as [[|m es| |]|]; try by intros [= <- <-].
  destruct (node_at (tree s) to) as [[|? [|? ?]| |]|]; try by intros [= <- <-].
  all: case_bool_decide; [by intros [= <- <-]|]; destruct (set_at None from _) as [t|]; [|by intros [= <- <-]];
    destruct (set_at _ to t) as [t'|] eqn:E; [|by intros [= <- <-]]; intros [= <- <-]; exists m, es;
    split; [done|]; by eapply set_at_hit.
Qed.

Lemma tmp_name_longer inner : §".arclain_flatten_tmp_" ++ decimal pid ++ §"_" ++ inner <> inner.
Proof. intros H. apply (f_equal length) in H. rewrite !length_app in H. simpl in H. lia. Qed.

(** The directory something was moved out of. *)
Lemma rename_leaves d c to s s' m es :
  node_at (tree s) d = Some (Directory m es) -> ~ (to `prefix_of` d) -> ~ (d `prefix_of` to) ->
  rename_dir fails (d ++ [c]) to s = (true, s') -> node_at (tree s') d = Some (Directory m (remove_entry c es)).
Proof.
  intros Hd H1 H2. unfold rename_dir. destruct (fails _); [done|].
  destruct (node_at (tree s) (d ++ [c])) as [[|m' es'| |]|]; try done.
  destruct (node_at (tree s) to) as [[|? [|? ?]| |]|]; try done.
  all: case_bool_decide; [done|]; destruct (set_at None _ _) as [t|] eqn:E1; [|done];
    destruct (set_at _ to t) as [t'|] eqn:E2; [|done]; intros [= <-]; simpl;
    rewrite (set_at_apart _ _ _ _ d E2) by done; by apply (set_at_parent None d c _ _ _ _ Hd).
Qed.

(** The folder that was unwrapped or not: its content is at the name it got, or,
    when a call failed half way, next to it, and the wrapper that is left is
    empty. *)
Definition unwrapped_at (parent : list str) (name : str) (r : result unit (option str))
    (s : FlattenState) (entries : list (str * Node)) : Prop :=
  content_at s (parent ++ [default_name name r]) entries \/
  default_name name r = name /\ (exists n, content_at s (parent ++ [n]) entries) /\
  (node_at (tree s) (parent ++ [name]) = None \/ exists m, node_at (tree s) (parent ++ [name]) = Some (Directory m [])).

Lemma remove_dir_leaves d s b s' m :
  d <> [] -> node_at (tree s) d = Some (Directory m []) -> remove_dir fails d s = (b, s') ->
  node_at (tree s') d = if b then None else Some (Directory m []).
Proof.
  intros Hd Hn H. apply remove_dir_cases in H. destruct b; [by eapply set_at_hit|by rewrite H].
Qed.

Lemma unwrap_content parent name s r s' entries :
  node_at (tree s) (parent ++ [name]) = Some (Directory new_dir_mode entries) ->
  unwrap_single_root_folder fails pid parent name s = (r, s') -> unwrapped_at parent name r s' entries.
Proof.
  intros Hd. unfold unwrap_single_root_folder, unwrapped_at. cbn [tree called].
  destruct (fails _); [intros [= <- <-]; by left; left|]. rewrite Hd.
  destruct entries as [|[inner [|mi ei| |]] [|? ?]]; try (intros [= <- <-]; by left; left).
  destruct (utf8_valid inner); cbn [negb]; [|intros [= <- <-]; by left; left].
  assert (node_at (tree s) ((parent ++ [name]) ++ [inner]) = Some (Directory mi ei)) as Hin.
  { rewrite node_at_app, Hd. simpl. by rewrite str_eqb_refl. }
  assert (remove_entry inner [(inner, Directory mi ei)] = []) as Hrm by (simpl; by rewrite str_eqb_refl).
  assert (forall s1 n, n <> name -> rename_dir fails ((parent ++ [name]) ++ [inner]) (parent ++ [n]) (called s) = (true, s1) ->
    node_at (tree s1) (parent ++ [n]) = Some (Directory mi ei) /\
    node_at (tree s1) (parent ++ [name]) = Some (Directory new_dir_mode [])) as Hren.
  { intros s1 n Hn R. split.
    - apply rename_cases in R as (m & es & E & ->); [|apply snoc_not_nil]. simpl in E. congruence.
    - rewrite <-Hrm. refine (rename_leaves _ _ _ (called s) _ _ _ Hd _ _ R); apply prefix_snoc_apart; congruence. }
  destruct (str_eqb inner name) eqn:En.
  - apply str_eqb_eq in En as ->. pose proof (tmp_name_longer name) as Htmp.
    set (tmp := §".arclain_flatten_tmp_" ++ decimal pid ++ §"_" ++ name) in *.
    destruct (rename_dir _ _ (parent ++ [tmp]) _) as [[|] s1] eqn:R1; simpl.
    2:{ apply rename_cases in R1; [|apply snoc_not_nil]. intros [= <- <-]. left. left. by rewrite R1. }
    apply Hren in R1 as [Ht Hw]; [|done].
    destruct (remove_dir _ _ s1) as [b2 s2] eqn:R2.
    pose proof (remove_dir_apart _ _ _ _ (parent ++ [tmp]) R2 (prefix_snoc_apart _ _ _ (not_eq_sym Htmp)) (prefix_snoc_apart _ _ _ Htmp)) as Ht2.
    apply (remove_dir_leaves _ _ _ _ _ (snoc_not_nil _ _) Hw) in R2.
    destruct b2; simpl.
    2:{ intros [= <- <-]. right. split; [done|]. split; [|eauto]. exists tmp. right. rewrite Ht2, Ht. eauto. }
    destruct (rename_dir _ _ _ s2) as [[|] s3] eqn:R3; simpl; apply rename_cases in R3; try apply snoc_not_nil.
    + intros [= <- <-]. cbn [default_name]. left. right. destruct R3 as (m & es & E & E'). rewrite E'. rewrite Ht2, Ht in E. eauto.
    + intros [= <- <-]. right. split; [done|]. rewrite R3. split; [|auto]. exists tmp. right. rewrite R3, Ht2, Ht. eauto.
  - assert (inner <> name) as Hne by (intros ->; by rewrite str_eqb_refl in En).
    destruct (sibling_exists _ _ _); [intros [= <- <-]; by left; left|].
    destruct (rename_dir _ _ (parent ++ [inner]) _) as [[|] s1] eqn:R1; simpl.
    2:{ apply rename_cases in R1; [|apply snoc_not_nil]. intros [= <- <-]. left. left. by rewrite R1. }
    apply Hren in R1 as [Ht Hw]; [|done].
    destruct (remove_dir _ _ s1) as [b2 s2] eqn:R2.
    pose proof (remove_dir_apart _ _ _ _ (parent ++ [inner]) R2 (prefix_snoc_apart _ _ _ (not_eq_sym Hne)) (prefix_snoc_apart _ _ _ Hne)) as Ht2.
    apply (remove_dir_leaves _ _ _ _ _ (snoc_not_nil _ _) Hw) in R2.
    destruct b2; simpl; intros [= <- <-].
    + cbn [default_name]. left. right. rewrite Ht2, Ht. eauto.
    + right. split; [done|]. split; [|eauto]. exists inner. right. rewrite Ht2, Ht. eauto.
Qed.

Lemma modinfo_content parent name s r s' unwrapped entries :
  unwrapped_at parent name unwrapped s entries ->
  rename_to_modinfo_name fails parent (default_name name unwrapped) s = (r, s') ->
  exists n, content_at s' (parent ++ [n]) entries.
Proof.
  intros Hu. unfold rename_to_modinfo_name.
  destruct ((node_at (tree s) (parent ++ [default_name name unwrapped]) ≫= parse_modinfo) ≫= mi_name)
    as [mod_name|] eqn:Em.
  2:{ intros [= _ <-]. destruct Hu as [|(_ & ? & _)]; eauto. }
  assert (content_at s (parent ++ [default_name name unwrapped]) entries) as Hc.
  { destruct Hu as [|(Hname & _ & [Hn|[m Hn]])]; [done|by rewrite Hname, Hn in Em..]. }
  destruct (str_eqb _ _); [intros [= _ <-]; eauto|]. destruct (sibling_exists _ _ _); [intros [= _ <-]; eauto|].
  destruct (rename_dir _ _ _ s) as [[|] s1] eqn:R; intros [= _ <-]; apply rename_cases in R; try apply snoc_not_nil.
  - exists mod_name. destruct R as (m & es & E & E'). unfold content_at in *. rewrite E'. rewrite E in Hc. exact Hc.
  - exists (default_name name unwrapped). unfold content_at in *. by rewrite R.
Qed.

(** What a backend unpacks from an archive is in a folder next to it, whatever
    calls fail on the way. *)
Lemma unpacked_contents_stay report archive a name s report' s' c entries :
  file_at (tree s) (archive ++ [a]) = Some c ->
  flatten_one fails debris pid extractor report (archive ++ [a], name) s = (report', s') ->
  (forall n, extractor n (archive ++ [a]) (Some c) = (Ok tt, entries)) ->
  unpacked s' <> unpacked s ->
  exists n, content_at s' (archive ++ [n]) entries.
Proof.
  intros Hf. unfold flatten_one. rewrite removelast_last.
  destruct (sibling_exists _ _ _) eqn:Ex; [by intros [= _ <-]|]. apply sibling_absent in Ex.
  destruct (fails _); [by intros [= _ <-]|].
  destruct (create_dir_all _ _) as [t|] eqn:Ec; [|by intros [= _ <-]].
  cbn [fs_calls with_tree called tree]. rewrite (create_dir_all_file_at _ _ _ _ Ec), Hf.
  destruct (extractor _ _ _) as [outcome es] eqn:Ee. intros H He Hu. rewrite He in Ee. injection Ee as <- <-.
  destruct (set_at _ _ t) as [t2|] eqn:Es; [|by injection H as _ <-].
  destruct (settle _ _ _ _ _ _) as [n s3] eqn:Est. injection H as _ <-. unfold settle in Est.
  destruct (remove_file _ _ _) as [b1 s1] eqn:R1.
  assert (a <> name) as Hne.
  { intros <-. unfold file_at in Hf. by rewrite Ex in Hf. }
  apply (remove_file_apart _ _ _ _ (archive ++ [name])) in R1; [|by apply prefix_snoc_apart..].
  simpl in R1. rewrite (set_at_hit _ _ _ _ (snoc_not_nil _ _) Es) in R1.
  destruct (unwrap_single_root_folder _ _ _ _ s1) as [r2 s2] eqn:R2. apply (unwrap_content _ _ _ _ _ _ R1) in R2.
  destruct (rename_to_modinfo_name _ _ _ s2) as [r3 s4] eqn:R3. injection Est as _ <-.
  by eapply modinfo_content.
Qed.
End contents.

Module FlattenExample.

#[local] Existing Instance ascii_tables.

(** Two archives: one holds a single folder with a [modinfo.ini], the other is
    damaged. *)
Definition backend (_ : nat) (_ : list str) (content : option str) : result str unit * list (str * Node) :=
  match content with
  | Some c =>
      if str_eqb c §"good" then
        (Ok tt, [(§"inner", Directory 493 [(§"modinfo.ini", RegularFile §"name=Nice Mod");
                                           (§"a.bin", RegularFile §"payload")])])
      else (Err §"damaged", [(§"half", RegularFile §"h")])
  | None => (Err §"missing", [])
  end.

Definition pack : Node :=
  Directory 493 [(§"readme.txt", RegularFile §"read me");
                 (§"mods", Directory 493 [(§"one.zip", RegularFile §"good"); (§"two.rar", RegularFile §"bad")])].

Definition flatten (fails : nat -> bool) (depth : Z) (t : Node) : option FlattenReport * FlattenState :=
  flatten_nested_archives_recursive fails (fun _ => []) 7 backend (fun _ _ => true) (fun _ => Some [])
    true depth (mk_flat t 0 []).

Lemma flatten_keeps_every_file_witness :
  let s' := (flatten (fun _ => false) 1 pack).2 in
  file_at (tree s') [§"mods"; §"Nice Mod"; §"a.bin"] = Some §"payload" /\
  file_at (tree s') [§"mods"; §"one.zip"] = None /\
  (file_at (tree s') [§"mods"; §"two.rar"] = Some §"bad" \/
   archive_named [§"mods"; §"two.rar"] /\
   exists n content entries, backend n [§"mods"; §"two.rar"] content = (Ok tt, entries)).
Proof.
  intros s'. split; [vm_compute; reflexivity|]. split; [vm_compute; reflexivity|].
  apply (flatten_keeps_every_file (fun _ => false) (fun _ => []) 7 backend (fun _ _ => true) (fun _ => Some [])
    true 1 pack (flatten (fun _ => false) 1 pack).1 s' [§"mods"; §"two.rar"] §"bad").
  - apply surjective_pairing.
  - reflexivity.
Defined.

(** The report is the concatenation of the passes': an archive that cannot be
    unpacked is reported as failed once per pass. *)
Example failure_reported_per_pass :
  report_failed <$> (flatten (fun _ => false) 0 pack).1 = Some [(§"two", §"damaged"); (§"two", §"damaged")].
Proof. vm_compute. reflexivity. Qed.

(** When the wrapper has the name of its only folder and the last of the three
    calls that drop it fails, the content stays under the temporary name and the
    report names a folder that is not there. *)
Definition same_name (_ : nat) (_ : list str) (_ : option str) : result str unit * list (str * Node) :=
  (Ok tt, [(§"one", Directory 493 [(§"a.bin", RegularFile §"payload")])]).

Example content_under_the_temporary_name :
  let '(r, s) := flatten_nested_archives_recursive (fun n => bool_decide (n = 7)) (fun _ => []) 7 same_name
      (fun _ _ => true) (fun _ => Some []) false 1 (mk_flat (Directory 493 [(§"one.zip", RegularFile §"x")]) 0 []) in
  extracted <$> r = Some [§"one"] /\ node_at (tree s) [§"one"] = None /\
  file_at (tree s) [§".arclain_flatten_tmp_7_one"; §"a.bin"] = Some §"payload".
Proof. vm_compute. split_and!; reflexivity. Qed.

End FlattenExample.
