(* ===== verification/Downloads.v ===== *)
(** Fetching what a plan schedules before the plan is applied
    ([crates/core/src/features/organization/downloads.rs]): the staging of the
    fetched images inside the work directory, the bound on one image, and the
    addresses an image may be fetched from. *)

From stdpp Require Import base tactics option list strings gmap sets.
From Stdlib Require Import ZArith Lia Ascii.
From S2P Require Import Prelude Text RustPath RelPath Layout Archive Outputs Planner OutputTransaction FsTree Multipart.
Local Open Scope arclain_scope.

Record StagedPlan := mk_staged_plan {
  staged_plan : OrganizationPlan;
  unfetched : list (str * str * str)
}.

Definition set_moves (ms : list (str * str)) (o : PlannedOutput) : PlannedOutput := {|
  root_folder := root_folder o; root_folder_template := root_folder_template o; moves := ms;
  generated_files := generated_files o; downloads := []; resolved_variables := resolved_variables o;
  reasoning := reasoning o
|}.

(** The counter of staged names, what did not arrive, and the work directory. *)
Record Fetching := mk_fetching {
  staged_name : Z;
  missing : list (str * str * str);
  staging_tree : Node
}.

Section staging.
(** The caller's transport, and the error of the [n]th write (none when it
    works). What a failed write leaves in the staging directory is never
    referred to. *)
Context (fetch : PendingDownload -> result str str) (write_fails : Z -> option str).

Definition report_missing (d : PendingDownload) (reason : str) (f : Fetching) : Fetching :=
  mk_fetching (staged_name f + 1) (missing f ++ [(download_url d, dest_path d, reason)]) (staging_tree f).

(** One download: a move from the staging directory, or a line of the report. *)
Definition stage_download (staging : str) (acc : list (str * str) * Fetching) (d : PendingDownload)
  : list (str * str) * Fetching :=
  let '(ms, f) := acc in
  let name := padded 3 (staged_name f) in
  match fetch d with
  | Err reason => (ms, report_missing d reason f)
  | Ok bytes =>
      match write_fails (staged_name f), set_at (Some (RegularFile bytes)) [staging; name] (staging_tree f) with
      | None, Some t => (ms ++ [(staging ++ §"/" ++ name, dest_path d)],
                         mk_fetching (staged_name f + 1) (missing f) t)
      | Some reason, _ => (ms, report_missing d reason f)
      | None, None => (ms, report_missing d §"No such file or directory (os error 2)" f)
      end
  end.

Definition stage_output (staging : str) (acc : list PlannedOutput * Fetching) (o : PlannedOutput)
  : list PlannedOutput * Fetching :=
  let '(ms, f) := foldl (stage_download staging) (moves o, acc.2) (downloads o) in
  (acc.1 ++ [set_moves ms o], f).

(** [tempdir]: the name of the directory that was made in the work directory,
    which is not one of its entries. *)
Definition stage_plan_downloads (tempdir : option str) (plan : OrganizationPlan) (work : Node)
  : result unit (StagedPlan * Node) :=
  let with_outputs os := {| plan_rule_name := plan_rule_name plan; plan_outputs := os;
                            skipped_outputs := skipped_outputs plan |} in
  if forallb (fun o => bool_decide (length (downloads o) = 0)) (plan_outputs plan) then
    Ok (mk_staged_plan (with_outputs (map (fun o => set_moves (moves o) o) (plan_outputs plan))) [], work)
  else
    match tempdir with
    | None => Err tt
    | Some staging =>
        let? work := ok_or (set_at (Some (Directory 448 [])) [staging] work) tt in
        if negb (utf8_valid staging) then Err tt
        else
          let '(os, f) := foldl (stage_output staging) ([], mk_fetching 0 [] work) (plan_outputs plan) in
          Ok (mk_staged_plan (with_outputs os) (missing f), staging_tree f)
    end.
End staging.

(** ** One image *)

Definition max_download_bytes : Z := 52428800.

(** [read_bounded]: at most one byte past the limit is read. *)
Definition read_bounded (body : str) (limit : Z) : result unit str :=
  let bytes := take (Z.to_nat (limit + 1)) body in
  if (limit <? Z.of_nat (length bytes))%Z then Err tt else Ok bytes.

(** What is done with a response: its status, the length it declares, its body. *)
Definition accept_response (success : bool) (content_length : option Z) (body : str) : result unit str :=
  if negb success then Err tt
  else
    match content_length with
    | Some length => if (max_download_bytes <? length)%Z then Err tt else read_bounded body max_download_bytes
    | None => read_bounded body max_download_bytes
    end.

(** ** Addresses *)

(** An IPv4 address as its 32 bits, an IPv6 address as its eight segments. *)
Inductive IpAddr := V4 (bits : Z) | V6 (segments : list Z).

(** The top [n] bits of an IPv4 address. *)
Definition net (n : Z) (bits : Z) : Z := Z.shiftr bits (32 - n).

Definition v4 (a b c d : Z) : Z := Z.lor (Z.shiftl a 24) (Z.lor (Z.shiftl b 16) (Z.lor (Z.shiftl c 8) d)).

Definition in_net (n base bits : Z) : bool := (net n bits =? net n base)%Z.

Definition v4_off_public (bits : Z) : bool :=
  in_net 8 (v4 127 0 0 0) bits                                     (* is_loopback *)
  || (in_net 8 (v4 10 0 0 0) bits || in_net 12 (v4 172 16 0 0) bits
      || in_net 16 (v4 192 168 0 0) bits)                          (* is_private *)
  || in_net 16 (v4 169 254 0 0) bits                               (* is_link_local *)
  || (bits =? 0)%Z                                                 (* is_unspecified *)
  || (bits =? v4 255 255 255 255)%Z                                (* is_broadcast *)
  || (in_net 24 (v4 192 0 2 0) bits || in_net 24 (v4 198 51 100 0) bits
      || in_net 24 (v4 203 0 113 0) bits).                         (* is_documentation *)

(** [Ipv6Addr::to_ipv4_mapped]. *)
Definition to_ipv4_mapped (segments : list Z) : option Z :=
  match segments with
  | [0; 0; 0; 0; 0; 65535; high; low] => Some (Z.lor (Z.shiftl high 16) low)
  | _ => None
  end%Z.

Definition v6_off_public (segments : list Z) : bool :=
  bool_decide (segments = [0; 0; 0; 0; 0; 0; 0; 1]%Z)
  || bool_decide (segments = [0; 0; 0; 0; 0; 0; 0; 0]%Z)
  || (Z.land (nth 0 segments 0) 65024 =? 64512)%Z                  (* fc00::/7 *)
  || (Z.land (nth 0 segments 0) 65472 =? 65152)%Z.                 (* fe80::/10 *)

Definition is_off_public_internet (address : IpAddr) : bool :=
  match address with
  | V4 bits => v4_off_public bits
  | V6 segments =>
      match to_ipv4_mapped segments with
      | Some mapped => v4_off_public mapped
      | None => v6_off_public segments
      end
  end.

(** [PublicOnlyResolver::resolve] of what a lookup answered. *)
Definition public_only (resolved : list IpAddr) : result unit (list IpAddr) :=
  let public := List.filter (fun a => negb (is_off_public_internet a)) resolved in
  if bool_decide (length public = 0%nat) then Err tt else Ok public.

(** * Facts *)

Lemma read_bounded_spec body limit : (0 <= limit)%Z ->
  read_bounded body limit = if (Z.of_nat (length body) <=? limit)%Z then Ok body else Err tt.
Proof.
  intros Hl. unfold read_bounded. rewrite length_take.
  destruct (Z.leb_spec (Z.of_nat (length body)) limit).
  - rewrite take_ge by lia. destruct (Z.ltb_spec limit (Z.of_nat (Nat.min (Z.to_nat (limit + 1)) (length body)))); [lia|done].
  - destruct (Z.ltb_spec limit (Z.of_nat (Nat.min (Z.to_nat (limit + 1)) (length body)))); [done|lia].
Qed.

(** Whatever a server declares, an image that is taken is the whole body and
    within the bound. *)
Lemma accepted_response_is_bounded success declared body bytes :
  accept_response success declared body = Ok bytes ->
  bytes = body /\ (Z.of_nat (length body) <= max_download_bytes)%Z.
Proof.
  unfold accept_response. intros H. simplify_result.
  assert (read_bounded body max_download_bytes = Ok bytes) as Hr by (destruct declared; simplify_result; done).
  rewrite read_bounded_spec in Hr by done. destruct (Z.leb_spec (Z.of_nat (length body)) max_download_bytes); [|done].
  by injection Hr as <-.
Qed.

(** A mapped address is judged as the IPv4 address it is. *)
Lemma mapped_address_is_v4 high low :
  is_off_public_internet (V6 [0; 0; 0; 0; 0; 65535; high; low]%Z) =
  is_off_public_internet (V4 (Z.lor (Z.shiftl high 16) low)).
Proof. reflexivity. Qed.

Section fetched.
Context (fetch : PendingDownload -> result str str) (write_fails : Z -> option str) (staging : str).

Definition staged_at (i : Z) : list str := [staging; padded 3 i].

(** A move of an image that was fetched: its source holds the image. *)
Definition image_move (n : Z) (f : Fetching) (ds : list PendingDownload) (m : str * str) : Prop :=
  exists i d bytes, (n <= i < staged_name f)%Z /\ d ∈ ds /\
    m = (staging ++ §"/" ++ padded 3 i, dest_path d) /\
    fetch d = Ok bytes /\ file_at (staging_tree f) (staged_at i) = Some bytes.

(** From [f] to [f'] the downloads [ds] were staged, adding the moves [extra]. *)
Record fetched (ds : list PendingDownload) (extra : list (str * str)) (f f' : Fetching) : Prop := {
  fetched_names : staged_name f' = (staged_name f + Z.of_nat (length ds))%Z;
  fetched_missing : exists lines, missing f' = missing f ++ lines;
  fetched_moves : Forall (image_move (staged_name f) f' ds) extra;
  fetched_each d : d ∈ ds -> (exists src, (src, dest_path d) ∈ extra) \/
    exists reason, (download_url d, dest_path d, reason) ∈ missing f';
  fetched_outside q : ~ ([staging] `prefix_of` q) -> file_at (staging_tree f') q = file_at (staging_tree f) q;
  fetched_before k : (0 <= k < staged_name f)%Z ->
    file_at (staging_tree f') (staged_at k) = file_at (staging_tree f) (staged_at k)
}.

Lemma fetched_nil f : fetched [] [] f f.
Proof.
  split; try done; [simpl; lia|exists []; by rewrite app_nil_r|by intros d ?%elem_of_nil].
Qed.

Lemma staged_at_inj i k :
  (0 <= i <= u64_max)%Z -> (0 <= k <= u64_max)%Z -> staged_at i `prefix_of` staged_at k -> i = k.
Proof. intros Hi Hk [r H]. injection H as H _. symmetry. by eapply padded_inj in H. Qed.

Lemma fetched_one ms f d ms' f' :
  (0 <= staged_name f < u64_max)%Z ->
  stage_download fetch write_fails staging (ms, f) d = (ms', f') ->
  exists extra, ms' = ms ++ extra /\ fetched [d] extra f f'.
Proof.
  intros Hn. unfold stage_download.
  assert (forall reason, exists extra, ms = ms ++ extra /\ fetched [d] extra f (report_missing d reason f)) as Hrep.
  { intros reason. exists []. split; [by rewrite app_nil_r|]. split; try done.
    - eexists. reflexivity.
    - intros d' ->%list_elem_of_singleton. right. exists reason. simpl. set_solver. }
  destruct (fetch d) as [bytes|reason] eqn:Ef; [|intros [= <- <-]; apply Hrep].
  destruct (write_fails _); [intros [= <- <-]; apply Hrep|].
  destruct (set_at _ _ _) as [t|] eqn:Es; [|intros [= <- <-]; apply Hrep].
  assert ([staging; padded 3 (staged_name f)] <> []) as Hne by done.
  intros [= <- <-]. eexists. split; [done|]. split; simpl.
  - lia.
  - exists []. by rewrite app_nil_r.
  - constructor; [|done]. exists (staged_name f), d, bytes. simpl. split_and!; [lia|lia|left|done|done|].
    unfold file_at, staged_at. by rewrite (set_at_hit _ _ _ _ Hne Es).
  - intros d' ->%list_elem_of_singleton. left. eexists. left.
  - intros q Hq. apply (set_at_miss _ _ _ _ q Hne Es). intros [r ->]. apply Hq. by eexists.
  - intros k Hk. apply (set_at_miss _ _ _ _ _ Hne Es).
    change (~ staged_at (staged_name f) `prefix_of` staged_at k). intros H%staged_at_inj; lia.
Qed.

Lemma image_move_mono n n' f f' ds ds' m :
  (n' <= n)%Z -> (0 <= n)%Z -> (staged_name f <= staged_name f')%Z -> (forall d, d ∈ ds -> d ∈ ds') ->
  (forall k, (0 <= k < staged_name f)%Z ->
     file_at (staging_tree f') (staged_at k) = file_at (staging_tree f) (staged_at k)) ->
  image_move n f ds m -> image_move n' f' ds' m.
Proof.
  intros Hn Hp Hle Hsub Hk (i & d & bytes & Hi & Hd & Hm & Hf & Hfile). exists i, d, bytes.
  split_and!; [lia|lia|auto|done|done|]. rewrite Hk; [done|lia].
Qed.

Lemma fetched_app ds1 ds2 e1 e2 f1 f2 f3 :
  (0 <= staged_name f1)%Z ->
  fetched ds1 e1 f1 f2 -> fetched ds2 e2 f2 f3 -> fetched (ds1 ++ ds2) (e1 ++ e2) f1 f3.
Proof.
  intros H0 [N1 M1 V1 E1 O1 B1] [N2 M2 V2 E2 O2 B2]. split.
  - rewrite length_app. lia.
  - destruct M1 as [l1 M1], M2 as [l2 M2]. exists (l1 ++ l2). by rewrite M2, M1, app_assoc.
  - apply Forall_app. split; [eapply Forall_impl; [exact V1|]|eapply Forall_impl; [exact V2|]]; intros m;
      apply image_move_mono; try lia; try done; set_solver.
  - intros d [Hd|Hd]%elem_of_app.
    + destruct (E1 d Hd) as [[src Hs]|[reason Hr]]; [left; exists src; set_solver|].
      right. exists reason. destruct M2 as [l2 ->]. set_solver.
    + destruct (E2 d Hd) as [[src Hs]|Hr]; [left; exists src; set_solver|by right].
  - intros q Hq. by rewrite O2, O1.
  - intros k Hk. rewrite B2, B1; [done|lia|lia].
Qed.

Lemma fetched_all ms f ds ms' f' :
  (0 <= staged_name f)%Z -> (staged_name f + Z.of_nat (length ds) <= u64_max)%Z ->
  foldl (stage_download fetch write_fails staging) (ms, f) ds = (ms', f') ->
  exists extra, ms' = ms ++ extra /\ fetched ds extra f f'.
Proof.
  revert ms f. induction ds as [|d ds IH]; intros ms f Hn Hb; cbn [foldl].
  { intros [= <- <-]. exists []. split; [by rewrite app_nil_r|apply fetched_nil]. }
  destruct (stage_download _ _ _ (ms, f) d) as [ms1 f1] eqn:E. cbn [length] in Hb.
  apply fetched_one in E as (e1 & -> & H1); [|lia]. pose proof (fetched_names _ _ _ _ H1) as N1. cbn [length] in N1.
  intros H. apply IH in H as (e2 & -> & H2); [|lia|lia]. exists (e1 ++ e2). split; [by rewrite app_assoc|].
  exact (fetched_app [d] ds _ _ _ _ _ Hn H1 H2).
Qed.
End fetched.

(** What staging makes of one output: its downloads are gone, and each is a move
    of the fetched bytes to its destination or is on the report. *)
Definition output_staged (fetch : PendingDownload -> result str str) (work : Node)
    (lines : list (str * str * str)) (o o' : PlannedOutput) : Prop :=
  downloads o' = [] /\ root_folder o' = root_folder o /\ generated_files o' = generated_files o /\
  exists extra, moves o' = moves o ++ extra /\
    Forall (fun m => exists d bytes source, d ∈ downloads o /\ m = (join §"/" source, dest_path d) /\
      fetch d = Ok bytes /\ file_at work source = Some bytes) extra /\
    forall d, d ∈ downloads o -> (exists src, (src, dest_path d) ∈ extra) \/
      exists reason, (download_url d, dest_path d, reason) ∈ lines.

Lemma image_move_file fetch staging n f ds m work :
  (0 <= n)%Z ->
  (forall k, (0 <= k < staged_name f)%Z -> file_at work (staged_at staging k) = file_at (staging_tree f) (staged_at staging k)) ->
  image_move fetch staging n f ds m ->
  exists d bytes source, d ∈ ds /\ m = (join §"/" source, dest_path d) /\
    fetch d = Ok bytes /\ file_at work source = Some bytes.
Proof.
  intros Hn Hw (i & d & bytes & Hi & Hd & -> & Hf & Hfile). exists d, bytes, (staged_at staging i).
  split_and!; [done| |done|]; [|rewrite Hw; [done|lia]]. done.
Qed.

Lemma stage_outputs_spec fetch write_fails staging os done f os' f' :
  (0 <= staged_name f)%Z ->
  (staged_name f + Z.of_nat (length (os ≫= downloads)) <= u64_max)%Z ->
  foldl (stage_output fetch write_fails staging) (done, f) os = (os', f') ->
  exists staged all, os' = done ++ staged /\ fetched fetch staging (os ≫= downloads) all f f' /\
    Forall2 (output_staged fetch (staging_tree f') (missing f')) os staged.
Proof.
  revert done f. induction os as [|o os IH]; intros done f Hn Hb; cbn [foldl mbind list_bind].
  { intros [= <- <-]. exists [], []. split; [by rewrite app_nil_r|]. split; [apply fetched_nil|constructor]. }
  change ((o :: os) ≫= downloads) with (downloads o ++ (os ≫= downloads)) in Hb. rewrite length_app in Hb.
  unfold stage_output at 2. cbn [fst snd].
  destruct (foldl (stage_download _ _ _) _ _) as [ms f1] eqn:E.
  apply fetched_all in E as (extra & -> & H1); [|lia|lia].
  pose proof (fetched_names _ _ _ _ _ _ H1) as N1.
  intros H. apply IH in H as (staged & all & -> & H2 & Hall); [|lia|lia].
  exists (set_moves (moves o ++ extra) o :: staged), (extra ++ all).
  split; [by rewrite <-app_assoc|]. split; [exact (fetched_app _ _ _ _ _ _ _ _ _ Hn H1 H2)|].
  constructor; [|done]. split_and!; [done..|]. exists extra. split; [done|]. split.
  - eapply Forall_impl; [exact (fetched_moves _ _ _ _ _ _ H1)|]. intros m. apply (image_move_file _ staging); [done|].
    intros k Hk. by apply (fetched_before _ _ _ _ _ _ H2).
  - intros d Hd. destruct (fetched_each _ _ _ _ _ _ H1 d Hd) as [|[reason Hr]]; [by left|]. right. exists reason.
    destruct (fetched_missing _ _ _ _ _ _ H2) as [lines ->]. set_solver.
Qed.

(** Every download a plan schedules arrives or is reported. The staged plan
    has no downloads left; each of its outputs has the moves it had, followed by
    moves whose sources are files of the work directory holding exactly the bytes
    fetched for the destination they go to, no two images staged over each other;
    a download with no such move is on the report; and nothing else of the work
    directory changes. *)
Theorem downloads_arrive_or_are_reported fetch write_fails staging plan work staged work' :
  (Z.of_nat (length (plan_outputs plan ≫= downloads)) <= u64_max)%Z ->
  node_at work [staging] = None ->
  stage_plan_downloads fetch write_fails (Some staging) plan work = Ok (staged, work') ->
  Forall2 (output_staged fetch work' (unfetched staged)) (plan_outputs plan) (plan_outputs (staged_plan staged)) /\
  skipped_outputs (staged_plan staged) = skipped_outputs plan /\
  forall q c, file_at work q = Some c -> file_at work' q = Some c.
Proof.
  intros Hb Hfresh. unfold stage_plan_downloads. destruct (forallb _ _) eqn:Eall.
  - intros [= <- <-]. split_and!; [|done|done]. simpl. apply Forall2_fmap_r.
    rewrite forallb_forall in Eall.
    apply Forall_Forall2_diag, Forall_forall. intros o Ho. apply list_elem_of_In, Eall, bool_decide_eq_true in Ho.
    apply nil_length_inv in Ho. split_and!; [done..|]. exists []. rewrite app_nil_r. split_and!; [done|done|].
    rewrite Ho. by intros d ?%elem_of_nil.
  - intros H. simplify_result. destruct (foldl _ _ _) as [os f] eqn:E. simplify_result.
    apply stage_outputs_spec in E as (st & all & -> & Hf & Hall); [|done|done]. simpl. split_and!; [done|done|].
    intros q c Hq.
    assert (~ [staging] `prefix_of` q) as Hn.
    { intros [k ->]. by rewrite file_at_app, Hfresh in Hq. }
    rewrite (fetched_outside _ _ _ _ _ _ Hf q Hn). simpl. assert ([staging] <> []) as Hne by done. by rewrite (set_at_miss _ _ _ _ q Hne Hr).
Qed.

Module DownloadsExample.

Definition image (url dest : str) : PendingDownload :=
  {| download_product_id := None; download_url := url; dest_path := dest; cache_key := url; cached := false |}.

Definition with_images (root : str) (ds : list PendingDownload) : PlannedOutput :=
  {| root_folder := root; root_folder_template := root; moves := [(root, root)]; generated_files := [];
     downloads := ds; resolved_variables := ∅; reasoning := [] |}.

Definition plan : OrganizationPlan :=
  {| plan_rule_name := §"rule"; skipped_outputs := [];
     plan_outputs := [with_images §"Red" [image §"u1" §"Red/1.jpg"; image §"u2" §"Red/2.jpg"];
                      with_images §"Blue" [image §"u3" §"Blue/1.jpg"]] |}.

(** Two of the three arrive. *)
Definition transport (d : PendingDownload) : result str str :=
  if str_eqb (download_url d) §"u2" then Err §"404" else Ok (download_url d ++ §" bytes").

Definition work : Node := Directory 493 [(§"Red", Directory 493 [(§"a", RegularFile §"x")])].

Lemma downloads_arrive_or_are_reported_witness :
  match stage_plan_downloads transport (fun _ => None) (Some §".d") plan work with
  | Ok (staged, work') =>
      unfetched staged = [(§"u2", §"Red/2.jpg", §"404")] /\
      map moves (plan_outputs (staged_plan staged)) =
        [[(§"Red", §"Red"); (§".d/000", §"Red/1.jpg")]; [(§"Blue", §"Blue"); (§".d/002", §"Blue/1.jpg")]] /\
      file_at work' [§".d"; §"002"] = Some §"u3 bytes" /\
      file_at work' [§"Red"; §"a"] = Some §"x"
  | Err _ => False
  end.
Proof.
  destruct (stage_plan_downloads transport (fun _ => None) (Some §".d") plan work) as [[staged work']|] eqn:E;
    [|vm_compute in E; discriminate E].
  pose proof E as E'. vm_compute in E'. injection E' as E1 E2.
  split; [rewrite <-E1; reflexivity|]. split; [rewrite <-E1; reflexivity|]. split; [rewrite <-E2; reflexivity|].
  apply (downloads_arrive_or_are_reported transport (fun _ => None) §".d" plan work staged work');
    [vm_compute; discriminate|reflexivity|exact E|reflexivity].
Defined.

(** An address of the machine in either spelling is refused, a public one is
    not. *)
Example addresses_judged :
  map is_off_public_internet
    [V4 (v4 127 0 0 1); V4 (v4 172 31 255 1); V4 (v4 172 32 0 1); V6 [0; 0; 0; 0; 0; 65535; 32512; 1]%Z;
     V6 [65152; 0; 0; 0; 0; 0; 0; 1]%Z; V4 (v4 1 1 1 1)] = [true; true; false; true; true; false].
Proof. reflexivity. Qed.

End DownloadsExample.
