(* ===== verification/PipelineRuns.v ===== *)
(** The table of pipeline runs ([crates/db/src/pipeline_runs.rs]): what the
    executor looks up before it runs and records after, the sweep of interrupted
    runs at startup, and the runs a frontend is told about. *)

From stdpp Require Import base tactics option list strings.
From Stdlib Require Import ZArith Lia Ascii.
From S2P Require Import Prelude Text.
Local Open Scope arclain_scope.

(** The strings of the column [status]. *)
Inductive RunStatus := InProgress | RunCompleted | RunFailed.

#[export] Instance RunStatus_eq_dec : EqDecision RunStatus.
Proof. solve_decision. Defined.

Record DbPipelineRun := mk_run {
  run_id : Z;
  input_path : str;
  input_blake3 : str;
  input_size : Z;
  run_pipeline_hash : str;
  output_path : option str;
  output_kind : option str;
  run_status : RunStatus;
  started_at : Z;
  completed_at : option Z;
  run_error : option str;
  arclain_version : str
}.

Record NewPipelineRun := mk_new_run {
  new_input_path : str;
  new_input_blake3 : str;
  new_input_size : Z;
  new_pipeline_hash : str;
  new_version : str
}.

Definition interrupted_marker : str := §"interrupted".

(** The rows in the order of their ids. *)
Notation Runs := (list DbPipelineRun).

(** The id [INTEGER PRIMARY KEY] gives to the next row. *)
Definition next_id (runs : Runs) : Z := 1 + foldr (fun r m => Z.max (run_id r) m) 0%Z runs.

Definition begin_pipeline_run (now : Z) (new : NewPipelineRun) (runs : Runs) : Z * Runs :=
  let id := next_id runs in
  (id, runs ++ [mk_run id (new_input_path new) (new_input_blake3 new) (new_input_size new)
                  (new_pipeline_hash new) None None InProgress now None None (new_version new)]).

Definition update_run (id : Z) (f : DbPipelineRun -> DbPipelineRun) (runs : Runs) : Runs :=
  map (fun r => if (run_id r =? id)%Z then f r else r) runs.

Definition mark_run_completed (now id : Z) (out kind : str) (runs : Runs) : Runs :=
  update_run id (fun r =>
    mk_run (run_id r) (input_path r) (input_blake3 r) (input_size r) (run_pipeline_hash r)
      (Some out) (Some kind) RunCompleted (started_at r) (Some now) None (arclain_version r)) runs.

(** Where a run is marked failed the other columns stay. *)
Definition failed_with (now : Z) (error : str) (r : DbPipelineRun) : DbPipelineRun :=
  mk_run (run_id r) (input_path r) (input_blake3 r) (input_size r) (run_pipeline_hash r)
    (output_path r) (output_kind r) RunFailed (started_at r) (Some now) (Some error) (arclain_version r).

Definition mark_run_failed (now id : Z) (error : str) (runs : Runs) : Runs :=
  update_run id (failed_with now error) runs.

(** [ORDER BY completed_at DESC]; [NULL] is last. Rows that tie are in the order
    of their ids, which the query leaves open. *)
Definition later (a b : DbPipelineRun) : Prop :=
  match completed_at a, completed_at b with
  | Some x, Some y => (y <= x)%Z
  | Some _, None => True
  | None, Some _ => False
  | None, None => True
  end.

#[export] Instance later_dec : RelDecision later.
Proof. intros a b. unfold later. destruct (completed_at a), (completed_at b); apply _. Defined.

#[export] Instance later_total : Total later.
Proof. intros a b. unfold later. destruct (completed_at a), (completed_at b); auto. lia. Qed.

#[export] Instance later_trans : Transitive later.
Proof.
  intros a b c. unfold later. destruct (completed_at a), (completed_at b), (completed_at c); try done. lia.
Qed.

Definition is_completed_run (blake3 hash : str) (r : DbPipelineRun) : bool :=
  str_eqb (input_blake3 r) blake3 && str_eqb (run_pipeline_hash r) hash
  && bool_decide (run_status r = RunCompleted).

Definition find_completed_run (blake3 hash : str) (runs : Runs) : option DbPipelineRun :=
  head (stable_sort later (List.filter (is_completed_run blake3 hash) runs)).

Definition is_stale (cutoff : Z) (r : DbPipelineRun) : bool :=
  bool_decide (run_status r = InProgress) && (started_at r <? cutoff)%Z.

(** The number of rows flipped, and the rows. *)
Definition flag_stale_in_progress (now threshold : Z) (runs : Runs) : nat * Runs :=
  let cutoff := (now - threshold)%Z in
  (count_if (is_stale cutoff) runs,
   map (fun r => if is_stale cutoff r then failed_with now interrupted_marker r else r) runs).

Definition list_interrupted_since (since : Z) (runs : Runs) : Runs :=
  stable_sort later (List.filter (fun r =>
    bool_decide (run_error r = Some interrupted_marker) &&
    match completed_at r with Some t => (since <=? t)%Z | None => false end) runs).

(** * Facts *)

Lemma next_id_fresh runs r : r ∈ runs -> (run_id r < next_id runs)%Z.
Proof.
  unfold next_id. intros Hr.
  cut (run_id r <= foldr (fun r m => Z.max (run_id r) m) 0 runs)%Z; [lia|].
  induction runs as [|x runs IH]; [by apply elem_of_nil in Hr|]. simpl.
  apply elem_of_cons in Hr as [->|Hr]; [lia|]. specialize (IH Hr). lia.
Qed.

Lemma update_run_other id f runs : (forall r, r ∈ runs -> run_id r <> id) -> update_run id f runs = runs.
Proof.
  intros H. unfold update_run. induction runs as [|x runs IH]; [done|]. simpl.
  destruct (Z.eqb_spec (run_id x) id) as [E|]; [by destruct (H x ltac:(left))|].
  f_equal. apply IH. intros r Hr. apply H. by right.
Qed.

(** Ids are unique and stay so. *)
Definition runs_ok (runs : Runs) : Prop := NoDup (map run_id runs).

Lemma begin_ok now new runs : runs_ok runs -> runs_ok (begin_pipeline_run now new runs).2.
Proof.
  unfold runs_ok. intros H. simpl. rewrite map_app. apply NoDup_app. split_and!; [done| |apply NoDup_singleton].
  intros id Hid%list_elem_of_fmap. destruct Hid as (r & -> & Hr).
  apply next_id_fresh in Hr. cbn [map run_id]. intros Hid%list_elem_of_singleton. lia.
Qed.

Lemma update_ok id f runs : (forall r, run_id (f r) = run_id r) -> runs_ok runs -> runs_ok (update_run id f runs).
Proof.
  unfold runs_ok, update_run. intros Hf. rewrite map_map.
  rewrite (map_ext (fun x => run_id (if (run_id x =? id)%Z then f x else x)) run_id); [done|].
  intros r. by destruct (run_id r =? id)%Z.
Qed.

(** The row a run leaves is the one a later run of the same work finds: the
    round trip of [begin], [complete] and [find]. *)
Lemma completed_run_is_found started now new out kind runs :
  (forall r t, r ∈ runs -> is_completed_run (new_input_blake3 new) (new_pipeline_hash new) r = true ->
     completed_at r = Some t -> (t < now)%Z) ->
  let '(id, runs') := begin_pipeline_run started new runs in
  exists r, find_completed_run (new_input_blake3 new) (new_pipeline_hash new)
              (mark_run_completed now id out kind runs') = Some r /\
    output_path r = Some out /\ output_kind r = Some kind /\ run_error r = None.
Proof.
  intros Hold. simpl. unfold mark_run_completed.
  set (id := next_id runs). unfold update_run. rewrite map_app.
  set (f := fun r => mk_run (run_id r) (input_path r) (input_blake3 r) (input_size r) (run_pipeline_hash r)
    (Some out) (Some kind) RunCompleted (started_at r) (Some now) None (arclain_version r)).
  change (map _ runs) with (update_run id f runs). rewrite update_run_other by (intros r Hr%next_id_fresh; subst id; lia).
  cbn [map run_id]. rewrite Z.eqb_refl. unfold find_completed_run. rewrite List.filter_app. cbn [List.filter].
  match goal with |- context [if is_completed_run _ _ ?x then _ else _] => set (mine := x) end.
  assert (is_completed_run (new_input_blake3 new) (new_pipeline_hash new) mine = true) as ->
    by (unfold is_completed_run; simpl; by rewrite !str_eqb_refl).
  set (others := List.filter _ runs).
  assert (Forall (fun r => ~ later r mine) others) as Hlate.
  { apply Forall_forall. intros r Hr. apply list_elem_of_In, filter_In in Hr as [Hr Hc].
    apply list_elem_of_In in Hr. unfold later. simpl.
    destruct (completed_at r) as [t|] eqn:Et; [|intros []]. specialize (Hold r t Hr Hc Et). lia. }
  exists mine. split; [|done]. clearbody mine others. clear -Hlate.
  induction others as [|r others IH]; [done|]. apply Forall_cons in Hlate as [Hr Hlate].
  specialize (IH Hlate). cbn [app]. unfold stable_sort in *. cbn [foldr].
  destruct (foldr (insert_sorted later) [] (others ++ [mine])) as [|y l]; [done|].
  simpl in IH. injection IH as ->. cbn [insert_sorted]. by destruct (decide (later r mine)).
Qed.

(** The sweep touches runs in progress only, and after it none of them is older
    than the threshold. *)
Lemma sweep_leaves_no_stale now threshold runs r :
  r ∈ (flag_stale_in_progress now threshold runs).2 ->
  run_status r = InProgress -> (now - threshold <= started_at r)%Z /\ r ∈ runs.
Proof.
  simpl. intros (x & -> & Hx)%list_elem_of_fmap. destruct (is_stale _ x) eqn:E; [done|].
  intros Hs. split; [|done]. unfold is_stale in E. rewrite Hs in E. simpl in E. lia.
Qed.
