(* ===== verification/Pipeline.v ===== *)
(** Pipelines ([crates/core/src/features/pipeline/types.rs], with the formats of
    [conversion/mod.rs]): the steps, where a run's output goes and what it is
    called, the hash that identifies a configuration; the preview of a run
    ([preview.rs]) and the progress of hashing an input ([hashing.rs]). *)

From stdpp Require Import base tactics option list sorting strings gmap sets.
From Stdlib Require Import ZArith Lia Ascii.
From S2P Require Import Prelude Text RustPath RelPath Archive Layout TitleFilter Settings OutputTransaction FsTree Flatten.
Local Open Scope arclain_scope.

Inductive ConvertFormat := Zip | SevenZ.

#[export] Instance ConvertFormat_eq_dec : EqDecision ConvertFormat.
Proof. solve_decision. Defined.

Inductive CompressionLevel := FastLevel | NormalLevel | MaxLevel.

#[export] Instance CompressionLevel_eq_dec : EqDecision CompressionLevel.
Proof. solve_decision. Defined.

Definition format_extension (f : ConvertFormat) : str := match f with Zip => §"zip" | SevenZ => §"7z" end.

Inductive PipelineStep :=
| FlattenStep (strip_common_prefix : bool) (max_depth : Z)
| OrganizeStep (rule_id : Z)
| ConvertStep (format : ConvertFormat) (compression : CompressionLevel) (password : option str).

#[export] Instance PipelineStep_eq_dec : EqDecision PipelineStep.
Proof. solve_decision. Defined.

Definition step_display_name (s : PipelineStep) : str :=
  match s with
  | FlattenStep _ _ => §"Flatten nested archives"
  | OrganizeStep _ => §"Apply organization rule"
  | ConvertStep _ _ _ => §"Convert format"
  end.

Inductive PipelineInput := Files (paths : list str) | FolderInput (p : str).

Inductive PipelineOutput := SameFolder | NewFolder (folder : str).

#[export] Instance PipelineOutput_eq_dec : EqDecision PipelineOutput.
Proof. solve_decision. Defined.

#[export] Instance OutputCollisionPolicy_eq_dec : EqDecision OutputCollisionPolicy.
Proof. solve_decision. Defined.

Record Pipeline := mk_pipeline {
  pipeline_input : option PipelineInput;
  steps : list PipelineStep;
  pipeline_output : PipelineOutput;
  collision_policy : option OutputCollisionPolicy;
  output_artifact : OutputArtifact
}.

Definition effective_collision_policy (p : Pipeline) (app_default : OutputCollisionPolicy) : OutputCollisionPolicy :=
  default app_default (collision_policy p).

Definition policy_display_name (p : OutputCollisionPolicy) : str :=
  match p with
  | PolicyFail => §"Fail on existing"
  | PolicySkip => §"Skip if exists"
  | PolicyOverwrite => §"Overwrite"
  | PolicySmart => §"Smart (dedup / prompt)"
  end.

(** ** The name of an output *)

(** [Path::file_stem]: the file name up to its last dot, unless that dot opens
    it. *)
Definition file_stem (p : str) : option str :=
  match file_name p with
  | None => None
  | Some f =>
      match rfind_char (fun c => ascii_eqb c "."%char) f with
      | None | Some 0 => Some f
      | Some i => Some (take i f)
      end
  end.

Section naming.
Context {UT : UnicodeTables}.

(** The configured title filter, and the detection of product codes in names,
    which finds nothing where the feature is not compiled in. *)
Context (cfg : TitleFilterConfig) (detect_code : str -> option str).

(** The title, made a file name; [None] when the filter panics. *)
Definition title_stem (metadata : option GameMetadata) : option (option str) :=
  match metadata with
  | Some meta =>
      let t := trim (title meta) in
      if str_eqb t [] then Some None
      else
        match sanitize_title_with_config t cfg with
        | None => None
        | Some sanitized => Some (plain_file_component sanitized)
        end
  | None => Some None
  end.

Definition stem_from (input : str) (metadata : option GameMetadata) : option str :=
  match title_stem metadata with
  | None => None
  | Some (Some safe) => Some safe
  | Some None =>
      match (file_name input ≫= detect_code) ≫= plain_file_component with
      | Some safe => Some safe
      | None => Some (default [] (file_stem input))
      end
  end.

Definition output_folder (o : PipelineOutput) (input : str) : str :=
  match o with SameFolder => default [] (parent input) | NewFolder folder => folder end.

Definition resolve_with_metadata (o : PipelineOutput) (input ext : str) (metadata : option GameMetadata)
  : option str :=
  (fun stem => path_join (output_folder o input) (stem ++ §"." ++ ext)) <$> stem_from input metadata.

Definition resolve_folder_with_metadata (o : PipelineOutput) (input : str) (metadata : option GameMetadata)
  : option str :=
  (fun stem => path_join (output_folder o input) stem) <$> stem_from input metadata.

(** ** The format of the output *)

(** [last_convert_format], which looks from the end. *)
Fixpoint first_convert (steps : list PipelineStep) : option ConvertFormat :=
  match steps with
  | [] => None
  | ConvertStep f _ _ :: _ => Some f
  | _ :: rest => first_convert rest
  end.

Definition last_convert_format (steps : list PipelineStep) : option ConvertFormat := first_convert (rev steps).

(** The path a run of the pipeline is going to write. *)
Definition predicted_output (p : Pipeline) (input : str) (metadata : option GameMetadata) : option str :=
  match output_artifact p with
  | OutputTransaction.Archive =>
      resolve_with_metadata (pipeline_output p) input
        (format_extension (default Zip (last_convert_format (steps p)))) metadata
  | OutputTransaction.Folder => resolve_folder_with_metadata (pipeline_output p) input metadata
  end.

(** [predicted_output_static] of one step. *)
Definition predicted_output_static (s : PipelineStep) (input : str) (o : PipelineOutput) : option (option str) :=
  match s with
  | ConvertStep f _ _ => Some (resolve_with_metadata o input (format_extension f) None)
  | _ => None
  end.

(** ** The preview *)

Record PreviewEntry := mk_entry {
  preview_input : str;
  operations : list str;
  expected_output : option str;
  entry_warnings : list str
}.

Record PipelinePreview := mk_preview { entries : list PreviewEntry; global_warnings : list str }.

(** What the filesystem answers: a directory's listing, and whether a path is
    there. *)
Context (list_dir : str -> option Node) (exists_path : str -> bool).

(** [find_archive_files] of a folder, as paths. *)
Definition archives_in (folder : str) : option (list str) :=
  match list_dir folder with
  | Some n => map (path_join folder) <$> find_archive_files true n
  | None => None
  end.

Definition describe_step (s : PipelineStep) : str :=
  match s with
  | FlattenStep strip depth =>
      let base := if strip then §"Flatten nested archives (strip common prefix)" else §"Flatten nested archives" in
      if (depth =? 0)%Z then base ++ §" (recursive)"
      else if (depth =? 1)%Z then base
      else base ++ §" (up to " ++ decimal (Z.to_N depth) ++ §" passes)"
  | OrganizeStep rule_id =>
      §"Apply organization rule #" ++ (if (rule_id <? 0)%Z then §"-" else []) ++ decimal (Z.to_N (Z.abs rule_id))
  | ConvertStep f _ _ => §"Convert to ." ++ format_extension f
  end.

(** The [final_format] the loops over the steps end with. *)
Definition final_format (steps : list PipelineStep) : option ConvertFormat :=
  foldl (fun found s => match s with ConvertStep f _ _ => Some f | _ => found end) None steps.

Definition collision_outcome (policy : OutputCollisionPolicy) : str :=
  match policy with
  | PolicySkip => §"will be skipped"
  | PolicyOverwrite => §"will be overwritten"
  | PolicyFail | PolicySmart => §"will fail this file (change policy to Overwrite or Skip)"
  end.

Definition preview_output (p : Pipeline) (input : str) (metadata : option GameMetadata) : option (option str) :=
  match output_artifact p with
  | OutputTransaction.Archive =>
      match final_format (steps p) with
      | Some f => Some <$> resolve_with_metadata (pipeline_output p) input (format_extension f) metadata
      | None => Some None
      end
  | OutputTransaction.Folder => Some <$> resolve_folder_with_metadata (pipeline_output p) input metadata
  end.

(** One input; [None] when naming its output panics. *)
Definition preview_entry (p : Pipeline) (metadata : option GameMetadata) (input : str) : option PreviewEntry :=
  match preview_output p input metadata with
  | None => None
  | Some out =>
      let warnings :=
        match out with
        | Some o =>
            if exists_path o && negb (path_eqb o input) then
              [§"Output already exists — "
               ++ collision_outcome (effective_collision_policy p PolicySmart) ++ §": " ++ o]
            else []
        | None => []
        end in
      Some (mk_entry input (map describe_step (steps p)) out warnings)
  end.

Definition preview_inputs (p : Pipeline) : list str + list str :=
  match pipeline_input p with
  | None => inr []
  | Some (Files v) => inl v
  | Some (FolderInput f) =>
      match archives_in f with
      | Some [] => inr [§"No archives found in " ++ debug_str f]
      | Some v => inl v
      | None => inr [§"Scan failed: Reading " ++ debug_str f]
      end
  end.

Definition preview_pipeline_with_metadata (p : Pipeline) (metadata : option GameMetadata)
  : option PipelinePreview :=
  match preview_inputs p with
  | inr warnings => Some (mk_preview [] warnings)
  | inl inputs =>
      (fun es => mk_preview es (match steps p with [] => [§"No operations added"] | _ => [] end))
        <$> mapM (preview_entry p metadata) inputs
  end.

(** ** Facts *)

Lemma first_convert_app a b :
  first_convert (a ++ b) = match first_convert a with Some f => Some f | None => first_convert b end.
Proof. induction a as [|[| |] a IH]; simpl; auto. Qed.

(** Looking from the end and keeping the last one seen agree. *)
Lemma last_convert_is_final steps : last_convert_format steps = final_format steps.
Proof.
  unfold last_convert_format, final_format.
  induction steps as [|s steps IH] using rev_ind; [done|].
  rewrite rev_app_distr, foldl_app. simpl. destruct s; done.
Qed.

(** Where the preview names an output, it is the one the executor predicts. *)
Lemma preview_names_the_output p input metadata out :
  preview_output p input metadata = Some (Some out) -> predicted_output p input metadata = Some out.
Proof.
  unfold preview_output, predicted_output. rewrite last_convert_is_final. destruct (output_artifact p).
  - destruct (final_format (steps p)); [|done]. simpl. destruct (resolve_with_metadata _ _ _ _); by intros [= ->].
  - destruct (resolve_folder_with_metadata _ _ _); by intros [= ->].
Qed.
End naming.

(** ** The progress of a hash *)

(** The percentages reported after each chunk, when they change. *)
Fixpoint hash_progress (size read : Z) (last_percent : Z) (chunks : list Z) : list Z :=
  match chunks with
  | [] => []
  | n :: rest =>
      let read := (read + n)%Z in
      if (0 <? size)%Z then
        let percent := Z.min (read * 100 / size) 100 in
        if (percent =? last_percent)%Z then hash_progress size read last_percent rest
        else percent :: hash_progress size read percent rest
      else hash_progress size read last_percent rest
  end.

(** All that [hash_file_blake3_with_progress] reports. *)
Definition hash_reports (size : Z) (chunks : list Z) : list Z := [0%Z] ++ hash_progress size 0 0 chunks ++ [100%Z].

Lemma hash_progress_bounds size read last chunks :
  (0 <= read)%Z -> (0 <= last <= 100)%Z -> (last <= Z.min (read * 100 / size) 100)%Z \/ (size <= 0)%Z ->
  Forall (fun n => 0 <= n)%Z chunks ->
  Sorted.StronglySorted Z.lt (last :: hash_progress size read last chunks) /\
  Forall (fun p => p <= 100)%Z (hash_progress size read last chunks).
Proof.
  revert read last. induction chunks as [|n chunks IH]; intros read last Hr Hl Hp Hall;
    [split; [repeat constructor|constructor]|].
  apply Forall_cons in Hall as [Hn Hall]. simpl. destruct (Z.ltb_spec 0 size) as [Hs|Hs].
  - assert (read * 100 / size <= (read + n) * 100 / size)%Z as Hmono by (apply Z.div_le_mono; lia).
    destruct (Z.eqb_spec (Z.min ((read + n) * 100 / size) 100) last) as [E|E].
    + apply IH; [lia|lia|left; lia|done].
    + destruct (IH (read + n)%Z (Z.min ((read + n) * 100 / size) 100)) as [H1 H2]; [lia|lia|left; lia|done|].
      split; [|constructor; [lia|done]]. constructor; [done|]. inversion H1 as [|? ? _ Hfor]; subst.
      constructor; [lia|]. eapply Forall_impl; [exact Hfor|]. intros x. simpl. lia.
  - apply IH; [lia|lia|by right|done].
Qed.

(** The reports of a hash never go back and stay within a hundred. *)
Lemma hash_reports_monotone size chunks :
  (0 <= size)%Z -> Forall (fun n => 0 <= n)%Z chunks -> Sorted.StronglySorted Z.le (hash_reports size chunks).
Proof.
  intros Hs Hall. destruct (hash_progress_bounds size 0 0 chunks) as [H1 H2]; [lia|lia| |done|].
  { destruct (Z.eq_dec size 0); [by right; lia|left]. rewrite Z.mul_0_l, Z.div_0_l by lia. lia. }
  unfold hash_reports. rewrite app_assoc. apply StronglySorted_app_2; [| |repeat constructor].
  - intros x y Hx ->%list_elem_of_singleton. apply elem_of_app in Hx as [->%list_elem_of_singleton|Hx]; [lia|].
    rewrite Forall_forall in H2. by apply H2.
  - change ([0%Z] ++ ?l) with (0%Z :: l). clear -H1. induction H1 as [|x l Hl IH Hx]; constructor; [done|].
    eapply Forall_impl; [exact Hx|]. simpl. lia.
Qed.
