(* ===== verification/WorkDirs.v ===== *)
(** The work directories of runs that are under way together
    ([run_one_inner] and [WorkDirGuard] of
    [crates/core/src/features/pipeline/executor.rs], called by
    [run_pipeline_over_inputs] of [crates/app/src/runtime/processing_ops.rs] with one
    temporary root for every operation of the process). The runs' calls interleave;
    each makes its directory, unpacks into it, works on it, packs it and removes it. *)

From stdpp Require Import base tactics option list strings gmap sets.
From Stdlib Require Import ZArith Lia Ascii.
From S2P Require Import Prelude Text RustPath OutputTransaction FsTree.
Local Open Scope arclain_scope.

(** How far a run has come, with what it packed. *)
Inductive WorkPhase :=
| Waiting
| DirMade
| Unpacked
| Processed
| Packed (artifact : Node)
| Removed (artifact : Node).

Record Shared := mk_shared {
  temp_root : gmap str Node;
  phases : gmap nat WorkPhase
}.

(** The name of a run's work directory. *)
Definition work_name (pid : N) (input : str) : str :=
  §"arclain_pipeline_" ++ decimal pid ++ §"_" ++ default §"x" (file_name input).

Section work_dirs.
(** The process, the input of a run, what its archive holds and what its steps
    make of a tree. *)
Context (pid : N) (input_of : nat -> str) (holds : nat -> list (str * Node)) (steps_of : nat -> Node -> Node).

Definition dir_of (run : nat) : str := work_name pid (input_of run).

(** Unpacking adds to what is there, over what has the same name. *)
Definition unpack_into (entries : list (str * Node)) (n : Node) : Node :=
  match n with
  | Directory m es => Directory m (foldl (fun es e => insert_entry e.1 e.2 es) es entries)
  | _ => n
  end.

Definition set_phase (run : nat) (p : WorkPhase) (s : Shared) : Shared :=
  mk_shared (temp_root s) (<[run := p]> (phases s)).

Definition set_temp (run : nat) (n : option Node) (s : Shared) : Shared :=
  mk_shared (partial_alter (fun _ => n) (dir_of run) (temp_root s)) (phases s).

(** The next call of a run. [create_dir_all] is content with a directory that is
    there. *)
Definition run_call (run : nat) (s : Shared) : option Shared :=
  match phases s !! run with
  | Some Waiting =>
      Some (set_phase run DirMade
        (match temp_root s !! dir_of run with
         | Some _ => s
         | None => set_temp run (Some (Directory new_dir_mode [])) s
         end))
  | Some DirMade =>
      n ← temp_root s !! dir_of run;
      Some (set_phase run Unpacked (set_temp run (Some (unpack_into (holds run) n)) s))
  | Some Unpacked =>
      n ← temp_root s !! dir_of run;
      Some (set_phase run Processed (set_temp run (Some (steps_of run n)) s))
  | Some Processed =>
      n ← temp_root s !! dir_of run;
      Some (set_phase run (Packed n) s)
  | Some (Packed artifact) => Some (set_phase run (Removed artifact) (set_temp run None s))
  | Some (Removed _) | None => None
  end.

(** Any interleaving of the runs' calls. *)
Fixpoint run_calls (schedule : list nat) (s : Shared) : option Shared :=
  match schedule with
  | [] => Some s
  | run :: rest => s' ← run_call run s; run_calls rest s'
  end.

(** A run's own result: its archive unpacked alone, and its steps. *)
Definition alone (run : nat) : Node := steps_of run (unpack_into (holds run) (Directory new_dir_mode [])).

(** What is in a run's directory when no other run has the same one. *)
Definition isolated (s : Shared) (run : nat) : Prop :=
  match phases s !! run with
  | Some Waiting => temp_root s !! dir_of run = None
  | Some DirMade => temp_root s !! dir_of run = Some (Directory new_dir_mode [])
  | Some Unpacked => temp_root s !! dir_of run = Some (unpack_into (holds run) (Directory new_dir_mode []))
  | Some Processed => temp_root s !! dir_of run = Some (alone run)
  | Some (Packed artifact) => temp_root s !! dir_of run = Some (alone run) /\ artifact = alone run
  | Some (Removed artifact) => temp_root s !! dir_of run = None /\ artifact = alone run
  | None => True
  end.

Definition distinct (s : Shared) : Prop :=
  forall a b, is_Some (phases s !! a) -> is_Some (phases s !! b) -> dir_of a = dir_of b -> a = b.

Lemma run_call_phases run s s' n :
  run_call run s = Some s' -> is_Some (phases s' !! n) <-> is_Some (phases s !! n).
Proof.
  unfold run_call. intros H.
  assert (is_Some (phases s !! run) /\ exists p, phases s' = <[run := p]> (phases s)) as [Hrun [p ->]].
  { destruct (phases s !! run) as [[]|]; [..|done]; split; eauto; simplify_option_eq; simpl; eauto.
    destruct (temp_root s !! dir_of run); simpl; eauto. }
  destruct (decide (run = n)) as [->|Hne]; [rewrite lookup_insert_eq; by split; eauto|by rewrite lookup_insert_ne].
Qed.

Lemma run_call_other run s s' n :
  distinct s -> is_Some (phases s !! n) -> n <> run -> run_call run s = Some s' ->
  temp_root s' !! dir_of n = temp_root s !! dir_of n /\ phases s' !! n = phases s !! n.
Proof.
  intros Hd Hn Hne. unfold run_call. destruct (phases s !! run) as [p|] eqn:E; [|done].
  assert (dir_of run <> dir_of n) as Hdir by (intros Hx; apply Hne; symmetry; by apply Hd; rewrite ?E; eauto).
  intros H. destruct p; simplify_option_eq; simpl; rewrite ?lookup_insert_ne, ?lookup_partial_alter_ne by done; try done.
  destruct (temp_root s !! dir_of run); simpl; rewrite ?lookup_insert_ne, ?lookup_partial_alter_ne by done; done.
Qed.

Lemma run_call_self run s s' :
  is_Some (phases s !! run) -> isolated s run -> run_call run s = Some s' -> isolated s' run.
Proof.
  intros _. unfold isolated, run_call. destruct (phases s !! run) as [[]|] eqn:E; [..|done].
  - intros ->. intros [= <-]. simpl. by rewrite lookup_insert_eq, lookup_partial_alter_eq.
  - intros ->. intros [= <-]. simpl. by rewrite lookup_insert_eq, lookup_partial_alter_eq.
  - intros ->. intros [= <-]. simpl. by rewrite lookup_insert_eq, lookup_partial_alter_eq.
  - intros H. rewrite H. intros [= <-]. simpl. by rewrite lookup_insert_eq.
  - intros [_ ->]. intros [= <-]. simpl. by rewrite lookup_insert_eq, lookup_partial_alter_eq.
  - done.
Qed.

Lemma run_calls_isolated schedule s s' :
  distinct s -> (forall n, isolated s n) -> run_calls schedule s = Some s' -> forall n, isolated s' n.
Proof.
  revert s. induction schedule as [|run schedule IH]; intros s Hd Hi; simpl; [by intros [= <-]|].
  destruct (run_call run s) as [s1|] eqn:E; [|done]. simpl. apply IH.
  - intros a b Ha Hb. rewrite (run_call_phases run s s1) in Ha, Hb by done. by apply Hd.
  - intros n. destruct (phases s !! n) as [p|] eqn:En.
    + destruct (decide (n = run)) as [->|Hne]; [by eapply run_call_self; eauto|].
      destruct (run_call_other run s s1 n Hd ltac:(by rewrite En) Hne E) as [Ht Hp].
      specialize (Hi n). unfold isolated in *. by rewrite Ht, Hp.
    + unfold isolated. destruct (phases s1 !! n) eqn:E1; [|done].
      assert (is_Some (phases s !! n)) as [? Hx] by (rewrite <-(run_call_phases run s s1 n E), E1; eauto). congruence.
Qed.
End work_dirs.

(** Runs that have not begun, with no directory of theirs left over. *)
Definition all_waiting (count : nat) (temp : gmap str Node) : Shared :=
  mk_shared temp (list_to_map (map (fun n => (n, Waiting)) (seq 0 count))).

Lemma all_waiting_phase count temp n :
  phases (all_waiting count temp) !! n = if decide (n < count)%nat then Some Waiting else None.
Proof.
  unfold all_waiting. simpl. case_decide as H.
  - apply elem_of_list_to_map_1.
    + rewrite map_map. simpl. rewrite map_id. apply NoDup_seq.
    + apply list_elem_of_fmap. exists n. split; [done|]. apply elem_of_seq. lia.
  - apply not_elem_of_list_to_map_1. rewrite <-list_fmap_compose.
    intros (x & -> & Hx)%list_elem_of_fmap. apply elem_of_seq in Hx. simpl in H. lia.
Qed.

(** Runs whose inputs have different file names do not disturb each other.
    Whatever way the calls of any number of them interleave over one temporary
    root, what each packs is its own archive unpacked into an empty directory and
    worked on by its own steps. *)
Theorem runs_are_isolated pid input_of holds steps_of count temp schedule s' run artifact :
  (forall a b, (a < count)%nat -> (b < count)%nat -> work_name pid (input_of a) = work_name pid (input_of b) -> a = b) ->
  (forall a, (a < count)%nat -> temp !! work_name pid (input_of a) = None) ->
  run_calls pid input_of holds steps_of schedule (all_waiting count temp) = Some s' ->
  phases s' !! run = Some (Packed artifact) \/ phases s' !! run = Some (Removed artifact) ->
  artifact = alone holds steps_of run.
Proof.
  intros Hdist Hfree H Hp.
  apply (run_calls_isolated _ _ _ _ _ _ _) with (n := run) in H.
  - unfold isolated in H. by destruct Hp as [Hp|Hp]; rewrite Hp in H; destruct H.
  - intros a b. rewrite !all_waiting_phase. repeat case_decide; intros [] []; try done. by apply Hdist.
  - intros n. unfold isolated. rewrite all_waiting_phase. case_decide; [|done]. by apply Hfree.
Qed.

Module WorkDirsExample.

Definition archives (n : nat) : list (str * Node) :=
  match n with
  | 0%nat => [(§"red.txt", RegularFile §"red")]
  | _ => [(§"blue.txt", RegularFile §"blue")]
  end.

Definition names (n : nat) : str := match n with 0%nat => §"/a/red.zip" | _ => §"/b/blue.zip" end.

(** Two runs, interleaved. *)
Definition mixed : list nat := [0; 1; 0; 1; 0; 0; 1; 0; 1]%nat.

Lemma runs_are_isolated_witness :
  match run_calls 7 names archives (fun _ n => n) mixed (all_waiting 2 ∅) with
  | Some s => phases s !! 1%nat = Some (Packed (Directory 493 [(§"blue.txt", RegularFile §"blue")])) /\
      Directory 493 [(§"blue.txt", RegularFile §"blue")] = alone archives (fun _ n => n) 1
  | None => False
  end.
Proof.
  destruct (run_calls 7 names archives (fun _ n => n) mixed (all_waiting 2 ∅)) as [s|] eqn:E;
    [|vm_compute in E; discriminate E].
  assert (phases s !! 1%nat = Some (Packed (Directory 493 [(§"blue.txt", RegularFile §"blue")]))) as Hp
    by (vm_compute in E; injection E as <-; reflexivity).
  split; [exact Hp|].
  apply (runs_are_isolated 7 names archives (fun _ n => n) 2 ∅ mixed s 1%nat); [| |exact E|left; exact Hp].
  - intros [|[|a]] [|[|b]] Ha Hb H; try lia; discriminate H.
  - intros a _. reflexivity.
Defined.

(** Two archives of the same file name in different folders share their work
    directory: the first run packs the files of both, and removes the directory the
    second is still working in. *)
Example same_named_inputs_mix :
  let same := fun n : nat => match n with 0%nat => §"/a/game.zip" | _ => §"/b/game.zip" end in
  match run_calls 7 same archives (fun _ n => n) [0; 1; 0; 1; 0; 0; 0]%nat (all_waiting 2 ∅) with
  | Some s =>
      phases s !! 0%nat =
        Some (Removed (Directory 493 [(§"red.txt", RegularFile §"red"); (§"blue.txt", RegularFile §"blue")])) /\
      run_call 7 same archives (fun _ n => n) 1 s = None
  | None => False
  end.
Proof. vm_compute. split; reflexivity. Qed.

End WorkDirsExample.
