(* ===== verification/Executor.v ===== *)
(** Running a pipeline ([crates/core/src/features/pipeline/executor.rs], with
    [context.rs]): the collision gate and the record of runs around one input, its
    unpacking, the steps, the packing or copying of the result and its commit, and
    the loop over the inputs. *)

From stdpp Require Import base tactics option list strings gmap sets.
From Stdlib Require Import ZArith Lia Ascii.
From S2P Require Import Prelude Text RustPath FsTree WorkDirs RelPath Archive Layout Outputs TitleFilter Planner Settings OutputTransaction ApplyPlan FsTree Staging Diagnose Flatten Downloads PipelineRuns Pipeline.
Local Open Scope arclain_scope.

Inductive RunError :=
| HashFailed
| OutputExists (path : str) (policy : OutputCollisionPolicy)
| WorkDirNotCreated
| ExtractFailed
| FlattenFailed
| NoOrganizationService
| RuleNotLoaded
| RuleNotFound (rule_id : Z)
| PlanFailed (e : PlanError)
| PlannedNothing
| DownloadsNotStaged
| ApplyFailed (v : Verdict)
| NotStaged (e : NewError)
| PackFailed
| CopyFailed
| NotVerified (e : CommitError)
| NotCommitted (e : CommitError).

(** A failure, or the panic of the title filter. *)
Inductive RunFailure := Fail (e : RunError) | Panic.

Inductive PipelineProgress :=
| FileStart (index total : nat) (name : str)
| StepStart (step_index : nat) (step_name : str)
| StepProgress (percent : Z)
| FileComplete (output : str)
| FileSkipped (output reason : str)
| FileFailed (error : RunError)
| AllComplete (succeeded skipped failed : nat)
| StepWarnings (ws : list ModWarning)
| DownloadWarnings (ws : list str)
| SkippedOutputs (outs : list str).

Inductive RunOutcome := Completed (output : str) | Skipped (output reason : str).

(** [PipelineContext]: the services a run is given, with the configuration and
    libraries they stand for. [organization_service] loads a rule;
    [library_service] is a product's metadata; [config_json] and [blake3] make the
    hash of a configuration, [sha256] compares previews. *)
Record PipelineContext := {
  organization_service : option (Z -> result unit (option OrganizationRule));
  library_service : option (str -> option GameMetadata);
  has_config_db : bool;
  app_collision_policy : option OutputCollisionPolicy;
  fetch_download : option (PendingDownload -> result str str);
  title_filter : TitleFilterConfig;
  detect_dlsite_code : str -> option str;
  config_json : list PipelineStep * PipelineOutput * option OutputCollisionPolicy -> str;
  blake3 : str -> str;
  sha256 : str -> str;
  error_text : RunError -> str;                          (* [to_string] of an error *)
  package_version : str
}.

(** How the calls of one run turn out. *)
Record RunCalls := {
  read_sizes : str -> list Z;                            (* reads of the hash *)
  link_target : str -> option Node;                      (* what a link at a path leads to *)
  temp_path : str;                                       (* [temp_root] *)
  work_dir_made : bool;
  work_dir_left : option Node;                           (* by a removal that failed *)
  extract_all : str -> option (list (str * Node));       (* [backend_for], [extract_all] *)
  flatten_fails : nat -> nat -> bool;                    (* of a step *)
  flatten_debris : nat -> list (str * Node);
  process_id : N;
  extract_nested : nat -> list str -> option str -> result str unit * list (str * Node);
  can_read : nat -> list str -> bool;
  listable : list str -> bool;                           (* directories the diagnostics read *)
  outside_exists : str -> bool;                          (* screenshots outside the work directory *)
  downloads_dir : option str;
  download_write_fails : Z -> option str;
  plan_calls : str -> bool;
  plan_metadata : str -> bool;
  plan_io : nat -> Outcome;
  plan_restores : nat -> bool;
  plan_debris : nat -> Dir;
  pack : Node -> ConvertFormat -> CompressionLevel -> list Z * option str;  (* the 7z process *)
  copy_works : bool;
  staging_calls : NewCalls;
  commit_fails : nat -> bool;
  commit_others : nat -> Dir -> Dir;
  commit_debris : nat -> option Node * option Node;
  db_fails : nat -> bool;
  begun : Z;
  ended : Z
}.

(** Directories by path, the rows of [pipeline_runs], and what was reported. *)
Record World := mk_world {
  directories : gmap str Dir;
  runs : list DbPipelineRun;
  progress : list PipelineProgress
}.

Definition emit (es : list PipelineProgress) (w : World) : World :=
  mk_world (directories w) (runs w) (progress w ++ es).

Definition with_runs (rs : list DbPipelineRun) (w : World) : World := mk_world (directories w) rs (progress w).

(** The directory a path is in and its name there. *)
Definition place_of (p : str) : option (str * str) :=
  match parent p, file_name p with
  | Some up, Some name => Some (if str_eqb up [] then §"." else up, name)
  | _, _ => None
  end.

Definition node_of (w : World) (p : str) : option Node :=
  match place_of p with
  | Some (up, name) => default ∅ (directories w !! up) !! name
  | None => None
  end.

Definition set_node (p : str) (n : option Node) (w : World) : World :=
  match place_of p with
  | Some (up, name) =>
      mk_world (<[ up := partial_alter (fun _ => n) name (default ∅ (directories w !! up)) ]> (directories w))
        (runs w) (progress w)
  | None => w
  end.

(** What an access that follows links finds: [fs::File::open], [Path::is_dir] and
    [Path::exists], for which a link that leads nowhere is not there. *)
Definition followed (calls : RunCalls) (w : World) (p : str) : option Node :=
  match node_of w p with
  | Some Symlink => link_target calls p
  | n => n
  end.

Definition path_is_there (calls : RunCalls) (w : World) (p : str) : bool := bool_decide (is_Some (followed calls w p)).

Section executor.
Context {UT : UnicodeTables} {EX : Externals}.
Context (ctx : PipelineContext).

(** ** Helpers *)

Definition config_hash (p : Pipeline) : str :=
  blake3 ctx (config_json ctx (steps p, pipeline_output p, collision_policy p)).

Definition resolve_metadata (archive_name : str) : option GameMetadata :=
  lib ← library_service ctx;
  code ← detect_dlsite_code ctx archive_name;
  lib (§"dlsite:" ++ code).

Definition policy_of (p : Pipeline) : OutputCollisionPolicy :=
  effective_collision_policy p (default PolicySmart (app_collision_policy ctx)).

Definition output_of (p : Pipeline) (input : str) (metadata : option GameMetadata) : option str :=
  predicted_output (title_filter ctx) (detect_dlsite_code ctx) p input metadata.

(** [walk_collect]: the entries of the work directory, a directory before what is
    in it. *)
Fixpoint walk_collect (prefix : str) (n : Node) : list ArchiveEntry :=
  match n with
  | Directory _ entries =>
      concat (map (fun e =>
        let rel := if str_eqb prefix [] then e.1 else prefix ++ §"/" ++ e.1 in
        let len := match e.2 with RegularFile c => Z.of_nat (length c) | _ => 0%Z end in
        {| path := slashes rel; size := len; packed_size := len; modified := None;
           Archive.is_dir := FsTree.is_dir e.2; encrypted := false; crc32 := None |}
        :: walk_collect rel e.2) entries)
  | _ => []
  end.

(** A layout's file variables are read through a checked path. *)
Definition read_entry (work : Node) (p : str) : option str :=
  match checked_relative_path p with
  | Ok checked => match resolved work checked with Ok at_path => file_at work at_path | Err _ => None end
  | Err _ => None
  end.

(** [copy_dir_recursive]. *)
Fixpoint copy_tree (n : Node) : option Node :=
  match n with
  | RegularFile c => Some (RegularFile c)
  | Directory _ entries =>
      (fun es => Directory new_dir_mode es) <$>
        foldr (fun e rest => match e, rest with Some x, Some xs => Some (x :: xs) | _, _ => None end) (Some [])
          (map (fun e => (fun c => (e.1, c)) <$> copy_tree e.2) entries)
  | Symlink | SpecialNode => None
  end.

Definition download_line (line : str * str * str) : str :=
  let '(url, dest, reason) := line in
  §"screenshot not fetched: " ++ dest ++ §" (" ++ url ++ §"): " ++ reason.

Definition skipped_line (line : str * str) : str :=
  if str_eqb line.1 [] then line.2 else line.1 ++ §": " ++ line.2.

Definition transport (d : PendingDownload) : result str str :=
  match fetch_download ctx with Some fetch => fetch d | None => Err §"no download transport configured" end.

(** ** The steps *)

(** The work directory and the format and compression chosen so far. *)
Record Work := mk_work { work_dir : Node; chosen_format : option ConvertFormat; chosen_level : CompressionLevel }.

Definition flatten_step (calls : RunCalls) (index : nat) (strip : bool) (max_depth : Z) (st : Work) (w : World)
  : result RunError Work * World :=
  match flatten_nested_archives_recursive (flatten_fails calls index) (flatten_debris calls) (process_id calls)
          (extract_nested calls) (can_read calls)
          (diagnose_mods (sha256 ctx) (listable calls) (outside_exists calls)) strip max_depth (mk_flat (work_dir st) 0 []) with
  | (Some report, s) =>
      (Ok (mk_work (tree s) (chosen_format st) (chosen_level st)),
       match warnings report with [] => w | ws => emit [StepWarnings ws] w end)
  | (None, _) => (Err FlattenFailed, w)
  end.

Definition organize_step (calls : RunCalls) (archive_name : str) (metadata : option GameMetadata)
    (rule_id : Z) (st : Work) (w : World) : result RunError Work * World :=
  match organization_service ctx with
  | None => (Err NoOrganizationService, w)
  | Some get_domain_rule =>
      match get_domain_rule rule_id with
      | Err _ => (Err RuleNotLoaded, w)
      | Ok None => (Err (RuleNotFound rule_id), w)
      | Ok (Some rule) =>
          let work := work_dir st in
          match create_plan (title_filter ctx) rule archive_name (walk_collect [] work) metadata (read_entry work) with
          | Err e => (Err (PlanFailed e), w)
          | Ok plan =>
              let w := match skipped_outputs plan with
                       | [] => w
                       | skipped => emit [SkippedOutputs (map skipped_line skipped)] w
                       end in
              if plan_stages_nothing (plan_outputs plan) then (Err PlannedNothing, w)
              else
                match stage_plan_downloads transport (download_write_fails calls) (downloads_dir calls) plan work with
                | Err _ => (Err DownloadsNotStaged, w)
                | Ok (staged, work) =>
                    let w := match unfetched staged with
                             | [] => w
                             | lines => emit [DownloadWarnings (map download_line lines)] w
                             end in
                    match apply_plan_to_workdir (plan_calls calls) (plan_metadata calls) (plan_io calls)
                            (plan_restores calls) (plan_debris calls) (staged_plan staged) work with
                    | ((Committed | CommittedWithCleanupWarnings), f) =>
                        (Ok (mk_work (of_dir (mode_of work) (final_work f)) (chosen_format st) (chosen_level st)), w)
                    | (v, _) => (Err (ApplyFailed v), w)
                    end
                end
          end
      end
  end.

Definition run_step (calls : RunCalls) (archive_name : str) (metadata : option GameMetadata)
    (index : nat) (step : PipelineStep) (st : Work) (w : World) : result RunError Work * World :=
  let w := emit [StepStart (S index) (step_display_name step)] w in
  match step with
  | FlattenStep strip max_depth => flatten_step calls index strip max_depth st w
  | OrganizeStep rule_id => organize_step calls archive_name metadata rule_id st w
  | ConvertStep format compression _ => (Ok (mk_work (work_dir st) (Some format) compression), w)
  end.

Fixpoint run_steps (calls : RunCalls) (archive_name : str) (metadata : option GameMetadata)
    (index : nat) (steps : list PipelineStep) (st : Work) (w : World) : result RunError Work * World :=
  match steps with
  | [] => (Ok st, w)
  | step :: rest =>
      match run_step calls archive_name metadata index step st w with
      | (Ok st, w) => run_steps calls archive_name metadata (S index) rest st w
      | (Err e, w) => (Err e, w)
      end
  end.

(** ** The output *)

(** [StagedOutput::commit] at a path, with the others' changes to its directory. *)
Definition commit_output (calls : RunCalls) (out : str) (replace : bool) (node : Node) (w : World)
  : result RunFailure str * World :=
  match place_of out with
  | None => (Err (Fail (NotStaged NoFinalComponent)), w)
  | Some (up, name) =>
      let '(r, stage) :=
        commit (commit_fails calls) (commit_others calls) (commit_debris calls) name replace
          (mk_stage (default ∅ (directories w !! up)) (Some node) None None [] 0) in
      let w := mk_world (<[ up := parent_dir stage ]> (directories w)) (runs w) (progress w) in
      match r with
      | Ok _ => (Ok out, w)
      | Err e => (Err (Fail (NotCommitted e)), w)
      end
  end.

Definition finish_output (calls : RunCalls) (artifact : OutputArtifact) (out : str) (replace : bool)
    (made : option Node) (broken : RunError) (w : World) : result RunFailure str * World :=
  match made with
  | None => (Err (Fail broken), w)
  | Some node =>
      match verify artifact (Some node) with
      | Err e => (Err (Fail (NotVerified e)), w)
      | Ok _ => commit_output calls out replace node w
      end
  end.

(** The end of [run_one_inner]: packed, or copied. *)
Definition finalize (calls : RunCalls) (p : Pipeline) (input : str) (metadata : option GameMetadata)
    (replace : bool) (st : Work) (w : World) : result RunFailure str * World :=
  let last_index := S (length (steps p)) in
  match output_artifact p with
  | OutputTransaction.Archive =>
      let format := default Zip (chosen_format st) in
      match resolve_with_metadata (title_filter ctx) (detect_dlsite_code ctx) (pipeline_output p) input
              (format_extension format) metadata with
      | None => (Err Panic, w)
      | Some out =>
          let w := emit [StepStart last_index (§"Packing ." ++ format_extension format)] w in
          match staged_new (staging_calls calls) out replace with
          | Err e => (Err (Fail (NotStaged e)), w)
          | Ok _ =>
              let '(percents, packed) := pack calls (work_dir st) format (chosen_level st) in
              let w := emit (map StepProgress percents) w in
              finish_output calls OutputTransaction.Archive out replace (RegularFile <$> packed) PackFailed w
          end
      end
  | OutputTransaction.Folder =>
      match resolve_folder_with_metadata (title_filter ctx) (detect_dlsite_code ctx) (pipeline_output p) input
              metadata with
      | None => (Err Panic, w)
      | Some out =>
          let w := emit [StepStart last_index §"Writing folder output"] w in
          match staged_new (staging_calls calls) out replace with
          | Err e => (Err (Fail (NotStaged e)), w)
          | Ok _ =>
              let made := if copy_works calls then copy_tree (work_dir st) else None in
              match finish_output calls OutputTransaction.Folder out replace made CopyFailed w with
              | (Ok out, w) => (Ok out, emit [StepProgress 100] w)
              | failed => failed
              end
          end
      end
  end.

(** The directory a run works in, in the temporary root of all runs. *)
Definition work_path (calls : RunCalls) (input : str) : str :=
  path_join (temp_path calls) (work_name (process_id calls) input).

(** [create_dir_all] makes it, and is content with a directory that is there, also one that
    a link leads to, with what is in it. *)
Definition make_work_dir (calls : RunCalls) (input : str) (w : World) : option (Node * World) :=
  if negb (work_dir_made calls) then None
  else
    match node_of w (work_path calls input) with
    | None =>
        let empty := Directory new_dir_mode [] in
        Some (empty, set_node (work_path calls input) (Some empty) w)
    | Some _ =>
        match followed calls w (work_path calls input) with
        | Some (Directory mode entries) => Some (Directory mode entries, w)
        | _ => None
        end
    end.

(** The guard's [remove_dir_all], whatever the run came to. *)
Definition drop_work_dir (calls : RunCalls) (input : str) (w : World) : World :=
  set_node (work_path calls input) (work_dir_left calls) w.

Definition run_in_work_dir (calls : RunCalls) (p : Pipeline) (input : str) (metadata : option GameMetadata)
    (replace : bool) (dir : Node) (w : World) : result RunFailure str * World :=
  let archive_name := default [] (file_name input) in
  let w := emit [StepStart 0 §"Extracting source"] w in
  match extract_all calls input with
  | None => (Err (Fail ExtractFailed), w)
  | Some extracted =>
      match run_steps calls archive_name metadata 0 (steps p)
              (mk_work (unpack_into extracted dir) None NormalLevel) w with
      | (Err e, w) => (Err (Fail e), w)
      | (Ok st, w) => finalize calls p input metadata replace st w
      end
  end.

Definition run_one_inner (calls : RunCalls) (p : Pipeline) (input : str) (metadata : option GameMetadata)
    (replace : bool) (w : World) : result RunFailure str * World :=
  match make_work_dir calls input w with
  | None => (Err (Fail WorkDirNotCreated), w)
  | Some (dir, w) =>
      let '(r, w) := run_in_work_dir calls p input metadata replace dir w in
      (r, drop_work_dir calls input w)
  end.

(** ** Around one input *)

(** What a [Smart] run finds on record: the output of a completed run of the
    same work that is still there. *)
Definition recorded_output (calls : RunCalls) (hash config : str) (w : World) : option str :=
  if has_config_db ctx && negb (db_fails calls 0) then
    match find_completed_run hash config (runs w) with
    | Some run =>
        match PipelineRuns.output_path run with
        | Some stored => if path_is_there calls w stored then Some stored else None
        | None => None
        end
    | None => None
    end
  else None.

(** The row of the run; [None] when it could not be made. *)
Definition record_start (calls : RunCalls) (input hash config : str) (size : Z) (w : World) : option Z * World :=
  if has_config_db ctx && negb (db_fails calls 1) then
    let '(id, rs) := begin_pipeline_run (begun calls) (mk_new_run input hash size config (package_version ctx)) (runs w) in
    (Some id, with_runs rs w)
  else (None, w).

Definition record_end (calls : RunCalls) (run : option Z) (r : result RunFailure str) (w : World) : World :=
  match run with
  | Some id =>
      if db_fails calls 2 then w
      else
        match r with
        | Ok out =>
            let kind := match followed calls w out with Some (Directory _ _) => §"folder" | _ => §"archive" end in
            with_runs (mark_run_completed (ended calls) id out kind (runs w)) w
        | Err (Fail e) => with_runs (mark_run_failed (ended calls) id (error_text ctx e) (runs w)) w
        | Err Panic => w
        end
  | None => w
  end.

(** The gate: what is decided before any work is done. *)
Inductive Gate := Proceed | Decided (r : result RunFailure RunOutcome).

Definition collision_gate (calls : RunCalls) (p : Pipeline) (hash config predicted : str) (w : World) : Gate :=
  let policy := policy_of p in
  match (if bool_decide (policy = PolicySmart) then recorded_output calls hash config w else None) with
  | Some stored => Decided (Ok (Skipped stored §"already processed"))
  | None =>
      if path_is_there calls w predicted then
        match policy with
        | PolicySkip => Decided (Ok (Skipped predicted §"output exists (Skip policy)"))
        | PolicyOverwrite => Proceed
        | PolicyFail | PolicySmart => Decided (Err (Fail (OutputExists predicted policy)))
        end
      else Proceed
  end.

Definition run_one (calls : RunCalls) (p : Pipeline) (input : str) (w : World) : result RunFailure RunOutcome * World :=
  let w := emit [StepStart 0 §"Hashing input"] w in
  match followed calls w input with
  | Some (RegularFile bytes) =>
      let size := Z.of_nat (length bytes) in
      let w := emit (map StepProgress (hash_reports size (read_sizes calls bytes))) w in
      let hash := blake3 ctx bytes in
      let config := config_hash p in
      let metadata := resolve_metadata (default [] (file_name input)) in
      match output_of p input metadata with
      | None => (Err Panic, w)
      | Some predicted =>
          match collision_gate calls p hash config predicted w with
          | Decided r => (r, w)
          | Proceed =>
              let '(run, w) := record_start calls input hash config size w in
              let '(r, w) :=
                run_one_inner calls p input metadata (bool_decide (policy_of p = PolicyOverwrite)) w in
              let w := record_end calls run r w in
              (match r with Ok out => Ok (Completed out) | Err e => Err e end, w)
          end
      end
  | _ => (Err (Fail HashFailed), w)
  end.

(** ** All inputs *)

Definition resolve_inputs (list_dir : str -> option Node) (input : option PipelineInput) : option (list str) :=
  match input with
  | None => None
  | Some (Files v) => Some v
  | Some (FolderInput folder) => archives_in list_dir folder
  end.

(** The loop of [execute_pipeline]; [None] when a run panics. *)
Fixpoint run_inputs (calls : nat -> RunCalls) (p : Pipeline) (index total : nat) (inputs : list str)
    (counts : nat * nat * nat) (w : World) : option (nat * nat * nat) * World :=
  match inputs with
  | [] => (Some counts, w)
  | input :: rest =>
      let '(succeeded, skipped, failed) := counts in
      let w := emit [FileStart index total (default §"<unknown>" (file_name input))] w in
      match run_one (calls index) p input w with
      | (Ok (Completed out), w) =>
          run_inputs calls p (S index) total rest (S succeeded, skipped, failed) (emit [FileComplete out] w)
      | (Ok (Skipped out reason), w) =>
          run_inputs calls p (S index) total rest (succeeded, S skipped, failed) (emit [FileSkipped out reason] w)
      | (Err (Fail e), w) =>
          run_inputs calls p (S index) total rest (succeeded, skipped, S failed) (emit [FileFailed e] w)
      | (Err Panic, w) => (None, w)
      end
  end.

Definition execute_pipeline (list_dir : str -> option Node) (calls : nat -> RunCalls) (p : Pipeline) (w : World)
  : option unit * World :=
  match resolve_inputs list_dir (pipeline_input p) with
  | None => (None, w)
  | Some inputs =>
      match run_inputs calls p 0 (length inputs) inputs (0, 0, 0) w with
      | (Some (succeeded, skipped, failed), w) => (Some tt, emit [AllComplete succeeded skipped failed] w)
      | (None, w) => (None, w)
      end
  end.
End executor.
