(* ===== verification/ExecutorProps.v ===== *)
(** What a run of a pipeline promises: every input has one outcome and the
    counts are of them, the path that is written is the one that was predicted,
    nothing that was there is touched without leave to overwrite, and work that
    was done is not done again. *)

From stdpp Require Import base tactics option list strings gmap sets.
From Stdlib Require Import ZArith Lia Ascii.
From S2P Require Import Prelude Text RustPath RelPath Archive Layout Outputs TitleFilter Planner Settings OutputTransaction ApplyPlan FsTree Staging Diagnose Flatten Downloads PipelineRuns Pipeline Executor.
Local Open Scope arclain_scope.

(** ** What a step may report *)

Definition is_step_event (e : PipelineProgress) : bool :=
  match e with
  | StepStart _ _ | StepProgress _ | StepWarnings _ | DownloadWarnings _ | SkippedOutputs _ => true
  | FileStart _ _ _ | FileComplete _ | FileSkipped _ _ | FileFailed _ | AllComplete _ _ _ => false
  end.

(** From [w] to [w'] only steps were reported. *)
Definition reports_steps (w w' : World) : Prop :=
  exists t, progress w' = progress w ++ t /\ Forall (fun e => is_step_event e = true) t.

(** ... and nothing else happened. *)
Definition only_reports (w w' : World) : Prop :=
  directories w' = directories w /\ runs w' = runs w /\ reports_steps w w'.

Lemma reports_refl w w' : progress w' = progress w -> reports_steps w w'.
Proof. intros H. exists []. by rewrite app_nil_r. Qed.

Lemma reports_trans w1 w2 w3 : reports_steps w1 w2 -> reports_steps w2 w3 -> reports_steps w1 w3.
Proof.
  intros (t1 & E1 & H1) (t2 & E2 & H2). exists (t1 ++ t2).
  split; [by rewrite E2, E1, app_assoc|by apply Forall_app].
Qed.

Lemma only_refl w : only_reports w w.
Proof. split_and!; [done..|by apply reports_refl]. Qed.

Lemma only_trans w1 w2 w3 : only_reports w1 w2 -> only_reports w2 w3 -> only_reports w1 w3.
Proof. intros (D1 & R1 & P1) (D2 & R2 & P2). split_and!; [congruence..|by eapply reports_trans]. Qed.

Lemma only_emit es w : Forall (fun e => is_step_event e = true) es -> only_reports w (emit es w).
Proof. intros H. split_and!; [done..|]. by exists es. Qed.

Lemma only_percents ps w : only_reports w (emit (map StepProgress ps) w).
Proof. apply only_emit, Forall_map, Forall_true. done. Qed.

#[local] Hint Resolve only_refl only_percents : core.

Section props.
Context {UT : UnicodeTables} {EX : Externals} (ctx : PipelineContext).

Lemma flatten_step_reports calls index strip depth st w r w' :
  flatten_step ctx calls index strip depth st w = (r, w') -> only_reports w w'.
Proof.
  unfold flatten_step. destruct (flatten_nested_archives_recursive _ _ _ _ _ _ _ _ _) as [[report|] s];
    [|by intros [= _ <-]]. intros [= _ <-]. destruct (warnings report); [done|]. by apply only_emit; repeat constructor.
Qed.

Lemma organize_step_reports calls name metadata rule_id st w r w' :
  organize_step ctx calls name metadata rule_id st w = (r, w') -> only_reports w w'.
Proof.
  unfold organize_step. destruct (organization_service ctx) as [get|]; [|by intros [= _ <-]].
  destruct (get rule_id) as [[rule|]|]; [|by intros [= _ <-]..].
  destruct (create_plan _ _ _ _ _ _) as [plan|]; [|by intros [= _ <-]].
  set (w1 := match skipped_outputs plan with [] => w | _ => _ end).
  assert (only_reports w w1) as H1.
  { subst w1. destruct (skipped_outputs plan); [done|]. by apply only_emit; repeat constructor. }
  destruct (plan_stages_nothing _); [by intros [= _ <-]|].
  destruct (stage_plan_downloads _ _ _ _ _) as [[staged work]|]; [|by intros [= _ <-]].
  set (w2 := match unfetched staged with [] => w1 | _ => _ end).
  assert (only_reports w1 w2) as H2.
  { subst w2. destruct (unfetched staged); [done|]. by apply only_emit; repeat constructor. }
  pose proof (only_trans _ _ _ H1 H2). destruct (apply_plan_to_workdir _ _ _ _ _ _ _) as [v f].
  destruct v; by intros [= _ <-].
Qed.

Lemma run_steps_reports calls name metadata steps index st w r w' :
  run_steps ctx calls name metadata index steps st w = (r, w') -> only_reports w w'.
Proof.
  revert index st w. induction steps as [|s steps IH]; intros index st w; simpl; [by intros [= _ <-]|].
  destruct (run_step _ _ _ _ _ _ _ _) as [r1 w1] eqn:E.
  assert (only_reports w w1) as H1.
  { unfold run_step in E. eapply only_trans; [apply (only_emit [StepStart (S index) (step_display_name s)]); by repeat constructor|].
    destruct s; [by eapply flatten_step_reports|by eapply organize_step_reports|by injection E as _ <-]. }
  destruct r1 as [st1|]; [|by intros [= _ <-]]. intros H%IH. by eapply only_trans.
Qed.

(** The format the loop ends with. *)
Lemma run_steps_format calls name metadata steps index st w st' w' :
  run_steps ctx calls name metadata index steps st w = (Ok st', w') ->
  chosen_format st' =
    foldl (fun found s => match s with ConvertStep f _ _ => Some f | _ => found end) (chosen_format st) steps.
Proof.
  revert index st w. induction steps as [|s steps IH]; intros index st w; simpl; [by intros [= <- _]|].
  destruct (run_step _ _ _ _ _ _ _ _) as [[st1|] w1] eqn:E; [|done]. intros ->%IH. f_equal.
  unfold run_step in E. destruct s; [| |by injection E as <- _].
  - unfold flatten_step in E. repeat case_match; simplify_eq; done.
  - unfold organize_step in E. repeat case_match; simplify_eq; done.
Qed.

(** ** The commit of an output *)

Lemma replay_alone (others : nat -> Dir -> Dir) l d :
  (forall n d, others n d = d) -> foldl (replay_event others) d l = foldl (replay_event others) d (own l).
Proof.
  intros H. revert d. induction l as [|[k|n node|n node] l IH]; intros d; simpl; [done| |by rewrite IH..].
  rewrite IH. f_equal. destruct d; simpl; [by rewrite H|done].
Qed.

(** With nobody else at work, what a commit does to the directory. *)
Lemma commit_alone (fails : nat -> bool) (others : nat -> Dir -> Dir) (debris : nat -> option Node * option Node)
    (name : str) (replace : bool) (d : Dir) (art : Node) (r : result CommitError unit) (s' : Stage) :
  (forall n d, others n d = d) ->
  commit fails others debris name replace (mk_stage d (Some art) None None [] 0) = (r, s') ->
  match r with
  | Ok _ => (d !! name = None \/ replace = true) /\ parent_dir s' = <[name := art]> d
  | Err _ => parent_dir s' = d \/ replace = true /\ parent_dir s' = delete name d
  end.
Proof.
  intros Ho. unfold commit. destruct (commit_closure _ _ _ _ _) as [o s1] eqn:E.
  apply (commit_closure_accounted _ _ _ _ _ art) in E as (es & M & Hacc & _); [|done..].
  assert (forall s2, moved others (mk_stage d (Some art) None None [] 0) s2 es ->
    foldl (replay_event others) (Some d) es = Some (parent_dir s2)) as Hr.
  { intros s2 (l & _ & <- & Hl). by rewrite <-replay_alone. }
  intros H. assert (o = r /\ foldl (replay_event others) (Some d) es = Some (parent_dir s')) as [-> Hd].
  { destruct (root_kept s1); injection H as <- <-; split; [done|by apply Hr|done|].
    apply Hr. pose proof (moved_trans _ _ _ _ _ _ M (close_root_moved fails others debris s1)) as M'.
    by rewrite app_nil_r in M'. }
  clear M Hr H. inversion Hacc; subst; simpl in Hd; simplify_eq/=; repeat (case_decide; simplify_eq/=).
  - auto.
  - split; [auto|]. by rewrite <-Hd, insert_delete_eq.
  - auto.
  - left. by rewrite <-Hd, insert_delete_eq, insert_id.
  - auto.
Qed.

Lemma node_of_place w p up name :
  place_of p = Some (up, name) -> node_of w p = default ∅ (directories w !! up) !! name.
Proof. unfold node_of. by intros ->. Qed.

(** Nobody else writes to the output directory while an output is committed. *)
Definition undisturbed (calls : RunCalls) : Prop := forall n d, commit_others calls n d = d.

Lemma commit_output_frame calls out replace node w r w' :
  commit_output calls out replace node w = (r, w') ->
  runs w' = runs w /\ progress w' = progress w /\ (forall o, r = Ok o -> o = out).
Proof.
  unfold commit_output. destruct (place_of out) as [[up name]|]; [|by intros [= <- <-]].
  destruct (commit _ _ _ _ _ _) as [[u|e] stage]; intros [= <- <-]; split_and!; try done. by intros o [= <-].
Qed.

(** Committing an output with no leave to overwrite keeps what was there, and a
    committed output is there, where nothing was. *)
Lemma commit_output_spec calls out node w r w' :
  undisturbed calls -> commit_output calls out false node w = (r, w') ->
  (forall q n, node_of w q = Some n -> node_of w' q = Some n) /\
  (is_ok r = true -> node_of w out = None /\ node_of w' out = Some node).
Proof.
  intros Ho. unfold commit_output. destruct (place_of out) as [[up name]|] eqn:Ep; [|by intros [= <- <-]; split_and!].
  destruct (commit _ _ _ _ _ _) as [c stage] eqn:Ec. apply commit_alone in Ec; [|done].
  assert (forall q up' name', place_of q = Some (up', name') ->
    node_of (mk_world (<[up := parent_dir stage]> (directories w)) (runs w) (progress w)) q =
    if decide (up' = up) then parent_dir stage !! name' else node_of w q) as Hnode.
  { intros q up' name' Hq. rewrite !(node_of_place _ _ _ _ Hq). simpl.
    case_decide as Hd; [subst; by rewrite lookup_insert_eq|by rewrite lookup_insert_ne]. }
  intros H. assert (r = (match c with Ok _ => Ok out | Err e => Err (Fail (NotCommitted e)) end) /\
    w' = mk_world (<[up := parent_dir stage]> (directories w)) (runs w) (progress w)) as [-> ->]
    by (destruct c; by injection H as <- <-).
  clear H. split.
  - intros q n Hq. unfold node_of in Hq. destruct (place_of q) as [[up' name']|] eqn:Eq; [|done].
    rewrite (Hnode _ _ _ Eq). case_decide as Hd; [|by rewrite (node_of_place _ _ _ _ Eq)]. subst up'.
    destruct c as [u|e].
    + destruct Ec as [[Hnone|] ->]; [|done]. rewrite lookup_insert_ne; [done|]. intros ->. congruence.
    + destruct Ec as [->|[? _]]; done.
  - destruct c as [u|e]; [|done]. intros _. rewrite (Hnode _ _ _ Ep), (node_of_place w _ _ _ Ep). rewrite decide_True by done.
    destruct Ec as [[Hnone|] ->]; [|done]. by rewrite lookup_insert_eq.
Qed.

(** ** The whole of a run *)

(** A file or a directory is at the path. *)
Definition has_output (w : World) (out : str) : Prop := exists n, node_of w out = Some n /\ n <> Symlink.

Lemma verified_node artifact node u : verify artifact (Some node) = Ok u -> node <> Symlink.
Proof. destruct artifact; by destruct node. Qed.

(** What a run and its parts leave alone, except at the place [work]. *)
Record run_spec (calls : RunCalls) (work : option (str * str)) (p : Pipeline) (input : str) (metadata : option GameMetadata)
    (replace : bool) (r : result RunFailure str) (w w' : World) : Prop := {
  spec_runs : runs w' = runs w;
  spec_reports : reports_steps w w';
  spec_keeps : undisturbed calls -> replace = false ->
    forall q n, place_of q <> work -> node_of w q = Some n -> node_of w' q = Some n;
  spec_named out : r = Ok out -> output_of ctx p input metadata = Some out;
  spec_output out : r = Ok out -> undisturbed calls -> replace = false ->
    node_of w out = None /\ has_output w' out /\ place_of out <> work
}.

Lemma node_of_only w w' q : only_reports w w' -> node_of w' q = node_of w q.
Proof. intros (D & _). unfold node_of. by rewrite D. Qed.

Lemma run_spec_after calls work p input metadata replace r w0 w w' :
  only_reports w0 w -> run_spec calls work p input metadata replace r w w' -> run_spec calls work p input metadata replace r w0 w'.
Proof.
  intros H [R P K N O]. split; [|eapply reports_trans; [apply H|done]| |done|].
  - rewrite R. apply H.
  - intros Hu Hr q n Hw Hq. apply K; [done..|]. by rewrite (node_of_only _ _ _ H).
  - intros out Hr Hu Hf. destruct (O out Hr Hu Hf) as [Hn Hs]. by rewrite <-(node_of_only _ _ _ H).
Qed.

Lemma run_spec_failed calls work p input metadata replace e w : run_spec calls work p input metadata replace (Err e) w w.
Proof. split; try done. by apply reports_refl. Qed.

Lemma node_placed w q n : node_of w q = Some n -> place_of q <> None.
Proof. unfold node_of. by destruct (place_of q). Qed.

Lemma finish_output_spec calls artifact p input metadata out replace made broken w r w' :
  output_of ctx p input metadata = Some out -> finish_output calls artifact out replace made broken w = (r, w') ->
  run_spec calls None p input metadata replace r w w'.
Proof.
  intros Hout. unfold finish_output. destruct made as [node|]; [|intros [= <- <-]; apply run_spec_failed].
  destruct (verify _ _) as [u|e] eqn:Ev; [|intros [= <- <-]; apply run_spec_failed]. intros H.
  destruct (commit_output_frame _ _ _ _ _ _ _ H) as (R & P & D). split; [done|by apply reports_refl| | |].
  - intros Hu -> q n _. by apply (commit_output_spec _ _ _ _ _ _ Hu H).
  - intros o Hr. by rewrite (D o Hr).
  - intros o Hr Hu ->. destruct (commit_output_spec _ _ _ _ _ _ Hu H) as [_ C]. rewrite (D o Hr) in *. subst r.
    destruct (C eq_refl) as [Hn Hs]. split_and!; [done|exists node; split; [done|by eapply verified_node]|by eapply node_placed].
Qed.

Lemma finalize_spec calls p input metadata replace st w r w' :
  chosen_format st = final_format (steps p) ->
  finalize ctx calls p input metadata replace st w = (r, w') -> run_spec calls None p input metadata replace r w w'.
Proof.
  intros Hf. unfold finalize.
  assert (forall artifact out made broken w0 w1 r1, only_reports w w0 ->
    output_of ctx p input metadata = Some out ->
    finish_output calls artifact out replace made broken w0 = (r1, w1) ->
    run_spec calls None p input metadata replace r1 w w1) as Hfin.
  { intros artifact out made broken w0 w1 r1 H0 Hout H. eapply run_spec_after; [exact H0|]. by eapply finish_output_spec. }
  assert (forall i n, only_reports w (emit [StepStart i n] w)) as Hstart
    by (intros; by apply only_emit; repeat constructor).
  unfold output_of, predicted_output in Hfin. rewrite last_convert_is_final, <-Hf in Hfin.
  destruct (output_artifact p).
  - destruct (resolve_with_metadata _ _ _ _ _ _) as [out|] eqn:Eo; [|intros [= <- <-]; apply run_spec_failed].
    destruct (staged_new _ _ _); [|intros [= <- <-]; by eapply run_spec_after, run_spec_failed].
    destruct (pack _ _ _ _) as [percents packed]. apply Hfin; [|done].
    eapply only_trans; [apply Hstart|apply only_percents].
  - destruct (resolve_folder_with_metadata _ _ _ _ _) as [out|] eqn:Eo; [|intros [= <- <-]; apply run_spec_failed].
    destruct (staged_new _ _ _); [|intros [= <- <-]; by eapply run_spec_after, run_spec_failed].
    destruct (finish_output _ _ _ _ _ _ _) as [r1 w1] eqn:E. apply Hfin in E; [|apply Hstart|done].
    destruct r1 as [o|e]; [|by intros [= <- <-]]. intros [= <- <-]. destruct E as [R P K N O].
    split; [done| |done|done|done]. eapply reports_trans; [exact P|]. exists [StepProgress 100]. by repeat constructor.
Qed.

Lemma run_in_work_dir_spec calls p input metadata replace dir w r w' :
  run_in_work_dir ctx calls p input metadata replace dir w = (r, w') -> run_spec calls None p input metadata replace r w w'.
Proof.
  unfold run_in_work_dir.
  set (w1 := emit _ w). assert (only_reports w w1) as H1 by (by apply only_emit; repeat constructor).
  destruct (extract_all _ _) as [es|]; [|intros [= <- <-]; by eapply run_spec_after, run_spec_failed].
  destruct (run_steps _ _ _ _ _ _ _ _) as [[st|e] w2] eqn:E; pose proof (run_steps_reports _ _ _ _ _ _ _ _ _ E) as H2.
  - apply run_steps_format in E. intros H. eapply run_spec_after; [by eapply only_trans|].
    eapply finalize_spec; [exact E|exact H].
  - intros [= <- <-]. eapply run_spec_after; [by eapply only_trans|apply run_spec_failed].
Qed.

Lemma node_of_set p n w q : place_of q <> place_of p -> node_of (set_node p n w) q = node_of w q.
Proof.
  unfold node_of, set_node. destruct (place_of p) as [[up name]|]; [|done].
  destruct (place_of q) as [[up' name']|]; [|done]. intros Hne. simpl. destruct (decide (up = up')) as [->|Hu].
  - rewrite lookup_insert_eq. simpl. apply lookup_partial_alter_ne. congruence.
  - by rewrite lookup_insert_ne.
Qed.

Lemma node_of_set_same p n w q : place_of q = place_of p -> is_Some (place_of p) -> node_of (set_node p n w) q = n.
Proof.
  unfold node_of, set_node. intros ->. intros [[up name] ->]. simpl. by rewrite lookup_insert_eq; simpl; rewrite lookup_partial_alter_eq.
Qed.

Lemma set_node_frame p n w : runs (set_node p n w) = runs w /\ progress (set_node p n w) = progress w.
Proof. unfold set_node. by destruct (place_of p) as [[]|]. Qed.

(** The directory is there while a run works in it. *)
Lemma make_work_dir_spec calls input w dir w' :
  make_work_dir calls input w = Some (dir, w') ->
  runs w' = runs w /\ progress w' = progress w /\
  (forall q, place_of q <> place_of (work_path calls input) -> node_of w' q = node_of w q) /\
  (forall q, place_of q = place_of (work_path calls input) -> place_of q <> None -> is_Some (node_of w' q)).
Proof.
  unfold make_work_dir. destruct (negb _); [done|]. destruct (node_of w (work_path calls input)) as [n|] eqn:E.
  - destruct (followed _ _ _) as [[]|]; [done|intros [= <- <-]|done..]. split_and!; [done..|]. intros q Hq _.
    unfold node_of in *. rewrite Hq. by rewrite E.
  - intros [= <- <-]. destruct (set_node_frame (work_path calls input) (Some (Directory new_dir_mode [])) w) as [-> ->].
    split_and!; [done|done|by intros q; apply node_of_set|]. intros q Hq Hne. rewrite node_of_set_same; [by eauto|done|].
    rewrite Hq in Hne. by apply not_eq_None_Some.
Qed.

Lemma run_one_inner_spec calls p input metadata replace w r w' :
  run_one_inner ctx calls p input metadata replace w = (r, w') ->
  run_spec calls (place_of (work_path calls input)) p input metadata replace r w w'.
Proof.
  unfold run_one_inner. destruct (make_work_dir _ _ _) as [[dir w1]|] eqn:Em; [|intros [= <- <-]; apply run_spec_failed].
  apply make_work_dir_spec in Em as (R1 & P1 & N1 & S1).
  destruct (run_in_work_dir _ _ _ _ _ _ _ _) as [r2 w2] eqn:E. apply run_in_work_dir_spec in E as [R2 P2 K2 D2 O2].
  intros [= <- <-]. unfold drop_work_dir. destruct (set_node_frame (work_path calls input) (work_dir_left calls) w2) as [R3 P3].
  assert (forall out, r2 = Ok out -> undisturbed calls -> replace = false -> place_of out <> place_of (work_path calls input)) as Hout.
  { intros out Hr Hu Hf Hp. destruct (O2 out Hr Hu Hf) as (Hn & _ & Hne). destruct (S1 out Hp Hne) as [n Hs]. congruence. }
  split.
  - by rewrite R3, R2.
  - eapply reports_trans; [by apply reports_refl|]. eapply reports_trans; [exact P2|by apply reports_refl].
  - intros Hu Hf q n Hw Hq. rewrite node_of_set by done. apply K2; [done|done|by eapply node_placed|by rewrite N1].
  - done.
  - intros out Hr Hu Hf. pose proof (Hout out Hr Hu Hf) as Hw. rewrite <-N1 by done. unfold has_output.
    rewrite node_of_set by done. destruct (O2 out Hr Hu Hf) as (? & ? & _). done.
Qed.

(** What is known of a run whatever comes of it. *)
Record one_spec (calls : RunCalls) (p : Pipeline) (input : str) (r : result RunFailure RunOutcome) (w w' : World) : Prop := {
  one_reports : reports_steps w w';
  one_keeps : undisturbed calls -> policy_of ctx p <> PolicyOverwrite ->
    forall q n, place_of q <> place_of (work_path calls input) -> node_of w q = Some n -> node_of w' q = Some n;
  one_output out : r = Ok (Completed out) -> undisturbed calls -> policy_of ctx p <> PolicyOverwrite ->
    output_of ctx p input (resolve_metadata ctx (default [] (file_name input))) = Some out /\
    node_of w out = None /\ has_output w' out;
  one_recorded out bytes : r = Ok (Completed out) -> followed calls w input = Some (RegularFile bytes) ->
    has_config_db ctx = true -> (forall n, db_fails calls n = false) ->
    exists kind, runs w' =
      (let '(id, rs) := begin_pipeline_run (begun calls)
         (mk_new_run input (blake3 ctx bytes) (Z.of_nat (length bytes)) (config_hash ctx p) (package_version ctx)) (runs w) in
       mark_run_completed (ended calls) id out kind rs)
}.

Lemma record_end_spec calls run r w :
  directories (record_end ctx calls run r w) = directories w /\ progress (record_end ctx calls run r w) = progress w.
Proof. unfold record_end. destruct run; [|done]. destruct (db_fails _ _); [done|]. by destruct r as [|[]]. Qed.

Lemma run_one_spec calls p input w r w' :
  run_one ctx calls p input w = (r, w') -> one_spec calls p input r w w'.
Proof.
  unfold run_one.
  set (w1 := emit _ w). assert (only_reports w w1) as H1 by (by apply only_emit; repeat constructor).
  assert (forall e w0, only_reports w w0 -> one_spec calls p input (Err e) w w0) as Herr.
  { intros e w0 H0. split; [apply H0| |done|done]. intros _ _ q n _ Hq. by rewrite (node_of_only _ _ _ H0). }
  change (followed calls w1 input) with (followed calls w input).
  destruct (followed calls w input) as [[bytes| | |]|] eqn:Ei; try (intros [= <- <-]; by apply Herr).
  set (w2 := emit _ w1). assert (only_reports w w2) as H2 by (eapply only_trans; [exact H1|apply only_percents]).
  set (metadata := resolve_metadata _ _).
  destruct (output_of _ _ _ _) as [predicted|] eqn:Eo; [|intros [= <- <-]; by apply Herr].
  destruct (collision_gate _ _ _ _ _ _ _) as [|d] eqn:Eg.
  2:{ intros [= <- <-]. unfold collision_gate in Eg.
      assert (forall out, d <> Ok (Completed out)) as Hd by (intros out ->; repeat case_match; congruence).
      split; [apply H2| |by intros out ?%Hd|by intros out b ?%Hd].
      intros _ _ q n _ Hq. by rewrite (node_of_only _ _ _ H2). }
  destruct (record_start _ _ _ _ _ _ _) as [run w3] eqn:Es.
  assert (directories w3 = directories w2 /\ progress w3 = progress w2) as [D3 P3].
  { unfold record_start in Es. destruct (_ && _); by injection Es as <- <-. }
  destruct (run_one_inner _ _ _ _ _ _ _) as [r4 w4] eqn:Ein. apply run_one_inner_spec in Ein as [R4 P4 K4 N4 O4].
  intros [= <- <-]. destruct (record_end_spec calls run r4 w4) as [D5 P5].
  assert (forall q, node_of (record_end ctx calls run r4 w4) q = node_of w4 q) as Hn5
    by (intros q; unfold node_of; by rewrite D5).
  assert (forall q, node_of w3 q = node_of w q) as Hn3.
  { intros q. unfold node_of. rewrite D3. apply (node_of_only _ _ q H2). }
  split.
  - eapply reports_trans; [apply H2|]. eapply reports_trans; [by apply reports_refl|].
    eapply reports_trans; [exact P4|by apply reports_refl].
  - intros Hu Hp q n Hw Hq. rewrite Hn5. apply K4; [done|by apply bool_decide_eq_false|done|]. by rewrite Hn3.
  - intros out Hr Hu Hp. destruct r4 as [o|]; [|done]. injection Hr as ->.
    destruct (O4 out eq_refl Hu ltac:(by apply bool_decide_eq_false)) as (Hn & Hs & _). rewrite Hn3 in Hn.
    split_and!; [by apply N4|done|]. unfold has_output in *. by rewrite Hn5.
  - intros out b Hr Hb Hdb Hok. rewrite Ei in Hb. injection Hb as ->. destruct r4 as [o|]; [|done]. injection Hr as ->.
    unfold record_start in Es. rewrite Hdb, Hok in Es. simpl in Es. injection Es as <- <-.
    unfold record_end. rewrite Hok. eexists. simpl. by rewrite R4.
Qed.


(** A run does not work where its input is. *)
Lemma completed_input calls p input w out w' bytes :
  node_of w input = Some (RegularFile bytes) -> run_one ctx calls p input w = (Ok (Completed out), w') ->
  place_of input <> place_of (work_path calls input).
Proof.
  intros Ei. unfold run_one. set (w1 := emit _ w).
  assert (followed calls w1 input = Some (RegularFile bytes)) as -> by (unfold followed, w1, node_of in *; simpl; by rewrite Ei).
  intros H Hp. destruct (output_of _ _ _ _); [|done]. destruct (collision_gate _ _ _ _ _ _ _) as [|[[]|]] eqn:Eg;
    [|unfold collision_gate in Eg; repeat case_match; simplify_eq|done..].
  destruct (record_start _ _ _ _ _ _ _) as [run w3] eqn:Es.
  assert (directories w3 = directories w) as D3.
  { unfold record_start in Es. destruct (_ && _); by injection Es as <- <-. }
  assert (node_of w3 (work_path calls input) = Some (RegularFile bytes)) as En by (unfold node_of in *; by rewrite <-Hp, D3).
  unfold run_one_inner, make_work_dir, followed in H. destruct (negb _); [done|]. by rewrite En in H.
Qed.

(** Work that was done is not done again. Under the [Smart] policy and with the table of runs
    working, nobody else writing and the clock past every completed run on record, a second run
    of the same pipeline on the same input file, after one that completed, is skipped as already
    processed and names the output of the first; it changes no directory and no row. *)
Theorem smart_rerun_is_skipped calls calls' p input bytes w out w' :
  policy_of ctx p = PolicySmart -> has_config_db ctx = true -> undisturbed calls ->
  (forall n, db_fails calls n = false) -> db_fails calls' 0 = false ->
  (forall row t, row ∈ runs w -> run_status row = RunCompleted -> completed_at row = Some t -> (t < ended calls)%Z) ->
  node_of w input = Some (RegularFile bytes) ->
  run_one ctx calls p input w = (Ok (Completed out), w') ->
  exists w'', run_one ctx calls' p input w' = (Ok (Skipped out §"already processed"), w'') /\
    directories w'' = directories w' /\ runs w'' = runs w'.
Proof.
  intros Hpol Hdb Ho Hok Hok' Hclock Ei H. pose proof (run_one_spec _ _ _ _ _ _ H) as [_ K O R].
  pose proof (completed_input _ _ _ _ _ _ _ Ei H) as Hplace.
  assert (policy_of ctx p <> PolicyOverwrite) as Hno by (by rewrite Hpol).
  destruct (O out eq_refl Ho Hno) as (Hout & _ & n & Hs & Hlink).
  assert (forall c w0, node_of w0 input = Some (RegularFile bytes) -> followed c w0 input = Some (RegularFile bytes)) as Hfol
    by (intros c w0 E; unfold followed; by rewrite E).
  destruct (R out bytes eq_refl (Hfol _ _ Ei) Hdb Hok) as [kind Hruns].
  assert (node_of w' input = Some (RegularFile bytes)) as Ei' by (by apply K).
  unfold run_one. set (w1 := emit _ w'). rewrite (Hfol calls' w1 Ei').
  set (w2 := emit _ w1). rewrite Hout. unfold collision_gate. rewrite Hpol. cbn [bool_decide].
  rewrite bool_decide_true by done.
  assert (recorded_output ctx calls' (blake3 ctx bytes) (config_hash ctx p) w2 = Some out) as ->; [|by exists w2].
  unfold recorded_output. rewrite Hdb, Hok'. simpl. rewrite Hruns. set (new := mk_new_run _ _ _ _ _).
  destruct (completed_run_is_found (begun calls) (ended calls) new out kind (runs w)) as (row & Hrow & Hpath & _).
  { intros row t Hin Hc. apply Hclock; [done|]. unfold is_completed_run in Hc.
    rewrite !andb_true_iff, bool_decide_eq_true in Hc. by destruct Hc. }
  match goal with |- context [find_completed_run ?a ?b ?c] =>
    replace (find_completed_run a b c) with (Some row) by (symmetry; exact Hrow) end.
  rewrite Hpath. unfold path_is_there, followed. change (node_of w2 out) with (node_of w' out). rewrite Hs.
  destruct n; by rewrite ?bool_decide_true.
Qed.

(** ** All inputs *)

(** What the loop reports of the files, one start and one outcome each, and the
    counts of the outcomes. *)
Inductive reported (total : nat) : nat -> list str -> list PipelineProgress -> nat * nat * nat -> Prop :=
| reported_none i : reported total i [] [] (0, 0, 0)
| reported_complete i input rest t out a b c :
    reported total (S i) rest t (a, b, c) ->
    reported total i (input :: rest)
      (FileStart i total (default §"<unknown>" (file_name input)) :: FileComplete out :: t) (S a, b, c)
| reported_skipped i input rest t out reason a b c :
    reported total (S i) rest t (a, b, c) ->
    reported total i (input :: rest)
      (FileStart i total (default §"<unknown>" (file_name input)) :: FileSkipped out reason :: t) (a, S b, c)
| reported_failed i input rest t e a b c :
    reported total (S i) rest t (a, b, c) ->
    reported total i (input :: rest)
      (FileStart i total (default §"<unknown>" (file_name input)) :: FileFailed e :: t) (a, b, S c).

Definition file_events (t : list PipelineProgress) : list PipelineProgress :=
  List.filter (fun e => negb (is_step_event e)) t.

Lemma file_events_steps t : Forall (fun e => is_step_event e = true) t -> file_events t = [].
Proof. induction 1 as [|e t He _ IH]; [done|]. unfold file_events. simpl. by rewrite He. Qed.

Lemma run_inputs_reported calls p total inputs index a b c w a' b' c' w' :
  run_inputs ctx calls p index total inputs (a, b, c) w = (Some (a', b', c'), w') ->
  exists t x y z, progress w' = progress w ++ t /\ reported total index inputs (file_events t) (x, y, z) /\
    a' = a + x /\ b' = b + y /\ c' = c + z.
Proof.
  revert index a b c w. induction inputs as [|input inputs IH]; intros index a b c w; cbn [run_inputs].
  { intros [= <- <- <- <-]. exists [], 0, 0, 0. rewrite app_nil_r. split_and!; [done|constructor|lia..]. }
  set (w1 := emit _ w). destruct (run_one _ _ _ _ _) as [r w2] eqn:E.
  pose proof (run_one_spec _ _ _ _ _ _ E) as [(t2 & P2 & S2) _ _ _].
  apply file_events_steps in S2.
  destruct r as [[out|out reason]|[e|]]; [..|done]; intros H; apply IH in H as (t & x & y & z & P & Hrep & -> & -> & ->).
  - exists (FileStart index total (default §"<unknown>" (file_name input)) :: t2 ++ FileComplete out :: t), (S x), y, z.
    split_and!; [rewrite P; simpl; rewrite P2; simpl; by rewrite <-!app_assoc| |lia..].
    unfold file_events in *. cbn [List.filter is_step_event negb]. rewrite List.filter_app, S2. by constructor.
  - exists (FileStart index total (default §"<unknown>" (file_name input)) :: t2 ++ FileSkipped out reason :: t), x, (S y), z.
    split_and!; [rewrite P; simpl; rewrite P2; simpl; by rewrite <-!app_assoc| |lia..].
    unfold file_events in *. cbn [List.filter is_step_event negb]. rewrite List.filter_app, S2. by constructor.
  - exists (FileStart index total (default §"<unknown>" (file_name input)) :: t2 ++ FileFailed e :: t), x, y, (S z).
    split_and!; [rewrite P; simpl; rewrite P2; simpl; by rewrite <-!app_assoc| |lia..].
    unfold file_events in *. cbn [List.filter is_step_event negb]. rewrite List.filter_app, S2. by constructor.
Qed.

Lemma reported_counts total i inputs t x y z : reported total i inputs t (x, y, z) -> x + y + z = length inputs.
Proof.
  revert i t x y z. induction inputs as [|input inputs IH]; intros i t x y z H; inversion H; subst; simpl; [done|..];
    match goal with H : reported _ _ inputs _ _ |- _ => apply IH in H; lia end.
Qed.

(** ** Nothing panics but the naming of an output *)

Lemma finish_output_fails calls artifact out replace made broken w :
  (finish_output calls artifact out replace made broken w).1 <> Err Panic.
Proof.
  unfold finish_output, commit_output. destruct made as [node|]; [|done]. destruct (verify _ _); [|done].
  destruct (place_of out) as [[up name]|]; [|done]. destruct (commit _ _ _ _ _ _) as [c stage]. by destruct c.
Qed.

Lemma finalize_named calls p input metadata replace st w out :
  chosen_format st = final_format (steps p) -> output_of ctx p input metadata = Some out ->
  (finalize ctx calls p input metadata replace st w).1 <> Err Panic.
Proof.
  intros Hf Ho. unfold output_of, predicted_output in Ho. rewrite last_convert_is_final, <-Hf in Ho. unfold finalize.
  destruct (output_artifact p); rewrite Ho.
  - destruct (staged_new _ _ _); [|done]. destruct (pack _ _ _ _). apply finish_output_fails.
  - destruct (staged_new _ _ _); [|done].
    match goal with |- context [finish_output ?a ?b ?c ?d ?e ?f ?g] =>
      pose proof (finish_output_fails a b c d e f g) as H; destruct (finish_output a b c d e f g) as [[] ?] end; done.
Qed.

Lemma run_one_named calls p input w out :
  output_of ctx p input (resolve_metadata ctx (default [] (file_name input))) = Some out ->
  (run_one ctx calls p input w).1 <> Err Panic.
Proof.
  intros Ho. unfold run_one. set (w1 := emit _ w). destruct (followed calls w1 input) as [[bytes| | |]|]; try done.
  rewrite Ho. destruct (collision_gate _ _ _ _ _ _ _) as [|d] eqn:Eg.
  2:{ unfold collision_gate in Eg. simpl. intros ->. repeat case_match; done. }
  destruct (record_start _ _ _ _ _ _ _) as [run w3].
  assert (forall replace w0, (run_one_inner ctx calls p input (resolve_metadata ctx (default [] (file_name input))) replace w0).1
    <> Err Panic) as Hin.
  { intros replace w0. unfold run_one_inner. destruct (make_work_dir _ _ _) as [[dir w1']|]; [|done].
    assert ((run_in_work_dir ctx calls p input (resolve_metadata ctx (default [] (file_name input))) replace dir w1').1 <> Err Panic) as Hd;
      [|by destruct (run_in_work_dir _ _ _ _ _ _ _ _)].
    unfold run_in_work_dir. destruct (extract_all _ _) as [es|]; [|done].
    destruct (run_steps _ _ _ _ _ _ _ _) as [[st|e] w4] eqn:E; [|done].
    apply run_steps_format in E. by eapply finalize_named. }
  specialize (Hin (bool_decide (policy_of ctx p = PolicyOverwrite)) w3).
  destruct (run_one_inner _ _ _ _ _ _ _) as [[o|[e|]] w4]; done.
Qed.

Lemma run_inputs_named calls p index total inputs counts w :
  (forall input, input ∈ inputs ->
     is_Some (output_of ctx p input (resolve_metadata ctx (default [] (file_name input))))) ->
  is_Some (run_inputs ctx calls p index total inputs counts w).1.
Proof.
  revert index counts w. induction inputs as [|input inputs IH]; intros index counts w H; [by eexists|].
  cbn [run_inputs]. destruct counts as [[a b] c]. set (w1 := emit _ w).
  destruct (H input ltac:(left)) as [out Ho]. pose proof (run_one_named (calls index) p input w1 out Ho) as Hp.
  assert (forall i, i ∈ inputs -> is_Some (output_of ctx p i (resolve_metadata ctx (default [] (file_name i))))) as Hrest
    by (intros i Hi; apply H; by right).
  destruct (run_one _ _ _ _ _) as [[[]|[]] w2]; try (apply IH; exact Hrest). by destruct Hp.
Qed.

End props.

Module ExecutorExample.

#[local] Existing Instance ascii_tables.

#[local] Instance no_externals : Externals := {|
  Regex := unit; regex_new := fun _ => None; is_match := fun _ _ => false; captures := fun _ _ => None;
  captures_iter := fun _ _ => []; capture_names := fun _ => []; json_from_str := fun _ => None;
  to_string_pretty := fun _ => None
|}.

Definition step_json (s : PipelineStep) : str :=
  match s with
  | FlattenStep _ _ => §"f" | OrganizeStep _ => §"o"
  | ConvertStep f _ _ => §"c" ++ format_extension f
  end.

Definition context : PipelineContext := {|
  organization_service := None; library_service := None; has_config_db := true; app_collision_policy := None;
  fetch_download := None; title_filter := {| filters := default_settings; replacements := [] |};
  detect_dlsite_code := fun _ => None;
  config_json := fun '(ss, o, c) => concat (map step_json ss) ++ match o with SameFolder => §"=" | NewFolder f => f end;
  blake3 := fun b => §"#" ++ b; sha256 := fun b => b; error_text := fun _ => §"failed"; package_version := §"0.10.0"
|}.

(** Everything works; packing is writing the format down. *)
Definition works (begun_at ended_at : Z) : RunCalls := {|
  read_sizes := fun b => [Z.of_nat (length b)]; link_target := fun _ => None; temp_path := §"/tmp";
  work_dir_made := true; work_dir_left := None;
  extract_all := fun _ => Some [(§"a.txt", RegularFile §"content")];
  flatten_fails := fun _ _ => false; flatten_debris := fun _ => []; process_id := 1;
  extract_nested := fun _ _ _ => (Err §"none", []); can_read := fun _ _ => true; listable := fun _ => true; outside_exists := fun _ => false;
  downloads_dir := Some §".d"; download_write_fails := fun _ => None;
  plan_calls := fun _ => true; plan_metadata := fun _ => true; plan_io := fun _ => Done; plan_restores := fun _ => true;
  plan_debris := fun _ => ∅; pack := fun _ f _ => ([50%Z], Some (§"packed as " ++ format_extension f));
  copy_works := true;
  staging_calls := {| OutputTransaction.create_dir_all := fun _ => true; tempdir_in := fun d => Some (d ++ §"/.t");
                      OutputTransaction.canonicalize := fun d => Some d |};
  commit_fails := fun _ => false; commit_others := fun _ d => d; commit_debris := fun _ => (None, None);
  db_fails := fun _ => false; begun := begun_at; ended := ended_at
|}.

Definition input : str := §"/in/game.rar".

Definition before : World :=
  mk_world {[ §"/in" := {[ §"game.rar" := RegularFile §"rar bytes"; §"game.txt" := RegularFile §"notes" ]} ]} [] [].

Definition to_zip (artifact : OutputArtifact) : Pipeline :=
  mk_pipeline (Some (Files [input; §"/in/missing.rar"])) [ConvertStep Zip NormalLevel None] SameFolder None artifact.

Definition first_run : result RunFailure RunOutcome * World :=
  run_one context (works 1 2) (to_zip OutputTransaction.Archive) input before.

Lemma first_run_completes : first_run = (Ok (Completed §"/in/game.zip"), first_run.2).
Proof. vm_compute. reflexivity. Qed.


Lemma smart_rerun_is_skipped_witness :
  exists w'', run_one context (works 3 4) (to_zip OutputTransaction.Archive) input first_run.2 =
    (Ok (Skipped §"/in/game.zip" §"already processed"), w'') /\
    directories w'' = directories first_run.2 /\ runs w'' = runs first_run.2.
Proof.
  apply (smart_rerun_is_skipped context (works 1 2) (works 3 4) (to_zip OutputTransaction.Archive) input §"rar bytes" before
    §"/in/game.zip" first_run.2);
    [reflexivity|reflexivity|done|reflexivity|reflexivity| |vm_compute; reflexivity|exact first_run_completes].
  intros row t Hrow. by apply elem_of_nil in Hrow.
Defined.


(** The hash of a configuration leaves out what kind of output it makes: asked
    for a folder after it made an archive, [Smart] says the work is done and names
    the archive. *)
Example folder_after_archive_is_skipped :
  (run_one context (works 3 4) (to_zip OutputTransaction.Folder) input first_run.2).1 =
    Ok (Skipped §"/in/game.zip" §"already processed") /\
  output_of context (to_zip OutputTransaction.Folder) input None = Some §"/in/game" /\
  node_of first_run.2 §"/in/game" = None.
Proof. vm_compute. split_and!; reflexivity. Qed.

(** A directory that is there under the name of a run's work directory is worked in as it is:
    what was in it is in the output, and it is gone afterwards. *)
Example leftover_work_dir_is_used :
  let left_over := Directory 493 [(§"old.txt", RegularFile §"old")] in
  let w := set_node §"/tmp/arclain_pipeline_1_game.rar" (Some left_over) before in
  let '(r, w') := run_one context (works 1 2) (to_zip OutputTransaction.Folder) input w in
  r = Ok (Completed §"/in/game") /\
  node_of w' §"/in/game" =
    Some (Directory new_dir_mode [(§"old.txt", RegularFile §"old"); (§"a.txt", RegularFile §"content")]) /\
  node_of w' §"/tmp/arclain_pipeline_1_game.rar" = None.
Proof. vm_compute. split_and!; reflexivity. Qed.

(** The preview names no output for an archive without a [Convert] step, which
    the executor writes as a zip. *)
Example preview_misses_the_default_zip :
  let p := mk_pipeline (Some (Files [input])) [FlattenStep true 1] SameFolder None OutputTransaction.Archive in
  preview_output (title_filter context) (fun _ => None) p input None = Some None /\
  (run_one context (works 1 2) p input before).1 = Ok (Completed §"/in/game.zip").
Proof. vm_compute. split; reflexivity. Qed.

(** A plan whose only content is a download that does not arrive fails the run:
    what is left of it stages nothing. *)
Example only_a_missing_download_fails :
  let output := {| root_folder := §"Game"; root_folder_template := §"Game"; moves := []; generated_files := [];
    downloads := [{| download_product_id := None; download_url := §"u"; dest_path := §"Game/1.jpg";
                     cache_key := §"k"; cached := false |}]; resolved_variables := ∅; reasoning := [] |} in
  let plan := {| plan_rule_name := §"shots"; plan_outputs := [output]; skipped_outputs := [] |} in
  let work := Directory 493 [(§"a.txt", RegularFile §"content")] in
  plan_stages_nothing (plan_outputs plan) = false /\
  match stage_plan_downloads (transport context) (fun _ => None) (Some §".d") plan work with
  | Ok (staged, work) =>
      unfetched staged = [(§"u", §"Game/1.jpg", §"no download transport configured")] /\
      (apply_plan_to_workdir (fun _ => true) (fun _ => true) (fun _ => Done) (fun _ => true) (fun _ => ∅)
        (staged_plan staged) work).1 = RolledBack StagedNothing
  | Err _ => False
  end.
Proof. vm_compute. split_and!; reflexivity. Qed.

End ExecutorExample.
