(* ===== verification/Processing.v ===== *)
(** The worker that runs a conversion or a pipeline over its inputs
    ([run_convert], [run_pipeline], [run_pipeline_over_inputs] and
    [translate_progress] of [crates/app/src/runtime/processing_ops.rs]): one call of
    the executor per file, with a check for cancellation before each, the progress
    it forwards, and the tally it closes with. *)

From stdpp Require Import base tactics option list strings gmap sets.
From Stdlib Require Import ZArith Lia Ascii.
From S2P Require Import Prelude Text WorkDirs RustPath RelPath Archive Layout Outputs TitleFilter Planner Settings OutputTransaction ApplyPlan FsTree Staging Diagnose Flatten Downloads PipelineRuns Pipeline Executor ExecutorProps.
Local Open Scope arclain_scope.

(** [WarningKind::human]. *)
Definition human {UT : UnicodeTables} (k : WarningKind) : str :=
  match k with
  | MissingScreenshot referenced => §"modinfo references screenshot " ++ debug_str referenced ++ §" but file is missing"
  | MissingAddonParent needs => §"modinfo addonfor=" ++ debug_str needs ++ §" but no sibling mod has that name"
  | DuplicatePreview peer file => file ++ §" byte-identical to sibling " ++ debug_str peer
  end.

(** [FileOutcome]. *)
Record FileOutcome := mk_outcome { succeeded : nat; skipped : nat; failed : nat }.

Definition add_outcome (a b : FileOutcome) : FileOutcome :=
  mk_outcome (succeeded a + succeeded b) (skipped a + skipped b) (failed a + failed b).

Definition no_outcome : FileOutcome := mk_outcome 0 0 0.

(** How the worker ends: it stops at a cancellation, fails when a run panics, or
    completes. *)
Inductive WorkerEnd := WorkerCancelled | WorkerFailed | WorkerCompleted.

(** What the worker sees and says: the world of its runs, and the progress of
    the operation (units done, units in all, message). *)
Record Worker := mk_worker {
  world : World;
  messages : list (nat * nat * str)
}.

Section worker.
Context {UT : UnicodeTables} {EX : Externals} (ctx : PipelineContext).

(** The message of an error, as [{e:#}] prints it. *)
Context (chain_text : RunError -> str).

Definition translate_progress (name : str) (e : PipelineProgress) : list str * FileOutcome :=
  match e with
  | FileStart _ _ _ | AllComplete _ _ _ => ([], no_outcome)
  | StepStart _ step_name => ([name ++ §": " ++ step_name], no_outcome)
  | StepProgress percent => ([name ++ §": " ++ decimal (Z.to_N percent) ++ §"%"], no_outcome)
  | FileComplete output => ([name ++ §": done -> " ++ output], mk_outcome 1 0 0)
  | FileSkipped _ reason => ([name ++ §": skipped (" ++ reason ++ §")"], mk_outcome 0 1 0)
  | FileFailed e => ([name ++ §": failed (" ++ chain_text e ++ §")"], mk_outcome 0 0 1)
  | StepWarnings ws =>
      (map (fun w => name ++ §": warning: " ++ mod_folder w ++ §": " ++ human (kind w)) ws, no_outcome)
  | DownloadWarnings ws => (map (fun w => name ++ §": warning: " ++ w) ws, no_outcome)
  | SkippedOutputs outs => (map (fun o => name ++ §": skipped output: " ++ o) outs, no_outcome)
  end.

(** The loop that drains the events of one call. *)
Definition drain (name : str) (index total : nat) (events : list PipelineProgress)
  : list (nat * nat * str) * FileOutcome :=
  foldl (fun acc e =>
    let '(lines, o) := translate_progress name e in
    (acc.1 ++ map (fun l => (index, total, l)) lines, add_outcome acc.2 o)) ([], no_outcome) events.

Definition with_input (i : option PipelineInput) (p : Pipeline) : Pipeline :=
  mk_pipeline i (steps p) (pipeline_output p) (collision_policy p) (output_artifact p).

Definition summary (o : FileOutcome) : str :=
  decimal (N.of_nat (succeeded o)) ++ §" succeeded, " ++ decimal (N.of_nat (skipped o)) ++ §" skipped, "
  ++ decimal (N.of_nat (failed o)) ++ §" failed".

(** The calls of the executor per file; [cancelled] answers before each. *)
Fixpoint run_files (cancelled : nat -> bool) (calls : nat -> RunCalls) (template : Pipeline)
    (index total : nat) (inputs : list str) (tally : FileOutcome) (s : Worker)
  : option FileOutcome * WorkerEnd * Worker :=
  match inputs with
  | [] => (Some tally, WorkerCompleted, s)
  | input :: rest =>
      if cancelled index then (None, WorkerCancelled, s)
      else
        let name := default §"<unknown>" (file_name input) in
        let said := messages s ++ [(index, total, §"Processing " ++ name)] in
        let before := world s in
        match execute_pipeline ctx (fun _ => None) (fun _ => calls index)
                (with_input (Some (Files [input])) template) before with
        | (Some _, after) =>
            let events := drop (length (progress before)) (progress after) in
            let '(lines, outcome) := drain name index total events in
            run_files cancelled calls template (S index) total rest (add_outcome tally outcome)
              (mk_worker after (said ++ lines))
        | (None, after) =>
            let events := drop (length (progress before)) (progress after) in
            (None, WorkerFailed, mk_worker after (said ++ (drain name index total events).1))
        end
  end.

Definition run_pipeline_over_inputs (cancelled : nat -> bool) (calls : nat -> RunCalls) (template : Pipeline)
    (inputs : list str) (s : Worker) : WorkerEnd * Worker :=
  let total := length inputs in
  match run_files cancelled calls template 0 total inputs no_outcome s with
  | (Some tally, finished, s) =>
      (finished, mk_worker (world s) (messages s ++ [(total, total, summary tally)]))
  | (None, finished, s) => (finished, s)
  end.

(** [convert_pipeline_template]. *)
Definition convert_pipeline_template (flatten : bool) (destination : str) (format : ConvertFormat) : Pipeline :=
  mk_pipeline None
    ((if flatten then [FlattenStep true 1] else []) ++ [ConvertStep format NormalLevel None])
    (NewFolder destination) None OutputTransaction.Archive.

(** [resolve_run_inputs] for the two kinds of inputs; [None] when the folder
    cannot be read, and the operation fails. *)
Definition resolve_run_inputs (list_dir : str -> option Node) (inputs : PipelineInput) : option (list str) :=
  match inputs with
  | Files paths => Some paths
  | FolderInput folder => archives_in list_dir folder
  end.

(** ** Worlds that differ only in what was reported *)

Definition same_state (w v : World) : Prop := directories w = directories v /\ runs w = runs v.

#[export] Instance same_state_equiv : Equivalence same_state.
Proof.
  split; unfold same_state.
  - done.
  - intros w v []. by split.
  - intros w v u [] []. split; congruence.
Qed.

Definition agree {A : Type} (x y : A * World) : Prop := x.1 = y.1 /\ same_state x.2 y.2.

#[export] Instance agree_equiv {A : Type} : Equivalence (@agree A).
Proof.
  split; unfold agree.
  - intros x. by split.
  - intros x y []. split; [done|by symmetry].
  - intros x y z [] []. split; [congruence|by etransitivity].
Qed.

#[export] Instance emit_proper es : Proper (same_state ==> same_state) (emit es).
Proof. by intros w v []. Qed.

Lemma same_emit es w : same_state (emit es w) w.
Proof. done. Qed.

Lemma same_node w v q : same_state w v -> node_of w q = node_of v q.
Proof. intros [H _]. unfold node_of. by rewrite H. Qed.

Lemma same_followed calls w v q : same_state w v -> followed calls w q = followed calls v q.
Proof. intros H. unfold followed. by rewrite (same_node w v q H). Qed.

#[export] Instance set_node_proper p n : Proper (same_state ==> same_state) (set_node p n).
Proof. intros w v [D R]. unfold set_node. destruct (place_of p) as [[up name]|]; [|done]. by rewrite D. Qed.

#[export] Instance flatten_step_proper calls index strip depth st :
  Proper (same_state ==> agree) (flatten_step ctx calls index strip depth st).
Proof.
  intros w v H. unfold flatten_step. destruct (flatten_nested_archives_recursive _ _ _ _ _ _ _ _ _) as [[r|] s]; [|done].
  split; [done|]. simpl. by destruct (warnings r).
Qed.

#[export] Instance organize_step_proper calls name metadata rule_id st :
  Proper (same_state ==> agree) (organize_step ctx calls name metadata rule_id st).
Proof.
  intros w v H. unfold organize_step. destruct (organization_service ctx) as [get|]; [|done].
  destruct (get rule_id) as [[rule|]|]; [|done..]. destruct (create_plan _ _ _ _ _ _) as [plan|]; [|done].
  assert (same_state (match skipped_outputs plan with [] => w | k => emit [SkippedOutputs (map skipped_line k)] w end)
                     (match skipped_outputs plan with [] => v | k => emit [SkippedOutputs (map skipped_line k)] v end)) as H1
    by (by destruct (skipped_outputs plan)).
  destruct (plan_stages_nothing _); [done|]. destruct (stage_plan_downloads _ _ _ _ _) as [[staged work]|]; [|done].
  destruct (apply_plan_to_workdir _ _ _ _ _ _ _) as [verdict f]. destruct verdict; (split; [done|]); by destruct (unfetched staged).
Qed.

#[export] Instance run_steps_proper calls name metadata index ss st :
  Proper (same_state ==> agree) (run_steps ctx calls name metadata index ss st).
Proof.
  intros w v H. revert index st w v H. induction ss as [|s ss IH]; intros index st w v H; simpl; [done|].
  assert (agree (run_step ctx calls name metadata index s st w) (run_step ctx calls name metadata index s st v)) as Hs.
  { unfold run_step. destruct s; [by apply flatten_step_proper, emit_proper|by apply organize_step_proper, emit_proper|done]. }
  destruct (run_step _ _ _ _ _ _ _ w) as [r w1], (run_step _ _ _ _ _ _ _ v) as [r' v1].
  destruct Hs as [E Hs]. simpl in E, Hs. subst r'. destruct r; [by apply IH|done].
Qed.

#[export] Instance finish_output_proper calls artifact out replace made broken :
  Proper (same_state ==> agree) (finish_output calls artifact out replace made broken).
Proof.
  intros w v [D R]. unfold finish_output. destruct made as [node|]; [|done]. destruct (verify _ _); [|done].
  unfold commit_output. destruct (place_of out) as [[up name]|]; [|done]. rewrite D.
  destruct (commit _ _ _ _ _ _) as [c stage]. by destruct c.
Qed.

#[export] Instance finalize_proper calls p input metadata replace st :
  Proper (same_state ==> agree) (finalize ctx calls p input metadata replace st).
Proof.
  intros w v H. unfold finalize. destruct (output_artifact p).
  - destruct (resolve_with_metadata _ _ _ _ _ _); [|done]. destruct (staged_new _ _ _); [|done].
    destruct (pack _ _ _ _). by apply finish_output_proper, emit_proper, emit_proper.
  - destruct (resolve_folder_with_metadata _ _ _ _ _) as [out|]; [|done]. destruct (staged_new _ _ _); [|done].
    pose proof (finish_output_proper calls OutputTransaction.Folder out replace
      (if copy_works calls then copy_tree (work_dir st) else None) CopyFailed _ _
      (emit_proper [StepStart (S (length (steps p))) §"Writing folder output"] _ _ H)) as [E Hs].
    destruct (finish_output _ _ _ _ _ _ (emit _ w)) as [r w1], (finish_output _ _ _ _ _ _ (emit _ v)) as [r' v1].
    simpl in E, Hs. subst r'. by destruct r.
Qed.

#[export] Instance run_in_work_dir_proper calls p input metadata replace dir :
  Proper (same_state ==> agree) (run_in_work_dir ctx calls p input metadata replace dir).
Proof.
  intros w v H. unfold run_in_work_dir. destruct (extract_all _ _) as [es|]; [|done].
  pose proof (run_steps_proper calls (default [] (file_name input)) metadata 0 (steps p)
    (mk_work (unpack_into es dir) None NormalLevel) _ _ (emit_proper [StepStart 0 §"Extracting source"] _ _ H)) as [E Hs].
  destruct (run_steps _ _ _ _ _ _ _ (emit _ w)) as [r w1], (run_steps _ _ _ _ _ _ _ (emit _ v)) as [r' v1].
  simpl in E, Hs. subst r'. destruct r; [by apply finalize_proper|done].
Qed.

#[export] Instance run_one_inner_proper calls p input metadata replace :
  Proper (same_state ==> agree) (run_one_inner ctx calls p input metadata replace).
Proof.
  intros w v H. unfold run_one_inner, make_work_dir. destruct (negb _); [done|].
  rewrite (same_followed calls w v _ H), (same_node w v _ H).
  assert (forall dir w0 v0, same_state w0 v0 ->
    agree (let '(r, w1) := run_in_work_dir ctx calls p input metadata replace dir w0 in (r, drop_work_dir calls input w1))
          (let '(r, v1) := run_in_work_dir ctx calls p input metadata replace dir v0 in (r, drop_work_dir calls input v1))) as Hin.
  { intros dir w0 v0 H0. pose proof (run_in_work_dir_proper calls p input metadata replace dir _ _ H0) as [E Hs].
    destruct (run_in_work_dir _ _ _ _ _ _ _ w0) as [r w1], (run_in_work_dir _ _ _ _ _ _ _ v0) as [r' v1].
    simpl in E, Hs. subst r'. split; [done|]. by apply set_node_proper. }
  destruct (node_of v _); [|by apply Hin, set_node_proper].
  destruct (followed calls v _) as [[]|]; [done|by apply Hin|done..].
Qed.

#[export] Instance run_one_proper calls p input : Proper (same_state ==> agree) (run_one ctx calls p input).
Proof.
  intros w v H. unfold run_one. set (w1 := emit [StepStart 0 _] w). set (v1 := emit [StepStart 0 _] v).
  assert (same_state w1 v1) as H1 by done. rewrite (same_followed calls _ _ input H1).
  destruct (followed calls v1 input) as [[bytes| | |]|]; try done.
  set (w2 := emit _ w1). set (v2 := emit _ v1). assert (same_state w2 v2) as H2 by done.
  destruct (output_of _ _ _ _) as [predicted|]; [|done].
  assert (forall hash config, collision_gate ctx calls p hash config predicted w2 = collision_gate ctx calls p hash config predicted v2) as Hg.
  { intros hash config. unfold collision_gate, recorded_output, path_is_there, followed. destruct H2 as [D2 R2]. unfold node_of.
    by rewrite D2, R2. }
  rewrite Hg. destruct (collision_gate _ _ _ _ _ _ _) as [|d]; [|done].
  unfold record_start.
  assert (forall run w3 v3, same_state w3 v3 ->
    agree (let '(r, w4) := run_one_inner ctx calls p input (resolve_metadata ctx (default [] (file_name input)))
                             (bool_decide (policy_of ctx p = PolicyOverwrite)) w3 in
           (match r with Ok out => Ok (Completed out) | Err e => Err e end, record_end ctx calls run r w4))
          (let '(r, v4) := run_one_inner ctx calls p input (resolve_metadata ctx (default [] (file_name input)))
                             (bool_decide (policy_of ctx p = PolicyOverwrite)) v3 in
           (match r with Ok out => Ok (Completed out) | Err e => Err e end, record_end ctx calls run r v4))) as Hin.
  { intros run w3 v3 H3. pose proof (run_one_inner_proper calls p input (resolve_metadata ctx (default [] (file_name input)))
      (bool_decide (policy_of ctx p = PolicyOverwrite)) _ _ H3) as [E Hs].
    destruct (run_one_inner _ _ _ _ _ _ w3) as [r w4], (run_one_inner _ _ _ _ _ _ v3) as [r' v4].
    simpl in E, Hs. subst r'. split; [done|]. simpl. unfold record_end. destruct run; [|done].
    destruct (db_fails _ _); [done|]. destruct r as [out|[]]; [|by destruct Hs as [? ->]|done].
    rewrite (same_followed calls _ _ out Hs). by destruct Hs as [? ->]. }
  destruct (has_config_db ctx && _); [|by apply Hin].
  destruct H2 as [D2 R2]. rewrite R2. by apply Hin.
Qed.

(** ** One call per file, or one call for all *)

Definition drain_event (name : str) (index total : nat) (acc : list (nat * nat * str) * FileOutcome)
    (e : PipelineProgress) : list (nat * nat * str) * FileOutcome :=
  let '(lines, o) := translate_progress name e in
  (acc.1 ++ map (fun l => (index, total, l)) lines, add_outcome acc.2 o).

Lemma drain_steps name index total acc t :
  Forall (fun e => is_step_event e = true) t -> (foldl (drain_event name index total) acc t).2 = acc.2.
Proof.
  intros H. revert acc. induction H as [|e t He _ IH]; intros acc; [done|]. simpl. rewrite IH.
  unfold drain_event, add_outcome. destruct acc as [ms [x y z]], e; try done; simpl; by rewrite !Nat.add_0_r.
Qed.

(** The tally of a call is of the one outcome among its events. *)
Lemma drain_call name index total start steps outcome finish :
  translate_progress name start = ([], no_outcome) -> translate_progress name finish = ([], no_outcome) ->
  Forall (fun e => is_step_event e = true) steps ->
  (drain name index total (start :: steps ++ [outcome; finish])).2 = (translate_progress name outcome).2.
Proof.
  intros Hs Hf Ht. unfold drain. change (fun acc e => _) with (drain_event name index total).
  cbn [foldl]. rewrite foldl_app. cbn [foldl]. unfold drain_event at 1. rewrite Hf. cbn [snd].
  unfold drain_event at 1. destruct (translate_progress name outcome) as [lines [x y z]] eqn:E. cbn [snd].
  rewrite drain_steps by done. unfold drain_event. rewrite Hs. unfold add_outcome. simpl. by rewrite !Nat.add_0_r.
Qed.

(** The counts of the batch after an outcome; [None] for a panic. *)
Definition tallied (counts : nat * nat * nat) (r : result RunFailure RunOutcome) : option (nat * nat * nat) :=
  let '(a, b, c) := counts in
  match r with
  | Ok (Completed _) => Some (S a, b, c)
  | Ok (Skipped _ _) => Some (a, S b, c)
  | Err (Fail _) => Some (a, b, S c)
  | Err Panic => None
  end.

Definition outcome_event (r : result RunFailure RunOutcome) : option PipelineProgress :=
  match r with
  | Ok (Completed out) => Some (FileComplete out)
  | Ok (Skipped out reason) => Some (FileSkipped out reason)
  | Err (Fail e) => Some (FileFailed e)
  | Err Panic => None
  end.

Definition outcome_tally (counts : nat * nat * nat) : FileOutcome :=
  let '(a, b, c) := counts in mk_outcome a b c.

Lemma run_inputs_step calls p index total input rest counts w :
  run_inputs ctx calls p index total (input :: rest) counts w =
  let '(r, w1) := run_one ctx (calls index) p input (emit [FileStart index total (default §"<unknown>" (file_name input))] w) in
  match tallied counts r, outcome_event r with
  | Some counts, Some e => run_inputs ctx calls p (S index) total rest counts (emit [e] w1)
  | _, _ => (None, w1)
  end.
Proof.
  destruct counts as [[a b] c]. cbn [run_inputs]. destruct (run_one _ _ _ _ _) as [[[]|[]] w1]; done.
Qed.

Lemma tallied_event name counts r counts' :
  tallied counts r = Some counts' ->
  exists e, outcome_event r = Some e /\
    outcome_tally counts' = add_outcome (outcome_tally counts) (translate_progress name e).2.
Proof.
  destruct counts as [[a b] c].
  destruct r as [[]|[]]; simpl; intros [= <-]; eexists; (split; [done|]); unfold add_outcome; simpl; f_equal; lia.
Qed.

(** The inputs a pipeline names are read once, before the loop. *)
Lemma run_inputs_template calls i p index total inputs counts w :
  run_inputs ctx calls (with_input i p) index total inputs counts w = run_inputs ctx calls p index total inputs counts w.
Proof.
  revert index counts w. induction inputs as [|input rest IH]; intros index counts w; [done|].
  rewrite !run_inputs_step. change (run_one ctx (calls index) (with_input i p)) with (run_one ctx (calls index) p).
  destruct (run_one _ _ _ _ _) as [r w1]. by destruct (tallied counts r), (outcome_event r).
Qed.

(** What the call for one file leaves, and what is drained from it. *)
Lemma execute_one_file calls template input w r w1 :
  run_one ctx calls template input (emit [FileStart 0 1 (default §"<unknown>" (file_name input))] w) = (r, w1) ->
  exists after,
    execute_pipeline ctx (fun _ => None) (fun _ => calls) (with_input (Some (Files [input])) template) w =
      (match outcome_event r with Some _ => Some tt | None => None end, after) /\
    same_state after w1 /\
    (forall name index total e, outcome_event r = Some e ->
       (drain name index total (drop (length (progress w)) (progress after))).2 = (translate_progress name e).2).
Proof.
  intros E. destruct (one_reports _ _ _ _ _ _ _ (run_one_spec _ _ _ _ _ _ _ E)) as (t & P & Ht).
  unfold execute_pipeline. cbn [resolve_inputs with_input pipeline_input length]. rewrite run_inputs_step.
  change (run_one ctx calls (with_input _ template)) with (run_one ctx calls template). rewrite E. cbv beta iota.
  destruct (outcome_event r) as [e|] eqn:Ee.
  - assert (exists a b c, tallied (0, 0, 0) r = Some (a, b, c)) as (a & b & c & ->)
      by (destruct r as [[]|[]]; simpl in *; eauto; done).
    eexists. split; [done|]. split; [done|]. intros name index total e' [= <-].
    cbn [emit progress]. rewrite P. cbn [emit progress]. rewrite <-!app_assoc, drop_app_length.
    by apply (drain_call name index total (FileStart 0 1 _) t e (AllComplete a b c)).
  - exists w1. split; [|split; [done|by intros]]. by destruct (tallied _ r) as [[[]]|].
Qed.

(** The operation is cancelled before the file [k], and stays so. *)
Definition cancelled_from (k : nat) (index : nat) : bool := k <=? index.

Lemma run_files_batch k calls template index total batch inputs counts s w :
  same_state (world s) w ->
  exists s',
    match run_inputs ctx calls template index batch (take (k - index) inputs) counts w with
    | (Some counts', w') =>
        run_files (cancelled_from k) calls template index total inputs (outcome_tally counts) s =
          (if length inputs <=? k - index then (Some (outcome_tally counts'), WorkerCompleted, s')
           else (None, WorkerCancelled, s')) /\ same_state (world s') w'
    | (None, w') =>
        run_files (cancelled_from k) calls template index total inputs (outcome_tally counts) s =
          (None, WorkerFailed, s') /\ same_state (world s') w'
    end.
Proof.
  revert index counts s w. induction inputs as [|input rest IH]; intros index counts s w H.
  { exists s. rewrite take_nil. done. }
  cbn [run_files length]. destruct (cancelled_from k index) eqn:Hk; unfold cancelled_from in Hk.
  { apply Nat.leb_le in Hk. exists s. replace (k - index) with 0 by lia. done. }
  apply Nat.leb_gt in Hk.
  replace (k - index) with (S (k - S index)) by lia. cbn [take Nat.leb].
  rewrite run_inputs_step. set (name := default §"<unknown>" (file_name input)).
  pose proof (run_one_proper (calls index) template input (emit [FileStart 0 1 name] (world s))
    (emit [FileStart index batch name] w) H) as [Er Hs].
  destruct (run_one ctx (calls index) template input (emit [FileStart 0 1 name] (world s))) as [r w1] eqn:E.
  destruct (run_one ctx (calls index) template input (emit [FileStart index batch name] w)) as [r' w2].
  cbn [fst snd] in Er, Hs. subst r'. cbv zeta.
  apply execute_one_file in E as (after & -> & Ha & Hd).
  destruct (tallied counts r) as [counts'|] eqn:Et.
  - destruct (tallied_event name _ _ _ Et) as (e & Ee & Hadd). rewrite Ee.
    specialize (Hd name index total e Ee). destruct (drain _ _ _ _) as [lines outcome]. cbn [snd] in Hd. subst outcome.
    specialize (IH (S index) counts' (mk_worker after ((messages s ++ [(index, total, §"Processing " ++ name)]) ++ lines))
      (emit [e] w2) ltac:(simpl; by rewrite Ha)).
    rewrite Hadd in IH. destruct IH as (s' & IH). exists s'.
    destruct (run_inputs _ _ _ _ _ _ _ _) as [[c'|] w']; exact IH.
  - assert (outcome_event r = None) as -> by (destruct counts as [[]], r as [[]|[]]; done).
    destruct (drain _ _ _ _) as [lines outcome]. eexists. split; [done|]. simpl. by rewrite Ha.
Qed.

(** C32: a call of the executor per file does what one call for the batch does.
    Whenever the operation is cancelled (before the file [k]), the directories and
    the table of runs are those of one run of the pipeline over the files before it;
    the worker fails exactly when that run panics, and is cancelled when files are
    left; otherwise it completes, and the counts it closes with are the counts the
    executor closes the batch with. *)
Theorem per_file_calls_are_the_batch k calls template inputs s :
  let '(r, w) := execute_pipeline ctx (fun _ => None) calls
                   (with_input (Some (Files (take k inputs))) template) (world s) in
  let '(finished, s') := run_pipeline_over_inputs (cancelled_from k) calls template inputs s in
  same_state (world s') w /\
  match r with
  | None => finished = WorkerFailed
  | Some _ =>
      if length inputs <=? k then
        finished = WorkerCompleted /\
        exists a b c, last (progress w) = Some (AllComplete a b c) /\
          last (messages s') = Some (length inputs, length inputs, summary (mk_outcome a b c))
      else finished = WorkerCancelled
  end.
Proof.
  unfold execute_pipeline, run_pipeline_over_inputs. cbn [with_input pipeline_input resolve_inputs].
  destruct (run_files_batch k calls template 0 (length inputs) (length (take k inputs)) inputs (0, 0, 0) s (world s)
    ltac:(done)) as (s' & H). rewrite Nat.sub_0_r in H.
  rewrite run_inputs_template.
  change (outcome_tally (0, 0, 0)) with no_outcome in H.
  destruct (run_inputs _ _ _ _ _ _ _ _) as [[[[a b] c]|] w]; destruct H as [-> H]; [|done].
  destruct (length inputs <=? k); [|done]. split; [done|]. split; [done|].
  exists a, b, c. simpl. by rewrite !last_snoc.
Qed.
End worker.

Module ProcessingExample.
Import ExecutorExample.

#[local] Existing Instance ascii_tables.
#[local] Existing Instance no_externals.

Definition template : Pipeline := convert_pipeline_template false §"/out" Zip.

(** The second of three files is missing, the output of the third is that of the
    first, and the operation is cancelled before
    the third. *)
Definition inputs : list str := [input; §"/in/missing.rar"; §"/in/game.txt"].

Definition ran (k : nat) : WorkerEnd * Worker :=
  run_pipeline_over_inputs context (fun _ => §"failed") (cancelled_from k) (fun _ => works 1 2) template inputs
    (mk_worker before []).

Lemma per_file_calls_are_the_batch_witness :
  (let '(r, w) := execute_pipeline context (fun _ => None) (fun _ => works 1 2)
                    (with_input (Some (Files (take 2 inputs))) template) before in
   let '(finished, s') := ran 2 in
   same_state (world s') w /\
   match r with
   | None => finished = WorkerFailed
   | Some _ => finished = WorkerCancelled
   end) /\
  (ran 2).1 = WorkerCancelled /\ (ran 3).1 = WorkerCompleted /\
  last (messages (ran 3).2) = Some (3, 3, §"1 succeeded, 0 skipped, 2 failed").
Proof.
  split; [|vm_compute; split_and!; reflexivity].
  exact (per_file_calls_are_the_batch context (fun _ => §"failed") 2 (fun _ => works 1 2) template inputs
    (mk_worker before [])).
Defined.

End ProcessingExample.
