(* ===== verification/Extract.v ===== *)
(** Extracting from an archive ([crates/app/src/operations/extract.rs]): what a
    request selects, what is in the way at the destination and what is done about
    it, the calls of 7-Zip with their file lists cut to the length of a command line,
    the move of renamed files out of their staging directory, and the worker of the
    operation.

    The worker is a state machine. Its steps are interleaved with every step of the
    operation registry and of the waiters for challenges. 7-Zip is what it answers. *)

From stdpp Require Import base tactics option list gmap sorting strings.
From Stdlib Require Import ZArith Lia Ascii.
From S2P Require Import Prelude Text AppError Registry Waiters RustPath EntryIndex ArchiveSession OutputTransaction FsTree Pipeline.

#[local] Arguments String.list_ascii_of_string : simpl never.
Local Open Scope arclain_scope.
Local Open Scope Z_scope.

(** * The request *)

Inductive CollisionPolicy := Ask | Overwrite | Rename | Skip.

#[export] Instance CollisionPolicy_eq_dec : EqDecision CollisionPolicy.
Proof. solve_decision. Defined.

Record ExtractRequest := mk_extract_request {
  extract_session_id : Z;
  extract_entry_ids : list N;
  destination : str;
  extract_policy : CollisionPolicy
}.

Inductive ExtractSelection := WholeArchive | FilesOf (paths : list str).

Record ExtractPlan := mk_extract_plan {
  plan_source : str;
  plan_destination : str;
  plan_password : option str;
  plan_selection : ExtractSelection
}.

(** * Errors *)

Definition is_password_error (diagnostic : str) : bool :=
  contains_str diagnostic §"Wrong password" || contains_str diagnostic §"Incorrect password"
  || contains_str diagnostic §"Password for encrypted archive not specified"
  || contains_str diagnostic §"Cannot open encrypted" || contains_str diagnostic §"Can not open encrypted"
  || contains_str diagnostic §"Enter password" || contains_str diagnostic §"code Some(2)"
  || contains_str diagnostic §"code Some(11)" || contains_str diagnostic §"code Some(255)".

Definition cli_spawn_error (cid : CorrelationId) (text : str) : ApplicationError :=
  with_recoverability (with_diagnostic (new cid Backend §"failed to start extraction") text) Retry.

(** The status of a process: its exit code, none when a signal ended it. *)
Definition debug_code (code : option N) : str :=
  match code with Some n => §"Some(" ++ decimal n ++ §")" | None => §"None" end.

Definition classify_cli_exit (cid : CorrelationId) (code : option N) (recent_output : list str) : ApplicationError :=
  let diagnostic := §"extraction process exited with code " ++ debug_code code ++ §"; recent output: "
                    ++ join §" | " recent_output in
  if is_password_error diagnostic then
    with_suggested_action (with_recoverability (with_diagnostic
      (new cid PasswordRequired §"extraction failed: the archive's contents need a password") diagnostic) UserAction)
      SupplyPassword
  else with_recoverability (with_diagnostic (new cid Backend §"extraction process failed") diagnostic) Retry.

Definition unknown_session_error (cid : CorrelationId) (sid : Z) : ApplicationError :=
  with_archive_session_id (with_recoverability (new cid NotFound §"no such archive session") Fatal) sid.

Definition unknown_entry_error (cid : CorrelationId) (sid : Z) (entry : N) : ApplicationError :=
  with_entry_id (with_archive_session_id (with_recoverability
    (new cid NotFound §"one of the requested entries does not exist in this archive session") Fatal) sid) (Z.of_N entry).

Definition missing_tool_error (cid : CorrelationId) : ApplicationError :=
  with_suggested_action (with_recoverability
    (new cid ExternalToolMissing §"the CLI tool this extraction needs is not available") UserAction) InstallExternalTool.

Definition staging_io_error (cid : CorrelationId) (path text : str) : ApplicationError :=
  with_diagnostic (new cid Internal §"failed to finalize renamed extraction output") (path ++ §": " ++ text).

(** * What 7-Zip is asked and says *)

Definition recent_output_capacity : nat := 20.

(** The last lines of output, for the diagnostic of a failure. *)
Definition remember (recent : list str) (message : option str) : list str :=
  match message with
  | Some m => (if (recent_output_capacity <=? length recent)%nat then drop 1 recent else recent) ++ [m]
  | None => recent
  end.

(** The arguments of [spawn_extract_all_with_progress] and
    [spawn_extract_files_with_progress]. *)
Definition extract_args (plan : ExtractPlan) : list str :=
  [§"x"; §"-y"; §"-mmt=on"; §"-sccUTF-8"; §"-scsUTF-8"]
  ++ [§"-p" ++ default [] (plan_password plan); §"-o" ++ plan_destination plan; plan_source plan]
  ++ match plan_selection plan with WholeArchive => [] | FilesOf files => files end.

(** [SevenZipRunner::spawn]. *)
Definition spawn (cid : CorrelationId) (source_exists : bool) (cli : option (result str unit)) (plan : ExtractPlan)
  : result ApplicationError (list str) :=
  if negb source_exists then Err (archive_not_found cid (plan_source plan))
  else
    match cli with
    | None => Err (missing_tool_error cid)
    | Some (Err text) => Err (cli_spawn_error cid text)
    | Some (Ok _) => Ok (extract_args plan)
    end.

(** * The selection and what is in the way *)

Definition validate_destination (cid : CorrelationId) (exists_there is_dir_there : bool) (d : str)
  : result ApplicationError unit :=
  if negb (has_root d) then
    Err (with_field (with_suggested_action (with_recoverability
      (new cid InvalidInput §"extraction destination must be an absolute path") UserAction) ChooseDestination)
      §"destination")
  else if exists_there && negb is_dir_there then
    Err (with_field (with_path (with_suggested_action (with_recoverability
      (new cid InvalidInput §"extraction destination exists and is not a directory") UserAction) ChooseDestination) d)
      §"destination")
  else Ok tt.

Definition resolve_selection (cid : CorrelationId) (ix : EntryIndex) (request : ExtractRequest)
  : result ApplicationError ExtractSelection :=
  match extract_entry_ids request with
  | [] => Ok WholeArchive
  | ids =>
      match resolve_extractable_paths ix ids with
      | Ok paths => Ok (FilesOf paths)
      | Err bad => Err (unknown_entry_error cid (extract_session_id request) bad)
      end
  end.

Definition candidate_paths (ix : EntryIndex) (selection : ExtractSelection) : list str :=
  match selection with WholeArchive => file_paths ix | FilesOf files => files end.

Definition colliding_paths (exists_at : str -> bool) (dest : str) (candidates : list str) : list str :=
  List.filter (fun p => exists_at (path_join dest p)) candidates.

Definition filter_out (candidates excluded : list str) : list str :=
  List.filter (fun p => negb (bool_decide (p ∈ excluded))) candidates.

Definition max_chunk_args_chars : nat := 28000.

(** The loop of [chunk_file_list]. *)
Fixpoint chunk_loop (files current : list str) (current_len : nat) : list (list str) :=
  match files with
  | [] => match current with [] => [] | _ => [current] end
  | file :: rest =>
      let added_len := (length file + 1)%nat in
      match current with
      | _ :: _ =>
          if (max_chunk_args_chars <? current_len + added_len)%nat
          then current :: chunk_loop rest [file] added_len
          else chunk_loop rest (current ++ [file]) (current_len + added_len)
      | [] => chunk_loop rest [file] (current_len + added_len)
      end
  end.

Definition chunk_file_list (files : list str) : list (list str) := chunk_loop files [] 0.

Record Resolution := mk_resolution { resolved_selection : ExtractSelection; needs_staging : bool }.

Definition chunks_of (r : Resolution) : list ExtractSelection :=
  match resolved_selection r with
  | WholeArchive => [WholeArchive]
  | FilesOf files => map FilesOf (chunk_file_list files)
  end.

(** The percentage of the whole operation. *)
Definition overall_percent (chunk_index percent total_chunks : Z) : Z := (chunk_index * 100 + percent) / total_chunks.

(** * Renamed files *)

Definition staging_dir_path (dest : str) (id : OperationId) : str :=
  path_join dest (§".arclain-extract-" ++ decimal (Z.to_N id)).

(** The name of the [n]th try. *)
Definition candidate_name (name : str) (n : nat) : str :=
  let stem := default [] (file_stem name) in
  let number := §" (" ++ decimal (N.of_nat n) ++ §")" in
  match extension name with
  | Some ext => stem ++ number ++ §"." ++ ext
  | None => stem ++ number
  end.

Section rename.
(** Which filesystem calls fail, and what a link in the staging directory leads to
    when that is a directory. *)
Context (fails : nat -> bool) (leads_to : list str -> option Node).

(** The destination, without the staging directory in it; how many calls were
    made; what was moved and where; and the paths behind a link that files were
    taken from. The last two are history only. *)
Record Landing := mk_landing {
  landed : Node;
  io_calls : nat;
  moved_files : list (list str * list str);
  taken_outside : list (list str)
}.

Definition io_called (s : Landing) : Landing :=
  mk_landing (landed s) (S (io_calls s)) (moved_files s) (taken_outside s).

Inductive RenameResult := Renamed | AlreadyExists | RenameError.

(** [rename_no_replace] of the node that was at [from]. *)
Definition rename_no_replace (outside : bool) (from to : list str) (node : Node) (s : Landing) : RenameResult * Landing :=
  if fails (io_calls s) then (RenameError, io_called s)
  else
    match node_at (landed s) to with
    | Some _ => (AlreadyExists, io_called s)
    | None =>
        match set_at (Some node) to (landed s) with
        | Some d => (Renamed, mk_landing d (S (io_calls s)) (moved_files s ++ [(from, to)])
                                (if outside then taken_outside s ++ [from] else taken_outside s))
        | None => (RenameError, io_called s)
        end
    end.

(** The numbered names from the [n]th on, [count] of them at most. *)
Fixpoint try_names (count n : nat) (outside : bool) (from dir : list str) (name : str) (node : Node) (s : Landing)
  : bool * Landing :=
  match count with
  | O => (false, s)
  | S count =>
      match rename_no_replace outside from (dir ++ [candidate_name name n]) node s with
      | (Renamed, s) => (true, s)
      | (AlreadyExists, s) => try_names count (S n) outside from dir name node s
      | (RenameError, s) => (false, s)
      end
  end.

Definition move_with_rename_on_collision (outside : bool) (from dir : list str) (name : str) (node : Node) (s : Landing)
  : bool * Landing :=
  match rename_no_replace outside from (dir ++ [name]) node s with
  | (Renamed, s) => (true, s)
  | (_, s) => try_names 999 1 outside from dir name node s
  end.

(** One entry that is not a directory: its parent is made, then it is moved. *)
Definition land (outside : bool) (dir : list str) (name : str) (node : Node) (s : Landing) : bool * Landing :=
  if fails (io_calls s) then (false, io_called s)
  else
    match create_dir_all dir (landed s) with
    | None => (false, io_called s)
    | Some d =>
        move_with_rename_on_collision outside (dir ++ [name]) dir name node
          (mk_landing d (S (io_calls s)) (moved_files s) (taken_outside s))
    end.

(** What [Path::is_dir] finds at an entry, following a link. *)
Definition dir_at (outside : bool) (p : list str) (node : Node) : option (bool * Node) :=
  match node with
  | Directory _ _ => Some (outside, node)
  | Symlink => match leads_to p with Some (Directory m es) => Some (true, Directory m es) | _ => None end
  | _ => None
  end.

(** A directory of the walk: whether it is behind a link, its path below the
    staging directory, and what is in it. *)
Definition StackItem : Type := bool * list str * Node.

(** The entries of one directory; those that are directories go on the stack. *)
Fixpoint land_entries (outside : bool) (dir : list str) (entries : list (str * Node)) (stack : list StackItem) (s : Landing)
  : bool * list StackItem * Landing :=
  match entries with
  | [] => (true, stack, s)
  | (name, node) :: rest =>
      match dir_at outside (dir ++ [name]) node with
      | Some (out, d) => land_entries outside dir rest ((out, dir ++ [name], d) :: stack) s
      | None =>
          match land outside dir name node s with
          | (true, s) => land_entries outside dir rest stack s
          | (false, s) => (false, stack, s)
          end
      end
  end.

(** The loop of [finalize_rename_policy]; [None] when it is out of fuel. *)
Fixpoint finalize_loop (fuel : nat) (stack : list StackItem) (s : Landing) : option bool * Landing :=
  match fuel with
  | O => (None, s)
  | S fuel =>
      match stack with
      | [] => (Some true, s)
      | (outside, dir, n) :: stack =>
          if fails (io_calls s) then (Some false, io_called s)
          else
            let entries := match n with Directory _ es => es | _ => [] end in
            match land_entries outside dir entries stack (io_called s) with
            | (true, stack, s) => finalize_loop fuel stack s
            | (false, _, s) => (Some false, s)
            end
      end
  end.

Definition finalize_rename_policy (fuel : nat) (staging dest : Node) : option bool * Landing :=
  finalize_loop fuel [(false, [], staging)] (mk_landing dest 0 [] []).
End rename.

(** * The worker *)

Section worker.
Context {payloads : Payloads}.
Context (id : OperationId) (request : ExtractRequest) (source_path : str) (session_password : option str).

(** The password and the number of the attempt of a chunk. *)
Record Try := mk_try { try_password : option str; try_attempt : Z }.

(** [EDrain] and [EPoll] are the two halves of a turn of the loop that watches the
    process; [EChunk r k t] is before the [k]th chunk. *)
Inductive ExtractPc :=
| EBegin
| EAdmit
| ECollide (selection : ExtractSelection)
| EPrompt (selection : ExtractSelection) (candidates colliding : list str)
| EPrompted (selection : ExtractSelection) (candidates colliding : list str) (channel : nat)
| EWaiting (selection : ExtractSelection) (candidates colliding : list str) (channel : nat)
| EResolved (r : Resolution)
| EChunk (r : Resolution) (k : nat) (t : Try)
| ESpawn (r : Resolution) (k : nat) (t : Try)
| EWatch (r : Resolution) (k : nat) (t : Try) (recent : list str)
| EDrain (r : Resolution) (k : nat) (t : Try) (recent : list str)
| EPoll (r : Resolution) (k : nat) (t : Try) (recent : list str)
| EPassword (r : Resolution) (k : nat) (t : Try)
| EPasswordAsked (r : Resolution) (k : nat) (t : Try) (channel : nat)
| EPasswordWaiting (r : Resolution) (k : nat) (t : Try) (channel : nat)
| EUnregister
| EFinalize (r : Resolution)
| EComplete
| EFail (error : ApplicationError)
| EEnd.

(** [e_index] is the index of the session now, which mutations and backfills may
    replace. [e_asked]: the index the request was resolved against, and what it selects
    of it. [e_view]: what the check for collisions saw, the index and what was at the
    destination. [e_confirmed]: the user allowed to overwrite. [e_plans]: what 7-Zip
    was started on; [e_done]: the chunks it finished; [e_final]: the staging
    directory, the destination and the calls of a finalization that succeeded.
    [e_completed]: the worker asked to complete the operation. History only. *)
Record EWorld := mk_eworld {
  e_reg : OperationRegistry;
  e_calls : list Pending;
  e_waiters : ChallengeWaiters;
  e_index : EntryIndex;
  e_pc : ExtractPc;
  e_asked : option (EntryIndex * ExtractSelection);
  e_view : option (EntryIndex * (str -> bool));
  e_confirmed : bool;
  e_resolution : option Resolution;
  e_plans : list ExtractPlan;
  e_done : list ExtractSelection;
  e_final : bool;
  e_completed : bool
}.

Definition eset_pc (k : ExtractPc) (x : EWorld) : EWorld :=
  mk_eworld (e_reg x) (e_calls x) (e_waiters x) (e_index x) k (e_asked x) (e_view x) (e_confirmed x) (e_resolution x) (e_plans x) (e_done x)
    (e_final x) (e_completed x).
Definition eset_waiters (ws : ChallengeWaiters) (k : ExtractPc) (x : EWorld) : EWorld :=
  mk_eworld (e_reg x) (e_calls x) ws (e_index x) k (e_asked x) (e_view x) (e_confirmed x) (e_resolution x) (e_plans x) (e_done x)
    (e_final x) (e_completed x).

(** The worker's own [transition], which goes on as [ok] or [failed]. *)
Definition etransition (s : OperationState) (ok failed : ExtractPc) (x : EWorld) : EWorld :=
  let '(r', rest) := run_section (PTransition id s) (e_reg x) in
  mk_eworld r' (rest ++ e_calls x) (e_waiters x) (e_index x)
    (if is_ok (transition_section id s (e_reg x)).1 then ok else failed)
    (e_asked x) (e_view x) (e_confirmed x) (e_resolution x) (e_plans x) (e_done x) (e_final x) (e_completed x).

(** The checks before anything is asked or written. *)
Definition admit_extract (cid : CorrelationId) (session : option EntryIndex) (exists_there is_dir_there tool : bool)
  : result ApplicationError ExtractSelection :=
  match session with
  | None => Err (unknown_session_error cid (extract_session_id request))
  | Some ix =>
      let? _ := validate_destination cid exists_there is_dir_there (destination request) in
      let? selection := resolve_selection cid ix request in
      if tool then Ok selection else Err (missing_tool_error cid)
  end.

(** What is decided from the look at the destination; [None] when the user has to. *)
Definition resolve_collisions (ix : EntryIndex) (exists_at : str -> bool) (selection : ExtractSelection)
  : option Resolution * list str * list str :=
  let candidates := candidate_paths ix selection in
  let colliding := colliding_paths exists_at (destination request) candidates in
  (match extract_policy request with
   | Overwrite => Some (mk_resolution selection false)
   | Rename => Some (mk_resolution selection true)
   | Skip => Some (mk_resolution (FilesOf (filter_out candidates colliding)) false)
   | Ask => match colliding with [] => Some (mk_resolution selection false) | _ => None end
   end, candidates, colliding).

Definition extract_destination (r : Resolution) : str :=
  if needs_staging r then staging_dir_path (destination request) id else destination request.

Definition nothing_selected (r : Resolution) : bool :=
  match resolved_selection r with FilesOf [] => true | _ => false end.

Definition archive_name : str := default source_path (file_name source_path).

Definition total_chunks (r : Resolution) : Z := Z.max (Z.of_nat (length (chunks_of r))) 1.

Definition plan_of (r : Resolution) (k : nat) (t : Try) (chunk : ExtractSelection) : ExtractPlan :=
  mk_extract_plan source_path (extract_destination r) (try_password t) chunk.

Definition wrong_answer_error (cid : CorrelationId) : ApplicationError :=
  new cid Internal §"expected a collision response to a collision challenge".

Definition worker_failed_error (cid : CorrelationId) (text : str) : ApplicationError :=
  with_diagnostic (new cid Internal §"extraction worker failed") text.

Definition poll_error (cid : CorrelationId) (text : str) : ApplicationError :=
  with_diagnostic (new cid Internal §"failed to poll the extraction process") text.

Definition first_try : Try := mk_try session_password 1.

(** A new chunk starts with the password of the last one. *)
Definition next_chunk (r : Resolution) (k : nat) (t : Try) : ExtractPc := EChunk r (S k) (mk_try (try_password t) 1).

Inductive extract_step : EWorld -> EWorld -> Prop :=
| e_start x : e_pc x = EBegin -> extract_step x (etransition Started EAdmit EEnd x)
| e_admit x cid (session_found : bool) exists_there is_dir_there tool : e_pc x = EAdmit ->
    extract_step x (match admit_extract cid (if session_found then Some (e_index x) else None) exists_there is_dir_there tool with
                    | Ok selection =>
                        mk_eworld (e_reg x) (e_calls x) (e_waiters x) (e_index x) (ECollide selection)
                          (Some (e_index x, selection)) (e_view x) (e_confirmed x) (e_resolution x) (e_plans x) (e_done x)
                          (e_final x) (e_completed x)
                    | Err e => eset_pc (EFail e) x
                    end)
| e_collide x sel exists_at : e_pc x = ECollide sel ->
    extract_step x (mk_eworld (e_reg x) (e_calls x) (e_waiters x) (e_index x)
      (match resolve_collisions (e_index x) exists_at sel with
       | (Some r, _, _) => EResolved r
       | (None, candidates, colliding) => EPrompt sel candidates colliding
       end) (e_asked x) (Some (e_index x, exists_at)) (e_confirmed x) (e_resolution x) (e_plans x) (e_done x) (e_final x) (e_completed x))
(* the challenge over collisions *)
| e_prompt x sel cs col : e_pc x = EPrompt sel cs col ->
    extract_step x (eset_waiters (register id (e_waiters x)).2 (EPrompted sel cs col (register id (e_waiters x)).1) x)
| e_prompted x sel cs col ch c : e_pc x = EPrompted sel cs col ch ->
    extract_step x (etransition (ChallengeState (ConfirmOverwrite c (destination request)))
      (EWaiting sel cs col ch) EUnregister x)
| e_allowed x sel cs col ch c : e_pc x = EWaiting sel cs col ch ->
    channels (e_waiters x) !! ch = Some (Delivered (ConfirmOverwriteResponse c true)) ->
    extract_step x (mk_eworld (e_reg x) (e_calls x) (e_waiters x) (e_index x) (EResolved (mk_resolution sel false))
      (e_asked x) (e_view x) true
      (e_resolution x) (e_plans x) (e_done x) (e_final x) (e_completed x))
| e_declined x sel cs col ch c : e_pc x = EWaiting sel cs col ch ->
    channels (e_waiters x) !! ch = Some (Delivered (ConfirmOverwriteResponse c false)) ->
    extract_step x (eset_pc (EResolved (mk_resolution (FilesOf (filter_out cs col)) false)) x)
| e_misanswered x sel cs col ch cid resp : e_pc x = EWaiting sel cs col ch ->
    channels (e_waiters x) !! ch = Some (Delivered resp) -> (forall c b, resp <> ConfirmOverwriteResponse c b) ->
    extract_step x (eset_pc (EFail (wrong_answer_error cid)) x)
| e_unanswered x sel cs col ch : e_pc x = EWaiting sel cs col ch ->
    channels (e_waiters x) !! ch = Some SenderDropped -> extract_step x (eset_pc EEnd x)
| e_cancelled_asking x sel cs col ch : e_pc x = EWaiting sel cs col ch ->
    is_cancelled id (e_reg x) = true -> extract_step x (eset_pc EUnregister x)
| e_unregister x : e_pc x = EUnregister -> extract_step x (eset_waiters (waiters_cancel id (e_waiters x)) EEnd x)
(* the chunks; a staging directory may not be made *)
| e_resolved x r : e_pc x = EResolved r ->
    extract_step x (mk_eworld (e_reg x) (e_calls x) (e_waiters x) (e_index x)
      (if nothing_selected r then EComplete else EChunk r 0 first_try) (e_asked x) (e_view x) (e_confirmed x) (Some r)
      (e_plans x) (e_done x) (e_final x) (e_completed x))
| e_no_staging x r cid text : e_pc x = EResolved r -> nothing_selected r = false -> needs_staging r = true ->
    extract_step x (eset_pc (EFail (staging_io_error cid (destination request) text)) x)
| e_chunk x r k t : e_pc x = EChunk r k t ->
    extract_step x (eset_pc
      (match chunks_of r !! k with
       | Some _ => if is_cancelled id (e_reg x) then EEnd else ESpawn r k t
       | None => if needs_staging r then EFinalize r else EComplete
       end) x)
| e_no_runtime x r k t : e_pc x = ESpawn r k t -> extract_step x (eset_pc EEnd x)
| e_spawn x r k t chunk cid source_exists cli : e_pc x = ESpawn r k t -> chunks_of r !! k = Some chunk ->
    extract_step x (match spawn cid source_exists cli (plan_of r k t chunk) with
                    | Ok _ => mk_eworld (e_reg x) (e_calls x) (e_waiters x) (e_index x) (EWatch r k t [])
                                (e_asked x) (e_view x) (e_confirmed x)
                                (e_resolution x) (e_plans x ++ [plan_of r k t chunk]) (e_done x) (e_final x) (e_completed x)
                    | Err e => eset_pc (EFail e) x
                    end)
| e_spawn_panics x r k t cid text : e_pc x = ESpawn r k t ->
    extract_step x (eset_pc (EFail (worker_failed_error cid text)) x)
| e_watch x r k t recent : e_pc x = EWatch r k t recent ->
    extract_step x (eset_pc (if is_cancelled id (e_reg x) then EEnd else EDrain r k t recent) x)
| e_progress x r k t recent percent message : e_pc x = EDrain r k t recent ->
    extract_step x (etransition
      (Progress (overall_percent (Z.of_nat k) percent (total_chunks r)) (Some 100) message)
      (EDrain r k t (remember recent message)) (EDrain r k t (remember recent message)) x)
| e_drained x r k t recent : e_pc x = EDrain r k t recent -> extract_step x (eset_pc (EPoll r k t recent) x)
| e_running x r k t recent : e_pc x = EPoll r k t recent -> extract_step x (eset_pc (EWatch r k t recent) x)
| e_succeeded x r k t recent chunk : e_pc x = EPoll r k t recent -> chunks_of r !! k = Some chunk ->
    extract_step x (mk_eworld (e_reg x) (e_calls x) (e_waiters x) (e_index x) (next_chunk r k t) (e_asked x) (e_view x) (e_confirmed x)
      (e_resolution x) (e_plans x) (e_done x ++ [chunk]) (e_final x) (e_completed x))
| e_exited x r k t recent cid code : e_pc x = EPoll r k t recent -> code <> Some 0%N ->
    extract_step x (eset_pc
      (let e := classify_cli_exit cid code recent in
       if bool_decide (kind e = PasswordRequired) then EPassword r k t else EFail e) x)
| e_not_polled x r k t recent cid text : e_pc x = EPoll r k t recent ->
    extract_step x (eset_pc (EFail (poll_error cid text)) x)
(* the challenge for a password *)
| e_ask_password x r k t : e_pc x = EPassword r k t ->
    extract_step x (eset_waiters (register id (e_waiters x)).2 (EPasswordAsked r k t (register id (e_waiters x)).1) x)
| e_password_asked x r k t ch c : e_pc x = EPasswordAsked r k t ch ->
    extract_step x (etransition (ChallengeState (Password c archive_name (try_attempt t)))
      (EPasswordWaiting r k t ch) EUnregister x)
| e_password x r k t ch c value : e_pc x = EPasswordWaiting r k t ch ->
    channels (e_waiters x) !! ch = Some (Delivered (PasswordResponse c value)) ->
    extract_step x (eset_pc (EChunk r k (mk_try (Some value) (try_attempt t + 1))) x)
| e_no_password x r k t ch resp : e_pc x = EPasswordWaiting r k t ch ->
    channels (e_waiters x) !! ch = Some resp -> resp <> Waiters.Waiting ->
    (forall c value, resp <> Delivered (PasswordResponse c value)) -> extract_step x (eset_pc EEnd x)
| e_cancelled_password x r k t ch : e_pc x = EPasswordWaiting r k t ch ->
    is_cancelled id (e_reg x) = true -> extract_step x (eset_pc EUnregister x)
(* the end *)
| e_finalize x r cid fails leads_to fuel staging dest ok s : e_pc x = EFinalize r ->
    finalize_rename_policy fails leads_to fuel staging dest = (Some ok, s) ->
    extract_step x (mk_eworld (e_reg x) (e_calls x) (e_waiters x) (e_index x)
      (if ok then EComplete else EFail (staging_io_error cid (destination request) []))
      (e_asked x) (e_view x) (e_confirmed x) (e_resolution x) (e_plans x) (e_done x) ok (e_completed x))
| e_complete x : e_pc x = EComplete ->
    extract_step x (let y := etransition (Completed ResultNone) EEnd EEnd x in
      mk_eworld (e_reg y) (e_calls y) (e_waiters y) (e_index y) (e_pc y) (e_asked y) (e_view y) (e_confirmed y) (e_resolution y) (e_plans y)
        (e_done y) (e_final y) true)
| e_fail x e : e_pc x = EFail e -> extract_step x (etransition (Registry.Failed e) EEnd EEnd x).

(** Runs: the worker, every other call on the registry, answers to challenges, and
    changes of the session's index. *)
Inductive extract_reach : EWorld -> Prop :=
| ereach_start r ps ws ix : extract_reach (mk_eworld r ps ws ix EBegin None None false None [] [] false false)
| ereach_worker x y : extract_reach x -> extract_step x y -> extract_reach y
| ereach_registry x r ps : extract_reach x -> step (e_reg x, e_calls x) (r, ps) ->
    extract_reach (mk_eworld r ps (e_waiters x) (e_index x) (e_pc x) (e_asked x) (e_view x) (e_confirmed x) (e_resolution x) (e_plans x)
      (e_done x) (e_final x) (e_completed x))
| ereach_waiters x ws : extract_reach x ->
    (exists cid i resp, ws = (respond cid i resp (e_waiters x)).2) \/ (exists i, ws = waiters_cancel i (e_waiters x))
      \/ (exists i, i <> id /\ ws = (register i (e_waiters x)).2) ->
    extract_reach (eset_waiters ws (e_pc x) x)
| ereach_index x ix : extract_reach x ->
    extract_reach (mk_eworld (e_reg x) (e_calls x) (e_waiters x) ix (e_pc x) (e_asked x) (e_view x) (e_confirmed x)
      (e_resolution x) (e_plans x) (e_done x) (e_final x) (e_completed x)).
End worker.
