(* ===== verification/ExtractProps.v ===== *)
(** What an extraction promises: the file lists given to 7-Zip are the selection, cut
    to fit; files that are in the way are not written over without leave; what is
    extracted under the [Rename] policy lands beside what was there; and the
    operation completes only when everything selected was extracted. *)

From stdpp Require Import base tactics option list gmap sorting strings.
From Stdlib Require Import ZArith Lia Ascii.
From S2P Require Import Prelude Text AppError Registry Waiters RustPath EntryIndex EntryIndexProps ArchiveSession OutputTransaction FsTree Staging StagingProps Pipeline Extract.

#[local] Arguments String.list_ascii_of_string : simpl never.
Local Open Scope arclain_scope.
Local Open Scope nat_scope.

(** * Chunks *)

(** The length of a file list on a command line. *)
Definition args_chars (files : list str) : nat := foldr (fun f n => length f + 1 + n) 0 files.

Lemma args_chars_app a b : args_chars (a ++ b) = args_chars a + args_chars b.
Proof. induction a as [|f a IH]; simpl; [done|]. rewrite IH. lia. Qed.

(** A chunk that fits, or a single file that does not. *)
Definition chunk_ok (chunk : list str) : Prop :=
  chunk <> [] /\ (args_chars chunk <= max_chunk_args_chars \/ length chunk = 1).

Lemma chunk_loop_spec files current n :
  n = args_chars current -> (current <> [] -> chunk_ok current) ->
  concat (chunk_loop files current n) = current ++ files /\ Forall chunk_ok (chunk_loop files current n).
Proof.
  revert current n. induction files as [|file rest IH]; intros current n -> Hok; simpl.
  { rewrite app_nil_r. destruct current as [|c current]; [by split|]. split; [cbn [concat]; by rewrite app_nil_r|].
    constructor; [by apply Hok|constructor]. }
  assert (chunk_ok [file]) as H1 by (split; [done|by right]).
  assert (args_chars [file] = length file + 1) as Hlen by (simpl; lia).
  destruct current as [|c current].
  { destruct (IH [file] (0 + (length file + 1))) as [E F]; [simpl; lia|done|]. split; [exact E|exact F]. }
  destruct (Nat.ltb_spec max_chunk_args_chars (args_chars (c :: current) + (length file + 1))) as [Hlt|Hle].
  - destruct (IH [file] (length file + 1)) as [E F]; [simpl; lia|done|]. split; [|by constructor; [apply Hok|]].
    cbn [concat]. by rewrite E.
  - destruct (IH ((c :: current) ++ [file]) (args_chars (c :: current) + (length file + 1))) as [E F].
    + rewrite args_chars_app, Hlen. done.
    + intros _. split; [done|]. left. rewrite args_chars_app, Hlen. done.
    + split; [|exact F]. rewrite E, <-app_assoc. done.
Qed.

(** The chunks are the list, in order, each on a command line that is not too
    long unless one path alone is. *)
Lemma chunk_file_list_spec files : concat (chunk_file_list files) = files /\ Forall chunk_ok (chunk_file_list files).
Proof. by apply (chunk_loop_spec files [] 0). Qed.

(** The progress stays within a percentage, and a chunk goes on where the last
    one ended. *)
Lemma overall_percent_bounds k percent total :
  (0 <= k < total)%Z -> (0 <= percent <= 100)%Z ->
  (k * 100 / total <= overall_percent k percent total <= (k + 1) * 100 / total)%Z /\
  (0 <= overall_percent k percent total <= 100)%Z.
Proof.
  intros Hk Hp. unfold overall_percent. split; [split; apply Z.div_le_mono; lia|].
  split; [apply Z.div_pos; lia|]. apply Z.div_le_upper_bound; lia.
Qed.

Lemma remember_bounded recent message :
  length recent <= recent_output_capacity -> length (remember recent message) <= recent_output_capacity.
Proof.
  unfold remember, recent_output_capacity. intros H. destruct message as [m|]; [|done].
  destruct (Nat.leb_spec 20 (length recent)); rewrite length_app; simpl; [rewrite length_drop|]; lia.
Qed.

(** * Landing *)

(** A node put where nothing was. *)
Lemma set_fresh_file k p n n' q c :
  node_at n p = None -> set_at (Some k) p n = Some n' -> file_at n q = Some c -> file_at n' q = Some c.
Proof.
  intros Hp Hset Hq. assert (p <> []) as Hne by (by intros ->).
  rewrite (set_at_miss _ _ _ _ q Hne Hset); [done|]. intros [r ->]. rewrite file_at_app, Hp in Hq. done.
Qed.

Lemma set_fresh_node k p n n' q :
  node_at n p = None -> set_at (Some k) p n = Some n' -> is_Some (node_at n q) -> is_Some (node_at n' q).
Proof.
  revert n n' q. induction p as [|c p IH]; intros n n' q Hp Hset Hq; [done|]. simpl in Hp, Hset.
  destruct n as [|m es| |]; try done. destruct q as [|d q]; [by eexists|]. simpl in Hq.
  destruct (lookup_entry d es) as [kd|] eqn:Ed; [|by destruct Hq].
  destruct p as [|c' p].
  - injection Hset as <-. simpl. destruct (decide (c = d)) as [<-|Hne].
    + rewrite Ed in Hp. done.
    + by rewrite lookup_insert_entry_ne, Ed.
  - destruct (lookup_entry c es) as [kc|] eqn:Ec; [|done].
    destruct (set_at (Some k) (c' :: p) kc) as [kc'|] eqn:Es; [|done]. injection Hset as <-. simpl.
    destruct (decide (c = d)) as [<-|Hne].
    + rewrite lookup_insert_entry. rewrite Ed in Ec. injection Ec as <-. by eapply IH.
    + by rewrite lookup_insert_entry_ne, Ed.
Qed.

Lemma create_dir_all_node p n n' q :
  create_dir_all p n = Some n' -> is_Some (node_at n q) -> is_Some (node_at n' q).
Proof.
  revert n n' q. induction p as [|c p IH]; intros n n' q; simpl; destruct n as [|m es| |]; try done;
    [by intros [= <-]|].
  destruct (create_dir_all p _) as [k'|] eqn:E; [|done]. intros [= <-] Hq. destruct q as [|d q]; [by eexists|]. simpl in *.
  destruct (lookup_entry d es) as [kd|] eqn:Ed; [|by destruct Hq].
  destruct (decide (c = d)) as [<-|Hne]; [|by rewrite lookup_insert_entry_ne, Ed].
  rewrite lookup_insert_entry. eapply IH; [exact E|]. by rewrite Ed.
Qed.

(** The directories of a tree. *)
Fixpoint dir_count (n : Node) : nat :=
  match n with Directory _ es => S (list_sum (map (fun e => dir_count e.2) es)) | _ => 0 end.

Section landing.
Context (fails : nat -> bool) (leads_to : list str -> option Node) (staging : Node).

(** The place of a staged file: its own name, or a numbered one beside it. *)
Definition lands_beside (from to : list str) : Prop :=
  exists dir name, from = dir ++ [name] /\ (to = from \/ exists n, to = dir ++ [candidate_name name n]).

(** What is always true of a landing, from the destination [dest] on. *)
Record landing_ok (dest : Node) (s : Landing) : Prop := {
  lo_files q c : file_at dest q = Some c -> file_at (landed s) q = Some c;
  lo_nodes q : is_Some (node_at dest q) -> is_Some (node_at (landed s) q);
  lo_moved from to : (from, to) ∈ moved_files s -> lands_beside from to /\ is_Some (node_at (landed s) to) /\ node_at dest to = None;
  lo_content from to c : (from, to) ∈ moved_files s -> from ∉ taken_outside s -> file_at staging from = Some c ->
    file_at (landed s) to = Some c;
  lo_distinct : NoDup (map snd (moved_files s))
}.

Lemma landing_ok_called dest s : landing_ok dest s -> landing_ok dest (io_called s).
Proof. intros []. by split. Qed.

Lemma landing_ok_dirs dest s dir d :
  landing_ok dest s -> create_dir_all dir (landed s) = Some d ->
  landing_ok dest (mk_landing d (S (io_calls s)) (moved_files s) (taken_outside s)).
Proof.
  intros [F N M C D] H. split; simpl; [| | | |done].
  - intros q c Hq. rewrite (create_dir_all_file_at _ _ _ q H). auto.
  - intros q Hq. eapply create_dir_all_node; [exact H|auto].
  - intros from to Hin. destruct (M _ _ Hin) as (Hb & Hn & Hd). split_and!; [done| |done]. by eapply create_dir_all_node.
  - intros from to c Hin Ho Hc. rewrite (create_dir_all_file_at _ _ _ to H). eauto.
Qed.

(** One move: it may be refused, and it replaces nothing. *)
Lemma rename_ok dest outside dir name to node s r s' :
  landing_ok dest s -> (outside = false -> node_at staging (dir ++ [name]) = Some node) ->
  (to = dir ++ [name] \/ exists n, to = dir ++ [candidate_name name n]) ->
  rename_no_replace fails outside (dir ++ [name]) to node s = (r, s') ->
  landing_ok dest s' /\
  match r with Renamed => moved_files s' = moved_files s ++ [(dir ++ [name], to)] | _ => moved_files s' = moved_files s end.
Proof.
  intros Hok Hnode Hto. unfold rename_no_replace.
  destruct (fails _); [intros [= <- <-]; by split; [apply landing_ok_called|]|].
  destruct (node_at (landed s) to) as [k|] eqn:En; [intros [= <- <-]; by split; [apply landing_ok_called|]|].
  destruct (set_at _ to _) as [d|] eqn:Es; [|intros [= <- <-]; by split; [apply landing_ok_called|]].
  assert (to <> []) as Hne by (by intros ->).
  intros [= <- <-]. split; [|done]. destruct Hok as [F N M C D]. split; simpl.
  - intros q c Hq. eapply set_fresh_file; eauto.
  - intros q Hq. eapply set_fresh_node; eauto.
  - intros from' to' [Hin|[= -> ->]%list_elem_of_singleton]%elem_of_app.
    + destruct (M _ _ Hin) as (Hb & Hn & Hd). split_and!; [done| |done]. by apply (set_fresh_node _ _ _ _ _ En Es).
    + split_and!; [by exists dir, name| |].
      * rewrite (set_at_hit _ _ _ _ Hne Es). by eexists.
      * destruct (node_at dest to) eqn:E; [|done]. destruct (N to) as [? Hx]; [by rewrite E|congruence].
  - intros from' to' c [Hin|[= -> ->]%list_elem_of_singleton]%elem_of_app Hout Hc.
    + eapply set_fresh_file; [exact En|exact Es|]. eapply C; [done| |done]. intros Hx. apply Hout. destruct outside; [|done]. apply elem_of_app. by left.
    + unfold file_at at 1. rewrite (set_at_hit _ _ _ _ Hne Es).
      destruct outside; [by destruct Hout; apply elem_of_app; right; left|]. unfold file_at in Hc. by rewrite Hnode in Hc.
  - rewrite map_app. apply NoDup_app. split_and!; [done| |apply NoDup_singleton].
    intros t Ht [= ->]%list_elem_of_singleton. apply list_elem_of_fmap in Ht as ([from' to'] & -> & Hin).
    destruct (M _ _ Hin) as (_ & [? Hx] & _). simpl in *. congruence.
Qed.

Lemma try_names_ok dest count n outside dir name node s ok s' :
  landing_ok dest s -> (outside = false -> node_at staging (dir ++ [name]) = Some node) ->
  try_names fails count n outside (dir ++ [name]) dir name node s = (ok, s') ->
  landing_ok dest s' /\
  exists l, moved_files s' = moved_files s ++ l /\ (ok = true -> exists to, (dir ++ [name], to) ∈ l).
Proof.
  intros Hok Hnode. revert n s Hok. induction count as [|count IH]; intros n s Hok; cbn [try_names].
  { intros [= <- <-]. split; [done|]. exists []. by rewrite app_nil_r. }
  destruct (rename_no_replace _ _ _ _ _ _) as [r s1] eqn:E.
  apply (rename_ok dest) in E as [Hok1 Hm]; [|done|done|by right; exists n]. destruct r.
  - intros [= <- <-]. split; [done|]. eexists. split; [exact Hm|]. intros _. eexists. by left.
  - intros H. destruct (IH _ _ Hok1 H) as [H1 H2]. split; [done|]. by rewrite Hm in H2.
  - intros [= <- <-]. split; [done|]. exists []. by rewrite app_nil_r, Hm.
Qed.

(** One entry that is not a directory. *)
Lemma land_ok dest outside dir name node s ok s' :
  landing_ok dest s -> (outside = false -> node_at staging (dir ++ [name]) = Some node) ->
  land fails outside dir name node s = (ok, s') ->
  landing_ok dest s' /\
  exists l, moved_files s' = moved_files s ++ l /\ (ok = true -> exists to, (dir ++ [name], to) ∈ l).
Proof.
  intros Hok Hnode. unfold land.
  assert (landing_ok dest (io_called s) /\
    exists l, moved_files (io_called s) = moved_files s ++ l /\ (false = true -> exists to, (dir ++ [name], to) ∈ l)) as Hno.
  { split; [by apply landing_ok_called|]. exists []. by rewrite app_nil_r. }
  destruct (fails _); [by intros [= <- <-]|]. destruct (create_dir_all dir _) as [d|] eqn:Ed; [|by intros [= <- <-]].
  pose proof (landing_ok_dirs _ _ _ _ Hok Ed) as Hok1. unfold move_with_rename_on_collision.
  destruct (rename_no_replace _ _ _ _ _ _) as [r s1] eqn:E.
  apply (rename_ok dest) in E as [Hok2 Hm]; [|done|done|by left]. simpl in Hm.
  destruct r; [|by intros H; apply try_names_ok with (dest := dest) in H; rewrite ?Hm in H..].
  intros [= <- <-]. split; [done|]. eexists. split; [exact Hm|]. intros _. eexists. by left.
Qed.

(** What a directory of the walk is. *)
Definition item_ok (it : StackItem) : Prop :=
  it.1.1 = false -> node_at staging it.1.2 = Some it.2 /\ tree_ok it.2.

(** The rest of the entries of a directory of the walk. *)
Definition entries_ok (outside : bool) (dir : list str) (entries : list (str * Node)) : Prop :=
  outside = false -> Forall (fun e => node_at staging (dir ++ [e.1]) = Some e.2 /\ tree_ok e.2) entries.

Lemma land_entries_ok dest outside dir entries stack s ok stack' s' :
  landing_ok dest s -> entries_ok outside dir entries -> Forall item_ok stack ->
  land_entries fails leads_to outside dir entries stack s = (ok, stack', s') ->
  landing_ok dest s' /\ Forall item_ok stack' /\ moved_files s ⊆ moved_files s' /\ stack ⊆ stack'.
Proof.
  revert stack s. induction entries as [|[name node] rest IH]; intros stack s Hok Hes Hst; cbn [land_entries].
  { intros [= <- <- <-]. done. }
  assert (entries_ok outside dir rest) as Hrest by (intros Ho; by apply Hes, Forall_cons in Ho as [_ ?]).
  assert (outside = false -> node_at staging (dir ++ [name]) = Some node /\ tree_ok node) as Hnode
    by (intros Ho; by apply Hes, Forall_cons in Ho as [? _]).
  destruct (dir_at _ _ _ _) as [[out d]|] eqn:Ed.
  - intros H. apply IH in H as (H1 & H2 & H3 & H4); [|done|done|].
    + split_and!; [done..|]. intros it Hit. apply H4. by right.
    + constructor; [|done]. intros Ho. simpl in Ho. subst out. simpl. unfold dir_at in Ed.
      destruct node; [done| |by destruct (leads_to _) as [[]|]|done]. injection Ed as -> <-. by apply Hnode.
  - destruct (land _ _ _ _ _ _) as [ok1 s1] eqn:El.
    apply (land_ok dest) in El as (Hok1 & l & Hm & _); [|done|by intros Ho; apply Hnode].
    destruct ok1; [|intros [= <- <- <-]; split_and!; [done|done|rewrite Hm; set_solver|done]].
    intros H. destruct (IH _ _ Hok1 Hrest Hst H) as (H1 & H2 & H3 & H4). split_and!; [done..| |done].
    etransitivity; [|exact H3]. rewrite Hm. set_solver.
Qed.

Lemma finalize_loop_ok dest fuel stack s r s' :
  landing_ok dest s -> Forall item_ok stack -> finalize_loop fails leads_to fuel stack s = (r, s') -> landing_ok dest s'.
Proof.
  revert stack s. induction fuel as [|fuel IH]; intros stack s Hok Hst; cbn [finalize_loop]; [by intros [= _ <-]|].
  destruct stack as [|[[outside dir] n] stack]; [by intros [= _ <-]|]. apply Forall_cons in Hst as [Hit Hst].
  pose proof (landing_ok_called _ _ Hok) as Hok1. destruct (fails _); [by intros [= _ <-]|].
  destruct (land_entries _ _ _ _ _ _ _) as [[ok stack1] s1] eqn:E.
  apply (land_entries_ok dest) in E as (Hok2 & Hst1 & _); [|done| |done].
  - destruct ok; [by apply IH|by intros [= _ <-]].
  - intros Ho. destruct (Hit Ho) as [Hn Ht]. simpl in Hn, Ht. destruct Ht as [| | |m es Hnd _ Hes]; try by constructor.
    rewrite Forall_forall in Hes |- *. intros [name node] Hin. simpl. split; [|by apply (Hes _ Hin)].
    rewrite node_at_app, Hn. simpl. by rewrite (elem_lookup_entry _ _ _ Hnd Hin).
Qed.

(** ** The walk ends, and misses nothing *)

Lemma taken_rename from to node s r s' :
  rename_no_replace fails false from to node s = (r, s') -> taken_outside s' = taken_outside s.
Proof. unfold rename_no_replace. intros H. repeat case_match; simplify_eq; done. Qed.

Lemma taken_names count n from dir name node s ok s' :
  try_names fails count n false from dir name node s = (ok, s') -> taken_outside s' = taken_outside s.
Proof.
  revert n s. induction count as [|count IH]; intros n s; cbn [try_names]; [by intros [= _ <-]|].
  destruct (rename_no_replace _ _ _ _ _ _) as [[] s1] eqn:E; apply taken_rename in E; [by intros [= _ <-]| |by intros [= _ <-]].
  intros H%IH. congruence.
Qed.

Lemma taken_land dir name node s ok s' :
  land fails false dir name node s = (ok, s') -> taken_outside s' = taken_outside s.
Proof.
  unfold land, move_with_rename_on_collision. destruct (fails _); [by intros [= _ <-]|].
  destruct (create_dir_all _ _); [|by intros [= _ <-]].
  destruct (rename_no_replace _ _ _ _ _ _) as [[] s1] eqn:E; apply taken_rename in E; simpl in E;
    [by intros [= _ <-]|intros H%taken_names; congruence..].
Qed.

(** No link of the staging directory leads to a directory. *)
Context (Hlinks : forall p, leads_to p = None).

Definition waiting_dirs (stack : list StackItem) : nat := list_sum (map (fun it => dir_count it.2) stack).

Definition inside (it : StackItem) : Prop := it.1.1 = false.

(** A file is dealt with, or still to come. *)
Definition covered (stack : list StackItem) (s : Landing) (p : list str) : Prop :=
  (exists to, (p, to) ∈ moved_files s) \/ exists it, it ∈ stack /\ it.1.2 `prefix_of` p.

Lemma dir_at_inside p node : dir_at leads_to false p node = if is_dir node then Some (false, node) else None.
Proof. unfold dir_at. destruct node; try done. by rewrite Hlinks. Qed.

Lemma land_entries_walk dest dir entries stack s ok stack' s' :
  landing_ok dest s -> entries_ok false dir entries -> Forall item_ok stack -> Forall inside stack ->
  land_entries fails leads_to false dir entries stack s = (ok, stack', s') ->
  taken_outside s' = taken_outside s /\
  (ok = true -> Forall inside stack' /\
     waiting_dirs stack' = waiting_dirs stack + list_sum (map (fun e => dir_count e.2) entries) /\
     forall p c e, file_at staging p = Some c -> e ∈ entries -> (dir ++ [e.1]) `prefix_of` p -> covered stack' s' p).
Proof.
  revert stack s. induction entries as [|[name node] rest IH]; intros stack s Hok Hes Hst Hin; cbn [land_entries].
  { intros [= <- <- <-]. split; [done|]. intros _. split_and!; [done|simpl; lia|by intros p c e _ ?%elem_of_nil]. }
  assert (entries_ok false dir rest) as Hrest by (intros Ho; by apply Hes, Forall_cons in Ho as [_ ?]).
  assert (node_at staging (dir ++ [name]) = Some node /\ tree_ok node) as [Hnode Htree]
    by (by specialize (Hes eq_refl); apply Forall_cons in Hes as [? _]).
  rewrite dir_at_inside. destruct (is_dir node) eqn:Edir.
  - intros H. pose proof H as H0.
    apply (land_entries_ok dest) in H0 as (_ & _ & _ & Hsub); [|done|done|by constructor].
    apply IH in H as (Ht & H); [|done|done|by constructor|by constructor]. split; [done|]. intros Hk.
    destruct (H Hk) as (H1 & H2 & H3). split_and!; [done|unfold waiting_dirs in *; simpl in *; lia|].
    intros p c e Hp [->|He]%elem_of_cons Hpre; [|by eapply H3]. right. eexists. split; [apply Hsub; by left|]. done.
  - destruct (land _ _ _ _ _ _) as [ok1 s1] eqn:El. pose proof (taken_land _ _ _ _ _ _ El) as Ht1.
    apply (land_ok dest) in El as (Hok1 & l & Hm & Hl); [|done|done].
    destruct ok1; [|by intros [= <- <- <-]]. intros H. pose proof H as H0.
    apply (land_entries_ok dest) in H0 as (_ & _ & Hmoved & _); [|done..].
    apply IH in H as (Ht & H); [|done..]. split; [congruence|]. intros Hk. destruct (H Hk) as (H1 & H2 & H3).
    split_and!; [done|rewrite H2; destruct node; simpl in *; try done; lia|].
    intros p c e Hp [->|He]%elem_of_cons Hpre; [|by eapply H3]. left.
    destruct Hpre as [r ->]. simpl in *. rewrite file_at_app, Hnode in Hp. simpl in Hp.
    assert (r = []) as -> by (destruct r; [done|]; by destruct node). rewrite app_nil_r.
    destruct (Hl eq_refl) as [to Hto]. exists to. apply Hmoved. rewrite Hm. apply elem_of_app. by right.
Qed.

Lemma land_entries_dirs outside dir entries stack s ok stack' s' :
  (forall it, it ∈ stack -> is_dir it.2 = true) ->
  land_entries fails leads_to outside dir entries stack s = (ok, stack', s') -> forall it, it ∈ stack' -> is_dir it.2 = true.
Proof.
  revert stack s. induction entries as [|[name node] rest IH]; intros stack s Hst; cbn [land_entries]; [by intros [= _ <- _]|].
  destruct (dir_at _ _ _ _) as [[out d]|] eqn:Ed.
  - apply IH. intros it [->|Hx]%elem_of_cons; [|by apply Hst]. simpl. unfold dir_at in Ed.
    destruct node; [done|by injection Ed as _ <-|by rewrite Hlinks in Ed|done].
  - destruct (land _ _ _ _ _ _) as [[] s1]; [by apply IH|by intros [= _ <- _]].
Qed.

Lemma finalize_loop_walk dest fuel stack s :
  landing_ok dest s -> Forall item_ok stack -> Forall inside stack -> waiting_dirs stack < fuel ->
  (forall it, it ∈ stack -> is_dir it.2 = true) ->
  exists ok s', finalize_loop fails leads_to fuel stack s = (Some ok, s') /\ taken_outside s' = taken_outside s /\
    (ok = true -> forall p c, file_at staging p = Some c -> covered stack s p -> covered [] s' p).
Proof.
  revert stack s. induction fuel as [|fuel IH]; intros stack s Hok Hst Hin Hw Hdirs; [lia|]. cbn [finalize_loop].
  destruct stack as [|[[outside dir] n] stack]; [by eexists _, _|].
  apply Forall_cons in Hst as [Hit Hst]. apply Forall_cons in Hin as [Ho Hin]. unfold inside in Ho. simpl in Ho. subst outside.
  destruct (Hit eq_refl) as [Hn Ht]. simpl in Hn, Ht. pose proof (Hdirs _ ltac:(by left)) as Hd. simpl in Hd.
  destruct (fails _); [by eexists _, _|]. destruct n as [|m es| |]; try done.
  inversion Ht as [| | |? ? Hnd _ Hes]; subst.
  assert (entries_ok false dir es) as Hent.
  { intros _. rewrite Forall_forall in Hes |- *. intros [name node] He. simpl. split; [|by apply (Hes _ He)].
    rewrite node_at_app, Hn. simpl. by rewrite (elem_lookup_entry _ _ _ Hnd He). }
  pose proof (landing_ok_called _ _ Hok) as Hok1.
  destruct (land_entries _ _ _ _ _ _ _) as [[ok stack1] s1] eqn:E. pose proof E as E1. pose proof E as E2.
  apply (land_entries_ok dest) in E1 as (Hok2 & Hst1 & Hmoved & Hsub); [|done..].
  apply (land_entries_walk dest) in E2 as (Htk & Hwalk); [|done..].
  destruct ok; [|by eexists _, _]. destruct (Hwalk eq_refl) as (Hin1 & Hw1 & Hcov).
  destruct (IH stack1 s1) as (ok & s' & Hrun & Htk' & Hall); [done..| | |].
  - unfold waiting_dirs in *. simpl in *. lia.
  - eapply land_entries_dirs; [|exact E]. intros it Hx. apply Hdirs. by right.
  - exists ok, s'. split; [done|]. split; [simpl in Htk; congruence|]. intros Hk p c Hp Hc. apply (Hall Hk p c Hp).
    destruct Hc as [[to Hto]|([[o d] k] & [[= -> -> ->]|Hx]%elem_of_cons & Hpre)].
    + left. exists to. by apply Hmoved.
    + simpl in Hpre. destruct Hpre as [r ->]. rewrite file_at_app, Hn in Hp. destruct r as [|name r]; [done|].
      cbn [mbind option_bind] in Hp. rewrite file_at_cons in Hp. destruct (lookup_entry name es) as [k|] eqn:Ek; [|done].
      eapply (Hcov _ c (name, k)); [rewrite file_at_app, Hn; cbn [mbind option_bind]; rewrite file_at_cons, Ek; exact Hp| |].
      * by apply lookup_entry_elem.
      * simpl. exists r. by rewrite <-app_assoc.
    + right. exists (o, d, k). split; [by apply Hsub|done].
Qed.
End landing.

(** C7: what is extracted under the [Rename] policy lands beside what was there.
    Whatever calls fail, when no link that was extracted leads to a directory the move
    out of the staging directory ends; every file of the destination is what it was;
    no two staged files go to one place, each goes to its own path or to a numbered name
    beside it, where nothing was, with its content; and if the move succeeds no staged
    file is left out. *)
Theorem renamed_files_land fails leads_to staging dest :
  tree_ok staging -> is_dir staging = true -> (forall p, leads_to p = None) ->
  exists ok s', finalize_rename_policy fails leads_to (S (dir_count staging)) staging dest = (Some ok, s') /\
    (forall q c, file_at dest q = Some c -> file_at (landed s') q = Some c) /\
    NoDup (map snd (moved_files s')) /\
    (forall from to, (from, to) ∈ moved_files s' ->
       lands_beside from to /\ node_at dest to = None /\
       forall c, file_at staging from = Some c -> file_at (landed s') to = Some c) /\
    (ok = true -> forall p c, file_at staging p = Some c -> exists to, (p, to) ∈ moved_files s').
Proof.
  intros Ht Hd Hl. unfold finalize_rename_policy. set (s0 := mk_landing dest 0 [] []).
  assert (landing_ok staging dest s0) as H0.
  { split; simpl; try done; [by intros from to ?%elem_of_nil|by intros from to c ?%elem_of_nil|constructor]. }
  assert (Forall (item_ok staging) [(false, [], staging)]) as Hst by (by constructor; [|constructor]).
  destruct (finalize_loop_walk fails leads_to staging Hl dest (S (dir_count staging)) [(false, [], staging)] s0)
    as (ok & s' & Hrun & Htk & Hall); [done|done|by repeat constructor|unfold waiting_dirs; simpl; lia| |].
  { by intros it ->%list_elem_of_singleton. }
  exists ok, s'. split; [done|].
  destruct (finalize_loop_ok _ _ _ _ _ _ _ _ _ H0 Hst Hrun) as [F _ M C D].
  split_and!; [done|done| |].
  - intros from to Hin. destruct (M _ _ Hin) as (Hb & _ & Hn). split_and!; [done|done|]. intros c Hc.
    eapply C; [done| |done]. rewrite Htk. apply not_elem_of_nil.
  - intros Hk p c Hp. destruct (Hall Hk p c Hp) as [H|(it & ?%elem_of_nil & _)]; [|exact H|done].
    right. eexists. split; [by left|]. simpl. apply prefix_nil.
Qed.

(** * The worker *)

Section worker.
Context {payloads : Payloads}.
Context (id : OperationId) (request : ExtractRequest) (source_path : str) (session_password : option str).

Notation extract_step := (extract_step id request source_path session_password).
Notation extract_reach := (extract_reach id request source_path session_password).

(** What the request selects, of the index the session had when it was resolved. *)
Definition selected (x : EWorld) (sel : ExtractSelection) : Prop :=
  exists cid ix, e_asked x = Some (ix, sel) /\ resolve_selection cid ix request = Ok sel.

(** The files left when those in the way are passed over. *)
Definition spared (ix : EntryIndex) (exists_at : str -> bool) (sel : ExtractSelection) : Resolution :=
  let candidates := candidate_paths ix sel in
  mk_resolution (FilesOf (filter_out candidates (colliding_paths exists_at (destination request) candidates))) false.

(** A resolution the policy allows, for what was seen. *)
Inductive allowed (ix : EntryIndex) (exists_at : str -> bool) (confirmed : bool) (sel : ExtractSelection)
  : Resolution -> Prop :=
| allowed_overwrite : extract_policy request = Overwrite -> allowed ix exists_at confirmed sel (mk_resolution sel false)
| allowed_rename : extract_policy request = Rename -> allowed ix exists_at confirmed sel (mk_resolution sel true)
| allowed_skip : extract_policy request = Skip \/ extract_policy request = Ask ->
    allowed ix exists_at confirmed sel (spared ix exists_at sel)
| allowed_ask : extract_policy request = Ask ->
    confirmed = true \/ colliding_paths exists_at (destination request) (candidate_paths ix sel) = [] ->
    allowed ix exists_at confirmed sel (mk_resolution sel false).

Definition resolution_of (x : EWorld) (r : Resolution) : Prop :=
  exists sel ix exists_at, e_view x = Some (ix, exists_at) /\ selected x sel /\ allowed ix exists_at (e_confirmed x) sel r.

(** A challenge is about what was seen. *)
Definition asking (x : EWorld) (sel : ExtractSelection) (candidates colliding : list str) : Prop :=
  selected x sel /\ extract_policy request = Ask /\ exists ix exists_at, e_view x = Some (ix, exists_at) /\
    candidates = candidate_paths ix sel /\ colliding = colliding_paths exists_at (destination request) candidates.

(** Everything that was resolved is done. *)
Definition finished (x : EWorld) : Prop :=
  exists r, e_resolution x = Some r /\ e_done x = chunks_of r /\
    (needs_staging r = true -> e_final x = true \/ chunks_of r = []).

Definition epc_ok (x : EWorld) : Prop :=
  match e_pc x with
  | ECollide sel => selected x sel
  | EPrompt sel cs col | EPrompted sel cs col _ | EWaiting sel cs col _ => asking x sel cs col
  | EResolved r => resolution_of x r
  | EChunk r k _ => e_resolution x = Some r /\ e_done x = take k (chunks_of r) /\ k <= length (chunks_of r)
  | ESpawn r k _ | EWatch r k _ _ | EDrain r k _ _ | EPoll r k _ _ | EPassword r k _ | EPasswordAsked r k _ _
  | EPasswordWaiting r k _ _ => e_resolution x = Some r /\ e_done x = take k (chunks_of r) /\ k < length (chunks_of r)
  | EFinalize r => e_resolution x = Some r /\ e_done x = chunks_of r
  | EComplete => finished x
  | _ => True
  end.

Definition early (k : ExtractPc) : bool :=
  match k with
  | EBegin | EAdmit | ECollide _ | EPrompt _ _ _ | EPrompted _ _ _ _ | EWaiting _ _ _ _ | EResolved _ => true
  | _ => false
  end.

Record extract_inv (x : EWorld) : Prop := {
  ei_early : early (e_pc x) = true -> e_resolution x = None /\ e_plans x = [] /\ e_done x = [];
  ei_pc : epc_ok x;
  ei_plans plan : plan ∈ e_plans x ->
    exists r, e_resolution x = Some r /\ plan_selection plan ∈ chunks_of r /\ plan_destination plan = extract_destination id request r;
  ei_resolution r : e_resolution x = Some r -> resolution_of x r;
  ei_completed : e_completed x = true -> e_pc x = EEnd /\ finished x
}.

(** Worlds with the same history. *)
Definition same_history (x y : EWorld) : Prop :=
  e_asked y = e_asked x /\ e_view y = e_view x /\ e_confirmed y = e_confirmed x /\ e_resolution y = e_resolution x /\ e_plans y = e_plans x /\
  e_done y = e_done x /\ e_final y = e_final x /\ e_completed y = e_completed x.

(** The worker moves on. *)
Lemma einv_move x y :
  extract_inv x -> same_history x y -> e_pc x <> EEnd -> (early (e_pc y) = true -> early (e_pc x) = true) ->
  epc_ok y -> extract_inv y.
Proof.
  intros [E P Pl R C] (Ha & Hv & Hc & Hr & Hp & Hd & Hf & Hco) Hne Hearly Hok. split; [|done| | |].
  - rewrite Hr, Hp, Hd. auto.
  - rewrite Hr, Hp. auto.
  - unfold resolution_of, selected. rewrite Hr, Hv, Hc, Ha. apply R.
  - rewrite Hco. intros H. by destruct (C H).
Qed.

Lemma etransition_cases s ok failed x :
  same_history x (etransition id s ok failed x) /\
  (e_pc (etransition id s ok failed x) = ok \/ e_pc (etransition id s ok failed x) = failed).
Proof.
  unfold etransition. destruct (run_section _ _) as [r rest]. split; [done|]. simpl. destruct (is_ok _); auto.
Qed.

Lemma einv_transition x s ok failed :
  extract_inv x -> e_pc x <> EEnd ->
  (early ok = true -> early (e_pc x) = true) -> (early failed = true -> early (e_pc x) = true) ->
  epc_ok (eset_pc ok x) -> epc_ok (eset_pc failed x) -> extract_inv (etransition id s ok failed x).
Proof.
  intros Hx Hne He1 He2 H1 H2. destruct (etransition_cases s ok failed x) as [Hs Hpc].
  eapply einv_move; [exact Hx|exact Hs|exact Hne|destruct Hpc as [-> | ->]; auto|].
  destruct Hs as (Ha & Hv & Hc & Hr & Hp & Hd & Hf & Hco). unfold epc_ok, finished, asking, resolution_of, selected in *.
  rewrite Ha, Hv, Hc, Hr, Hd, Hf. destruct Hpc as [-> | ->]; [exact H1|exact H2].
Qed.

Lemma nothing_no_chunks r : nothing_selected r = true -> chunks_of r = [].
Proof. unfold nothing_selected, chunks_of. by destruct (resolved_selection r) as [|[]]. Qed.

(** What the look at the destination decides is allowed. *)
Lemma resolve_collisions_allowed ix exists_at sel confirmed :
  match resolve_collisions request ix exists_at sel with
  | (Some r, _, _) => allowed ix exists_at confirmed sel r
  | (None, cs, col) => extract_policy request = Ask /\ cs = candidate_paths ix sel /\
      col = colliding_paths exists_at (destination request) cs
  end.
Proof.
  unfold resolve_collisions. destruct (extract_policy request) eqn:E.
  - destruct (colliding_paths _ _ _) eqn:Ec; [|done]. apply allowed_ask; [done|by right].
  - by apply allowed_overwrite.
  - by apply allowed_rename.
  - apply allowed_skip. by left.
Qed.

Lemma still_running (P : Prop) x : extract_inv x -> e_pc x <> EEnd -> e_completed x = true -> P.
Proof. intros Hx Hne H. by destruct (ei_completed _ Hx H). Qed.

(** ** The steps that add to the history *)

Lemma collide_inv x sel ex y : extract_inv x -> e_pc x = ECollide sel ->
  y = mk_eworld (e_reg x) (e_calls x) (e_waiters x) (e_index x)
        (match resolve_collisions request (e_index x) ex sel with
         | (Some r, _, _) => EResolved r
         | (None, candidates, colliding) => EPrompt sel candidates colliding
         end) (e_asked x) (Some (e_index x, ex)) (e_confirmed x) (e_resolution x) (e_plans x) (e_done x) (e_final x) (e_completed x) ->
  extract_inv y.
Proof.
  intros Hx Hpc ->. destruct (ei_early _ Hx) as (E1 & E2 & E3); [by rewrite Hpc|].
  pose proof (ei_pc _ Hx) as Hp. unfold epc_ok in Hp. rewrite Hpc in Hp.
  pose proof (resolve_collisions_allowed (e_index x) ex sel (e_confirmed x)) as Hr.
  destruct (resolve_collisions _ _ _ _) as [[res cs] col]. split; simpl; rewrite ?E1, ?E2, ?E3; try done.
  - destruct res as [r|]; [by exists sel, (e_index x), ex|]. destruct Hr as (Ha & -> & ->).
    split; [done|]. split; [done|]. by exists (e_index x), ex.
  - by intros plan ?%elem_of_nil.
  - apply still_running; [done|by rewrite Hpc].
Qed.

Lemma allowed_inv x sel cs col ch : extract_inv x -> e_pc x = EWaiting sel cs col ch ->
  extract_inv (mk_eworld (e_reg x) (e_calls x) (e_waiters x) (e_index x) (EResolved (mk_resolution sel false)) (e_asked x) (e_view x) true
    (e_resolution x) (e_plans x) (e_done x) (e_final x) (e_completed x)).
Proof.
  intros Hx Hpc. destruct (ei_early _ Hx) as (E1 & E2 & E3); [by rewrite Hpc|].
  pose proof (ei_pc _ Hx) as Hp. unfold epc_ok in Hp. rewrite Hpc in Hp. destruct Hp as (Hsel & Hask & ix & ex & Hv & -> & ->).
  split; simpl; rewrite ?E1, ?E2, ?E3; try done.
  - exists sel, ix, ex. simpl. split_and!; [done|done|]. apply allowed_ask; [done|by left].
  - by intros plan ?%elem_of_nil.
  - apply still_running; [done|by rewrite Hpc].
Qed.

Lemma resolved_inv x r : extract_inv x -> e_pc x = EResolved r ->
  extract_inv (mk_eworld (e_reg x) (e_calls x) (e_waiters x) (e_index x)
    (if nothing_selected r then EComplete else EChunk r 0 (first_try session_password)) (e_asked x) (e_view x) (e_confirmed x) (Some r)
    (e_plans x) (e_done x) (e_final x) (e_completed x)).
Proof.
  intros Hx Hpc. destruct (ei_early _ Hx) as (E1 & E2 & E3); [by rewrite Hpc|].
  pose proof (ei_pc _ Hx) as Hp. unfold epc_ok in Hp. rewrite Hpc in Hp. split; simpl; rewrite ?E2, ?E3.
  - by destruct (nothing_selected r).
  - unfold epc_ok, finished. simpl. destruct (nothing_selected r) eqn:En; [|split_and!; [done|done|lia]].
    apply nothing_no_chunks in En. exists r. rewrite En. split_and!; [done|done|]. by right.
  - by intros plan ?%elem_of_nil.
  - intros r' [= <-]. exact Hp.
  - apply still_running; [done|by rewrite Hpc].
Qed.

Lemma spawned_inv x r k t chunk : extract_inv x -> e_pc x = ESpawn r k t -> chunks_of r !! k = Some chunk ->
  extract_inv (mk_eworld (e_reg x) (e_calls x) (e_waiters x) (e_index x) (EWatch r k t []) (e_asked x) (e_view x) (e_confirmed x) (e_resolution x)
    (e_plans x ++ [plan_of id request source_path r k t chunk]) (e_done x) (e_final x) (e_completed x)).
Proof.
  intros Hx Hpc Hchunk. pose proof (ei_pc _ Hx) as Hp. unfold epc_ok in Hp. rewrite Hpc in Hp. destruct Hp as (Hr & Hd & Hk).
  split; simpl; [done|by unfold epc_ok| |apply (ei_resolution _ Hx)|].
  - intros plan [Hin|Hin]%elem_of_app; [by apply (ei_plans _ Hx)|]. apply list_elem_of_singleton in Hin as ->.
    exists r. split_and!; [done|by eapply list_elem_of_lookup_2|done].
  - apply still_running; [done|by rewrite Hpc].
Qed.

Lemma succeeded_inv x r k t recent chunk : extract_inv x -> e_pc x = EPoll r k t recent -> chunks_of r !! k = Some chunk ->
  extract_inv (mk_eworld (e_reg x) (e_calls x) (e_waiters x) (e_index x) (next_chunk r k t) (e_asked x) (e_view x) (e_confirmed x)
    (e_resolution x) (e_plans x) (e_done x ++ [chunk]) (e_final x) (e_completed x)).
Proof.
  intros Hx Hpc Hchunk. pose proof (ei_pc _ Hx) as Hp. unfold epc_ok in Hp. rewrite Hpc in Hp. destruct Hp as (Hr & Hd & Hk).
  split; simpl; [done| |apply (ei_plans _ Hx)|apply (ei_resolution _ Hx)|].
  - unfold epc_ok. simpl. split_and!; [done| |lia]. by rewrite Hd, (take_S_r _ _ _ Hchunk).
  - apply still_running; [done|by rewrite Hpc].
Qed.

Lemma finalized_inv x r error (ok : bool) : extract_inv x -> e_pc x = EFinalize r ->
  extract_inv (mk_eworld (e_reg x) (e_calls x) (e_waiters x) (e_index x) (if ok then EComplete else EFail error)
    (e_asked x) (e_view x) (e_confirmed x) (e_resolution x) (e_plans x) (e_done x) ok (e_completed x)).
Proof.
  intros Hx Hpc. pose proof (ei_pc _ Hx) as Hp. unfold epc_ok in Hp. rewrite Hpc in Hp. destruct Hp as [Hr Hd].
  split; simpl; [by destruct ok| |apply (ei_plans _ Hx)|apply (ei_resolution _ Hx)|].
  - unfold epc_ok, finished. simpl. destruct ok; [|done]. exists r. split_and!; [done|done|by left].
  - apply still_running; [done|by rewrite Hpc].
Qed.

Lemma extract_completed_inv x y : extract_inv x -> e_pc x = EComplete -> y = etransition id (Completed ResultNone) EEnd EEnd x ->
  extract_inv (mk_eworld (e_reg y) (e_calls y) (e_waiters y) (e_index y) (e_pc y) (e_asked y) (e_view y) (e_confirmed y) (e_resolution y) (e_plans y)
    (e_done y) (e_final y) true).
Proof.
  intros Hx Hpc Hy. pose proof (ei_pc _ Hx) as Hp. unfold epc_ok in Hp. rewrite Hpc in Hp.
  destruct (etransition_cases (Completed ResultNone) EEnd EEnd x) as [(Ha & Hv & Hc & Hr & Hpl & Hd & Hf & Hco) Hk].
  rewrite <- Hy in *. assert (e_pc y = EEnd) as Hend by (by destruct Hk).
  split; simpl; unfold epc_ok, finished, resolution_of, selected; simpl; rewrite ?Hend, ?Ha, ?Hv, ?Hc, ?Hr, ?Hpl, ?Hd, ?Hf; try done.
  - apply (ei_plans _ Hx).
  - apply (ei_resolution _ Hx).
Qed.

Lemma admitted_inv x cid (session_found : bool) et dt tool sel : extract_inv x -> e_pc x = EAdmit ->
  admit_extract request cid (if session_found then Some (e_index x) else None) et dt tool = Ok sel ->
  extract_inv (mk_eworld (e_reg x) (e_calls x) (e_waiters x) (e_index x) (ECollide sel) (Some (e_index x, sel)) (e_view x)
    (e_confirmed x) (e_resolution x) (e_plans x) (e_done x) (e_final x) (e_completed x)).
Proof.
  intros Hx Hpc E. destruct (ei_early _ Hx) as (E1 & E2 & E3); [by rewrite Hpc|].
  unfold admit_extract in E. destruct session_found; [|done]. simplify_result.
  split; simpl; rewrite ?E1, ?E2, ?E3; try done.
  - by exists cid, (e_index x).
  - by intros plan ?%elem_of_nil.
  - apply still_running; [done|by rewrite Hpc].
Qed.

Lemma extract_step_inv x y : extract_inv x -> extract_step x y -> extract_inv y.
Proof.
  intros Hx Hs. pose proof (ei_pc _ Hx) as Hp. unfold epc_ok in Hp.
  assert (forall k, e_pc x <> EEnd -> (early k = true -> early (e_pc x) = true) -> epc_ok (eset_pc k x) -> extract_inv (eset_pc k x))
    as Hmove by (intros k H1 H2 H3; by eapply einv_move).
  assert (forall ws k, e_pc x <> EEnd -> (early k = true -> early (e_pc x) = true) -> epc_ok (eset_pc k x) ->
    extract_inv (eset_waiters ws k x)) as Hwait by (intros ws k H1 H2 H3; by eapply einv_move).
  destruct Hs as [x Hpc|x cid session et dt tool Hpc|x sel ex Hpc|x sel cs col Hpc|x sel cs col ch c Hpc|x sel cs col ch c Hpc _
    |x sel cs col ch c Hpc _|x sel cs col ch cid resp Hpc _ _|x sel cs col ch Hpc _|x sel cs col ch Hpc _|x Hpc
    |x r Hpc|x r cid text Hpc _ _|x r k t Hpc|x r k t Hpc|x r k t chunk cid se cli Hpc Hchunk|x r k t cid text Hpc|x r k t recent Hpc
    |x r k t recent percent message Hpc|x r k t recent Hpc|x r k t recent Hpc|x r k t recent chunk Hpc Hchunk|x r k t recent cid code Hpc _
    |x r k t recent cid text Hpc|x r k t Hpc|x r k t ch c Hpc|x r k t ch c value Hpc _|x r k t ch resp Hpc _ _ _|x r k t ch Hpc _
    |x r cid fails leads_to fuel staging dest ok s Hpc _|x Hpc|x e Hpc]; rewrite Hpc in Hp;
    try (by apply einv_transition; rewrite ?Hpc); try (by apply Hmove; rewrite ?Hpc); try (by apply Hwait; rewrite ?Hpc).
  - (* admit *) destruct (admit_extract _ _ _ _ _ _) as [sel|e] eqn:E; [by eapply admitted_inv|apply Hmove; by rewrite ?Hpc].
  - (* collide *) by eapply collide_inv.
  - (* allowed *) by eapply allowed_inv.
  - (* declined *) apply Hmove; [by rewrite Hpc|by rewrite Hpc|]. destruct Hp as (Hsel & Hask & ix & ex & Hv & -> & ->).
    exists sel, ix, ex. simpl. split_and!; [done|done|]. apply allowed_skip. by right.
  - (* resolved *) by apply resolved_inv.
  - (* chunk *) destruct Hp as (Hr & Hd & Hk). apply Hmove; [by rewrite Hpc|intros H; by repeat case_match|].
    unfold epc_ok, finished. simpl. destruct (chunks_of r !! k) as [chunk|] eqn:Ek.
    + apply lookup_lt_Some in Ek. by destruct (is_cancelled _ _).
    + apply lookup_ge_None in Ek. rewrite take_ge in Hd by done. destruct (needs_staging r) eqn:En; [done|].
      exists r. split_and!; [done|done|by rewrite En].
  - (* spawn *) destruct (spawn _ _ _ _); [by apply spawned_inv|apply Hmove; by rewrite ?Hpc].
  - (* watch *) destruct (is_cancelled _ _); apply Hmove; by rewrite ?Hpc.
  - (* succeeded *) by eapply succeeded_inv.
  - (* exited *) cbv zeta. destruct (bool_decide _); apply Hmove; by rewrite ?Hpc.
  - (* password *) apply Hmove; [by rewrite Hpc|by rewrite Hpc|]. destruct Hp as (Hr & Hd & Hk). unfold epc_ok. simpl.
    split_and!; [done|done|lia].
  - (* finalize *) by eapply finalized_inv.
  - (* complete *) by eapply extract_completed_inv.
Qed.

Lemma extract_reach_inv x : extract_reach x -> extract_inv x.
Proof.
  induction 1 as [r ps ws ix|x y _ IH Hs|x r ps _ IH _|x ws _ IH _|x ix _ IH].
  - split; simpl; try done. by intros plan ?%elem_of_nil.
  - by eapply extract_step_inv.
  - destruct IH as [E P Pl R C]. by split.
  - destruct IH as [E P Pl R C]. by split.
  - destruct IH as [E P Pl R C]. by split.
Qed.

(** The files of a chunk are among those of the selection it was cut from, and a
    chunk that is a list is not an empty one. *)
Lemma chunks_of_spec ix r chunk :
  chunk ∈ chunks_of r -> chunk <> FilesOf [] /\ candidate_paths ix chunk ⊆ candidate_paths ix (resolved_selection r).
Proof.
  unfold chunks_of. destruct (resolved_selection r) as [|files]; [by intros ->%list_elem_of_singleton|].
  destruct (chunk_file_list_spec files) as [Hall Hok]. intros (c & -> & Hc)%list_elem_of_fmap.
  rewrite Forall_forall in Hok. destruct (Hok _ Hc) as [Hne _]. split; [congruence|].
  intros f Hf. simpl in *. rewrite <-Hall. apply list_elem_of_In, in_concat. exists c. by rewrite <-!list_elem_of_In.
Qed.

Lemma chunks_of_all ix r f :
  f ∈ candidate_paths ix (resolved_selection r) -> exists chunk, chunk ∈ chunks_of r /\ f ∈ candidate_paths ix chunk.
Proof.
  unfold chunks_of. destruct (resolved_selection r) as [|files]; [intros Hf; by exists WholeArchive; split; [left|]|].
  simpl. destruct (chunk_file_list_spec files) as [Hall _]. rewrite <-Hall at 1.
  intros (c & Hc & Hf)%list_elem_of_In%in_concat. exists (FilesOf c). rewrite <-list_elem_of_In in Hc. rewrite <-list_elem_of_In in Hf.
  split; [|done]. by apply list_elem_of_fmap_2.
Qed.

Lemma elem_filter_out f cs col : f ∈ filter_out cs col <-> f ∈ cs /\ f ∉ col.
Proof.
  unfold filter_out. rewrite list_elem_of_In, filter_In, <-list_elem_of_In.
  split; intros [H1 H2]; split; try done; [by case_bool_decide|by rewrite bool_decide_false].
Qed.

Lemma elem_colliding f exists_at dest cs : f ∈ colliding_paths exists_at dest cs <-> f ∈ cs /\ exists_at (path_join dest f) = true.
Proof. unfold colliding_paths. by rewrite list_elem_of_In, filter_In, <-list_elem_of_In. Qed.

(** A file that is not in the way. *)
Definition free_at (exists_at : str -> bool) (f : str) : Prop := exists_at (path_join (destination request) f) = false.

(** What a resolution writes at the destination is not in the way, unless the
    policy or the user allows it. *)
Lemma allowed_free ix exists_at confirmed sel r :
  allowed ix exists_at confirmed sel r ->
  extract_policy request = Overwrite \/ needs_staging r = true \/ (extract_policy request = Ask /\ confirmed = true) \/
  forall f, f ∈ candidate_paths ix (resolved_selection r) -> free_at exists_at f.
Proof.
  intros [H|H|H|H [Hc|Hc]]; [by left|by right; left| |by do 2 right; left|]; do 3 right; intros f Hf; unfold free_at.
  - simpl in Hf. apply elem_filter_out in Hf as [Hf Hn]. rewrite elem_colliding in Hn.
    destruct (exists_at _); [by destruct Hn|done].
  - simpl in Hf. destruct (exists_at _) eqn:E; [|done]. assert (f ∈ @nil str) as []%elem_of_nil. rewrite <-Hc. by apply elem_colliding.
Qed.
End worker.

(** What is started is a part of what was selected. *)
Lemma allowed_part ix exists_at request confirmed sel r chunk :
  allowed request ix exists_at confirmed sel r -> chunk ∈ chunks_of r ->
  match chunk with WholeArchive => sel = WholeArchive | FilesOf files => files <> [] /\ files ⊆ candidate_paths ix sel end.
Proof.
  intros Ha Hc. destruct (chunks_of_spec ix _ _ Hc) as [Hne Hsub].
  assert (candidate_paths ix (resolved_selection r) ⊆ candidate_paths ix sel) as Hr.
  { destruct Ha; try done. intros f. simpl. rewrite elem_filter_out. by intros [? _]. }
  destruct chunk as [|files]; [|split; [congruence|by etransitivity]].
  assert (resolved_selection r = WholeArchive) as H.
  { unfold chunks_of in Hc. destruct (resolved_selection r) as [|fs]; [done|]. by apply list_elem_of_fmap in Hc as (c & ? & _). }
  by destruct Ha.
Qed.

(** C6: an extraction spares what is in the way. In every run of the worker, with
    any other calls on the registry, answers and changes of the session's index in
    between, whatever 7-Zip is started on is the whole archive, which is then what the
    request selects, or a list that is not empty (7-Zip would take it for the
    whole archive) of files the request selects, of the session's indices at the time the request
    was resolved and the destination was looked at. Under [Rename] it writes to the
    operation's staging directory. Under [Skip], and under [Ask] unless the user allowed
    it, it writes to the destination only files where nothing was when the worker looked. *)
Theorem extraction_spares_collisions {payloads : Payloads} id request source_path session_password x plan :
  extract_reach id request source_path session_password x -> plan ∈ e_plans x ->
  exists cid ix0 sel ix exists_at,
    e_asked x = Some (ix0, sel) /\ resolve_selection cid ix0 request = Ok sel /\ e_view x = Some (ix, exists_at) /\
    match plan_selection plan with
    | WholeArchive => sel = WholeArchive
    | FilesOf files => files <> [] /\ files ⊆ candidate_paths ix sel
    end /\
    match extract_policy request with
    | Overwrite => plan_destination plan = destination request
    | Rename => plan_destination plan = staging_dir_path (destination request) id
    | Skip => plan_destination plan = destination request /\
        forall f, f ∈ candidate_paths ix (plan_selection plan) -> exists_at (path_join (destination request) f) = false
    | Ask => plan_destination plan = destination request /\
        (e_confirmed x = true \/
         forall f, f ∈ candidate_paths ix (plan_selection plan) -> exists_at (path_join (destination request) f) = false)
    end.
Proof.
  intros Hx%extract_reach_inv Hin. destruct (ei_plans _ _ _ Hx _ Hin) as (r & Hr & Hc & Hd).
  destruct (ei_resolution _ _ _ Hx _ Hr) as (sel & ix & ex & Hv & (cid & ix0 & Hasked & Hsel) & Ha).
  exists cid, ix0, sel, ix, ex. do 3 (split; [done|]). split; [by eapply allowed_part|].
  destruct (chunks_of_spec ix _ _ Hc) as [_ Hsub].
  apply allowed_free in Ha as Hf. rewrite Hd. unfold extract_destination.
  destruct Ha as [H|H|H|H Hk]; rewrite ?H; simpl in *; try done.
  - destruct H as [H|H]; rewrite H in *; (split; [done|]);
      destruct Hf as [?|[?|[[? ?]|Hf]]]; try done; [intros f Hf'; by apply Hf, Hsub|by left|].
    right. intros f Hf'. by apply Hf, Hsub.
  - split; [done|]. rewrite H in Hf. destruct Hf as [?|[?|[[? ?]|Hf]]]; try done; [by left|].
    right. intros f Hf'. by apply Hf, Hsub.
Qed.

(** C8: an extraction completes only when everything was extracted. In every run of
    the worker in which it asks to complete the operation, 7-Zip had finished every chunk of
    what was resolved, in order; each file the request selects, of the index the session
    had when the request was resolved (for the whole archive, when the destination was
    looked at), was in one of them, or something was in its way and the policy is [Skip] or
    [Ask]; and what was extracted to a staging directory was moved out of it. *)
Theorem completed_extraction_took_all {payloads : Payloads} id request source_path session_password x :
  extract_reach id request source_path session_password x -> e_completed x = true ->
  exists r sel ix exists_at cid ix0,
    e_resolution x = Some r /\ e_view x = Some (ix, exists_at) /\
    e_asked x = Some (ix0, sel) /\ resolve_selection cid ix0 request = Ok sel /\
    e_done x = chunks_of r /\
    (forall f, f ∈ candidate_paths ix sel ->
       (exists chunk, chunk ∈ e_done x /\ f ∈ candidate_paths ix chunk) \/
       (exists_at (path_join (destination request) f) = true /\
        (extract_policy request = Skip \/ extract_policy request = Ask))) /\
    (extract_policy request = Rename -> e_done x <> [] -> e_final x = true).
Proof.
  intros Hx%extract_reach_inv Hc. destruct (ei_completed _ _ _ Hx Hc) as [_ (r & Hr & Hd & Hf)].
  destruct (ei_resolution _ _ _ Hx _ Hr) as (sel & ix & ex & Hv & (cid & ix0 & Hasked & Hsel) & Ha).
  exists r, sel, ix, ex, cid, ix0. split_and!; try done.
  - rewrite Hd. intros f Hin.
    assert (f ∈ candidate_paths ix (resolved_selection r) \/ ex (path_join (destination request) f) = true /\
      (extract_policy request = Skip \/ extract_policy request = Ask)) as [H|H]; [|left; by apply chunks_of_all|by right].
    destruct Ha as [_|_|H|_ _]; try (by left). simpl. rewrite elem_filter_out, elem_colliding.
    destruct (ex (path_join (destination request) f)); [by right|]. left. split; [done|]. by intros [_ ?].
  - intros Hp Hne. destruct Ha as [H|H|[H|H]|H _]; try congruence. rewrite Hd in Hne. by destruct (Hf eq_refl).
Qed.

(** * Witnesses and what can be seen *)

Module ExtractExample.
#[local] Existing Instance unit_payloads.

(** The destination has a readme already. *)
Definition there (p : str) : bool := str_eqb p §"/out/mods/readme.txt".
Definition skipping : ExtractRequest := mk_extract_request 1 [] §"/out" Skip.
Definition renaming : ExtractRequest := mk_extract_request 1 [] §"/out" Rename.

Definition staged : Node :=
  Directory 493 [(§"mods", Directory 493 [(§"readme.txt", RegularFile §"new"); (§"secret.bin", RegularFile §"s")])].
Definition out : Node := Directory 493 [(§"mods", Directory 493 [(§"readme.txt", RegularFile §"old")])].
Definition no_link (p : list str) : option Node := None.
Definition works (n : nat) : bool := false.

(** One step of the worker, where everything works. *)
Definition extract_next (req : ExtractRequest) (x : EWorld) : EWorld :=
  match e_pc x with
  | EBegin => etransition 1 Started EAdmit EEnd x
  | EAdmit => match admit_extract req 1 (Some (e_index x)) true true true with
              | Ok selection => mk_eworld (e_reg x) (e_calls x) (e_waiters x) (e_index x) (ECollide selection)
                  (Some (e_index x, selection)) (e_view x) (e_confirmed x) (e_resolution x) (e_plans x) (e_done x) (e_final x) (e_completed x)
              | Err e => eset_pc (EFail e) x
              end
  | ECollide sel => mk_eworld (e_reg x) (e_calls x) (e_waiters x) (e_index x)
      (match resolve_collisions req (e_index x) there sel with
       | (Some r, _, _) => EResolved r
       | (None, candidates, colliding) => EPrompt sel candidates colliding
       end) (e_asked x) (Some (e_index x, there)) (e_confirmed x) (e_resolution x) (e_plans x) (e_done x) (e_final x) (e_completed x)
  | EResolved r => mk_eworld (e_reg x) (e_calls x) (e_waiters x) (e_index x)
      (if nothing_selected r then EComplete else EChunk r 0 (first_try None)) (e_asked x) (e_view x) (e_confirmed x) (Some r)
      (e_plans x) (e_done x) (e_final x) (e_completed x)
  | EChunk r k t => eset_pc
      (match chunks_of r !! k with
       | Some _ => if is_cancelled 1 (e_reg x) then EEnd else ESpawn r k t
       | None => if needs_staging r then EFinalize r else EComplete
       end) x
  | ESpawn r k t =>
      match chunks_of r !! k with
      | Some chunk =>
          match spawn 1 true (Some (Ok tt)) (plan_of 1 req §"/t/x.zip" r k t chunk) with
          | Ok _ => mk_eworld (e_reg x) (e_calls x) (e_waiters x) (e_index x) (EWatch r k t []) (e_asked x) (e_view x) (e_confirmed x)
                      (e_resolution x) (e_plans x ++ [plan_of 1 req §"/t/x.zip" r k t chunk]) (e_done x) (e_final x) (e_completed x)
          | Err e => eset_pc (EFail e) x
          end
      | None => eset_pc EEnd x
      end
  | EWatch r k t recent => eset_pc (if is_cancelled 1 (e_reg x) then EEnd else EDrain r k t recent) x
  | EDrain r k t recent => eset_pc (EPoll r k t recent) x
  | EPoll r k t recent =>
      match chunks_of r !! k with
      | Some chunk => mk_eworld (e_reg x) (e_calls x) (e_waiters x) (e_index x) (next_chunk r k t) (e_asked x) (e_view x) (e_confirmed x)
                        (e_resolution x) (e_plans x) (e_done x ++ [chunk]) (e_final x) (e_completed x)
      | None => eset_pc (EWatch r k t recent) x
      end
  | EFinalize r => mk_eworld (e_reg x) (e_calls x) (e_waiters x) (e_index x) EComplete
      (e_asked x) (e_view x) (e_confirmed x) (e_resolution x) (e_plans x) (e_done x) true (e_completed x)
  | EComplete => let y := etransition 1 (Completed ResultNone) EEnd EEnd x in
      mk_eworld (e_reg y) (e_calls y) (e_waiters y) (e_index y) (e_pc y) (e_asked y) (e_view y) (e_confirmed y) (e_resolution y) (e_plans y)
        (e_done y) (e_final y) true
  | _ => x
  end.

(** Where the worker goes on by itself. *)
Definition goes_on (k : ExtractPc) : bool :=
  match k with
  | EBegin | EAdmit | ECollide _ | EResolved _ | EChunk _ _ _ | ESpawn _ _ _ | EWatch _ _ _ _ | EDrain _ _ _ _
  | EPoll _ _ _ _ | EFinalize _ | EComplete => true
  | _ => false
  end.

Lemma finalized : (finalize_rename_policy works no_link 9 staged out).1 = Some true.
Proof. vm_compute. reflexivity. Qed.

Lemma extract_next_step req x :
  goes_on (e_pc x) = true -> extract_step 1 req §"/t/x.zip" None x (extract_next req x).
Proof.
  unfold extract_next. destruct (e_pc x) eqn:E; intros [=];
    try (by econstructor); try (destruct (chunks_of r !! k) eqn:Ec; by econstructor).
  { by apply (e_admit 1 req §"/t/x.zip" None x 1 true true true true). }
  destruct (finalize_rename_policy works no_link 9 staged out) as [ok s] eqn:Ef. pose proof finalized as H.
  rewrite Ef in H. simpl in H. subst ok. by apply (e_finalize 1 req §"/t/x.zip" None x r 1 works no_link 9 staged out true s).
Qed.

Fixpoint drive (req : ExtractRequest) (k : nat) (x : EWorld) : EWorld :=
  match k with O => x | S k => if goes_on (e_pc x) then drive req k (extract_next req x) else x end.

Lemma extract_drive_reach req k : forall x,
  extract_reach 1 req §"/t/x.zip" None x -> extract_reach 1 req §"/t/x.zip" None (drive req k x).
Proof.
  induction k as [|k IH]; intros x Hr; cbn [drive]; [done|]. destruct (goes_on (e_pc x)) eqn:E; [|done].
  apply IH. eapply ereach_worker; [exact Hr|by apply extract_next_step].
Qed.

Definition first : EWorld := mk_eworld demo_begun [] waiters_new EntryIndexExample.ix EBegin None None false None [] [] false false.

Definition skip_plan : ExtractPlan := mk_extract_plan §"/t/x.zip" §"/out" None (FilesOf [§"mods/data/secret.bin"]).

(** The readme in the way is passed over. *)
Lemma extraction_spares_collisions_witness :
  e_plans (drive skipping 20 first) = [skip_plan] /\ there (path_join §"/out" §"mods/data/secret.bin") = false.
Proof.
  split; [vm_compute; reflexivity|].
  assert (H : e_plans (drive skipping 20 first) = [skip_plan]) by (vm_compute; reflexivity).
  assert (Hv : e_view (drive skipping 20 first) = Some (EntryIndexExample.ix, there)) by (vm_compute; reflexivity).
  destruct (extraction_spares_collisions 1 skipping §"/t/x.zip" None (drive skipping 20 first) skip_plan)
    as (cid & ix0 & sel & ix & ex & _ & _ & Hview & _ & _ & Hfree).
  - apply extract_drive_reach, ereach_start.
  - rewrite H. by left.
  - rewrite Hview in Hv. injection Hv as -> ->. apply (Hfree §"mods/data/secret.bin"). by left.
Defined.

Lemma completed_extraction_took_all_witness :
  e_done (drive renaming 20 first) = [WholeArchive] /\ e_final (drive renaming 20 first) = true.
Proof.
  assert (Hd : e_done (drive renaming 20 first) = [WholeArchive]) by (vm_compute; reflexivity).
  destruct (completed_extraction_took_all 1 renaming §"/t/x.zip" None (drive renaming 20 first))
    as (r & sel & ix & ex & cid & ix0 & _ & _ & _ & _ & _ & _ & Hfinal).
  - apply extract_drive_reach, ereach_start.
  - vm_compute. reflexivity.
  - split; [exact Hd|]. apply Hfinal; [reflexivity|]. rewrite Hd. discriminate.
Defined.

Lemma staged_ok : tree_ok staged.
Proof. repeat first [apply (bool_decide_unpack _); vm_compute; exact I|constructor]. Qed.

(** The new readme lands beside the old one. *)
Lemma renamed_files_land_witness :
  exists s, finalize_rename_policy works no_link (S (dir_count staged)) staged out = (Some true, s) /\
    file_at (landed s) [§"mods"; §"readme.txt"] = Some §"old" /\
    file_at (landed s) [§"mods"; §"readme (1).txt"] = Some §"new".
Proof.
  destruct (renamed_files_land works no_link staged out) as (ok & s & Hrun & Hkeep & _).
  - exact staged_ok.
  - reflexivity.
  - reflexivity.
  - assert (Hok : (finalize_rename_policy works no_link (S (dir_count staged)) staged out).1 = Some true) by (vm_compute; reflexivity).
    assert (Hnew : file_at (landed (finalize_rename_policy works no_link (S (dir_count staged)) staged out).2)
      [§"mods"; §"readme (1).txt"] = Some §"new") by (vm_compute; reflexivity).
    rewrite Hrun in Hok, Hnew. simpl in Hok, Hnew. exists s. rewrite Hrun, Hok. split; [reflexivity|]. split; [|exact Hnew].
    apply Hkeep. vm_compute. reflexivity.
Defined.

(** A link that was extracted, and leads to a directory elsewhere: the files there
    are moved to the destination too. *)
Definition linked : Node := Directory 493 [(§"home", Symlink)].
Definition leads_home (p : list str) : option Node :=
  if bool_decide (p = [§"home"]) then Some (Directory 493 [(§"diary.txt", RegularFile §"dear")]) else None.

Example files_behind_links_are_taken :
  let '(r, s) := finalize_rename_policy works leads_home 9 linked out in
  r = Some true /\ taken_outside s = [[§"home"; §"diary.txt"]] /\
  file_at (landed s) [§"home"; §"diary.txt"] = Some §"dear".
Proof. vm_compute. split_and!; reflexivity. Qed.

(** 7-Zip exits with 2 for any fatal error, a full disk among them; the user is
    asked for a password. *)
Example full_disk_asks_password :
  kind (classify_cli_exit 1 (Some 2%N) [§"ERROR: There is not enough space on the disk"]) = PasswordRequired /\
  kind (classify_cli_exit 1 (Some 8%N) [§"ERROR: Can't allocate required memory"]) = Backend.
Proof. vm_compute. split; reflexivity. Qed.

(** The names of entries follow the archive on the command line as they are. *)
Example entry_named_like_a_switch :
  last (extract_args (mk_extract_plan §"/t/x.zip" §"/out" None (FilesOf [§"-oother"]))) = Some §"-oother".
Proof. reflexivity. Qed.
End ExtractExample.
